(* ===== verification/_CoqProject ===== *)
-Q . S2P
Prelude.v
FlatContainers.v
Serialization.v
Packets.v
PacketStreams.v
ClientStreams.v
Crc.v
GaloisField.v
ErasureCode.v
CodeMatrix.v
ReedSolomon.v
SliceTraits.v
ReadPlans.v
ReadPlanFacts.v
PostProcess.v
PlanBuilding.v
ChunkReads.v
ChunkRecovery.v
ReadExecution.v
PlanExecution.v
ExecutionFacts.v
ChunkReader.v
FileReads.v
ChunkStorage.v
StorageFacts.v
ChunkFiles.v
ChunkSessions.v
MediaLabel.v
Assignment.v
GoalSlices.v
CopiesCalculator.v
Optimize.v
LockRanges.v
FileLocks.v
FileLockFacts.v
LockStore.v
LockFile.v
URaft.v
URaftNet.v
URaftElection.v
URaftTimed.v
URaftPresident.v
URaftRuns.v
URaftLiveness.v
URaftController.v
