(* ===== verification/Prelude.v ===== *)
(** * SaunaFS: a verification library

    SaunaFS is a distributed file system: a metadata server (src/master) keeps the file
    tree, the file locks and the placement of chunks, chunk servers (src/chunkserver) keep
    the parts of chunks, clients (src/mount) read and write them, and uRaft (src/uraft)
    chooses which of several metadata servers is the active one.  This library models the
    parts of it that decide something and proves what they decide.  Apart from this
    file and the containers it has seven parts.

    ** Containers and generic definitions

    - Prelude (this file): outcomes of fallible code ([res]: [Ok], [Abort] for a failed
      assert, [Throw] for an exception, [Stuck] for undefined behaviour or exhausted fuel),
      machine integers with explicit wrap-around, binary search as in [std::lower_bound],
      loops with fuel, sums over lists, tactics.
    - FlatContainers: flat_set.h, flat_map.h and vector_range.h of src/common.  Hinted
      insertion equals plain insertion for every hint ([insert_hint_correct]); [flat_map]
      implements a finite map ([flat_map_refines_gmap]); the mutators of [vector_range]
      change exactly their window.

    ** Messages

    - Serialization: datapack.h and serialization.h of src/common.  The overloads for a type
      are a [format]; the classes [Lawful], [Canonical] and [Safe] state what the framework
      promises, and their instances build it for composed types.
    - Packets: protocol/packet.h and the message macros.  A built message is read back and
      only whole ([packet_roundtrip]); receivers of messages without sets and maps accept
      exactly the payloads of valid values, and never leave the buffer when there are no
      strings ([accepted_messages_exact]); strings are not safe
      ([empty_string_size_reads_outside]).
    - PacketStreams: [InputPacket] and the loops of [matoclserv_read] and [matoclserv_write].
      Whatever the system calls return, packets arrive in order, unchanged
      ([packets_delivered_in_order]) and in the end all of them ([all_packets_delivered]).
    - ClientStreams: [MessageReceiveBuffer] and what clients do with it: a reply is found
      behind keep-alive messages ([reply_is_received]); lengths near 2 ^ 32 and messages
      larger than the buffer are not handled.

    ** Checksums and erasure coding

    - Crc: common/crc.cc without crcutil.  The loops over words and bytes compute the
      bit-serial checksum ([mycrc32_exact]); the checksum of a concatenation is found from
      those of its halves ([combine_exact]).
    - GaloisField: galois_coeff.h and the field operations of galois_field_isal.cc of
      src/common, with the generated tables; the field laws.
    - ErasureCode: generator matrices, inversion ([invert_exact]), multiplication tables and
      the encoding functions, vector code included ([encode_functions_agree]).
    - CodeMatrix: every square part of the coefficients of the generator matrices is regular,
      so any k parts determine the data.
    - ReedSolomon: the coder of reed_solomon.h with its cache; after the loss of any m parts
      recovery gives back what was stored ([encode_then_recover]).

    ** Reading of chunks

    - ReadPlans: the planners slice_read_planner.cc, chunk_read_planner.h and
      slice_recovery_planner.h, the plans (read_plan.h, slice_read_plan.h, xor_read_plan.h,
      ec_read_plan.h), block_xor.cc and the check of a plan.  The size of a block is a
      parameter; the memory of a plan is one list of bytes and pointers are offsets.
    - ReadPlanFacts: memory, block sums, and what the blocks of every part of a chunk are.
    - PostProcess: whichever sufficient parts were read, post-processing restores the
      requested ones.
    - PlanBuilding: the plans read distinct parts to disjoint places of the buffer.
    - ChunkReads: a planned read returns exactly the blocks of the chunk
      ([chunk_read_exact]).
    - ChunkRecovery: a planned recovery returns exactly the blocks of the part
      ([recovery_exact]); the sizes of plans fit their type ([plan_sizes_fit_int]).
    - ReadExecution: common/read_operation_executor.cc, the reading of a part from a chunk
      server, as a machine in a monad with exceptions.  An answer that has no more blocks
      than were asked for is received exactly, however it is cut into pieces
      ([read_operation_exact]); a block more overwrites other memory
      ([extra_blocks_overwrite]).
    - PlanExecution and ExecutionFacts: common/read_plan_executor.cc and
      common/chunkserver_stats.cc.  The waves of read operations run against an environment
      that says for every round what [connect], [poll], [recv] and the clock do.
    - ChunkReader and FileReads: mount/chunk_reader.cc and [read_to_buffer] of
      mount/readdata.cc on top of all of the above.  What a client gets from a read is what
      the file has ([read_file_exact]), and it gets it when nothing fails
      ([read_file_completes]).  Failing tries release cache memory twice
      ([reservation_released_twice]).

    ** Storage of chunks

    - ChunkStorage: a chunk with its metadata and data file on a chunk server: cmr_disk.cc,
      cmr_chunk.cc, chunk_with_fd.cc, disk_with_fd.cc, chunk_signature.cc and hdd_utils.cc of
      src/chunkserver/chunkserver-common, and the operations on chunks of
      src/chunkserver/hddspacemgr.cc.  The state [disk] holds the record of the chunk, its
      entry among the open chunks and the two files; a script says which system calls fail
      or transfer less than they are asked for.
    - StorageFacts: what writes, holes and checksums do to the bytes of the files.
    - ChunkFiles: the invariant [sound] of the files of a chunk, and what opening, closing,
      new versions, truncation and the test of a chunk do.
    - ChunkSessions: the jobs that write what clients send (bgjobs.cc, io_buffers.cc), and the
      refinement of all operations by operations on bytes, while no system call fails
      ([chunk_is_its_bytes]).  A write that fails leaves the other blocks of a chunk in order
      alone ([failed_write_isolated]); the test of an open chunk finds damage exactly when a
      block does not have its checksum ([test_finds_damage]).  A failed opening, version 0 and a
      failed deletion are not handled ([failed_open_loses_checksums],
      [version_zero_breaks_chunk], [delete_reports_success]).

    ** Placement of chunks

    - SliceTraits: slice types and chunk part types (slice_traits.h, chunk_part_type.h,
      goal.h of src/common): numbering of types, numbers of parts, the share of every part
      in the blocks and bytes of a chunk.
    - MediaLabel: the interning of labels (media_label.cc).
    - Assignment: the auction algorithm of linear_assignment_optimizer.h.  It terminates
      and is optimal ([auction_is_optimal]).
    - GoalSlices: labels, slices and goals (goal.h, goal.cc); merging two slices finds the
      pairing of their parts with the least sum of label distances ([slice_merge_is_optimal]),
      which uses Assignment; this pairing need not add the fewest copies
      ([merge_not_fewest_copies]).
    - CopiesCalculator and Optimize: chunk_copies_calculator.cc and
      linear_assignment_cache.h.  [Calculator.t] is the C++ object; the theorems give the
      exact meaning of the redundancy level (how many losses a chunk survives), of the
      numbers of copies to recover and to remove, of the removal test, and show that
      [optimize] reorders the target parts optimally, with or without its cache.

    ** File locks

    - LockRanges: [LockRange] and [LockRanges] of src/master/locks.cc.  The set of ranges is
      related to a function from bytes to locks: insertion and collision check are
      pointwise ([lock_insert_pointwise], [lock_collision_exact]).
    - FileLocks: [FileLocks] (active and pending locks per inode), the lock operations of
      src/master/filesystem_operations.cc, their replay (src/master/restore.cc) and the
      packet handlers of src/master/matoclserv.cc.
    - FileLockFacts: the invariant of the locks and its preservation by every sequence of
      operations ([locks_mutual_exclusion]), what is granted and reported, and the cases in
      which waiters are woken without their lock, a waiter is missed, or replay differs.
    - LockStore and LockFile: storing followed by loading restores the lock at every byte,
      for the records and, with the formats of Serialization, for the bytes of the metadata
      file ([lock_file_roundtrip]).

    ** uRaft

    - URaft: a node of src/uraft/uraft.cc.  [URaft.t] is [RaftState] with the other members;
      every handler of a timer or packet is a function to the new state and the list of its
      effects (packets, timers, calls of the virtual functions).
    - URaftNet and URaftElection: a cluster of nodes and the packets ever sent, as a step
      relation: packets may be lost, repeated and reordered, running timers fire at any
      moment.  As long as the metadata server of no follower dies, no two nodes lead in a
      term at the same moment ([one_leader_per_term]), and a leader was chosen by a quorum
      without a newer version ([leader_has_newest_version]).
    - URaftLiveness: an election that enough servers are willing to support succeeds.
    - URaftTimed and URaftPresident: the cluster with a clock and deadlines of timers.
      There is one president at a time when a president tolerates no lost heartbeat and the
      metadata server of no follower dies ([one_president]).
    - URaftRuns: executions of both clusters; two presidents with the default options, a
      leader aborted by an old packet, a vote cast twice, a silent node counted as loyal.
    - URaftController: uraftcontroller.cc on top of a node: the helper commands that promote
      and demote the metadata server never overlap ([commands_never_overlap]), but the
      clean-up may run beside a promotion ([cleanup_overlaps_promotion]); only a node with a healthy metadata
      server stands for election, and what the outcome of a promotion leads to.

    ** Bounds and fuel

    Loops that are not structural run with fuel and the theorems show that it is enough:
    [while_loop] of this file has room for 2 ^ 64 iterations, [bsearch] uses the length of
    the list, the loops over lock ranges use the length of the set.  Integers keep their
    width where the code can overflow (label counts, part counts, identifiers of inodes,
    local time of uRaft); the theorems that need small values say so.  The steps of uRaft
    exclude the end of the 64-bit term; the timed theorem holds for runs of less than 2 ^ 31
    milliseconds, because the code overflows then ([silent_node_counts_as_loyal]).

    ** Assumptions

    Asserts are compiled in, as in the default and RelWithDebInfo builds.  Erasure coding is
    built without the external ISA-L library, checksums without crcutil and for a
    little-endian machine; the buffers of the coder do not overlap.  uRaft nodes do
    not restart (term and vote are not stored), their clocks run at the same speed, the
    heartbeat timer fires when it is due, and a packet takes at least a millisecond.  The
    answers of the helper script, of [fork] and of [nodeGetVersion] are arguments.  A chunk
    is used by one thread at a time (its lock is held), its disk is not a zoned device, and
    the trash for deleted chunks is not enabled.

    ** Not modelled

    Code whose behaviour is input and output (sockets, the event loop, the key-value back
    ends, processes), command line tools and the NFS-Ganesha plug-in; of the metadata
    server the file tree, its tasks, sessions and connections apart from the locks; of the
    chunk servers the reading for clients, duplication, replication, the choice of disks,
    scans, threads and connections; of the clients all but the receiving of messages and the reading of ranges of files (the cache of
    read data and read-ahead are left out); access control lists, quotas, identifier
    pools and the other messages of the protocol. *)

From Stdlib Require Export ZArith Lia.
From stdpp Require Export sorting.
From stdpp Require Export strings.
From stdpp Require Export prelude gmap.

#[global] Set Default Goal Selector "!".
Declare Scope saunafs_scope.
Delimit Scope saunafs_scope with safs.
Open Scope Z_scope.

(** ** Outcomes of fallible code

    [Ok] is a normal return, [Abort] a failed C++ [assert], [Throw] a C++
    exception, [Stuck] undefined behaviour or an exhausted fuel argument of a loop
    model. *)
Inductive res (A : Type) : Type :=
| Ok (a : A)
| Abort
| Throw
| Stuck.
Arguments Ok {A} _.
Arguments Abort {A}.
Arguments Throw {A}.
Arguments Stuck {A}.

#[global] Instance res_ret : MRet res := fun A a => Ok a.
#[global] Instance res_bind : MBind res := fun A B f m =>
  match m with
  | Ok a => f a
  | Abort => Abort
  | Throw => Throw
  | Stuck => Stuck
  end.

(** A C++ [assert]: the continuation runs only when the condition holds. *)
Definition assertion {A} (b : bool) (k : res A) : res A := if b then k else Abort.

(** ** Machine integers: values are kept in [Z], wrap-around is explicit. *)
Definition wrapu (w z : Z) : Z := z mod 2 ^ w.
Definition wraps (w z : Z) : Z := (z + 2 ^ (w - 1)) mod 2 ^ w - 2 ^ (w - 1).
Abbreviation u8 := (wrapu 8).
Abbreviation u16 := (wrapu 16).
Abbreviation u32 := (wrapu 32).
Abbreviation u64 := (wrapu 64).
Abbreviation i32 := (wraps 32).

(** [numeric_limits<int>::min()] and [max()] *)
Definition INT_MIN : Z := - 2 ^ 31.
Definition INT_MAX : Z := 2 ^ 31 - 1.

(** ** Binary search

    The loop of [std::lower_bound] / [std::upper_bound]: the first index of
    [first, first + len) at which the predicate [p] ("the element is to the
    left of the boundary") is false, provided the range is partitioned by [p]. *)
Fixpoint bsearch_go {A} (fuel : nat) (p : A → bool) (l : list A) (first len : nat) : nat :=
  match fuel with
  | O => first
  | S fuel' =>
      if Nat.eqb len 0 then first
      else
        let half := Nat.div len 2 in
        let middle := (first + half)%nat in
        match l !! middle with
        | None => first
        | Some x =>
            if p x then bsearch_go fuel' p l (S middle) (len - half - 1)
            else bsearch_go fuel' p l first half
        end
  end.

Definition bsearch {A} (p : A → bool) (l : list A) : nat :=
  bsearch_go (length l) p l 0 (length l).

(** [std::lower_bound(begin, end, v, comp)] with [lt_v x = comp(x, v)]. *)
Definition lower_bound {A} (lt_v : A → bool) (l : list A) : nat := bsearch lt_v l.
(** [std::upper_bound(begin, end, v, comp)] with [v_lt x = comp(v, x)]. *)
Definition upper_bound {A} (v_lt : A → bool) (l : list A) : nat :=
  bsearch (fun x => negb (v_lt x)) l.

(** The reference: length of the longest prefix on which [p] holds. *)
Fixpoint plen {A} (p : A → bool) (l : list A) : nat :=
  match l with
  | [] => O
  | x :: l' => if p x then S (plen p l') else O
  end.

(** [p] never becomes true again after it was false. *)
Definition partitioned {A} (p : A → bool) (l : list A) : Prop :=
  ∀ (i j : nat) (x y : A), (i ≤ j)%nat → l !! i = Some x → l !! j = Some y → p y = true → p x = true.

(** [std::vector::insert(begin() + i, x)] and [erase(begin() + i)]. *)
Definition vinsert {A} (i : nat) (x : A) (l : list A) : list A := take i l ++ x :: drop i l.
Definition verase {A} (i : nat) (l : list A) : list A := take i l ++ drop (S i) l.

Definition zsum (l : list Z) : Z := foldr Z.add 0 l.
Arguments zsum : simpl never.

(** ** Loops

    [iterate k body s] runs at most [2 ^ k] iterations of a loop body; the body
    answers [inl s'] to go on and [inr r] to leave the loop.  [while_loop] is the
    loop with room for [2 ^ 64] iterations: because an iteration that leaves the
    loop stops the evaluation, the budget costs nothing when it is not used. *)
Fixpoint iterate {S R} (k : nat) (body : S → res (S + R)) (s : S) : res (S + R) :=
  match k with
  | O => body s
  | Datatypes.S k' =>
      match iterate k' body s with
      | Ok (inl s') => iterate k' body s'
      | r => r
      end
  end.

Definition while_loop {S R} (body : S → res (S + R)) (s : S) : res R :=
  match iterate 64 body s with
  | Ok (inr r) => Ok r
  | Ok (inl _) => Stuck
  | Abort => Abort
  | Throw => Throw
  | Stuck => Stuck
  end.

(** ** Automation *)

(** Split on a boolean integer comparison in the goal or a hypothesis. *)
Ltac zcase1 :=
  match goal with
  | |- context [Z.ltb ?a ?b] => destruct (Z.ltb_spec a b)
  | |- context [Z.leb ?a ?b] => destruct (Z.leb_spec a b)
  | |- context [Z.eqb ?a ?b] => destruct (Z.eqb_spec a b)
  | |- context [Z.gtb ?a ?b] => rewrite (Z.gtb_ltb a b)
  | |- context [Z.geb ?a ?b] => rewrite (Z.geb_leb a b)
  | H : context [Z.ltb ?a ?b] |- _ => destruct (Z.ltb_spec a b)
  | H : context [Z.leb ?a ?b] |- _ => destruct (Z.leb_spec a b)
  | H : context [Z.eqb ?a ?b] |- _ => destruct (Z.eqb_spec a b)
  | H : context [Z.gtb ?a ?b] |- _ => rewrite (Z.gtb_ltb a b) in H
  | H : context [Z.geb ?a ?b] |- _ => rewrite (Z.geb_leb a b) in H
  end.
Ltac zcases := repeat (zcase1; simpl in *; try lia; try congruence).

(** Equality of tuples of integers. *)
Ltac tuple_lia :=
  repeat match goal with |- (_, _) = (_, _) => apply pair_equal_spec; split end; try done; lia.

(** ** Lemmas on outcomes *)

Lemma res_bind_Ok {A B} (m : res A) (f : A → res B) (b : B) :
  m ≫= f = Ok b ↔ ∃ a, m = Ok a ∧ f a = Ok b.
Proof. destruct m; naive_solver. Qed.

(** To show that a computation succeeds with [P], evaluate it. *)
Lemma res_computes {A} (m : res A) (P : A → Prop) :
  (match m with Ok a => P a | _ => False end) → ∃ a, m = Ok a ∧ P a.
Proof. destruct m as [a| | |]; [by exists a|done..]. Qed.

Lemma assertion_Ok {A} (b : bool) (k : res A) (a : A) :
  assertion b k = Ok a ↔ b = true ∧ k = Ok a.
Proof. destruct b; simpl; naive_solver. Qed.

(** ** Lemmas on machine integers *)

Lemma wrapu_range w z : 0 <= w → 0 <= wrapu w z < 2 ^ w.
Proof. intros Hw. apply Z.mod_pos_bound, Z.pow_pos_nonneg; lia. Qed.

Lemma wrapu_small w z : 0 <= z < 2 ^ w → wrapu w z = z.
Proof. apply Z.mod_small. Qed.

Lemma wraps_small w z : 0 < w → - 2 ^ (w - 1) <= z < 2 ^ (w - 1) → wraps w z = z.
Proof.
  intros Hw Hz. unfold wraps.
  assert (2 ^ w = 2 * 2 ^ (w - 1)) as E
    by (rewrite <- Z.pow_succ_r by lia; f_equal; lia).
  rewrite Z.mod_small; lia.
Qed.

(** ** Lemmas on binary search *)

Lemma plen_le {A} (p : A → bool) l : (plen p l ≤ length l)%nat.
Proof. induction l as [|x l IH]; simpl; [lia|destruct (p x); simpl; lia]. Qed.

Lemma plen_lookup_lt {A} (p : A → bool) l i x :
  (i < plen p l)%nat → l !! i = Some x → p x = true.
Proof.
  revert i; induction l as [|y l IH]; intros i Hi Hl; simpl in *; [lia|].
  destruct (p y) eqn:E; [|lia].
  destruct i as [|i]; simpl in Hl; [congruence|]. apply (IH i); [lia|done].
Qed.

Lemma plen_lookup_eq {A} (p : A → bool) l x : l !! plen p l = Some x → p x = false.
Proof.
  induction l as [|y l IH]; simpl; [done|].
  destruct (p y) eqn:E; simpl; [apply IH|congruence].
Qed.

Lemma plen_lookup_ge {A} (p : A → bool) l i x :
  partitioned p l → (plen p l ≤ i)%nat → l !! i = Some x → p x = false.
Proof.
  intros Hp Hi Hx. destruct (p x) eqn:E; [|done].
  assert (plen p l < length l)%nat as Hlt
    by (apply lookup_lt_Some in Hx; lia).
  destruct (lookup_lt_is_Some_2 l _ Hlt) as [y Hy].
  pose proof (plen_lookup_eq _ _ _ Hy).
  rewrite (Hp _ _ y x Hi Hy Hx E) in *. done.
Qed.

Lemma bsearch_go_spec {A} (p : A → bool) l fuel first len :
  partitioned p l →
  (len ≤ fuel)%nat → (first ≤ plen p l ≤ first + len)%nat → (first + len ≤ length l)%nat →
  bsearch_go fuel p l first len = plen p l.
Proof.
  intros Hp. revert first len; induction fuel as [|fuel IH]; intros first len Hf Hb Hl;
    cbn [bsearch_go]; cbv zeta.
  - lia.
  - destruct (Nat.eqb_spec len 0) as [->|Hne]; [lia|].
    pose proof (Nat.div_lt len 2 ltac:(lia) ltac:(lia)) as Hhalf.
    set (half := Nat.div len 2) in *.
    destruct (lookup_lt_is_Some_2 l (first + half)) as [x Hx]; [lia|].
    rewrite Hx. destruct (p x) eqn:E.
    + apply IH; try lia.
      destruct (decide (plen p l ≤ first + half)%nat) as [Hle|]; [|lia].
      rewrite (plen_lookup_ge p l _ _ Hp Hle Hx) in E. done.
    + apply IH; try lia.
      destruct (decide (first + half < plen p l)%nat) as [Hlt|]; [|lia].
      rewrite (plen_lookup_lt p l _ _ Hlt Hx) in E. done.
Qed.

Lemma bsearch_plen {A} (p : A → bool) l : partitioned p l → bsearch p l = plen p l.
Proof.
  intros Hp. apply bsearch_go_spec; try done; pose proof (plen_le p l); lia.
Qed.

Lemma partitioned_sorted {A} (R : relation A) (p : A → bool) l :
  StronglySorted R l → (∀ x y, R x y → p y = true → p x = true) → partitioned p l.
Proof.
  intros Hs Hm i j x y Hij Hx Hy Hpy.
  destruct (decide (i = j)) as [->|]; [congruence|].
  revert i j Hij Hx Hy n. induction Hs as [|z l Hs IH Hz]; intros i j Hij Hx Hy n; [done|].
  destruct j as [|j]; [lia|]. simpl in Hy. destruct i as [|i]; simpl in Hx.
  - injection Hx as ->. rewrite Forall_forall in Hz.
    apply (Hm x y); [|done]. apply Hz, list_elem_of_lookup. eauto.
  - apply (IH i j); [lia|done..|lia].
Qed.

Lemma plen_split {A} (p : A → bool) l :
  Forall (fun x => p x = true) (take (plen p l) l).
Proof.
  induction l as [|x l IH]; simpl; [done|].
  destruct (p x) eqn:E; simpl; [by constructor|done].
Qed.

Lemma plen_drop_head {A} (p : A → bool) l x l' :
  drop (plen p l) l = x :: l' → p x = false.
Proof.
  intros H. apply (plen_lookup_eq p l).
  rewrite <- (Nat.add_0_r (plen p l)), <- lookup_drop, H. done.
Qed.

Lemma plen_unique {A} (p : A → bool) l k :
  partitioned p l → (k ≤ length l)%nat →
  (∀ x, k ≠ O → l !! Nat.pred k = Some x → p x = true) →
  (∀ x, l !! k = Some x → p x = false) → plen p l = k.
Proof.
  intros Hp Hk Hl Hr.
  destruct (decide (plen p l < k)%nat) as [Hlt|Hge].
  - destruct k as [|k]; [lia|].
    destruct (lookup_lt_is_Some_2 l k) as [x Hx]; [lia|].
    pose proof (Hl x ltac:(lia) Hx) as E.
    rewrite (plen_lookup_ge p l k x Hp ltac:(lia) Hx) in E. done.
  - destruct (decide (k < plen p l)%nat) as [Hlt|]; [|lia].
    pose proof (plen_le p l).
    destruct (lookup_lt_is_Some_2 l k) as [x Hx]; [lia|].
    pose proof (plen_lookup_lt p l k x Hlt Hx). rewrite (Hr x Hx) in *. done.
Qed.

(** ** Total correctness of loops

    An invariant and a measure: if every iteration from a state of the invariant
    either leaves the loop in a good result or reaches a state of the invariant with
    a smaller measure, and the initial measure is below the budget, the loop returns
    a good result. *)
Section loops.
Context {S R : Type} (body : S → res (S + R)) (Inv : S → Prop) (mu : S → Z) (Post : R → Prop).
Hypothesis body_ok : ∀ s, Inv s →
  (∃ r, body s = Ok (inr r) ∧ Post r) ∨
  (∃ s', body s = Ok (inl s') ∧ Inv s' ∧ 0 <= mu s' < mu s).

Lemma iterate_spec k s :
  Inv s → (∃ r, iterate k body s = Ok (inr r) ∧ Post r) ∨
          (∃ s', iterate k body s = Ok (inl s') ∧ Inv s' ∧ 0 <= mu s' ∧ mu s' + 2 ^ Z.of_nat k <= mu s).
Proof.
  revert s. induction k as [|k IH]; intros s Hs; cbn [iterate].
  - destruct (body_ok s Hs) as [?|(s' & ? & ? & ?)]; [by left|]. right. exists s'.
    repeat split; try done; simpl; lia.
  - destruct (IH s Hs) as [(r & -> & ?)|(s' & -> & Hs' & H0 & H1)]; [left; eauto|].
    destruct (IH s' Hs') as [(r & -> & ?)|(s'' & -> & Hs'' & H0' & H1')]; [left; eauto|].
    right. exists s''. repeat split; try done.
    rewrite Nat2Z.inj_succ, Z.pow_succ_r by lia. lia.
Qed.

Lemma while_loop_spec s : Inv s → mu s < 2 ^ 64 → ∃ r, while_loop body s = Ok r ∧ Post r.
Proof.
  intros Hs Hmu. unfold while_loop.
  destruct (iterate_spec 64 s Hs) as [(r & -> & ?)|(s' & _ & _ & H0 & H1)]; [eauto|].
  change (Z.of_nat 64) with 64 in H1. lia.
Qed.
End loops.

(** ** Lemmas on sums *)

Lemma zsum_nil : zsum [] = 0.
Proof. done. Qed.
Lemma zsum_cons x l : zsum (x :: l) = x + zsum l.
Proof. done. Qed.

Ltac zsum_simpl := csimpl in *; rewrite ?zsum_nil, ?zsum_cons in *.

Lemma zsum_app l1 l2 : zsum (l1 ++ l2) = zsum l1 + zsum l2.
Proof. induction l1 as [|x l1 IH]; zsum_simpl; [done|rewrite IH; lia]. Qed.

Lemma zsum_nonneg l : Forall (fun z => 0 <= z) l → 0 <= zsum l.
Proof. induction 1; zsum_simpl; lia. Qed.

Lemma zsum_insert {A} `{!Inhabited A} (f : A → Z) (l : list A) i x :
  (i < length l)%nat → zsum (f <$> <[i := x]> l) = zsum (f <$> l) - f (l !!! i) + f x.
Proof.
  revert i; induction l as [|y l IH]; intros i Hi; zsum_simpl; [lia|].
  destruct i as [|i]; zsum_simpl; [lia|]. rewrite (IH i) by lia. lia.
Qed.

Lemma zsum_le {A} (f g : A → Z) (l : list A) :
  Forall (fun x => f x <= g x) l → zsum (f <$> l) <= zsum (g <$> l).
Proof. induction 1; zsum_simpl; lia. Qed.

Lemma zsum_fmap_nonneg {A} (f : A → Z) (l : list A) :
  Forall (fun x => 0 <= f x) l → 0 <= zsum (f <$> l).
Proof. induction 1; zsum_simpl; lia. Qed.

Lemma zsum_fmap_add {A} (f g : A → Z) (l : list A) :
  zsum ((fun x => f x + g x) <$> l) = zsum (f <$> l) + zsum (g <$> l).
Proof. induction l; zsum_simpl; lia. Qed.

Lemma zsum_fmap_const {A} (c : Z) (l : list A) :
  zsum ((fun _ => c) <$> l) = c * Z.of_nat (length l).
Proof. induction l as [|x l IH]; zsum_simpl; lia. Qed.

Lemma zsum_Permutation l1 l2 : l1 ≡ₚ l2 → zsum l1 = zsum l2.
Proof. induction 1; zsum_simpl; lia. Qed.

Lemma list_lookup_total_insert_case {A} `{!Inhabited A} (l : list A) i j x :
  (i < length l)%nat → <[i := x]> l !!! j = if decide (i = j) then x else l !!! j.
Proof.
  intros Hi. case_decide as E; [subst; by apply list_lookup_total_insert_eq|].
  by apply list_lookup_total_insert_ne.
Qed.

(** A sum over [0, n) telescopes. *)
Lemma zsum_seqZ_telescope (f F : Z → Z) n :
  0 <= n → F 0 = 0 → (∀ i, 0 <= i < n → F (i + 1) = F i + f i) →
  zsum (f <$> seqZ 0 n) = F n.
Proof.
  intros Hn H0 HF. rewrite <- (Z2Nat.id n) in * by lia. generalize dependent (Z.to_nat n).
  clear n. intros k _ HF. induction k as [|k IH]; [done|].
  rewrite seqZ_S, fmap_app, zsum_app, IH by (intros; apply HF; lia).
  rewrite Nat2Z.inj_succ. unfold Z.succ. rewrite HF by lia. zsum_simpl.
  by rewrite Z.add_0_r.
Qed.

Lemma filter_all {A} (P : A → Prop) `{!∀ x, Decision (P x)} l : Forall P l → filter P l = l.
Proof. induction 1; [done|]. rewrite filter_cons_True by done. by f_equal. Qed.

Lemma filter_none {A} (P : A → Prop) `{!∀ x, Decision (P x)} l :
  Forall (fun x => ¬ P x) l → filter P l = [].
Proof. induction 1; [done|]. by rewrite filter_cons_False. Qed.

Lemma filter_seqZ_interval (P : Z → Prop) `{!∀ x, Decision (P x)} a b m :
  0 <= a <= b → b <= m → (∀ x, 0 <= x < m → P x ↔ a <= x < b) →
  filter P (seqZ 0 m) = seqZ a (b - a).
Proof.
  intros Hab Hbm HP.
  replace m with (a + ((b - a) + (m - b))) by lia.
  rewrite !seqZ_app by lia. rewrite !filter_app.
  rewrite (filter_none P (seqZ 0 a)), (filter_all P (seqZ (0 + a) (b - a))),
    (filter_none P (seqZ (0 + a + (b - a)) _)).
  - by rewrite app_nil_r.
  - apply Forall_forall. intros x Hx%elem_of_seqZ. rewrite HP by lia. lia.
  - apply Forall_forall. intros x Hx%elem_of_seqZ. apply HP; lia.
  - apply Forall_forall. intros x Hx%elem_of_seqZ. rewrite HP by lia. lia.
Qed.

(** ** Hint database of the development *)
Create HintDb safs.
Create Rewrite HintDb safs.
#[export] Hint Resolve plen_le zsum_nonneg : safs.
#[export] Hint Rewrite @zsum_app @length_app @length_take @length_drop : safs.
