(* ===== verification/FlatContainers.v ===== *)
(** * Sorted-vector containers: [flat_set], [flat_map], [vector_range]

    Models src/common/flat_set.h, src/common/flat_map.h and
    src/common/vector_range.h.  A container is the list of its elements; an
    iterator is an index into it.  [flat_set] keeps the list strictly sorted by
    its comparison, [flat_map] is a [flat_set] of pairs compared by key, and a
    [vector_range] is a window [offset, offset + size) of a longer vector. *)

From S2P Require Import Prelude.

(** ** Comparison objects: a strict weak order, as [std::lower_bound] requires *)
Class StrictWeakOrder {A} (lt : A → A → bool) : Prop := {
  swo_irrefl : ∀ x, lt x x = false;
  swo_trans : ∀ x y z, lt x y = true → lt y z = true → lt x z = true;
  swo_cotrans : ∀ x y z, lt x z = true → lt x y = true ∨ lt y z = true;
}.

#[global] Instance Zltb_swo : StrictWeakOrder Z.ltb.
Proof.
  split; intros; repeat match goal with
    | H : (_ <? _) = true |- _ => apply Z.ltb_lt in H end.
  - apply Z.ltb_irrefl.
  - apply Z.ltb_lt; lia.
  - rewrite !Z.ltb_lt. lia.
Qed.

Definition ssorted {A} (lt : A → A → bool) : list A → Prop :=
  StronglySorted (fun a b => lt a b = true).

(** ** flat_set *)
Module FlatSet.
Section flat_set.
Context {A : Type} (less_than : A → A → bool).

Definition lower_bound (value : A) (l : list A) : nat :=
  Prelude.lower_bound (fun x => less_than x value) l.

Definition upper_bound (value : A) (l : list A) : nat :=
  Prelude.upper_bound (fun x => less_than value x) l.

(** [flat_set::insert(value)]: the container, the iterator, "inserted". *)
Definition insert (value : A) (l : list A) : list A * nat * bool :=
  let it := lower_bound value l in
  match l !! it with
  | None => (vinsert it value l, it, true)
  | Some x =>
      if less_than value x then (vinsert it value l, it, true) else (l, it, false)
  end.

(** The part of [insert(hint, value)] after the hint was examined: a binary
    search restricted to [first, last). *)
Definition insert_between (value : A) (l : list A) (first last : nat) : list A * nat :=
  let it := bsearch_go (last - first) (fun x => less_than x value) l first (last - first) in
  if Nat.eqb it last then (vinsert it value l, it)
  else match l !! it with
       | None => (vinsert it value l, it)
       | Some x => if less_than value x then (vinsert it value l, it) else (l, it)
       end.

(** [flat_set::insert(hint, value)] *)
Definition insert_hint (hint : nat) (value : A) (l : list A) : list A * nat :=
  match l !! hint with
  | None => (* hint == end() *)
      match (if Nat.eqb hint 0 then None else l !! Nat.pred hint) with
      | Some p => if less_than p value then (vinsert hint value l, hint)
                  else insert_between value l 0 (length l)
      | None => insert_between value l 0 (length l)
      end
  | Some h =>
      if less_than value h then
        match (if Nat.eqb hint 0 then None else l !! Nat.pred hint) with
        | None => (vinsert hint value l, hint)
        | Some p => if less_than p value then (vinsert hint value l, hint)
                    else insert_between value l 0 hint
        end
      else if less_than h value then
        match l !! S hint with
        | None => (vinsert (length l) value l, length l)
        | Some n => if less_than value n then (vinsert (S hint) value l, S hint)
                    else insert_between value l (S hint) (length l)
        end
      else (l, hint)
  end.

(** [flat_set::insert(first, last)]: one by one. *)
Definition insert_range (vs : list A) (l : list A) : list A :=
  fold_left (fun acc v => fst (fst (insert v acc))) vs l.

Definition erase (key : A) (l : list A) : list A * Z :=
  let it := lower_bound key l in
  match l !! it with
  | Some x => if less_than key x then (l, 0) else (verase it l, 1)
  | None => (l, 0)
  end.

Definition count (key : A) (l : list A) : Z :=
  match l !! lower_bound key l with
  | None => 0
  | Some x => if less_than key x then 0 else 1
  end.

(** [flat_set::find(x, comp)] with the two heterogeneous comparisons
    [comp(element, x)] and [comp(x, element)]; [None] is [end()]. *)
Definition find_by (lt_x x_lt : A → bool) (l : list A) : option nat :=
  let it := Prelude.lower_bound lt_x l in
  match l !! it with
  | Some y => if x_lt y then None else Some it
  | None => None
  end.

Definition find (key : A) (l : list A) : option nat :=
  find_by (fun x => less_than x key) (fun x => less_than key x) l.

End flat_set.
End FlatSet.

(** ** flat_map *)
Module FlatMap.
Section flat_map.
Context {K V : Type} (lt : K → K → bool) (dflt : V).

(** [internal_compare] on two values compares their keys. *)
Definition value_less (a b : K * V) : bool := lt (fst a) (fst b).

Definition lower_bound (key : K) (l : list (K * V)) : nat :=
  Prelude.lower_bound (fun x => lt (fst x) key) l.

Definition find (key : K) (l : list (K * V)) : option nat :=
  FlatSet.find_by (fun x => lt (fst x) key) (fun x => lt key (fst x)) l.

Definition find_nth (nth : nat) (l : list (K * V)) : option nat :=
  if Nat.ltb nth (length l) then Some nth else None.

Definition at_ (key : K) (l : list (K * V)) : res V :=
  match l !! lower_bound key l with
  | Some x => if lt key (fst x) then Throw else Ok (snd x)
  | None => Throw
  end.

(** [operator[]]: the container (with a default value inserted when the key was
    absent) and the index of the element whose value is returned by reference. *)
Definition subscript (key : K) (l : list (K * V)) : list (K * V) * nat :=
  let it := lower_bound key l in
  match l !! it with
  | Some x => if lt key (fst x) then FlatSet.insert_hint value_less it (key, dflt) l else (l, it)
  | None => FlatSet.insert_hint value_less it (key, dflt) l
  end.

(** [m[key] = v] *)
Definition assign (key : K) (v : V) (l : list (K * V)) : list (K * V) :=
  let '(l', i) := subscript key l in <[i := (key, v)]> l'.

Definition erase (key : K) (l : list (K * V)) : list (K * V) * Z :=
  let it := lower_bound key l in
  match l !! it with
  | Some x => if lt key (fst x) then (l, 0) else (verase it l, 1)
  | None => (l, 0)
  end.

Definition insert (value : K * V) (l : list (K * V)) : list (K * V) * nat * bool :=
  FlatSet.insert value_less value l.

Definition count (key : K) (l : list (K * V)) : Z :=
  match find key l with Some _ => 1 | None => 0 end.

(** The value stored at a key, through [find]. *)
Definition get (key : K) (l : list (K * V)) : option V :=
  i ← find key l; snd <$> l !! i.

End flat_map.
End FlatMap.

(** ** vector_range: [data] is the whole vector, the range is [off, off + size) *)
Module VectorRange.
Section vector_range.
Context {A : Type} (w : Z).

Definition view (data : list A) (off size : nat) : list A := take size (drop off data).

(** The size field has type [size_store_type], an unsigned [w]-bit integer. *)
Definition store_size (n : nat) : nat := Z.to_nat (wrapu w (Z.of_nat n)).

(** [std::vector::insert(begin() + i, xs.begin(), xs.end())] and [erase(i, j)]. *)
Definition vinsert_range (i : nat) (xs data : list A) : list A := take i data ++ xs ++ drop i data.
Definition verase_range (i j : nat) (data : list A) : list A := take i data ++ drop j data.

(** [std::copy(xs.begin(), xs.end(), data.begin() + i)] *)
Definition copy_to (i : nat) (xs data : list A) : list A :=
  take i data ++ xs ++ drop (i + length xs) data.

Definition resize (nsize : nat) (x : A) (data : list A) (off size : nat) : list A * nat :=
  let data' :=
    if Nat.ltb size nsize then vinsert_range (off + size) (replicate (nsize - size) x) data
    else if Nat.ltb nsize size then verase_range (off + nsize) (off + size) data
    else data in
  (data', store_size nsize).

(** [vector_range::operator=] and [vector_range::assign(first, last)]: [xs] are the
    elements assigned, [x0] the value-initialised element. *)
Definition assign (x0 : A) (xs : list A) (data : list A) (off size : nat) : list A * nat :=
  if Nat.ltb size (length xs) then
    let data1 := copy_to off (take size xs) data in
    (vinsert_range (off + size) (drop size xs) data1, store_size (length xs))
  else
    let '(data1, size1) := resize (length xs) x0 data off size in
    (copy_to off xs data1, size1).

Definition push_back (x : A) (data : list A) (off size : nat) : list A * nat :=
  (vinsert (off + size) x data, store_size (S size)).

(** [position] is an index into [data]. *)
Definition insert (position : nat) (x : A) (data : list A) (off size : nat) : list A * nat :=
  (vinsert position x data, store_size (S size)).

Definition erase (position : nat) (data : list A) (off size : nat) : list A * nat :=
  (verase position data, if Nat.ltb 0 size then (size - 1)%nat else 0%nat).

Definition clear (x0 : A) (data : list A) (off size : nat) : list A * nat :=
  resize 0 x0 data off size.

End vector_range.
End VectorRange.

(** ** Theorems on flat_set *)
Section flat_set_facts.
Context {A : Type} (lt : A → A → bool) `{!StrictWeakOrder lt}.
Implicit Types (l : list A) (v x : A).

Lemma ssorted_partitioned_lt l v : ssorted lt l → partitioned (fun x => lt x v) l.
Proof. intros Hs. apply (partitioned_sorted _ _ _ Hs). intros; eapply swo_trans; eauto. Qed.

Lemma fs_lower_bound_plen l v :
  ssorted lt l → FlatSet.lower_bound lt v l = plen (fun x => lt x v) l.
Proof. intros Hs. by apply bsearch_plen, ssorted_partitioned_lt. Qed.

Lemma ssorted_app l1 l2 :
  ssorted lt (l1 ++ l2) ↔
  ssorted lt l1 ∧ ssorted lt l2 ∧ (∀ x y, x ∈ l1 → y ∈ l2 → lt x y = true).
Proof.
  unfold ssorted. induction l1 as [|a l1 IH]; simpl.
  - split; [intros H; repeat split; [constructor|done|set_solver]|naive_solver].
  - split.
    + intros [H1 H2]%StronglySorted_inv. apply IH in H1 as (H1 & H3 & H4).
      rewrite Forall_app, !Forall_forall in H2.
      repeat split; [constructor; [done|apply Forall_forall; naive_solver]|done|].
      intros x y [->|Hx]%elem_of_cons Hy; naive_solver.
    + intros ([H1 H2]%StronglySorted_inv & H3 & H4). constructor.
      * apply IH. repeat split; [done..|]. intros; apply H4; [by right|done].
      * rewrite Forall_app, !Forall_forall in *. split; [done|].
        intros y Hy. apply H4; [by left|done].
Qed.

Lemma plen_take_drop l v :
  ssorted lt l →
  (∀ x, x ∈ take (plen (fun x => lt x v) l) l → lt x v = true) ∧
  (∀ x, x ∈ drop (plen (fun x => lt x v) l) l → lt x v = false).
Proof.
  intros Hs. split; intros x [i Hx]%list_elem_of_lookup.
  - apply lookup_take_Some in Hx as [Hx Hi].
    by apply (plen_lookup_lt (fun x => lt x v) l i).
  - rewrite lookup_drop in Hx.
    eapply (plen_lookup_ge (fun x => lt x v)); [by apply ssorted_partitioned_lt| |done]. lia.
Qed.

(** [insert] splits into "already there" and "inserted between". *)
Lemma fs_insert_cases l v :
  ssorted lt l →
  let k := plen (fun x => lt x v) l in
  (∃ x, l !! k = Some x ∧ lt v x = false ∧ lt x v = false ∧ FlatSet.insert lt v l = (l, k, false)) ∨
  ((∀ x, l !! k = Some x → lt v x = true) ∧ FlatSet.insert lt v l = (vinsert k v l, k, true)).
Proof.
  intros Hs k. unfold FlatSet.insert. rewrite fs_lower_bound_plen by done. fold k.
  destruct (l !! k) as [x|] eqn:E; [|naive_solver].
  destruct (lt v x) eqn:E2; [naive_solver|].
  left. exists x. repeat split; try done. by apply (plen_lookup_eq (fun x => lt x v) l).
Qed.

Lemma vinsert_ssorted l v :
  ssorted lt l → let k := plen (fun x => lt x v) l in
  (∀ x, l !! k = Some x → lt v x = true) → ssorted lt (vinsert k v l).
Proof.
  intros Hs k Hk. unfold vinsert.
  pose proof (plen_take_drop l v Hs) as [Ht Hd]. fold k in Ht, Hd.
  assert (∀ y, y ∈ drop k l → lt v y = true) as Hv.
  { intros y Hy. destruct (drop k l) as [|z l'] eqn:E; [set_solver|].
    assert (lt v z = true) as Hz.
    { apply Hk. rewrite <- (Nat.add_0_r k), <- lookup_drop, E. done. }
    apply elem_of_cons in Hy as [->|Hy]; [done|].
    rewrite <- (take_drop k l), E in Hs. apply ssorted_app in Hs as (_ & Hs & _).
    apply StronglySorted_inv in Hs as [_ Hs]. rewrite Forall_forall in Hs.
    eapply swo_trans; eauto. }
  rewrite <- (take_drop k l) in Hs. apply ssorted_app in Hs as (H1 & H2 & H3).
  apply ssorted_app. repeat split; [done| |].
  - constructor; [done|]. by apply Forall_forall.
  - intros x y Hx [->|Hy]%elem_of_cons; naive_solver.
Qed.

Lemma fs_insert_ssorted l v : ssorted lt l → ssorted lt (fst (fst (FlatSet.insert lt v l))).
Proof.
  intros Hs. destruct (fs_insert_cases l v Hs) as [(x & _ & _ & _ & ->)|[Hk ->]]; [done|].
  by apply vinsert_ssorted.
Qed.

Lemma elem_of_vinsert k v l x : x ∈ vinsert k v l ↔ x = v ∨ x ∈ l.
Proof.
  unfold vinsert. rewrite <- (take_drop k l) at 3. rewrite !elem_of_app, elem_of_cons. tauto.
Qed.

(** [insert_between] agrees with [insert] whenever the window contains the
    insertion point. *)
Lemma insert_between_spec l v first last :
  ssorted lt l → (first ≤ plen (fun x => lt x v) l ≤ last)%nat → (last ≤ length l)%nat →
  (last = length l ∨ ∃ x, l !! last = Some x ∧ lt v x = true) →
  FlatSet.insert_between lt v l first last = fst (FlatSet.insert lt v l).
Proof.
  intros Hs Hk Hl Hlast. unfold FlatSet.insert_between.
  rewrite bsearch_go_spec; [|by apply ssorted_partitioned_lt|lia..].
  set (k := plen (fun x => lt x v) l) in *.
  unfold FlatSet.insert. rewrite fs_lower_bound_plen by done. fold k.
  destruct (Nat.eqb_spec k last) as [E|Hne].
  - destruct Hlast as [Hlast|(x & Hx & Hvx)].
    + rewrite (lookup_ge_None_2 l k) by lia. done.
    + rewrite E, Hx, Hvx. done.
  - destruct (l !! k); [destruct (lt v a); done|done].
Qed.

Lemma fs_insert_at l v k :
  ssorted lt l → (k ≤ length l)%nat →
  (∀ x, k ≠ O → l !! Nat.pred k = Some x → lt x v = true) →
  (∀ x, l !! k = Some x → lt v x = true) →
  fst (FlatSet.insert lt v l) = (vinsert k v l, k).
Proof.
  intros Hs Hk Hl Hr.
  assert (plen (fun x => lt x v) l = k) as <-.
  { apply plen_unique; [by apply ssorted_partitioned_lt|done|done|].
    intros x Hx. destruct (lt x v) eqn:E; [|done].
    pose proof (swo_trans _ _ _ E (Hr _ Hx)). rewrite swo_irrefl in *. done. }
  destruct (fs_insert_cases l v Hs) as [(x & Hx & Hvx & _)|[_ ->]]; [|done].
  rewrite (Hr _ Hx) in Hvx. done.
Qed.

Lemma plen_le_of_ge l v k x :
  ssorted lt l → l !! k = Some x → lt x v = false → (plen (fun x => lt x v) l ≤ k)%nat.
Proof.
  intros Hs Hx E. destruct (decide (k < plen (fun x => lt x v) l)%nat) as [Hlt|]; [|lia].
  rewrite (plen_lookup_lt (fun x => lt x v) l k x Hlt Hx) in E. done.
Qed.

Lemma plen_gt_of_lt l v k x :
  ssorted lt l → l !! k = Some x → lt x v = true → (k < plen (fun x => lt x v) l)%nat.
Proof.
  intros Hs Hx E. destruct (decide (plen (fun x => lt x v) l ≤ k)%nat) as [Hle|]; [|lia].
  assert (lt x v = false); [|congruence].
  apply (plen_lookup_ge (fun x => lt x v) l k x); [by apply ssorted_partitioned_lt|done..].
Qed.

Lemma swo_asym x y : lt x y = true → lt y x = false.
Proof.
  intros H. destruct (lt y x) eqn:E; [|done].
  pose proof (swo_trans _ _ _ H E). rewrite swo_irrefl in *. done.
Qed.

Lemma ssorted_lookup l i j x y :
  ssorted lt l → (i < j)%nat → l !! i = Some x → l !! j = Some y → lt x y = true.
Proof.
  intros Hs Hij Hx Hy. rewrite <- (take_drop j l) in Hs.
  apply ssorted_app in Hs as (_ & _ & Hs). apply Hs.
  - apply list_elem_of_lookup. exists i. rewrite lookup_take_lt; done.
  - apply list_elem_of_lookup. exists O. rewrite lookup_drop, Nat.add_0_r. done.
Qed.

(** Every hint gives the result of the search from scratch. *)
Lemma fs_insert_hint l v hint :
  ssorted lt l → (hint ≤ length l)%nat →
  FlatSet.insert_hint lt hint v l = fst (FlatSet.insert lt v l).
Proof.
  intros Hs Hh. unfold FlatSet.insert_hint.
  pose proof (plen_le (fun x => lt x v) l) as Hle.
  destruct (l !! hint) as [h|] eqn:Eh.
  - destruct (lt v h) eqn:Evh; [|destruct (lt h v) eqn:Ehv].
    + pose proof (plen_le_of_ge l v hint h Hs Eh (swo_asym _ _ Evh)) as Hk.
      destruct (Nat.eqb_spec hint 0) as [->|Hne].
      { symmetry. apply fs_insert_at; [done|lia|done|naive_solver]. }
      destruct (lookup_lt_is_Some_2 l (Nat.pred hint)) as [q Hq]; [lia|]. rewrite Hq.
      destruct (lt q v) eqn:Eq.
      * symmetry. apply fs_insert_at; [done|done|naive_solver..].
      * apply insert_between_spec; [done|lia|lia|eauto].
    + pose proof (plen_gt_of_lt l v hint h Hs Eh Ehv) as Hk.
      assert (hint < length l)%nat as Hlt by (apply lookup_lt_Some in Eh; done).
      destruct (l !! S hint) as [n|] eqn:En.
      * destruct (lt v n) eqn:Evn.
        -- symmetry. apply fs_insert_at; [done|lia|naive_solver..].
        -- apply insert_between_spec; [done|lia|lia|by left].
      * apply lookup_ge_None in En. assert (length l = S hint) as -> by lia.
        symmetry. apply fs_insert_at; [done|lia|naive_solver|].
        intros x Hx. apply lookup_lt_Some in Hx. lia.
    + assert (plen (fun x => lt x v) l = hint) as E.
      { apply plen_unique; [by apply ssorted_partitioned_lt|done| |naive_solver].
        intros x Hne Hx. pose proof (ssorted_lookup l (Nat.pred hint) hint x h Hs ltac:(lia) Hx Eh) as Hxh.
        destruct (swo_cotrans x v h Hxh); congruence. }
      destruct (fs_insert_cases l v Hs) as [(x & _ & _ & _ & ->)|[Hv _]]; [by rewrite E|].
      rewrite E in Hv. specialize (Hv h Eh). congruence.
  - apply lookup_ge_None in Eh. assert (hint = length l) as -> by lia.
    destruct (Nat.eqb_spec (length l) 0) as [E0|Hne].
    { apply insert_between_spec; [done|lia..|by left]. }
    destruct (lookup_lt_is_Some_2 l (Nat.pred (length l))) as [q Hq]; [lia|]. rewrite Hq.
    destruct (lt q v) eqn:Eq.
    + symmetry. apply fs_insert_at; [done|done|naive_solver|].
      intros x Hx. apply lookup_lt_Some in Hx. lia.
    + apply insert_between_spec; [done|lia..|by left].
Qed.

Lemma fs_insert_range_ssorted vs l : ssorted lt l → ssorted lt (FlatSet.insert_range lt vs l).
Proof.
  revert l; induction vs as [|v vs IH]; intros l Hs; simpl; [done|].
  by apply IH, fs_insert_ssorted.
Qed.

(** [flat_set::insert(hint, value)] is an optimisation only: for every hint
    inside the container it produces the same container and the same iterator as
    the search from scratch of [flat_set::insert(value)]; the container stays sorted,
    holds the old elements, and the iterator points at an element equivalent to the
    value. *)
Theorem insert_hint_correct l v hint :
  ssorted lt l → (hint ≤ length l)%nat →
  FlatSet.insert_hint lt hint v l = fst (FlatSet.insert lt v l) ∧
  let '(l', i) := FlatSet.insert_hint lt hint v l in
  ssorted lt l' ∧ (∀ x, x ∈ l → x ∈ l') ∧
  ∃ y, l' !! i = Some y ∧ lt y v = false ∧ lt v y = false.
Proof.
  intros Hs Hh. rewrite fs_insert_hint by done. split; [done|].
  pose proof (fs_insert_ssorted l v Hs) as Hss.
  destruct (fs_insert_cases l v Hs) as [(x & Hx & Hvx & Hxv & E)|[Hk E]]; rewrite E in Hss |- *; simpl in *.
  - split; [done|]. split; [done|]. by exists x.
  - split; [done|]. split; [intros x Hx; apply elem_of_vinsert; by right|].
    exists v. rewrite !swo_irrefl. split; [|done]. unfold vinsert.
    pose proof (plen_le (fun x => lt x v) l).
    by rewrite lookup_app_r, length_take, Nat.min_l, Nat.sub_diag by (rewrite ?length_take; lia).
Qed.

End flat_set_facts.

(** A witness of [insert_hint_correct]: inserting 4 with a wrong hint. *)
Lemma insert_hint_correct_witness :
  FlatSet.insert_hint Z.ltb 0 4 [1; 3; 5] = ([1; 3; 4; 5], 2%nat).
Proof.
  refine (eq_trans (proj1 (insert_hint_correct Z.ltb [1; 3; 5] 4 0 _ _)) eq_refl); [|simpl; lia].
  repeat constructor.
Defined.

(** ** Theorems on flat_map: it refines a finite map *)

(** The comparison of the keys is total: equivalent keys are equal. *)
Class StrictTotal {A} (lt : A → A → bool) : Prop := {
  st_swo :: StrictWeakOrder lt;
  st_total : ∀ x y, lt x y = false → lt y x = false → x = y;
}.

#[global] Instance Zltb_total : StrictTotal Z.ltb.
Proof.
  split; [apply _|]. intros x y H1%Z.ltb_ge H2%Z.ltb_ge. lia.
Qed.

#[global] Instance value_less_swo {K V} (lt : K → K → bool) `{!StrictWeakOrder lt} :
  StrictWeakOrder (@FlatMap.value_less K V lt).
Proof.
  split; unfold FlatMap.value_less; intros.
  - apply swo_irrefl.
  - eapply swo_trans; eauto.
  - by apply swo_cotrans.
Qed.

Section flat_map_facts.
Context {K V : Type} `{Countable K} (lt : K → K → bool) `{!StrictTotal lt} (dflt : V).
Implicit Types (l : list (K * V)) (k : K) (v : V).

Definition fmap_wf l : Prop := ssorted (FlatMap.value_less lt) l.

(** The abstraction function. *)
Definition to_gmap (l : list (K * V)) : gmap K V := list_to_map l.

Lemma fmap_wf_NoDup l : fmap_wf l → NoDup l.*1.
Proof.
  unfold fmap_wf, ssorted. induction 1 as [|[k v] l Hs IH Hf]; simpl; constructor; [|done].
  intros (x & -> & Hx)%list_elem_of_fmap. rewrite Forall_forall in Hf.
  pose proof (Hf _ Hx) as E. unfold FlatMap.value_less in E. simpl in E.
  rewrite swo_irrefl in E. done.
Qed.

Lemma fm_lower_bound_plen l k :
  fmap_wf l → FlatMap.lower_bound lt k l = plen (fun x => lt (fst x) k) l.
Proof.
  intros Hs. apply bsearch_plen, (partitioned_sorted _ _ _ Hs).
  unfold FlatMap.value_less. intros; eapply swo_trans; eauto.
Qed.

Lemma to_gmap_lookup_None l k : (∀ x, x ∈ l → fst x ≠ k) → to_gmap l !! k = None.
Proof.
  intros Hl. apply not_elem_of_list_to_map_1. intros (x & -> & Hx)%list_elem_of_fmap.
  by apply (Hl x Hx).
Qed.

(** Where [lower_bound] points: at the key, or at its insertion point. *)
Lemma fm_lookup_cases l k :
  fmap_wf l → let i := plen (fun x => lt (fst x) k) l in
  (∃ v, l !! i = Some (k, v) ∧ to_gmap l !! k = Some v) ∨
  ((∀ x, l !! i = Some x → lt k (fst x) = true) ∧ to_gmap l !! k = None).
Proof.
  intros Hs i.
  pose proof (plen_take_drop (FlatMap.value_less lt) l (k, dflt) Hs) as [Ht Hd].
  unfold FlatMap.value_less in Ht, Hd. simpl in Ht, Hd. fold i in Ht, Hd.
  destruct (l !! i) as [[k' v]|] eqn:E.
  - pose proof (plen_lookup_eq (fun x => lt (fst x) k) l _ E) as E1. simpl in E1.
    destruct (lt k k') eqn:E2.
    + right. split; [naive_solver|]. apply to_gmap_lookup_None.
      intros [k2 v2] Hx <-. simpl in *.
      apply list_elem_of_lookup in Hx as [j Hj].
      destruct (decide (j < i)%nat) as [Hlt|Hge].
      * assert (lt k2 k2 = true) as Hc; [|rewrite swo_irrefl in Hc; done].
        apply (Ht (k2, v2)), list_elem_of_lookup. exists j. by rewrite lookup_take_lt.
      * destruct (decide (j = i)) as [->|]; [rewrite E in Hj; injection Hj as -> ->; by rewrite swo_irrefl in E2|].
        pose proof (ssorted_lookup _ l i j _ _ Hs ltac:(lia) E Hj) as Hc.
        unfold FlatMap.value_less in Hc; simpl in Hc.
        pose proof (swo_trans _ _ _ E2 Hc) as Hc2. rewrite swo_irrefl in Hc2. done.
    + left. rewrite (st_total k' k E1 E2) in *. exists v. split; [done|].
      apply elem_of_list_to_map_1; [by apply fmap_wf_NoDup|]. apply list_elem_of_lookup; eauto.
  - right. split; [done|]. apply to_gmap_lookup_None. intros [k2 v2] Hx <-.
    apply list_elem_of_lookup in Hx as [j Hj]. apply lookup_ge_None in E.
    assert (lt k2 k2 = true) as Hc; [|rewrite swo_irrefl in Hc; done].
    apply (Ht (k2, v2)), list_elem_of_lookup. exists j.
    apply lookup_lt_Some in Hj as Hj'. rewrite lookup_take_lt; [done|lia].
Qed.

Lemma fm_get_spec l k : fmap_wf l → FlatMap.get lt k l = to_gmap l !! k.
Proof.
  intros Hs. unfold FlatMap.get, FlatMap.find, FlatSet.find_by.
  fold (FlatMap.lower_bound lt k l). rewrite fm_lower_bound_plen by done.
  destruct (fm_lookup_cases l k Hs) as [(v & E & ->)|[Hn ->]].
  - rewrite E. simpl. rewrite swo_irrefl. simpl. rewrite E. done.
  - destruct (l !! _) as [x|] eqn:E; [|done]. rewrite (Hn _ eq_refl). done.
Qed.

Lemma fm_at_spec l k :
  fmap_wf l → FlatMap.at_ lt k l = match to_gmap l !! k with Some v => Ok v | None => Throw end.
Proof.
  intros Hs. unfold FlatMap.at_. rewrite fm_lower_bound_plen by done.
  destruct (fm_lookup_cases l k Hs) as [(v & E & ->)|[Hn ->]].
  - rewrite E. simpl. by rewrite swo_irrefl.
  - destruct (l !! _) as [x|] eqn:E; [|done]. by rewrite (Hn _ eq_refl).
Qed.

Lemma to_gmap_vinsert l i k v :
  to_gmap l !! k = None → to_gmap (vinsert i (k, v) l) = <[k := v]> (to_gmap l).
Proof.
  intros Hn. unfold to_gmap, vinsert in *.
  rewrite <- (take_drop i l) in Hn at 1. rewrite <- (take_drop i l) at 3.
  rewrite !list_to_map_app in *. simpl. apply lookup_union_None in Hn as [Hn _].
  by rewrite insert_union_r.
Qed.

Lemma fm_vinsert_wf l k v :
  fmap_wf l → (∀ x, l !! plen (fun x => lt (fst x) k) l = Some x → lt k (fst x) = true) →
  fmap_wf (vinsert (plen (fun x => lt (fst x) k) l) (k, v) l).
Proof. intros Hs Hn. by apply (vinsert_ssorted (FlatMap.value_less lt) l (k, v)). Qed.

(** [operator[]]: the reference points at the key, whose value is the old one or
    the default one. *)
Lemma fm_subscript_spec l k :
  fmap_wf l →
  let '(l', i) := FlatMap.subscript lt dflt k l in
  let v := default dflt (to_gmap l !! k) in
  fmap_wf l' ∧ l' !! i = Some (k, v) ∧ to_gmap l' = <[k := v]> (to_gmap l).
Proof.
  intros Hs. unfold FlatMap.subscript. rewrite fm_lower_bound_plen by done.
  set (i := plen _ l).
  assert (i ≤ length l)%nat as Hi by apply plen_le.
  destruct (fm_lookup_cases l k Hs) as [(v & E & Hv)|[Hn Hv]]; fold i in E || fold i in Hn.
  - rewrite E. simpl. rewrite swo_irrefl, Hv. simpl. rewrite insert_id by done. done.
  - assert (FlatSet.insert_hint (FlatMap.value_less lt) i (k, dflt) l = (vinsert i (k, dflt) l, i)) as Eh.
    { rewrite (fs_insert_hint (FlatMap.value_less lt)) by done.
      destruct (fs_insert_cases (FlatMap.value_less lt) l (k, dflt) Hs)
        as [(x & Hx & Hvx & _ & _)|[_ ->]]; [|done].
      unfold FlatMap.value_less in Hx, Hvx. simpl in *. fold i in Hx. rewrite Hn in Hvx; done. }
    assert (fmap_wf (vinsert i (k, dflt) l) ∧ vinsert i (k, dflt) l !! i = Some (k, dflt) ∧
            to_gmap (vinsert i (k, dflt) l) = <[k:=dflt]> (to_gmap l)) as Hall.
    { split; [by apply fm_vinsert_wf|]. split; [|by apply to_gmap_vinsert].
      unfold vinsert. rewrite lookup_app_r by (rewrite length_take; lia).
      rewrite length_take. replace (i - i `min` length l)%nat with O by lia. done. }
    rewrite Hv. simpl. destruct (l !! i) as [x|] eqn:E; [rewrite (Hn _ eq_refl)|]; rewrite Eh; done.
Qed.

Lemma ssorted_insert_same_key l i k v v' :
  fmap_wf l → l !! i = Some (k, v) →
  fmap_wf (<[i := (k, v')]> l) ∧ to_gmap (<[i := (k, v')]> l) = <[k := v']> (to_gmap l).
Proof.
  intros Hs E. assert (Hi := lookup_lt_Some _ _ _ E).
  pose proof (fmap_wf_NoDup l Hs) as Hnd.
  rewrite <- (take_drop_middle l i _ E) in Hs, Hnd |- *.
  rewrite insert_app_r_alt by (rewrite length_take; lia). rewrite length_take.
  replace (i - i `min` length l)%nat with O by lia. simpl. split.
  - unfold fmap_wf in *. apply ssorted_app in Hs as (H1 & H2 & H3); [|apply _].
    apply ssorted_app; [apply _|]. apply StronglySorted_inv in H2 as [H2 H2'].
    repeat split; [done|by constructor|].
    intros x y Hx [->|Hy]%elem_of_cons; [apply (H3 x (k, v) Hx); by left|apply H3; [done|by right]].
  - unfold to_gmap. rewrite !list_to_map_app. simpl.
    rewrite fmap_app, NoDup_app in Hnd. destruct Hnd as (_ & Hnd & _).
    assert (list_to_map (M := gmap K V) (take i l) !! k = None) as Hn.
    { apply not_elem_of_list_to_map_1. intros Hk. apply (Hnd _ Hk). simpl. by left. }
    rewrite !(insert_union_r _ _ k _) by done. by rewrite insert_insert_eq.
Qed.

Lemma fm_assign_spec l k v :
  fmap_wf l →
  fmap_wf (FlatMap.assign lt dflt k v l) ∧
  to_gmap (FlatMap.assign lt dflt k v l) = <[k := v]> (to_gmap l).
Proof.
  intros Hs. unfold FlatMap.assign. pose proof (fm_subscript_spec l k Hs) as Hsub.
  destruct (FlatMap.subscript lt dflt k l) as [l' i]. destruct Hsub as (Hs' & E & Hm).
  destruct (ssorted_insert_same_key l' i k _ v Hs' E) as [Hw ->].
  split; [done|]. by rewrite Hm, insert_insert_eq.
Qed.

Lemma fm_erase_spec l k :
  fmap_wf l →
  fmap_wf (fst (FlatMap.erase lt k l)) ∧
  to_gmap (fst (FlatMap.erase lt k l)) = delete k (to_gmap l) ∧
  snd (FlatMap.erase lt k l) = (if decide (is_Some (to_gmap l !! k)) then 1 else 0).
Proof.
  intros Hs. unfold FlatMap.erase. rewrite fm_lower_bound_plen by done.
  set (i := plen _ l).
  destruct (fm_lookup_cases l k Hs) as [(v & E & Hv)|[Hn Hv]]; fold i in E || fold i in Hn.
  - rewrite E. simpl. rewrite swo_irrefl, Hv. simpl.
    assert (Hi := lookup_lt_Some _ _ _ E). pose proof (fmap_wf_NoDup l Hs) as Hnd.
    unfold verase. rewrite <- (take_drop_middle l i _ E) in Hs, Hnd. split; [|split].
    + unfold fmap_wf in *. apply ssorted_app in Hs as (H1 & H2 & H3); [|apply _].
      apply StronglySorted_inv in H2 as [H2 _]. apply ssorted_app; [apply _|].
      repeat split; [done..|]. intros; apply H3; [done|by right].
    + unfold to_gmap. rewrite <- (take_drop_middle l i _ E) at 3. rewrite !list_to_map_app. simpl.
      rewrite fmap_app, NoDup_app in Hnd. simpl in Hnd. destruct Hnd as (_ & Hnd & Hnd2).
      apply NoDup_cons in Hnd2 as [Hnd2 _].
      assert (list_to_map (M := gmap K V) (take i l) !! k = None) as Hn1.
      { apply not_elem_of_list_to_map_1. intros Hk. apply (Hnd _ Hk). by left. }
      rewrite delete_union, (delete_id (list_to_map (take i l))) by done.
      by rewrite delete_insert_id by (by apply not_elem_of_list_to_map_1).
    + done.
  - assert (match l !! i with
            | Some x => if lt k x.1 then (l, 0) else (verase i l, 1)
            | None => (l, 0) end = (l, 0)) as ->
      by (destruct (l !! i) as [x|] eqn:E; [by rewrite (Hn _ eq_refl)|done]).
    simpl. rewrite delete_id by done. by rewrite Hv.
Qed.

(** [flat_map] implements a finite map.  On a container sorted by key, [find],
    [at], [m[key] = v] and [erase(key)] compute lookup, checked lookup, insertion
    and deletion of the map the container represents, keep the container sorted,
    and [erase] returns the number of removed elements. *)
Theorem flat_map_refines_gmap l k v :
  fmap_wf l →
  FlatMap.get lt k l = to_gmap l !! k ∧
  FlatMap.at_ lt k l = match to_gmap l !! k with Some v => Ok v | None => Throw end ∧
  (fmap_wf (FlatMap.assign lt dflt k v l) ∧
   to_gmap (FlatMap.assign lt dflt k v l) = <[k := v]> (to_gmap l)) ∧
  fmap_wf (fst (FlatMap.erase lt k l)) ∧
  to_gmap (fst (FlatMap.erase lt k l)) = delete k (to_gmap l) ∧
  snd (FlatMap.erase lt k l) = (if decide (is_Some (to_gmap l !! k)) then 1 else 0).
Proof.
  intros Hs. split; [by apply fm_get_spec|]. split; [by apply fm_at_spec|].
  split; [by apply fm_assign_spec|]. by apply fm_erase_spec.
Qed.

End flat_map_facts.

(** A witness of [flat_map_refines_gmap] on a three-element map. *)
Lemma flat_map_refines_gmap_witness :
  FlatMap.assign Z.ltb 0 2 7 [(1, 5); (3, 6)] = [(1, 5); (2, 7); (3, 6)] ∧
  to_gmap (FlatMap.assign Z.ltb 0 2 7 [(1, 5); (3, 6)]) = <[2 := 7]> (to_gmap [(1, 5); (3, 6)]).
Proof.
  split; [reflexivity|].
  apply (flat_map_refines_gmap Z.ltb 0 [(1, 5); (3, 6)] 2 7). repeat constructor.
Defined.

(** ** Theorems on vector_range: mutations stay inside the window *)
Section vector_range_facts.
Context {A : Type} (w : Z) (x0 : A).
Implicit Types (data xs : list A) (off size : nat).

(** Replace the window by [xs], leave the rest of the vector alone. *)
Definition splice (data : list A) (off size : nat) (xs : list A) : list A :=
  take off data ++ xs ++ drop (off + size) data.

Lemma store_size_small n : 0 <= w → Z.of_nat n < 2 ^ w → VectorRange.store_size w n = n.
Proof. intros Hw Hn. unfold VectorRange.store_size. rewrite wrapu_small; lia. Qed.

Lemma splice_view data off size xs :
  (off ≤ length data)%nat → VectorRange.view (splice data off size xs) off (length xs) = xs.
Proof.
  intros Hl. unfold VectorRange.view, splice.
  rewrite drop_app_length' by (rewrite length_take; lia). by rewrite take_app_length.
Qed.

Lemma splice_take_drop data off size k xs :
  (k ≤ size)%nat → (off + size ≤ length data)%nat →
  take (off + k) data ++ xs ++ drop (off + k) data =
  splice data off size (take k (VectorRange.view data off size) ++ xs ++
                        drop k (VectorRange.view data off size)).
Proof.
  intros Hk Hl. unfold splice, VectorRange.view.
  rewrite take_take, Nat.min_l by lia. rewrite <- take_take_drop, <- !(assoc_L (++)).
  do 3 f_equal. by rewrite <- (drop_drop data size off), drop_take_drop, drop_drop by lia.
Qed.

Lemma vr_insert_splice data off size k x :
  (k ≤ size)%nat → (off + size ≤ length data)%nat → 0 <= w → Z.of_nat (S size) < 2 ^ w →
  VectorRange.insert w (off + k) x data off size =
  (splice data off size (vinsert k x (VectorRange.view data off size)), S size).
Proof.
  intros Hk Hl Hw Hs. unfold VectorRange.insert. rewrite store_size_small by lia. f_equal.
  exact (splice_take_drop data off size k [x] Hk Hl).
Qed.

Lemma view_length data off size :
  (off + size ≤ length data)%nat → length (VectorRange.view data off size) = size.
Proof. intros Hl. unfold VectorRange.view. rewrite length_take, length_drop. lia. Qed.

Lemma vr_erase_splice data off size k :
  (k < size)%nat → (off + size ≤ length data)%nat →
  VectorRange.erase (off + k) data off size =
  (splice data off size (verase k (VectorRange.view data off size)), (size - 1)%nat).
Proof.
  intros Hk Hl. unfold VectorRange.erase.
  destruct (Nat.ltb_spec 0 size); [|lia]. f_equal. unfold verase, splice, VectorRange.view.
  rewrite take_take, Nat.min_l by lia.
  replace (S (off + k)) with (off + S k)%nat by lia.
  rewrite <- take_take_drop, <- !(assoc_L (++)). do 2 f_equal.
  by rewrite <- (drop_drop data size off), drop_take_drop, drop_drop by lia.
Qed.

Lemma vr_assign_splice data off size xs :
  (off + size ≤ length data)%nat → 0 <= w → Z.of_nat (length xs) < 2 ^ w →
  VectorRange.assign w x0 xs data off size = (splice data off size xs, length xs).
Proof.
  intros Hl Hw Hs. unfold VectorRange.assign, VectorRange.resize, VectorRange.copy_to,
    VectorRange.vinsert_range, VectorRange.verase_range, splice.
  destruct (Nat.ltb_spec size (length xs)) as [Hlt|Hge].
  - rewrite store_size_small by lia. f_equal.
    rewrite length_take, Nat.min_l by lia.
    rewrite (assoc_L (++) (take off data)).
    rewrite take_app_length', drop_app_length'
      by (rewrite length_app, !length_take; lia).
    rewrite <- !(assoc_L (++)). f_equal. rewrite (assoc_L (++)), take_drop. done.
  - destruct (Nat.ltb_spec size (length xs)) as [?|_]; [lia|].
    rewrite store_size_small by lia.
    destruct (Nat.ltb_spec (length xs) size) as [Hlt|Heq]; f_equal.
    + rewrite take_app_le, take_take, Nat.min_l by (rewrite ?length_take; lia).
      do 2 f_equal. rewrite drop_app_length' by (rewrite length_take; lia). done.
    + do 2 f_equal. f_equal. lia.
Qed.

(** a [vector_range] writes only inside its window.  Assignment, element
    insertion and element erasure on the range [off, off + size) of a vector act on
    the elements of the range as the plain vector operation does and leave every
    element before and after the range in place, with the stored size following,
    as long as the new size fits the [w]-bit size field. *)
Theorem vector_range_locality data off size xs k x :
  (off + size ≤ length data)%nat → 0 <= w →
  Z.of_nat (length xs) < 2 ^ w → Z.of_nat (S size) < 2 ^ w → (k < size)%nat →
  let v := VectorRange.view data off size in
  VectorRange.assign w x0 xs data off size = (splice data off size xs, length xs) ∧
  VectorRange.insert w (off + k) x data off size =
    (splice data off size (vinsert k x v), length (vinsert k x v)) ∧
  VectorRange.erase (off + k) data off size =
    (splice data off size (verase k v), length (verase k v)) ∧
  (∀ ys, VectorRange.view (splice data off size ys) off (length ys) = ys).
Proof.
  intros Hl Hw Hx Hs Hk v. unfold v. split; [|split; [|split]].
  - by apply vr_assign_splice.
  - rewrite vr_insert_splice by lia. f_equal.
    unfold vinsert. rewrite length_app, length_take. simpl. rewrite length_drop, view_length; lia.
  - rewrite vr_erase_splice by lia. f_equal.
    unfold verase. rewrite length_app, length_take, length_drop, view_length; lia.
  - intros ys. apply splice_view. lia.
Qed.

End vector_range_facts.

(** A witness of [vector_range_locality]: the middle window of a vector. *)
Lemma vector_range_locality_witness :
  VectorRange.erase 2 [10; 20; 30; 40; 50] 1 3 = ([10; 20; 40; 50], 2%nat) ∧
  VectorRange.view [10; 20; 40; 50] 1 2 = [20; 40].
Proof.
  destruct (vector_range_locality 16 0 [10; 20; 30; 40; 50] 1 3 [] 1 7) as (_ & _ & He & _);
    [simpl; lia..|].
  split; [exact He|reflexivity].
Defined.
