(* ===== verification/Serialization.v ===== *)
(** * Serialization of messages

    src/common/datapack.h and src/common/serialization.h: integers in network byte order,
    strings, pairs, optional values, arrays, vectors, sets and maps.  The overloads of
    [serializedSize], [serialize] and [deserialize] for a type are a [format]; a buffer is the
    list of its bytes, and the source pointer with the number of bytes left is the rest of
    the buffer.  Reading outside the buffer is [Stuck].

    [Lawful] states what the framework promises for a type: the size is exact, values are
    read back whatever follows them, a truncated value is refused.  [Canonical] adds that
    only one sequence of bytes stands for a value, [Safe] that no input makes the reader
    leave the buffer.  Instances build the laws of composed types from those of their parts. *)

From S2P Require Import Prelude FlatContainers.

(** ** Packing of integers *)
Module Datapack.

Definition byte (z : Z) : Z := Z.land z 255.

Definition put64bit (v : Z) : list Z :=
  [byte (Z.shiftr v 56); byte (Z.shiftr v 48); byte (Z.shiftr v 40); byte (Z.shiftr v 32);
   byte (Z.shiftr v 24); byte (Z.shiftr v 16); byte (Z.shiftr v 8); byte v].
Definition put32bit (v : Z) : list Z :=
  [byte (Z.shiftr v 24); byte (Z.shiftr v 16); byte (Z.shiftr v 8); byte v].
Definition put16bit (v : Z) : list Z := [byte (Z.shiftr v 8); byte v].
Definition put8bit (v : Z) : list Z := [byte v].

Definition be32 (b0 b1 b2 b3 : Z) : Z := u32 (b3 + 256 * (b2 + 256 * (b1 + 256 * b0))).

(** The value read and the rest; reading past the end is undefined. *)
Definition get64bit (bs : list Z) : res (Z * list Z) :=
  match bs with
  | b0 :: b1 :: b2 :: b3 :: b4 :: b5 :: b6 :: b7 :: rest =>
      Ok (Z.lor (u64 (Z.shiftl (be32 b0 b1 b2 b3) 32)) (be32 b4 b5 b6 b7), rest)
  | _ => Stuck
  end.
Definition get32bit (bs : list Z) : res (Z * list Z) :=
  match bs with
  | b0 :: b1 :: b2 :: b3 :: rest => Ok (be32 b0 b1 b2 b3, rest)
  | _ => Stuck
  end.
Definition get16bit (bs : list Z) : res (Z * list Z) :=
  match bs with b0 :: b1 :: rest => Ok (u16 (u32 (b1 + 256 * b0)), rest) | _ => Stuck end.
Definition get8bit (bs : list Z) : res (Z * list Z) :=
  match bs with b :: rest => Ok (u8 b, rest) | _ => Stuck end.
End Datapack.
Import Datapack.

(** ** Formats *)
Module Serialization.

Definition kMaxDeserializedBytesCount : Z := 32 * 1024 * 1024.
Definition kMaxDeserializedElementsCount : Z := 1000 * 1000.

(** The overloads for a type: which values it has, [serializedSize], [serialize] and
    [deserialize]. *)
Record format (A : Type) : Type := mk_format {
  valid : A → Prop;
  serializedSize : A → Z;
  serialize : A → list Z;
  deserialize : list Z → res (A * list Z);
}.
Arguments mk_format {A} _ _ _ _.
Arguments valid {A} _ _.
Arguments serializedSize {A} _ _.
Arguments serialize {A} _ _.
Arguments deserialize {A} _ _.

(** [verifySize(value, bytesLeftInBuffer)] for a type of [n] bytes. *)
Definition verifySize {A} (n : Z) (bs : list Z) (k : res A) : res A :=
  if Z.of_nat (length bs) <? n then Throw else k.

(** An integer of [n] bytes with values in the range [lo, hi). *)
Definition integer (n lo hi : Z) (put : Z → list Z) (get : list Z → res (Z * list Z)) (cast : Z → Z) : format Z :=
  mk_format (fun v => lo <= v < hi) (fun _ => n) put
    (fun bs => verifySize n bs ('(v, rest) ← get bs; Ok (cast v, rest))).

Definition uint8_f : format Z := integer 1 0 (2 ^ 8) put8bit get8bit (fun v => v).
Definition int8_f : format Z := integer 1 (- 2 ^ 7) (2 ^ 7) put8bit get8bit (wraps 8).
Definition uint16_f : format Z := integer 2 0 (2 ^ 16) put16bit get16bit (fun v => v).
Definition int16_f : format Z := integer 2 (- 2 ^ 15) (2 ^ 15) put16bit get16bit (wraps 16).
Definition uint32_f : format Z := integer 4 0 (2 ^ 32) put32bit get32bit (fun v => v).
Definition int32_f : format Z := integer 4 (- 2 ^ 31) (2 ^ 31) put32bit get32bit (wraps 32).
Definition uint64_f : format Z := integer 8 0 (2 ^ 64) put64bit get64bit (fun v => v).
Definition int64_f : format Z := integer 8 (- 2 ^ 63) (2 ^ 63) put64bit get64bit (wraps 64).

Definition bool_deserialize (bs : list Z) : res (bool * list Z) :=
  verifySize 1 bs ('(v, rest) ← get8bit bs; if 1 <? v then Throw else Ok (v =? 1, rest)).
Definition bool_f : format bool :=
  mk_format (fun _ => True) (fun _ => 1) (fun b : bool => put8bit (if b then 1 else 0)) bool_deserialize.

(** An enumeration of [n] values over [uint8_t]. *)
Definition enum_f (n : Z) : format Z :=
  mk_format (fun v => 0 <= v < n) (serializedSize uint8_f) (serialize uint8_f)
    (fun bs => '(v, rest) ← deserialize uint8_f bs; if n <=? v then Throw else Ok (v, rest)).

(** A string is the list of its characters, as bytes. *)
Definition string_serializedSize (s : list Z) : Z := u32 (4 + Z.of_nat (length s) + 1).
Definition string_serialize (s : list Z) : list Z := serialize uint32_f (u32 (Z.of_nat (length s) + 1)) ++ s ++ [0].
Definition string_deserialize (bs : list Z) : res (list Z * list Z) :=
  '(size, bs) ← deserialize uint32_f bs;
  if kMaxDeserializedElementsCount <? size then Throw
  else if Z.of_nat (length bs) <? size then Throw
  else match bs !! Z.to_nat (u32 (size - 1)) with
       | None => Stuck
       | Some c => if c =? 0 then Ok (take (Z.to_nat (u32 (size - 1))) bs, drop (Z.to_nat size) bs) else Throw
       end.
Definition string_f : format (list Z) :=
  mk_format (fun s : list Z => Forall (fun c => 0 <= c < 256) s ∧ Z.of_nat (length s) + 1 <= kMaxDeserializedElementsCount)
    string_serializedSize string_serialize string_deserialize.

Definition pair_serializedSize {A B} (f : format A) (g : format B) (p : A * B) : Z :=
  u32 (serializedSize f p.1 + serializedSize g p.2).
Definition pair_serialize {A B} (f : format A) (g : format B) (p : A * B) : list Z := serialize f p.1 ++ serialize g p.2.
Definition pair_deserialize {A B} (f : format A) (g : format B) (bs : list Z) : res (A * B * list Z) :=
  '(a, bs) ← deserialize f bs; '(b, bs) ← deserialize g bs; Ok ((a, b), bs).
Definition pair_f {A B} (f : format A) (g : format B) : format (A * B) :=
  mk_format (fun p : A * B => valid f p.1 ∧ valid g p.2) (pair_serializedSize f g) (pair_serialize f g) (pair_deserialize f g).

(** [std::unique_ptr]. *)
Definition ptr_serializedSize {A} (f : format A) (o : option A) : Z :=
  match o with Some a => u32 (serializedSize bool_f true + serializedSize f a) | None => serializedSize bool_f false end.
Definition ptr_serialize {A} (f : format A) (o : option A) : list Z :=
  match o with Some a => serialize bool_f true ++ serialize f a | None => serialize bool_f false end.
Definition ptr_deserialize {A} (f : format A) (bs : list Z) : res (option A * list Z) :=
  '(isNotEmpty, bs) ← deserialize bool_f bs;
  if (isNotEmpty : bool) then '(a, bs) ← deserialize f bs; Ok (Some a, bs) else Ok (None, bs).
Definition ptr_f {A} (f : format A) : format (option A) :=
  mk_format (fun o : option A => from_option (valid f) True o) (ptr_serializedSize f) (ptr_serialize f) (ptr_deserialize f).

Definition sizes {A} (f : format A) (l : list A) : Z := foldl (fun n a => u32 (n + serializedSize f a)) 0 l.

(** The loop that writes the elements, and the one that reads [n] of them. *)
Fixpoint serialize_many {A} (f : format A) (l : list A) : list Z :=
  match l with [] => [] | a :: l => serialize f a ++ serialize_many f l end.

Fixpoint deserialize_many {A} (f : format A) (n : nat) (bs : list Z) : res (list A * list Z) :=
  match n with
  | O => Ok ([], bs)
  | S n => '(a, bs) ← deserialize f bs; '(l, bs) ← deserialize_many f n bs; Ok (a :: l, bs)
  end.

(** Arrays of fixed size ([T name[N]], [std::array]). *)
Definition array_f {A} (n : nat) (f : format A) : format (list A) :=
  mk_format (fun l : list A => length l = n ∧ Forall (valid f) l) (sizes f) (serialize_many f) (deserialize_many f n).

(** [std::vector], [small_vector], [compact_vector]; also [flat_set] and [flat_map], which
    serialize their vectors. *)
Definition vector_serializedSize {A} (f : format A) (l : list A) : Z := u32 (4 + sizes f l).
Definition vector_serialize {A} (f : format A) (l : list A) : list Z :=
  serialize uint32_f (u32 (Z.of_nat (length l))) ++ serialize_many f l.
Definition vector_deserialize {A} (f : format A) (bs : list Z) : res (list A * list Z) :=
  '(size, bs) ← deserialize uint32_f bs;
  if kMaxDeserializedElementsCount <? size then Throw else deserialize_many f (Z.to_nat size) bs.
Definition vector_f {A} (f : format A) : format (list A) :=
  mk_format (fun l : list A => Z.of_nat (length l) <= kMaxDeserializedElementsCount ∧ Forall (valid f) l)
    (vector_serializedSize f) (vector_serialize f) (vector_deserialize f).

(** [std::set] (and [std::map] with the comparison of keys): the elements in order; reading
    inserts one element after the other. *)
Fixpoint set_insert {A} (lt : A → A → bool) (x : A) (l : list A) : list A :=
  match l with
  | [] => [x]
  | y :: l' => if lt x y then x :: l else if lt y x then y :: set_insert lt x l' else l
  end.

Definition set_deserialize {A} (lt : A → A → bool) (f : format A) (bs : list Z) : res (list A * list Z) :=
  '(size, bs) ← deserialize uint32_f bs;
  if kMaxDeserializedElementsCount <? size then Throw
  else '(l, bs) ← deserialize_many f (Z.to_nat size) bs; Ok (foldl (fun s x => set_insert lt x s) [] l, bs).
Definition set_f {A} (lt : A → A → bool) (f : format A) : format (list A) :=
  mk_format (fun l : list A => Z.of_nat (length l) <= kMaxDeserializedElementsCount ∧ Forall (valid f) l ∧ ssorted lt l)
    (vector_serializedSize f) (vector_serialize f) (set_deserialize lt f).

(** A class with [SAUNAFS_DEFINE_SERIALIZE_METHODS]: the tuple of its members. *)
Definition class_f {A B} (members : B → A) (make : A → B) (f : format A) : format B :=
  mk_format (fun b : B => valid f (members b)) (fun b => serializedSize f (members b))
    (fun b => serialize f (members b))
    (fun bs => '(a, bs) ← deserialize f bs; Ok (make a, bs)).

Arguments bool_deserialize _ /.
Arguments string_serializedSize _ /.
Arguments string_serialize _ /.
Arguments string_deserialize _ /.
Arguments pair_serializedSize {A B} _ _ _ /.
Arguments pair_serialize {A B} _ _ _ /.
Arguments pair_deserialize {A B} _ _ _ /.
Arguments ptr_serializedSize {A} _ _ /.
Arguments ptr_serialize {A} _ _ /.
Arguments ptr_deserialize {A} _ _ /.
Arguments vector_serializedSize {A} _ _ /.
Arguments vector_serialize {A} _ _ /.
Arguments vector_deserialize {A} _ _ /.
Arguments set_deserialize {A} _ _ _ /.

(** The main interface: [serialize] into an empty buffer, which is resized first.  Writing
    past its end is undefined; the last [sassert] compares the distance with the size. *)
Definition serialize_buffer {A} (f : format A) (a : A) : res (list Z) :=
  let distance := Z.of_nat (length (serialize f a)) in
  if serializedSize f a <? distance then Stuck
  else assertion (distance =? wraps 32 (serializedSize f a)) (Ok (serialize f a)).

(** [deserialize] answers the number of unused bytes. *)
Definition deserialize_buffer {A} (f : format A) (bs : list Z) : res (A * Z) :=
  if kMaxDeserializedBytesCount <? Z.of_nat (length bs) then Throw
  else '(a, rest) ← deserialize f bs; Ok (a, Z.of_nat (length rest)).

(** ** Integers *)

Definition is_byte (b : Z) : Prop := 0 <= b < 256.

Lemma byte_shiftr v k : 0 <= k → byte (Z.shiftr v k) = (v / 2 ^ k) mod 256.
Proof. intros Hk. unfold byte. change 255 with (Z.ones 8). rewrite Z.land_ones, Z.shiftr_div_pow2 by lia. done. Qed.

Lemma byte_mod v : byte v = v mod 256.
Proof. unfold byte. change 255 with (Z.ones 8). by rewrite Z.land_ones by lia. Qed.

Lemma byte_range v : is_byte (byte v).
Proof. rewrite byte_mod. unfold is_byte. apply Z.mod_pos_bound. lia. Qed.

Ltac euclid := Z.to_euclidean_division_equations; lia.

Lemma be32_bytes v : be32 (byte (Z.shiftr v 24)) (byte (Z.shiftr v 16)) (byte (Z.shiftr v 8)) (byte v) = v mod 2 ^ 32.
Proof. unfold be32, wrapu. rewrite !byte_shiftr, byte_mod by lia. change (2 ^ 24) with 16777216. euclid. Qed.

Lemma be32_range b0 b1 b2 b3 : 0 <= be32 b0 b1 b2 b3 < 2 ^ 32.
Proof. apply (wrapu_range 32). lia. Qed.

Lemma put32bit_be32 v b0 b1 b2 b3 :
  is_byte b0 → is_byte b1 → is_byte b2 → is_byte b3 → v mod 2 ^ 32 = be32 b0 b1 b2 b3 → put32bit v = [b0; b1; b2; b3].
Proof.
  unfold is_byte, be32, wrapu. intros ? ? ? ? E. unfold put32bit. rewrite !byte_shiftr, byte_mod by lia.
  change (2 ^ 32) with 4294967296 in E. rewrite (Z.mod_small (_ + _)) in E by lia.
  change (2 ^ 24) with 16777216. change (2 ^ 16) with 65536. change (2 ^ 8) with 256.
  repeat f_equal; euclid.
Qed.

Lemma put64bit_split v : put64bit v = put32bit (v / 2 ^ 32) ++ put32bit v.
Proof.
  unfold put64bit, put32bit. cbn [app]. rewrite <- Z.shiftr_div_pow2 by lia. rewrite !Z.shiftr_shiftr by lia. done.
Qed.

Lemma lor_shifted hi lo : 0 <= hi < 2 ^ 32 → 0 <= lo < 2 ^ 32 → Z.lor (u64 (Z.shiftl hi 32)) lo = hi * 2 ^ 32 + lo.
Proof.
  intros Hh Hl. rewrite Z.shiftl_mul_pow2 by lia. rewrite wrapu_small by lia.
  pose proof (Z.add_lor_land (hi * 2 ^ 32) lo) as E.
  assert (Z.land (hi * 2 ^ 32) lo = 0) as E0; [| lia].
  rewrite <- (Z.mod_small lo (2 ^ 32)) by done. rewrite <- Z.land_ones by lia.
  rewrite <- Z.shiftl_mul_pow2 by lia. apply Z.bits_inj'. intros n Hn. rewrite !Z.land_spec, Z.bits_0.
  destruct (Z.lt_ge_cases n 32).
  - by rewrite Z.shiftl_spec_low.
  - rewrite Z.ones_spec_high by lia. by rewrite !andb_false_r.
Qed.

Lemma get64bit_put v rest : get64bit (put64bit v ++ rest) = Ok (v mod 2 ^ 64, rest).
Proof.
  rewrite put64bit_split. unfold put32bit. cbn [app get64bit]. rewrite !be32_bytes.
  rewrite lor_shifted by (apply Z.mod_pos_bound; lia). do 2 f_equal.
  change (2 ^ 64) with (2 ^ 32 * 2 ^ 32). rewrite Z.rem_mul_r by lia. lia.
Qed.

Lemma put64bit_get v b0 b1 b2 b3 b4 b5 b6 b7 :
  Forall is_byte [b0; b1; b2; b3; b4; b5; b6; b7] →
  v mod 2 ^ 64 = Z.lor (u64 (Z.shiftl (be32 b0 b1 b2 b3) 32)) (be32 b4 b5 b6 b7) →
  put64bit v = [b0; b1; b2; b3; b4; b5; b6; b7].
Proof.
  intros H E. rewrite !Forall_cons in H. destruct H as (? & ? & ? & ? & ? & ? & ? & ? & _).
  rewrite lor_shifted in E by apply be32_range.
  pose proof (be32_range b0 b1 b2 b3). pose proof (be32_range b4 b5 b6 b7).
  rewrite put64bit_split.
  assert ((v / 2 ^ 32) mod 2 ^ 32 = be32 b0 b1 b2 b3 ∧ v mod 2 ^ 32 = be32 b4 b5 b6 b7) as [E1 E2].
  { change (2 ^ 64) with (2 ^ 32 * 2 ^ 32) in E. rewrite Z.rem_mul_r in E by lia.
    pose proof (Z.mod_pos_bound v (2 ^ 32) ltac:(lia)). pose proof (Z.mod_pos_bound (v / 2 ^ 32) (2 ^ 32) ltac:(lia)). lia. }
  by rewrite (put32bit_be32 (v / 2 ^ 32) b0 b1 b2 b3), (put32bit_be32 v b4 b5 b6 b7).
Qed.

(** ** The laws *)

(** What is left of a buffer: [bytesLeftInBuffer] is a [uint32_t]. *)
Definition buffer (bs : list Z) : Prop := Forall is_byte bs ∧ Z.of_nat (length bs) < 2 ^ 32.

Class Lawful {A} (f : format A) : Prop := {
  law_size a : valid f a → serializedSize f a = u32 (Z.of_nat (length (serialize f a)));
  law_bytes a : valid f a → Forall is_byte (serialize f a);
  law_read a rest : valid f a → deserialize f (serialize f a ++ rest) = Ok (a, rest);
  law_short a n : valid f a → (n < length (serialize f a))%nat → deserialize f (take n (serialize f a)) = Throw;
  law_sound bs a rest :
    buffer bs → deserialize f bs = Ok (a, rest) → valid f a ∧ ∃ used, bs = used ++ rest;
}.

Class Canonical {A} (f : format A) : Prop :=
  canonical bs a rest : buffer bs → deserialize f bs = Ok (a, rest) → bs = serialize f a ++ rest.

Class Safe {A} (f : format A) : Prop :=
  safe bs : buffer bs → deserialize f bs ≠ Stuck.

Section integers.
Context (n : nat) (lo hi : Z) (put : Z → list Z) (get : list Z → res (Z * list Z)) (cast : Z → Z).
Context (Hlen : ∀ v, length (put v) = n).
Context (Hbytes : ∀ v, Forall is_byte (put v)).
Context (Hread : ∀ v rest, lo <= v < hi → ∃ w, get (put v ++ rest) = Ok (w, rest) ∧ cast w = v).
Context (Hback : ∀ bs, Forall is_byte bs → (n <= length bs)%nat →
  ∃ w rest, get bs = Ok (w, rest) ∧ lo <= cast w < hi ∧ bs = put (cast w) ++ rest).
Context (Hn : Z.of_nat n < 2 ^ 32).

Let f := integer (Z.of_nat n) lo hi put get cast.

Lemma verifySize_long {A} bs (k : res A) : (n <= length bs)%nat → verifySize (Z.of_nat n) bs k = k.
Proof. intros H. unfold verifySize. by rewrite (proj2 (Z.ltb_ge _ _)) by lia. Qed.

Lemma verifySize_short {A} bs (k : res A) : (length bs < n)%nat → verifySize (Z.of_nat n) bs k = Throw.
Proof. intros H. unfold verifySize. by rewrite (proj2 (Z.ltb_lt _ _)) by lia. Qed.

Lemma integer_reads bs a rest :
  buffer bs → deserialize f bs = Ok (a, rest) → valid f a ∧ bs = put a ++ rest.
Proof.
  intros [Hb _] E. cbn in E. destruct (decide (n <= length bs)%nat) as [Hl | Hl].
  - rewrite verifySize_long in E by done. destruct (Hback bs Hb Hl) as (w & r & Eg & Hv & Ebs).
    rewrite Eg in E. cbn in E. simplify_eq. done.
  - rewrite verifySize_short in E by lia. done.
Qed.

Lemma integer_lawful : Lawful f.
Proof.
  split.
  - intros a _. cbn. rewrite Hlen. rewrite wrapu_small; lia.
  - intros a _. apply Hbytes.
  - intros a rest Ha. cbn. rewrite verifySize_long by (rewrite length_app, Hlen; lia).
    destruct (Hread a rest Ha) as (w & -> & <-). done.
  - intros a k _ Hk. cbn in *. apply verifySize_short. rewrite length_take, Hlen in *. lia.
  - intros bs a rest Hb E. destruct (integer_reads _ _ _ Hb E) as [? ->]. eauto.
Qed.

Lemma integer_canonical : Canonical f.
Proof. intros bs a rest Hb E. by destruct (integer_reads _ _ _ Hb E). Qed.

Lemma integer_safe : Safe f.
Proof.
  intros bs [Hb _]. cbn. destruct (decide (n <= length bs)%nat) as [Hl | Hl].
  - rewrite verifySize_long by done. destruct (Hback bs Hb Hl) as (w & r & -> & _). done.
  - by rewrite verifySize_short by lia.
Qed.
End integers.

Lemma wraps_mod w v : 0 < w → - 2 ^ (w - 1) <= v < 2 ^ (w - 1) → wraps w (v mod 2 ^ w) = v.
Proof.
  intros Hw Hv. rewrite <- (wraps_small w v) at 2 by done. unfold wraps. f_equal.
  by rewrite Zplus_mod_idemp_l.
Qed.

Lemma wraps_range w v : 0 < w → - 2 ^ (w - 1) <= wraps w v < 2 ^ (w - 1).
Proof.
  intros Hw. unfold wraps. assert (2 ^ w = 2 * 2 ^ (w - 1)) as E by (rewrite <- Z.pow_succ_r by lia; f_equal; lia).
  pose proof (Z.mod_pos_bound (v + 2 ^ (w - 1)) (2 ^ w) ltac:(apply Z.pow_pos_nonneg; lia)). lia.
Qed.

Lemma mod_wraps w v : 0 < w → wraps w v mod 2 ^ w = v mod 2 ^ w.
Proof.
  intros Hw. unfold wraps. rewrite Zminus_mod_idemp_l. f_equal. lia.
Qed.

(** Unsigned and signed integers of one, two, four and eight bytes. *)
Lemma back8 bs : Forall is_byte bs → (1 <= length bs)%nat →
  ∃ b rest, bs = b :: rest ∧ is_byte b ∧ get8bit bs = Ok (b, rest).
Proof.
  intros Hb Hl. destruct bs as [| b rest]; [cbn in Hl; lia |]. apply Forall_cons in Hb as [? _].
  exists b, rest. cbn. rewrite wrapu_small by done. done.
Qed.

Lemma back16 bs : Forall is_byte bs → (2 <= length bs)%nat →
  ∃ b0 b1 rest, bs = b0 :: b1 :: rest ∧ is_byte b0 ∧ is_byte b1 ∧ get16bit bs = Ok (b1 + 256 * b0, rest).
Proof.
  intros Hb Hl. destruct bs as [| b0 [| b1 rest]]; [cbn in Hl; lia.. |].
  apply Forall_cons in Hb as [? [? _]%Forall_cons]. exists b0, b1, rest. unfold is_byte in *.
  cbn. rewrite (wrapu_small 32), wrapu_small by lia. done.
Qed.

Lemma put16bit_bytes v b0 b1 : is_byte b0 → is_byte b1 → v mod 2 ^ 16 = b1 + 256 * b0 → put16bit v = [b0; b1].
Proof.
  unfold is_byte. intros ? ? E. unfold put16bit. rewrite byte_shiftr, byte_mod by lia.
  change (2 ^ 16) with 65536 in E. change (2 ^ 8) with 256. repeat f_equal; euclid.
Qed.

Lemma get16bit_put v rest : get16bit (put16bit v ++ rest) = Ok (v mod 2 ^ 16, rest).
Proof.
  unfold put16bit. cbn [app get16bit]. rewrite byte_shiftr, byte_mod by lia. unfold wrapu.
  do 2 f_equal. change (2 ^ 8) with 256. change (2 ^ 16) with 65536. change (2 ^ 32) with 4294967296. euclid.
Qed.

Lemma get8bit_put v rest : get8bit (put8bit v ++ rest) = Ok (v mod 2 ^ 8, rest).
Proof. cbn. rewrite byte_mod. unfold wrapu. change (2 ^ 8) with 256. by rewrite Z.mod_mod. Qed.

Lemma back32 bs : Forall is_byte bs → (4 <= length bs)%nat →
  ∃ b0 b1 b2 b3 rest, bs = b0 :: b1 :: b2 :: b3 :: rest ∧ is_byte b0 ∧ is_byte b1 ∧ is_byte b2 ∧ is_byte b3 ∧
    get32bit bs = Ok (be32 b0 b1 b2 b3, rest).
Proof.
  intros Hb Hl. destruct bs as [| b0 [| b1 [| b2 [| b3 rest]]]]; [cbn in Hl; lia.. |].
  rewrite !Forall_cons in Hb. destruct Hb as (? & ? & ? & ? & _). by exists b0, b1, b2, b3, rest.
Qed.

Lemma get32bit_put v rest : get32bit (put32bit v ++ rest) = Ok (v mod 2 ^ 32, rest).
Proof. unfold put32bit. cbn [app get32bit]. by rewrite be32_bytes. Qed.

Lemma back64 bs : Forall is_byte bs → (8 <= length bs)%nat →
  ∃ b0 b1 b2 b3 b4 b5 b6 b7 rest, bs = b0 :: b1 :: b2 :: b3 :: b4 :: b5 :: b6 :: b7 :: rest ∧
    Forall is_byte [b0; b1; b2; b3; b4; b5; b6; b7] ∧
    get64bit bs = Ok (Z.lor (u64 (Z.shiftl (be32 b0 b1 b2 b3) 32)) (be32 b4 b5 b6 b7), rest).
Proof.
  intros Hb Hl. destruct bs as [| b0 [| b1 [| b2 [| b3 [| b4 [| b5 [| b6 [| b7 rest]]]]]]]]; [cbn in Hl; lia.. |].
  exists b0, b1, b2, b3, b4, b5, b6, b7, rest. split_and!; [done | | done].
  by apply (Forall_app _ [b0; b1; b2; b3; b4; b5; b6; b7] rest) in Hb as [? _].
Qed.

(** The packing of integers of [k] bits into [n] bytes. *)
Class Width (k : Z) (n : nat) (put : Z → list Z) (get : list Z → res (Z * list Z)) : Prop := {
  width_len v : length (put v) = n;
  width_bytes v : Forall is_byte (put v);
  width_read v rest : get (put v ++ rest) = Ok (v mod 2 ^ k, rest);
  width_back bs : Forall is_byte bs → (n <= length bs)%nat →
    ∃ w rest, get bs = Ok (w, rest) ∧ 0 <= w < 2 ^ k ∧ ∀ v, v mod 2 ^ k = w → bs = put v ++ rest;
}.

(** The conversion from unsigned integers of [k] bits. *)
Class Cast (k lo hi : Z) (cast : Z → Z) : Prop := {
  cast_mod v : lo <= v < hi → cast (v mod 2 ^ k) = v;
  cast_back w : 0 <= w < 2 ^ k → lo <= cast w < hi ∧ cast w mod 2 ^ k = w;
}.

#[global] Instance width8 : Width 8 1 put8bit get8bit.
Proof.
  split.
  - done.
  - intros v. apply Forall_singleton, byte_range.
  - apply get8bit_put.
  - intros bs Hb Hl. destruct (back8 bs Hb Hl) as (b & rest & -> & Hr & E). exists b, rest. split_and!; try done; try apply Hr.
    intros v E'. cbn. by rewrite byte_mod, <- E'.
Qed.

#[global] Instance width16 : Width 16 2 put16bit get16bit.
Proof.
  split.
  - done.
  - intros v. repeat constructor; apply byte_range.
  - apply get16bit_put.
  - intros bs Hb Hl. destruct (back16 bs Hb Hl) as (b0 & b1 & rest & -> & H0 & H1 & E).
    eexists _, rest. split; [exact E |]. unfold is_byte in *. split; [lia |].
    intros v E'. by rewrite (put16bit_bytes v b0 b1).
Qed.

#[global] Instance width32 : Width 32 4 put32bit get32bit.
Proof.
  split.
  - done.
  - intros v. repeat constructor; apply byte_range.
  - apply get32bit_put.
  - intros bs Hb Hl. destruct (back32 bs Hb Hl) as (b0 & b1 & b2 & b3 & rest & -> & ? & ? & ? & ? & E).
    eexists _, rest. split; [exact E |]. split; [apply be32_range |].
    intros v E'. by rewrite (put32bit_be32 v b0 b1 b2 b3).
Qed.

#[global] Instance width64 : Width 64 8 put64bit get64bit.
Proof.
  split.
  - done.
  - intros v. repeat constructor; apply byte_range.
  - apply get64bit_put.
  - intros bs Hb Hl.
    destruct (back64 bs Hb Hl) as (b0 & b1 & b2 & b3 & b4 & b5 & b6 & b7 & rest & -> & HF & E).
    eexists _, rest. split; [exact E |]. split.
    + rewrite lor_shifted by apply be32_range.
      pose proof (be32_range b0 b1 b2 b3). pose proof (be32_range b4 b5 b6 b7). lia.
    + intros v E'. by rewrite (put64bit_get v b0 b1 b2 b3 b4 b5 b6 b7).
Qed.

#[global] Instance cast_unsigned k : Cast k 0 (2 ^ k) (fun v => v).
Proof. split; [intros v Hv; by apply Z.mod_small | intros w Hw; split; [done | by apply Z.mod_small]]. Qed.

Lemma cast_signed k : 0 < k → Cast k (- 2 ^ (k - 1)) (2 ^ (k - 1)) (wraps k).
Proof.
  intros Hk. split.
  - intros v Hv. by apply wraps_mod.
  - intros w Hw. split; [by apply wraps_range | rewrite mod_wraps by done; by apply Z.mod_small].
Qed.
#[global] Instance cast_int8 : Cast 8 (- 2 ^ 7) (2 ^ 7) (wraps 8) := cast_signed 8 eq_refl.
#[global] Instance cast_int16 : Cast 16 (- 2 ^ 15) (2 ^ 15) (wraps 16) := cast_signed 16 eq_refl.
#[global] Instance cast_int32 : Cast 32 (- 2 ^ 31) (2 ^ 31) (wraps 32) := cast_signed 32 eq_refl.
#[global] Instance cast_int64 : Cast 64 (- 2 ^ 63) (2 ^ 63) (wraps 64) := cast_signed 64 eq_refl.

Section width.
Context (k : Z) (n : nat) (lo hi : Z) (put : Z → list Z) (get : list Z → res (Z * list Z)) (cast : Z → Z).
Context (HW : Width k n put get) (HC : Cast k lo hi cast) (Hn : Z.of_nat n < 2 ^ 32).

Lemma width_reads v rest : lo <= v < hi → ∃ w, get (put v ++ rest) = Ok (w, rest) ∧ cast w = v.
Proof. intros Hv. exists (v mod 2 ^ k). split; [apply width_read | by apply cast_mod]. Qed.

Lemma width_backs bs : Forall is_byte bs → (n <= length bs)%nat →
  ∃ w rest, get bs = Ok (w, rest) ∧ lo <= cast w < hi ∧ bs = put (cast w) ++ rest.
Proof.
  intros Hb Hl. destruct (width_back bs Hb Hl) as (w & rest & E & Hw & Hp). exists w, rest.
  destruct (cast_back w Hw) as [? Em]. split_and!; try done; try lia. by apply Hp.
Qed.

Lemma width_lawful : Lawful (integer (Z.of_nat n) lo hi put get cast).
Proof. apply integer_lawful; [apply width_len | apply width_bytes | apply width_reads | apply width_backs | done]. Qed.
Lemma width_canonical : Canonical (integer (Z.of_nat n) lo hi put get cast).
Proof. apply integer_canonical, width_backs. Qed.
Lemma width_safe : Safe (integer (Z.of_nat n) lo hi put get cast).
Proof. apply integer_safe, width_backs. Qed.
End width.

#[global] Instance uint8_lawful : Lawful uint8_f := width_lawful 8 1 _ _ _ _ _ _ _ eq_refl.
#[global] Instance int8_lawful : Lawful int8_f := width_lawful 8 1 _ _ _ _ _ _ _ eq_refl.
#[global] Instance uint16_lawful : Lawful uint16_f := width_lawful 16 2 _ _ _ _ _ _ _ eq_refl.
#[global] Instance int16_lawful : Lawful int16_f := width_lawful 16 2 _ _ _ _ _ _ _ eq_refl.
#[global] Instance uint32_lawful : Lawful uint32_f := width_lawful 32 4 _ _ _ _ _ _ _ eq_refl.
#[global] Instance int32_lawful : Lawful int32_f := width_lawful 32 4 _ _ _ _ _ _ _ eq_refl.
#[global] Instance uint64_lawful : Lawful uint64_f := width_lawful 64 8 _ _ _ _ _ _ _ eq_refl.
#[global] Instance int64_lawful : Lawful int64_f := width_lawful 64 8 _ _ _ _ _ _ _ eq_refl.
#[global] Instance uint8_canonical : Canonical uint8_f := width_canonical 8 1 _ _ _ _ _ _ _.
#[global] Instance int8_canonical : Canonical int8_f := width_canonical 8 1 _ _ _ _ _ _ _.
#[global] Instance uint16_canonical : Canonical uint16_f := width_canonical 16 2 _ _ _ _ _ _ _.
#[global] Instance int16_canonical : Canonical int16_f := width_canonical 16 2 _ _ _ _ _ _ _.
#[global] Instance uint32_canonical : Canonical uint32_f := width_canonical 32 4 _ _ _ _ _ _ _.
#[global] Instance int32_canonical : Canonical int32_f := width_canonical 32 4 _ _ _ _ _ _ _.
#[global] Instance uint64_canonical : Canonical uint64_f := width_canonical 64 8 _ _ _ _ _ _ _.
#[global] Instance int64_canonical : Canonical int64_f := width_canonical 64 8 _ _ _ _ _ _ _.
#[global] Instance uint8_safe : Safe uint8_f := width_safe 8 1 _ _ _ _ _ _ _.
#[global] Instance int8_safe : Safe int8_f := width_safe 8 1 _ _ _ _ _ _ _.
#[global] Instance uint16_safe : Safe uint16_f := width_safe 16 2 _ _ _ _ _ _ _.
#[global] Instance int16_safe : Safe int16_f := width_safe 16 2 _ _ _ _ _ _ _.
#[global] Instance uint32_safe : Safe uint32_f := width_safe 32 4 _ _ _ _ _ _ _.
#[global] Instance int32_safe : Safe int32_f := width_safe 32 4 _ _ _ _ _ _ _.
#[global] Instance uint64_safe : Safe uint64_f := width_safe 64 8 _ _ _ _ _ _ _.
#[global] Instance int64_safe : Safe int64_f := width_safe 64 8 _ _ _ _ _ _ _.

(** ** Composed types *)

Lemma u32_add_idemp a b : u32 (u32 a + u32 b) = u32 (a + b).
Proof. unfold wrapu. by rewrite <- Zplus_mod. Qed.

Lemma u32_add_idemp_l a b : u32 (u32 a + b) = u32 (a + b).
Proof. unfold wrapu. by rewrite Zplus_mod_idemp_l. Qed.

Lemma bytes_rest {A} (f : format A) `{!Lawful f} bs a rest :
  buffer bs → deserialize f bs = Ok (a, rest) → buffer rest.
Proof.
  intros Hb E. destruct (law_sound bs a rest Hb E) as (_ & used & ->). destruct Hb as [[_ ?]%Forall_app Hl].
  rewrite length_app in Hl. split; [done | lia].
Qed.

Lemma verifySize_cons {A} c bs (k : res A) : verifySize 1 (c :: bs) k = k.
Proof. unfold verifySize. cbn [length]. by rewrite (proj2 (Z.ltb_ge _ _)) by lia. Qed.

#[global] Instance bool_lawful : Lawful bool_f.
Proof.
  split.
  - done.
  - intros b _. apply Forall_singleton, byte_range.
  - intros b rest _. cbn [serialize bool_f put8bit app deserialize bool_deserialize]. rewrite verifySize_cons. by destruct b.
  - intros b n _ Hn. cbn in *. assert (n = 0)%nat as -> by lia. done.
  - intros bs b rest Hb E. split; [done |]. destruct bs as [| c bs]; [done |].
    cbn [deserialize bool_f bool_deserialize] in E. rewrite verifySize_cons in E. cbn in E. destruct (1 <? u8 c); [done |].
    simplify_eq. by exists [c].
Qed.

#[global] Instance bool_canonical : Canonical bool_f.
Proof.
  intros bs b rest Hb E. destruct bs as [| c bs]; [done |]. destruct Hb as [[Hc _]%Forall_cons _]. unfold is_byte in Hc.
  cbn [deserialize bool_f bool_deserialize] in E. rewrite verifySize_cons in E. cbn in E. rewrite wrapu_small in E by lia.
  destruct (Z.ltb_spec 1 c); [done |]. simplify_eq. cbn. assert (c = 0 ∨ c = 1) as [-> | ->] by lia; done.
Qed.

#[global] Instance bool_safe : Safe bool_f.
Proof.
  intros [| c bs] Hb; [done |]. cbn [deserialize bool_f bool_deserialize]. rewrite verifySize_cons. cbn. by destruct (1 <? u8 c).
Qed.

#[global] Instance enum_lawful n : n <= 256 → Lawful (enum_f n).
Proof.
  intros Hn. assert (∀ v, valid (enum_f n) v → valid uint8_f v) as Hv by (intros v; cbn; lia). split.
  - intros v H%Hv. by apply (law_size (f := uint8_f)).
  - intros v H%Hv. by apply (law_bytes (f := uint8_f)).
  - intros v rest H. cbn [serialize deserialize enum_f]. rewrite (law_read (f := uint8_f)) by (by apply Hv). cbn.
    cbn in H. by rewrite (proj2 (Z.leb_gt _ _)) by lia.
  - intros v k H Hk. cbn [deserialize serialize enum_f] in *. rewrite (law_short (f := uint8_f) v k); [done | by apply Hv | done].
  - intros bs v rest Hb E. cbn [deserialize enum_f] in E.
    destruct (deserialize uint8_f bs) as [[w r] | | |] eqn:Ew; cbn [mbind res_bind] in E; [| done..].
    destruct (Z.leb_spec n w); [done |]. simplify_eq. destruct (law_sound _ _ _ Hb Ew) as [Hw ?]. cbn in Hw. cbn. eauto with lia.
Qed.

#[global] Instance enum_canonical n : Canonical (enum_f n).
Proof.
  intros bs v rest Hb E. cbn [deserialize enum_f] in E.
  destruct (deserialize uint8_f bs) as [[w r] | | |] eqn:Ew; cbn [mbind res_bind] in E; [| done..].
  destruct (n <=? w); [done |]. simplify_eq. by apply (canonical (f := uint8_f)).
Qed.

#[global] Instance enum_safe n : Safe (enum_f n).
Proof.
  intros bs Hb. cbn [deserialize enum_f]. pose proof (safe (f := uint8_f) bs Hb) as Hs.
  destruct (deserialize uint8_f bs) as [[w r] | | |]; cbn [mbind res_bind]; try done. by destruct (n <=? w).
Qed.

Section pair.
Context {A B} (f : format A) (g : format B) `{!Lawful f, !Lawful g}.

#[global] Instance pair_lawful : Lawful (pair_f f g).
Proof.
  split.
  - intros [a b] [Ha Hb]. cbn in *. rewrite !law_size by done. rewrite u32_add_idemp, length_app. f_equal. lia.
  - intros [a b] [Ha Hb]. apply Forall_app. split; by apply law_bytes.
  - intros [a b] rest [Ha Hb]. cbn in *. rewrite <- app_assoc. rewrite law_read by done. cbn.
    by rewrite law_read by done.
  - intros [a b] n [Ha Hb] Hn. cbn in *. rewrite length_app in Hn. rewrite take_app.
    destruct (decide (n < length (serialize f a))%nat) as [Hl | Hl].
    + assert (n - length (serialize f a) = 0)%nat as -> by lia. rewrite take_0, app_nil_r.
      by rewrite law_short.
    + rewrite take_ge by lia. rewrite law_read by done. cbn. rewrite law_short by (done || lia). done.
  - intros bs [a b] rest Hb E. cbn in E.
    destruct (deserialize f bs) as [[a' r] | | |] eqn:Ef; cbn [mbind res_bind] in E; [| done..].
    destruct (deserialize g r) as [[b' r'] | | |] eqn:Eg; cbn [mbind res_bind] in E; [| done..]. simplify_eq.
    pose proof (bytes_rest f _ _ _ Hb Ef) as Hr.
    destruct (law_sound _ _ _ Hb Ef) as (? & u & ->). destruct (law_sound _ _ _ Hr Eg) as (? & u' & ->).
    split; [done |]. exists (u ++ u'). by rewrite app_assoc.
Qed.

#[global] Instance pair_canonical `{!Canonical f, !Canonical g} : Canonical (pair_f f g).
Proof.
  intros bs [a b] rest Hb E. cbn in E.
  destruct (deserialize f bs) as [[a' r] | | |] eqn:Ef; cbn [mbind res_bind] in E; [| done..].
  destruct (deserialize g r) as [[b' r'] | | |] eqn:Eg; cbn [mbind res_bind] in E; [| done..]. simplify_eq.
  pose proof (bytes_rest f _ _ _ Hb Ef) as Hr. cbn.
  pose proof (canonical _ _ _ Hb Ef) as E1. pose proof (canonical _ _ _ Hr Eg) as E2.
  rewrite E1, E2. by rewrite app_assoc.
Qed.

#[global] Instance pair_safe `{!Safe f, !Safe g} : Safe (pair_f f g).
Proof.
  intros bs Hb. cbn. pose proof (safe (f := f) bs Hb) as Hs.
  destruct (deserialize f bs) as [[a r] | | |] eqn:Ef; cbn [mbind res_bind]; try done.
  pose proof (safe (f := g) r (bytes_rest f _ _ _ Hb Ef)) as Hs'. by destruct (deserialize g r) as [[] | | |].
Qed.
End pair.

Section ptr.
Context {A} (f : format A) `{!Lawful f}.

#[global] Instance ptr_lawful : Lawful (ptr_f f).
Proof.
  split.
  - intros [a |] Ha; cbn in *; [| done]. rewrite law_size by done.
    unfold wrapu. rewrite Zplus_mod_idemp_r. f_equal. lia.
  - intros [a |] Ha; cbn; constructor; try apply byte_range; [by apply law_bytes | constructor].
  - intros [a |] rest Ha; cbn [deserialize serialize ptr_f ptr_serializedSize ptr_serialize ptr_deserialize]; rewrite <- ?app_assoc; rewrite law_read by done;
      cbn [mbind res_bind]; [by rewrite law_read | done].
  - intros [a |] n Ha Hn; cbn [serialize ptr_f ptr_serializedSize ptr_serialize ptr_deserialize] in *.
    + destruct n as [| n]; [done |]. rewrite length_app in Hn. cbn [length serialize bool_f put8bit bool_deserialize] in Hn.
      rewrite take_app, take_ge by (cbn; lia). cbn [deserialize ptr_f ptr_serializedSize ptr_serialize ptr_deserialize]. rewrite law_read by done. cbn [mbind res_bind].
      by rewrite law_short by (done || cbn; lia).
    + cbn in Hn. assert (n = 0)%nat as -> by lia. done.
  - intros bs o rest Hb E. cbn [deserialize ptr_f ptr_serializedSize ptr_serialize ptr_deserialize] in E.
    destruct (deserialize bool_f bs) as [[b r] | | |] eqn:Eb; cbn [mbind res_bind] in E; [| done..].
    pose proof (bytes_rest bool_f _ _ _ Hb Eb) as Hr. destruct (law_sound _ _ _ Hb Eb) as (_ & u & ->). destruct b.
    + destruct (deserialize f r) as [[a r'] | | |] eqn:Ef; cbn [mbind res_bind] in E; [| done..]. simplify_eq.
      destruct (law_sound _ _ _ Hr Ef) as (? & u' & ->). split; [done |]. exists (u ++ u'). by rewrite app_assoc.
    + simplify_eq. split; [done | eauto].
Qed.

#[global] Instance ptr_canonical `{!Canonical f} : Canonical (ptr_f f).
Proof.
  intros bs o rest Hb E. cbn [deserialize ptr_f ptr_serializedSize ptr_serialize ptr_deserialize] in E.
  destruct (deserialize bool_f bs) as [[b r] | | |] eqn:Eb; cbn [mbind res_bind] in E; [| done..].
  pose proof (bytes_rest bool_f _ _ _ Hb Eb) as Hr. rewrite (canonical _ _ _ Hb Eb). destruct b.
  - destruct (deserialize f r) as [[a r'] | | |] eqn:Ef; cbn [mbind res_bind] in E; [| done..]. simplify_eq.
    rewrite (canonical _ _ _ Hr Ef). cbn [serialize ptr_f ptr_serializedSize ptr_serialize ptr_deserialize]. by rewrite app_assoc.
  - by simplify_eq.
Qed.

#[global] Instance ptr_safe `{!Safe f} : Safe (ptr_f f).
Proof.
  intros bs Hb. cbn [deserialize ptr_f ptr_serializedSize ptr_serialize ptr_deserialize]. pose proof (safe bs Hb (f := bool_f)) as Hs.
  destruct (deserialize bool_f bs) as [[b r] | | |] eqn:Eb; cbn [mbind res_bind]; try done. destruct b; [| done].
  pose proof (safe (f := f) r (bytes_rest bool_f _ _ _ Hb Eb)) as Hs'. by destruct (deserialize f r) as [[] | | |].
Qed.
End ptr.

(** Sequences of elements. *)
Section many.
Context {A} (f : format A) `{!Lawful f}.

Lemma sizes_length l : Forall (valid f) l → sizes f l = u32 (Z.of_nat (length (serialize_many f l))).
Proof.
  intros Hl. unfold sizes.
  assert (∀ n, foldl (fun n a => u32 (n + serializedSize f a)) (u32 n) l =
    u32 (n + Z.of_nat (length (serialize_many f l)))) as H; [| exact (H 0)].
  induction Hl as [| a l Ha Hl IH]; intros n; cbn [foldl serialize_many].
  - cbn. by rewrite Z.add_0_r.
  - rewrite law_size by done. rewrite u32_add_idemp, IH. f_equal. rewrite length_app, Nat2Z.inj_add, Z.add_assoc. done.
Qed.

Lemma many_bytes l : Forall (valid f) l → Forall is_byte (serialize_many f l).
Proof. induction 1; cbn; [done |]. apply Forall_app. split; [by apply law_bytes | done]. Qed.

Lemma many_read l rest :
  Forall (valid f) l → deserialize_many f (length l) (serialize_many f l ++ rest) = Ok (l, rest).
Proof.
  induction 1 as [| a l Ha Hl IH]; cbn; [done |]. rewrite <- app_assoc, law_read by done. cbn.
  by rewrite IH.
Qed.

Lemma many_short l n :
  Forall (valid f) l → (n < length (serialize_many f l))%nat →
  deserialize_many f (length l) (take n (serialize_many f l)) = Throw.
Proof.
  intros Hl. revert n. induction Hl as [| a l Ha Hl IH]; intros n Hn; cbn in *; [lia |].
  rewrite length_app in Hn. rewrite take_app. destruct (decide (n < length (serialize f a))%nat) as [H | H].
  - assert (n - length (serialize f a) = 0)%nat as -> by lia. rewrite take_0, app_nil_r. by rewrite law_short.
  - rewrite take_ge by lia. rewrite law_read by done. cbn. rewrite IH by lia. done.
Qed.

Lemma many_sound n bs l rest :
  buffer bs → deserialize_many f n bs = Ok (l, rest) →
  length l = n ∧ Forall (valid f) l ∧ ∃ used, bs = used ++ rest.
Proof.
  revert bs l. induction n as [| n IH]; intros bs l Hb E; cbn in E.
  { simplify_eq. split_and!; [done | done | by exists []]. }
  destruct (deserialize f bs) as [[a r] | | |] eqn:Ef; cbn [mbind res_bind] in E; [| done..].
  destruct (deserialize_many f n r) as [[l' r'] | | |] eqn:Em; cbn [mbind res_bind] in E; [| done..]. simplify_eq.
  pose proof (bytes_rest f _ _ _ Hb Ef) as Hr. destruct (IH _ _ Hr Em) as (<- & ? & u & ->).
  destruct (law_sound _ _ _ Hb Ef) as (? & u' & ->). split_and!; [done | by constructor |].
  exists (u' ++ u). by rewrite app_assoc.
Qed.

Lemma many_canonical `{!Canonical f} n bs l rest :
  buffer bs → deserialize_many f n bs = Ok (l, rest) → bs = serialize_many f l ++ rest.
Proof.
  revert bs l. induction n as [| n IH]; intros bs l Hb E; cbn in E; [by simplify_eq |].
  destruct (deserialize f bs) as [[a r] | | |] eqn:Ef; cbn [mbind res_bind] in E; [| done..].
  destruct (deserialize_many f n r) as [[l' r'] | | |] eqn:Em; cbn [mbind res_bind] in E; [| done..]. simplify_eq.
  pose proof (bytes_rest f _ _ _ Hb Ef) as Hr. rewrite (canonical _ _ _ Hb Ef), (IH _ _ Hr Em). cbn.
  by rewrite app_assoc.
Qed.

Lemma many_safe `{!Safe f} n bs : buffer bs → deserialize_many f n bs ≠ Stuck.
Proof.
  revert bs. induction n as [| n IH]; intros bs Hb; [done |]. cbn. pose proof (safe (f := f) bs Hb) as Hs.
  destruct (deserialize f bs) as [[a r] | | |] eqn:Ef; cbn [mbind res_bind]; try done.
  pose proof (IH r (bytes_rest f _ _ _ Hb Ef)) as Hs'. by destruct (deserialize_many f n r) as [[] | | |].
Qed.

#[global] Instance array_lawful n : Lawful (array_f n f).
Proof.
  split; cbn.
  - intros l [_ Hl]. by apply sizes_length.
  - intros l [_ Hl]. by apply many_bytes.
  - intros l rest [<- Hl]. by apply many_read.
  - intros l k [<- Hl]. by apply many_short.
  - intros bs l rest Hb E. destruct (many_sound _ _ _ _ Hb E) as (? & ? & ?). done.
Qed.

#[global] Instance array_canonical `{!Canonical f} n : Canonical (array_f n f).
Proof. intros bs l rest. apply many_canonical. Qed.

#[global] Instance array_safe `{!Safe f} n : Safe (array_f n f).
Proof. intros bs. apply many_safe. Qed.

Lemma count_valid l : Z.of_nat (length l) <= kMaxDeserializedElementsCount →
  u32 (Z.of_nat (@length A l)) = Z.of_nat (length l) ∧ valid uint32_f (Z.of_nat (length l)).
Proof. unfold kMaxDeserializedElementsCount. intros H. split; [rewrite wrapu_small; lia | cbn; lia]. Qed.

#[global] Instance vector_lawful : Lawful (vector_f f).
Proof.
  split.
  - intros l [Hn Hl]. cbn [serializedSize serialize vector_f vector_serializedSize vector_serialize vector_deserialize]. rewrite sizes_length by done.
    destruct (count_valid l Hn) as [-> Hv]. rewrite length_app. unfold wrapu. rewrite Zplus_mod_idemp_r. f_equal.
    cbn [length serialize uint32_f integer put32bit]. lia.
  - intros l [Hn Hl]. cbn [serialize vector_f vector_serializedSize vector_serialize vector_deserialize]. destruct (count_valid l Hn) as [-> Hv].
    apply Forall_app. split; [by apply law_bytes | by apply many_bytes].
  - intros l rest [Hn Hl]. cbn [serialize deserialize vector_f vector_serializedSize vector_serialize vector_deserialize]. destruct (count_valid l Hn) as [-> Hv].
    rewrite <- app_assoc. rewrite law_read by done. cbn [mbind res_bind].
    rewrite (proj2 (Z.ltb_ge _ _)) by done. rewrite Nat2Z.id. by apply many_read.
  - intros l n [Hn Hl] Hlt. cbn [serialize deserialize vector_f vector_serializedSize vector_serialize vector_deserialize] in *. destruct (count_valid l Hn) as [E Hv]. rewrite E in *.
    rewrite length_app in Hlt. rewrite take_app.
    destruct (decide (n < length (serialize uint32_f (Z.of_nat (length l))))%nat) as [H | H].
    + replace (n - length (serialize uint32_f (Z.of_nat (length l))))%nat with 0%nat by lia.
      rewrite take_0, app_nil_r. by rewrite law_short.
    + rewrite (take_ge (serialize uint32_f _)) by lia. rewrite law_read by done. cbn [mbind res_bind].
      rewrite (proj2 (Z.ltb_ge _ _)) by done. rewrite Nat2Z.id. apply many_short; [done | lia].
  - intros bs l rest Hb E. cbn [deserialize vector_f vector_serializedSize vector_serialize vector_deserialize] in E.
    destruct (deserialize uint32_f bs) as [[k r] | | |] eqn:Ek; cbn [mbind res_bind] in E; [| done..].
    destruct (Z.ltb_spec kMaxDeserializedElementsCount k); [done |].
    pose proof (bytes_rest uint32_f _ _ _ Hb Ek) as Hr. destruct (law_sound _ _ _ Hb Ek) as (Hk & u & ->).
    destruct (many_sound _ _ _ _ Hr E) as (Hlen & ? & u' & ->). cbn in Hk. split.
    + split; [rewrite Hlen; lia | done].
    + exists (u ++ u'). by rewrite app_assoc.
Qed.

#[global] Instance vector_canonical `{!Canonical f} : Canonical (vector_f f).
Proof.
  intros bs l rest Hb E. cbn [deserialize vector_f vector_serializedSize vector_serialize vector_deserialize] in E.
  destruct (deserialize uint32_f bs) as [[k r] | | |] eqn:Ek; cbn [mbind res_bind] in E; [| done..].
  destruct (Z.ltb_spec kMaxDeserializedElementsCount k); [done |].
  pose proof (bytes_rest uint32_f _ _ _ Hb Ek) as Hr. destruct (law_sound _ _ _ Hb Ek) as (Hk & _).
  destruct (many_sound _ _ _ _ Hr E) as (Hlen & _). cbn in Hk. rewrite (canonical _ _ _ Hb Ek), (many_canonical _ _ _ _ Hr E).
  cbn [serialize vector_f vector_serializedSize vector_serialize vector_deserialize]. rewrite <- app_assoc. do 2 f_equal. rewrite Hlen, wrapu_small by lia. lia.
Qed.

#[global] Instance vector_safe `{!Safe f} : Safe (vector_f f).
Proof.
  intros bs Hb. cbn [deserialize vector_f vector_serializedSize vector_serialize vector_deserialize]. pose proof (safe (f := uint32_f) bs Hb) as Hs.
  destruct (deserialize uint32_f bs) as [[k r] | | |] eqn:Ek; cbn [mbind res_bind]; try done.
  destruct (_ <? k); [done |]. apply many_safe. by eapply (bytes_rest uint32_f).
Qed.

(** Longer vectors are written, but never read back. *)
Lemma long_vector_refused l rest :
  kMaxDeserializedElementsCount < Z.of_nat (length l) < 2 ^ 32 →
  deserialize (vector_f f) (serialize (vector_f f) l ++ rest) = Throw.
Proof.
  intros Hn. cbn [serialize deserialize vector_f vector_serializedSize vector_serialize vector_deserialize]. rewrite wrapu_small by lia.
  rewrite <- app_assoc, law_read by (cbn; lia). cbn [mbind res_bind]. by rewrite (proj2 (Z.ltb_lt _ _)) by lia.
Qed.
End many.

(** Strings. *)
Lemma string_size n : 0 <= n → n + 1 <= kMaxDeserializedElementsCount →
  u32 (n + 1) = n + 1 ∧ u32 (n + 1 - 1) = n ∧ valid uint32_f (n + 1).
Proof. unfold kMaxDeserializedElementsCount. intros H0 H. rewrite !wrapu_small by lia. cbn. lia. Qed.

(** What follows the size. *)
Lemma string_reads (size : Z) (bs s rest : list Z) :
  0 <= size < 2 ^ 32 →
  (if kMaxDeserializedElementsCount <? size then Throw
   else if Z.of_nat (length bs) <? size then Throw
   else match bs !! Z.to_nat (u32 (size - 1)) with
        | None => Stuck
        | Some c => if c =? 0 then Ok (take (Z.to_nat (u32 (size - 1))) bs, drop (Z.to_nat size) bs) else Throw
        end) = Ok (s, rest) → Z.of_nat (length bs) < 2 ^ 32 →
  size = Z.of_nat (length s) + 1 ∧ Z.of_nat (length s) + 1 <= kMaxDeserializedElementsCount ∧ bs = s ++ 0 :: rest.
Proof.
  intros Hs E Hlen. destruct (Z.ltb_spec kMaxDeserializedElementsCount size); [done |].
  destruct (Z.ltb_spec (Z.of_nat (length bs)) size); [done |].
  destruct (bs !! _) as [c |] eqn:Ec; [| done]. destruct (Z.eqb_spec c 0); [| done]. simplify_eq.
  assert (size ≠ 0) as Hne.
  { intros ->. apply lookup_lt_Some in Ec. change (u32 (0 - 1)) with (2 ^ 32 - 1) in Ec. lia. }
  rewrite wrapu_small in * by lia. rewrite length_take_le by lia. split; [lia |]. split; [lia |].
  rewrite <- (take_drop_middle _ _ _ Ec) at 1. do 3 f_equal. lia.
Qed.

Lemma string_read s rest : valid string_f s → deserialize string_f (serialize string_f s ++ rest) = Ok (s, rest).
Proof.
  intros [Hs Hn]. destruct (string_size (Z.of_nat (length s)) ltac:(lia) Hn) as (E & E' & Hv).
  cbn [serialize deserialize string_f string_serializedSize string_serialize string_deserialize]. rewrite E, <- app_assoc, law_read by done. cbn [mbind res_bind].
  rewrite (proj2 (Z.ltb_ge _ _)) by done.
  rewrite (proj2 (Z.ltb_ge _ _)) by (rewrite !length_app; cbn [length]; lia).
  rewrite E', Nat2Z.id, <- app_assoc. cbn [app]. rewrite list_lookup_middle by done. cbn [Z.eqb].
  rewrite take_app_length. do 2 f_equal. replace (Z.to_nat (Z.of_nat (length s) + 1)) with (length (s ++ [0])).
  - change (0 :: rest) with ([0] ++ rest). by rewrite app_assoc, drop_app_length.
  - rewrite length_app. cbn [length]. lia.
Qed.

Lemma string_short s n : valid string_f s → (n < length (serialize string_f s))%nat →
  deserialize string_f (take n (serialize string_f s)) = Throw.
Proof.
  intros [Hs Hn] Hlt. destruct (string_size (Z.of_nat (length s)) ltac:(lia) Hn) as (E & E' & Hv).
  cbn [serialize deserialize string_f string_serializedSize string_serialize string_deserialize] in *. rewrite E in *. rewrite !length_app in Hlt. cbn [length] in Hlt.
  set (h := serialize uint32_f (Z.of_nat (length s) + 1)) in *. rewrite take_app.
  destruct (decide (n < length h)%nat) as [H | H].
  - replace (n - length h)%nat with 0%nat by lia. rewrite take_0, app_nil_r. unfold h. by rewrite law_short.
  - rewrite (take_ge h) by lia. unfold h. rewrite law_read by done. fold h. cbn [mbind res_bind].
    rewrite (proj2 (Z.ltb_ge _ _)) by done. rewrite (proj2 (Z.ltb_lt _ _)); [done |].
    rewrite length_take, length_app. cbn [length]. lia.
Qed.

#[global] Instance string_canonical : Canonical string_f.
Proof.
  intros bs s rest Hb E. cbn [deserialize string_f string_serializedSize string_serialize string_deserialize] in E.
  destruct (deserialize uint32_f bs) as [[size r] | | |] eqn:Es; cbn [mbind res_bind] in E; [| done..].
  pose proof (bytes_rest uint32_f _ _ _ Hb Es) as [_ Hr]. destruct (law_sound _ _ _ Hb Es) as (Hsize & _).
  destruct (string_reads _ _ _ _ Hsize E Hr) as (-> & Hn & ->).
  rewrite (canonical _ _ _ Hb Es). cbn [serialize string_f string_serializedSize string_serialize string_deserialize].
  rewrite (proj1 (string_size (Z.of_nat (length s)) ltac:(lia) Hn)). by rewrite <- !app_assoc.
Qed.

#[global] Instance string_lawful : Lawful string_f.
Proof.
  split.
  - intros s _. cbn [serializedSize serialize string_f string_serializedSize string_serialize string_deserialize]. f_equal. rewrite !length_app. cbn [length serialize uint32_f integer put32bit]. lia.
  - intros s [Hs Hn]. cbn [serialize string_f string_serializedSize string_serialize string_deserialize]. rewrite !Forall_app. split_and!.
    + destruct (string_size (Z.of_nat (length s)) ltac:(lia) Hn) as (-> & _ & Hv). by apply law_bytes.
    + done.
    + by apply Forall_singleton.
  - intros s rest. apply string_read.
  - intros s n. apply string_short.
  - intros bs s rest Hb E. pose proof (string_canonical _ _ _ Hb E) as Ebs. split; [| eauto].
    cbn [deserialize string_f string_serializedSize string_serialize string_deserialize] in E.
    destruct (deserialize uint32_f bs) as [[size r] | | |] eqn:Es; cbn [mbind res_bind] in E; [| done..].
    pose proof (bytes_rest uint32_f _ _ _ Hb Es) as [Hby Hr]. destruct (law_sound _ _ _ Hb Es) as (Hsize & _).
    destruct (string_reads _ _ _ _ Hsize E Hr) as (_ & Hn & ->). apply Forall_app in Hby as [? _]. done.
Qed.

(** A size of 0 is not refused: the terminator is looked for at [size - 1], which wraps
    around and is outside of every buffer. *)
Lemma string_size_zero bs : buffer bs → deserialize string_f (serialize uint32_f 0 ++ bs) = Stuck.
Proof.
  intros [_ Hl]. cbn [deserialize string_f string_serializedSize string_serialize string_deserialize]. rewrite law_read by done. cbn [mbind res_bind].
  change (kMaxDeserializedElementsCount <? 0) with false. cbn [mbind]. rewrite (proj2 (Z.ltb_ge _ _)) by lia.
  rewrite lookup_ge_None_2; [done |]. change (u32 (0 - 1)) with (2 ^ 32 - 1). lia.
Qed.

(** Sets: inserting the elements of a sorted list gives the list; whatever is read is sorted. *)
Section sets.
Context {A} (lt : A → A → bool) `{!StrictWeakOrder lt} (f : format A) `{!Lawful f}.

Lemma set_insert_elem x y l : y ∈ set_insert lt x l → y = x ∨ y ∈ l.
Proof.
  induction l as [| z l IH]; cbn [set_insert]; [set_solver |].
  destruct (lt x z); [set_solver |]. destruct (lt z x); set_solver.
Qed.

Lemma set_insert_sorted x l : ssorted lt l → ssorted lt (set_insert lt x l).
Proof.
  unfold ssorted. induction 1 as [| y l Hl IH Hy]; cbn [set_insert].
  - repeat constructor.
  - destruct (lt x y) eqn:E.
    + constructor; [by constructor |]. constructor; [done |]. eapply Forall_impl; [exact Hy |].
      intros z Hz. cbn in Hz. by eapply swo_trans.
    + destruct (lt y x) eqn:E'; [| by constructor]. constructor; [done |]. apply Forall_forall. intros z Hz.
      apply set_insert_elem in Hz as [-> | Hz]; [done |]. by eapply Forall_forall in Hy.
Qed.

Lemma set_insert_last x l : Forall (fun y => lt y x = true) l → set_insert lt x l = l ++ [x].
Proof.
  induction 1 as [| y l Hy Hl IH]; cbn [set_insert app]; [done |]. rewrite Hy, IH.
  destruct (lt x y) eqn:E; [| done]. assert (lt x x = true) by (by eapply swo_trans). by rewrite swo_irrefl in *.
Qed.

Lemma insert_all_sorted l s : ssorted lt (s ++ l) → foldl (fun s x => set_insert lt x s) s l = s ++ l.
Proof.
  revert s. induction l as [| x l IH]; intros s Hs; cbn [foldl]; [by rewrite app_nil_r |].
  rewrite set_insert_last.
  - replace (s ++ x :: l) with ((s ++ [x]) ++ l) in * by (by rewrite <- app_assoc). by rewrite IH.
  - apply (ssorted_app lt) in Hs as (_ & _ & Hs). apply Forall_forall. intros y Hy. apply Hs; [done | by left].
Qed.

Lemma insert_all_spec l s :
  ssorted lt s → Forall (valid f) s → Forall (valid f) l →
  let s' := foldl (fun s x => set_insert lt x s) s l in
  ssorted lt s' ∧ Forall (valid f) s' ∧ (length s' ≤ length s + length l)%nat.
Proof.
  revert s. induction l as [| x l IH]; intros s Hs Hv Hl; cbn [foldl]; [split_and!; [done.. | cbn; lia] |].
  apply Forall_cons in Hl as [Hx Hl].
  assert (length (set_insert lt x s) ≤ S (length s))%nat as Hlen.
  { clear. induction s as [| y s IH]; cbn [set_insert length]; [lia |]. destruct (lt x y); [cbn; lia |]. destruct (lt y x); cbn; lia. }
  destruct (IH (set_insert lt x s)) as (? & ? & ?).
  - by apply set_insert_sorted.
  - apply Forall_forall. intros y [-> | Hy]%set_insert_elem; [done |]. by eapply Forall_forall in Hv.
  - done.
  - split_and!; [done.. |]. cbn [length]. lia.
Qed.

Lemma set_deserialize_vector bs :
  deserialize (set_f lt f) bs = '(l, bs) ← deserialize (vector_f f) bs; Ok (foldl (fun s x => set_insert lt x s) [] l, bs).
Proof.
  cbn [deserialize set_f set_deserialize vector_f vector_deserialize].
  destruct (deserialize uint32_f bs) as [[size r] | | |]; cbn [mbind res_bind]; [| done..]. by destruct (_ <? size).
Qed.

#[global] Instance set_lawful : Lawful (set_f lt f).
Proof.
  assert (∀ l, valid (set_f lt f) l → valid (vector_f f) l) as Hv by (intros l (? & ? & _); done). split.
  - intros l H. apply (law_size (f := vector_f f)), Hv, H.
  - intros l H. apply (law_bytes (f := vector_f f)), Hv, H.
  - intros l rest H. rewrite set_deserialize_vector. change (serialize (set_f lt f) l) with (serialize (vector_f f) l).
    rewrite (law_read (f := vector_f f)) by (by apply Hv). cbn [mbind res_bind]. rewrite insert_all_sorted by apply H. done.
  - intros l n H Hn. rewrite set_deserialize_vector. change (serialize (set_f lt f) l) with (serialize (vector_f f) l) in *.
    rewrite (law_short (f := vector_f f)); [done | by apply Hv | done].
  - intros bs l rest Hb E. rewrite set_deserialize_vector in E.
    destruct (deserialize (vector_f f) bs) as [[l' r] | | |] eqn:El; cbn [mbind res_bind] in E; [| done..]. simplify_eq.
    destruct (law_sound _ _ _ Hb El) as ((Hn & Hall) & ?). split; [| done].
    destruct (insert_all_spec l' []) as (? & ? & ?); [constructor | constructor | done |]. split_and!; [| done..].
    cbn [length] in *. lia.
Qed.

#[global] Instance set_safe `{!Safe f} : Safe (set_f lt f).
Proof.
  intros bs Hb. rewrite set_deserialize_vector. pose proof (safe (f := vector_f f) bs Hb) as Hs.
  by destruct (deserialize (vector_f f) bs) as [[] | | |].
Qed.
End sets.

(** Classes: [make] and [members] are inverse to each other. *)
Section class.
Context {A B} (members : B → A) (make : A → B) (f : format A) `{!Lawful f}.
Context (make_members : ∀ b, make (members b) = b) (members_make : ∀ a, members (make a) = a).

Lemma class_lawful : Lawful (class_f members make f).
Proof.
  split; cbn [valid serializedSize serialize deserialize class_f].
  - intros b. apply law_size.
  - intros b. apply law_bytes.
  - intros b rest Hb. rewrite law_read by done. cbn [mbind res_bind]. by rewrite make_members.
  - intros b n Hb Hn. by rewrite law_short.
  - intros bs b rest Hb E.
    destruct (deserialize f bs) as [[a r] | | |] eqn:Ea; cbn [mbind res_bind] in E; [| done..]. simplify_eq.
    rewrite members_make. by apply (law_sound bs).
Qed.

Lemma class_canonical `{!Canonical f} : Canonical (class_f members make f).
Proof.
  intros bs b rest Hb E. cbn [deserialize class_f] in E.
  destruct (deserialize f bs) as [[a r] | | |] eqn:Ea; cbn [mbind res_bind] in E; [| done..]. simplify_eq.
  cbn [serialize class_f]. rewrite members_make. by apply canonical.
Qed.

Lemma class_safe `{!Safe f} : Safe (class_f members make f).
Proof.
  intros bs Hb. cbn [deserialize class_f]. pose proof (safe (f := f) bs Hb) as Hs.
  by destruct (deserialize f bs) as [[] | | |].
Qed.
End class.

(** The formats of members whose values have one encoding: all but sets and maps.  Strings are
    there when they are allowed. *)
Inductive wire (strings : bool) : ∀ {A}, format A → Prop :=
| wire_uint8 : wire strings uint8_f
| wire_int8 : wire strings int8_f
| wire_uint16 : wire strings uint16_f
| wire_int16 : wire strings int16_f
| wire_uint32 : wire strings uint32_f
| wire_int32 : wire strings int32_f
| wire_uint64 : wire strings uint64_f
| wire_int64 : wire strings int64_f
| wire_bool : wire strings bool_f
| wire_enum n : n <= 256 → wire strings (enum_f n)
| wire_string : strings = true → wire strings string_f
| wire_pair {A B} (f : format A) (g : format B) : wire strings f → wire strings g → wire strings (pair_f f g)
| wire_ptr {A} (f : format A) : wire strings f → wire strings (ptr_f f)
| wire_array {A} n (f : format A) : wire strings f → wire strings (array_f n f)
| wire_vector {A} (f : format A) : wire strings f → wire strings (vector_f f)
| wire_class {A B} (members : B → A) (make : A → B) f : (∀ b, make (members b) = b) → (∀ a, members (make a) = a) →
    wire strings f → wire strings (class_f members make f).

Lemma wire_laws strings {A} (f : format A) : wire strings f → Lawful f ∧ Canonical f ∧ (strings = false → Safe f).
Proof.
  induction 1 as [| | | | | | | | | | Hs | A B f g _ (L1 & C1 & S1) _ (L2 & C2 & S2) | A f _ (L1 & C1 & S1) | A n f _ (L1 & C1 & S1) | A f _ (L1 & C1 & S1) |
    A B members make f H1 H2 _ (L1 & C1 & S1)]; (split; [| split; [| intros Hn]]); try apply _; try (specialize (S1 Hn)); try (specialize (S2 Hn)); try apply _.
  - by apply enum_lawful.
  - congruence.
  - by apply class_lawful.
  - by apply class_canonical.
  - by apply class_safe.
Qed.
End Serialization.
