(* ===== verification/Packets.v ===== *)
(** * Packets

    src/protocol/packet.h and the message macros of src/common/serialization_macros.h: a packet
    is a header (type and length), the version of the message and its data.  The variadic
    functions take the data as one value of a composed format.

    [packet_roundtrip] shows that a message built by its sender is accepted by its receiver and
    only whole; [accepted_messages_exact] characterises the bytes a receiver accepts;
    [empty_string_size_reads_outside] shows a string whose encoded size makes the reader leave
    the buffer. *)

From S2P Require Import Prelude FlatContainers Serialization.
Import Datapack Serialization.

Module Packet.

Record PacketHeader : Type := mk_header { type : Z; length : Z }.

Definition kSize : Z := 8.
Definition kMaxOldPacketType : Z := 1000.
Definition kMinSauPacketType : Z := 1001.
Definition kMaxSauPacketType : Z := 2000.

Definition isSauPacketType (h : PacketHeader) : bool := (kMinSauPacketType <=? type h) && (type h <=? kMaxSauPacketType).
Definition isOldPacketType (h : PacketHeader) : bool := type h <=? kMaxOldPacketType.

Definition header_f : format PacketHeader :=
  class_f (fun h => (type h, length h)) (fun p => mk_header p.1 p.2) (pair_f uint32_f uint32_f).

(** Assembling packets; the destination is empty. *)
Definition serializePacketPrefix {A} (f : format A) (extraLength ty version : Z) (data : A) : res (list Z) :=
  assertion ((kMinSauPacketType <=? ty) && (ty <=? kMaxSauPacketType))
    (let length := u32 (serializedSize (pair_f uint32_f f) (version, data) + extraLength) in
     serialize_buffer (pair_f header_f (pair_f uint32_f f)) (mk_header ty length, (version, data))).

Definition serializePacket {A} (f : format A) (ty version : Z) (data : A) : res (list Z) :=
  assertion ((kMinSauPacketType <=? ty) && (ty <=? kMaxSauPacketType))
    (let length := serializedSize (pair_f uint32_f f) (version, data) in
     serialize_buffer (pair_f header_f (pair_f uint32_f f)) (mk_header ty length, (version, data))).

Definition serializeLegacyPacket {A} (f : format A) (ty : Z) (data : A) : res (list Z) :=
  assertion (ty <=? kMaxOldPacketType)
    (let length := serializedSize f data in
     serialize_buffer (pair_f uint32_f (pair_f uint32_f f)) (ty, (length, data))).

(** Taking packets apart. *)
Definition deserializeAndIgnore {A} (f : format A) (bs : list Z) : res (list Z) := '(_, rest) ← deserialize f bs; Ok rest.

Definition deserializePacketHeader (bs : list Z) : res PacketHeader := '(h, _) ← deserialize_buffer header_f bs; Ok h.

Definition deserializePacketVersionNoHeader (bs : list Z) : res Z := '(v, _) ← deserialize_buffer uint32_f bs; Ok v.

Definition deserializePacketVersionSkipHeader (bs : list Z) : res Z :=
  bs ← deserializeAndIgnore header_f bs; '(v, _) ← deserialize_buffer uint32_f bs; Ok v.

Definition deserializePacketDataNoHeader {A} (f : format A) (bs : list Z) : res A :=
  bs ← deserializeAndIgnore uint32_f bs; '(a, _) ← deserialize_buffer f bs; Ok a.

Definition deserializeAllLegacyPacketDataNoHeader {A} (f : format A) (bs : list Z) : res A :=
  '(a, bytesNotUsed) ← deserialize_buffer f bs; if 0 <? bytesNotUsed then Throw else Ok a.

Definition deserializeAllPacketDataNoHeader {A} (f : format A) (bs : list Z) : res A :=
  bs ← deserializeAndIgnore uint32_f bs;
  '(a, bytesNotUsed) ← deserialize_buffer f bs; if 0 <? bytesNotUsed then Throw else Ok a.

Definition deserializePacketDataSkipHeader {A} (f : format A) (bs : list Z) : res A :=
  bs ← deserializeAndIgnore header_f bs; bs ← deserializeAndIgnore uint32_f bs;
  '(a, _) ← deserialize_buffer f bs; Ok a.

Definition verifyPacketVersionNoHeader (bs : list Z) (expectedVersion : Z) : res unit :=
  actualVersion ← deserializePacketVersionNoHeader bs;
  if actualVersion =? expectedVersion then Ok () else Throw.

(** A message defined by [SAUNAFS_DEFINE_PACKET_SERIALIZATION]. *)
Record message (A : Type) : Type := mk_message { id : Z; version : Z; fields : format A }.
Arguments mk_message {A} _ _ _.
Arguments id {A} _.
Arguments version {A} _.
Arguments fields {A} _.

Definition build {A} (m : message A) (data : A) : res (list Z) := serializePacket (fields m) (id m) (version m) data.
Definition read {A} (m : message A) (payload : list Z) : res A :=
  _ ← verifyPacketVersionNoHeader payload (version m); deserializeAllPacketDataNoHeader (fields m) payload.

(** A message without fields. *)
Definition unit_f : format unit := mk_format (fun _ => True) (fun _ => 0) (fun _ => []) (fun bs => Ok ((), bs)).
Definition read_empty {A} (m : message A) (payload : list Z) : res unit := verifyPacketVersionNoHeader payload (version m).

(** [cstocl::writeStatus]: the chunk, the write and its status. *)
Definition writeStatus : message (Z * (Z * Z)) := mk_message 1211 0 (pair_f uint64_f (pair_f uint32_f uint8_f)).

(** ** Headers *)

#[global] Instance header_lawful : Lawful header_f.
Proof. apply class_lawful; [apply _ | by intros [] | by intros []]. Qed.
#[global] Instance header_canonical : Canonical header_f.
Proof. eapply class_canonical; try apply _; by intros []. Qed.
#[global] Instance header_safe : Safe header_f.
Proof. eapply class_safe; try apply _; by intros []. Qed.
#[global] Instance unit_lawful : Lawful unit_f.
Proof. split; try done; [by intros [] rest | intros [] n ? Hn; cbn in Hn; lia | intros bs [] rest _ [= ->]; split; [done | by exists []]]. Qed.

Lemma header_bytes h : List.length (serialize header_f h) = 8%nat.
Proof. done. Qed.

(** ** What the main interface promises for lawful formats *)
Section interface.
Context {A} (f : format A) `{!Lawful f}.

Lemma serialize_buffer_ok a :
  valid f a → Z.of_nat (List.length (serialize f a)) < 2 ^ 31 → serialize_buffer f a = Ok (serialize f a).
Proof.
  intros Ha Hn. unfold serialize_buffer. rewrite law_size by done. rewrite wrapu_small by lia.
  rewrite (proj2 (Z.ltb_ge _ _)) by lia. rewrite wraps_small by lia. by rewrite Z.eqb_refl.
Qed.

Lemma deserialize_buffer_ok a rest :
  valid f a → Z.of_nat (List.length (serialize f a ++ rest)) <= kMaxDeserializedBytesCount →
  deserialize_buffer f (serialize f a ++ rest) = Ok (a, Z.of_nat (List.length rest)).
Proof.
  intros Ha Hn. unfold deserialize_buffer. rewrite (proj2 (Z.ltb_ge _ _)) by done. by rewrite law_read.
Qed.

Lemma deserialize_buffer_short a n :
  valid f a → (n < List.length (serialize f a))%nat → deserialize_buffer f (take n (serialize f a)) = Throw.
Proof. intros Ha Hn. unfold deserialize_buffer. case_match; [done |]. by rewrite law_short. Qed.

Lemma deserialize_buffer_long rest :
  kMaxDeserializedBytesCount < Z.of_nat (List.length rest) → deserialize_buffer f rest = Throw.
Proof. intros Hn. unfold deserialize_buffer. by rewrite (proj2 (Z.ltb_lt _ _)). Qed.

Lemma deserialize_buffer_inv `{!Canonical f} bs a n :
  Forall is_byte bs → deserialize_buffer f bs = Ok (a, n) →
  valid f a ∧ Z.of_nat (List.length bs) <= kMaxDeserializedBytesCount ∧
    ∃ rest, bs = serialize f a ++ rest ∧ n = Z.of_nat (List.length rest).
Proof.
  unfold deserialize_buffer. intros Hb E. destruct (Z.ltb_spec kMaxDeserializedBytesCount (Z.of_nat (List.length bs))); [done |].
  assert (buffer bs) as Hbuf by (split; [done | unfold kMaxDeserializedBytesCount in *; lia]).
  destruct (deserialize f bs) as [[a' r] | | |] eqn:Ef; cbn [mbind res_bind] in E; [| done..]. simplify_eq.
  destruct (law_sound _ _ _ Hbuf Ef) as [? _]. split_and!; [done.. |]. exists r. split; [by apply canonical | done].
Qed.
End interface.

(** ** Messages *)

(** What follows the header of a packet. *)
Definition payload {A} (m : message A) (data : A) : list Z := serialize uint32_f (version m) ++ serialize (fields m) data.

(** The bytes of a packet with this payload. *)
Definition packet (ty : Z) (bs : list Z) : list Z := serialize header_f (mk_header ty (Z.of_nat (List.length bs))) ++ bs.

Record message_ok {A} (m : message A) (data : A) : Prop := {
  mo_id : kMinSauPacketType <= id m <= kMaxSauPacketType;
  mo_version : 0 <= version m < 2 ^ 32;
  mo_valid : valid (fields m) data;
  mo_size : Z.of_nat (List.length (payload m data)) <= kMaxDeserializedBytesCount;
}.

Lemma verify_version v v' rest :
  0 <= v < 2 ^ 32 → Z.of_nat (List.length (serialize uint32_f v ++ rest)) <= kMaxDeserializedBytesCount →
  verifyPacketVersionNoHeader (serialize uint32_f v ++ rest) v' = if v =? v' then Ok () else Throw.
Proof.
  intros Hv Hn. unfold verifyPacketVersionNoHeader, deserializePacketVersionNoHeader.
  rewrite (deserialize_buffer_ok uint32_f v rest Hv Hn). done.
Qed.

Lemma ignore_version v rest : 0 <= v < 2 ^ 32 → deserializeAndIgnore uint32_f (serialize uint32_f v ++ rest) = Ok rest.
Proof. intros Hv. unfold deserializeAndIgnore. by rewrite law_read. Qed.

Lemma message_header {A} (m : message A) data :
  message_ok m data → valid header_f (mk_header (id m) (Z.of_nat (List.length (payload m data)))).
Proof.
  intros [Hid _ _ Hn]. unfold kMinSauPacketType, kMaxSauPacketType, kMaxDeserializedBytesCount in *.
  change (0 <= id m < 2 ^ 32 ∧ 0 <= Z.of_nat (List.length (payload m data)) < 2 ^ 32). lia.
Qed.

Section messages.
Context {A} (m : message A) `{!Lawful (fields m)}.

Lemma build_packet data : message_ok m data → build m data = Ok (packet (id m) (payload m data)).
Proof.
  intros Hok. pose proof Hok as [Hid Hv Hd Hn]. unfold build, serializePacket, packet.
  rewrite (proj2 (Z.leb_le _ _)), (proj2 (Z.leb_le _ _)) by lia. cbn [andb assertion].
  assert (serializedSize (pair_f uint32_f (fields m)) (version m, data) = Z.of_nat (List.length (payload m data))) as ->.
  { rewrite law_size by done. apply wrapu_small. change (serialize (pair_f uint32_f (fields m)) _) with (payload m data).
    unfold kMaxDeserializedBytesCount in Hn. lia. }
  rewrite serialize_buffer_ok; [done | apply _ | |].
  - split; [by apply message_header | done].
  - cbn [serialize pair_f pair_serialize fst snd]. rewrite length_app, header_bytes. fold (payload m data).
    unfold kMaxDeserializedBytesCount in Hn. lia.
Qed.

Lemma read_whole data : message_ok m data → read m (payload m data) = Ok data.
Proof.
  intros [Hid Hv Hd Hn]. unfold read, payload in *. rewrite verify_version by done. rewrite Z.eqb_refl. cbn [mbind res_bind].
  unfold deserializeAllPacketDataNoHeader. rewrite ignore_version by done. cbn [mbind res_bind].
  rewrite length_app in Hn. rewrite <- (app_nil_r (serialize (fields m) data)).
  rewrite deserialize_buffer_ok by (rewrite ?app_nil_r; done || lia). done.
Qed.

Lemma read_truncated data n :
  message_ok m data → (n < List.length (payload m data))%nat → read m (take n (payload m data)) = Throw.
Proof.
  intros [Hid Hv Hd Hn] Hlt. unfold read, payload in *. rewrite length_app in *.
  destruct (decide (n < List.length (serialize uint32_f (version m)))%nat) as [H | H].
  - rewrite take_app_le by lia. unfold verifyPacketVersionNoHeader, deserializePacketVersionNoHeader.
    by rewrite (deserialize_buffer_short uint32_f (version m) n Hv H).
  - rewrite take_app, (take_ge (serialize uint32_f _)) by lia.
    rewrite verify_version by (try done; rewrite length_app, length_take; lia). rewrite Z.eqb_refl. cbn [mbind res_bind].
    unfold deserializeAllPacketDataNoHeader. rewrite ignore_version by done. cbn [mbind res_bind].
    by rewrite deserialize_buffer_short by (done || lia).
Qed.

Lemma read_extended data extra : message_ok m data → extra ≠ [] → read m (payload m data ++ extra) = Throw.
Proof.
  intros [Hid Hv Hd Hn] Hx. unfold read, payload in *. rewrite <- app_assoc.
  destruct (decide (Z.of_nat (List.length (serialize uint32_f (version m) ++ serialize (fields m) data ++ extra))
    <= kMaxDeserializedBytesCount)) as [H | H].
  - rewrite verify_version by done. rewrite Z.eqb_refl. cbn [mbind res_bind].
    unfold deserializeAllPacketDataNoHeader. rewrite ignore_version by done. cbn [mbind res_bind].
    rewrite (length_app (serialize uint32_f _)) in H. rewrite deserialize_buffer_ok by (done || lia). cbn [mbind res_bind].
    rewrite (proj2 (Z.ltb_lt _ _)); [done |]. destruct extra; [done | cbn [List.length]; lia].
  - unfold verifyPacketVersionNoHeader, deserializePacketVersionNoHeader. rewrite deserialize_buffer_long by lia. done.
Qed.

Lemma read_other_version {B} (m' : message B) data : message_ok m data → version m ≠ version m' → read m' (payload m data) = Throw.
Proof.
  intros [Hid Hv Hd Hn] Hne. unfold read, payload in *. rewrite verify_version by done.
  by rewrite (proj2 (Z.eqb_neq _ _)).
Qed.

(** C24: A message of a lawful format is built as a header with the exact length and a payload,
    which its receiver reads back; a truncated or extended payload and a receiver that
    expects another version throw. *)
Theorem packet_roundtrip data (Hok : message_ok m data) :
  ∃ h bs, build m data = Ok (serialize header_f h ++ bs) ∧
    deserializePacketHeader (serialize header_f h) = Ok h ∧
    type h = id m ∧ length h = Z.of_nat (List.length bs) ∧ read m bs = Ok data ∧
    (∀ n, (n < List.length bs)%nat → read m (take n bs) = Throw) ∧
    (∀ extra, extra ≠ [] → read m (bs ++ extra) = Throw) ∧
    (∀ B (m' : message B), version m ≠ version m' → read m' bs = Throw).
Proof.
  exists (mk_header (id m) (Z.of_nat (List.length (payload m data)))), (payload m data). split_and!; try done.
  - by apply build_packet.
  - unfold deserializePacketHeader. rewrite <- (app_nil_r (serialize header_f _)). rewrite deserialize_buffer_ok; [done | apply _ | by apply message_header | done].
  - by apply read_whole.
  - intros n. by apply read_truncated.
  - intros extra. by apply read_extended.
  - intros B m'. by apply read_other_version.
Qed.

Lemma read_inv `{!Canonical (fields m)} bs data :
  Forall is_byte bs → read m bs = Ok data →
  valid (fields m) data ∧ Z.of_nat (List.length bs) <= kMaxDeserializedBytesCount ∧ bs = payload m data.
Proof.
  unfold read, verifyPacketVersionNoHeader, deserializePacketVersionNoHeader. intros Hb E.
  destruct (deserialize_buffer uint32_f bs) as [[v n] | | |] eqn:Ev; cbn [mbind res_bind] in E; [| done..].
  destruct (Z.eqb_spec v (version m)) as [-> |]; [| done]. cbn [mbind res_bind] in E.
  destruct (deserialize_buffer_inv uint32_f _ _ _ Hb Ev) as (Hv & Hn & r & -> & ->). apply Forall_app in Hb as [_ Hb].
  unfold deserializeAllPacketDataNoHeader in E. rewrite ignore_version in E by done. cbn [mbind res_bind] in E.
  destruct (deserialize_buffer (fields m) r) as [[a k] | | |] eqn:Ea; cbn [mbind res_bind] in E; [| done..].
  destruct (Z.ltb_spec 0 k); [done |]. injection E as ->.
  destruct (deserialize_buffer_inv (fields m) _ _ _ Hb Ea) as (? & _ & r' & -> & ->).
  destruct r'; [| cbn [List.length] in *; lia]. rewrite app_nil_r in *. done.
Qed.

Lemma read_safe `{!Safe (fields m)} bs : Forall is_byte bs → read m bs ≠ Stuck.
Proof.
  intros Hb. unfold read, verifyPacketVersionNoHeader, deserializePacketVersionNoHeader, deserialize_buffer.
  destruct (Z.ltb_spec kMaxDeserializedBytesCount (Z.of_nat (List.length bs))); [done |].
  assert (buffer bs) as Hbuf by (split; [done | unfold kMaxDeserializedBytesCount in *; lia]).
  pose proof (safe (f := uint32_f) bs Hbuf) as Hs.
  destruct (deserialize uint32_f bs) as [[v r] | | |] eqn:Ev; cbn [mbind res_bind]; try done.
  destruct (v =? version m); cbn [mbind res_bind]; [| done].
  unfold deserializeAllPacketDataNoHeader, deserializeAndIgnore. rewrite Ev. cbn [mbind res_bind].
  unfold deserialize_buffer. case_match; [done |].
  pose proof (safe (f := fields m) r (bytes_rest uint32_f _ _ _ Hbuf Ev)) as Hs'.
  destruct (deserialize (fields m) r) as [[a r'] | | |]; cbn [mbind res_bind]; try done. by case_match.
Qed.
End messages.

(** C25: For a message whose fields are integers, booleans, enumerations, strings, optional
    values, pairs, arrays, vectors and classes of these, but neither sets nor maps, on arbitrary
    bytes: the receiver accepts exactly the payloads of valid values; and when there is no string
    among the fields it never leaves the buffer. *)
Theorem accepted_messages_exact {A} (m : message A) strings (Hw : wire strings (fields m))
    (Hid : kMinSauPacketType <= id m <= kMaxSauPacketType) (Hv : 0 <= version m < 2 ^ 32) bs (Hb : Forall is_byte bs) :
  (strings = false → read m bs ≠ Stuck) ∧ ∀ data, read m bs = Ok data ↔ message_ok m data ∧ bs = payload m data.
Proof.
  destruct (wire_laws strings _ Hw) as (HL & HC & HS). split; [intros Hn; specialize (HS Hn); by apply read_safe |]. intros data. split.
  - intros E. destruct (read_inv m bs data Hb E) as (? & Hn & ->). done.
  - intros [Hok ->]. by apply read_whole.
Qed.

(** A witness of [packet_roundtrip]: the status of a write. *)
Lemma packet_roundtrip_witness :
  ∃ h bs, build writeStatus (258, (7, 3)) = Ok (serialize header_f h ++ bs) ∧
    deserializePacketHeader (serialize header_f h) = Ok h ∧
    type h = 1211 ∧ length h = 17 ∧ bs = [0; 0; 0; 0; 0; 0; 0; 0; 0; 0; 1; 2; 0; 0; 0; 7; 3] ∧
    read writeStatus bs = Ok (258, (7, 3)).
Proof.
  destruct (packet_roundtrip writeStatus (258, (7, 3))) as (h & bs & E & E1 & E2 & E3 & E4 & _).
  { split; vm_compute; intuition congruence. }
  exists h, bs. assert (serialize header_f h ++ bs = packet 1211 [0; 0; 0; 0; 0; 0; 0; 0; 0; 0; 1; 2; 0; 0; 0; 7; 3]) as Eb.
  { enough (Ok (serialize header_f h ++ bs) = Ok (packet 1211 [0; 0; 0; 0; 0; 0; 0; 0; 0; 0; 1; 2; 0; 0; 0; 7; 3])) by congruence.
    rewrite <- E. vm_compute. reflexivity. }
  assert (bs = [0; 0; 0; 0; 0; 0; 0; 0; 0; 0; 1; 2; 0; 0; 0; 7; 3]) as -> by (by injection Eb). split_and!; done.
Defined.

(** A witness of [accepted_messages_exact]: the status of a write. *)
Lemma accepted_messages_exact_witness :
  read writeStatus [0; 0; 0; 0; 0; 0; 0; 0; 0; 0; 1; 2; 0; 0; 0; 7; 3] ≠ Stuck ∧
  read writeStatus [0; 0; 0; 0; 0; 0; 0; 0; 0; 0; 1; 2; 0; 0; 0; 7; 3] = Ok (258, (7, 3)).
Proof.
  destruct (accepted_messages_exact writeStatus false ltac:(repeat constructor) ltac:(vm_compute; intuition congruence) ltac:(vm_compute; intuition congruence)
    [0; 0; 0; 0; 0; 0; 0; 0; 0; 0; 1; 2; 0; 0; 0; 7; 3]) as [H Hr].
  { repeat constructor; vm_compute; congruence. }
  split; [exact (H eq_refl) |]. apply Hr. split; [split; vm_compute; intuition congruence | reflexivity].
Defined.

(** C33: A receiver of a message that starts with a string reads outside of the buffer when the
    encoded size of the string is 0, whatever follows it. *)
Theorem empty_string_size_reads_outside {A} (g : format A) (ty v : Z) (rest : list Z)
    (Hv : 0 <= v < 2 ^ 32) (Hb : Forall is_byte rest) (Hn : 8 + Z.of_nat (List.length rest) <= kMaxDeserializedBytesCount) :
  read (mk_message ty v (pair_f string_f g)) (serialize uint32_f v ++ serialize uint32_f 0 ++ rest) = Stuck.
Proof.
  unfold read. cbn [version fields]. rewrite verify_version; [| done | rewrite !length_app; cbn [List.length serialize uint32_f integer put32bit]; lia].
  rewrite Z.eqb_refl. cbn [mbind res_bind]. unfold deserializeAllPacketDataNoHeader. rewrite ignore_version by done.
  cbn [mbind res_bind]. unfold deserialize_buffer.
  rewrite (proj2 (Z.ltb_ge _ _)) by (rewrite length_app; cbn [List.length serialize uint32_f integer put32bit]; lia).
  cbn [deserialize pair_f pair_deserialize]. rewrite string_size_zero; [done |]. split; [done |]. unfold kMaxDeserializedBytesCount in Hn. lia.
Qed.

(** A witness of [empty_string_size_reads_outside]: a message of a string and a number. *)
Lemma empty_string_size_reads_outside_witness :
  read (mk_message 1500 0 (pair_f string_f uint32_f)) [0; 0; 0; 0; 0; 0; 0; 0; 0; 0; 0; 5] = Stuck.
Proof.
  apply (empty_string_size_reads_outside uint32_f 1500 0 [0; 0; 0; 5]); [lia | | vm_compute; congruence].
  repeat constructor; vm_compute; congruence.
Defined.
End Packet.
