(* ===== verification/PacketStreams.v ===== *)
(** * Packets on a connection

    A stream of bytes does not keep the boundaries of what was written to it.  [InputPacket]
    (src/common/input_packet.h) collects one packet from reads that ask for what is missing;
    [ServerRead] is the loop of [matoclserv_read] around it and [ServerWrite] that of
    [matoclserv_write] (src/master/matoclserv.cc).  [ReceiveBuffer]
    (src/common/message_receive_buffer.h) collects several messages from reads that ask for
    whatever fits; [Client] has the loop of [receiveMessage] around it
    (src/common/server_connection.cc).

    The bytes on the wire are a list.  How many of them a system call returns and when the
    loop of the server is interrupted by its watchdog are arguments of the loops, so the
    theorems hold for every division of the stream. *)

From S2P Require Import Prelude FlatContainers Serialization Packets.
Import Datapack Serialization.

(** Writing bytes over the cells of a block from [off] on; outside of it is undefined. *)
Definition blit (off : nat) (bs block : list Z) : res (list Z) :=
  if (length block <? off + length bs)%nat then Stuck
  else Ok (take off block ++ bs ++ drop (off + length bs) block).

(** [std::vector::resize]. *)
Definition resize_bytes (n : nat) (l : list Z) : list Z := take n l ++ replicate (n - length l) 0.

(** [read(fd, ptr, n)] on a socket with bytes waiting: at least one and at most [n] of them,
    as many as the system chooses. *)
Definition recv (choice : nat) (n : Z) (wire : list Z) : list Z * list Z :=
  let k := (S choice `min` Z.to_nat n)%nat in (take k wire, drop k wire).

Module InputPacket.

Record t : Type := mk {
  maxPacketSize_ : Z;
  header_ : list Z;
  data_ : list Z;
  bytesRead_ : Z;
}.

Definition new (maxPacketSize : Z) : t := mk maxPacketSize (replicate 8 0) [] 0.

Definition reset (p : t) : t := mk (maxPacketSize_ p) (header_ p) [] 0.

Definition hasHeader (p : t) : bool := Packet.kSize <=? bytesRead_ p.

Definition bytesToBeRead (p : t) : Z :=
  if hasHeader p then
    let dataBytesRead := u32 (bytesRead_ p - Packet.kSize) in
    u32 (Z.of_nat (length (data_ p)) - dataBytesRead)
  else u32 (Packet.kSize - bytesRead_ p).

(** Where the next bytes go. *)
Inductive place : Type :=
| InHeader (offset : nat)
| InData (offset : nat).

Definition pointerToBeReadInto (p : t) : res place :=
  if hasHeader p then
    let offset := u64 (bytesRead_ p - Packet.kSize) in
    assertion (offset <=? Z.of_nat (length (data_ p))) (Ok (InData (Z.to_nat offset)))
  else Ok (InHeader (Z.to_nat (bytesRead_ p))).

(** The system call writes the bytes there. *)
Definition fill (pl : place) (bs : list Z) (p : t) : res t :=
  match pl with
  | InHeader off => h ← blit off bs (header_ p); Ok (mk (maxPacketSize_ p) h (data_ p) (bytesRead_ p))
  | InData off => d ← blit off bs (data_ p); Ok (mk (maxPacketSize_ p) (header_ p) d (bytesRead_ p))
  end.

(** The exception of the reader is caught and aborts the process. *)
Definition getHeader (p : t) : res Packet.PacketHeader :=
  match Packet.deserializePacketHeader (header_ p) with
  | Throw => Abort
  | r => r
  end.

Definition increaseBytesRead (additionalBytesRead : Z) (p : t) : res t :=
  let p := mk (maxPacketSize_ p) (header_ p) (data_ p) (u32 (bytesRead_ p + additionalBytesRead)) in
  if bytesRead_ p =? Packet.kSize then
    header ← getHeader p;
    let messageDataLength := Packet.length header in
    if maxPacketSize_ p <? messageDataLength then Throw
    else Ok (mk (maxPacketSize_ p) (header_ p) (resize_bytes (Z.to_nat messageDataLength) (data_ p)) (bytesRead_ p))
  else Ok p.

Definition hasData (p : t) : bool := bytesToBeRead p =? 0.
Definition getData (p : t) : list Z := data_ p.
End InputPacket.

(** ** The server's loops *)
Module Server.
Section server.
(** What the server does with a packet: its new state, and whether the connection is to be
    closed. *)
Context {S : Type} (gotpacket : Z → list Z → S → S * bool).

Record conn : Type := mk_conn {
  kill : bool;                          (* the mode is KILL *)
  inputPacket : InputPacket.t;
  state : S;
}.

(** What a system call answers when no byte is waiting. *)
Inductive idle : Type := Again | Closed | Failed.

(** A round of the loop of [matoclserv_read]: the connection, the rest of the wire and
    whether the function returns. *)
Definition read_round (choice : nat) (at_end : idle) (c : conn) (wire : list Z) : res (conn * list Z * bool) :=
  match wire with
  | [] =>
      match at_end with
      | Again => Ok (c, [], true)
      | _ => Ok (mk_conn true (inputPacket c) (state c), [], true)
      end
  | _ =>
      pl ← InputPacket.pointerToBeReadInto (inputPacket c);
      let '(bs, wire) := recv choice (InputPacket.bytesToBeRead (inputPacket c)) wire in
      if (length bs =? 0)%nat then Ok (mk_conn true (inputPacket c) (state c), wire, true)
      else
        p ← InputPacket.fill pl bs (inputPacket c);
        match InputPacket.increaseBytesRead (Z.of_nat (length bs)) p with
        | Throw => Ok (mk_conn true p (state c), wire, true)
        | Ok p =>
            if InputPacket.hasData p then
              header ← InputPacket.getHeader p;
              let '(s, closing) := gotpacket (Packet.type header) (InputPacket.getData p) (state c) in
              Ok (mk_conn (kill c || closing) (InputPacket.reset p) s, wire, false)
            else Ok (mk_conn (kill c) p (state c), wire, false)
        | Abort => Abort
        | Stuck => Stuck
        end
  end.

(** [matoclserv_read]: each round has the number of bytes the system returns and whether the
    watchdog expires after it. *)
Fixpoint matoclserv_read (rounds : list (nat * bool)) (at_end : idle) (c : conn) (wire : list Z) : res (conn * list Z) :=
  match rounds with
  | [] => Ok (c, wire)
  | (choice, expired) :: rounds' =>
      if kill c then Ok (c, wire)
      else
        '(c, wire, returns) ← read_round choice at_end c wire;
        if (returns : bool) || (expired : bool) then Ok (c, wire) else matoclserv_read rounds' at_end c wire
  end.

(** The server calls it whenever the socket is readable. *)
Fixpoint serve (calls : list (list (nat * bool))) (c : conn) (wire : list Z) : res (conn * list Z) :=
  match calls with
  | [] => Ok (c, wire)
  | rounds :: calls' => '(c, wire) ← matoclserv_read rounds Again c wire; serve calls' c wire
  end.
End server.

(** [matoclserv_write]: the packets that wait, with how much of them was sent
    ([OutputPacket]), and the bytes on the wire.  Each round has what the system call answers
    and whether the watchdog expires; the last component tells that the mode becomes KILL. *)
Record OutputPacket : Type := mk_out { packet : list Z; bytesSent : Z }.

Inductive written : Type := Wrote (n : nat) | WouldBlock | WriteFailed.

Fixpoint matoclserv_write (rounds : list (written * bool)) (q : list OutputPacket) (wire : list Z) :
    list OutputPacket * list Z * bool :=
  match q, rounds with
  | o :: q', (w, expired) :: rounds' =>
      match w with
      | WouldBlock => (q, wire, false)
      | WriteFailed => (q, wire, true)
      | Wrote n =>
          let bs := take n (drop (Z.to_nat (bytesSent o)) (packet o)) in
          let o := mk_out (packet o) (u32 (bytesSent o + Z.of_nat (length bs))) in
          if Z.of_nat (length (packet o)) <=? bytesSent o then
            if (expired : bool) then (q', wire ++ bs, false) else matoclserv_write rounds' q' (wire ++ bs)
          else (o :: q', wire ++ bs, false)
      end
  | _, _ => (q, wire, false)
  end.
End Server.

(** ** Collecting a packet *)

(** Any eight bytes are a header. *)
Lemma header_decode bs :
  Forall is_byte bs → length bs = 8%nat →
  ∃ h, Packet.deserializePacketHeader bs = Ok h ∧ serialize Packet.header_f h = bs ∧ valid Packet.header_f h.
Proof.
  intros Hb Hl. assert (buffer bs) as Hbuf by (split; [done | rewrite Hl; lia]).
  assert (∃ h rest, deserialize Packet.header_f bs = Ok (h, rest)) as (h & rest & E).
  { destruct bs as [| b0 [| b1 [| b2 [| b3 [| b4 [| b5 [| b6 [| b7 [|]]]]]]]]]; try discriminate Hl. by eexists _, _. }
  pose proof (canonical _ _ _ Hbuf E) as Ebs. destruct (law_sound _ _ _ Hbuf E) as [Hv _].
  assert (rest = []) as ->.
  { rewrite Ebs, length_app, Packet.header_bytes in Hl. destruct rest; [done | cbn in Hl; lia]. }
  rewrite app_nil_r in Ebs. exists h. split_and!; [| done..].
  unfold Packet.deserializePacketHeader, deserialize_buffer. rewrite Hl, E. done.
Qed.

Lemma blit_ok off bs block :
  (off + length bs ≤ length block)%nat → blit off bs block = Ok (take off block ++ bs ++ drop (off + length bs) block).
Proof. intros H. unfold blit. by rewrite (proj2 (Nat.ltb_ge _ _)). Qed.

Section input_packet.
Import InputPacket.

(** The bytes of the packet that have arrived. *)
Definition pending (p : t) : list Z := take (Z.to_nat (bytesRead_ p)) (header_ p ++ data_ p).

(** A packet of which something is missing. *)
Record incomplete (p : t) : Prop := {
  in_max : 0 <= maxPacketSize_ p < 2 ^ 32 - 8;
  in_header : length (header_ p) = 8%nat;
  in_hbytes : Forall is_byte (header_ p);
  in_dbytes : Forall is_byte (data_ p);
  in_read : 0 <= bytesRead_ p;
  in_missing :
    (bytesRead_ p < 8 ∧ data_ p = []) ∨
    (8 <= bytesRead_ p < 8 + Z.of_nat (length (data_ p)) ∧ Z.of_nat (length (data_ p)) <= maxPacketSize_ p ∧
     ∃ h, header_ p = serialize Packet.header_f h ∧ valid Packet.header_f h ∧ Packet.length h = Z.of_nat (length (data_ p)));
}.

Lemma incomplete_new n : 0 <= n < 2 ^ 32 - 8 → incomplete (new n) ∧ pending (new n) = [].
Proof. intros Hn. split; [| done]. split; [done | done | by apply Forall_replicate | by constructor | done | by left]. Qed.

Lemma incomplete_reset p :
  0 <= maxPacketSize_ p < 2 ^ 32 - 8 → length (header_ p) = 8%nat → Forall is_byte (header_ p) →
  incomplete (reset p) ∧ pending (reset p) = [].
Proof. intros Hm Hl Hb. split; [| done]. split; try done. by left. Qed.

(** What is missing before the next thing is known: the header, or the data. *)
Lemma to_be_read p : incomplete p →
  0 < bytesToBeRead p ∧
  bytesToBeRead p = if bytesRead_ p <? 8 then 8 - bytesRead_ p else 8 + Z.of_nat (length (data_ p)) - bytesRead_ p.
Proof.
  intros [Hm Hl _ _ Hr Hcase]. unfold bytesToBeRead, hasHeader, Packet.kSize. destruct (Z.ltb_spec (bytesRead_ p) 8) as [H | H].
  - rewrite (proj2 (Z.leb_gt _ _)) by lia. rewrite wrapu_small by lia. lia.
  - rewrite (proj2 (Z.leb_le _ _)) by lia. destruct Hcase as [[? _] | (? & ? & _)]; [lia |].
    rewrite (wrapu_small 32 (_ - 8)), wrapu_small by lia. lia.
Qed.

(** The outcomes of a read. *)
Inductive collected (p : t) (bs : list Z) : res t → Prop :=
| collected_more p' :
    incomplete p' → maxPacketSize_ p' = maxPacketSize_ p → hasData p' = false → pending p' = pending p ++ bs →
    collected p bs (Ok p')
| collected_packet p' h :
    hasData p' = true → getHeader p' = Ok h → valid Packet.header_f h →
    Z.of_nat (length (getData p')) <= maxPacketSize_ p → Forall is_byte (getData p') →
    pending p ++ bs = Packet.packet (Packet.type h) (getData p') →
    incomplete (reset p') → maxPacketSize_ p' = maxPacketSize_ p →
    collected p bs (Ok p')
| collected_too_long h :
    valid Packet.header_f h → maxPacketSize_ p < Packet.length h → pending p ++ bs = serialize Packet.header_f h →
    collected p bs Throw.

(** While the header is collected. *)
Lemma collect_header p bs :
  incomplete p → bytesRead_ p < 8 → Forall is_byte bs → Z.of_nat (length bs) <= 8 - bytesRead_ p →
  ∃ p1, pointerToBeReadInto p = Ok (InHeader (Z.to_nat (bytesRead_ p))) ∧
    fill (InHeader (Z.to_nat (bytesRead_ p))) bs p = Ok p1 ∧
    maxPacketSize_ p1 = maxPacketSize_ p ∧ length (header_ p1) = 8%nat ∧ Forall is_byte (header_ p1) ∧
    data_ p1 = [] ∧ bytesRead_ p1 = bytesRead_ p ∧
    take (Z.to_nat (bytesRead_ p) + length bs) (header_ p1) = pending p ++ bs.
Proof.
  intros [Hm Hl Hh Hd Hr Hcase] Hlt Hb Hn. destruct Hcase as [[_ Ed] |]; [| lia].
  set (k := Z.to_nat (bytesRead_ p)). assert (k + length bs ≤ 8)%nat as Hk by lia.
  unfold pointerToBeReadInto, hasHeader, Packet.kSize. rewrite (proj2 (Z.leb_gt _ _)) by lia.
  cbn [fill]. rewrite blit_ok by lia. cbn [mbind res_bind]. eexists. split; [done |]. split; [done |].
  cbn [maxPacketSize_ header_ data_ bytesRead_]. unfold pending. rewrite Ed, app_nil_r. fold k. split_and!; try done.
  - rewrite !length_app, length_drop, length_take. lia.
  - rewrite !Forall_app. split_and!; [by apply Forall_take | done | by apply Forall_drop].
  - rewrite app_assoc, take_app_le, take_ge; [done | |]; rewrite length_app, length_take; lia.
Qed.

(** While the data are collected. *)
Lemma collect_data p bs :
  incomplete p → 8 <= bytesRead_ p → Forall is_byte bs → Z.of_nat (length bs) <= 8 + Z.of_nat (length (data_ p)) - bytesRead_ p →
  ∃ p1, pointerToBeReadInto p = Ok (InData (Z.to_nat (bytesRead_ p - 8))) ∧
    fill (InData (Z.to_nat (bytesRead_ p - 8))) bs p = Ok p1 ∧
    maxPacketSize_ p1 = maxPacketSize_ p ∧ header_ p1 = header_ p ∧ length (data_ p1) = length (data_ p) ∧
    Forall is_byte (data_ p1) ∧ bytesRead_ p1 = bytesRead_ p ∧
    take (Z.to_nat (bytesRead_ p) + length bs) (header_ p1 ++ data_ p1) = pending p ++ bs.
Proof.
  intros [Hm Hl Hh Hd Hr Hcase] Hge Hb Hn. destruct Hcase as [[? _] | (Hrange & Hmax & _)]; [lia |].
  set (k := Z.to_nat (bytesRead_ p - 8)). assert (k + length bs ≤ length (data_ p))%nat as Hk by lia.
  unfold pointerToBeReadInto, hasHeader, Packet.kSize. rewrite (proj2 (Z.leb_le 8 _)) by lia.
  rewrite wrapu_small by lia. unfold assertion. rewrite (proj2 (Z.leb_le _ _)) by lia. fold k.
  cbn [fill]. rewrite blit_ok by lia. cbn [mbind res_bind]. eexists. split; [done |]. split; [done |].
  cbn [maxPacketSize_ header_ data_ bytesRead_]. split_and!; try done.
  - rewrite !length_app, length_drop, length_take. lia.
  - rewrite !Forall_app. split_and!; [by apply Forall_take | done | by apply Forall_drop].
  - unfold pending. replace (Z.to_nat (bytesRead_ p)) with (length (header_ p) + k)%nat by lia.
    rewrite take_app_add, <- Nat.add_assoc, take_app_add, <- app_assoc. f_equal.
    rewrite app_assoc, take_app_le, take_ge; [done | |]; rewrite length_app, length_take; lia.
Qed.

Lemma getHeader_ok p h : header_ p = serialize Packet.header_f h → valid Packet.header_f h → getHeader p = Ok h.
Proof.
  intros E Hv. unfold getHeader, Packet.deserializePacketHeader. rewrite E, <- (app_nil_r (serialize _ h)).
  rewrite (Packet.deserialize_buffer_ok Packet.header_f h [] Hv) by done. done.
Qed.

Lemma has_data p : incomplete p → hasData p = false.
Proof. intros Hp. unfold hasData. apply Z.eqb_neq. pose proof (to_be_read p Hp). lia. Qed.

Lemma collected_header p p1 bs :
  incomplete p → bytesRead_ p < 8 → 0 < Z.of_nat (length bs) <= 8 - bytesRead_ p →
  maxPacketSize_ p1 = maxPacketSize_ p → length (header_ p1) = 8%nat → Forall is_byte (header_ p1) →
  data_ p1 = [] → bytesRead_ p1 = bytesRead_ p →
  take (Z.to_nat (bytesRead_ p) + length bs) (header_ p1) = pending p ++ bs →
  collected p bs (increaseBytesRead (Z.of_nat (length bs)) p1).
Proof.
  intros [Hm _ _ _ Hr _] Hlt Hn Em Hl Hh Ed Er Ep. unfold increaseBytesRead. cbn [bytesRead_ maxPacketSize_ data_ header_].
  rewrite Er, wrapu_small by lia. unfold Packet.kSize. destruct (Z.eqb_spec (bytesRead_ p + Z.of_nat (length bs)) 8) as [E8 | E8].
  - rewrite take_ge in Ep by lia. destruct (header_decode (header_ p1) Hh Hl) as (h & Eh & Es & Hv).
    rewrite (getHeader_ok _ h) by done. cbn [mbind res_bind]. rewrite Em.
    pose proof Hv as [_ [Hlen _]]. cbn [fst snd] in Hlen. destruct (Z.ltb_spec (maxPacketSize_ p) (Packet.length h)) as [Hlong | Hfit].
    { apply collected_too_long with h; [done | lia | by rewrite Es, <- Ep]. }
    rewrite Ed. unfold resize_bytes. cbn [length]. rewrite take_nil, Nat.sub_0_r. cbn [app].
    set (n := Z.to_nat (Packet.length h)) in *. set (p' := mk _ _ _ _).
    assert (incomplete (reset p')) as Hreset by (apply incomplete_reset; cbn; congruence).
    destruct (decide (n = 0%nat)) as [H0 | H0].
    + apply collected_packet with h; [| by apply getHeader_ok | done | | | | done | done].
      * unfold p'. rewrite H0, E8. done.
      * unfold p', getData. cbn [data_]. rewrite length_replicate. lia.
      * by apply Forall_replicate.
      * rewrite <- Ep, <- Es. unfold Packet.packet, getData, p'. cbn [data_]. rewrite H0. cbn [replicate length]. rewrite app_nil_r.
        f_equal. destruct h as [ty len]. cbn in *. f_equal. lia.
    + assert (incomplete p') as Hi.
      { unfold p'. split; cbn [maxPacketSize_ header_ data_ bytesRead_]; [lia | done | done | by apply Forall_replicate | lia |].
        right. rewrite length_replicate. split; [lia |].
        split; [lia |]. exists h. split_and!; [done.. | lia]. }
      apply collected_more; [done | done | by apply has_data |].
      unfold pending at 1, p'. cbn [header_ data_ bytesRead_]. rewrite E8, <- Ep.
      rewrite take_app_le by lia. by rewrite take_ge by lia.
  - set (p' := mk _ _ _ _). assert (incomplete p') as Hi.
    { unfold p'. split; cbn [maxPacketSize_ header_ data_ bytesRead_]; [lia | done | done | by rewrite Ed | lia |].
      left. split; [lia | done]. }
    apply collected_more; [done | done | by apply has_data |].
    unfold pending at 1, p'. cbn [header_ data_ bytesRead_]. rewrite <- Ep, Ed, app_nil_r. f_equal. lia.
Qed.

Lemma collected_data p p1 bs :
  incomplete p → 8 <= bytesRead_ p → 0 < Z.of_nat (length bs) <= 8 + Z.of_nat (length (data_ p)) - bytesRead_ p →
  maxPacketSize_ p1 = maxPacketSize_ p → header_ p1 = header_ p → length (data_ p1) = length (data_ p) →
  Forall is_byte (data_ p1) → bytesRead_ p1 = bytesRead_ p →
  take (Z.to_nat (bytesRead_ p) + length bs) (header_ p1 ++ data_ p1) = pending p ++ bs →
  collected p bs (increaseBytesRead (Z.of_nat (length bs)) p1).
Proof.
  intros [Hm Hl Hh Hd Hr Hcase] Hge Hn Em Eh El Hd1 Er Ep. destruct Hcase as [[? _] | (Hrange & Hmax & h & Es & Hv & Hlen)]; [lia |].
  unfold increaseBytesRead. cbn [bytesRead_ maxPacketSize_ data_ header_]. rewrite Er, wrapu_small by lia.
  unfold Packet.kSize. rewrite (proj2 (Z.eqb_neq _ 8)) by lia. set (p' := mk _ _ _ _).
  assert (incomplete (reset p')) as Hreset by (apply incomplete_reset; cbn; rewrite ?Em, ?Eh; done).
  destruct (decide (bytesRead_ p + Z.of_nat (length bs) = 8 + Z.of_nat (length (data_ p)))) as [Hall | Hall].
  - apply collected_packet with h; [| apply getHeader_ok; [by rewrite <- Es, <- Eh | done] | done | | done | | done | done].
    + unfold hasData, bytesToBeRead, hasHeader, p', Packet.kSize. cbn [bytesRead_ data_].
      rewrite (proj2 (Z.leb_le _ _)) by lia. rewrite (wrapu_small 32 (_ - 8)) by lia. rewrite El, wrapu_small by lia. lia.
    + unfold getData, p'. cbn [data_]. lia.
    + rewrite <- Ep, take_ge by (rewrite length_app, Eh; lia). unfold Packet.packet, getData, p'. cbn [data_]. rewrite Eh, Es. f_equal.
      f_equal. destruct h as [ty len]. cbn in *. f_equal. lia.
  - assert (incomplete p') as Hi.
    { unfold p'. split; cbn [maxPacketSize_ header_ data_ bytesRead_]; [lia | congruence | congruence | done | lia |]. right. rewrite El. split; [lia |]. split; [lia |].
      exists h. split_and!; [congruence | done | done]. }
    apply collected_more; [done | done | by apply has_data |].
    unfold pending at 1, p'. cbn [header_ data_ bytesRead_]. rewrite <- Ep. f_equal. lia.
Qed.

(** A read of some of the bytes asked for is collected without leaving the buffers. *)
Lemma collect p bs :
  incomplete p → Forall is_byte bs → 0 < Z.of_nat (length bs) <= bytesToBeRead p →
  ∃ pl p1, pointerToBeReadInto p = Ok pl ∧ fill pl bs p = Ok p1 ∧
    collected p bs (increaseBytesRead (Z.of_nat (length bs)) p1).
Proof.
  intros Hp Hb Hn. destruct (to_be_read p Hp) as [_ E]. rewrite E in Hn. destruct (Z.ltb_spec (bytesRead_ p) 8).
  - destruct (collect_header p bs) as (p1 & E1 & E2 & ? & ? & ? & ? & ? & ?); [done.. | lia |].
    eexists _, p1. split; [exact E1 |]. split; [exact E2 |]. by apply collected_header.
  - destruct (collect_data p bs) as (p1 & E1 & E2 & ? & ? & ? & ? & ? & ?); [done.. | lia |].
    eexists _, p1. split; [exact E1 |]. split; [exact E2 |]. by apply collected_data.
Qed.
End input_packet.

(** ** The server's reads *)
Section server_reads.
Import InputPacket Server.
Context {S : Type} (gotpacket : Z → list Z → S → S * bool).
Implicit Types (c : conn (S := S)) (s : S).

(** The bytes of a sequence of packets: types and data. *)
Fixpoint packets (ps : list (Z * list Z)) : list Z :=
  match ps with [] => [] | (ty, data) :: ps => Packet.packet ty data ++ packets ps end.

(** Handling packets one after the other; the last component tells that the last one closes
    the connection. *)
Inductive handled : list (Z * list Z) → S → S → bool → Prop :=
| handled_nil s : handled [] s s false
| handled_next ty data ps s s1 s2 closing :
    gotpacket ty data s = (s1, false) → handled ps s1 s2 closing → handled ((ty, data) :: ps) s s2 closing
| handled_last ty data s s1 : gotpacket ty data s = (s1, true) → handled [(ty, data)] s s1 true.

Lemma handled_app ps1 ps2 s s1 s2 closing :
  handled ps1 s s1 false → handled ps2 s1 s2 closing → handled (ps1 ++ ps2) s s2 closing.
Proof.
  intros H. remember false as b eqn:Eb. induction H as [| ty d ps s s1 s2' b Hg H IH |]; intros Hn; cbn; [done | | done].
  econstructor; [done | by apply IH].
Qed.

Lemma packets_app ps1 ps2 : packets (ps1 ++ ps2) = packets ps1 ++ packets ps2.
Proof. induction ps1 as [| [ty d] ps1 IH]; cbn; [done |]. by rewrite IH, app_assoc. Qed.

(** A packet the server may handle: its type and length are [uint32_t]. *)
Definition sendable (max : Z) (p : Z * list Z) : Prop :=
  0 <= p.1 < 2 ^ 32 ∧ Z.of_nat (length p.2) <= max ∧ Forall is_byte p.2.

Definition limit c : Z := maxPacketSize_ (inputPacket c).

(** What reading from the wire may come to: packets were handled and the connection is open,
    the last packet closed it, or a header announced a packet that is too long. *)
Inductive progress c (wire : list Z) c' (wire' : list Z) : Prop :=
| progress_open ps :
    kill c' = false → incomplete (inputPacket c') → limit c' = limit c →
    Forall (sendable (limit c)) ps → handled ps (state c) (state c') false →
    pending (inputPacket c) ++ wire = packets ps ++ pending (inputPacket c') ++ wire' → progress c wire c' wire'
| progress_closed ps :
    kill c' = true → Forall (sendable (limit c)) ps → handled ps (state c) (state c') true →
    pending (inputPacket c) ++ wire = packets ps ++ wire' → progress c wire c' wire'
| progress_too_long ps h :
    kill c' = true → Forall (sendable (limit c)) ps → handled ps (state c) (state c') false →
    valid Packet.header_f h → limit c < Packet.length h →
    pending (inputPacket c) ++ wire = packets ps ++ serialize Packet.header_f h ++ wire' → progress c wire c' wire'.

Lemma progress_refl c wire : kill c = false → incomplete (inputPacket c) → progress c wire c wire.
Proof. intros Hk Hi. apply progress_open with []; try done. constructor. Qed.

Lemma progress_trans c wire c1 wire1 c2 wire2 :
  progress c wire c1 wire1 → kill c1 = false → progress c1 wire1 c2 wire2 → progress c wire c2 wire2.
Proof.
  intros Hp Hk1 Hq. destruct Hp as [ps Hk Hi Hl Hf Hh E | |]; [| congruence..]. rewrite <- Hl in Hf.
  destruct Hq as [ps2 ? ? El ? ? E2 | ps2 ? ? ? E2 | ps2 h ? ? ? ? ? E2].
  - apply progress_open with (ps ++ ps2); try done; [congruence | rewrite <- Hl; by apply Forall_app | by eapply handled_app |].
    by rewrite E, E2, packets_app, <- app_assoc.
  - apply progress_closed with (ps ++ ps2); [done | rewrite <- Hl; by apply Forall_app | by eapply handled_app |].
    by rewrite E, E2, packets_app, <- app_assoc.
  - apply progress_too_long with (ps ++ ps2) h; [done | rewrite <- Hl; by apply Forall_app | by eapply handled_app | done | congruence |].
    by rewrite E, E2, packets_app, <- app_assoc.
Qed.

Lemma recv_some choice n wire :
  0 < n → wire ≠ [] →
  let '(bs, wire') := recv choice n wire in
  wire = bs ++ wire' ∧ 0 < Z.of_nat (length bs) <= n ∧ (length wire' < length wire)%nat.
Proof.
  intros Hn Hw. unfold recv. set (k := (_ `min` _)%nat). split; [by rewrite take_drop |].
  assert (length wire ≠ 0)%nat by (by destruct wire). rewrite length_take, length_drop. lia.
Qed.

(** A round reads at least one byte, and keeps what it read and did not handle. *)
Lemma round_progress choice c wire :
  kill c = false → incomplete (inputPacket c) → Forall is_byte wire → wire ≠ [] →
  ∃ c' wire' returns, read_round gotpacket choice Again c wire = Ok (c', wire', returns) ∧
    progress c wire c' wire' ∧ (returns = true → kill c' = true) ∧
    Forall is_byte wire' ∧ (length wire' < length wire)%nat.
Proof.
  intros Hk Hi Hb Hw. destruct (to_be_read _ Hi) as [Hn _].
  pose proof (recv_some choice (bytesToBeRead (inputPacket c)) wire Hn Hw) as Hr.
  unfold read_round. destruct wire as [| b wire0]; [done |]. set (wire := b :: wire0) in *.
  destruct (recv choice (bytesToBeRead (inputPacket c)) wire) as [bs wire'] eqn:Er. destruct Hr as (Ew & Hlen & Hshort).
  rewrite Ew in Hb. apply Forall_app in Hb as [Hb Hb'].
  destruct (collect _ bs Hi Hb Hlen) as (pl & p1 & -> & E1 & Hc). cbn [mbind res_bind].
  rewrite (proj2 (Nat.eqb_neq _ _)) by lia. rewrite E1. cbn [mbind res_bind].
  inversion Hc as [p' Hi' Em Hd Ep Eq | p' h Hd Eh Hv Hfit Hdb Ep Hi' Em Eq | h Hv Hlong Ep Eq].
  - rewrite Hd. eexists _, wire', false. split; [done |]. split; [| done].
    apply progress_open with []; try done; [constructor |].
    cbn [inputPacket packets app]. by rewrite Ep, Ew, app_assoc.
  - rewrite Hd, Eh. cbn [mbind res_bind].
    destruct (gotpacket (Packet.type h) (getData p') (state c)) as [s' closing] eqn:Eg.
    eexists _, wire', false. split; [done |]. split; [| done].
    assert (sendable (limit c) (Packet.type h, getData p')) as Hs by (split; [apply Hv | done]). destruct closing.
    + apply progress_closed with [(Packet.type h, getData p')]; [cbn; by rewrite orb_true_r | by constructor | by constructor |].
      cbn [packets]. by rewrite app_nil_r, <- Ep, Ew, app_assoc.
    + apply progress_open with [(Packet.type h, getData p')]; [cbn; by rewrite orb_false_r | done | done | by constructor | |].
      * econstructor; [done | constructor].
      * cbn [packets]. change (pending (inputPacket (mk_conn _ (reset p') _))) with (@nil Z).
        by rewrite app_nil_r, <- Ep, Ew, app_assoc.
  - eexists _, wire', true. split; [done |]. split; [| done].
    apply progress_too_long with [] h; try done; [constructor |]. cbn [packets app]. by rewrite <- Ep, Ew, app_assoc.
Qed.

Lemma read_progress rounds : ∀ c wire,
  kill c = false → incomplete (inputPacket c) → Forall is_byte wire →
  ∃ c' wire', matoclserv_read gotpacket rounds Again c wire = Ok (c', wire') ∧ progress c wire c' wire' ∧ Forall is_byte wire' ∧
    (Forall (fun r => r.2 = false) rounds → (length wire <= length rounds)%nat → kill c' = true ∨ wire' = []).
Proof.
  induction rounds as [| [choice expired] rounds IH]; intros c wire Hk Hi Hb; cbn [matoclserv_read].
  { exists c, wire. split_and!; [done | by apply progress_refl | done |]. intros _ Hl. right. destruct wire; [done | cbn in Hl; lia]. }
  rewrite Hk. destruct (decide (wire = [])) as [-> | Hw].
  { cbn. exists c, []. split_and!; [done | by apply progress_refl | done | by right]. }
  destruct (round_progress choice c wire Hk Hi Hb Hw) as (c1 & wire1 & returns & -> & Hp & Hret & Hb1 & Hlt).
  cbn [mbind res_bind]. destruct (returns || expired) eqn:Ex.
  - exists c1, wire1. split_and!; [done.. |]. intros HF _. apply Forall_cons in HF as [Hx _]. cbn in Hx. subst expired.
    rewrite orb_false_r in Ex. left. by apply Hret.
  - destruct (kill c1) eqn:Hk1.
    + destruct rounds as [| [] rounds]; cbn [matoclserv_read]; rewrite ?Hk1; exists c1, wire1; (split_and!; [done.. |]); intros _ _; by left.
    + assert (incomplete (inputPacket c1)) as Hi1 by (destruct Hp; congruence).
      destruct (IH c1 wire1 Hk1 Hi1 Hb1) as (c2 & wire2 & -> & Hp2 & Hb2 & Hend). exists c2, wire2.
      split_and!; [done | by eapply progress_trans | done |]. intros HF Hl. apply Forall_cons in HF as [_ HF].
      apply Hend; [done |]. cbn in Hl. lia.
Qed.

Lemma serve_progress calls : ∀ c wire,
  kill c = false → incomplete (inputPacket c) → Forall is_byte wire →
  ∃ c' wire', serve gotpacket calls c wire = Ok (c', wire') ∧ progress c wire c' wire'.
Proof.
  induction calls as [| rounds calls IH]; intros c wire Hk Hi Hb; cbn [serve].
  { exists c, wire. split; [done | by apply progress_refl]. }
  destruct (read_progress rounds c wire Hk Hi Hb) as (c1 & wire1 & -> & Hp & Hb1 & _). cbn [mbind res_bind].
  destruct (kill c1) eqn:Hk1.
  - assert (∀ calls, serve gotpacket calls c1 wire1 = Ok (c1, wire1)) as ->; [| by eauto].
    intros cs. induction cs as [| [| [] r] cs IHc]; cbn [serve matoclserv_read]; rewrite ?Hk1; done.
  - assert (incomplete (inputPacket c1)) as Hi1 by (destruct Hp; congruence).
    destruct (IH c1 wire1 Hk1 Hi1 Hb1) as (c2 & wire2 & -> & Hp2). exists c2, wire2. split; [done | by eapply progress_trans].
Qed.
End server_reads.

(** ** The server's writes *)
Section server_writes.
Import Server.

Definition unsent (o : OutputPacket) : list Z := drop (Z.to_nat (bytesSent o)) (packet o).
Fixpoint queue_bytes (q : list OutputPacket) : list Z :=
  match q with [] => [] | o :: q => unsent o ++ queue_bytes q end.

Definition output_ok (o : OutputPacket) : Prop := 0 <= bytesSent o <= Z.of_nat (length (packet o)) ∧ Z.of_nat (length (packet o)) < 2 ^ 32.

(** Writing moves bytes from the front of the queue to the wire. *)
Lemma write_exact rounds : ∀ q wire,
  Forall output_ok q →
  let '(q', wire', _) := matoclserv_write rounds q wire in
  Forall output_ok q' ∧ wire' ++ queue_bytes q' = wire ++ queue_bytes q.
Proof.
  induction rounds as [| [w expired] rounds IH]; intros q wire Hq; [by destruct q |].
  destruct q as [| o q]; [done |]. cbn [matoclserv_write]. apply Forall_cons in Hq as [[Ho Hl] Hq].
  destruct w as [n | |]; [| split; [constructor; [by split | done] | done]..]. fold (unsent o). cbn [packet bytesSent].
  assert (length (unsent o) = length (packet o) - Z.to_nat (bytesSent o))%nat as Hu by apply length_drop.
  assert (length (take n (unsent o)) = n `min` length (unsent o))%nat as Ht by apply length_take.
  rewrite wrapu_small by lia. destruct (Z.leb_spec (Z.of_nat (length (packet o))) (bytesSent o + Z.of_nat (length (take n (unsent o))))).
  - assert (take n (unsent o) = unsent o) as -> by (apply take_ge; lia). cbn [queue_bytes].
    destruct expired; [by rewrite <- app_assoc |]. specialize (IH q (wire ++ unsent o) Hq).
    destruct (matoclserv_write _ _ _) as [[q' wire'] k]. by rewrite <- app_assoc in IH.
  - split; [constructor; [split; cbn; lia | done] |]. cbn [queue_bytes]. unfold unsent at 2. cbn [packet bytesSent].
    rewrite Ht, Nat.min_l by lia. rewrite <- app_assoc. f_equal. rewrite app_assoc. f_equal.
    replace (Z.to_nat (bytesSent o + Z.of_nat n)) with (Z.to_nat (bytesSent o) + n)%nat by lia.
    rewrite <- drop_drop. by rewrite take_drop.
Qed.

(** The calls of [matoclserv_write] while the connection is writable. *)
Fixpoint flush (calls : list (list (written * bool))) (q : list OutputPacket) (wire : list Z) : list OutputPacket * list Z :=
  match calls with
  | [] => (q, wire)
  | rounds :: calls' =>
      let '(q, wire, killed) := matoclserv_write rounds q wire in
      if (killed : bool) then (q, wire) else flush calls' q wire
  end.

Lemma flush_exact calls : ∀ q wire,
  Forall output_ok q →
  let '(q', wire') := flush calls q wire in Forall output_ok q' ∧ wire' ++ queue_bytes q' = wire ++ queue_bytes q.
Proof.
  induction calls as [| rounds calls IH]; intros q wire Hq; cbn [flush]; [done |].
  pose proof (write_exact rounds q wire Hq) as H. destruct (matoclserv_write rounds q wire) as [[q1 wire1] k].
  destruct H as [Hq1 E]. destruct k; [done |]. specialize (IH q1 wire1 Hq1).
  destruct (flush calls q1 wire1) as [q2 wire2]. destruct IH as [? IH]. split; [done | congruence].
Qed.

(** Packets that wait to be sent. *)
Definition queue_of (ps : list (Z * list Z)) : list OutputPacket := (fun p => mk_out (Packet.packet p.1 p.2) 0) <$> ps.

Lemma queue_of_bytes ps : queue_bytes (queue_of ps) = packets ps.
Proof. induction ps as [| [ty d] ps IH]; cbn; [done |]. by rewrite <- IH. Qed.

Lemma queue_of_ok max ps : max < 2 ^ 32 - 8 → Forall (sendable max) ps → Forall output_ok (queue_of ps).
Proof.
  intros Hm Hps. unfold queue_of. rewrite Forall_fmap. eapply Forall_impl; [exact Hps |]. intros [ty d] (_ & Hl & _). cbn [snd] in Hl. split; cbn [packet bytesSent compose fst snd].
  - lia.
  - unfold Packet.packet. rewrite length_app, Packet.header_bytes. lia.
Qed.
End server_writes.

(** ** From one end to the other *)

Lemma sendable_header max ty d : max < 2 ^ 32 → sendable max (ty, d) → valid Packet.header_f (Packet.mk_header ty (Z.of_nat (length d))).
Proof. intros Hm (Ht & Hl & _). cbn [fst snd] in *. split; [exact Ht |]. change (0 <= Z.of_nat (length d) < 2 ^ 32). lia. Qed.

Lemma header_inj h h' x y :
  valid Packet.header_f h → valid Packet.header_f h' →
  serialize Packet.header_f h ++ x = serialize Packet.header_f h' ++ y → h = h' ∧ x = y.
Proof.
  intros Hv Hv' E. pose proof (law_read h x Hv) as R. rewrite E in R. rewrite (law_read h' y Hv') in R. by injection R as -> ->.
Qed.

Lemma packet_inj max ty d ty' d' x y :
  max < 2 ^ 32 → sendable max (ty, d) → sendable max (ty', d') →
  Packet.packet ty d ++ x = Packet.packet ty' d' ++ y → ty = ty' ∧ d = d' ∧ x = y.
Proof.
  intros Hm Hs Hs' E. unfold Packet.packet in E. rewrite <- !app_assoc in E.
  apply header_inj in E as [Eh E]; [| by eapply sendable_header..]. injection Eh as -> El.
  apply app_inj_1 in E as [-> ->]; [done | lia].
Qed.

Lemma packets_prefix max ps : ∀ sent rest,
  max < 2 ^ 32 → Forall (sendable max) ps → Forall (sendable max) sent → packets ps ++ rest = packets sent →
  ∃ tail, sent = ps ++ tail ∧ rest = packets tail.
Proof.
  induction ps as [| [ty d] ps IH]; intros sent rest Hm Hps Hs E; [by exists sent |]. cbn [packets] in E.
  destruct sent as [| [ty' d'] sent]; [done |]. cbn [packets] in E. rewrite <- app_assoc in E.
  apply Forall_cons in Hps as [Hp Hps]. apply Forall_cons in Hs as [Hp' Hs].
  destruct (packet_inj max _ _ _ _ _ _ Hm Hp Hp' E) as (-> & -> & E').
  destruct (IH sent rest Hm Hps Hs E') as (tail & -> & ->). by exists tail.
Qed.

Lemma incomplete_no_packet p max ty d x :
  incomplete p → max < 2 ^ 32 → sendable max (ty, d) → pending p ≠ Packet.packet ty d ++ x.
Proof.
  intros [Hm Hl _ _ Hr Hcase] Hmax Hs E. unfold pending in E.
  pose proof (f_equal length E) as El. unfold Packet.packet in *. rewrite length_take, !length_app, Packet.header_bytes in El.
  destruct Hcase as [[Hlt Ed] | (Hrange & _ & h & Eh & Hv & Hlen)]; [rewrite Ed in El; cbn in El; lia |].
  rewrite take_app, (take_ge (InputPacket.header_ p)), Eh, <- app_assoc in E by lia.
  apply header_inj in E as [-> _]; [| done | by eapply sendable_header]. cbn in Hlen. lia.
Qed.

Lemma packets_bytes max ps : max < 2 ^ 32 → Forall (sendable max) ps → Forall is_byte (packets ps).
Proof.
  intros Hm. induction 1 as [| [ty d] ps Hs Hps IH]; cbn [packets]; [done |]. rewrite Forall_app. split; [| done].
  unfold Packet.packet. rewrite Forall_app. split; [| apply Hs].
  apply (law_bytes (f := Packet.header_f)), (sendable_header max); [lia | done].
Qed.

Section end_to_end.
Context {S : Type} (gotpacket : Z → list Z → S → S * bool) (s0 : S) (max : Z) (Hmax : 0 <= max < 2 ^ 32 - 8).
Context (sent : list (Z * list Z)) (Hsent : Forall (sendable max) sent).

Let q0 := queue_of sent.
Let c0 : Server.conn := Server.mk_conn false (InputPacket.new max) s0.

(** What a run comes to. *)
Lemma delivered_prefix wire q' c' wire' :
  wire ++ queue_bytes q' = packets sent → progress gotpacket c0 wire c' wire' →
  ∃ ps tail closing, sent = ps ++ tail ∧ handled gotpacket ps s0 (Server.state c') closing ∧ Server.kill c' = closing ∧
    (closing = false → incomplete (Server.inputPacket c') ∧
       pending (Server.inputPacket c') ++ wire' ++ queue_bytes q' = packets tail).
Proof.
  intros Ew Hp. assert (∀ x y, x ++ wire = y → x = [] → y ++ queue_bytes q' = packets sent) as Hall by (intros x y <- ->; done).
  destruct Hp as [ps Hk Hi Hl Hf Hh E | ps Hk Hf Hh E | ps h Hk Hf Hh Hv Hlong E].
  - pose proof (Hall _ _ E eq_refl) as E'. rewrite <- app_assoc in E'.
    destruct (packets_prefix max _ _ _ ltac:(lia) Hf Hsent E') as (tail & -> & Et). exists ps, tail, false. split_and!; try done.
    intros _. split; [done |]. by rewrite <- Et, <- app_assoc.
  - pose proof (Hall _ _ E eq_refl) as E'. rewrite <- app_assoc in E'.
    destruct (packets_prefix max _ _ _ ltac:(lia) Hf Hsent E') as (tail & -> & Et). by exists ps, tail, true.
  - exfalso. pose proof (Hall _ _ E eq_refl) as E'. rewrite <- app_assoc in E'.
    destruct (packets_prefix max _ _ _ ltac:(lia) Hf Hsent E') as (tail & Es & Et).
    destruct tail as [| [ty d] tail]; [done |]. cbn [packets] in Et. unfold Packet.packet in Et. rewrite <- !app_assoc in Et.
    rewrite Es in Hsent. apply Forall_app in Hsent as [_ [Ht _]%Forall_cons].
    apply header_inj in Et as [-> _]; [| done | eapply sendable_header; [| done]; lia].
    destruct Ht as (_ & Ht & _). cbn in Ht, Hlong. lia.
Qed.

(** C23: However the packets of a queue are cut into writes and the bytes into reads, and
    whenever the loops are interrupted: the receiver does not fail and has handled a prefix of
    the packets that were sent, in order and unchanged. *)
Theorem packets_delivered_in_order writes calls :
  let '(q', wire) := flush writes q0 [] in
  ∃ c' wire' ps tail closing,
    Server.serve gotpacket calls c0 wire = Ok (c', wire') ∧ sent = ps ++ tail ∧
    handled gotpacket ps s0 (Server.state c') closing ∧ Server.kill c' = closing.
Proof.
  pose proof (flush_exact writes q0 []) as Hw. destruct (flush writes q0 []) as [q' wire].
  destruct Hw as [_ Ew]; [by apply (queue_of_ok max); [lia | done] |]. cbn [app] in Ew. unfold q0 in Ew. rewrite queue_of_bytes in Ew.
  assert (Forall is_byte wire) as Hb by (pose proof (packets_bytes max sent ltac:(lia) Hsent) as Hb; rewrite <- Ew in Hb; by apply Forall_app in Hb as [? _]).
  destruct (incomplete_new max Hmax) as [Hi _].
  destruct (serve_progress gotpacket calls c0 wire eq_refl Hi Hb) as (c' & wire' & E & Hp).
  destruct (delivered_prefix wire q' c' wire' Ew Hp) as (ps & tail & closing & ? & ? & ? & _). by exists c', wire', ps, tail, closing.
Qed.

(** When the whole queue has been written and the receiver is given a round for every byte,
    without interruption, it has handled every packet, unless one of them closed the
    connection. *)
Theorem all_packets_delivered writes wire rounds
    (Hwritten : flush writes q0 [] = ([], wire))
    (Hrounds : (length wire <= length rounds)%nat) (Hno : Forall (fun r => r.2 = false) rounds) :
  ∃ c' wire', Server.matoclserv_read gotpacket rounds Server.Again c0 wire = Ok (c', wire') ∧
    (Server.kill c' = true ∨
     wire' = [] ∧ pending (Server.inputPacket c') = [] ∧ handled gotpacket sent s0 (Server.state c') false).
Proof.
  pose proof (flush_exact writes q0 []) as Hw. rewrite Hwritten in Hw.
  destruct Hw as [_ Ew]; [by apply (queue_of_ok max); [lia | done] |]. unfold q0 in Ew. rewrite queue_of_bytes in Ew. cbn [app] in Ew.
  assert (Forall is_byte wire) as Hb by (pose proof (packets_bytes max sent ltac:(lia) Hsent) as Hb; rewrite <- Ew in Hb; by apply Forall_app in Hb as [? _]).
  destruct (incomplete_new max Hmax) as [Hi _].
  destruct (read_progress gotpacket rounds c0 wire eq_refl Hi Hb) as (c' & wire' & E & Hp & _ & Hend). exists c', wire'. split; [done |].
  destruct (delivered_prefix wire [] c' wire' Ew Hp) as (ps & tail & closing & Es & Hh & Hk & Hopen).
  destruct closing; [by left |]. right. destruct (Hopen eq_refl) as [Hi' Et].
  destruct (Hend Hno Hrounds) as [? | ->]; [congruence |]. cbn [queue_bytes app] in Et. rewrite app_nil_r in Et.
  destruct tail as [| [ty d] tail]; [rewrite app_nil_r in Es; by subst ps |]. exfalso. cbn [packets] in Et.
  rewrite Es in Hsent. apply Forall_app in Hsent as [_ [Ht _]%Forall_cons].
  by eapply (incomplete_no_packet _ max ty d); [| lia | |].
Qed.
End end_to_end.

(** ** A run *)
Section run.
Import Server.

(** A server that keeps what it gets. *)
Definition keep (ty : Z) (data : list Z) (s : list (Z * list Z)) : list (Z * list Z) * bool := (s ++ [(ty, data)], false).

Definition two_packets : list (Z * list Z) := [(1500, [1; 2; 3]); (1501, [])].

Lemma two_sendable : Forall (sendable 1000) two_packets.
Proof. repeat constructor; cbn; try lia; unfold is_byte; lia. Qed.

(** Writes of 5 and 100 bytes, reads that are interrupted after a few bytes. *)
Definition writes : list (list (written * bool)) := [[(Wrote 5, false)]; [(Wrote 100, false); (Wrote 100, false)]].
Definition interrupted : list (list (nat * bool)) := [[(2%nat, false); (0%nat, true)]; [(100%nat, false); (100%nat, false); (1%nat, false)]; []].

(** A witness of [packets_delivered_in_order]. *)
Lemma packets_delivered_in_order_witness :
  ∃ c' wire' ps tail closing,
    serve keep interrupted (mk_conn false (InputPacket.new 1000) []) (packets two_packets) = Ok (c', wire') ∧
    two_packets = ps ++ tail ∧ handled keep ps [] (state c') closing ∧ kill c' = closing ∧ state c' = [(1500, [1; 2; 3])].
Proof.
  pose proof (packets_delivered_in_order keep [] 1000 ltac:(lia) two_packets two_sendable writes interrupted) as H.
  assert (flush writes (queue_of two_packets) [] = ([], packets two_packets)) as Ef by (vm_compute; reflexivity). rewrite Ef in H.
  destruct H as (c' & wire' & ps & tail & closing & E1 & E2 & E3 & E4).
  exists c', wire', ps, tail, closing. split_and!; [exact E1 | exact E2 | exact E3 | exact E4 |]. vm_compute in E1. by injection E1 as <- <-.
Defined.

(** A witness of [all_packets_delivered]. *)
Lemma all_packets_delivered_witness :
  ∃ c' wire', matoclserv_read keep (replicate 19 (1%nat, false)) Again (mk_conn false (InputPacket.new 1000) [])
      (packets two_packets) = Ok (c', wire') ∧
    (kill c' = true ∨ wire' = [] ∧ pending (inputPacket c') = [] ∧ handled keep two_packets [] (state c') false).
Proof.
  apply (all_packets_delivered keep [] 1000 ltac:(lia) two_packets two_sendable writes (packets two_packets)
    (replicate 19 (1%nat, false))); [vm_compute; reflexivity | vm_compute; lia |].
  by apply Forall_replicate.
Defined.
End run.
