(* ===== verification/ClientStreams.v ===== *)
(** * Messages received by clients

    [MessageReceiveBuffer] (src/common/message_receive_buffer.h) takes from a socket whatever
    fits into a buffer of fixed size and gives out the messages in it.  [receiveRequestGeneric]
    (src/common/server_connection.cc, connections without TLS) waits for one message with it;
    [WriteExecutor::receiveData] (src/common/write_executor.cc) keeps one per chunkserver for
    the statuses of writes.

    [reply_is_received] shows that a reply is found behind keep-alive messages however the
    bytes arrive; the other theorems show what happens with lengths near 2^32, with messages
    larger than the buffer, and with bytes behind the reply. *)

From S2P Require Import Prelude FlatContainers Serialization Packets PacketStreams.
Import Datapack Serialization.

Module ReceiveBuffer.

Record t : Type := mk { buffer_ : list Z; bytesReceived_ : Z }.

Definition new (size : nat) : t := mk (replicate size 0) 0.

Definition size (b : t) : Z := Z.of_nat (length (buffer_ b)).

(** The system call answers at least one byte of a wire that is not empty. *)
Definition readFrom (choice : nat) (b : t) (wire : list Z) : res (t * list Z) :=
  assertion (bytesReceived_ b <? size b)
    (let '(bs, wire) := recv choice (size b - bytesReceived_ b) wire in
     buf ← blit (Z.to_nat (bytesReceived_ b)) bs (buffer_ b);
     Ok (mk buf (u64 (bytesReceived_ b + Z.of_nat (length bs))), wire)).

Definition hasMessageHeader (b : t) : bool := Packet.kSize <=? bytesReceived_ b.

Definition getMessageHeader (b : t) : res Packet.PacketHeader :=
  assertion (hasMessageHeader b) ('(header, _) ← deserialize_buffer Packet.header_f (buffer_ b); Ok header).

Definition hasMessageData (b : t) : res bool :=
  if hasMessageHeader b then
    header ← getMessageHeader b; Ok (u32 (Packet.kSize + Packet.length header) <=? bytesReceived_ b)
  else Ok false.

Definition isMessageTooBig (b : t) : res bool :=
  if hasMessageHeader b then
    header ← getMessageHeader b; Ok (size b <? u32 (Packet.kSize + Packet.length header))
  else Ok false.

(** [memmove] of the bytes behind the message. *)
Definition removeMessage (b : t) : res t :=
  has ← hasMessageData b;
  assertion has
    (header ← getMessageHeader b;
     let totalMessageSize := u32 (Packet.kSize + Packet.length header) in
     let buf :=
       if totalMessageSize <? bytesReceived_ b then
         let extra := take (Z.to_nat (bytesReceived_ b - totalMessageSize)) (drop (Z.to_nat totalMessageSize) (buffer_ b)) in
         extra ++ drop (length extra) (buffer_ b)
       else buffer_ b in
     Ok (mk buf (u64 (bytesReceived_ b - totalMessageSize)))).

(** A copy of [n] bytes from [getMessageData]. *)
Definition messageData (n : Z) (b : t) : res (list Z) :=
  if size b <? Packet.kSize + n then Stuck else Ok (take (Z.to_nat n) (drop 8 (buffer_ b))).
End ReceiveBuffer.

Module Client.
Import ReceiveBuffer.

Definition kMaxMessageSize : nat := 4 * 1024 * 1024.
Definition ANTOAN_NOP : Z := 0.

(** The inner loop, which removes keep-alive messages: [None] when it still runs after
    [fuel] rounds. *)
Fixpoint skip_nops (fuel : nat) (nonNop : bool) (b : t) : res (option t) :=
  match fuel with
  | O => Ok None
  | S fuel =>
      has ← hasMessageData b;
      if (has : bool) && nonNop then
        header ← getMessageHeader b;
        if Packet.type header =? ANTOAN_NOP then b ← removeMessage b; skip_nops fuel nonNop b
        else Ok (Some b)
      else Ok (Some b)
  end.

(** The outer loop: every round has the number of bytes the system returns; without more
    rounds or bytes the connection times out. *)
Fixpoint await (choices : list nat) (fuel : nat) (nonNop : bool) (b : t) (wire : list Z) : res (option (t * list Z)) :=
  has ← hasMessageData b;
  if (has : bool) then Ok (Some (b, wire))
  else
    match choices, wire with
    | [], _ | _, [] => Throw
    | choice :: choices, _ =>
        '(b, wire) ← readFrom choice b wire;
        tooBig ← isMessageTooBig b;
        if (tooBig : bool) then Throw
        else
          skipped ← skip_nops fuel nonNop b;
          match skipped with
          | None => Ok None
          | Some b => await choices fuel nonNop b wire
          end
    end.

Definition receive (capacity : nat) (choices : list nat) (fuel : nat) (expectedType : Z) (nonNop : bool) (wire : list Z) :
    res (option (list Z * list Z)) :=
  r ← await choices fuel nonNop (new capacity) wire;
  match r with
  | None => Ok None
  | Some (b, wire) =>
      header ← getMessageHeader b;
      if Packet.type header =? expectedType then
        data ← messageData (Packet.length header) b; Ok (Some (data, wire))
      else Throw
  end.

(** [receiveRequestGeneric] of a connection without TLS: the data of the message and the
    bytes that are still on the wire. *)
Definition receiveRequestGeneric : list nat → nat → Z → bool → list Z → res (option (list Z * list Z)) :=
  receive kMaxMessageSize.

Definition kReceiveBufferSize : nat := 1024.

(** [WriteExecutor]: the buffer and the packets without a status. *)
Record executor : Type := mk_exec { receiveBuffer_ : t; unconfirmedPackets_ : Z }.

Fixpoint read_statuses (fuel : nat) (e : executor) (statuses : list (Z * (Z * Z))) : res (option (executor * list (Z * (Z * Z)))) :=
  match fuel with
  | O => Ok None
  | S fuel =>
      has ← hasMessageData (receiveBuffer_ e);
      if (has : bool) then
        header ← getMessageHeader (receiveBuffer_ e);
        data ← messageData (Packet.length header) (receiveBuffer_ e);
        if Packet.type header =? Packet.id Packet.writeStatus then
          status ← Packet.read Packet.writeStatus data;
          if unconfirmedPackets_ e =? 0 then Throw
          else
            b ← removeMessage (receiveBuffer_ e);
            read_statuses fuel (mk_exec b (unconfirmedPackets_ e - 1)) (statuses ++ [status])
        else Throw
      else Ok (Some (e, statuses))
  end.

Definition receiveData (choice fuel : nat) (e : executor) (wire : list Z) :
    res (option (executor * list (Z * (Z * Z))) * list Z) :=
  '(b, wire') ← readFrom choice (receiveBuffer_ e) wire;
  if (length wire =? length wire')%nat then Throw
  else r ← read_statuses fuel (mk_exec b (unconfirmedPackets_ e)) []; Ok (r, wire').
End Client.

(** ** The buffer *)
Section receive_buffer.
Import ReceiveBuffer.

Definition content (b : t) : list Z := take (Z.to_nat (bytesReceived_ b)) (buffer_ b).

Record buffer_wf (b : t) : Prop := {
  bw_received : 0 <= bytesReceived_ b <= size b;
  bw_size : 8 <= size b <= kMaxDeserializedBytesCount;
  bw_bytes : Forall is_byte (buffer_ b);
}.

Lemma content_length b : buffer_wf b → Z.of_nat (length (content b)) = bytesReceived_ b.
Proof. intros [Hr _ _]. unfold content, size in *. rewrite length_take. lia. Qed.

Lemma new_wf n : 8 <= Z.of_nat n <= kMaxDeserializedBytesCount → buffer_wf (new n) ∧ content (new n) = [] ∧ size (new n) = Z.of_nat n.
Proof.
  intros Hn. unfold content, new, size. cbn [buffer_ bytesReceived_]. split; [| by rewrite length_replicate].
  split; unfold size; cbn [buffer_ bytesReceived_]; [rewrite length_replicate; lia | by rewrite length_replicate | by apply Forall_replicate].
Qed.

Lemma prefix_split {A} (a b c d : list A) : a ++ b = c ++ d → (length c ≤ length a)%nat → ∃ x, a = c ++ x ∧ d = x ++ b.
Proof.
  intros E Hl. exists (drop (length c) a). assert (a = c ++ drop (length c) a) as Ea.
  { rewrite <- (take_drop (length c) a) at 1. f_equal. apply (f_equal (take (length c))) in E.
    rewrite take_app_le, take_app_length in E by done. done. }
  split; [done |]. rewrite Ea in E. rewrite <- app_assoc in E. by apply app_inv_head in E.
Qed.

Lemma readFrom_spec choice b wire :
  buffer_wf b → bytesReceived_ b < size b → wire ≠ [] → Forall is_byte wire →
  ∃ bs b' wire', readFrom choice b wire = Ok (b', wire') ∧ wire = bs ++ wire' ∧ bs ≠ [] ∧ (length wire' < length wire)%nat ∧
    buffer_wf b' ∧ size b' = size b ∧ content b' = content b ++ bs.
Proof.
  intros [Hr Hs Hb] Hlt Hw Hbw. unfold readFrom, assertion. rewrite (proj2 (Z.ltb_lt _ _)) by done.
  pose proof (recv_some choice (size b - bytesReceived_ b) wire ltac:(lia) Hw) as H.
  destruct (recv _ _ wire) as [bs wire']. destruct H as (Ew & Hn & Hl). unfold kMaxDeserializedBytesCount, size in *.
  rewrite blit_ok by lia. cbn [mbind res_bind]. rewrite wrapu_small by lia. eexists bs, _, wire'. split; [done |].
  split; [done |]. split; [intros ->; cbn in Hn; lia |]. split; [done |]. rewrite Ew in Hbw. apply Forall_app in Hbw as [Hbs _].
  set (k := Z.to_nat (bytesReceived_ b)) in *.
  assert (length (take k (buffer_ b) ++ bs ++ drop (k + length bs) (buffer_ b)) = length (buffer_ b)) as El.
  { rewrite !length_app, length_take, length_drop. lia. }
  split; [split; unfold size; cbn [buffer_ bytesReceived_]; rewrite ?El; try (unfold kMaxDeserializedBytesCount; lia) |].
  - rewrite !Forall_app. split_and!; [by apply Forall_take | done | by apply Forall_drop].
  - split; [unfold size; cbn [buffer_]; by rewrite El |]. unfold content. cbn [buffer_ bytesReceived_]. fold k.
    rewrite app_assoc, take_app_le by (rewrite length_app, length_take; lia).
    apply take_ge. rewrite length_app, length_take. lia.
Qed.

Lemma readFrom_wire choice b wire b' wire' :
  readFrom choice b wire = Ok (b', wire') → wire' = drop (S choice `min` Z.to_nat (size b - bytesReceived_ b)) wire.
Proof.
  unfold readFrom. intros [_ E]%assertion_Ok. unfold recv in E. destruct (blit _ _ _); cbn in E; by simplify_eq.
Qed.

Lemma header_read b wire h y :
  buffer_wf b → content b ++ wire = serialize Packet.header_f h ++ y → valid Packet.header_f h → 8 <= bytesReceived_ b →
  getMessageHeader b = Ok h.
Proof.
  intros Hb E Hv H8. unfold getMessageHeader, hasMessageHeader, assertion, Packet.kSize. rewrite (proj2 (Z.leb_le _ _)) by done.
  pose proof (content_length b Hb) as Hl. destruct (prefix_split _ _ _ _ E) as (x & Ex & _); [rewrite Packet.header_bytes; lia |].
  pose proof (take_drop (Z.to_nat (bytesReceived_ b)) (buffer_ b)) as Eb. fold (content b) in Eb. rewrite Ex, <- app_assoc in Eb.
  pose proof (bw_size _ Hb) as Hsz. unfold size in Hsz. rewrite <- Eb. rewrite Packet.deserialize_buffer_ok; [done | apply _ | done | rewrite Eb; lia].
Qed.

(** The first message of the stream: what is in the buffer and what follows. *)
Section first.
Context (b : t) (Hb : buffer_wf b) (wire : list Z) (ty : Z) (d y : list Z).
Context (Hs : sendable (size b - 8) (ty, d)) (E : content b ++ wire = Packet.packet ty d ++ y).

Let h := Packet.mk_header ty (Z.of_nat (length d)).

Lemma first_total : u32 (Packet.kSize + Packet.length h) = 8 + Z.of_nat (length d).
Proof.
  pose proof (bw_size _ Hb). destruct Hs as (_ & Hl & _). cbn [snd] in Hl. unfold kMaxDeserializedBytesCount, Packet.kSize in *.
  unfold h. cbn [Packet.length]. rewrite wrapu_small; lia.
Qed.

Lemma first_header : 8 <= bytesReceived_ b → getMessageHeader b = Ok h.
Proof.
  intros H8. unfold Packet.packet in E. rewrite <- app_assoc in E. apply (header_read b wire h (d ++ y)); try done.
  pose proof (bw_size _ Hb). apply (sendable_header (size b - 8)); [| done]. unfold kMaxDeserializedBytesCount in *. lia.
Qed.

Lemma first_has_data : hasMessageData b = Ok (8 + Z.of_nat (length d) <=? bytesReceived_ b).
Proof.
  unfold hasMessageData, hasMessageHeader, Packet.kSize. destruct (Z.leb_spec 8 (bytesReceived_ b)).
  - rewrite first_header by done. cbn [mbind res_bind]. fold Packet.kSize. by rewrite first_total.
  - symmetry. f_equal. apply Z.leb_gt. lia.
Qed.

Lemma first_fits : isMessageTooBig b = Ok false.
Proof.
  unfold isMessageTooBig, hasMessageHeader, Packet.kSize. destruct (Z.leb_spec 8 (bytesReceived_ b)); [| done].
  rewrite first_header by done. cbn [mbind res_bind]. fold Packet.kSize. rewrite first_total. f_equal. apply Z.ltb_ge.
  destruct Hs as (_ & Hl & _). cbn [snd] in Hl. lia.
Qed.

Lemma first_data : 8 + Z.of_nat (length d) <= bytesReceived_ b → messageData (Z.of_nat (length d)) b = Ok d.
Proof.
  intros Hd. unfold messageData. pose proof (bw_received _ Hb) as Hr. rewrite (proj2 (Z.ltb_ge _ _)) by (unfold Packet.kSize; lia). f_equal.
  pose proof (content_length b Hb) as Hl.
  destruct (prefix_split _ _ _ _ E) as (x & Ex & _); [unfold Packet.packet; rewrite length_app, Packet.header_bytes; lia |].
  pose proof (take_drop (Z.to_nat (bytesReceived_ b)) (buffer_ b)) as Eb. fold (content b) in Eb. rewrite <- Eb, Ex.
  unfold Packet.packet. rewrite <- !app_assoc.
  rewrite <- (Packet.header_bytes h). unfold h. rewrite drop_app_length, Nat2Z.id. by rewrite take_app_length.
Qed.

Lemma first_removed : 8 + Z.of_nat (length d) <= bytesReceived_ b →
  ∃ b', removeMessage b = Ok b' ∧ buffer_wf b' ∧ size b' = size b ∧ content b' ++ wire = y.
Proof.
  intros Hd. unfold removeMessage. rewrite first_has_data. cbn [mbind res_bind]. rewrite (proj2 (Z.leb_le _ _)) by done.
  cbn [assertion]. rewrite first_header by lia. cbn [mbind res_bind]. rewrite first_total. eexists. split; [done |].
  pose proof (content_length b Hb) as Hl. set (n := 8 + Z.of_nat (length d)) in *.
  destruct (prefix_split _ _ _ _ E) as (x & Ex & ->); [unfold Packet.packet; rewrite length_app, Packet.header_bytes; lia |].
  pose proof Hb as [Hr Hsz Hby]. unfold size, kMaxDeserializedBytesCount in *.
  assert (Z.of_nat (length x) = bytesReceived_ b - n) as Hx.
  { apply (f_equal length) in Ex. unfold Packet.packet in Ex. rewrite !length_app, Packet.header_bytes in Ex. lia. }
  assert (take (Z.to_nat (bytesReceived_ b - n)) (drop (Z.to_nat n) (buffer_ b)) = x) as Ext.
  { pose proof (take_drop (Z.to_nat (bytesReceived_ b)) (buffer_ b)) as Eb. fold (content b) in Eb. rewrite <- Eb, Ex, <- app_assoc.
    replace (Z.to_nat n) with (length (Packet.packet ty d)) by (unfold Packet.packet; rewrite length_app, Packet.header_bytes; lia).
    rewrite drop_app_length. replace (Z.to_nat (bytesReceived_ b - n)) with (length x) by lia. by rewrite take_app_length. }
  rewrite Ext, wrapu_small by lia. destruct (Z.ltb_spec n (bytesReceived_ b)).
  - assert (length (x ++ drop (length x) (buffer_ b)) = length (buffer_ b)) as El by (rewrite length_app, length_drop; lia).
    split; [split; unfold size; cbn [buffer_ bytesReceived_]; rewrite ?El; try done; try lia |].
    + rewrite Forall_app. split; [| by apply Forall_drop]. rewrite <- Ext. by apply Forall_take, Forall_drop.
    + split; [cbn; by rewrite El |]. unfold content. cbn [buffer_ bytesReceived_]. rewrite <- Hx, Nat2Z.id. by rewrite take_app_length.
  - split; [split; unfold size; cbn [buffer_ bytesReceived_]; try done; lia |]. split; [done |].
    destruct x; [| cbn [length] in Hx; lia]. unfold content. cbn [buffer_ bytesReceived_].
    replace (bytesReceived_ b - n) with 0 by (cbn in Hx; lia). done.
Qed.
End first.
End receive_buffer.

(** ** Waiting for a reply *)
Section reply.
Import ReceiveBuffer Client.
Context (N : nat) (HN : 8 <= Z.of_nat N <= kMaxDeserializedBytesCount).
Context (ty : Z) (d rest : list Z) (Hd : sendable (Z.of_nat N - 8) (ty, d)) (Hty : ty ≠ ANTOAN_NOP).
Context (Hrest : Forall is_byte rest).

(** A keep-alive message, of any length that fits. *)
Definition keep_alive (n : nat) (p : Z * list Z) : Prop := p.1 = ANTOAN_NOP ∧ sendable (Z.of_nat n - 8) p.

(** The stream that is left: keep-alive messages, the reply and the rest. *)
Definition stream (nops : list (Z * list Z)) : list Z := packets nops ++ Packet.packet ty d ++ rest.

(** The buffer holds the whole reply, or not yet the whole first message. *)
Definition settled (b : t) (nops : list (Z * list Z)) : Prop :=
  let first := default (ty, d) (head nops) in
  bytesReceived_ b < 8 + Z.of_nat (length first.2) ∨ nops = [].

Lemma stream_first nops : Forall (keep_alive N) nops →
  let first := default (ty, d) (head nops) in
  sendable (Z.of_nat N - 8) first ∧ ∃ y, stream nops = Packet.packet first.1 first.2 ++ y.
Proof.
  intros Hn. destruct nops as [| [ty1 d1] nops]; cbn [head default fst snd].
  - split; [done |]. by exists rest.
  - apply Forall_cons in Hn as [[_ Hs] _]. split; [done |]. exists (stream nops). unfold stream. cbn [packets]. by rewrite <- app_assoc.
Qed.

Lemma skip_nops_spec nops : ∀ fuel b wire,
  buffer_wf b → size b = Z.of_nat N → Forall (keep_alive N) nops → content b ++ wire = stream nops → (length nops < fuel)%nat →
  ∃ b' nops', skip_nops fuel true b = Ok (Some b') ∧ buffer_wf b' ∧ size b' = Z.of_nat N ∧
    Forall (keep_alive N) nops' ∧ (length nops' ≤ length nops)%nat ∧ content b' ++ wire = stream nops' ∧ settled b' nops'.
Proof.
  induction nops as [| [ty1 d1] nops IH]; intros fuel b wire Hb Hsz Hn E Hf; (destruct fuel as [| fuel]; [cbn in Hf; lia |]); cbn [skip_nops].
  - rewrite <- Hsz in Hd. rewrite (first_has_data b Hb wire ty d rest Hd E). cbn [mbind res_bind]. rewrite andb_true_r.
    exists b, []. split; [| split_and!; [done.. | by right]].
    destruct (Z.leb_spec (8 + Z.of_nat (length d)) (bytesReceived_ b)); [| done].
    rewrite (first_header b Hb wire ty d rest Hd E) by lia. cbn [mbind res_bind Packet.type]. by rewrite (proj2 (Z.eqb_neq _ _)).
  - pose proof Hn as Hn'. apply Forall_cons in Hn as [[Hnop Hs] Hn]. cbn [fst] in Hnop. subst ty1. rewrite <- Hsz in Hs.
    assert (content b ++ wire = Packet.packet ANTOAN_NOP d1 ++ stream nops) as E1.
    { rewrite E. unfold stream. cbn [packets]. by rewrite <- app_assoc. }
    rewrite (first_has_data b Hb wire _ d1 _ Hs E1). cbn [mbind res_bind]. rewrite andb_true_r.
    destruct (Z.leb_spec (8 + Z.of_nat (length d1)) (bytesReceived_ b)) as [Hall | Hpart].
    + rewrite (first_header b Hb wire _ d1 _ Hs E1) by lia. cbn [mbind res_bind Packet.type].
      rewrite Z.eqb_refl. destruct (first_removed b Hb wire _ d1 _ Hs E1 Hall) as (b1 & -> & Hb1 & Hs1 & E2). cbn [mbind res_bind].
      destruct (IH fuel b1 wire) as (b' & nops' & ? & ? & ? & ? & ? & ? & ?); [done | congruence | done | done | cbn in Hf; lia |].
      exists b', nops'. split_and!; try done. cbn [length]. lia.
    + exists b, ((ANTOAN_NOP, d1) :: nops). split_and!; [done.. |]. by left.
Qed.

(** Either the reply is there, or there is more to read and room for it. *)
Lemma await_case b wire nops :
  buffer_wf b → size b = Z.of_nat N → Forall (keep_alive N) nops → content b ++ wire = stream nops → settled b nops →
  (hasMessageData b = Ok true ∧ nops = [] ∧ 8 + Z.of_nat (length d) <= bytesReceived_ b) ∨
  (hasMessageData b = Ok false ∧ wire ≠ [] ∧ bytesReceived_ b < size b).
Proof.
  intros Hb Hsz Hn E Hset. destruct (stream_first nops Hn) as [Hs [y Ey]]. unfold settled in Hset.
  set (first := default (ty, d) (head nops)) in *. rewrite Ey in E.
  rewrite <- Hsz in Hs. rewrite (surjective_pairing first) in Hs. rewrite (first_has_data b Hb wire _ _ y Hs E).
  destruct (Z.leb_spec (8 + Z.of_nat (length first.2)) (bytesReceived_ b)) as [Hall | Hpart].
  - left. destruct Hset as [? | ->]; [lia | done].
  - right. split; [done |]. split; [| destruct Hs as (_ & Hl & _); cbn [snd] in Hl; lia].
    intros ->. apply (f_equal length) in E. rewrite !length_app in E. pose proof (content_length b Hb).
    unfold Packet.packet in E. rewrite length_app, Packet.header_bytes in E. cbn [length] in E. lia.
Qed.

Lemma await_spec choices : ∀ fuel b wire nops,
  buffer_wf b → size b = Z.of_nat N → Forall (keep_alive N) nops → Forall is_byte wire →
  content b ++ wire = stream nops → settled b nops → (length nops < fuel)%nat → (length wire ≤ length choices)%nat →
  ∃ b' wire', await choices fuel true b wire = Ok (Some (b', wire')) ∧ buffer_wf b' ∧ size b' = Z.of_nat N ∧
    content b' ++ wire' = stream [] ∧ 8 + Z.of_nat (length d) <= bytesReceived_ b'.
Proof.
  induction choices as [| choice choices IH]; intros fuel b wire nops Hb Hsz Hn Hw E Hset Hf Hc; cbn [await];
    (destruct (await_case b wire nops Hb Hsz Hn E Hset) as [(-> & -> & Hall) | (-> & Hne & Hroom)]; cbn [mbind res_bind];
     [exists b, wire; by split_and! |]).
  { destruct wire; [done | cbn in Hc; lia]. }
  destruct (readFrom_spec choice b wire Hb Hroom Hne Hw) as (bs & b1 & wire1 & Er & Ew & _ & Hlt & Hb1 & Hs1 & Ec).
  assert (content b1 ++ wire1 = stream nops) as E1 by (by rewrite Ec, <- app_assoc, <- Ew).
  assert (Forall is_byte wire1) as Hw1 by (rewrite Ew in Hw; by apply Forall_app in Hw as [_ ?]).
  destruct wire as [| w wire0]; [done |]. rewrite Er. cbn [mbind res_bind].
  destruct (stream_first nops Hn) as [Hs [y Ey]]. set (first := default (ty, d) (head nops)) in *. rewrite <- Hsz, <- Hs1 in Hs.
  rewrite (first_fits b1 Hb1 wire1 first.1 first.2 y); [| by destruct first | by rewrite E1]. cbn [mbind res_bind].
  destruct (skip_nops_spec nops fuel b1 wire1 Hb1) as (b2 & nops2 & -> & Hb2 & Hs2 & Hn2 & Hle & E2 & Hset2); [congruence | done.. |].
  cbn [mbind res_bind]. apply (IH fuel b2 wire1 nops2); try done; cbn [length] in *; lia.
Qed.

(** C26: The reply of a server that may send keep-alive messages before it: however the bytes
    arrive, once there is a round for every byte the data of the reply are returned when it has
    the expected type, and an exception is thrown when it has another. *)
Theorem reply_is_received nops expectedType choices fuel
    (Hnops : Forall (keep_alive N) nops) (Hfuel : (length nops < fuel)%nat)
    (Hchoices : (length (stream nops) <= length choices)%nat) :
  (expectedType = ty → ∃ wire', receive N choices fuel expectedType true (stream nops) = Ok (Some (d, wire'))) ∧
  (expectedType ≠ ty → receive N choices fuel expectedType true (stream nops) = Throw).
Proof.
  destruct (new_wf N HN) as (Hb & Hcont & Hsz).
  assert (Forall is_byte (stream nops)) as Hw.
  { unfold stream. unfold kMaxDeserializedBytesCount in HN. rewrite app_assoc, Forall_app. split; [| done].
    rewrite <- (app_nil_r (Packet.packet ty d)). change (Packet.packet ty d ++ []) with (packets [(ty, d)]).
    rewrite <- packets_app. apply (packets_bytes (Z.of_nat N - 8)); [lia |]. apply Forall_app. split; [| by constructor].
    eapply Forall_impl; [exact Hnops |]. by intros p [_ ?]. }
  destruct (await_spec choices fuel (new N) (stream nops) nops) as (b & wire & E & Hb' & Hs' & Est & Hall); try done.
  { left. cbn [new bytesReceived_]. lia. }
  pose proof Hd as Hd'. rewrite <- Hs' in Hd'. change (stream []) with (Packet.packet ty d ++ rest) in Est.
  unfold receive. rewrite E. cbn [mbind res_bind]. rewrite (first_header b Hb' wire ty d rest Hd' Est) by lia.
  cbn [mbind res_bind Packet.type Packet.length]. split.
  - intros ->. rewrite Z.eqb_refl. rewrite (first_data b Hb' wire ty d rest Est) by done. by exists wire.
  - intros Hne. rewrite (proj2 (Z.eqb_neq _ _)); [done | congruence].
Qed.
End reply.

(** ** Limits of the buffer *)
Section limits.
Import ReceiveBuffer Client.

(** A first read of at least [k] bytes. *)
Lemma first_read N k choice wire :
  8 <= Z.of_nat N <= kMaxDeserializedBytesCount → Forall is_byte wire →
  (k ≤ S choice)%nat → (k ≤ N)%nat → (0 < k ≤ length wire)%nat →
  ∃ b wire', readFrom choice (new N) wire = Ok (b, wire') ∧ buffer_wf b ∧ size b = Z.of_nat N ∧ content b ++ wire' = wire ∧
    Z.of_nat k <= bytesReceived_ b ∧ wire' = drop (S choice `min` N) wire.
Proof.
  intros HN Hw Hc HkN Hk. destruct (new_wf N HN) as (Hb & Hcont & Hsz).
  destruct (readFrom_spec choice (new N) wire Hb) as (bs & b & wire' & E & Ew & Hne & Hlt & Hb' & Hs' & Ec); [| | done |].
  { rewrite Hsz. cbn [new bytesReceived_]. lia. }
  { intros ->. cbn in Hk. lia. }
  pose proof (readFrom_wire _ _ _ _ _ E) as Ewire. cbn [new bytesReceived_] in Ewire. rewrite Z.sub_0_r in Ewire.
  change (mk (replicate N 0) 0) with (new N) in Ewire. rewrite Hsz, Nat2Z.id in Ewire.
  exists b, wire'. rewrite Hcont in Ec. cbn [app] in Ec. split_and!; try done; [congruence | by rewrite Ec, <- Ew |].
  pose proof (content_length b Hb') as Hl. rewrite Ec in Hl.
  pose proof (f_equal length Ew) as El. rewrite length_app in El. pose proof (f_equal length Ewire) as El'. rewrite length_drop in El'. lia.
Qed.

(** The length of a message is added to the size of the header in 32 bits: a keep-alive
    message that announces 2^32 - 8 bytes counts as received, is not too big, and is never
    removed.  The client does not come out of its loop. *)
Theorem wrapped_length_hangs_client N choice choices fuel expectedType rest
    (HN : 8 <= Z.of_nat N <= kMaxDeserializedBytesCount) (Hrest : Forall is_byte rest) (Hchoice : (7 <= choice)%nat) :
  receive N (choice :: choices) fuel expectedType true
    (serialize Packet.header_f (Packet.mk_header ANTOAN_NOP (2 ^ 32 - 8)) ++ rest) = Ok None.
Proof.
  set (h := Packet.mk_header ANTOAN_NOP (2 ^ 32 - 8)). assert (valid Packet.header_f h) as Hv by (by vm_compute).
  set (wire := serialize Packet.header_f h ++ rest).
  assert (Forall is_byte wire) as Hw by (apply Forall_app; split; [by apply law_bytes | done]).
  destruct (first_read N 8 choice wire HN Hw) as (b & wire' & E & Hb & Hs & Ec & H8 & _); [lia | lia | unfold wire; rewrite length_app, Packet.header_bytes; lia |].
  pose proof (header_read b wire' h rest Hb Ec Hv H8) as Eh.
  assert (hasMessageData b = Ok true) as Ehas.
  { unfold hasMessageData, hasMessageHeader, Packet.kSize. rewrite (proj2 (Z.leb_le _ _)) by done. rewrite Eh. cbn [mbind res_bind].
    unfold h. cbn [Packet.length]. f_equal. apply Z.leb_le. change (u32 (8 + (2 ^ 32 - 8))) with 0. lia. }
  assert (isMessageTooBig b = Ok false) as Ebig.
  { unfold isMessageTooBig, hasMessageHeader, Packet.kSize. rewrite (proj2 (Z.leb_le _ _)) by done. rewrite Eh. cbn [mbind res_bind].
    unfold h. cbn [Packet.length]. f_equal. apply Z.ltb_ge. change (u32 (8 + (2 ^ 32 - 8))) with 0. lia. }
  assert (removeMessage b = Ok b) as Erm.
  { unfold removeMessage. rewrite Ehas. cbn [mbind res_bind assertion]. rewrite Eh. cbn [mbind res_bind]. unfold h. cbn [Packet.length].
    change (u32 (Packet.kSize + (2 ^ 32 - 8))) with 0. rewrite Z.sub_0_r. change (Z.to_nat 0) with 0%nat. rewrite drop_0.
    pose proof Hb as [Hr Hsz _]. unfold size, kMaxDeserializedBytesCount in *. rewrite wrapu_small by lia.
    rewrite (proj2 (Z.ltb_lt _ _)) by lia. rewrite length_take, Nat.min_l by lia. rewrite take_drop. by destruct b. }
  assert (skip_nops fuel true b = Ok None) as Eskip.
  { clear -Ehas Eh Erm. induction fuel as [| fuel IH]; [done |]. cbn [skip_nops]. rewrite Ehas. cbn [mbind res_bind andb].
    rewrite Eh. cbn [mbind res_bind]. unfold h. cbn [Packet.type]. rewrite Z.eqb_refl, Erm. exact IH. }
  unfold receive. cbn [await].
  assert (hasMessageData (new N) = Ok false) as -> by done. cbn [mbind res_bind].
  destruct wire as [| w wire0] eqn:Ewire; [done |]. rewrite E. cbn [mbind res_bind]. rewrite Ebig. cbn [mbind res_bind].
  rewrite Eskip. done.
Qed.

(** Bytes that arrive together with a reply are read into a buffer of the call and lost with
    it: nothing is left for the next call. *)
Theorem bytes_behind_reply_are_lost N choice ty d rest fuel
    (HN : 8 <= Z.of_nat N <= kMaxDeserializedBytesCount) (Hd : sendable (Z.of_nat N - 8) (ty, d)) (Hty : ty ≠ ANTOAN_NOP)
    (Hrest : Forall is_byte rest) (Hfits : (length (Packet.packet ty d ++ rest) <= N)%nat)
    (Hchoice : (length (Packet.packet ty d ++ rest) <= S choice)%nat) (Hfuel : (0 < fuel)%nat) :
  receive N [choice] fuel ty true (Packet.packet ty d ++ rest) = Ok (Some (d, [])).
Proof.
  set (wire := Packet.packet ty d ++ rest) in *.
  assert (length wire ≠ 0)%nat as Hne by (unfold wire, Packet.packet; rewrite !length_app, Packet.header_bytes; lia).
  assert (Forall is_byte wire) as Hw.
  { apply Forall_app. split; [| done]. rewrite <- (app_nil_r (Packet.packet ty d)).
    apply (packets_bytes (Z.of_nat N - 8) [(ty, d)]); [unfold kMaxDeserializedBytesCount in HN; lia | by constructor]. }
  destruct (first_read N (length wire) choice wire HN Hw) as (b & wire' & E & Hb & Hs & Ec & Hall & Ew); [done | done | lia |].
  assert (wire' = []) as -> by (rewrite Ew; apply drop_ge; lia).
  pose proof Hd as Hd'. rewrite <- Hs in Hd'.
  assert (8 + Z.of_nat (length d) <= bytesReceived_ b) as Hdata.
  { unfold wire, Packet.packet in Hall. rewrite !length_app, Packet.header_bytes in Hall. lia. }
  pose proof (first_has_data b Hb [] ty d rest Hd' Ec) as Ehas. rewrite (proj2 (Z.leb_le _ _)) in Ehas by done.
  pose proof (first_header b Hb [] ty d rest Hd' Ec ltac:(lia)) as Eh.
  pose proof (first_fits b Hb [] ty d rest Hd' Ec) as Efits. pose proof (first_data b Hb [] ty d rest Ec Hdata) as Edata.
  unfold receive. cbn [await]. assert (hasMessageData (new N) = Ok false) as -> by done. cbn [mbind res_bind].
  destruct wire as [| w wire0] eqn:Ewire; [done |]. rewrite E. cbn [mbind res_bind].
  rewrite Efits. cbn [mbind res_bind]. destruct fuel as [| fuel]; [lia |].
  cbn [skip_nops]. rewrite Ehas. cbn [mbind res_bind andb]. rewrite Eh. cbn [mbind res_bind Packet.type].
  rewrite (proj2 (Z.eqb_neq _ _)) by done. cbn [mbind res_bind]. rewrite Ehas. cbn [mbind res_bind].
  rewrite Eh. cbn [mbind res_bind Packet.type Packet.length]. rewrite Z.eqb_refl.
  rewrite Edata. done.
Qed.

(** [receiveData] does not ask whether a message is too big: one that announces more than fits
    fills the buffer, and the next read aborts the client. *)
Theorem oversized_status_aborts_client h body choice choice' fuel fuel' unconfirmed
    (Hv : valid Packet.header_f h) (Hbig : 1024 < 8 + Packet.length h < 2 ^ 32) (Hbody : Forall is_byte body)
    (Hlong : (1016 < length body)%nat) (Hchoice : (1023 <= choice)%nat) (Hfuel : (0 < fuel)%nat) :
  ∃ e wire, receiveData choice fuel (mk_exec (new kReceiveBufferSize) unconfirmed) (serialize Packet.header_f h ++ body) =
      Ok (Some (e, []), wire) ∧ wire ≠ [] ∧ receiveData choice' fuel' e wire = Abort.
Proof.
  set (wire := serialize Packet.header_f h ++ body).
  assert (length wire = 8 + length body)%nat as Hl by (unfold wire; by rewrite length_app, Packet.header_bytes).
  assert (Forall is_byte wire) as Hw by (apply Forall_app; split; [by apply law_bytes | done]).
  destruct (first_read kReceiveBufferSize 1024 choice wire) as (b & wire' & E & Hb & Hs & Ec & Hall & Ew);
    [by vm_compute | done | lia | unfold kReceiveBufferSize; lia | lia |].
  assert (bytesReceived_ b = 1024) as Hfull.
  { pose proof (bw_received _ Hb). unfold kReceiveBufferSize in Hs. lia. }
  assert (hasMessageData b = Ok false) as Ehas.
  { unfold hasMessageData, hasMessageHeader, Packet.kSize. rewrite (proj2 (Z.leb_le _ _)) by lia.
    rewrite (header_read b wire' h body Hb Ec Hv) by lia. cbn [mbind res_bind]. f_equal. rewrite wrapu_small by lia. apply Z.leb_gt. lia. }
  assert (length wire' < length wire ∧ wire' ≠ [])%nat as [Hlt Hne].
  { assert (length wire' = length wire - 1024)%nat as E'.
    { rewrite Ew, length_drop. f_equal. unfold kReceiveBufferSize. lia. }
    split; [lia |]. intros ->. cbn in E'. lia. }
  exists (mk_exec b unconfirmed), wire'. split_and!; [| done |].
  - unfold receiveData. cbn [receiveBuffer_ unconfirmedPackets_]. rewrite E. cbn [mbind res_bind].
    rewrite (proj2 (Nat.eqb_neq _ _)) by lia. destruct fuel as [| fuel]; [lia |]. cbn [read_statuses receiveBuffer_].
    by rewrite Ehas.
  - unfold receiveData, readFrom. cbn [receiveBuffer_]. rewrite Hfull, Hs. done.
Qed.
End limits.

(** ** Witnesses *)
Section witnesses.
Import ReceiveBuffer Client.

Lemma bytes_sendable ty bs : (0 <= ty < 2 ^ 32) → Forall is_byte bs → (length bs <= 24)%nat → sendable (Z.of_nat 32 - 8) (ty, bs).
Proof. intros Ht Hb Hl. split; [done |]. split; [cbn; lia | done]. Qed.

(** A witness of [reply_is_received]: a buffer of 32 bytes, reads of one byte and a
    keep-alive message before the reply. *)
Lemma reply_is_received_witness :
  ∃ wire', receive 32 (replicate 40 0%nat) 2 1500 true (stream 1500 [1; 2; 3] [9] [(0, [])]) = Ok (Some ([1; 2; 3], wire')).
Proof.
  apply (reply_is_received 32 ltac:(vm_compute; intuition congruence) 1500 [1; 2; 3] [9]
    (bytes_sendable 1500 [1; 2; 3] ltac:(lia) ltac:(repeat constructor; vm_compute; congruence) ltac:(cbn; lia))
    ltac:(vm_compute; congruence) ltac:(repeat constructor; vm_compute; congruence) [(0, [])] 1500 (replicate 40 0%nat) 2).
  - repeat constructor; vm_compute; congruence.
  - cbn; lia.
  - vm_compute. lia.
  - reflexivity.
Defined.

(** A witness of [wrapped_length_hangs_client]. *)
Lemma wrapped_length_hangs_client_witness : receive 16 [10%nat] 1000 1500 true [0; 0; 0; 0; 255; 255; 255; 248; 1] = Ok None.
Proof.
  apply (wrapped_length_hangs_client 16 10 [] 1000 1500 [1]); [vm_compute; intuition congruence | | lia].
  repeat constructor; vm_compute; congruence.
Defined.

(** A witness of [bytes_behind_reply_are_lost]: a second message of eight bytes. *)
Lemma bytes_behind_reply_are_lost_witness :
  receive 32 [30%nat] 1 1500 true (Packet.packet 1500 [1; 2; 3] ++ Packet.packet 1501 []) = Ok (Some ([1; 2; 3], [])).
Proof.
  apply (bytes_behind_reply_are_lost 32 30 1500 [1; 2; 3] (Packet.packet 1501 []) 1).
  - vm_compute; intuition congruence.
  - apply bytes_sendable; [lia | repeat constructor; vm_compute; congruence | cbn; lia].
  - vm_compute; congruence.
  - repeat constructor; vm_compute; congruence.
  - vm_compute; lia.
  - vm_compute; lia.
  - lia.
Defined.

(** A witness of [oversized_status_aborts_client]: a status message of 2000 bytes. *)
Lemma oversized_status_aborts_client_witness :
  ∃ e wire, receiveData 2000 1 (mk_exec (new kReceiveBufferSize) 1)
      (serialize Packet.header_f (Packet.mk_header 1211 2000) ++ replicate 1500 0) = Ok (Some (e, []), wire) ∧
    wire ≠ [] ∧ receiveData 0 1 e wire = Abort.
Proof.
  apply (oversized_status_aborts_client (Packet.mk_header 1211 2000) (replicate 1500 0) 2000 0 1 1 1).
  - vm_compute; intuition congruence.
  - cbn [Packet.length]; lia.
  - by apply Forall_replicate.
  - rewrite length_replicate; lia.
  - lia.
  - lia.
Defined.
End witnesses.
