(* ===== verification/Crc.v ===== *)
(** * Checksums

    src/common/crc.cc, as built without crcutil on a little-endian machine: the tables, the
    loop over words and bytes, the combination of checksums, and the macros of crc.h.  The
    checksum is that of the bit-serial definition ([mycrc32_exact]), and the combination of
    the checksums of two blocks is the checksum of their concatenation ([combine_exact]). *)

From Stdlib Require Import NArith Strings.Byte.
From S2P Require Import Prelude.
#[local] Open Scope N_scope.

(** ** The tables *)

Definition CRC_POLY : N := 0xEDB88320.
Definition all_ones : N := 0xFFFFFFFF.

Definition shift1 (c : N) : N := if N.odd c then N.lxor CRC_POLY (N.shiftr c 1) else N.shiftr c 1.

(** Entries of a table. *)
Definition entry (t : list N) (i : N) : N := nth (N.to_nat i) t 0.

Definition crc_table_0 : list N :=
  (fun i => shift1 (shift1 (shift1 (shift1 (shift1 (shift1 (shift1 (shift1 (N.of_nat i))))))))) <$> seq 0 256.

Definition next_entry (c : N) : N := N.lxor (entry crc_table_0 (N.land c 0xff)) (N.shiftr c 8).

Definition crc_table_1 : list N := next_entry <$> crc_table_0.
Definition crc_table_2 : list N := next_entry <$> crc_table_1.
Definition crc_table_3 : list N := next_entry <$> crc_table_2.

(** ** mycrc32 *)

Definition CRC_REORDER (crc : N) : N := N.lxor crc all_ones.

Definition CRC_ONE_BYTE (crc : N) (b : byte) : N :=
  N.lxor (entry crc_table_0 (N.land (N.lxor crc (to_N b)) 0xff)) (N.shiftr crc 8).

(** [*block4] on a little-endian machine. *)
Definition word (b0 b1 b2 b3 : byte) : N :=
  N.lxor (to_N b0) (N.lxor (N.shiftl (to_N b1) 8) (N.lxor (N.shiftl (to_N b2) 16) (N.shiftl (to_N b3) 24))).

Definition CRC_FOUR_BYTES (crc : N) (w : N) : N :=
  let crc := N.lxor crc w in
  N.lxor (N.lxor (N.lxor (entry crc_table_3 (N.land crc 0xff)) (entry crc_table_2 (N.land (N.shiftr crc 8) 0xff)))
    (entry crc_table_1 (N.land (N.shiftr crc 16) 0xff))) (entry crc_table_0 (N.shiftr crc 24)).

(** Single bytes up to an aligned address. *)
Fixpoint align_loop (address : N) (crc : N) (block : list byte) : N * list byte :=
  match block with
  | [] => (crc, [])
  | b :: rest => if N.land address 3 =? 0 then (crc, block) else align_loop (address + 1) (CRC_ONE_BYTE crc b) rest
  end.

(** [n] words of the block, which has them. *)
Fixpoint words (n : nat) (crc : N) (block : list byte) : N * list byte :=
  match n, block with
  | S n, b0 :: b1 :: b2 :: b3 :: rest => words n (CRC_FOUR_BYTES crc (word b0 b1 b2 b3)) rest
  | _, _ => (crc, block)
  end.

Fixpoint words_loop (fuel unroll : nat) (crc : N) (block : list byte) : res (N * list byte) :=
  match fuel with
  | O => Stuck
  | S fuel =>
      if (4 * unroll <=? length block)%nat then
        let '(crc, block) := words unroll crc block in words_loop fuel unroll crc block
      else Ok (crc, block)
  end.

(** [leng] is the length of the list. *)
Definition mycrc32 (crc address : N) (block : list byte) : res N :=
  let '(crc, block) := align_loop address (CRC_REORDER crc) block in
  '(crc, block) ← words_loop (S (length block)) 8 crc block;
  '(crc, block) ← words_loop (S (length block)) 1 crc block;
  Ok (CRC_REORDER (foldl CRC_ONE_BYTE crc block)).

(** ** mycrc32_combine *)

(** The sum of the columns chosen by the bits of [v]. *)
Fixpoint square_row (m : list N) (s v : N) : N :=
  match m with
  | [] => s
  | x :: m => if v =? 0 then s else square_row m (if N.odd v then N.lxor s x else s) (N.shiftr v 1)
  end.

Definition crc_matrix_square (m : list N) : list N := square_row m 0 <$> m.

Definition m1_start : list N := CRC_POLY :: ((fun i => N.shiftl 1 (N.of_nat i)) <$> seq 0 31).

(** The matrices [mc] of the iterations of the outer loop. *)
Fixpoint combine_matrices (count : nat) (m : list N) : list (list N) :=
  match count with
  | O => []
  | S count => let m := crc_matrix_square m in m :: combine_matrices count m
  end.

Definition combine_matrix_list : list (list N) := combine_matrices 32 (crc_matrix_square (crc_matrix_square m1_start)).

(** [crc_combine_table[i][j][k]] *)
Definition crc_combine_table : list (list (list N)) :=
  (fun mc => (fun j => (fun k => square_row (drop (j * 8) mc) 0 (N.of_nat k)) <$> seq 0 256) <$> seq 0 4) <$> combine_matrix_list.

Definition combine_entry (i j : nat) (k : N) : N := entry (nth j (nth i crc_combine_table []) []) k.

Fixpoint combine_loop (fuel i : nat) (crc1 leng2 : N) : res N :=
  match fuel with
  | O => Stuck
  | S fuel =>
      if leng2 =? 0 then Ok crc1
      else
        let crc1 :=
          if N.odd leng2 then
            N.lxor (N.lxor (N.lxor (combine_entry i 3 (N.shiftr crc1 24)) (combine_entry i 2 (N.land (N.shiftr crc1 16) 0xff)))
              (combine_entry i 1 (N.land (N.shiftr crc1 8) 0xff))) (combine_entry i 0 (N.land crc1 0xff))
          else crc1 in
        combine_loop fuel (S i) crc1 (N.shiftr leng2 1)
  end.

(** [leng2] has 32 bits. *)
Definition mycrc32_combine (crc1 crc2 leng2 : N) : res N :=
  crc1 ← combine_loop 33 0 crc1 leng2; Ok (N.lxor crc1 crc2).

Definition mycrc32_zeroblock (crc zeros : N) : res N := mycrc32_combine (N.lxor crc all_ones) all_ones zeros.

Definition mycrc32_zeroexpanded (crc address : N) (block : list byte) (zeros : N) : res N :=
  crc ← mycrc32 crc address block; mycrc32_zeroblock crc zeros.

Definition mycrc32_xorblocks (crc crcblock1 crcblock2 leng : N) : res N :=
  z ← mycrc32_zeroblock crc leng; Ok (N.lxor (N.lxor crcblock1 crcblock2) z).

(** A new checksum for a block of zeros whose stored checksum is 0. *)
Definition recompute_crc_if_block_empty (block : list byte) (crc : N) : res N :=
  if crc =? 0 then
    match block with
    | [] => Stuck
    | b :: rest =>
        if Byte.eqb b x00 && forallb (fun '(x, y) => Byte.eqb x y) (zip block rest)
        then mycrc32_zeroblock 0 (N.of_nat (length block)) else Ok crc
    end
  else Ok crc.

(** ** The bit-serial definition *)

Definition shift (n : nat) (c : N) : N := Nat.iter n shift1 c.
Definition crc_byte (c : N) (b : byte) : N := shift 8 (N.lxor c (to_N b)).
Definition crc_bytes (c : N) (block : list byte) : N := foldl crc_byte c block.

(** The checksum of a block, continued from the checksum of what precedes it. *)
Definition crc_of (crc : N) (block : list byte) : N := CRC_REORDER (crc_bytes (CRC_REORDER crc) block).

(** *** Linearity *)

Lemma shift1_lxor a b : shift1 (N.lxor a b) = N.lxor (shift1 a) (shift1 b).
Proof.
  unfold shift1. rewrite <- !N.bit0_odd, N.lxor_spec, N.shiftr_lxor. set (x := N.shiftr a 1). set (y := N.shiftr b 1).
  destruct (N.testbit a 0), (N.testbit b 0); cbn [xorb].
  - rewrite (N.lxor_comm CRC_POLY x), N.lxor_assoc, <- (N.lxor_assoc CRC_POLY), N.lxor_nilpotent, N.lxor_0_l. done.
  - by rewrite N.lxor_assoc.
  - rewrite <- !N.lxor_assoc. by rewrite (N.lxor_comm CRC_POLY x).
  - done.
Qed.

Lemma shift_S n c : shift (S n) c = shift1 (shift n c).
Proof. done. Qed.

Lemma shift_lxor n a b : shift n (N.lxor a b) = N.lxor (shift n a) (shift n b).
Proof. induction n as [| n IH]; [done |]. by rewrite !shift_S, IH, shift1_lxor. Qed.

Lemma shift_0 n : shift n 0 = 0.
Proof. induction n as [| n IH]; [done |]. by rewrite shift_S, IH. Qed.

Lemma shift_add n m c : shift (n + m) c = shift n (shift m c).
Proof. induction n as [| n IH]; [done |]. cbn [Nat.add]. by rewrite !shift_S, IH. Qed.

Lemma shift1_double c : shift1 (N.shiftl c 1) = c.
Proof.
  unfold shift1. rewrite <- N.bit0_odd, N.shiftl_spec_low by lia. by rewrite N.shiftr_shiftl_l, N.shiftl_0_r by lia.
Qed.

(** Shifting takes the low bits of a shifted number one after the other. *)
Lemma shift_shiftl n m c : shift n (N.shiftl c (N.of_nat (n + m))) = N.shiftl c (N.of_nat m).
Proof.
  revert m. induction n as [| n IH]; intros m; [done |]. rewrite shift_S. replace (S n + m)%nat with (n + S m)%nat by lia. rewrite IH.
  replace (N.of_nat (S m)) with (N.of_nat m + 1) by lia. by rewrite <- N.shiftl_shiftl, shift1_double.
Qed.

Lemma shift_exact n c : shift n (N.shiftl c (N.of_nat n)) = c.
Proof. rewrite <- (Nat.add_0_r n) at 2. rewrite shift_shiftl. apply N.shiftl_0_r. Qed.

(** Only the lemmas above look into a sequence of shifts. *)
#[local] Opaque shift.

(** *** Bytes of a word *)

Lemma low_high c n : c = N.lxor (N.land c (N.ones n)) (N.shiftl (N.shiftr c n) n).
Proof.
  apply N.bits_inj. intros i. rewrite N.lxor_spec, N.land_spec. destruct (N.ltb_spec i n).
  - rewrite N.ones_spec_low, N.shiftl_spec_low by done. by rewrite andb_true_r, xorb_false_r.
  - rewrite N.ones_spec_high, N.shiftl_spec_high, N.shiftr_spec by lia. rewrite andb_false_r, xorb_false_l. f_equal. lia.
Qed.

Lemma shift_byte c : shift 8 c = N.lxor (shift 8 (N.land c 0xff)) (N.shiftr c 8).
Proof. rewrite (low_high c 8) at 1. change (N.ones 8) with 0xff. rewrite shift_lxor. f_equal. apply (shift_exact 8). Qed.

Lemma land_byte c : N.land c 0xff < 256.
Proof. change 0xff with (N.ones 8). rewrite N.land_ones. by apply N.mod_lt. Qed.

Lemma to_N_byte b : to_N b < 256.
Proof. apply N.le_lt_trans with 255; [| lia]. apply to_N_bounded. Qed.

(** A word is the sum of its bytes. *)
Lemma bytes_of_word c : c = N.lxor (N.lxor (N.lxor (N.land c 0xff) (N.shiftl (N.land (N.shiftr c 8) 0xff) 8))
  (N.shiftl (N.land (N.shiftr c 16) 0xff) 16)) (N.shiftl (N.shiftr c 24) 24).
Proof.
  rewrite (low_high c 8) at 1. rewrite (low_high (N.shiftr c 8) 8) at 1. rewrite (low_high (N.shiftr (N.shiftr c 8) 8) 8) at 1.
  rewrite !N.shiftl_lxor, !N.shiftl_shiftl, !N.shiftr_shiftr, !N.lxor_assoc. done.
Qed.

(** *** The tables *)

Lemma entry_fmap (f : nat → N) n k : k < N.of_nat n → entry (f <$> seq 0 n) k = f (N.to_nat k).
Proof. intros Hk. unfold entry. rewrite nth_lookup, list_lookup_fmap, lookup_seq_lt by lia. done. Qed.

Lemma table_0_entry k : k < 256 → entry crc_table_0 k = shift 8 k.
Proof. intros Hk. unfold crc_table_0. rewrite (entry_fmap _ 256) by lia. by rewrite N2Nat.id. Qed.

Lemma next_entry_shift c : next_entry c = shift 8 c.
Proof. unfold next_entry. rewrite table_0_entry by apply land_byte. by rewrite <- shift_byte. Qed.

Lemma next_table_entry t n k : (∀ k, k < 256 → entry t k = shift n k) → length t = 256%nat → k < 256 → entry (next_entry <$> t) k = shift (8 + n) k.
Proof.
  intros Ht Hl Hk. rewrite shift_add, <- Ht by done. unfold entry. rewrite !nth_lookup, list_lookup_fmap.
  destruct (lookup_lt_is_Some_2 t (N.to_nat k)) as [x ->]; [lia |]. apply next_entry_shift.
Qed.

Lemma table_1_entry k : k < 256 → entry crc_table_1 k = shift 16 k.
Proof. intros Hk. by apply (next_table_entry crc_table_0 8); [apply table_0_entry | |]. Qed.

Lemma table_2_entry k : k < 256 → entry crc_table_2 k = shift 24 k.
Proof. intros Hk. by apply (next_table_entry crc_table_1 16); [apply table_1_entry | |]. Qed.

Lemma table_3_entry k : k < 256 → entry crc_table_3 k = shift 32 k.
Proof. intros Hk. by apply (next_table_entry crc_table_2 24); [apply table_2_entry | |]. Qed.

(** *** 32 bits *)

Definition fits (c : N) : Prop := N.shiftr c 32 = 0.

Lemma fits_lxor a b : fits a → fits b → fits (N.lxor a b).
Proof. unfold fits. intros Ha Hb. by rewrite N.shiftr_lxor, Ha, Hb. Qed.

Lemma fits_lt c : fits c ↔ c < 2 ^ 32.
Proof. unfold fits. rewrite N.shiftr_div_pow2. apply N.div_small_iff. done. Qed.

Lemma fits_shift n c : fits c → fits (shift n c).
Proof.
  intros Hc. induction n as [| n IH]; [done |]. rewrite shift_S. assert (fits (N.shiftr (shift n c) 1)) as H1.
  { unfold fits in *. by rewrite N.shiftr_shiftr, N.add_comm, <- N.shiftr_shiftr, IH. }
  unfold shift1. destruct (N.odd _); [apply fits_lxor; done | done].
Qed.

Lemma fits_top c : fits c → N.shiftr c 24 < 256.
Proof. intros Hc%fits_lt. rewrite N.shiftr_div_pow2. apply N.Div0.div_lt_upper_bound. change (2 ^ 24 * 256) with (2 ^ 32). done. Qed.

Lemma fits_byte b : fits (to_N b).
Proof. apply fits_lt. pose proof (to_N_byte b). lia. Qed.

Lemma fits_shifted_byte b n : n <= 24 → fits (N.shiftl (to_N b) n).
Proof.
  intros Hn. apply fits_lt. rewrite N.shiftl_mul_pow2. pose proof (to_N_byte b). pose proof (N.pow_le_mono_r 2 n 24 ltac:(lia) Hn).
  change (2 ^ 32) with (256 * 2 ^ 24). nia.
Qed.

Lemma fits_word b0 b1 b2 b3 : fits (word b0 b1 b2 b3).
Proof.
  unfold word. apply fits_lxor; [apply fits_byte |]. apply fits_lxor; [by apply fits_shifted_byte |]. apply fits_lxor; by apply fits_shifted_byte.
Qed.

Lemma fits_crc_byte c b : fits c → fits (crc_byte c b).
Proof. intros Hc. apply fits_shift, fits_lxor; [done | apply fits_byte]. Qed.

Lemma fits_crc_bytes block : ∀ c, fits c → fits (crc_bytes c block).
Proof. induction block as [| b block IH]; intros c Hc; [done |]. by apply IH, fits_crc_byte. Qed.

Lemma fits_reorder c : fits c → fits (CRC_REORDER c).
Proof. intros Hc. by apply fits_lxor. Qed.

(** ** mycrc32 *)

Lemma one_byte_exact crc b : CRC_ONE_BYTE crc b = crc_byte crc b.
Proof.
  unfold CRC_ONE_BYTE, crc_byte. rewrite shift_byte, table_0_entry by apply land_byte. f_equal. rewrite N.shiftr_lxor.
  rewrite (N.shiftr_eq_0 (to_N b)); [by rewrite N.lxor_0_r |]. pose proof (to_N_byte b). destruct (N.eq_dec (to_N b) 0) as [-> |]; [done |].
  apply N.log2_lt_pow2; lia.
Qed.

Lemma shift_32_8 c : shift 32 (N.shiftl c 8) = shift 24 c.
Proof. change 32%nat with (24 + 8)%nat. by rewrite (shift_add 24 8), (shift_exact 8). Qed.

Lemma shift_32_16 c : shift 32 (N.shiftl c 16) = shift 16 c.
Proof. change 32%nat with (16 + 16)%nat. by rewrite (shift_add 16 16), (shift_exact 16). Qed.

Lemma shift_32_24 c : shift 32 (N.shiftl c 24) = shift 8 c.
Proof. change 32%nat with (8 + 24)%nat. by rewrite (shift_add 8 24), (shift_exact 24). Qed.

Lemma four_bytes_shift crc w : fits crc → fits w → CRC_FOUR_BYTES crc w = shift 32 (N.lxor crc w).
Proof.
  intros Hc Hw. unfold CRC_FOUR_BYTES. set (c := N.lxor crc w). assert (fits c) as Hfit by (by apply fits_lxor).
  rewrite table_3_entry, table_2_entry, table_1_entry, table_0_entry by (apply land_byte || by apply fits_top).
  rewrite (bytes_of_word c) at 5. by rewrite !shift_lxor, shift_32_8, shift_32_16, shift_32_24.
Qed.

Lemma four_bytes_exact crc b0 b1 b2 b3 : fits crc → CRC_FOUR_BYTES crc (word b0 b1 b2 b3) = crc_bytes crc [b0; b1; b2; b3].
Proof.
  intros Hc. rewrite four_bytes_shift by (done || apply fits_word). unfold crc_bytes, word. cbn [foldl]. unfold crc_byte.
  rewrite !shift_lxor, <- !shift_add, !N.lxor_assoc. cbn [Nat.add]. by rewrite shift_32_8, shift_32_16, shift_32_24.
Qed.

Lemma crc_bytes_app c x y : crc_bytes c (x ++ y) = crc_bytes (crc_bytes c x) y.
Proof. apply foldl_app. Qed.

Lemma align_loop_exact block : ∀ address crc, ∃ done rest, block = done ++ rest ∧ align_loop address crc block = (crc_bytes crc done, rest).
Proof.
  induction block as [| b block IH]; intros address crc; cbn [align_loop]; [by exists [], [] |]. destruct (_ =? 0); [by exists [], (b :: block) |].
  destruct (IH (address + 1) (CRC_ONE_BYTE crc b)) as (d & r & -> & ->). exists (b :: d), r. split; [done |]. by rewrite one_byte_exact.
Qed.

Lemma words_exact n : ∀ crc block, fits crc → (4 * n <= length block)%nat →
  ∃ done rest, block = done ++ rest ∧ words n crc block = (crc_bytes crc done, rest) ∧ length done = (4 * n)%nat.
Proof.
  induction n as [| n IH]; intros crc block Hc Hl; [by exists [], block |].
  destruct block as [| b0 [| b1 [| b2 [| b3 block]]]]; [cbn in Hl; lia.. |]. cbn [words]. rewrite four_bytes_exact by done.
  destruct (IH (crc_bytes crc [b0; b1; b2; b3]) block) as (d & r & -> & -> & Hd); [by apply fits_crc_bytes | cbn in Hl; lia |].
  exists ([b0; b1; b2; b3] ++ d), r. split; [done |]. split; [by rewrite crc_bytes_app |]. cbn; lia.
Qed.

Lemma words_loop_exact unroll : (0 < unroll)%nat → ∀ fuel crc block, fits crc → (length block < fuel)%nat →
  ∃ done rest, block = done ++ rest ∧ words_loop fuel unroll crc block = Ok (crc_bytes crc done, rest).
Proof.
  intros Hu. induction fuel as [| fuel IH]; intros crc block Hc Hl; [lia |]. cbn [words_loop]. destruct (Nat.leb_spec (4 * unroll) (length block)); [| by exists [], block].
  destruct (words_exact unroll crc block Hc ltac:(done)) as (d & r & -> & -> & Hd). rewrite length_app in Hl.
  destruct (IH (crc_bytes crc d) r) as (d' & r' & -> & ->); [by apply fits_crc_bytes | lia |].
  exists (d ++ d'), r'. by rewrite app_assoc, crc_bytes_app.
Qed.

Lemma mycrc32_bitserial crc address block : crc < 2 ^ 32 → mycrc32 crc address block = Ok (crc_of crc block).
Proof.
  intros Hc%fits_lt. unfold mycrc32, crc_of. destruct (align_loop_exact block address (CRC_REORDER crc)) as (d1 & r1 & -> & ->).
  pose proof (fits_crc_bytes d1 _ (fits_reorder _ Hc)) as H1.
  destruct (words_loop_exact 8 ltac:(lia) (S (length r1)) _ r1 H1) as (d2 & r2 & -> & ->); [lia |]. cbn [mbind res_bind].
  destruct (words_loop_exact 1 ltac:(lia) (S (length r2)) _ r2 (fits_crc_bytes d2 _ H1)) as (d3 & r3 & -> & ->); [lia |]. cbn [mbind res_bind].
  rewrite !crc_bytes_app. do 2 f_equal. generalize (crc_bytes (crc_bytes (crc_bytes (CRC_REORDER crc) d1) d2) d3). clear.
  induction r3 as [| b r IH]; intros c; [done |]. cbn. by rewrite one_byte_exact, IH.
Qed.

(** ** mycrc32_combine *)

(** The columns of a linear map, from bit [o] on. *)
Fixpoint columns (f : N → N) (o n : nat) : list N :=
  match n with O => [] | S n => f (N.shiftl 1 (N.of_nat o)) :: columns f (S o) n end.

Lemma columns_ext f g n : ∀ o, (∀ i, (o <= i < o + n)%nat → f (N.shiftl 1 (N.of_nat i)) = g (N.shiftl 1 (N.of_nat i))) → columns f o n = columns g o n.
Proof.
  induction n as [| n IH]; intros o H; [done |]. cbn [columns]. f_equal; [apply H; lia |]. apply IH. intros i Hi. apply H. lia.
Qed.

Lemma columns_fmap (g f : N → N) n : ∀ o, g <$> columns f o n = columns (fun c => g (f c)) o n.
Proof. induction n as [| n IH]; intros o; [done |]. cbn [columns]. by rewrite fmap_cons, IH. Qed.

Lemma columns_drop f n : ∀ j o, (j <= n)%nat → drop j (columns f o n) = columns f (o + j) (n - j).
Proof.
  induction n as [| n IH]; intros [| j] o Hj; cbn [drop columns]; [by rewrite Nat.add_0_r.. | lia | by rewrite Nat.add_0_r |].
  rewrite IH by lia. f_equal. lia.
Qed.

Lemma low_bit v : N.land v 1 = if N.odd v then 1 else 0.
Proof. rewrite <- N.bit0_odd. change 1 with (N.ones 1) at 1. rewrite N.land_ones. change (2 ^ 1) with 2. rewrite <- N.bit0_mod. by destruct (N.testbit v 0). Qed.

Section columns.
Context (f : N → N) (Hf : ∀ a b, f (N.lxor a b) = N.lxor (f a) (f b)).

Lemma linear_0 : f 0 = 0.
Proof using Hf. rewrite <- (N.lxor_nilpotent 0), Hf. apply N.lxor_nilpotent. Qed.

(** The sum of the columns is the value of the map. *)
Lemma square_row_exact n : ∀ o s v, N.shiftr v (N.of_nat n) = 0 → square_row (columns f o n) s v = N.lxor s (f (N.shiftl v (N.of_nat o))).
Proof using Hf.
  induction n as [| n IH]; intros o s v Hv; cbn [square_row columns].
  - rewrite N.shiftr_0_r in Hv. subst v. by rewrite N.shiftl_0_l, linear_0, N.lxor_0_r.
  - destruct (N.eqb_spec v 0) as [-> |]; [by rewrite N.shiftl_0_l, linear_0, N.lxor_0_r |].
    rewrite IH by (rewrite N.shiftr_shiftr; by replace (1 + N.of_nat n) with (N.of_nat (S n)) by lia).
    rewrite (low_high v 1) at 3. change (N.ones 1) with 1. rewrite low_bit, N.shiftl_lxor, N.shiftl_shiftl, Hf.
    replace (1 + N.of_nat o) with (N.of_nat (S o)) by lia. destruct (N.odd v); [by rewrite N.lxor_assoc |]. by rewrite N.shiftl_0_l, linear_0, N.lxor_0_l.
Qed.
End columns.

Definition matrix_of (n : nat) : list N := columns (shift n) 0 32.

Lemma square_exact n : crc_matrix_square (matrix_of n) = matrix_of (n + n).
Proof.
  unfold crc_matrix_square, matrix_of. rewrite columns_fmap. apply columns_ext. intros i Hi.
  rewrite (square_row_exact (shift n) (shift_lxor n)).
  - by rewrite N.lxor_0_l, N.shiftl_0_r, shift_add.
  - apply fits_shift. apply fits_lt. rewrite N.shiftl_1_l. apply N.pow_lt_mono_r; lia.
Qed.

Lemma m1_start_exact : m1_start = matrix_of 1.
Proof. vm_compute. reflexivity. Qed.

Lemma combine_matrices_exact count : ∀ n i, (i < count)%nat → combine_matrices count (matrix_of n) !! i = Some (matrix_of (n * 2 ^ S i)).
Proof.
  induction count as [| count IH]; intros n i Hi; [lia |]. cbn [combine_matrices]. rewrite square_exact. destruct i as [| i].
  - change (Some (matrix_of (n + n)) = Some (matrix_of (n * 2 ^ 1))). by replace (n * 2 ^ 1)%nat with (n + n)%nat by (cbn; lia).
  - cbn [lookup list_lookup]. rewrite IH by lia. by replace ((n + n) * 2 ^ S i)%nat with (n * 2 ^ S (S i))%nat by (cbn [Nat.pow]; lia).
Qed.

(** A table entry: [2 ^ i] zero bytes after byte [j] of a checksum. *)
Lemma combine_entry_exact i j k : (i < 32)%nat → (j < 4)%nat → k < 256 → combine_entry i j k = shift (8 * 2 ^ i) (N.shiftl k (N.of_nat (j * 8))).
Proof.
  intros Hi Hj Hk. unfold combine_entry, crc_combine_table, combine_matrix_list. rewrite m1_start_exact, !square_exact.
  rewrite (nth_lookup _ i), list_lookup_fmap, combine_matrices_exact by done. cbn [fmap option_fmap option_map default from_option]. unfold id.
  rewrite (nth_lookup _ j), list_lookup_fmap, lookup_seq_lt by done. cbn [fmap option_fmap option_map default from_option]. unfold id. rewrite (entry_fmap _ 256), N2Nat.id by lia.
  unfold matrix_of. rewrite columns_drop by lia. rewrite square_row_exact.
  - rewrite N.lxor_0_l. f_equal. cbn [Nat.pow Nat.add]. lia.
  - apply shift_lxor.
  - rewrite N.shiftr_div_pow2. apply N.div_small. apply N.lt_le_trans with (2 ^ 8); [done |]. apply N.pow_le_mono_r; lia.
Qed.

Lemma combine_step_exact i crc : (i < 32)%nat → fits crc →
  N.lxor (N.lxor (N.lxor (combine_entry i 3 (N.shiftr crc 24)) (combine_entry i 2 (N.land (N.shiftr crc 16) 0xff)))
    (combine_entry i 1 (N.land (N.shiftr crc 8) 0xff))) (combine_entry i 0 (N.land crc 0xff)) = shift (8 * 2 ^ i) crc.
Proof.
  intros Hi Hc. rewrite !combine_entry_exact by (done || lia || apply land_byte || by apply fits_top). rewrite <- !shift_lxor. f_equal.
  rewrite (bytes_of_word crc) at 5. cbn [Nat.mul Nat.add]. rewrite N.shiftl_0_r.
  rewrite N.lxor_comm, !N.lxor_assoc. f_equal. rewrite (N.lxor_comm (N.shiftl (N.shiftr crc 24) _)), !N.lxor_assoc.
  rewrite <- !N.lxor_assoc. f_equal. apply N.lxor_comm.
Qed.

Lemma combine_loop_exact fuel : ∀ i crc leng, fits crc → leng * 2 ^ N.of_nat i < 2 ^ 32 → (i <= 32)%nat → (33 <= i + fuel)%nat →
  combine_loop fuel i crc leng = Ok (shift (8 * (2 ^ i * N.to_nat leng)) crc).
Proof.
  induction fuel as [| fuel IH]; intros i crc leng Hc Hl Hi Hfuel; [lia |]. cbn [combine_loop]. destruct (N.eqb_spec leng 0) as [-> | Hne]; [by rewrite Nat.mul_0_r |].
  assert (i < 32)%nat as Hi'.
  { destruct (decide (i = 32%nat)) as [-> |]; [| lia]. change (N.of_nat 32) with 32 in Hl. nia. }
  rewrite combine_step_exact by done. rewrite IH.
  - f_equal. rewrite N.shiftr_div_pow2. pose proof (N.div_mod leng 2 ltac:(lia)) as E. change (2 ^ 1) with 2.
    assert (leng mod 2 = if N.odd leng then 1 else 0) as Em by (rewrite <- low_bit; change 1 with (N.ones 1); by rewrite N.land_ones).
    set (h := leng / 2) in *. assert (N.to_nat leng = 2 * N.to_nat h + N.to_nat (leng mod 2))%nat as -> by lia. rewrite Em.
    destruct (N.odd leng).
    + rewrite <- shift_add. f_equal. cbn [Nat.pow]. change (N.to_nat 1) with 1%nat. lia.
    + f_equal. cbn [Nat.pow]. change (N.to_nat 0) with 0%nat. lia.
  - destruct (N.odd leng); [by apply fits_shift | done].
  - rewrite N.shiftr_div_pow2. replace (N.of_nat (S i)) with (1 + N.of_nat i) by lia. rewrite N.pow_add_r. change (2 ^ 1) with 2.
    pose proof (N.mul_div_le leng 2 ltac:(lia)). nia.
  - lia.
  - lia.
Qed.

Lemma mycrc32_combine_shift crc1 crc2 leng2 : crc1 < 2 ^ 32 → leng2 < 2 ^ 32 →
  mycrc32_combine crc1 crc2 leng2 = Ok (N.lxor (shift (8 * N.to_nat leng2) crc1) crc2).
Proof.
  intros H1%fits_lt Hl. unfold mycrc32_combine. rewrite combine_loop_exact; [| done | by rewrite N.pow_0_r, N.mul_1_r | lia..].
  cbn [mbind res_bind]. do 3 f_equal. cbn [Nat.pow]. lia.
Qed.

(** ** Checksums of combined blocks *)

(** What precedes a block and the block contribute independently. *)
Lemma crc_bytes_split block : ∀ c, crc_bytes c block = N.lxor (shift (8 * length block) c) (crc_bytes 0 block).
Proof.
  induction block as [| b block IH]; intros c; [by rewrite N.lxor_0_r |]. cbn [crc_bytes foldl]. fold (crc_bytes (crc_byte c b) block). fold (crc_bytes (crc_byte 0 b) block).
  rewrite (IH (crc_byte c b)), (IH (crc_byte 0 b)). unfold crc_byte. rewrite !shift_lxor, shift_0, N.lxor_0_l, N.lxor_assoc.
  replace (8 * length (b :: block))%nat with (8 * length block + 8)%nat by (cbn [length]; lia). by rewrite shift_add.
Qed.

Lemma crc_bytes_zeros n c : crc_bytes c (replicate n x00) = shift (8 * n) c.
Proof.
  induction n as [| n IH] in c |- *; [done |]. cbn [replicate crc_bytes foldl]. fold (crc_bytes (crc_byte c x00) (replicate n x00)). rewrite IH. unfold crc_byte.
  change (to_N x00) with 0. rewrite N.lxor_0_r, <- shift_add. f_equal. lia.
Qed.

Lemma reorder_twice c : CRC_REORDER (CRC_REORDER c) = c.
Proof. unfold CRC_REORDER. by rewrite N.lxor_assoc, N.lxor_nilpotent, N.lxor_0_r. Qed.

Lemma crc_of_app crc x y : crc_of crc (x ++ y) = crc_of (crc_of crc x) y.
Proof. unfold crc_of. by rewrite reorder_twice, crc_bytes_app. Qed.

Lemma crc_of_lt crc block : crc < 2 ^ 32 → crc_of crc block < 2 ^ 32.
Proof. intros Hc%fits_lt. by apply fits_lt, fits_reorder, fits_crc_bytes, fits_reorder. Qed.

(** From the checksums of two blocks the checksum of both. *)
Lemma combine_crc crc x y : N.lxor (shift (8 * length y) (crc_of crc x)) (crc_of 0 y) = crc_of crc (x ++ y).
Proof.
  unfold crc_of. rewrite crc_bytes_app. rewrite (crc_bytes_split y (crc_bytes _ x)), (crc_bytes_split y (CRC_REORDER 0)). unfold CRC_REORDER. rewrite shift_lxor, N.lxor_0_l.
  set (a := shift _ (crc_bytes _ x)). set (z := shift _ all_ones). set (d := crc_bytes 0 y).
  rewrite !N.lxor_assoc. f_equal. by rewrite <- (N.lxor_assoc z z), N.lxor_nilpotent, N.lxor_0_l.
Qed.

Lemma zeroblock_exact crc zeros : crc < 2 ^ 32 → zeros < 2 ^ 32 → mycrc32_zeroblock crc zeros = Ok (crc_of crc (replicate (N.to_nat zeros) x00)).
Proof.
  intros Hc%fits_lt Hz. unfold mycrc32_zeroblock. rewrite mycrc32_combine_shift by (done || by apply fits_lt, fits_lxor).
  unfold crc_of. by rewrite crc_bytes_zeros.
Qed.

(** C19: The combination of the checksums of two blocks is the checksum of their concatenation; with
    [mycrc32_zeroblock] zeros are appended to a block without being read. *)
Theorem combine_exact crc x y zeros address address' :
  crc < 2 ^ 32 → N.of_nat (length y) < 2 ^ 32 → zeros < 2 ^ 32 →
  ∃ crc1 crc2, mycrc32 crc address x = Ok crc1 ∧ mycrc32 0 address' y = Ok crc2 ∧
    (mycrc32_combine crc1 crc2 (N.of_nat (length y)) = mycrc32 crc address (x ++ y)) ∧
    (mycrc32_zeroexpanded crc address x zeros = mycrc32 crc address (x ++ replicate (N.to_nat zeros) x00)).
Proof.
  intros Hc Hy Hz. exists (crc_of crc x), (crc_of 0 y). unfold mycrc32_zeroexpanded. rewrite !mycrc32_bitserial by done. split; [done |]. split; [done |]. cbn [mbind res_bind]. split.
  - rewrite mycrc32_combine_shift by (done || by apply crc_of_lt). by rewrite Nat2N.id, combine_crc.
  - rewrite zeroblock_exact by (done || by apply crc_of_lt). by rewrite crc_of_app.
Qed.

Lemma combine_exact_witness :
  ∃ crc1 crc2, mycrc32 0 1 [x31; x32; x33; x34; x35; x36] = Ok crc1 ∧ mycrc32 0 2 [x37; x38; x39] = Ok crc2 ∧
    mycrc32_combine crc1 crc2 3 = Ok 0xCBF43926.
Proof.
  destruct (combine_exact 0 [x31; x32; x33; x34; x35; x36] [x37; x38; x39] 5 1 2) as (crc1 & crc2 & E1 & E2 & E3 & _); [done.. |].
  exists crc1, crc2. split; [exact E1 |]. split; [exact E2 |]. etransitivity; [exact E3 |]. vm_compute. reflexivity.
Defined.

(** The exclusive or of bytes. *)
Definition byte_xor (a b : byte) : byte := default x00 (of_N (N.lxor (to_N a) (to_N b))).

Lemma byte_xor_exact a b : to_N (byte_xor a b) = N.lxor (to_N a) (to_N b).
Proof.
  unfold byte_xor. assert (N.lxor (to_N a) (to_N b) < 256) as Hlt.
  { pose proof (to_N_byte a). pose proof (to_N_byte b). assert (N.shiftr (N.lxor (to_N a) (to_N b)) 8 = 0) as H8.
    - rewrite N.shiftr_lxor, !N.shiftr_div_pow2, !N.div_small by done. done.
    - rewrite N.shiftr_div_pow2 in H8. by apply N.div_small_iff in H8. }
  destruct (of_N _) as [c |] eqn:E; [by apply to_of_N |]. apply of_N_None_iff in E. lia.
Qed.

Lemma crc_bytes_xor x : ∀ y a b, length x = length y → crc_bytes (N.lxor a b) (zip_with byte_xor x y) = N.lxor (crc_bytes a x) (crc_bytes b y).
Proof.
  induction x as [| p x IH]; intros [| q y] a b Hl; try done. cbn [zip_with crc_bytes foldl]. rewrite <- IH by (cbn in Hl; lia). f_equal.
  unfold crc_byte. rewrite byte_xor_exact, <- shift_lxor. f_equal. rewrite !N.lxor_assoc. f_equal. rewrite <- !N.lxor_assoc. f_equal. apply N.lxor_comm.
Qed.

(** The checksum of the exclusive or of two blocks, as for xor parity. *)
Lemma xorblocks_exact crc x y : crc < 2 ^ 32 → length x = length y → N.of_nat (length x) < 2 ^ 32 →
  mycrc32_xorblocks crc (crc_of crc x) (crc_of crc y) (N.of_nat (length x)) = Ok (crc_of crc (zip_with byte_xor x y)).
Proof.
  intros Hc Hl Hx. unfold mycrc32_xorblocks. rewrite zeroblock_exact by done. cbn [mbind res_bind]. f_equal. unfold crc_of. rewrite Nat2N.id.
  set (c := CRC_REORDER crc). rewrite crc_bytes_zeros, (crc_bytes_split x c), (crc_bytes_split y c), (crc_bytes_split (zip_with _ _ _) c), length_zip_with, <- Hl, Nat.min_id.
  rewrite <- (N.lxor_0_l 0) at 3. rewrite (crc_bytes_xor x y 0 0) by done. set (z := shift _ c). unfold CRC_REORDER.
  set (p := crc_bytes 0 x). set (q := crc_bytes 0 y). set (f := all_ones). clearbody z p q f. clear.
  apply N.bits_inj. intros i. rewrite !N.lxor_spec. by destruct (N.testbit z i), (N.testbit p i), (N.testbit q i), (N.testbit f i).
Qed.

#[local] Instance byte_eq_decision : EqDecision byte := Byte.byte_eq_dec.

Lemma byte_eqb_spec a b : Byte.eqb a b = bool_decide (a = b).
Proof.
  destruct (Byte.eqb a b) eqn:E; symmetry; [by apply bool_decide_true, Byte.byte_dec_bl |]. apply bool_decide_false. intros ->. by rewrite Byte.byte_dec_lb in E.
Qed.

(** A block whose stored checksum is 0 gets the checksum of its contents when it is empty. *)
Lemma recompute_exact block : block ≠ [] → N.of_nat (length block) < 2 ^ 32 →
  recompute_crc_if_block_empty block 0 = Ok (if bool_decide (block = replicate (length block) x00) then crc_of 0 block else 0).
Proof.
  intros Hne Hl. unfold recompute_crc_if_block_empty. change (0 =? 0) with true. cbv iota. destruct block as [| b rest]; [done |].
  assert (Byte.eqb b x00 && forallb (fun '(x, y) => Byte.eqb x y) (zip (b :: rest) rest) = bool_decide (b :: rest = replicate (length (b :: rest)) x00)) as ->.
  - clear. revert b. induction rest as [| b' rest IH]; intros b.
    + cbn [zip forallb]. rewrite andb_true_r, byte_eqb_spec. apply bool_decide_ext. cbn. naive_solver congruence.
    + specialize (IH b'). change (zip (b :: b' :: rest) (b' :: rest)) with ((b, b') :: zip (b' :: rest) rest). cbn [forallb].
      rewrite !byte_eqb_spec in *. change (replicate (length (b :: b' :: rest)) x00) with (x00 :: replicate (length (b' :: rest)) x00).
      destruct (decide (b = x00)) as [-> | Hb].
      * rewrite bool_decide_true by done. cbn [andb]. replace (bool_decide (x00 = b')) with (bool_decide (b' = x00)) by (apply bool_decide_ext; naive_solver).
        rewrite IH. apply bool_decide_ext. naive_solver congruence.
      * rewrite bool_decide_false by done. cbn [andb]. symmetry. apply bool_decide_false. naive_solver congruence.
  - case_bool_decide as Hb; [| done]. rewrite zeroblock_exact by done. rewrite Nat2N.id. by rewrite <- Hb.
Qed.

(** C20: The checksum does not depend on the address of the block, and the loops over words and
    bytes compute what the bit-serial definition gives. *)
Theorem mycrc32_exact crc address block : crc < 2 ^ 32 → mycrc32 crc address block = Ok (crc_of crc block).
Proof. apply mycrc32_bitserial. Qed.

Lemma mycrc32_exact_witness : (0 < 2 ^ 32) ∧ mycrc32 0 3 [x31; x32; x33; x34; x35; x36; x37; x38; x39] = Ok 0xCBF43926.
Proof. split; [done |]. etransitivity; [exact (mycrc32_exact 0 3 _ eq_refl) |]. vm_compute. reflexivity. Defined.
