(* ===== verification/GaloisField.v ===== *)
(** * The field with 256 elements

    src/common/galois_coeff.h and the arithmetic of src/common/galois_field_isal.cc: bytes as
    polynomials over two elements modulo x^8 + x^4 + x^3 + x^2 + 1, multiplied through tables
    of logarithms.  Bytes are [Byte.byte]; addition is the exclusive or.

    The tables are computed as the compiler computes them.  [gf_mul] and [gf_inv] are shown to
    make a field; [gf_ring] gives the tactic [ring] for it. *)

From Stdlib Require Import Strings.Byte Ring.
From S2P Require Import Prelude.

Notation byte := Byte.byte.

Declare Scope gf_scope.
Delimit Scope gf_scope with gf.

(** ** Arithmetic *)

Definition to_nat (b : byte) : nat := N.to_nat (Byte.to_N b).
(** The conversion of a number to [uint8_t]. *)
Definition of_N (n : N) : byte := default x00 (Byte.of_N (n mod 256)).
Definition of_nat (n : nat) : byte := of_N (N.of_nat n).

Definition zero : byte := x00.
Definition one : byte := x01.

(** [a ^ b] *)
Definition add (a b : byte) : byte :=
  let '(a0, (a1, (a2, (a3, (a4, (a5, (a6, a7))))))) := Byte.to_bits a in
  let '(b0, (b1, (b2, (b3, (b4, (b5, (b6, b7))))))) := Byte.to_bits b in
  Byte.of_bits (xorb a0 b0, (xorb a1 b1, (xorb a2 b2, (xorb a3 b3, (xorb a4 b4, (xorb a5 b5, (xorb a6 b6, xorb a7 b7))))))).

Definition gf_mul2 (x : byte) : byte :=
  add (of_N (N.shiftl (Byte.to_N x) 1)) (if N.eqb (N.land (Byte.to_N x) 128) 0 then x00 else x1d).

(** The recursions stop when they have found their argument; [n] counts up to 255. *)
Fixpoint gf_log_from (fuel : nat) (x pow2n : byte) (n : nat) : byte :=
  match fuel with
  | O => x00
  | S fuel => if Byte.eqb x pow2n then of_nat n else gf_log_from fuel x (gf_mul2 pow2n) (S n)
  end.
Definition gf_log (x : byte) : byte := gf_log_from 255 x x02 1.

Fixpoint gf_exp_from (fuel x : nat) (pow2n : byte) (n : nat) : byte :=
  match fuel with
  | O => x00
  | S fuel => if Nat.eqb x n then pow2n else gf_exp_from fuel x (gf_mul2 pow2n) (S n)
  end.
Definition gf_exp (x : nat) : byte := gf_exp_from 255 x x02 1.

Definition get_gf_log_table : list byte := x00 :: ((fun i => gf_log (of_nat (i + 1))) <$> seq 0 255).
Definition get_gf_exp_table : list byte := x01 :: ((fun i => gf_exp (i + 1)) <$> seq 0 255).

Definition gf_log_table : list byte := Eval vm_compute in get_gf_log_table.
Definition gf_exp_table : list byte := Eval vm_compute in get_gf_exp_table.

Definition log (a : byte) : nat := to_nat (nth (to_nat a) gf_log_table x00).

Definition gf_mul (a b : byte) : byte :=
  if Byte.eqb a x00 || Byte.eqb b x00 then x00
  else let i := (log a + log b)%nat in
       nth (if (254 <? i)%nat then i - 255 else i)%nat gf_exp_table x00.

Definition gf_inv (a : byte) : byte :=
  if Byte.eqb a x00 then x00 else nth (255 - log a)%nat gf_exp_table x00.

Arguments add : simpl never.
Arguments gf_mul : simpl never.
Arguments gf_inv : simpl never.

Infix "+" := add : gf_scope.
Infix "*" := gf_mul : gf_scope.

(** ** Addition *)

#[global] Instance byte_eq_dec : EqDecision byte := Byte.byte_eq_dec.

Lemma add_bits a b :
  Byte.to_bits (add a b) =
    let '(a0, (a1, (a2, (a3, (a4, (a5, (a6, a7))))))) := Byte.to_bits a in
    let '(b0, (b1, (b2, (b3, (b4, (b5, (b6, b7))))))) := Byte.to_bits b in
    (xorb a0 b0, (xorb a1 b1, (xorb a2 b2, (xorb a3 b3, (xorb a4 b4, (xorb a5 b5, (xorb a6 b6, xorb a7 b7))))))).
Proof.
  unfold add. destruct (Byte.to_bits a) as (? & ? & ? & ? & ? & ? & ? & ?).
  destruct (Byte.to_bits b) as (? & ? & ? & ? & ? & ? & ? & ?). apply Byte.to_bits_of_bits.
Qed.

Lemma bits_inj a b : Byte.to_bits a = Byte.to_bits b → a = b.
Proof. intros E. by rewrite <- (Byte.of_bits_to_bits a), E, Byte.of_bits_to_bits. Qed.

Ltac bitwise :=
  apply bits_inj; rewrite ?add_bits;
  repeat match goal with |- context [Byte.to_bits ?x] => is_var x; destruct (Byte.to_bits x) as (? & ? & ? & ? & ? & ? & ? & ?) end;
  cbn [Byte.to_bits].

Ltac per_bit tac := repeat (apply f_equal2; [tac |]); tac.

Lemma add_comm a b : add a b = add b a.
Proof. bitwise. per_bit ltac:(apply xorb_comm). Qed.

Lemma add_assoc a b c : add a (add b c) = add (add a b) c.
Proof. bitwise. per_bit ltac:(symmetry; apply xorb_assoc). Qed.

Lemma add_0_l a : add x00 a = a.
Proof. bitwise. by rewrite !xorb_false_l. Qed.

Lemma add_self a : add a a = x00.
Proof. bitwise. by rewrite !xorb_nilpotent. Qed.

Lemma add_zero_eq a b : add a b = x00 → a = b.
Proof. intros E. rewrite <- (add_0_l b), <- (add_self a), <- add_assoc, E, add_comm, add_0_l. done. Qed.

(** ** Powers of two *)

(** Doubling [n] times. *)
Fixpoint double (n : nat) (x : byte) : byte := match n with O => x | S n => gf_mul2 (double n x) end.
Definition pow2 (n : nat) : byte := double n x01.

(** Doubling moves the bits and adds the polynomial when the highest falls out. *)
Lemma gf_mul2_bits x :
  Byte.to_bits (gf_mul2 x) =
    let '(b0, (b1, (b2, (b3, (b4, (b5, (b6, b7))))))) := Byte.to_bits x in
    (b7, (b0, (xorb b1 b7, (xorb b2 b7, (xorb b3 b7, (b4, (b5, b6))))))).
Proof. destruct x; vm_compute; reflexivity. Qed.

Lemma xorb_swap a b c d : xorb (xorb a b) (xorb c d) = xorb (xorb a c) (xorb b d).
Proof. by destruct a, b, c, d. Qed.

Lemma gf_mul2_add x y : gf_mul2 (add x y) = add (gf_mul2 x) (gf_mul2 y).
Proof.
  apply bits_inj. rewrite gf_mul2_bits, !add_bits, !gf_mul2_bits.
  destruct (Byte.to_bits x) as (? & ? & ? & ? & ? & ? & ? & ?). destruct (Byte.to_bits y) as (? & ? & ? & ? & ? & ? & ? & ?).
  per_bit ltac:(first [reflexivity | apply xorb_swap]).
Qed.

Lemma exp_table_spec n : (n ≤ 255)%nat → nth n gf_exp_table x00 = pow2 n.
Proof.
  intros Hn. assert (forallb (fun n => Byte.eqb (nth n gf_exp_table x00) (pow2 n)) (seq 0 256) = true) as H by (vm_compute; reflexivity).
  rewrite forallb_forall in H. apply Byte.byte_dec_bl, H, in_seq. lia.
Qed.

Lemma log_spec a : a ≠ x00 → pow2 (log a) = a ∧ (1 ≤ log a ≤ 255)%nat.
Proof.
  assert (∀ a, a = x00 ∨ (Byte.eqb (pow2 (log a)) a && (1 <=? log a)%nat && (log a <=? 255)%nat) = true) as H.
  { intros []; [by left | right; vm_compute; reflexivity..]. }
  intros Ha. destruct (H a) as [| Hl]; [done |]. rewrite !andb_true_iff, !Nat.leb_le in Hl. destruct Hl as [[Hl ?] ?].
  split; [by apply Byte.byte_dec_bl | lia].
Qed.

Lemma log_pow2 n : (1 ≤ n ≤ 255)%nat → log (pow2 n) = n.
Proof.
  intros Hn. assert (forallb (fun n => Nat.eqb (log (pow2 n)) n) (seq 1 255) = true) as H by (vm_compute; reflexivity).
  rewrite forallb_forall in H. apply Nat.eqb_eq, H, in_seq. lia.
Qed.

Lemma double_add n x y : double n (add x y) = add (double n x) (double n y).
Proof. induction n as [| n IH]; cbn; [done |]. by rewrite IH, gf_mul2_add. Qed.

Lemma double_0 n : double n x00 = x00.
Proof. induction n as [| n IH]; cbn; [done | by rewrite IH]. Qed.

Lemma double_double n m x : double n (double m x) = double (n + m) x.
Proof. induction n as [| n IH]; cbn; [done | by rewrite IH]. Qed.

Lemma double_pow2 n m : double n (pow2 m) = pow2 (n + m).
Proof. apply double_double. Qed.

Lemma pow2_period n : pow2 (n + 255) = pow2 n.
Proof. rewrite <- double_pow2. assert (pow2 255 = x01) as -> by (vm_compute; reflexivity). done. Qed.

Lemma pow2_nonzero n : pow2 n ≠ x00.
Proof.
  assert (∀ x, gf_mul2 x = x00 → x = x00) as H.
  { intros x E. apply (f_equal Byte.to_bits) in E. rewrite gf_mul2_bits in E. apply bits_inj.
    destruct (Byte.to_bits x) as (b0 & b1 & b2 & b3 & b4 & b5 & b6 & b7). cbn in E |- *. injection E as -> -> E1 E2 E3 -> -> ->.
    rewrite !xorb_false_r in *. congruence. }
  induction n as [| n IH]; [done |]. intros E. by apply H in E.
Qed.

(** Multiplication by [a] doubles [log a] times. *)
Lemma gf_mul_double a b : a ≠ x00 → gf_mul a b = double (log a) b.
Proof.
  intros Ha. unfold gf_mul. destruct (decide (a = x00)); [done |].
  assert (Byte.eqb a x00 = false) as ->. { destruct (Byte.eqb a x00) eqn:E; [| done]. by apply Byte.byte_dec_bl in E. }
  destruct (decide (b = x00)) as [-> | Hb]; [by rewrite double_0 |].
  assert (Byte.eqb b x00 = false) as ->. { destruct (Byte.eqb b x00) eqn:E; [| done]. by apply Byte.byte_dec_bl in E. }
  cbn [orb]. destruct (log_spec a Ha) as [_ Hla]. destruct (log_spec b Hb) as [Eb Hlb].
  replace (double (log a) b) with (pow2 (log a + log b)) by (by rewrite <- double_pow2, Eb). destruct (Nat.ltb_spec 254 (log a + log b)).
  - rewrite exp_table_spec by lia. rewrite <- pow2_period. f_equal. lia.
  - by rewrite exp_table_spec by lia.
Qed.

Lemma gf_mul_0_l b : gf_mul x00 b = x00.
Proof. done. Qed.

Lemma gf_mul_0_r a : gf_mul a x00 = x00.
Proof. unfold gf_mul. by rewrite orb_true_r. Qed.

Lemma gf_mul_comm a b : gf_mul a b = gf_mul b a.
Proof. unfold gf_mul. by rewrite orb_comm, Nat.add_comm. Qed.

Lemma gf_mul_add_r a b c : gf_mul a (add b c) = add (gf_mul a b) (gf_mul a c).
Proof.
  destruct (decide (a = x00)) as [-> | Ha]; [done |]. by rewrite !gf_mul_double, double_add by done.
Qed.

(** Doubling [n] times is multiplication by [pow2 n]. *)
Lemma double_mul n x : double n x = gf_mul (pow2 n) x.
Proof.
  destruct (decide (x = x00)) as [-> | Hx]; [by rewrite double_0, gf_mul_0_r |].
  rewrite gf_mul_comm, gf_mul_double by done. destruct (log_spec x Hx) as [E _].
  rewrite double_pow2, Nat.add_comm, <- double_pow2. by rewrite E.
Qed.

Lemma gf_mul_assoc a b c : gf_mul a (gf_mul b c) = gf_mul (gf_mul a b) c.
Proof.
  destruct (decide (a = x00)) as [-> | Ha]; [done |]. destruct (decide (b = x00)) as [-> | Hb].
  { by rewrite gf_mul_0_l, !gf_mul_0_r. }
  rewrite (gf_mul_double b), (gf_mul_double a), double_double, double_mul by done. f_equal.
  rewrite gf_mul_double by done. destruct (log_spec b Hb) as [E _]. by rewrite <- double_pow2, E.
Qed.

Lemma gf_mul_1_l a : gf_mul x01 a = a.
Proof. change x01 with (pow2 0). by rewrite <- double_mul. Qed.

Lemma gf_mul_nonzero a b : a ≠ x00 → b ≠ x00 → gf_mul a b ≠ x00.
Proof.
  intros Ha Hb. rewrite gf_mul_double by done. destruct (log_spec b Hb) as [E _].
  rewrite <- E, double_pow2. apply pow2_nonzero.
Qed.

Lemma gf_mul_eq_0 a b : gf_mul a b = x00 → a ≠ x00 → b = x00.
Proof. intros E Ha. destruct (decide (b = x00)); [done |]. by destruct (gf_mul_nonzero a b). Qed.

Lemma gf_inv_l a : a ≠ x00 → gf_mul (gf_inv a) a = x01.
Proof.
  intros Ha. unfold gf_inv. destruct (Byte.eqb a x00) eqn:E; [by apply Byte.byte_dec_bl in E |].
  destruct (log_spec a Ha) as [El Hl]. rewrite exp_table_spec by lia. rewrite <- double_mul.
  transitivity (double (255 - log a) (pow2 (log a))); [by rewrite El |].
  rewrite double_pow2. replace (255 - log a + log a)%nat with (0 + 255)%nat by lia. by rewrite pow2_period.
Qed.

Lemma gf_inv_nonzero a : a ≠ x00 → gf_inv a ≠ x00.
Proof. intros Ha E. pose proof (gf_inv_l a Ha) as H. by rewrite E in H. Qed.

(** Different small exponents give different powers. *)
Lemma pow2_inj n m : (n < 255)%nat → (m < 255)%nat → pow2 n = pow2 m → n = m.
Proof.
  intros Hn Hm E. assert (∀ i, (i < 255)%nat → (log (pow2 i) mod 255)%nat = i) as H.
  { intros [| i] Hi; [done |]. rewrite log_pow2 by lia. apply Nat.mod_small. lia. }
  rewrite <- (H n), <- (H m) by done. by rewrite E.
Qed.

(** Subtraction is addition; the names keep [ring] aware of signs. *)
Definition sub (a b : byte) : byte := add a b.
Definition neg (a : byte) : byte := a.

Lemma gf_ring_theory : ring_theory x00 x01 add gf_mul sub neg (@eq byte).
Proof.
  split; intros.
  - apply add_0_l.
  - apply add_comm.
  - apply add_assoc.
  - apply gf_mul_1_l.
  - apply gf_mul_comm.
  - apply gf_mul_assoc.
  - rewrite gf_mul_comm, gf_mul_add_r. by rewrite (gf_mul_comm z x), (gf_mul_comm z y).
  - done.
  - apply add_self.
Qed.
Add Ring gf_ring : gf_ring_theory.

Lemma sub_nonzero a b : a ≠ b → sub a b ≠ x00.
Proof. unfold sub. intros H E. by apply add_zero_eq in E. Qed.
