(* ===== verification/ErasureCode.v ===== *)
(** * Erasure codes over the field with 256 elements

    src/common/galois_field_isal.cc and src/common/galois_field_encode.cc: the generator
    matrices of Reed-Solomon codes, the inversion of matrices, the expanded tables for
    multiplication and the encoding of blocks.  A matrix in memory is the list of its rows.

    [table_mul] shows that the tables multiply; [encode_exact] that encoding is the product of
    the coefficients with the blocks, and [encode_functions_agree] that the vector code for
    every processor computes what the plain loops compute; [invert_exact] that the inversion
    succeeds exactly on matrices with a trivial kernel and then gives the inverse. *)

From Stdlib Require Import Strings.Byte Ring.
From S2P Require Import Prelude GaloisField.
Open Scope nat_scope.

Notation matrix := (list (list byte)).

(** The element at a position, as [a[i * n + j]]. *)
Definition at_ (a : matrix) (i j : nat) : byte := nth j (nth i a []) x00.

(** ** Generator matrices *)

Definition identity_row (k i : nat) : list byte := (fun j => if j =? i then x01 else x00) <$> seq 0 k.

(** A row of powers of [gen], from [p] on. *)
Fixpoint powers (k : nat) (p gen : byte) : list byte :=
  match k with O => [] | S k => p :: powers k (gf_mul p gen) gen end.

Fixpoint rs_rows (rows k : nat) (gen : byte) : matrix :=
  match rows with O => [] | S rows => powers k x01 gen :: rs_rows rows k (gf_mul gen x02) end.

Definition gf_gen_rs_matrix (m k : nat) : matrix := (identity_row k <$> seq 0 k) ++ rs_rows (m - k) k x01.

Definition gf_gen_cauchy1_matrix (m k : nat) : matrix :=
  (identity_row k <$> seq 0 k) ++
  ((fun i => (fun j => gf_inv (of_nat (Nat.lxor i j))) <$> seq 0 k) <$> seq k (m - k)).

(** ** Inversion *)

Definition scale_row (c : byte) (r : list byte) : list byte := (fun x => gf_mul x c) <$> r.
Definition add_row (c : byte) (r pivot : list byte) : list byte := zip_with (fun x y => add x (gf_mul c y)) r pivot.

(** The first row from [j] on with a nonzero element in column [i]. *)
Fixpoint find_pivot (fuel j i : nat) (a : matrix) : option nat :=
  match fuel with
  | O => None
  | S fuel => if Byte.eqb (at_ a j i) x00 then find_pivot fuel (S j) i a else Some j
  end.

Definition swap_rows (i j : nat) (a : matrix) : matrix := <[i := nth j a []]> (<[j := nth i a []]> a).

(** Elimination of column [i] from the other rows. *)
Definition eliminate (i : nat) (st : matrix * matrix) : matrix * matrix :=
  let '(a, out) := st in
  let clear (b : matrix) := imap (fun j r => if j =? i then r else add_row (at_ a j i) r (nth i b [])) b in
  (clear a, clear out).

(** The body of the loop over columns: [None] is the return of -1. *)
Definition invert_step (n i : nat) (st : matrix * matrix) : option (matrix * matrix) :=
  let '(a, out) := st in
  let swapped :=
    if Byte.eqb (at_ a i i) x00 then
      j ← find_pivot (n - S i) (S i) i a; Some (swap_rows i j a, swap_rows i j out)
    else Some (a, out) in
  '(a, out) ← swapped;
  let temp := gf_inv (at_ a i i) in
  Some (eliminate i (alter (scale_row temp) i a, alter (scale_row temp) i out)).

Fixpoint invert_loop (count n i : nat) (st : matrix * matrix) : bool * matrix :=
  match count with
  | O => (true, snd st)
  | S count =>
      match invert_step n i st with
      | None => (false, snd st)
      | Some st => invert_loop count n (S i) st
      end
  end.

(** Whether 0 is returned, and [out_mat]. *)
Definition gf_invert_matrix (a : matrix) (n : nat) : bool * matrix :=
  invert_loop n n 0 (a, identity_row n <$> seq 0 n).

(** ** Tables and encoding *)

Definition w64 (n : N) : N := (n mod 2 ^ 64)%N.
Definition le_bytes (w : N) : list byte := (fun i => of_N (N.shiftr w (8 * N.of_nat i))) <$> seq 0 8.

(** [gf_vect_mul_init] with 64-bit words. *)
Definition gf_vect_mul_init (c : byte) : list byte :=
  let c2 := gf_mul2 c in let c4 := gf_mul2 c2 in let c8 := gf_mul2 c4 in
  let v1 := w64 (Byte.to_N c * 0x0100010001000100) in
  let v2 := w64 (Byte.to_N c2 * 0x0101000001010000) in
  let v4 := w64 (Byte.to_N c4 * 0x0101010100000000) in
  let v8 := w64 (Byte.to_N c8 * 0x0101010101010101) in
  let v4 := N.lxor (N.lxor v1 v2) v4 in
  let t0 := v4 in
  let t1 := N.lxor v8 v4 in
  let c17 := gf_mul2 c8 in let c18 := gf_mul2 c17 in let c20 := gf_mul2 c18 in let c24 := gf_mul2 c20 in
  let v10 := w64 (Byte.to_N c17 * 0x0100010001000100) in
  let v20 := w64 (Byte.to_N c18 * 0x0101000001010000) in
  let v40 := w64 (Byte.to_N c20 * 0x0101010100000000) in
  let v80 := w64 (Byte.to_N c24 * 0x0101010101010101) in
  let v40 := N.lxor (N.lxor v10 v20) v40 in
  let t2 := v40 in
  let t3 := N.lxor v80 v40 in
  le_bytes t0 ++ le_bytes t1 ++ le_bytes t2 ++ le_bytes t3.

(** The variant for other machines. *)
Definition gf_vect_mul_init_bytes (c : byte) : list byte :=
  let c2 := gf_mul2 c in let c4 := gf_mul2 c2 in let c8 := gf_mul2 c4 in
  let c3 := add c2 c in let c5 := add c4 c in let c6 := add c4 c2 in let c7 := add c4 c3 in
  let c9 := add c8 c in let c10 := add c8 c2 in let c11 := add c8 c3 in let c12 := add c8 c4 in
  let c13 := add c8 c5 in let c14 := add c8 c6 in let c15 := add c8 c7 in
  let c17 := gf_mul2 c8 in let c18 := gf_mul2 c17 in let c19 := add c18 c17 in let c20 := gf_mul2 c18 in
  let c21 := add c20 c17 in let c22 := add c20 c18 in let c23 := add c20 c19 in let c24 := gf_mul2 c20 in
  let c25 := add c24 c17 in let c26 := add c24 c18 in let c27 := add c24 c19 in let c28 := add c24 c20 in
  let c29 := add c24 c21 in let c30 := add c24 c22 in let c31 := add c24 c23 in
  [x00; c; c2; c3; c4; c5; c6; c7; c8; c9; c10; c11; c12; c13; c14; c15;
   x00; c17; c18; c19; c20; c21; c22; c23; c24; c25; c26; c27; c28; c29; c30; c31].

(** The tables of [rows * k] coefficients in memory, one after the other. *)
Definition ec_init_tables (k rows : nat) (a : list byte) : list byte :=
  mjoin ((fun i => mjoin ((fun j => gf_vect_mul_init (nth (i * k + j) a x00)) <$> seq 0 k)) <$> seq 0 rows).

(** [tbl_lo[a & 0xF] ^ tbl_hi[a >> 4]] for the table at an offset. *)
Definition tbl_mul (v : list byte) (offset : nat) (a : byte) : byte :=
  add (nth (offset + N.to_nat (N.land (Byte.to_N a) 15)) v x00)
      (nth (offset + 16 + N.to_nat (N.shiftr (Byte.to_N a) 4)) v x00).

(** One byte of a block: the loop over the sources, with [s] and the table so far. *)
Fixpoint encode_byte (v : list byte) (offset i : nat) (src : list (list byte)) (s : byte) : byte :=
  match src with
  | [] => s
  | block :: src => encode_byte v (offset + 32) i src (add s (tbl_mul v offset (nth i block x00)))
  end.

(** [ec_encode_data_default]: the blocks written to [dest]. *)
Definition ec_encode_data_default (len srcs dests : nat) (v : list byte) (src : list (list byte)) : list (list byte) :=
  (fun l => (fun i => encode_byte v (l * srcs * 32) i (take srcs src) x00) <$> seq 0 len) <$> seq 0 dests.

(** The vector code takes [2 * lanes] bytes at a time, as little-endian 16-bit lanes.  [mul]
    multiplies the two bytes of a lane by the table at an offset. *)
Fixpoint encode_lane (mul : nat → byte → byte → byte * byte) (offset i : nat) (src : list (list byte)) (s : byte * byte) : byte * byte :=
  match src with
  | [] => s
  | block :: src =>
      let '(lo, hi) := mul offset (nth i block x00) (nth (S i) block x00) in
      encode_lane mul (offset + 32) i src (add s.1 lo, add s.2 hi)
  end.

(** The loop over vectors and the loop over the remaining bytes. *)
Fixpoint encode_vectors (fuel lanes : nat) (mul : nat → nat → byte → byte → byte * byte) (v : list byte) (offset : nat)
    (src : list (list byte)) (i len : nat) : list byte :=
  match fuel with
  | O => []
  | S fuel =>
      if i + 2 * lanes <=? len then
        mjoin ((fun lane => let '(lo, hi) := encode_lane (mul lane) offset (i + 2 * lane) src (x00, x00) in [lo; hi]) <$> seq 0 lanes) ++
        encode_vectors fuel lanes mul v offset src (i + 2 * lanes) len
      else (fun i => encode_byte v offset i src x00) <$> seq i (len - i)
  end.

(** A lane of 128-bit vectors: the masks of the lane and the bytes [__builtin_shuffle] takes. *)
Definition lane_mul (v : list byte) (lane offset : nat) (lo hi : byte) : byte * byte :=
  let a := (Byte.to_N lo + 256 * Byte.to_N hi)%N in
  let mask_lo := N.land a 0xF0F in
  let mask_hi := N.land (N.shiftr a 4) 0xF0F in
  let shuffle (half : nat) (mask : N) := nth (offset + half + N.to_nat (N.land mask 15)) v x00 in
  (add (shuffle 0 mask_lo) (shuffle 16 mask_hi),
   add (shuffle 0 (N.shiftr mask_lo 8)) (shuffle 16 (N.shiftr mask_hi 8))).

(** A lane of 256-bit vectors: both halves of [tbl_lo] and [tbl_hi] hold one half of the table,
    and [_mm256_shuffle_epi8] takes a byte from the half it writes. *)
Definition permute2x128 (t : list byte) (half : nat) : list byte :=
  let h := take 16 (drop (16 * half) t) in h ++ h.
Definition shuffle_epi8 (t : list byte) (half : nat) (mask : N) : byte :=
  if N.testbit mask 7 then x00 else nth (16 * half + N.to_nat (N.land mask 15)) t x00.

Definition lane_mul_avx2 (v : list byte) (lane offset : nat) (lo hi : byte) : byte * byte :=
  let a := (Byte.to_N lo + 256 * Byte.to_N hi)%N in
  let mask_lo := N.land a 0xF0F in
  let mask_hi := N.land (N.shiftr a 4) 0xF0F in
  let tbl := take 32 (drop offset v) in
  let tbl_hi := permute2x128 tbl 1 in
  let tbl_lo := permute2x128 tbl 0 in
  let half := lane / 8 in
  (add (shuffle_epi8 tbl_lo half (N.land mask_lo 255)) (shuffle_epi8 tbl_hi half (N.land mask_hi 255)),
   add (shuffle_epi8 tbl_lo half (N.shiftr mask_lo 8)) (shuffle_epi8 tbl_hi half (N.shiftr mask_hi 8))).

Definition ec_encode_data_ssse3 (len srcs dests : nat) (v : list byte) (src : list (list byte)) : list (list byte) :=
  (fun l => encode_vectors (S len) 8 (lane_mul v) v (l * srcs * 32) (take srcs src) 0 len) <$> seq 0 dests.
Definition ec_encode_data_avx := ec_encode_data_ssse3.
Definition ec_encode_data_avx2 (len srcs dests : nat) (v : list byte) (src : list (list byte)) : list (list byte) :=
  (fun l => encode_vectors (S len) 16 (lane_mul_avx2 v) v (l * srcs * 32) (take srcs src) 0 len) <$> seq 0 dests.

(** What [__builtin_cpu_supports] answers, and the function it chooses. *)
Record cpu := { cpu_avx2 : bool; cpu_avx : bool; cpu_ssse3 : bool }.

Definition ec_get_encode_function (c : cpu) : nat → nat → nat → list byte → list (list byte) → list (list byte) :=
  if cpu_avx2 c then ec_encode_data_avx2
  else if cpu_avx c then ec_encode_data_avx
  else if cpu_ssse3 c then ec_encode_data_ssse3
  else ec_encode_data_default.

Definition ec_encode_data (c : cpu) (len srcs dests : nat) (v : list byte) (src : list (list byte)) : list (list byte) :=
  ec_get_encode_function c len srcs dests v src.

(** ** The tables multiply *)

Lemma nth_fmap_seq {A} (d : A) (f : nat → A) n i s : i < n → nth i (f <$> seq s n) d = f (s + i).
Proof.
  intros Hi. apply nth_lookup_Some. rewrite list_lookup_fmap, lookup_seq_lt by done. done.
Qed.

Definition select_bit (b : bool) (x : byte) : byte := if b then x else x00.

(** The sum of the doublings of [c] that the bits of a number select. *)
Definition nibble (c : byte) (n : nat) : byte :=
  add (add (select_bit (Nat.testbit n 0) c) (select_bit (Nat.testbit n 1) (double 1 c)))
      (add (select_bit (Nat.testbit n 2) (double 2 c)) (select_bit (Nat.testbit n 3) (double 3 c))).

Lemma init_table c : gf_vect_mul_init c = (nibble c <$> seq 0 16) ++ (nibble (double 4 c) <$> seq 0 16).
Proof. destruct c; vm_compute; reflexivity. Qed.

Lemma init_table_length c : length (gf_vect_mul_init c) = 32.
Proof. done. Qed.

(** Both variants compute the same table. *)
Lemma init_variants_agree c : gf_vect_mul_init_bytes c = gf_vect_mul_init c.
Proof. destruct c; vm_compute; reflexivity. Qed.

(** A byte is the sum of the powers of two its bits select. *)
Lemma byte_nibbles a :
  a = add (nibble x01 (N.to_nat (N.land (Byte.to_N a) 15))) (nibble (double 4 x01) (N.to_nat (N.shiftr (Byte.to_N a) 4))) ∧
  N.to_nat (N.land (Byte.to_N a) 15) < 16 ∧ N.to_nat (N.shiftr (Byte.to_N a) 4) < 16.
Proof. destruct a; split_and!; first [vm_compute; reflexivity | vm_compute; lia]. Qed.

Lemma nibble_mul c d n : nibble (gf_mul c d) n = gf_mul c (nibble d n).
Proof.
  unfold nibble. rewrite !double_mul. destruct (Nat.testbit n 0), (Nat.testbit n 1), (Nat.testbit n 2), (Nat.testbit n 3);
    cbn [select_bit]; rewrite ?gf_mul_add_r, ?gf_mul_0_r; do 2 f_equal; ring.
Qed.

Lemma init_table_entries c n : n < 16 →
  nth n (gf_vect_mul_init c) x00 = nibble c n ∧ nth (16 + n) (gf_vect_mul_init c) x00 = nibble (double 4 c) n.
Proof.
  intros Hn. rewrite init_table. split.
  - rewrite app_nth1 by (by rewrite length_fmap, length_seq). by rewrite nth_fmap_seq.
  - rewrite app_nth2; rewrite length_fmap, length_seq; [| lia]. replace (16 + n - 16) with n by lia. by rewrite nth_fmap_seq.
Qed.

Lemma table_mul c a :
  add (nth (N.to_nat (N.land (Byte.to_N a) 15)) (gf_vect_mul_init c) x00)
      (nth (16 + N.to_nat (N.shiftr (Byte.to_N a) 4)) (gf_vect_mul_init c) x00) = gf_mul c a.
Proof.
  destruct (byte_nibbles a) as (Ea & Hlo & Hhi). rewrite (proj1 (init_table_entries c _ Hlo)), (proj2 (init_table_entries c _ Hhi)).
  replace (double 4 c) with (gf_mul c (double 4 x01)) by (rewrite !double_mul; ring).
  replace c with (gf_mul c x01) at 1 by ring. rewrite !nibble_mul, <- gf_mul_add_r. by rewrite <- Ea.
Qed.

(** ** Sums *)

Fixpoint sum (n : nat) (f : nat → byte) : byte := match n with O => x00 | S n => add (sum n f) (f n) end.

Lemma sum_ext n f g : (∀ i, i < n → f i = g i) → sum n f = sum n g.
Proof. induction n as [| n IH]; intros H; cbn; [done |]. rewrite IH by (intros; apply H; lia). by rewrite H by lia. Qed.

Lemma sum_add n f g : sum n (fun i => add (f i) (g i)) = add (sum n f) (sum n g).
Proof. induction n as [| n IH]; cbn; [done |]. rewrite IH. ring. Qed.

Lemma sum_mul n c f : sum n (fun i => gf_mul c (f i)) = gf_mul c (sum n f).
Proof. induction n as [| n IH]; cbn; [by rewrite gf_mul_0_r |]. rewrite IH. ring. Qed.

Lemma sum_0 n f : (∀ i, i < n → f i = x00) → sum n f = x00.
Proof. induction n as [| n IH]; intros H; cbn; [done |]. rewrite IH by (intros; apply H; lia). by rewrite H by lia. Qed.

Lemma sum_swap n m f : sum n (fun i => sum m (fun j => f i j)) = sum m (fun j => sum n (fun i => f i j)).
Proof.
  induction n as [| n IH]; cbn; [symmetry; by apply sum_0 |]. rewrite IH, <- sum_add. done.
Qed.

Lemma sum_first n f : sum (S n) f = add (f 0) (sum n (fun i => f (S i))).
Proof. induction n as [| n IH]; [cbn; ring |]. cbn [sum] in *. rewrite IH. ring. Qed.

(** A sum with one term. *)
Lemma sum_single n k f : k < n → (∀ i, i < n → i ≠ k → f i = x00) → sum n f = f k.
Proof.
  induction n as [| n IH]; intros Hk H; [lia |]. cbn. destruct (decide (k = n)) as [-> | Hne].
  - rewrite sum_0; [apply add_0_l |]. intros i Hi. apply H; lia.
  - rewrite IH; [| lia | intros; apply H; lia]. rewrite (H n) by lia. ring.
Qed.

(** ** Encoding is a product *)

Lemma nth_mjoin_block {A} (d : A) (ls : list (list A)) n i j :
  (∀ l, l ∈ ls → length l = n) → i < length ls → j < n → nth (i * n + j) (mjoin ls) d = nth j (nth i ls []) d.
Proof.
  revert i. induction ls as [| l ls IH]; intros i Hl Hi Hj; [cbn in Hi; lia |]. change (mjoin (l :: ls)) with (l ++ mjoin ls).
  assert (length l = n) as El by (apply Hl; left). destruct i as [| i]; cbn [nth Nat.mul].
  - rewrite app_nth1 by lia. done.
  - rewrite app_nth2 by lia. rewrite El. replace (n + i * n + j - n) with (i * n + j) by lia.
    apply IH; [intros; apply Hl; by right | cbn in Hi; lia | done].
Qed.

Lemma length_mjoin {A} (ls : list (list A)) n : (∀ l, l ∈ ls → length l = n) → length (mjoin ls) = length ls * n.
Proof.
  induction ls as [| l ls IH]; intros Hl; [done |]. change (mjoin (l :: ls)) with (l ++ mjoin ls).
  rewrite length_app, (Hl l), IH; [done | | left].
  intros; apply Hl; by right.
Qed.

(** The entries of the tables for a coefficient. *)
Lemma ec_tables k rows a p n :
  p < rows * k → n < 32 →
  nth (p * 32 + n) (ec_init_tables k rows a) x00 = nth n (gf_vect_mul_init (nth p a x00)) x00.
Proof.
  intros Hp Hn. assert (k ≠ 0) as Hk by nia. unfold ec_init_tables.
  pose proof (Nat.div_mod p k Hk) as Ep. pose proof (Nat.mod_upper_bound p k Hk). set (i := p / k) in *. set (j := p mod k) in *.
  assert (i < rows) by nia. replace (p * 32 + n) with (i * (k * 32) + (j * 32 + n)) by lia.
  assert (∀ i l, l ∈ (fun j => gf_vect_mul_init (nth (i * k + j) a x00)) <$> seq 0 k → length l = 32) as H32.
  { intros i' l (j' & -> & _)%list_elem_of_fmap. apply init_table_length. }
  rewrite (nth_mjoin_block _ _ (k * 32)); [| | by rewrite length_fmap, length_seq | nia].
  - rewrite nth_fmap_seq by done. rewrite (nth_mjoin_block _ _ 32); [| apply H32 | by rewrite length_fmap, length_seq | done].
    rewrite nth_fmap_seq by done. do 3 f_equal. lia.
  - intros l (i' & -> & _)%list_elem_of_fmap. rewrite (length_mjoin _ 32) by apply H32. by rewrite length_fmap, length_seq.
Qed.

Lemma tbl_mul_spec k rows a p x : p < rows * k →
  tbl_mul (ec_init_tables k rows a) (p * 32) x = gf_mul (nth p a x00) x.
Proof.
  intros Hp. unfold tbl_mul. destruct (byte_nibbles x) as (_ & Hlo & Hhi).
  rewrite <- Nat.add_assoc, !ec_tables by lia. apply table_mul.
Qed.

Lemma encode_byte_spec k rows a i : ∀ src p s,
  p + length src ≤ rows * k →
  encode_byte (ec_init_tables k rows a) (p * 32) i src s =
    add s (sum (length src) (fun t => gf_mul (nth (p + t) a x00) (nth i (nth t src []) x00))).
Proof.
  induction src as [| block src IH]; intros p s Hp; cbn [encode_byte length] in *; [cbn; ring |].
  rewrite tbl_mul_spec by lia. replace (p * 32 + 32) with (S p * 32) by lia. rewrite IH by lia.
  rewrite sum_first, <- add_assoc, Nat.add_0_r. do 2 f_equal. apply sum_ext. intros t _. by rewrite Nat.add_succ_r.
Qed.

(** Encoding blocks with the tables of coefficients gives their product with the blocks.  The
    tables do not depend on how the coefficients are divided into rows. *)
Lemma encode_default_exact len srcs dests k rows a src :
  length src = srcs → rows * k = dests * srcs →
  ec_encode_data_default len srcs dests (ec_init_tables k rows a) src =
    (fun l => (fun i => sum srcs (fun j => gf_mul (nth (l * srcs + j) a x00) (nth i (nth j src []) x00))) <$> seq 0 len) <$> seq 0 dests.
Proof.
  intros <- Hrk. unfold ec_encode_data_default. apply list_fmap_ext. intros l l' Hl. apply lookup_seq in Hl as [-> Hl].
  apply list_fmap_ext. intros i i' Hi. rewrite take_ge by done. cbn [Nat.add]. rewrite encode_byte_spec by nia. apply add_0_l.
Qed.

(** ** The vector code *)

Lemma byte_high_bits b m : (8 <= m)%N → N.testbit (Byte.to_N b) m = false.
Proof.
  intros Hm. pose proof (Byte.to_N_bounded b). destruct (decide (Byte.to_N b = 0)%N) as [-> | Hne]; [apply N.bits_0 |].
  apply N.bits_above_log2, N.log2_lt_pow2; [lia |].
  apply N.lt_le_trans with (2 ^ 8)%N; [cbn; lia | apply N.pow_le_mono_r; lia].
Qed.

Lemma lane_bit lo hi n :
  N.testbit (Byte.to_N lo + 256 * Byte.to_N hi) n =
    if (n <? 8)%N then N.testbit (Byte.to_N lo) n else N.testbit (Byte.to_N hi) (n - 8).
Proof.
  replace (256 * Byte.to_N hi)%N with (N.shiftl (Byte.to_N hi) 8) by (rewrite N.shiftl_mul_pow2; cbn; lia).
  rewrite N.add_nocarry_lxor, N.lxor_lor.
  2, 3: apply N.bits_inj; intros m; rewrite N.land_spec, N.bits_0; destruct (N.ltb_spec m 8);
    [by rewrite N.shiftl_spec_low, andb_false_r | by rewrite byte_high_bits].
  rewrite N.lor_spec. destruct (N.ltb_spec n 8).
  - by rewrite N.shiftl_spec_low, orb_false_r.
  - by rewrite byte_high_bits, N.shiftl_spec_high' by done.
Qed.

Lemma low_bits a b : (∀ n, (n < 4)%N → N.testbit a n = N.testbit b n) → N.land a 15 = N.land b 15.
Proof.
  intros H. apply N.bits_inj. intros n. rewrite !N.land_spec. destruct (N.ltb_spec n 4) as [Hn | Hn]; [by rewrite H |].
  rewrite (N.bits_above_log2 15), !andb_false_r; [done |]. cbn. lia.
Qed.

Lemma high_nibble b : N.land (N.shiftr (Byte.to_N b) 4) 15 = N.shiftr (Byte.to_N b) 4.
Proof.
  apply N.bits_inj. intros n. rewrite N.land_spec, N.shiftr_spec'. destruct (N.ltb_spec n 4) as [Hn | Hn].
  - assert (n = 0 ∨ n = 1 ∨ n = 2 ∨ n = 3)%N as [-> | [-> | [-> | -> ]]] by lia; by rewrite andb_true_r.
  - by rewrite byte_high_bits by lia.
Qed.

(** The masks of a lane are the nibbles of its bytes. *)
Lemma nibbles_of_lane lo hi :
  let a := (Byte.to_N lo + 256 * Byte.to_N hi)%N in
  N.land (N.land a 0xF0F) 15 = N.land (Byte.to_N lo) 15 ∧
  N.land (N.shiftr (N.land a 0xF0F) 8) 15 = N.land (Byte.to_N hi) 15 ∧
  N.land (N.land (N.shiftr a 4) 0xF0F) 15 = N.shiftr (Byte.to_N lo) 4 ∧
  N.land (N.shiftr (N.land (N.shiftr a 4) 0xF0F) 8) 15 = N.shiftr (Byte.to_N hi) 4.
Proof.
  intros a. rewrite <- (high_nibble lo), <- (high_nibble hi).
  split_and!; apply low_bits; intros n Hn; assert (n = 0 ∨ n = 1 ∨ n = 2 ∨ n = 3)%N as [-> | [-> | [-> | -> ]]] by lia;
    rewrite ?N.shiftr_spec', ?N.land_spec, ?N.shiftr_spec'; unfold a; rewrite lane_bit; cbn [N.add N.sub]; apply andb_true_r.
Qed.

Lemma lane_mul_spec v lane offset lo hi : lane_mul v lane offset lo hi = (tbl_mul v offset lo, tbl_mul v offset hi).
Proof.
  unfold lane_mul, tbl_mul. destruct (nibbles_of_lane lo hi) as (-> & -> & -> & ->). by rewrite Nat.add_0_r.
Qed.

Lemma permute_lookup v offset half h i : offset + 32 ≤ length v → half < 2 → h < 2 → i < 16 →
  nth (16 * h + i) (permute2x128 (take 32 (drop offset v)) half) x00 = nth (offset + 16 * half + i) v x00.
Proof.
  intros Hl Hhalf Hh Hi. unfold permute2x128.
  assert (length (take 16 (drop (16 * half) (take 32 (drop offset v)))) = 16) as L.
  { rewrite length_take, length_drop, length_take, length_drop. lia. }
  assert (nth i (take 16 (drop (16 * half) (take 32 (drop offset v)))) x00 = nth (offset + 16 * half + i) v x00) as E.
  { rewrite !nth_lookup, lookup_take_lt, lookup_drop, lookup_take_lt, lookup_drop by lia. do 2 f_equal. lia. }
  destruct h as [| [| h]]; [| | lia].
  - replace (16 * 0 + i) with i by lia. rewrite app_nth1 by (rewrite L; lia). exact E.
  - rewrite app_nth2 by (rewrite L; lia). rewrite L. replace (16 * 1 + i - 16) with i by lia. exact E.
Qed.

Lemma land_idemp_low x : N.land (N.land x 255) 15 = N.land x 15.
Proof. by rewrite <- N.land_assoc. Qed.

Lemma mask_top a : N.testbit (N.land (N.land a 0xF0F) 255) 7 = false ∧ N.testbit (N.shiftr (N.land a 0xF0F) 8) 7 = false.
Proof. rewrite N.shiftr_spec', !N.land_spec. by rewrite !andb_false_r. Qed.

Lemma land15_lt x : N.to_nat (N.land x 15) < 16.
Proof. change 15%N with (N.ones 4). rewrite N.land_ones. pose proof (N.mod_upper_bound x (2 ^ 4)). cbn in *. lia. Qed.

Lemma lane_mul_avx2_spec v lane offset lo hi : lane < 16 → offset + 32 ≤ length v →
  lane_mul_avx2 v lane offset lo hi = (tbl_mul v offset lo, tbl_mul v offset hi).
Proof.
  intros Hlane Hlen. rewrite <- (lane_mul_spec v lane). unfold lane_mul_avx2, lane_mul, shuffle_epi8.
  set (a := (Byte.to_N lo + 256 * Byte.to_N hi)%N).
  destruct (mask_top a) as [-> ->], (mask_top (N.shiftr a 4)) as [-> ->]. rewrite !land_idemp_low.
  assert (lane / 8 < 2) by (apply Nat.Div0.div_lt_upper_bound; lia).
  by rewrite !permute_lookup by (first [done | lia | apply land15_lt]).
Qed.

Section vectors.
Context (v : list byte) (lanes : nat) (mul : nat → nat → byte → byte → byte * byte) (srcs offset : nat).
Hypothesis Hmul : ∀ lane t lo hi, lane < lanes → t < srcs →
  mul lane (offset + t * 32) lo hi = (tbl_mul v (offset + t * 32) lo, tbl_mul v (offset + t * 32) hi).

Lemma encode_lane_spec lane i src : lane < lanes → ∀ t s, t + length src ≤ srcs →
  encode_lane (mul lane) (offset + t * 32) i src s =
    (encode_byte v (offset + t * 32) i src s.1, encode_byte v (offset + t * 32) (S i) src s.2).
Proof using Hmul.
  intros Hlane. induction src as [| block src IH]; intros t [s1 s2] Ht; cbn [encode_lane encode_byte fst snd length] in *; [done |].
  rewrite Hmul by lia. replace (offset + t * 32 + 32) with (offset + S t * 32) by lia. apply IH. lia.
Qed.

Lemma pairs_seq (f : nat → byte) i n : mjoin ((fun lane => [f (i + 2 * lane); f (S (i + 2 * lane))]) <$> seq 0 n) = f <$> seq i (2 * n).
Proof.
  induction n as [| n IH]; [done |]. rewrite seq_S, fmap_app, join_app, IH. replace (2 * S n) with (2 * n + 2) by lia.
  rewrite seq_app, fmap_app. done.
Qed.

Lemma encode_vectors_spec src len fuel : lanes ≠ 0 → length src ≤ srcs → ∀ i, i ≤ len → len - i < fuel →
  encode_vectors fuel lanes mul v offset src i len = (fun i => encode_byte v offset i src x00) <$> seq i (len - i).
Proof using Hmul.
  intros Hlanes Hsrc. induction fuel as [| fuel IH]; intros i Hi Hf; [lia |]. cbn [encode_vectors].
  destruct (Nat.leb_spec (i + 2 * lanes) len) as [H | H]; [| done]. rewrite IH by lia.
  replace (len - i) with (2 * lanes + (len - (i + 2 * lanes))) by lia. rewrite seq_app, fmap_app. f_equal.
  rewrite <- pairs_seq. f_equal. apply list_fmap_ext. intros lane ? [-> Hlane]%lookup_seq.
  pose proof (encode_lane_spec (0 + lane) (i + 2 * (0 + lane)) src Hlane 0 (x00, x00) Hsrc) as E.
  rewrite Nat.add_0_r in E. rewrite E. done.
Qed.
End vectors.

Lemma encode_ssse3_correct len srcs dests v src :
  ec_encode_data_ssse3 len srcs dests v src = ec_encode_data_default len srcs dests v src.
Proof.
  unfold ec_encode_data_ssse3, ec_encode_data_default. apply list_fmap_ext. intros ? l _.
  rewrite (encode_vectors_spec v 8 (lane_mul v) srcs); [by rewrite Nat.sub_0_r | | done | rewrite length_take; lia | lia | lia].
  intros. apply lane_mul_spec.
Qed.

Lemma encode_avx2_correct len srcs dests v src : dests * srcs * 32 ≤ length v →
  ec_encode_data_avx2 len srcs dests v src = ec_encode_data_default len srcs dests v src.
Proof.
  intros Hv. unfold ec_encode_data_avx2, ec_encode_data_default. apply list_fmap_ext. intros ? l [-> Hl]%lookup_seq.
  rewrite (encode_vectors_spec v 16 (lane_mul_avx2 v) srcs); [by rewrite Nat.sub_0_r | | done | rewrite length_take; lia | lia | lia].
  intros lane t lo hi Hlane Ht. apply lane_mul_avx2_spec; [done | nia].
Qed.

(** C18: Whatever the processor supports, the chosen function writes what the loops over single
    bytes write. *)
Theorem encode_functions_agree c len srcs dests v src : dests * srcs * 32 ≤ length v →
  ec_encode_data c len srcs dests v src = ec_encode_data_default len srcs dests v src.
Proof.
  intros Hv. unfold ec_encode_data, ec_get_encode_function, ec_encode_data_avx.
  destruct (cpu_avx2 c); [by apply encode_avx2_correct |]. destruct (cpu_avx c), (cpu_ssse3 c); first [done | apply encode_ssse3_correct].
Qed.

Lemma length_tables k rows a : length (ec_init_tables k rows a) = rows * k * 32.
Proof.
  unfold ec_init_tables. rewrite (length_mjoin _ (k * 32)), length_fmap, length_seq; [lia |].
  intros l (i & -> & _)%list_elem_of_fmap. rewrite (length_mjoin _ 32), length_fmap, length_seq; [done |].
  intros l (j & -> & _)%list_elem_of_fmap. apply init_table_length.
Qed.

Lemma encode_exact c len srcs dests k rows a src :
  length src = srcs → rows * k = dests * srcs →
  ec_encode_data c len srcs dests (ec_init_tables k rows a) src =
    (fun l => (fun i => sum srcs (fun j => gf_mul (nth (l * srcs + j) a x00) (nth i (nth j src []) x00))) <$> seq 0 len) <$> seq 0 dests.
Proof.
  intros Hs Hrk. rewrite encode_functions_agree by (rewrite length_tables; lia). by apply encode_default_exact.
Qed.

(** ** Row operations *)

Definition shaped (rows cols : nat) (a : matrix) : Prop := length a = rows ∧ ∀ r, r ∈ a → length r = cols.

Lemma at_row rows cols a i : shaped rows cols a → i < rows → length (nth i a []) = cols.
Proof. intros [Hl Hr] Hi. apply Hr. apply list_elem_of_In, nth_In. lia. Qed.

Lemma at_lookup a i r j : a !! i = Some r → at_ a i j = nth j r x00.
Proof. intros H. unfold at_. by rewrite (nth_lookup_Some _ _ _ _ H). Qed.

Lemma lookup_row rows cols a i : shaped rows cols a → i < rows → ∃ r, a !! i = Some r ∧ length r = cols.
Proof.
  intros [Hl Hr] Hi. destruct (lookup_lt_is_Some_2 a i) as [r E]; [lia |]. exists r. split; [done |].
  apply Hr. by eapply list_elem_of_lookup_2.
Qed.

Lemma shaped_lookup rows cols a : length a = rows → (∀ i r, a !! i = Some r → length r = cols) → shaped rows cols a.
Proof. intros Hl Hr. split; [done |]. intros r (i & E)%list_elem_of_lookup. by eapply Hr. Qed.

Lemma nth_scale c r j : nth j (scale_row c r) x00 = gf_mul (nth j r x00) c.
Proof. revert j. induction r as [| x r IH]; intros [| j]; cbn; first [done | apply IH]. Qed.

Lemma nth_add c r s j : length r = length s → nth j (add_row c r s) x00 = add (nth j r x00) (gf_mul c (nth j s x00)).
Proof.
  revert s j. induction r as [| x r IH]; intros [| y s] j Hl; try done; destruct j as [| j]; cbn; try done.
  - by rewrite gf_mul_0_r.
  - by rewrite gf_mul_0_r.
  - apply IH. by injection Hl.
Qed.

Section row_operations.
Context (n : nat).

Lemma scale_shaped i c a : shaped n n a → shaped n n (alter (scale_row c) i a).
Proof.
  intros Ha. apply shaped_lookup; [rewrite length_alter; apply Ha |]. intros p r Hp. destruct (decide (p = i)) as [-> | Hne].
  - rewrite list_lookup_alter_eq in Hp. destruct (a !! i) as [r' |] eqn:E; [| done]. injection Hp as <-.
    unfold scale_row. rewrite length_fmap. apply Ha. by eapply list_elem_of_lookup_2.
  - rewrite list_lookup_alter_ne in Hp by done. apply Ha. by eapply list_elem_of_lookup_2.
Qed.

Lemma at_scale i c a p q : shaped n n a → p < n →
  at_ (alter (scale_row c) i a) p q = if p =? i then gf_mul (at_ a p q) c else at_ a p q.
Proof.
  intros Ha Hp. destruct (lookup_row n n a p Ha Hp) as (r & E & _). rewrite (at_lookup a p r q E).
  destruct (Nat.eqb_spec p i) as [-> | Hne].
  - rewrite (at_lookup _ i (scale_row c r)); [apply nth_scale |]. by rewrite list_lookup_alter_eq, E.
  - rewrite (at_lookup _ p r); [done |]. by rewrite list_lookup_alter_ne.
Qed.

Definition swap_index (i j p : nat) : nat := if p =? i then j else if p =? j then i else p.

Lemma swap_lookup i j a p : shaped n n a → i < n → j < n → p < n → swap_rows i j a !! p = a !! swap_index i j p.
Proof.
  intros Ha Hi Hj Hp. unfold swap_rows, swap_index.
  destruct (lookup_row n n a i Ha Hi) as (ri & Ei & _). destruct (lookup_row n n a j Ha Hj) as (rj & Ej & _).
  rewrite (nth_lookup_Some _ _ _ _ Ei), (nth_lookup_Some _ _ _ _ Ej). destruct Ha as [Hl _].
  destruct (Nat.eqb_spec p i) as [-> | Hpi]; [by rewrite list_lookup_insert_eq by (rewrite length_insert; lia) |].
  rewrite list_lookup_insert_ne by done. destruct (Nat.eqb_spec p j) as [-> | Hpj].
  - by rewrite list_lookup_insert_eq by lia.
  - by rewrite list_lookup_insert_ne.
Qed.

Lemma swap_shaped i j a : shaped n n a → i < n → j < n → shaped n n (swap_rows i j a).
Proof.
  intros Ha Hi Hj. assert (length (swap_rows i j a) = n) as Hl by (unfold swap_rows; rewrite !length_insert; apply Ha).
  apply shaped_lookup; [done |]. intros p r Hp. pose proof (lookup_lt_Some _ _ _ Hp) as Hlt. rewrite swap_lookup in Hp by (done || lia).
  apply Ha. by eapply list_elem_of_lookup_2.
Qed.

Lemma at_swap i j a p q : shaped n n a → i < n → j < n → p < n → at_ (swap_rows i j a) p q = at_ a (swap_index i j p) q.
Proof.
  intros Ha Hi Hj Hp. unfold at_. f_equal. rewrite !nth_lookup. by rewrite swap_lookup.
Qed.

Lemma swap_index_lt i j p : i < n → j < n → p < n → swap_index i j p < n.
Proof. intros. unfold swap_index. destruct (p =? i), (p =? j); lia. Qed.

Lemma swap_index_twice i j p : swap_index i j (swap_index i j p) = p.
Proof.
  unfold swap_index. destruct (Nat.eqb_spec p i) as [-> | H1].
  - rewrite Nat.eqb_refl. by destruct (Nat.eqb_spec j i).
  - destruct (Nat.eqb_spec p j) as [-> | H2]; [by rewrite Nat.eqb_refl |].
    by rewrite (proj2 (Nat.eqb_neq _ _) H1), (proj2 (Nat.eqb_neq _ _) H2).
Qed.

(** Elimination with the coefficients of column [i] of [a]. *)
Definition clear (i : nat) (a b : matrix) : matrix :=
  imap (fun j r => if j =? i then r else add_row (at_ a j i) r (nth i b [])) b.

Lemma clear_lookup i a b p : clear i a b !! p =
  (fun r => if p =? i then r else add_row (at_ a p i) r (nth i b [])) <$> b !! p.
Proof. unfold clear. by rewrite list_lookup_imap. Qed.

Lemma clear_shaped i a b : shaped n n b → i < n → shaped n n (clear i a b).
Proof.
  intros Hb Hi. apply shaped_lookup; [unfold clear; rewrite length_imap; apply Hb |]. intros p r Hp. rewrite clear_lookup in Hp.
  destruct (b !! p) as [r' |] eqn:E; [| done]. injection Hp as <-. assert (length r' = n) as Hr by (apply Hb; by eapply list_elem_of_lookup_2).
  destruct (p =? i); [done |]. unfold add_row. rewrite length_zip_with, (at_row n n b i Hb Hi). lia.
Qed.

Lemma at_clear i a b p q : shaped n n b → i < n → p < n →
  at_ (clear i a b) p q = if p =? i then at_ b p q else add (at_ b p q) (gf_mul (at_ a p i) (at_ b i q)).
Proof.
  intros Hb Hi Hp. destruct (lookup_row n n b p Hb Hp) as (r & E & Hr). rewrite (at_lookup b p r q E).
  rewrite (at_lookup _ p (if p =? i then r else add_row (at_ a p i) r (nth i b []))) by (by rewrite clear_lookup, E).
  destruct (p =? i); [done |]. rewrite nth_add; [done |]. by rewrite (at_row n n b i Hb Hi).
Qed.
End row_operations.

(** ** Inversion *)
Section inversion.
Context (n : nat) (A : matrix) (HA : shaped n n A).

(** The product of a matrix with a vector. *)
Definition apply_row (a : matrix) (p : nat) (x : nat → byte) : byte := sum n (fun q => gf_mul (at_ a p q) (x q)).

(** [a] is [out] times [A], and [a] has no larger kernel than [A]. *)
Record derived (a out : matrix) : Prop := {
  dv_a : shaped n n a;
  dv_out : shaped n n out;
  dv_product : ∀ p q, p < n → q < n → at_ a p q = sum n (fun l => gf_mul (at_ out p l) (at_ A l q));
  dv_kernel : ∀ x, (∀ p, p < n → apply_row a p x = x00) → ∀ p, p < n → apply_row A p x = x00;
}.

(** The first [i] columns are those of the identity. *)
Definition reduced (i : nat) (a : matrix) : Prop :=
  ∀ p q, p < n → q < i → at_ a p q = if p =? q then x01 else x00.

Lemma derived_swap a out i j : derived a out → i < n → j < n → derived (swap_rows i j a) (swap_rows i j out).
Proof.
  intros [Ha Ho Hp Hk] Hi Hj. split; [by apply swap_shaped.. | |].
  - intros p q Hp' Hq. rewrite (at_swap n) by done. rewrite Hp by (done || by apply swap_index_lt).
    apply sum_ext. intros l Hl. by rewrite (at_swap n).
  - intros x Hx. apply Hk. intros p Hp'. pose proof (swap_index_lt n i j p Hi Hj Hp') as Hs.
    rewrite <- (Hx (swap_index i j p) Hs). apply sum_ext. intros q _. rewrite (at_swap n) by done. by rewrite swap_index_twice.
Qed.

Lemma derived_scale a out i c : derived a out → i < n → c ≠ x00 → derived (alter (scale_row c) i a) (alter (scale_row c) i out).
Proof.
  intros [Ha Ho Hp Hk] Hi Hc. split; [by apply scale_shaped.. | |].
  - intros p q Hp' Hq. rewrite (at_scale n) by done. destruct (p =? i) eqn:E.
    + rewrite Hp, gf_mul_comm, <- sum_mul by done. apply sum_ext. intros l _. rewrite (at_scale n), E by done. ring.
    + rewrite Hp by done. apply sum_ext. intros l _. by rewrite (at_scale n), E.
  - intros x Hx. apply Hk. intros p Hp'. specialize (Hx p Hp'). unfold apply_row in *. destruct (p =? i) eqn:E.
    + apply (gf_mul_eq_0 c); [| done]. rewrite <- Hx, <- sum_mul. apply sum_ext. intros q _. rewrite (at_scale n), E by done. ring.
    + rewrite <- Hx. apply sum_ext. intros q _. by rewrite (at_scale n), E.
Qed.

Lemma derived_clear a out i : derived a out → i < n → derived (clear i a a) (clear i a out).
Proof.
  intros [Ha Ho Hp Hk] Hi. split; [by apply clear_shaped.. | |].
  - intros p q Hp' Hq. rewrite (at_clear n) by done. destruct (p =? i) eqn:E.
    + rewrite Hp by done. apply sum_ext. intros l _. by rewrite (at_clear n), E.
    + rewrite (Hp p), (Hp i), <- sum_mul, <- sum_add by done. apply sum_ext. intros l _. rewrite (at_clear n), E by done. ring.
  - intros x Hx. apply Hk. assert (apply_row a i x = x00) as H0.
    { rewrite <- (Hx i Hi). apply sum_ext. intros q _. by rewrite (at_clear n), Nat.eqb_refl. }
    intros p Hp'. specialize (Hx p Hp'). unfold apply_row in *. destruct (p =? i) eqn:E.
    { by apply Nat.eqb_eq in E as ->. }
    assert (add (sum n (fun q => gf_mul (at_ a p q) (x q))) (gf_mul (at_ a p i) (sum n (fun q => gf_mul (at_ a i q) (x q)))) = x00) as Hs.
    { rewrite <- Hx, <- sum_mul, <- sum_add. apply sum_ext. intros q _. rewrite (at_clear n), E by done. ring. }
    rewrite H0, gf_mul_0_r in Hs. by rewrite add_comm, add_0_l in Hs.
Qed.

Lemma find_pivot_spec a i fuel : ∀ j,
  match find_pivot fuel j i a with
  | Some j' => j ≤ j' < j + fuel ∧ at_ a j' i ≠ x00
  | None => ∀ p, j ≤ p < j + fuel → at_ a p i = x00
  end.
Proof.
  induction fuel as [| fuel IH]; intros j; cbn [find_pivot]; [intros; lia |].
  destruct (Byte.eqb (at_ a j i) x00) eqn:E.
  - apply Byte.byte_dec_bl in E. specialize (IH (S j)). destruct (find_pivot fuel (S j) i a).
    + destruct IH. split; [lia | done].
    + intros p Hp. destruct (decide (p = j)) as [-> | ]; [done |]. apply IH. lia.
  - apply Byte.eqb_false in E. split; [lia | done].
Qed.

(** The part of the step before the elimination: a nonzero pivot. *)
Lemma pivot_step i a out :
  i < n → derived a out → reduced i a →
  match (if Byte.eqb (at_ a i i) x00 then
           j ← find_pivot (n - S i) (S i) i a; Some (swap_rows i j a, swap_rows i j out)
         else Some (a, out)) with
  | Some (a', out') => derived a' out' ∧ reduced i a' ∧ at_ a' i i ≠ x00
  | None => ∀ p, i ≤ p < n → at_ a p i = x00
  end.
Proof.
  intros Hi Hd Hr. destruct (Byte.eqb (at_ a i i) x00) eqn:E; [| by apply Byte.eqb_false in E].
  apply Byte.byte_dec_bl in E. pose proof (find_pivot_spec a i (n - S i) (S i)) as Hf.
  destruct (find_pivot (n - S i) (S i) i a) as [j |]; cbn.
  - destruct Hf as [Hj Hne]. split; [apply derived_swap; [done | done | lia] |]. pose proof (dv_a _ _ Hd) as Ha. split.
    + intros p q Hp Hq. rewrite (at_swap n) by (done || lia). unfold swap_index.
      destruct (Nat.eqb_spec p i) as [-> | ]; [| destruct (Nat.eqb_spec p j) as [-> | ]; [| by apply Hr]]; rewrite Hr by lia;
        rewrite !(proj2 (Nat.eqb_neq _ _)) by lia; done.
    + rewrite (at_swap n) by (done || lia). unfold swap_index. by rewrite Nat.eqb_refl.
  - intros p Hp. destruct (decide (p = i)) as [-> | ]; [done |]. apply Hf. lia.
Qed.

Lemma eliminate_step i a out :
  i < n → derived a out → reduced i a → at_ a i i ≠ x00 →
  let '(a', out') := eliminate i (alter (scale_row (gf_inv (at_ a i i))) i a, alter (scale_row (gf_inv (at_ a i i))) i out) in
  derived a' out' ∧ reduced (S i) a'.
Proof.
  intros Hi Hd Hr Hne. set (c := gf_inv (at_ a i i)). pose proof (gf_inv_nonzero _ Hne) as Hc. fold c in Hc.
  pose proof (derived_scale a out i c Hd Hi Hc) as Hd1. set (a1 := alter (scale_row c) i a) in *. set (out1 := alter (scale_row c) i out) in *.
  pose proof (dv_a _ _ Hd) as Ha. pose proof (dv_a _ _ Hd1) as Ha1.
  change (eliminate i (a1, out1)) with (clear i a1 a1, clear i a1 out1). split; [by apply derived_clear |].
  assert (∀ q, q < i → at_ a1 i q = x00) as H0.
  { intros q Hq. unfold a1. rewrite (at_scale n), Nat.eqb_refl, Hr by (done || lia). by rewrite (proj2 (Nat.eqb_neq _ _)) by lia. }
  assert (at_ a1 i i = x01) as H1.
  { unfold a1. rewrite (at_scale n), Nat.eqb_refl by done. rewrite gf_mul_comm. by apply gf_inv_l. }
  intros p q Hp Hq. rewrite (at_clear n) by done. destruct (decide (q = i)) as [-> | Hqi].
  - destruct (Nat.eqb_spec p i) as [-> | ]; [done |]. rewrite H1. rewrite (gf_mul_comm _ x01), gf_mul_1_l. apply add_self.
  - rewrite H0, gf_mul_0_r by lia. unfold a1. rewrite (at_scale n) by done. destruct (Nat.eqb_spec p i) as [-> | ].
    + rewrite Hr by lia. by rewrite (proj2 (Nat.eqb_neq _ _)) by lia.
    + rewrite add_comm, add_0_l. apply Hr; lia.
Qed.

(** A matrix whose column [i] is empty from row [i] on has a vector in its kernel. *)
Lemma singular_kernel i a :
  i < n → reduced i a → (∀ p, i ≤ p < n → at_ a p i = x00) →
  let x q := if q =? i then x01 else if q <? i then at_ a q i else x00 in
  x i ≠ x00 ∧ ∀ p, p < n → apply_row a p x = x00.
Proof.
  intros Hi Hr H0 x. split; [unfold x; by rewrite Nat.eqb_refl |]. intros p Hp. unfold apply_row.
  assert (∀ m, i < m → m ≤ n → sum m (fun q => gf_mul (at_ a p q) (x q)) =
    add (sum i (fun q => gf_mul (at_ a p q) (x q))) (at_ a p i)) as Hs.
  { induction m as [| m IH]; intros Him Hmn; [lia |]. cbn. destruct (decide (m = i)) as [-> | ].
    - unfold x at 2. rewrite Nat.eqb_refl. rewrite (gf_mul_comm _ x01), gf_mul_1_l. done.
    - rewrite IH by lia. unfold x at 2. rewrite (proj2 (Nat.eqb_neq _ _)), (proj2 (Nat.ltb_ge _ _)) by lia.
      rewrite gf_mul_0_r. ring. }
  rewrite Hs by lia. destruct (decide (p < i)) as [Hpi | Hpi].
  - rewrite (sum_single i p) by (done || intros q Hq Hne; rewrite Hr by lia; by rewrite (proj2 (Nat.eqb_neq _ _)) by lia).
    rewrite Hr by lia. rewrite Nat.eqb_refl, gf_mul_1_l. unfold x.
    rewrite (proj2 (Nat.eqb_neq _ _)), (proj2 (Nat.ltb_lt _ _)) by lia. apply add_self.
  - rewrite H0 by lia. rewrite sum_0; [done |]. intros q Hq. rewrite Hr by lia. by rewrite (proj2 (Nat.eqb_neq _ _)) by lia.
Qed.

(** What the loop comes to from column [i] on. *)
Lemma invert_loop_spec count : ∀ i a out,
  i + count = n → derived a out → reduced i a →
  match invert_loop count n i (a, out) with
  | (true, out') => shaped n n out' ∧
      ∀ p q, p < n → q < n → sum n (fun l => gf_mul (at_ out' p l) (at_ A l q)) = if p =? q then x01 else x00
  | (false, _) => ∃ x k, k < n ∧ x k ≠ x00 ∧ ∀ p, p < n → apply_row A p x = x00
  end.
Proof.
  induction count as [| count IH]; intros i a out Hc Hd Hr; cbn [invert_loop].
  { split; [apply (dv_out _ _ Hd) |]. intros p q Hp Hq. cbn [snd]. rewrite <- (dv_product _ _ Hd) by done. apply Hr; lia. }
  pose proof (pivot_step i a out ltac:(lia) Hd Hr) as Hp. unfold invert_step.
  destruct (if Byte.eqb (at_ a i i) x00 then _ else _) as [[a1 out1] |]; cbn [mbind option_bind].
  - destruct Hp as (Hd1 & Hr1 & Hne). pose proof (eliminate_step i a1 out1 ltac:(lia) Hd1 Hr1 Hne) as He.
    destruct (eliminate _ _) as [a2 out2]. destruct He. apply IH; [lia | done | done].
  - pose proof (singular_kernel i a ltac:(lia) Hr Hp) as H. cbv zeta in H. destruct H as [Hx Hk].
    exists (fun q => if q =? i then x01 else if q <? i then at_ a q i else x00), i. split; [lia |]. split; [exact Hx |].
    by apply (dv_kernel _ _ Hd).
Qed.

Lemma identity_shaped : shaped n n (identity_row n <$> seq 0 n).
Proof.
  split; [by rewrite length_fmap, length_seq |]. intros r (i & -> & _)%list_elem_of_fmap. unfold identity_row.
  by rewrite length_fmap, length_seq.
Qed.

Lemma at_identity p q : p < n → q < n → at_ (identity_row n <$> seq 0 n) p q = if q =? p then x01 else x00.
Proof. intros Hp Hq. unfold at_. rewrite nth_fmap_seq by done. unfold identity_row. by rewrite nth_fmap_seq. Qed.

Lemma derived_start : derived A (identity_row n <$> seq 0 n).
Proof.
  split; [done | apply identity_shaped | | done]. intros p q Hp Hq. rewrite (sum_single n p); [| done |].
  - by rewrite at_identity, Nat.eqb_refl, gf_mul_1_l.
  - intros l Hl Hne. rewrite at_identity by done. by rewrite (proj2 (Nat.eqb_neq _ _)).
Qed.

Lemma invert_spec :
  match gf_invert_matrix A n with
  | (true, out) => shaped n n out ∧
      ∀ p q, p < n → q < n → sum n (fun l => gf_mul (at_ out p l) (at_ A l q)) = if p =? q then x01 else x00
  | (false, _) => ∃ x k, k < n ∧ x k ≠ x00 ∧ ∀ p, p < n → apply_row A p x = x00
  end.
Proof. apply invert_loop_spec; [done | apply derived_start | intros p q _ Hq; lia]. Qed.

(** [gf_invert_matrix] succeeds exactly on the matrices whose kernel is trivial, and then its
    result is the inverse. *)
Theorem invert_exact :
  ((gf_invert_matrix A n).1 = true ↔ ∀ x, (∀ p, p < n → apply_row A p x = x00) → ∀ k, k < n → x k = x00) ∧
  ((gf_invert_matrix A n).1 = true →
   ∀ p q, p < n → q < n →
     sum n (fun l => gf_mul (at_ (gf_invert_matrix A n).2 p l) (at_ A l q)) = if p =? q then x01 else x00).
Proof.
  pose proof invert_spec as H. destruct (gf_invert_matrix A n) as [[] out]; cbn [fst snd].
  - destruct H as [Ho H]. split; [| done]. split; [| done]. intros _ x Hx k Hk.
    transitivity (sum n (fun q => gf_mul (if k =? q then x01 else x00) (x q))).
    { rewrite (sum_single n k); [by rewrite Nat.eqb_refl, gf_mul_1_l | done |].
      intros q Hq Hne. by rewrite (proj2 (Nat.eqb_neq _ _)). }
    transitivity (sum n (fun q => sum n (fun l => gf_mul (at_ out k l) (gf_mul (at_ A l q) (x q))))).
    { apply sum_ext. intros q Hq. rewrite <- H by done. rewrite gf_mul_comm, <- sum_mul. apply sum_ext. intros l _. ring. }
    rewrite sum_swap. apply sum_0. intros l Hl. rewrite sum_mul. fold (apply_row A l x). rewrite Hx by done. apply gf_mul_0_r.
  - split; [| done]. split; [done |]. intros Hall. destruct H as (x & k & Hk & Hne & Hx). destruct Hne. by apply (Hall x Hx).
Qed.
End inversion.

(** A matrix that needs an exchange of rows. *)
Lemma invert_exact_witness :
  let a := [[x00; x02]; [x03; x01]] in
  shaped 2 2 a ∧ (gf_invert_matrix a 2).1 = true ∧
  sum 2 (fun l => gf_mul (at_ (gf_invert_matrix a 2).2 1 l) (at_ a l 1)) = x01.
Proof.
  intros a. assert (shaped 2 2 a) as Ha.
  { split; [done |]. intros r [-> | [-> | []%elem_of_nil]%elem_of_cons]%elem_of_cons; done. }
  assert ((gf_invert_matrix a 2).1 = true) as E by (vm_compute; reflexivity).
  split; [done |]. split; [done |]. apply (proj2 (invert_exact 2 a Ha) E 1 1); lia.
Defined.

Lemma encode_functions_agree_witness :
  let c := {| cpu_avx2 := true; cpu_avx := true; cpu_ssse3 := true |} in
  let v := ec_init_tables 2 1 [x02; x03] in
  1 * 2 * 32 ≤ length v ∧
  ec_encode_data c 1 2 1 v [[x04]; [x05]] = ec_encode_data_default 1 2 1 v [[x04]; [x05]].
Proof.
  intros c v. assert (1 * 2 * 32 ≤ length v) as Hv by (vm_compute; lia). split; [done |].
  by apply (encode_functions_agree c 1 2 1 v).
Defined.
