(* ===== verification/CodeMatrix.v ===== *)
(** * The generator matrices have maximal distance

    Every selection of [k] rows of a generator matrix of src/common/galois_field_isal.cc, as
    [createRSMatrix] of src/common/reed_solomon.h chooses it, has a trivial kernel: the
    Cauchy matrix always, the matrix of powers of two with up to three parity rows and up to
    32 columns, or four parity rows and up to 20 columns. *)

From Stdlib Require Import Strings.Byte Ring.
From S2P Require Import Prelude GaloisField ErasureCode.
Open Scope nat_scope.

(** ** Sums over lists *)

Fixpoint lsum {A} (l : list A) (f : A → byte) : byte := match l with [] => x00 | a :: l => add (f a) (lsum l f) end.

Lemma lsum_ext {A} (l : list A) f g : (∀ a, a ∈ l → f a = g a) → lsum l f = lsum l g.
Proof.
  induction l as [| a l IH]; intros H; cbn; [done |]. rewrite H by left. f_equal. apply IH. intros; apply H; by right.
Qed.

Lemma lsum_add {A} (l : list A) f g : lsum l (fun a => add (f a) (g a)) = add (lsum l f) (lsum l g).
Proof. induction l as [| a l IH]; cbn; [done |]. rewrite IH. ring. Qed.

Lemma lsum_mul {A} (l : list A) c f : lsum l (fun a => gf_mul c (f a)) = gf_mul c (lsum l f).
Proof. induction l as [| a l IH]; cbn; [by rewrite gf_mul_0_r |]. rewrite IH. ring. Qed.

Lemma lsum_0 {A} (l : list A) f : (∀ a, a ∈ l → f a = x00) → lsum l f = x00.
Proof. induction l as [| a l IH]; intros H; cbn; [done |]. rewrite H by left. rewrite IH; [done |]. intros; apply H; by right. Qed.

#[global] Instance lsum_perm {A} : Proper ((≡ₚ) ==> (=) ==> (=)) (@lsum A).
Proof.
  intros l l' Hp f ? <-. induction Hp as [| a l l' Hp IH | a b l | l l' l'' H1 IH1 H2 IH2]; cbn; [done | by rewrite IH | ring | congruence].
Qed.

Lemma lsum_app {A} (l l' : list A) f : lsum (l ++ l') f = add (lsum l f) (lsum l' f).
Proof. induction l as [| a l IH]; cbn; [by rewrite add_0_l |]. rewrite IH. ring. Qed.

Lemma lsum_fmap {A B} (g : A → B) l f : lsum (g <$> l) f = lsum l (fun a => f (g a)).
Proof. induction l as [| a l IH]; cbn; [done |]. by rewrite <- IH. Qed.

Lemma sum_lsum n f : sum n f = lsum (seq 0 n) f.
Proof. induction n as [| n IH]; [done |]. rewrite seq_S, lsum_app, <- IH. cbn. ring. Qed.

Lemma lsum_filter {A} (P : A → Prop) `{∀ a, Decision (P a)} l f : (∀ a, a ∈ l → ¬ P a → f a = x00) → lsum l f = lsum (filter P l) f.
Proof.
  induction l as [| a l IH]; intros Hf; [done |]. cbn [lsum]. rewrite filter_cons.
  rewrite IH by (intros; apply Hf; [by right | done]). case_decide as Hp; [done |]. rewrite Hf by (done || left). apply add_0_l.
Qed.

(** ** From minors to selections of rows *)

(** The equation of row [r] of a matrix of coefficients, over the columns [cols]. *)
Definition equation (C : nat → nat → byte) (cols : list nat) (x : nat → byte) (r : nat) : Prop :=
  lsum cols (fun j => gf_mul (C r j) (x j)) = x00.

(** Every square part of the coefficients of [m] rows and [k] columns has a trivial kernel. *)
Definition regular (m k : nat) (C : nat → nat → byte) : Prop :=
  ∀ rows cols x, NoDup rows → NoDup cols → length rows = length cols →
    (∀ r, r ∈ rows → r < m) → (∀ j, j ∈ cols → j < k) →
    (∀ r, r ∈ rows → equation C cols x r) → ∀ j, j ∈ cols → x j = x00.

(** Every [k] rows of the generator matrix determine the data. *)
Definition determining (m k : nat) (G : matrix) : Prop :=
  ∀ rows x, NoDup rows → length rows = k → (∀ r, r ∈ rows → r < k + m) →
    (∀ r, r ∈ rows → sum k (fun q => gf_mul (at_ G r q) (x q)) = x00) → ∀ q, q < k → x q = x00.

(** A matrix with the identity above coefficients. *)
Record systematic (m k : nat) (G : matrix) (C : nat → nat → byte) : Prop := {
  sy_data : ∀ r q, r < k → q < k → at_ G r q = if q =? r then x01 else x00;
  sy_parity : ∀ r q, r < m → q < k → at_ G (k + r) q = C r q;
}.

Lemma regular_determining m k G C : systematic m k G C → regular m k C → determining m k G.
Proof.
  intros [Hd Hp] Hreg rows x Hnd Hlen Hlt Heq.
  assert (∀ q, q < k → q ∈ rows → x q = x00) as Hknown.
  { intros q Hq Hin. rewrite <- (Heq q Hin). rewrite (sum_single k q); [| done |].
    - by rewrite Hd, Nat.eqb_refl, gf_mul_1_l.
    - intros i Hi Hne. rewrite Hd by done. by rewrite (proj2 (Nat.eqb_neq _ _)). }
  set (cols := filter (fun q => q ∉ rows) (seq 0 k)).
  set (parity := (fun r => r - k) <$> filter (fun r => k ≤ r) rows).
  assert (∀ q, q ∈ cols ↔ q < k ∧ q ∉ rows) as Hcols.
  { intros q. unfold cols. rewrite list_elem_of_filter, elem_of_seq. naive_solver lia. }
  assert (∀ r, r ∈ parity ↔ k + r ∈ rows) as Hpar.
  { intros r. unfold parity. rewrite list_elem_of_fmap. split.
    - intros (r' & -> & [H1 H2]%list_elem_of_filter). by replace (k + (r' - k)) with r' by lia.
    - intros Hin. exists (k + r). split; [lia |]. apply list_elem_of_filter. split; [lia | done]. }
  assert (length parity = length cols) as Hlen'.
  { pose proof (filter_app_complement (fun r => k ≤ r) rows) as E1.
    pose proof (filter_app_complement (fun q => q ∉ rows) (seq 0 k)) as E2.
    assert (filter (fun r => ¬ k ≤ r) rows ≡ₚ filter (fun q => ¬ (q ∉ rows)) (seq 0 k)) as E3.
    { apply NoDup_Permutation; [by apply NoDup_filter | apply NoDup_filter, NoDup_seq |].
      intros q. rewrite !list_elem_of_filter, elem_of_seq. destruct (decide (q ∈ rows)); naive_solver lia. }
    apply Permutation_length in E1, E2, E3. rewrite !length_app in *. rewrite length_seq in E2. unfold parity, cols. rewrite length_fmap. lia. }
  assert (∀ j, j ∈ cols → x j = x00) as Hall.
  { apply (Hreg parity cols x); try done.
    - unfold parity. apply NoDup_fmap_2_strong; [| by apply NoDup_filter].
      intros a b [Ha _]%list_elem_of_filter [Hb _]%list_elem_of_filter E. lia.
    - apply NoDup_filter, NoDup_seq.
    - intros r Hr%Hpar%Hlt. lia.
    - intros j Hj%Hcols. lia.
    - intros r Hr. unfold equation. pose proof Hr as Hr'. apply Hpar in Hr'. rewrite <- (Heq _ Hr'), sum_lsum.
      rewrite (lsum_filter (fun q => q ∉ rows) (seq 0 k)).
      + apply lsum_ext. intros j Hj%Hcols. pose proof (Hlt _ Hr'). by rewrite Hp by lia.
      + intros q [_ Hq]%elem_of_seq Hn. rewrite (Hknown q); [apply gf_mul_0_r | lia |]. by destruct (decide (q ∈ rows)). }
  intros q Hq. destruct (decide (q ∈ rows)) as [Hin | Hin]; [by apply Hknown | by apply Hall, Hcols].
Qed.

(** ** Cauchy matrices *)

Lemma inverse_step x y y0 : x ≠ y →
  gf_mul (add x y0) (gf_inv (add x y)) = add x01 (gf_mul (add y y0) (gf_inv (add x y))).
Proof.
  intros Hne. assert (add x y ≠ x00) as Hs by (by intros E%add_zero_eq).
  pose proof (gf_inv_l _ Hs) as Hi. rewrite <- Hi.
  assert (add x y0 = add (add x y) (add y y0)) as ->.
  { transitivity (add (add x y0) (add y y)); [| ring]. rewrite add_self. ring. }
  ring.
Qed.

Lemma inverse_difference x x0 y : x ≠ y → x0 ≠ y →
  add (gf_inv (add x y)) (gf_inv (add x0 y)) = gf_mul (add x x0) (gf_mul (gf_inv (add x0 y)) (gf_inv (add x y))).
Proof.
  intros Hx Hx0. assert (add x y ≠ x00) as H1 by (by intros E%add_zero_eq). assert (add x0 y ≠ x00) as H2 by (by intros E%add_zero_eq).
  pose proof (gf_inv_l _ H1) as E1. pose proof (gf_inv_l _ H2) as E2. set (a := gf_inv (add x y)) in *. set (b := gf_inv (add x0 y)) in *.
  transitivity (add (gf_mul a (gf_mul b (add x0 y))) (gf_mul b (gf_mul a (add x y)))); [rewrite E1, E2; ring |].
  assert (add x x0 = add (add x y) (add x0 y)) as ->.
  { transitivity (add (add x x0) (add y y)); [rewrite add_self |]; ring. }
  ring.
Qed.

(** Sums of fractions with different poles vanish at as many points only when the
    coefficients do: by induction on the poles. *)
Lemma cauchy_kernel ys : ∀ xs c,
  NoDup ys → NoDup xs → length xs = length ys → (∀ x y, x ∈ xs → y ∈ ys → x ≠ y) →
  (∀ x, x ∈ xs → lsum ys (fun y => gf_mul (gf_inv (add x y)) (c y)) = x00) → ∀ y, y ∈ ys → c y = x00.
Proof.
  induction ys as [| y0 ys IH]; intros xs c Hys Hxs Hl Hd Heq; [intros y Hy; by apply elem_of_nil in Hy |].
  destruct xs as [| x0 xs]; [done |]. apply NoDup_cons in Hys as [Hy0 Hys]. apply NoDup_cons in Hxs as [Hx0 Hxs].
  assert (∀ x, x ∈ x0 :: xs → x ≠ y0) as Hd0 by (intros x Hx; apply Hd; [done | left]).
  assert (∀ x y, x ∈ x0 :: xs → y ∈ ys → x ≠ y) as Hdy by (intros x y Hx Hy; apply Hd; [done | by right]).
  (* multiplied by the first denominator *)
  assert (∀ x, x ∈ x0 :: xs → add (add (c y0) (lsum ys c)) (lsum ys (fun y => gf_mul (gf_mul (c y) (add y y0)) (gf_inv (add x y)))) = x00) as H1.
  { intros x Hx. specialize (Heq x Hx). cbn [lsum] in Heq. assert (add x y0 ≠ x00) as Hs by (intros E%add_zero_eq; by apply (Hd0 x)).
    rewrite <- (gf_mul_0_r (add x y0)), <- Heq, gf_mul_add_r, <- lsum_mul, <- add_assoc, <- lsum_add. f_equal.
    - transitivity (gf_mul (gf_mul (gf_inv (add x y0)) (add x y0)) (c y0)); [rewrite gf_inv_l by done |]; ring.
    - apply lsum_ext. intros y Hy.
      transitivity (gf_mul (c y) (gf_mul (add x y0) (gf_inv (add x y)))); [rewrite inverse_step by (by apply Hdy) |]; ring. }
  (* subtracted from the first point *)
  assert (∀ y, y ∈ ys → gf_mul (gf_inv (add x0 y)) (gf_mul (c y) (add y y0)) = x00) as H2.
  { apply (IH xs (fun y => gf_mul (gf_inv (add x0 y)) (gf_mul (c y) (add y y0)))); [done | done | by injection Hl | |].
    { intros x y Hx Hy. apply Hdy; [by right | done]. }
    intros x Hx. apply (gf_mul_eq_0 (add x x0)); [| intros ->%add_zero_eq; done]. rewrite <- lsum_mul.
    transitivity (add (lsum ys (fun y => gf_mul (gf_mul (c y) (add y y0)) (gf_inv (add x y))))
                      (lsum ys (fun y => gf_mul (gf_mul (c y) (add y y0)) (gf_inv (add x0 y))))).
    - rewrite <- lsum_add. apply lsum_ext. intros y Hy.
      transitivity (gf_mul (gf_mul (c y) (add y y0)) (add (gf_inv (add x y)) (gf_inv (add x0 y)))); [| ring].
      rewrite inverse_difference; [ring | apply Hdy; [by right | done] | apply Hdy; [left | done]].
    - pose proof (H1 x ltac:(by right)) as Ex. pose proof (H1 x0 ltac:(left)) as E0.
      apply add_zero_eq in Ex, E0. by rewrite <- Ex, <- E0, add_self. }
  assert (∀ y, y ∈ ys → c y = x00) as H3.
  { intros y Hy. specialize (H2 y Hy). apply gf_mul_eq_0 in H2.
    - rewrite gf_mul_comm in H2. apply gf_mul_eq_0 in H2; [done |]. intros ->%add_zero_eq. done.
    - apply gf_inv_nonzero. intros E%add_zero_eq. by apply (Hdy x0 y (list_elem_of_here _ _) Hy). }
  intros y [-> | Hy]%elem_of_cons; [| by apply H3].
  specialize (Heq x0 (list_elem_of_here _ _)). cbn [lsum] in Heq. rewrite lsum_0 in Heq.
  - rewrite add_comm, add_0_l in Heq. apply gf_mul_eq_0 in Heq; [done |]. apply gf_inv_nonzero. intros E%add_zero_eq.
    by apply (Hd0 x0 (list_elem_of_here _ _)).
  - intros y Hy. rewrite H3 by done. apply gf_mul_0_r.
Qed.

(** Numbers below 64 as bytes. *)
Lemma of_nat_lxor a b : a < 64 → b < 64 → of_nat (Nat.lxor a b) = add (of_nat a) (of_nat b).
Proof.
  intros Ha Hb. assert (forallb (fun a => forallb (fun b => Byte.eqb (of_nat (Nat.lxor a b)) (add (of_nat a) (of_nat b))) (seq 0 64)) (seq 0 64) = true) as H
    by (vm_compute; reflexivity).
  rewrite forallb_forall in H. specialize (H a). rewrite forallb_forall in H. apply Byte.byte_dec_bl, H; apply in_seq; lia.
Qed.

Lemma to_of_nat a : a < 64 → to_nat (of_nat a) = a.
Proof.
  intros Ha. assert (forallb (fun a => to_nat (of_nat a) =? a) (seq 0 64) = true) as H by (vm_compute; reflexivity).
  rewrite forallb_forall in H. apply Nat.eqb_eq, H, in_seq. lia.
Qed.

Definition cauchy (k i j : nat) : byte := gf_inv (of_nat (Nat.lxor (k + i) j)).

Lemma cauchy_regular m k : k + m ≤ 64 → regular m k (cauchy k).
Proof.
  intros Hk rows cols x Hr Hc Hl Hrm Hck Heq j Hj.
  rewrite <- (to_of_nat j) by (specialize (Hck j Hj); lia).
  apply (cauchy_kernel (of_nat <$> cols) ((fun r => of_nat (k + r)) <$> rows) (fun y => x (to_nat y))).
  - apply NoDup_fmap_2_strong; [| done]. intros a b Ha%Hck Hb%Hck E. rewrite <- (to_of_nat a), <- (to_of_nat b) by lia. by rewrite E.
  - apply NoDup_fmap_2_strong; [| done]. intros a b Ha%Hrm Hb%Hrm E.
    assert (k + a = k + b); [| lia]. rewrite <- (to_of_nat (k + a)), <- (to_of_nat (k + b)) by lia. by rewrite E.
  - by rewrite !length_fmap.
  - intros ? ? (r & -> & Hr'%Hrm)%list_elem_of_fmap (c & -> & Hc'%Hck)%list_elem_of_fmap E.
    assert (k + r = c); [| lia]. rewrite <- (to_of_nat (k + r)), <- (to_of_nat c) by lia. by rewrite E.
  - intros ? (r & -> & Hr')%list_elem_of_fmap. rewrite lsum_fmap. rewrite <- (Heq r Hr'). apply lsum_ext. intros c Hc'.
    specialize (Hrm r Hr'). specialize (Hck c Hc'). unfold cauchy. rewrite of_nat_lxor, to_of_nat by lia. done.
  - by apply list_elem_of_fmap_2.
Qed.

(** ** Matrices of powers *)

Definition power (i j : nat) : byte := pow2 (i * j).

Lemma pow2_add n m : pow2 (n + m) = gf_mul (pow2 n) (pow2 m).
Proof. by rewrite <- double_pow2, double_mul. Qed.

Lemma power_spec i j : i < 4 →
  power i j = match i with 0 => x01 | 1 => pow2 j | 2 => gf_mul (pow2 j) (pow2 j) | _ => gf_mul (pow2 j) (gf_mul (pow2 j) (pow2 j)) end.
Proof.
  intros Hi. unfold power. destruct i as [| [| [| [| i]]]]; try lia; cbn [Nat.mul]; rewrite ?Nat.add_0_r, ?pow2_add; try done.
Qed.

(** Reordering the columns does not change an equation. *)
Lemma equation_perm C cols cols' x r : cols ≡ₚ cols' → equation C cols x r → equation C cols' x r.
Proof. intros Hp. unfold equation. by rewrite Hp. Qed.

Lemma regular_head m k C :
  (∀ rows j cols x, NoDup rows → NoDup (j :: cols) → length rows = S (length cols) →
    (∀ r, r ∈ rows → r < m) → (∀ l, l ∈ j :: cols → l < k) → (∀ r, r ∈ rows → equation C (j :: cols) x r) → x j = x00) →
  regular m k C.
Proof.
  intros H rows cols x Hr Hc Hl Hrm Hck Heq j Hj. apply list_elem_of_split in Hj as (l1 & l2 & ->).
  assert (l1 ++ j :: l2 ≡ₚ j :: l1 ++ l2) as Hp by (symmetry; apply Permutation_middle).
  apply (H rows j (l1 ++ l2)); [done | by rewrite <- Hp | | done | |].
  - rewrite Hl, Hp. done.
  - intros l Hin. apply Hck. by rewrite Hp.
  - intros r Hin. eapply equation_perm; [exact Hp | by apply Heq].
Qed.

(** The sums that distinguish four columns with the rows 0, 1, 3 and 0, 2, 3. *)
Lemma triple_sums a b c : a < 20 → b < 20 → c < 20 → a ≠ b → a ≠ c → b ≠ c →
  add (pow2 a) (add (pow2 b) (pow2 c)) ≠ x00 ∧ add (pow2 (a + b)) (add (pow2 (a + c)) (pow2 (b + c))) ≠ x00.
Proof.
  intros Ha Hb Hc Hab Hac Hbc.
  assert (forallb (fun a => forallb (fun b => forallb (fun c =>
      (a =? b) || (a =? c) || (b =? c) ||
      (negb (Byte.eqb (add (nth a gf_exp_table x00) (add (nth b gf_exp_table x00) (nth c gf_exp_table x00))) x00) &&
       negb (Byte.eqb (add (nth (a + b) gf_exp_table x00) (add (nth (a + c) gf_exp_table x00) (nth (b + c) gf_exp_table x00))) x00)))
    (seq 0 20)) (seq 0 20)) (seq 0 20) = true) as H by (vm_compute; reflexivity).
  rewrite forallb_forall in H. specialize (H a ltac:(apply in_seq; lia)). rewrite forallb_forall in H.
  specialize (H b ltac:(apply in_seq; lia)). rewrite forallb_forall in H. specialize (H c ltac:(apply in_seq; lia)).
  rewrite !(proj2 (Nat.eqb_neq _ _)) in H by done. cbn [orb] in H. rewrite !exp_table_spec in H by lia.
  apply andb_true_iff in H as [H1%negb_true_iff%Byte.eqb_false H2%negb_true_iff%Byte.eqb_false]. done.
Qed.

Section columns.
Context (X Y Z W x y z w : byte).

Let e0 := add x (add y (add z x00)).
Let e1 := add (gf_mul X x) (add (gf_mul Y y) (add (gf_mul Z z) x00)).
Let e2 := add (gf_mul (gf_mul X X) x) (add (gf_mul (gf_mul Y Y) y) (add (gf_mul (gf_mul Z Z) z) x00)).
Let e3 := add (gf_mul (gf_mul X (gf_mul X X)) x) (add (gf_mul (gf_mul Y (gf_mul Y Y)) y) (add (gf_mul (gf_mul Z (gf_mul Z Z)) z) x00)).

(** Rows 0, 1, 2. *)
Lemma isolate_012 : gf_mul (gf_mul (sub X Y) (sub X Z)) x = add (sub e2 (gf_mul (add Y Z) e1)) (gf_mul (gf_mul Y Z) e0).
Proof. unfold e0, e1, e2. ring. Qed.

(** Rows 1, 2, 3. *)
Lemma isolate_123 : gf_mul (gf_mul X (gf_mul (sub X Y) (sub X Z))) x = add (sub e3 (gf_mul (add Y Z) e2)) (gf_mul (gf_mul Y Z) e1).
Proof. unfold e1, e2, e3. ring. Qed.

(** Rows 0, 1, 3. *)
Lemma isolate_013 :
  gf_mul (gf_mul (gf_mul (sub X Y) (sub X Z)) (add X (add Y Z))) x =
  add (add e3 (gf_mul (sub (gf_mul Y Z) (gf_mul (add Y Z) (add Y Z))) e1)) (gf_mul (gf_mul (gf_mul Y Z) (add Y Z)) e0).
Proof. unfold e0, e1, e3. ring. Qed.

(** Rows 0, 2, 3. *)
Lemma isolate_023 :
  gf_mul (gf_mul (gf_mul (sub X Y) (sub X Z)) (add (gf_mul X Y) (add (gf_mul X Z) (gf_mul Y Z)))) x =
  add (add (gf_mul (add Y Z) e3) (gf_mul (sub (gf_mul Y Z) (gf_mul (add Y Z) (add Y Z))) e2)) (gf_mul (gf_mul (gf_mul Y Z) (gf_mul Y Z)) e0).
Proof. unfold e0, e2, e3. ring. Qed.
End columns.

Lemma three_columns X Y Z x y z :
  let e0 := add x (add y (add z x00)) in
  let e1 := add (gf_mul X x) (add (gf_mul Y y) (add (gf_mul Z z) x00)) in
  let e2 := add (gf_mul (gf_mul X X) x) (add (gf_mul (gf_mul Y Y) y) (add (gf_mul (gf_mul Z Z) z) x00)) in
  let e3 := add (gf_mul (gf_mul X (gf_mul X X)) x) (add (gf_mul (gf_mul Y (gf_mul Y Y)) y) (add (gf_mul (gf_mul Z (gf_mul Z Z)) z) x00)) in
  X ≠ x00 → X ≠ Y → X ≠ Z →
  (e0 = x00 ∧ e1 = x00 ∧ e2 = x00) ∨ (e1 = x00 ∧ e2 = x00 ∧ e3 = x00) ∨
  (e0 = x00 ∧ e1 = x00 ∧ e3 = x00 ∧ add X (add Y Z) ≠ x00) ∨
  (e0 = x00 ∧ e2 = x00 ∧ e3 = x00 ∧ add (gf_mul X Y) (add (gf_mul X Z) (gf_mul Y Z)) ≠ x00) → x = x00.
Proof.
  intros e0 e1 e2 e3 HX HXY HXZ. pose proof (gf_mul_nonzero _ _ (sub_nonzero _ _ HXY) (sub_nonzero _ _ HXZ)) as HV.
  intros [(E0 & E1 & E2) | [(E1 & E2 & E3) | [(E0 & E1 & E3 & Hs) | (E0 & E2 & E3 & Hs)]]].
  - pose proof (isolate_012 X Y Z x y z) as H. fold e0 e1 e2 in H. rewrite E0, E1, E2, !gf_mul_0_r in H. by apply gf_mul_eq_0 in H.
  - pose proof (isolate_123 X Y Z x y z) as H. fold e1 e2 e3 in H. rewrite E1, E2, E3, !gf_mul_0_r in H.
    apply gf_mul_eq_0 in H; [done | by apply gf_mul_nonzero].
  - pose proof (isolate_013 X Y Z x y z) as H. fold e0 e1 e3 in H. rewrite E0, E1, E3, !gf_mul_0_r in H.
    apply gf_mul_eq_0 in H; [done | by apply gf_mul_nonzero].
  - pose proof (isolate_023 X Y Z x y z) as H. fold e0 e2 e3 in H. rewrite E0, E2, E3, !gf_mul_0_r in H.
    apply gf_mul_eq_0 in H; [done | by apply gf_mul_nonzero].
Qed.

Lemma four_columns X Y Z W x y z w :
  X ≠ Y → X ≠ Z → X ≠ W →
  add x (add y (add z (add w x00))) = x00 →
  add (gf_mul X x) (add (gf_mul Y y) (add (gf_mul Z z) (add (gf_mul W w) x00))) = x00 →
  add (gf_mul (gf_mul X X) x) (add (gf_mul (gf_mul Y Y) y) (add (gf_mul (gf_mul Z Z) z) (add (gf_mul (gf_mul W W) w) x00))) = x00 →
  add (gf_mul (gf_mul X (gf_mul X X)) x) (add (gf_mul (gf_mul Y (gf_mul Y Y)) y)
    (add (gf_mul (gf_mul Z (gf_mul Z Z)) z) (add (gf_mul (gf_mul W (gf_mul W W)) w) x00))) = x00 → x = x00.
Proof.
  intros HXY HXZ HXW E0 E1 E2 E3.
  assert (H : gf_mul (gf_mul (gf_mul (sub X Y) (sub X Z)) (sub X W)) x = x00).
  { match type of E0 with ?e0 = _ => match type of E1 with ?e1 = _ => match type of E2 with ?e2 = _ => match type of E3 with ?e3 = _ =>
      transitivity (sub (add (sub e3 (gf_mul (add Y (add Z W)) e2)) (gf_mul (add (gf_mul Y Z) (add (gf_mul Y W) (gf_mul Z W))) e1))
                        (gf_mul (gf_mul Y (gf_mul Z W)) e0)) end end end end; [ring |].
    by rewrite E0, E1, E2, E3, !gf_mul_0_r. }
  apply gf_mul_eq_0 in H; [done |]. by repeat apply gf_mul_nonzero; apply sub_nonzero.
Qed.

(** ** The powers of two are regular for the parameters that use them *)

Lemma two_rows (P : nat → Prop) rows : NoDup rows → length rows = 2 → (∀ r, r ∈ rows → P r) → ∃ a b, a < b ∧ P a ∧ P b.
Proof.
  intros Hnd Hl HP. destruct rows as [| a [| b [|]]]; try discriminate. assert (a ≠ b).
  { intros ->. inversion Hnd as [| ? ? Hn _]. apply Hn. left. }
  assert (P a) by (apply HP; left). assert (P b) by (apply HP; right; left).
  destruct (Nat.lt_total a b) as [| [|]]; [by exists a, b | done | by exists b, a].
Qed.

(** Three of four rows miss one. *)
Lemma three_rows (P : nat → Prop) rows : NoDup rows → length rows = 3 → (∀ r, r ∈ rows → r < 4 ∧ P r) →
  (P 0 ∧ P 1 ∧ P 2) ∨ (P 1 ∧ P 2 ∧ P 3) ∨ (P 0 ∧ P 1 ∧ P 3) ∨ (P 0 ∧ P 2 ∧ P 3).
Proof.
  intros Hnd Hl HP. destruct rows as [| a [| b [| c [|]]]]; try discriminate.
  assert (a ≠ b ∧ a ≠ c ∧ b ≠ c) as (Hab & Hac & Hbc).
  { rewrite !NoDup_cons, !not_elem_of_cons in Hnd. naive_solver. }
  assert (a < 4 ∧ P a) as [Ha HPa] by (apply HP; left). assert (b < 4 ∧ P b) as [Hb HPb] by (apply HP; right; left).
  assert (c < 4 ∧ P c) as [Hc HPc] by (apply HP; right; right; left). clear HP Hnd Hl.
  destruct a as [| [| [| [|]]]]; try lia; destruct b as [| [| [| [|]]]]; try lia; destruct c as [| [| [| [|]]]]; try lia; tauto.
Qed.

Lemma all_rows (P : nat → Prop) rows n : NoDup rows → length rows = n → (∀ r, r ∈ rows → r < n ∧ P r) → ∀ r, r < n → P r.
Proof.
  intros Hnd Hl HP r Hr. apply HP. assert (rows ≡ₚ seq 0 n) as ->; [| by apply elem_of_seq; lia].
  apply submseteq_length_Permutation; [| by rewrite length_seq, Hl]. apply NoDup_submseteq; [done |].
  intros x Hx%HP. apply elem_of_seq. lia.
Qed.

Lemma pow2_ne a b : a < 32 → b < 32 → a ≠ b → pow2 a ≠ pow2 b.
Proof. intros Ha Hb Hab E. apply Hab. apply pow2_inj; [lia | lia | done]. Qed.

Lemma power_two_rows a b j l x y : a < b → b < 4 → j < 32 → l < 32 → j ≠ l →
  add (gf_mul (power a j) x) (add (gf_mul (power a l) y) x00) = x00 →
  add (gf_mul (power b j) x) (add (gf_mul (power b l) y) x00) = x00 → x = x00.
Proof.
  intros Hab Hb Hj Hl Hjl Ea Eb.
  assert (H : gf_mul (sub (pow2 (a * j + b * l)) (pow2 (b * j + a * l))) x = x00).
  { match type of Ea with ?ea = _ => match type of Eb with ?eb = _ =>
      transitivity (sub (gf_mul (power b l) ea) (gf_mul (power a l) eb)) end end.
    - unfold power. rewrite !pow2_add. ring.
    - by rewrite Ea, Eb, !gf_mul_0_r. }
  apply gf_mul_eq_0 in H; [done |]. apply sub_nonzero. intros E. apply Hjl. apply pow2_inj in E; nia.
Qed.

Definition uses_powers (m k : nat) : Prop := m ≤ 4 ∧ k ≤ 32 ∧ (m = 4 → k ≤ 20).

Lemma power_three_rows m k rows j l1 l2 x : uses_powers m k →
  NoDup rows → length rows = 3 → NoDup [j; l1; l2] → (∀ l, l ∈ [j; l1; l2] → l < k) →
  (∀ r, r ∈ rows → r < m) → (∀ r, r ∈ rows → equation power [j; l1; l2] x r) → x j = x00.
Proof.
  intros (Hm & Hk & Hmk) Hr Hl Hc Hck Hrm Heq.
  assert (j < k ∧ l1 < k ∧ l2 < k) as (Hj & H1 & H2) by (split_and!; apply Hck; set_solver).
  assert (j ≠ l1 ∧ j ≠ l2 ∧ l1 ≠ l2) as (Hj1 & Hj2 & H12).
  { rewrite !NoDup_cons, !not_elem_of_cons in Hc. naive_solver. }
  assert (k ≤ 20 → add (pow2 j) (add (pow2 l1) (pow2 l2)) ≠ x00 ∧
    add (gf_mul (pow2 j) (pow2 l1)) (add (gf_mul (pow2 j) (pow2 l2)) (gf_mul (pow2 l1) (pow2 l2))) ≠ x00) as Hs.
  { intros Hk20. rewrite <- !pow2_add. apply triple_sums; lia. }
  apply (three_columns (pow2 j) (pow2 l1) (pow2 l2) (x j) (x l1) (x l2)); [apply pow2_nonzero | apply pow2_ne; lia | apply pow2_ne; lia |].
  assert (Hcase := three_rows (fun r => r < m ∧ equation power [j; l1; l2] x r) rows Hr Hl
    ltac:(intros r Hin; specialize (Hrm r Hin); specialize (Heq r Hin); split; [lia | done])).
  unfold equation in Hcase. cbn [lsum] in Hcase. rewrite !power_spec, !gf_mul_1_l in Hcase by lia.
  destruct Hcase as [? | [(? & ? & ?) | [(? & ? & ? & ?) | (? & ? & ? & ?)]]].
  - left. tauto.
  - right; left. tauto.
  - right; right; left. assert (k ≤ 20) by lia. tauto.
  - right; right; right. assert (k ≤ 20) by lia. tauto.
Qed.

Lemma power_regular m k : uses_powers m k → regular m k power.
Proof.
  intros Hu. pose proof Hu as (Hm & Hk & _). apply regular_head. intros rows j cols x Hr Hc Hl Hrm Hck Heq.
  assert (length rows ≤ 4).
  { rewrite <- (length_seq 4 0). apply submseteq_length, NoDup_submseteq; [done |]. intros r Hin%Hrm. apply elem_of_seq. lia. }
  destruct cols as [| l1 [| l2 [| l3 [| l4 cols]]]]; cbn [length] in Hl; [| | | | lia].
  - destruct rows as [| r [|]]; try discriminate. specialize (Heq r (list_elem_of_here _ _)). unfold equation in Heq. cbn [lsum] in Heq.
    rewrite add_comm, add_0_l in Heq. apply gf_mul_eq_0 in Heq; [done | apply pow2_nonzero].
  - destruct (two_rows (fun r => r < m ∧ equation power [j; l1] x r) rows Hr Hl) as (a & b & Hab & [_ Ea] & [Hb Eb]); [by auto |].
    assert (j ≠ l1) by (intros ->; inversion Hc as [| ? ? Hn _]; apply Hn; left).
    assert (j < k ∧ l1 < k) as [??] by (split; apply Hck; set_solver).
    unfold equation in Ea, Eb. cbn [lsum] in Ea, Eb. apply (power_two_rows a b j l1 (x j) (x l1)); [done | lia | lia | lia | done..].
  - by apply (power_three_rows m k rows j l1 l2).
  - assert (∀ r, r < 4 → equation power [j; l1; l2; l3] x r) as He.
    { apply (all_rows _ rows); [done.. |]. intros r Hin. split; [specialize (Hrm r Hin); lia | by apply Heq]. }
    assert (j < k ∧ l1 < k ∧ l2 < k ∧ l3 < k) as (? & ? & ? & ?) by (split_and!; apply Hck; set_solver).
    assert (j ≠ l1 ∧ j ≠ l2 ∧ j ≠ l3) as (? & ? & ?) by (rewrite !NoDup_cons, !not_elem_of_cons in Hc; naive_solver).
    unfold equation in He. cbn [lsum] in He.
    apply (four_columns (pow2 j) (pow2 l1) (pow2 l2) (pow2 l3) (x j) (x l1) (x l2) (x l3)); [apply pow2_ne; lia.. | | | |].
    + etransitivity; [| apply (He 0); lia]. by rewrite !power_spec, !gf_mul_1_l by lia.
    + etransitivity; [| apply (He 1); lia]. by rewrite !power_spec by lia.
    + etransitivity; [| apply (He 2); lia]. by rewrite !power_spec by lia.
    + etransitivity; [| apply (He 3); lia]. by rewrite !power_spec by lia.
Qed.

(** ** The generator matrices *)

Lemma nth_powers k a b q : q < k → nth q (powers k (pow2 a) (pow2 b)) x00 = pow2 (a + b * q).
Proof.
  revert a q. induction k as [| k IH]; intros a q Hq; [lia |]. cbn [powers]. destruct q as [| q]; cbn [nth].
  - by rewrite Nat.mul_0_r, Nat.add_0_r.
  - rewrite <- pow2_add, IH by lia. f_equal. lia.
Qed.

Lemma nth_rs_rows rows k b r : r < rows → nth r (rs_rows rows k (pow2 b)) [] = powers k x01 (pow2 (b + r)).
Proof.
  revert b r. induction rows as [| rows IH]; intros b r Hr; [lia |]. cbn [rs_rows]. destruct r as [| r]; cbn [nth].
  - by rewrite Nat.add_0_r.
  - change x02 with (pow2 1). rewrite <- pow2_add, IH by lia. do 2 f_equal. lia.
Qed.

Lemma systematic_above m k below C :
  (∀ r q, r < m → q < k → at_ below r q = C r q) → systematic m k ((identity_row k <$> seq 0 k) ++ below) C.
Proof.
  intros H. assert (length (identity_row k <$> seq 0 k) = k) as L by by rewrite length_fmap, length_seq.
  split; intros r q Hr Hq; unfold at_.
  - rewrite app_nth1 by (rewrite L; lia). by apply at_identity.
  - rewrite app_nth2 by (rewrite L; lia). rewrite L. replace (k + r - k) with r by lia. by apply H.
Qed.

Lemma rs_matrix_systematic m k : systematic m k (gf_gen_rs_matrix (k + m) k) power.
Proof.
  apply systematic_above. intros r q Hr Hq. unfold at_. change x01 with (pow2 0). rewrite nth_rs_rows by lia.
  change x01 with (pow2 0). by rewrite nth_powers.
Qed.

Lemma cauchy_matrix_systematic m k : systematic m k (gf_gen_cauchy1_matrix (k + m) k) (cauchy k).
Proof.
  apply systematic_above. intros r q Hr Hq. unfold at_, cauchy. rewrite nth_fmap_seq by lia. by rewrite nth_fmap_seq.
Qed.

(** ** Shapes *)

Lemma identity_rows_shaped k : shaped k k (identity_row k <$> seq 0 k).
Proof. split; [by rewrite length_fmap, length_seq |]. intros r (i & -> & _)%list_elem_of_fmap. unfold identity_row. by rewrite length_fmap, length_seq. Qed.

Lemma shaped_app n m k a b : shaped n k a → shaped m k b → shaped (n + m) k (a ++ b).
Proof. intros [La Ha] [Lb Hb]. split; [rewrite length_app; lia |]. intros r [?|?]%elem_of_app; auto. Qed.

Lemma powers_length k p g : length (powers k p g) = k.
Proof. revert p. induction k; intros p; cbn [powers length]; auto. Qed.

Lemma rs_rows_shaped rows k g : shaped rows k (rs_rows rows k g).
Proof.
  revert g. induction rows as [| rows IH]; intros g; [by split; [| intros r Hr%elem_of_nil] |]. cbn [rs_rows].
  destruct (IH (gf_mul g x02)) as [L H]. split; [cbn [length]; lia |].
  intros r [-> | Hr]%elem_of_cons; [apply powers_length | by apply H].
Qed.

Lemma rs_matrix_shaped m k : shaped (k + m) k (gf_gen_rs_matrix (k + m) k).
Proof. apply shaped_app; [apply identity_rows_shaped |]. replace (k + m - k) with m by lia. apply rs_rows_shaped. Qed.

Lemma cauchy_matrix_shaped m k : shaped (k + m) k (gf_gen_cauchy1_matrix (k + m) k).
Proof.
  apply shaped_app; [apply identity_rows_shaped |]. replace (k + m - k) with m by lia. split; [by rewrite length_fmap, length_seq |].
  intros r (i & -> & _)%list_elem_of_fmap. by rewrite length_fmap, length_seq.
Qed.
