(* ===== verification/ReedSolomon.v ===== *)
(** * The Reed-Solomon coder

    src/common/reed_solomon.h for the build without the external ISA-L library: the class
    [ReedSolomon<32, 32>] with its cache of the last tables.  A bit set is the list of its
    bits, a buffer is the list of its bytes and a null pointer is [None]; buffers do not overlap.
    The parameter [c] is the processor, which chooses the encoding function.

    [encode_then_recover] shows that after the loss of any [m] of the [k + m] parts the lost
    parts that are asked for come back, for every accepted [k] and [m], for parts of zeros
    passed as null pointers, and whatever the coder computed before.  [recover_all_zero_aborts] is the
    case that the code excludes. *)

From Stdlib Require Import Strings.Byte Ring.
From S2P Require Import Prelude GaloisField ErasureCode CodeMatrix.
Open Scope nat_scope.

Definition kMaxDataCount : nat := 32.
Definition kMaxParityCount : nat := 32.
Definition kMaxPartCount : nat := kMaxDataCount + kMaxParityCount.

Notation bits := (list bool).
Notation block := (list byte).
Notation fragments := (list (option block)).

Definition no_bits : bits := replicate kMaxPartCount false.
Definition test (b : bits) (i : nat) : bool := nth i b false.
Definition set_bit (i : nat) (b : bits) : bits := <[i := true]> b.

(** The positions below [n] whose bit is set, in the order of a loop. *)
Definition chosen (n : nat) (b : bits) : list nat := filter (fun i => test b i = true) (seq 0 n).
Definition count (b : bits) : nat := length (chosen (length b) b).

(** [fragments[i]] *)
Definition fragment (f : fragments) (i : nat) : option block := nth i f None.

Record coder := {
  gf_table_ : list byte;
  rs_matrix_ : matrix;
  erased_parts_ : bits;
  needed_parts_ : bits;
  non_zero_input_ : bits;
  rs_k_ : nat;
  rs_m_ : nat;
}.

Definition default_coder : coder :=
  {| gf_table_ := []; rs_matrix_ := []; erased_parts_ := no_bits; needed_parts_ := no_bits; non_zero_input_ := no_bits;
     rs_k_ := 0; rs_m_ := 0 |}.

(** ** Matrices *)

Definition generator (k m : nat) : matrix :=
  if (5 <=? m) || ((m =? 4) && (20 <? k)) then gf_gen_cauchy1_matrix (k + m) k else gf_gen_rs_matrix (k + m) k.

Definition createRSMatrix (k m : nat) (s : coder) : coder :=
  if (k =? rs_k_ s) && (m =? rs_m_ s) then s
  else {| gf_table_ := gf_table_ s; rs_matrix_ := generator k m; erased_parts_ := no_bits; needed_parts_ := no_bits;
          non_zero_input_ := non_zero_input_ s; rs_k_ := k; rs_m_ := m |}.

(** The constructor. *)
Definition ReedSolomon (k m : nat) : res coder :=
  assertion ((1 <=? k) && (k <=? kMaxDataCount))
  (assertion ((1 <=? m) && (m <=? kMaxParityCount))
  (Ok (createRSMatrix k m default_coder))).

Definition selectRows (a : matrix) (s1 s2 : nat) (required_rows : bits) : matrix :=
  (fun i => (fun j => at_ a i j) <$> seq 0 s2) <$> chosen s1 required_rows.

Definition selectColumns (a : matrix) (s1 s2 : nat) (required_columns : bits) : matrix :=
  (fun i => (fun j => at_ a i j) <$> chosen s2 required_columns) <$> seq 0 s1.

Section coder.
Context (c : cpu).

(** The product; the tables it leaves in [gf_table_] are overwritten by its caller. *)
Definition matrixMultiply (s1 s2 s3 : nat) (a b : matrix) : matrix :=
  ec_encode_data c s2 s3 s1 (ec_init_tables s3 s1 (mjoin a)) ((fun i => nth i b []) <$> seq 0 s3).

(** The tables for the rows of a matrix, without the columns of zero inputs. *)
Definition init_reduced (k : nat) (needed non_zero_input : bits) (a : matrix) : list byte :=
  if count non_zero_input <? k then
    ec_init_tables (count needed) (count non_zero_input) (mjoin (selectColumns a (count needed) k non_zero_input))
  else ec_init_tables (count needed) k (mjoin a).

Definition in_cache (s : coder) (needed erased non_zero_input : bits) : bool :=
  bool_decide (needed = needed_parts_ s) && bool_decide (erased = erased_parts_ s) &&
  bool_decide (non_zero_input = non_zero_input_ s).

Definition store (s : coder) (table : list byte) (needed erased non_zero_input : bits) : coder :=
  {| gf_table_ := table; rs_matrix_ := rs_matrix_ s; erased_parts_ := erased; needed_parts_ := needed;
     non_zero_input_ := non_zero_input; rs_k_ := rs_k_ s; rs_m_ := rs_m_ s |}.

Definition encoding_table (s : coder) (needed non_zero_input : bits) : list byte :=
  init_reduced (rs_k_ s) needed non_zero_input (selectRows (rs_matrix_ s) (rs_k_ s + rs_m_ s) (rs_k_ s) needed).

Definition createEncodingMatrix (needed erased non_zero_input : bits) (s : coder) : res coder :=
  assertion ((count needed <=? rs_m_ s) && (count erased =? rs_m_ s))
  (assertion ((0 <? count non_zero_input) && (count (non_zero_input_ s) <=? rs_k_ s))
  (if in_cache s needed erased non_zero_input then Ok s
   else Ok (store s (encoding_table s needed non_zero_input) needed erased non_zero_input))).

(** [decode_matrix] is used whether or not the inversion succeeded: the exception object that
    the code constructs is not thrown. *)
Definition recovery_table (s : coder) (needed erased non_zero_input : bits) (recover_only_data : bool) : list byte :=
  let k := rs_k_ s in
  let n := rs_k_ s + rs_m_ s in
  let decode_matrix := (gf_invert_matrix (selectRows (rs_matrix_ s) n k (negb <$> erased)) k).2 in
  let recover_matrix :=
    if negb recover_only_data then
      matrixMultiply (count needed) k k (selectRows (rs_matrix_ s) n k needed) decode_matrix
    else selectRows decode_matrix k k needed in
  init_reduced k needed non_zero_input recover_matrix.

Definition createRecoveryMatrix (needed erased non_zero_input : bits) (recover_only_data : bool) (s : coder) : res coder :=
  assertion ((count needed <=? rs_m_ s) && (count erased =? rs_m_ s))
  (assertion ((0 <? count non_zero_input) && (count (non_zero_input_ s) <=? rs_k_ s))
  (if in_cache s needed erased non_zero_input then Ok s
   else Ok (store s (recovery_table s needed erased non_zero_input recover_only_data) needed erased non_zero_input))).

(** ** Recovery *)

Record scan := {
  needed : bits;
  non_zero_input : bits;
  in_parts : list block;
  out_parts : list nat;
  in_with_zero_count : nat;
  data_part_count : nat;
  parity_part_count : nat;
}.

Definition scan_start : scan :=
  {| needed := no_bits; non_zero_input := no_bits; in_parts := []; out_parts := []; in_with_zero_count := 0;
     data_part_count := 0; parity_part_count := 0 |}.

(** The body of the loop over the parts, its first [if] and its second. *)
Definition scan_output (k : nat) (erased : bits) (output : fragments) (t : scan) (i : nat) : scan :=
  if test erased i && bool_decide (is_Some (fragment output i)) then
    {| needed := set_bit i (needed t); non_zero_input := non_zero_input t; in_parts := in_parts t;
       out_parts := out_parts t ++ [i]; in_with_zero_count := in_with_zero_count t; data_part_count := data_part_count t;
       parity_part_count := parity_part_count t + (if k <=? i then 1 else 0) |}
  else t.

Definition scan_input (k : nat) (input : fragments) (erased : bits) (t : scan) (i : nat) : scan :=
  if test erased i then t else
  let data := data_part_count t + (if i <? k then 1 else 0) in
  match fragment input i with
  | Some b =>
      {| needed := needed t; non_zero_input := set_bit (in_with_zero_count t) (non_zero_input t); in_parts := in_parts t ++ [b];
         out_parts := out_parts t; in_with_zero_count := S (in_with_zero_count t); data_part_count := data;
         parity_part_count := parity_part_count t |}
  | None =>
      {| needed := needed t; non_zero_input := non_zero_input t; in_parts := in_parts t;
         out_parts := out_parts t; in_with_zero_count := S (in_with_zero_count t); data_part_count := data;
         parity_part_count := parity_part_count t |}
  end.

Definition scan_parts (k n : nat) (input : fragments) (erased : bits) (output : fragments) : scan :=
  foldl (fun t i => scan_input k input erased (scan_output k erased output t i) i) scan_start (seq 0 n).

(** The buffers at some positions receive the blocks that were computed. *)
Definition write_parts (output : fragments) (positions : list nat) (blocks : list block) : fragments :=
  foldl (fun f '(i, b) => <[i := Some b]> f) output (zip positions blocks).

Definition recover (input : fragments) (erased : bits) (output : fragments) (data_size : nat) (s : coder) : res (coder * fragments) :=
  assertion (count erased =? rs_m_ s)
  (let t := scan_parts (rs_k_ s) (rs_k_ s + rs_m_ s) input erased output in
   s ← (if data_part_count t =? rs_k_ s then createEncodingMatrix (needed t) erased (non_zero_input t) s
        else createRecoveryMatrix (needed t) erased (non_zero_input t) (parity_part_count t =? 0) s);
   Ok (s, write_parts output (out_parts t)
            (ec_encode_data c data_size (length (in_parts t)) (length (out_parts t)) (gf_table_ s) (in_parts t)))).

(** ** Encoding *)

Definition data_bits (k : nat) (data : fragments) : bits :=
  foldl (fun b i => if fragment data i then set_bit i b else b) no_bits (seq 0 k).

Definition parity_bits (k m : nat) : bits := foldl (fun b i => set_bit (k + i) b) no_bits (seq 0 m).

Definition encode (data parity : fragments) (data_size : nat) (s : coder) : res (coder * fragments) :=
  let k := rs_k_ s in
  let m := rs_m_ s in
  let non_zero_input := data_bits k data in
  let in_parts := omap (fragment data) (seq 0 k) in
  assertion (forallb (fun i => bool_decide (is_Some (fragment parity i))) (seq 0 m))
  (let needed := parity_bits k m in
   let erased := parity_bits k m in
   s ← createEncodingMatrix needed erased non_zero_input s;
   Ok (s, write_parts parity (seq 0 m) (ec_encode_data c data_size (length in_parts) m (gf_table_ s) in_parts))).
End coder.

(** ** Bit sets *)

Lemma elem_of_chosen n b i : i ∈ chosen n b ↔ i < n ∧ test b i = true.
Proof. unfold chosen. rewrite list_elem_of_filter, elem_of_seq. naive_solver lia. Qed.

Lemma chosen_NoDup n b : NoDup (chosen n b).
Proof. apply NoDup_filter, NoDup_seq. Qed.

Lemma chosen_S n b : chosen (S n) b = chosen n b ++ (if test b n then [n] else []).
Proof.
  unfold chosen. rewrite seq_S, filter_app, filter_cons, filter_nil. f_equal. cbn [Nat.add]. by destruct (test b n).
Qed.

Lemma chosen_below n p b : n ≤ p → (∀ i, test b i = true → i < n) → chosen p b = chosen n b.
Proof.
  intros Hp Hb. induction p as [| p IH]; [by assert (n = 0) as -> by lia |].
  destruct (decide (n = S p)) as [-> | Hne]; [done |]. rewrite chosen_S, IH by lia.
  destruct (test b p) eqn:E; [apply Hb in E; lia | apply app_nil_r].
Qed.

Lemma chosen_add k m b : chosen (k + m) b = chosen k b ++ filter (fun i => test b i = true) (seq k m).
Proof. unfold chosen. by rewrite seq_app, filter_app. Qed.

(** Nothing is chosen from [k] on. *)
Lemma chosen_first k m b : (∀ i, i ∈ chosen (k + m) b → i < k) → chosen (k + m) b = chosen k b.
Proof.
  intros H. rewrite chosen_add in *. destruct (filter _ (seq k m)) as [| i l] eqn:E; [apply app_nil_r |].
  assert (i ∈ filter (fun i => test b i = true) (seq k m)) as Hi by (rewrite E; left).
  apply list_elem_of_filter in Hi as [_ Hi%elem_of_seq]. specialize (H i ltac:(set_solver)). lia.
Qed.

Lemma chosen_full k b : (∀ i, i < k → test b i = true) → chosen k b = seq 0 k.
Proof.
  induction k as [| k IH]; intros H; [done |]. rewrite chosen_S, seq_S, IH, H by auto with lia. done.
Qed.

Lemma count_below n b : n ≤ length b → (∀ i, test b i = true → i < n) → count b = length (chosen n b).
Proof. intros Hn Hb. unfold count. by rewrite (chosen_below n). Qed.

Lemma test_set_bit i b j : i < length b → test (set_bit i b) j = (i =? j) || test b j.
Proof.
  intros Hi. unfold test, set_bit. rewrite !nth_lookup. destruct (Nat.eqb_spec i j) as [<- | Hne].
  - by rewrite list_lookup_insert_eq.
  - by rewrite list_lookup_insert_ne.
Qed.

Lemma test_no_bits i : test no_bits i = false.
Proof.
  unfold test, no_bits. rewrite nth_lookup. destruct (replicate _ _ !! i) as [x |] eqn:E; [| done].
  by apply lookup_replicate in E as [-> _].
Qed.

Lemma test_flip b i : i < length b → test (negb <$> b) i = negb (test b i).
Proof. intros Hi. unfold test. rewrite !nth_lookup, list_lookup_fmap. by destruct (lookup_lt_is_Some_2 b i Hi) as [x ->]. Qed.

Lemma chosen_complement n b : n ≤ length b → length (chosen n b) + length (chosen n (negb <$> b)) = n.
Proof.
  induction n as [| n IH]; intros Hn; [done |]. rewrite !chosen_S, !length_app, test_flip by lia. specialize (IH ltac:(lia)).
  destruct (test b n); cbn [negb length]; lia.
Qed.

(** ** Selections *)

Lemma nth_fmap_lookup {A} (d : A) (f : nat → A) l i : i < length l → nth i (f <$> l) d = f (nth i l 0).
Proof.
  intros Hi. destruct (lookup_lt_is_Some_2 l i Hi) as [x Hx]. by rewrite !nth_lookup, list_lookup_fmap, Hx.
Qed.

Lemma selectRows_shaped a s1 s2 b : shaped (length (chosen s1 b)) s2 (selectRows a s1 s2 b).
Proof.
  split; [by unfold selectRows; rewrite length_fmap |]. intros r (i & -> & _)%list_elem_of_fmap. by rewrite length_fmap, length_seq.
Qed.

Lemma at_selectRows a s1 s2 b l q : l < length (chosen s1 b) → q < s2 →
  at_ (selectRows a s1 s2 b) l q = at_ a (nth l (chosen s1 b) 0) q.
Proof. intros Hl Hq. unfold at_ at 1, selectRows. rewrite nth_fmap_lookup by done. by rewrite nth_fmap_seq. Qed.

Lemma selectColumns_shaped a s1 s2 b : shaped s1 (length (chosen s2 b)) (selectColumns a s1 s2 b).
Proof.
  split; [by unfold selectColumns; rewrite length_fmap, length_seq |]. intros r (i & -> & _)%list_elem_of_fmap. by rewrite length_fmap.
Qed.

Lemma at_selectColumns a s1 s2 b l j : l < s1 → j < length (chosen s2 b) →
  at_ (selectColumns a s1 s2 b) l j = at_ a l (nth j (chosen s2 b) 0).
Proof. intros Hl Hj. unfold at_ at 1, selectColumns. rewrite nth_fmap_seq by done. by rewrite nth_fmap_lookup. Qed.

Lemma nth_flat rows cols a l j : shaped rows cols a → l < rows → j < cols → nth (l * cols + j) (mjoin a) x00 = at_ a l j.
Proof. intros [L H] Hl Hj. apply nth_mjoin_block; [done | lia | done]. Qed.

(** ** What the tables compute *)

(** [len] bytes, each the product of a row of coefficients with the bytes [y] of the inputs. *)
Definition product (k size : nat) (row : nat → byte) (y : nat → block) : block :=
  (fun i => sum k (fun j => gf_mul (row j) (nth i (y j) x00))) <$> seq 0 size.

Lemma product_ext k size row row' y y' :
  (∀ i j, i < size → j < k → gf_mul (row j) (nth i (y j) x00) = gf_mul (row' j) (nth i (y' j) x00)) →
  product k size row y = product k size row' y'.
Proof.
  intros H. apply list_fmap_ext. intros i ? [-> Hi]%lookup_seq. cbn [Nat.add]. apply sum_ext. intros j Hj. by apply H.
Qed.

Lemma encode_product c size srcs dests k rows a y :
  rows * k = dests * srcs → shaped dests srcs a →
  ec_encode_data c size srcs dests (ec_init_tables k rows (mjoin a)) (y <$> seq 0 srcs) =
    (fun l => product srcs size (at_ a l) y) <$> seq 0 dests.
Proof.
  intros Hrk Ha. rewrite encode_exact by (try done; by rewrite length_fmap, length_seq). apply list_fmap_ext. intros l ? [-> Hl]%lookup_seq. cbn [Nat.add].
  apply list_fmap_ext. intros ? i _. apply sum_ext. intros j Hj. rewrite (nth_flat dests srcs), nth_fmap_seq by (done || lia). done.
Qed.

Lemma fmap_nth_seq {A} (f : nat → A) (l : list nat) : (fun j => f (nth j l 0)) <$> seq 0 (length l) = f <$> l.
Proof.
  apply list_eq. intros i. rewrite !list_lookup_fmap. destruct (decide (i < length l)) as [Hi | Hi].
  - rewrite lookup_seq_lt by done. destruct (lookup_lt_is_Some_2 l i Hi) as [x Hx]. cbn. by rewrite nth_lookup, Hx.
  - rewrite lookup_seq_ge, lookup_ge_None_2 by lia. done.
Qed.

Lemma lsum_nth (l : list nat) f : sum (length l) (fun j => f (nth j l 0)) = lsum l f.
Proof.
  rewrite sum_lsum. transitivity (lsum ((fun j => nth j l 0) <$> seq 0 (length l)) f); [by rewrite lsum_fmap |].
  by rewrite (fmap_nth_seq (fun j => j)), list_fmap_id.
Qed.

Lemma nth_zeros size i : nth i (replicate size x00) x00 = x00.
Proof. revert i. induction size as [| size IH]; intros [| i]; cbn; auto. Qed.

(** The zero inputs do not matter. *)
Lemma reduced_product k size nz row y : (∀ j, j < k → test nz j = false → y j = replicate size x00) →
  product (length (chosen k nz)) size (fun j => row (nth j (chosen k nz) 0)) (fun j => y (nth j (chosen k nz) 0)) = product k size row y.
Proof.
  intros Hz. apply list_fmap_ext. intros i ? [-> Hi]%lookup_seq. cbn [Nat.add].
  rewrite (lsum_nth (chosen k nz) (fun j => gf_mul (row j) (nth i (y j) x00))), sum_lsum.
  symmetry. apply lsum_filter. intros j Hj Ht. apply elem_of_seq in Hj. rewrite Hz; [| lia | by destruct (test nz j)].
  by rewrite nth_zeros, gf_mul_0_r.
Qed.

Lemma chosen_all k b : k ≤ length (chosen k b) → chosen k b = seq 0 k.
Proof.
  induction k as [| k IH]; intros H; [done |]. rewrite chosen_S, length_app in *.
  pose proof (length_filter (fun i => test b i = true) (seq 0 k)) as Hle. fold (chosen k b) in Hle. rewrite length_seq in Hle.
  rewrite seq_S. destruct (test b k); cbn [length] in *; [by rewrite IH by lia | lia].
Qed.

(** The tables of a matrix apply it to the inputs. *)
Lemma init_reduced_product c size k needed nz a y : k ≤ length nz →
  shaped (count needed) k a → (∀ j, test nz j = true → j < k) →
  (∀ j, j < k → test nz j = false → y j = replicate size x00) →
  ec_encode_data c size (length (chosen k nz)) (count needed) (init_reduced k needed nz a) (y <$> chosen k nz) =
    (fun l => product k size (at_ a l) y) <$> seq 0 (count needed).
Proof.
  intros Hlen Ha Hb Hz. unfold init_reduced. rewrite (count_below k nz) by done.
  destruct (Nat.ltb_spec (length (chosen k nz)) k) as [Hlt | Hge].
  - rewrite <- (fmap_nth_seq y). rewrite encode_product; [| lia | apply selectColumns_shaped].
    apply list_fmap_ext. intros l ? [-> Hl]%lookup_seq. cbn [Nat.add]. rewrite <- (reduced_product k size nz (at_ a l) y Hz).
    apply product_ext. intros i j Hi Hj. by rewrite at_selectColumns.
  - rewrite (chosen_all k nz Hge), length_seq. apply encode_product; [lia | done].
Qed.

(** ** The code *)

(** The byte of part [i] over the bytes [d] of the data parts. *)
Definition code (k m : nat) (d : nat → byte) (i : nat) : byte := sum k (fun q => gf_mul (at_ (generator k m) i q) (d q)).

(** The parts that belong to data: the data parts and behind them the parity parts. *)
Definition part (k m size : nat) (data : list block) (i : nat) : block := product k size (at_ (generator k m) i) (fun q => nth q data []).

Definition accepted (k m : nat) : Prop := (1 ≤ k ≤ kMaxDataCount) ∧ (1 ≤ m ≤ kMaxParityCount).

Lemma generator_shaped k m : shaped (k + m) k (generator k m).
Proof. unfold generator. destruct (_ || _); [apply cauchy_matrix_shaped | apply rs_matrix_shaped]. Qed.

Lemma generator_systematic k m : ∃ C, systematic m k (generator k m) C.
Proof.
  unfold generator. destruct (_ || _); [exists (cauchy k); apply cauchy_matrix_systematic | exists power; apply rs_matrix_systematic].
Qed.

(** Every [k] parts determine the data. *)
Lemma generator_determining k m : accepted k m → determining m k (generator k m).
Proof.
  unfold accepted, kMaxDataCount, kMaxParityCount. intros [Hk Hm]. unfold generator. destruct (_ || _) eqn:E.
  - eapply regular_determining; [apply cauchy_matrix_systematic | apply cauchy_regular; lia].
  - eapply regular_determining; [apply rs_matrix_systematic | apply power_regular].
    apply orb_false_iff in E as [E1%Nat.leb_gt E2%andb_false_iff]. unfold uses_powers. split_and!; [lia | lia |].
    intros ->. destruct E2 as [E2 | E2%Nat.ltb_ge]; [done | done].
Qed.

Lemma code_data k m d i : i < k → code k m d i = d i.
Proof.
  intros Hi. destruct (generator_systematic k m) as (C & [Hd _]). unfold code. rewrite (sum_single k i); [| done |].
  - by rewrite Hd, Nat.eqb_refl, gf_mul_1_l.
  - intros q Hq Hne. rewrite Hd by done. by rewrite (proj2 (Nat.eqb_neq _ _)).
Qed.

Lemma part_data k m size data i b : i < k → data !! i = Some b → length b = size → part k m size data i = b.
Proof.
  intros Hi Hb Hl. apply list_eq. intros j. unfold part, product. rewrite list_lookup_fmap.
  destruct (decide (j < size)) as [Hj | Hj].
  - rewrite lookup_seq_lt by done. cbn. fold (code k m (fun q => nth j (nth q data []) x00) i). rewrite code_data by done.
    rewrite (nth_lookup_Some _ _ _ _ Hb). destruct (lookup_lt_is_Some_2 b j) as [x Hx]; [lia |]. rewrite Hx. f_equal. by apply nth_lookup_Some.
  - rewrite lookup_seq_ge, lookup_ge_None_2 by lia. done.
Qed.

(** ** Matrices that recover *)

Section recovery.
Context (k m : nat) (Hkm : accepted k m) (erased needed : bits).
Hypothesis Hlen : k + m ≤ length erased.
Hypothesis Hcount : length (chosen (k + m) erased) = m.

Let n := k + m.
Let available := chosen n (negb <$> erased).
Let wanted := chosen n needed.

(** Row [l] of the matrix computes the [l]-th wanted part from the available parts. *)
Definition recovers (a : matrix) : Prop := ∀ d l, l < length wanted →
  sum k (fun j => gf_mul (at_ a l j) (code k m d (nth j available 0))) = code k m d (nth l wanted 0).

Lemma available_length : length available = k.
Proof using Hlen Hcount. pose proof (chosen_complement n erased Hlen). unfold available, n in *. lia. Qed.

Lemma available_nth j : j < k → nth j available 0 ∈ available.
Proof using Hlen Hcount. intros Hj. apply list_elem_of_In, nth_In. rewrite available_length. done. Qed.

Let matrix_of_available := selectRows (generator k m) n k (negb <$> erased).
Let inverse := (gf_invert_matrix matrix_of_available k).2.

Lemma available_shaped : shaped k k matrix_of_available.
Proof using Hlen Hcount. pose proof (selectRows_shaped (generator k m) n k (negb <$> erased)) as H. fold available in H. by rewrite available_length in H. Qed.

Lemma at_available l q : l < k → q < k → at_ matrix_of_available l q = at_ (generator k m) (nth l available 0) q.
Proof using Hlen Hcount. intros Hl Hq. apply at_selectRows; [| done]. fold available. by rewrite available_length. Qed.

(** The inversion always succeeds. *)
Lemma inversion_succeeds : (gf_invert_matrix matrix_of_available k).1 = true.
Proof using Hkm Hlen Hcount.
  apply (invert_exact k _ available_shaped). intros x Hx.
  apply (generator_determining k m Hkm available); [apply chosen_NoDup | apply available_length | by intros r [? _]%elem_of_chosen |].
  intros r Hr. apply list_elem_of_lookup in Hr as [l Hl]. pose proof (lookup_lt_Some _ _ _ Hl) as Hlt. rewrite available_length in Hlt.
  rewrite <- (Hx l Hlt). unfold apply_row. apply sum_ext. intros q Hq. rewrite at_available by done. by rewrite (nth_lookup_Some _ _ _ _ Hl).
Qed.

Lemma inverse_computes d p : p < k → sum k (fun j => gf_mul (at_ inverse p j) (code k m d (nth j available 0))) = d p.
Proof using Hkm Hlen Hcount.
  intros Hp. pose proof (proj2 (invert_exact k _ available_shaped) inversion_succeeds p) as Hinv. fold inverse in Hinv.
  transitivity (sum k (fun j => sum k (fun q => gf_mul (gf_mul (at_ inverse p j) (at_ matrix_of_available j q)) (d q)))).
  { apply sum_ext. intros j Hj. unfold code. rewrite <- sum_mul. apply sum_ext. intros q Hq. rewrite at_available by done. ring. }
  rewrite sum_swap. rewrite (sum_ext _ _ (fun q => gf_mul (d q) (if p =? q then x01 else x00))).
  - rewrite (sum_single k p); [rewrite Nat.eqb_refl; ring | done |]. intros q Hq Hne. rewrite (proj2 (Nat.eqb_neq p q)) by done. ring.
  - intros q Hq. rewrite <- Hinv by done. rewrite <- sum_mul. apply sum_ext. intros j Hj. ring.
Qed.

(** The rows of the inverse for wanted data parts. *)
Lemma data_rows_recover : (∀ i, i ∈ wanted → i < k) → recovers (selectRows inverse k k needed).
Proof using Hkm Hlen Hcount.
  intros Hw d l Hl. assert (wanted = chosen k needed) as E.
  { by apply chosen_first. }
  assert (nth l wanted 0 < k) as Hlt by (apply Hw, list_elem_of_In, nth_In; done).
  rewrite (code_data k m d) by done. rewrite <- (inverse_computes d _ Hlt). apply sum_ext. intros j Hj.
  rewrite E in *. by rewrite at_selectRows.
Qed.

(** The product of the rows of the wanted parts with the inverse. *)
Lemma product_recovers c : recovers (matrixMultiply c (length wanted) k k (selectRows (generator k m) n k needed) inverse).
Proof using Hkm Hlen Hcount.
  intros d l Hl. unfold matrixMultiply. pose proof (selectRows_shaped (generator k m) n k needed) as Hs. fold wanted in Hs.
  rewrite encode_product by done.
  transitivity (sum k (fun j => sum k (fun q => gf_mul (gf_mul (at_ (generator k m) (nth l wanted 0) q) (at_ inverse q j)) (code k m d (nth j available 0))))).
  - apply sum_ext. intros j Hj. unfold at_ at 1. rewrite nth_fmap_seq by done. unfold product. rewrite nth_fmap_seq by done. cbn [Nat.add].
    rewrite gf_mul_comm, <- sum_mul. apply sum_ext. intros q Hq. rewrite at_selectRows by done. fold wanted. unfold at_ at 3. ring.
  - rewrite sum_swap. apply sum_ext. intros q Hq. rewrite <- (inverse_computes d q Hq) at 1. rewrite <- sum_mul.
    apply sum_ext. intros j Hj. ring.
Qed.

(** The rows of wanted parity parts, when no data part is missing. *)
Lemma parity_rows_recover : (∀ i, i < k → test erased i = false) → recovers (selectRows (generator k m) n k needed).
Proof using Hkm Hlen Hcount.
  intros Hd d l Hl. assert (chosen k (negb <$> erased) = seq 0 k) as E0.
  { apply chosen_full. intros i Hi. rewrite test_flip, Hd by lia. done. }
  assert (available = seq 0 k) as E.
  { pose proof available_length as L. unfold available, n in *. rewrite chosen_add, E0 in L |- *. rewrite length_app, length_seq in L.
    rewrite (nil_length_inv (filter _ (seq k m))); [apply app_nil_r | lia]. }
  apply sum_ext. intros j Hj. rewrite at_selectRows by done. fold wanted. f_equal. rewrite E, seq_nth by done. by apply code_data.
Qed.
End recovery.

(** ** The loop over the parts *)

Section scanning.
Context (k : nat) (input : fragments) (erased : bits) (output : fragments).
Hypothesis Hlen : length erased = kMaxPartCount.

Definition wanted_at (i : nat) : bool := test erased i && bool_decide (is_Some (fragment output i)).
Definition available_below (n : nat) : list nat := chosen n (negb <$> erased).

Record scanned (n : nat) (t : scan) : Prop := {
  sc_needed_length : length (needed t) = kMaxPartCount;
  sc_needed : ∀ i, test (needed t) i = (i <? n) && wanted_at i;
  sc_nonzero_length : length (non_zero_input t) = kMaxPartCount;
  sc_nonzero : ∀ j, test (non_zero_input t) j =
    (j <? length (available_below n)) && bool_decide (is_Some (fragment input (nth j (available_below n) 0)));
  sc_in : in_parts t = omap (fragment input) (available_below n);
  sc_out : out_parts t = filter (fun i => wanted_at i = true) (seq 0 n);
  sc_in_count : in_with_zero_count t = length (available_below n);
  sc_data : data_part_count t = length (available_below (n `min` k));
  sc_parity : parity_part_count t = length (filter (fun i => k ≤ i) (out_parts t));
}.

Lemma available_below_S n : n < kMaxPartCount → available_below (S n) = available_below n ++ (if test erased n then [] else [n]).
Proof using Hlen. intros Hn. unfold available_below. rewrite chosen_S, test_flip by lia. by destruct (test erased n). Qed.

Lemma available_below_length n : length (available_below n) ≤ n.
Proof. unfold available_below, chosen. etransitivity; [apply length_filter |]. by rewrite length_seq. Qed.

Lemma scanned_output n t : n < kMaxPartCount → scanned n t →
  let t' := scan_output k erased output t n in
  length (needed t') = kMaxPartCount ∧ (∀ i, test (needed t') i = (i <? S n) && wanted_at i) ∧
  out_parts t' = filter (fun i => wanted_at i = true) (seq 0 (S n)) ∧
  parity_part_count t' = length (filter (fun i => k ≤ i) (out_parts t')) ∧
  non_zero_input t' = non_zero_input t ∧ in_parts t' = in_parts t ∧ in_with_zero_count t' = in_with_zero_count t ∧
  data_part_count t' = data_part_count t.
Proof.
  intros Hn [Hnl Hne _ _ _ Ho _ _ Hp]. rewrite seq_S, filter_app, filter_cons, filter_nil. cbn [Nat.add]. unfold scan_output. fold (wanted_at n).
  assert (∀ i, (i <? S n) = (i <? n) || (i =? n)) as Hs.
  { intros i. destruct (Nat.ltb_spec i (S n)), (Nat.ltb_spec i n), (Nat.eqb_spec i n); first [done | lia]. }
  destruct (wanted_at n) eqn:Ew; cbn [needed non_zero_input in_parts out_parts in_with_zero_count data_part_count parity_part_count].
  - split_and!; try done.
    + by unfold set_bit; rewrite length_insert.
    + intros i. rewrite test_set_bit by lia. rewrite Hne, Hs. destruct (Nat.eqb_spec n i) as [<- | Hne'].
      * by rewrite Nat.eqb_refl, orb_true_r, Ew.
      * rewrite (proj2 (Nat.eqb_neq i n)) by done. by rewrite orb_false_r.
    + by rewrite Ho.
    + rewrite filter_app, length_app, Hp. f_equal. rewrite filter_cons, filter_nil. destruct (Nat.leb_spec k n); case_decide; (done || lia).
  - split_and!; try done.
    + intros i. rewrite Hne, Hs. destruct (Nat.eqb_spec i n) as [-> |]; [by rewrite Ew, !andb_false_r | by rewrite orb_false_r].
    + by rewrite Ho, app_nil_r.
Qed.

Lemma nth_snoc (l : list nat) x j : nth j (l ++ [x]) 0 = if j <? length l then nth j l 0 else if j =? length l then x else 0.
Proof.
  destruct (Nat.ltb_spec j (length l)); [by apply app_nth1 |]. rewrite app_nth2 by lia. destruct (Nat.eqb_spec j (length l)) as [-> |].
  - by rewrite Nat.sub_diag.
  - apply nth_overflow. cbn. lia.
Qed.

Lemma nonzero_next n j : test erased n = false → n < kMaxPartCount →
  (j <? length (available_below (S n))) && bool_decide (is_Some (fragment input (nth j (available_below (S n)) 0))) =
  ((j <? length (available_below n)) && bool_decide (is_Some (fragment input (nth j (available_below n) 0)))) ||
  ((length (available_below n) =? j) && bool_decide (is_Some (fragment input n))).
Proof using Hlen.
  intros He Hn. rewrite available_below_S, He by done. rewrite length_app, nth_snoc. cbn [length].
  set (len := length (available_below n)).
  destruct (Nat.ltb_spec j len), (Nat.eqb_spec len j), (Nat.eqb_spec j len), (Nat.ltb_spec j (len + 1)); try lia;
    cbn [andb orb]; rewrite ?orb_false_r; done.
Qed.

Lemma scanned_step n t : n < kMaxPartCount → scanned n t →
  scanned (S n) (scan_input k input erased (scan_output k erased output t n) n).
Proof using Hlen.
  intros Hn Hsc. destruct (scanned_output n t Hn Hsc) as (Hnl & Hne & Ho & Hp & Enz & Ein & Eiz & Edp).
  destruct Hsc as [_ _ Hzl Hz Hin _ Hic Hd _]. set (t' := scan_output k erased output t n) in *. unfold scan_input.
  pose proof (available_below_length n) as Hal.
  destruct (test erased n) eqn:He.
  - assert (available_below (S n `min` k) = available_below (n `min` k)) as Emin.
    { destruct (decide (S n ≤ k)); [| f_equal; lia]. rewrite !Nat.min_l by lia. by rewrite available_below_S, He, app_nil_r. }
    split; rewrite ?Enz, ?Ein, ?Eiz, ?Edp, ?Emin; rewrite ?(available_below_S n), ?He, ?app_nil_r by done; done.
  - assert (data_part_count t' + (if n <? k then 1 else 0) = length (available_below (S n `min` k))) as Edata.
    { rewrite Edp, Hd. destruct (Nat.ltb_spec n k).
      - rewrite !Nat.min_l by lia. rewrite available_below_S, He, length_app by done. done.
      - rewrite !Nat.min_r by lia. lia. }
    destruct (fragment input n) as [b |] eqn:Eb; split;
      cbn [needed non_zero_input in_parts out_parts in_with_zero_count data_part_count parity_part_count]; rewrite ?Ein, ?Eiz; try done.
    + unfold set_bit. by rewrite length_insert, Enz.
    + intros j. rewrite Enz, test_set_bit, Hz, Hic by lia. rewrite nonzero_next, Eb by done.
      rewrite (bool_decide_true (is_Some (Some b))) by done. by rewrite andb_true_r, orb_comm.
    + rewrite available_below_S, He, omap_app, Hin by done. cbn. by rewrite Eb.
    + rewrite available_below_S, He, length_app by done. cbn. lia.
    + by rewrite Enz.
    + intros j. rewrite Enz, Hz. rewrite nonzero_next, Eb by done.
      rewrite (bool_decide_false (is_Some None)) by (by intros []). by rewrite andb_false_r, orb_false_r.
    + rewrite available_below_S, He, omap_app, Hin by done. cbn. by rewrite Eb, app_nil_r.
    + rewrite available_below_S, He, length_app by done. cbn. lia.
Qed.

Lemma scan_parts_spec n : n ≤ kMaxPartCount → scanned n (scan_parts k n input erased output).
Proof using Hlen.
  induction n as [| n IH]; intros Hn.
  - split; try done; intros i; apply test_no_bits.
  - unfold scan_parts. rewrite seq_S, foldl_app. cbn [foldl Nat.add]. apply scanned_step; [lia | apply IH; lia].
Qed.
End scanning.

(** ** The tables for a request *)

Definition data_complete (k : nat) (erased : bits) : bool := forallb (fun i => negb (test erased i)) (seq 0 k).
Definition only_data (k m : nat) (needed : bits) : bool := forallb (fun i => i <? k) (chosen (k + m) needed).

(** The matrix that the code computes for a request, whichever routine it calls. *)
Definition request_matrix (c : cpu) (k m : nat) (needed erased : bits) : matrix :=
  let decode_matrix := (gf_invert_matrix (selectRows (generator k m) (k + m) k (negb <$> erased)) k).2 in
  if data_complete k erased then selectRows (generator k m) (k + m) k needed
  else if only_data k m needed then selectRows decode_matrix k k needed
  else matrixMultiply c (count needed) k k (selectRows (generator k m) (k + m) k needed) decode_matrix.

Definition request_table (c : cpu) (k m : nat) (needed erased non_zero_input : bits) : list byte :=
  init_reduced k needed non_zero_input (request_matrix c k m needed erased).

(** The states of a coder that only served well-formed requests. *)
Record valid (c : cpu) (k m : nat) (s : coder) : Prop := {
  v_k : rs_k_ s = k;
  v_m : rs_m_ s = m;
  v_matrix : rs_matrix_ s = generator k m;
  v_nonzero : count (non_zero_input_ s) ≤ k;
  v_cache : count (erased_parts_ s) = m → gf_table_ s = request_table c k m (needed_parts_ s) (erased_parts_ s) (non_zero_input_ s);
}.

Lemma count_no_bits : count no_bits = 0.
Proof. done. Qed.

Lemma new_coder_valid c k m s : ReedSolomon k m = Ok s → accepted k m ∧ valid c k m s.
Proof.
  unfold ReedSolomon, assertion. destruct (_ && _) eqn:Ek; [| done]. destruct ((1 <=? m) && _) eqn:Em; [| done]. intros [= <-].
  apply andb_prop in Ek as [?%Nat.leb_le ?%Nat.leb_le]. apply andb_prop in Em as [?%Nat.leb_le ?%Nat.leb_le].
  split; [done |]. unfold createRSMatrix. rewrite (proj2 (Nat.eqb_neq k _)) by (cbn; lia). cbn [andb].
  split; [done.. | change (count no_bits ≤ k) | change (count no_bits = m → gf_table_ default_coder = request_table c k m no_bits no_bits no_bits)];
    rewrite count_no_bits; lia.
Qed.

Lemma stored_valid c k m s needed erased nz : valid c k m s → count nz ≤ k →
  valid c k m (store s (request_table c k m needed erased nz) needed erased nz).
Proof. intros [] ?. by split. Qed.

(** Both routines leave the tables of the request, computed or cached. *)
Lemma tables_ready c k m s needed erased nz :
  valid c k m s → count needed ≤ m → count erased = m → 0 < count nz ≤ k →
  ∃ s', (if data_complete k erased then createEncodingMatrix needed erased nz s
         else createRecoveryMatrix c needed erased nz (only_data k m needed) s) = Ok s' ∧
    valid c k m s' ∧ gf_table_ s' = request_table c k m needed erased nz.
Proof.
  intros Hv Hn He Hz. pose proof Hv as [Ek Em Eg Hnz Hc].
  assert (in_cache s needed erased nz = true → gf_table_ s = request_table c k m needed erased nz) as Hhit.
  { unfold in_cache. rewrite !andb_true_iff, !bool_decide_eq_true. intros [[-> ->] ->]. by apply Hc. }
  assert (request_table c k m needed erased nz =
    if data_complete k erased then encoding_table s needed nz else recovery_table c s needed erased nz (only_data k m needed)) as Et.
  { unfold request_table, request_matrix, encoding_table, recovery_table. rewrite Ek, Em, Eg.
    destruct (data_complete k erased), (only_data k m needed); done. }
  unfold createEncodingMatrix, createRecoveryMatrix, assertion. rewrite Ek, Em, He, Nat.eqb_refl.
  rewrite (proj2 (Nat.leb_le _ _) Hn), (proj2 (Nat.ltb_lt _ _) (proj1 Hz)), (proj2 (Nat.leb_le _ _) Hnz). cbn [andb].
  destruct (in_cache s needed erased nz) eqn:Ei.
  - exists s. split; [by destruct (data_complete k erased) | auto].
  - exists (store s (request_table c k m needed erased nz) needed erased nz). split; [| split; [apply stored_valid; [done | lia] | done]].
    rewrite Et. by destruct (data_complete k erased).
Qed.

Lemma tables_abort c k m s needed erased nz :
  count nz = 0 →
  (if data_complete k erased then createEncodingMatrix needed erased nz s
   else createRecoveryMatrix c needed erased nz (only_data k m needed) s) = Abort.
Proof.
  intros Hz. unfold createEncodingMatrix, createRecoveryMatrix, assertion. rewrite Hz. cbn [Nat.ltb Nat.leb andb].
  destruct (data_complete k erased), (_ && _); done.
Qed.

Lemma data_complete_spec k erased : data_complete k erased = true ↔ ∀ i, i < k → test erased i = false.
Proof.
  unfold data_complete. rewrite forallb_forall. setoid_rewrite in_seq. setoid_rewrite negb_true_iff. naive_solver lia.
Qed.

Lemma parts_fit k m : accepted k m → k + m ≤ kMaxPartCount.
Proof. intros [[_ Hk] [_ Hm]]. unfold kMaxPartCount. lia. Qed.

Section request.
Context (c : cpu) (k m : nat) (Hkm : accepted k m) (erased needed : bits).
Hypothesis Hlen : length erased = kMaxPartCount.
Hypothesis Hneeded_len : length needed = kMaxPartCount.
Hypothesis Hbelow : ∀ i, test erased i = true → i < k + m.
Hypothesis Hneeded : ∀ i, test needed i = true → test erased i = true.
Hypothesis Hcount : count erased = m.

Lemma erased_chosen : length (chosen (k + m) erased) = m.
Proof using Hkm Hlen Hbelow Hcount. rewrite <- Hcount at 2. symmetry. apply count_below; [| done]. rewrite Hlen. by apply parts_fit. Qed.

Lemma needed_count : count needed = length (chosen (k + m) needed).
Proof using Hkm Hneeded_len Hbelow Hneeded. apply count_below; [| auto]. rewrite Hneeded_len. by apply parts_fit. Qed.

Lemma needed_count_le : count needed ≤ m.
Proof using Hkm Hlen Hneeded_len Hbelow Hneeded Hcount.
  rewrite needed_count, <- erased_chosen. apply submseteq_length, NoDup_submseteq; [apply chosen_NoDup |].
  intros i [? ?]%elem_of_chosen. apply elem_of_chosen. auto.
Qed.

Lemma request_recovers : recovers k m erased needed (request_matrix c k m needed erased).
Proof using Hkm Hlen Hneeded_len Hbelow Hneeded Hcount.
  pose proof erased_chosen as He. assert (k + m ≤ length erased) as Hl by (rewrite Hlen; by apply parts_fit). unfold request_matrix.
  destruct (data_complete k erased) eqn:Ed; [apply parity_rows_recover; [done.. |]; by apply data_complete_spec |].
  destruct (only_data k m needed) eqn:Eo; [| rewrite needed_count; by apply product_recovers].
  apply data_rows_recover; [done.. |]. intros i Hi. unfold only_data in Eo. rewrite forallb_forall in Eo.
  apply Nat.ltb_lt, Eo, list_elem_of_In, Hi.
Qed.

Lemma request_shaped : shaped (count needed) k (request_matrix c k m needed erased).
Proof using Hkm Hneeded_len Hbelow Hneeded.
  unfold request_matrix. destruct (data_complete k erased); [rewrite needed_count; apply selectRows_shaped |].
  destruct (only_data k m needed) eqn:Eo.
  - rewrite needed_count. rewrite (chosen_first k m needed); [apply selectRows_shaped |]. intros i Hi. unfold only_data in Eo.
    rewrite forallb_forall in Eo. apply Nat.ltb_lt, Eo, list_elem_of_In, Hi.
  - unfold matrixMultiply. rewrite encode_product; [| done | rewrite needed_count; apply selectRows_shaped].
    split; [by rewrite length_fmap, length_seq |]. intros r (l & -> & _)%list_elem_of_fmap. unfold product. by rewrite length_fmap, length_seq.
Qed.

(** The tables turn the available parts into the needed parts. *)
Lemma request_computes size data nz :
  let available := chosen (k + m) (negb <$> erased) in
  length nz = kMaxPartCount → (∀ j, test nz j = true → j < k) →
  (∀ j, j < k → test nz j = false → part k m size data (nth j available 0) = replicate size x00) →
  ec_encode_data c size (length (chosen k nz)) (count needed) (request_table c k m needed erased nz)
    ((fun j => part k m size data (nth j available 0)) <$> chosen k nz) =
  part k m size data <$> chosen (k + m) needed.
Proof using Hkm Hlen Hneeded_len Hbelow Hneeded Hcount.
  intros available Hnzl Hnz Hz. pose proof (parts_fit k m Hkm) as Hf.
  unfold request_table. rewrite (init_reduced_product c size k needed nz (request_matrix c k m needed erased)
    (fun j => part k m size data (nth j available 0))); [| lia | apply request_shaped | done | done].
  rewrite needed_count, <- (fmap_nth_seq (part k m size data)). apply list_fmap_ext. intros l ? [-> Hl]%lookup_seq. cbn [Nat.add].
  apply list_fmap_ext. intros i ? [-> Hi]%lookup_seq. cbn [Nat.add].
  pose proof (request_recovers (fun q => nth i (nth q data []) x00) l Hl) as Hr. fold available in Hr. etransitivity; [| exact Hr].
  apply sum_ext. intros j Hj. f_equal. unfold part, product. by rewrite nth_fmap_seq.
Qed.
End request.

(** ** Requests *)

Lemma filter_ext {A} (P Q : A → Prop) `{∀ x, Decision (P x), ∀ x, Decision (Q x)} (l : list A) :
  (∀ x, x ∈ l → P x ↔ Q x) → filter P l = filter Q l.
Proof.
  induction l as [| x l IH]; intros HPQ; [done |]. rewrite !filter_cons, IH by (intros; apply HPQ; by right).
  pose proof (HPQ x (list_elem_of_here _ _)). by destruct (decide (P x)), (decide (Q x)); try tauto.
Qed.

Lemma filter_nothing {A} (P : A → Prop) `{∀ x, Decision (P x)} (l : list A) : (∀ x, x ∈ l → ¬ P x) → filter P l = [].
Proof.
  intros HP. rewrite (filter_ext P (fun _ => False)) by (intros x Hx%HP; tauto).
  clear HP. induction l as [| x l IH]; [done |]. rewrite filter_cons, IH. by case_decide.
Qed.

Lemma filter_full {A} (P : A → Prop) `{∀ x, Decision (P x)} (l : list A) : (∀ x, x ∈ l → P x) → filter P l = l.
Proof.
  intros HP. rewrite (filter_ext P (fun _ => True)) by (intros x Hx%HP; tauto). clear HP.
  induction l as [| x l IH]; [done |]. rewrite filter_cons, IH. by case_decide.
Qed.

Lemma filter_fmap {A B} (f : A → B) (P : B → Prop) `{∀ x, Decision (P x)} (l : list A) : filter P (f <$> l) = f <$> filter (fun x => P (f x)) l.
Proof. induction l as [| x l IH]; [done |]. rewrite fmap_cons, !filter_cons, IH. by destruct (decide (P (f x))). Qed.

(** A buffer holds a block: its bytes, or a null pointer for a block of zeros. *)
Definition holds (size : nat) (f : fragments) (i : nat) (b : block) : Prop :=
  fragment f i = Some b ∨ (fragment f i = None ∧ b = replicate size x00).

Lemma chosen_ext n b P `{∀ i, Decision (P i)} : (∀ i, i < n → P i ↔ test b i = true) → filter P (seq 0 n) = chosen n b.
Proof. intros HP. apply filter_ext. intros i Hi%elem_of_seq. apply HP. lia. Qed.

Lemma write_parts_spec (f : nat → block) positions : ∀ output, NoDup positions → (∀ i, i ∈ positions → i < length output) →
  ∀ i, fragment (write_parts output positions (f <$> positions)) i = if bool_decide (i ∈ positions) then Some (f i) else fragment output i.
Proof.
  induction positions as [| p ps IH]; intros output Hnd Hlt i; [done |].
  change (write_parts output (p :: ps) (f <$> p :: ps)) with (write_parts (<[p := Some (f p)]> output) ps (f <$> ps)). inversion Hnd as [| ? ? Hnin Hnd']; subst.
  rewrite IH; [| done |].
  - assert (p < length output) by (apply Hlt; left). destruct (decide (i ∈ ps)) as [Hi | Hi].
    + rewrite !bool_decide_true by (done || by right). done.
    + rewrite (bool_decide_false (i ∈ ps)) by done. unfold fragment. rewrite !nth_lookup. destruct (decide (i = p)) as [-> | Hne].
      * rewrite bool_decide_true by left. by rewrite list_lookup_insert_eq.
      * rewrite bool_decide_false by (by intros [?|?]%elem_of_cons). by rewrite list_lookup_insert_ne.
  - intros q Hq. rewrite length_insert. apply Hlt. by right.
Qed.

(** The inputs that are not null, in order. *)
Lemma inputs_selected (input : fragments) (f : nat → block) (l : list nat) nz size :
  (∀ i, i ∈ l → holds size input i (f i)) →
  (∀ j, test nz j = (j <? length l) && bool_decide (is_Some (fragment input (nth j l 0)))) →
  omap (fragment input) l = (fun j => f (nth j l 0)) <$> chosen (length l) nz.
Proof.
  intros Hl Hnz. transitivity (f <$> filter (fun i => is_Some (fragment input i)) l).
  - clear Hnz. induction l as [| i l IH]; [done |]. cbn [omap list_omap]. rewrite filter_cons.
    rewrite IH by (intros; apply Hl; by right). destruct (Hl i (list_elem_of_here _ _)) as [E | [E _]]; rewrite E.
    + by rewrite decide_True.
    + by rewrite decide_False by (by intros []).
  - assert (l = (fun j => nth j l 0) <$> seq 0 (length l)) as El by (by rewrite (fmap_nth_seq (fun j => j)), list_fmap_id).
    rewrite El at 1. rewrite filter_fmap, <- list_fmap_compose.
    rewrite (chosen_ext (length l) nz); [done |]. intros j Hj. rewrite Hnz, (proj2 (Nat.ltb_lt _ _) Hj). cbn [andb].
    by rewrite bool_decide_eq_true.
Qed.

Lemma zero_inputs (input : fragments) (f : nat → block) (l : list nat) nz size j :
  (∀ i, i ∈ l → holds size input i (f i)) →
  (∀ j, test nz j = (j <? length l) && bool_decide (is_Some (fragment input (nth j l 0)))) →
  j < length l → test nz j = false → f (nth j l 0) = replicate size x00.
Proof.
  intros Hl Hnz Hj Ht. rewrite Hnz, (proj2 (Nat.ltb_lt _ _) Hj) in Ht. cbn [andb] in Ht. apply bool_decide_eq_false in Ht.
  destruct (Hl (nth j l 0)) as [E | [_ E]]; [apply list_elem_of_In, nth_In; done | | done]. rewrite E in Ht. by destruct Ht.
Qed.

(** A request names lost parts of the code. *)
Definition well_formed (k m : nat) (erased : bits) : Prop := length erased = kMaxPartCount ∧ ∀ i, test erased i = true → i < k + m.

Section scanned_request.
Context (c : cpu) (k m : nat) (Hkm : accepted k m) (input : fragments) (erased : bits) (output : fragments).
Context (Hwf : well_formed k m erased) (Hcount : count erased = m).

Let n := k + m.
Let t := scan_parts k n input erased output.
Let available := chosen n (negb <$> erased).

Lemma request_scanned : scanned k input erased output n t.
Proof using Hkm Hwf Hcount. apply scan_parts_spec; [apply Hwf | by apply parts_fit]. Qed.

Lemma available_count : length available = k.
Proof using Hkm Hwf Hcount.
  destruct Hwf as [Hl Hb]. pose proof (parts_fit k m Hkm). apply available_length; [lia |]. by apply erased_chosen.
Qed.

Lemma request_out : out_parts t = chosen n (needed t).
Proof using Hkm Hwf Hcount.
  pose proof request_scanned as [_ Hn _ _ _ Ho _ _ _]. rewrite Ho. apply chosen_ext. intros i Hi.
  by rewrite Hn, (proj2 (Nat.ltb_lt _ _) Hi).
Qed.

Lemma needed_erased i : test (needed t) i = true → test erased i = true.
Proof using Hkm Hwf Hcount.
  pose proof request_scanned as [_ Hn _ _ _ _ _ _ _]. rewrite Hn. unfold wanted_at. rewrite !andb_true_iff. tauto.
Qed.

Lemma request_data_count : (data_part_count t =? k) = data_complete k erased.
Proof using Hkm Hwf Hcount.
  pose proof request_scanned as [_ _ _ _ _ _ _ Hd _]. rewrite Hd, Nat.min_r by (unfold n; lia). unfold available_below.
  destruct Hwf as [Hl _]. pose proof (parts_fit k m Hkm). destruct (data_complete k erased) eqn:E.
  - apply Nat.eqb_eq. rewrite chosen_full, length_seq; [done |]. intros i Hi.
    rewrite test_flip by lia. rewrite (proj1 (data_complete_spec k erased) E i Hi). done.
  - apply Nat.eqb_neq. intros El. assert (data_complete k erased = true) as E'; [| by rewrite E in E'].
    apply data_complete_spec. intros i Hi. assert (i ∈ chosen k (negb <$> erased)) as Hin.
    { rewrite chosen_all by lia. apply elem_of_seq. lia. }
    apply elem_of_chosen in Hin as [_ Hin]. rewrite test_flip in Hin by lia. by destruct (test erased i).
Qed.

Lemma request_parity_count : (parity_part_count t =? 0) = only_data k m (needed t).
Proof using Hkm Hwf Hcount.
  pose proof request_scanned as [_ _ _ _ _ _ _ _ Hp]. rewrite Hp, request_out. unfold only_data. fold n.
  induction (chosen n (needed t)) as [| i l IH]; [done |]. rewrite filter_cons. cbn [forallb].
  destruct (Nat.ltb_spec i k); case_decide; try lia; [by rewrite <- IH | done].
Qed.

Lemma recover_unfold data_size s : rs_k_ s = k → rs_m_ s = m →
  recover c input erased output data_size s =
  (s ← (if data_complete k erased then createEncodingMatrix (needed t) erased (non_zero_input t) s
        else createRecoveryMatrix c (needed t) erased (non_zero_input t) (only_data k m (needed t)) s);
   Ok (s, write_parts output (chosen n (needed t))
            (ec_encode_data c data_size (length (in_parts t)) (length (chosen n (needed t))) (gf_table_ s) (in_parts t)))).
Proof using Hkm Hwf Hcount.
  intros Ek Em. unfold recover, assertion. rewrite Ek, Em, Hcount, Nat.eqb_refl. fold n t.
  by rewrite request_data_count, request_parity_count, request_out.
Qed.

Lemma nonzero_below j : test (non_zero_input t) j = true → j < k.
Proof using Hkm Hwf Hcount.
  pose proof request_scanned as [_ _ _ Hz _ _ _ _ _]. rewrite Hz, andb_true_iff, Nat.ltb_lt. intros [Hj _].
  by rewrite <- available_count.
Qed.

Lemma nonzero_count : count (non_zero_input t) = length (chosen k (non_zero_input t)).
Proof using Hkm Hwf Hcount.
  pose proof request_scanned as [_ _ Hl _ _ _ _ _ _]. pose proof (parts_fit k m Hkm). apply count_below; [lia | apply nonzero_below].
Qed.

Lemma nonzero_count_le : count (non_zero_input t) ≤ k.
Proof using Hkm Hwf Hcount. rewrite nonzero_count. unfold chosen. etransitivity; [apply length_filter |]. by rewrite length_seq. Qed.

Lemma nonzero_count_pos : 0 < count (non_zero_input t) ↔ ∃ i, i < n ∧ test erased i = false ∧ is_Some (fragment input i).
Proof using Hkm Hwf Hcount.
  pose proof request_scanned as [_ _ _ Hz _ _ _ _ _]. rewrite nonzero_count.
  unfold available_below in Hz. fold available in Hz.
  destruct Hwf as [Hl _]. pose proof (parts_fit k m Hkm). assert (∀ i, i ∈ available ↔ i < n ∧ test erased i = false) as Hav.
  { intros i. unfold available. rewrite elem_of_chosen. split; intros [Hi Ht]; (split; [done |]); rewrite test_flip in * by (unfold n in *; lia);
      by destruct (test erased i). }
  split.
  - intros Hpos. destruct (chosen k (non_zero_input t)) as [| j l] eqn:E; [cbn in Hpos; lia |].
    assert (j ∈ chosen k (non_zero_input t)) as Hj by (rewrite E; left). apply elem_of_chosen in Hj as [_ Hj]. rewrite Hz in Hj.
    apply andb_true_iff in Hj as [Hj%Nat.ltb_lt Hs%bool_decide_eq_true].
    destruct (proj1 (Hav (nth j available 0))) as [? ?]; [apply list_elem_of_In, nth_In, Hj |]. by exists (nth j available 0).
  - intros (i & Hi & He & Hs). assert (i ∈ available) as Hin by (by apply Hav). apply list_elem_of_lookup in Hin as [j Hj].
    assert (j ∈ chosen k (non_zero_input t)) as Hc; [| destruct (chosen k _); [by apply elem_of_nil in Hc | cbn; lia]].
    assert (j < length available) as Hlt by (by apply lookup_lt_Some in Hj). apply elem_of_chosen. split; [by rewrite <- available_count |].
    rewrite Hz, (proj2 (Nat.ltb_lt _ _) Hlt), (nth_lookup_Some _ _ _ _ Hj).
    by rewrite bool_decide_true.
Qed.
End scanned_request.

(** ** Recovery is correct *)

Lemma recover_correct c k m s size data input erased output :
  accepted k m → valid c k m s → well_formed k m erased → count erased = m → length output = kMaxPartCount →
  (∀ i, i < k + m → test erased i = false → holds size input i (part k m size data i)) →
  (∃ i, i < k + m ∧ test erased i = false ∧ is_Some (fragment input i)) →
  ∃ s' output', recover c input erased output size s = Ok (s', output') ∧ valid c k m s' ∧
    ∀ i, fragment output' i = if wanted_at erased output i then Some (part k m size data i) else fragment output i.
Proof.
  intros Hkm Hv Hwf Hc Hol Hin Hsome. pose proof Hv as [Ek Em _ _ _]. rewrite (recover_unfold c k m) by done.
  pose proof (request_scanned k m Hkm input erased output Hwf Hc) as [Hnl Hn Hzl Hz Hip _ _ _ _].
  pose proof (nonzero_below k m Hkm input erased output Hwf Hc) as Hzb.
  pose proof (needed_erased k m Hkm input erased output Hwf Hc) as Hne.
  pose proof (available_count k m Hkm erased Hwf Hc) as Hav. pose proof (parts_fit k m Hkm) as Hfit. destruct Hwf as [Hel Heb].
  set (t := scan_parts k (k + m) input erased output) in *. unfold available_below in *.
  set (available := chosen (k + m) (negb <$> erased)) in *.
  assert (∀ i, i ∈ available → holds size input i (part k m size data i)) as Hholds.
  { intros i [Hi Ht]%elem_of_chosen. rewrite test_flip in Ht by lia. apply Hin; [done |]. by destruct (test erased i). }
  destruct (tables_ready c k m s (needed t) erased (non_zero_input t) Hv) as (s' & -> & Hv' & Et).
  - by apply (needed_count_le k m Hkm erased).
  - done.
  - split; [by apply (nonzero_count_pos k m Hkm input erased output) | by apply (nonzero_count_le k m Hkm input erased output)].
  - exists s'. eexists. split; [reflexivity |]. split; [done |]. intros i.
    rewrite Et, Hip, (inputs_selected input (part k m size data) available (non_zero_input t) size) by done.
    rewrite length_fmap, Hav, <- (needed_count k m Hkm erased) by done. rewrite request_computes; try done.
    + rewrite write_parts_spec; [| apply chosen_NoDup | intros j [Hj _]%elem_of_chosen; lia].
      destruct (wanted_at erased output i) eqn:Ew.
      * rewrite bool_decide_true; [done |]. apply elem_of_chosen. assert (i < k + m) as Hi.
        { apply Heb. unfold wanted_at in Ew. by apply andb_true_iff in Ew as [-> _]. }
        split; [done |]. by rewrite Hn, Ew, (proj2 (Nat.ltb_lt _ _) Hi).
      * rewrite bool_decide_false; [done |]. rewrite elem_of_chosen, Hn, Ew, andb_false_r. by intros [_ ?].
    + intros j Hj. apply (zero_inputs input (part k m size data) available (non_zero_input t)); [done | done | by rewrite Hav].
Qed.

Lemma recover_valid c k m s size input erased output s' output' :
  accepted k m → valid c k m s → well_formed k m erased →
  recover c input erased output size s = Ok (s', output') → valid c k m s'.
Proof.
  intros Hkm Hv Hwf H. pose proof Hv as [Ek Em _ _ _]. assert (count erased = m) as Hc.
  { unfold recover, assertion in H. rewrite Em in H. destruct (Nat.eqb_spec (count erased) m); [done | discriminate]. }
  rewrite (recover_unfold c k m) in H by done.
  pose proof (request_scanned k m Hkm input erased output Hwf Hc) as [Hnl _ _ _ _ _ _ _ _].
  pose proof (needed_erased k m Hkm input erased output Hwf Hc) as Hne.
  pose proof (nonzero_count_le k m Hkm input erased output Hwf Hc) as Hle. destruct Hwf as [Hel Heb].
  set (t := scan_parts k (k + m) input erased output) in *.
  destruct (decide (count (non_zero_input t) = 0)) as [H0 | H0].
  - by rewrite (tables_abort c k m s _ _ _ H0) in H.
  - destruct (tables_ready c k m s (needed t) erased (non_zero_input t) Hv) as (s1 & E & Hv' & _); [| done | lia |].
    + by apply (needed_count_le k m Hkm erased).
    + rewrite E in H. by injection H as <- <-.
Qed.

(** With null pointers for all available parts the assertion of the matrix routines fails, although
    null pointers stand for parts of zeros. *)
Lemma recover_all_zero_aborts c k m s size input erased output :
  accepted k m → valid c k m s → well_formed k m erased →
  (∀ i, i < k + m → test erased i = false → fragment input i = None) →
  recover c input erased output size s = Abort.
Proof.
  intros Hkm Hv Hwf Hnull. pose proof Hv as [Ek Em _ _ _]. destruct (decide (count erased = m)) as [Hc | Hc].
  - rewrite (recover_unfold c k m) by done. rewrite tables_abort; [done |].
    destruct (decide (count (non_zero_input (scan_parts k (k + m) input erased output)) = 0)) as [| Hpos]; [done | exfalso].
    destruct (proj1 (nonzero_count_pos k m Hkm input erased output Hwf Hc)) as (i & Hi & He & Hs); [lia |].
    rewrite Hnull in Hs by done. by destruct Hs.
  - unfold recover, assertion. rewrite Em. by rewrite (proj2 (Nat.eqb_neq _ _) Hc).
Qed.

(** ** Encoding is correct *)

Lemma data_bits_spec k data : k ≤ kMaxPartCount →
  length (data_bits k data) = kMaxPartCount ∧ ∀ i, test (data_bits k data) i = (i <? k) && bool_decide (is_Some (fragment data i)).
Proof.
  induction k as [| k IH]; intros Hk; [split; [done | intros i; apply test_no_bits] |]. destruct IH as [Hl Ht]; [lia |].
  unfold data_bits in *. rewrite seq_S, foldl_app. cbn [foldl Nat.add]. set (b := foldl _ no_bits (seq 0 k)) in *.
  assert (∀ i, (i <? S k) = (i <? k) || (k =? i)) as Hs.
  { intros i. destruct (Nat.ltb_spec i (S k)), (Nat.ltb_spec i k), (Nat.eqb_spec k i); first [done | lia]. }
  destruct (fragment data k) as [x |] eqn:E.
  - split; [by unfold set_bit; rewrite length_insert |]. intros i. rewrite test_set_bit, Ht, Hs by lia.
    destruct (Nat.eqb_spec k i) as [<- |]; [| by rewrite orb_false_r]. by rewrite E, orb_true_r, bool_decide_true.
  - split; [done |]. intros i. rewrite Ht, Hs. destruct (Nat.eqb_spec k i) as [<- |]; [| by rewrite orb_false_r].
    rewrite E, bool_decide_false by (by intros []). by rewrite !andb_false_r.
Qed.

Lemma parity_bits_spec k m : k + m ≤ kMaxPartCount →
  length (parity_bits k m) = kMaxPartCount ∧ ∀ i, test (parity_bits k m) i = (k <=? i) && (i <? k + m).
Proof.
  induction m as [| m IH]; intros Hm.
  - split; [done |]. intros i. unfold parity_bits. cbn [seq foldl]. rewrite test_no_bits, Nat.add_0_r.
    destruct (Nat.leb_spec k i), (Nat.ltb_spec i k); first [done | lia].
  - destruct IH as [Hl Ht]; [lia |]. unfold parity_bits in *. rewrite seq_S, foldl_app. cbn [foldl Nat.add].
    split; [by unfold set_bit; rewrite length_insert |]. intros i. rewrite test_set_bit, Ht by lia.
    destruct (Nat.eqb_spec (k + m) i), (Nat.leb_spec k i), (Nat.ltb_spec i (k + m)), (Nat.ltb_spec i (k + S m)); first [done | lia].
Qed.

Lemma parity_chosen k m : k + m ≤ kMaxPartCount → chosen (k + m) (parity_bits k m) = (fun i => k + i) <$> seq 0 m.
Proof.
  intros Hkm. destruct (parity_bits_spec k m Hkm) as [_ Ht]. rewrite chosen_add, fmap_add_seq, Nat.add_0_r. unfold chosen.
  rewrite filter_nothing, filter_full; [done | |]; intros i Hi%elem_of_seq; rewrite Ht.
  - by rewrite (proj2 (Nat.leb_le _ _)), (proj2 (Nat.ltb_lt _ _)) by lia.
  - by rewrite (proj2 (Nat.leb_gt _ _)) by lia.
Qed.

Section encoding.
Context (c : cpu) (k m : nat) (Hkm : accepted k m) (data parity : fragments).

Lemma parity_well_formed : well_formed k m (parity_bits k m) ∧ count (parity_bits k m) = m.
Proof using Hkm.
  pose proof (parts_fit k m Hkm) as Hfit. destruct (parity_bits_spec k m Hfit) as [Hl Ht].
  assert (∀ i, test (parity_bits k m) i = true → i < k + m) as Hb by (intros i; rewrite Ht, andb_true_iff, Nat.ltb_lt; tauto).
  split; [done |]. rewrite (count_below (k + m)), parity_chosen by (done || lia). by rewrite length_fmap, length_seq.
Qed.

Lemma parity_data_complete : data_complete k (parity_bits k m) = true.
Proof using Hkm.
  destruct (parity_bits_spec k m (parts_fit k m Hkm)) as [_ Ht]. apply data_complete_spec. intros i Hi. rewrite Ht.
  by rewrite (proj2 (Nat.leb_gt _ _)) by lia.
Qed.

Lemma parity_available : chosen (k + m) (negb <$> parity_bits k m) = seq 0 k.
Proof using Hkm.
  pose proof (parts_fit k m Hkm) as Hfit. destruct (parity_bits_spec k m Hfit) as [Hl Ht]. rewrite chosen_first.
  - apply chosen_full. intros i Hi. rewrite test_flip, Ht, (proj2 (Nat.leb_gt _ _)) by lia. done.
  - intros i [Hi Hf]%elem_of_chosen. rewrite test_flip, Ht, (proj2 (Nat.ltb_lt _ _) Hi) in Hf by lia.
    destruct (Nat.leb_spec k i); [done | lia].
Qed.

Lemma data_count : count (data_bits k data) = length (chosen k (data_bits k data)) ∧ count (data_bits k data) ≤ k ∧
  (count (data_bits k data) = 0 ↔ ∀ i, i < k → fragment data i = None).
Proof using Hkm.
  pose proof (parts_fit k m Hkm). destruct (data_bits_spec k data) as [Hl Ht]; [lia |].
  rewrite (count_below k); [| lia | intros i; rewrite Ht, andb_true_iff, Nat.ltb_lt; tauto]. split; [done |]. split.
  - unfold chosen. etransitivity; [apply length_filter |]. by rewrite length_seq.
  - split.
    + intros H0%nil_length_inv i Hi. destruct (fragment data i) as [x |] eqn:E; [exfalso | done].
      apply (not_elem_of_nil i). rewrite <- H0. apply elem_of_chosen. split; [done |].
      by rewrite Ht, (proj2 (Nat.ltb_lt _ _) Hi), E, bool_decide_true.
    + intros Hn. unfold chosen. rewrite filter_nothing; [done |]. intros i Hi%elem_of_seq. rewrite Ht, Hn by lia.
      rewrite bool_decide_false by (by intros []). by rewrite andb_false_r.
Qed.

Lemma encode_unfold size s : rs_k_ s = k → rs_m_ s = m →
  encode c data parity size s =
  assertion (forallb (fun i => bool_decide (is_Some (fragment parity i))) (seq 0 m))
  (s ← (if data_complete k (parity_bits k m) then createEncodingMatrix (parity_bits k m) (parity_bits k m) (data_bits k data) s
        else createRecoveryMatrix c (parity_bits k m) (parity_bits k m) (data_bits k data) (only_data k m (parity_bits k m)) s);
   Ok (s, write_parts parity (seq 0 m)
            (ec_encode_data c size (length (omap (fragment data) (seq 0 k))) m (gf_table_ s) (omap (fragment data) (seq 0 k))))).
Proof using Hkm. intros Ek Em. unfold encode. rewrite Ek, Em, parity_data_complete. done. Qed.
End encoding.

Lemma encode_correct c k m s size data input parity :
  accepted k m → valid c k m s → length parity = kMaxPartCount →
  (∀ i, i < m → is_Some (fragment parity i)) →
  (∀ i, i < k → holds size input i (part k m size data i)) → (∃ i, i < k ∧ is_Some (fragment input i)) →
  ∃ s' parity', encode c input parity size s = Ok (s', parity') ∧ valid c k m s' ∧
    ∀ i, fragment parity' i = if i <? m then Some (part k m size data (k + i)) else fragment parity i.
Proof.
  intros Hkm Hv Hpl Hpar Hin (i0 & Hi0 & Hs0). pose proof Hv as [Ek Em _ _ _]. pose proof (parts_fit k m Hkm) as Hfit.
  rewrite (encode_unfold c k m) by done. destruct (parity_well_formed k m Hkm) as [[Hbl Hbb] Hbc].
  destruct (data_count k m Hkm input) as (Hdc & Hdle & Hd0). destruct (data_bits_spec k input) as [Hdl Hdt]; [lia |].
  rewrite (proj2 (forallb_forall _ _)); [cbn [assertion] | by intros i [_ Hi]%in_seq; apply bool_decide_eq_true, Hpar].
  destruct (tables_ready c k m s (parity_bits k m) (parity_bits k m) (data_bits k input) Hv) as (s' & -> & Hv' & Et).
  - lia.
  - done.
  - split; [| done]. destruct (count (data_bits k input)); [| lia]. rewrite (proj1 Hd0) in Hs0 by done. by destruct Hs0.
  - exists s'. eexists. split; [reflexivity |]. split; [done |]. intros i.
    pose proof (request_computes c k m Hkm _ (parity_bits k m) Hbl Hbl Hbb (fun i H => H) Hbc size data (data_bits k input)) as Hc.
    cbv zeta in Hc. rewrite (parity_available k m Hkm), Hbc, parity_chosen, <- list_fmap_compose in Hc by lia.
    rewrite Et, (inputs_selected input (part k m size data) (seq 0 k) (data_bits k input) size).
    + rewrite length_fmap, length_seq, Hc; [| done | intros j; rewrite Hdt, andb_true_iff, Nat.ltb_lt; tauto |].
      * rewrite (write_parts_spec (part k m size data ∘ (fun i => k + i))); [| apply NoDup_seq | intros j [_ Hj]%elem_of_seq; destruct Hkm; lia].
        destruct (Nat.ltb_spec i m); [rewrite bool_decide_true by (apply elem_of_seq; lia) | rewrite bool_decide_false by (rewrite elem_of_seq; lia)]; done.
      * intros j Hj Ht. apply (zero_inputs input (part k m size data) (seq 0 k) (data_bits k input)); [| | by rewrite length_seq | done].
        -- intros q Hq%elem_of_seq. apply Hin. lia.
        -- intros q. rewrite Hdt, length_seq. destruct (Nat.ltb_spec q k); [by rewrite seq_nth | done].
    + intros q Hq%elem_of_seq. apply Hin. lia.
    + intros q. rewrite Hdt, length_seq. destruct (Nat.ltb_spec q k); [by rewrite seq_nth | done].
Qed.

Lemma encode_valid c k m s size input parity s' parity' :
  accepted k m → valid c k m s → encode c input parity size s = Ok (s', parity') → valid c k m s'.
Proof.
  intros Hkm Hv H. pose proof Hv as [Ek Em _ _ _]. rewrite (encode_unfold c k m) in H by done. unfold assertion in H.
  destruct (forallb _ _); [| done]. destruct (parity_well_formed k m Hkm) as [_ Hbc]. destruct (data_count k m Hkm input) as (_ & Hdle & _).
  destruct (decide (count (data_bits k input) = 0)) as [H0 | H0].
  - by rewrite (tables_abort c k m s _ _ _ H0) in H.
  - destruct (tables_ready c k m s (parity_bits k m) (parity_bits k m) (data_bits k input) Hv) as (s1 & E & Hv' & _); [lia | done | lia |].
    rewrite E in H. by injection H as <- <-.
Qed.

(** ** Every coder, after any requests *)

(** The states of a coder for [k] and [m] parts on some processor, after any requests that
    named parts of the code. *)
Inductive reachable (c : cpu) (k m : nat) : coder → Prop :=
| reach_new s : ReedSolomon k m = Ok s → reachable c k m s
| reach_encode s input parity size s' parity' :
    reachable c k m s → encode c input parity size s = Ok (s', parity') → reachable c k m s'
| reach_recover s input erased output size s' output' :
    reachable c k m s → well_formed k m erased → recover c input erased output size s = Ok (s', output') → reachable c k m s'.

Lemma reachable_valid c k m s : reachable c k m s → accepted k m ∧ valid c k m s.
Proof.
  induction 1 as [s H | s input parity size s' parity' _ [Hkm IH] H | s input erased output size s' output' _ [Hkm IH] Hwf H].
  - by apply new_coder_valid.
  - split; [done |]. by eapply encode_valid.
  - split; [done |]. by eapply recover_valid.
Qed.

(** What is stored: the data parts and behind them the parity parts that were computed. *)
Definition stored (k : nat) (data : list block) (parity : fragments) (i : nat) : block :=
  if i <? k then nth i data [] else default [] (fragment parity (i - k)).

(** C9: Parity computed by any coder brings back any [m] lost parts with any other coder for the
    same numbers of parts: the buffers of the lost parts that are asked for receive what was
    stored, the other buffers are unchanged. *)
Theorem encode_then_recover c c' k m s size data input parity :
  reachable c k m s → length data = k → (∀ b, b ∈ data → length b = size) →
  length parity = kMaxPartCount → (∀ i, i < m → is_Some (fragment parity i)) →
  (∀ i, i < k → holds size input i (nth i data [])) → (∃ i, i < k ∧ is_Some (fragment input i)) →
  ∃ s1 parity1, encode c input parity size s = Ok (s1, parity1) ∧
    ∀ s2 rest erased output,
      reachable c' k m s2 → well_formed k m erased → count erased = m → length output = kMaxPartCount →
      (∀ i, i < k + m → test erased i = false → holds size rest i (stored k data parity1 i)) →
      (∃ i, i < k + m ∧ test erased i = false ∧ is_Some (fragment rest i)) →
      ∃ s3 output1, recover c' rest erased output size s2 = Ok (s3, output1) ∧
        ∀ i, fragment output1 i = if wanted_at erased output i then Some (stored k data parity1 i) else fragment output i.
Proof.
  intros [Hkm Hv]%reachable_valid Hdl Hds Hpl Hpar Hin Hsome.
  assert (∀ i, i < k → part k m size data i = nth i data []) as Hpd.
  { intros i Hi. destruct (lookup_lt_is_Some_2 data i) as [b Hb]; [lia |]. rewrite (nth_lookup_Some _ _ _ _ Hb).
    apply part_data; [done | done | by eapply Hds, list_elem_of_lookup_2]. }
  destruct (encode_correct c k m s size data input parity) as (s1 & parity1 & E & _ & Hp1); try done.
  { intros i Hi. rewrite Hpd by done. by apply Hin. }
  exists s1, parity1. split; [done |]. intros s2 rest erased output [_ Hv2]%reachable_valid Hwf Hc Hol Hrest Hrs.
  assert (∀ i, i < k + m → stored k data parity1 i = part k m size data i) as Hst.
  { intros i Hi. unfold stored. destruct (Nat.ltb_spec i k); [by rewrite Hpd |]. rewrite Hp1, (proj2 (Nat.ltb_lt _ _)) by lia.
    cbn. f_equal. lia. }
  destruct (recover_correct c' k m s2 size data rest erased output) as (s3 & output1 & E' & _ & Ho); try done.
  { intros i Hi He. rewrite <- Hst by done. by apply Hrest. }
  exists s3, output1. split; [done |]. intros i. rewrite Ho. destruct (wanted_at erased output i) eqn:Ew; [| done].
  rewrite Hst; [done |]. apply Hwf. unfold wanted_at in Ew. by apply andb_true_iff in Ew as [-> _].
Qed.

Definition wide (l : list (option block)) : fragments := l ++ replicate (kMaxPartCount - length l) None.

(** Two data parts and two parity parts: the first data part and the last parity part are lost. *)
Lemma encode_then_recover_witness :
  let c := {| cpu_avx2 := true; cpu_avx := true; cpu_ssse3 := true |} in
  let c' := {| cpu_avx2 := false; cpu_avx := false; cpu_ssse3 := false |} in
  let data := [[x01; x02]; [x03; xff]] in
  let input := wide (Some <$> data) in
  let parity := wide [Some [x00; x00]; Some [x00; x00]] in
  let erased := set_bit 0 (set_bit 3 no_bits) in
  ∃ s s1 parity1 s3 output1, ReedSolomon 2 2 = Ok s ∧ encode c input parity 2 s = Ok (s1, parity1) ∧
    recover c' (wide [None; Some [x03; xff]; fragment parity1 0; None]) erased (wide [Some [x00; x00]]) 2 s = Ok (s3, output1) ∧
    fragment output1 0 = Some [x01; x02].
Proof.
  intros c c' data input parity erased. eexists.
  destruct (encode_then_recover c c' 2 2 (createRSMatrix 2 2 default_coder) 2 data input parity) as (s1 & parity1 & E & H).
  - by apply reach_new.
  - done.
  - intros b [-> | [-> | []%elem_of_nil]%elem_of_cons]%elem_of_cons; done.
  - done.
  - intros [| [| i]] Hi; [by eexists.. | lia].
  - intros [| [| i]] Hi; [by left.. | lia].
  - exists 0. split; [lia | by eexists].
  - destruct (H (createRSMatrix 2 2 default_coder) (wide [None; Some [x03; xff]; fragment parity1 0; None]) erased (wide [Some [x00; x00]]))
      as (s3 & output1 & E' & Ho).
    + by apply reach_new.
    + split; [done |]. intros i Hi. destruct (decide (i < 4)); [done |]. unfold erased in Hi. rewrite !test_set_bit in Hi by (cbn; lia).
      rewrite test_no_bits in Hi. destruct i as [| [| [| [| i]]]]; first [done | lia].
    + done.
    + done.
    + intros [| [| [| [| i]]]] Hi He; [done | by left | | done | lia]. left. unfold stored. change (fragment parity1 0 = Some (default [] (fragment parity1 0))).
      assert (is_Some (match encode c input parity 2 (createRSMatrix 2 2 default_coder) with Ok (_, p) => fragment p 0 | _ => None end)) as [b Eb]
        by (vm_compute; by eexists).
      rewrite E in Eb. by rewrite Eb.
    + exists 1. split; [lia | split; [done | by eexists]].
    + exists s1, parity1, s3, output1. split; [reflexivity |]. split; [exact E |]. split; [exact E' |]. exact (Ho 0).
Defined.
