(* ===== verification/SliceTraits.v ===== *)
(** * Slice types, chunk part types and their arithmetic

    Models [detail::SliceType] (src/common/goal.h), [ChunkPartType] and
    [legacy::ChunkPartType] (src/common/chunk_part_type.h) and the functions of
    src/common/slice_traits.h.  A slice type is the [int] it stores, a chunk part
    type is the integer identifier it stores. *)

From stdpp Require Import pretty.
From S2P Require Import Prelude.

(** ** detail::SliceType *)
Module SliceType.

Definition kStandard : Z := 0.
Definition kTape : Z := 1.
Definition kXor2 : Z := 2.
Definition kXor9 : Z := 9.
Definition kECFirst : Z := 10.
Definition kECLast : Z := kECFirst + (31 * 32 - 1).
Definition kTypeCount : Z := kECLast + 1.

Definition kTypeParts : list Z := [1; 1; 3; 4; 5; 6; 7; 8; 9; 10].
Definition kTypeNames : list string :=
  ["std"; "tape"; "xor2"; "xor3"; "xor4"; "xor5"; "xor6"; "xor7"; "xor8"; "xor9"]%string.

Definition isValid (value_ : Z) : bool := (kStandard <=? value_) && (value_ <? kTypeCount).

Definition expectedParts (value_ : Z) : res Z :=
  assertion (isValid value_)
    (if value_ <? kECFirst
     then match kTypeParts !! Z.to_nat value_ with Some n => Ok n | None => Abort end
     else Ok (3 + Z.quot (value_ - kECFirst) 32 + Z.rem (value_ - kECFirst) 32)).

Definition toString (value_ : Z) : res string :=
  assertion (isValid value_)
    (if kECFirst <=? value_ then
       let k := 2 + Z.quot (value_ - kECFirst) 32 in
       let m := 1 + Z.rem (value_ - kECFirst) 32 in
       Ok ("ec(" +:+ pretty k +:+ "," +:+ pretty m +:+ ")")%string
     else match kTypeNames !! Z.to_nat value_ with Some s => Ok s | None => Abort end).

End SliceType.

(** ** legacy::ChunkPartType: an 8-bit identifier [11 * type + part] *)
Module LegacyChunkPartType.

Definition kMaxPartsCount : Z := 11.
Definition kMaxType : Z := 9.

Definition make (type part : Z) : res Z :=
  assertion ((0 <=? part) && (part <? kMaxPartsCount))
    (assertion ((0 <=? type) && (type <=? kMaxType + 1))
       (Ok (u8 (type * kMaxPartsCount + part)))).

Definition getSliceType (id_ : Z) : Z := Z.quot id_ kMaxPartsCount.
Definition getSlicePart (id_ : Z) : Z := Z.rem id_ kMaxPartsCount.

Definition isValid (id_ : Z) : res bool :=
  if getSliceType id_ <=? kMaxType
  then n ← SliceType.expectedParts (getSliceType id_); Ok (getSlicePart id_ <? n)
  else Ok false.

(** [deserialize]: the identifier is one byte of the buffer. *)
Definition deserialize (value : Z) : res Z :=
  let id_ := u8 value in
  ok ← isValid id_;
  if (ok : bool) then Ok id_ else Throw.

End LegacyChunkPartType.

(** ** ChunkPartType: a 16-bit identifier [64 * type + part] *)
Module ChunkPartType.

Definition kMaxPartsCount : Z := 64.
Definition kMaxTypeCount : Z := 2048.

Definition make (type part : Z) : res Z :=
  assertion (type <? kMaxTypeCount)
    (assertion ((0 <=? part) && (part <? kMaxPartsCount))
       (Ok (u16 (type * kMaxPartsCount + part)))).

Definition ofLegacy (cpt : Z) : Z :=
  u16 (LegacyChunkPartType.getSliceType cpt * kMaxPartsCount + LegacyChunkPartType.getSlicePart cpt).

Definition getSliceType (id_ : Z) : Z := Z.quot id_ kMaxPartsCount.
Definition getSlicePart (id_ : Z) : Z := Z.rem id_ kMaxPartsCount.

Definition isValid (id_ : Z) : res bool :=
  if SliceType.isValid (getSliceType id_)
  then n ← SliceType.expectedParts (getSliceType id_); Ok (getSlicePart id_ <? n)
  else Ok false.

(** [operator legacy::ChunkPartType] *)
Definition toLegacy (id_ : Z) : res Z :=
  let type := Z.min (getSliceType id_) (LegacyChunkPartType.kMaxType + 1) in
  let part := Z.min (getSlicePart id_) (LegacyChunkPartType.kMaxPartsCount - 1) in
  LegacyChunkPartType.make type part.

Definition deserialize (value : Z) : res Z :=
  let id_ := u16 value in
  ok ← isValid id_;
  if (ok : bool) then Ok id_ else Throw.

Definition toString (id_ : Z) : res string :=
  s ← SliceType.toString (getSliceType id_);
  Ok (s +:+ ":" +:+ pretty (getSlicePart id_))%string.

End ChunkPartType.

(** ** namespace slice_traits *)
Module SliceTraits.
Import SliceType.

Definition isStandard (type : Z) : bool := type =? kStandard.
Definition isTape (type : Z) : bool := type =? kTape.
Definition isXor (type : Z) : bool := (kXor2 <=? type) && (type <=? kXor9).
Definition isEC (type : Z) : bool := (kECFirst <=? type) && (type <=? kECLast).

(** namespace xors *)
Definition kXorParityPart : Z := 0.
Definition kMinXorLevel : Z := 2.
Definition kMaxXorLevel : Z := 9.

Definition isXorLevelValid (level : Z) : bool := (kMinXorLevel <=? level) && (level <=? kMaxXorLevel).
Definition xors_getSliceType (level : Z) : res Z :=
  assertion (isXorLevelValid level) (Ok ((level - kMinXorLevel) + kXor2)).
Definition xors_ChunkPartType (level part : Z) : res Z :=
  assertion (isXorLevelValid level)
    (assertion (part <=? level) (ChunkPartType.make ((level - kMinXorLevel) + kXor2) part)).
Definition getXorLevel (type : Z) : res Z :=
  assertion (isXor type) (Ok (type - kXor2 + kMinXorLevel)).
Definition isXorParity (cpt : Z) : bool :=
  isXor (ChunkPartType.getSliceType cpt) && (ChunkPartType.getSlicePart cpt =? kXorParityPart).

(** namespace ec *)
Definition kMinDataCount : Z := 2.
Definition kMaxDataCount : Z := 32.
Definition kMinParityCount : Z := 1.
Definition kMaxParityCount : Z := 32.

Definition ec_getSliceType (data_count parity_count : Z) : Z :=
  32 * (data_count - kMinDataCount) + (parity_count - kMinParityCount) + kECFirst.
Definition ec_ChunkPartType (data_count parity_count part : Z) : res Z :=
  assertion ((kMinDataCount <=? data_count) && (data_count <=? kMaxDataCount))
    (assertion ((kMinParityCount <=? parity_count) && (parity_count <=? kMaxParityCount))
       (ChunkPartType.make (ec_getSliceType data_count parity_count) part)).
Definition ec_getNumberOfDataParts (type : Z) : Z := kMinDataCount + Z.quot (type - kECFirst) 32.
Definition ec_getNumberOfParityParts (type : Z) : Z := kMinParityCount + Z.rem (type - kECFirst) 32.
Definition ec_isParityPart (cpt : Z) : bool :=
  ec_getNumberOfDataParts (ChunkPartType.getSliceType cpt) <=? ChunkPartType.getSlicePart cpt.
Definition ec_getParityPartIndex (cpt : Z) : Z :=
  ChunkPartType.getSlicePart cpt - ec_getNumberOfDataParts (ChunkPartType.getSliceType cpt).

(** generic functions *)
Definition isParityPart (cpt : Z) : bool :=
  if isXor (ChunkPartType.getSliceType cpt) then isXorParity cpt
  else if isEC (ChunkPartType.getSliceType cpt) then ec_isParityPart cpt
  else false.

Definition isDataPart (cpt : Z) : bool := negb (isParityPart cpt).

Definition getNumberOfDataParts (type : Z) : Z :=
  if isXor type then type - kXor2 + kMinXorLevel
  else if isEC type then ec_getNumberOfDataParts type
  else 1.

Definition getNumberOfParityParts (type : Z) : Z :=
  if isXor type then 1
  else if isEC type then ec_getNumberOfParityParts type
  else 0.

Definition getNumberOfParts (type : Z) : res Z := expectedParts type.
Definition requiredPartsToRecover (type : Z) : Z := getNumberOfDataParts type.

Definition getDataPartIndex (cpt : Z) : Z :=
  if isXor (ChunkPartType.getSliceType cpt) then ChunkPartType.getSlicePart cpt - 1
  else ChunkPartType.getSlicePart cpt.

Definition getParityPartIndex (cpt : Z) : Z :=
  if isEC (ChunkPartType.getSliceType cpt) then ec_getParityPartIndex cpt else 0.

Definition getStripeSize (cpt : Z) : Z := getNumberOfDataParts (ChunkPartType.getSliceType cpt).

(** [getNumberOfBlocks(cpt, blocks_in_chunk)]: unsigned 32-bit arithmetic. *)
Definition getNumberOfBlocks (cpt blocks_in_chunk : Z) : Z :=
  let data_part_index := if isDataPart cpt then getDataPartIndex cpt else 0 in
  let n := getNumberOfDataParts (ChunkPartType.getSliceType cpt) in
  u32 (blocks_in_chunk + (n - data_part_index - 1)) / n.

(** [chunkLengthToChunkPartLength]: [SFSBLOCKSIZE] is a build-time constant. *)
Definition chunkLengthToChunkPartLength (SFSBLOCKSIZE : Z) (cpt chunk_length : Z) : Z :=
  let n := getNumberOfDataParts (ChunkPartType.getSliceType cpt) in
  if n =? 1 then chunk_length
  else
    let full_stripe := Z.quot chunk_length (n * SFSBLOCKSIZE) in
    let base_len := full_stripe * SFSBLOCKSIZE in
    let base := base_len * n in
    let rest := chunk_length - base in
    let data_part_index := if isDataPart cpt then getDataPartIndex cpt else 0 in
    let part_rest_len := Z.max (rest - data_part_index * SFSBLOCKSIZE) 0 in
    let part_rest_len := Z.min part_rest_len SFSBLOCKSIZE in
    base_len + part_rest_len.

End SliceTraits.

(** ** Theorems *)
Import SliceType SliceTraits.

(** [lia] with the constants of this file unfolded and division made linear. *)
Ltac type_lia :=
  unfold getNumberOfDataParts, getNumberOfParityParts, ec_getNumberOfDataParts,
    ec_getNumberOfParityParts, ec_getSliceType,
    isValid, isStandard, isTape, isXor, isEC, isXorLevelValid,
    kTypeCount, kECLast, kECFirst, kXor9, kXor2, kTape, kStandard, kMinXorLevel, kMaxXorLevel,
    kMinDataCount, kMaxDataCount, kMinParityCount, kMaxParityCount in *;
  repeat rewrite Z.quot_div_nonneg in * by lia;
  repeat rewrite Z.rem_mod_nonneg in * by lia;
  repeat match goal with
  | H : _ && _ = true |- _ => apply andb_prop in H; destruct H
  | H : (_ <=? _) = true |- _ => apply Z.leb_le in H
  | H : (_ <? _) = true |- _ => apply Z.ltb_lt in H
  end;
  repeat split; zcases; Z.to_euclidean_division_equations; lia.

Lemma expectedParts_small t :
  0 <= t < 10 → expectedParts t = Ok (if t <? 2 then 1 else t + 1).
Proof.
  intros Ht. assert (t = 0 ∨ t = 1 ∨ t = 2 ∨ t = 3 ∨ t = 4 ∨ t = 5 ∨ t = 6 ∨ t = 7 ∨ t = 8 ∨ t = 9) by lia.
  naive_solver.
Qed.

Lemma expectedParts_valid t :
  isValid t = true → expectedParts t = Ok (getNumberOfDataParts t + getNumberOfParityParts t).
Proof.
  intros Hv. destruct (Z.ltb_spec t 10) as [Hlt|Hge].
  - rewrite expectedParts_small by type_lia. f_equal. type_lia.
  - unfold expectedParts. rewrite Hv. simpl.
    replace (t <? kECFirst) with false by (symmetry; apply Z.ltb_ge; unfold kECFirst; lia).
    f_equal. type_lia.
Qed.

Lemma number_of_parts_bounds t :
  isValid t = true →
  1 <= getNumberOfDataParts t <= 32 ∧ 0 <= getNumberOfParityParts t <= 32.
Proof. intros Hv. type_lia. Qed.

(** The part identifiers of a slice type. *)
Definition part_id (t p : Z) : Z := t * ChunkPartType.kMaxPartsCount + p.

Lemma part_id_type t p : 0 <= t → 0 <= p < 64 → ChunkPartType.getSliceType (part_id t p) = t.
Proof.
  intros. unfold ChunkPartType.getSliceType, part_id, ChunkPartType.kMaxPartsCount.
  rewrite Z.quot_div_nonneg by lia. Z.to_euclidean_division_equations; lia.
Qed.

Lemma part_id_part t p : 0 <= t → 0 <= p < 64 → ChunkPartType.getSlicePart (part_id t p) = p.
Proof.
  intros. unfold ChunkPartType.getSlicePart, part_id, ChunkPartType.kMaxPartsCount.
  rewrite Z.rem_mod_nonneg by lia. Z.to_euclidean_division_equations; lia.
Qed.

(** the number of data parts and the number of parity parts that slice_traits.h
    computes for a valid slice type add up to [expectedParts], which never exceeds
    the 64 parts a chunk part identifier and the fixed-size arrays have room for. *)
Theorem parts_split_into_data_and_parity t :
  isValid t = true →
  expectedParts t = Ok (getNumberOfDataParts t + getNumberOfParityParts t) ∧
  1 <= getNumberOfDataParts t ∧ 0 <= getNumberOfParityParts t ∧
  getNumberOfDataParts t + getNumberOfParityParts t <= ChunkPartType.kMaxPartsCount.
Proof.
  intros Hv. pose proof (number_of_parts_bounds t Hv).
  split; [by apply expectedParts_valid|]. unfold ChunkPartType.kMaxPartsCount. lia.
Qed.

Lemma parts_split_into_data_and_parity_witness :
  isValid (ec_getSliceType 8 2) = true ∧ expectedParts (ec_getSliceType 8 2) = Ok 10.
Proof.
  split; [reflexivity|].
  destruct (parts_split_into_data_and_parity (ec_getSliceType 8 2)) as [-> _]; reflexivity.
Defined.

(** the numbering of erasure-code slice types is a bijection between the pairs
    (data parts, parity parts) in [2,32] x [1,32] and the type values
    [kECFirst, kECLast]: encoding a pair gives an EC type that decodes to the pair,
    and every EC type is the encoding of what it decodes to. *)
Theorem ec_type_numbering_bijective :
  (∀ k m, 2 <= k <= 32 → 1 <= m <= 32 →
     isEC (ec_getSliceType k m) = true ∧
     ec_getNumberOfDataParts (ec_getSliceType k m) = k ∧
     ec_getNumberOfParityParts (ec_getSliceType k m) = m) ∧
  (∀ t, isEC t = true →
     2 <= ec_getNumberOfDataParts t <= 32 ∧ 1 <= ec_getNumberOfParityParts t <= 32 ∧
     ec_getSliceType (ec_getNumberOfDataParts t) (ec_getNumberOfParityParts t) = t).
Proof.
  split.
  - intros k m Hk Hm. type_lia.
  - intros t Ht. type_lia.
Qed.

Lemma make_valid t p n :
  isValid t = true → expectedParts t = Ok n → 0 <= p < n →
  ChunkPartType.make t p = Ok (part_id t p) ∧ 0 <= p < 64 ∧ 0 <= t ∧ part_id t p < 2 ^ 16.
Proof.
  intros Hv Hn Hp. pose proof (number_of_parts_bounds t Hv).
  rewrite expectedParts_valid in Hn by done. injection Hn as <-.
  assert (0 <= t < 1002) as Ht by type_lia.
  unfold ChunkPartType.make, assertion.
  replace (t <? ChunkPartType.kMaxTypeCount) with true
    by (symmetry; apply Z.ltb_lt; unfold ChunkPartType.kMaxTypeCount; lia).
  replace ((0 <=? p) && (p <? ChunkPartType.kMaxPartsCount)) with true
    by (symmetry; apply andb_true_intro; split; [apply Z.leb_le|apply Z.ltb_lt];
        unfold ChunkPartType.kMaxPartsCount; lia).
  fold (part_id t p). assert (0 <= part_id t p < 2 ^ 16) as Hr.
  { unfold part_id, ChunkPartType.kMaxPartsCount. lia. }
  rewrite wrapu_small by lia. repeat split; try done; lia.
Qed.

(** a chunk part identifier stores the slice type and the part without loss, in
    16 bits: every part of every valid slice type can be encoded, the encoding is
    decoded to the same type and part, it is valid, and [deserialize] accepts it. *)
Theorem chunk_part_type_roundtrip t p n :
  isValid t = true → expectedParts t = Ok n → 0 <= p < n →
  ∃ id, ChunkPartType.make t p = Ok id ∧ 0 <= id < 2 ^ 16 ∧
        ChunkPartType.getSliceType id = t ∧ ChunkPartType.getSlicePart id = p ∧
        ChunkPartType.isValid id = Ok true ∧ ChunkPartType.deserialize id = Ok id.
Proof.
  intros Hv Hn Hp. destruct (make_valid t p n Hv Hn Hp) as (Hm & Hp' & Ht & Hr).
  assert (ChunkPartType.isValid (part_id t p) = Ok true) as Hval.
  { unfold ChunkPartType.isValid. rewrite part_id_type, part_id_part, Hv, Hn by lia. simpl.
    f_equal. apply Z.ltb_lt. lia. }
  assert (0 <= part_id t p) by (unfold part_id, ChunkPartType.kMaxPartsCount; lia).
  exists (part_id t p). rewrite part_id_type, part_id_part by lia.
  repeat split; try done. unfold ChunkPartType.deserialize. rewrite wrapu_small by lia.
  by rewrite Hval.
Qed.

Lemma chunk_part_type_roundtrip_witness :
  ∃ id, ChunkPartType.make (ec_getSliceType 3 2) 4 = Ok id ∧ 0 <= id < 2 ^ 16 ∧
        ChunkPartType.getSliceType id = ec_getSliceType 3 2 ∧ ChunkPartType.getSlicePart id = 4 ∧
        ChunkPartType.isValid id = Ok true ∧ ChunkPartType.deserialize id = Ok id.
Proof. apply (chunk_part_type_roundtrip (ec_getSliceType 3 2) 4 5); [reflexivity..|lia]. Defined.

(** *** Compatibility with the old identifiers *)

Lemma legacy_decode t p :
  0 <= t <= 10 → 0 <= p < 11 →
  LegacyChunkPartType.make t p = Ok (t * 11 + p) ∧
  LegacyChunkPartType.getSliceType (t * 11 + p) = t ∧
  LegacyChunkPartType.getSlicePart (t * 11 + p) = p.
Proof.
  intros Ht Hp. unfold LegacyChunkPartType.make, LegacyChunkPartType.getSliceType,
    LegacyChunkPartType.getSlicePart, LegacyChunkPartType.kMaxPartsCount,
    LegacyChunkPartType.kMaxType, assertion.
  replace ((0 <=? p) && (p <? 11)) with true by lia.
  replace ((0 <=? t) && (t <=? 9 + 1)) with true by lia.
  rewrite wrapu_small by lia. rewrite Z.quot_div_nonneg, Z.rem_mod_nonneg by lia.
  split; [done|]. Z.to_euclidean_division_equations; lia.
Qed.

(** conversion to the identifiers of old peers is lossless where they can
    represent the part and recognisably invalid where they cannot: for standard,
    tape and xor parts the old identifier is valid and converts back to the same
    part, and every erasure-code part is mapped to an identifier that
    [legacy::ChunkPartType::isValid] rejects. *)
Theorem legacy_conversion t p n :
  isValid t = true → expectedParts t = Ok n → 0 <= p < n →
  ∃ old, ChunkPartType.toLegacy (part_id t p) = Ok old ∧
    (if t <? kECFirst
     then LegacyChunkPartType.isValid old = Ok true ∧ ChunkPartType.ofLegacy old = part_id t p
     else LegacyChunkPartType.isValid old = Ok false).
Proof.
  intros Hv Hn Hp. destruct (make_valid t p n Hv Hn Hp) as (_ & Hp' & Ht & Hr).
  unfold ChunkPartType.toLegacy. rewrite part_id_type, part_id_part by lia.
  unfold LegacyChunkPartType.kMaxType, LegacyChunkPartType.kMaxPartsCount.
  destruct (legacy_decode (Z.min t (9 + 1)) (Z.min p (11 - 1))) as (-> & Hlt & Hlp); [lia..|].
  eexists; split; [done|]. unfold LegacyChunkPartType.isValid. rewrite Hlt, Hlp.
  unfold kECFirst, LegacyChunkPartType.kMaxType. destruct (Z.ltb_spec t 10) as [Hlt10|Hge].
  - assert (n <= 10) as Hn10.
    { rewrite expectedParts_small in Hn by lia. injection Hn as <-. zcases. }
    rewrite Z.min_l by lia. replace (t <=? 9) with true by lia. rewrite Hn. simpl.
    split; [f_equal; lia|]. unfold ChunkPartType.ofLegacy.
    rewrite Z.min_l in * by lia. rewrite (Z.min_l p) in * by lia. rewrite Hlt, Hlp.
    fold (part_id t p). apply wrapu_small. unfold part_id, ChunkPartType.kMaxPartsCount in *. lia.
  - rewrite Z.min_r by lia. done.
Qed.

Lemma legacy_conversion_witness :
  ∃ old, ChunkPartType.toLegacy (part_id 4 3) = Ok old ∧
    (if 4 <? kECFirst
     then LegacyChunkPartType.isValid old = Ok true ∧ ChunkPartType.ofLegacy old = part_id 4 3
     else LegacyChunkPartType.isValid old = Ok false).
Proof. apply (legacy_conversion 4 3 5); [reflexivity..|lia]. Defined.

(** *** Conservation of blocks and bytes *)

(** The data parts of a slice type, as part numbers. *)
Definition data_parts (t : Z) : list Z :=
  filter (fun p => isDataPart (part_id t p) = true)
    (seqZ 0 (getNumberOfDataParts t + getNumberOfParityParts t)).

(** Number of the first data part: parity comes first in xor slices. *)
Definition first_data_part (t : Z) : Z := if isXor t then 1 else 0.

Lemma data_parts_interval t :
  isValid t = true → data_parts t = seqZ (first_data_part t) (getNumberOfDataParts t).
Proof.
  intros Hv. pose proof (number_of_parts_bounds t Hv). unfold data_parts, first_data_part.
  replace (getNumberOfDataParts t)
    with ((if isXor t then 1 else 0) + getNumberOfDataParts t - (if isXor t then 1 else 0)) at 2 by lia.
  apply filter_seqZ_interval.
  - destruct (isXor t); lia.
  - type_lia.
  - intros p Hp. assert (0 <= t) by type_lia.
    assert (p < 64) by type_lia.
    unfold isDataPart, isParityPart, isXorParity, ec_isParityPart.
    rewrite part_id_type, part_id_part by lia. unfold kXorParityPart.
    unfold getNumberOfDataParts, getNumberOfParityParts in *.
    destruct (isXor t) eqn:Ex; [|destruct (isEC t) eqn:Ee]; simpl; rewrite ?negb_true_iff; try lia.
Qed.

Lemma data_parts_index t :
  isValid t = true →
  (fun p => getDataPartIndex (part_id t p)) <$> data_parts t = seqZ 0 (getNumberOfDataParts t).
Proof.
  intros Hv. pose proof (number_of_parts_bounds t Hv).
  rewrite data_parts_interval by done.
  replace (first_data_part t) with (first_data_part t + 0) by lia.
  rewrite <- fmap_add_seqZ, <- list_fmap_compose.
  rewrite <- (list_fmap_id (seqZ 0 _)) at 2. apply list_fmap_ext.
  intros i x Hx%list_elem_of_lookup_2%elem_of_seqZ. simpl.
  assert (0 <= t) by type_lia.
  assert (0 <= first_data_part t <= 1) by (unfold first_data_part; destruct (isXor t); lia).
  unfold getDataPartIndex. rewrite part_id_type, part_id_part by lia.
  unfold first_data_part. destruct (isXor t); lia.
Qed.

(** Sums over the data parts are sums over the data part indices. *)
Lemma zsum_data_parts (g : Z → Z) (f : Z → Z) t :
  isValid t = true →
  (∀ p, p ∈ data_parts t → g p = f (getDataPartIndex (part_id t p))) →
  zsum (g <$> data_parts t) = zsum (f <$> seqZ 0 (getNumberOfDataParts t)).
Proof.
  intros Hv Hg. rewrite <- (data_parts_index t Hv), <- list_fmap_compose. f_equal.
  apply list_fmap_ext. intros i p Hp%list_elem_of_lookup_2. by apply Hg.
Qed.

Lemma block_count_index b n i :
  0 <= b → 0 <= i < n → (b + (n - i - 1)) / n = b / n + (if i <? b mod n then 1 else 0).
Proof.
  intros Hb Hi. rewrite (Z.div_mod b n) at 1 by lia.
  replace (n * (b / n) + b mod n + (n - i - 1)) with ((b mod n + (n - i - 1)) + (b / n) * n) by lia.
  rewrite Z.div_add by lia. pose proof (Z.mod_pos_bound b n ltac:(lia)).
  rewrite Z.add_comm. f_equal. destruct (Z.ltb_spec i (b mod n)).
  - symmetry. apply (Z.div_unique _ _ _ (b mod n - i - 1)); lia.
  - apply Z.div_small. lia.
Qed.

Lemma data_part_type t p : isValid t = true → p ∈ data_parts t →
  0 <= p < 64 ∧ ChunkPartType.getSliceType (part_id t p) = t ∧
  0 <= getDataPartIndex (part_id t p) < getNumberOfDataParts t.
Proof.
  intros Hv Hp. pose proof (number_of_parts_bounds t Hv). assert (0 <= t) by type_lia.
  assert (getDataPartIndex (part_id t p) ∈ seqZ 0 (getNumberOfDataParts t)) as Hi.
  { rewrite <- data_parts_index by done. by apply (list_elem_of_fmap_2 (fun p => getDataPartIndex (part_id t p))). }
  apply elem_of_seqZ in Hi.
  unfold data_parts in Hp. apply list_elem_of_filter in Hp as [_ Hp%elem_of_seqZ].
  split; [lia|]. rewrite part_id_type by lia. split; [done|lia].
Qed.

Lemma data_parts_isDataPart t p : p ∈ data_parts t → isDataPart (part_id t p) = true.
Proof. unfold data_parts. by intros [Hp _]%list_elem_of_filter. Qed.

(** the data parts of a slice share out the blocks of a chunk exactly: for
    every valid slice type the block counts that [getNumberOfBlocks] assigns to the
    data parts add up to the number of blocks in the chunk, and no part, parity
    parts included, holds more blocks than the first data part. *)
Theorem blocks_are_conserved t b :
  isValid t = true → 0 <= b < 2 ^ 31 →
  zsum ((fun p => getNumberOfBlocks (part_id t p) b) <$> data_parts t) = b ∧
  (∀ p, 0 <= p < getNumberOfDataParts t + getNumberOfParityParts t →
     0 <= getNumberOfBlocks (part_id t p) b <=
     getNumberOfBlocks (part_id t (first_data_part t)) b).
Proof.
  intros Hv Hb. pose proof (number_of_parts_bounds t Hv) as Hn. assert (0 <= t) as Ht by type_lia.
  set (n := getNumberOfDataParts t) in *.
  assert (∀ p, 0 <= p < 64 → 0 <= (if isDataPart (part_id t p) then getDataPartIndex (part_id t p) else 0) < n →
     getNumberOfBlocks (part_id t p) b =
     (b + (n - (if isDataPart (part_id t p) then getDataPartIndex (part_id t p) else 0) - 1)) / n) as Hg.
  { intros p Hp Hi. unfold getNumberOfBlocks. rewrite part_id_type by lia. fold n.
    rewrite wrapu_small by lia. done. }
  split.
  - rewrite (zsum_data_parts _ (fun i => (b + (n - i - 1)) / n)); [|done|].
    + rewrite (zsum_seqZ_telescope _ (fun i => (b / n) * i + Z.min i (b mod n))).
      * fold n. pose proof (Z.mod_pos_bound b n ltac:(lia)). pose proof (Z.div_mod b n ltac:(lia)). lia.
      * lia.
      * pose proof (Z.mod_pos_bound b n ltac:(lia)). lia.
      * intros i Hi. rewrite block_count_index by lia. destruct (Z.ltb_spec i (b mod n)); lia.
    + intros p Hp. pose proof (data_part_type t p Hv Hp) as (? & ? & ?).
      pose proof (data_parts_isDataPart t p Hp) as Hd.
      rewrite Hg by (rewrite ?Hd; lia). by rewrite Hd.
  - assert (isDataPart (part_id t (first_data_part t)) = true ∧
            getDataPartIndex (part_id t (first_data_part t)) = 0 ∧ 0 <= first_data_part t < 64)
      as (Hf1 & Hf2 & Hf3).
    { assert (first_data_part t ∈ data_parts t) as Hf.
      { rewrite data_parts_interval by done. apply elem_of_seqZ. fold n. lia. }
      split; [by apply data_parts_isDataPart|].
      pose proof (data_part_type t _ Hv Hf) as (? & ? & _). split; [|done].
      unfold getDataPartIndex. rewrite part_id_type, part_id_part by lia.
      unfold first_data_part. destruct (isXor t); lia. }
    intros p Hp. assert (0 <= (if isDataPart (part_id t p) then getDataPartIndex (part_id t p) else 0) < n) as Hi.
    { destruct (isDataPart (part_id t p)) eqn:Hd; [|lia].
      assert (p ∈ data_parts t) as Hin.
      { apply list_elem_of_filter. split; [done|]. apply elem_of_seqZ. fold n. lia. }
      by pose proof (data_part_type t p Hv Hin) as (? & ? & ?). }
    rewrite !Hg by (rewrite ?Hf1, ?Hf2; lia). rewrite Hf1, Hf2.
    split; [apply Z.div_pos; lia|apply Z.div_le_mono; lia].
Qed.

Lemma blocks_are_conserved_witness :
  zsum ((fun p => getNumberOfBlocks (part_id (ec_getSliceType 3 2) p) 1024) <$> data_parts (ec_getSliceType 3 2)) = 1024.
Proof. apply (blocks_are_conserved (ec_getSliceType 3 2) 1024); [reflexivity|lia]. Defined.

(** the data parts of a slice share out the bytes of a chunk exactly: for every
    valid slice type and every positive block size the part lengths that
    [chunkLengthToChunkPartLength] assigns to the data parts add up to the length of
    the chunk. *)
Theorem bytes_are_conserved (SFSBLOCKSIZE : Z) t len :
  isValid t = true → 0 < SFSBLOCKSIZE → 0 <= len →
  zsum ((fun p => chunkLengthToChunkPartLength SFSBLOCKSIZE (part_id t p) len) <$> data_parts t) = len.
Proof.
  intros Hv HB Hlen. pose proof (number_of_parts_bounds t Hv) as Hn.
  set (n := getNumberOfDataParts t) in *.
  set (full := len / (n * SFSBLOCKSIZE)). set (rest := len - full * SFSBLOCKSIZE * n).
  assert (0 <= rest < n * SFSBLOCKSIZE) as Hrest.
  { pose proof (Z.mod_pos_bound len (n * SFSBLOCKSIZE) ltac:(nia)).
    pose proof (Z.div_mod len (n * SFSBLOCKSIZE) ltac:(nia)). unfold rest, full. nia. }
  rewrite (zsum_data_parts _ (fun i => full * SFSBLOCKSIZE + Z.min (Z.max (rest - i * SFSBLOCKSIZE) 0) SFSBLOCKSIZE)); [|done|].
  - rewrite (zsum_seqZ_telescope _ (fun i => full * SFSBLOCKSIZE * i + Z.min rest (i * SFSBLOCKSIZE))).
    + fold n. unfold rest in *. lia.
    + lia.
    + lia.
    + intros i Hi. lia.
  - intros p Hp. pose proof (data_part_type t p Hv Hp) as (? & Htp & Hi).
    pose proof (data_parts_isDataPart t p Hp) as Hd. fold n in Hi.
    unfold chunkLengthToChunkPartLength. rewrite Htp, Hd. fold n.
    rewrite Z.quot_div_nonneg by nia. fold full. fold rest.
    destruct (Z.eqb_spec n 1) as [E|]; [|done].
    assert (getDataPartIndex (part_id t p) = 0) as -> by lia. unfold rest in *. rewrite E in *. lia.
Qed.

Lemma bytes_are_conserved_witness :
  zsum ((fun p => chunkLengthToChunkPartLength 65536 (part_id (ec_getSliceType 3 2) p) 200000)
          <$> data_parts (ec_getSliceType 3 2)) = 200000.
Proof. apply (bytes_are_conserved 65536 (ec_getSliceType 3 2) 200000); [reflexivity|lia..]. Defined.
