(* ===== verification/ReadPlans.v ===== *)
(** * Plans for reading chunks

    src/common/read_plan.h, slice_read_plan.h, xor_read_plan.h, ec_read_plan.h,
    slice_read_planner.cc and chunk_read_planner.h, and src/common/block_xor.cc: which parts
    are read, where their bytes go, and what is computed from them.  The size of a block is
    the parameter [B].  The memory of a plan is one list of bytes; pointers are offsets into it.
    Scores are rational numbers; [overuse n] stands for [floor(bandwidth_overuse_ * n)].

    The theorems about these definitions are in ReadPlanFacts, PostProcess and PlanBuilding. *)

From Stdlib Require Import Strings.Byte QArith.
From S2P Require Import Prelude GaloisField ErasureCode ReedSolomon SliceTraits.
Import SliceTraits.
Open Scope Z_scope.

(** ** block_xor.cc *)
Module BlockXor.

Definition ALIGNMENT : Z := 16.

Definition blockXorUnaligned (dest source : list byte) (size : nat) : list byte :=
  zip_with add (take size dest) (take size source) ++ drop size dest.

(** [d] and [s] are the addresses. *)
Definition blockXorAligned (d s : Z) (dest source : list byte) (size : nat) : res (list byte) :=
  assertion ((d mod ALIGNMENT =? 0) && (s mod ALIGNMENT =? 0)) (Ok (blockXorUnaligned dest source size)).

Definition blockXor (d s : Z) (dest source : list byte) (size : nat) : res (list byte) :=
  if d mod ALIGNMENT =? s mod ALIGNMENT then
    let unalignedPrefixSize := Z.to_nat ((ALIGNMENT - d mod ALIGNMENT) mod ALIGNMENT) in
    if (size <? unalignedPrefixSize)%nat then Ok (blockXorUnaligned dest source size)
    else
      let dest := blockXorUnaligned dest source unalignedPrefixSize in
      rest ← blockXorAligned (d + Z.of_nat unalignedPrefixSize) (s + Z.of_nat unalignedPrefixSize)
        (drop unalignedPrefixSize dest) (drop unalignedPrefixSize source) (size - unalignedPrefixSize);
      Ok (take unalignedPrefixSize dest ++ rest)
  else Ok (blockXorUnaligned dest source size).

End BlockXor.

(** ** Memory *)

(** [size] bytes from an offset on. *)
Definition bytes_at (off size : Z) (b : list byte) : list byte := take (Z.to_nat size) (drop (Z.to_nat off) b).

(** The memory after bytes have been written. *)
Definition write_at (off : Z) (d : list byte) (b : list byte) : list byte :=
  take (Z.to_nat off) b ++ d ++ drop (Z.to_nat off + length d) b.

Definition memcpy (dst src size : Z) (b : list byte) : list byte := write_at dst (bytes_at src size b) b.
Definition memset0 (dst size : Z) (b : list byte) : list byte := write_at dst (replicate (Z.to_nat size) x00) b.

(** ** Plans *)

Record ReadOperation := {
  request_offset : Z;
  request_size : Z;
  buffer_offset : Z;
  wave : Z;
}.

Record RequestedPartInfo := { ri_part : Z; ri_size : Z }.

(** The class of a plan. *)
Inductive plan_class := SliceReadPlan | XorReadPlan | ECReadPlan.

(** The functors of post-processing and their members. *)
Inductive postprocess :=
| BlockConverter (chunk_first_block chunk_block_count part_first_block part_block_count first_required_part data_part_count : Z)
| PartConverter (part_block_count data_part_count : Z)
| XorRecoverParity (data_part_count part_block_count : Z)
| ECRecoverParity (data_part_count parity_part_count parity_part_index part_block_count : Z).

Record plan := {
  class : plan_class;
  slice_type : Z;
  read_buffer_size : Z;
  read_operations : list (Z * ReadOperation);
  requested_parts : list RequestedPartInfo;
  buffer_part_size : Z;
  postprocess_operations : list (Z * postprocess);
}.

Definition readOffset (p : plan) : Z := zsum (fst <$> postprocess_operations p).
Definition fullBufferSize (p : plan) : Z := read_buffer_size p + readOffset p.

(** Set by [ReadPlanExecutor::checkPlan] relative to the start of the buffer. *)
Definition buffer_read (p : plan) : Z := readOffset p.
Definition buffer_end (p : plan) : Z := fullBufferSize p.

Definition slice_part (cpt : Z) : nat := Z.to_nat (ChunkPartType.getSlicePart cpt).

(** The loops that count occurrences: parts of another slice type fail the assertion. *)
Fixpoint part_bits (t : Z) (parts : list Z) (b : bits) : res bits :=
  match parts with
  | [] => Ok b
  | part :: parts => assertion (ChunkPartType.getSliceType part =? t) (part_bits t parts (set_bit (slice_part part) b))
  end.

Definition isReadingFinished (p : plan) (available_parts : list Z) : res bool :=
  if requiredPartsToRecover (slice_type p) <=? Z.of_nat (length available_parts) then Ok true
  else
    part_counter ← part_bits (slice_type p) available_parts no_bits;
    Ok (forallb (fun info => test part_counter (Z.to_nat (ri_part info))) (requested_parts p)).

(** The difference of two sizes is unsigned. *)
Definition isFinishingPossible (p : plan) (unreadable_parts : list Z) : res bool :=
  if requiredPartsToRecover (slice_type p) <=? u64 (Z.of_nat (length (read_operations p)) - Z.of_nat (length unreadable_parts)) then Ok true
  else
    part_counter ← part_bits (slice_type p) unreadable_parts no_bits;
    Ok (negb (existsb (fun info => test part_counter (Z.to_nat (ri_part info))) (requested_parts p))).

Section plans.
Context (c : cpu) (addr B : Z).

(** *** postProcessRead: [buffer] is the offset of the read buffer *)

Fixpoint zero_tails (p : plan) (buffer part_offset : Z) (infos : list RequestedPartInfo) (b : list byte) : res (list byte) :=
  match infos with
  | [] => Ok b
  | info :: infos =>
      assertion (ri_size info <=? buffer_part_size p)
      (assertion (buffer_read p <=? buffer + part_offset + ri_size info)
      (assertion (buffer + part_offset + buffer_part_size p <=? buffer_end p)
      (zero_tails p buffer (part_offset + buffer_part_size p) infos
         (memset0 (buffer + part_offset + ri_size info) (buffer_part_size p - ri_size info) b))))
  end.

Definition processed_size (p : plan) : Z := Z.of_nat (length (requested_parts p)) * buffer_part_size p.

Definition in_read_buffer (p : plan) (off size : Z) : bool := (buffer_read p <=? off) && (off + size <=? buffer_end p).

(** [std::find_if] for the first requested part that is not available, with its index. *)
Fixpoint find_missing (part_bitset : bits) (index : Z) (infos : list RequestedPartInfo) : option (Z * RequestedPartInfo) :=
  match infos with
  | [] => None
  | info :: infos =>
      if test part_bitset (Z.to_nat (ri_part info)) then find_missing part_bitset (index + 1) infos else Some (index, info)
  end.

Definition xor_into (dst src size : Z) (b : list byte) : res (list byte) :=
  x ← BlockXor.blockXor (addr + dst) (addr + src) (bytes_at dst size b) (bytes_at src size b) (Z.to_nat size);
  Ok (write_at dst x b).

(** The loop over the read operations. *)
Fixpoint xor_parts (p : plan) (buffer missing_offset missing_size : Z) (part_bitset : bits) (first : bool)
    (ops : list (Z * ReadOperation)) (b : list byte) : res (list byte) :=
  match ops with
  | [] => Ok b
  | (type, op) :: ops =>
      if negb (test part_bitset (slice_part type)) then xor_parts p buffer missing_offset missing_size part_bitset first ops b
      else
        let size := Z.min (request_size op) missing_size in
        assertion (in_read_buffer p (buffer + missing_offset) size)
        (assertion (in_read_buffer p (buffer + buffer_offset op) size)
        (if first then
           assertion ((buffer_read p <=? buffer + missing_offset + size) && (buffer + missing_offset + missing_size <=? buffer_end p))
           (xor_parts p buffer missing_offset missing_size part_bitset false ops
              (memset0 (buffer + missing_offset + size) (missing_size - size)
                 (memcpy (buffer + missing_offset) (buffer + buffer_offset op) size b)))
         else
           b ← xor_into (buffer + missing_offset) (buffer + buffer_offset op) size b;
           xor_parts p buffer missing_offset missing_size part_bitset false ops b))
  end.

Definition xor_postProcessRead (p : plan) (buffer : Z) (available_parts : list Z) (b : list byte) : res (Z * list byte) :=
  b ← zero_tails p buffer 0 (requested_parts p) b;
  part_bitset ← part_bits (slice_type p) available_parts no_bits;
  match find_missing part_bitset 0 (requested_parts p) with
  | None => Ok (processed_size p, b)
  | Some (index, info) =>
      b ← xor_parts p buffer (index * buffer_part_size p) (ri_size info) part_bitset true (read_operations p) b;
      Ok (processed_size p, b)
  end.

(** The parts that [recoverParts] marks as erased: all but the first [k] available ones. *)
Fixpoint erase_loop (k : nat) (available_parts : bits) (available_count : nat) (parts : list nat) (erased : bits) : bits :=
  match parts with
  | [] => erased
  | i :: parts =>
      if negb (test available_parts i) || (k <=? available_count)%nat
      then erase_loop k available_parts available_count parts (set_bit i erased)
      else erase_loop k available_parts (S available_count) parts erased
  end.

Definition no_fragments : fragments := replicate kMaxPartCount None.

Definition data_fragments (p : plan) (buffer : Z) (b : list byte) : fragments :=
  foldl (fun f '(type, op) => <[slice_part type := Some (bytes_at (buffer + buffer_offset op) (buffer_part_size p) b)]> f)
    no_fragments (read_operations p).

(** The positions of the requested parts that are not available. *)
Definition missing_parts (p : plan) (available_parts : bits) : list (nat * nat) :=
  filter (fun '(i, part) => test available_parts part = false)
    (imap (fun i info => (i, Z.to_nat (ri_part info))) (requested_parts p)).

Definition result_fragments (p : plan) (buffer : Z) (available_parts : bits) (b : list byte) : fragments :=
  foldl (fun f '(i, part) => <[part := Some (bytes_at (buffer + Z.of_nat i * buffer_part_size p) (buffer_part_size p) b)]> f)
    no_fragments (missing_parts p available_parts).

(** The buffers hold what [recover] left in them. *)
Definition store_results (p : plan) (buffer : Z) (available_parts : bits) (f : fragments) (b : list byte) : list byte :=
  foldl (fun b '(i, part) => write_at (buffer + Z.of_nat i * buffer_part_size p) (default [] (fragment f part)) b)
    b (missing_parts p available_parts).

Definition recoverParts (p : plan) (buffer : Z) (available_parts : bits) (b : list byte) : res (list byte) :=
  let k := Z.to_nat (ec_getNumberOfDataParts (slice_type p)) in
  let m := Z.to_nat (ec_getNumberOfParityParts (slice_type p)) in
  let max_parts := (k + m)%nat in
  rs ← ReedSolomon k m;
  let erased := erase_loop k available_parts 0 (seq 0 max_parts) no_bits in
  '(_, f) ← recover c (data_fragments p buffer b) erased (result_fragments p buffer available_parts b) (Z.to_nat (buffer_part_size p)) rs;
  Ok (store_results p buffer available_parts f b).

Definition ec_postProcessRead (p : plan) (buffer : Z) (available_parts : list Z) (b : list byte) : res (Z * list byte) :=
  b ← zero_tails p buffer 0 (requested_parts p) b;
  available_map ← part_bits (slice_type p) available_parts no_bits;
  b ← (if existsb (fun info => negb (test available_map (Z.to_nat (ri_part info)))) (requested_parts p)
       then recoverParts p buffer available_map b else Ok b);
  Ok (processed_size p, b).

Definition postProcessRead (p : plan) (buffer : Z) (available_parts : list Z) (b : list byte) : res (Z * list byte) :=
  match class p with
  | SliceReadPlan => b ← zero_tails p buffer 0 (requested_parts p) b; Ok (processed_size p, b)
  | XorReadPlan => xor_postProcessRead p buffer available_parts b
  | ECReadPlan => ec_postProcessRead p buffer available_parts b
  end.

(** *** Post-processing *)

(** A block at an offset lies between two offsets. *)
Definition in_buffer (lo off hi : Z) : bool := (lo <=? off) && (off + B <=? hi).

(** The functor of [ChunkReadPlanner]: blocks of parts become consecutive blocks of the chunk. *)
Fixpoint convert_blocks (count : nat) (p : plan) (i chunk_first_block part_first_block part_block_count first_required_part data_part_count dst src : Z)
    (b : list byte) : res (list byte) :=
  match count with
  | O => Ok b
  | S count =>
      let block := Z.quot (chunk_first_block + i) data_part_count - part_first_block in
      let part := Z.rem (chunk_first_block + i) data_part_count - first_required_part in
      let part := if part <? 0 then part + data_part_count else part in
      assertion (0 <=? block)
      (assertion (in_buffer 0 dst (buffer_read p))
      (assertion (in_buffer (buffer_read p) src (buffer_end p))
      (convert_blocks count p (i + 1) chunk_first_block part_first_block part_block_count first_required_part data_part_count (dst + B) src
         (memcpy dst (src + (part * part_block_count + block) * B) B b))))
  end.

(** The functor of [SliceRecoveryPlanner]: every [data_part_count]-th block of the chunk data. *)
Fixpoint convert_part (count : nat) (p : plan) (data_part_count dst src : Z) (b : list byte) : res (list byte) :=
  match count with
  | O => Ok b
  | S count =>
      assertion (in_buffer 0 dst (buffer_read p))
      (assertion (in_buffer 0 src (buffer_end p))
      (convert_part count p data_part_count (dst + B) (src + data_part_count * B) (memcpy dst src B b)))
  end.

Fixpoint xor_stripe (count : nat) (p : plan) (dst src : Z) (b : list byte) : res (list byte) :=
  match count with
  | O => Ok b
  | S count =>
      assertion (in_buffer 0 dst (buffer_read p))
      (assertion (in_buffer 0 src (buffer_end p))
      (b ← xor_into dst src B b; xor_stripe count p dst (src + B) b))
  end.

Fixpoint xor_parity (count : nat) (p : plan) (data_part_count dst src : Z) (b : list byte) : res (list byte) :=
  match count with
  | O => Ok b
  | S count =>
      assertion (in_buffer 0 dst (buffer_read p))
      (b ← xor_stripe (Z.to_nat (data_part_count - 1)) p dst (src + B) (memcpy dst src B b);
       xor_parity count p data_part_count (dst + B) (src + data_part_count * B) b)
  end.

(** The data parts of a stripe: consecutive blocks. *)
Fixpoint stripe_parts (count i : nat) (p : plan) (src : Z) (b : list byte) (f : fragments) : res fragments :=
  match count with
  | O => Ok f
  | S count =>
      assertion (in_buffer 0 src (buffer_end p))
      (stripe_parts count (S i) p (src + B) b (<[i := Some (bytes_at src B b)]> f))
  end.

Fixpoint ec_parity (count : nat) (p : plan) (k m index : nat) (rs : coder) (data_parts : fragments) (dst src : Z) (b : list byte) : res (list byte) :=
  match count with
  | O => Ok b
  | S count =>
      assertion (in_buffer 0 dst (buffer_read p))
      (data_parts ← stripe_parts k 0 p src b data_parts;
       '(rs, f) ← recover c data_parts (parity_bits k m) (<[(k + index)%nat := Some (bytes_at dst B b)]> no_fragments) (Z.to_nat B) rs;
       ec_parity count p k m index rs data_parts (dst + B) (src + Z.of_nat k * B)
         (write_at dst (default [] (fragment f (k + index))) b))
  end.

Definition run_postprocess (p : plan) (f : postprocess) (dst src : Z) (b : list byte) : res (list byte) :=
  match f with
  | BlockConverter cf cc pf pc fr dc => convert_blocks (Z.to_nat cc) p 0 cf pf pc fr dc dst src b
  | PartConverter pc dc => convert_part (Z.to_nat pc) p dc dst src b
  | XorRecoverParity dc pc => xor_parity (Z.to_nat pc) p dc dst src b
  | ECRecoverParity dc pc pi bc =>
      rs ← ReedSolomon (Z.to_nat dc) (Z.to_nat pc);
      ec_parity (Z.to_nat bc) p (Z.to_nat dc) (Z.to_nat pc) (Z.to_nat pi) rs no_fragments dst src b
  end.

Fixpoint postprocess_loop (p : plan) (ops : list (Z * postprocess)) (read_buffer size : Z) (b : list byte) : res (Z * Z * list byte) :=
  match ops with
  | [] => Ok (read_buffer, size, b)
  | (first, f) :: ops =>
      assertion ((0 <=? size) && (0 <=? first))
      (assertion ((0 <=? read_buffer - first) && (read_buffer <=? buffer_read p))
      (assertion (read_buffer + size <=? buffer_end p)
      (b ← run_postprocess p f (read_buffer - first) read_buffer b;
       postprocess_loop p ops (read_buffer - first) (if 0 <? first then first else size) b)))
  end.

(** The size of the result and the memory. *)
Definition postProcessData (p : plan) (available_parts : list Z) (b : list byte) : res (Z * list byte) :=
  '(size, b) ← postProcessRead p (readOffset p) available_parts b;
  assertion (0 <? size)
  ('(read_buffer, size, b) ← postprocess_loop p (postprocess_operations p) (readOffset p) size b;
   assertion (read_buffer =? 0) (Ok (size, b))).
End plans.

(** ** The planner for a slice *)

Definition SFSBLOCKSINCHUNK : Z := 1024.
Definition kMaxPartsCount : Z := 64.

Record SliceReadPlanner := {
  slice_type_ : Z;
  slice_parts_ : list Z;
  weighted_parts_to_use_ : list (Q * Z);
  scores_ : gmap Z Q;
  can_read_ : bool;
  required_parts_available_ : bool;
  can_recover_parts_ : bool;
  part_indices_ : list Z;
}.

Definition new_SliceReadPlanner : SliceReadPlanner :=
  {| slice_type_ := 0; slice_parts_ := []; weighted_parts_to_use_ := []; scores_ := ∅; can_read_ := false;
     required_parts_available_ := false; can_recover_parts_ := false; part_indices_ := replicate (Z.to_nat kMaxPartsCount) 0 |}.

Definition setScores (scores : gmap Z Q) (s : SliceReadPlanner) : SliceReadPlanner :=
  {| slice_type_ := slice_type_ s; slice_parts_ := slice_parts_ s; weighted_parts_to_use_ := weighted_parts_to_use_ s;
     scores_ := scores; can_read_ := can_read_ s; required_parts_available_ := required_parts_available_ s;
     can_recover_parts_ := can_recover_parts_ s; part_indices_ := part_indices_ s |}.

(** [std::stable_sort] by falling score. *)
Fixpoint insert_weighted (x : Q * Z) (l : list (Q * Z)) : list (Q * Z) :=
  match l with
  | [] => [x]
  | y :: l => if negb (Qle_bool (fst y) (fst x)) then y :: insert_weighted x l else x :: y :: l
  end.

Fixpoint sort_weighted (l : list (Q * Z)) : list (Q * Z) :=
  match l with [] => [] | x :: l => insert_weighted x (sort_weighted l) end.

(** The bits of the available parts of a slice type. *)
Definition available_bits (t : Z) (available_parts : list Z) : bits :=
  foldl (fun b part => if ChunkPartType.getSliceType part =? t then set_bit (slice_part part) b else b) no_bits available_parts.

(** The first occurrence of every part, with its score. *)
Fixpoint weigh (t : Z) (scores : gmap Z Q) (available_parts : list Z) (part_bitset : bits) : list (Q * Z) :=
  match available_parts with
  | [] => []
  | part :: available_parts =>
      if (ChunkPartType.getSliceType part =? t) && test part_bitset (slice_part part) then
        (default 1%Q (scores !! part), part) :: weigh t scores available_parts (<[slice_part part := false]> part_bitset)
      else weigh t scores available_parts part_bitset
  end.

Definition prepare (slice_type : Z) (slice_parts available_parts : list Z) (s : SliceReadPlanner) : SliceReadPlanner :=
  let part_bitset := available_bits slice_type available_parts in
  let required := forallb (fun part => test part_bitset (Z.to_nat part)) slice_parts in
  let recoverable := requiredPartsToRecover slice_type <=? Z.of_nat (count part_bitset) in
  let can_read := required || recoverable in
  {| slice_type_ := slice_type; slice_parts_ := slice_parts;
     weighted_parts_to_use_ :=
       if can_read then sort_weighted (weigh slice_type (scores_ s) available_parts part_bitset) else [];
     scores_ := scores_ s; can_read_ := can_read; required_parts_available_ := required;
     can_recover_parts_ := recoverable; part_indices_ := part_indices_ s |}.

(** [plan->read_operations.push_back] and the new buffer size. *)
Definition set_operations (ops : list (Z * ReadOperation)) (size : Z) (p : plan) : plan :=
  {| class := class p; slice_type := slice_type p; read_buffer_size := size; read_operations := ops;
     requested_parts := requested_parts p; buffer_part_size := buffer_part_size p; postprocess_operations := postprocess_operations p |}.

Section planner.
Context (overuse : Z → Z) (B : Z).

(** The blocks of a part that lie in a range of blocks, in bytes. *)
Definition bytes_to_read (type first_block block_count : Z) : Z :=
  B * Z.min (getNumberOfBlocks type SFSBLOCKSINCHUNK - first_block) block_count.

Fixpoint add_operations (s : SliceReadPlanner) (parts : list (Q * Z)) (first_block block_count wave buffer_offset : Z)
    : list (Z * ReadOperation) * Z :=
  match parts with
  | [] => ([], buffer_offset)
  | (_, type) :: parts =>
      let index := nth (slice_part type) (part_indices_ s) 0 in
      let op offset :=
        (type, {| request_offset := first_block * B; request_size := bytes_to_read type first_block block_count;
                  buffer_offset := offset; wave := wave |}) in
      if index <? 0 then
        let '(ops, last) := add_operations s parts first_block block_count wave (buffer_offset + block_count * B) in
        (op buffer_offset :: ops, last)
      else
        let '(ops, last) := add_operations s parts first_block block_count wave buffer_offset in
        (op (index * B * block_count) :: ops, last)
  end.

(** The offset for additional parts and the plan. *)
Definition addParts (s : SliceReadPlanner) (p : plan) (first_block block_count parts_count wave buffer_offset : Z) : Z * plan :=
  let ops := Z.of_nat (length (read_operations p)) in
  let last := Z.min (ops + parts_count) (Z.of_nat (length (weighted_parts_to_use_ s))) in
  let parts := take (Z.to_nat (last - ops)) (drop (Z.to_nat ops) (weighted_parts_to_use_ s)) in
  let '(new, offset) := add_operations s parts first_block block_count wave buffer_offset in
  (offset, set_operations (read_operations p ++ new) offset p).

Definition addBasicParts (s : SliceReadPlanner) (p : plan) (first_block block_count parts_count : Z) : Z * plan :=
  addParts s p first_block block_count parts_count 0 (Z.of_nat (length (requested_parts p)) * buffer_part_size p).

(** The loop that adds the remaining parts with rising waves. *)
Fixpoint add_waves (fuel : nat) (s : SliceReadPlanner) (p : plan) (first_block block_count wave buffer_offset : Z) : res (Z * plan) :=
  let all_parts_count := Z.of_nat (length (weighted_parts_to_use_ s)) in
  let ops := Z.of_nat (length (read_operations p)) in
  match fuel with
  | O => Stuck
  | S fuel =>
      if ops <? all_parts_count then
        let '(offset, p) := addParts s p first_block block_count (Z.min 2 (all_parts_count - ops)) wave buffer_offset in
        add_waves fuel s p first_block block_count (wave + 1) offset
      else Ok (buffer_offset, p)
  end.

Definition addExtraParts (s : SliceReadPlanner) (p : plan) (first_block block_count buffer_offset : Z) : res (Z * plan) :=
  let ops := Z.of_nat (length (read_operations p)) in
  let all_parts_count := Z.of_nat (length (weighted_parts_to_use_ s)) in
  let to_recover := Z.min (overuse (requiredPartsToRecover (slice_type_ s))) all_parts_count in
  let '(offset, p, wave) :=
    if ops <? to_recover then (addParts s p first_block block_count (to_recover - ops) 1 buffer_offset, 2) else (buffer_offset, p, 1) in
  add_waves (S (length (weighted_parts_to_use_ s))) s p first_block block_count wave offset.

Definition getPlan (s : SliceReadPlanner) : plan :=
  {| class := if isXor (slice_type_ s) then XorReadPlan else if isEC (slice_type_ s) then ECReadPlan else SliceReadPlan;
     slice_type := slice_type_ s; read_buffer_size := 0; read_operations := []; requested_parts := []; buffer_part_size := 0;
     postprocess_operations := [] |}.

(** The loop that checks the requested parts for repetitions. *)
Fixpoint distinct_parts (parts : list Z) (part_bitset : bits) : res bits :=
  match parts with
  | [] => Ok part_bitset
  | part :: parts =>
      assertion (negb (test part_bitset (Z.to_nat part))) (distinct_parts parts (set_bit (Z.to_nat part) part_bitset))
  end.

Definition request_part (s : SliceReadPlanner) (first_block block_count part : Z) : res RequestedPartInfo :=
  cpt ← ChunkPartType.make (slice_type_ s) part;
  Ok {| ri_part := part; ri_size := bytes_to_read cpt first_block block_count |}.

Fixpoint request_parts (s : SliceReadPlanner) (first_block block_count : Z) (parts : list Z) : res (list RequestedPartInfo) :=
  match parts with
  | [] => Ok []
  | part :: parts =>
      info ← request_part s first_block block_count part;
      infos ← request_parts s first_block block_count parts;
      Ok (info :: infos)
  end.

Definition indices_of (parts : list Z) : list Z :=
  foldl (fun indices '(i, part) => <[Z.to_nat part := Z.of_nat i]> indices)
    (replicate (Z.to_nat kMaxPartsCount) (-1)) (imap (fun i part => (i, part)) parts).

Definition set_indices (indices : list Z) (weighted : list (Q * Z)) (s : SliceReadPlanner) : SliceReadPlanner :=
  {| slice_type_ := slice_type_ s; slice_parts_ := slice_parts_ s; weighted_parts_to_use_ := weighted; scores_ := scores_ s;
     can_read_ := can_read_ s; required_parts_available_ := required_parts_available_ s;
     can_recover_parts_ := can_recover_parts_ s; part_indices_ := indices |}.

(** [std::stable_partition] *)
Definition partition_weighted (part_bitset : bits) (l : list (Q * Z)) : list (Q * Z) * list (Q * Z) :=
  (filter (fun x => test part_bitset (slice_part (snd x)) = true) l,
   filter (fun x => test part_bitset (slice_part (snd x)) = false) l).

Definition buildPlanFor (first_block block_count : Z) (extra : bool) (s : SliceReadPlanner) : res (SliceReadPlanner * plan) :=
  part_bitset ← distinct_parts (slice_parts_ s) no_bits;
  infos ← request_parts s first_block block_count (slice_parts_ s);
  let p := getPlan s in
  let p :=
    {| class := class p; slice_type := slice_type p; read_buffer_size := 0; read_operations := []; requested_parts := infos;
       buffer_part_size := block_count * B; postprocess_operations := [] |} in
  if negb (required_parts_available_ s) then
    let s := set_indices (indices_of (slice_parts_ s)) (weighted_parts_to_use_ s) s in
    let required := requiredPartsToRecover (slice_type_ s) in
    let recovery_parts_count := Z.max (overuse required) required in
    let '(offset, p) := addBasicParts s p first_block block_count recovery_parts_count in
    '(_, p) ← addExtraParts s p first_block block_count offset;
    Ok (s, p)
  else
    let '(wanted, others) := partition_weighted part_bitset (weighted_parts_to_use_ s) in
    let s := set_indices (indices_of (slice_parts_ s)) (wanted ++ others) s in
    let '(offset, p) := addBasicParts s p first_block block_count (Z.of_nat (length wanted)) in
    if extra then '(_, p) ← addExtraParts s p first_block block_count offset; Ok (s, p) else Ok (s, p).

(** ** The planner for a chunk *)

Record ChunkReadPlanner := {
  read_planner_ : SliceReadPlanner;
  is_reading_possible_ : bool;
  read_from_type_ : Z;
  read_parts_ : list Z;
  part_first_block_ : Z;
  part_block_count_ : Z;
  chunk_first_block_ : Z;
  chunk_block_count_ : Z;
}.

Definition new_ChunkReadPlanner : ChunkReadPlanner :=
  {| read_planner_ := new_SliceReadPlanner; is_reading_possible_ := false; read_from_type_ := 0; read_parts_ := [];
     part_first_block_ := 0; part_block_count_ := 0; chunk_first_block_ := 0; chunk_block_count_ := 0 |}.

Definition getTypeList (available_parts : list Z) : list Z :=
  foldl (fun result part =>
    if bool_decide (ChunkPartType.getSliceType part ∈ result) then result else result ++ [ChunkPartType.getSliceType part])
    [] available_parts.

Definition getRequiredParts (type first_block block_count : Z) : list Z :=
  let data_part_count := requiredPartsToRecover type in
  let first_data_part := if isXor type then 1 else 0 in
  let first_part := Z.rem first_block data_part_count in
  let last_part := Z.rem (first_block + block_count - 1) data_part_count in
  if data_part_count <=? block_count then seqZ first_data_part data_part_count
  else if first_part <=? last_part then seqZ (first_part + first_data_part) (last_part - first_part + 1)
  else seqZ (first_part + first_data_part) (data_part_count - first_part) ++ seqZ first_data_part (last_part + 1).

(** The loop over the slice types: the first that can be read is chosen. *)
Fixpoint scan_types (types : list Z) (first_block block_count : Z) (available_parts : list Z) (s : ChunkReadPlanner) : ChunkReadPlanner :=
  match types with
  | [] =>
      {| read_planner_ := read_planner_ s; is_reading_possible_ := false; read_from_type_ := read_from_type_ s;
         read_parts_ := read_parts_ s; part_first_block_ := part_first_block_ s; part_block_count_ := part_block_count_ s;
         chunk_first_block_ := chunk_first_block_ s; chunk_block_count_ := chunk_block_count_ s |}
  | type :: types =>
      let read_parts := getRequiredParts type first_block block_count in
      let planner := prepare type read_parts available_parts (read_planner_ s) in
      if can_read_ planner then
        let data_parts := requiredPartsToRecover type in
        let part_first_block := Z.quot first_block data_parts in
        {| read_planner_ := planner; is_reading_possible_ := true; read_from_type_ := type; read_parts_ := read_parts;
           part_first_block_ := part_first_block;
           part_block_count_ := Z.quot (first_block + block_count - 1) data_parts - part_first_block + 1;
           chunk_first_block_ := first_block; chunk_block_count_ := block_count |}
      else
        scan_types types first_block block_count available_parts
          {| read_planner_ := planner; is_reading_possible_ := is_reading_possible_ s; read_from_type_ := read_from_type_ s;
             read_parts_ := read_parts; part_first_block_ := part_first_block_ s; part_block_count_ := part_block_count_ s;
             chunk_first_block_ := chunk_first_block_ s; chunk_block_count_ := chunk_block_count_ s |}
  end.

Definition chunk_prepare (first_block block_count : Z) (available_parts : list Z) (s : ChunkReadPlanner) : res ChunkReadPlanner :=
  assertion ((0 <=? first_block) && (0 <? block_count) && negb (first_block + block_count =? 0))
  (Ok (scan_types (getTypeList available_parts) first_block block_count available_parts s)).

Definition push_postprocess (size : Z) (f : postprocess) (p : plan) : plan :=
  {| class := class p; slice_type := slice_type p; read_buffer_size := read_buffer_size p; read_operations := read_operations p;
     requested_parts := requested_parts p; buffer_part_size := buffer_part_size p;
     postprocess_operations := postprocess_operations p ++ [(size, f)] |}.

Definition set_planner (planner : SliceReadPlanner) (s : ChunkReadPlanner) : ChunkReadPlanner :=
  {| read_planner_ := planner; is_reading_possible_ := is_reading_possible_ s; read_from_type_ := read_from_type_ s;
     read_parts_ := read_parts_ s; part_first_block_ := part_first_block_ s; part_block_count_ := part_block_count_ s;
     chunk_first_block_ := chunk_first_block_ s; chunk_block_count_ := chunk_block_count_ s |}.

Definition buildPlan (s : ChunkReadPlanner) : res (ChunkReadPlanner * plan) :=
  '(planner, p) ← buildPlanFor (part_first_block_ s) (part_block_count_ s) true (read_planner_ s);
  let s := set_planner planner s in
  if isStandard (read_from_type_ s) then Ok (s, p)
  else
    let first_part := nth 0 (read_parts_ s) 0 in
    let first_required_part := if isXor (read_from_type_ s) then first_part - 1 else first_part in
    let conv :=
      BlockConverter (chunk_first_block_ s) (chunk_block_count_ s) (part_first_block_ s) (part_block_count_ s) first_required_part
        (requiredPartsToRecover (read_from_type_ s)) in
    Ok (s, push_postprocess (chunk_block_count_ s * B) conv p).

(** ** The planner for the recovery of a part *)

Inductive recovery_method := kReadDataPart | kRecoverDataPart | kRecoverParityPart.

Record SliceRecoveryPlanner := {
  slice_planner_ : SliceReadPlanner;
  chunk_planner_ : ChunkReadPlanner;
  recovering_part_ : Z;
  recovery_possible_ : bool;
  recovery_type_ : recovery_method;
  first_block_ : Z;
  block_count_ : Z;
}.

Definition recovery_prepare (chunk_part first_block block_count : Z) (available_parts : list Z) (s : SliceRecoveryPlanner) : res SliceRecoveryPlanner :=
  let result slice_planner chunk_planner possible method :=
    {| slice_planner_ := slice_planner; chunk_planner_ := chunk_planner; recovering_part_ := chunk_part; recovery_possible_ := possible;
       recovery_type_ := method; first_block_ := first_block; block_count_ := block_count |} in
  let planner := prepare (ChunkPartType.getSliceType chunk_part) [ChunkPartType.getSlicePart chunk_part] available_parts (slice_planner_ s) in
  if can_read_ planner then Ok (result planner (chunk_planner_ s) true kReadDataPart)
  else
    let data_part_count := getNumberOfDataParts (ChunkPartType.getSliceType chunk_part) in
    if isDataPart chunk_part then
      chunk_planner ← chunk_prepare (getDataPartIndex chunk_part + first_block * data_part_count) (1 + (block_count - 1) * data_part_count)
        available_parts (chunk_planner_ s);
      Ok (if is_reading_possible_ chunk_planner then result planner chunk_planner true kRecoverDataPart
          else result planner chunk_planner false (recovery_type_ s))
    else
      chunk_planner ← chunk_prepare (first_block * data_part_count) (block_count * data_part_count) available_parts (chunk_planner_ s);
      Ok (if is_reading_possible_ chunk_planner then result planner chunk_planner true kRecoverParityPart
          else result planner chunk_planner false (recovery_type_ s)).

Definition recovery_buildPlan (s : SliceRecoveryPlanner) : res plan :=
  let type := ChunkPartType.getSliceType (recovering_part_ s) in
  match recovery_type_ s with
  | kReadDataPart => '(_, p) ← buildPlanFor (first_block_ s) (block_count_ s) false (slice_planner_ s); Ok p
  | kRecoverDataPart =>
      '(_, p) ← buildPlan (chunk_planner_ s);
      Ok (push_postprocess (block_count_ s * B) (PartConverter (block_count_ s) (getNumberOfDataParts type)) p)
  | kRecoverParityPart =>
      '(_, p) ← buildPlan (chunk_planner_ s);
      if isXor type then
        assertion (isXorParity (recovering_part_ s))
        (Ok (push_postprocess (block_count_ s * B) (XorRecoverParity (getNumberOfDataParts type) (block_count_ s)) p))
      else if isEC type then
        assertion (ec_isParityPart (recovering_part_ s))
        (Ok (push_postprocess (block_count_ s * B)
               (ECRecoverParity (ec_getNumberOfDataParts type) (ec_getNumberOfParityParts type) (ec_getParityPartIndex (recovering_part_ s))
                  (block_count_ s)) p))
      else Abort
  end.
End planner.

(** ** ReadPlanExecutor::checkPlan *)

Section checking.
Context (B : Z).

(** [op] starts in [op2], ends in it, or encloses it. *)
Definition overlap (op op2 : ReadOperation) : bool :=
  let last := buffer_offset op + request_size op - 1 in
  let end2 := buffer_offset op2 + request_size op2 in
  (buffer_offset op2 <=? buffer_offset op) && (buffer_offset op <? end2)
  || (buffer_offset op2 <=? last) && (last <? end2)
  || (buffer_offset op <? buffer_offset op2) && (end2 <=? buffer_offset op + request_size op).

(** The inner loop: [i] and [j] are the positions of the two operations. *)
Fixpoint check_others (i j : nat) (type : Z) (op : ReadOperation) (ops : list (Z * ReadOperation)) : bool :=
  match ops with
  | [] => true
  | (type2, op2) :: ops =>
      ((i =? j)%nat || negb (type =? type2) && ((request_size op2 <=? 0) || negb (overlap op op2))) && check_others i (S j) type op ops
  end.

Fixpoint check_operations (p : plan) (i : nat) (ops : list (Z * ReadOperation)) : res unit :=
  match ops with
  | [] => Ok tt
  | (type, op) :: ops =>
      valid ← ChunkPartType.isValid type;
      assertion valid
      (assertion ((0 <=? request_offset op) && (0 <=? request_size op))
      (assertion (request_offset op + request_size op <=? SFSBLOCKSINCHUNK * B)
      (assertion ((0 <=? buffer_offset op) && (buffer_offset op + request_size op <=? read_buffer_size p))
      (assertion ((request_size op <=? 0) || check_others i 0 type op (read_operations p))
      (check_operations p (S i) ops)))))
  end.

Definition checkPlan (p : plan) : res unit :=
  _ ← check_operations p 0 (read_operations p);
  assertion (forallb (fun post => 0 <=? fst post) (postprocess_operations p))
  (assertion ((0 <=? buffer_read p) && (buffer_read p <? buffer_end p))
  (assertion (0 <? buffer_end p) (Ok tt))).
End checking.
