(* ===== verification/ReadPlanFacts.v ===== *)
(** * The contents of parts and the memory of plans

    The bytes of the parts of a chunk, and lemmas on the memory operations of ReadPlans.  The
    theorem on block_xor.cc is [block_xor_exact]. *)

From Stdlib Require Import Strings.Byte QArith.
From S2P Require Import Prelude GaloisField ErasureCode CodeMatrix ReedSolomon SliceTraits ReadPlans.
Import SliceType SliceTraits.
Open Scope Z_scope.

(** ** block_xor.cc *)

Lemma xor_split n m dest source : (n ≤ m)%nat → (m ≤ length dest)%nat → (m ≤ length source)%nat →
  let d := BlockXor.blockXorUnaligned dest source n in
  take n d ++ BlockXor.blockXorUnaligned (drop n d) (drop n source) (m - n) = BlockXor.blockXorUnaligned dest source m.
Proof.
  intros Hnm Hd Hs d. unfold d, BlockXor.blockXorUnaligned. set (x := zip_with add (take n dest) (take n source)).
  assert (length x = n) as Hx by (unfold x; rewrite length_zip_with, !length_take; lia).
  rewrite take_app_length', drop_app_length' by done. rewrite app_assoc. f_equal; [| rewrite drop_drop; f_equal; lia].
  unfold x. rewrite !take_drop_commute. replace (n + (m - n))%nat with m by lia.
  transitivity (zip_with add (take n (take m dest) ++ drop n (take m dest)) (take n (take m source) ++ drop n (take m source)));
    [| by rewrite !take_drop].
  rewrite zip_with_app by (rewrite !length_take; lia). by rewrite !take_take, !Nat.min_l.
Qed.

(** Whatever the addresses, the bytes of the blocks are added. *)
Theorem block_xor_exact d s dest source size : (size ≤ length dest)%nat → (size ≤ length source)%nat →
  BlockXor.blockXor d s dest source size = Ok (BlockXor.blockXorUnaligned dest source size).
Proof.
  intros Hd Hs. unfold BlockXor.blockXor, BlockXor.blockXorAligned, BlockXor.ALIGNMENT.
  destruct (Z.eqb_spec (d mod 16) (s mod 16)) as [E |]; [| done].
  set (n := Z.to_nat ((16 - d mod 16) mod 16)). destruct (Nat.ltb_spec size n); [done |].
  assert ((d + Z.of_nat n) mod 16 = 0 ∧ (s + Z.of_nat n) mod 16 = 0) as [-> ->].
  { unfold n. rewrite Z2Nat.id by (apply Z.mod_pos_bound; lia). Z.to_euclidean_division_equations; lia. }
  cbn [andb Z.eqb assertion mbind res_bind]. by rewrite xor_split.
Qed.

(** ** Memory *)

Lemma length_bytes_at off size b : 0 <= off → 0 <= size → off + size <= Z.of_nat (length b) → length (bytes_at off size b) = Z.to_nat size.
Proof. intros. unfold bytes_at. rewrite length_take, length_drop. lia. Qed.

Lemma length_write_at off d b : 0 <= off → off + Z.of_nat (length d) <= Z.of_nat (length b) → length (write_at off d b) = length b.
Proof. intros. unfold write_at. rewrite !length_app, length_take, length_drop. lia. Qed.

Lemma bytes_at_same off d b : 0 <= off → off + Z.of_nat (length d) <= Z.of_nat (length b) →
  bytes_at off (Z.of_nat (length d)) (write_at off d b) = d.
Proof.
  intros. unfold bytes_at, write_at. rewrite drop_app_length' by (rewrite length_take; lia). by rewrite Nat2Z.id, take_app_length.
Qed.

Lemma bytes_at_lookup off size b i : 0 <= off → (i < Z.to_nat size)%nat → bytes_at off size b !! i = b !! (Z.to_nat off + i)%nat.
Proof. intros. unfold bytes_at. by rewrite lookup_take_lt, lookup_drop. Qed.

Lemma write_at_lookup off d b i : 0 <= off → off + Z.of_nat (length d) <= Z.of_nat (length b) →
  write_at off d b !! i =
    if decide (Z.to_nat off ≤ i < Z.to_nat off + length d)%nat then d !! (i - Z.to_nat off)%nat else b !! i.
Proof.
  intros. unfold write_at. assert (length (take (Z.to_nat off) b) = Z.to_nat off) as L by (rewrite length_take; lia). case_decide.
  - rewrite lookup_app_r by lia. rewrite L, lookup_app_l by lia. done.
  - destruct (decide (i < Z.to_nat off)%nat).
    + rewrite lookup_app_l by lia. by rewrite lookup_take_lt.
    + rewrite lookup_app_r, L, lookup_app_r, lookup_drop by lia. f_equal. lia.
Qed.

Lemma bytes_at_other off size off' d b : 0 <= off → 0 <= off' → off' + Z.of_nat (length d) <= Z.of_nat (length b) →
  off + size <= off' ∨ off' + Z.of_nat (length d) <= off →
  bytes_at off size (write_at off' d b) = bytes_at off size b.
Proof.
  intros Ho Ho' Hb Hd. apply list_eq. intros i. destruct (decide (i < Z.to_nat size)%nat).
  - rewrite !bytes_at_lookup by done. rewrite write_at_lookup by done. rewrite decide_False by lia. done.
  - unfold bytes_at. by rewrite !lookup_take_ge by lia.
Qed.

Lemma bytes_at_inner off size off' size' b : 0 <= off → 0 <= off' → 0 <= size' → off' + size' <= size →
  bytes_at off' size' (bytes_at off size b) = bytes_at (off + off') size' b.
Proof.
  intros. apply list_eq. intros i. destruct (decide (i < Z.to_nat size')%nat).
  - rewrite !bytes_at_lookup by lia. f_equal. lia.
  - unfold bytes_at. by rewrite !lookup_take_ge by lia.
Qed.

Lemma bytes_at_split off n m b : 0 <= off → 0 <= n → 0 <= m → off + n + m <= Z.of_nat (length b) →
  bytes_at off (n + m) b = bytes_at off n b ++ bytes_at (off + n) m b.
Proof.
  intros. apply list_eq. intros i. destruct (decide (i < Z.to_nat n)%nat).
  - rewrite lookup_app_l by (rewrite length_bytes_at; lia). by rewrite !bytes_at_lookup by lia.
  - rewrite lookup_app_r by (rewrite length_bytes_at; lia). rewrite length_bytes_at by lia. destruct (decide (i < Z.to_nat (n + m))%nat).
    + rewrite !bytes_at_lookup by lia. f_equal. lia.
    + unfold bytes_at. by rewrite !lookup_take_ge by lia.
Qed.

Lemma bytes_at_extend d0 n d b : 0 <= d0 → 0 <= n → d0 + n + Z.of_nat (length d) <= Z.of_nat (length b) →
  bytes_at d0 (n + Z.of_nat (length d)) (write_at (d0 + n) d b) = bytes_at d0 n b ++ d.
Proof.
  intros H1 H2 H3. rewrite bytes_at_split by (rewrite ?length_write_at; lia). f_equal.
  - apply bytes_at_other; lia.
  - apply bytes_at_same; lia.
Qed.

Lemma bytes_at_add x y n : bytes_at 0 n (zip_with add x y) = zip_with add (bytes_at 0 n x) (bytes_at 0 n y).
Proof.
  unfold bytes_at. change (Z.to_nat 0) with 0%nat. rewrite !drop_0. revert x y. generalize (Z.to_nat n).
  intros k. induction k as [| k IH]; intros [| a x] [| c y]; cbn; try done. by rewrite IH.
Qed.

Lemma write_at_app off d z b : 0 <= off → off + Z.of_nat (length d) + Z.of_nat (length z) <= Z.of_nat (length b) →
  write_at (off + Z.of_nat (length d)) z (write_at off d b) = write_at off (d ++ z) b.
Proof.
  intros Ho Hb. assert (length (write_at off d b) = length b) by (apply length_write_at; lia). apply list_eq. intros j.
  rewrite !write_at_lookup by (rewrite ?length_app; lia). rewrite length_app. repeat case_decide; try lia; try done.
  - rewrite lookup_app_r by lia. f_equal. lia.
  - rewrite lookup_app_l by lia. done.
Qed.

Lemma bytes_at_whole d (x : list byte) : (length d ≤ length x)%nat → bytes_at 0 (Z.of_nat (length d)) (write_at 0 d x) = d.
Proof. intros H. apply bytes_at_same; lia. Qed.

(** ** Slots: the memory from [base] on in pieces of [P] bytes *)

Section slots.
Context (base P : Z) (Hbase : 0 <= base) (HP : 0 < P).

Definition slot (b : list byte) (s : Z) : list byte := bytes_at (base + s * P) P b.
Definition has_slots (n : Z) (b : list byte) : Prop := base + n * P <= Z.of_nat (length b).

Lemma slot_length n b s : has_slots n b → 0 <= s < n → length (slot b s) = Z.to_nat P.
Proof using Hbase HP. intros Hb Hs. unfold has_slots in Hb. apply length_bytes_at; nia. Qed.

Lemma slot_write n b s o d s' : has_slots n b → 0 <= s < n → 0 <= s' < n → 0 <= o → o + Z.of_nat (length d) <= P →
  slot (write_at (base + s * P + o) d b) s' = if decide (s' = s) then write_at o d (slot b s) else slot b s'.
Proof using Hbase HP.
  intros Hb Hs Hs' Ho Hd. unfold has_slots in Hb. destruct (decide (s' = s)) as [-> | Hne].
  - unfold slot. assert (0 <= base + s * P ∧ base + s * P + P <= Z.of_nat (length b)) as [Hq HqP] by nia.
    set (q := base + s * P) in *. pose proof (length_bytes_at q P b Hq ltac:(lia) HqP) as L.
    apply list_eq. intros i. destruct (decide (i < Z.to_nat P)%nat).
    + rewrite bytes_at_lookup by lia. rewrite (write_at_lookup (q + o)), (write_at_lookup o) by lia. rewrite bytes_at_lookup by lia.
      repeat case_decide; try lia; [f_equal; lia | done].
    + unfold bytes_at at 1. rewrite lookup_take_ge by lia. symmetry. apply lookup_ge_None_2. rewrite length_write_at; lia.
  - unfold slot. apply bytes_at_other; nia.
Qed.

(** A piece of a slot. *)
Lemma slot_piece n b s o size : has_slots n b → 0 <= s < n → 0 <= o → 0 <= size → o + size <= P →
  bytes_at (base + s * P + o) size b = bytes_at o size (slot b s).
Proof using Hbase HP. intros. unfold slot. rewrite bytes_at_inner by nia. done. Qed.
End slots.

(** ** Consecutive blocks *)

Section blocks.
Context (B : Z) (HB : 0 < B).

Notation zeros := (replicate (Z.to_nat B) x00).

Definition blocks_of (f : Z → list byte) (j n : Z) : list byte := mjoin (f <$> seqZ j n).

Definition sized (f : Z → list byte) : Prop := ∀ i, length (f i) = Z.to_nat B.

Lemma blocks_of_0 f j n : n <= 0 → blocks_of f j n = [].
Proof. intros Hn. unfold blocks_of. by rewrite seqZ_nil by lia. Qed.

Lemma blocks_of_app f j n m : 0 <= n → 0 <= m → blocks_of f j (n + m) = blocks_of f j n ++ blocks_of f (j + n) m.
Proof. intros. unfold blocks_of. rewrite seqZ_app by lia. by rewrite fmap_app, join_app. Qed.

Lemma blocks_of_1 f j : blocks_of f j 1 = f j.
Proof. unfold blocks_of. rewrite seqZ_cons, seqZ_nil by lia. cbn. apply app_nil_r. Qed.

Lemma blocks_of_length f j n : sized f → length (blocks_of f j n) = Z.to_nat (n * B).
Proof.
  intros Hf. unfold blocks_of. rewrite (length_mjoin _ (Z.to_nat B)), length_fmap, length_seqZ.
  - destruct (decide (0 <= n)); [lia |]. by rewrite (Z2Nat.nonpos n), (Z2Nat.nonpos (n * B)) by nia.
  - intros l (i & -> & _)%list_elem_of_fmap. apply Hf.
Qed.

Lemma blocks_of_ext f g j n : (∀ i, j <= i < j + n → f i = g i) → blocks_of f j n = blocks_of g j n.
Proof. intros H. unfold blocks_of. f_equal. apply list_fmap_ext. intros ? i Hi%list_elem_of_lookup_2%elem_of_seqZ. apply H. lia. Qed.

Lemma blocks_of_zero j n : blocks_of (fun _ => zeros) j n = replicate (Z.to_nat (n * B)) x00.
Proof.
  destruct (decide (0 <= n)) as [Hn |]; [| rewrite blocks_of_0, Z2Nat.nonpos by nia; done].
  revert j. pattern n. apply natlike_ind; [by intros | | done]. clear n Hn. intros n Hn IH j.
  replace (Z.succ n) with (1 + n) by lia. rewrite blocks_of_app, blocks_of_1, IH, <- replicate_add by lia. f_equal. lia.
Qed.

(** The bytes of one block. *)
Lemma blocks_of_nth f j n i : sized f → 0 <= i < n → bytes_at (i * B) B (blocks_of f j n) = f (j + i).
Proof.
  intros Hf Hi. replace n with (i + (1 + (n - i - 1))) by lia. rewrite !blocks_of_app, blocks_of_1 by lia.
  unfold bytes_at. rewrite drop_app_length' by (rewrite blocks_of_length; done). by rewrite take_app_length' by (rewrite Hf; done).
Qed.

Lemma blocks_of_pad f j n m : 0 <= m <= n → (∀ i, j + m <= i → f i = zeros) →
  blocks_of f j n = blocks_of f j m ++ replicate (Z.to_nat ((n - m) * B)) x00.
Proof.
  intros Hm Hz. replace n with (m + (n - m)) at 1 by lia. rewrite blocks_of_app by lia. f_equal.
  rewrite <- (blocks_of_zero (j + m)). apply blocks_of_ext. intros i Hi. apply Hz. lia.
Qed.

Lemma blocks_of_xor f g j n : sized f → sized g →
  zip_with add (blocks_of f j n) (blocks_of g j n) = blocks_of (fun i => zip_with add (f i) (g i)) j n.
Proof.
  intros Hf Hg. destruct (decide (0 <= n)) as [Hn |]; [| by rewrite !blocks_of_0 by lia].
  revert j. pattern n. apply natlike_ind; [by intros | | done]. clear n Hn. intros n Hn IH j.
  replace (Z.succ n) with (1 + n) by lia. rewrite !blocks_of_app, !blocks_of_1 by lia. rewrite zip_with_app by (by rewrite Hf, Hg).
  by rewrite IH.
Qed.

Lemma nth_app_block {A} (d : A) (l l' : list A) i : nth i (l ++ l') d = if (i <? length l)%nat then nth i l d else nth (i - length l) l' d.
Proof. destruct (Nat.ltb_spec i (length l)); [by apply app_nth1 | by apply app_nth2]. Qed.

Lemma product_app k s1 s2 row y1 y2 : (∀ q, (q < k)%nat → length (y1 q) = s1) →
  product k (s1 + s2) row (fun q => y1 q ++ y2 q) = product k s1 row y1 ++ product k s2 row y2.
Proof.
  intros Hl. unfold product. rewrite seq_app, fmap_app. f_equal.
  - apply list_fmap_ext. intros i ? [-> Hi]%lookup_seq. cbn [Nat.add]. apply sum_ext. intros j Hj.
    rewrite nth_app_block, Hl by done. by rewrite (proj2 (Nat.ltb_lt _ _) Hi).
  - replace (seq (0 + s1) s2) with (Nat.add s1 <$> seq 0 s2) by (rewrite fmap_add_seq; f_equal; lia). rewrite <- list_fmap_compose.
    apply list_fmap_ext. intros i ? [-> Hi]%lookup_seq. cbn. apply sum_ext. intros j Hj.
    rewrite nth_app_block, Hl by done. rewrite (proj2 (Nat.ltb_ge _ _)) by lia. do 3 f_equal. lia.
Qed.
End blocks.

(** ** Sums of blocks *)

Section block_sums.
Context (n : nat).
Notation zero_block := (replicate n x00).

Lemma badd_comm (x y : list byte) : zip_with add x y = zip_with add y x.
Proof. revert y. induction x as [| a x IH]; intros [| b y]; cbn; [done.. |]. by rewrite add_comm, IH. Qed.

Lemma badd_assoc (x y z : list byte) : zip_with add x (zip_with add y z) = zip_with add (zip_with add x y) z.
Proof. revert y z. induction x as [| a x IH]; intros [| b y] [| c z]; cbn; [done.. |]. by rewrite add_assoc, IH. Qed.

Lemma badd_0 (x : list byte) : length x = n → zip_with add zero_block x = x.
Proof. revert x. induction n as [| n' IH]; intros [| a x] Hx; cbn in *; try done. injection Hx as Hx. by rewrite add_0_l, IH. Qed.

Lemma badd_self (x : list byte) : length x = n → zip_with add x x = zero_block.
Proof. revert x. induction n as [| n' IH]; intros [| a x] Hx; cbn in *; try done. injection Hx as Hx. by rewrite add_self, IH. Qed.

Lemma badd_length (x y : list byte) : length x = n → length y = n → length (zip_with add x y) = n.
Proof. intros Hx Hy. rewrite length_zip_with. lia. Qed.

Fixpoint block_sum {A} (f : A → list byte) (l : list A) : list byte :=
  match l with [] => zero_block | a :: l => zip_with add (f a) (block_sum f l) end.

Lemma block_sum_length {A} (f : A → list byte) l : (∀ a, length (f a) = n) → length (block_sum f l) = n.
Proof. intros Hf. induction l as [| a l IH]; cbn; [apply length_replicate |]. by apply badd_length. Qed.

#[global] Instance block_sum_perm {A} (f : A → list byte) : Proper ((≡ₚ) ==> (=)) (block_sum f).
Proof.
  intros l l' Hp. induction Hp as [| a l l' Hp IH | a b l | l l' l'' H1 IH1 H2 IH2]; cbn; [done | by rewrite IH | | congruence].
  rewrite !badd_assoc. f_equal. apply badd_comm.
Qed.

(** A term of a sum that is zero is the sum of the others. *)
Lemma block_sum_solve {A} (f : A → list byte) a l : (∀ a, length (f a) = n) → block_sum f (a :: l) = zero_block → f a = block_sum f l.
Proof.
  intros Hf H. cbn in H. pose proof (block_sum_length f l Hf) as Hl.
  transitivity (zip_with add (f a) (zip_with add (block_sum f l) (block_sum f l))).
  - rewrite badd_self by done. rewrite badd_comm. by rewrite badd_0.
  - rewrite badd_assoc, H. by apply badd_0.
Qed.
End block_sums.

(** ** The contents of parts *)

Section contents.
Context (B : Z) (HB : 0 < B) (chunk : Z → list byte).
Notation zeros := (replicate (Z.to_nat B) x00).
Notation stored_blocks cpt := (getNumberOfBlocks cpt SFSBLOCKSINCHUNK).
Hypothesis Hsized : sized B chunk.
Hypothesis Hbeyond : ∀ i, SFSBLOCKSINCHUNK <= i → chunk i = zeros.

(** The blocks of the chunk in row [j] of a slice. *)
Definition stripe (t j : Z) : list (list byte) := (fun d => chunk (j * getNumberOfDataParts t + d)) <$> seqZ 0 (getNumberOfDataParts t).

(** Block [j] of part [p] of a slice. *)
Definition part_block (t p j : Z) : list byte :=
  let k := getNumberOfDataParts t in
  if isXor t then
    if p =? kXorParityPart then block_sum (Z.to_nat B) (fun d => chunk (j * k + d)) (seqZ 0 k) else chunk (j * k + (p - 1))
  else if isEC t then
    part (Z.to_nat k) (Z.to_nat (getNumberOfParityParts t)) (Z.to_nat B) (stripe t j) (Z.to_nat p)
  else chunk j.

Definition part_of (t p : Z) : Prop := isValid t = true ∧ 0 <= p < getNumberOfDataParts t + getNumberOfParityParts t.

Lemma part_of_range t p : part_of t p → 0 <= p < 64 ∧ 0 <= t.
Proof. intros [Hv Hp]. pose proof (number_of_parts_bounds t Hv). split; [lia | type_lia]. Qed.

Lemma stripe_length t j : isValid t = true → length (stripe t j) = Z.to_nat (getNumberOfDataParts t).
Proof. intros Hv. unfold stripe. by rewrite length_fmap, length_seqZ. Qed.

Lemma stripe_lookup t j d : 0 <= d < getNumberOfDataParts t → stripe t j !! Z.to_nat d = Some (chunk (j * getNumberOfDataParts t + d)).
Proof.
  intros Hd. unfold stripe. rewrite list_lookup_fmap. rewrite lookup_seqZ_lt by lia. cbn. do 3 f_equal. lia.
Qed.

Lemma part_block_data t p j : part_of t p → isDataPart (part_id t p) = true →
  part_block t p j = chunk (j * getNumberOfDataParts t + getDataPartIndex (part_id t p)).
Proof using Hsized.
  intros Hp Hd. pose proof Hp as [Hv Hb]. destruct (part_of_range t p Hp). unfold part_block, getDataPartIndex, isDataPart, isParityPart, isXorParity, ec_isParityPart in *.
  rewrite part_id_type, part_id_part in * by done. destruct (isXor t) eqn:Ex.
  - cbn in Hd. by destruct (p =? kXorParityPart).
  - destruct (isEC t) eqn:Ee.
    + apply negb_true_iff, Z.leb_gt in Hd. assert (getNumberOfDataParts t = ec_getNumberOfDataParts t) as Ek by (unfold getNumberOfDataParts; by rewrite Ex, Ee).
      rewrite <- Ek in Hd. apply part_data; [lia | apply stripe_lookup; lia | by rewrite Hsized].
    + assert (getNumberOfDataParts t = 1) as Ek by (unfold getNumberOfDataParts; by rewrite Ex, Ee).
      assert (getNumberOfParityParts t = 0) as Em by (unfold getNumberOfParityParts; by rewrite Ex, Ee).
      rewrite Ek. f_equal. lia.
Qed.

Lemma part_block_sized t p : part_of t p → sized B (part_block t p).
Proof using Hsized.
  intros Hp j. unfold part_block. destruct (isXor t).
  - destruct (p =? kXorParityPart); [| apply Hsized]. apply block_sum_length. intros d. apply Hsized.
  - destruct (isEC t); [| apply Hsized]. unfold part, product. by rewrite length_fmap, length_seq.
Qed.

(** The index by which blocks are counted: parity parts are as long as the first data part. *)
Definition row_index (cpt : Z) : Z := if isDataPart cpt then getDataPartIndex cpt else 0.

Lemma row_index_bounds t p : part_of t p → 0 <= row_index (part_id t p) < getNumberOfDataParts t.
Proof using.
  intros Hp. pose proof Hp as [Hv Hb]. pose proof (number_of_parts_bounds t Hv). destruct (part_of_range t p Hp).
  unfold row_index. destruct (isDataPart (part_id t p)) eqn:Ed; [| lia].
  unfold getDataPartIndex, isDataPart, isParityPart, isXorParity, ec_isParityPart, getNumberOfDataParts, getNumberOfParityParts in *.
  rewrite part_id_type, part_id_part in * by done. destruct (isXor t) eqn:Ex.
  - cbn in Ed. apply negb_true_iff, Z.eqb_neq in Ed. unfold kXorParityPart in Ed. lia.
  - destruct (isEC t) eqn:Ee; [apply negb_true_iff, Z.leb_gt in Ed; lia | lia].
Qed.

Lemma stored_blocks_spec t p : part_of t p →
  stored_blocks (part_id t p) = (SFSBLOCKSINCHUNK + (getNumberOfDataParts t - row_index (part_id t p) - 1)) / getNumberOfDataParts t.
Proof using.
  intros Hp. pose proof (row_index_bounds t p Hp). pose proof Hp as [Hv _]. pose proof (number_of_parts_bounds t Hv). destruct (part_of_range t p Hp).
  unfold getNumberOfBlocks. fold (row_index (part_id t p)). rewrite part_id_type by done.
  rewrite wrapu_small; [done |]. unfold SFSBLOCKSINCHUNK. cbn. lia.
Qed.

(** A block of the part lies in the chunk exactly when it is stored. *)
Lemma stored_blocks_exact t p j : part_of t p →
  j < stored_blocks (part_id t p) ↔ j * getNumberOfDataParts t + row_index (part_id t p) < SFSBLOCKSINCHUNK.
Proof using.
  intros Hp. pose proof (row_index_bounds t p Hp). rewrite stored_blocks_spec by done. unfold SFSBLOCKSINCHUNK.
  set (k := getNumberOfDataParts t) in *. set (d := row_index (part_id t p)) in *.
  pose proof (Z.div_mod (1024 + (k - d - 1)) k ltac:(lia)). pose proof (Z.mod_pos_bound (1024 + (k - d - 1)) k ltac:(lia)). nia.
Qed.

Lemma stored_blocks_least t p : part_of t p → SFSBLOCKSINCHUNK / getNumberOfDataParts t <= stored_blocks (part_id t p).
Proof using.
  intros Hp. pose proof (row_index_bounds t p Hp). rewrite stored_blocks_spec by done. apply Z.div_le_mono; lia.
Qed.

Lemma block_sum_zero {A} n (l : list A) : block_sum n (fun _ => replicate n x00) l = replicate n x00.
Proof. induction l as [| a l IH]; cbn [block_sum]; [done |]. rewrite IH. apply badd_self, length_replicate. Qed.

Lemma block_sum_ext {A} n (f g : A → list byte) l : (∀ a, a ∈ l → f a = g a) → block_sum n f l = block_sum n g l.
Proof.
  induction l as [| a l IH]; intros H; cbn [block_sum]; [done |]. rewrite H by left. f_equal. apply IH. intros; apply H; by right.
Qed.

Lemma product_zero k size row y : (∀ i q, (q < k)%nat → nth i (y q) x00 = x00) → product k size row y = replicate size x00.
Proof.
  intros Hy. unfold product. apply list_eq. intros i. rewrite list_lookup_fmap. destruct (decide (i < size)%nat).
  - rewrite lookup_seq_lt, lookup_replicate_2 by done. cbn. f_equal. apply sum_0. intros q Hq. rewrite Hy by done. apply gf_mul_0_r.
  - rewrite lookup_seq_ge by lia. symmetry. apply lookup_ge_None_2. rewrite length_replicate. lia.
Qed.

Lemma part_block_beyond t p j : part_of t p → stored_blocks (part_id t p) <= j → part_block t p j = zeros.
Proof using Hsized Hbeyond.
  intros Hp Hj. pose proof (stored_blocks_exact t p j Hp) as He. pose proof (row_index_bounds t p Hp). unfold row_index in *.
  destruct (isDataPart (part_id t p)) eqn:Ed.
  - rewrite part_block_data by done. apply Hbeyond. lia.
  - assert (∀ d, 0 <= d → chunk (j * getNumberOfDataParts t + d) = zeros) as Hz by (intros d Hd; apply Hbeyond; lia).
    destruct (part_of_range t p Hp). unfold part_block. unfold isDataPart, isParityPart, isXorParity in Ed. rewrite part_id_type, part_id_part in Ed by done.
    apply negb_false_iff in Ed. destruct (isXor t) eqn:Ex.
    + cbn in Ed. rewrite Ed. rewrite (block_sum_ext _ _ (fun _ => zeros)); [apply block_sum_zero |]. intros d Hd%elem_of_seqZ. apply Hz. lia.
    + destruct (isEC t); [| done]. apply product_zero. intros i q Hq. pose proof Hp as [Hv _].
      rewrite <- (Nat2Z.id q), (nth_lookup_Some _ _ _ _ (stripe_lookup t j (Z.of_nat q) ltac:(lia))). rewrite Hz by lia. apply nth_zeros.
Qed.

(** Consecutive blocks of a part. *)
Definition part_bytes (t p j n : Z) : list byte := blocks_of (part_block t p) j n.

Lemma part_bytes_length t p j n : part_of t p → length (part_bytes t p j n) = Z.to_nat (n * B).
Proof using HB Hsized. intros Hp. apply blocks_of_length; [done | by apply part_block_sized]. Qed.

(** What is read of a part, followed by zeros. *)
Lemma part_bytes_pad t p j n : part_of t p → 0 <= n → j <= stored_blocks (part_id t p) →
  let got := Z.min (stored_blocks (part_id t p) - j) n in
  part_bytes t p j n = part_bytes t p j got ++ replicate (Z.to_nat (n * B - got * B)) x00.
Proof using HB Hsized Hbeyond.
  intros Hp Hn Hj got. unfold part_bytes. replace (n * B - got * B) with ((n - got) * B) by lia. destruct (decide (n <= stored_blocks (part_id t p) - j)).
  - unfold got. rewrite Z.min_r by lia. rewrite Z.sub_diag, Z.mul_0_l. cbn. by rewrite app_nil_r.
  - apply blocks_of_pad; [done | unfold got; lia |]. intros i Hi. apply part_block_beyond; [done | unfold got in *; lia].
Qed.

(** *** Relations between the parts of a row *)

Lemma block_sum_blocks (f : Z → Z → list byte) j n l : (∀ p, sized B (f p)) → 0 <= n →
  block_sum (Z.to_nat (n * B)) (fun p => blocks_of (f p) j n) l = blocks_of (fun i => block_sum (Z.to_nat B) (fun p => f p i) l) j n.
Proof using HB.
  intros Hf Hn. induction l as [| p l IH]; cbn [block_sum].
  - by rewrite blocks_of_zero.
  - rewrite IH. apply (blocks_of_xor B); [apply Hf |]. intros i. apply block_sum_length. intros q. apply Hf.
Qed.

Lemma block_sum_fmap {A C} n (f : C → list byte) (g : A → C) l : block_sum n f (g <$> l) = block_sum n (fun a => f (g a)) l.
Proof. induction l as [| a l IH]; [done |]. cbn [block_sum]. rewrite <- IH. done. Qed.

Lemma xor_row t j : isXor t = true → block_sum (Z.to_nat B) (fun p => part_block t p j) (seqZ 0 (getNumberOfDataParts t + 1)) = zeros.
Proof using Hsized.
  intros Hx. assert (0 <= getNumberOfDataParts t) as Hk by type_lia. rewrite seqZ_cons by lia. cbn [block_sum].
  replace (Z.succ 0) with (1 + 0) by lia. replace (Z.pred _) with (getNumberOfDataParts t) by lia. rewrite <- fmap_add_seqZ, block_sum_fmap.
  rewrite (block_sum_ext _ _ (fun d => chunk (j * getNumberOfDataParts t + d)) (seqZ 0 _)).
  - unfold part_block at 1. rewrite Hx. cbn [Z.eqb kXorParityPart]. apply badd_self, block_sum_length. intros d. apply Hsized.
  - intros d Hd%elem_of_seqZ. unfold part_block. rewrite Hx. unfold kXorParityPart. rewrite (proj2 (Z.eqb_neq _ _)) by lia. f_equal. lia.
Qed.

Lemma xor_rows t j n : isValid t = true → isXor t = true → 0 <= n →
  block_sum (Z.to_nat (n * B)) (fun p => part_bytes t p j n) (seqZ 0 (getNumberOfDataParts t + 1)) = replicate (Z.to_nat (n * B)) x00.
Proof using HB Hsized.
  intros Hv Hx Hn. rewrite <- (blocks_of_zero B HB j n).
  transitivity (blocks_of (fun i => block_sum (Z.to_nat B) (fun p => part_block t p i) (seqZ 0 (getNumberOfDataParts t + 1))) j n).
  - rewrite <- block_sum_blocks; [done | | done]. intros p i. unfold part_block. rewrite Hx. destruct (_ =? _); [| apply Hsized].
    apply block_sum_length. intros d. apply Hsized.
  - apply blocks_of_ext. intros i _. by apply xor_row.
Qed.

(** The data parts of a slice, row by row. *)
Definition data_rows (t j n : Z) : list (list byte) := (fun d => part_bytes t d j n) <$> seqZ 0 (getNumberOfDataParts t).

Lemma ec_data_part t d j : isValid t = true → isEC t = true → 0 <= d < getNumberOfDataParts t → part_block t d j = chunk (j * getNumberOfDataParts t + d).
Proof using Hsized.
  intros Hv He Hd. pose proof (number_of_parts_bounds t Hv). assert (part_of t d) as Hp by (split; [done | lia]). destruct (part_of_range t d Hp).
  assert (isXor t = false) as Ex by type_lia. rewrite part_block_data; [| done |].
  - unfold getDataPartIndex. rewrite part_id_type, part_id_part by done. by rewrite Ex.
  - unfold isDataPart, isParityPart, ec_isParityPart. rewrite part_id_type, part_id_part, Ex, He by done.
    apply negb_true_iff, Z.leb_gt. unfold getNumberOfDataParts in Hd. rewrite Ex, He in Hd. lia.
Qed.

Lemma ec_rows t p j n : isValid t = true → isEC t = true → 0 <= n →
  part (Z.to_nat (getNumberOfDataParts t)) (Z.to_nat (getNumberOfParityParts t)) (Z.to_nat (n * B)) (data_rows t j n) (Z.to_nat p) = part_bytes t p j n.
Proof using HB Hsized.
  intros Hv He Hn. assert (isXor t = false) as Ex by type_lia. revert j. pattern n. apply natlike_ind; [intros j; done | | done].
  clear n Hn. intros n Hn IH j. unfold part_bytes. replace (Z.succ n) with (1 + n) by lia. rewrite blocks_of_app, blocks_of_1 by lia.
  change (blocks_of (part_block t p) (j + 1) n) with (part_bytes t p (j + 1) n). rewrite <- IH.
  replace (Z.to_nat ((1 + n) * B)) with (Z.to_nat B + Z.to_nat (n * B))%nat by lia. unfold part_block. rewrite Ex, He. unfold part.
  rewrite <- product_app.
  - apply product_ext. intros i q _ Hq. do 2 f_equal. unfold data_rows, stripe. rewrite !nth_lookup, !list_lookup_fmap, !lookup_seqZ_lt by lia. cbn [fmap option_fmap option_map from_option].
    unfold id, part_bytes. rewrite blocks_of_app, blocks_of_1 by lia. f_equal. apply ec_data_part; [done | done | lia].
  - intros q Hq. rewrite <- (Nat2Z.id q), (nth_lookup_Some _ _ _ _ (stripe_lookup t j (Z.of_nat q) ltac:(lia))). apply Hsized.
Qed.
End contents.
