(* ===== verification/PostProcess.v ===== *)
(** * Post-processing of read parts

    From the parts that were read the plans of ReadPlans compute the requested parts
    ([requested_parts_restored]). *)

From Stdlib Require Import Strings.Byte QArith.
From S2P Require Import Prelude GaloisField ErasureCode CodeMatrix ReedSolomon SliceTraits ReadPlans ReadPlanFacts.
Import SliceType SliceTraits.
Open Scope Z_scope.

(** ** Bits of parts *)

Lemma part_bits_spec t parts : ∀ b, 0 <= t → length b = kMaxPartCount →
  (∀ x, x ∈ parts → ∃ q, x = part_id t q ∧ 0 <= q < 64) →
  ∃ b', part_bits t parts b = Ok b' ∧ length b' = kMaxPartCount ∧
    ∀ q, 0 <= q < 64 → test b' (Z.to_nat q) = test b (Z.to_nat q) || bool_decide (part_id t q ∈ parts).
Proof.
  induction parts as [| x parts IH]; intros b Ht Hl Hx.
  - exists b. split; [done |]. split; [done |]. intros q Hq. rewrite bool_decide_false by (by intros ?%elem_of_nil). by rewrite orb_false_r.
  - destruct (Hx x (list_elem_of_here _ _)) as (q0 & -> & Hq0). cbn [part_bits]. unfold assertion. rewrite part_id_type, Z.eqb_refl by done.
    destruct (IH (set_bit (slice_part (part_id t q0)) b)) as (b' & E & Hl' & Hb'); [done | | intros; apply Hx; by right |].
    { unfold set_bit. by rewrite length_insert. }
    exists b'. split; [done |]. split; [done |]. intros q Hq. rewrite Hb' by done. unfold slice_part. rewrite part_id_part by done.
    rewrite test_set_bit by (rewrite Hl; change kMaxPartCount with 64%nat; lia).
    destruct (Nat.eqb_spec (Z.to_nat q0) (Z.to_nat q)) as [E0 | E0].
    + assert (q = q0) as -> by lia. rewrite (bool_decide_true (part_id t q0 ∈ _ :: _)) by left. by rewrite orb_true_r.
    + cbn [orb]. f_equal. apply bool_decide_ext. rewrite elem_of_cons. split; [by right |]. intros [E1 |]; [| done].
      exfalso. apply E0. f_equal. assert (ChunkPartType.getSlicePart (part_id t q) = ChunkPartType.getSlicePart (part_id t q0)) as E2 by (by rewrite E1).
      rewrite !part_id_part in E2 by done. done.
Qed.

(** ** Choosing the parts to recover from *)

Lemma erase_loop_spec k av : ∀ parts ac e, NoDup parts → (∀ i, i ∈ parts → (i < kMaxPartCount)%nat) → length e = kMaxPartCount →
  let e' := erase_loop k av ac parts e in
  length e' = kMaxPartCount ∧ (∀ i, test e i = true → test e' i = true) ∧ (∀ i, test e' i = true → test e i = true ∨ i ∈ parts) ∧
  (∀ i, i ∈ parts → test e' i = false → test av i = true) ∧
  ((∀ i, i ∈ parts → test e i = false) →
   length (filter (fun i => test e' i = false) parts) = Nat.min (length (filter (fun i => test av i = true) parts)) (k - ac)).
Proof.
  induction parts as [| i parts IH]; intros ac e Hnd Hlt Hl; cbn [erase_loop].
  - split_and!; [done | auto | auto | by intros i ?%elem_of_nil | done].
  - apply NoDup_cons in Hnd as [Hni Hnd]. assert (i < kMaxPartCount)%nat as Hi by (apply Hlt; left).
    destruct (negb (test av i) || (k <=? ac)%nat) eqn:Ec.
    + destruct (IH ac (set_bit i e)) as (H1 & H2 & H3 & H4 & H5); [done | intros; apply Hlt; by right | by unfold set_bit; rewrite length_insert |].
      assert (∀ j, test (set_bit i e) j = (i =? j)%nat || test e j) as Hset by (intros; apply test_set_bit; lia).
      assert (test (erase_loop k av ac parts (set_bit i e)) i = true) as Hei by (apply H2; by rewrite Hset, Nat.eqb_refl).
      split_and!; [done | | | |].
      * intros j Hj. apply H2. rewrite Hset, Hj. apply orb_true_r.
      * intros j Hj. destruct (H3 j Hj) as [Hj' |]; [| right; by right]. rewrite Hset in Hj'. apply orb_true_iff in Hj' as [->%Nat.eqb_eq |]; [right; left | by left].
      * intros j [-> | Hj]%elem_of_cons Hf; [congruence | by apply H4].
      * intros He. rewrite !filter_cons. rewrite decide_False by congruence. rewrite H5.
        -- destruct (test av i); cbn [negb orb] in Ec; [| by rewrite decide_False by done]. apply Nat.leb_le in Ec.
           replace (k - ac)%nat with 0%nat by lia. by rewrite !Nat.min_0_r.
        -- intros j Hj. rewrite Hset, He by by right. destruct (Nat.eqb_spec i j) as [-> |]; done.
    + apply orb_false_iff in Ec as [Ea%negb_false_iff Ec%Nat.leb_gt].
      destruct (IH (S ac) e) as (H1 & H2 & H3 & H4 & H5); [done | intros; apply Hlt; by right | done |].
      split_and!; [done | done | | |].
      * intros j Hj. destruct (H3 j Hj); [by left | right; by right].
      * intros j [-> | Hj]%elem_of_cons Hf; [done | by apply H4].
      * intros He. rewrite !filter_cons. rewrite decide_True, (decide_True (P := test av i = true)) by
          (done || (apply not_true_is_false; intros [H0 |]%H3; [rewrite He in H0 by left |]; done)).
        cbn [length]. rewrite H5 by (intros; apply He; by right). lia.
Qed.

(** With [k] parts available, [m] parts are erased. *)
Lemma erased_parts k m av : accepted k m → (k <= length (chosen (k + m) av))%nat →
  let erased := erase_loop k av 0 (seq 0 (k + m)) no_bits in
  well_formed k m erased ∧ count erased = m ∧ ∀ i, (i < k + m)%nat → test erased i = false → test av i = true.
Proof.
  intros Hkm Hk erased. pose proof (parts_fit k m Hkm) as Hfit.
  destruct (erase_loop_spec k av (seq 0 (k + m)) 0 no_bits) as (H1 & _ & H3 & H4 & H5);
    [apply NoDup_seq | intros i Hi%elem_of_seq; lia | done |]. fold erased in H1, H3, H4, H5.
  assert (∀ i, test erased i = true → (i < k + m)%nat) as Hb by (intros i [Hi | Hi%elem_of_seq]%H3; [by rewrite test_no_bits in Hi | lia]).
  split; [done |]. split; [| intros i Hi; apply H4, elem_of_seq; lia].
  specialize (H5 (fun i _ => test_no_bits i)). unfold chosen in Hk. rewrite Nat.sub_0_r, Nat.min_r in H5 by done.
  rewrite (count_below (k + m)) by (done || lia). pose proof (chosen_complement (k + m) erased ltac:(lia)) as Hc.
  rewrite <- (chosen_ext (k + m) (negb <$> erased) (fun i => test erased i = false)) in Hc.
  - rewrite H5 in Hc. lia.
  - intros i Hi. rewrite test_flip by lia. by rewrite negb_true_iff.
Qed.

(** Filling an array of pointers. *)
Lemma fill_fragments {A} (F : fragments → A → fragments) (g : A → nat) (v : A → block) : (∀ f x, F f x = <[g x := Some (v x)]> f) →
  ∀ l f, NoDup (g <$> l) → (∀ x, x ∈ l → (g x < length f)%nat) →
  length (foldl F f l) = length f ∧ (∀ x, x ∈ l → fragment (foldl F f l) (g x) = Some (v x)) ∧
  (∀ i, i ∉ g <$> l → fragment (foldl F f l) i = fragment f i).
Proof.
  intros HF. induction l as [| x l IH]; intros f Hnd Hlt; cbn [foldl]; [split_and!; [done | by intros x ?%elem_of_nil | done] |].
  rewrite fmap_cons in Hnd. apply NoDup_cons in Hnd as [Hx Hnd]. rewrite HF.
  destruct (IH (<[g x := Some (v x)]> f)) as (H1 & H2 & H3); [done | intros; rewrite length_insert; apply Hlt; by right |].
  rewrite length_insert in H1. assert (g x < length f)%nat by (apply Hlt; left). split_and!; [done | |].
  - intros y [-> | Hy]%elem_of_cons; [| by apply H2]. rewrite H3 by done. unfold fragment. rewrite nth_lookup, list_lookup_insert_eq; done.
  - intros i Hi. rewrite fmap_cons, elem_of_cons in Hi. rewrite H3 by tauto. unfold fragment. rewrite !nth_lookup, list_lookup_insert_ne; [done |]. naive_solver.
Qed.

Section post.
Context (B : Z) (HB : 0 < B) (chunk : Z → list byte).
Hypothesis Hsized : sized B chunk.
Hypothesis Hbeyond : ∀ i, SFSBLOCKSINCHUNK <= i → chunk i = replicate (Z.to_nat B) x00.
Notation part_bytes := (part_bytes B chunk).
Notation stored_blocks cpt := (getNumberOfBlocks cpt SFSBLOCKSINCHUNK).

Definition class_of (t : Z) : plan_class := if isXor t then XorReadPlan else if isEC t then ECReadPlan else SliceReadPlan.

(** A plan that reads blocks [fb, fb + bc) of the parts [rs] of a slice, with memory for
    [slots] parts. *)
Record planned (t fb bc : Z) (rs : list Z) (slots : Z) (p : plan) : Prop := {
  pl_class : class p = class_of t;
  pl_type : slice_type p = t;
  pl_valid : isValid t = true;
  pl_first : 0 <= fb <= SFSBLOCKSINCHUNK / getNumberOfDataParts t;
  pl_count : 0 < bc;
  pl_size : buffer_part_size p = bc * B;
  pl_parts : NoDup rs ∧ rs ≠ [] ∧ ∀ r, r ∈ rs → part_of t r;
  pl_requested : requested_parts p = (fun r => {| ri_part := r; ri_size := bytes_to_read B (part_id t r) fb bc |}) <$> rs;
  pl_distinct : NoDup (fst <$> read_operations p);
  pl_ops : ∀ type op, (type, op) ∈ read_operations p → ∃ q s, type = part_id t q ∧ part_of t q ∧
    request_size op = bytes_to_read B type fb bc ∧ request_offset op = fb * B ∧ buffer_offset op = s * (bc * B) ∧ 0 <= s < slots ∧
    (∀ i, rs !! i = Some q → s = Z.of_nat i) ∧ (q ∉ rs → Z.of_nat (length rs) <= s);
  pl_disjoint : ∀ e e', e ∈ read_operations p → e' ∈ read_operations p → buffer_offset (snd e) = buffer_offset (snd e') → e = e';
  pl_slots : Z.of_nat (length rs) <= slots;
  pl_buffer : read_buffer_size p = slots * (bc * B);
}.

(** The memory when the parts [available] have been read: other parts may have left any bytes
    where they are read to. *)
Record received (p : plan) (available : list Z) (b : list byte) : Prop := {
  rc_length : Z.of_nat (length b) = fullBufferSize p;
  rc_data : ∀ type op, (type, op) ∈ read_operations p → type ∈ available →
    bytes_at (readOffset p + buffer_offset op) (request_size op) b =
      part_bytes (ChunkPartType.getSliceType type) (ChunkPartType.getSlicePart type) (request_offset op / B) (request_size op / B);
  rc_rest : ∀ type op, (type, op) ∈ read_operations p →
    bytes_at (readOffset p + buffer_offset op + request_size op) (buffer_part_size p - request_size op) b =
      replicate (Z.to_nat (buffer_part_size p - request_size op)) x00;
}.

Section one_plan.
Context (t fb bc : Z) (rs : list Z) (slots : Z) (p : plan) (Hpl : planned t fb bc rs slots p) (Hoff : 0 <= readOffset p).

Let P := bc * B.
Let base := readOffset p.
Let size_of (q : Z) := bytes_to_read B (part_id t q) fb bc.

Lemma P_pos : 0 < P.
Proof using HB Hpl. destruct Hpl. unfold P. nia. Qed.

Lemma first_stored q : part_of t q → fb <= stored_blocks (part_id t q).
Proof using Hpl. intros Hq. destruct Hpl. etransitivity; [apply pl_first0 |]. by apply stored_blocks_least. Qed.

Lemma size_of_bounds q : part_of t q → 0 <= size_of q <= P ∧ size_of q = size_of q / B * B.
Proof using HB Hpl.
  intros Hq. pose proof (first_stored q Hq). pose proof (pl_count _ _ _ _ _ _ Hpl). unfold size_of, bytes_to_read, P.
  set (n := Z.min (stored_blocks (part_id t q) - fb) bc). assert (0 <= n <= bc) by (unfold n; lia).
  rewrite (Z.mul_comm B), Z.div_mul by lia. nia.
Qed.

(** The slot of a part that was read, padded with zeros. *)
Lemma padded q x : part_of t q → length x = Z.to_nat P →
  bytes_at 0 (size_of q) x = part_bytes t q fb (size_of q / B) →
  bytes_at (size_of q) (P - size_of q) x = replicate (Z.to_nat (P - size_of q)) x00 →
  x = part_bytes t q fb bc.
Proof using HB Hsized Hbeyond Hpl.
  intros Hq Hx H1 H2. pose proof (size_of_bounds q Hq) as [Hs Es]. pose proof P_pos. pose proof (first_stored q Hq).
  rewrite (part_bytes_pad B HB chunk Hsized Hbeyond) by (destruct Hpl; (done || lia)).
  replace (Z.min (stored_blocks (part_id t q) - fb) bc) with (size_of q / B) by (unfold size_of, bytes_to_read; rewrite Z.mul_comm, Z.div_mul; lia).
  rewrite <- H1, <- Es. fold P. rewrite <- H2. transitivity (bytes_at 0 (size_of q + (P - size_of q)) x).
  - unfold bytes_at. change (Z.to_nat 0) with 0%nat. rewrite drop_0, take_ge; [done | lia].
  - apply bytes_at_split; lia.
Qed.

Lemma loaded available b type op q s : received p available b →
  (type, op) ∈ read_operations p → type ∈ available → type = part_id t q → buffer_offset op = s * P → part_of t q → 0 <= s < slots →
  slot base P b s = part_bytes t q fb bc.
Proof using HB Hsized Hbeyond Hpl Hoff.
  intros [Hl Hd Hr] Hop Hav -> Hs Hq Hsl. destruct (part_of_range t q Hq). pose proof P_pos. pose proof (size_of_bounds q Hq) as [Hsz _].
  assert (request_size op = size_of q ∧ request_offset op = fb * B) as [Esz Efb] by (destruct (pl_ops _ _ _ _ _ _ Hpl _ _ Hop) as (? & ? & _ & _ & -> & -> & _); done).
  specialize (Hd _ _ Hop Hav). specialize (Hr _ _ Hop). rewrite (pl_size _ _ _ _ _ _ Hpl) in Hr. rewrite Esz, Efb, Hs, part_id_type, part_id_part, Z.div_mul in * by (done || lia).
  assert (has_slots base P slots b) as Hb by (unfold has_slots, base; unfold fullBufferSize in Hl; destruct Hpl; unfold P; lia).
  apply padded; [done | by eapply slot_length | |].
  - rewrite <- (slot_piece base P Hoff P_pos slots b s 0 (size_of q)) by (done || lia). by rewrite Z.add_0_r.
  - rewrite <- (slot_piece base P Hoff P_pos slots b s (size_of q) (P - size_of q)) by (done || lia). done.
Qed.

Lemma buffer_slots b : Z.of_nat (length b) = fullBufferSize p → has_slots base P slots b ∧ buffer_end p = base + slots * P.
Proof using Hpl. intros Hl. unfold has_slots, buffer_end, base, P. unfold fullBufferSize in *. destruct Hpl. lia. Qed.

Lemma zero_tails_go l : ∀ i b, 0 <= i → i + Z.of_nat (length l) <= slots → (∀ q, q ∈ l → part_of t q) → Z.of_nat (length b) = fullBufferSize p →
  ∃ b', zero_tails p base (i * P) ((fun r => {| ri_part := r; ri_size := size_of r |}) <$> l) b = Ok b' ∧ length b' = length b ∧
    ∀ s, 0 <= s < slots → slot base P b' s =
      match (if decide (i <= s) then l !! Z.to_nat (s - i) else None) with
      | Some q => memset0 (size_of q) (P - size_of q) (slot base P b s) | None => slot base P b s end.
Proof using HB Hpl Hoff.
  induction l as [| q l IH]; intros i b Hi Hil Hq Hl.
  - exists b. split; [done |]. split; [done |]. intros s Hs. by case_decide; rewrite ?lookup_nil.
  - destruct (buffer_slots b Hl) as [Hb Hend]. pose proof P_pos as HP. destruct (size_of_bounds q (Hq q (list_elem_of_here _ _))) as [Hsz _].
    cbn [length] in Hil. cbn [fmap list_fmap zero_tails ri_size]. rewrite (pl_size _ _ _ _ _ _ Hpl). fold P. unfold assertion.
    rewrite (proj2 (Z.leb_le (size_of q) P)) by lia. unfold buffer_read. fold base. rewrite Hend.
    rewrite (proj2 (Z.leb_le base _)), (proj2 (Z.leb_le _ (base + slots * P))) by nia.
    set (b1 := memset0 _ _ b). assert (length b1 = length b) as Hl1.
    { unfold b1, memset0. apply length_write_at; [unfold base in *; nia |]. rewrite length_replicate. unfold has_slots in Hb. nia. }
    replace (i * P + P) with ((i + 1) * P) by lia.
    destruct (IH (i + 1) b1) as (b' & E & Hl' & Hs'); [lia | lia | intros; apply Hq; by right | by rewrite Hl1 |].
    exists b'. split; [exact E |]. split; [by rewrite Hl' |]. intros s Hs. rewrite Hs' by done.
    assert (slot base P b1 s = if decide (s = i) then memset0 (size_of q) (P - size_of q) (slot base P b i) else slot base P b s) as Eb1.
    { unfold b1, memset0. apply (slot_write base P Hoff HP slots); [done | lia | done | lia | rewrite length_replicate; lia]. }
    rewrite Eb1. destruct (decide (s = i)) as [-> |].
    + rewrite decide_False by lia. rewrite decide_True by lia. by replace (i - i) with 0 by lia.
    + destruct (decide (i + 1 <= s)); [rewrite (decide_True (P := i <= s)) by lia | by rewrite decide_False by lia].
      replace (Z.to_nat (s - i)) with (S (Z.to_nat (s - (i + 1)))) by lia. done.
Qed.

Lemma memset_padded q : part_of t q → memset0 (size_of q) (P - size_of q) (part_bytes t q fb bc) = part_bytes t q fb bc.
Proof using HB Hsized Hbeyond Hpl.
  intros Hq. destruct (size_of_bounds q Hq) as [Hs Es]. pose proof (part_bytes_length B HB chunk Hsized t q fb bc Hq) as L. pose proof (first_stored q Hq).
  pose proof (part_bytes_pad B HB chunk Hsized Hbeyond t q fb bc Hq ltac:(destruct Hpl; lia) ltac:(done)) as E. cbv zeta in E.
  replace (Z.min (stored_blocks (part_id t q) - fb) bc) with (size_of q / B) in E
    by (unfold size_of, bytes_to_read; rewrite Z.mul_comm, Z.div_mul; lia).
  rewrite <- Es in E. fold P in E. pose proof (part_bytes_length B HB chunk Hsized t q fb (size_of q / B) Hq) as L'. rewrite <- Es in L'.
  unfold memset0, write_at. rewrite E at 1 3. rewrite take_app_length' by done. rewrite drop_ge; [by rewrite app_nil_r |].
  rewrite L, length_replicate. fold P. lia.
Qed.

Definition read_parts (available : list Z) (b : list byte) : Prop :=
  ∀ type op q s, (type, op) ∈ read_operations p → type ∈ available → type = part_id t q → buffer_offset op = s * P → slot base P b s = part_bytes t q fb bc.

(** Clearing the tails keeps the parts that were read, and clears the others. *)
Lemma zero_tails_spec available b : received p available b →
  ∃ b', zero_tails p base 0 (requested_parts p) b = Ok b' ∧ length b' = length b ∧ read_parts available b' ∧
    (∀ i q, rs !! i = Some q → bytes_at (size_of q) (P - size_of q) (slot base P b' (Z.of_nat i)) = replicate (Z.to_nat (P - size_of q)) x00).
Proof using HB Hsized Hbeyond Hpl Hoff.
  intros Hr. pose proof Hr as [Hl _ _]. destruct (buffer_slots b Hl) as [Hb _]. pose proof P_pos as HP.
  pose proof (pl_slots _ _ _ _ _ _ Hpl) as Hsl. destruct (pl_parts _ _ _ _ _ _ Hpl) as (_ & _ & Hrs).
  destruct (zero_tails_go rs 0 b) as (b' & E & Hl' & Hs'); [lia | lia | done | done |].
  exists b'. rewrite (pl_requested _ _ _ _ _ _ Hpl). split; [exact E |]. split; [done |]. split.
  - intros type op q s Hop Hav Et Eo. destruct (pl_ops _ _ _ _ _ _ Hpl _ _ Hop) as (q' & s' & Et' & Hq' & _ & _ & Eo' & Hs & Hreq & Hnreq).
    assert (q' = q) as -> by (unfold part_id in *; lia). assert (s' = s) as -> by (fold P in Eo'; nia).
    rewrite Hs' by done. rewrite decide_True by lia. rewrite Z.sub_0_r. rewrite (loaded available b type op q s) by done.
    destruct (rs !! Z.to_nat s) as [q1 |] eqn:E1; [| done]. destruct (decide (q ∈ rs)) as [[i Hi]%list_elem_of_lookup | Hn].
    + rewrite (Hreq i Hi), Nat2Z.id, Hi in E1. injection E1 as <-. by apply memset_padded.
    + apply Hnreq in Hn. apply lookup_lt_Some in E1. lia.
  - intros i q Hi. pose proof (lookup_lt_Some _ _ _ Hi). rewrite Hs' by lia. rewrite decide_True by lia. rewrite Z.sub_0_r, Nat2Z.id, Hi.
    assert (part_of t q) as Hq by (apply Hrs; by eapply list_elem_of_lookup_2). destruct (size_of_bounds q Hq) as [Hsz _].
    pose proof (bytes_at_same (size_of q) (replicate (Z.to_nat (P - size_of q)) x00) (slot base P b (Z.of_nat i))) as H1.
    rewrite length_replicate, Z2Nat.id in H1 by lia. apply H1; [lia |]. rewrite (slot_length base P Hoff HP slots) by (done || lia). lia.
Qed.

(** *** Which parts are there *)

Context (available : list Z) (Hav_distinct : NoDup available) (Hav_read : ∀ x, x ∈ available → x ∈ fst <$> read_operations p).

Lemma available_op x : x ∈ available → ∃ op q, (x, op) ∈ read_operations p ∧ x = part_id t q ∧ part_of t q.
Proof using Hpl Hav_read.
  intros Hx. apply Hav_read, list_elem_of_fmap in Hx as ([x' op] & -> & Hop). cbn.
  destruct (pl_ops _ _ _ _ _ _ Hpl _ _ Hop) as (q & _ & E & Hq & _). by exists op, q.
Qed.

Lemma type_nonneg : 0 <= t.
Proof using Hpl. pose proof (pl_valid _ _ _ _ _ _ Hpl). type_lia. Qed.

Lemma available_map : ∃ bs, part_bits t available no_bits = Ok bs ∧
  ∀ q, 0 <= q < 64 → test bs (Z.to_nat q) = bool_decide (part_id t q ∈ available).
Proof using Hpl Hav_read.
  destruct (part_bits_spec t available no_bits type_nonneg eq_refl) as (bs & E & _ & H).
  - intros x Hx. destruct (available_op x Hx) as (_ & q & _ & E & Hq). destruct (part_of_range t q Hq). by exists q.
  - exists bs. split; [done |]. intros q Hq. by rewrite H, test_no_bits by done.
Qed.

Lemma finished_cases : isReadingFinished p available = Ok true →
  (∀ r, r ∈ rs → part_id t r ∈ available) ∨ getNumberOfDataParts t <= Z.of_nat (length available).
Proof using Hpl Hav_read.
  unfold isReadingFinished, requiredPartsToRecover. rewrite (pl_type _ _ _ _ _ _ Hpl). destruct (Z.leb_spec (getNumberOfDataParts t) (Z.of_nat (length available))); [by right |].
  destruct available_map as (bs & -> & Hbs). cbn [mbind res_bind]. intros [= Hall]. left. intros r Hr.
  rewrite (pl_requested _ _ _ _ _ _ Hpl), forallb_forall in Hall. destruct (pl_parts _ _ _ _ _ _ Hpl) as (_ & _ & Hrs). destruct (part_of_range t r (Hrs r Hr)).
  rewrite <- (bool_decide_eq_true (part_id t r ∈ available)), <- Hbs by done. apply (Hall {| ri_part := r; ri_size := bytes_to_read B (part_id t r) fb bc |}), list_elem_of_In, list_elem_of_fmap.
  by exists r.
Qed.

(** The slot of a requested part that was read. *)
Lemma requested_slot b i r : read_parts available b → rs !! i = Some r → part_id t r ∈ available → slot base P b (Z.of_nat i) = part_bytes t r fb bc.
Proof using Hpl Hav_read.
  intros Hb Hi Hr. destruct (available_op _ Hr) as (op & q & Hop & E & _). assert (q = r) as -> by (unfold part_id in E; lia).
  destruct (pl_ops _ _ _ _ _ _ Hpl _ _ Hop) as (q & s & E' & _ & _ & _ & Eo & _ & Hreq & _). assert (q = r) as -> by (unfold part_id in E'; lia).
  apply (Hb (part_id t r) op r); [done | done | done |]. rewrite Eo. by rewrite (Hreq i Hi).
Qed.

(** Other parts are read to other slots than a requested part that is missing. *)
Lemma other_slot i r type op q s : rs !! i = Some r → part_id t r ∉ available →
  (type, op) ∈ read_operations p → type ∈ available → type = part_id t q → buffer_offset op = s * P → s ≠ Z.of_nat i ∧ 0 <= s < slots ∧ part_of t q.
Proof using HB Hpl.
  intros Hi Hmiss Hop Hav Et Eo. pose proof P_pos. destruct (pl_ops _ _ _ _ _ _ Hpl _ _ Hop) as (q' & s' & Et' & Hq & _ & _ & Eo' & Hs & Hreq & Hnreq).
  assert (q' = q) as -> by (unfold part_id in *; lia). assert (s' = s) as -> by (fold P in Eo'; nia).
  split; [| done]. intros ->. destruct (decide (q ∈ rs)) as [[j Hj]%list_elem_of_lookup | Hn].
  - apply Hreq in Hj as Ej. apply Nat2Z.inj in Ej as <-. rewrite Hi in Hj. injection Hj as ->. by rewrite Et in Hav.
  - apply Hnreq in Hn. apply lookup_lt_Some in Hi. lia.
Qed.

(** The first bytes of a part are what was read of it and zeros. *)
Lemma part_prefix q n : part_of t q → 0 <= n <= P →
  bytes_at 0 n (part_bytes t q fb bc) =
    bytes_at 0 (Z.min (size_of q) n) (part_bytes t q fb bc) ++ replicate (Z.to_nat (n - Z.min (size_of q) n)) x00.
Proof using HB Hsized Hbeyond Hpl.
  intros Hq Hn. destruct (size_of_bounds q Hq) as [Hs Es]. pose proof (part_bytes_length B HB chunk Hsized t q fb bc Hq) as L. fold P in L.
  replace n with (Z.min (size_of q) n + (n - Z.min (size_of q) n)) at 1 by lia. rewrite bytes_at_split by lia. f_equal. rewrite Z.add_0_l.
  destruct (decide (n <= size_of q)); [rewrite !Z.min_r, Z.sub_diag by lia; done |]. rewrite Z.min_l by lia.
  pose proof (bytes_at_same (size_of q) (replicate (Z.to_nat (P - size_of q)) x00) (part_bytes t q fb bc)) as H1.
  rewrite length_replicate, Z2Nat.id in H1 by lia. specialize (H1 ltac:(lia) ltac:(lia)). fold (memset0 (size_of q) (P - size_of q) (part_bytes t q fb bc)) in H1.
  rewrite memset_padded in H1 by done.
  transitivity (bytes_at 0 (n - size_of q) (bytes_at (size_of q) (P - size_of q) (part_bytes t q fb bc))).
  - rewrite bytes_at_inner by lia. f_equal. lia.
  - rewrite H1. unfold bytes_at. change (Z.to_nat 0) with 0%nat. rewrite drop_0, take_replicate. f_equal. lia.
Qed.

(** *** Recovery of a part of an xor slice *)

Section xor.
Context (addr : Z) (i : nat) (r : Z) (Hi : rs !! i = Some r) (Hmissing : part_id t r ∉ available).
Let ms := size_of r.
Let content (x : Z) := part_bytes t (ChunkPartType.getSlicePart x) fb bc.

Record xor_state (acc : list Z) (b : list byte) : Prop := {
  xs_length : Z.of_nat (length b) = fullBufferSize p;
  xs_parts : read_parts available b;
  xs_tail : bytes_at ms (P - ms) (slot base P b (Z.of_nat i)) = replicate (Z.to_nat (P - ms)) x00;
  xs_sum : acc ≠ [] → bytes_at 0 ms (slot base P b (Z.of_nat i)) = bytes_at 0 ms (block_sum (Z.to_nat P) content acc);
}.

Lemma missing_part : part_of t r ∧ 0 <= Z.of_nat i < slots ∧ 0 <= ms <= P.
Proof using HB Hpl Hi.
  destruct (pl_parts _ _ _ _ _ _ Hpl) as (_ & _ & Hrs). assert (part_of t r) as Hr by (apply Hrs; by eapply list_elem_of_lookup_2).
  pose proof (pl_slots _ _ _ _ _ _ Hpl). apply lookup_lt_Some in Hi. destruct (size_of_bounds r Hr) as [? _]. split; [done |]. split; [lia | done].
Qed.

Lemma content_part q : 0 <= q < 64 → content (part_id t q) = part_bytes t q fb bc.
Proof using Hpl. intros Hq. unfold content. rewrite part_id_part; [done | apply type_nonneg | done]. Qed.

(** What an operation for an available part is about. *)
Lemma source_part type op b : Z.of_nat (length b) = fullBufferSize p → read_parts available b → (type, op) ∈ read_operations p → type ∈ available →
  let size := Z.min (request_size op) ms in
  ∃ q s, type = part_id t q ∧ part_of t q ∧ buffer_offset op = s * P ∧ 0 <= s < slots ∧ 0 <= size <= ms ∧
    bytes_at (base + buffer_offset op) size b = bytes_at 0 size (part_bytes t q fb bc) ∧
    bytes_at 0 ms (part_bytes t q fb bc) = bytes_at 0 size (part_bytes t q fb bc) ++ replicate (Z.to_nat (ms - size)) x00.
Proof using HB Hsized Hbeyond Hpl Hoff Hi Hmissing.
  intros Hl Hp Hop Hav size. destruct (pl_ops _ _ _ _ _ _ Hpl _ _ Hop) as (q & s & Et & Hq & Esz & _ & Eo & Hs & _). fold P in Eo.
  destruct missing_part as (_ & _ & Hms). destruct (size_of_bounds q Hq) as [Hsz _]. rewrite Et in Esz. fold (size_of q) in Esz. pose proof P_pos as HP.
  exists q, s. split; [done |]. split; [done |]. split; [done |]. split; [done |]. split; [unfold size; lia |]. split.
  - rewrite Eo, <- (Hp _ _ _ _ Hop Hav Et Eo), <- (slot_piece base P Hoff HP slots) by (done || (unfold size; lia) || by apply buffer_slots).
    by rewrite Z.add_0_r.
  - unfold size. rewrite Esz. by apply part_prefix.
Qed.

(** A write of the first bytes of the slot of the missing part. *)
Lemma write_missing acc b d : Z.of_nat (length b) = fullBufferSize p → read_parts available b →
  bytes_at ms (P - ms) (slot base P b (Z.of_nat i)) = replicate (Z.to_nat (P - ms)) x00 → (length d ≤ Z.to_nat ms)%nat →
  bytes_at 0 ms (write_at 0 d (slot base P b (Z.of_nat i))) = bytes_at 0 ms (block_sum (Z.to_nat P) content acc) →
  xor_state acc (write_at (base + Z.of_nat i * P) d b).
Proof using HB Hpl Hoff Hi Hmissing.
  intros Hl Hp Ht Hd Hs. destruct missing_part as (Hr & Hi' & Hms). pose proof P_pos as HP. destruct (buffer_slots b Hl) as [Hb _].
  pose proof (slot_length base P Hoff HP slots b (Z.of_nat i) Hb Hi') as L.
  assert (∀ s', 0 <= s' < slots → slot base P (write_at (base + Z.of_nat i * P) d b) s' =
    if decide (s' = Z.of_nat i) then write_at 0 d (slot base P b (Z.of_nat i)) else slot base P b s') as Hs1.
  { intros s' Hs'. rewrite <- (Z.add_0_r (base + Z.of_nat i * P)). apply (slot_write base P Hoff HP slots); (done || lia). }
  split.
  - rewrite length_write_at; [done | unfold base; nia |]. unfold has_slots in Hb. nia.
  - intros type op q s Hop Hav Et Eo. destruct (other_slot i r type op q s Hi Hmissing Hop Hav Et Eo) as (Hne & Hs' & _).
    rewrite Hs1 by done. rewrite decide_False by done. by apply (Hp type op).
  - rewrite Hs1 by done. rewrite decide_True by done. rewrite bytes_at_other by lia. done.
  - intros _. rewrite Hs1 by done. by rewrite decide_True.
Qed.

Lemma copy_state type op b : xor_state [] b → (type, op) ∈ read_operations p → type ∈ available →
  let size := Z.min (request_size op) ms in
  xor_state [type] (memset0 (base + Z.of_nat i * P + size) (ms - size) (memcpy (base + Z.of_nat i * P) (base + buffer_offset op) size b)).
Proof using HB Hsized Hbeyond Hpl Hoff Hi Hmissing.
  intros [Hl Hp Ht _] Hop Hav size. destruct (source_part type op b Hl Hp Hop Hav) as (q & s & Et & Hq & Eo & Hs & Hsize & Esrc & Epre). fold size in Hsize, Esrc, Epre.
  destruct missing_part as (Hr & Hi' & Hms). pose proof P_pos as HP. destruct (buffer_slots b Hl) as [Hb _]. destruct (part_of_range t q Hq) as [Hq64 _].
  unfold memcpy, memset0. rewrite Esrc. set (d := bytes_at 0 size (part_bytes t q fb bc)) in *.
  pose proof (part_bytes_length B HB chunk Hsized t q fb bc Hq) as L. fold P in L. assert (length d = Z.to_nat size) as Hd by (apply length_bytes_at; lia).
  replace (base + Z.of_nat i * P + size) with (base + Z.of_nat i * P + Z.of_nat (length d)) by lia.
  rewrite write_at_app; [| unfold base; nia | rewrite length_replicate, Hd; unfold has_slots in Hb; nia]. rewrite <- Epre.
  pose proof (slot_length base P Hoff HP slots b (Z.of_nat i) Hb Hi') as Ls.
  assert (length (bytes_at 0 ms (part_bytes t q fb bc)) = Z.to_nat ms) as Lm by (apply length_bytes_at; lia).
  apply write_missing; [done | done | done | lia |]. replace ms with (Z.of_nat (length (bytes_at 0 ms (part_bytes t q fb bc)))) at 1 by lia.
  rewrite bytes_at_whole by lia. cbn [block_sum]. rewrite Et, content_part by done. rewrite badd_comm, badd_0 by done. done.
Qed.

Lemma xor_state_step type op acc b : acc ≠ [] → xor_state acc b → (type, op) ∈ read_operations p → type ∈ available →
  ∃ b', xor_into addr (base + Z.of_nat i * P) (base + buffer_offset op) (Z.min (request_size op) ms) b = Ok b' ∧ xor_state (type :: acc) b'.
Proof using HB Hsized Hbeyond Hpl Hoff Hi Hmissing.
  intros Hacc [Hl Hp Ht Hsum] Hop Hav. destruct (source_part type op b Hl Hp Hop Hav) as (q & s & Et & Hq & Eo & Hs & Hsize & Esrc & Epre).
  set (size := Z.min (request_size op) ms) in *. specialize (Hsum Hacc).
  destruct missing_part as (Hr & Hi' & Hms). pose proof P_pos as HP. destruct (buffer_slots b Hl) as [Hb _]. destruct (part_of_range t q Hq) as [Hq64 _].
  pose proof (slot_length base P Hoff HP slots b (Z.of_nat i) Hb Hi') as Ls. set (x := slot base P b (Z.of_nat i)) in *.
  assert (bytes_at (base + Z.of_nat i * P) size b = bytes_at 0 size x) as Edst.
  { unfold x. rewrite <- (slot_piece base P Hoff HP slots) by (done || lia). by rewrite Z.add_0_r. }
  pose proof (part_bytes_length B HB chunk Hsized t q fb bc Hq) as L. fold P in L. set (y := part_bytes t q fb bc) in *.
  assert (length (bytes_at 0 size x) = Z.to_nat size) as L1 by (apply length_bytes_at; lia).
  assert (length (bytes_at 0 size y) = Z.to_nat size) as L2 by (apply length_bytes_at; lia).
  unfold xor_into. rewrite Edst, Esrc, block_xor_exact by lia. unfold BlockXor.blockXorUnaligned.
  rewrite !take_ge, drop_ge, app_nil_r by lia. cbn [mbind res_bind]. eexists. split; [reflexivity |].
  set (z := zip_with add (bytes_at 0 size x) (bytes_at 0 size y)). assert (length z = Z.to_nat size) as L3 by (unfold z; rewrite length_zip_with; lia).
  apply write_missing; [done | done | done | lia |]. fold x. replace ms with (size + (ms - size)) at 1 by lia.
  rewrite bytes_at_split by (rewrite ?length_write_at; lia). rewrite (bytes_at_other (0 + size)) by lia.
  replace size with (Z.of_nat (length z)) at 1 by lia. rewrite bytes_at_whole by lia.
  cbn [block_sum]. rewrite Et, content_part, bytes_at_add, <- Hsum by done. fold y. rewrite Epre.
  replace (bytes_at 0 ms x) with (bytes_at 0 size x ++ bytes_at (0 + size) (ms - size) x) by (rewrite <- bytes_at_split by lia; f_equal; lia).
  rewrite zip_with_app by lia. rewrite badd_0 by (apply length_bytes_at; lia). unfold z. by rewrite badd_comm.
Qed.

Definition is_available (bs : bits) : Prop := ∀ q, 0 <= q < 64 → test bs (Z.to_nat q) = bool_decide (part_id t q ∈ available).

Lemma xor_parts_go bs L : is_available bs → ∀ acc b, (∀ e, e ∈ L → e ∈ read_operations p) → xor_state acc b →
  ∃ b', xor_parts addr p base (Z.of_nat i * P) ms bs (bool_decide (acc = [])) L b = Ok b' ∧
    xor_state (reverse (filter (.∈ available) (fst <$> L)) ++ acc) b'.
Proof using HB Hsized Hbeyond Hpl Hoff Hi Hmissing.
  intros Hbs. induction L as [| [type op] L IH]; intros acc b HL Hst; [by exists b |].
  assert ((type, op) ∈ read_operations p) as Hop by (apply HL; left).
  destruct (pl_ops _ _ _ _ _ _ Hpl _ _ Hop) as (q & s & Et & Hq & _). destruct (part_of_range t q Hq) as [Hq64 _].
  cbn [xor_parts]. rewrite Et. unfold slice_part. rewrite part_id_part, Hbs by (apply type_nonneg || done). rewrite <- Et.
  rewrite fmap_cons, filter_cons. cbn [fst]. destruct (decide (type ∈ available)) as [Hav | Hav].
  2: { rewrite bool_decide_false by done. cbn [negb]. apply IH; [intros; apply HL; by right | done]. }
  rewrite bool_decide_true by done. cbn [negb]. destruct missing_part as (_ & Hi' & Hms). pose proof P_pos as HP.
  pose proof Hst as [Hl Hp _ _]. destruct (buffer_slots b Hl) as [_ Hend].
  destruct (source_part type op b Hl Hp Hop Hav) as (q' & s' & _ & _ & Eo & Hs & Hsize & _).
  set (size := Z.min (request_size op) ms) in *. unfold in_read_buffer, buffer_read. fold base. rewrite Hend, Eo.
  rewrite !(proj2 (Z.leb_le _ _)) by nia. cbn [andb assertion]. rewrite reverse_cons, <- app_assoc. cbn [app].
  destruct (decide (acc = [])) as [-> | Hacc].
  - rewrite bool_decide_true by done. replace (bool_decide (@nil Z = [])) with true by done.
    pose proof (copy_state type op b Hst Hop Hav) as Hst'. cbv zeta in Hst'. rewrite Eo in Hst'. fold size in Hst'.
    destruct (IH [type] _ ltac:(intros; apply HL; by right) Hst') as (b' & E & Hb'). exists b'. split; [| done]. exact E.
  - rewrite bool_decide_false by done. destruct (xor_state_step type op acc b Hacc Hst Hop Hav) as (b1 & E1 & Hst'). rewrite Eo in E1. fold size in E1. rewrite E1.
    cbn [mbind res_bind]. destruct (IH (type :: acc) b1 ltac:(intros; apply HL; by right) Hst') as (b' & E & Hb'). exists b'. split; [| done].
    rewrite (bool_decide_false (_ :: _ = [])) in E by done. exact E.
Qed.

(** All other parts are available. *)
Lemma others_available : isXor t = true → getNumberOfDataParts t <= Z.of_nat (length available) →
  part_id t r :: available ≡ₚ part_id t <$> seqZ 0 (getNumberOfDataParts t + 1).
Proof using HB Hpl Hav_distinct Hav_read Hi Hmissing.
  intros Hx Hk. destruct missing_part as (Hr & _ & _). assert (getNumberOfParityParts t = 1) as Em by (unfold getNumberOfParityParts; by rewrite Hx).
  apply submseteq_length_Permutation.
  - apply NoDup_submseteq; [by constructor |]. intros x Hx'. assert (∃ q, x = part_id t q ∧ part_of t q) as (q & -> & [_ Hq]).
    { apply elem_of_cons in Hx' as [-> | Hx']; [by exists r |]. destruct (available_op x Hx') as (_ & q & _ & E & Hq). by exists q. }
    apply list_elem_of_fmap_2, elem_of_seqZ. lia.
  - rewrite length_fmap, length_seqZ. cbn [length]. lia.
Qed.

(** The sum of the other parts is the missing one. *)
Lemma others_sum : isXor t = true → getNumberOfDataParts t <= Z.of_nat (length available) →
  block_sum (Z.to_nat P) content available = part_bytes t r fb bc.
Proof using HB Hsized Hpl Hav_distinct Hav_read Hi Hmissing.
  intros Hx Hk. destruct missing_part as (Hr & _ & _). destruct (part_of_range t r Hr) as [Hr64 _]. pose proof (pl_valid _ _ _ _ _ _ Hpl) as Hv. pose proof P_pos.
  symmetry. transitivity (content (part_id t r)); [by rewrite content_part |].
  assert (∀ x, length (content x) = Z.to_nat P) as Hlen.
  { intros x. apply blocks_of_length; [done |]. intros j. unfold part_block. rewrite Hx. destruct (_ =? _); [| apply Hsized].
    apply block_sum_length. intros d. apply Hsized. }
  apply block_sum_solve; [done |]. rewrite others_available, block_sum_fmap by done. unfold P. rewrite <- (xor_rows B HB chunk Hsized t fb bc Hv Hx) by (destruct Hpl; lia).
  apply block_sum_ext. intros q Hq%elem_of_seqZ. pose proof (number_of_parts_bounds t Hv). apply content_part. lia.
Qed.

Lemma recovered_slot b : part_of t r → length (slot base P b (Z.of_nat i)) = Z.to_nat P → xor_state available b → available ≠ [] →
  isXor t = true → getNumberOfDataParts t <= Z.of_nat (length available) → slot base P b (Z.of_nat i) = part_bytes t r fb bc.
Proof using HB Hsized Hbeyond Hpl Hav_distinct Hav_read Hi Hmissing.
  intros Hr Hl [_ _ Ht Hs] Hne Hx Hk. specialize (Hs Hne). rewrite others_sum in Hs by done. destruct missing_part as (_ & _ & Hms). pose proof P_pos.
  assert (∀ x, length x = Z.to_nat P → x = bytes_at 0 ms x ++ bytes_at ms (P - ms) x) as Hsplit.
  { intros x Hx'. replace ms with (0 + ms) at 2 by lia. rewrite <- bytes_at_split by lia. unfold bytes_at. change (Z.to_nat 0) with 0%nat.
    rewrite drop_0, take_ge; [done | lia]. }
  rewrite (Hsplit _ Hl), Hs, Ht. pose proof (part_prefix r P Hr ltac:(lia)) as E. fold ms in E. rewrite Z.min_l in E by lia. rewrite <- E.
  unfold bytes_at. change (Z.to_nat 0) with 0%nat. rewrite drop_0, take_ge; [done |]. rewrite (part_bytes_length B HB chunk Hsized) by done. done.
Qed.
End xor.

Lemma find_missing_spec bs l : ∀ j, is_available bs → (∀ q, q ∈ l → part_of t q) →
  match find_missing bs j ((fun r => {| ri_part := r; ri_size := size_of r |}) <$> l) with
  | None => ∀ q, q ∈ l → part_id t q ∈ available
  | Some (index, info) => ∃ i r, l !! i = Some r ∧ index = j + Z.of_nat i ∧ info = {| ri_part := r; ri_size := size_of r |} ∧ part_id t r ∉ available
  end.
Proof using p.
  intros j Hbs Hl. revert j. induction l as [| q l IH]; intros j; [by intros q ?%elem_of_nil |]. cbn [fmap list_fmap find_missing ri_part].
  destruct (part_of_range t q (Hl q (list_elem_of_here _ _))) as [Hq _]. rewrite Hbs by done. case_bool_decide as Hav.
  - specialize (IH ltac:(intros; apply Hl; by right) (j + 1)). destruct (find_missing _ _ _) as [[index info] |].
    + destruct IH as (i & r & Hi & -> & E & Hr). exists (S i), r. split; [done |]. split; [lia | done].
    + intros q' [-> | ?]%elem_of_cons; auto.
  - exists 0%nat, q. split; [done |]. split; [lia | done].
Qed.

(** Post-processing of an xor slice restores the requested parts. *)
Lemma xor_restored addr b : isXor t = true → received p available b → isReadingFinished p available = Ok true →
  ∃ b', xor_postProcessRead addr p base available b = Ok (processed_size p, b') ∧ length b' = length b ∧
    ∀ i r, rs !! i = Some r → slot base P b' (Z.of_nat i) = part_bytes t r fb bc.
Proof using HB Hsized Hbeyond Hpl Hoff Hav_distinct Hav_read.
  intros Hx Hrc Hfin. pose proof Hrc as [Hl _ _]. destruct (zero_tails_spec available b Hrc) as (b1 & E1 & Hl1 & Hp1 & Ht1).
  destruct available_map as (bs & Ebs & Hbs). destruct (pl_parts _ _ _ _ _ _ Hpl) as (Hnd & _ & Hrs). pose proof P_pos as HP.
  unfold xor_postProcessRead. rewrite E1. cbn [mbind res_bind]. rewrite (pl_type _ _ _ _ _ _ Hpl), Ebs. cbn [mbind res_bind].
  rewrite (pl_requested _ _ _ _ _ _ Hpl). pose proof (find_missing_spec bs rs 0 Hbs Hrs) as Hf. fold size_of in Hf |- *.
  destruct (find_missing _ _ _) as [[index info] |].
  - destruct Hf as (i & r & Hi & -> & -> & Hmiss). cbn [ri_size].
    assert (getNumberOfDataParts t <= Z.of_nat (length available)) as Hk.
    { destruct (finished_cases Hfin) as [Hall |]; [| done]. exfalso. apply Hmiss, Hall. by eapply list_elem_of_lookup_2. }
    rewrite (pl_size _ _ _ _ _ _ Hpl). fold P. rewrite Z.add_0_l.
    assert (xor_state i r [] b1) as Hst by (split; [by rewrite Hl1 | done | by apply Ht1 | done]).
    destruct (xor_parts_go addr i r Hi Hmiss bs (read_operations p) Hbs [] b1 (fun _ H => H) Hst) as (b' & E & Hst').
    replace (bool_decide (@nil Z = [])) with true in E by done. rewrite E. cbn [mbind res_bind]. exists b'. split; [done |].
    assert (reverse (filter (.∈ available) (fst <$> read_operations p)) ++ [] ≡ₚ available) as Hperm.
    { rewrite app_nil_r, reverse_Permutation. apply NoDup_Permutation; [apply NoDup_filter, Hpl | done |].
      intros x. rewrite list_elem_of_filter. naive_solver. }
    assert (available ≠ []) as Hne by (intros ->; pose proof (number_of_parts_bounds t (pl_valid _ _ _ _ _ _ Hpl)); cbn in Hk; lia).
    assert (xor_state i r available b') as Hst2.
    { destruct Hst' as [H1 H2 H3 H4]. split; [done.. |]. intros _. rewrite H4, Hperm; [done |]. intros H0. apply Hne, Permutation_nil_r. by rewrite <- Hperm, H0. }
    pose proof Hst2 as [Hl2 Hp2 _ _]. split; [lia |]. destruct (buffer_slots b' Hl2) as [Hb' _]. intros j r' Hj.
    pose proof (pl_slots _ _ _ _ _ _ Hpl). pose proof (lookup_lt_Some _ _ _ Hj). assert (part_of t r') as Hr' by (apply Hrs; by eapply list_elem_of_lookup_2).
    destruct (decide (r' = r)) as [-> | Hne'].
    + assert (j = i) as -> by (by eapply (NoDup_lookup rs)). apply (recovered_slot i r Hi Hmiss); try done. apply (slot_length base P Hoff HP slots); (done || lia).
    + apply requested_slot; [done | done |]. assert (part_id t r' ∈ part_id t r :: available) as Hin.
      { rewrite (others_available i r Hi Hmiss Hx Hk). apply list_elem_of_fmap_2, elem_of_seqZ. destruct Hr' as [_ Hr'].
        assert (getNumberOfParityParts t = 1) by (unfold getNumberOfParityParts; by rewrite Hx). lia. }
      apply elem_of_cons in Hin as [E' |]; [| done]. exfalso. apply Hne'. unfold part_id in E'. lia.
  - exists b1. split; [done |]. split; [done |]. intros i r Hi. apply (requested_slot b1); [done | done |]. apply Hf. by eapply list_elem_of_lookup_2.
Qed.
(** *** Recovery of the parts of a slice with erasure coding *)

Section ec.
Context (He : isEC t = true) (bs : bits) (Hbs : is_available bs).
Let k := Z.to_nat (getNumberOfDataParts t).
Let m := Z.to_nat (getNumberOfParityParts t).

Lemma ec_accepted : accepted k m ∧ isXor t = false ∧ ec_getNumberOfDataParts t = Z.of_nat k ∧ ec_getNumberOfParityParts t = Z.of_nat m.
Proof using Hpl He.
  pose proof (pl_valid _ _ _ _ _ _ Hpl) as Hv. pose proof (number_of_parts_bounds t Hv). assert (isXor t = false) as Ex by type_lia.
  assert (1 <= getNumberOfParityParts t) by type_lia. unfold k, m.
  assert (getNumberOfDataParts t = ec_getNumberOfDataParts t) as Ek by (unfold getNumberOfDataParts; by rewrite Ex, He).
  assert (getNumberOfParityParts t = ec_getNumberOfParityParts t) as Em by (unfold getNumberOfParityParts; by rewrite Ex, He).
  split; [| split; [done | lia]].
  unfold accepted. change ReedSolomon.kMaxDataCount with 32%nat. change ReedSolomon.kMaxParityCount with 32%nat. lia.
Qed.

Lemma ec_part q : 0 <= q < 64 → part_of t q ↔ (Z.to_nat q < k + m)%nat.
Proof using Hpl. intros Hq. pose proof (pl_valid _ _ _ _ _ _ Hpl) as Hv. pose proof (number_of_parts_bounds t Hv). unfold part_of, k, m. split; [lia | intros; split; [done | lia]]. Qed.

Lemma enough_chosen : getNumberOfDataParts t <= Z.of_nat (length available) → (k <= length (chosen (k + m) bs))%nat.
Proof using Hpl Hav_distinct Hav_read Hbs.
  intros Hk. transitivity (length available); [unfold k; lia |]. rewrite <- (length_fmap (fun i => part_id t (Z.of_nat i)) (chosen (k + m) bs)).
  apply submseteq_length, NoDup_submseteq; [done |]. intros x Hx. destruct (available_op x Hx) as (_ & q & _ & -> & Hq). destruct (part_of_range t q Hq) as [Hq64 _].
  apply list_elem_of_fmap. exists (Z.to_nat q). split; [f_equal; lia |]. apply elem_of_chosen. split; [by apply ec_part |].
  rewrite Hbs by done. by apply bool_decide_true.
Qed.

(** The pointers to the parts that were read. *)
Lemma data_fragments_spec b q op : (part_id t q, op) ∈ read_operations p → part_of t q →
  fragment (data_fragments p base b) (Z.to_nat q) = Some (bytes_at (base + buffer_offset op) P b).
Proof using Hpl.
  intros Hop Hq. destruct (part_of_range t q Hq) as [Hq64 Ht].
  assert (∀ e, e ∈ read_operations p → (slice_part e.1 < 64)%nat ∧ e.1 = part_id t (Z.of_nat (slice_part e.1))) as Hparts.
  { intros [type o] He0. destruct (pl_ops _ _ _ _ _ _ Hpl _ _ He0) as (q' & _ & -> & Hq' & _). destruct (part_of_range t q' Hq').
    cbn [fst]. unfold slice_part. rewrite part_id_part by done. split; [lia | f_equal; lia]. }
  destruct (fill_fragments (fun f '(type, o) => <[slice_part type := Some (bytes_at (base + buffer_offset o) (buffer_part_size p) b)]> f)
    (fun e => slice_part e.1) (fun e => bytes_at (base + buffer_offset e.2) (buffer_part_size p) b) ltac:(by intros f []) (read_operations p) no_fragments) as (_ & H & _).
  - change (NoDup ((slice_part ∘ fst) <$> read_operations p)). rewrite list_fmap_compose. apply NoDup_fmap_2_strong; [| apply Hpl].
    intros x y (e & -> & Hx)%list_elem_of_fmap (e' & -> & Hy)%list_elem_of_fmap E.
    rewrite (proj2 (Hparts e Hx)), (proj2 (Hparts e' Hy)). by rewrite E.
  - intros e He0. apply Hparts, He0.
  - specialize (H _ Hop). cbn [fst snd] in H. unfold slice_part in H. rewrite part_id_part in H by done. unfold P. rewrite <- (pl_size _ _ _ _ _ _ Hpl). exact H.
Qed.

Lemma missing_parts_spec i x : (i, x) ∈ missing_parts p bs ↔ ∃ r, rs !! i = Some r ∧ x = Z.to_nat r ∧ part_id t r ∉ available.
Proof using Hpl Hbs.
  unfold missing_parts. rewrite (pl_requested _ _ _ _ _ _ Hpl), list_elem_of_filter, elem_of_lookup_imap. destruct (pl_parts _ _ _ _ _ _ Hpl) as (_ & _ & Hrs).
  assert (∀ r, r ∈ rs → test bs (Z.to_nat r) = false ↔ part_id t r ∉ available) as Ht.
  { intros r Hr. destruct (part_of_range t r (Hrs r Hr)). rewrite Hbs by done. by rewrite bool_decide_eq_false. }
  split.
  - intros [H1 (j & info & [= -> ->] & Hj)]. rewrite list_lookup_fmap in Hj. destruct (rs !! j) as [r |] eqn:E; [| done]. injection Hj as <-. cbn [ri_part] in *.
    exists r. split; [done |]. split; [done |]. apply Ht; [by eapply list_elem_of_lookup_2 | done].
  - intros (r & Hr & -> & Hm). split; [apply Ht; [by eapply list_elem_of_lookup_2 | done] |].
    exists i, {| ri_part := r; ri_size := bytes_to_read B (part_id t r) fb bc |}. split; [done |]. by rewrite list_lookup_fmap, Hr.
Qed.

Lemma result_fragments_spec b : length (result_fragments p base bs b) = kMaxPartCount ∧
  ∀ i r, rs !! i = Some r → part_id t r ∉ available → is_Some (fragment (result_fragments p base bs b) (Z.to_nat r)).
Proof using Hpl Hbs.
  destruct (pl_parts _ _ _ _ _ _ Hpl) as (Hnd & _ & Hrs).
  destruct (fill_fragments (fun f '(i, part) => <[part := Some (bytes_at (base + Z.of_nat i * buffer_part_size p) (buffer_part_size p) b)]> f)
    snd (fun e => bytes_at (base + Z.of_nat e.1 * buffer_part_size p) (buffer_part_size p) b) ltac:(by intros f []) (missing_parts p bs) no_fragments) as (H1 & H2 & _).
  - apply NoDup_fmap_2_strong.
    + intros [i x] [j y] (r & Hr & -> & _)%missing_parts_spec (r' & Hr' & -> & _)%missing_parts_spec. cbn [snd]. intros E.
      destruct (part_of_range t r ltac:(apply Hrs; by eapply list_elem_of_lookup_2)). destruct (part_of_range t r' ltac:(apply Hrs; by eapply list_elem_of_lookup_2)).
      assert (r' = r) as -> by lia. f_equal. by eapply NoDup_lookup.
    + unfold missing_parts. apply NoDup_filter. apply NoDup_alt. intros i j x Hi Hj. rewrite list_lookup_imap in Hi, Hj.
      destruct (requested_parts p !! i), (requested_parts p !! j); cbn in Hi, Hj; congruence.
  - intros [i x] (r & Hr & -> & _)%missing_parts_spec. destruct (part_of_range t r ltac:(apply Hrs; by eapply list_elem_of_lookup_2)).
    cbn [snd]. unfold no_fragments. rewrite length_replicate. change kMaxPartCount with 64%nat. lia.
  - split; [exact H1 |]. intros i r Hi Hm. exists (bytes_at (base + Z.of_nat i * buffer_part_size p) (buffer_part_size p) b).
    apply (H2 (i, Z.to_nat r)), missing_parts_spec. by exists r.
Qed.

(** The recovered parts in their slots. *)
Lemma store_results_go f l : ∀ b, Z.of_nat (length b) = fullBufferSize p →
  (∀ e, e ∈ l → ∃ r, rs !! e.1 = Some r ∧ part_of t r ∧ default [] (fragment f e.2) = part_bytes t r fb bc) →
  let b' := foldl (fun b '(i, part) => write_at (base + Z.of_nat i * buffer_part_size p) (default [] (fragment f part)) b) b l in
  length b' = length b ∧
  ∀ i r, rs !! i = Some r → slot base P b (Z.of_nat i) = part_bytes t r fb bc ∨ i ∈ l.*1 → slot base P b' (Z.of_nat i) = part_bytes t r fb bc.
Proof using HB Hsized Hpl Hoff.
  induction l as [| [j x] l IH]; intros b Hl Hv; cbn [foldl].
  - split; [done |]. intros i r _ [| ?%elem_of_nil]; done.
  - destruct (Hv (j, x)) as (r & Hr & Hpr & Hval); [left |]. cbn [fst snd] in *. destruct (buffer_slots b Hl) as [Hb _]. pose proof P_pos as HP.
    pose proof (lookup_lt_Some _ _ _ Hr). pose proof (pl_slots _ _ _ _ _ _ Hpl). rewrite (pl_size _ _ _ _ _ _ Hpl). fold P. rewrite Hval.
    pose proof (part_bytes_length B HB chunk Hsized t r fb bc Hpr) as L. fold P in L.
    set (b1 := write_at _ _ b). assert (length b1 = length b) as Hl1 by (apply length_write_at; unfold has_slots in Hb; nia).
    rewrite (pl_size _ _ _ _ _ _ Hpl) in IH. fold P in IH. destruct (IH b1) as [H1 H2]; [by rewrite Hl1 | intros; apply Hv; by right |].
    split; [by rewrite H1 |]. intros i r' Hi Hor. apply H2; [done |]. rewrite fmap_cons, elem_of_cons in Hor. pose proof (lookup_lt_Some _ _ _ Hi).
    assert (slot base P b1 (Z.of_nat i) = if decide (Z.of_nat i = Z.of_nat j) then write_at 0 (part_bytes t r fb bc) (slot base P b (Z.of_nat j)) else slot base P b (Z.of_nat i)) as ->.
    { unfold b1. rewrite <- (Z.add_0_r (base + Z.of_nat j * P)). apply (slot_write base P Hoff HP slots); (done || lia). }
    destruct (decide _) as [Eij |]; [| destruct Hor as [| [->|]]; [by left | done | by right]].
    apply Nat2Z.inj in Eij as ->. rewrite Hi in Hr. injection Hr as ->. left. unfold write_at. change (Z.to_nat 0) with 0%nat. rewrite take_0, drop_ge; [apply app_nil_r |].
    rewrite L, (slot_length base P Hoff HP slots) by (done || lia). lia.
Qed.

Lemma recovered_parts c b : getNumberOfDataParts t <= Z.of_nat (length available) → Z.of_nat (length b) = fullBufferSize p → read_parts available b →
  ∃ b', recoverParts c p base bs b = Ok b' ∧ length b' = length b ∧
    ∀ i r, rs !! i = Some r → slot base P b' (Z.of_nat i) = part_bytes t r fb bc.
Proof using HB Hsized Hpl Hoff Hav_distinct Hav_read He Hbs.
  intros Hk Hl Hread. destruct ec_accepted as (Hkm & Ex & Ek & Em). pose proof (pl_valid _ _ _ _ _ _ Hpl) as Hv. pose proof P_pos as HP.
  destruct (pl_parts _ _ _ _ _ _ Hpl) as (Hnd & _ & Hrs). pose proof (parts_fit k m Hkm) as Hfit. change kMaxPartCount with 64%nat in Hfit.
  unfold recoverParts. rewrite (pl_type _ _ _ _ _ _ Hpl), Ek, Em, !Nat2Z.id. destruct (ReedSolomon k m) as [s | | |] eqn:Es.
  2-4: exfalso; revert Es; unfold ReedSolomon, assertion; destruct Hkm as [[??] [??]]; by rewrite !(proj2 (Nat.leb_le _ _)) by done.
  destruct (new_coder_valid c k m s Es) as [_ Hvs]. cbn [mbind res_bind].
  destruct (erased_parts k m bs Hkm (enough_chosen Hk)) as (Hwf & Hcount & Herased). set (erased := erase_loop _ _ _ _ _) in *.
  destruct (result_fragments_spec b) as [Hol Hres].
  assert (∀ x, (x < k + m)%nat → test erased x = false → fragment (data_fragments p base b) x = Some (part k m (Z.to_nat P) (data_rows B chunk t fb bc) x)) as Hin.
  { intros x Hx Hex. apply Herased in Hex; [| done]. rewrite <- (Nat2Z.id x) in Hex. rewrite Hbs in Hex by lia. apply bool_decide_eq_true in Hex.
    destruct (available_op _ Hex) as (op & q & Hop & E & Hq). assert (q = Z.of_nat x) as -> by (unfold part_id in E; lia).
    destruct (pl_ops _ _ _ _ _ _ Hpl _ _ Hop) as (_ & s' & _ & _ & _ & _ & Eo & _). rewrite <- (Nat2Z.id x). rewrite (data_fragments_spec b _ op Hop Hq). f_equal.
    pose proof (ec_rows B HB chunk Hsized t (Z.of_nat x) fb bc Hv He ltac:(destruct Hpl; lia)) as Er. fold k m P in Er. rewrite Er. rewrite <- (Hread _ op (Z.of_nat x) s' Hop Hex eq_refl Eo), Eo. done. }
  rewrite (pl_size _ _ _ _ _ _ Hpl). fold P.
  destruct (recover_correct c k m s (Z.to_nat P) (data_rows B chunk t fb bc) (data_fragments p base b) erased (result_fragments p base bs b)) as (s' & f & E & _ & Hf); try done.
  { intros x Hx Hex. left. by apply Hin. }
  { pose proof (available_count k m Hkm erased Hwf Hcount) as Hc. destruct (chosen (k + m) (negb <$> erased)) as [| x l] eqn:Ec; [destruct Hkm; cbn in Hc; lia |].
    assert (x ∈ chosen (k + m) (negb <$> erased)) as [Hx Hex]%elem_of_chosen by (rewrite Ec; left). destruct Hwf as [Hwl _].
    rewrite test_flip in Hex by (rewrite Hwl; change kMaxPartCount with 64%nat; lia). apply negb_true_iff in Hex. exists x. split; [done |]. split; [done |]. rewrite Hin by done. eauto. }
  rewrite E. cbn [mbind res_bind]. eexists. split; [done |]. unfold store_results.
  destruct (store_results_go f (missing_parts p bs) b Hl) as [H1 H2].
  - intros [j x] (r & Hr & -> & Hm)%missing_parts_spec. exists r. assert (part_of t r) as Hpr by (apply Hrs; by eapply list_elem_of_lookup_2).
    destruct (part_of_range t r Hpr) as [Hr64 _]. split; [done |]. split; [done |]. cbn [snd]. rewrite Hf. unfold wanted_at. rewrite bool_decide_true by (by eapply Hres).
    destruct (test erased (Z.to_nat r)) eqn:Ee; cbn [andb].
    + cbn [default]. unfold P. apply (ec_rows B HB chunk Hsized); (done || destruct Hpl; lia).
    + apply Herased in Ee; [| by apply ec_part]. rewrite Hbs in Ee by done. by apply bool_decide_eq_true in Ee.
  - split; [done |]. intros i r Hi. apply H2; [done |]. destruct (decide (part_id t r ∈ available)) as [Ha | Ha]; [left; by apply requested_slot |].
    right. apply list_elem_of_fmap. exists (i, Z.to_nat r). split; [done |]. apply missing_parts_spec. by exists r.
Qed.
End ec.

(** Post-processing of a slice with erasure coding restores the requested parts. *)
Lemma ec_restored c b : isEC t = true → received p available b → isReadingFinished p available = Ok true →
  ∃ b', ec_postProcessRead c p base available b = Ok (processed_size p, b') ∧ length b' = length b ∧
    ∀ i r, rs !! i = Some r → slot base P b' (Z.of_nat i) = part_bytes t r fb bc.
Proof using HB Hsized Hbeyond Hpl Hoff Hav_distinct Hav_read.
  intros He Hrc Hfin. pose proof Hrc as [Hl _ _]. destruct (zero_tails_spec available b Hrc) as (b1 & E1 & Hl1 & Hp1 & _).
  destruct available_map as (bs & Ebs & Hbs). destruct (pl_parts _ _ _ _ _ _ Hpl) as (Hnd & _ & Hrs).
  unfold ec_postProcessRead. rewrite E1. cbn [mbind res_bind]. rewrite (pl_type _ _ _ _ _ _ Hpl), Ebs. cbn [mbind res_bind].
  assert (∀ r, r ∈ rs → test bs (Z.to_nat r) = bool_decide (part_id t r ∈ available)) as Ht.
  { intros r Hr. destruct (part_of_range t r (Hrs r Hr)). by apply Hbs. }
  rewrite (pl_requested _ _ _ _ _ _ Hpl). destruct (existsb _ _) eqn:Ex.
  - apply existsb_exists in Ex as (info & (r & -> & Hr)%list_elem_of_In%list_elem_of_fmap & Hm). cbn [ri_part] in Hm.
    apply negb_true_iff in Hm. rewrite Ht in Hm by done. apply bool_decide_eq_false in Hm.
    destruct (finished_cases Hfin) as [Hall | Hk]; [by apply Hall in Hr |].
    destruct (recovered_parts He bs Hbs c b1 Hk ltac:(by rewrite Hl1) Hp1) as (b' & -> & Hl' & Hs). cbn [mbind res_bind].
    exists b'. split; [done |]. split; [lia | done].
  - exists b1. split; [done |]. split; [done |]. intros i r Hi. apply requested_slot; [done | done |]. assert (r ∈ rs) as Hr by (by eapply list_elem_of_lookup_2).
    apply not_true_iff_false in Ex. rewrite existsb_exists in Ex. apply dec_stable. intros Hm. apply Ex. eexists. split.
    + apply list_elem_of_In, list_elem_of_fmap_2, Hr.
    + cbn [ri_part]. rewrite Ht by done. by rewrite bool_decide_false.
Qed.

(** Post-processing of a slice of any type. *)
Lemma requested_parts_restored c addr b : received p available b → isReadingFinished p available = Ok true →
  ∃ b', postProcessRead c addr p base available b = Ok (processed_size p, b') ∧ length b' = length b ∧
    ∀ i r, rs !! i = Some r → slot base P b' (Z.of_nat i) = part_bytes t r fb bc.
Proof using HB Hsized Hbeyond Hpl Hoff Hav_distinct Hav_read.
  intros Hrc Hfin. unfold postProcessRead. rewrite (pl_class _ _ _ _ _ _ Hpl). unfold class_of.
  destruct (isXor t) eqn:Ex; [by apply xor_restored |]. destruct (isEC t) eqn:Ee; [by apply ec_restored |].
  destruct (zero_tails_spec available b Hrc) as (b1 & -> & Hl1 & Hp1 & _). cbn [mbind res_bind]. exists b1. split; [done |]. split; [done |].
  intros i r Hi. apply requested_slot; [done | done |]. assert (r ∈ rs) as Hr by (by eapply list_elem_of_lookup_2).
  destruct (finished_cases Hfin) as [Hall | Hk]; [by apply Hall |]. destruct (pl_parts _ _ _ _ _ _ Hpl) as (_ & _ & Hrs). destruct (Hrs r Hr) as [Hv Hpr].
  assert (getNumberOfDataParts t = 1 ∧ getNumberOfParityParts t = 0) as [E1 E2] by (unfold getNumberOfDataParts, getNumberOfParityParts; by rewrite Ex, Ee).
  assert (∃ x, x ∈ available) as [x Hx] by (destruct available as [| x l]; [cbn in Hk; lia | exists x; left]).
  destruct (available_op x Hx) as (_ & q & _ & -> & [_ Hq]). assert (q = r) as -> by lia. done.
Qed.
End one_plan.
End post.
