(* ===== verification/PlanBuilding.v ===== *)
(** * The plans that the planners build

    The plan of a slice is [planned]: its operations read distinct parts of the slice, to
    disjoint places of the buffer ([plan_for_slice]). *)

From Stdlib Require Import Strings.Byte QArith.
From S2P Require Import Prelude GaloisField ErasureCode CodeMatrix ReedSolomon SliceTraits ReadPlans ReadPlanFacts PostProcess.
Import SliceType SliceTraits.
Open Scope Z_scope.

(** Parts of slices of valid types. *)
Definition valid_parts (parts : list Z) : Prop := ∀ x, x ∈ parts → ∃ t q, x = part_id t q ∧ part_of t q.

Lemma valid_parts_inv parts x : valid_parts parts → x ∈ parts →
  let t := ChunkPartType.getSliceType x in let q := ChunkPartType.getSlicePart x in x = part_id t q ∧ part_of t q.
Proof.
  intros Hp Hx t q. destruct (Hp x Hx) as (t' & q' & -> & Hq). destruct (part_of_range t' q' Hq).
  unfold t, q. rewrite part_id_type, part_id_part by done. done.
Qed.

Lemma part_id_inj t q t' q' : 0 <= q < 64 → 0 <= q' < 64 → part_id t q = part_id t' q' → t = t' ∧ q = q'.
Proof. unfold part_id, ChunkPartType.kMaxPartsCount. lia. Qed.

(** ** prepare *)

Section preparation.
Context (t : Z) (Hvalid : isValid t = true) (available : list Z) (Hav : valid_parts available).

Lemma type_of_part x : x ∈ available → ChunkPartType.getSliceType x = t → ∃ q, x = part_id t q ∧ part_of t q ∧ slice_part x = Z.to_nat q ∧ 0 <= q < 64.
Proof using Hav.
  intros Hx Et. destruct (valid_parts_inv _ _ Hav Hx) as [E Hq]. rewrite Et in *. destruct (part_of_range _ _ Hq). eexists. done.
Qed.

Lemma available_bits_spec : length (available_bits t available) = kMaxPartCount ∧
  ∀ q, 0 <= q < 64 → test (available_bits t available) (Z.to_nat q) = bool_decide (part_id t q ∈ available).
Proof using Hvalid Hav.
  assert (0 <= t) as Ht by type_lia.
  enough (∀ l b, l ⊆ available → length b = kMaxPartCount →
    let b' := foldl (fun b part => if ChunkPartType.getSliceType part =? t then set_bit (slice_part part) b else b) b l in
    length b' = kMaxPartCount ∧ ∀ q, 0 <= q < 64 → test b' (Z.to_nat q) = test b (Z.to_nat q) || bool_decide (part_id t q ∈ l)) as H.
  { destruct (H available no_bits) as [H1 H2]; [done | done |]. split; [done |]. intros q Hq. unfold available_bits. by rewrite H2, test_no_bits. }
  induction l as [| x l IH]; intros b Hl Hb; cbn [foldl].
  - split; [done |]. intros q _. rewrite bool_decide_false by (by intros ?%elem_of_nil). by rewrite orb_false_r.
  - assert (x ∈ available) as Hx by (apply Hl; left). destruct (valid_parts_inv _ _ Hav Hx) as [Ex Hxq]. destruct (part_of_range _ _ Hxq) as [Hx64 Hxt].
    set (q0 := ChunkPartType.getSlicePart x) in *. set (t0 := ChunkPartType.getSliceType x) in *.
    assert (∀ q, 0 <= q < 64 → bool_decide (part_id t q ∈ x :: l) = bool_decide (t0 = t ∧ q0 = q) || bool_decide (part_id t q ∈ l)) as Hcons.
    { intros q Hq. rewrite <- bool_decide_or. apply bool_decide_ext. rewrite elem_of_cons. rewrite Ex at 1. split; [intros [E | ?]; [left | by right] | intros [[-> ->] |]; [by left | by right]].
      destruct (part_id_inj _ _ _ _ Hq Hx64 E). done. }
    destruct (Z.eqb_spec t0 t) as [Et | Et].
    + destruct (IH (set_bit (slice_part x) b)) as [H1 H2]; [intros y Hy; apply Hl; by right | by unfold set_bit; rewrite length_insert |].
      split; [done |]. intros q Hq. rewrite H2, Hcons by done. unfold slice_part. fold q0. rewrite test_set_bit by (rewrite Hb; change kMaxPartCount with 64%nat; lia).
      replace (Z.to_nat q0 =? Z.to_nat q)%nat with (bool_decide (t0 = t ∧ q0 = q)).
      * destruct (bool_decide _), (test b _), (bool_decide _); done.
      * destruct (Nat.eqb_spec (Z.to_nat q0) (Z.to_nat q)); case_bool_decide; try done; exfalso; [assert (q0 = q) by lia; tauto | naive_solver].
    + destruct (IH b) as [H1 H2]; [intros y Hy; apply Hl; by right | done |]. split; [done |]. intros q Hq. rewrite H2, Hcons by done.
      rewrite (bool_decide_false (t0 = t ∧ _)) by naive_solver. done.
Qed.

Lemma weigh_spec scores : ∀ l bs, l ⊆ available → length bs = kMaxPartCount →
  NoDup (snd <$> weigh t scores l bs) ∧
  ∀ x, x ∈ snd <$> weigh t scores l bs ↔ x ∈ l ∧ ChunkPartType.getSliceType x = t ∧ test bs (slice_part x) = true.
Proof using Hav.
  induction l as [| x l IH]; intros bs Hl Hbs; cbn [weigh].
  - split; [constructor |]. intros x. cbn. rewrite elem_of_nil. tauto.
  - assert (x ∈ available) as Hx by (apply Hl; left). assert (l ⊆ available) as Hl' by (intros y Hy; apply Hl; by right).
    destruct (Z.eqb_spec (ChunkPartType.getSliceType x) t) as [Et | Et]; cbn [andb].
    + destruct (type_of_part x Hx Et) as (q & Eq & Hq & Es & Hq64). destruct (test bs (slice_part x)) eqn:Etest.
      * destruct (IH (<[slice_part x := false]> bs)) as [H1 H2]; [done | by rewrite length_insert |].
        assert (∀ y, test (<[slice_part x := false]> bs) y = negb (slice_part x =? y)%nat && test bs y) as Hins.
        { intros y. unfold test. rewrite !nth_lookup. destruct (Nat.eqb_spec (slice_part x) y) as [<- | Hne].
          - rewrite list_lookup_insert_eq; [done |]. rewrite Es, Hbs. change kMaxPartCount with 64%nat. lia.
          - by rewrite list_lookup_insert_ne. }
        rewrite fmap_cons. cbn [snd]. split.
        -- constructor; [| done]. rewrite H2, Hins, Nat.eqb_refl. naive_solver.
        -- intros y. rewrite !elem_of_cons, H2, Hins. split.
           ++ intros [-> | (Hy & Hty & Hb)]; [auto |]. apply andb_true_iff in Hb. tauto.
           ++ intros ([-> | Hy] & Hty & Hb); [by left |]. destruct (decide (y = x)) as [-> | Hne]; [by left | right]. split; [done |]. split; [done |].
              rewrite Hb, andb_true_r, negb_true_iff. apply Nat.eqb_neq. intros E. apply Hne.
              destruct (type_of_part y (Hl' y Hy) Hty) as (q' & -> & _ & Es' & ?). rewrite Eq. f_equal. lia.
      * destruct (IH bs) as [H1 H2]; [done | done |]. split; [done |]. intros y. rewrite H2, elem_of_cons. split; [tauto |].
        intros ([-> | ?] & ? & ?); [congruence | done].
    + destruct (IH bs) as [H1 H2]; [done | done |]. split; [done |]. intros y. rewrite H2, elem_of_cons. split; [tauto |].
      intros ([-> | ?] & ? & ?); [congruence | done].
Qed.

Lemma insert_weighted_perm x l : insert_weighted x l ≡ₚ x :: l.
Proof using. clear. induction l as [| y l IH]; cbn [insert_weighted]; [done |]. destruct (negb _); [| done]. rewrite IH. constructor. Qed.

Lemma sort_weighted_perm l : sort_weighted l ≡ₚ l.
Proof using. clear. induction l as [| x l IH]; [done |]. cbn [sort_weighted]. by rewrite insert_weighted_perm, IH. Qed.

(** What [prepare] leaves when reading is possible. *)
Record prepared (rs : list Z) (s : SliceReadPlanner) : Prop := {
  pr_type : slice_type_ s = t;
  pr_parts : slice_parts_ s = rs;
  pr_distinct : NoDup (snd <$> weighted_parts_to_use_ s);
  pr_weighted : ∀ x, x ∈ snd <$> weighted_parts_to_use_ s ↔ x ∈ available ∧ ChunkPartType.getSliceType x = t;
  pr_required : required_parts_available_ s = true ↔ ∀ r, r ∈ rs → part_id t r ∈ available;
  pr_enough : required_parts_available_ s = true ∨ getNumberOfDataParts t <= Z.of_nat (length (weighted_parts_to_use_ s));
}.

Lemma bits_count (l : list Z) : NoDup l → (∀ x, x ∈ l ↔ x ∈ available ∧ ChunkPartType.getSliceType x = t) →
  count (available_bits t available) = length l.
Proof using Hvalid Hav.
  intros Hnd Hl. destruct available_bits_spec as [Hlen Hb]. assert (0 <= t) as Ht by type_lia. unfold count. rewrite Hlen.
  rewrite <- (length_fmap (fun i => part_id t (Z.of_nat i)) (chosen _ _)). apply Permutation_length, NoDup_Permutation; [| done |].
  - apply NoDup_fmap_2_strong; [| apply chosen_NoDup]. change kMaxPartCount with 64%nat.
    intros i j [Hi _]%elem_of_chosen [Hj _]%elem_of_chosen E. apply part_id_inj in E as [_ E]; lia.
  - intros x. rewrite Hl, list_elem_of_fmap. change kMaxPartCount with 64%nat. split.
    + intros (i & -> & [Hi Hx]%elem_of_chosen). rewrite <- (Nat2Z.id i), Hb in Hx by lia. apply bool_decide_eq_true in Hx.
      split; [done |]. apply part_id_type; lia.
    + intros [Hx Et]. destruct (type_of_part x Hx Et) as (q & -> & _ & _ & Hq). exists (Z.to_nat q). split; [f_equal; lia |].
      apply elem_of_chosen. split; [lia |]. rewrite Hb by done. by apply bool_decide_true.
Qed.

Lemma prepare_spec rs s : (∀ r, r ∈ rs → part_of t r) →
  let s' := prepare t rs available s in
  (can_read_ s' = true ↔ (∀ r, r ∈ rs → part_id t r ∈ available) ∨ getNumberOfDataParts t <= Z.of_nat (count (available_bits t available))) ∧
  (can_read_ s' = true → prepared rs s').
Proof using Hvalid Hav.
  intros Hrs s'. destruct available_bits_spec as [Hlen Hb]. unfold s', prepare. cbn [can_read_].
  set (required := forallb _ _). set (recoverable := _ <=? _).
  assert (required = true ↔ ∀ r, r ∈ rs → part_id t r ∈ available) as Hreq.
  { unfold required. rewrite forallb_forall. split; intros H r Hr.
    - destruct (part_of_range t r (Hrs r Hr)). specialize (H r ltac:(by apply list_elem_of_In)). rewrite Hb in H by done. by apply bool_decide_eq_true in H.
    - apply list_elem_of_In in Hr. destruct (part_of_range t r (Hrs r Hr)). rewrite Hb by done. apply bool_decide_eq_true. auto. }
  assert (recoverable = true ↔ getNumberOfDataParts t <= Z.of_nat (count (available_bits t available))) as Hrec.
  { unfold recoverable, requiredPartsToRecover. apply Z.leb_le. }
  split; [by rewrite orb_true_iff, Hreq, Hrec |]. intros Hcan. destruct (weigh_spec (scores_ s) available (available_bits t available) ltac:(done) Hlen) as [Hnd Hin].
  set (w := sort_weighted _). assert (snd <$> w ≡ₚ snd <$> weigh t (scores_ s) available (available_bits t available)) as Hw by (apply fmap_Permutation, sort_weighted_perm).
  assert (∀ x, x ∈ snd <$> w ↔ x ∈ available ∧ ChunkPartType.getSliceType x = t) as Hin'.
  { intros x. rewrite Hw, Hin. split; [tauto |]. intros [Hx Et]. split; [done |]. split; [done |].
    destruct (type_of_part x Hx Et) as (q & -> & _ & -> & Hq). rewrite Hb by done. by apply bool_decide_true. }
  split; cbn [slice_type_ slice_parts_ weighted_parts_to_use_ required_parts_available_]; rewrite ?Hcan; try done.
  - by rewrite Hw.
  - apply orb_true_iff in Hcan as [H | H]; [by left | right]. apply Hrec in H. rewrite (bits_count (snd <$> w)) in H by (done || by rewrite Hw).
    by rewrite length_fmap in H.
Qed.
End preparation.

(** ** Adding read operations *)

Section building.
Context (B : Z) (HB : 0 < B) (t : Z) (Hvalid : isValid t = true).
Context (rs : list Z) (Hnd : NoDup rs) (Hrs : ∀ r, r ∈ rs → part_of t r) (Hne : rs ≠ []).
Context (fb bc : Z) (Hfb : 0 <= fb <= SFSBLOCKSINCHUNK / getNumberOfDataParts t) (Hbc : 0 < bc).
Let P := bc * B.

(** Parts that were not requested. *)
Definition additional (ops : list (Z * ReadOperation)) : list (Z * ReadOperation) := filter (fun e => ChunkPartType.getSlicePart e.1 ∉ rs) ops.

(** A list of operations with their places. *)
Record built (slots : Z) (ops : list (Z * ReadOperation)) : Prop := {
  bu_distinct : NoDup (fst <$> ops);
  bu_ops : ∀ type op, (type, op) ∈ ops → ∃ q s, type = part_id t q ∧ part_of t q ∧
    request_size op = bytes_to_read B type fb bc ∧ request_offset op = fb * B ∧ buffer_offset op = s * P ∧ 0 <= s < slots ∧
    (∀ i, rs !! i = Some q → s = Z.of_nat i) ∧ (q ∉ rs → Z.of_nat (length rs) <= s);
  bu_disjoint : ∀ e e', e ∈ ops → e' ∈ ops → buffer_offset (snd e) = buffer_offset (snd e') → e = e';
  bu_count : slots = Z.of_nat (length rs) + Z.of_nat (length (additional ops));
}.

Lemma built_nil : built (Z.of_nat (length rs)) [].
Proof using. split; [constructor | intros ? ? H; by apply elem_of_nil in H | intros ? ? H; by apply elem_of_nil in H | cbn; lia]. Qed.

Lemma P_positive : 0 < P.
Proof using HB Hbc. unfold P. nia. Qed.

Lemma built_snoc slots ops q s op : built slots ops → part_id t q ∉ fst <$> ops → part_of t q →
  request_size op = bytes_to_read B (part_id t q) fb bc → request_offset op = fb * B → buffer_offset op = s * P →
  (∀ i, rs !! i = Some q → s = Z.of_nat i) → (q ∉ rs → s = slots) →
  built (if decide (q ∈ rs) then slots else slots + 1) (ops ++ [(part_id t q, op)]).
Proof using HB Hnd Hbc Hfb.
  intros [H1 H2 H3 H4] Hnew Hq Esz Eoff Ebuf Hs1 Hs2. destruct (part_of_range t q Hq) as [Hq64 Ht]. pose proof P_positive as HP.
  assert (slots <= (if decide (q ∈ rs) then slots else slots + 1)) as Hle by (destruct (decide _); lia).
  assert (∀ e, e ∈ ops → buffer_offset (snd e) ≠ s * P) as Hother.
  { intros [type o] He Eo. destruct (H2 _ _ He) as (q' & s' & -> & Hq' & _ & _ & Eo' & Hs' & Hr' & Hn'). cbn [snd] in Eo. assert (s' = s) as -> by nia.
    destruct (decide (q ∈ rs)) as [[i Hi]%list_elem_of_lookup | Hn]; [| specialize (Hs2 Hn); lia].
    destruct (decide (q' ∈ rs)) as [[j Hj]%list_elem_of_lookup | Hn].
    - specialize (Hr' j Hj). specialize (Hs1 i Hi). assert (j = i) as -> by lia. rewrite Hi in Hj. injection Hj as ->.
      apply Hnew. apply list_elem_of_fmap. by exists (part_id t q', o).
    - specialize (Hn' Hn). specialize (Hs1 i Hi). apply lookup_lt_Some in Hi. lia. }
  assert (0 <= s < if decide (q ∈ rs) then slots else slots + 1) as Hs.
  { destruct (decide (q ∈ rs)) as [[i Hi]%list_elem_of_lookup | Hn]; [specialize (Hs1 i Hi); apply lookup_lt_Some in Hi | specialize (Hs2 Hn)]; lia. }
  split.
  - rewrite fmap_app, NoDup_app. split; [done |]. split; [| apply NoDup_singleton]. intros x Hx. cbn. intros ->%list_elem_of_singleton. done.
  - intros type o [He | He]%elem_of_app.
    + destruct (H2 _ _ He) as (q' & s' & H). exists q', s'. destruct H as (? & ? & ? & ? & ? & ? & ? & ?). split_and!; (done || lia).
    + apply list_elem_of_singleton in He as [= -> ->]. exists q, s. split_and!; try (done || lia). intros Hn. rewrite (Hs2 Hn). lia.
  - intros e e' [He | ->%list_elem_of_singleton]%elem_of_app [He' | ->%list_elem_of_singleton]%elem_of_app E; [by apply H3 | | | done].
    + cbn [snd] in E. exfalso. apply (Hother e He). congruence.
    + cbn [snd] in E. exfalso. apply (Hother e' He'). congruence.
  - unfold additional. rewrite filter_app, filter_cons, filter_nil, length_app. cbn [fst]. rewrite part_id_part by done. fold (additional ops).
    destruct (decide (q ∈ rs)) as [Hin | Hin]; [rewrite decide_False by tauto | rewrite decide_True by done]; cbn [length]; lia.
Qed.

Definition indexed (s : SliceReadPlanner) : Prop :=
  (∀ q i, rs !! i = Some q → nth (Z.to_nat q) (part_indices_ s) 0 = Z.of_nat i) ∧
  (∀ q, 0 <= q < 64 → q ∉ rs → nth (Z.to_nat q) (part_indices_ s) 0 = -1).

Lemma add_operations_spec s w : indexed s → ∀ parts ops slots, built slots ops → NoDup ((fst <$> ops) ++ (snd <$> parts)) →
  (∀ x, x ∈ snd <$> parts → ∃ q, x = part_id t q ∧ part_of t q) →
  ∃ new slots', add_operations B s parts fb bc w (slots * P) = (new, slots' * P) ∧ built slots' (ops ++ new) ∧ fst <$> new = snd <$> parts.
Proof using HB Hnd Hbc Hfb.
  intros [Hidx1 Hidx2]. induction parts as [| [score x] parts IH]; intros ops slots Hb Hdis Hx.
  - exists [], slots. rewrite app_nil_r. done.
  - rewrite fmap_cons in *. cbn [snd] in *. destruct (Hx x ltac:(left)) as (q & -> & Hq). destruct (part_of_range t q Hq) as [Hq64 Ht].
    cbn [add_operations]. unfold slice_part. rewrite part_id_part by done. set (op := fun offset => {| request_offset := fb * B; request_size := bytes_to_read B (part_id t q) fb bc; buffer_offset := offset; wave := w |}).
    assert (∀ offset slots', built slots' (ops ++ [(part_id t q, op offset)]) →
      ∃ new last, add_operations B s parts fb bc w (slots' * P) = (new, last * P) ∧ built last (ops ++ (part_id t q, op offset) :: new) ∧ fst <$> new = snd <$> parts) as Hrest.
    { intros offset slots' Hb'. destruct (IH (ops ++ [(part_id t q, op offset)]) slots') as (new & last & E & Hb2 & Hf); [done | | |].
      - rewrite fmap_app. cbn. rewrite <- app_assoc. exact Hdis.
      - intros y Hy. apply Hx. by right.
      - exists new, last. rewrite <- app_assoc in Hb2. done. }
    apply NoDup_app in Hdis as (_ & Hdis & _). assert (part_id t q ∉ fst <$> ops) as Hnew by (intros H; apply (Hdis _ H); left).
    destruct (decide (q ∈ rs)) as [Hin | Hin].
    + pose proof Hin as [i Hi]%list_elem_of_lookup. rewrite (Hidx1 q i Hi). rewrite (proj2 (Z.ltb_ge _ _)) by lia.
      pose proof (built_snoc slots ops q (Z.of_nat i) (op (Z.of_nat i * B * bc)) Hb Hnew Hq eq_refl eq_refl) as Hb'. rewrite decide_True in Hb' by done.
      destruct (Hrest (Z.of_nat i * B * bc) slots) as (new & last & E & Hb2 & Hf); [apply Hb' |].
      * cbn. unfold P. lia.
      * intros j Hj. f_equal. by eapply (NoDup_lookup rs).
      * done.
      * rewrite E. do 2 eexists. split; [done |]. split; [exact Hb2 |]. cbn. by rewrite Hf.
    + rewrite (Hidx2 q Hq64 Hin). cbn [Z.ltb Z.compare].
      pose proof (built_snoc slots ops q slots (op (slots * P)) Hb Hnew Hq eq_refl eq_refl eq_refl) as Hb'. rewrite decide_False in Hb' by done.
      destruct (Hrest (slots * P) (slots + 1)) as (new & last & E & Hb2 & Hf); [apply Hb' |].
      * intros i Hi. exfalso. apply Hin. by eapply list_elem_of_lookup_2.
      * done.
      * replace (slots * P + bc * B) with ((slots + 1) * P) by (unfold P; lia). rewrite E. do 2 eexists. split; [done |]. split; [exact Hb2 |]. cbn. by rewrite Hf.
Qed.

(** A plan under construction: the operations for a prefix of the weighted parts. *)
Record partial (w : list (Q * Z)) (slots : Z) (p : plan) : Prop := {
  pa_class : class p = class_of t;
  pa_type : slice_type p = t;
  pa_size : buffer_part_size p = P;
  pa_requested : requested_parts p = (fun r => {| ri_part := r; ri_size := bytes_to_read B (part_id t r) fb bc |}) <$> rs;
  pa_postprocess : postprocess_operations p = [];
  pa_built : built slots (read_operations p);
  pa_prefix : fst <$> read_operations p = take (length (read_operations p)) (snd <$> w);
}.

Notation op_count p := (Z.of_nat (length (read_operations p))).

Section adding.
Context (s : SliceReadPlanner) (Hidx : indexed s).
Let w := weighted_parts_to_use_ s.
Context (Hw : NoDup (snd <$> w)) (Hwt : ∀ x, x ∈ snd <$> w → ∃ q, x = part_id t q ∧ part_of t q).

Lemma partial_count slots p : partial w slots p → op_count p <= Z.of_nat (length w).
Proof using. intros [_ _ _ _ _ _ E]. apply (f_equal length) in E. rewrite length_take, !length_fmap in E. lia. Qed.

Lemma addParts_spec p slots count wave : partial w slots p →
  ∃ p' slots', addParts B s p fb bc count wave (slots * P) = (slots' * P, p') ∧ partial w slots' p' ∧ read_buffer_size p' = slots' * P ∧
    op_count p' = Z.max (op_count p) (Z.min (op_count p + count) (Z.of_nat (length w))).
Proof using HB Hnd Hbc Hfb Hidx Hw Hwt.
  intros Hp. pose proof (partial_count slots p Hp) as Hc. destruct Hp as [H1 H2 H3 H4 H5 H6 H7]. unfold addParts. fold w.
  set (n := length (read_operations p)) in *. set (c := Z.to_nat (Z.min (Z.of_nat n + count) (Z.of_nat (length w)) - Z.of_nat n)). rewrite Nat2Z.id.
  assert (snd <$> take c (drop n w) = take c (drop n (snd <$> w))) as Esnd by (by rewrite fmap_take, fmap_drop).
  assert ((fst <$> read_operations p) ++ (snd <$> take c (drop n w)) = take (n + c) (snd <$> w)) as Epre by (by rewrite Esnd, H7, take_take_drop).
  destruct (add_operations_spec s wave Hidx (take c (drop n w)) (read_operations p) slots H6) as (new & slots' & E & Hb & Hf).
  - rewrite Epre. by apply (sublist_NoDup _ (snd <$> w)), sublist_take.
  - intros x Hx. apply Hwt. rewrite Esnd in Hx. eapply elem_of_sublist; [exact Hx |]. etransitivity; [apply sublist_take | apply sublist_drop].
  - rewrite E. do 2 eexists. split; [done |]. assert (length new = c) as Hlen.
    { apply (f_equal length) in Hf. rewrite !length_fmap, length_take, length_drop in Hf. lia. }
    split; [| split; [done |]].
    + split; try done. cbn [set_operations read_operations]. by rewrite fmap_app, Hf, Epre, length_app, Hlen.
    + cbn [set_operations read_operations]. rewrite length_app, Hlen. fold n. lia.
Qed.

(** The fuel is enough for the remaining parts. *)
Lemma add_waves_spec : ∀ fuel p slots wave, partial w slots p → read_buffer_size p = slots * P →
  Z.of_nat (length w) - op_count p < Z.of_nat fuel →
  ∃ p' slots', add_waves B fuel s p fb bc wave (slots * P) = Ok (slots' * P, p') ∧ partial w slots' p' ∧ read_buffer_size p' = slots' * P ∧
    op_count p' = Z.of_nat (length w).
Proof using HB Hnd Hbc Hfb Hidx Hw Hwt.
  induction fuel as [| fuel IH]; intros p slots wave Hp Hr Hfuel; pose proof (partial_count slots p Hp) as Hc; [lia |].
  cbn [add_waves]. fold w. destruct (Z.ltb_spec (op_count p) (Z.of_nat (length w))) as [Hlt | Hge].
  - destruct (addParts_spec p slots (Z.min 2 (Z.of_nat (length w) - op_count p)) wave Hp) as (p' & slots' & -> & Hp' & Hr' & Hc').
    apply IH; [done | done | lia].
  - exists p, slots. split_and!; (done || lia).
Qed.

Lemma addExtraParts_spec overuse p slots : partial w slots p → read_buffer_size p = slots * P →
  ∃ p' slots', addExtraParts overuse B s p fb bc (slots * P) = Ok (slots' * P, p') ∧ partial w slots' p' ∧ read_buffer_size p' = slots' * P ∧
    op_count p' = Z.of_nat (length w).
Proof using HB Hnd Hbc Hfb Hidx Hw Hwt.
  intros Hp Hr. unfold addExtraParts. fold w. destruct (_ <? _).
  - match goal with |- context [addParts B s p fb bc ?count 1] => destruct (addParts_spec p slots count 1 Hp) as (p' & slots' & -> & Hp' & Hr' & Hc') end.
    apply add_waves_spec; [done | done | lia].
  - apply add_waves_spec; [done | done | lia].
Qed.
End adding.

(** The plan has memory for no more parts than the slice has. *)
Lemma slots_bound slots ops : built slots ops → Z.of_nat (length rs) <= slots <= getNumberOfDataParts t + getNumberOfParityParts t.
Proof using Hvalid Hnd Hrs.
  intros [H1 H2 _ H4]. pose proof (number_of_parts_bounds t Hvalid). split; [lia |]. rewrite H4. clear H4.
  assert (length (rs ++ ((fun e => ChunkPartType.getSlicePart e.1) <$> additional ops)) ≤ length (seqZ 0 (getNumberOfDataParts t + getNumberOfParityParts t)))%nat as Hle.
  { assert (∀ e, e ∈ additional ops → ∃ q, e.1 = part_id t q ∧ part_of t q ∧ 0 <= q < 64 ∧ ChunkPartType.getSlicePart e.1 = q ∧ q ∉ rs ∧ e ∈ ops) as Ha.
    { intros [type op] [Hn He]%list_elem_of_filter. destruct (H2 _ _ He) as (q & _ & -> & Hq & _). destruct (part_of_range t q Hq). exists q. cbn [fst] in *.
      rewrite part_id_part in * by done. done. }
    apply submseteq_length, NoDup_submseteq.
    - apply NoDup_app. split; [done |]. split.
      + intros q Hq (e & -> & He)%list_elem_of_fmap. destruct (Ha e He) as (q & _ & _ & _ & E & Hn & _). by rewrite E in Hq.
      + apply (NoDup_fmap_1 (part_id t)). rewrite <- list_fmap_compose. assert (part_id t ∘ (fun e => ChunkPartType.getSlicePart e.1) <$> additional ops = fst <$> additional ops) as ->.
        { apply list_fmap_ext. intros i e He%list_elem_of_lookup_2. destruct (Ha e He) as (q & E1 & _ & _ & E2 & _). cbn. by rewrite E2, E1. }
        eapply sublist_NoDup; [apply H1 |]. apply fmap_sublist, sublist_filter.
    - intros q [Hq | (e & -> & He)%list_elem_of_fmap]%elem_of_app; apply elem_of_seqZ.
      + destruct (Hrs q Hq). lia.
      + destruct (Ha e He) as (q & _ & [_ ?] & _ & -> & _). lia. }
  rewrite length_app, length_fmap, length_seqZ in Hle. lia.
Qed.

Lemma partial_planned w slots p : partial w slots p → read_buffer_size p = slots * P → planned B t fb bc rs slots p.
Proof using Hvalid Hnd Hrs Hne Hfb Hbc.
  intros [H1 H2 H3 H4 H5 H6 H7] Hr. pose proof (slots_bound _ _ H6). destruct H6 as [B1 B2 B3 B4]. split; try done; lia.
Qed.
End building.

(** ** Waves *)

(** The types of the operations that are started first. *)
Definition first_wave (p : plan) : list Z := fst <$> filter (fun e => wave (snd e) = 0) (read_operations p).

(** Operations of later waves have been appended. *)
Definition extended (p p' : plan) : Prop := ∃ new, read_operations p' = read_operations p ++ new ∧ ∀ e, e ∈ new → 1 <= wave (snd e).

Lemma add_operations_wave B s fb bc w parts : ∀ off e, e ∈ fst (add_operations B s parts fb bc w off) → wave (snd e) = w.
Proof.
  induction parts as [| [score type] parts IH]; intros off e; cbn [add_operations]; [by intros ?%elem_of_nil |].
  destruct (_ <? 0).
  - destruct (add_operations B s parts fb bc w _) as [ops last] eqn:E. cbn [fst]. intros [-> | He]%elem_of_cons; [done |]. eapply IH. by rewrite E.
  - destruct (add_operations B s parts fb bc w _) as [ops last] eqn:E. cbn [fst]. intros [-> | He]%elem_of_cons; [done |]. eapply IH. by rewrite E.
Qed.

Lemma addParts_new B s p fb bc count w off o p' : addParts B s p fb bc count w off = (o, p') →
  ∃ new, read_operations p' = read_operations p ++ new ∧ ∀ e, e ∈ new → wave (snd e) = w.
Proof.
  unfold addParts. destruct (add_operations _ _ _ _ _ _ _) as [new offset] eqn:E. intros [= <- <-]. exists new. split; [done |].
  intros e He. eapply add_operations_wave. by rewrite E.
Qed.

Lemma extended_trans p1 p2 p3 : extended p1 p2 → extended p2 p3 → extended p1 p3.
Proof.
  intros (n1 & E1 & H1) (n2 & E2 & H2). exists (n1 ++ n2). rewrite E2, E1, app_assoc. split; [done |]. intros e [? | ?]%elem_of_app; auto.
Qed.

Lemma addParts_extended B s p fb bc count w off o p' : 1 <= w → addParts B s p fb bc count w off = (o, p') → extended p p'.
Proof. intros Hw (new & E & H)%addParts_new. exists new. split; [done |]. intros e ->%H. done. Qed.

Lemma add_waves_extended B s fb bc fuel : ∀ p w off o p', 1 <= w → add_waves B fuel s p fb bc w off = Ok (o, p') → extended p p'.
Proof.
  induction fuel as [| fuel IH]; intros p w off o p' Hw; cbn [add_waves]; [done |]. destruct (_ <? _).
  - destruct (addParts _ _ _ _ _ _ _ _) as [o1 p1] eqn:E. intros Hrest. eapply extended_trans; [by eapply addParts_extended |]. eapply IH; [| done]. lia.
  - intros [= _ <-]. exists []. split; [by rewrite app_nil_r | by intros e ?%elem_of_nil].
Qed.

Lemma addExtraParts_extended overuse B s p fb bc off o p' : addExtraParts overuse B s p fb bc off = Ok (o, p') → extended p p'.
Proof.
  unfold addExtraParts. destruct (_ <? _).
  - destruct (addParts _ _ _ _ _ _ _ _) as [o1 p1] eqn:E. intros Hrest. eapply extended_trans; [by eapply addParts_extended |]. eapply add_waves_extended; [| done]. lia.
  - intros Hrest. eapply add_waves_extended; [| done]. lia.
Qed.

Lemma first_wave_extended p p' : extended p p' → (∀ e, e ∈ read_operations p → wave (snd e) = 0) → first_wave p' = fst <$> read_operations p.
Proof.
  intros (new & E & H) H0. unfold first_wave. rewrite E, filter_app, filter_all, filter_none, app_nil_r; [done | | by apply Forall_forall].
  apply Forall_forall. intros e He%H. lia.
Qed.

(** ** The loops over the requested parts *)

Lemma distinct_parts_spec : ∀ rs bs, NoDup rs → (∀ r, r ∈ rs → 0 <= r < 64) → length bs = kMaxPartCount → (∀ r, r ∈ rs → test bs (Z.to_nat r) = false) →
  ∃ bs', distinct_parts rs bs = Ok bs' ∧ ∀ q, 0 <= q < 64 → test bs' (Z.to_nat q) = test bs (Z.to_nat q) || bool_decide (q ∈ rs).
Proof.
  induction rs as [| r rs IH]; intros bs Hnd Hr Hl Hbs; cbn [distinct_parts].
  - exists bs. split; [done |]. intros q _. rewrite bool_decide_false by (by intros ?%elem_of_nil). by rewrite orb_false_r.
  - apply NoDup_cons in Hnd as [Hni Hnd]. unfold assertion. rewrite Hbs by left. cbn [negb]. assert (0 <= r < 64) as Hr0 by (apply Hr; left).
    assert (∀ q, 0 <= q < 64 → test (set_bit (Z.to_nat r) bs) (Z.to_nat q) = bool_decide (q = r) || test bs (Z.to_nat q)) as Hset.
    { intros q Hq. rewrite test_set_bit by (rewrite Hl; change kMaxPartCount with 64%nat; lia). f_equal.
      destruct (Nat.eqb_spec (Z.to_nat r) (Z.to_nat q)); case_bool_decide; lia. }
    destruct (IH (set_bit (Z.to_nat r) bs)) as (bs' & E & H); [done | intros; apply Hr; by right | by unfold set_bit; rewrite length_insert | |].
    + intros q Hq. rewrite Hset by (apply Hr; by right). rewrite bool_decide_false by naive_solver. apply Hbs. by right.
    + exists bs'. split; [done |]. intros q Hq. rewrite H, Hset by done. destruct (decide (q = r)) as [-> | Hne].
      * rewrite (bool_decide_true (r ∈ r :: rs)) by left. rewrite (bool_decide_true (r = r)) by done. cbn. by rewrite orb_true_r.
      * rewrite (bool_decide_false (q = r)) by done. cbn [orb]. f_equal. apply bool_decide_ext. rewrite elem_of_cons. naive_solver.
Qed.

Lemma request_parts_spec B s fb bc rs : (∀ r, r ∈ rs → part_of (slice_type_ s) r) →
  request_parts B s fb bc rs = Ok ((fun r => {| ri_part := r; ri_size := bytes_to_read B (part_id (slice_type_ s) r) fb bc |}) <$> rs).
Proof.
  induction rs as [| r rs IH]; intros Hr; [done |]. cbn [request_parts]. unfold request_part. destruct (Hr r ltac:(left)) as [Hv Hp].
  destruct (make_valid (slice_type_ s) r _ Hv (expectedParts_valid _ Hv)) as [-> _]; [done |]. cbn [mbind res_bind].
  rewrite IH by (intros; apply Hr; by right). done.
Qed.

Lemma indices_of_spec rs : NoDup rs → (∀ r, r ∈ rs → 0 <= r < 64) →
  (∀ q i, rs !! i = Some q → nth (Z.to_nat q) (indices_of rs) 0 = Z.of_nat i) ∧ (∀ q, 0 <= q < 64 → q ∉ rs → nth (Z.to_nat q) (indices_of rs) 0 = -1).
Proof.
  intros Hnd Hr. unfold indices_of. set (l0 := replicate _ (-1)).
  enough (∀ n, let l := foldl (fun indices '(i, part) => <[Z.to_nat part := Z.of_nat i]> indices) l0 (imap (fun i part => (i, part)) (take n rs)) in
    length l = 64%nat ∧ (∀ q i, take n rs !! i = Some q → nth (Z.to_nat q) l 0 = Z.of_nat i) ∧ (∀ q, 0 <= q < 64 → q ∉ take n rs → nth (Z.to_nat q) l 0 = -1)) as H.
  { specialize (H (length rs)). rewrite firstn_all in H. apply H. }
  induction n as [| n IH]; cbv zeta in *.
  - rewrite take_0. cbn [imap foldl]. split; [done |]. split; [done |]. intros q Hq _. rewrite nth_lookup. unfold l0. rewrite lookup_replicate_2; [done |].
    change (Z.to_nat kMaxPartsCount) with 64%nat. lia.
  - destruct (rs !! n) as [r |] eqn:En; [| by rewrite take_ge, <- (take_ge rs n) by (apply lookup_ge_None in En; lia)].
    rewrite (take_S_r _ _ _ En). rewrite imap_app, foldl_app. cbn [imap foldl]. rewrite length_take, Nat.min_l, Nat.add_0_r by (apply lookup_lt_Some in En; lia).
    set (l := foldl _ l0 _) in *. destruct IH as (Hl & H1 & H2). assert (0 <= r < 64) as Hr0 by (apply Hr; by eapply list_elem_of_lookup_2).
    assert (r ∉ take n rs) as Hni. { intros (i & Hi & Hlt)%elem_of_take. assert (i = n) by (by eapply (NoDup_lookup rs)). lia. }
    split; [by rewrite length_insert |]. split.
    + intros q i [Hi | [Hge Hi]]%lookup_app_Some.
      * rewrite nth_lookup, list_lookup_insert_ne, <- nth_lookup; [by apply H1 |]. intros E. apply Hni. assert (q ∈ take n rs) as Hq by (by eapply list_elem_of_lookup_2).
        assert (q = r) as <-; [| done]. apply (elem_of_sublist _ rs), Hr in Hq; [lia | apply sublist_take].
      * rewrite length_take, Nat.min_l in * by (apply lookup_lt_Some in En; lia). apply list_lookup_singleton_Some in Hi as [Hi <-]. assert (i = n) as -> by lia.
        rewrite nth_lookup, list_lookup_insert_eq by lia. done.
    + intros q Hq Hn. rewrite elem_of_app, list_elem_of_singleton in Hn. rewrite nth_lookup, list_lookup_insert_ne, <- nth_lookup; [apply H2; tauto |].
      intros E. apply Hn. right. lia.
Qed.

(** ** buildPlanFor *)

Section slice_plan.
Context (overuse : Z → Z) (B : Z) (HB : 0 < B) (t : Z) (Hvalid : isValid t = true).
Context (rs : list Z) (Hnd : NoDup rs) (Hrs : ∀ r, r ∈ rs → part_of t r) (Hne : rs ≠ []).
Context (fb bc : Z) (Hfb : 0 <= fb <= SFSBLOCKSINCHUNK / getNumberOfDataParts t) (Hbc : 0 < bc).
Context (available : list Z) (Hav : valid_parts available) (s : SliceReadPlanner) (Hs : prepared t available rs s).

(** The plan reads parts of the slice that exist: all of them, or, without extra parts, the requested ones. *)
Record slice_plan (extra : bool) (p : plan) : Prop := {
  sp_planned : ∃ slots, planned B t fb bc rs slots p ∧ slots <= getNumberOfDataParts t + getNumberOfParityParts t;
  sp_postprocess : postprocess_operations p = [];
  sp_reads : ∀ x, x ∈ fst <$> read_operations p ↔
    x ∈ available ∧ ChunkPartType.getSliceType x = t ∧ (extra = true ∨ required_parts_available_ s = false ∨ ChunkPartType.getSlicePart x ∈ rs);
  sp_first : if required_parts_available_ s then ∀ r, r ∈ rs → part_id t r ∈ first_wave p else getNumberOfDataParts t <= Z.of_nat (length (first_wave p));
}.

Lemma weighted_part x : x ∈ snd <$> weighted_parts_to_use_ s → ∃ q, x = part_id t q ∧ part_of t q.
Proof using Hav Hs.
  intros [Hx Ex]%(pr_weighted _ _ _ _ Hs). destruct (type_of_part t available Hav x Hx Ex) as (q & ? & ? & _). by exists q.
Qed.

Lemma requested_range r : r ∈ rs → 0 <= r < 64.
Proof using Hrs. intros Hr. by destruct (part_of_range t r (Hrs r Hr)). Qed.

(** The operations of a plan for all weighted parts. *)
Lemma all_parts_read w slots p : w ≡ₚ weighted_parts_to_use_ s → partial B t rs fb bc w slots p → Z.of_nat (length (read_operations p)) = Z.of_nat (length w) →
  ∀ x, x ∈ fst <$> read_operations p ↔ x ∈ available ∧ ChunkPartType.getSliceType x = t.
Proof using Hs.
  intros Hperm [_ _ _ _ _ _ Hpre] Hc x. rewrite Hpre, take_ge by (rewrite length_fmap; lia). rewrite <- (pr_weighted _ _ _ _ Hs). by rewrite Hperm.
Qed.

Lemma partition_perm bs (l : list (Q * Z)) :
  filter (fun x => test bs (slice_part x.2) = true) l ++ filter (fun x => test bs (slice_part x.2) = false) l ≡ₚ l.
Proof using.
  clear. induction l as [| x l IH]; [done |]. rewrite !filter_cons. destruct (test bs (slice_part x.2)) eqn:E; simpl.
  - by rewrite IH.
  - rewrite <- Permutation_middle. by rewrite IH.
Qed.

(** The parts that were sorted to the front. *)
Lemma wanted_part bs x : (∀ q, 0 <= q < 64 → test bs (Z.to_nat q) = bool_decide (q ∈ rs)) →
  x ∈ snd <$> filter (fun x => test bs (slice_part x.2) = true) (weighted_parts_to_use_ s) ↔
    x ∈ available ∧ ChunkPartType.getSliceType x = t ∧ ChunkPartType.getSlicePart x ∈ rs.
Proof using Hvalid Hrs Hav Hs Hfb.
  intros Hbs. pose proof (pr_weighted _ _ _ _ Hs) as Hw. rewrite (list_elem_of_fmap snd). split.
  - intros (y & -> & [Ht Hy]%list_elem_of_filter). assert (y.2 ∈ snd <$> weighted_parts_to_use_ s) as [Hy1 Hy2]%Hw by (by apply list_elem_of_fmap_2).
    split; [done |]. split; [done |]. destruct (type_of_part t available Hav _ Hy1 Hy2) as (q & Eq & _ & Es & Hq). rewrite Es, Hbs in Ht by done.
    rewrite Eq, part_id_part by (done || type_lia). by apply bool_decide_eq_true in Ht.
  - intros (Hx & Ext & Hin). assert (x ∈ snd <$> weighted_parts_to_use_ s) as (y & -> & Hy)%list_elem_of_fmap by (by apply Hw).
    exists y. split; [done |]. apply list_elem_of_filter. split; [| done].
    unfold slice_part. rewrite Hbs by (by apply requested_range). by apply bool_decide_eq_true.
Qed.

(** The plan before operations are added. *)
Definition empty_plan : plan :=
  {| class := class_of t; slice_type := t; read_buffer_size := 0; read_operations := [];
     requested_parts := (fun r => {| ri_part := r; ri_size := bytes_to_read B (part_id t r) fb bc |}) <$> rs;
     buffer_part_size := bc * B; postprocess_operations := [] |}.

Lemma empty_partial w : partial B t rs fb bc w (Z.of_nat (length rs)) empty_plan.
Proof using. split; try done. apply built_nil. Qed.

Lemma partial_slice_plan extra w slots p : partial B t rs fb bc w slots p → read_buffer_size p = slots * (bc * B) →
  (∀ x, x ∈ fst <$> read_operations p ↔
    x ∈ available ∧ ChunkPartType.getSliceType x = t ∧ (extra = true ∨ required_parts_available_ s = false ∨ ChunkPartType.getSlicePart x ∈ rs)) →
  (if required_parts_available_ s then ∀ r, r ∈ rs → part_id t r ∈ first_wave p else getNumberOfDataParts t <= Z.of_nat (length (first_wave p))) →
  slice_plan extra p.
Proof using Hvalid Hnd Hrs Hne Hfb Hbc.
  intros Hp Hr Hx Hfirst. split; [| by destruct Hp | done | done]. exists slots. split; [by eapply partial_planned | by eapply slots_bound, Hp].
Qed.

Lemma basic_requested (l : list Z) : required_parts_available_ s = true →
  (∀ x, x ∈ l ↔ x ∈ available ∧ ChunkPartType.getSliceType x = t ∧ ChunkPartType.getSlicePart x ∈ rs) → ∀ r, r ∈ rs → part_id t r ∈ l.
Proof using Hrs Hs.
  intros Er Hl r Hr. destruct (part_of_range t r (Hrs r Hr)). apply Hl. rewrite part_id_type, part_id_part by done. split; [| done].
  by apply (pr_required _ _ _ _ Hs).
Qed.

Lemma buildPlanFor_spec extra : ∃ s' p, buildPlanFor overuse B fb bc extra s = Ok (s', p) ∧ slice_plan extra p.
Proof using HB Hvalid Hnd Hrs Hne Hfb Hbc Hav Hs.
  pose proof Hs as [Et Ep Hwd _ _ _].
  unfold buildPlanFor. rewrite Ep. destruct (distinct_parts_spec rs no_bits Hnd requested_range eq_refl (fun r _ => test_no_bits _)) as (bs & -> & Hbs). cbn [mbind res_bind].
  assert (∀ q, 0 <= q < 64 → test bs (Z.to_nat q) = bool_decide (q ∈ rs)) as Hbs' by (intros q Hq; by rewrite Hbs, test_no_bits by done). clear Hbs.
  rewrite request_parts_spec by (by rewrite Et). rewrite Et. cbn [mbind res_bind getPlan class slice_type]. rewrite Et. fold (class_of t). fold empty_plan.
  pose proof (indices_of_spec rs Hnd requested_range) as Hidx.
  assert (Z.of_nat (length (requested_parts empty_plan)) * buffer_part_size empty_plan = Z.of_nat (length rs) * (bc * B)) as Eoff by (cbn; by rewrite length_fmap).
  destruct (required_parts_available_ s) eqn:Er; cbn [negb].
  - unfold partition_weighted. set (wanted := filter _ _). set (others := filter (fun x => test bs (slice_part x.2) = false) _).
    pose proof (partition_perm bs (weighted_parts_to_use_ s)) as Hperm. fold wanted others in Hperm.
    set (s' := set_indices _ _ s). unfold addBasicParts. rewrite Eoff.
    assert (NoDup (snd <$> weighted_parts_to_use_ s')) as Hwd' by (cbn; by rewrite Hperm).
    assert (∀ x, x ∈ snd <$> weighted_parts_to_use_ s' → ∃ q, x = part_id t q ∧ part_of t q) as Hwt' by (intros x; cbn; rewrite Hperm; apply weighted_part).
    destruct (addParts_spec B HB t rs Hnd fb bc Hfb Hbc s' Hidx Hwd' Hwt' empty_plan _ (Z.of_nat (length wanted)) 0 (empty_partial _)) as (p & slots & E0 & Hp & Hr & Hc).
    rewrite E0. apply addParts_new in E0 as (new & En & Hnew). cbn [empty_plan read_operations app] in En. rewrite <- En in Hnew. clear new En.
    assert (∀ x, x ∈ fst <$> read_operations p ↔ x ∈ available ∧ ChunkPartType.getSliceType x = t ∧ ChunkPartType.getSlicePart x ∈ rs) as Hbasic.
    { intros x. destruct Hp as [_ _ _ _ _ _ Hpre]. cbn [s' set_indices weighted_parts_to_use_] in Hpre, Hc. cbn [empty_plan read_operations length] in Hc. rewrite length_app in Hc.
      assert (length (read_operations p) = length wanted) as El by lia. rewrite Hpre, El, fmap_app, take_app_length' by (by rewrite length_fmap). by apply wanted_part. }
    assert (∀ r, r ∈ rs → part_id t r ∈ fst <$> read_operations p) as Hwave by (apply basic_requested; done).
    destruct extra.
    + destruct (addExtraParts_spec B HB t rs Hnd fb bc Hfb Hbc s' Hidx Hwd' Hwt' overuse p slots Hp Hr) as (p' & slots' & E1 & Hp' & Hr' & Hc').
      rewrite E1. cbn [mbind res_bind]. do 2 eexists. split; [done |]. eapply partial_slice_plan; [done | done | |].
      * intros x. rewrite (all_parts_read _ _ _ Hperm Hp' Hc'). tauto.
      * rewrite Er, (first_wave_extended _ _ (addExtraParts_extended _ _ _ _ _ _ _ _ _ E1) Hnew). done.
    + do 2 eexists. split; [done |]. eapply partial_slice_plan; [done | done | |].
      * intros x. rewrite Hbasic. naive_solver congruence.
      * rewrite Er. unfold first_wave. by rewrite filter_all by (by apply Forall_forall).
  - set (s' := set_indices _ _ s). unfold addBasicParts. rewrite Eoff.
    match goal with |- context [addParts B s' empty_plan fb bc ?count 0] =>
      destruct (addParts_spec B HB t rs Hnd fb bc Hfb Hbc s' Hidx Hwd weighted_part empty_plan _ count 0 (empty_partial _)) as (p & slots & E0 & Hp & Hr & Hc) end.
    rewrite E0. apply addParts_new in E0 as (new & En & Hnew). cbn [empty_plan read_operations app] in En. rewrite <- En in Hnew. clear new En.
    destruct (addExtraParts_spec B HB t rs Hnd fb bc Hfb Hbc s' Hidx Hwd weighted_part overuse p slots Hp Hr) as (p' & slots' & E1 & Hp' & Hr' & Hc').
    rewrite E1. cbn [mbind res_bind]. do 2 eexists. split; [done |]. eapply partial_slice_plan; [done | done | |].
    + intros x. rewrite (all_parts_read _ _ _ (Permutation_refl _) Hp' Hc'). tauto.
    + rewrite Er, (first_wave_extended _ _ (addExtraParts_extended _ _ _ _ _ _ _ _ _ E1) Hnew), length_fmap, Hc. destruct (pr_enough _ _ _ _ Hs) as [| Hk]; [congruence |].
      cbn [s' set_indices weighted_parts_to_use_ empty_plan read_operations length slice_type_]. unfold requiredPartsToRecover. rewrite Et. lia.
Qed.

(** Reading is finished with the requested parts, or with as many parts as the slice has data parts. *)
Lemma parts_enough slots p l : planned B t fb bc rs slots p → (∀ x, x ∈ l → x ∈ fst <$> read_operations p) →
  (∀ r, r ∈ rs → part_id t r ∈ l) ∨ getNumberOfDataParts t <= Z.of_nat (length l) → isReadingFinished p l = Ok true.
Proof using Hvalid Hrs Hfb.
  intros Hpl Hl Hor. unfold isReadingFinished, requiredPartsToRecover. rewrite (pl_type _ _ _ _ _ _ _ Hpl).
  destruct (Z.leb_spec (getNumberOfDataParts t) (Z.of_nat (length l))) as [| Hlt]; [done |]. destruct Hor as [Hreq |]; [| lia].
  pose proof (pl_valid _ _ _ _ _ _ _ Hpl) as Hv. assert (0 <= t) as Ht by type_lia. destruct (part_bits_spec t l no_bits Ht eq_refl) as (bs & -> & _ & Hbs).
  { intros x [[type op] [-> Hop]]%Hl%list_elem_of_fmap. destruct (pl_ops _ _ _ _ _ _ _ Hpl _ _ Hop) as (q & _ & -> & Hq & _). destruct (part_of_range t q Hq). by exists q. }
  cbn [mbind res_bind]. f_equal. apply forallb_forall. intros info Hinfo%list_elem_of_In. rewrite (pl_requested _ _ _ _ _ _ _ Hpl) in Hinfo.
  apply list_elem_of_fmap in Hinfo as (r & -> & Hr). cbn [ri_part]. destruct (part_of_range t r (Hrs r Hr)). rewrite Hbs, test_no_bits by done.
  by apply bool_decide_eq_true, Hreq.
Qed.

(** When every operation succeeds, reading is finished. *)
Lemma slice_plan_enough extra p : slice_plan extra p → isReadingFinished p (fst <$> read_operations p) = Ok true.
Proof using Hvalid Hrs Hfb.
  intros [[slots [Hpl _]] _ _ Hfirst]. assert (∀ x, x ∈ first_wave p → x ∈ fst <$> read_operations p) as Hsub.
  { intros x Hx. eapply elem_of_sublist; [exact Hx | apply fmap_sublist, sublist_filter]. }
  assert (length (first_wave p) ≤ length (fst <$> read_operations p))%nat as Hlen by (apply sublist_length, fmap_sublist, sublist_filter).
  apply (parts_enough slots); try done. destruct (required_parts_available_ s); [left; by eauto | right; lia].
Qed.
End slice_plan.

(** ** checkPlan *)

Section check.
Context (B : Z) (HB : 0 < B) (t fb bc : Z) (rs : list Z) (slots : Z) (p : plan) (Hpl : planned B t fb bc rs slots p).
Let P := bc * B.

(** The place of an operation. *)
Lemma operation_bounds type op : (type, op) ∈ read_operations p →
  ChunkPartType.isValid type = Ok true ∧ 0 <= request_offset op ∧ 0 <= request_size op <= P ∧ request_offset op + request_size op <= SFSBLOCKSINCHUNK * B ∧
  0 <= buffer_offset op ∧ buffer_offset op + P <= read_buffer_size p ∧ ∃ s, buffer_offset op = s * P.
Proof using HB Hpl.
  intros Hop. destruct (pl_ops _ _ _ _ _ _ _ Hpl _ _ Hop) as (q & s & -> & Hq & Esz & Eoff & Ebuf & Hs & _ & _). destruct (part_of_range t q Hq) as [Hq64 Ht].
  destruct (size_of_bounds B HB t fb bc rs slots p Hpl q Hq) as [Hsz _]. pose proof (first_stored B t fb bc rs slots p Hpl q Hq) as Hst. pose proof Hq as [Hv Hq'].
  pose proof (pl_first _ _ _ _ _ _ _ Hpl). pose proof (pl_count _ _ _ _ _ _ _ Hpl). pose proof (P_pos B HB t fb bc rs slots p Hpl) as HP. fold P in HP, Hsz.
  assert (getNumberOfBlocks (part_id t q) SFSBLOCKSINCHUNK <= SFSBLOCKSINCHUNK) as Hmax.
  { rewrite stored_blocks_spec by done. pose proof (row_index_bounds t q Hq). apply Z.div_le_upper_bound; [lia |]. unfold SFSBLOCKSINCHUNK. nia. }
  split; [unfold ChunkPartType.isValid; rewrite part_id_type, part_id_part, Hv, expectedParts_valid by done; cbn [mbind res_bind]; by rewrite (proj2 (Z.ltb_lt _ _)) by lia |].
  rewrite Esz, Eoff, Ebuf, (pl_buffer _ _ _ _ _ _ _ Hpl). fold P. split; [nia |]. split; [exact Hsz |]. split; [unfold bytes_to_read; nia |].
  split; [nia |]. split; [nia |]. by exists s.
Qed.

Lemma no_overlap e e' : e ∈ read_operations p → e' ∈ read_operations p → e ≠ e' → 0 < request_size (snd e) → 0 < request_size (snd e') → overlap (snd e) (snd e') = false.
Proof using HB Hpl.
  destruct e as [type op], e' as [type' op']. intros He He' Hne H0 H0'. cbn [snd] in *.
  destruct (operation_bounds _ _ He) as (_ & _ & Hsz & _ & _ & _ & s & Es). destruct (operation_bounds _ _ He') as (_ & _ & Hsz' & _ & _ & _ & s' & Es').
  assert (s ≠ s') as Hs by (intros <-; apply Hne, (pl_disjoint _ _ _ _ _ _ _ Hpl); [done | done | cbn; congruence]).
  unfold overlap. rewrite Es, Es'. apply orb_false_iff. split; [apply orb_false_iff; split |]; apply andb_false_iff.
  all: assert (s <= s' - 1 ∨ s' <= s - 1) as [Hlt | Hlt] by lia.
  all: rewrite ?Z.leb_gt, ?Z.ltb_ge, ?Z.leb_le, ?Z.ltb_lt; nia.
Qed.

Lemma check_others_spec i type op : (∃ e, read_operations p !! i = Some e ∧ e = (type, op)) → 0 < request_size op →
  ∀ ops j, (∀ n e, ops !! n = Some e → read_operations p !! (j + n)%nat = Some e) → check_others i j type op ops = true.
Proof using HB Hpl.
  intros (e & Hi & ->) H0. induction ops as [| [type2 op2] ops IH]; intros j Hops; [done |]. cbn [check_others]. apply andb_true_iff. split.
  - destruct (Nat.eqb_spec i j) as [| Hij]; [done |]. cbn [orb]. specialize (Hops 0%nat _ eq_refl). rewrite Nat.add_0_r in Hops.
    assert (type ≠ type2) as Ht.
    { intros <-. apply Hij. apply (NoDup_lookup (fst <$> read_operations p) i j type (pl_distinct _ _ _ _ _ _ _ Hpl)); rewrite list_lookup_fmap; [by rewrite Hi | by rewrite Hops]. }
    rewrite (proj2 (Z.eqb_neq _ _)) by done. cbn [negb andb]. destruct (Z.leb_spec (request_size op2) 0); [done |]. cbn [orb]. apply negb_true_iff.
    apply (no_overlap (type, op) (type2, op2)); [by eapply list_elem_of_lookup_2 | by eapply list_elem_of_lookup_2 | congruence | done | done].
  - apply IH. intros n e Hn. rewrite <- (Hops (S n) e Hn). f_equal. lia.
Qed.

Lemma check_operations_spec ops : ∀ i, (∀ n e, ops !! n = Some e → read_operations p !! (i + n)%nat = Some e) → check_operations B p i ops = Ok tt.
Proof using HB Hpl.
  induction ops as [| [type op] ops IH]; intros i Hops; [done |]. cbn [check_operations].
  assert (read_operations p !! i = Some (type, op)) as Hi by (rewrite <- (Nat.add_0_r i); by apply Hops).
  destruct (operation_bounds type op) as (-> & H1 & H2 & H3 & H4 & H5 & _); [by eapply list_elem_of_lookup_2 |]. cbn [mbind res_bind]. unfold assertion.
  rewrite !(proj2 (Z.leb_le 0 _)), (proj2 (Z.leb_le _ (SFSBLOCKSINCHUNK * B))), (proj2 (Z.leb_le _ (read_buffer_size p))) by lia. cbn [andb].
  destruct (Z.leb_spec (request_size op) 0); cbn [orb].
  - apply IH. intros n e Hn. rewrite <- (Hops (S n) e Hn). f_equal. lia.
  - rewrite check_others_spec; [| by exists (type, op) | done | by intros n e Hn].
    apply IH. intros n e Hn. rewrite <- (Hops (S n) e Hn). f_equal. lia.
Qed.

(** The plan passes the check. *)
Lemma checkPlan_spec : (∀ x, x ∈ postprocess_operations p → 0 <= fst x) → checkPlan B p = Ok tt.
Proof using HB Hpl.
  intros Hpost. unfold checkPlan. rewrite check_operations_spec by done. cbn [mbind res_bind]. unfold assertion.
  replace (forallb _ _) with true by (symmetry; apply forallb_forall; intros x Hx%list_elem_of_In; by apply Z.leb_le, Hpost).
  assert (0 <= readOffset p) as Hoff.
  { unfold readOffset. clear -Hpost. induction (postprocess_operations p) as [| x l IH]; [done |]. rewrite fmap_cons, zsum_cons.
    pose proof (Hpost x ltac:(left)). specialize (IH ltac:(intros; apply Hpost; by right)). lia. }
  destruct (pl_parts _ _ _ _ _ _ _ Hpl) as (_ & Hne & _). pose proof (pl_slots _ _ _ _ _ _ _ Hpl). pose proof (pl_count _ _ _ _ _ _ _ Hpl).
  assert (0 < Z.of_nat (length rs)) by (destruct rs; [done | cbn; lia]). pose proof (P_pos B HB t fb bc rs slots p Hpl) as HP.
  assert (0 < slots * (bc * B)) by (apply Z.mul_pos_pos; lia). unfold buffer_read, buffer_end, fullBufferSize. rewrite (pl_buffer _ _ _ _ _ _ _ Hpl).
  rewrite (proj2 (Z.leb_le 0 (readOffset p))), (proj2 (Z.ltb_lt (readOffset p) _)), (proj2 (Z.ltb_lt 0 _)) by lia. done.
Qed.
End check.
