(* ===== verification/ChunkReads.v ===== *)
(** * Reading and recovering chunks

    The plans of ChunkReadPlanner return the requested blocks of a chunk, whichever parts
    arrive ([chunk_read_exact]). *)

From Stdlib Require Import Strings.Byte QArith.
From S2P Require Import Prelude GaloisField ErasureCode CodeMatrix ReedSolomon SliceTraits ReadPlans ReadPlanFacts PostProcess PlanBuilding.
Import SliceType SliceTraits.
Open Scope Z_scope.

(** ** The parts that hold a range of blocks *)

Definition first_data (t : Z) : Z := if isXor t then 1 else 0.

(** The position of the part that holds a block. *)
Definition position (k first_required x : Z) : Z :=
  let part := Z.rem x k - first_required in if part <? 0 then part + k else part.

Section required.
Context (t : Z) (Hvalid : isValid t = true) (first count : Z) (Hfirst : 0 <= first) (Hcount : 0 < count).
Let k := getNumberOfDataParts t.
Let rs := getRequiredParts t first count.

Lemma k_bounds : 1 <= k <= 32.
Proof using Hvalid. by apply number_of_parts_bounds. Qed.

Lemma data_part d : 0 <= d < k → part_of t (d + first_data t).
Proof using Hvalid.
  intros Hd. pose proof (number_of_parts_bounds t Hvalid). split; [done |]. unfold first_data. fold k. destruct (isXor t) eqn:Ex; [| lia].
  assert (getNumberOfParityParts t = 1) by (unfold getNumberOfParityParts; by rewrite Ex). lia.
Qed.

(** The position of block [first + i] when fewer blocks than parts are read. *)
Lemma short_range i : count < k → 0 <= i < count →
  Z.rem (first + i) k = (if decide (first mod k + i < k) then first mod k + i else first mod k + i - k).
Proof using Hvalid Hfirst.
  intros Hc Hi. pose proof k_bounds. rewrite Z.rem_mod_nonneg by lia. pose proof (Z.mod_pos_bound first k ltac:(lia)).
  pose proof (Z.div_mod first k ltac:(lia)) as E. destruct (decide _).
  - symmetry. apply (Z.mod_unique_pos _ _ (first / k)); lia.
  - symmetry. apply (Z.mod_unique_pos _ _ (first / k + 1)); lia.
Qed.

(** The first part, the distinct parts, and where each block is found. *)
Record required_spec : Prop := {
  rq_distinct : NoDup rs;
  rq_parts : ∀ r, r ∈ rs → 0 <= r - first_data t < k;
  rq_some : rs ≠ [];
  rq_position : ∀ x, first <= x < first + count →
    0 <= position k (nth 0 rs 0 - first_data t) x ∧
    rs !! Z.to_nat (position k (nth 0 rs 0 - first_data t) x) = Some (Z.rem x k + first_data t);
}.

Lemma required_parts_spec : required_spec.
Proof using Hvalid Hfirst Hcount.
  pose proof k_bounds as Hk. assert (∃ l, rs = l) as [l Hrs] by eauto. pose proof Hrs as El. unfold rs, getRequiredParts in El.
  change (requiredPartsToRecover t) with k in El. change (if isXor t then 1 else 0) with (first_data t) in El. set (fd := first_data t) in *. pose proof (Z.mod_pos_bound first k ltac:(lia)) as Hfp.
  destruct (Z.leb_spec k count) as [Hc | Hc].
  - rewrite <- El in Hrs. assert (seqZ fd k !! 0%nat = Some fd) as E0 by (change 0%nat with (Z.to_nat 0); rewrite lookup_seqZ_lt by lia; f_equal; lia).
    split; rewrite ?Hrs.
    + apply NoDup_seqZ.
    + intros r Hr%elem_of_seqZ. fold fd. lia.
    + intros E. by rewrite E in E0.
    + intros x Hx. fold fd. rewrite (nth_lookup_Some _ _ _ _ E0), Z.sub_diag. unfold position. rewrite Z.sub_0_r.
      pose proof (Z.rem_bound_pos x k ltac:(lia) ltac:(lia)). rewrite (proj2 (Z.ltb_ge _ _)) by lia. split; [lia |].
      rewrite lookup_seqZ_lt by lia. f_equal. lia.
  - pose proof (short_range 0 Hc ltac:(lia)) as E0. rewrite Z.add_0_r, decide_True, Z.add_0_r in E0 by lia.
    pose proof (short_range (count - 1) Hc ltac:(lia)) as E1. replace (first + (count - 1)) with (first + count - 1) in E1 by lia.
    rewrite E0, E1 in El. set (fp := first mod k) in *. assert (∀ i, 0 <= i < count → l !! Z.to_nat i = Some ((if decide (fp + i < k) then fp + i else fp + i - k) + fd)) as Hl.
    { intros i Hi. rewrite <- El. destruct (decide (fp + (count - 1) < k)).
      - rewrite (proj2 (Z.leb_le _ _)) by lia. rewrite decide_True, lookup_seqZ_lt by lia. f_equal. lia.
      - rewrite (proj2 (Z.leb_gt _ _)) by lia. destruct (decide (fp + i < k)).
        + rewrite lookup_app_l by (rewrite length_seqZ; lia). rewrite lookup_seqZ_lt by lia. f_equal. lia.
        + rewrite lookup_app_r by (rewrite length_seqZ; lia). rewrite length_seqZ. replace (Z.to_nat i - Z.to_nat (k - fp))%nat with (Z.to_nat (i - (k - fp))) by lia.
          rewrite lookup_seqZ_lt by lia. f_equal. lia. }
    assert (Z.of_nat (length l) = count) as Hlen.
    { rewrite <- El. destruct (decide (fp + (count - 1) < k)).
      - rewrite (proj2 (Z.leb_le _ _)) by lia. rewrite length_seqZ. lia.
      - rewrite (proj2 (Z.leb_gt _ _)) by lia. rewrite length_app, !length_seqZ. lia. }
    pose proof (Hl 0 ltac:(lia)) as H0. rewrite decide_True, Z.add_0_r in H0 by lia. change (Z.to_nat 0) with 0%nat in H0.
    split; rewrite ?Hrs.
    + apply NoDup_alt. intros i j r Hi Hj. pose proof (lookup_lt_Some _ _ _ Hi). pose proof (lookup_lt_Some _ _ _ Hj).
      rewrite <- (Nat2Z.id i), Hl in Hi by lia. rewrite <- (Nat2Z.id j), Hl in Hj by lia. injection Hi as Hi. injection Hj as Hj.
      destruct (decide (fp + Z.of_nat i < k)), (decide (fp + Z.of_nat j < k)); lia.
    + intros r [i Hi]%list_elem_of_lookup. pose proof (lookup_lt_Some _ _ _ Hi). rewrite <- (Nat2Z.id i), Hl in Hi by lia. fold fd. injection Hi as Hi. destruct (decide (fp + Z.of_nat i < k)); lia.
    + intros E. by rewrite E in H0.
    + intros x Hx. fold fd. rewrite (nth_lookup_Some _ _ _ _ H0). pose proof (short_range (x - first) Hc ltac:(lia)) as Ex. replace (first + (x - first)) with x in Ex by lia. fold fp in Ex.
      assert (position k (fp + fd - fd) x = x - first) as ->.
      { unfold position. rewrite Ex. destruct (decide (fp + (x - first) < k)); [rewrite (proj2 (Z.ltb_ge _ _)) by lia | rewrite (proj2 (Z.ltb_lt _ _)) by lia]; lia. }
      split; [lia |]. rewrite Hl by lia. by rewrite Ex.
Qed.
End required.

(** ** Conversion of parts to a range of blocks *)

Section reading.
Context (c : cpu) (addr B : Z) (HB : 0 < B) (chunk : Z → list byte).
Hypothesis Hsized : sized B chunk.
Hypothesis Hbeyond : ∀ i, SFSBLOCKSINCHUNK <= i → chunk i = replicate (Z.to_nat B) x00.

Lemma data_part_block t d j : isValid t = true → 0 <= d < getNumberOfDataParts t →
  part_block B chunk t (d + first_data t) j = chunk (j * getNumberOfDataParts t + d).
Proof using Hsized.
  intros Hv Hd. unfold first_data. destruct (isXor t) eqn:Ex.
  - unfold part_block. rewrite Ex. unfold kXorParityPart. rewrite (proj2 (Z.eqb_neq _ _)) by lia. f_equal. lia.
  - rewrite Z.add_0_r. destruct (isEC t) eqn:Ee; [by apply ec_data_part |]. unfold part_block. rewrite Ex, Ee. f_equal.
    assert (getNumberOfDataParts t = 1) by (unfold getNumberOfDataParts; by rewrite Ex, Ee). lia.
Qed.

Section conversion.
Context (t : Z) (Hvalid : isValid t = true) (first count : Z) (Hfirst : 0 <= first) (Hcount : 0 < count).
Let k := getNumberOfDataParts t.
Let rs := getRequiredParts t first count.
Let fb := Z.quot first k.
Let bc := Z.quot (first + count - 1) k - fb + 1.
Let P := bc * B.
Context (slots : Z) (p : plan) (Hpl : planned B t fb bc rs slots p) (Hoff : 0 <= readOffset p).
Let base := readOffset p.

Definition slots_filled (b : list byte) : Prop := ∀ j r, rs !! j = Some r → slot base P b (Z.of_nat j) = part_bytes B chunk t r fb bc.

(** The place a block is copied from. *)
Lemma block_source b x : first <= x < first + count → Z.of_nat (length b) = fullBufferSize p → slots_filled b →
  let src := base + (position k (nth 0 rs 0 - first_data t) x * bc + (Z.quot x k - fb)) * B in
  0 <= Z.quot x k - fb ∧ base <= src ∧ src + B <= fullBufferSize p ∧ bytes_at src B b = chunk x.
Proof using HB Hsized Hvalid Hfirst Hcount Hpl Hoff.
  intros Hx Hl Hb src. pose proof (k_bounds t Hvalid) as Hk. fold k in Hk. destruct (required_parts_spec t Hvalid first count Hfirst Hcount) as [_ _ _ Hpos].
  fold k rs in Hpos. destruct (Hpos x Hx) as [H0 Hr]. set (q := position _ _ _) in *. pose proof (lookup_lt_Some _ _ _ Hr) as Hq.
  pose proof (pl_slots _ _ _ _ _ _ _ Hpl) as Hs. destruct (buffer_slots B t fb bc rs slots p Hpl b Hl) as [Hsl Hend]. fold base P in Hsl, Hend. unfold has_slots in Hsl.
  assert (fb <= Z.quot x k < fb + bc) as Hblock.
  { unfold bc, fb. rewrite !Z.quot_div_nonneg by lia. pose proof (Z.div_le_mono first x k ltac:(lia) ltac:(lia)).
    pose proof (Z.div_le_mono x (first + count - 1) k ltac:(lia) ltac:(lia)). lia. }
  assert (0 < P) as HP by (unfold P; nia). set (o := (Z.quot x k - fb) * B).
  assert (src = base + q * P + o) as Esrc by (unfold src, P, o; lia). assert (0 <= o ∧ o + B <= P) as [Ho1 Ho2] by (unfold o, P; nia).
  unfold buffer_end in Hend. assert (0 <= base) as Hbase by done. split; [lia |]. split; [nia |]. split; [nia |].
  rewrite Esrc. rewrite (slot_piece base P Hoff HP slots) by (unfold has_slots; lia).
  replace q with (Z.of_nat (Z.to_nat q)) by lia. rewrite (Hb _ _ Hr). unfold part_bytes, o.
  assert (0 <= Z.rem x k < k) as Hrem by (apply Z.rem_bound_pos; lia).
  rewrite (blocks_of_nth B HB); [| apply part_block_sized; [done | by apply data_part] | lia].
  rewrite data_part_block by done. f_equal. fold k. pose proof (Z.quot_rem' x k). lia.
Qed.

Lemma convert_blocks_go d0 n : 0 <= d0 → d0 + count * B <= base → ∀ i b, 0 <= i → i + Z.of_nat n = count → Z.of_nat (length b) = fullBufferSize p →
  bytes_at d0 (i * B) b = blocks_of chunk first i → slots_filled b →
  ∃ b', convert_blocks B n p i first fb bc (nth 0 rs 0 - first_data t) k (d0 + i * B) base b = Ok b' ∧ length b' = length b ∧
    bytes_at d0 (count * B) b' = blocks_of chunk first count.
Proof using HB Hsized Hvalid Hfirst Hcount Hpl Hoff.
  intros Hd0 Hbase. induction n as [| n IH]; intros i b Hi Hn Hl Hdone Hb.
  - exists b. assert (i = count) as -> by lia. done.
  - destruct (block_source b (first + i) ltac:(lia) Hl Hb) as (Hblk & Hs1 & Hs2 & Hval). unfold position in *. cbn [convert_blocks].
    set (q := if _ <? 0 then _ else _) in *. set (src := base + _) in *. unfold assertion, in_buffer, buffer_read. rewrite (proj2 (Z.leb_le 0 (_ - fb))) by lia.
    fold base. rewrite (proj2 (Z.leb_le 0 (d0 + i * B))), (proj2 (Z.leb_le (d0 + i * B + B) base)) by nia. cbn [andb].
    rewrite Z.leb_refl. unfold buffer_end. rewrite (proj2 (Z.leb_le (base + B) _)) by (unfold src in *; lia). cbn [andb].
    unfold memcpy. replace (base + (q * bc + ((first + i) `quot` k - fb)) * B) with src by done. rewrite Hval.
    set (b1 := write_at _ _ b). assert (0 <= base <= Z.of_nat (length b)) as Hb0 by (split; [done | lia]). assert (Z.of_nat (length (chunk (first + i))) = B) as HlB by (rewrite Hsized; lia).
    assert (length b1 = length b) as Hl1 by (apply length_write_at; nia).
    replace (d0 + i * B + B) with (d0 + (i + 1) * B) by lia.
    destruct (IH (i + 1) b1) as (b' & E & Hl' & Hres); [lia | lia | by rewrite Hl1 | | |].
    + replace ((i + 1) * B) with (i * B + B) by lia. rewrite blocks_of_app, blocks_of_1, <- Hdone by lia. rewrite <- HlB at 2. unfold b1.
      apply bytes_at_extend; nia.
    + intros j r Hj. rewrite <- (Hb j r Hj). unfold slot, b1. pose proof (pl_count _ _ _ _ _ _ _ Hpl). apply bytes_at_other; unfold P; nia.
    + exists b'. split; [exact E |]. split; [lia | done].
Qed.
End conversion.

(** ** The plan of ChunkReadPlanner *)

(** The planner when a slice was found that can be read. *)
Record chunk_prepared (t first count : Z) (available : list Z) (s : ChunkReadPlanner) : Prop := {
  cr_valid : isValid t = true;
  cr_type : read_from_type_ s = t;
  cr_parts : read_parts_ s = getRequiredParts t first count;
  cr_planner : prepared t available (getRequiredParts t first count) (read_planner_ s);
  cr_first : part_first_block_ s = Z.quot first (getNumberOfDataParts t);
  cr_count : part_block_count_ s = Z.quot (first + count - 1) (getNumberOfDataParts t) - Z.quot first (getNumberOfDataParts t) + 1;
  cr_chunk : chunk_first_block_ s = first ∧ chunk_block_count_ s = count;
}.

(** A slice can be read: the parts that hold the blocks, or enough parts to recover. *)
Definition readable (t first count : Z) (available : list Z) : Prop :=
  (∀ r, r ∈ getRequiredParts t first count → part_id t r ∈ available) ∨
  getNumberOfDataParts t <= Z.of_nat (ReedSolomon.count (available_bits t available)).

Lemma getTypeList_spec available t : t ∈ getTypeList available ↔ ∃ x, x ∈ available ∧ ChunkPartType.getSliceType x = t.
Proof using.
  clear. unfold getTypeList. set (f := fun _ _ => _). enough (∀ l, t ∈ foldl f l available ↔ t ∈ l ∨ ∃ x, x ∈ available ∧ ChunkPartType.getSliceType x = t) as H.
  { rewrite H, elem_of_nil. tauto. }
  induction available as [| x available IH]; intros l; cbn [foldl].
  - split; [by left |]. intros [? | (x & ?%elem_of_nil & _)]; done.
  - rewrite IH. unfold f. setoid_rewrite elem_of_cons. case_bool_decide; rewrite ?elem_of_app, ?list_elem_of_singleton; naive_solver.
Qed.

Section planning.
Context (first count : Z) (Hfirst : 0 <= first) (Hcount : 0 < count) (available : list Z) (Hav : valid_parts available).

Lemma type_valid t : t ∈ getTypeList available → isValid t = true.
Proof using Hav. intros (x & Hx & <-)%getTypeList_spec. by destruct (valid_parts_inv _ _ Hav Hx) as [_ [? _]]. Qed.

Lemma required_part_of t r : isValid t = true → r ∈ getRequiredParts t first count → part_of t r.
Proof using Hfirst Hcount.
  intros Hv Hr. destruct (required_parts_spec t Hv first count Hfirst Hcount) as [_ Hp _ _].
  replace r with (r - first_data t + first_data t) by lia. apply data_part; [done |]. by apply Hp.
Qed.

Lemma scan_types_spec types : (∀ t, t ∈ types → isValid t = true) → ∀ s,
  let s' := scan_types types first count available s in
  (is_reading_possible_ s' = true ↔ ∃ t, t ∈ types ∧ readable t first count available) ∧
  (is_reading_possible_ s' = true → ∃ t, t ∈ types ∧ chunk_prepared t first count available s').
Proof using Hfirst Hcount Hav.
  induction types as [| t types IH]; intros Hv s; cbn [scan_types].
  - split; [| done]. split; [done |]. intros (t & ?%elem_of_nil & _). done.
  - assert (isValid t = true) as Ht by (apply Hv; left).
    destruct (prepare_spec t Ht available Hav (getRequiredParts t first count) (read_planner_ s) (fun r => required_part_of t r Ht)) as [Hcan Hprep].
    set (planner := prepare _ _ _ _) in *. destruct (can_read_ planner) eqn:Ec.
    + split; [split; [intros _; exists t; split; [left | by apply Hcan] | done] |]. intros _. exists t. split; [left |]. split; try done. by apply Hprep.
    + match goal with |- context [scan_types types first count available ?s1] => destruct (IH ltac:(intros; apply Hv; by right) s1) as [H1 H2] end.
      split; [rewrite H1 | intros H; destruct (H2 H) as (t' & ? & ?); exists t'; split; [by right | done]].
      setoid_rewrite elem_of_cons. split; [naive_solver |]. intros (t' & [-> | Ht'] & Hr); [by apply Hcan in Hr | eauto].
Qed.

(** Reading is possible exactly when some slice can be read. *)
Lemma chunk_prepare_spec s : ∃ s', chunk_prepare first count available s = Ok s' ∧
  (is_reading_possible_ s' = true ↔ ∃ x, x ∈ available ∧ readable (ChunkPartType.getSliceType x) first count available) ∧
  (is_reading_possible_ s' = true → ∃ t, chunk_prepared t first count available s').
Proof using Hfirst Hcount Hav.
  unfold chunk_prepare, assertion. rewrite (proj2 (Z.leb_le 0 first)), (proj2 (Z.ltb_lt 0 count)), (proj2 (Z.eqb_neq (first + count) 0)) by lia. cbn [negb andb].
  eexists. split; [done |]. destruct (scan_types_spec (getTypeList available) type_valid s) as [H1 H2]. split.
  - rewrite H1. setoid_rewrite getTypeList_spec. naive_solver.
  - intros H. destruct (H2 H) as (t & _ & ?). eauto.
Qed.
End planning.

Definition with_postprocess (p : plan) (more : list (Z * postprocess)) : plan :=
  {| class := class p; slice_type := slice_type p; read_buffer_size := read_buffer_size p; read_operations := read_operations p;
     requested_parts := requested_parts p; buffer_part_size := buffer_part_size p; postprocess_operations := postprocess_operations p ++ more |}.

Definition stripes (t first count : Z) : Z := Z.quot (first + count - 1) (getNumberOfDataParts t) - Z.quot first (getNumberOfDataParts t) + 1.

Record chunk_plan (t first count : Z) (available : list Z) (p : plan) : Prop := {
  cp_valid : isValid t = true;
  cp_planned : ∃ slots, planned B t (Z.quot first (getNumberOfDataParts t)) (stripes t first count) (getRequiredParts t first count) slots p ∧
    slots <= getNumberOfDataParts t + getNumberOfParityParts t;
  cp_reads : ∀ x, x ∈ fst <$> read_operations p ↔ x ∈ available ∧ ChunkPartType.getSliceType x = t;
  cp_postprocess : postprocess_operations p =
    if isStandard t then [] else
    [(count * B, BlockConverter first count (Z.quot first (getNumberOfDataParts t)) (stripes t first count)
       (nth 0 (getRequiredParts t first count) 0 - first_data t) (getNumberOfDataParts t))];
  cp_enough : isReadingFinished p (fst <$> read_operations p) = Ok true;
  cp_first : (∀ r, r ∈ getRequiredParts t first count → part_id t r ∈ first_wave p) ∨ getNumberOfDataParts t <= Z.of_nat (length (first_wave p));
  cp_some : first < SFSBLOCKSINCHUNK → ∃ type op, (type, op) ∈ read_operations p ∧ wave op = 0 ∧ 0 < request_size op;
}.

Lemma row_index_data t d : isValid t = true → 0 <= d < getNumberOfDataParts t → row_index (part_id t (d + first_data t)) = d.
Proof using.
  intros Hv Hd. destruct (part_of_range t _ (data_part t Hv d Hd)). unfold row_index, isDataPart, isParityPart, isXorParity, ec_isParityPart, getDataPartIndex, getNumberOfDataParts, first_data in *.
  rewrite part_id_type, part_id_part by done. destruct (isXor t) eqn:Ex.
  - cbn [andb]. unfold kXorParityPart. rewrite (proj2 (Z.eqb_neq _ _)) by lia. cbn [negb]. lia.
  - destruct (isEC t) eqn:Ee; cbn [negb]; [rewrite (proj2 (Z.leb_gt _ _)) by lia; cbn [negb]; lia | lia].
Qed.

Lemma row_index_inj t q : part_of t q → 0 < row_index (part_id t q) → row_index (part_id t q) = q - first_data t.
Proof using.
  intros Hq. destruct (part_of_range t q Hq). unfold row_index. destruct (isDataPart _); [| lia]. intros _. unfold getDataPartIndex, first_data.
  rewrite part_id_type, part_id_part by done. destruct (isXor t); lia.
Qed.

Lemma part_reads t q fb bc : part_of t q → 0 < bc → fb * getNumberOfDataParts t + row_index (part_id t q) < SFSBLOCKSINCHUNK →
  0 < bytes_to_read B (part_id t q) fb bc.
Proof using HB. intros Hq Hbc Hrow%stored_blocks_exact; [| done]. unfold bytes_to_read. nia. Qed.

(** Among as many parts as there are data parts, one is as long as the first. *)
Lemma some_full_part t l : isValid t = true → NoDup l → (∀ x, x ∈ l → ∃ q, x = part_id t q ∧ part_of t q) → getNumberOfDataParts t <= Z.of_nat (length l) →
  ∃ q, part_id t q ∈ l ∧ part_of t q ∧ row_index (part_id t q) = 0.
Proof using.
  intros Hv Hnd Hl Hk. destruct (decide (Exists (fun x => row_index x = 0) l)) as [(x & Hx & E)%Exists_exists | Hno].
  { destruct (Hl x Hx) as (q & -> & Hq). by exists q. }
  exfalso. pose proof (k_bounds t Hv) as Hk0. assert (∀ x, x ∈ l → 0 < row_index x < getNumberOfDataParts t) as Hpos.
  { intros x Hx. destruct (Hl x Hx) as (q & -> & Hq). pose proof (row_index_bounds t q Hq). assert (row_index (part_id t q) ≠ 0); [| lia].
    intros E. apply Hno, Exists_exists. by exists (part_id t q). }
  assert (length (row_index <$> l) ≤ length (seqZ 1 (getNumberOfDataParts t - 1)))%nat as Hle.
  { apply submseteq_length, NoDup_submseteq.
    - apply NoDup_fmap_2_strong; [| done]. intros x y Hx Hy E. pose proof (Hpos x Hx). pose proof (Hpos y Hy).
      destruct (Hl x Hx) as (q & -> & Hq). destruct (Hl y Hy) as (q' & -> & Hq'). rewrite !row_index_inj in E by (done || lia). f_equal. lia.
    - intros i (x & -> & Hx)%list_elem_of_fmap. apply elem_of_seqZ. specialize (Hpos x Hx). lia. }
  rewrite length_fmap, length_seqZ in Hle. lia.
Qed.

(** The first wave of a plan reads something. *)
Lemma first_wave_positive t first count slots p : isValid t = true → 0 <= first < SFSBLOCKSINCHUNK → 0 < count →
  planned B t (Z.quot first (getNumberOfDataParts t)) (stripes t first count) (getRequiredParts t first count) slots p →
  ((∀ r, r ∈ getRequiredParts t first count → part_id t r ∈ first_wave p) ∨ getNumberOfDataParts t <= Z.of_nat (length (first_wave p))) →
  ∃ type op, (type, op) ∈ read_operations p ∧ wave op = 0 ∧ 0 < request_size op.
Proof using HB.
  intros Hv Hf Hc Hpl Hor. pose proof (k_bounds t Hv) as Hk. set (k := getNumberOfDataParts t) in *. set (fb := Z.quot first k) in *.
  pose proof (Z.quot_rem' first k) as Hqr. fold fb in Hqr. assert (0 <= Z.rem first k < k) as Hrem by (apply Z.rem_bound_pos; lia).
  assert (∃ q, part_id t q ∈ first_wave p ∧ part_of t q ∧ fb * k + row_index (part_id t q) < SFSBLOCKSINCHUNK) as (q & Hq & Hpo & Hrow).
  { destruct Hor as [Hreq | Hmany].
    - destruct (required_parts_spec t Hv first count ltac:(lia) Hc) as [_ _ _ Hpos]. destruct (Hpos first ltac:(lia)) as [_ Hr%list_elem_of_lookup_2].
      exists (Z.rem first k + first_data t). split; [by apply Hreq |]. split; [by apply data_part |]. rewrite row_index_data by done. lia.
    - destruct (some_full_part t (first_wave p) Hv) as (q & Hq & Hpo & E); [| | done |].
      + eapply sublist_NoDup; [apply (pl_distinct _ _ _ _ _ _ _ Hpl) |]. apply fmap_sublist, sublist_filter.
      + intros x ([type op] & -> & [_ Hop]%list_elem_of_filter)%list_elem_of_fmap. destruct (pl_ops _ _ _ _ _ _ _ Hpl _ _ Hop) as (q & _ & -> & Hq & _). by exists q.
      + exists q. rewrite E. split_and!; (done || lia). }
  apply list_elem_of_fmap in Hq as ([type op] & Et & [Hw Hop]%list_elem_of_filter). exists type, op. split; [done |]. split; [done |].
  destruct (pl_ops _ _ _ _ _ _ _ Hpl _ _ Hop) as (_ & _ & _ & _ & -> & _). cbn [fst] in Et. rewrite <- Et. apply part_reads; [done | apply (pl_count _ _ _ _ _ _ _ Hpl) | done].
Qed.

Lemma buildPlan_spec overuse t first count available s : 0 <= first <= SFSBLOCKSINCHUNK → 0 < count → valid_parts available →
  chunk_prepared t first count available s → ∃ s' p, buildPlan overuse B s = Ok (s', p) ∧ chunk_plan t first count available p.
Proof using HB.
  intros Hf Hc Hav [H1 H2 H3 H4 H5 H6 [H7 H8]]. pose proof (k_bounds t H1) as Hk.
  destruct (required_parts_spec t H1 first count ltac:(lia) Hc) as [Hnd _ Hne _].
  assert (0 < stripes t first count) as Hbc.
  { unfold stripes. rewrite !Z.quot_div_nonneg by lia. pose proof (Z.div_le_mono first (first + count - 1) (getNumberOfDataParts t) ltac:(lia) ltac:(lia)). lia. }
  assert (0 <= Z.quot first (getNumberOfDataParts t) <= SFSBLOCKSINCHUNK / getNumberOfDataParts t) as Hfb.
  { rewrite Z.quot_div_nonneg by lia. split; [apply Z.div_pos; lia | apply Z.div_le_mono; [lia | apply Hf]]. }
  pose proof (fun r => required_part_of first count (proj1 Hf) Hc t r H1) as Hpo.
  destruct (buildPlanFor_spec overuse B HB t H1 _ Hnd Hpo Hne _ (stripes t first count) Hfb Hbc available Hav (read_planner_ s) H4 true) as (s' & p & E & Hsp).
  pose proof (slice_plan_enough B t H1 _ Hpo _ _ Hfb available (read_planner_ s) true p Hsp) as Hen. destruct Hsp as [[slots [Hpl Hsl]] Hpp Hrd Hfw].
  assert ((∀ r, r ∈ getRequiredParts t first count → part_id t r ∈ first_wave p) ∨ getNumberOfDataParts t <= Z.of_nat (length (first_wave p))) as Hen0.
  { destruct (required_parts_available_ (read_planner_ s)); auto. }
  assert (first < SFSBLOCKSINCHUNK → ∃ type op, (type, op) ∈ read_operations p ∧ wave op = 0 ∧ 0 < request_size op) as Hsome.
  { intros Hlt. apply (first_wave_positive t first count slots); (done || lia). }
  unfold buildPlan. rewrite H5, H6. unfold stripes in E. rewrite E. cbn [mbind res_bind set_planner read_from_type_ read_parts_ chunk_first_block_ chunk_block_count_ part_first_block_ part_block_count_].
  rewrite H2, H3, H7, H8, H5, H6. destruct (isStandard t) eqn:Es.
  - do 2 eexists. split; [done |]. split; [done | by exists slots | | by rewrite Es | done | done | done]. intros x. rewrite Hrd. naive_solver.
  - do 2 eexists. split; [done |]. split; [done | | | rewrite Es | exact Hen | exact Hen0 | exact Hsome].
    + exists slots. split; [| done]. destruct Hpl. by split.
    + intros x. cbn [push_postprocess read_operations]. rewrite Hrd. naive_solver.
    + cbn [push_postprocess postprocess_operations]. rewrite Hpp. unfold first_data. destruct (isXor t); [done |]. by rewrite Z.sub_0_r.
Qed.

(** After the first steps of post-processing the blocks lie in front of what the next step writes. *)
Lemma chunk_stage t first count available p more got b : 0 <= first → 0 < count → 0 <= zsum (fst <$> more) →
  chunk_plan t first count available p → NoDup got → (∀ x, x ∈ got → x ∈ fst <$> read_operations p) →
  received B chunk (with_postprocess p more) got b → isReadingFinished (with_postprocess p more) got = Ok true →
  ∃ size b1 b', postProcessRead c addr (with_postprocess p more) (readOffset (with_postprocess p more)) got b = Ok (size, b1) ∧ 0 < size ∧
    postprocess_loop c addr B (with_postprocess p more) (postprocess_operations p) (readOffset (with_postprocess p more)) size b1 =
      Ok (zsum (fst <$> more), count * B, b') ∧
    length b' = length b ∧ bytes_at (zsum (fst <$> more)) (count * B) b' = blocks_of chunk first count.
Proof using HB Hsized Hbeyond.
  intros Hf Hc Hmore [Hv [slots [Hpl0 Hsl]] _ Hpp _ _ _] Hnd Hgot Hrc Hfin. set (q := with_postprocess p more) in *. pose proof (k_bounds t Hv) as Hk.
  assert (readOffset q = zsum (fst <$> postprocess_operations p) + zsum (fst <$> more)) as Hro by (unfold readOffset, q; cbn; by rewrite fmap_app, zsum_app).
  assert (planned B t (first `quot` getNumberOfDataParts t) (stripes t first count) (getRequiredParts t first count) slots q) as Hpl by (destruct Hpl0; by split).
  assert (zsum (fst <$> postprocess_operations p) = if isStandard t then 0 else count * B) as Hz by (rewrite Hpp; destruct (isStandard t); [done | apply Z.add_0_r]).
  rewrite Hz in Hro. assert (0 <= readOffset q) as Hoff by (rewrite Hro; destruct (isStandard t); nia).
  destruct (requested_parts_restored B HB chunk Hsized Hbeyond t _ _ _ slots q Hpl Hoff got Hnd Hgot c addr b Hrc Hfin) as (b1 & E1 & Hl1 & Hs1).
  pose proof (rc_length _ _ _ _ _ Hrc) as Hl. pose proof (pl_count _ _ _ _ _ _ _ Hpl) as Hbc. destruct (pl_parts _ _ _ _ _ _ _ Hpl) as (_ & Hne & _).
  destruct (buffer_slots B t _ _ _ slots q Hpl b1 ltac:(by rewrite Hl1)) as [_ Hend]. pose proof (pl_slots _ _ _ _ _ _ _ Hpl) as Hslots.
  assert (processed_size q = Z.of_nat (length (getRequiredParts t first count)) * (stripes t first count * B)) as Hsize.
  { unfold processed_size. rewrite (pl_requested _ _ _ _ _ _ _ Hpl), (pl_size _ _ _ _ _ _ _ Hpl). by rewrite length_fmap. }
  assert (0 < length (getRequiredParts t first count))%nat as Hpos by (destruct (getRequiredParts t first count); [done | cbn; lia]).
  exists (processed_size q), b1. destruct (isStandard t) eqn:Es; rewrite Hpp.
  - exists b1. split; [done |]. split; [rewrite Hsize; nia |]. cbn [postprocess_loop].
    assert (readOffset q = zsum (fst <$> more)) as Hro' by (rewrite Hro; done).
    assert (getNumberOfDataParts t = 1 ∧ isXor t = false ∧ isEC t = false) as (Ek & Ex & Ee) by (assert (t = kStandard) as -> by (by apply Z.eqb_eq in Es); done).
    assert (getRequiredParts t first count = [0]) as Ers.
    { unfold getRequiredParts. change (requiredPartsToRecover t) with (getNumberOfDataParts t). rewrite Ek, Ex. rewrite (proj2 (Z.leb_le 1 count)) by lia. done. }
    assert (stripes t first count = count) as Est by (unfold stripes; rewrite Ek, !Z.quot_1_r; lia).
    rewrite Hsize, Ers, Est, Hro' in *. replace (Z.of_nat (length [0]) * (count * B)) with (count * B) by (cbn [length]; lia).
    split; [done |]. split; [lia |]. specialize (Hs1 0%nat 0 eq_refl). unfold slot in Hs1. rewrite Z.mul_0_l, Z.add_0_r, Ek, Z.quot_1_r in Hs1. rewrite Hs1.
    unfold part_bytes. apply blocks_of_ext. intros i _. unfold part_block. by rewrite Ex, Ee.
  - cbn [postprocess_loop]. unfold assertion. rewrite (proj2 (Z.leb_le 0 (processed_size q))) by (rewrite Hsize; nia).
    rewrite (proj2 (Z.leb_le 0 (count * B))) by nia. cbn [andb]. unfold buffer_read. rewrite Hend, Hsize.
    rewrite (proj2 (Z.leb_le 0 (readOffset q - count * B))), Z.leb_refl, (proj2 (Z.leb_le (readOffset q + _) _)) by nia. cbn [andb run_postprocess].
    destruct (convert_blocks_go t Hv first count Hf Hc slots q Hpl Hoff (zsum (fst <$> more)) (Z.to_nat count) Hmore ltac:(lia) 0 b1) as (b' & E & Hl' & Hres);
      [lia | lia | by rewrite Hl1 | by rewrite Z.mul_0_l, blocks_of_0 by lia | exact Hs1 |].
    rewrite Z.mul_0_l, Z.add_0_r in E. replace (readOffset q - count * B) with (zsum (fst <$> more)) by lia. exists b'. split; [by rewrite <- Hsize |]. split; [nia |].
    unfold stripes. rewrite E. cbn [mbind res_bind]. rewrite (proj2 (Z.ltb_lt 0 (count * B))) by nia. split; [done |]. split; [lia | done].
Qed.

(** Whatever sufficient parts arrive, the result is the range of blocks. *)
Lemma chunk_plan_exact t first count available p got b : 0 <= first → 0 < count → chunk_plan t first count available p →
  NoDup got → (∀ x, x ∈ got → x ∈ fst <$> read_operations p) → received B chunk p got b → isReadingFinished p got = Ok true →
  ∃ b', postProcessData c addr B p got b = Ok (count * B, b') ∧ bytes_at 0 (count * B) b' = blocks_of chunk first count.
Proof using HB Hsized Hbeyond.
  intros Hf Hc Hp Hnd Hgot Hrc Hfin. assert (with_postprocess p [] = p) as Ep by (unfold with_postprocess; rewrite app_nil_r; by destruct p).
  destruct (chunk_stage t first count available p [] got b) as (size & b1 & b' & E1 & Hs & E2 & _ & Hres); rewrite ?Ep; try done.
  rewrite Ep in *. exists b'. split; [| done]. unfold postProcessData. rewrite E1. cbn [mbind res_bind]. unfold assertion.
  rewrite (proj2 (Z.ltb_lt 0 size)), E2 by done. done.
Qed.

Lemma chunk_plan_checked t first count available p more : 0 < count → (∀ x, x ∈ more → 0 <= fst x) → chunk_plan t first count available p → checkPlan B (with_postprocess p more) = Ok tt.
Proof using HB.
  intros Hc Hmore [Hv [slots [Hpl0 Hsl]] _ Hpp _ _ _].
  assert (planned B t (first `quot` getNumberOfDataParts t) (stripes t first count) (getRequiredParts t first count) slots (with_postprocess p more)) as Hpl by (destruct Hpl0; by split).
  apply (checkPlan_spec B HB t _ _ _ slots _ Hpl). cbn [with_postprocess postprocess_operations]. rewrite Hpp. intros x [Hx | Hx]%elem_of_app; [| by apply Hmore].
  destruct (isStandard t); [by apply elem_of_nil in Hx |]. apply list_elem_of_singleton in Hx as ->. cbn. nia.
Qed.
End reading.

(** C10: Reading a range of blocks of a chunk.  Planning succeeds exactly when some slice has the
    parts that hold the blocks, or enough parts to recover them.  The plan passes its check,
    and is finished when all its operations succeed.  Whichever parts arrive, in whatever
    order: when the plan says that reading is finished, the result is the range of blocks. *)
Theorem chunk_read_exact c addr overuse B chunk first count available s :
  0 < B → sized B chunk → (∀ i, SFSBLOCKSINCHUNK <= i → chunk i = replicate (Z.to_nat B) x00) →
  valid_parts available → 0 <= first → 0 < count → first + count <= SFSBLOCKSINCHUNK →
  ∃ s1, chunk_prepare first count available s = Ok s1 ∧
    (is_reading_possible_ s1 = true ↔ ∃ x, x ∈ available ∧ readable (ChunkPartType.getSliceType x) first count available) ∧
    (is_reading_possible_ s1 = true →
     ∃ s2 p, buildPlan overuse B s1 = Ok (s2, p) ∧ checkPlan B p = Ok tt ∧ isReadingFinished p (fst <$> read_operations p) = Ok true ∧
       ∀ got b, NoDup got → (∀ x, x ∈ got → x ∈ fst <$> read_operations p) → received B chunk p got b → isReadingFinished p got = Ok true →
         ∃ b', postProcessData c addr B p got b = Ok (count * B, b') ∧ bytes_at 0 (count * B) b' = blocks_of chunk first count).
Proof.
  intros HB Hsized Hbeyond Hav Hf Hc Hend. destruct (chunk_prepare_spec first count Hf Hc available Hav s) as (s1 & E1 & Hiff & Hprep).
  exists s1. split; [done |]. split; [done |]. intros Hpos. destruct (Hprep Hpos) as (t & Ht).
  destruct (buildPlan_spec B HB overuse t first count available s1 ltac:(lia) Hc Hav Ht) as (s2 & p & E2 & Hp). exists s2, p. split; [done |].
  split; [| split; [apply Hp |]].
  - replace p with (with_postprocess p []) by (unfold with_postprocess; rewrite app_nil_r; by destruct p).
    apply (chunk_plan_checked B HB t first count available); [done | by intros x ?%elem_of_nil | done].
  - intros got b Hnd Hgot Hrc Hfin. by apply (chunk_plan_exact c addr B HB chunk Hsized Hbeyond t first count available).
Qed.

(** A chunk of two blocks of one byte in a slice with two data parts and one parity part; the first part is lost. *)
Definition sample (i : Z) : list byte := if i =? 0 then [x05] else if i =? 1 then [x07] else [x00].
Definition sample_parts : list Z := [part_id (ec_getSliceType 2 1) 1; part_id (ec_getSliceType 2 1) 2].

Lemma sample_sized : sized 1 sample.
Proof. intros i. unfold sample. by destruct (i =? 0), (i =? 1). Qed.

Lemma sample_beyond i : SFSBLOCKSINCHUNK <= i → sample i = replicate (Z.to_nat 1) x00.
Proof. unfold SFSBLOCKSINCHUNK, sample. intros Hi. by rewrite !(proj2 (Z.eqb_neq i _)) by lia. Qed.

Lemma sample_valid : valid_parts sample_parts.
Proof.
  intros x [-> | [-> | []%elem_of_nil]%elem_of_cons]%elem_of_cons.
  - exists (ec_getSliceType 2 1), 1. done.
  - exists (ec_getSliceType 2 1), 2. done.
Qed.

Lemma chunk_read_exact_witness :
  let c := {| cpu_avx2 := false; cpu_avx := false; cpu_ssse3 := false |} in
  ∃ s1 s2 p b', chunk_prepare 0 2 sample_parts new_ChunkReadPlanner = Ok s1 ∧ buildPlan (fun n => n) 1 s1 = Ok (s2, p) ∧
    postProcessData c 0 1 p sample_parts [xff; xff; xaa; x07; x02] = Ok (2, b') ∧ bytes_at 0 2 b' = [x05; x07].
Proof.
  intros c. destruct (chunk_read_exact c 0 (fun n => n) 1 sample 0 2 sample_parts new_ChunkReadPlanner) as (s1 & E1 & _ & H);
    [lia | exact sample_sized | exact sample_beyond | exact sample_valid | lia | lia | unfold SFSBLOCKSINCHUNK; lia |].
  exists s1. vm_compute in E1. injection E1 as <-. destruct (H eq_refl) as (s2 & p & E2 & _ & _ & Hread). exists s2, p.
  vm_compute in E2. injection E2 as <- <-. destruct (Hread sample_parts [xff; xff; xaa; x07; x02]) as (b' & E3 & Hb).
  - apply (bool_decide_unpack _). vm_compute. exact I.
  - intros x Hx. exact Hx.
  - split; [reflexivity | |].
    + intros type op [[= -> ->] | [[= -> ->] | []%elem_of_nil]%elem_of_cons]%elem_of_cons _; vm_compute; reflexivity.
    + intros type op [[= -> ->] | [[= -> ->] | []%elem_of_nil]%elem_of_cons]%elem_of_cons; vm_compute; reflexivity.
  - vm_compute. reflexivity.
  - exists b'. split; [vm_compute; reflexivity |]. split; [vm_compute; reflexivity |]. split; [exact E3 |]. etransitivity; [exact Hb |]. vm_compute. reflexivity.
Defined.

(** The first part of the sample is lost and the parity part cannot be read: what remains never
    suffices, but finishing is deemed possible. *)
Lemma finishing_deemed_possible :
  ∃ s1 s2 p, chunk_prepare 0 2 sample_parts new_ChunkReadPlanner = Ok s1 ∧ buildPlan (fun n => n) 1 s1 = Ok (s2, p) ∧
    isFinishingPossible p [part_id (ec_getSliceType 2 1) 2] = Ok true ∧ isReadingFinished p [part_id (ec_getSliceType 2 1) 1] = Ok false.
Proof. do 3 eexists. split; [vm_compute; reflexivity |]. split; [vm_compute; reflexivity |]. split; vm_compute; reflexivity. Qed.
