(* ===== verification/ChunkRecovery.v ===== *)
(** * Recovering parts of chunks

    The plans of SliceRecoveryPlanner return the blocks of the part to recover
    ([recovery_exact]). *)

From Stdlib Require Import Strings.Byte QArith.
From S2P Require Import Prelude GaloisField ErasureCode CodeMatrix ReedSolomon SliceTraits ReadPlans ReadPlanFacts PostProcess PlanBuilding ChunkReads.
Import SliceType SliceTraits.
Open Scope Z_scope.

Section recovery.
Context (c : cpu) (addr B : Z) (HB : 0 < B) (chunk : Z → list byte).
Hypothesis Hsized : sized B chunk.
Hypothesis Hbeyond : ∀ i, SFSBLOCKSINCHUNK <= i → chunk i = replicate (Z.to_nat B) x00.

Lemma new_coder k m : accepted k m → ∃ s, ReedSolomon k m = Ok s ∧ valid c k m s.
Proof using.
  intros [[? ?] [? ?]]. destruct (ReedSolomon k m) as [s | | |] eqn:E; [exists s; split; [done |]; by eapply new_coder_valid | exfalso.. ].
  all: revert E; unfold ReedSolomon, assertion; by rewrite !(proj2 (Nat.leb_le _ _)) by done.
Qed.

(** ** The functors on a range of blocks *)

(** The memory of a functor: it writes [n] blocks at the start and reads blocks of the chunk
    from [src] on. *)
Section functor.
Context (p : plan) (n src first count : Z) (Hn : 0 <= n) (Hcount : 0 <= count) (Hwrite : n * B <= buffer_read p).

Record source (b : list byte) : Prop := {
  so_length : Z.of_nat (length b) = buffer_end p;
  so_place : n * B <= src ∧ src + count * B <= buffer_end p;
  so_data : bytes_at src (count * B) b = blocks_of chunk first count;
}.

Lemma source_block b i : source b → 0 <= i < count → bytes_at (src + i * B) B b = chunk (first + i).
Proof using HB Hsized Hn.
  intros [Hl [Hp1 Hp2] Hd] Hi. rewrite <- (bytes_at_inner src (count * B)) by nia. rewrite Hd. by apply (blocks_of_nth B HB).
Qed.

Lemma result_room b i : source b → 0 <= i < n → i * B + B <= Z.of_nat (length b) ∧ in_buffer B 0 (i * B) (buffer_read p) = true.
Proof using HB Hn Hcount Hwrite.
  intros [Hl [Hp1 Hp2] Hd] Hi. split; [nia |]. unfold in_buffer. rewrite (proj2 (Z.leb_le 0 _)), (proj2 (Z.leb_le _ (buffer_read p))) by nia. done.
Qed.

Lemma source_room b i : source b → 0 <= i < count → in_buffer B 0 (src + i * B) (buffer_end p) = true.
Proof using HB Hn.
  intros [Hl [Hp1 Hp2] Hd] Hi. unfold in_buffer. rewrite (proj2 (Z.leb_le 0 _)), (proj2 (Z.leb_le _ (buffer_end p))) by nia. done.
Qed.

(** Writing to the result keeps the source and what was written before. *)
Lemma source_write b i d : source b → 0 <= i < n → Z.of_nat (length d) = B →
  source (write_at (i * B) d b) ∧ bytes_at 0 (i * B) (write_at (i * B) d b) = bytes_at 0 (i * B) b ∧ bytes_at (i * B) B (write_at (i * B) d b) = d.
Proof using HB Hn Hcount Hwrite.
  intros Hb Hi Hlen. destruct (result_room b i Hb Hi) as [Hr _]. destruct Hb as [Hl [Hp1 Hp2] Hd]. split; [| split].
  - split; [rewrite length_write_at; nia | done |]. rewrite bytes_at_other by nia. done.
  - apply bytes_at_other; nia.
  - rewrite <- Hlen at 2. apply bytes_at_same; nia.
Qed.

Lemma result_extend (v : Z → list byte) b i : 0 <= i < n → i * B + B <= Z.of_nat (length b) →
  bytes_at 0 (i * B) b = blocks_of v 0 i → bytes_at (i * B) B b = v i → bytes_at 0 ((i + 1) * B) b = blocks_of v 0 (i + 1).
Proof using HB.
  intros Hi Hl H1 H2. rewrite blocks_of_app, blocks_of_1 by lia. replace ((i + 1) * B) with (i * B + B) by lia.
  rewrite bytes_at_split by nia. by rewrite H1, !Z.add_0_l, H2.
Qed.

Section functors.
Context (k : Z) (Hk : 1 <= k).

(** Every [k]-th block. *)
Lemma convert_part_go m : (n - 1) * k < count → ∀ i b, 0 <= i → i + Z.of_nat m = n → source b →
  bytes_at 0 (i * B) b = blocks_of (fun i => chunk (first + i * k)) 0 i →
  ∃ b', convert_part B m p k (i * B) (src + i * k * B) b = Ok b' ∧ bytes_at 0 (n * B) b' = blocks_of (fun i => chunk (first + i * k)) 0 n.
Proof using HB Hsized Hn Hcount Hwrite Hk.
  intros Hc. induction m as [| m IH]; intros i b Hi Him Hb Hdone.
  - exists b. assert (i = n) as -> by lia. done.
  - cbn [convert_part]. assert (0 <= i * k < count) as Hik by nia. destruct (result_room b i Hb ltac:(lia)) as [Hr Er].
    unfold assertion. rewrite Er, (source_room b (i * k)) by done. unfold memcpy. rewrite (source_block b (i * k)) by done.
    assert (Z.of_nat (length (chunk (first + i * k))) = B) as HlB by (rewrite Hsized; lia).
    destruct (source_write b i (chunk (first + i * k)) Hb ltac:(lia) HlB) as (Hb1 & H1 & H2).
    replace (i * B + B) with ((i + 1) * B) by lia. replace (src + i * k * B + k * B) with (src + (i + 1) * k * B) by lia.
    apply IH; [lia | lia | done |]. apply result_extend; [lia | rewrite length_write_at; nia | by rewrite H1 | done].
Qed.

(** The blocks of a stripe, added to the result. *)
Lemma xor_into_sum b i x y z : source b → 0 <= i < n → 0 <= y < count → bytes_at (i * B) B b = x → zip_with add x (chunk (first + y)) = z →
  ∃ b', xor_into addr (i * B) (src + y * B) B b = Ok b' ∧ source b' ∧ bytes_at 0 (i * B) b' = bytes_at 0 (i * B) b ∧ bytes_at (i * B) B b' = z.
Proof using HB Hsized Hn Hcount Hwrite Hk.
  intros Hb Hi Hy Hx Hz. destruct (result_room b i Hb Hi) as [Hr _]. unfold xor_into. rewrite (source_block b y) by done. rewrite Hx.
  assert (length x = Z.to_nat B) as Hlx by (rewrite <- Hx; apply length_bytes_at; nia).
  rewrite block_xor_exact by (rewrite ?Hlx, ?Hsized; lia). unfold BlockXor.blockXorUnaligned. rewrite !take_ge, drop_ge, app_nil_r by (rewrite ?Hlx, ?Hsized; lia).
  rewrite Hz. cbn [mbind res_bind]. eexists. split; [done |]. apply source_write; [done | done |]. rewrite <- Hz, length_zip_with, Hlx, Hsized. lia.
Qed.

Definition parity_of (i : Z) : list byte := block_sum (Z.to_nat B) (fun d => chunk (first + i * k + d)) (seqZ 0 k).

Lemma xor_stripe_go m i : 0 <= i < n → n * k <= count → ∀ d b, 0 <= d → d + Z.of_nat m = k → source b →
  bytes_at (i * B) B b = block_sum (Z.to_nat B) (fun d => chunk (first + i * k + d)) (seqZ 0 d) →
  ∃ b', xor_stripe addr B m p (i * B) (src + (i * k + d) * B) b = Ok b' ∧ source b' ∧ bytes_at 0 (i * B) b' = bytes_at 0 (i * B) b ∧ bytes_at (i * B) B b' = parity_of i.
Proof using HB Hsized Hn Hcount Hwrite Hk.
  intros Hi Hc. induction m as [| m IH]; intros d b Hd Hdm Hb Hsum.
  - exists b. assert (d = k) as -> by lia. done.
  - cbn [xor_stripe]. assert (0 <= i * k + d < count) as Hid by nia. destruct (result_room b i Hb Hi) as [_ Er].
    unfold assertion. rewrite Er, (source_room b (i * k + d)) by done.
    destruct (xor_into_sum b i _ (i * k + d) (block_sum (Z.to_nat B) (fun d => chunk (first + i * k + d)) (seqZ 0 (d + 1))) Hb Hi Hid Hsum) as (b1 & -> & Hb1 & H1 & H2).
    { replace (seqZ 0 (d + 1)) with (seqZ 0 d ++ [d]) by (rewrite (seqZ_app 0 d 1) by lia; done).
      rewrite (Permutation_app_comm (seqZ 0 d) [d]). cbn [app block_sum]. rewrite badd_comm. do 2 f_equal. lia. }
    cbn [mbind res_bind]. replace (src + (i * k + d) * B + B) with (src + (i * k + (d + 1)) * B) by lia.
    destruct (IH (d + 1) b1) as (b' & E & Hb' & H3 & H4); [lia | lia | done | done |]. exists b'. split; [done |]. split; [done |]. split; [by rewrite H3 | done].
Qed.

Lemma xor_parity_go m : n * k <= count → ∀ i b, 0 <= i → i + Z.of_nat m = n → source b → bytes_at 0 (i * B) b = blocks_of parity_of 0 i →
  ∃ b', xor_parity addr B m p k (i * B) (src + i * k * B) b = Ok b' ∧ bytes_at 0 (n * B) b' = blocks_of parity_of 0 n.
Proof using HB Hsized Hn Hcount Hwrite Hk.
  intros Hc. induction m as [| m IH]; intros i b Hi Him Hb Hdone.
  - exists b. assert (i = n) as -> by lia. done.
  - cbn [xor_parity]. assert (0 <= i * k < count) as Hik by nia. destruct (result_room b i Hb ltac:(lia)) as [Hr Er].
    unfold assertion. rewrite Er. unfold memcpy. rewrite (source_block b (i * k)) by done.
    assert (Z.of_nat (length (chunk (first + i * k))) = B) as HlB by (rewrite Hsized; lia).
    destruct (source_write b i (chunk (first + i * k)) Hb ltac:(lia) HlB) as (Hb1 & H1 & H2). set (b1 := write_at _ _ b) in *.
    replace (src + i * k * B + B) with (src + (i * k + 1) * B) by lia.
    destruct (xor_stripe_go (Z.to_nat (k - 1)) i ltac:(lia) Hc 1 b1) as (b2 & E & Hb2 & H3 & H4); [lia | lia | done | |].
    { rewrite H2. change (seqZ 0 1) with [0]. cbn [block_sum]. rewrite badd_comm, badd_0 by apply Hsized. by rewrite Z.add_0_r. }
    rewrite E. cbn [mbind res_bind]. replace (i * B + B) with ((i + 1) * B) by lia. replace (src + i * k * B + k * B) with (src + (i + 1) * k * B) by lia.
    apply IH; [lia | lia | done |]. destruct Hb as [Hl _ _], Hb2 as [Hl2 _ _]. apply result_extend; [lia | lia | by rewrite H3, H1 | done].
Qed.

(** Erasure coding of the stripes. *)
Context (m index : nat) (Hkm : accepted (Z.to_nat k) m) (Hindex : (index < m)%nat).
Let K := Z.to_nat k.

Definition stripe_at (i : Z) : list (list byte) := (fun d => chunk (first + i * k + d)) <$> seqZ 0 k.
Definition ec_parity_of (i : Z) : list byte := part K m (Z.to_nat B) (stripe_at i) (K + index).

Lemma stripe_parts_go i b l : 0 <= i < n → n * k <= count → source b → ∀ j f, (j + l = K)%nat → length f = kMaxPartCount →
  (∀ d, (d < j)%nat → fragment f d = Some (chunk (first + i * k + Z.of_nat d))) →
  ∃ f', stripe_parts B l j p (src + (i * k + Z.of_nat j) * B) b f = Ok f' ∧ length f' = kMaxPartCount ∧
    ∀ d, (d < K)%nat → fragment f' d = Some (chunk (first + i * k + Z.of_nat d)).
Proof using HB Hsized Hn Hcount Hk Hkm Hindex.
  intros Hi Hc Hb. pose proof (parts_fit _ _ Hkm) as Hfit. fold K in Hfit. induction l as [| l IH]; intros j f Hj Hl Hf.
  - exists f. split; [done |]. split; [done |]. intros d Hd. apply Hf. lia.
  - cbn [stripe_parts]. assert (0 <= i * k + Z.of_nat j < count) as Hij by (unfold K in *; nia). unfold assertion. rewrite (source_room b (i * k + Z.of_nat j)) by done.
    rewrite (source_block b (i * k + Z.of_nat j)) by done. replace (src + (i * k + Z.of_nat j) * B + B) with (src + (i * k + Z.of_nat (S j)) * B) by lia.
    apply IH; [lia | by rewrite length_insert |]. intros d Hd. unfold fragment. rewrite nth_lookup. destruct (decide (d = j)) as [-> | Hne].
    + rewrite list_lookup_insert_eq by lia. cbn. do 2 f_equal. lia.
    + rewrite list_lookup_insert_ne by lia. rewrite <- nth_lookup. apply Hf. lia.
Qed.

(** One stripe: the wanted parity part. *)
Lemma recover_stripe i s f x : valid c K m s → (∀ d, (d < K)%nat → fragment f d = Some (chunk (first + i * k + Z.of_nat d))) →
  ∃ s' f', recover c f (parity_bits K m) (<[(K + index)%nat := Some x]> no_fragments) (Z.to_nat B) s = Ok (s', f') ∧ valid c K m s' ∧
    fragment f' (K + index) = Some (ec_parity_of i).
Proof using Hsized Hk Hkm Hindex.
  intros Hv Hf. pose proof (parts_fit _ _ Hkm) as Hfit. fold K in Hfit. destruct (parity_well_formed K m Hkm) as [Hwf Hcnt]. destruct (parity_bits_spec K m Hfit) as [_ Ht].
  destruct Hkm as [[Hk1 _] _]. fold K in Hk1.
  assert (∀ d, (d < K)%nat → test (parity_bits K m) d = false) as Hdata by (intros d Hd; rewrite Ht; by rewrite (proj2 (Nat.leb_gt _ _)) by lia).
  destruct (recover_correct c K m s (Z.to_nat B) (stripe_at i) f (parity_bits K m) (<[(K + index)%nat := Some x]> no_fragments)) as (s' & f' & E & Hv' & Hf'); try done.
  - unfold no_fragments. by rewrite length_insert, length_replicate.
  - intros d Hd Htd. rewrite Ht in Htd. assert (d < K)%nat as HdK.
    { destruct (Nat.leb_spec K d); [| lia]. rewrite (proj2 (Nat.ltb_lt _ _)) in Htd by done. done. }
    left. rewrite Hf by done. f_equal. symmetry. apply part_data; [done | | apply Hsized].
    unfold stripe_at. rewrite list_lookup_fmap. rewrite <- (Nat2Z.id d), lookup_seqZ_lt by (unfold K in *; lia). cbn. by rewrite Nat2Z.id.
  - exists 0%nat. split; [lia |]. split; [apply Hdata; lia |]. rewrite Hf by lia. eauto.
  - exists s', f'. split; [done |]. split; [done |]. rewrite Hf'. unfold wanted_at. rewrite Ht, (proj2 (Nat.leb_le _ _)), (proj2 (Nat.ltb_lt _ _)) by lia.
    rewrite bool_decide_true; [done |]. unfold fragment. rewrite nth_lookup, list_lookup_insert_eq; [by exists x |].
    unfold no_fragments. rewrite length_replicate. lia.
Qed.

Lemma ec_parity_go l : n * k <= count → ∀ i b s f, 0 <= i → i + Z.of_nat l = n → source b → valid c K m s → length f = kMaxPartCount →
  bytes_at 0 (i * B) b = blocks_of ec_parity_of 0 i →
  ∃ b', ec_parity c B l p K m index s f (i * B) (src + i * k * B) b = Ok b' ∧ bytes_at 0 (n * B) b' = blocks_of ec_parity_of 0 n.
Proof using HB Hsized Hn Hcount Hwrite Hk Hkm Hindex.
  intros Hc. induction l as [| l IH]; intros i b s f Hi Hil Hb Hv Hf Hdone.
  - exists b. assert (i = n) as -> by lia. done.
  - cbn [ec_parity]. destruct (result_room b i Hb ltac:(lia)) as [Hr Er]. unfold assertion. rewrite Er.
    destruct (stripe_parts_go i b K ltac:(lia) Hc Hb 0%nat f) as (f1 & E1 & Hf1 & Hd1); [lia | done | intros; lia |].
    rewrite Z.add_0_r in E1. rewrite E1. cbn [mbind res_bind]. destruct (recover_stripe i s f1 (bytes_at (i * B) B b) Hv Hd1) as (s2 & f2 & -> & Hv2 & Ef2).
    cbn [mbind res_bind]. rewrite Ef2. change (default [] (Some (ec_parity_of i))) with (ec_parity_of i).
    assert (Z.of_nat (length (ec_parity_of i)) = B) as HlB by (unfold ec_parity_of, part, product; rewrite length_fmap, length_seq; lia).
    destruct (source_write b i (ec_parity_of i) Hb ltac:(lia) HlB) as (Hb1 & H1 & H2).
    replace (i * B + B) with ((i + 1) * B) by lia. replace (src + i * k * B + Z.of_nat K * B) with (src + (i + 1) * k * B) by (unfold K; lia).
    apply IH; [lia | lia | done | done | done |]. apply result_extend; [lia | rewrite length_write_at; nia | by rewrite H1 | done].
Qed.
End functors.
End functor.

(** ** Post-processing with a functor after the conversion to chunk data *)

Lemma postprocess_loop_app q l1 l2 : ∀ rb size b,
  postprocess_loop c addr B q (l1 ++ l2) rb size b =
    '(rb, size, b) ← postprocess_loop c addr B q l1 rb size b; postprocess_loop c addr B q l2 rb size b.
Proof using.
  induction l1 as [| [size1 f] l1 IH]; intros rb size b; [done |]. cbn [app postprocess_loop]. unfold assertion.
  destruct (_ && _); [| done]. destruct (_ && _); [| done]. destruct (_ <=? _); [| done].
  destruct (run_postprocess _ _ _ _ _ _ _ _); cbn [mbind res_bind]; [apply IH | done..].
Qed.

Lemma blocks_of_shift (g : Z → list byte) j n : blocks_of (fun i => g (j + i)) 0 n = blocks_of g j n.
Proof using. unfold blocks_of. f_equal. transitivity (g <$> seqZ (j + 0) n); [| by rewrite Z.add_0_r]. rewrite <- fmap_add_seqZ, <- list_fmap_compose. done. Qed.

Section stage.
Context (t' first count : Z) (available : list Z) (p : plan) (Hfirst : 0 <= first) (Hcount : 0 < count).
Hypothesis Hp : chunk_plan B t' first count available p.

Lemma functor_stage f n v got b : 0 < n →
  let q := push_postprocess (n * B) f p in
  (∀ b1, source q n (n * B) first count b1 → n * B <= buffer_read q →
     ∃ b2, run_postprocess c addr B q f 0 (n * B) b1 = Ok b2 ∧ bytes_at 0 (n * B) b2 = v) →
  NoDup got → (∀ x, x ∈ got → x ∈ fst <$> read_operations q) → received B chunk q got b → isReadingFinished q got = Ok true →
  ∃ b', postProcessData c addr B q got b = Ok (n * B, b') ∧ bytes_at 0 (n * B) b' = v.
Proof using HB Hsized Hbeyond Hfirst Hcount Hp.
  intros Hn q Hrun Hnd Hgot Hrc Hfin. assert (zsum (fst <$> [(n * B, f)]) = n * B) as Ez by apply Z.add_0_r.
  destruct (chunk_stage c addr B HB chunk Hsized Hbeyond t' first count available p [(n * B, f)] got b Hfirst Hcount ltac:(rewrite Ez; nia) Hp Hnd Hgot Hrc Hfin)
    as (size & b1 & b2 & E1 & Hs & E2 & Hl2 & Hdata). change (with_postprocess p [(n * B, f)]) with q in *. rewrite Ez in *.
  assert (buffer_read q = zsum (fst <$> postprocess_operations p) + n * B) as Hread.
  { unfold buffer_read, readOffset, q. cbn [push_postprocess postprocess_operations]. by rewrite fmap_app, zsum_app, Ez. }
  assert (0 <= zsum (fst <$> postprocess_operations p)) as Hpos.
  { rewrite (cp_postprocess _ _ _ _ _ _ Hp). destruct (isStandard t'); [done |]. change (zsum _) with (count * B + 0). nia. }
  assert (n * B + count * B <= buffer_end q) as Hroom.
  { unfold buffer_end. rewrite <- (rc_length _ _ _ _ _ Hrc), <- Hl2. apply (f_equal length) in Hdata. rewrite (blocks_of_length B HB) in Hdata by done.
    unfold bytes_at in Hdata. rewrite length_take, length_drop in Hdata. nia. }
  destruct (Hrun b2) as (b3 & E3 & Hres); [| lia |].
  { split; [unfold buffer_end; rewrite <- (rc_length _ _ _ _ _ Hrc); lia | lia | done]. }
  exists b3. split; [| done]. unfold postProcessData. rewrite E1. cbn [mbind res_bind]. unfold assertion at 1. rewrite (proj2 (Z.ltb_lt 0 size)) by done.
  unfold q at 2. cbn [push_postprocess postprocess_operations]. fold q. rewrite postprocess_loop_app, E2. cbn [mbind res_bind postprocess_loop]. unfold assertion.
  rewrite (proj2 (Z.leb_le 0 (count * B))), (proj2 (Z.leb_le 0 (n * B))) by nia. cbn [andb]. rewrite Z.sub_diag. cbn [Z.leb Z.compare andb].
  rewrite (proj2 (Z.leb_le (n * B) (buffer_read q))), (proj2 (Z.leb_le (n * B + count * B) _)) by lia. rewrite E3. cbn [mbind res_bind].
  rewrite (proj2 (Z.ltb_lt 0 (n * B))) by nia. done.
Qed.
End stage.

(** ** The plan of SliceRecoveryPlanner *)

Section planner.
Context (t r : Z) (Hr : part_of t r) (fb n : Z) (Hn : 0 < n).
Hypothesis Hfb : 0 <= fb < getNumberOfBlocks (part_id t r) SFSBLOCKSINCHUNK.
Let k := getNumberOfDataParts t.

(** Post-processing of a plan gives the blocks of the part, whichever sufficient parts arrive. *)
Definition recovers_part (p : plan) : Prop := ∀ got b,
  NoDup got → (∀ x, x ∈ got → x ∈ fst <$> read_operations p) → received B chunk p got b → isReadingFinished p got = Ok true →
  ∃ b', postProcessData c addr B p got b = Ok (n * B, b') ∧ bytes_at 0 (n * B) b' = part_bytes B chunk t r fb n.

Lemma part_facts : isValid t = true ∧ 1 <= k ∧ 0 <= r < 64 ∧ 0 <= t ∧ fb * k + row_index (part_id t r) < SFSBLOCKSINCHUNK ∧ 0 <= row_index (part_id t r).
Proof using Hr Hfb.
  destruct (part_of_range t r Hr). pose proof Hr as [Hv _]. pose proof (number_of_parts_bounds t Hv). pose proof (row_index_bounds t r Hr).
  pose proof (proj1 (stored_blocks_exact t r fb Hr) (proj2 Hfb)). unfold k. split_and!; (done || lia).
Qed.

Lemma first_row : 0 <= fb <= SFSBLOCKSINCHUNK / k.
Proof using Hr Hfb. destruct part_facts as (_ & Hk & _ & _ & Hlt & Hi). split; [lia |]. apply Z.div_le_lower_bound; lia. Qed.

(** The part is read, or recovered from its own slice. *)
Lemma own_slice available s p : slice_plan B t [r] fb n available s false p → recovers_part p.
Proof using HB Hsized Hbeyond Hn.
  intros [[slots [Hpl _]] Hpp _ _] got b Hnd Hgot Hrc Hfin. assert (readOffset p = 0) as Hro by (unfold readOffset; by rewrite Hpp).
  destruct (requested_parts_restored B HB chunk Hsized Hbeyond t fb n [r] slots p Hpl ltac:(lia) got Hnd Hgot c addr b Hrc Hfin) as (b1 & E1 & Hl1 & Hs1).
  exists b1. unfold postProcessData. rewrite E1. cbn [mbind res_bind].
  assert (processed_size p = n * B) as -> by (unfold processed_size; rewrite (pl_requested _ _ _ _ _ _ _ Hpl), (pl_size _ _ _ _ _ _ _ Hpl); cbn [fmap list_fmap length]; lia).
  unfold assertion. rewrite (proj2 (Z.ltb_lt 0 (n * B))) by nia. rewrite Hpp, Hro. split; [done |].
  specialize (Hs1 0%nat r eq_refl). unfold slot in Hs1. by rewrite Z.mul_0_l, Z.add_0_r, Hro in Hs1.
Qed.

Lemma data_part_recovered t' available p : isDataPart (part_id t r) = true →
  chunk_plan B t' (getDataPartIndex (part_id t r) + fb * k) (1 + (n - 1) * k) available p →
  recovers_part (push_postprocess (n * B) (PartConverter n k) p).
Proof using HB Hsized Hbeyond Hr Hn Hfb.
  intros Hd Hp got b Hnd Hgot Hrc Hfin. destruct part_facts as (Hv & Hk & Hr64 & Ht & Hlt & Hidx).
  assert (getDataPartIndex (part_id t r) = row_index (part_id t r)) as Ei by (unfold row_index; by rewrite Hd). rewrite Ei in *.
  apply (functor_stage t' (row_index (part_id t r) + fb * k) (1 + (n - 1) * k) available p ltac:(nia) ltac:(nia) Hp); try done. intros b1 Hs Hw. cbn [run_postprocess].
  destruct (convert_part_go _ n (n * B) (row_index (part_id t r) + fb * k) (1 + (n - 1) * k) ltac:(lia) ltac:(nia) Hw k Hk (Z.to_nat n) ltac:(nia) 0 b1) as (b2 & E & Hres);
    [lia | lia | done | by rewrite Z.mul_0_l, blocks_of_0 by lia |].
  exists b2. rewrite !Z.mul_0_l, Z.add_0_r in E. split; [done |]. rewrite Hres. unfold part_bytes. rewrite <- (blocks_of_shift (part_block B chunk t r)).
  apply blocks_of_ext. intros i _. rewrite part_block_data, Ei by done. f_equal. unfold k. lia.
Qed.

Lemma xor_parity_recovered t' available p : isXor t = true → isDataPart (part_id t r) = false →
  chunk_plan B t' (fb * k) (n * k) available p → recovers_part (push_postprocess (n * B) (XorRecoverParity k n) p).
Proof using HB Hsized Hbeyond Hr Hn Hfb.
  intros Hx Hd Hp got b Hnd Hgot Hrc Hfin. destruct part_facts as (Hv & Hk & Hr64 & Ht & Hlt & Hidx).
  apply (functor_stage t' (fb * k) (n * k) available p ltac:(nia) ltac:(nia) Hp); try done. intros b1 Hs Hw. cbn [run_postprocess].
  destruct (xor_parity_go _ n (n * B) (fb * k) (n * k) ltac:(lia) ltac:(nia) Hw k Hk (Z.to_nat n) ltac:(nia) 0 b1) as (b2 & E & Hres);
    [lia | lia | done | by rewrite Z.mul_0_l, blocks_of_0 by lia |].
  exists b2. rewrite !Z.mul_0_l, Z.add_0_r in E. split; [done |]. rewrite Hres. unfold part_bytes. rewrite <- (blocks_of_shift (part_block B chunk t r)).
  apply blocks_of_ext. intros i _. unfold part_block. fold k. rewrite Hx. unfold isDataPart, isParityPart, isXorParity in Hd.
  rewrite part_id_type, part_id_part, Hx in Hd by done. apply negb_false_iff in Hd. cbn [andb] in Hd. rewrite Hd. unfold parity_of.
  apply block_sum_ext. intros d _. f_equal. lia.
Qed.

Lemma ec_parity_recovered t' available p : isXor t = false → isEC t = true → isDataPart (part_id t r) = false → chunk_plan B t' (fb * k) (n * k) available p →
  recovers_part (push_postprocess (n * B) (ECRecoverParity (ec_getNumberOfDataParts t) (ec_getNumberOfParityParts t) (ec_getParityPartIndex (part_id t r)) n) p).
Proof using HB Hsized Hbeyond Hr Hn Hfb.
  intros Hx He Hd Hp got b Hnd Hgot Hrc Hfin. destruct part_facts as (Hv & Hk & Hr64 & Ht & Hlt & Hidx). pose proof Hr as [_ Hr'].
  assert (ec_getNumberOfDataParts t = k ∧ ec_getNumberOfParityParts t = getNumberOfParityParts t) as [Ek Em] by (unfold k, getNumberOfDataParts, getNumberOfParityParts; by rewrite Hx, He).
  assert (k <= r) as Hkr.
  { unfold isDataPart, isParityPart, ec_isParityPart in Hd. rewrite part_id_type, part_id_part, Hx, He in Hd by done. apply negb_false_iff, Z.leb_le in Hd. by rewrite Ek in Hd. }
  assert (ec_getParityPartIndex (part_id t r) = r - k) as Ei by (unfold ec_getParityPartIndex; by rewrite part_id_type, part_id_part, Ek by done).
  rewrite Ek, Em, Ei in Hgot, Hrc, Hfin |- *. set (m := getNumberOfParityParts t) in *. pose proof (number_of_parts_bounds t Hv) as [Hb1 Hb2]. fold k in Hb1, Hr'. fold m in Hb2.
  assert (accepted (Z.to_nat k) (Z.to_nat m)) as Hkm.
  { unfold accepted. change ReedSolomon.kMaxDataCount with 32%nat. change ReedSolomon.kMaxParityCount with 32%nat. lia. }
  apply (functor_stage t' (fb * k) (n * k) available p ltac:(nia) ltac:(nia) Hp); try done. intros b1 Hs Hw. cbn [run_postprocess].
  destruct (new_coder (Z.to_nat k) (Z.to_nat m) Hkm) as (s & -> & Hvs). cbn [mbind res_bind].
  destruct (ec_parity_go _ n (n * B) (fb * k) (n * k) ltac:(lia) ltac:(nia) Hw k Hk (Z.to_nat m) (Z.to_nat (r - k)) Hkm ltac:(lia) (Z.to_nat n) ltac:(nia) 0 b1 s no_fragments) as (b2 & E & Hres);
    [lia | lia | done | done | done | by rewrite Z.mul_0_l, blocks_of_0 by lia |].
  exists b2. rewrite !Z.mul_0_l, Z.add_0_r in E. split; [done |]. rewrite Hres. unfold part_bytes. rewrite <- (blocks_of_shift (part_block B chunk t r)).
  apply blocks_of_ext. intros i _. unfold part_block, ec_parity_of, stripe_at, stripe. fold k m. rewrite Hx, He. f_equal; [| lia].
  apply list_fmap_ext. intros ? d _. f_equal. lia.
Qed.

(** The blocks of the chunk that the part is recovered from. *)
Definition chunk_range : Z * Z :=
  if isDataPart (part_id t r) then (getDataPartIndex (part_id t r) + fb * k, 1 + (n - 1) * k) else (fb * k, n * k).

(** The part is there, enough parts of its slice are there, or another slice has the blocks. *)
Definition recoverable (available : list Z) : Prop :=
  part_id t r ∈ available ∨ k <= Z.of_nat (count (available_bits t available)) ∨
  ∃ x, x ∈ available ∧ readable (ChunkPartType.getSliceType x) chunk_range.1 chunk_range.2 available.

Lemma chunk_range_facts : 0 <= chunk_range.1 <= SFSBLOCKSINCHUNK ∧ 0 < chunk_range.2.
Proof using Hr Hn Hfb.
  destruct part_facts as (Hv & Hk & Hr64 & Ht & Hlt & Hidx). unfold chunk_range. unfold row_index in Hlt, Hidx. destruct (isDataPart _); cbn [fst snd]; nia.
Qed.

(** The planner when recovery is possible. *)
Inductive recovery_ready (available : list Z) (s : SliceRecoveryPlanner) : Prop :=
| ready_slice : recovery_type_ s = kReadDataPart → prepared t available [r] (slice_planner_ s) → recovery_ready available s
| ready_chunk t' : recovery_type_ s = (if isDataPart (part_id t r) then kRecoverDataPart else kRecoverParityPart) →
    chunk_prepared t' chunk_range.1 chunk_range.2 available (chunk_planner_ s) → recovery_ready available s.

Lemma recovery_prepare_spec available s : valid_parts available → ∃ s', recovery_prepare (part_id t r) fb n available s = Ok s' ∧
  (recovery_possible_ s' = true ↔ recoverable available) ∧
  (recovery_possible_ s' = true → recovering_part_ s' = part_id t r ∧ first_block_ s' = fb ∧ block_count_ s' = n ∧ recovery_ready available s').
Proof using Hr Hn Hfb.
  intros Hav. destruct part_facts as (Hv & Hk & Hr64 & Ht & Hlt & Hidx). destruct chunk_range_facts as [Hc1 Hc2]. unfold recovery_prepare. rewrite part_id_type, part_id_part by done.
  destruct (prepare_spec t Hv available Hav [r] (slice_planner_ s)) as [Hcan Hprep]; [by intros q ->%list_elem_of_singleton |].
  set (planner := prepare _ _ _ _) in *. fold k in Hcan |- *. destruct (can_read_ planner).
  - eexists. split; [done |]. cbn [recovery_possible_ recovering_part_ first_block_ block_count_]. split; [split; [intros _ | done] |].
    + destruct (proj1 Hcan eq_refl) as [Hall | Hcount]; [left; apply Hall; left | right; by left].
    + intros _. split_and!; [done.. |]. apply ready_slice; [done | by apply Hprep].
  - assert (∀ (possible : bool), (possible = true ↔ ∃ x, x ∈ available ∧ readable (ChunkPartType.getSliceType x) chunk_range.1 chunk_range.2 available) →
      possible = true ↔ recoverable available) as Hiff.
    { intros possible ->. unfold recoverable. split; [by right; right |]. intros [Hin | [Hcnt | ?]]; [exfalso.. | done].
      - enough (false = true) by done. apply Hcan. left. by intros q ->%list_elem_of_singleton.
      - enough (false = true) by done. apply Hcan. by right. }
    destruct (chunk_prepare_spec chunk_range.1 chunk_range.2 (proj1 Hc1) Hc2 available Hav (chunk_planner_ s)) as (cp & Ecp & Hpos & Hready). specialize (Hiff _ Hpos).
    assert (∀ s', (is_reading_possible_ cp = true → recovery_type_ s' = (if isDataPart (part_id t r) then kRecoverDataPart else kRecoverParityPart)) → chunk_planner_ s' = cp →
      is_reading_possible_ cp = true → recovery_ready available s') as Hchunk.
    { intros s' Htype Ecp' Hp. destruct (Hready Hp) as [t' Ht']. apply (ready_chunk _ _ t'); [auto | by rewrite Ecp']. }
    unfold chunk_range in *. destruct (isDataPart (part_id t r)); cbn [fst snd] in *; rewrite Ecp; cbn [mbind res_bind].
    all: eexists; split; [done |]; destruct (is_reading_possible_ cp); (split; [exact Hiff |]); [| done].
    all: intros _; split_and!; [done.. |]; by apply Hchunk.
Qed.

Lemma recovery_buildPlan_spec overuse available s : valid_parts available → recovery_ready available s →
  recovering_part_ s = part_id t r → first_block_ s = fb → block_count_ s = n →
  ∃ p, recovery_buildPlan overuse B s = Ok p ∧ checkPlan B p = Ok tt ∧ isReadingFinished p (fst <$> read_operations p) = Ok true ∧ recovers_part p ∧
    ((∃ slots, planned B t fb n [r] slots p ∧ slots <= k + getNumberOfParityParts t ∧ readOffset p = 0) ∨
     ∃ t' p0 f, chunk_plan B t' chunk_range.1 chunk_range.2 available p0 ∧ p = push_postprocess (n * B) f p0).
Proof using HB Hsized Hbeyond Hr Hn Hfb.
  intros Hav Hready Ep Ef En. destruct part_facts as (Hv & Hk & Hr64 & Ht & Hlt & Hidx). destruct chunk_range_facts as [Hc1 Hc2].
  unfold recovery_buildPlan. rewrite Ep, Ef, En, part_id_type by done. destruct Hready as [-> Hprep | t' Htype Hprep].
  - assert (∀ q, q ∈ [r] → part_of t q) as Hrs by (by intros q ->%list_elem_of_singleton).
    destruct (buildPlanFor_spec overuse B HB t Hv [r] (NoDup_singleton r) Hrs ltac:(done) fb n first_row Hn available Hav (slice_planner_ s) Hprep false) as (s' & p & -> & Hp).
    cbn [mbind res_bind]. exists p. split; [done |]. pose proof Hp as [[slots [Hpl Hsl]] Hpp _ _]. split; [| split; [| split]].
    + apply (checkPlan_spec B HB t fb n [r] slots p Hpl). rewrite Hpp. by intros x ?%elem_of_nil.
    + by apply (slice_plan_enough B t Hv [r] Hrs fb n first_row available (slice_planner_ s) false).
    + by apply (own_slice available (slice_planner_ s)).
    + left. exists slots. split; [done |]. split; [done |]. unfold readOffset. by rewrite Hpp.
  - destruct (buildPlan_spec B HB overuse t' _ _ available (chunk_planner_ s) Hc1 Hc2 Hav Hprep) as (s2 & p & Eb & Hp).
    assert (∀ f, checkPlan B (push_postprocess (n * B) f p) = Ok tt) as Hcheck.
    { intros f. change (push_postprocess (n * B) f p) with (with_postprocess p [(n * B, f)]). apply (chunk_plan_checked B HB t' chunk_range.1 chunk_range.2 available p _ Hc2); [| done].
      intros x ->%list_elem_of_singleton. cbn. nia. }
    assert (∀ f, recovers_part (push_postprocess (n * B) f p) → ∃ q, Ok (push_postprocess (n * B) f p) = Ok q ∧ checkPlan B q = Ok tt ∧
      isReadingFinished q (fst <$> read_operations q) = Ok true ∧ recovers_part q ∧
      ((∃ slots, planned B t fb n [r] slots q ∧ slots <= k + getNumberOfParityParts t ∧ readOffset q = 0) ∨
       ∃ t' p0 f, chunk_plan B t' chunk_range.1 chunk_range.2 available p0 ∧ q = push_postprocess (n * B) f p0)) as Hfinish.
    { intros f Hf. eexists. split; [done |]. split; [done |]. split; [apply Hp |]. split; [done |]. right. by exists t', p, f. }
    rewrite Htype. fold k. unfold chunk_range in *. destruct (isDataPart (part_id t r)) eqn:Ed; cbn [fst snd] in *; rewrite Eb; cbn [mbind res_bind].
    + apply Hfinish. by apply (data_part_recovered t' available).
    + pose proof Ed as Ed'. unfold isDataPart, isParityPart in Ed'. rewrite part_id_type in Ed' by done. apply negb_false_iff in Ed'. unfold assertion.
      destruct (isXor t) eqn:Ex; [rewrite Ed'; apply Hfinish; by apply (xor_parity_recovered t' available) |].
      destruct (isEC t) eqn:Ee; [| done]. rewrite Ed'. apply Hfinish. by apply (ec_parity_recovered t' available).
Qed.
End planner.
End recovery.

(** C11: Recovering blocks of a part.  Planning succeeds exactly when the part is there, its slice
    has enough parts, or the blocks of the chunk can be read from another slice.  The plan
    passes its check, is finished when all its operations succeed, and whichever parts arrive,
    its result is the blocks of the part. *)
Theorem recovery_exact c addr overuse B chunk t r fb n available s :
  0 < B → sized B chunk → (∀ i, SFSBLOCKSINCHUNK <= i → chunk i = replicate (Z.to_nat B) x00) →
  valid_parts available → part_of t r → 0 <= fb < getNumberOfBlocks (part_id t r) SFSBLOCKSINCHUNK → 0 < n →
  ∃ s1, recovery_prepare (part_id t r) fb n available s = Ok s1 ∧
    (recovery_possible_ s1 = true ↔ recoverable t r fb n available) ∧
    (recovery_possible_ s1 = true →
     ∃ p, recovery_buildPlan overuse B s1 = Ok p ∧ checkPlan B p = Ok tt ∧ isReadingFinished p (fst <$> read_operations p) = Ok true ∧
       recovers_part c addr B chunk t r fb n p).
Proof.
  intros HB Hsized Hbeyond Hav Hr Hfb Hn. destruct (recovery_prepare_spec t r Hr fb n Hn Hfb available s Hav) as (s1 & E1 & Hiff & Hready).
  exists s1. split; [done |]. split; [done |]. intros Hpos. destruct (Hready Hpos) as (Ep & Ef & En & Hrd).
  destruct (recovery_buildPlan_spec c addr B HB chunk Hsized Hbeyond t r Hr fb n Hn Hfb overuse available s1 Hav Hrd Ep Ef En) as (p & E2 & Hck & Hfin & Hrec & _).
  by exists p.
Qed.

(** ** Machine integers *)

Definition SFSBLOCKSIZE : Z := 65536.

(** The sizes and offsets of a plan, which are of type [int]. *)
Record fits_int (p : plan) : Prop := {
  fi_offset : 0 <= readOffset p;
  fi_buffer : 0 < fullBufferSize p < 2 ^ 31;
  fi_operations : ∀ type op, (type, op) ∈ read_operations p →
    0 <= request_offset op ∧ 0 <= request_size op ∧ request_offset op + request_size op <= 2 ^ 26 ∧
    0 <= buffer_offset op ∧ buffer_offset op + buffer_part_size p <= read_buffer_size p;
}.

Lemma planned_blocks B t fb bc rs slots p : planned B t fb bc rs slots p → slots <= getNumberOfDataParts t + getNumberOfParityParts t →
  bc <= 1055 / getNumberOfDataParts t + 1 → 0 < slots * bc <= 18100.
Proof.
  intros Hpl Hs Hbc. pose proof (pl_count _ _ _ _ _ _ _ Hpl) as Hbc0. pose proof (pl_slots _ _ _ _ _ _ _ Hpl) as Hsl.
  destruct (pl_parts _ _ _ _ _ _ _ Hpl) as (_ & Hne & _). assert (1 <= slots) as Hs1 by (destruct rs; [done | cbn in Hsl; lia]).
  pose proof (pl_valid _ _ _ _ _ _ _ Hpl) as Hv. pose proof (number_of_parts_bounds t Hv) as [Hk Hm].
  set (k := getNumberOfDataParts t) in *. set (m := getNumberOfParityParts t) in *. assert (k = 1 → m = 0) as H1 by (unfold k, m in *; type_lia).
  pose proof (Z.mul_div_le 1055 k ltac:(lia)). assert (0 <= 1055 / k) by (apply Z.div_pos; lia). split; [nia |]. destruct (decide (k = 1)) as [-> |].
  - rewrite H1, Z.div_1_r in * by done. nia.
  - assert (1055 / k <= 1055 / 2) by (apply Z.div_le_compat_l; lia). change (1055 / 2) with 527 in *. nia.
Qed.

Lemma planned_fits t fb bc rs slots p : planned SFSBLOCKSIZE t fb bc rs slots p → slots <= getNumberOfDataParts t + getNumberOfParityParts t →
  bc <= 1055 / getNumberOfDataParts t + 1 → 0 <= readOffset p <= 2100 * SFSBLOCKSIZE → fits_int p.
Proof.
  intros Hpl Hs Hbc Hro. pose proof (planned_blocks _ _ _ _ _ _ _ Hpl Hs Hbc) as Hmax.
  assert (readOffset p + slots * bc * SFSBLOCKSIZE = fullBufferSize p) as Hfull by (unfold fullBufferSize; rewrite (pl_buffer _ _ _ _ _ _ _ Hpl); lia).
  split; [lia | rewrite <- Hfull; unfold SFSBLOCKSIZE in *; nia |]. intros type op Hop.
  destruct (operation_bounds SFSBLOCKSIZE ltac:(done) t fb bc rs slots p Hpl type op Hop) as (_ & ? & ? & Hreq & ? & ? & _). rewrite (pl_size _ _ _ _ _ _ _ Hpl).
  unfold SFSBLOCKSINCHUNK, SFSBLOCKSIZE in *. lia.
Qed.

Lemma stripes_bound t first count : isValid t = true → 0 <= first → 0 < count → first + count <= 1055 → stripes t first count <= 1055 / getNumberOfDataParts t + 1.
Proof.
  intros Hv Hf Hc Hend. pose proof (number_of_parts_bounds t Hv) as [Hk _]. unfold stripes. rewrite !Z.quot_div_nonneg by lia.
  pose proof (Z.div_pos first (getNumberOfDataParts t) ltac:(lia) ltac:(lia)). pose proof (Z.div_le_mono (first + count - 1) 1055 (getNumberOfDataParts t) ltac:(lia) ltac:(lia)). lia.
Qed.

Lemma chunk_plan_fits t first count available p more : 0 <= first → 0 < count → first + count <= 1055 → 0 <= zsum (fst <$> more) <= 1024 * SFSBLOCKSIZE →
  chunk_plan SFSBLOCKSIZE t first count available p → fits_int (with_postprocess p more).
Proof.
  intros Hf Hc Hend Hmore [Hv [slots [Hpl Hsl]] _ Hpp _ _ _]. pose proof (number_of_parts_bounds t Hv) as [Hk _].
  apply (planned_fits t (first `quot` getNumberOfDataParts t) (stripes t first count) (getRequiredParts t first count) slots); [by destruct Hpl | done | |].
  - by apply stripes_bound.
  - unfold readOffset. cbn [with_postprocess postprocess_operations]. rewrite fmap_app, zsum_app.
    assert (0 <= zsum (fst <$> postprocess_operations p) <= 1055 * SFSBLOCKSIZE); [| lia].
    rewrite Hpp. destruct (isStandard t); [done |]. change (zsum _) with (count * SFSBLOCKSIZE + 0). unfold SFSBLOCKSIZE. lia.
Qed.

(** C12: With blocks of 64 KiB no size or offset of a plan exceeds [int], for any range of blocks of
    a chunk and any range of blocks of a part, and every operation stays in its place. *)
Theorem plan_sizes_fit_int overuse available : valid_parts available →
  (∀ first count s, 0 <= first → 0 < count → first + count <= SFSBLOCKSINCHUNK →
   ∃ s1, chunk_prepare first count available s = Ok s1 ∧
     (is_reading_possible_ s1 = true → ∃ s2 p, buildPlan overuse SFSBLOCKSIZE s1 = Ok (s2, p) ∧ fits_int p)) ∧
  (∀ t r fb n s, part_of t r → 0 <= fb → 0 < n → fb + n <= getNumberOfBlocks (part_id t r) SFSBLOCKSINCHUNK →
   ∃ s1, recovery_prepare (part_id t r) fb n available s = Ok s1 ∧
     (recovery_possible_ s1 = true → ∃ p, recovery_buildPlan overuse SFSBLOCKSIZE s1 = Ok p ∧ fits_int p)).
Proof.
  intros Hav. split.
  - intros first count s Hf Hc Hend. destruct (chunk_prepare_spec first count Hf Hc available Hav s) as (s1 & E1 & _ & Hprep). exists s1. split; [done |].
    intros Hpos. destruct (Hprep Hpos) as (t & Ht). destruct (buildPlan_spec SFSBLOCKSIZE ltac:(done) overuse t first count available s1 ltac:(lia) Hc Hav Ht) as (s2 & p & E2 & Hp).
    exists s2, p. split; [done |]. replace p with (with_postprocess p []) by (unfold with_postprocess; rewrite app_nil_r; by destruct p).
    unfold SFSBLOCKSINCHUNK in *. apply (chunk_plan_fits t first count available); (done || lia).
  - intros t r fb n s Hr Hfb Hn Hend. destruct (recovery_prepare_spec t r Hr fb n Hn ltac:(lia) available s Hav) as (s1 & E1 & _ & Hready). exists s1. split; [done |].
    intros Hpos. destruct (Hready Hpos) as (Ep & Ef & En & Hrd). set (zeros := fun _ : Z => replicate (Z.to_nat SFSBLOCKSIZE) x00).
    destruct (recovery_buildPlan_spec {| cpu_avx2 := false; cpu_avx := false; cpu_ssse3 := false |} 0 SFSBLOCKSIZE ltac:(done) zeros
      ltac:(intros i; apply length_replicate) ltac:(done) t r Hr fb n Hn ltac:(lia) overuse available s1 Hav Hrd Ep Ef En) as (p & E2 & _ & _ & _ & Hp).
    exists p. split; [done |]. pose proof Hr as [Hv _]. pose proof (number_of_parts_bounds t Hv) as [Hk _]. pose proof (row_index_bounds t r Hr) as Hi.
    pose proof (proj1 (stored_blocks_exact t r (fb + n - 1) Hr) ltac:(lia)) as Hlast. unfold SFSBLOCKSINCHUNK in *. destruct Hp as [(slots & Hpl & Hsl & Hro) | (t' & p0 & f & Hp & ->)].
    + apply (planned_fits t fb n [r] slots p Hpl Hsl); [| unfold SFSBLOCKSIZE; lia].
      assert (n - 1 <= 1055 / getNumberOfDataParts t) by (apply Z.div_le_lower_bound; nia). lia.
    + change (push_postprocess (n * SFSBLOCKSIZE) f p0) with (with_postprocess p0 [(n * SFSBLOCKSIZE, f)]).
      destruct (chunk_range_facts t r Hr fb n Hn ltac:(unfold SFSBLOCKSINCHUNK; lia)) as [Hc1 Hc2]. apply (chunk_plan_fits t' (chunk_range t r fb n).1 (chunk_range t r fb n).2 available); [lia | done | | | done].
      * unfold chunk_range, row_index in *. destruct (isDataPart (part_id t r)); cbn [fst snd]; nia.
      * change (zsum _) with (n * SFSBLOCKSIZE + 0). unfold SFSBLOCKSIZE. nia.
Qed.

(** The lost part is recovered from the two others. *)
Lemma recovery_exact_witness :
  let c := {| cpu_avx2 := false; cpu_avx := false; cpu_ssse3 := false |} in
  let s := {| slice_planner_ := new_SliceReadPlanner; chunk_planner_ := new_ChunkReadPlanner; recovering_part_ := 0; recovery_possible_ := false;
              recovery_type_ := kReadDataPart; first_block_ := 0; block_count_ := 0 |} in
  ∃ s1 p b', recovery_prepare (part_id (ec_getSliceType 2 1) 0) 0 1 sample_parts s = Ok s1 ∧ recovery_buildPlan (fun n => n) 1 s1 = Ok p ∧
    postProcessData c 0 1 p sample_parts [xaa; x07; x02] = Ok (1, b') ∧ bytes_at 0 1 b' = [x05].
Proof.
  intros c s. destruct (recovery_exact c 0 (fun n => n) 1 sample (ec_getSliceType 2 1) 0 0 1 sample_parts s) as (s1 & E1 & _ & H);
    [lia | exact sample_sized | exact sample_beyond | exact sample_valid | done | done | lia |].
  exists s1. vm_compute in E1. injection E1 as <-. destruct (H eq_refl) as (p & E2 & _ & _ & Hread). exists p.
  vm_compute in E2. injection E2 as <-. destruct (Hread sample_parts [xaa; x07; x02]) as (b' & E3 & Hb).
  - apply (bool_decide_unpack _). vm_compute. exact I.
  - vm_compute. intros x Hx. exact Hx.
  - split; [reflexivity | |].
    + intros type op [[= -> ->] | [[= -> ->] | []%elem_of_nil]%elem_of_cons]%elem_of_cons _; vm_compute; reflexivity.
    + intros type op [[= -> ->] | [[= -> ->] | []%elem_of_nil]%elem_of_cons]%elem_of_cons; vm_compute; reflexivity.
  - vm_compute. reflexivity.
  - exists b'. split; [vm_compute; reflexivity |]. split; [vm_compute; reflexivity |]. split; [exact E3 |]. etransitivity; [exact Hb |]. vm_compute. reflexivity.
Defined.

Lemma plan_sizes_fit_int_witness :
  valid_parts sample_parts ∧ ∃ s1 s2 p, chunk_prepare 0 1024 sample_parts new_ChunkReadPlanner = Ok s1 ∧ buildPlan (fun n => n) SFSBLOCKSIZE s1 = Ok (s2, p) ∧
    fits_int p ∧ fullBufferSize p = 167772160.
Proof.
  split; [exact sample_valid |]. destruct (plan_sizes_fit_int (fun n => n) sample_parts sample_valid) as [H _].
  destruct (H 0 1024 new_ChunkReadPlanner) as (s1 & E1 & Hs1); [lia | lia | unfold SFSBLOCKSINCHUNK; lia |].
  exists s1. vm_compute in E1. injection E1 as <-. destruct (Hs1 eq_refl) as (s2 & p & E2 & Hp). exists s2, p.
  vm_compute in E2. injection E2 as <- <-. split; [vm_compute; reflexivity |]. split; [vm_compute; reflexivity |]. split; [exact Hp | reflexivity].
Defined.
