(* ===== verification/ReadExecution.v ===== *)
(** * Execution of a read operation

    src/common/read_operation_executor.cc: one request to a chunk server and the state machine
    that receives the answer, with the messages of src/protocol/cstocl.h and cltocs.h it uses.
    The size of a block is the parameter [B].  Memory is a list of bytes and pointers are
    offsets; what a chunk server will have sent on a connection is a list of bytes too, and
    every call of [recv] takes some of them.

    [read_operation_exact] shows that an answer is received exactly, however it is cut into
    pieces; [extra_blocks_overwrite] shows what a server can do that sends too much. *)

From Stdlib Require Import Strings.Byte.
From S2P Require Import Prelude FlatContainers Serialization Packets Crc GaloisField ErasureCode ReedSolomon SliceTraits ReadPlans ReadPlanFacts.
Import Serialization.
Open Scope Z_scope.

(** ** State and exceptions *)

Inductive exception :=
| ChunkserverConnectionException
| ChunkCrcException (server type : Z)
| IncorrectDeserializationException
| RecoverableReadException
| NoValidCopiesReadException
| UnrecoverableReadException (status : Z).

(** A call returns or throws, and leaves a state; or an assertion fails; or it is undefined. *)
Inductive outcome (S A : Type) : Type :=
| Returned (a : A) (s : S)
| Raised (x : exception) (s : S)
| Aborted
| Undefined.
Arguments Returned {S A} _ _.
Arguments Raised {S A} _ _.
Arguments Aborted {S A}.
Arguments Undefined {S A}.

Definition exec (S A : Type) : Type := S → outcome S A.

#[global] Instance exec_ret S : MRet (exec S) := fun A a s => Returned a s.
#[global] Instance exec_bind S : MBind (exec S) := fun A B f m s =>
  match m s with
  | Returned a s => f a s
  | Raised x s => Raised x s
  | Aborted => Aborted
  | Undefined => Undefined
  end.

Definition raise {S A} (x : exception) : exec S A := fun s => Raised x s.
Definition modify {S} (f : S → S) : exec S () := fun s => Returned () (f s).
(** The rest of a function with a part of the state. *)
Definition inspect {S R A} (f : S → R) (k : R → exec S A) : exec S A := fun s => k (f s) s.

Notation "x ←{ f } ; k" := (inspect f (fun x => k)) (at level 100, f at level 200, k at level 200, right associativity).

Definition sassert {S} (b : bool) : exec S () := fun s => if b then Returned () s else Aborted.

Definition lift {S A} (m : res A) : exec S A := fun s =>
  match m with
  | Ok a => Returned a s
  | Throw => Raised IncorrectDeserializationException s
  | Abort => Aborted
  | Stuck => Undefined
  end.

Lemma run_inspect {S R A} (f : S → R) (k : R → exec S A) s : (x ←{ f }; k x) s = k (f s) s.
Proof. done. Qed.

Lemma run_sassert {S A} b (k : () → exec S A) s : b = true → (x ← sassert b; k x) s = k () s.
Proof. by intros ->. Qed.

Lemma run_lift {S R A} m x (k : R → exec S A) s : m = Ok x → (x ← lift m; k x) s = k x s.
Proof. by intros ->. Qed.

Lemma run_modify {S A} (f : S → S) (k : () → exec S A) s : (x ← modify f; k x) s = k () (f s).
Proof. done. Qed.

Lemma run_bind {S R A} (m : exec S R) (k : R → exec S A) x s s' : m s = Returned x s' → (x ← m; k x) s = k x s'.
Proof. unfold mbind, exec_bind. by intros ->. Qed.

Lemma bind_raised {S R A} (m : exec S R) (k : R → exec S A) x s s' : m s = Raised x s' → (x ← m; k x) s = Raised x s'.
Proof. unfold mbind, exec_bind. by intros ->. Qed.

(** ** Messages *)

Definition byte_to_Z (b : byte) : Z := Z.of_N (Byte.to_N b).
Definition byte_of_Z (z : Z) : byte := default x00 (Byte.of_N (Z.to_N z)).
Definition to_bytes (l : list Z) : list byte := byte_of_Z <$> l.
Definition of_bytes (l : list byte) : list Z := byte_to_Z <$> l.

Definition SAU_CLTOCS_READ : Z := 1000 + 200.
Definition SAU_CSTOCL_READ_STATUS : Z := 1000 + 201.
Definition SAU_CSTOCL_READ_DATA : Z := 1000 + 202.
Definition SAUNAFS_STATUS_OK : Z := 0.
Definition SAUNAFS_ERROR_CRC : Z := 29.

Definition saunafsVersion (major minor micro : Z) : Z := 0x010000 * major + 0x0100 * minor + micro.
Definition kFirstXorVersion : Z := saunafsVersion 2 9 0.
Definition kFirstECVersion : Z := saunafsVersion 3 9 5.

(** [cltocs::read] with kECChunks: chunk, version, part, offset and size. *)
Definition readRequest : Packet.message (Z * (Z * (Z * (Z * Z)))) :=
  Packet.mk_message SAU_CLTOCS_READ 1 (pair_f uint64_f (pair_f uint32_f (pair_f uint16_f (pair_f uint32_f uint32_f)))).

(** [cstocl::readStatus] *)
Definition readStatus : Packet.message (Z * Z) := Packet.mk_message SAU_CSTOCL_READ_STATUS 0 (pair_f uint64_f uint8_f).

Module ReadData.

Definition kPrefixSize : Z := 4 + 8 + 4 + 4 + 4.

(** What the server puts before the checksum and the data of a block. *)
Definition serializePrefix (B chunkId readOffset readSize : Z) : res (list Z) :=
  let extraSpace := u32 (u32 (Z.quot (readSize + B - 1) B * 4) + readSize) in
  Packet.serializePacketPrefix (pair_f uint64_f (pair_f uint32_f uint32_f)) extraSpace SAU_CSTOCL_READ_DATA 0
    (chunkId, (readOffset, readSize)).

Definition prefix_f : format (Z * (Z * (Z * Z))) := pair_f uint64_f (pair_f uint32_f (pair_f uint32_f uint32_f)).

Definition deserializePrefix (source : list Z) : res (Z * (Z * (Z * Z))) :=
  _ ← Packet.verifyPacketVersionNoHeader source 0; Packet.deserializePacketDataNoHeader prefix_f source.

End ReadData.

(** ** ReadOperationExecutor *)

Inductive ReadOperationState :=
| kSendingRequest
| kReceivingHeader
| kReceivingReadStatusMessage
| kReceivingReadDataMessage
| kReceivingDataBlock
| kFinished.

#[global] Instance ReadOperationState_eq : EqDecision ReadOperationState.
Proof. solve_decision. Defined.

(** The members that the constructor sets and nothing changes; [dataBuffer_] is an offset. *)
Record request := {
  readOperation_ : ReadOperation;
  dataBuffer_ : Z;
  chunkId_ : Z;
  chunkVersion_ : Z;
  chunkType_ : Z;
  server_ : Z;
  server_version_ : Z;
}.

(** [destination_] is an offset into [messageBuffer_], or into the memory in the state
    kReceivingDataBlock. *)
Record ReadOperationExecutor := mk_executor {
  request_ :> request;
  messageBuffer_ : list byte;
  packetHeader_ : Packet.PacketHeader;
  state_ : ReadOperationState;
  destination_ : Z;
  bytesLeft_ : Z;
  dataBlocksCompleted_ : Z;
  currentlyReadBlockCrc_ : Z;
}.

Definition new_ReadOperationExecutor (r : request) : ReadOperationExecutor :=
  mk_executor r [] (Packet.mk_header 0 0) kSendingRequest 0 0 0 0.

Definition isFinished (e : ReadOperationExecutor) : bool := bool_decide (state_ e = kFinished).
Definition getWave (e : ReadOperationExecutor) : Z := wave (readOperation_ e).

(** The executor, the memory, and the bytes that can still be received. *)
Record machine := mk_machine { executor : ReadOperationExecutor; memory : list byte; input : list byte }.

Definition update (f : ReadOperationExecutor → ReadOperationExecutor) : exec machine () :=
  modify (fun s => mk_machine (f (executor s)) (memory s) (input s)).

Lemma run_update {A} f (k : () → exec machine A) e b i : (x ← update f; k x) (mk_machine e b i) = k () (mk_machine (f e) b i).
Proof. done. Qed.

Definition set_header h e :=
  mk_executor (request_ e) (messageBuffer_ e) h (state_ e) (destination_ e) (bytesLeft_ e) (dataBlocksCompleted_ e) (currentlyReadBlockCrc_ e).
Definition set_crc crc e :=
  mk_executor (request_ e) (messageBuffer_ e) (packetHeader_ e) (state_ e) (destination_ e) (bytesLeft_ e) (dataBlocksCompleted_ e) crc.
Definition set_completed n e :=
  mk_executor (request_ e) (messageBuffer_ e) (packetHeader_ e) (state_ e) (destination_ e) (bytesLeft_ e) n (currentlyReadBlockCrc_ e).
Definition set_state st e :=
  mk_executor (request_ e) (messageBuffer_ e) (packetHeader_ e) st (destination_ e) (bytesLeft_ e) (dataBlocksCompleted_ e) (currentlyReadBlockCrc_ e).
Definition set_message msg e :=
  mk_executor (request_ e) msg (packetHeader_ e) (state_ e) (destination_ e) (bytesLeft_ e) (dataBlocksCompleted_ e) (currentlyReadBlockCrc_ e).
Definition set_destination dst left e :=
  mk_executor (request_ e) (messageBuffer_ e) (packetHeader_ e) (state_ e) dst left (dataBlocksCompleted_ e) (currentlyReadBlockCrc_ e).

(** [vector::resize] *)
Definition resize (n : Z) (l : list byte) : list byte :=
  take (Z.to_nat n) l ++ replicate (Z.to_nat n - length l) x00.

(** [messageBuffer_.resize(n)], and the start and the size of the buffer. *)
Definition expect_message (n : Z) (e : ReadOperationExecutor) : ReadOperationExecutor :=
  set_destination 0 n (set_message (resize n (messageBuffer_ e)) e).

Section executor.
Context (B : Z).

Definition kMaxMessageLength : Z := B + 1024.

Definition in_state (l : list ReadOperationState) (e : ReadOperationExecutor) : bool := bool_decide (state_ e ∈ l).

Definition setState (newState : ReadOperationState) : exec machine () :=
  e ←{ executor };
  _ ← sassert (negb (in_state [kFinished] e));
  _ ← sassert (bytesLeft_ e =? 0);
  _ ← match newState with
      | kReceivingHeader =>
          _ ← sassert (in_state [kSendingRequest; kReceivingDataBlock] e);
          update (expect_message Packet.kSize)
      | kReceivingReadStatusMessage =>
          _ ← sassert (in_state [kReceivingHeader] e);
          update (expect_message (Packet.length (packetHeader_ e)))
      | kReceivingReadDataMessage =>
          _ ← sassert (in_state [kReceivingHeader] e);
          _ ← sassert (kFirstXorVersion <=? server_version_ e);
          update (expect_message ReadData.kPrefixSize)
      | kReceivingDataBlock =>
          _ ← sassert (in_state [kReceivingReadDataMessage] e);
          update (set_destination (dataBuffer_ e + u32 (buffer_offset (readOperation_ e) + u32 (dataBlocksCompleted_ e * B))) B)
      | kFinished => mret ()
      | kSendingRequest => sassert false
      end;
  update (set_state newState).

(** [written] is the result of [tcptowrite]; the message is returned. *)
Definition sendReadRequest (written : Z) : exec machine (list Z) :=
  e ←{ executor };
  _ ← sassert (kFirstECVersion <=? server_version_ e);
  message ← lift (Packet.build readRequest
    (chunkId_ e, (chunkVersion_ e, (chunkType_ e, (u32 (request_offset (readOperation_ e)), u32 (request_size (readOperation_ e)))))));
  if negb (written =? Z.of_nat (length message)) then raise ChunkserverConnectionException
  else _ ← setState kReceivingHeader; mret message.

Definition processHeaderReceived : exec machine () :=
  e ←{ executor };
  _ ← sassert (in_state [kReceivingHeader] e);
  _ ← sassert (bytesLeft_ e =? 0);
  h ← lift (Packet.deserializePacketHeader (of_bytes (messageBuffer_ e)));
  _ ← update (set_header h);
  if kMaxMessageLength <? Packet.length h then raise ChunkserverConnectionException
  else if Packet.type h =? SAU_CSTOCL_READ_DATA then setState kReceivingReadDataMessage
  else if Packet.type h =? SAU_CSTOCL_READ_STATUS then setState kReceivingReadStatusMessage
  else raise ChunkserverConnectionException.

Definition processReadDataMessageReceived : exec machine () :=
  e ←{ executor };
  _ ← sassert (in_state [kReceivingReadDataMessage] e);
  _ ← sassert (bytesLeft_ e =? 0);
  _ ← sassert (kFirstXorVersion <=? server_version_ e);
  '(readChunkId, (readOffset, (readSize, crc))) ← lift (ReadData.deserializePrefix (of_bytes (messageBuffer_ e)));
  _ ← update (set_crc crc);
  if negb (readChunkId =? chunkId_ e) then raise ChunkserverConnectionException
  else if negb (readSize =? B) then raise ChunkserverConnectionException
  else
    let expectedOffset := u32 (request_offset (readOperation_ e) + u32 (dataBlocksCompleted_ e * B)) in
    if negb (readOffset =? expectedOffset) then raise ChunkserverConnectionException
    else setState kReceivingDataBlock.

Definition processReadStatusMessageReceived : exec machine () :=
  e ←{ executor };
  _ ← sassert (in_state [kReceivingReadStatusMessage] e);
  _ ← sassert (bytesLeft_ e =? 0);
  _ ← sassert (kFirstXorVersion <=? server_version_ e);
  '(readChunkId, status) ← lift (Packet.read readStatus (of_bytes (messageBuffer_ e)));
  if negb (readChunkId =? chunkId_ e) then raise ChunkserverConnectionException
  else if status =? SAUNAFS_ERROR_CRC then raise (ChunkCrcException (server_ e) (chunkType_ e))
  else if negb (status =? SAUNAFS_STATUS_OK) then raise ChunkserverConnectionException
  else
    let totalDataBytesReceived := i32 (u32 (dataBlocksCompleted_ e * B)) in
    if negb (totalDataBytesReceived =? request_size (readOperation_ e)) then raise ChunkserverConnectionException
    else setState kFinished.

Definition processDataBlockReceived : exec machine () :=
  e ←{ executor };
  b ←{ memory };
  _ ← sassert (in_state [kReceivingDataBlock] e);
  _ ← sassert (bytesLeft_ e =? 0);
  crc ← lift (mycrc32 0 (Z.to_N (destination_ e - B)) (bytes_at (destination_ e - B) B b));
  if negb (currentlyReadBlockCrc_ e =? Z.of_N crc) then raise (ChunkCrcException (server_ e) (chunkType_ e))
  else
    _ ← update (fun e => set_completed (u32 (dataBlocksCompleted_ e + 1)) e);
    setState kReceivingHeader.

(** How a call of [recv] goes: it receives at most so many bytes, or none now, or fails. *)
Inductive recv := Receives (amount : nat) | TCPEAGAIN | Fails.

(** [tcprecv(fd_, destination_, bytesLeft_)] with [n] bytes received: they are put in place, and
    writing outside of the memory is undefined. *)
Definition receive (n : nat) : exec machine () := fun s =>
  let e := executor s in
  let d := take n (input s) in
  let e' := set_destination (destination_ e + Z.of_nat n) (bytesLeft_ e - Z.of_nat n) e in
  if in_state [kReceivingDataBlock] e then
    if (0 <=? destination_ e) && (destination_ e + Z.of_nat n <=? Z.of_nat (length (memory s)))
    then Returned () (mk_machine e' (write_at (destination_ e) d (memory s)) (drop n (input s))) else Undefined
  else Returned () (mk_machine (set_message (write_at (destination_ e) d (messageBuffer_ e)) e') (memory s) (drop n (input s))).

Definition process : exec machine () :=
  e ←{ executor };
  match state_ e with
  | kReceivingHeader => processHeaderReceived
  | kReceivingReadStatusMessage => processReadStatusMessageReceived
  | kReceivingReadDataMessage => processReadDataMessageReceived
  | kReceivingDataBlock => processDataBlockReceived
  | _ => sassert false
  end.

Definition continueReading (r : recv) : exec machine () :=
  e ←{ executor };
  _ ← sassert (in_state [kReceivingHeader; kReceivingReadStatusMessage; kReceivingReadDataMessage; kReceivingDataBlock] e);
  match r with
  | Receives amount =>
      i ←{ input };
      let readBytes := (amount `min` Z.to_nat (bytesLeft_ e) `min` length i)%nat in
      if (readBytes =? 0)%nat then raise ChunkserverConnectionException
      else
        _ ← receive readBytes;
        e ←{ executor };
        if 0 <? bytesLeft_ e then mret () else process
  | TCPEAGAIN => mret ()
  | Fails => raise ChunkserverConnectionException
  end.

(** One turn of the loop of [readAll]: the time-out has expired, [poll] was interrupted or
    failed, or it reported that there are bytes, and that there is an error. *)
Inductive turn := Expired | Interrupted | PollFails | Polled (pollin : option recv) (pollerr : bool).

(** Whether the operation is finished after these turns. *)
Fixpoint readAll (turns : list turn) : exec machine bool :=
  e ←{ executor };
  if isFinished e then mret true
  else
    match turns with
    | [] => mret false
    | Expired :: _ => raise ChunkserverConnectionException
    | Interrupted :: turns => readAll turns
    | PollFails :: _ => raise ChunkserverConnectionException
    | Polled pollin pollerr :: turns =>
        _ ← match pollin with Some r => continueReading r | None => mret () end;
        if pollerr : bool then raise ChunkserverConnectionException else readAll turns
    end.

End executor.

(** ** Bytes of messages *)

Lemma byte_round z : is_byte z → byte_to_Z (byte_of_Z z) = z.
Proof.
  unfold is_byte, byte_to_Z, byte_of_Z. intros Hz. destruct (Byte.of_N (Z.to_N z)) as [b |] eqn:E.
  - apply Byte.to_of_N in E. cbn. rewrite E. lia.
  - apply Byte.of_N_None_iff in E. lia.
Qed.

Lemma of_to_bytes l : Forall is_byte l → of_bytes (to_bytes l) = l.
Proof. induction 1 as [| z l Hz _ IH]; [done |]. cbn. unfold of_bytes, to_bytes in IH. by rewrite byte_round, IH. Qed.

Lemma length_to_bytes l : length (to_bytes l) = length l.
Proof. apply length_fmap. Qed.

Lemma resize_length n l : 0 <= n → length (resize n l) = Z.to_nat n.
Proof. intros Hn. unfold resize. rewrite length_app, length_take, length_replicate. lia. Qed.

(** ** The answer of a chunk server *)

(** The request is answered with [blocks] blocks, the first being [data 0], and a status. *)
Record answer := { data : Z → list byte; blocks : Z; status : Z }.

(** Where the receiver is: it waits for the header of the message that follows [i] blocks, for the
    prefix or the bytes of block [i], or for the status. *)
Inductive stage := AtHeader (i : Z) | AtPrefix (i : Z) | AtBlock (i : Z) | AtStatus.

Section answers.
Context (B : Z) (r : request) (a : answer).

Definition block_crc (i : Z) : Z := Z.of_N (crc_of 0 (data a i)).

Definition data_header : list byte :=
  to_bytes (serialize Packet.header_f (Packet.mk_header SAU_CSTOCL_READ_DATA (ReadData.kPrefixSize + B))).
Definition block_prefix (i : Z) : list byte :=
  to_bytes (serialize uint32_f 0 ++ serialize ReadData.prefix_f (chunkId_ r, (request_offset (readOperation_ r) + i * B, (B, block_crc i)))).
Definition status_header : list byte := to_bytes (serialize Packet.header_f (Packet.mk_header SAU_CSTOCL_READ_STATUS 13)).
Definition status_payload : list byte := to_bytes (Packet.payload readStatus (chunkId_ r, status a)).

Definition block_message (i : Z) : list byte := data_header ++ block_prefix i ++ data a i.

(** What is sent after [i] blocks. *)
Definition answer_from (i : Z) : list byte := mjoin (block_message <$> seqZ i (blocks a - i)) ++ status_header ++ status_payload.

Definition piece (st : stage) : list byte :=
  match st with
  | AtHeader i => if i <? blocks a then data_header else status_header
  | AtPrefix i => block_prefix i
  | AtBlock i => data a i
  | AtStatus => status_payload
  end.

Definition after_piece (st : stage) : list byte :=
  match st with
  | AtHeader i => if i <? blocks a then block_prefix i ++ data a i ++ answer_from (i + 1) else status_payload
  | AtPrefix i => data a i ++ answer_from (i + 1)
  | AtBlock i => answer_from (i + 1)
  | AtStatus => []
  end.

Definition stage_state (st : stage) : ReadOperationState :=
  match st with
  | AtHeader _ => kReceivingHeader
  | AtPrefix _ => kReceivingReadDataMessage
  | AtBlock _ => kReceivingDataBlock
  | AtStatus => kReceivingReadStatusMessage
  end.

(** The number of complete blocks. *)
Definition stage_blocks (st : stage) : Z :=
  match st with AtHeader i | AtPrefix i | AtBlock i => i | AtStatus => blocks a end.

Definition stage_ok (st : stage) : Prop :=
  match st with AtHeader i => 0 <= i <= blocks a | AtPrefix i | AtBlock i => 0 <= i < blocks a | AtStatus => True end.

(** The first byte of the operation in the memory. *)
Definition place : Z := dataBuffer_ r + buffer_offset (readOperation_ r).

Lemma answer_from_header i : i <= blocks a → piece (AtHeader i) ++ after_piece (AtHeader i) = answer_from i.
Proof.
  intros Hi. cbn [piece after_piece]. unfold answer_from. destruct (Z.ltb_spec i (blocks a)).
  - rewrite (seqZ_cons i) by lia. rewrite fmap_cons. cbn [mjoin list_join]. unfold block_message at 2. rewrite <- !app_assoc.
    replace (Z.pred (blocks a - i)) with (blocks a - (i + 1)) by lia. done.
  - replace (blocks a - i) with 0 by lia. done.
Qed.

(** [m] bytes of the piece have been received. *)
Record on_track (st : stage) (m : Z) (s : machine) : Prop := {
  ot_stage : stage_ok st;
  ot_request : request_ (executor s) = r;
  ot_state : state_ (executor s) = stage_state st;
  ot_completed : dataBlocksCompleted_ (executor s) = stage_blocks st;
  ot_some : 0 <= m <= Z.of_nat (length (piece st));
  ot_left : bytesLeft_ (executor s) = Z.of_nat (length (piece st)) - m;
  ot_input : input s = drop (Z.to_nat m) (piece st) ++ after_piece st;
  ot_destination : destination_ (executor s) = (match st with AtBlock i => place + i * B | _ => 0 end) + m;
  ot_message : (∀ i, st ≠ AtBlock i) → length (messageBuffer_ (executor s)) = length (piece st) ∧
    bytes_at 0 m (messageBuffer_ (executor s)) = take (Z.to_nat m) (piece st);
  ot_block : ∀ i, st = AtBlock i → currentlyReadBlockCrc_ (executor s) = block_crc i ∧
    bytes_at (place + i * B) m (memory s) = take (Z.to_nat m) (data a i);
  ot_data : bytes_at place (stage_blocks st * B) (memory s) = blocks_of (data a) 0 (stage_blocks st);
}.

End answers.

(** The fields of a machine. *)
Ltac open_machine s := destruct s as [[rq msg hdr state dst left comp crc] mem inp].

Ltac fields := cbn [executor memory input request_ messageBuffer_ packetHeader_ state_ destination_ bytesLeft_ dataBlocksCompleted_
  currentlyReadBlockCrc_ stage_state stage_blocks stage_ok set_header set_crc set_completed set_state set_message set_destination] in *.

Section receiving.
Context (B : Z) (HB : 0 < B < 2 ^ 31) (r : request) (a : answer) (n : Z).

Abbreviation op := (readOperation_ r).

(** The request is for [q] blocks of a chunk; its answer has at most [n]. *)
Record answerable_for (q : Z) : Prop := {
  an_count : 0 <= n;
  an_size : request_size op = q * B;
  an_offset : 0 <= request_offset op ∧ request_offset op + n * B < 2 ^ 31;
  an_buffer : 0 <= buffer_offset op ∧ buffer_offset op + n * B < 2 ^ 31;
  an_memory : 0 <= dataBuffer_ r;
  an_chunk : 0 <= chunkId_ r < 2 ^ 64;
  an_version : kFirstECVersion <= server_version_ r;
  an_data : sized B (data a);
  an_blocks : 0 <= blocks a <= n;
  an_status : 0 <= status a < 2 ^ 8;
  an_part : 0 <= chunkVersion_ r < 2 ^ 32 ∧ 0 <= chunkType_ r < 2 ^ 16;
}.
Context (q : Z) (Han : answerable_for q).

(** The memory outside of the operation does not change. *)
Definition keeps (b b' : list byte) : Prop :=
  length b' = length b ∧
  ∀ off size, 0 <= off → off + size <= place r ∨ place r + n * B <= off → bytes_at off size b' = bytes_at off size b.

Lemma keeps_refl b : keeps b b.
Proof using. by split. Qed.

Lemma keeps_trans b1 b2 b3 : keeps b1 b2 → keeps b2 b3 → keeps b1 b3.
Proof using. intros [L1 H1] [L2 H2]. split; [congruence |]. intros off size Ho Hd. by rewrite H2, H1. Qed.

Definition room (b : list byte) : Prop := place r + n * B <= Z.of_nat (length b).

Lemma place_nonneg : 0 <= place r.
Proof using Han. destruct Han. unfold place. lia. Qed.

Lemma piece_length st : length (piece B r a st) = match st with AtHeader _ => 8%nat | AtPrefix _ => 24%nat | AtBlock _ => Z.to_nat B | AtStatus => 13%nat end.
Proof using Han.
  destruct st as [i | i | i |]; cbn [piece].
  - destruct (i <? blocks a); apply length_to_bytes.
  - apply length_to_bytes.
  - apply (an_data _ Han).
  - apply length_to_bytes.
Qed.

(** Receiving some of the bytes of the piece. *)
Lemma receive_track st m s j : on_track B r a st m s → (∀ i, st = AtBlock i → place r + i * B + B <= Z.of_nat (length (memory s))) → 0 < Z.of_nat j <= Z.of_nat (length (piece B r a st)) - m →
  ∃ s', receive j s = Returned () s' ∧ on_track B r a st (m + Z.of_nat j) s' ∧ keeps (memory s) (memory s').
Proof using HB Han.
  destruct s as [[rq msg hdr state dst left comp crc] mem inp]. intros [H1 H2 H3 H4 H5 H6 H7 H8 H9 H10 H11] Hroom Hj.
  cbn [executor memory input request_ messageBuffer_ packetHeader_ state_ destination_ bytesLeft_ dataBlocksCompleted_ currentlyReadBlockCrc_] in *.
  pose proof place_nonneg as Hpl. set (P := piece B r a st) in *.
  assert (take j inp = take j (drop (Z.to_nat m) P)) as Ed by (rewrite H7, take_app_le by (rewrite length_drop; lia); done).
  assert (length (take j inp) = j) as Hd by (rewrite Ed, length_take, length_drop; lia).
  assert (take (Z.to_nat m) P ++ take j inp = take (Z.to_nat (m + Z.of_nat j)) P) as Et.
  { rewrite Ed, take_take_drop. f_equal. lia. }
  assert (drop j inp = drop (Z.to_nat (m + Z.of_nat j)) P ++ after_piece B r a st) as Er.
  { rewrite H7, drop_app_le by (rewrite length_drop; lia). rewrite drop_drop. do 2 f_equal. lia. }
  unfold receive, in_state. cbn [executor memory input state_ destination_ bytesLeft_ messageBuffer_]. 
  assert ((∃ i, st = AtBlock i) ∨ (∀ i, st ≠ AtBlock i)) as [[i ->] | Hnb] by (destruct st; eauto; by right).
  - rewrite H3. cbn [stage_state]. rewrite bool_decide_true by (by apply list_elem_of_singleton). cbn [stage_ok stage_blocks] in *.
    assert (Z.of_nat (length P) = B) as HP by (unfold P; rewrite piece_length; lia). destruct Han as [_ _ _ _ _ _ _ Hsz Hbl _ _].
    specialize (Hroom i eq_refl). assert (i * B + B <= n * B) as Hib by nia. rewrite (proj2 (Z.leb_le 0 dst)) by nia. rewrite (proj2 (Z.leb_le (dst + _) _)) by nia. cbn [andb].
    eexists. split; [done |]. destruct (H10 i eq_refl) as [Hc Hm]. split.
    + split; cbn -[piece after_piece]; fold P; try done; try lia.
      * intros Hn. by destruct (Hn i).
      * intros ? [= <-]. split; [done |]. rewrite H8. rewrite <- Hd at 1. rewrite bytes_at_extend by (rewrite ?Hd; nia). rewrite Hm. exact Et.
      * rewrite bytes_at_other; [done | nia..].
    + split; [by apply length_write_at; rewrite ?Hd; nia |]. intros off size Ho Hdis. apply bytes_at_other; rewrite ?Hd; nia.
  - assert (stage_state st ≠ kReceivingDataBlock) as Hns by (destruct st; try done; by destruct (Hnb i)).
    rewrite H3, bool_decide_false by (by rewrite list_elem_of_singleton). eexists. split; [done |]. split; [| apply keeps_refl].
    destruct (H9 Hnb) as [Hl Hm].
    assert (dst = m) as -> by (destruct st; try lia; by destruct (Hnb i)).
    split; cbn -[piece after_piece]; fold P; try done; try lia.
    + intros _. split; [rewrite length_write_at; [done | lia | rewrite Hd; lia] |]. rewrite <- Hd at 1. rewrite <- (Z.add_0_l m) at 2.
      rewrite bytes_at_extend by (rewrite ?Hd; lia). rewrite Hm. exact Et.
    + intros i ->. by destruct (Hnb i).
Qed.

(** *** Processing a complete piece *)

Lemma complete_message st s : on_track B r a st (Z.of_nat (length (piece B r a st))) s → (∀ i, st ≠ AtBlock i) →
  messageBuffer_ (executor s) = piece B r a st.
Proof using.
  intros H Hnb. destruct (ot_message _ _ _ _ _ _ H Hnb) as [Hl Hm]. unfold bytes_at in Hm.
  change (Z.to_nat 0) with 0%nat in Hm. rewrite drop_0, !Nat2Z.id, <- Hl, !take_ge in Hm; [done | lia..].
Qed.

Lemma packet_header_read h : valid Packet.header_f h → Packet.deserializePacketHeader (of_bytes (to_bytes (serialize Packet.header_f h))) = Ok h.
Proof using.
  intros Hh. rewrite of_to_bytes by (by apply law_bytes). unfold Packet.deserializePacketHeader.
  assert (deserialize_buffer Packet.header_f (serialize Packet.header_f h) = Ok (h, 0)) as ->; [| done].
  rewrite <- (app_nil_r (serialize Packet.header_f h)). by apply (Packet.deserialize_buffer_ok Packet.header_f h []).
Qed.

Lemma block_crc_range i : 0 <= block_crc a i < 2 ^ 32.
Proof using. unfold block_crc. pose proof (crc_of_lt 0 (data a i) eq_refl). lia. Qed.

Lemma prefix_valid i : 0 <= i < blocks a →
  valid ReadData.prefix_f (chunkId_ r, (request_offset op + i * B, (B, block_crc a i))).
Proof using HB Han.
  intros Hi. pose proof (block_crc_range i). destruct Han as [_ _ Ho _ _ Hc _ _ Hb _ _]. cbn. split; [lia |]. split; [nia |]. lia.
Qed.

Lemma prefix_read i : 0 <= i < blocks a →
  ReadData.deserializePrefix (of_bytes (block_prefix B r a i)) = Ok (chunkId_ r, (request_offset op + i * B, (B, block_crc a i))).
Proof using HB Han.
  intros Hi. pose proof (prefix_valid i Hi) as Hv. unfold block_prefix.
  rewrite of_to_bytes by (apply Forall_app; split; [by apply (law_bytes (f := uint32_f)) | by apply law_bytes]).
  unfold ReadData.deserializePrefix. rewrite Packet.verify_version by done. cbn [mbind res_bind]. change (0 =? 0) with true. cbv iota.
  unfold Packet.deserializePacketDataNoHeader. rewrite Packet.ignore_version by done. cbn [mbind res_bind].
  set (v := (chunkId_ r, _)) in *. assert (deserialize_buffer ReadData.prefix_f (serialize ReadData.prefix_f v) = Ok (v, 0)) as ->; [| done].
  rewrite <- (app_nil_r (serialize ReadData.prefix_f v)). by apply (Packet.deserialize_buffer_ok ReadData.prefix_f v []).
Qed.

Lemma status_read : Packet.read readStatus (of_bytes (status_payload r a)) = Ok (chunkId_ r, status a).
Proof using Han.
  destruct Han as [_ _ _ _ _ Hc _ _ _ Hs _]. assert (Packet.message_ok readStatus (chunkId_ r, status a)) as Hok.
  { split; [by cbn | by cbn | by cbn | by cbn]. }
  unfold status_payload. rewrite of_to_bytes; [by apply (Packet.read_whole readStatus) |].
  unfold Packet.payload. apply Forall_app. split; [by apply (law_bytes (f := uint32_f)) | apply (law_bytes (f := pair_f uint64_f uint8_f)), Hok].
Qed.

(** What the status of the answer leads to. *)
Definition verdict : option exception :=
  if status a =? SAUNAFS_ERROR_CRC then Some (ChunkCrcException (server_ r) (chunkType_ r))
  else if (status a =? SAUNAFS_STATUS_OK) && (blocks a =? n) then None else Some ChunkserverConnectionException.

(** The operation is finished and the blocks are in place. *)
Record finished (s : machine) : Prop := {
  fi_request : request_ (executor s) = r;
  fi_state : state_ (executor s) = kFinished;
  fi_input : input s = [];
  fi_data : bytes_at (place r) (n * B) (memory s) = blocks_of (data a) 0 n;
}.

(** The start of a piece that is received into the message buffer. *)
Lemma message_expected st st0 e mem inp size : stage_ok a st → (∀ i, st ≠ AtBlock i) → request_ e = r → dataBlocksCompleted_ e = stage_blocks a st →
  inp = piece B r a st ++ after_piece B r a st → st0 = stage_state st → size = Z.of_nat (length (piece B r a st)) →
  bytes_at (place r) (stage_blocks a st * B) mem = blocks_of (data a) 0 (stage_blocks a st) →
  on_track B r a st 0 (mk_machine (set_state st0 (expect_message size e)) mem inp).
Proof using.
  intros Hst Hnb Hr Hc Hi -> -> Hd. split; cbn -[piece after_piece]; try done; try lia.
  - destruct st as [| | i |]; try done. by destruct (Hnb i).
  - intros _. split; [rewrite resize_length; lia |]. unfold bytes_at. change (Z.to_nat 0) with 0%nat. by rewrite !take_0.
  - intros i ->. by destruct (Hnb i).
Qed.

Lemma version_known : kFirstXorVersion <=? server_version_ r = true.
Proof using Han. apply Z.leb_le. destruct Han as [_ _ _ _ _ _ Hv _ _ _ _]. unfold kFirstECVersion, kFirstXorVersion, saunafsVersion in *. lia. Qed.

(** What [setState] asks for and what it prepares. *)
Definition transition (new : ReadOperationState) (e : ReadOperationExecutor) : bool :=
  match new with
  | kReceivingHeader => in_state [kSendingRequest; kReceivingDataBlock] e
  | kReceivingReadStatusMessage => in_state [kReceivingHeader] e
  | kReceivingReadDataMessage => in_state [kReceivingHeader] e && (kFirstXorVersion <=? server_version_ e)
  | kReceivingDataBlock => in_state [kReceivingReadDataMessage] e
  | kFinished => true
  | kSendingRequest => false
  end.

Definition prepare (new : ReadOperationState) (e : ReadOperationExecutor) : ReadOperationExecutor :=
  match new with
  | kReceivingHeader => expect_message Packet.kSize e
  | kReceivingReadStatusMessage => expect_message (Packet.length (packetHeader_ e)) e
  | kReceivingReadDataMessage => expect_message ReadData.kPrefixSize e
  | kReceivingDataBlock =>
      set_destination (dataBuffer_ e + u32 (buffer_offset (readOperation_ e) + u32 (dataBlocksCompleted_ e * B))) B e
  | _ => e
  end.

Lemma setState_run new e b i : state_ e ≠ kFinished → bytesLeft_ e = 0 → transition new e = true →
  setState B new (mk_machine e b i) = Returned () (mk_machine (set_state new (prepare new e)) b i).
Proof using.
  intros Hf Hl Ht. unfold setState. rewrite run_inspect. cbn [executor]. rewrite !run_sassert.
  - destruct new; cbn [transition] in Ht; try done;
      try (erewrite run_bind; [| rewrite ?run_sassert by (done || by apply andb_true_iff in Ht as [? ?]); done]; done).
  - by rewrite Hl.
  - unfold in_state. rewrite bool_decide_false; [done |]. by rewrite list_elem_of_singleton.
Qed.


Lemma process_header i s : on_track B r a (AtHeader i) 8 s →
  ∃ s', process B s = Returned () s' ∧ on_track B r a (if i <? blocks a then AtPrefix i else AtStatus) 0 s' ∧ memory s' = memory s ∧ input s' = input s.
Proof using HB Han.
  intros H. assert (8 = Z.of_nat (length (piece B r a (AtHeader i)))) as E8 by (by rewrite piece_length).
  pose proof H as H'. rewrite E8 in H'. apply complete_message in H'; [| done]. open_machine s.
  destruct H as [H1 H2 H3 H4 _ H6 H7 H8 _ _ H11]. fields.
  rewrite <- E8 in H6. subst rq state comp left dst msg. rewrite drop_ge in H7 by (rewrite piece_length; done). cbn [app] in H7.
  unfold process. rewrite run_inspect. fields. unfold processHeaderReceived. rewrite run_inspect, !run_sassert by done.
  set (h := if i <? blocks a then Packet.mk_header SAU_CSTOCL_READ_DATA (ReadData.kPrefixSize + B) else Packet.mk_header SAU_CSTOCL_READ_STATUS 13).
  rewrite (run_lift _ h).
  2: { fields. unfold h, piece. destruct (i <? blocks a); apply packet_header_read; [| done]. split; [done |]. change (0 <= ReadData.kPrefixSize + B < 2 ^ 32). unfold ReadData.kPrefixSize. lia. }
  rewrite run_update. fields. unfold h, kMaxMessageLength. cbn [after_piece] in H7. destruct (Z.ltb_spec i (blocks a)); cbn [Packet.length Packet.type].
  - rewrite (proj2 (Z.ltb_ge _ _)) by (unfold ReadData.kPrefixSize; lia). change (SAU_CSTOCL_READ_DATA =? SAU_CSTOCL_READ_DATA) with true. cbv iota.
    rewrite setState_run; [| done | done |].
    + eexists. split; [done |]. split; [| done]. apply message_expected; try done. fields. lia.
    + cbn [transition]. apply andb_true_iff. split; [done | apply version_known].
  - rewrite (proj2 (Z.ltb_ge _ _)) by lia. change (SAU_CSTOCL_READ_STATUS =? SAU_CSTOCL_READ_DATA) with false.
    change (SAU_CSTOCL_READ_STATUS =? SAU_CSTOCL_READ_STATUS) with true. cbv iota. rewrite setState_run by done.
    assert (i = blocks a) as -> by lia. eexists. split; [done |]. split; [| done]. by apply message_expected; rewrite ?app_nil_r.
Qed.

Lemma process_prefix i s : on_track B r a (AtPrefix i) 24 s → ∃ s', process B s = Returned () s' ∧ on_track B r a (AtBlock i) 0 s' ∧ memory s' = memory s ∧ input s' = input s.
Proof using HB Han.
  intros H. assert (24 = Z.of_nat (length (piece B r a (AtPrefix i)))) as E24 by (by rewrite piece_length).
  pose proof H as H'. rewrite E24 in H'. apply complete_message in H'; [| done]. open_machine s.
  destruct H as [H1 H2 H3 H4 _ H6 H7 H8 _ _ H11]. fields.
  rewrite <- E24 in H6. subst rq state comp left dst msg. rewrite drop_ge in H7 by (rewrite piece_length; done). cbn [app] in H7.
  unfold process. rewrite run_inspect. fields. unfold processReadDataMessageReceived. rewrite run_inspect, !run_sassert by (done || apply version_known).
  rewrite (run_lift _ _ _ _ (prefix_read i H1)). rewrite run_update. fields. rewrite !Z.eqb_refl. cbn [negb].
  destruct Han as [_ _ Ho Hbo _ _ _ _ Hbl _ _]. assert (0 <= i * B ∧ i * B < n * B) as Hi by nia.
  rewrite (wrapu_small 32 (i * B)) by lia. rewrite wrapu_small, Z.eqb_refl by lia. cbn [negb]. rewrite setState_run by done.
  eexists. split; [done |]. split; [| done]. split; cbn -[piece after_piece u32]; try done; try lia.
  - rewrite piece_length. lia.
  - fields. rewrite (wrapu_small 32 (i * B)), wrapu_small by lia. unfold place. lia.
  - intros Hn. by destruct (Hn i).
  - intros ? [= <-]. split; [done |]. unfold bytes_at. by rewrite !take_0.
Qed.

Lemma process_block i s : on_track B r a (AtBlock i) B s → place r + i * B + B <= Z.of_nat (length (memory s)) → ∃ s', process B s = Returned () s' ∧ on_track B r a (AtHeader (i + 1)) 0 s' ∧ memory s' = memory s ∧ input s' = input s.
Proof using HB Han.
  intros H Hroom. open_machine s. destruct H as [H1 H2 H3 H4 _ H6 H7 H8 _ H10 H11]. fields.
  destruct (H10 i eq_refl) as [Hc Hm]. assert (length (piece B r a (AtBlock i)) = Z.to_nat B) as Hpl by apply (piece_length (AtBlock i)). rewrite Hpl, Z2Nat.id, Z.sub_diag in H6 by lia.
  rewrite drop_ge in H7 by lia. cbn [app after_piece] in H7. subst rq state comp left crc inp.
  unfold process. rewrite run_inspect. fields. unfold processDataBlockReceived. rewrite !run_inspect. fields. rewrite !run_sassert by done.
  replace (dst - B) with (place r + i * B) by lia. rewrite Hm. pose proof (an_data _ Han i) as Hsz. rewrite take_ge by lia.
  rewrite (run_lift _ _ _ _ (mycrc32_bitserial 0 _ (data a i) eq_refl)). unfold block_crc. rewrite Z.eqb_refl. cbn [negb].
  destruct Han as [_ _ Ho Hbo _ _ _ Hs Hbl _ _]. assert (i * B + B <= n * B) as Hi by nia. rewrite run_update. fields.
  rewrite setState_run by done. eexists. split; [done |]. split; [| done]. assert (0 <= i + 1 < 2 ^ 32) as H32 by nia.
  cbn [prepare]. apply message_expected; fields; try done; try lia.
  - by rewrite wrapu_small.
  - by rewrite answer_from_header by lia.
  - by rewrite piece_length.
  - rewrite Z.mul_add_distr_r, Z.mul_1_l. pose proof place_nonneg. rewrite bytes_at_split by nia. rewrite H11, Hm, take_ge by lia.
    by rewrite blocks_of_app, blocks_of_1, Z.add_0_l by lia.
Qed.

Definition start (b : list byte) : machine := mk_machine (new_ReadOperationExecutor r) b (answer_from B r a 0).

Definition request_message : list Z := Packet.packet SAU_CLTOCS_READ (Packet.payload readRequest
  (chunkId_ r, (chunkVersion_ r, (chunkType_ r, (request_offset op, request_size op))))).

Lemma request_sent_for b : 0 <= q <= n → ∃ s, sendReadRequest B 34 (start b) = Returned request_message s ∧ on_track B r a (AtHeader 0) 0 s ∧ memory s = b ∧ input s = answer_from B r a 0.
Proof using HB Han.
  intros Hq. destruct Han as [Hc Hs Ho Hbo Hd Hch Hv Hsz Hbl Hst Hp]. assert (0 <= q * B <= n * B) as Hqb by nia. unfold sendReadRequest. rewrite run_inspect, run_sassert by (by apply Z.leb_le).
  rewrite (run_lift _ request_message).
  - change (34 =? Z.of_nat (length request_message)) with true. cbn [negb]. erewrite run_bind; [| by apply setState_run].
    eexists. split; [done |]. split; [| done].
    apply message_expected; cbn [request_ stage_blocks stage_ok new_ReadOperationExecutor dataBlocksCompleted_]; try done; try lia; by rewrite ?answer_from_header, ?piece_length by lia.
  - cbn [start executor]. change (request_ (new_ReadOperationExecutor r)) with r. rewrite !wrapu_small by lia. apply (Packet.build_packet readRequest).
    split; cbn; try done. lia.
Qed.

End receiving.

(** The request is for [n] blocks and the answer has no more. *)
Notation answerable B r a n := (answerable_for B r a n n).

Section receiving_all.
Context (B : Z) (HB : 0 < B < 2 ^ 31) (r : request) (a : answer) (n : Z) (Han : answerable B r a n).

Abbreviation op := (readOperation_ r).
Abbreviation keeps := (keeps B r n).
Abbreviation room := (room B r n).
Abbreviation verdict := (verdict r a n).
Abbreviation finished := (finished B r a n).
Abbreviation place_nonneg := (place_nonneg B r a n n Han).
Abbreviation piece_length := (piece_length B r a n n Han).
Abbreviation version_known := (version_known B r a n n Han).
Abbreviation status_read := (status_read B r a n n Han).

Lemma answer_length : 0 <= blocks a → Z.of_nat (length (answer_from B r a 0)) = blocks a * (B + 32) + 21.
Proof using HB Han.
  intros Hb. unfold answer_from. rewrite Z.sub_0_r, !length_app, (length_mjoin _ (Z.to_nat B + 32)), length_fmap, length_seqZ.
  - unfold status_header, status_payload. rewrite !length_to_bytes. cbn. lia.
  - intros l (i & -> & _)%list_elem_of_fmap. unfold block_message, data_header, block_prefix. rewrite !length_app, !length_to_bytes, (an_data _ _ _ _ _ Han). cbn. lia.
Qed.

Lemma process_status s : on_track B r a AtStatus 13 s → ∃ s', memory s' = memory s ∧
  match verdict with Some x => process B s = Raised x s' | None => process B s = Returned () s' ∧ finished s' end.
Proof using HB Han.
  intros H. assert (13 = Z.of_nat (length (piece B r a AtStatus))) as E13 by (by rewrite piece_length).
  pose proof H as H'. rewrite E13 in H'. apply complete_message in H'; [| done]. open_machine s.
  destruct H as [H1 H2 H3 H4 _ H6 H7 H8 _ _ H11]. fields.
  rewrite <- E13 in H6. subst rq state comp left dst msg. rewrite drop_ge in H7 by (rewrite piece_length; done). cbn [app after_piece] in H7. subst inp.
  unfold process. rewrite run_inspect. fields. unfold processReadStatusMessageReceived. rewrite run_inspect, !run_sassert by (done || apply version_known).
  rewrite (run_lift _ _ _ _ status_read). rewrite Z.eqb_refl. cbn [negb]. unfold verdict. destruct (status a =? SAUNAFS_ERROR_CRC); [by (eexists; split; cycle 1) |].
  destruct (status a =? SAUNAFS_STATUS_OK); cbn [negb andb]; [| by (eexists; split; cycle 1)]. destruct Han as [_ Hsz Ho Hbo _ _ _ Hs Hbl _ _]. fields.
  assert (0 <= blocks a * B <= n * B) as Hb by nia. rewrite wrapu_small, wraps_small by lia. rewrite Hsz.
  destruct (Z.eqb_spec (blocks a) n) as [Heq | Hne].
  - rewrite Heq, Z.eqb_refl. cbn [negb]. rewrite setState_run by done. eexists. split; cycle 1.
    + split; [done |]. split; try done. by rewrite <- Heq.
    + done.
  - rewrite (proj2 (Z.eqb_neq _ _)) by nia. by (eexists; split; cycle 1).
Qed.

(** *** Receiving the answer *)

Lemma fits_room st i m s : on_track B r a st m s → room (memory s) → st = AtBlock i → place r + i * B + B <= Z.of_nat (length (memory s)).
Proof using HB Han.
  intros Ht Hroom ->. pose proof (ot_stage _ _ _ _ _ _ Ht) as Hs. cbn in Hs. unfold ReadExecution.room in Hroom. destruct Han as [_ _ _ _ _ _ _ _ Hbl _ _]. nia.
Qed.

Definition progress (s : machine) : Prop := ∃ st m, on_track B r a st m s ∧ m < Z.of_nat (length (piece B r a st)).

(** Only the memory of the operation matters. *)
Lemma progress_memory e b b' i : progress (mk_machine e b i) → bytes_at (place r) (n * B) b' = bytes_at (place r) (n * B) b → progress (mk_machine e b' i).
Proof using HB Han.
  intros (st & m & Ht & Hm) Hb. exists st, m. split; [| done]. destruct Ht as [H1 H2 H3 H4 H5 H6 H7 H8 H9 H10 H11].
  assert (0 <= stage_blocks a st <= n) as Hst by (destruct Han as [_ _ _ _ _ _ _ _ Hbl _ _]; destruct st; cbn in *; lia).
  assert (∀ o size, 0 <= o → 0 <= size → o + size <= n * B → bytes_at (place r + o) size b' = bytes_at (place r + o) size b) as Hin.
  { intros o size Ho Hsz Hos. pose proof place_nonneg. rewrite <- !(bytes_at_inner (place r) (n * B)) by lia. by rewrite Hb. }
  split; try done; cbn [executor memory input] in *.
  - intros j ->. destruct (H10 j eq_refl) as [? Hd]. split; [done |]. rewrite Hin; [done | | lia |].
    + cbn in Hst. nia.
    + cbn [stage_ok] in H1. rewrite piece_length in Hm. destruct Han as [_ _ _ _ _ _ _ _ Hbl _ _]. nia.
  - rewrite <- H11. specialize (Hin 0 (stage_blocks a st * B)). rewrite Z.add_0_r in Hin. apply Hin; nia.
Qed.

Lemma piece_positive st : 0 < Z.of_nat (length (piece B r a st)).
Proof using HB Han. rewrite piece_length. destruct st; lia. Qed.

Lemma process_piece st s : on_track B r a st (Z.of_nat (length (piece B r a st))) s → room (memory s) →
  ∃ s', memory s' = memory s ∧
    ((process B s = Returned () s' ∧ (∃ st', on_track B r a st' 0 s') ∧ input s' = input s) ∨
     (process B s = Returned () s' ∧ finished s' ∧ verdict = None) ∨ (∃ x, process B s = Raised x s' ∧ verdict = Some x)).
Proof using HB Han.
  intros H Hroom. destruct st as [i | i | i |].
  - rewrite piece_length in H. destruct (process_header B HB r a n n Han i s H) as (s' & E & Ht & Hm & Hi). by eauto 10.
  - rewrite piece_length in H. destruct (process_prefix B HB r a n n Han i s H) as (s' & E & Ht & Hm & Hi). by eauto 10.
  - rewrite piece_length, Z2Nat.id in H by lia. destruct (process_block B HB r a n n Han i s H (fits_room (AtBlock i) i B s H Hroom eq_refl)) as (s' & E & Ht & Hm & Hi). by eauto 10.
  - rewrite piece_length in H. destruct (process_status s H) as (s' & Hm & E). destruct verdict; [by eauto 10 |]. destruct E. by eauto 10.
Qed.

(** A call that receives at least a byte. *)
Lemma continue_receives s amount : progress s → room (memory s) → (0 < amount)%nat →
  ∃ s', keeps (memory s) (memory s') ∧
    ((continueReading B (Receives amount) s = Returned () s' ∧ progress s' ∧ (length (input s') < length (input s))%nat) ∨
     (continueReading B (Receives amount) s = Returned () s' ∧ finished s' ∧ verdict = None) ∨
     (∃ x, continueReading B (Receives amount) s = Raised x s' ∧ verdict = Some x)).
Proof using HB Han.
  intros (st & m & Ht & Hm) Hroom Ha. pose proof Ht as [_ _ H3 _ H5 H6 H7 _ _ _ _].
  unfold continueReading. rewrite run_inspect, run_sassert, run_inspect.
  2: { unfold in_state. rewrite H3. apply bool_decide_true. destruct st; cbn; set_solver. }
  set (j := (amount `min` Z.to_nat (bytesLeft_ (executor s)) `min` length (input s))%nat).
  assert (0 < Z.of_nat j <= Z.of_nat (length (piece B r a st)) - m) as Hj by (unfold j; rewrite H6, H7, length_app, length_drop; lia).
  rewrite (proj2 (Nat.eqb_neq j 0)) by lia. destruct (receive_track B HB r a n n Han st m s j Ht (fun i => fits_room st i m s Ht Hroom) Hj) as (s1 & E1 & Ht1 & Hk1).
  rewrite (run_bind _ _ _ _ _ E1), run_inspect. assert (length (input s1) < length (input s))%nat as Hless.
  { rewrite H7, (ot_input _ _ _ _ _ _ Ht1), !length_app, !length_drop. lia. }
  rewrite (ot_left _ _ _ _ _ _ Ht1). destruct (Z.ltb_spec 0 (Z.of_nat (length (piece B r a st)) - (m + Z.of_nat j))).
  - exists s1. split; [done |]. left. split; [done |]. split; [| done]. exists st, (m + Z.of_nat j). split; [done | lia].
  - assert (m + Z.of_nat j = Z.of_nat (length (piece B r a st))) as Em by lia. rewrite Em in Ht1.
    assert (room (memory s1)) as Hroom1 by (unfold room; rewrite (proj1 Hk1); exact Hroom).
    destruct (process_piece st s1 Ht1 Hroom1) as (s2 & Hmem & Hp). exists s2. rewrite Hmem. split; [done |].
    destruct Hp as [(E2 & [st' Ht2] & Ei) | Hp]; [left | by right]. split; [done |]. split.
    + exists st', 0. split; [done | apply piece_positive].
    + by rewrite Ei.
Qed.

(** A call that receives nothing. *)
Lemma continue_idle s : progress s → continueReading B TCPEAGAIN s = Returned () s ∧
  continueReading B Fails s = Raised ChunkserverConnectionException s ∧ continueReading B (Receives 0) s = Raised ChunkserverConnectionException s.
Proof using HB Han.
  intros (st & m & Ht & _). assert (in_state [kReceivingHeader; kReceivingReadStatusMessage; kReceivingReadDataMessage; kReceivingDataBlock] (executor s) = true) as E.
  { unfold in_state. rewrite (ot_state _ _ _ _ _ _ Ht). apply bool_decide_true. destruct st; cbn; set_solver. }
  unfold continueReading. by rewrite !run_inspect, !run_sassert.
Qed.

Lemma progress_input s : progress s → (0 < length (input s))%nat.
Proof using.
  intros (st & m & Ht & Hm). pose proof (ot_some _ _ _ _ _ _ Ht). rewrite (ot_input _ _ _ _ _ _ Ht), length_app, length_drop. lia.
Qed.

Lemma progress_not_finished s : progress s → isFinished (executor s) = false.
Proof using. intros (st & m & Ht & _). unfold isFinished. rewrite (ot_state _ _ _ _ _ _ Ht). by destruct st. Qed.

Lemma request_sent b : ∃ s, sendReadRequest B 34 (start B r a b) = Returned (request_message r) s ∧ progress s ∧ memory s = b ∧ input s = answer_from B r a 0.
Proof using HB Han.
  destruct (request_sent_for B HB r a n n Han b) as (s & E & Ht & Hm & Hi); [pose proof (an_count _ _ _ _ _ Han); lia |].
  exists s. split; [done |]. split; [| done]. exists (AtHeader 0), 0. split; [done | by rewrite piece_length].
Qed.

Definition benign (t : turn) : bool :=
  match t with
  | Interrupted | Polled None false | Polled (Some TCPEAGAIN) false => true
  | Polled (Some (Receives amount)) false => (0 <? amount)%nat
  | _ => false
  end.

Definition receives (t : turn) : bool := match t with Polled (Some (Receives _)) _ => true | _ => false end.

Lemma readAll_finished turns s : finished s → readAll B turns s = Returned true s.
Proof using. intros [_ E _ _]. destruct turns; cbn [readAll]; rewrite run_inspect; unfold isFinished; by rewrite E. Qed.

(** Whatever happens nothing else is changed, and a finished operation has read its blocks. *)
Lemma readAll_safe turns : ∀ s, progress s → room (memory s) →
  ∃ s', keeps (memory s) (memory s') ∧
    ((∃ x, readAll B turns s = Raised x s') ∨ readAll B turns s = Returned false s' ∨ (readAll B turns s = Returned true s' ∧ finished s' ∧ verdict = None)).
Proof using HB Han.
  induction turns as [| t turns IH]; intros s Hs Hroom; cbn [readAll]; rewrite run_inspect, progress_not_finished by done.
  - exists s. split; [apply (keeps_refl B r n) |]. by eauto.
  - destruct t as [| | | pollin pollerr].
    + exists s. split; [apply (keeps_refl B r n) |]. by eauto.
    + by apply IH.
    + exists s. split; [apply (keeps_refl B r n) |]. by eauto.
    + destruct (continue_idle s Hs) as (Ha & Hf & H0).
      destruct pollin as [[[| amount] | |] |].
      * erewrite bind_raised by done. exists s. split; [apply (keeps_refl B r n) |]. by eauto.
      * destruct (continue_receives s (S amount) Hs Hroom ltac:(lia)) as (s1 & Hk & Hc).
        assert (room (memory s1)) as Hroom1 by (unfold room; rewrite (proj1 Hk); exact Hroom).
        destruct Hc as [(E & Hp & _) | [(E & Hfin & Hv) | (x & E & Hv)]].
        -- rewrite (run_bind _ _ _ _ _ E). destruct pollerr; [by eauto |]. destruct (IH s1 Hp Hroom1) as (s2 & Hk2 & H2).
           exists s2. split; [by eapply (keeps_trans B r n) | done].
        -- rewrite (run_bind _ _ _ _ _ E). destruct pollerr; [by eauto |]. rewrite readAll_finished by done. by eauto 10.
        -- rewrite (bind_raised _ _ _ _ _ E). by eauto.
      * rewrite (run_bind _ _ _ _ _ Ha). destruct pollerr; [| by apply IH]. exists s. split; [apply (keeps_refl B r n) |]. by eauto.
      * rewrite (bind_raised _ _ _ _ _ Hf). exists s. split; [apply (keeps_refl B r n) |]. by eauto.
      * destruct pollerr; [| by apply IH]. exists s. split; [apply (keeps_refl B r n) |]. by eauto.
Qed.

(** When nothing fails the answer is received. *)
Lemma readAll_complete turns : ∀ s, progress s → room (memory s) → forallb benign turns = true →
  (length (input s) ≤ length (filter (fun t => receives t = true) turns))%nat →
  ∃ s', readAll B turns s = match verdict with Some x => Raised x s' | None => Returned true s' end.
Proof using HB Han.
  induction turns as [| t turns IH]; intros s Hs Hroom Hb Hl.
  { destruct Hs as (st & m & Ht & Hm). rewrite (ot_input _ _ _ _ _ _ Ht), length_app, length_drop in Hl.
    pose proof (ot_some _ _ _ _ _ _ Ht). cbn in Hl. lia. }
  cbn [forallb] in Hb. apply andb_true_iff in Hb as [Ht Hb]. cbn [readAll]. rewrite run_inspect, progress_not_finished by done.
  destruct t as [| | | [[amount | |] |] []]; try done; rewrite filter_cons in Hl; cbn [receives] in Hl.
  - rewrite decide_False in Hl by done. by apply IH.
  - rewrite decide_True in Hl by done. cbn [benign] in Ht. apply Nat.ltb_lt in Ht.
    destruct (continue_receives s amount Hs Hroom Ht) as (s1 & Hk & Hc).
    assert (room (memory s1)) as Hroom1 by (unfold room; rewrite (proj1 Hk); exact Hroom).
    destruct Hc as [(E & Hp & Hless) | [(E & Hfin & Hv) | (x & E & Hv)]].
    + rewrite (run_bind _ _ _ _ _ E). apply IH; try done. cbn [length] in Hl. lia.
    + rewrite (run_bind _ _ _ _ _ E), readAll_finished, Hv by done. by eauto.
    + rewrite (bind_raised _ _ _ _ _ E), Hv. by eauto.
  - rewrite decide_False in Hl by done. destruct (continue_idle s Hs) as (Ha & _). rewrite (run_bind _ _ _ _ _ Ha). by apply IH.
  - rewrite decide_False in Hl by done. by apply IH.
Qed.

Lemma request_not_sent written b : written ≠ 34 → sendReadRequest B written (start B r a b) = Raised ChunkserverConnectionException (start B r a b).
Proof using HB Han.
  intros Hw. destruct Han as [Hc Hs Ho Hbo Hd Hch Hv Hsz Hbl Hst Hp]. unfold sendReadRequest. rewrite run_inspect, run_sassert by (by apply Z.leb_le).
  rewrite (run_lift _ (request_message r)).
  - change (Z.of_nat (length (request_message r))) with 34. by rewrite (proj2 (Z.eqb_neq written 34)).
  - cbn [start executor]. change (request_ (new_ReadOperationExecutor r)) with r. rewrite !wrapu_small by lia. apply (Packet.build_packet readRequest).
    split; cbn; try done. lia.
Qed.
End receiving_all.

(** C13: An answer of a chunk server with well-formed blocks, not more than were asked for, is received exactly when the
    operation has its place in the memory.  Whatever the calls of [poll] and [recv] do, no
    assertion fails, only the memory of the operation changes, and a finished operation has
    put the requested blocks in place.  When the calls do not fail and bytes keep coming, however
    few at a time, the outcome is that of the answer: it is finished when the answer has all
    the blocks and a good status, and throws otherwise. *)
Theorem read_operation_exact B r a n b written turns :
  0 < B < 2 ^ 31 → answerable B r a n → room B r n b →
  let run := (_ ← sendReadRequest B written; readAll B turns) (start B r a b) in
  (∃ s, keeps B r n b (memory s) ∧
    ((∃ x, run = Raised x s) ∨ run = Returned false s ∨
     (run = Returned true s ∧ verdict r a n = None ∧ bytes_at (place r) (n * B) (memory s) = blocks_of (data a) 0 n))) ∧
  (written = Z.of_nat (length (request_message r)) → forallb benign turns = true →
   (length (answer_from B r a 0) ≤ length (filter (fun t => receives t = true) turns))%nat →
   ∃ s, run = match verdict r a n with Some x => Raised x s | None => Returned true s end).
Proof.
  intros HB Han Hroom run. change (Z.of_nat (length (request_message r))) with 34. destruct (decide (written = 34)) as [-> | Hw].
  - destruct (request_sent B HB r a n Han b) as (s1 & E & Hp & Hm & Hi). unfold run. rewrite (run_bind _ _ _ _ _ E). rewrite <- Hm in Hroom. split.
    + destruct (readAll_safe B HB r a n Han turns s1 Hp Hroom) as (s & Hk & [Hx | [Hx | (Hx & Hfin & Hv)]]); rewrite Hm in Hk; exists s; [by eauto.. |].
      split; [done |]. right. right. split; [done |]. split; [done |]. apply Hfin.
    + intros _ Hb Hl. rewrite <- Hi in Hl. by apply (readAll_complete B HB r a n Han turns s1).
  - unfold run. rewrite (bind_raised _ _ _ _ _ (request_not_sent B HB r a n Han written b Hw)). split; [| done].
    exists (start B r a b). split; [apply (keeps_refl B r n) | by eauto].
Qed.

(** A request for two blocks of one byte, and memory for three. *)
Definition sample_request (blocks : Z) : request := {|
  readOperation_ := {| request_offset := 0; request_size := blocks; buffer_offset := 0; wave := 0 |};
  dataBuffer_ := 0; chunkId_ := 1; chunkVersion_ := 1; chunkType_ := 0; server_ := 7; server_version_ := kFirstECVersion |}.
Definition sample_answer (blocks status : Z) : answer := {| data := fun i => [if i =? 0 then x05 else x07]; blocks := blocks; status := status |}.

(** Turns that receive [size] bytes each. *)
Definition steady (size count : nat) : list turn := replicate count (Polled (Some (Receives size)) false).

Lemma sample_answerable blocks n status : 0 <= blocks <= n → n < 2 ^ 31 → 0 <= status < 256 → answerable 1 (sample_request n) (sample_answer blocks status) n.
Proof. intros. split; cbn; try done; lia. Qed.

Lemma read_operation_exact_witness :
  ∃ s, (_ ← sendReadRequest 1 34; readAll 1 (steady 3 87)) (start 1 (sample_request 2) (sample_answer 2 0) [x00; x00; x11]) = Returned true s ∧
    memory s = [x05; x07; x11].
Proof.
  destruct (read_operation_exact 1 (sample_request 2) (sample_answer 2 0) 2 [x00; x00; x11] 34 (steady 3 87)) as [_ H].
  - lia.
  - apply sample_answerable; lia.
  - done.
  - destruct H as [s E]; [reflexivity | reflexivity | vm_compute; lia |]. exists s. split; [exact E |]. vm_compute in E. by injection E as <-.
Defined.

(** *** An answer with a block too many *)

Section overrun.
Context (B : Z) (HB : 0 < B < 2 ^ 31) (r : request) (a : answer) (q : Z) (Han : answerable_for B r a (q + 1) q).
Context (amount : nat) (Hamount : (24 ≤ amount)%nat ∧ B <= Z.of_nat amount).

Abbreviation track := (on_track B r a).
Abbreviation next := (Polled (Some (Receives amount)) false).

(** A call receives the rest of a piece. *)
Lemma whole_piece st s : track st 0 s → (∀ i, st = AtBlock i → place r + i * B + B <= Z.of_nat (length (memory s))) →
  ∃ s1, continueReading B (Receives amount) s = process B s1 ∧ track st (Z.of_nat (length (piece B r a st))) s1 ∧ length (memory s1) = length (memory s).
Proof using HB Han Hamount.
  intros Ht Hfit. pose proof Ht as [_ _ H3 _ _ H6 H7 _ _ _ _]. pose proof (piece_length B r a _ _ Han st) as Hpl.
  assert (0 < length (piece B r a st) ≤ amount)%nat as Hlen by (rewrite Hpl; destruct st; lia).
  unfold continueReading. rewrite run_inspect, run_sassert, run_inspect.
  2: { unfold in_state. rewrite H3. apply bool_decide_true. destruct st; cbn; set_solver. }
  assert ((amount `min` Z.to_nat (bytesLeft_ (executor s)) `min` length (input s))%nat = length (piece B r a st)) as -> by (rewrite H6, H7, length_app, length_drop; lia).
  rewrite (proj2 (Nat.eqb_neq _ 0)) by lia.
  destruct (receive_track B HB r a _ _ Han st 0 s (length (piece B r a st)) Ht Hfit ltac:(lia)) as (s1 & E1 & Ht1 & Hk1).
  exists s1. rewrite (run_bind _ _ _ _ _ E1), run_inspect, (ot_left _ _ _ _ _ _ Ht1). rewrite Z.add_0_l, Z.sub_diag in *. split; [done |]. split; [done | apply Hk1].
Qed.

(** The turn of a piece whose processing succeeds. *)
Lemma turn_taken s s1 s2 st turns : track st 0 s → continueReading B (Receives amount) s = process B s1 → process B s1 = Returned () s2 → readAll B (next :: turns) s = readAll B turns s2.
Proof using.
  intros Ht E1 E2. cbn [readAll]. rewrite run_inspect. unfold isFinished. rewrite (ot_state _ _ _ _ _ _ Ht), bool_decide_false by (by destruct st).
  rewrite E2 in E1. by rewrite (run_bind _ _ _ _ _ E1).
Qed.

(** Up to the bytes of block [i]. *)
Lemma block_announced i s turns : track (AtHeader i) 0 s → 0 <= i < blocks a →
  ∃ s', readAll B (next :: next :: turns) s = readAll B turns s' ∧ track (AtBlock i) 0 s' ∧ length (memory s') = length (memory s).
Proof using HB Han Hamount.
  intros Ht Hi. destruct (whole_piece (AtHeader i) s Ht ltac:(done)) as (s1 & E1 & Ht1 & L1). rewrite (piece_length _ _ _ _ _ Han) in Ht1.
  destruct (process_header B HB r a _ _ Han i s1 Ht1) as (s2 & E2 & Ht2 & M2 & _). rewrite (proj2 (Z.ltb_lt _ _)) in Ht2 by lia. rewrite (turn_taken _ _ _ _ _ Ht E1 E2).
  destruct (whole_piece (AtPrefix i) s2 Ht2 ltac:(done)) as (s3 & E3 & Ht3 & L3). rewrite (piece_length _ _ _ _ _ Han) in Ht3.
  destruct (process_prefix B HB r a _ _ Han i s3 Ht3) as (s4 & E4 & Ht4 & M4 & _). rewrite (turn_taken _ _ _ _ _ Ht2 E3 E4).
  exists s4. split; [done |]. split; [done |]. congruence.
Qed.

Lemma block_received i s turns : track (AtBlock i) 0 s → place r + i * B + B <= Z.of_nat (length (memory s)) →
  ∃ s', readAll B (next :: turns) s = readAll B turns s' ∧ track (AtHeader (i + 1)) 0 s' ∧ length (memory s') = length (memory s).
Proof using HB Han Hamount.
  intros Ht Hfit. destruct (whole_piece (AtBlock i) s Ht ltac:(by intros ? [= <-])) as (s1 & E1 & Ht1 & L1). rewrite (piece_length _ _ _ _ _ Han), Z2Nat.id in Ht1 by lia.
  destruct (process_block B HB r a _ _ Han i s1 Ht1 ltac:(by rewrite L1)) as (s2 & E2 & Ht2 & M2 & _). rewrite (turn_taken _ _ _ _ _ Ht E1 E2).
  exists s2. split; [done |]. split; [done |]. congruence.
Qed.

Lemma blocks_received k : ∀ s turns, track (AtHeader 0) 0 s → Z.of_nat k <= blocks a → place r + Z.of_nat k * B <= Z.of_nat (length (memory s)) →
  ∃ s', readAll B (replicate (3 * k) next ++ turns) s = readAll B turns s' ∧ track (AtHeader (Z.of_nat k)) 0 s' ∧ length (memory s') = length (memory s).
Proof using HB Han Hamount.
  induction k as [| k IH]; intros s turns Ht Hk Hfit; [by exists s |].
  destruct (IH s (next :: next :: next :: turns) Ht ltac:(lia) ltac:(lia)) as (s1 & E1 & Ht1 & L1).
  destruct (block_announced (Z.of_nat k) s1 (next :: turns) Ht1 ltac:(lia)) as (s2 & E2 & Ht2 & L2).
  destruct (block_received (Z.of_nat k) s2 turns Ht2 ltac:(rewrite L2, L1; lia)) as (s3 & E3 & Ht3 & L3).
  exists s3. replace (3 * S k)%nat with (3 * k + 3)%nat by lia. rewrite replicate_add, <- app_assoc. cbn [replicate app]. rewrite E1, E2, E3.
  split; [done |]. split; [by replace (Z.of_nat (S k)) with (Z.of_nat k + 1) by lia | congruence].
Qed.

Lemma block_outside i s turns : track (AtBlock i) 0 s → Z.of_nat (length (memory s)) < place r + i * B + B → readAll B (next :: turns) s = Undefined.
Proof using HB Han Hamount.
  intros Ht Hout. pose proof Ht as [_ _ H3 _ _ H6 H7 H8 _ _ _]. pose proof (piece_length B r a _ _ Han (AtBlock i)) as Hpl.
  assert (0 < length (piece B r a (AtBlock i)) ≤ amount)%nat as Hlen by (rewrite Hpl; lia).
  cbn [readAll]. rewrite run_inspect. unfold isFinished. rewrite H3, bool_decide_false by done. unfold continueReading, mbind, exec_bind. rewrite run_inspect.
  unfold sassert, in_state. rewrite H3. rewrite bool_decide_true by (cbn; set_solver). rewrite run_inspect.
  assert ((amount `min` Z.to_nat (bytesLeft_ (executor s)) `min` length (input s))%nat = length (piece B r a (AtBlock i))) as -> by (rewrite H6, H7, length_app, length_drop; lia).
  rewrite (proj2 (Nat.eqb_neq _ 0)) by lia. unfold receive, in_state. rewrite H3. cbn [stage_state]. rewrite bool_decide_true by (by apply list_elem_of_singleton).
  rewrite H8, Hpl, (proj2 (Z.leb_gt (_ + _) (Z.of_nat (length (memory s))))) by lia. by rewrite andb_false_r.
Qed.

End overrun.

(** C34: The number of blocks of an answer is not compared with the request.  Let any request for [q] blocks be answered
    with a block more, the calls of [recv] giving what they are asked for: when the blocks have been received, the
    memory behind that of the operation, whatever it was for, has the extra block if the buffer reaches so
    far, and otherwise the client writes outside of the buffer. *)
Theorem extra_blocks_overwrite B r a q b amount :
  0 < B < 2 ^ 31 → answerable_for B r a (q + 1) q → 0 <= q → blocks a = q + 1 → (24 ≤ amount)%nat ∧ B <= Z.of_nat amount → place r + q * B <= Z.of_nat (length b) →
  let run := (_ ← sendReadRequest B 34; readAll B (steady amount (3 * (Z.to_nat q + 1)))) (start B r a b) in
  if place r + (q + 1) * B <=? Z.of_nat (length b) then
    ∃ s, run = Returned false s ∧ bytes_at (place r + q * B) B (memory s) = data a q
  else run = Undefined.
Proof.
  intros HB Han Hq Hb Ham Hroom run. destruct (request_sent_for B HB r a _ _ Han b ltac:(lia)) as (s1 & E1 & Ht1 & Hm1 & _).
  unfold run. rewrite (run_bind _ _ _ _ _ E1). unfold steady. replace (3 * (Z.to_nat q + 1))%nat with (3 * Z.to_nat q + 3)%nat by lia. rewrite replicate_add.
  destruct (blocks_received B HB r a q Han amount Ham (Z.to_nat q) s1 (replicate 3 (Polled (Some (Receives amount)) false)) Ht1 ltac:(lia) ltac:(rewrite Hm1; lia)) as (s2 & -> & Ht2 & L2).
  rewrite Z2Nat.id in Ht2 by done. cbn [replicate].
  destruct (block_announced B HB r a q Han amount Ham q s2 [Polled (Some (Receives amount)) false] Ht2 ltac:(lia)) as (s3 & -> & Ht3 & L3).
  assert (length (memory s3) = length b) as L by congruence. destruct (Z.leb_spec (place r + (q + 1) * B) (Z.of_nat (length b))) as [Hin | Hout].
  - destruct (block_received B HB r a q Han amount Ham q s3 [] Ht3 ltac:(rewrite L; lia)) as (s4 & -> & Ht4 & L4). exists s4. split.
    + cbn [readAll]. rewrite run_inspect. unfold isFinished. by rewrite (ot_state _ _ _ _ _ _ Ht4).
    + pose proof (ot_data _ _ _ _ _ _ Ht4) as Hd. cbn [stage_blocks] in Hd. pose proof (place_nonneg B r a _ _ Han) as Hpl.
      rewrite <- (bytes_at_inner (place r) ((q + 1) * B)) by nia. rewrite Hd. apply (blocks_of_nth B); [lia | apply Han | lia].
  - apply (block_outside B HB r a q Han amount Ham q s3); [done | rewrite L; lia].
Qed.

(** One block of one byte is asked for and two are sent. *)
Lemma extra_blocks_overwrite_witness :
  (∃ s, (_ ← sendReadRequest 1 34; readAll 1 (steady 100 6)) (start 1 (sample_request 1) (sample_answer 2 0) [x00; x11]) = Returned false s ∧ bytes_at 1 1 (memory s) = [x07]) ∧
  (_ ← sendReadRequest 1 34; readAll 1 (steady 100 6)) (start 1 (sample_request 1) (sample_answer 2 0) [x00]) = Undefined.
Proof.
  assert (answerable_for 1 (sample_request 1) (sample_answer 2 0) 2 1) as Han by (split; cbn; try done; lia).
  split.
  - exact (extra_blocks_overwrite 1 (sample_request 1) (sample_answer 2 0) 1 [x00; x11] 100 ltac:(lia) Han ltac:(lia) eq_refl ltac:(lia) ltac:(vm_compute; discriminate)).
  - exact (extra_blocks_overwrite 1 (sample_request 1) (sample_answer 2 0) 1 [x00] 100 ltac:(lia) Han ltac:(lia) eq_refl ltac:(lia) ltac:(vm_compute; discriminate)).
Defined.

(** What the server sends before the checksum of a block is the header and the first fields of the prefix. *)
Lemma prefix_serialized B r a i : 0 < B < 2 ^ 31 → 0 <= chunkId_ r < 2 ^ 64 → 0 <= request_offset (readOperation_ r) + i * B < 2 ^ 32 →
  ∃ l, ReadData.serializePrefix B (chunkId_ r) (request_offset (readOperation_ r) + i * B) B = Ok l ∧
    data_header B ++ block_prefix B r a i = to_bytes (l ++ serialize uint32_f (block_crc a i)).
Proof.
  intros HB Hc Ho. unfold ReadData.serializePrefix, Packet.serializePacketPrefix, assertion.
  change ((Packet.kMinSauPacketType <=? SAU_CSTOCL_READ_DATA) && (SAU_CSTOCL_READ_DATA <=? Packet.kMaxSauPacketType)) with true. cbv iota zeta.
  assert (Z.quot (B + B - 1) B = 1) as -> by (rewrite Z.quot_div_nonneg by lia; symmetry; apply (Z.div_unique _ _ _ (B - 1)); lia).
  rewrite (wrapu_small 32 (1 * 4)), (wrapu_small 32 (1 * 4 + B)) by lia.
  change (serializedSize (pair_f uint32_f _) _) with 20. rewrite wrapu_small by lia. replace (20 + (1 * 4 + B)) with (ReadData.kPrefixSize + B) by (unfold ReadData.kPrefixSize; lia).
  rewrite Packet.serialize_buffer_ok.
  - eexists. split; [done |]. unfold data_header, block_prefix, to_bytes. rewrite <- fmap_app. f_equal.
  - apply _.
  - split; [split; [done |] |]; [change (0 <= ReadData.kPrefixSize + B < 2 ^ 32); unfold ReadData.kPrefixSize; lia |].
    split; [done |]. split; [done |]. split; [done |]. change (0 <= B < 2 ^ 32). lia.
  - done.
Qed.
