(* ===== verification/PlanExecution.v ===== *)
(** * Execution of a read plan

    src/common/read_plan_executor.cc and src/common/chunkserver_stats.cc: the read operations of
    a plan are started in waves, what the chunk servers send is received as it comes, and
    the plan is post-processed when enough parts are there.  Time, connections and the
    results of [poll] are the environment: every turn of the loop has its own ([round]). *)

From Stdlib Require Import Strings.Byte QArith.
From S2P Require Import Prelude FlatContainers Serialization Packets Crc GaloisField ErasureCode ReedSolomon SliceTraits ReadPlans ReadPlanFacts PostProcess PlanBuilding ChunkReads ReadExecution.
Open Scope Z_scope.

(** ** ChunkserverStats *)
Module ChunkserverStats.

Record ChunkserverEntry := { pendingReads_ : Z; defects_ : Z }.

(** The entries by address; new ones are empty. *)
Definition t : Type := Z → ChunkserverEntry.
Definition empty : t := fun _ => {| pendingReads_ := 0; defects_ := 0 |}.

Definition change (address : Z) (f : ChunkserverEntry → ChunkserverEntry) (s : t) : t :=
  fun x => if x =? address then f (s x) else s x.

Definition registerReadOperation (address : Z) : t → t :=
  change address (fun e => {| pendingReads_ := u32 (pendingReads_ e + 1); defects_ := defects_ e |}).
Definition unregisterReadOperation (address : Z) : t → t :=
  change address (fun e => {| pendingReads_ := u32 (pendingReads_ e - 1); defects_ := defects_ e |}).
Definition markWorking (address : Z) : t → t := change address (fun e => {| pendingReads_ := pendingReads_ e; defects_ := 0 |}).
Definition markDefective (address : Z) : t → t :=
  change address (fun e => {| pendingReads_ := pendingReads_ e; defects_ := if defects_ e <? 1000 then defects_ e + 1 else defects_ e |}).

(** [expired]: the time since the last defect. *)
Definition score (expired : bool) (e : ChunkserverEntry) : Q :=
  if (0 <? defects_ e) && negb expired then Qmake 1 (Z.to_pos (defects_ e + 1)) else 1%Q.

End ChunkserverStats.

(** ** The environment *)

(** A connection from [startUsingConnection], or its exception.  The total time-out may have
    expired meanwhile; [written] is the result of sending the request, and [answer] is what
    the server sends when it is asked. *)
Inductive connection :=
| Refused
| Connected (fd : Z) (expired : bool) (written : Z) (answer : request → list byte).

Inductive poll := EINTR | PollError | Events (revents : Z → option recv * bool).

Record round := {
  total_expired : bool;
  wave_expired : bool;
  connect : Z → connection;
  prefetch_connect : Z → connection;
  polled : poll;
}.

(** A server that has a part. *)
Record ChunkTypeWithAddress := { address : Z; chunk_type : Z; chunkserver_version : Z }.

Record params := {
  locations : Z → option ChunkTypeWithAddress;
  chunk_id_ : Z;
  chunk_version_ : Z;
  plan_ : plan;
  disable_prefetch : bool;
}.

(** The buffer starts where the plan is executed; an executor has the rest of its input. *)
Record execution := mk_execution {
  stats_ : ChunkserverStats.t;
  executors_ : list (Z * (ReadOperationExecutor * list byte));
  available_parts_ : list Z;
  networking_failures_ : list Z;
  buffer : list byte;
}.

Definition set_stats f s := mk_execution (f (stats_ s)) (executors_ s) (available_parts_ s) (networking_failures_ s) (buffer s).
Definition set_executors f s := mk_execution (stats_ s) (f (executors_ s)) (available_parts_ s) (networking_failures_ s) (buffer s).
Definition push_available x s := mk_execution (stats_ s) (executors_ s) (available_parts_ s ++ [x]) (networking_failures_ s) (buffer s).
Definition push_failure x s := mk_execution (stats_ s) (executors_ s) (available_parts_ s) (networking_failures_ s ++ [x]) (buffer s).
Definition set_buffer b s := mk_execution (stats_ s) (executors_ s) (available_parts_ s) (networking_failures_ s) b.

(** flat_map *)
Fixpoint find_executor {A} (fd : Z) (l : list (Z * A)) : option A :=
  match l with
  | [] => None
  | (fd', y) :: l => if fd =? fd' then Some y else find_executor fd l
  end.

Fixpoint place_executor {A} (fd : Z) (x : A) (l : list (Z * A)) : list (Z * A) :=
  match l with
  | [] => [(fd, x)]
  | (fd', y) :: l' => if fd <? fd' then (fd, x) :: l else (fd', y) :: place_executor fd x l'
  end.

(** Insertion keeps an existing entry. *)
Definition insert_executor {A} (fd : Z) (x : A) (l : list (Z * A)) : list (Z * A) :=
  match find_executor fd l with Some _ => l | None => place_executor fd x l end.

Definition update_executor {A} (fd : Z) (x : A) (l : list (Z * A)) : list (Z * A) :=
  (fun '(fd', y) => if fd =? fd' then (fd', x) else (fd', y)) <$> l.

Definition erase_executor {A} (fd : Z) (l : list (Z * A)) : list (Z * A) := filter (fun e => fst e ≠ fd) l.

Section executing.
Context (B : Z) (ps : params).

Abbreviation p := (plan_ ps).

Definition request_for (type : Z) (op : ReadOperation) (l : ChunkTypeWithAddress) : request := {|
  readOperation_ := op; dataBuffer_ := readOffset p; chunkId_ := chunk_id_ ps; chunkVersion_ := chunk_version_ ps;
  chunkType_ := type; server_ := address l; server_version_ := chunkserver_version l |}.

(** The handler of a ChunkserverConnectionException. *)
Definition connection_failed (type address : Z) : exec execution () :=
  _ ← modify (set_stats (ChunkserverStats.markDefective address)); modify (push_failure type).

Definition startReadOperation (connect : Z → connection) (type : Z) (op : ReadOperation) : exec execution bool :=
  failures ←{ networking_failures_ };
  _ ← sassert (negb (bool_decide (type ∈ failures)));
  match locations ps type with
  | None => sassert false ;; mret false
  | Some l =>
      if request_size op <=? 0 then _ ← modify (push_available type); mret true
      else
        _ ← modify (set_stats (ChunkserverStats.registerReadOperation (address l)));
        match connect type with
        | Refused => _ ← connection_failed type (address l); mret false
        | Connected fd expired written answer =>
            if expired : bool then raise RecoverableReadException
            else
              b ←{ buffer };
              match sendReadRequest B written (mk_machine (new_ReadOperationExecutor (request_for type op l)) b (answer (request_for type op l))) with
              | Returned _ m => _ ← modify (set_executors (insert_executor fd (executor m, input m))); mret true
              | Raised ChunkserverConnectionException _ => _ ← connection_failed type (address l); mret false
              | Raised x _ => raise x
              | Aborted => fun _ => Aborted
              | Undefined => fun _ => Undefined
              end
        end
  end.

(** The number of failed operations. *)
Fixpoint start_reads (connect : Z → connection) (wave' : Z) (ops : list (Z * ReadOperation)) : exec execution Z :=
  match ops with
  | [] => mret 0
  | (type, op) :: ops =>
      if wave op =? wave' then
        started ← startReadOperation connect type op;
        failed_reads ← start_reads connect wave' ops;
        mret (if started : bool then failed_reads else failed_reads + 1)
      else start_reads connect wave' ops
  end.

Definition startReadsForWave (connect : Z → connection) (wave' : Z) : exec execution Z :=
  failed_reads ← start_reads connect wave' (read_operations p);
  failures ←{ networking_failures_ };
  possible ← lift (isFinishingPossible p failures);
  if possible : bool then mret failed_reads else raise RecoverableReadException.

(** Prefetching sends requests that are not answered. *)
Definition startPrefetchOperation (connect : Z → connection) (type : Z) (op : ReadOperation) : exec execution () :=
  match locations ps type with
  | None => sassert false
  | Some l =>
      if request_size op <=? 0 then mret ()
      else
        match connect type with
        | Refused => mret ()
        | Connected _ expired _ _ =>
            if expired : bool then raise RecoverableReadException else sassert (kFirstECVersion <=? chunkserver_version l)
        end
  end.

Fixpoint start_prefetches (connect : Z → connection) (wave' : Z) (ops : list (Z * ReadOperation)) : exec execution () :=
  match ops with
  | [] => mret ()
  | (type, op) :: ops =>
      _ ← (if wave op =? wave' then startPrefetchOperation connect type op else mret ()); start_prefetches connect wave' ops
  end.

Definition startPrefetchForWave (connect : Z → connection) (wave' : Z) : exec execution () :=
  if disable_prefetch ps then mret () else start_prefetches connect wave' (read_operations p).

(** The handler of readSomeData: the executor is dropped. *)
Definition read_failed (fd : Z) (e : ReadOperationExecutor) : exec execution bool :=
  _ ← connection_failed (chunkType_ e) (server_ e);
  _ ← modify (set_executors (erase_executor fd));
  failures ←{ networking_failures_ };
  possible ← lift (isFinishingPossible p failures);
  if possible : bool then mret false else raise ChunkserverConnectionException.

(** The end of readSomeData. *)
Definition read_succeeded (fd : Z) (e : ReadOperationExecutor) : exec execution bool :=
  if isFinished e then
    _ ← modify (set_stats (fun st => ChunkserverStats.markWorking (server_ e) (ChunkserverStats.unregisterReadOperation (server_ e) st)));
    _ ← modify (push_available (chunkType_ e));
    _ ← modify (set_executors (erase_executor fd));
    mret true
  else mret true.

Definition readSomeData (fd : Z) (revents : option recv * bool) (e : ReadOperationExecutor) (answer : list byte) : exec execution bool :=
  match revents with
  | (Some r, _) =>
      b ←{ buffer };
      match continueReading B r (mk_machine e b answer) with
      | Returned _ m =>
          _ ← modify (fun s => set_buffer (memory m) (set_executors (update_executor fd (executor m, input m)) s));
          read_succeeded fd (executor m)
      | Raised x m =>
          _ ← modify (fun s => set_buffer (memory m) (set_executors (update_executor fd (executor m, input m)) s));
          match x with ChunkserverConnectionException => read_failed fd e | _ => raise x end
      | Aborted => fun _ => Aborted
      | Undefined => fun _ => Undefined
      end
  | (None, true) => read_failed fd e
  | (None, false) => read_succeeded fd e
  end.

(** The loop over the result of [poll]; the number of failed operations. *)
Fixpoint read_ready (revents : Z → option recv * bool) (fds : list Z) : exec execution Z :=
  match fds with
  | [] => mret 0
  | fd :: fds =>
      match revents fd with
      | (None, false) => read_ready revents fds
      | ev =>
          l ←{ executors_ };
          match find_executor fd l with
          | None => fun _ => Undefined
          | Some (e, answer) =>
              good ← readSomeData fd ev e answer;
              failed ← read_ready revents fds;
              mret (if good : bool then failed else failed + 1)
          end
      end
  end.

(** The start of the next wave, if it is due. *)
Definition next_wave (rd : round) (wave' failed_reads : Z) : exec execution (Z * Z) :=
  if wave_expired rd || negb (failed_reads =? 0) then
    failed_reads ← startReadsForWave (connect rd) (wave' + 1);
    _ ← startPrefetchForWave (prefetch_connect rd) (wave' + 2);
    mret (wave' + 1, failed_reads)
  else mret (wave', failed_reads).

(** The loop; whether reading is finished after these rounds. *)
Fixpoint receive_loop (rounds : list round) (wave' failed_reads : Z) : exec execution bool :=
  match rounds with
  | [] => mret false
  | rd :: rounds =>
      if total_expired rd then raise RecoverableReadException
      else
        '(wave', failed_reads) ← next_wave rd wave' failed_reads;
        l ←{ executors_ };
        match l with
        | [] =>
            failures ←{ networking_failures_ };
            possible ← lift (isFinishingPossible p failures);
            _ ← sassert possible;
            receive_loop rounds wave' (failed_reads + 1)
        | _ =>
            match polled rd with
            | EINTR => receive_loop rounds wave' failed_reads
            | PollError => raise RecoverableReadException
            | Events revents =>
                failed ← read_ready revents (fst <$> l);
                available ←{ available_parts_ };
                finished ← lift (isReadingFinished p available);
                if finished : bool then mret true else receive_loop rounds wave' (failed_reads + failed)
            end
        end
  end.

(** The connections of the first wave are those of the first round. *)
Definition executeReadOperations (first : round) (rounds : list round) : exec execution bool :=
  _ ← sassert (negb (bool_decide (read_operations p = [])));
  failed_reads ← startReadsForWave (connect first) 0;
  _ ← startPrefetchForWave (prefetch_connect first) 1;
  s ←{ fun s => s };
  _ ← sassert (0 <? Z.of_nat (length (executors_ s) + length (networking_failures_ s)));
  receive_loop rounds 0 failed_reads.

(** Closing the connections that are left. *)
Definition close_all (s : execution) : execution :=
  set_executors (fun _ => []) (set_stats (fun st => foldl (fun st (e : Z * (ReadOperationExecutor * list byte)) => ChunkserverStats.unregisterReadOperation (server_ (fst (snd e))) st) st (executors_ s)) s).

(** The bytes that are appended to the buffer, unless the rounds end before. *)
Definition executePlan (c : cpu) (addr : Z) (first : round) (rounds : list round) : exec ChunkserverStats.t (option (list byte)) := fun stats =>
  let s := mk_execution stats [] [] [] (replicate (Z.to_nat (fullBufferSize p)) x00) in
  let run : exec execution (option (list byte)) :=
    _ ← lift (checkPlan B p);
    finished ← executeReadOperations first rounds;
    if finished : bool then
      s ←{ fun s => s };
      '(result_size, b) ← lift (postProcessData c addr B p (available_parts_ s) (buffer s));
      mret (Some (take (Z.to_nat result_size) b))
    else mret None in
  match run s with
  | Returned r s => Returned r (stats_ (close_all s))
  | Raised x s => Raised x (stats_ (close_all s))
  | Aborted => Aborted
  | Undefined => Undefined
  end.

End executing.
