(* ===== verification/ExecutionFacts.v ===== *)
(** * What the execution of a read plan returns

    The invariant of ReadPlanExecutor over the rounds of its loop: every executor is in the
    course of a correct answer, and the parts that are available are in their places. *)

From Stdlib Require Import Strings.Byte.
From S2P Require Import Prelude FlatContainers Serialization Packets Crc GaloisField ErasureCode ReedSolomon SliceTraits ReadPlans ReadPlanFacts PostProcess PlanBuilding ChunkReads ChunkRecovery ReadExecution PlanExecution.
Import SliceType SliceTraits.
Open Scope Z_scope.

(** ** Executors as a map *)

Section maps.
Context {A : Type}.
Implicit Types (l : list (Z * A)) (x : A).

Lemma find_executor_Some fd x l : find_executor fd l = Some x → (fd, x) ∈ l.
Proof.
  induction l as [| [fd' y] l IH]; cbn [find_executor]; [done |]. destruct (Z.eqb_spec fd fd') as [-> |]; [intros [= ->]; left | intros ?; right; by apply IH].
Qed.

Lemma find_executor_None fd l : find_executor fd l = None ↔ fd ∉ fst <$> l.
Proof.
  induction l as [| [fd' y] l IH]; cbn [find_executor]; [by split; intros _; [intros ?%elem_of_nil |] |].
  rewrite fmap_cons, elem_of_cons. cbn [fst]. destruct (Z.eqb_spec fd fd'); [split; [done | tauto] |]. rewrite IH. tauto.
Qed.

Lemma place_executor_perm fd x l : place_executor fd x l ≡ₚ (fd, x) :: l.
Proof. induction l as [| [fd' y] l IH]; cbn [place_executor]; [done |]. destruct (fd <? fd'); [done |]. rewrite IH. constructor. Qed.

Lemma insert_executor_cases fd x l :
  (fd ∈ fst <$> l ∧ insert_executor fd x l = l) ∨ (fd ∉ fst <$> l ∧ insert_executor fd x l ≡ₚ (fd, x) :: l).
Proof.
  unfold insert_executor. destruct (find_executor fd l) as [y |] eqn:E.
  - left. split; [| done]. apply find_executor_Some in E. apply list_elem_of_fmap. by exists (fd, y).
  - right. split; [by apply find_executor_None | apply place_executor_perm].
Qed.

Lemma keys_update fd x l : fst <$> update_executor fd x l = fst <$> l.
Proof. unfold update_executor. rewrite <- list_fmap_compose. apply list_fmap_ext. intros i [fd' y] _. cbn. by destruct (fd =? fd'). Qed.

Lemma erase_absent fd l : fd ∉ fst <$> l → erase_executor fd l = l ∧ ∀ x, update_executor fd x l = l.
Proof.
  induction l as [| [fd' y] l IH]; [done |]. rewrite fmap_cons, not_elem_of_cons. cbn [fst]. intros [Hne Hl].
  destruct (IH Hl) as [E1 E2]. unfold erase_executor, update_executor in *. rewrite filter_cons_True by (cbn; congruence). rewrite E1. split; [done |].
  intros x. rewrite fmap_cons, E2. by rewrite (proj2 (Z.eqb_neq _ _)).
Qed.

Lemma executor_perm fd x l : NoDup (fst <$> l) → (fd, x) ∈ l →
  l ≡ₚ (fd, x) :: erase_executor fd l ∧ (∀ y, update_executor fd y l ≡ₚ (fd, y) :: erase_executor fd l) ∧ fd ∉ fst <$> erase_executor fd l.
Proof.
  induction l as [| [fd' y] l IH]; [by intros _ ?%elem_of_nil |]. rewrite fmap_cons, NoDup_cons, elem_of_cons. cbn [fst]. intros [Hnew Hnd] [[= <- <-] | Hin].
  - destruct (erase_absent fd l Hnew) as [E1 E2]. unfold erase_executor, update_executor in *. rewrite filter_cons_False by (cbn; tauto). rewrite E1.
    split; [done |]. split; [| done]. intros y. rewrite fmap_cons, Z.eqb_refl, E2. done.
  - assert (fd ≠ fd') as Hne by (intros ->; apply Hnew, list_elem_of_fmap; by exists (fd', x)).
    destruct (IH Hnd Hin) as (P1 & P2 & P3). unfold erase_executor, update_executor in *. rewrite filter_cons_True by (cbn; congruence). split; [| split].
    + rewrite P1 at 1. constructor.
    + intros z. rewrite fmap_cons, P2, (proj2 (Z.eqb_neq _ _)) by done. constructor.
    + rewrite fmap_cons, not_elem_of_cons. done.
Qed.

Lemma erase_update fd x l : erase_executor fd (update_executor fd x l) = erase_executor fd l.
Proof.
  unfold erase_executor, update_executor. induction l as [| [fd' y] l IH]; [done |]. rewrite fmap_cons. destruct (Z.eqb_spec fd fd') as [-> |].
  - rewrite !filter_cons_False by (cbn; tauto). done.
  - rewrite !filter_cons_True by (cbn; congruence). by rewrite IH.
Qed.

Lemma keys_erase fd fd' l : fd' ≠ fd → fd' ∈ fst <$> l → fd' ∈ fst <$> erase_executor fd l.
Proof.
  intros Hne ([fd0 y] & -> & Hin)%list_elem_of_fmap. apply list_elem_of_fmap. exists (fd0, y). split; [done |]. by apply list_elem_of_filter.
Qed.

End maps.

(** ** Results of calls *)

(** A call does not fail: it throws, or returns with a result and a state as described. *)
Definition ends {S A} (Q : A → S → Prop) (o : outcome S A) : Prop :=
  match o with Returned a s => Q a s | Raised _ _ => True | Aborted | Undefined => False end.

Lemma ends_bind {S R A} (Q : R → S → Prop) (Q' : A → S → Prop) (m : exec S R) (k : R → exec S A) s :
  ends Q (m s) → (∀ x s', Q x s' → ends Q' (k x s')) → ends Q' ((x ← m; k x) s).
Proof. unfold mbind, exec_bind. intros H Hk. destruct (m s); try done. by apply Hk. Qed.

Lemma ends_weaken {S A} (Q Q' : A → S → Prop) o : ends Q o → (∀ x s, Q x s → Q' x s) → ends Q' o.
Proof. destruct o; [intros ? H; by apply H | done..]. Qed.

Section execution.
Context (B : Z) (HB : 0 < B) (ps : params) (chunk : Z → list byte) (Hsized : sized B chunk).

Abbreviation p := (plan_ ps).

Context (t fb bc : Z) (rs : list Z) (slots : Z) (Hpl : planned B t fb bc rs slots p) (Hoff : 0 <= readOffset p).
Context (Hsmall : SFSBLOCKSINCHUNK * B < 2 ^ 31 ∧ read_buffer_size p < 2 ^ 31).
Context (Hids : 0 <= chunk_id_ ps < 2 ^ 64 ∧ 0 <= chunk_version_ ps < 2 ^ 32).
Context (Hloc : ∀ type op, (type, op) ∈ read_operations p → ∃ l, locations ps type = Some l ∧ kFirstECVersion <= chunkserver_version l).

(** The number of blocks of an operation. *)
Definition op_blocks (op : ReadOperation) : Z := request_size op / B.

Lemma op_facts type op : (type, op) ∈ read_operations p →
  ∃ q s, type = part_id t q ∧ part_of t q ∧ 0 <= q < 64 ∧ 0 <= t ∧ request_size op = op_blocks op * B ∧ 0 <= request_size op <= bc * B ∧
    request_offset op = fb * B ∧ 0 <= fb ∧ buffer_offset op = s * (bc * B) ∧ 0 <= s < slots.
Proof using HB Hpl.
  intros Hop. destruct (pl_ops _ _ _ _ _ _ _ Hpl _ _ Hop) as (q & s & -> & Hq & Esz & Eoff & Ebuf & Hs & _). destruct (part_of_range t q Hq) as [Hq64 Ht].
  destruct (size_of_bounds B HB t fb bc rs slots p Hpl q Hq) as [Hsz Hb]. exists q, s. unfold op_blocks. rewrite Esz. pose proof (pl_first _ _ _ _ _ _ _ Hpl).
  split_and!; (done || lia).
Qed.

Lemma op_bounds type op : (type, op) ∈ read_operations p →
  0 <= request_offset op ∧ request_offset op + request_size op < 2 ^ 31 ∧ 0 <= buffer_offset op ∧ buffer_offset op + request_size op <= read_buffer_size p ∧ 0 <= type < 2 ^ 16.
Proof using HB Hpl Hsmall.
  intros Hop. destruct (operation_bounds B HB t fb bc rs slots p Hpl type op Hop) as (_ & H1 & H2 & H3 & H4 & H5 & _).
  destruct (op_facts type op Hop) as (q & s & -> & [Hv _] & Hq & Ht & _). split_and!; try lia; unfold part_id, ChunkPartType.kMaxPartsCount; type_lia.
Qed.

(** Blocks of the part, perhaps not all that were asked for, and a status; perhaps with more
    conditions. *)
Context (allowed : ReadOperation → answer → Prop).

Definition correct_answer (type : Z) (op : ReadOperation) (a : answer) : Prop :=
  (∀ i, data a i = part_block B chunk (ChunkPartType.getSliceType type) (ChunkPartType.getSlicePart type) (request_offset op / B + i)) ∧
  0 <= blocks a <= op_blocks op ∧ 0 <= status a < 2 ^ 8 ∧ allowed op a.

(** Every connection leads to a server that answers correctly. *)
Definition honest (cn : Z → connection) : Prop := ∀ type op l fd expired written ans,
  (type, op) ∈ read_operations p → locations ps type = Some l → cn type = Connected fd expired written ans →
  ∃ a, ans (request_for ps type op l) = answer_from B (request_for ps type op l) a 0 ∧ correct_answer type op a.

Lemma op_answerable type op l a : (type, op) ∈ read_operations p → kFirstECVersion <= chunkserver_version l → correct_answer type op a →
  answerable B (request_for ps type op l) a (op_blocks op).
Proof using HB Hpl Hsmall Hids Hoff Hsized.
  intros Hop Hl (Hd & Hb & Hs & _). destruct (op_bounds type op Hop) as (H1 & H2 & H3 & H4 & H5). destruct (op_facts type op Hop) as (q & s & -> & Hq & Hq64 & Ht & Esz & _).
  split; cbn [request_for readOperation_ dataBuffer_ chunkId_ chunkVersion_ chunkType_ server_version_]; rewrite <- ?Esz; try done; try lia.
  intros i. rewrite Hd, part_id_type, part_id_part by done. by apply part_block_sized.
Qed.

(** ** The invariant *)

Definition type_of (e : Z * (ReadOperationExecutor * list byte)) : Z := chunkType_ (fst (snd e)).
Definition parts (s : execution) : list Z := (type_of <$> executors_ s) ++ available_parts_ s ++ networking_failures_ s.

(** An executor in the course of a correct answer to its operation. *)
Definition reads (type : Z) (op : ReadOperation) (e : ReadOperationExecutor) (ans b : list byte) : Prop :=
  ∃ l a, (type, op) ∈ read_operations p ∧ kFirstECVersion <= chunkserver_version l ∧ correct_answer type op a ∧
    progress B (request_for ps type op l) a (mk_machine e b ans).

(** [started] holds of the types of the operations that were started. *)
Record running (started : Z → Prop) (s : execution) : Prop := {
  ru_parts : NoDup (parts s);
  ru_started : ∀ x, x ∈ parts s → started x ∧ x ∈ fst <$> read_operations p;
  ru_fds : NoDup (fst <$> executors_ s);
  ru_reads : ∀ fd (e : ReadOperationExecutor) ans, (fd, (e, ans)) ∈ executors_ s → ∃ op, reads (chunkType_ e) op e ans (buffer s);
  ru_received : received B chunk p (available_parts_ s) (buffer s);
}.

Definition busy (s : execution) : Prop := executors_ s ≠ [] ∨ networking_failures_ s ≠ [].

Lemma running_weaken (S S' : Z → Prop) s : (∀ x, S x → S' x) → running S s → running S' s.
Proof using. intros H [H1 H2 H3 H4 H5]. split; try done. intros x [? ?]%H2. eauto. Qed.

Lemma progress_request r a m : progress B r a m → request_ (executor m) = r.
Proof using. intros (st & k & Ht & _). apply (ot_request _ _ _ _ _ _ Ht). Qed.

Lemma op_unique type op op' : (type, op) ∈ read_operations p → (type, op') ∈ read_operations p → op = op'.
Proof using Hpl.
  intros [i Hi]%list_elem_of_lookup [j Hj]%list_elem_of_lookup. pose proof (pl_distinct _ _ _ _ _ _ _ Hpl) as Hnd.
  assert (i = j) as -> by (apply (NoDup_lookup _ i j type Hnd); rewrite list_lookup_fmap; [by rewrite Hi | by rewrite Hj]). congruence.
Qed.

(** The places of different operations do not overlap. *)
Lemma places_disjoint type op type' op' : (type, op) ∈ read_operations p → (type', op') ∈ read_operations p → type ≠ type' →
  buffer_offset op + bc * B <= buffer_offset op' ∨ buffer_offset op' + bc * B <= buffer_offset op.
Proof using HB Hpl.
  intros Hop Hop' Hne. destruct (op_facts _ _ Hop) as (_ & s & _ & _ & _ & _ & _ & Hsz & _ & _ & Eb & Hs). destruct (op_facts _ _ Hop') as (_ & s' & _ & _ & _ & _ & _ & _ & _ & _ & Eb' & Hs').
  assert (s ≠ s') as Hss by (intros <-; apply Hne; assert ((type, op) = (type', op')) by (apply (pl_disjoint _ _ _ _ _ _ _ Hpl); cbn; congruence); congruence).
  pose proof (P_pos B HB t fb bc rs slots p Hpl). rewrite Eb, Eb'. nia.
Qed.

(** What an operation does to the memory does not matter to the others. *)
Lemma keeps_other type op l b b' type' op' e ans : (type, op) ∈ read_operations p → type ≠ type' →
  keeps B (request_for ps type op l) (op_blocks op) b b' → reads type' op' e ans b → reads type' op' e ans b'.
Proof using HB Hpl Hsmall Hids Hoff Hsized.
  intros Hop Hne [_ Hk] (l' & a & Hop' & Hv & Ha & Hp). exists l', a. split_and!; try done.
  pose proof (op_answerable _ _ _ _ Hop' Hv Ha) as Han. refine (progress_memory B _ _ _ _ Han _ _ _ _ Hp _).
  - destruct Hsmall. unfold SFSBLOCKSINCHUNK in *. lia.
  - destruct (op_facts _ _ Hop) as (_ & _ & _ & _ & _ & _ & Es & Hsz & _). destruct (op_facts _ _ Hop') as (_ & _ & _ & _ & _ & _ & Es' & Hsz' & _).
    pose proof (places_disjoint _ _ _ _ Hop Hop' Hne). destruct (op_bounds _ _ Hop') as (_ & _ & Hb & _).
    apply Hk; unfold place; cbn [request_for dataBuffer_ readOperation_]; rewrite <- ?Es, <- ?Es'; lia.
Qed.

Lemma keeps_received type op l b b' available : (type, op) ∈ read_operations p → type ∉ available →
  keeps B (request_for ps type op l) (op_blocks op) b b' → received B chunk p available b → received B chunk p available b'.
Proof using HB Hpl Hsmall Hoff.
  intros Hop Hav [Hl Hk] [H1 H2 H3]. destruct (op_facts _ _ Hop) as (_ & _ & _ & _ & _ & _ & Es & Hsz & _).
  split; [by rewrite Hl | |]; intros type' op' Hop'; destruct (op_facts _ _ Hop') as (_ & _ & _ & _ & _ & _ & Es' & Hsz' & _); destruct (op_bounds _ _ Hop') as (_ & _ & Hb & _).
  - intros Hav'. rewrite <- (H2 _ _ Hop' Hav'). assert (type ≠ type') as Hne by (by intros ->). pose proof (places_disjoint _ _ _ _ Hop Hop' Hne).
    apply Hk; unfold place; cbn [request_for dataBuffer_ readOperation_]; rewrite <- ?Es; lia.
  - rewrite <- (H3 _ _ Hop'), (pl_size _ _ _ _ _ _ _ Hpl). apply Hk; [lia |]. unfold place; cbn [request_for dataBuffer_ readOperation_]. rewrite <- Es.
    destruct (decide (type = type')) as [<- | Hne]; [| pose proof (places_disjoint _ _ _ _ Hop Hop' Hne); lia].
    rewrite (op_unique _ _ _ Hop Hop') in *. lia.
Qed.

(** ** Starting operations *)

Lemma running_available S s type op : running S s → (type, op) ∈ read_operations p → type ∉ parts s →
  bytes_at (readOffset p + buffer_offset op) (request_size op) (buffer s) =
    part_bytes B chunk (ChunkPartType.getSliceType type) (ChunkPartType.getSlicePart type) (request_offset op / B) (op_blocks op) →
  running (fun x => S x ∨ x = type) (push_available type s).
Proof using Hpl.
  intros [H1 H2 H3 H4 H5] Hop Hnew Hd.
  assert (parts (push_available type s) ≡ₚ type :: parts s) as Hperm by (unfold parts; cbn; rewrite <- !app_assoc; solve_Permutation).
  split; try done.
  - rewrite Hperm. by constructor.
  - intros x. rewrite Hperm. intros [-> | [? ?]%H2]%elem_of_cons; [| by eauto]. split; [by right |]. apply list_elem_of_fmap. by exists (type, op).
  - destruct H5 as [R1 R2 R3]. split; try done. cbn [available_parts_ push_available buffer]. intros type' op' Hop' [Hav | ->%list_elem_of_singleton]%elem_of_app; [by apply R2 |].
    by rewrite (op_unique _ _ _ Hop' Hop).
Qed.

Lemma running_failure S s type addr : running S s → type ∈ fst <$> read_operations p → type ∉ parts s →
  running (fun x => S x ∨ x = type) (push_failure type (set_stats (ChunkserverStats.markDefective addr) s)).
Proof using.
  intros [H1 H2 H3 H4 H5] Hop Hnew.
  assert (parts (push_failure type (set_stats (ChunkserverStats.markDefective addr) s)) ≡ₚ type :: parts s) as Hperm by (unfold parts; cbn; solve_Permutation).
  split; try done.
  - rewrite Hperm. by constructor.
  - intros x. rewrite Hperm. intros [-> | [? ?]%H2]%elem_of_cons; [| by eauto]. split; [by right | done].
Qed.

Lemma running_executor S s fd e ans op : running S s → reads (chunkType_ (request_ e)) op e ans (buffer s) → chunkType_ (request_ e) ∉ parts s →
  running (fun x => S x ∨ x = chunkType_ (request_ e)) (set_executors (insert_executor fd (e, ans)) s).
Proof using.
  intros [H1 H2 H3 H4 H5] Hr Hnew. destruct (insert_executor_cases fd (e, ans) (executors_ s)) as [[_ E] | [Hfd E]].
  - apply (running_weaken S); [by left |]. unfold set_executors. rewrite E. by destruct s.
  - assert (parts (set_executors (insert_executor fd (e, ans)) s) ≡ₚ chunkType_ (request_ e) :: parts s) as Hperm.
    { unfold parts. cbn. by rewrite E. }
    split; cbn [set_executors executors_ buffer available_parts_]; try done.
    + rewrite Hperm. by constructor.
    + intros x. rewrite Hperm. intros [-> | [? ?]%H2]%elem_of_cons; [| by eauto]. split; [by right |]. destruct Hr as (l & a & Hop & _). apply list_elem_of_fmap. by exists (chunkType_ (request_ e), op).
    + rewrite E, fmap_cons. by constructor.
    + intros fd' e' ans'. rewrite E. intros [[= -> -> ->] | Hin]%elem_of_cons; [by exists op | by eapply H4].
Qed.

Definition op_done (S : Z → Prop) (type : Z) (op : ReadOperation) (s : execution) : bool → execution → Prop := fun _ s' =>
  running (fun x => S x ∨ x = type) s' ∧ (busy s ∨ 0 < request_size op → busy s').

Lemma start_operation cn S s type op : running S s → (type, op) ∈ read_operations p → ¬ S type → honest cn →
  ends (op_done S type op s) (startReadOperation B ps cn type op s).
Proof using HB Hpl Hsmall Hids Hoff Hsized Hloc.
  intros Hrun Hop Hnew Hcn. assert (type ∉ parts s) as Hparts by (intros [? _]%(ru_started _ _ Hrun); done).
  assert (type ∈ fst <$> read_operations p) as Htype by (apply list_elem_of_fmap; by exists (type, op)).
  unfold startReadOperation. rewrite run_inspect, run_sassert.
  2: { apply negb_true_iff, bool_decide_false. intros Hf. apply Hparts. unfold parts. rewrite !elem_of_app. by auto. }
  destruct (Hloc type op Hop) as (l & El & Hv). rewrite El. destruct (Z.leb_spec (request_size op) 0) as [Hz | Hpos].
  { split; [| by intros [Hb | ?]; [| lia]]. eapply running_available; try done. destruct (op_facts _ _ Hop) as (_ & _ & _ & _ & _ & _ & Es & Hsz & _).
    unfold op_blocks. replace (request_size op) with 0 by lia. done. }
  rewrite run_modify. set (s1 := set_stats _ s). assert (running S s1) as Hrun1 by (destruct Hrun; by split).
  assert (ends (op_done S type op s) ((connection_failed type (address l);; mret false) s1)) as Hfail.
  { split; [by apply running_failure |]. intros _. right. cbn. by destruct (networking_failures_ s). }
  destruct (cn type) as [| fd expired written ans] eqn:Ec; [done |]. destruct expired; [done |]. rewrite run_inspect.
  destruct (Hcn _ _ _ _ _ _ _ Hop El Ec) as (a & Eans & Ha). rewrite Eans. pose proof (op_answerable _ _ _ _ Hop Hv Ha) as Han.
  assert (0 < B < 2 ^ 31) as HB31 by (destruct Hsmall; unfold SFSBLOCKSINCHUNK in *; lia).
  change (mk_machine _ (buffer s1) _) with (start B (request_for ps type op l) a (buffer s1)). destruct (decide (written = 34)) as [-> | Hw].
  - destruct (request_sent B HB31 _ _ _ Han (buffer s1)) as (m & -> & Hp & Hm & _).
    pose proof (progress_request _ _ _ Hp) as Hr. assert (chunkType_ (request_ (executor m)) = type) as Et by (by rewrite Hr).
    split; cbn [modify].
    + rewrite <- Et. apply running_executor with (op := op); rewrite ?Et; try done. exists l, a. split_and!; try done. rewrite <- Hm. by destruct m.
    + intros _. left. cbn. destruct (insert_executor_cases fd (executor m, input m) (executors_ s)) as [[Hin E] | [_ E]].
      * rewrite E. intros E0. rewrite E0 in Hin. by apply elem_of_nil in Hin.
      * intros E0. rewrite E0 in E. by apply Permutation_nil_cons in E.
  - by rewrite (request_not_sent B HB31 _ _ _ Han written (buffer s1) Hw).
Qed.

Lemma start_reads_run cn w : honest cn → ∀ ops S s, (∀ e, e ∈ ops → e ∈ read_operations p) → NoDup (fst <$> ops) →
  (∀ type op, (type, op) ∈ ops → wave op = w → ¬ S type) → running S s →
  ends (fun _ s' => running (fun x => S x ∨ ∃ op, (x, op) ∈ ops ∧ wave op = w) s' ∧
    (busy s ∨ (∃ type op, (type, op) ∈ ops ∧ wave op = w ∧ 0 < request_size op) → busy s')) (start_reads B ps cn w ops s).
Proof using HB Hpl Hsmall Hids Hoff Hsized Hloc.
  intros Hcn. induction ops as [| [type op] ops IH]; intros S s Hin Hnd Hnew Hrun.
  - split; [by apply (running_weaken S); [left |] |]. intros [| (? & ? & []%elem_of_nil & _)]; done.
  - rewrite fmap_cons in Hnd. apply NoDup_cons in Hnd as [Ht Hnd]. cbn [start_reads].
    assert (∀ e, e ∈ ops → e ∈ read_operations p) as Hin' by (intros; apply Hin; by right). destruct (Z.eqb_spec (wave op) w) as [Ew | Ew].
    + eapply ends_bind; [apply (start_operation cn S s); [done | apply Hin; left | apply (Hnew type op); [left | done] | done] |].
      intros good s1 [Hrun1 Hbusy1]. eapply ends_bind.
      * apply (IH (fun x => S x ∨ x = type) s1); [done | done | | done]. intros type' op' Hop' Hw [HS | ->]; [by destruct (Hnew type' op'); [right | |] |].
        apply Ht, list_elem_of_fmap. by exists (type, op').
      * intros f s2 [Hrun2 Hbusy2]. split.
        -- refine (running_weaken _ _ _ _ Hrun2). intros x [[? | ->] | (op' & ? & ?)]; [by left | right; exists op; split; [left | done] | right; exists op'; split; [by right | done]].
        -- intros [Hb | (type' & op' & [[= -> ->] | Hop']%elem_of_cons & Hw & Hs)]; apply Hbusy2; [left; by eauto | left; by eauto | right; by eauto].
    + eapply ends_weaken; [apply (IH S s); [done | done | | done] |].
      * intros type' op' Hop'. apply Hnew. by right.
      * intros f s1 [Hrun1 Hb1]. split.
        -- refine (running_weaken _ _ _ _ Hrun1). intros x [? | (op' & ? & ?)]; [by left | right; exists op'; split; [by right | done]].
        -- intros [Hb | (type' & op' & [[= -> ->] | Hop']%elem_of_cons & Hw & Hs)]; [by eauto | done | by eauto 10].
Qed.

Lemma running_types S s x : running S s → x ∈ parts s → ∃ q, x = part_id t q ∧ 0 <= q < 64.
Proof using HB Hpl.
  intros Hrun Hx. destruct (ru_started _ _ Hrun x Hx) as [_ ([type op] & -> & Hop)%list_elem_of_fmap].
  destruct (op_facts _ _ Hop) as (q & _ & -> & _ & Hq & _). by exists q.
Qed.

Lemma finishing_total S s : running S s → ∃ possible, isFinishingPossible p (networking_failures_ s) = Ok possible.
Proof using HB Hpl.
  intros Hrun. unfold isFinishingPossible. case_match; [by eauto |]. rewrite (pl_type _ _ _ _ _ _ _ Hpl).
  destruct (part_bits_spec t (networking_failures_ s) no_bits) as (b & -> & _).
  - pose proof (pl_valid _ _ _ _ _ _ _ Hpl). type_lia.
  - done.
  - intros x Hx. apply (running_types S s); [done |]. unfold parts. rewrite !elem_of_app. by auto.
  - by eauto.
Qed.

Lemma reading_total S s : running S s → ∃ done, isReadingFinished p (available_parts_ s) = Ok done.
Proof using HB Hpl.
  intros Hrun. unfold isReadingFinished. case_match; [by eauto |]. rewrite (pl_type _ _ _ _ _ _ _ Hpl).
  destruct (part_bits_spec t (available_parts_ s) no_bits) as (b & -> & _).
  - pose proof (pl_valid _ _ _ _ _ _ _ Hpl). type_lia.
  - done.
  - intros x Hx. apply (running_types S s); [done |]. unfold parts. rewrite !elem_of_app. by auto.
  - by eauto.
Qed.

(** The operations of the waves up to [w] have been started. *)
Definition started (w : Z) (x : Z) : Prop := ∃ op, (x, op) ∈ read_operations p ∧ wave op <= w.

(** The state between the steps of the loop. *)
Definition running_wave (w : Z) (s : execution) : Prop := running (started w) s ∧ isFinishingPossible p (networking_failures_ s) = Ok true.

Lemma start_wave cn w S s : honest cn → (∀ x, S x → started (w - 1) x) → running S s →
  ends (fun _ s' => running_wave w s' ∧ (busy s ∨ (∃ type op, (type, op) ∈ read_operations p ∧ wave op = w ∧ 0 < request_size op) → busy s'))
    (startReadsForWave B ps cn w s).
Proof using HB Hpl Hsmall Hids Hoff Hsized Hloc.
  intros Hcn HS Hrun. unfold startReadsForWave. eapply ends_bind.
  - apply (start_reads_run cn w Hcn (read_operations p) S s); [done | apply (pl_distinct _ _ _ _ _ _ _ Hpl) | | done].
    intros type op Hop Hw (op' & Hop' & Hw')%HS. rewrite (op_unique _ _ _ Hop' Hop) in Hw'. lia.
  - intros f s1 [Hrun1 Hb]. rewrite run_inspect. destruct (finishing_total _ _ Hrun1) as [possible E]. rewrite (run_lift _ _ _ _ E).
    destruct possible; [| done]. split; [| done]. split; [| done]. eapply running_weaken; [| done].
    intros x [(op & ? & ?)%HS | (op & ? & ?)]; exists op; (split; [done | lia]).
Qed.

Lemma prefetch_wave cn w s : ends (fun _ s' => s' = s) (startPrefetchForWave ps cn w s).
Proof using Hloc.
  unfold startPrefetchForWave. destruct (disable_prefetch ps); [done |]. generalize (fun e (H : e ∈ read_operations p) => H). generalize (read_operations p) at 1 3.
  intros ops. induction ops as [| [type op] ops IH]; intros Hin; [done |]. cbn [start_prefetches].
  apply (ends_bind (fun _ s' => s' = s)).
  - destruct (wave op =? w); [| done]. unfold startPrefetchOperation. destruct (Hloc type op) as (l & -> & Hv); [apply Hin; left |].
    destruct (request_size op <=? 0); [done |]. destruct (cn type) as [| ? [] ? ?]; [done | done |]. unfold sassert. by rewrite (proj2 (Z.leb_le _ _)).
  - intros _ s' ->. apply IH. intros e He. apply Hin. by right.
Qed.

(** ** Receiving *)

(** The order of the executors does not matter. *)
Lemma running_perm S s s' : executors_ s ≡ₚ executors_ s' → available_parts_ s' = available_parts_ s → networking_failures_ s' = networking_failures_ s →
  buffer s' = buffer s → running S s → running S s'.
Proof using.
  intros Hp Ea Ef Eb [H1 H2 H3 H4 H5]. assert (parts s ≡ₚ parts s') as Hparts by (unfold parts; by rewrite Ea, Ef, Hp).
  split; rewrite ?Ea, ?Eb, <- ?Hparts, <- ?Hp; try done.
  - intros x. rewrite <- Hparts. apply H2.
  - intros fd e ans. rewrite <- Hp. apply H4.
Qed.

Lemma running_cons S s fd e ans op : running S s → reads (chunkType_ (request_ e)) op e ans (buffer s) → chunkType_ (request_ e) ∉ parts s →
  S (chunkType_ (request_ e)) → fd ∉ fst <$> executors_ s → running S (set_executors (cons (fd, (e, ans))) s).
Proof using.
  intros [H1 H2 H3 H4 H5] Hr Hnew HS Hfd. change (parts (set_executors (cons (fd, (e, ans))) s)) with (chunkType_ (request_ e) :: parts s).
  split; cbn [set_executors executors_ buffer available_parts_]; try done.
  - by constructor.
  - intros x [-> | [? ?]%H2]%elem_of_cons; [| done]. split; [done |]. destruct Hr as (l & a & Hop & _). apply list_elem_of_fmap. by exists (chunkType_ (request_ e), op).
  - rewrite fmap_cons. by constructor.
  - intros fd' e' ans' [[= -> -> ->] | Hin]%elem_of_cons; [by exists op | by eapply H4].
Qed.

(** The state without an executor, when its operation has changed the memory. *)
Definition without (fd : Z) (b : list byte) (s : execution) : execution := set_buffer b (set_executors (erase_executor fd) s).

Lemma running_without S s fd e ans type op l b : running S s → (fd, (e, ans)) ∈ executors_ s → chunkType_ (request_ e) = type → (type, op) ∈ read_operations p →
  keeps B (request_for ps type op l) (op_blocks op) (buffer s) b → running S (without fd b s) ∧ type ∉ parts (without fd b s) ∧ S type.
Proof using HB Hpl Hsmall Hids Hoff Hsized.
  intros [H1 H2 H3 H4 H5] Hin Et Hop Hk. destruct (executor_perm fd (e, ans) _ H3 Hin) as (Hp & _ & Hfd).
  assert (parts s ≡ₚ type :: parts (without fd b s)) as Hparts.
  { unfold parts, without. cbn. rewrite Hp at 1. rewrite fmap_cons. cbn. unfold type_of at 1. cbn. by rewrite Et. }
  rewrite Hparts in H1. apply NoDup_cons in H1 as [Hnew Hnd]. rewrite Hp, fmap_cons in H3. apply NoDup_cons in H3 as [_ H3].
  split; [| split; [done |]].
  - split; try done.
    + intros x Hx. apply H2. rewrite Hparts. by right.
    + intros fd' e' ans' [Hne Hin']%list_elem_of_filter. destruct (H4 _ _ _ Hin') as [op' Hr]. exists op'. eapply keeps_other; try done.
      intros E. apply Hnew. rewrite E. unfold parts, without. cbn. apply elem_of_app. left. apply list_elem_of_fmap. exists (fd', (e', ans')). split; [done |].
      by apply list_elem_of_filter.
    + eapply keeps_received; try done. intros Hav. apply Hnew. unfold parts, without. cbn. rewrite !elem_of_app. by auto.
  - apply H2. rewrite Hparts. left.
Qed.

(** What holds after reading from the executor [fd]. *)
Definition read_done (S : Z → Prop) (fd : Z) (s : execution) : bool → execution → Prop := fun _ s' =>
  running S s' ∧ isFinishingPossible p (networking_failures_ s') = Ok true ∧ ∀ fd', fd' ≠ fd → fd' ∈ fst <$> executors_ s → fd' ∈ fst <$> executors_ s'.

Lemma read_failed_run S s fd e b : running S (without fd b s) → chunkType_ (request_ e) ∈ fst <$> read_operations p →
  chunkType_ (request_ e) ∉ parts (without fd b s) → S (chunkType_ (request_ e)) → ∀ l, erase_executor fd l = erase_executor fd (executors_ s) →
  ends (read_done S fd s) (read_failed ps fd e (set_buffer b (set_executors (fun _ => l) s))).
Proof using HB Hpl.
  intros Hrun Hop Hnew HS l El. unfold read_failed, connection_failed.
  set (s1 := push_failure (chunkType_ (request_ e)) (set_stats (ChunkserverStats.markDefective (server_ (request_ e))) (without fd b s))).
  assert (running S s1) as Hrun1.
  { eapply running_weaken; [| by apply running_failure]. intros x [? | ->]; done. }
  erewrite (run_bind _ _ _ (set_buffer b (set_executors (fun _ => l) s))); [| done]. rewrite run_modify.
  assert (set_executors (erase_executor fd) (push_failure (chunkType_ e) (set_stats (ChunkserverStats.markDefective (server_ e)) (set_buffer b (set_executors (fun _ => l) s)))) = s1) as ->.
  { unfold s1, without, push_failure, set_stats, set_buffer, set_executors.
    cbn [stats_ executors_ available_parts_ networking_failures_ buffer]. by rewrite El. }
  rewrite run_inspect. destruct (finishing_total _ _ Hrun1) as [possible E]. rewrite (run_lift _ _ _ _ E). destruct possible; [| done].
  split; [done |]. split; [done |]. intros fd' Hne Hin. unfold s1, without. cbn. by apply keys_erase.
Qed.

(** The executor has received bytes and goes on. *)
Lemma read_continues S s fd e ans e' ans' op l b : running S s → (fd, (e, ans)) ∈ executors_ s → request_ e' = request_ e →
  (chunkType_ (request_ e), op) ∈ read_operations p → keeps B (request_for ps (chunkType_ (request_ e)) op l) (op_blocks op) (buffer s) b →
  reads (chunkType_ (request_ e)) op e' ans' b →
  running S (set_buffer b (set_executors (update_executor fd (e', ans')) s)).
Proof using HB Hpl Hsmall Hids Hoff Hsized.
  intros Hrun Hin Er Hop Hk Hr. destruct (running_without _ _ _ _ _ _ _ _ _ Hrun Hin eq_refl Hop Hk) as (Hw & Hnew & HS).
  destruct (executor_perm fd (e, ans) _ (ru_fds _ _ Hrun) Hin) as (_ & Hp & Hfd).
  apply (running_perm S (set_executors (cons (fd, (e', ans'))) (without fd b s))); try done.
  - unfold without. cbn. by rewrite Hp.
  - apply running_cons with (op := op); rewrite ?Er; done.
Qed.

(** The executor has finished. *)
Lemma read_finishes S s fd e ans m op l a : running S s → isFinishingPossible p (networking_failures_ s) = Ok true → (fd, (e, ans)) ∈ executors_ s →
  (chunkType_ (request_ e), op) ∈ read_operations p → keeps B (request_for ps (chunkType_ (request_ e)) op l) (op_blocks op) (buffer s) (memory m) →
  correct_answer (chunkType_ (request_ e)) op a → finished B (request_for ps (chunkType_ (request_ e)) op l) a (op_blocks op) m →
  ends (read_done S fd s) (read_succeeded fd (executor m) (set_buffer (memory m) (set_executors (update_executor fd (executor m, input m)) s))).
Proof using HB Hpl Hsmall Hids Hoff Hsized.
  intros Hrun Hpos Hin Hop Hk (Hd & _) [F1 F2 _ F4]. destruct (running_without _ _ _ _ _ _ _ _ _ Hrun Hin eq_refl Hop Hk) as (Hw & Hnew & HS).
  destruct (op_facts _ _ Hop) as (_ & _ & _ & _ & _ & _ & Es & _). unfold read_succeeded, isFinished. rewrite F2, bool_decide_true by done. rewrite !run_modify.
  assert (chunkType_ (request_ (executor m)) = chunkType_ (request_ e)) as Et by (by rewrite F1).
  split; [| split; [done |]].
  - eapply running_weaken; cycle 1.
    + eapply (running_perm _ (push_available (chunkType_ (request_ e)) (without fd (memory m) s))); cycle 4.
      * eapply running_available; try done. unfold without. cbn [set_buffer buffer]. rewrite Es.
        unfold place in F4. cbn [request_for dataBuffer_ readOperation_] in F4. rewrite F4. unfold part_bytes.
        etransitivity; [| apply blocks_of_shift]. apply blocks_of_ext. intros i _. apply Hd.
      * cbn [set_executors executors_ set_buffer push_available set_stats without]. by rewrite erase_update.
      * cbn. by rewrite Et.
      * done.
      * done.
    + intros x [? | ->]; done.
  - intros fd' Hne Hfd'. cbn [set_executors executors_ set_buffer push_available set_stats]. rewrite erase_update. by apply keys_erase.
Qed.

Lemma read_some S s fd ev e ans : running S s → isFinishingPossible p (networking_failures_ s) = Ok true → (fd, (e, ans)) ∈ executors_ s →
  ends (read_done S fd s) (readSomeData B ps fd ev e ans s).
Proof using HB Hpl Hsmall Hids Hoff Hsized.
  intros Hrun Hpos Hin. destruct (ru_reads _ _ Hrun _ _ _ Hin) as (op & l & a & Hop & Hv & Ha & Hp).
  assert (0 < B < 2 ^ 31) as HB31 by (destruct Hsmall; unfold SFSBLOCKSINCHUNK in *; lia). pose proof (op_answerable _ _ _ _ Hop Hv Ha) as Han.
  assert (chunkType_ (request_ e) ∈ fst <$> read_operations p) as Htype by (apply list_elem_of_fmap; by exists (chunkType_ (request_ e), op)).
  pose proof (progress_not_finished _ _ _ _ Hp) as Hnf. cbn [executor] in Hnf.
  set (r := request_for ps (chunkType_ e) op l) in *. pose proof (progress_request _ _ _ Hp) as Er. cbn [executor] in Er.
  assert (∀ b l', keeps B r (op_blocks op) (buffer s) b → erase_executor fd l' = erase_executor fd (executors_ s) →
    ends (read_done S fd s) (read_failed ps fd e (set_buffer b (set_executors (fun _ => l') s)))) as Hfail.
  { intros b l' Hk El. destruct (running_without _ _ _ _ _ _ _ _ _ Hrun Hin eq_refl Hop Hk) as (Hw & Hnew & HS). by apply read_failed_run. }
  assert (keeps B r (op_blocks op) (buffer s) (buffer s)) as Hk0 by apply keeps_refl.
  assert (∀ m, progress B r a m → keeps B r (op_blocks op) (buffer s) (memory m) →
    ends (read_done S fd s) (read_succeeded fd (executor m) (set_buffer (memory m) (set_executors (update_executor fd (executor m, input m)) s)))) as Hgo.
  { intros m Hpm Hk. unfold read_succeeded. rewrite (progress_not_finished _ _ _ _ Hpm). split; [| split; [done |]].
    - eapply read_continues; try done; [by rewrite (progress_request _ _ _ Hpm) |]. exists l, a. split_and!; try done. by destruct m.
    - intros fd' _. cbn [set_executors executors_ set_buffer]. by rewrite keys_update. }
  destruct ev as [[rcv |] err]; cbn [readSomeData].
  - rewrite run_inspect. destruct (continue_idle B HB31 _ _ _ Han _ Hp) as (Ea & Ef & E0). destruct rcv as [[| amount] | |].
    + rewrite E0, run_modify. apply Hfail; [done | apply erase_update].
    + assert (room B r (op_blocks op) (buffer s)) as Hroom.
      { unfold room. rewrite (rc_length _ _ _ _ _ (ru_received _ _ Hrun)). destruct (op_bounds _ _ Hop) as (_ & _ & _ & Hb & _). destruct (op_facts _ _ Hop) as (_ & _ & _ & _ & _ & _ & Es & _).
        unfold place, fullBufferSize, r. cbn [request_for dataBuffer_ readOperation_]. lia. }
      destruct (continue_receives B HB31 _ _ _ Han (mk_machine e (buffer s) ans) (Datatypes.S amount) Hp Hroom ltac:(lia)) as (m & Hk & [(-> & Hpm & _) | [(-> & Hfin & _) | (x & -> & _)]]); rewrite run_modify.
      * by apply Hgo.
      * by eapply read_finishes.
      * destruct x; try done. apply Hfail; [done | apply erase_update].
    + rewrite Ea, run_modify. by apply (Hgo (mk_machine e (buffer s) ans)).
    + rewrite Ef, run_modify. apply Hfail; [done | apply erase_update].
  - assert (s = set_buffer (buffer s) (set_executors (fun _ => executors_ s) s)) as Es by (by destruct s). destruct err.
    + rewrite Es at 2. by apply Hfail.
    + unfold read_succeeded. rewrite Hnf. split; [done |]. by split.
Qed.

Lemma read_ready_run S revents fds : ∀ s, running S s → isFinishingPossible p (networking_failures_ s) = Ok true →
  NoDup fds → (∀ fd, fd ∈ fds → fd ∈ fst <$> executors_ s) →
  ends (fun _ s' => running S s' ∧ isFinishingPossible p (networking_failures_ s') = Ok true) (read_ready B ps revents fds s).
Proof using HB Hpl Hsmall Hids Hoff Hsized.
  induction fds as [| fd fds IH]; intros s Hrun Hpos Hnd Hin; [done |]. apply NoDup_cons in Hnd as [Hfd Hnd]. cbn [read_ready].
  assert (∀ fd, fd ∈ fds → fd ∈ fst <$> executors_ s) as Hin' by (intros; apply Hin; by right).
  assert (ends (fun _ s' => running S s' ∧ isFinishingPossible p (networking_failures_ s') = Ok true)
    ((l ←{ executors_ }; match find_executor fd l with None => fun _ => Undefined | Some (e, answer) =>
       good ← readSomeData B ps fd (revents fd) e answer; failed ← read_ready B ps revents fds; mret (if good : bool then failed else failed + 1) end) s)) as Hstep.
  { rewrite run_inspect. destruct (find_executor fd (executors_ s)) as [[e ans] |] eqn:Ef.
    - eapply ends_bind; [by apply read_some; [| | apply find_executor_Some] |]. intros good s1 (Hrun1 & Hpos1 & Hkeys).
      eapply ends_bind; [apply (IH s1); try done |].
      + intros fd' Hfd'. apply Hkeys; [by intros -> | by apply Hin'].
      + intros failed s2 Hs2. done.
    - apply find_executor_None in Ef. apply Ef, Hin. left. }
  destruct (revents fd) as [[r |] []]; try done. by apply IH.
Qed.

Lemma next_wave_run rd w f s : honest (connect rd) → running_wave w s → ends (fun '(w', _) s' => running_wave w' s') (next_wave B ps rd w f s).
Proof using HB Hpl Hsmall Hids Hoff Hsized Hloc.
  intros Hcn Hw. unfold next_wave. destruct (_ || _); [| done]. eapply ends_bind.
  - apply (start_wave (connect rd) (w + 1) (started w) s); [done | | apply Hw]. intros x (op & ? & ?). exists op. split; [done | lia].
  - intros f' s1 [Hw1 _]. eapply ends_bind; [apply prefetch_wave |]. by intros _ s2 ->.
Qed.

Lemma loop_run rounds : Forall (fun rd => honest (connect rd)) rounds → ∀ w f s, running_wave w s →
  ends (fun finished s' => (∃ w', running_wave w' s') ∧ (finished = true → isReadingFinished p (available_parts_ s') = Ok true))
    (receive_loop B ps rounds w f s).
Proof using HB Hpl Hsmall Hids Hoff Hsized Hloc.
  induction 1 as [| rd rounds Hrd _ IH]; intros w f s Hw; [split; [by exists w | done] |]. cbn [receive_loop].
  destruct (total_expired rd); [done |]. eapply ends_bind; [by apply next_wave_run |]. intros [w1 f1] s1 [Hrun1 Hpos1]. rewrite run_inspect.
  destruct (executors_ s1) as [| e l] eqn:El.
  - rewrite run_inspect, (run_lift _ _ _ _ Hpos1), run_sassert by done. by apply IH.
  - destruct (polled rd) as [| | revents]; [by apply IH | done |]. rewrite <- El. eapply ends_bind.
    + apply (read_ready_run (started w1) revents _ s1 Hrun1 Hpos1 (ru_fds _ _ Hrun1)). done.
    + intros failed s2 [Hrun2 Hpos2]. rewrite run_inspect. destruct (reading_total _ _ Hrun2) as [fin E]. rewrite (run_lift _ _ _ _ E).
      destruct fin; [split; [by exists w1 | done] | by apply IH].
Qed.

(** Some operation of the first wave reads something. *)
Definition first_wave_reads : Prop := ∃ type op, (type, op) ∈ read_operations p ∧ wave op = 0 ∧ 0 < request_size op.

Definition fresh (stats : ChunkserverStats.t) : execution := mk_execution stats [] [] [] (replicate (Z.to_nat (fullBufferSize p)) x00).

Lemma fresh_running stats : running (fun _ => False) (fresh stats).
Proof using HB Hpl Hsmall Hoff.
  split; cbn; try by constructor; try (by intros ? ?%elem_of_nil).
  - by intros x ?%elem_of_nil.
  - by intros fd e ans ?%elem_of_nil.
  - pose proof (pl_buffer _ _ _ _ _ _ _ Hpl) as Hb. pose proof (P_pos B HB t fb bc rs slots p Hpl) as HP. pose proof (pl_slots _ _ _ _ _ _ _ Hpl).
    assert (0 <= fullBufferSize p) as Hf by (unfold fullBufferSize; nia).
    split.
    + rewrite length_replicate. lia.
    + by intros type op _ ?%elem_of_nil.
    + intros type op Hop. unfold bytes_at. rewrite drop_replicate, take_replicate. f_equal.
      destruct (op_facts _ _ Hop) as (_ & s & _ & _ & _ & _ & _ & Hsz & _ & _ & Eb & Hs). rewrite (pl_size _ _ _ _ _ _ _ Hpl), Eb. unfold fullBufferSize. rewrite Hb. nia.
Qed.

Lemma operations_run first rounds stats : first_wave_reads → honest (connect first) → Forall (fun rd => honest (connect rd)) rounds →
  ends (fun finished s' => (∃ w', running_wave w' s') ∧ (finished = true → isReadingFinished p (available_parts_ s') = Ok true))
    (executeReadOperations B ps first rounds (fresh stats)).
Proof using HB Hpl Hsmall Hids Hoff Hsized Hloc.
  intros Hfirst Hcn Hrounds. unfold executeReadOperations. rewrite run_sassert.
  - eapply ends_bind; [by apply (start_wave (connect first) 0 (fun _ => False)); [| | apply fresh_running] |]. intros f s1 [Hw Hb].
    eapply ends_bind; [apply prefetch_wave |]. intros _ s2 ->. rewrite run_inspect, run_sassert; [by apply loop_run |].
    apply Z.ltb_lt. destruct Hb as [He | He]; [right; exact Hfirst | |]; [destruct (executors_ s1) | destruct (networking_failures_ s1)]; cbn [length]; (done || lia).
  - destruct Hfirst as (type & op & Hop & _). apply negb_true_iff, bool_decide_false. intros E. rewrite E in Hop. by apply elem_of_nil in Hop.
Qed.

(** ** When nothing goes wrong *)

Section complete.
Context (Hcomplete : ∀ op a, allowed op a → blocks a = op_blocks op ∧ status a = SAUNAFS_STATUS_OK).

Lemma complete_verdict r type op a : correct_answer type op a → verdict r a (op_blocks op) = None.
Proof using Hcomplete. intros (_ & _ & _ & [Eb Es]%Hcomplete). unfold verdict. by rewrite Eb, Es, !Z.eqb_refl. Qed.

(** The bytes that are still to come. *)
Definition weight (s : execution) : nat := sum_list ((fun e => length (snd (snd e))) <$> executors_ s).

Lemma read_some_good S s fd amount e ans : running S s → (fd, (e, ans)) ∈ executors_ s →
  ∃ s', readSomeData B ps fd (Some (Receives (Datatypes.S amount)), false) e ans s = Returned true s' ∧ networking_failures_ s' = networking_failures_ s ∧
    parts s' ≡ₚ parts s ∧ (weight s' < weight s)%nat ∧ ∀ fd', fd' ≠ fd → fd' ∈ fst <$> executors_ s → fd' ∈ fst <$> executors_ s'.
Proof using HB Hpl Hsmall Hids Hoff Hsized Hcomplete.
  intros Hrun Hin. destruct (ru_reads _ _ Hrun _ _ _ Hin) as (op & l & a & Hop & Hv & Ha & Hp).
  assert (0 < B < 2 ^ 31) as HB31 by (destruct Hsmall; unfold SFSBLOCKSINCHUNK in *; lia). pose proof (op_answerable _ _ _ _ Hop Hv Ha) as Han.
  set (r := request_for ps (chunkType_ e) op l) in *. pose proof (progress_request _ _ _ Hp) as Er. cbn [executor] in Er.
  destruct (executor_perm fd (e, ans) _ (ru_fds _ _ Hrun) Hin) as (P1 & P2 & _). cbn [readSomeData]. rewrite run_inspect.
  assert (room B r (op_blocks op) (buffer s)) as Hroom.
  { unfold room. rewrite (rc_length _ _ _ _ _ (ru_received _ _ Hrun)). destruct (op_bounds _ _ Hop) as (_ & _ & _ & Hb & _). destruct (op_facts _ _ Hop) as (_ & _ & _ & _ & _ & _ & Es & _).
    unfold place, fullBufferSize, r. cbn [request_for dataBuffer_ readOperation_]. lia. }
  assert (weight s = length ans + sum_list ((fun e => length (snd (snd e))) <$> erase_executor fd (executors_ s)))%nat as Hweight by (unfold weight; by rewrite P1 at 1).
  assert (type_of <$> executors_ s ≡ₚ chunkType_ (request_ e) :: (type_of <$> erase_executor fd (executors_ s))) as Htypes by (by rewrite P1 at 1).
  destruct (continue_receives B HB31 _ _ _ Han (mk_machine e (buffer s) ans) (Datatypes.S amount) Hp Hroom ltac:(lia)) as (m & Hk & [(-> & Hpm & Hless) | [(-> & Hfin & _) | (x & _ & Hx)]]).
  - rewrite run_modify. unfold read_succeeded. rewrite (progress_not_finished _ _ _ _ Hpm). eexists. split; [done |]. split; [done |].
    cbn [executors_ set_executors set_buffer]. split; [| split].
    + unfold parts. cbn [executors_ set_executors set_buffer available_parts_ networking_failures_]. apply Permutation_app_tail. rewrite Htypes, P2, fmap_cons.
      unfold type_of at 1. cbn [fst snd]. by rewrite (progress_request _ _ _ Hpm).
    + unfold weight at 1. cbn [executors_ set_executors set_buffer]. rewrite P2, Hweight. cbn. cbn in Hless. lia.
    + intros fd' _. by rewrite keys_update.
  - destruct Hfin as [F1 F2 _ _]. rewrite run_modify. unfold read_succeeded, isFinished. rewrite F2, bool_decide_true by done. rewrite !run_modify. eexists. split; [done |]. split; [done |].
    cbn [executors_ set_executors set_buffer set_stats push_available]. rewrite erase_update. split; [| split].
    + unfold parts. cbn [executors_ set_executors set_buffer set_stats push_available available_parts_ networking_failures_]. rewrite erase_update, Htypes, F1.
      cbn [r request_for chunkType_]. solve_Permutation.
    + unfold weight at 1. cbn [executors_ set_executors set_buffer set_stats push_available]. rewrite erase_update, Hweight. pose proof (progress_input _ _ _ _ Hp). cbn in *. lia.
    + intros fd' Hne Hfd. by apply keys_erase.
  - by rewrite (complete_verdict _ _ _ _ Ha) in Hx.
Qed.

(** Every descriptor has some bytes. *)
Definition steady_events (revents : Z → option recv * bool) : Prop := ∀ fd, ∃ amount, revents fd = (Some (Receives (Datatypes.S amount)), false).

Lemma read_ready_good S revents fds : steady_events revents → ∀ s, running S s → isFinishingPossible p (networking_failures_ s) = Ok true →
  NoDup fds → (∀ fd, fd ∈ fds → fd ∈ fst <$> executors_ s) →
  ∃ s', read_ready B ps revents fds s = Returned 0 s' ∧ running S s' ∧ networking_failures_ s' = networking_failures_ s ∧ parts s' ≡ₚ parts s ∧
    (weight s' + (if bool_decide (fds = []) then 0 else 1) <= weight s)%nat.
Proof using HB Hpl Hsmall Hids Hoff Hsized Hcomplete.
  intros Hev. induction fds as [| fd fds IH]; intros s Hrun Hpos Hnd Hin; [exists s; split_and!; try done; cbn; lia |].
  apply NoDup_cons in Hnd as [Hfd Hnd]. cbn [read_ready]. destruct (Hev fd) as [amount Eev]. rewrite Eev, run_inspect.
  destruct (find_executor fd (executors_ s)) as [[e ans] |] eqn:Ef; [| apply find_executor_None in Ef; destruct Ef; apply Hin; left].
  apply find_executor_Some in Ef. pose proof (read_some S s fd (Some (Receives (Datatypes.S amount)), false) e ans Hrun Hpos Ef) as Hends.
  destruct (read_some_good S s fd amount e ans Hrun Ef) as (s1 & E1 & F1 & P1 & W1 & K1). rewrite E1 in Hends. destruct Hends as (Hrun1 & Hpos1 & _).
  destruct (IH s1 Hrun1 Hpos1 Hnd) as (s2 & E2 & Hrun2 & F2 & P2 & W2).
  { intros fd' Hfd'. apply K1; [by intros -> |]. apply Hin. by right. }
  rewrite (run_bind _ _ _ _ _ E1), (run_bind _ _ _ _ _ E2). exists s2. split_and!; try done; [congruence | by rewrite P2 | cbn; lia].
Qed.

(** The first wave is enough, in whatever order its parts arrive. *)
Context (Henough : ∀ l, l ≡ₚ first_wave p → isReadingFinished p l = Ok true).

Definition steady_round (rd : round) : Prop := total_expired rd = false ∧ wave_expired rd = false ∧ ∃ revents, polled rd = Events revents ∧ steady_events revents.

Lemma loop_good S rounds : Forall steady_round rounds → ∀ s, running S s → isFinishingPossible p (networking_failures_ s) = Ok true →
  networking_failures_ s = [] → parts s ≡ₚ first_wave p → executors_ s ≠ [] → (weight s <= length rounds)%nat →
  ∃ s', receive_loop B ps rounds 0 0 s = Returned true s'.
Proof using HB Hpl Hsmall Hids Hoff Hsized Hcomplete Henough.
  induction 1 as [| rd rounds (Ht & Hw & revents & Ep & Hev) _ IH]; intros s Hrun Hpos Hf Hparts Hne Hweight.
  { destruct (executors_ s) as [| [fd [e ans]] l] eqn:El; [done |]. unfold weight in Hweight. rewrite El in Hweight. cbn in Hweight.
    destruct (ru_reads _ _ Hrun fd e ans) as (op & l' & a & _ & _ & _ & Hp); [rewrite El; left |]. apply progress_input in Hp. cbn in Hp. lia. }
  cbn [receive_loop]. rewrite Ht. unfold next_wave. rewrite Hw. cbn [orb negb Z.eqb]. erewrite run_bind; [| done]. cbv beta iota. rewrite run_inspect.
  destruct (executors_ s) as [| e0 l0] eqn:El; [done |]. rewrite Ep. rewrite <- El.
  destruct (read_ready_good S revents (fst <$> executors_ s) Hev s Hrun Hpos (ru_fds _ _ Hrun) ltac:(done)) as (s1 & E1 & Hrun1 & F1 & P1 & W1).
  rewrite (run_bind _ _ _ _ _ E1), run_inspect. destruct (reading_total _ _ Hrun1) as [fin E]. rewrite (run_lift _ _ _ _ E).
  destruct fin; [by eexists |]. apply IH; [done | by rewrite F1 | congruence | by rewrite P1 | |].
  - intros E0. rewrite Henough in E; [done |]. rewrite <- Hparts, <- P1. unfold parts. rewrite E0, F1, Hf. by rewrite app_nil_r.
  - rewrite El in W1. cbn [fmap list_fmap] in W1. rewrite bool_decide_false in W1 by done. cbn [length] in Hweight. lia.
Qed.

(** Every operation of the first wave gets a connection of its own and is answered. *)
Definition connected (cn : Z → connection) (fd_of : Z → Z) : Prop :=
  (∀ type op l, (type, op) ∈ read_operations p → wave op = 0 → locations ps type = Some l →
     ∃ ans a, cn type = Connected (fd_of type) false 34 ans ∧ ans (request_for ps type op l) = answer_from B (request_for ps type op l) a 0 ∧ correct_answer type op a) ∧
  (∀ type type', type ∈ first_wave p → type' ∈ first_wave p → fd_of type = fd_of type' → type = type').

Section starting.
Context (cn : Z → connection) (fd_of : Z → Z) (Hcn : connected cn fd_of).

(** The descriptors in use are those of started operations. *)
Definition own_fds (S : Z → Prop) (s : execution) : Prop := ∀ fd, fd ∈ fst <$> executors_ s → ∃ x, fd = fd_of x ∧ S x ∧ x ∈ first_wave p.

Lemma in_first_wave type op : (type, op) ∈ read_operations p → wave op = 0 → type ∈ first_wave p.
Proof using. intros Hop Hw. apply list_elem_of_fmap. exists (type, op). split; [done |]. by apply list_elem_of_filter. Qed.

(** The bytes of the answer to an operation. *)
Definition answer_size (e : Z * ReadOperation) : nat :=
  match cn (fst e), locations ps (fst e) with
  | Connected _ _ _ ans, Some l => length (ans (request_for ps (fst e) (snd e) l))
  | _, _ => 0%nat
  end.

Lemma start_operation_good S s type op : own_fds S s → networking_failures_ s = [] → (type, op) ∈ read_operations p → wave op = 0 → ¬ S type →
  ∃ s', startReadOperation B ps cn type op s = Returned true s' ∧ networking_failures_ s' = [] ∧ parts s' ≡ₚ type :: parts s ∧ own_fds (fun x => S x ∨ x = type) s' ∧
    (weight s' <= weight s + answer_size (type, op))%nat.
Proof using HB Hpl Hsmall Hids Hoff Hsized Hloc Hcn.
  intros Hfds Hf Hop Hw Hnew. destruct Hcn as [Hcon Hinj]. unfold startReadOperation. rewrite run_inspect, run_sassert by (by rewrite Hf).
  destruct (Hloc type op Hop) as (l & El & Hv). rewrite El. destruct (Z.leb_spec (request_size op) 0) as [Hz | Hpos].
  { eexists. split; [done |]. split; [done |]. split; [unfold parts; cbn; rewrite <- !app_assoc; solve_Permutation |]. split; [| unfold weight; cbn [executors_ push_available]; lia].
    intros fd (x & -> & HS & Hx)%Hfds. exists x. auto. }
  destruct (Hcon _ _ _ Hop Hw El) as (ans & a & Ec & Eans & Ha). unfold answer_size. cbn [fst snd]. rewrite Ec, El, Eans, run_modify, run_inspect. pose proof (op_answerable _ _ _ _ Hop Hv Ha) as Han.
  assert (0 < B < 2 ^ 31) as HB31 by (destruct Hsmall; unfold SFSBLOCKSINCHUNK in *; lia). set (s1 := set_stats _ s).
  change (mk_machine _ (buffer s1) _) with (start B (request_for ps type op l) a (buffer s1)).
  destruct (request_sent B HB31 _ _ _ Han (buffer s1)) as (m & -> & Hp & Hm & Hi). rewrite run_modify. eexists. split; [done |]. split; [done |].
  pose proof (in_first_wave _ _ Hop Hw) as Htype. assert (fd_of type ∉ fst <$> executors_ s) as Hfresh.
  { intros (x & E & HS & Hx)%Hfds. apply Hnew. by rewrite (Hinj _ _ Htype Hx E). }
  destruct (insert_executor_cases (fd_of type) (executor m, input m) (executors_ s)) as [[? _] | [_ E]]; [done |]. unfold parts, weight, own_fds.
  cbn [executors_ set_executors set_stats s1 available_parts_ networking_failures_]. split; [| split].
  - rewrite E, fmap_cons. unfold type_of at 1. cbn [fst snd]. by rewrite (progress_request _ _ _ Hp).
  - intros fd. rewrite E, fmap_cons, elem_of_cons. cbn [fst]. intros [-> | (x & -> & HS & Hx)%Hfds]; [exists type | exists x]; auto.
  - rewrite E, fmap_cons. cbn [sum_list_with snd]. unfold id at 1. rewrite Hi. lia.
Qed.

(** The bytes of all answers to the first wave. *)
Definition answers (ops : list (Z * ReadOperation)) : nat :=
  sum_list (answer_size <$> filter (fun e => wave (snd e) = 0) ops).

Lemma start_reads_good ops : ∀ S s, (∀ e, e ∈ ops → e ∈ read_operations p) → NoDup (fst <$> ops) → (∀ type op, (type, op) ∈ ops → ¬ S type) →
  own_fds S s → networking_failures_ s = [] →
  ∃ s', start_reads B ps cn 0 ops s = Returned 0 s' ∧ networking_failures_ s' = [] ∧ parts s' ≡ₚ (fst <$> filter (fun e => wave (snd e) = 0) ops) ++ parts s ∧
    (weight s' <= weight s + answers ops)%nat.
Proof using HB Hpl Hsmall Hids Hoff Hsized Hloc Hcn.
  induction ops as [| [type op] ops IH]; intros S s Hin Hnd Hnew Hfds Hf; [exists s; split_and!; try done; lia |].
  rewrite fmap_cons in Hnd. apply NoDup_cons in Hnd as [Ht Hnd]. cbn [start_reads fst] in *. unfold answers. rewrite filter_cons. cbn [snd].
  assert (∀ e, e ∈ ops → e ∈ read_operations p) as Hin' by (intros; apply Hin; by right). destruct (Z.eqb_spec (wave op) 0) as [Ew | Ew].
  - rewrite decide_True by done. destruct (start_operation_good S s type op) as (s1 & E1 & F1 & P1 & O1 & W1); [done | done | apply Hin; left | done | apply (Hnew type op); left |].
    destruct (IH (fun x => S x ∨ x = type) s1) as (s2 & E2 & F2 & P2 & W2); [done | done | | done | done |].
    { intros type' op' Hop' [HS | ->]; [by apply (Hnew type' op'); [right |] |]. apply Ht, list_elem_of_fmap. by exists (type, op'). }
    rewrite (run_bind _ _ _ _ _ E1), (run_bind _ _ _ _ _ E2). exists s2. split; [done |]. split; [done |]. split.
    + rewrite P2, P1, fmap_cons. cbn [fst]. solve_Permutation.
    + rewrite fmap_cons. cbn [fst sum_list_with]. unfold id at 1. unfold answers in W2. lia.
  - rewrite decide_False by done. apply (IH S); try done. intros type' op' Hop'. apply (Hnew type' op'). by right.
Qed.

Lemma no_failures_possible : isFinishingPossible p [] = Ok true.
Proof using.
  unfold isFinishingPossible. case_match; [done |]. cbn [part_bits mbind res_bind]. f_equal. apply negb_true_iff, not_true_is_false.
  intros (info & _ & E)%existsb_exists. by rewrite test_no_bits in E.
Qed.

(** No time-out while prefetch requests are sent. *)
Definition calm (cn' : Z → connection) : Prop := ∀ type fd written ans, cn' type ≠ Connected fd true written ans.

Lemma prefetch_calm cn' w s : calm cn' → startPrefetchForWave ps cn' w s = Returned () s.
Proof using Hloc.
  intros Hcalm. unfold startPrefetchForWave. destruct (disable_prefetch ps); [done |]. generalize (fun e (H : e ∈ read_operations p) => H). generalize (read_operations p) at 1 3.
  intros ops. induction ops as [| [type op] ops IH]; intros Hin; [done |]. cbn [start_prefetches]. erewrite run_bind; [apply IH; intros; apply Hin; by right |].
  destruct (wave op =? w); [| done]. unfold startPrefetchOperation. destruct (Hloc type op) as (l & -> & Hv); [apply Hin; left |].
  destruct (request_size op <=? 0); [done |]. specialize (Hcalm type). destruct (cn' type) as [| fd [] written ans]; [done | by destruct (Hcalm fd written ans) |].
  unfold sassert. by rewrite (proj2 (Z.leb_le _ _)).
Qed.

Lemma operations_good first rounds stats : connect first = cn → honest cn → first_wave_reads → calm (prefetch_connect first) → Forall steady_round rounds →
  (answers (read_operations p) <= length rounds)%nat → ∃ s', executeReadOperations B ps first rounds (fresh stats) = Returned true s'.
Proof using HB Hpl Hsmall Hids Hoff Hsized Hloc Hcn Hcomplete Henough.
  intros Ecn Hhonest Hfirst Hcalm Hrounds Hlen. unfold executeReadOperations. rewrite Ecn, run_sassert.
  2: { destruct Hfirst as (type & op & Hop & _). apply negb_true_iff, bool_decide_false. intros E. rewrite E in Hop. by apply elem_of_nil in Hop. }
  pose proof (start_wave cn 0 (fun _ => False) (fresh stats) Hhonest ltac:(done) (fresh_running stats)) as Hends.
  destruct (start_reads_good (read_operations p) (fun _ => False) (fresh stats)) as (s1 & E1 & F1 & P1 & W1);
    [done | apply (pl_distinct _ _ _ _ _ _ _ Hpl) | by intros ? ? ? ? | by intros fd ?%elem_of_nil | done |].
  assert (startReadsForWave B ps cn 0 (fresh stats) = Returned 0 s1) as Estart.
  { unfold startReadsForWave. rewrite (run_bind _ _ _ _ _ E1), run_inspect, F1, (run_lift _ _ _ _ no_failures_possible). done. }
  rewrite Estart in Hends. destruct Hends as [[Hrun1 Hpos1] Hbusy]. rewrite (run_bind _ _ _ _ _ Estart), (run_bind _ _ _ _ _ (prefetch_calm _ 1 s1 Hcalm)), run_inspect.
  assert (executors_ s1 ≠ []) as Hne by (destruct Hbusy as [? | ?]; [right; exact Hfirst | done | congruence]).
  rewrite run_sassert by (apply Z.ltb_lt; destruct (executors_ s1); [done | cbn [length]; lia]).
  apply (loop_good (started 0)); try done.
  - rewrite P1. unfold parts, fresh. cbn. by rewrite app_nil_r.
  - change (weight (fresh stats)) with 0%nat in W1. lia.
Qed.

End starting.
End complete.

(** ** executePlan *)

Lemma execute_result c addr first rounds stats blocks : (∀ w s, running_wave w s → isReadingFinished p (available_parts_ s) = Ok true →
    ∃ n b, postProcessData c addr B p (available_parts_ s) (buffer s) = Ok (n, b) ∧ take (Z.to_nat n) b = blocks) → checkPlan B p = Ok tt →
  first_wave_reads → honest (connect first) → Forall (fun rd => honest (connect rd)) rounds →
  ∃ stats', match executeReadOperations B ps first rounds (fresh stats) with
    | Returned true _ => executePlan B ps c addr first rounds stats = Returned (Some blocks) stats'
    | Returned false _ => executePlan B ps c addr first rounds stats = Returned None stats'
    | Raised x _ => executePlan B ps c addr first rounds stats = Raised x stats'
    | _ => False
    end.
Proof using HB Hpl Hsmall Hids Hoff Hsized Hloc.
  intros Hpost Hcheck Hfirst Hcn Hrounds. pose proof (operations_run first rounds stats Hfirst Hcn Hrounds) as Hends.
  unfold executePlan. fold (fresh stats). rewrite (run_lift _ _ _ _ Hcheck).
  destruct (executeReadOperations B ps first rounds (fresh stats)) as [fin s | x s | |] eqn:E; [| by erewrite bind_raised; eauto | done..].
  rewrite (run_bind _ _ _ _ _ E). destruct Hends as [[w Hw] Hfin]. destruct fin; [| by eauto]. rewrite run_inspect.
  destruct (Hpost w s Hw (Hfin eq_refl)) as (n & b & Ep & <-). rewrite (run_lift _ _ _ _ Ep). by eauto.
Qed.

End execution.

(** ** Blocks of a chunk *)

Section chunks.
Context (B : Z) (HB : 0 < B <= SFSBLOCKSIZE) (ps : params) (chunk : Z → list byte) (Hsized : sized B chunk).
Context (Hbeyond : ∀ i, SFSBLOCKSINCHUNK <= i → chunk i = replicate (Z.to_nat B) x00).
Context (t first_block count : Z) (available : list Z) (Hfirst : 0 <= first_block) (Hcount : 0 < count) (Hend : first_block + count <= SFSBLOCKSINCHUNK).
Context (Hplan : chunk_plan B t first_block count available (plan_ ps)).
Context (Hids : 0 <= chunk_id_ ps < 2 ^ 64 ∧ 0 <= chunk_version_ ps < 2 ^ 32).
Context (Hloc : ∀ type, type ∈ available → ∃ l, locations ps type = Some l ∧ kFirstECVersion <= chunkserver_version l).

Abbreviation p := (plan_ ps).

Lemma operations_located type op : (type, op) ∈ read_operations p → ∃ l, locations ps type = Some l ∧ kFirstECVersion <= chunkserver_version l.
Proof using Hplan Hloc. intros Hop. apply Hloc, (cp_reads _ _ _ _ _ _ Hplan), list_elem_of_fmap. by exists (type, op). Qed.

Lemma read_offset_positive : 0 <= readOffset p.
Proof using HB Hcount Hplan. unfold readOffset. rewrite (cp_postprocess _ _ _ _ _ _ Hplan). destruct (isStandard t); [done |]. change (zsum _) with (count * B + 0). nia. Qed.

Lemma sizes_small slots : planned B t (Z.quot first_block (getNumberOfDataParts t)) (stripes t first_block count) (getRequiredParts t first_block count) slots p →
  slots <= getNumberOfDataParts t + getNumberOfParityParts t → SFSBLOCKSINCHUNK * B < 2 ^ 31 ∧ read_buffer_size p < 2 ^ 31.
Proof using HB Hfirst Hcount Hend Hplan.
  intros Hpl Hs. unfold SFSBLOCKSINCHUNK, SFSBLOCKSIZE in *. split; [lia |]. rewrite (pl_buffer _ _ _ _ _ _ _ Hpl).
  pose proof (planned_blocks _ _ _ _ _ _ _ Hpl Hs (stripes_bound _ _ _ (cp_valid _ _ _ _ _ _ Hplan) Hfirst Hcount ltac:(lia))). nia.
Qed.

Lemma first_wave_started : first_wave_reads ps.
Proof using Hplan Hcount Hend. apply (cp_some _ _ _ _ _ _ Hplan). lia. Qed.

Lemma plan_checked : checkPlan B p = Ok tt.
Proof using HB Hcount Hplan.
  replace p with (with_postprocess p []) by (unfold with_postprocess; rewrite app_nil_r; by destruct p).
  apply (chunk_plan_checked B ltac:(lia) t first_block count available); [done | by intros x ?%elem_of_nil | done].
Qed.

(** What is read is the range of blocks, whatever the servers and the network do. *)
Lemma chunk_executed allowed c addr first rounds stats : honest B ps chunk allowed (connect first) → Forall (fun rd => honest B ps chunk allowed (connect rd)) rounds →
  ∃ stats', match executeReadOperations B ps first rounds (fresh ps stats) with
    | Returned true _ => executePlan B ps c addr first rounds stats = Returned (Some (blocks_of chunk first_block count)) stats'
    | Returned false _ => executePlan B ps c addr first rounds stats = Returned None stats'
    | Raised x _ => executePlan B ps c addr first rounds stats = Raised x stats'
    | _ => False
    end.
Proof using HB Hsized Hbeyond Hfirst Hcount Hend Hplan Hids Hloc.
  intros Hcn Hrounds. destruct (cp_planned _ _ _ _ _ _ Hplan) as (slots & Hpl & Hs).
  apply (execute_result B ltac:(lia) ps chunk Hsized _ _ _ _ _ Hpl read_offset_positive (sizes_small _ Hpl Hs) Hids operations_located allowed);
    [| exact plan_checked | exact first_wave_started | done..].
  intros w s [Hrun _] Hfin. destruct (chunk_plan_exact c addr B ltac:(lia) chunk Hsized Hbeyond t first_block count available p (available_parts_ s) (buffer s)) as (b & E & Hb); try done.
  - pose proof (ru_parts _ _ _ _ _ _ Hrun) as Hnd. unfold parts in Hnd. by apply NoDup_app in Hnd as (_ & _ & (? & _)%NoDup_app).
  - intros x Hx. apply (ru_started _ _ _ _ _ _ Hrun). unfold parts. rewrite !elem_of_app. by auto.
  - by apply (ru_received _ _ _ _ _ _ Hrun).
  - by exists (count * B), b.
Qed.

(** The first wave is enough to read the blocks. *)
Lemma first_wave_enough l : l ≡ₚ first_wave p → isReadingFinished p l = Ok true.
Proof using Hfirst Hcount Hend Hplan.
  intros Hl. destruct (cp_planned _ _ _ _ _ _ Hplan) as (slots & Hpl & _). pose proof (cp_valid _ _ _ _ _ _ Hplan) as Hv.
  apply (parts_enough B t Hv (getRequiredParts t first_block count) (proj2 (proj2 (pl_parts _ _ _ _ _ _ _ Hpl))) _ (stripes t first_block count) (pl_first _ _ _ _ _ _ _ Hpl) slots p); [done | |].
  - intros x. rewrite Hl. intros ([type op] & -> & [_ Hop]%list_elem_of_filter)%list_elem_of_fmap. apply list_elem_of_fmap. by exists (type, op).
  - rewrite Hl. destruct (cp_first _ _ _ _ _ _ Hplan) as [H | H]; [left | by right]. intros r Hr. rewrite Hl. by apply H.
Qed.

(** Answers with all that is asked for. *)
Definition all_blocks (op : ReadOperation) (a : answer) : Prop := blocks a = op_blocks B op ∧ status a = SAUNAFS_STATUS_OK.

(** When every server of the first wave answers, the plan is executed after so many rounds as
    there are bytes at most. *)
Lemma chunk_execution_finishes c addr first rounds stats fd_of : connected B ps chunk all_blocks (connect first) fd_of → honest B ps chunk all_blocks (connect first) →
  calm (prefetch_connect first) → Forall steady_round rounds → Forall (fun rd => honest B ps chunk all_blocks (connect rd)) rounds →
  (answers ps (connect first) (read_operations p) <= length rounds)%nat →
  ∃ stats', executePlan B ps c addr first rounds stats = Returned (Some (blocks_of chunk first_block count)) stats'.
Proof using HB Hsized Hbeyond Hfirst Hcount Hend Hplan Hids Hloc.
  intros Hcon Hcn Hcalm Hsteady Hrounds Hlen. destruct (cp_planned _ _ _ _ _ _ Hplan) as (slots & Hpl & Hs).
  destruct (operations_good B ltac:(lia) ps chunk Hsized _ _ _ _ _ Hpl read_offset_positive (sizes_small _ Hpl Hs) Hids operations_located all_blocks
    (fun _ _ H => H) first_wave_enough (connect first) fd_of Hcon first rounds stats) as [s' E]; try done; [exact first_wave_started |].
  destruct (chunk_executed all_blocks c addr first rounds stats Hcn Hrounds) as [stats' H]. rewrite E in H. by exists stats'.
Qed.

(** A bound on the bytes of all answers. *)
Definition max_answers : nat := 64 * Z.to_nat (SFSBLOCKSINCHUNK * (B + 32) + 21).

Lemma first_wave_count : (length (first_wave p) <= 64)%nat.
Proof using Hplan.
  destruct (cp_planned _ _ _ _ _ _ Hplan) as (slots & Hpl & _). etransitivity; [apply (submseteq_length _ (part_id t <$> seqZ 0 64)) | by rewrite length_fmap, length_seqZ].
  apply NoDup_submseteq.
  - unfold first_wave. eapply sublist_NoDup; [apply (pl_distinct _ _ _ _ _ _ _ Hpl) |]. apply fmap_sublist, sublist_filter.
  - intros x ([type op] & -> & [_ Hop]%list_elem_of_filter)%list_elem_of_fmap. destruct (pl_ops _ _ _ _ _ _ _ Hpl _ _ Hop) as (q & _ & -> & Hq & _).
    destruct (part_of_range t q Hq). apply list_elem_of_fmap. exists q. split; [done |]. apply elem_of_seqZ. lia.
Qed.

Lemma answers_bound cn fd_of : connected B ps chunk all_blocks cn fd_of → (answers ps cn (read_operations p) <= max_answers)%nat.
Proof using HB Hsized Hfirst Hcount Hend Hplan Hids Hloc.
  intros [Hcon _]. unfold answers. pose proof first_wave_count as Hn. unfold first_wave in Hn. rewrite length_fmap in Hn.
  destruct (cp_planned _ _ _ _ _ _ Hplan) as (slots & Hpl & Hs). transitivity (length (filter (fun e : Z * ReadOperation => wave (snd e) = 0%Z) (read_operations p)) * Z.to_nat (SFSBLOCKSINCHUNK * (B + 32) + 21))%nat; [| unfold max_answers; nia].
  assert (∀ e, e ∈ filter (fun e => wave (snd e) = 0) (read_operations p) → (answer_size ps cn e <= Z.to_nat (SFSBLOCKSINCHUNK * (B + 32) + 21))%nat) as Hle.
  { intros [type op] [Hw Hop]%list_elem_of_filter. destruct (operations_located type op Hop) as (l & El & Hv). destruct (Hcon type op l Hop Hw El) as (ans & a & Ec & Ea & Ha).
    unfold answer_size. cbn [fst snd]. rewrite Ec, El, Ea.
    pose proof (op_answerable B ltac:(lia) ps chunk Hsized _ _ _ _ _ Hpl read_offset_positive (sizes_small _ Hpl Hs) Hids all_blocks type op l a Hop Hv Ha) as Han.
    destruct Ha as (_ & Hb & _). pose proof (answer_length B ltac:(unfold SFSBLOCKSIZE in *; lia) _ _ _ Han ltac:(lia)) as E.
    destruct (operation_bounds B ltac:(lia) _ _ _ _ _ _ Hpl type op Hop) as (_ & ? & ? & ? & _). assert (op_blocks B op <= SFSBLOCKSINCHUNK) by (apply Z.div_le_upper_bound; lia). nia. }
  induction (filter _ _) as [| e l IH]; [done |]. rewrite fmap_cons. cbn [sum_list_with length]. unfold id at 1. pose proof (Hle e ltac:(left)).
  specialize (IH ltac:(cbn in Hn; lia) ltac:(intros; apply Hle; by right)). lia.
Qed.

End chunks.
