(* ===== verification/ChunkReader.v ===== *)
(** * Reading of files by the client

    src/mount/chunk_reader.cc and [read_to_buffer] of src/mount/readdata.cc: the master
    server says where the parts of a chunk are, the best server of every part is chosen, the
    blocks are planned and read, and a range of a file is read chunk by chunk with retries.
    What the master, the servers, the clock and the memory of the system do during a try is
    its environment ([attempt]). *)

From Stdlib Require Import Strings.Byte QArith.
From S2P Require Import Prelude FlatContainers Serialization Packets Crc GaloisField ErasureCode ReedSolomon SliceTraits ReadPlans ReadPlanFacts PostProcess PlanBuilding ChunkReads ChunkRecovery ReadExecution PlanExecution.
Open Scope Z_scope.

Definition SAUNAFS_ERROR_ENOENT : Z := 3.
Definition SAUNAFS_ERROR_IO : Z := 22.
Definition SAUNAFS_ERROR_EBADF : Z := 54.

(** ** ChunkReader *)

Record ChunkLocationInfo := {
  chunkId : Z;
  version : Z;
  fileLength : Z;
  info_locations : list ChunkTypeWithAddress;
}.

Definition isEmptyChunk (i : ChunkLocationInfo) : bool := chunkId i =? 0.

(** The operator [==] of ChunkTypeWithAddress. *)
Definition same_part (x y : ChunkTypeWithAddress) : bool := (address x =? address y) && (chunk_type x =? chunk_type y).

Module ChunkReader.

Record t := mk {
  inode_ : Z;
  index_ : Z;
  location_ : option ChunkLocationInfo;
  planner_ : ChunkReadPlanner;
  available_parts_ : list Z;
  chunk_type_locations_ : gmap Z ChunkTypeWithAddress;
  crcErrors_ : list ChunkTypeWithAddress;
  chunkAlreadyRead : bool;
}.

Definition new : t := mk 0 0 None new_ChunkReadPlanner [] ∅ [] false.

Definition set_chunk (inode index : Z) (errors : list ChunkTypeWithAddress) (r : t) : t :=
  mk inode index (location_ r) (planner_ r) (available_parts_ r) (chunk_type_locations_ r) errors (chunkAlreadyRead r).
Definition set_location (i : ChunkLocationInfo) (r : t) : t :=
  mk (inode_ r) (index_ r) (Some i) (planner_ r) (available_parts_ r) (chunk_type_locations_ r) (crcErrors_ r) false.
Definition set_parts (parts : list Z) (locs : gmap Z ChunkTypeWithAddress) (planner : ChunkReadPlanner) (r : t) : t :=
  mk (inode_ r) (index_ r) (location_ r) planner parts locs (crcErrors_ r) (chunkAlreadyRead r).
Definition set_planner (planner : ChunkReadPlanner) (r : t) : t := set_parts (available_parts_ r) (chunk_type_locations_ r) planner r.
Definition set_read (r : t) : t :=
  mk (inode_ r) (index_ r) (location_ r) (planner_ r) (available_parts_ r) (chunk_type_locations_ r) (crcErrors_ r) true.
Definition push_error (x : ChunkTypeWithAddress) (r : t) : t :=
  mk (inode_ r) (index_ r) (location_ r) (planner_ r) (available_parts_ r) (chunk_type_locations_ r) (crcErrors_ r ++ [x]) (chunkAlreadyRead r).

End ChunkReader.
Import ChunkReader (inode_, index_, location_, planner_, chunk_type_locations_, crcErrors_, chunkAlreadyRead).

(** The environment of a try. *)
Record attempt := {
  located : Z → Z → exception + ChunkLocationInfo;
  defect_expired : Z → bool;
  memory_max : Z;
  memory_available : Z;
  first_round : round;
  rounds_ : list round;
}.

(** The reader, the statistics, the buffer and [gUsedReadCacheMemory]. *)
Record client := mk_client {
  reader : ChunkReader.t;
  client_stats : ChunkserverStats.t;
  read_buffer : list byte;
  used_memory : Z;
}.

Definition with_reader f c := mk_client (f (reader c)) (client_stats c) (read_buffer c) (used_memory c).
Definition with_stats st c := mk_client (reader c) st (read_buffer c) (used_memory c).
Definition append_bytes l c := mk_client (reader c) (client_stats c) (read_buffer c ++ l) (used_memory c).
Definition resize_buffer n c := mk_client (reader c) (client_stats c) (resize n (read_buffer c)) (used_memory c).
Definition with_memory f c := mk_client (reader c) (client_stats c) (read_buffer c) (f (used_memory c)).

(** The choice of a location for every part. *)
Record choice := mk_choice { chosen : gmap Z ChunkTypeWithAddress; best_scores : gmap Z Q; parts_ : list Z }.

Definition choose (expired : Z → bool) (stats : ChunkserverStats.t) (errors : list ChunkTypeWithAddress) (ch : choice) (l : ChunkTypeWithAddress) : choice :=
  if existsb (fun e => same_part e l) errors then ch
  else
    let score := ChunkserverStats.score (expired (address l)) (stats (address l)) in
    match chosen ch !! chunk_type l with
    | None => mk_choice (<[chunk_type l := l]> (chosen ch)) (<[chunk_type l := score]> (best_scores ch)) (parts_ ch ++ [chunk_type l])
    | Some _ =>
        if negb (Qle_bool score (default 0%Q (best_scores ch !! chunk_type l)))
        then mk_choice (<[chunk_type l := l]> (chosen ch)) (<[chunk_type l := score]> (best_scores ch)) (parts_ ch)
        else ch
    end.

Definition chunk_setScores (scores : gmap Z Q) (s : ChunkReadPlanner) : ChunkReadPlanner := set_planner (setScores scores (read_planner_ s)) s.

Definition prepareReadingChunk (env : attempt) (inode index : Z) (force_prepare : bool) : exec client () :=
  r ←{ reader };
  let same := (inode =? inode_ r) && (index =? index_ r) in
  if same && negb force_prepare then mret ()
  else
    _ ← modify (with_reader (ChunkReader.set_chunk inode index (if same then crcErrors_ r else [])));
    match located env inode index with
    | inl x => raise x
    | inr info =>
        _ ← modify (with_reader (ChunkReader.set_location info));
        if isEmptyChunk info then mret ()
        else
          c ←{ fun c => c };
          let ch := foldl (choose (defect_expired env) (client_stats c) (crcErrors_ (reader c))) (mk_choice ∅ ∅ []) (info_locations info) in
          modify (with_reader (fun r => ChunkReader.set_parts (parts_ ch) (chosen ch) (chunk_setScores (best_scores ch) (planner_ r)) r))
    end.

Section reading.
Context (overuse : Z → Z) (cp : cpu) (addr : Z) (B : Z).

Definition SFSCHUNKSIZE : Z := SFSBLOCKSINCHUNK * B.

(** The bytes before the end of the file. *)
Definition getBytesToBeReadFromCS (index offset size fileLength : Z) : Z :=
  let offsetInFile := u64 (index * SFSCHUNKSIZE + offset) in
  if fileLength <=? offsetInFile then 0
  else if fileLength <? u64 (offsetInFile + size) then u32 (fileLength - offsetInFile)
  else size.

(** The end of readData, after the execution of the plan. *)
Definition plan_executed (availableSize : Z) (o : outcome ChunkserverStats.t (option (list byte))) : exec client (option Z) :=
  c ←{ fun c => c };
  let initialBufferSize := u32 (Z.of_nat (length (read_buffer c))) in
  match o with
  | Returned (Some l) st =>
      _ ← modify (with_stats st);
      _ ← modify (append_bytes l);
      _ ← modify (resize_buffer (u32 (initialBufferSize + availableSize)));
      mret (Some availableSize)
  | Returned None st => _ ← modify (with_stats st); mret None
  | Raised (ChunkCrcException server type) st =>
      _ ← modify (with_stats st);
      _ ← modify (with_reader (ChunkReader.push_error {| address := server; chunk_type := type; chunkserver_version := 0 |}));
      raise (ChunkCrcException server type)
  | Raised x st => _ ← modify (with_stats st); raise x
  | Aborted => fun _ => Aborted
  | Undefined => fun _ => Undefined
  end.

(** The number of bytes read, unless the rounds end before. *)
Definition readData (env : attempt) (prefetchXorStripes : bool) (offset size : Z) : exec client (option Z) :=
  if size =? 0 then mret (Some 0)
  else
    _ ← sassert (u32 (offset + size) <=? SFSCHUNKSIZE);
    r ←{ reader };
    match location_ r with
    | None => fun _ => Undefined
    | Some info =>
        let availableSize := getBytesToBeReadFromCS (index_ r) offset size (fileLength info) in
        if availableSize =? 0 then mret (Some 0)
        else if isEmptyChunk info then _ ← modify (append_bytes (replicate (Z.to_nat availableSize) x00)); mret (Some availableSize)
        else
          let firstBlockToRead := offset / B in
          let blockToReadCount := u32 (availableSize + B - 1) / B in
          planner ← lift (chunk_prepare firstBlockToRead blockToReadCount (ChunkReader.available_parts_ r) (planner_ r));
          _ ← modify (with_reader (ChunkReader.set_planner planner));
          if negb (is_reading_possible_ planner) then raise NoValidCopiesReadException
          else
            '(planner, p) ← lift (buildPlan overuse B planner);
            _ ← modify (with_reader (ChunkReader.set_planner planner));
            let ps := {| locations := fun type => chunk_type_locations_ r !! type; chunk_id_ := chunkId info; chunk_version_ := version info; plan_ := p;
                         disable_prefetch := negb prefetchXorStripes || chunkAlreadyRead r || negb (size =? availableSize) |} in
            _ ← modify (with_reader ChunkReader.set_read);
            st ←{ client_stats };
            plan_executed availableSize (executePlan B ps cp addr (first_round env) (rounds_ env) st)
    end.

(** ** read_to_buffer *)

Definition readShouldWaitForSystemMemory (env : attempt) (used bytesToReadLeft : Z) : bool :=
  (u64 (memory_max env - used) <? bytesToReadLeft) || (memory_available env <? bytesToReadLeft).

Definition increaseUsedReadCacheMemory (n : Z) : exec client () := modify (with_memory (fun used => u64 (used + n))).
Definition decreaseUsedReadCacheMemory (n : Z) : exec client () := modify (with_memory (fun used => u64 (used - n))).

(** The local variables. *)
Record locals := mk_locals {
  current_offset : Z;
  bytes_to_read : Z;
  bytes_read : Z;
  try_counter : Z;
  prepared_inode : Z;
  prepared_chunk_id : Z;
  force_prepare : bool;
  total_read_cache_bytes_to_reserve : Z;
  last_read_cache_bytes_to_reserve : Z;
}.

Definition set_prepared (inode chunk_id : Z) (v : locals) : locals :=
  mk_locals (current_offset v) (bytes_to_read v) (bytes_read v) (try_counter v) inode chunk_id false
    (total_read_cache_bytes_to_reserve v) (last_read_cache_bytes_to_reserve v).
Definition reserve (n : Z) (v : locals) : locals :=
  mk_locals (current_offset v) (bytes_to_read v) (bytes_read v) (try_counter v) (prepared_inode v) (prepared_chunk_id v) (force_prepare v)
    (u32 (total_read_cache_bytes_to_reserve v + n)) n.
Definition advance (n : Z) (v : locals) : locals :=
  mk_locals (u64 (current_offset v + n)) (u64 (bytes_to_read v - n)) (u64 (bytes_read v + n)) (try_counter v) (prepared_inode v) (prepared_chunk_id v) (force_prepare v)
    (total_read_cache_bytes_to_reserve v) (last_read_cache_bytes_to_reserve v).
Definition clear_tries (v : locals) : locals :=
  mk_locals (current_offset v) (bytes_to_read v) (bytes_read v) 0 (prepared_inode v) (prepared_chunk_id v) (force_prepare v)
    (total_read_cache_bytes_to_reserve v) (last_read_cache_bytes_to_reserve v).
Definition retry (v : locals) : locals :=
  mk_locals (current_offset v) (bytes_to_read v) (bytes_read v) (u32 (try_counter v + 1)) (prepared_inode v) (prepared_chunk_id v) true
    (u32 (total_read_cache_bytes_to_reserve v - last_read_cache_bytes_to_reserve v)) (last_read_cache_bytes_to_reserve v).

Definition session : Type := client * locals.

Definition on_client {A} (m : exec client A) : exec session A := fun '(c, v) =>
  match m c with
  | Returned x c => Returned x (c, v)
  | Raised x c => Raised x (c, v)
  | Aborted => Aborted
  | Undefined => Undefined
  end.
Definition on_locals (f : locals → locals) : exec session () := modify (fun '(c, v) => (c, f v)).

Context (prefetchXorStripes : bool) (maxRetries : Z) (inode : Z).

(** The try block: whether the end of the file was reached, unless the rounds end before. *)
Definition try_read (env : attempt) : exec session (option bool) :=
  v ←{ snd };
  let chunk_id := u32 (current_offset v / SFSCHUNKSIZE) in
  _ ← (if force_prepare v || negb (prepared_inode v =? inode) || negb (prepared_chunk_id v =? chunk_id) then
         _ ← on_client (prepareReadingChunk env inode chunk_id (force_prepare v));
         on_locals (set_prepared inode chunk_id)
       else mret ());
  let offset_of_chunk := u64 (chunk_id * SFSCHUNKSIZE) in
  let offset_in_chunk := u32 (current_offset v - offset_of_chunk) in
  let room_in_chunk := u32 (SFSCHUNKSIZE - offset_in_chunk) in
  let size_in_chunk := if bytes_to_read v <? room_in_chunk then u32 (bytes_to_read v) else room_in_chunk in
  c ←{ fst };
  match location_ (reader c) with
  | None => fun _ => Undefined
  | Some info =>
      let bytes_to_reserve := getBytesToBeReadFromCS (index_ (reader c)) offset_in_chunk size_in_chunk (fileLength info) in
      if readShouldWaitForSystemMemory env (used_memory c) bytes_to_reserve then raise RecoverableReadException
      else
        _ ← on_client (increaseUsedReadCacheMemory bytes_to_reserve);
        _ ← on_locals (reserve bytes_to_reserve);
        n ← on_client (readData env prefetchXorStripes offset_in_chunk size_in_chunk);
        match n with
        | None => mret None
        | Some n =>
            _ ← on_locals (advance n);
            if n <? size_in_chunk then mret (Some true)
            else _ ← on_locals clear_tries; mret (Some false)
        end
  end.

(** An exception that is not recovered from, or one too many. *)
Definition give_back (status : Z) : exec session (option Z) :=
  v ←{ snd };
  _ ← on_client (decreaseUsedReadCacheMemory (total_read_cache_bytes_to_reserve v));
  mret (Some status).

(** The loop; the status, unless the tries end before. *)
Fixpoint read_loop (tries : list attempt) : exec session (option Z) :=
  v ←{ snd };
  if bytes_to_read v =? 0 then mret (Some SAUNAFS_STATUS_OK)
  else
    match tries with
    | [] => mret None
    | env :: tries => fun s =>
        match try_read env s with
        | Returned None s => Returned None s
        | Returned (Some true) s => Returned (Some SAUNAFS_STATUS_OK) s
        | Returned (Some false) s => read_loop tries s
        | Raised (UnrecoverableReadException status) s => give_back (if status =? SAUNAFS_ERROR_ENOENT then SAUNAFS_ERROR_EBADF else SAUNAFS_ERROR_IO) s
        | Raised _ s =>
            if maxRetries <? try_counter (snd s) then give_back SAUNAFS_ERROR_IO s
            else
              (_ ← on_client (decreaseUsedReadCacheMemory (last_read_cache_bytes_to_reserve (snd s)));
               _ ← on_locals retry;
               read_loop tries) s
        | Aborted => Aborted
        | Undefined => Undefined
        end
    end.

(** [refresh]: the locations are to be refreshed. *)
Definition read_to_buffer (refresh : bool) (offset size : Z) (tries : list attempt) : exec client (option Z) := fun c =>
  match read_loop tries (c, mk_locals offset size 0 0 0 0 refresh 0 0) with
  | Returned x (c, _) => Returned x c
  | Raised x (c, _) => Raised x c
  | Aborted => Aborted
  | Undefined => Undefined
  end.

End reading.
