(* ===== verification/FileReads.v ===== *)
(** * What reading a file returns

    The bytes that [read_to_buffer] appends to the buffer are those of the file, whatever
    fails and however often it retries; and when nothing fails it ends. *)

From Stdlib Require Import Strings.Byte QArith.
From S2P Require Import Prelude FlatContainers Serialization Packets Crc GaloisField ErasureCode ReedSolomon SliceTraits ReadPlans ReadPlanFacts PostProcess PlanBuilding ChunkReads ChunkRecovery ReadExecution PlanExecution ExecutionFacts ChunkReader.
Import ChunkReader (inode_, index_, location_, planner_, chunk_type_locations_, crcErrors_, chunkAlreadyRead).
Import SliceType SliceTraits.
Open Scope Z_scope.

(** A call does not fail: it returns with a result and a state, or throws in a state, as
    described. *)
Definition outcomes {S A} (Q : A → S → Prop) (E : S → Prop) (o : outcome S A) : Prop :=
  match o with Returned a s => Q a s | Raised _ s => E s | Aborted | Undefined => False end.

Lemma outcomes_bind {S R A} (Q : R → S → Prop) (Q' : A → S → Prop) (E : S → Prop) (m : exec S R) (k : R → exec S A) s :
  outcomes Q E (m s) → (∀ x s', Q x s' → outcomes Q' E (k x s')) → outcomes Q' E ((x ← m; k x) s).
Proof. unfold mbind, exec_bind. intros H Hk. destruct (m s); try done. by apply Hk. Qed.

(** Enough parts of a slice. *)
Definition enough_parts (types : list Z) : Prop := ∃ t l, isValid t = true ∧ NoDup l ∧ (∀ x, x ∈ l → x ∈ types ∧ ChunkPartType.getSliceType x = t) ∧
  getNumberOfDataParts t <= Z.of_nat (length l).

Lemma enough_readable types first_block count : valid_parts types → enough_parts types →
  ∃ x, x ∈ types ∧ readable (ChunkPartType.getSliceType x) first_block count types.
Proof.
  intros Hv (t & l & Ht & Hnd & Hl & Hlen). pose proof (number_of_parts_bounds t Ht) as [Hk _]. destruct l as [| x l']; [cbn in Hlen; lia |].
  destruct (Hl x) as [Hx Ex]; [left |]. exists x. split; [done |]. rewrite Ex. right.
  set (all := remove_dups (filter (fun x => ChunkPartType.getSliceType x = t) types)).
  assert (∀ y, y ∈ all ↔ y ∈ types ∧ ChunkPartType.getSliceType y = t) as Hall by (intros y; unfold all; rewrite elem_of_remove_dups, list_elem_of_filter; tauto).
  rewrite (bits_count t Ht types Hv all (NoDup_remove_dups _) Hall). enough (length (x :: l') <= length all)%nat by lia.
  apply submseteq_length, NoDup_submseteq; [done |]. intros y Hy. apply Hall. by apply Hl.
Qed.

(** ** Files, chunks and servers *)

Section files.
Context (overuse : Z → Z) (cp : cpu) (addr : Z) (B : Z) (HB : 0 < B <= SFSBLOCKSIZE).

(** The file, its chunks, and what the servers store under the ids of chunks. *)
Context (file : Z → byte) (L : Z) (inode : Z) (store : Z → Z → list byte).

Definition file_bytes (from n : Z) : list byte := file <$> seqZ from n.

Definition chunk_block (i j : Z) : list byte :=
  if j <? SFSBLOCKSINCHUNK then file_bytes (i * SFSCHUNKSIZE B + j * B) B else replicate (Z.to_nat B) x00.

(** What the master server says of chunk [i]. *)
Record describes (i : Z) (info : ChunkLocationInfo) : Prop := {
  de_length : fileLength info = L;
  de_ids : 0 <= chunkId info < 2 ^ 64 ∧ 0 <= version info < 2 ^ 32;
  de_empty : isEmptyChunk info = true → ∀ x, i * SFSCHUNKSIZE B <= x < (i + 1) * SFSCHUNKSIZE B → file x = x00;
  de_stored : isEmptyChunk info = false → ∀ j, store (chunkId info) j = chunk_block i j;
  de_parts : ∀ l, l ∈ info_locations info → kFirstECVersion <= chunkserver_version l ∧ ∃ t q, chunk_type l = part_id t q ∧ part_of t q;
}.

(** A server answers a request with blocks of the part, perhaps not all, and a status. *)
Definition serves (allowed : ReadOperation → answer → Prop) (r : request) (bytes : list byte) : Prop :=
  ∃ a, bytes = answer_from B r a 0 ∧
    (∀ i, data a i = part_block B (store (chunkId_ r)) (ChunkPartType.getSliceType (chunkType_ r)) (ChunkPartType.getSlicePart (chunkType_ r)) (request_offset (readOperation_ r) / B + i)) ∧
    0 <= blocks a <= op_blocks B (readOperation_ r) ∧ 0 <= status a < 2 ^ 8 ∧ allowed (readOperation_ r) a.

Definition served (allowed : ReadOperation → answer → Prop) (cn : Z → connection) : Prop := ∀ type fd expired written ans, cn type = Connected fd expired written ans →
  ∀ r, chunkType_ r = type → 0 <= request_size (readOperation_ r) → serves allowed r (ans r).

(** What is true of the master and of the servers in every try. *)
Record truthful (allowed : ReadOperation → answer → Prop) (env : attempt) : Prop := {
  tr_located : ∀ i info, 0 <= i < 2 ^ 32 → located env inode i = inr info → describes i info;
  tr_first : served allowed (connect (first_round env));
  tr_rounds : Forall (fun rd => served allowed (connect rd)) (rounds_ env);
}.

Lemma chunk_block_sized i : sized B (chunk_block i).
Proof using HB. intros j. unfold chunk_block. destruct (j <? _); [unfold file_bytes; rewrite length_fmap, length_seqZ; lia | rewrite length_replicate; lia]. Qed.

Lemma chunk_block_beyond i j : SFSBLOCKSINCHUNK <= j → chunk_block i j = replicate (Z.to_nat B) x00.
Proof using. intros Hj. unfold chunk_block. by rewrite (proj2 (Z.ltb_ge _ _)). Qed.

Lemma file_bytes_app from m n : 0 <= m → 0 <= n → file_bytes from (m + n) = file_bytes from m ++ file_bytes (from + m) n.
Proof using. intros Hm Hn. unfold file_bytes. by rewrite seqZ_app, fmap_app. Qed.

(** Blocks of the chunk are bytes of the file. *)
Lemma blocks_of_file i j n : 0 <= j → 0 <= n → j + n <= SFSBLOCKSINCHUNK → blocks_of (chunk_block i) j n = file_bytes (i * SFSCHUNKSIZE B + j * B) (n * B).
Proof using HB.
  intros Hj Hn. rewrite <- (Z2Nat.id n) by done. induction (Z.to_nat n) as [| k IH]; intros Hend; [done |].
  rewrite Nat2Z.inj_succ in *. unfold Z.succ. rewrite blocks_of_app, blocks_of_1, IH, Z.mul_add_distr_r, Z.mul_1_l, file_bytes_app by nia. f_equal.
  unfold chunk_block. rewrite (proj2 (Z.ltb_lt _ _)) by lia. f_equal. lia.
Qed.

(** ** Preparation *)

(** The locations that are chosen. *)
Record good_choice (locs : gmap Z ChunkTypeWithAddress) (parts : list Z) : Prop := {
  gc_valid : valid_parts parts;
  gc_located : ∀ type, type ∈ parts → ∃ l, locs !! type = Some l ∧ kFirstECVersion <= chunkserver_version l;
}.

Lemma choose_good expired stats errors locs : (∀ l, l ∈ locs → kFirstECVersion <= chunkserver_version l ∧ ∃ t q, chunk_type l = part_id t q ∧ part_of t q) →
  ∀ ch, good_choice (chosen ch) (parts_ ch) →
  let ch' := foldl (choose expired stats errors) ch locs in good_choice (chosen ch') (parts_ ch').
Proof using.
  induction locs as [| l locs IH]; intros Hlocs ch Hch; [done |]. cbn [foldl]. apply IH; [intros l' Hl'; apply Hlocs; by right |].
  destruct (Hlocs l) as (Hv & Ht); [left |]. destruct Hch as [H1 H2]. unfold choose.
  destruct (existsb _ errors); [done |]. assert (∀ type, type ∈ parts_ ch ∨ type = chunk_type l → ∃ l', <[chunk_type l := l]> (chosen ch) !! type = Some l' ∧ kFirstECVersion <= chunkserver_version l') as Hin.
  { intros type Htype. destruct (decide (chunk_type l = type)) as [<- | Hne]; [exists l; by rewrite lookup_insert_eq |]. rewrite lookup_insert_ne by done. apply H2. destruct Htype as [? | ->]; [done | by destruct Hne]. }
  destruct (chosen ch !! chunk_type l); [destruct (negb _); [| done] |]; split; cbn [chosen parts_]; auto.
  - intros x [? | ->%list_elem_of_singleton]%elem_of_app; auto.
  - intros type [? | ->%list_elem_of_singleton]%elem_of_app; auto.
Qed.

(** The reader has located chunk [i]. *)
Record ready (i : Z) (r : ChunkReader.t) : Prop := {
  rd_inode : inode_ r = inode;
  rd_index : index_ r = i;
  rd_location : ∃ info, location_ r = Some info ∧ describes i info ∧
    (isEmptyChunk info = false → good_choice (chunk_type_locations_ r) (ChunkReader.available_parts_ r));
}.

(** Nothing but the reader and the statistics has changed. *)
Definition same_buffer (c c' : client) : Prop := read_buffer c' = read_buffer c ∧ used_memory c' = used_memory c.

Lemma prepare_ready allowed env i force c : 0 <= i < 2 ^ 32 → truthful allowed env → (force = false → inode_ (reader c) = inode → ready (index_ (reader c)) (reader c)) →
  outcomes (fun _ c' => ready i (reader c') ∧ same_buffer c c') (same_buffer c) (prepareReadingChunk env inode i force c).
Proof using.
  intros Hi Henv Hready. unfold prepareReadingChunk. rewrite run_inspect. set (same := (inode =? inode_ _) && _).
  destruct (same && negb force) eqn:E.
  { apply andb_true_iff in E as [[->%Z.eqb_eq ->%Z.eqb_eq]%andb_true_iff ->%negb_true_iff]. split; [by apply Hready | done]. }
  rewrite run_modify. destruct (located env inode i) as [x | info] eqn:El; [done |]. rewrite run_modify. pose proof (tr_located _ _ Henv _ _ Hi El) as Hinfo.
  destruct (isEmptyChunk info) eqn:Ee.
  - split; [| done]. split; [done.. |]. exists info. split; [done |]. split; [done |]. by rewrite Ee.
  - rewrite run_inspect. split; [| done]. split; [done.. |]. exists info. split; [done |]. split; [done |]. intros _.
    apply choose_good; [apply (de_parts _ _ Hinfo) |]. split; [by intros x ?%elem_of_nil | by intros x ?%elem_of_nil].
Qed.

(** Without checksum errors every part is available. *)
Lemma choose_all expired stats locs : ∀ ch, (∀ type, is_Some (chosen ch !! type) → type ∈ parts_ ch) →
  let ch' := foldl (choose expired stats []) ch locs in
  (∀ x, x ∈ parts_ ch → x ∈ parts_ ch') ∧ ∀ l, l ∈ locs → chunk_type l ∈ parts_ ch'.
Proof using.
  induction locs as [| l locs IH]; intros ch Hch; [split; [done |]; by intros l ?%elem_of_nil |]. cbn [foldl].
  assert ((∀ x, x ∈ parts_ ch → x ∈ parts_ (choose expired stats [] ch l)) ∧ chunk_type l ∈ parts_ (choose expired stats [] ch l) ∧
    ∀ type, is_Some (chosen (choose expired stats [] ch l) !! type) → type ∈ parts_ (choose expired stats [] ch l)) as (H1 & H2 & H3).
  { unfold choose. cbn [existsb]. destruct (chosen ch !! chunk_type l) as [l' |] eqn:E.
    - assert (chunk_type l ∈ parts_ ch) as Hl by (apply Hch; by rewrite E). destruct (negb _); [| done]. cbn [chosen parts_]. split; [done |]. split; [done |].
      intros type. rewrite lookup_insert_is_Some. intros [<- | [_ ?]]; auto.
    - cbn [chosen parts_]. split; [intros x Hx; apply elem_of_app; by left |]. split; [apply elem_of_app; right; left |].
      intros type. rewrite lookup_insert_is_Some, elem_of_app, list_elem_of_singleton. intros [<- | [_ ?]]; auto. }
  destruct (IH _ H3) as [H4 H5]. split; [auto |]. intros l' [-> | Hl']%elem_of_cons; auto.
Qed.

Lemma prepare_completes env i force c info : located env inode i = inr info → describes i info → ¬ (inode_ (reader c) = inode ∧ index_ (reader c) = i) →
  ∃ c', prepareReadingChunk env inode i force c = Returned () c' ∧ ready i (reader c') ∧ same_buffer c c' ∧ location_ (reader c') = Some info ∧
    (isEmptyChunk info = false → ∀ l, l ∈ info_locations info → chunk_type l ∈ ChunkReader.available_parts_ (reader c')).
Proof using.
  intros El Hinfo Hnew. unfold prepareReadingChunk. rewrite run_inspect. replace ((inode =? inode_ (reader c)) && (i =? index_ (reader c))) with false.
  2: { symmetry. apply not_true_is_false. intros [?%Z.eqb_eq ?%Z.eqb_eq]%andb_true_iff. by apply Hnew. }
  cbn [andb]. rewrite run_modify, El, run_modify. destruct (isEmptyChunk info) eqn:Ee.
  - eexists. split; [done |]. split; [| done]. split; [done.. |]. exists info. split; [done |]. split; [done |]. by rewrite Ee.
  - rewrite run_inspect. eexists. split; [done |]. split; [| split; [done |]; split; [done |]].
    + split; [done.. |]. exists info. split; [done |]. split; [done |]. intros _.
      apply choose_good; [apply (de_parts _ _ Hinfo) |]. split; [by intros x ?%elem_of_nil | by intros x ?%elem_of_nil].
    + intros _. apply choose_all. intros type [x Hx]. cbn [chosen] in Hx. by rewrite lookup_empty in Hx.
Qed.

(** ** readData *)

Context (HL : 0 <= L < 2 ^ 64).

(** The bytes of a range that the file has. *)
Definition bytes_there (from n : Z) : Z := Z.max 0 (Z.min n (L - from)).

Lemma available_size i offset size : 0 <= i < 2 ^ 32 → 0 <= offset → 0 <= size → offset + size <= SFSCHUNKSIZE B →
  getBytesToBeReadFromCS B i offset size L = bytes_there (i * SFSCHUNKSIZE B + offset) size.
Proof using HB HL.
  intros Hi Ho Hs Hend. assert (0 < SFSCHUNKSIZE B <= 2 ^ 26) as HC by (unfold SFSCHUNKSIZE, SFSBLOCKSINCHUNK, SFSBLOCKSIZE in *; lia).
  assert (0 <= i * SFSCHUNKSIZE B <= (2 ^ 32 - 1) * 2 ^ 26) as Hm by nia. unfold getBytesToBeReadFromCS, bytes_there. cbv zeta.
  rewrite (wrapu_small 64 (_ + offset)) by lia. destruct (Z.leb_spec L (i * SFSCHUNKSIZE B + offset)); [lia |].
  rewrite wrapu_small by lia. destruct (Z.ltb_spec L (i * SFSCHUNKSIZE B + offset + size)); [| lia]. rewrite wrapu_small; lia.
Qed.

(** A try in which all servers answer completely, and there is time enough. *)
Record good (env : attempt) (fd_of : Z → Z) : Prop := {
  go_truthful : truthful (all_blocks B) env;
  go_connected : ∀ type, ∃ ans, connect (first_round env) type = Connected (fd_of type) false 34 ans;
  go_distinct : ∀ type type', fd_of type = fd_of type' → type = type';
  go_calm : calm (prefetch_connect (first_round env));
  go_steady : Forall steady_round (rounds_ env);
  go_rounds : (max_answers B <= length (rounds_ env))%nat;
}.

Section read.
Context (i : Z) (Hi : 0 <= i < 2 ^ 32) (offset size : Z) (Hoffset : 0 <= offset) (Haligned : (B | offset)) (Hsize : 0 < size) (Hend : offset + size <= SFSCHUNKSIZE B).
Context (prefetch : bool) (env : attempt).

Abbreviation n := (bytes_there (i * SFSCHUNKSIZE B + offset) size).
Abbreviation first_block := (offset / B).
Abbreviation count := ((n + B - 1) / B).

Lemma blocks_range : 0 < n → 0 <= first_block ∧ first_block * B = offset ∧ 0 < count ∧ n <= count * B ∧ first_block + count <= SFSBLOCKSINCHUNK.
Proof using HB Hoffset Haligned Hsize Hend.
  intros Hn. assert (n <= size) as Hle by (unfold bytes_there; lia). destruct Haligned as [k Ek]. assert (offset / B = k) as -> by (rewrite Ek; apply Z.div_mul; lia).
  pose proof Hend as Hend'. unfold SFSCHUNKSIZE in Hend'. assert (0 <= k) by nia. assert (0 < count) by (apply Z.div_str_pos; lia).
  pose proof (Z.mul_div_le (n + B - 1) B ltac:(lia)). pose proof (Z.mod_pos_bound (n + B - 1) B ltac:(lia)). pose proof (Z.div_mod (n + B - 1) B ltac:(lia)).
  split_and!; try lia. assert ((n + B - 1) / B < SFSBLOCKSINCHUNK - k + 1); [apply Z.div_lt_upper_bound; nia | lia].
Qed.

(** The plan that is executed. *)
Record read_plan (c : client) (info : ChunkLocationInfo) (t : Z) (ps : params) : Prop := {
  rp_plan : chunk_plan B t first_block count (ChunkReader.available_parts_ (reader c)) (plan_ ps);
  rp_id : chunk_id_ ps = chunkId info;
  rp_version : chunk_version_ ps = version info;
  rp_locations : ∀ type, type ∈ ChunkReader.available_parts_ (reader c) → ∃ l, locations ps type = Some l ∧ kFirstECVersion <= chunkserver_version l;
}.

Lemma read_planned c info : ready i (reader c) → location_ (reader c) = Some info → isEmptyChunk info = false → 0 < n →
  ∃ c1, ready i (reader c1) ∧ same_buffer c c1 ∧ client_stats c1 = client_stats c ∧
    ((readData overuse cp addr B env prefetch offset size c = Raised NoValidCopiesReadException c1 ∧
      ¬ ∃ x, x ∈ ChunkReader.available_parts_ (reader c) ∧ readable (ChunkPartType.getSliceType x) first_block count (ChunkReader.available_parts_ (reader c))) ∨
     ∃ t ps, read_plan c info t ps ∧
       readData overuse cp addr B env prefetch offset size c = plan_executed n (executePlan B ps cp addr (first_round env) (rounds_ env) (client_stats c)) c1).
Proof using HB HL Hi Hoffset Haligned Hsize Hend.
  intros [R1 R2 (info' & El & Hinfo & Hch)] El' Ee Hn. rewrite El in El'. injection El' as ->. specialize (Hch Ee). destruct (blocks_range Hn) as (Hf & Ef & Hc & Hnc & Hfc).
  assert (SFSCHUNKSIZE B <= 2 ^ 26) as HC by (unfold SFSCHUNKSIZE, SFSBLOCKSINCHUNK, SFSBLOCKSIZE in *; lia). assert (n <= size) as Hle by (unfold bytes_there; lia).
  unfold readData. rewrite (proj2 (Z.eqb_neq size 0)) by lia. rewrite run_sassert by (apply Z.leb_le; rewrite wrapu_small; lia).
  rewrite run_inspect, El, R2, (de_length _ _ Hinfo), available_size by lia. rewrite (proj2 (Z.eqb_neq n 0)), Ee by lia.
  rewrite wrapu_small by (unfold SFSBLOCKSIZE in *; lia).
  destruct (chunk_prepare_spec first_block count Hf Hc _ (gc_valid _ _ Hch) (planner_ (reader c))) as (s1 & E1 & Hpos & Hprep).
  rewrite (run_lift _ _ _ _ E1), run_modify. destruct (is_reading_possible_ s1); cbn [negb].
  - destruct (Hprep eq_refl) as (t & Ht). destruct (buildPlan_spec B ltac:(lia) overuse t first_block count _ s1 ltac:(lia) Hc (gc_valid _ _ Hch) Ht) as (s2 & p & E2 & Hp).
    rewrite (run_lift _ _ _ _ E2). rewrite !run_modify, run_inspect. eexists. split; cycle 1; [split; [| split; [| right; eexists t, _; split; [| done]]] |]; try done.
    + split; [done.. |]. apply (gc_located _ _ Hch).
    + split; [done.. |]. exists info. done.
  - eexists. split; cycle 1; [split; [| split; [| left; split; [done |]]] |]; try done.
    + rewrite <- Hpos. done.
    + split; [done.. |]. exists info. done.
Qed.

Lemma served_honest allowed cn c info t ps : 0 < n → read_plan c info t ps → served allowed cn → honest B ps (store (chunkId info)) allowed cn.
Proof using HB Hoffset Haligned Hsize Hend.
  intros Hn Hps Hcn type op l fd expired written ans Hop El Ec. destruct (blocks_range Hn) as (Hf & Ef & Hc & Hnc & Hfc).
  destruct (cp_planned _ _ _ _ _ _ (rp_plan _ _ _ _ Hps)) as (slots & Hpl & _).
  destruct (op_facts B ltac:(lia) ps _ _ _ _ _ Hpl type op Hop) as (_ & _ & _ & _ & _ & _ & _ & Hs & _).
  destruct (Hcn _ _ _ _ _ Ec (request_for ps type op l) eq_refl ltac:(cbn; lia)) as (a & Ea & Hd & Hb & Hst & Hall). exists a. split; [done |].
  cbn [request_for chunkId_ chunkType_ readOperation_] in Hd. rewrite (rp_id _ _ _ _ Hps) in Hd. done.
Qed.

(** The effect of the end of readData. *)
Lemma append_read c l st : Z.of_nat (length (read_buffer c)) + n < 2 ^ 32 → n <= Z.of_nat (length l) →
  ∃ c', plan_executed n (Returned (Some l) st) c = Returned (Some n) c' ∧ reader c' = reader c ∧ used_memory c' = used_memory c ∧
    read_buffer c' = read_buffer c ++ take (Z.to_nat n) l.
Proof using Hsize.
  intros Hsmall Hl. assert (0 <= n) by (unfold bytes_there; lia). unfold plan_executed. rewrite run_inspect, !run_modify. eexists. split; [done |]. split; [done |]. split; [done |].
  cbn [read_buffer resize_buffer append_bytes with_stats]. rewrite (wrapu_small 32 (Z.of_nat _)), wrapu_small by lia. unfold resize. rewrite length_app, take_app_ge by lia.
  replace (Z.to_nat _ - (_ + _))%nat with 0%nat by lia. rewrite app_nil_r. f_equal. f_equal. lia.
Qed.

(** The bytes have been appended. *)
Definition appended (c c' : client) : Prop :=
  read_buffer c' = read_buffer c ++ file_bytes (i * SFSCHUNKSIZE B + offset) n ∧ used_memory c' = used_memory c ∧ ready i (reader c').

Definition read_correct (c : client) (result : option Z) (c' : client) : Prop := result = None ∨ (result = Some n ∧ appended c c').

Lemma read_blocks c info c1 st : 0 < n → describes i info → isEmptyChunk info = false → ready i (reader c1) → same_buffer c c1 →
  Z.of_nat (length (read_buffer c)) + n < 2 ^ 32 →
  ∃ c', plan_executed n (Returned (Some (blocks_of (store (chunkId info)) first_block count)) st) c1 = Returned (Some n) c' ∧ appended c c'.
Proof using HB Hoffset Haligned Hsize Hend.
  intros Hn Hinfo Ee Hr [Hb Hm] Hsmall. destruct (blocks_range Hn) as (Hf & Ef & Hc & Hnc & Hfc).
  rewrite (blocks_of_ext _ (chunk_block i)) by (intros j _; by apply (de_stored _ _ Hinfo)). rewrite blocks_of_file, Ef by lia.
  destruct (append_read c1 (file_bytes (i * SFSCHUNKSIZE B + offset) (count * B)) st) as (c' & -> & E1 & E2 & E3).
  - by rewrite Hb.
  - unfold file_bytes. rewrite length_fmap, length_seqZ. lia.
  - exists c'. split; [done |]. unfold appended. rewrite E1, E2, E3, Hb, Hm. split; [| done]. f_equal. unfold file_bytes at 1. rewrite <- fmap_take.
    replace (count * B) with (n + (count * B - n)) by lia. rewrite seqZ_app by lia. by rewrite take_app_length' by (rewrite length_seqZ; lia).
Qed.

Lemma read_nothing c info : ready i (reader c) → location_ (reader c) = Some info → isEmptyChunk info = true ∨ n = 0 →
  ∃ c', readData overuse cp addr B env prefetch offset size c = Returned (Some n) c' ∧ appended c c'.
Proof using HB HL Hi Hoffset Hsize Hend.
  intros Hr El Hcase. pose proof Hr as [R1 R2 (info' & El' & Hinfo & _)]. rewrite El in El'. injection El' as <-. assert (0 <= n) as Hn by (unfold bytes_there; lia).
  assert (SFSCHUNKSIZE B <= 2 ^ 26) as HC by (unfold SFSCHUNKSIZE, SFSBLOCKSINCHUNK, SFSBLOCKSIZE in *; lia).
  unfold readData. rewrite (proj2 (Z.eqb_neq size 0)) by lia. rewrite run_sassert by (apply Z.leb_le; rewrite wrapu_small; lia).
  rewrite run_inspect, El, R2, (de_length _ _ Hinfo), available_size by lia. destruct (Z.eqb_spec n 0) as [En | Hne].
  - exists c. rewrite En. split; [done |]. split; [| done]. rewrite En. symmetry. apply app_nil_r.
  - destruct Hcase as [Ee | ?]; [| done]. rewrite Ee. eexists. split; [done |]. split; [| done]. cbn. f_equal.
    unfold file_bytes. symmetry. apply (list_eq_same_length _ _ (Z.to_nat n)); [by rewrite length_replicate | by rewrite length_fmap, length_seqZ |].
    intros j x y Hj. rewrite list_lookup_fmap, fmap_Some. intros (z & Hz & ->). apply lookup_seqZ in Hz as [-> Hz]. rewrite lookup_replicate. intros [-> _].
    apply (de_empty _ _ Hinfo Ee). unfold bytes_there in *. lia.
Qed.

Lemma readData_correct allowed c : truthful allowed env → ready i (reader c) → Z.of_nat (length (read_buffer c)) + n < 2 ^ 32 →
  outcomes (read_correct c) (same_buffer c) (readData overuse cp addr B env prefetch offset size c).
Proof using HB HL Hi Hoffset Haligned Hsize Hend.
  intros Henv Hr Hsmall. pose proof Hr as [R1 R2 (info & El & Hinfo & _)]. assert (0 <= n) as Hn by (unfold bytes_there; lia).
  destruct (isEmptyChunk info || (n =? 0)) eqn:E.
  - apply orb_true_iff in E as Hcase. rewrite Z.eqb_eq in Hcase. destruct (read_nothing c info Hr El Hcase) as (c' & -> & ?). by right.
  - apply orb_false_iff in E as [Ee Hpos%Z.eqb_neq]. assert (0 < n) as Hpos' by lia. clear Hpos. rename Hpos' into Hpos.
    destruct (read_planned c info Hr El Ee Hpos) as (c1 & Hr1 & Hb1 & Hs1 & [[-> _] | (t & ps & Hps & ->)]); [done |].
    destruct (blocks_range Hpos) as (Hf & Ef & Hc & Hnc & Hfc).
    destruct (chunk_executed B HB ps (store (chunkId info)) ltac:(intros j; rewrite (de_stored _ _ Hinfo Ee); apply chunk_block_sized)
      ltac:(intros j Hj; rewrite (de_stored _ _ Hinfo Ee); by apply chunk_block_beyond) t _ _ _ Hf Hc Hfc (rp_plan _ _ _ _ Hps)
      ltac:(rewrite (rp_id _ _ _ _ Hps), (rp_version _ _ _ _ Hps); apply (de_ids _ _ Hinfo)) (rp_locations _ _ _ _ Hps) allowed cp addr (first_round env) (rounds_ env) (client_stats c)) as [st Hex].
    + by apply (served_honest _ _ c info t), (tr_first _ _ Henv).
    + eapply Forall_impl; [apply (tr_rounds _ _ Henv) |]. intros rd. by apply (served_honest _ _ c info t).
    + destruct (executeReadOperations _ _ _ _ _) as [[|] s | x s | |]; try done; rewrite Hex.
      * destruct (read_blocks c info c1 st) as (c' & -> & ?); try done. by right.
      * by left.
      * destruct x; cbn; done.
Qed.

(** ** When nothing fails *)

Lemma readData_completes c info fd_of : good env fd_of → ready i (reader c) → location_ (reader c) = Some info →
  (isEmptyChunk info = false → enough_parts (ChunkReader.available_parts_ (reader c))) → Z.of_nat (length (read_buffer c)) + n < 2 ^ 32 →
  ∃ c', readData overuse cp addr B env prefetch offset size c = Returned (Some n) c' ∧ appended c c'.
Proof using HB HL Hi Hoffset Haligned Hsize Hend.
  intros Hgood Hr El Henough Hsmall. pose proof Hr as [R1 R2 (info' & El' & Hinfo & Hch)]. rewrite El in El'. injection El' as <-. assert (0 <= n) as Hn by (unfold bytes_there; lia).
  destruct (isEmptyChunk info || (n =? 0)) eqn:E; [apply (read_nothing c info); try done; apply orb_true_iff in E; by rewrite Z.eqb_eq in E |].
  apply orb_false_iff in E as [Ee Hne%Z.eqb_neq]. assert (0 < n) as Hpos by lia. specialize (Henough Ee). specialize (Hch Ee).
  destruct (read_planned c info Hr El Ee Hpos) as (c1 & Hr1 & Hb1 & Hs1 & [[_ Hno] | (t & ps & Hps & ->)]); [by destruct Hno; apply enough_readable; [apply (gc_valid _ _ Hch) |] |].
  destruct (blocks_range Hpos) as (Hf & Ef & Hc & Hnc & Hfc). destruct Hgood as [Htrue Hcon Hinj Hcalm Hsteady Hlen].
  assert (connected B ps (store (chunkId info)) (all_blocks B) (connect (first_round env)) fd_of) as Hcn.
  { split; [| by intros type type' _ _ ?%Hinj]. intros type op l Hop _ Eloc. destruct (Hcon type) as (ans & Ec). exists ans.
    destruct (served_honest _ _ c info t ps Hpos Hps (tr_first _ _ Htrue) _ _ _ _ _ _ _ Hop Eloc Ec) as (a & ? & ?). by exists a. }
  assert (sized B (store (chunkId info))) as Hsz by (intros j; rewrite (de_stored _ _ Hinfo Ee); apply chunk_block_sized).
  assert (0 <= chunk_id_ ps < 2 ^ 64 ∧ 0 <= chunk_version_ ps < 2 ^ 32) as Hids by (rewrite (rp_id _ _ _ _ Hps), (rp_version _ _ _ _ Hps); apply (de_ids _ _ Hinfo)).
  destruct (chunk_execution_finishes B HB ps (store (chunkId info)) Hsz ltac:(intros j Hj; rewrite (de_stored _ _ Hinfo Ee); by apply chunk_block_beyond) t _ _ _ Hf Hc Hfc (rp_plan _ _ _ _ Hps)
      Hids (rp_locations _ _ _ _ Hps) cp addr (first_round env) (rounds_ env) (client_stats c) fd_of Hcn) as [st ->]; [| done | done | | |].
  - by apply (served_honest _ _ c info t), (tr_first _ _ Htrue).
  - eapply Forall_impl; [apply (tr_rounds _ _ Htrue) |]. intros rd. by apply (served_honest _ _ c info t).
  - etransitivity; [| exact Hlen]. by apply (answers_bound B HB ps (store (chunkId info)) Hsz t _ _ _ Hf Hc Hfc (rp_plan _ _ _ _ Hps) Hids (rp_locations _ _ _ _ Hps) _ fd_of).
  - by apply read_blocks.
Qed.

End read.

(** ** read_to_buffer *)

Lemma chunk_size : 0 < SFSCHUNKSIZE B <= 2 ^ 26 ∧ (B | SFSCHUNKSIZE B).
Proof using HB. unfold SFSCHUNKSIZE, SFSBLOCKSINCHUNK. unfold SFSBLOCKSIZE in HB. split; [lia |]. apply Z.divide_factor_r. Qed.

Section loop.
Context (prefetch : bool) (maxRetries : Z) (allowed : ReadOperation → answer → Prop).
Context (offset size : Z) (Hoffset : 0 <= offset) (Haligned : (B | offset)) (Hsize : 0 <= size) (Hend : offset + size <= 2 ^ 32 * SFSCHUNKSIZE B).
Context (before : list byte) (Hbefore : Z.of_nat (length before) + size < 2 ^ 32).

(** What has been read. *)
Record data_read (s : session) (done : Z) : Prop := {
  dr_bounds : 0 <= done <= size;
  dr_offset : current_offset (snd s) = offset + done;
  dr_left : bytes_to_read (snd s) = size - done;
  dr_buffer : read_buffer (fst s) = before ++ file_bytes offset done;
  dr_aligned : done = size ∨ (B | offset + done);
  dr_there : done = 0 ∨ offset + done <= L;
}.

(** What the reader knows. *)
Record reader_known (s : session) : Prop := {
  rk_located : force_prepare (snd s) = false → inode_ (reader (fst s)) = inode → ready (index_ (reader (fst s))) (reader (fst s));
  rk_prepared : force_prepare (snd s) = false → prepared_inode (snd s) = inode →
    inode_ (reader (fst s)) = inode ∧ index_ (reader (fst s)) = prepared_chunk_id (snd s);
}.

(** The range of the chunk that is read by a try. *)
Lemma try_range s done : data_read s done → bytes_to_read (snd s) ≠ 0 →
  let cur := current_offset (snd s) in
  let i := u32 (cur / SFSCHUNKSIZE B) in
  let o := u32 (cur - u64 (i * SFSCHUNKSIZE B)) in
  let room := u32 (SFSCHUNKSIZE B - o) in
  let n := if bytes_to_read (snd s) <? room then u32 (bytes_to_read (snd s)) else room in
  0 <= i < 2 ^ 32 ∧ 0 <= o ∧ (B | o) ∧ o + n <= SFSCHUNKSIZE B ∧ 0 < n ∧ i * SFSCHUNKSIZE B + o = offset + done ∧ n <= size - done ∧ (n = size - done ∨ (B | offset + done + n)) ∧
  i = (offset + done) / SFSCHUNKSIZE B ∧ n = Z.min (size - done) ((i + 1) * SFSCHUNKSIZE B - (offset + done)).
Proof using HB Hoffset Hsize Hend Hbefore.
  intros [H1 H2 H3 _ H4 _] Hleft. cbv zeta. rewrite H2, H3 in *. destruct chunk_size as [HC HdC]. set (C := SFSCHUNKSIZE B) in *.
  pose proof (Z.div_mod (offset + done) C ltac:(lia)). pose proof (Z.mod_pos_bound (offset + done) C ltac:(lia)).
  assert (0 <= (offset + done) / C < 2 ^ 32) as Hi by (split; [apply Z.div_pos; lia | apply Z.div_lt_upper_bound; lia]).
  rewrite (wrapu_small 32 ((offset + done) / C)) by lia. rewrite (wrapu_small 64) by nia. rewrite (wrapu_small 32 (offset + done - _)) by nia.
  set (i := (offset + done) / C) in *. rewrite (wrapu_small 32 (C - _)) by nia. destruct H4 as [-> | Hd]; [lia |].
  assert (B | offset + done - i * C) as Ho by (apply Z.divide_sub_r; [done | by apply Z.divide_mul_r]).
  destruct (Z.ltb_spec (size - done) (C - (offset + done - i * C))); [rewrite wrapu_small by lia; split_and!; (lia || done) |]. split_and!; try lia; try done. right.
  replace (offset + done + (C - (offset + done - i * C))) with ((i + 1) * C) by lia. by apply Z.divide_mul_r.
Qed.

Lemma try_prepared env s : truthful allowed env → reader_known s → ∀ i, 0 <= i < 2 ^ 32 →
  outcomes (fun _ s' => ready i (reader (fst s')) ∧ same_buffer (fst s) (fst s') ∧ force_prepare (snd s') = false ∧ prepared_inode (snd s') = inode ∧ prepared_chunk_id (snd s') = i ∧
      current_offset (snd s') = current_offset (snd s) ∧ bytes_to_read (snd s') = bytes_to_read (snd s))
    (fun s' => same_buffer (fst s) (fst s') ∧ snd s' = snd s)
    ((if force_prepare (snd s) || negb (prepared_inode (snd s) =? inode) || negb (prepared_chunk_id (snd s) =? i) then
        _ ← on_client (prepareReadingChunk env inode i (force_prepare (snd s))); on_locals (set_prepared inode i)
      else mret ()) s).
Proof using.
  intros Henv [K1 K2] i Hi. destruct s as [c v]. cbn [fst snd] in *. destruct (_ || _) eqn:E.
  - unfold mbind, exec_bind, on_client. pose proof (prepare_ready allowed env i (force_prepare v) c Hi Henv K1) as H.
    destruct (prepareReadingChunk env inode i (force_prepare v) c); cbn in H |- *; try done. destruct H. done.
  - apply orb_false_iff in E as [[Ef Ei%negb_false_iff%Z.eqb_eq]%orb_false_iff Ec%negb_false_iff%Z.eqb_eq].
    destruct (K2 Ef Ei) as [E1 E2]. specialize (K1 Ef E1). rewrite E2, Ec in K1. done.
Qed.

(** The end of a try, after its bytes have been appended. *)
Lemma try_done c v i o n done : 0 <= done → offset + done = i * SFSCHUNKSIZE B + o → 0 < n → n <= size - done → (n = size - done ∨ (B | offset + done + n)) →
  current_offset v = offset + done → bytes_to_read v = size - done → (done = 0 ∨ offset + done <= L) →
  read_buffer c = (before ++ file_bytes offset done) ++ file_bytes (offset + done) (bytes_there (offset + done) n) →
  ready i (reader c) → force_prepare v = false → prepared_inode v = inode → prepared_chunk_id v = i →
  (bytes_there (offset + done) n < n → read_buffer c = before ++ file_bytes offset (bytes_there offset size)) ∧
  (n <= bytes_there (offset + done) n → let s := (c, clear_tries (advance (bytes_there (offset + done) n) v)) in reader_known s ∧ data_read s (done + n)).
Proof using HB Hoffset Hsize Hend Hbefore HL.
  intros Hd Ei Hn Hns Hal Eo El Hth Eb Hr Ef Ep Ec. destruct chunk_size as [HC _]. split.
  - intros Hlt. rewrite Eb, <- app_assoc, <- file_bytes_app by (unfold bytes_there; lia). do 2 f_equal. unfold bytes_there in *. lia.
  - intros Hge. assert (bytes_there (offset + done) n = n) as E by (unfold bytes_there in *; lia). rewrite E in *. cbn zeta. split; [split; cbn |].
    + intros _ _. by rewrite (rd_index _ _ Hr).
    + intros _ _. rewrite Ec. split; apply Hr.
    + split; cbn [fst snd clear_tries advance current_offset bytes_to_read]; [lia | rewrite Eo, wrapu_small; lia | rewrite El, wrapu_small; lia | | | right].
      * by rewrite Eb, <- app_assoc, <- file_bytes_app by lia.
      * destruct Hal as [-> | Hal]; [left; lia | right]. by rewrite Z.add_assoc.
      * unfold bytes_there in *. lia.
Qed.

(** What a try leads to. *)
Definition try_correct (r : option bool) (s : session) : Prop :=
  match r with
  | None => True
  | Some true => read_buffer (fst s) = before ++ file_bytes offset (bytes_there offset size)
  | Some false => reader_known s ∧ ∃ done, data_read s done
  end.

Lemma try_read_correct env s done : truthful allowed env → reader_known s → data_read s done → bytes_to_read (snd s) ≠ 0 →
  outcomes try_correct (fun s' => data_read s' done) (try_read overuse cp addr B prefetch inode env s).
Proof using HB HL Hoffset Hsize Hend Hbefore.
  intros Henv Hk Hd Hleft. destruct (try_range s done Hd Hleft) as (Hi & Ho & Hdo & Hon & Hn & Ei & Hns & Hal & _). destruct Hd as [D1 D2 D3 D4 D5 D6].
  unfold try_read. rewrite run_inspect. cbv zeta. set (i := u32 (_ / _)) in *. set (o := u32 (_ - u64 _)) in *. set (n := if _ <? _ then _ else _) in *.
  pose proof (try_prepared env s Henv Hk i Hi) as Hprep. unfold mbind at 1, exec_bind at 1. destruct (_ s) as [[] [c1 v1] | x [c1 v1] | |]; try done.
  all: cbn [outcomes fst snd] in Hprep |- *.
  - destruct Hprep as (Hr & [Hb Hm] & Hf & Hp & Hc & Hcur & Hleft').
    rewrite run_inspect. cbn [fst]. destruct (rd_location _ _ Hr) as (info & El & Hinfo & _). rewrite El, (rd_index _ _ Hr), (de_length _ _ Hinfo), available_size, Ei by lia.
    assert (data_read (c1, v1) done) as Hd1 by (split; cbn [fst snd]; congruence).
    destruct (readShouldWaitForSystemMemory _ _ _); [exact Hd1 |]. set (m := bytes_there _ _) in *.
    unfold mbind at 1, exec_bind at 1. cbn [on_client increaseUsedReadCacheMemory modify]. unfold on_locals. rewrite run_modify.
    unfold mbind at 1, exec_bind at 1. cbn [on_client].
    pose proof (readData_correct i Hi o n Ho Hdo Hn Hon prefetch env allowed (with_memory (fun used => u64 (used + m)) c1) Henv Hr) as Hread. rewrite Ei in Hread. fold m in Hread.
    destruct (readData _ _ _ _ _ _ _ _ _) as [[n' |] c2 | x c2 | |]; cbn [outcomes] in *.
    all: specialize (Hread ltac:(cbn; rewrite Hb, D4, length_app; unfold file_bytes; rewrite length_fmap, length_seqZ; unfold m, bytes_there; lia)); try done.
    + destruct Hread as [? | ([= ->] & Eb2 & _ & Hr2)]; [done |]. cbn in Eb2. rewrite Hb, D4, Ei in Eb2. rewrite Ei. fold m. unfold on_locals. rewrite run_modify.
      destruct (try_done c2 (reserve m v1) i o n done ltac:(lia) ltac:(lia) Hn Hns Hal ltac:(cbn; congruence) ltac:(cbn; congruence) D6 Eb2 Hr2 Hf Hp Hc) as [T1 T2].
      fold m in T1, T2. destruct (Z.ltb_spec m n); [by apply T1 |]. rewrite run_modify. destruct (T2 ltac:(lia)). by split; [| exists (done + n)].
    + destruct Hread as [Hb2 _]. cbn in Hb2. destruct Hd1 as [G1 G2 G3 G4 G5 G6]. split; try done. cbn. by rewrite Hb2.
  - destruct Hprep as [[Hb Hm] ->]. split; try done. cbn. by rewrite Hb.
Qed.

(** The status and the buffer at the end. *)
Definition loop_correct (r : option Z) (c : client) : Prop :=
  match r with
  | None => True
  | Some status => (status = SAUNAFS_STATUS_OK ∧ read_buffer c = before ++ file_bytes offset (bytes_there offset size)) ∨ status = SAUNAFS_ERROR_IO ∨ status = SAUNAFS_ERROR_EBADF
  end.

Lemma all_read c v done : data_read (c, v) done → bytes_to_read v = 0 → read_buffer c = before ++ file_bytes offset (bytes_there offset size).
Proof using Hsize.
  intros [D1 D2 D3 D4 D5 D6] E. cbn in *. assert (done = size) as -> by lia. rewrite D4. do 2 f_equal. unfold bytes_there. lia.
Qed.

Lemma read_loop_correct tries : Forall (truthful allowed) tries → ∀ s done, reader_known s → data_read s done →
  outcomes (fun r s' => loop_correct r (fst s')) (fun _ => False) (read_loop overuse cp addr B prefetch maxRetries inode tries s).
Proof using HB HL Hoffset Hsize Hend Hbefore.
  induction 1 as [| env tries Henv Htries IH]; intros s done Hk Hd; cbn [read_loop]; rewrite run_inspect.
  all: destruct (Z.eqb_spec (bytes_to_read (snd s)) 0) as [E | Hne]; [left; split; [done |]; destruct s as [c v]; by apply (all_read c v done) |]; try done.
  pose proof (try_read_correct env s done Henv Hk Hd Hne) as Htry.
  destruct (try_read _ _ _ _ _ _ _ s) as [[[|] |] s1 | x s1 | |]; cbn [outcomes try_correct] in Htry; try done.
  - by left.
  - destruct Htry as (Hk1 & done1 & Hd1). by apply (IH _ done1).
  - assert (∀ st, (st = SAUNAFS_ERROR_IO ∨ st = SAUNAFS_ERROR_EBADF) → outcomes (fun r s' => loop_correct r (fst s')) (fun _ => False) (give_back st s1)) as Hback.
    { intros st Hst. destruct s1. cbn. by right. }
    assert (outcomes (fun r s' => loop_correct r (fst s')) (fun _ => False) ((_ ← on_client (decreaseUsedReadCacheMemory (last_read_cache_bytes_to_reserve (snd s1)));
      _ ← on_locals retry; read_loop overuse cp addr B prefetch maxRetries inode tries) s1)) as Hretry.
    { destruct s1 as [c1 v1]. apply (IH _ done); [by split |]. by destruct Htry. }
    destruct x; try (destruct (maxRetries <? _); [apply Hback; by left | exact Hretry]).
    apply Hback. destruct (_ =? _); auto.
Qed.

(** *** When nothing fails *)

(** A try in which the master server finds enough parts, there is memory enough, and all
    servers answer. *)
Record favourable (fd_of : Z → Z) (used : Z) (env : attempt) : Prop := {
  fa_good : good env fd_of;
  fa_located : ∀ i, 0 <= i < 2 ^ 32 → ∃ info, located env inode i = inr info ∧ (isEmptyChunk info = false → enough_parts (chunk_type <$> info_locations info));
  fa_memory : used + size <= memory_max env < 2 ^ 64 ∧ size <= memory_available env;
}.

Lemma try_read_completes fd_of used env s done : 0 <= used → favourable fd_of used env → data_read s done → bytes_to_read (snd s) ≠ 0 → used_memory (fst s) = used + done →
  (force_prepare (snd s) = false → prepared_inode (snd s) = inode → inode_ (reader (fst s)) = inode ∧ index_ (reader (fst s)) = prepared_chunk_id (snd s)) →
  let i := (offset + done) / SFSCHUNKSIZE B in ¬ (inode_ (reader (fst s)) = inode ∧ index_ (reader (fst s)) = i) →
  let n := Z.min (size - done) ((i + 1) * SFSCHUNKSIZE B - (offset + done)) in let m := bytes_there (offset + done) n in
  ∃ s', try_read overuse cp addr B prefetch inode env s = Returned (Some (m <? n)) s' ∧ used_memory (fst s') = used + done + m ∧
    current_offset (snd s') = offset + done + m ∧ inode_ (reader (fst s')) = inode ∧ index_ (reader (fst s')) = i.
Proof using HB HL Hoffset Hsize Hend Hbefore.
  intros Hu [Hgood Hloc Hmem] Hd Hleft Eu Hk i0 Hnew. destruct (try_range s done Hd Hleft) as (Hi & Ho & Hdo & Hon & Hn & Ei & Hns & Hal & Eci & Ecn). destruct Hd as [D1 D2 D3 D4 D5 D6].
  unfold try_read. rewrite run_inspect. cbv zeta. set (i := u32 (_ / _)) in *. set (o := u32 (_ - u64 _)) in *. set (n := if _ <? _ then _ else _) in *.
  unfold i0 in *. rewrite <- Eci in *. rewrite <- Ecn. clear i0. set (m := bytes_there _ _). assert (0 <= m <= n) as Hm by (unfold m, bytes_there; lia).
  destruct (Hloc i Hi) as (info & El & Henough). pose proof (tr_located _ _ (go_truthful _ _ Hgood) _ _ Hi El) as Hinfo. destruct s as [c v]. cbn [fst snd] in *.
  destruct (prepare_completes env i (force_prepare v) c info El Hinfo Hnew) as (c1 & Ep & Hr & [Hb Hm1] & El1 & Hav).
  replace (force_prepare v || negb (prepared_inode v =? inode) || negb (prepared_chunk_id v =? i)) with true.
  2: { symmetry. destruct (force_prepare v); [done |]. destruct (Z.eqb_spec (prepared_inode v) inode) as [E1 |]; [| done]. destruct (Z.eqb_spec (prepared_chunk_id v) i) as [E2 |]; [| done].
       destruct (Hk eq_refl E1) as [? ?]. destruct Hnew. split; congruence. }
  erewrite run_bind; [| by (unfold mbind, exec_bind, on_client; rewrite Ep)]. cbv beta iota. rewrite run_inspect. cbn [fst].
  rewrite El1, (rd_index _ _ Hr), (de_length _ _ Hinfo), available_size, Ei by lia. fold m.
  unfold readShouldWaitForSystemMemory. rewrite Hm1, Eu, wrapu_small, (proj2 (Z.ltb_ge _ _)), (proj2 (Z.ltb_ge _ _)) by lia. cbn [orb].
  set (c2 := with_memory (fun used => u64 (used + m)) c1). erewrite run_bind; [| done]. cbv beta iota. unfold on_locals. rewrite run_modify. fold c2.
  destruct (readData_completes i Hi o n Ho Hdo Hn Hon prefetch env c2 info fd_of Hgood Hr El1) as (c3 & Er & Hb3 & Hm3 & Hr3).
  { intros Ee. destruct (Henough Ee) as (t & l & H1 & H2 & H3 & H4). exists t, l. split_and!; try done. intros x Hx. destruct (H3 x Hx) as [Hin Ex]. split; [| done]. apply list_elem_of_fmap in Hin as (l' & -> & Hl'). by apply Hav. }
  { cbn. rewrite Hb, D4, length_app, Ei. fold m. unfold file_bytes. rewrite length_fmap, length_seqZ. lia. }
  rewrite Ei in *. fold m in Er. erewrite run_bind; [| by (unfold on_client; rewrite Er)]. cbv beta iota. rewrite run_modify.
  assert (used_memory c3 = used + done + m) as Eu3 by (rewrite Hm3; cbn; rewrite Hm1, Eu, wrapu_small; lia).
  destruct (m <? n); eexists; (split; [done |]); cbn [fst snd]; rewrite (rd_index _ _ Hr3), (rd_inode _ _ Hr3); split_and!; try done.
  all: destruct chunk_size as [HC _]; cbn; rewrite D2, wrapu_small; lia.
Qed.

End loop.

(** The chunks that have a byte of a range. *)
Definition chunks_of (offset size : Z) : Z := (offset + size - 1) / SFSCHUNKSIZE B - offset / SFSCHUNKSIZE B + 1.

Section completion.
Context (prefetch : bool) (maxRetries : Z) (offset size : Z) (Hoffset : 0 <= offset) (Hsize : 0 <= size) (Hend : offset + size <= 2 ^ 32 * SFSCHUNKSIZE B).
Context (before : list byte) (Hbefore : Z.of_nat (length before) + size < 2 ^ 32) (fd_of : Z → Z) (used : Z) (Hused : 0 <= used).

Lemma read_loop_completes tries : Forall (favourable size fd_of used) tries → ∀ s done, reader_known s → data_read offset size before s done → used_memory (fst s) = used + done →
  (done < size → ¬ (inode_ (reader (fst s)) = inode ∧ index_ (reader (fst s)) = (offset + done) / SFSCHUNKSIZE B)) →
  (done < size → chunks_of (offset + done) (size - done) <= Z.of_nat (length tries)) →
  ∃ s', read_loop overuse cp addr B prefetch maxRetries inode tries s = Returned (Some SAUNAFS_STATUS_OK) s' ∧ used_memory (fst s') = used + bytes_there offset size.
Proof using HB HL Hoffset Hsize Hend Hbefore Hused.
  destruct chunk_size as [HC _]. induction 1 as [| env tries Henv Htries IH]; intros s done Hk Hd Eu Hnew Hlen; cbn [read_loop]; rewrite run_inspect; pose proof Hd as [D1 D2 D3 D4 D5 D6].
  all: destruct (Z.eqb_spec (bytes_to_read (snd s)) 0) as [E | Hne]; [exists s; split; [done |]; rewrite Eu; unfold bytes_there; lia |].
  - specialize (Hlen ltac:(lia)). cbn in Hlen. unfold chunks_of in Hlen. pose proof (Z.div_le_mono (offset + done) (offset + done + (size - done) - 1) (SFSCHUNKSIZE B) ltac:(lia) ltac:(lia)). lia.
  - destruct (try_read_completes prefetch offset size Hoffset Hsize Hend before Hbefore fd_of used env s done Hused Henv Hd Hne Eu (rk_prepared _ Hk) (Hnew ltac:(lia))) as (s1 & E1 & Eu1 & Ec1 & Ei1 & Ex1).
    pose proof (try_read_correct prefetch (all_blocks B) offset size Hoffset Hsize Hend before Hbefore env s done (go_truthful _ _ (fa_good _ _ _ _ Henv)) Hk Hd Hne) as Hcorrect.
    set (i := (offset + done) / _) in *. set (n := Z.min _ _) in *. set (m := bytes_there _ n) in *. rewrite E1 in Hcorrect |- *. cbn [outcomes try_correct] in Hcorrect.
    pose proof (Z.div_mod (offset + done) (SFSCHUNKSIZE B) ltac:(lia)) as Hdm. fold i in Hdm. pose proof (Z.mod_pos_bound (offset + done) (SFSCHUNKSIZE B) ltac:(lia)) as Hmod.
    assert (0 < n) by (unfold n; lia). destruct (Z.ltb_spec m n).
    + exists s1. split; [done |]. rewrite Eu1. unfold m, bytes_there in *. lia.
    + destruct Hcorrect as (Hk1 & done1 & Hd1). pose proof Hd1 as [F1 F2 F3 F4 F5 F6]. assert (m = n) as Em by (unfold m, bytes_there in *; lia). assert (done1 = done + n) as -> by lia.
      assert (done + n < size → (offset + (done + n)) / SFSCHUNKSIZE B = i + 1) as Hnext.
      { intros ?. replace (offset + (done + n)) with ((i + 1) * SFSCHUNKSIZE B) by lia. apply Z.div_mul. lia. }
      apply (IH s1 (done + n)); try done; [lia | |].
      * intros Hlt. rewrite (Hnext Hlt), Ex1. intros [_ ?]. lia.
      * intros Hlt. specialize (Hlen ltac:(lia)). unfold chunks_of in *. rewrite (Hnext Hlt). fold i in Hlen. replace (offset + (done + n) + (size - (done + n)) - 1) with (offset + done + (size - done) - 1) by lia.
        rewrite length_cons in Hlen. lia.
Qed.

End completion.
End files.

(** C4: Reading a range of a file.  Whatever connections fail, servers answer incompletely or with
    errors, master servers refuse, parts are lost and tries are repeated: as long as servers
    send no wrong blocks, [read_to_buffer] neither fails nor throws, and when it reports success
    it has appended exactly the bytes of the file in the range, up to the end of the file. *)
Theorem read_file_exact overuse cp addr B file L inode store prefetch maxRetries refresh offset size tries c :
  0 < B <= SFSBLOCKSIZE → 0 <= L < 2 ^ 64 → inode ≠ 0 → 0 <= offset → (B | offset) → 0 <= size → offset + size <= 2 ^ 32 * SFSCHUNKSIZE B →
  Z.of_nat (length (read_buffer c)) + size < 2 ^ 32 → inode_ (reader c) ≠ inode → Forall (truthful B file L inode store (fun _ _ => True)) tries →
  ∃ r c', read_to_buffer overuse cp addr B prefetch maxRetries inode refresh offset size tries c = Returned r c' ∧
    ∀ status, r = Some status →
      (status = SAUNAFS_STATUS_OK ∧ read_buffer c' = read_buffer c ++ file_bytes file offset (bytes_there L offset size)) ∨
      status = SAUNAFS_ERROR_IO ∨ status = SAUNAFS_ERROR_EBADF.
Proof.
  intros HB HL Hinode Hoff Hal Hsize Hend Hbuf Hnew Htries.
  set (s := (c, mk_locals offset size 0 0 0 0 refresh 0 0)). assert (reader_known B file L inode store s) as Hk by done.
  assert (data_read B file L offset size (read_buffer c) s 0) as Hd by (split; cbn; try lia; [by rewrite app_nil_r | by rewrite Z.add_0_r; right]).
  pose proof (read_loop_correct overuse cp addr B HB file L inode store HL prefetch maxRetries _ offset size Hoff Hsize Hend (read_buffer c) Hbuf tries Htries s 0 Hk Hd) as H.
  unfold read_to_buffer. fold s. destruct (read_loop _ _ _ _ _ _ _ _ s) as [r [c' v] | | |]; [| done..].
  exists r, c'. split; [done |]. by intros status ->.
Qed.

(** C5: Reading succeeds.  When enough parts of every chunk are known, their servers answer, and there
    are memory and time enough, one try per chunk reads the range, and the memory that is
    accounted for grows by the bytes read. *)
Theorem read_file_completes overuse cp addr B file L inode store prefetch maxRetries refresh offset size tries c fd_of :
  0 < B <= SFSBLOCKSIZE → 0 <= L < 2 ^ 64 → inode ≠ 0 → 0 <= offset → (B | offset) → 0 < size → offset + size <= 2 ^ 32 * SFSCHUNKSIZE B →
  Z.of_nat (length (read_buffer c)) + size < 2 ^ 32 → inode_ (reader c) ≠ inode → 0 <= used_memory c →
  Forall (favourable B file L inode store size fd_of (used_memory c)) tries → chunks_of B offset size <= Z.of_nat (length tries) →
  ∃ c', read_to_buffer overuse cp addr B prefetch maxRetries inode refresh offset size tries c = Returned (Some SAUNAFS_STATUS_OK) c' ∧
    read_buffer c' = read_buffer c ++ file_bytes file offset (bytes_there L offset size) ∧ used_memory c' = used_memory c + bytes_there L offset size.
Proof.
  intros HB HL Hinode Hoff Hal Hsize Hend Hbuf Hnew Hused Htries Hlen.
  set (s := (c, mk_locals offset size 0 0 0 0 refresh 0 0)). assert (reader_known B file L inode store s) as Hk by done.
  assert (data_read B file L offset size (read_buffer c) s 0) as Hd by (split; cbn; try lia; [by rewrite app_nil_r | by rewrite Z.add_0_r; right]).
  assert (Forall (truthful B file L inode store (all_blocks B)) tries) as Htrue by (eapply Forall_impl; [exact Htries |]; intros env Henv; apply (fa_good _ _ _ _ _ _ _ _ _ Henv)).
  pose proof (read_loop_correct overuse cp addr B HB file L inode store HL prefetch maxRetries _ offset size Hoff ltac:(lia) Hend (read_buffer c) Hbuf tries Htrue s 0 Hk Hd) as H.
  destruct (read_loop_completes overuse cp addr B HB file L inode store HL prefetch maxRetries offset size Hoff ltac:(lia) Hend (read_buffer c) Hbuf fd_of (used_memory c) Hused tries Htries s 0 Hk Hd)
    as ([c' v] & E & Eu); [cbn; lia | cbn; tauto | rewrite Z.add_0_r, Z.sub_0_r; done |].
  unfold read_to_buffer. fold s. rewrite E in H |- *. exists c'. split; [done |]. split; [| done]. by destruct H as [[_ ?] | [? | ?]].
Qed.

(** ** A file *)

Definition sample_file (x : Z) : byte := match x with 0 => x05 | 1 => x07 | 2 => x02 | _ => x00 end.
Definition sample_store (id : Z) : Z → list byte := chunk_block 1 sample_file (id - 1).

Definition sample_server (r : request) : list byte :=
  answer_from 1 r {| data := fun i => part_block 1 (sample_store (chunkId_ r)) (ChunkPartType.getSliceType (chunkType_ r)) (ChunkPartType.getSlicePart (chunkType_ r))
                                        (request_offset (readOperation_ r) / 1 + i);
                     blocks := op_blocks 1 (readOperation_ r); status := SAUNAFS_STATUS_OK |} 0.

(** The servers of the parts of ec(2,1) have the addresses 10, 11 and 12. *)
Definition sample_info (parts : list Z) (i : Z) : ChunkLocationInfo :=
  {| chunkId := i + 1; version := 1; fileLength := 3;
     info_locations := (fun q => {| address := 10 + q; chunk_type := part_id (ec_getSliceType 2 1) q; chunkserver_version := kFirstECVersion |}) <$> parts |}.

Definition sample_round (refused : list Z) : round :=
  {| total_expired := false; wave_expired := false;
     connect := fun type => if bool_decide (ChunkPartType.getSlicePart type ∈ refused) then Refused else Connected type false 34 sample_server;
     prefetch_connect := fun _ => Refused; polled := Events (fun _ => (Some (Receives 100), false)) |}.

Definition sample_try (info : exception + list Z) (refused : list Z) (rounds : nat) : attempt :=
  {| located := fun _ i => match info with inl x => inl x | inr parts => inr (sample_info parts i) end; defect_expired := fun _ => true;
     memory_max := 10000; memory_available := 10000; first_round := sample_round refused; rounds_ := replicate rounds (sample_round refused) |}.

Definition sample_client : client := mk_client ChunkReader.new ChunkserverStats.empty [] 100.
Definition sample_cpu : cpu := {| cpu_avx2 := false; cpu_avx := false; cpu_ssse3 := false |}.

Definition sample_read (tries : list attempt) : outcome client (option Z) := read_to_buffer (fun n => n) sample_cpu 0 1 true 30 7 false 0 4 tries sample_client.

Lemma sample_served refused : served 1 sample_store (all_blocks 1) (connect (sample_round refused)).
Proof.
  intros type fd expired written ans. cbn. destruct (bool_decide _); [done |]. intros [= <- <- <- <-] r _ Hs. unfold sample_server.
  eexists. split; [done |]. split; [done |]. cbn [blocks status]. split; [| done]. unfold op_blocks. rewrite Z.div_1_r. lia.
Qed.

Lemma sample_describes parts i : (∀ q, q ∈ parts → 0 <= q <= 2) → 0 <= i < 2 ^ 32 → describes 1 sample_file 3 sample_store i (sample_info parts i).
Proof.
  intros Hparts Hi. split; cbn [sample_info fileLength chunkId version info_locations]; [done | lia | | |].
  - intros E%Z.eqb_eq. cbn in E. lia.
  - intros _ j. unfold sample_store. by rewrite Z.add_simpl_r.
  - intros l (q & -> & Hq%Hparts)%list_elem_of_fmap. split; [done |]. exists (ec_getSliceType 2 1), q. split; [done |]. split; [done |]. change (0 <= q < 3). lia.
Qed.

Lemma sample_truthful info refused rounds : (∀ parts, info = inr parts → ∀ q, q ∈ parts → 0 <= q <= 2) → truthful 1 sample_file 3 7 sample_store (all_blocks 1) (sample_try info refused rounds).
Proof.
  intros Hinfo. split.
  - intros i inf Hi. cbn. destruct info as [x | parts]; [done |]. intros [= <-]. by apply sample_describes; [apply Hinfo |].
  - apply sample_served.
  - apply Forall_replicate, sample_served.
Qed.

Lemma truthful_weaken B file L inode store (allowed allowed' : ReadOperation → answer → Prop) env : (∀ op a, allowed op a → allowed' op a) →
  truthful B file L inode store allowed env → truthful B file L inode store allowed' env.
Proof.
  intros Hw. assert (∀ cn, served B store allowed cn → served B store allowed' cn) as Hs.
  { intros cn Hcn type fd ex wr ans Ec r Et Hr. destruct (Hcn type fd ex wr ans Ec r Et Hr) as (a & ? & ? & ? & ? & ?). exists a. do 4 (split; [done |]). by apply Hw. }
  intros [H1 H2 H3]. split; [done | by apply Hs |]. eapply Forall_impl; [exact H3 |]. intros rd. apply Hs.
Qed.

Lemma sample_range parts : (@inr exception (list Z) [0; 2]) = inr parts → ∀ q, q ∈ parts → 0 <= q <= 2.
Proof. intros [= <-] q [-> | [-> | []%elem_of_nil]%elem_of_cons]%elem_of_cons; lia. Qed.

(** The first try fails as part 0 cannot be reached; the second one reads around part 1. *)
Lemma read_file_exact_witness :
  ∃ c', sample_read [sample_try (inr [0; 1]) [0] 20; sample_try (inr [0; 2]) [] 20] = Returned (Some SAUNAFS_STATUS_OK) c' ∧ read_buffer c' = [x05; x07; x02].
Proof.
  destruct (read_file_exact (fun n => n) sample_cpu 0 1 sample_file 3 7 sample_store true 30 false 0 4
    [sample_try (inr [0; 1]) [0] 20; sample_try (inr [0; 2]) [] 20] sample_client) as (r & c' & E & H);
    [done | lia | done | lia | exists 0; lia | lia | vm_compute; done | done | done | |].
  - apply Forall_cons; split; [| apply Forall_singleton]; eapply truthful_weaken, sample_truthful; try done.
    + intros parts [= <-] q [-> | [-> | []%elem_of_nil]%elem_of_cons]%elem_of_cons; lia.
    + intros parts [= <-] q [-> | [-> | []%elem_of_nil]%elem_of_cons]%elem_of_cons; lia.
  - exists c'. assert (r = Some SAUNAFS_STATUS_OK) as ->.
    { pose proof (f_equal (fun o => match o with Returned x _ => x | _ => None end) E) as Er. cbv beta iota in Er. rewrite <- Er. vm_compute. reflexivity. }
    split; [exact E |]. destruct (H _ eq_refl) as [[_ Hb] | [Hx | Hx]]; [exact Hb | discriminate Hx | discriminate Hx].
Defined.

Lemma sample_favourable used rounds : 0 <= used → used + 1030 <= 10000 → (max_answers 1 <= rounds)%nat →
  favourable 1 sample_file 3 7 sample_store 1030 (fun type => type) used (sample_try (inr [0; 2]) [] rounds).
Proof.
  intros Hu Hmem Hrounds. split; [split | |].
  - apply sample_truthful. exact sample_range.
  - intros type. by exists sample_server.
  - done.
  - by intros type fd written ans.
  - apply Forall_replicate. split; [done |]. split; [done |]. eexists. split; [done |]. intros fd. by exists 99%nat.
  - cbn [rounds_ sample_try]. by rewrite length_replicate.
  - intros i Hi. exists (sample_info [0; 2] i). split; [done |]. intros _. exists (ec_getSliceType 2 1), (part_id (ec_getSliceType 2 1) <$> [0; 2]).
    split; [done |]. split; [apply (bool_decide_unpack _); by vm_compute |]. split; [| by vm_compute].
    intros x (q & -> & Hq)%list_elem_of_fmap. split; [| destruct (sample_range [0; 2] eq_refl q Hq); apply part_id_type; (lia || by vm_compute)].
    apply list_elem_of_fmap. eexists. split; cycle 1; [apply list_elem_of_fmap; by exists q | done].
  - cbn. lia.
Qed.

(** Two chunks are touched. *)
Lemma read_file_completes_witness :
  ∃ c', read_to_buffer (fun n => n) sample_cpu 0 1 true 30 7 false 0 1030 (replicate 2 (sample_try (inr [0; 2]) [] (max_answers 1))) (mk_client ChunkReader.new ChunkserverStats.empty [] 0)
      = Returned (Some SAUNAFS_STATUS_OK) c' ∧ read_buffer c' = [x05; x07; x02] ∧ used_memory c' = 3.
Proof.
  generalize (le_n (max_answers 1)). generalize (max_answers 1) at 2 3. intros rounds Hrounds.
  destruct (read_file_completes (fun n => n) sample_cpu 0 1 sample_file 3 7 sample_store true 30 false 0 1030 (replicate 2 (sample_try (inr [0; 2]) [] rounds))
    (mk_client ChunkReader.new ChunkserverStats.empty [] 0) (fun type => type)) as (c' & E & Hb & Hu);
    [unfold SFSBLOCKSIZE; lia | lia | lia | lia | exists 0; lia | lia | vm_compute; discriminate | vm_compute; reflexivity | discriminate | apply Z.le_refl | | |].
  - apply Forall_replicate, sample_favourable; [apply Z.le_refl | vm_compute; discriminate | exact Hrounds].
  - rewrite length_replicate. vm_compute. discriminate.
  - exists c'. split; [exact E |]. split; [exact Hb | exact Hu].
Defined.

(** What a read of the sample leads to: the status, the buffer, the used memory, and the pending
    reads of the server of part 0. *)
Definition sample_result (tries : list attempt) : option (option Z * list byte * Z * Z) :=
  match sample_read tries with
  | Returned r c => Some (r, read_buffer c, used_memory c, ChunkserverStats.pendingReads_ (client_stats c 10))
  | _ => None
  end.

(** ** Reservations of cache memory *)

Definition is_recoverable (x : exception) : bool := match x with UnrecoverableReadException _ => false | _ => true end.

(** The used memory stays, and the buffer too when an exception is thrown. *)
Definition undone {A} (c : client) (o : outcome client A) : Prop :=
  match o with
  | Returned _ c' => used_memory c' = used_memory c
  | Raised _ c' => used_memory c' = used_memory c ∧ read_buffer c' = read_buffer c
  | _ => True
  end.

Lemma prepare_undone env inode index force c :
  match prepareReadingChunk env inode index force c with
  | Returned _ c' | Raised _ c' => used_memory c' = used_memory c ∧ read_buffer c' = read_buffer c
  | _ => True
  end.
Proof.
  unfold prepareReadingChunk. rewrite run_inspect. destruct (_ && _); [done |]. rewrite run_modify. destruct (located env inode index) as [x | info]; [done |].
  rewrite run_modify. by destruct (isEmptyChunk info).
Qed.

Lemma plan_undone n o c : undone c (plan_executed n o c).
Proof. unfold plan_executed. rewrite run_inspect. destruct o as [[l |] st | [] st | |]; done. Qed.

Lemma undone_lift {A R} (r : res A) (k : A → exec client R) c : (∀ x, undone c (k x c)) → undone c ((x ← lift r; k x) c).
Proof. intros Hk. unfold mbind, exec_bind, lift. destruct r; (apply Hk || done). Qed.

Lemma undone_reader {R} f (k : exec client R) c : undone (with_reader f c) (k (with_reader f c)) → undone c ((_ ← modify (with_reader f); k) c).
Proof. done. Qed.

Lemma readData_undone overuse cp addr B prefetch env offset size c : undone c (readData overuse cp addr B env prefetch offset size c).
Proof.
  unfold readData. destruct (_ =? 0); [done |]. destruct (_ <=? _); [| done]. rewrite run_sassert, run_inspect by done.
  destruct (location_ (reader c)) as [info |]; [| done]. destruct (_ =? 0); [done |]. destruct (isEmptyChunk info); [done |].
  apply undone_lift. intros planner. apply undone_reader. destruct (negb _); [done |]. apply undone_lift. intros [planner' p]. apply undone_reader, undone_reader.
  rewrite run_inspect. apply plan_undone.
Qed.

Lemma raised_bind {S R A} (m : exec S R) (k : R → exec S A) x s s' : (y ← m; k y) s = Raised x s' → m s = Raised x s' ∨ ∃ y s1, m s = Returned y s1 ∧ k y s1 = Raised x s'.
Proof. unfold mbind, exec_bind. destruct (m s) as [y s1 | y s1 | |]; eauto; intros [= <- <-]; auto. Qed.

(** The progress of a read. *)
Definition progress (s : session) : list byte * (Z * Z * Z * Z) :=
  (read_buffer (fst s), (current_offset (snd s), bytes_to_read (snd s), bytes_read (snd s), try_counter (snd s))).

(** What is accounted for, and what is noted as reserved last. *)
Definition account (s : session) : Z * Z := (used_memory (fst s), last_read_cache_bytes_to_reserve (snd s)).

(** Neither changes. *)
Definition intact (s : session) (o : outcome session ()) : Prop :=
  match o with
  | Returned _ s' | Raised _ s' => progress s' = progress s ∧ account s' = account s
  | _ => True
  end.

Section accounting.
Context (overuse : Z → Z) (cp : cpu) (addr B : Z) (prefetch : bool) (maxRetries inode : Z).

Lemma prepared_undone env index (b force : bool) s :
  intact s ((if b then (_ ← on_client (prepareReadingChunk env inode index force); on_locals (set_prepared inode index)) else mret ()) s).
Proof using.
  destruct b; [| done]. destruct s as [c v]. pose proof (prepare_undone env inode index force c) as H. unfold mbind, exec_bind, on_client.
  destruct (prepareReadingChunk env inode index force c); try done; destruct H as [H1 H2]; unfold intact, progress, account; cbn; by rewrite H1, H2.
Qed.

(** What a try leaves behind when it throws: it has reserved nothing, or it has reserved
    memory and noted how much. *)
Lemma try_raised env s x s' : try_read overuse cp addr B prefetch inode env s = Raised x s' →
  progress s' = progress s ∧ (account s' = account s ∨ used_memory (fst s') = u64 (used_memory (fst s) + last_read_cache_bytes_to_reserve (snd s'))).
Proof using.
  unfold try_read. rewrite run_inspect. cbv zeta. set (index := u32 (current_offset (snd s) / SFSCHUNKSIZE B)).
  intros [E | ([] & s1 & E & Ek)]%raised_bind;
    [assert (intact s (Raised x s')) as [Hp Ha] by (rewrite <- E; apply prepared_undone); by auto |].
  assert (intact s (Returned () s1)) as [Hp Ha] by (rewrite <- E; apply prepared_undone). rewrite run_inspect in Ek. destruct (location_ (reader (fst s1))) as [info |]; [| done].
  destruct (readShouldWaitForSystemMemory _ _ _); [by injection Ek as <- <-; auto |]. rewrite <- Hp. injection Ha as Ha _. rewrite <- Ha. destruct s1 as [c1 v1]. clear E Hp Ha.
  apply raised_bind in Ek as [? | (? & s2 & [= _ <-] & [? | (? & s2 & [= _ <-] & [Er | (r & s2 & _ & Ek)]%raised_bind)]%raised_bind)]; [done | done | |].
  - cbn [fst snd] in *. unfold on_client in Er. match type of Er with match readData _ _ _ _ _ _ ?a ?b ?c with _ => _ end = _ => pose proof (readData_undone overuse cp addr B prefetch env a b c) as Hu end.
    destruct (readData _ _ _ _ _ _ _ _ _); try done. injection Er as <- <-. destruct Hu as [Hu1 Hu2]. unfold progress. cbn in *. rewrite Hu1, Hu2. auto.
  - destruct r as [n |]; [| done]. apply raised_bind in Ek as [| (? & s3 & _ & Ek)]; [done |]. by destruct (_ <? _).
Qed.

(** Without a location a try throws before it reserves anything. *)
Lemma unlocated_try env x c v : force_prepare v = true → (∀ i, located env inode i = inl x) →
  ∃ f, try_read overuse cp addr B prefetch inode env (c, v) = Raised x (with_reader f c, v).
Proof using.
  intros Hf Hl. eexists. unfold try_read. rewrite run_inspect. cbn [snd]. cbv zeta. rewrite Hf. cbn [orb]. unfold mbind, exec_bind, on_client, prepareReadingChunk, inspect.
  rewrite andb_false_r. unfold modify. rewrite Hl. done.
Qed.

Lemma loop_recovers env tries s x s' : bytes_to_read (snd s) ≠ 0 → try_read overuse cp addr B prefetch inode env s = Raised x s' → is_recoverable x = true →
  try_counter (snd s') <= maxRetries →
  read_loop overuse cp addr B prefetch maxRetries inode (env :: tries) s =
    read_loop overuse cp addr B prefetch maxRetries inode tries (with_memory (fun used => u64 (used - last_read_cache_bytes_to_reserve (snd s'))) (fst s'), retry (snd s')).
Proof using.
  intros Hb Et Hx Hc. cbn [read_loop]. rewrite run_inspect, (proj2 (Z.eqb_neq _ _)) by done. rewrite Et. destruct s' as [c v]. cbn [snd] in Hc. cbn [fst snd].
  rewrite (proj2 (Z.ltb_ge _ _)) by done. by destruct x.
Qed.

End accounting.

(** C36: The handler of exceptions of [read_to_buffer] releases what the last reservation
    was, and does not forget it.  When the first try of a read fails after it has reserved [n]
    bytes of cache memory, and the second one as the chunk is not located, before it reserves
    anything, the [n] bytes are released twice: the rest of the read goes on with [n] bytes
    less accounted for than before the read, although no byte has been read or dropped.  Other
    reads still hold these bytes, so the limit of the memory is not kept; and when [n] exceeds
    what is accounted for, the counter wraps around. *)
Theorem reservation_released_twice overuse cp addr B prefetch maxRetries inode refresh offset size env1 env2 tries c x1 s1 x2 :
  let start := (c, mk_locals offset size 0 0 0 0 refresh 0 0) in
  let n := last_read_cache_bytes_to_reserve (snd s1) in
  size ≠ 0 → 1 <= maxRetries → is_recoverable x1 = true → is_recoverable x2 = true →
  try_read overuse cp addr B prefetch inode env1 start = Raised x1 s1 → n ≠ 0 →
  (∀ i, located env2 inode i = inl x2) →
  ∃ s2, read_loop overuse cp addr B prefetch maxRetries inode (env1 :: env2 :: tries) start = read_loop overuse cp addr B prefetch maxRetries inode tries s2 ∧
    used_memory (fst s2) = u64 (used_memory c - n) ∧ read_buffer (fst s2) = read_buffer c ∧ bytes_read (snd s2) = 0 ∧ current_offset (snd s2) = offset.
Proof.
  intros start n Hs Hm Hx1 Hx2 E1 Hn Hl. destruct (try_raised _ _ _ _ _ _ _ _ _ _ E1) as [Hp Ha]. destruct s1 as [c1 v1]. injection Hp as Hbuf Ho Hb Hr Ht. cbn in Hbuf, Ho, Hb, Hr, Ht.
  destruct Ha as [[= _ Ha] | Hu]; [done |]. set (c2 := with_memory (fun used => u64 (used - n)) c1).
  destruct (unlocated_try overuse cp addr B prefetch inode env2 x2 c2 (retry v1) eq_refl Hl) as [f E2].
  eexists. split; [| cbn [fst snd]; split_and!].
  - rewrite (loop_recovers overuse cp addr B prefetch maxRetries inode env1 _ start x1 (c1, v1) Hs E1 Hx1) by (cbn; lia).
    refine (loop_recovers overuse cp addr B prefetch maxRetries inode env2 tries (c2, retry v1) x2 _ _ E2 Hx2 _); [cbn; congruence |]. cbn [snd with_reader retry try_counter]. by rewrite Ht.
  - change (used_memory c1 = u64 (used_memory c + n)) in Hu. transitivity (u64 (u64 (used_memory c1 - n) - n)); [done |]. rewrite Hu. unfold wrapu.
    rewrite Zminus_mod_idemp_l, <- Z.sub_add_distr, Zminus_mod_idemp_l. f_equal. lia.
  - done.
  - done.
  - done.
Qed.

(** A try of the sample that fails as part 0 cannot be reached, with 3 bytes reserved. *)
Lemma sample_reserves :
  ∃ x s, try_read (fun n => n) sample_cpu 0 1 true 7 (sample_try (inr [0; 1]) [0] 20) (sample_client, mk_locals 0 4 0 0 0 0 false 0 0) = Raised x s ∧
    is_recoverable x = true ∧ last_read_cache_bytes_to_reserve (snd s) = 3.
Proof.
  assert (match try_read (fun n => n) sample_cpu 0 1 true 7 (sample_try (inr [0; 1]) [0] 20) (sample_client, mk_locals 0 4 0 0 0 0 false 0 0) with
    | Raised x s => is_recoverable x && (last_read_cache_bytes_to_reserve (snd s) =? 3) | _ => false end = true) as H by by vm_compute.
  destruct (try_read _ _ _ _ _ _ _ _) as [| x s | |]; try done. exists x, s. apply andb_true_iff in H as [Hx Hn%Z.eqb_eq]. done.
Qed.

(** After the third try 3 bytes are in the buffer and none are accounted for: 100 before the
    read, 97 after the two tries that fail, 100 at the end. *)
Lemma reservation_released_twice_witness :
  let rest := [sample_try (inr [0; 2]) [] 20] in
  ∃ s2, sample_read (sample_try (inr [0; 1]) [0] 20 :: sample_try (inl RecoverableReadException) [] 20 :: rest) =
      match read_loop (fun n => n) sample_cpu 0 1 true 30 7 rest s2 with Returned x s => Returned x (fst s) | Raised x s => Raised x (fst s) | Aborted => Aborted | Undefined => Undefined end ∧
    used_memory sample_client = 100 ∧ used_memory (fst s2) = 97 ∧ read_buffer (fst s2) = [].
Proof.
  cbv zeta. destruct sample_reserves as (x & s1 & E1 & Hx & Hn).
  destruct (reservation_released_twice (fun n => n) sample_cpu 0 1 true 30 7 false 0 4 (sample_try (inr [0; 1]) [0] 20) (sample_try (inl RecoverableReadException) [] 20)
    [sample_try (inr [0; 2]) [] 20] sample_client x s1 RecoverableReadException) as (s2 & E & Hu & Hb & _); [lia | lia | done | done | done | lia | done |].
  exists s2. split; [| split; [done | split; [rewrite Hu, Hn; done | done]]]. unfold sample_read, read_to_buffer. rewrite E. by destruct (read_loop (fun n => n) sample_cpu 0 1 true 30 7 _ s2) as [? [] | ? [] | |].
Defined.

(** The whole read of the sample. *)
Example released_twice_sample :
  sample_result [sample_try (inr [0; 1]) [0] 20; sample_try (inl RecoverableReadException) [] 20; sample_try (inr [0; 2]) [] 20] =
    Some (Some SAUNAFS_STATUS_OK, [x05; x07; x02], 100, 1).
Proof. by vm_compute. Qed.

(** A read operation whose connection is refused is never unregistered: after a successful read
    the server of part 0 has a pending read for ever. *)
Theorem failed_read_stays_pending :
  ChunkserverStats.pendingReads_ (client_stats sample_client 10) = 0 ∧
  sample_result [sample_try (inr [0; 1; 2]) [0] 20] = Some (Some SAUNAFS_STATUS_OK, [x05; x07; x02], 103, 1).
Proof. split; [done |]. by vm_compute. Qed.

(** ** Parts without blocks *)

Section idle.
Context (B : Z) (ps : params) (last : Z) (Hlast : ∀ type op, (type, op) ∈ read_operations (plan_ ps) → wave op <= last).

Lemma start_reads_idle cn w s : last < w → isFinishingPossible (plan_ ps) (networking_failures_ s) = Ok true → startReadsForWave B ps cn w s = Returned 0 s.
Proof using Hlast.
  intros Hw Hp. unfold startReadsForWave. erewrite run_bind.
  - rewrite run_inspect, (run_lift _ _ _ _ Hp). done.
  - generalize (fun e (H : e ∈ read_operations (plan_ ps)) => H). generalize (read_operations (plan_ ps)) at 1 3.
    intros ops. induction ops as [| [type op] ops IH]; intros Hin; [done |]. cbn [start_reads]. rewrite (proj2 (Z.eqb_neq _ _)); [apply IH; intros; apply Hin; by right |].
    pose proof (Hlast type op ltac:(apply Hin; left)). lia.
Qed.

Lemma prefetch_idle cn w s : last < w → startPrefetchForWave ps cn w s = Returned () s.
Proof using Hlast.
  intros Hw. unfold startPrefetchForWave. destruct (disable_prefetch ps); [done |].
  generalize (fun e (H : e ∈ read_operations (plan_ ps)) => H). generalize (read_operations (plan_ ps)) at 1 3.
  intros ops. induction ops as [| [type op] ops IH]; intros Hin; [done |]. cbn [start_prefetches].
  rewrite (proj2 (Z.eqb_neq _ _)) by (pose proof (Hlast type op ltac:(apply Hin; left)); lia). erewrite run_bind; [apply IH; intros; apply Hin; by right | done].
Qed.

End idle.

(** C35: When the last operations of a plan end without being polled, as operations of size 0 do, the
    loop does not notice that reading is finished: without operations that run and waves to
    start it goes on until the total time-out, whatever parts are available. *)
Theorem idle_loop_never_finishes B ps last w failed rounds s :
  (∀ type op, (type, op) ∈ read_operations (plan_ ps) → wave op <= last) → last <= w →
  executors_ s = [] → isFinishingPossible (plan_ ps) (networking_failures_ s) = Ok true → Forall (fun rd => total_expired rd = false) rounds →
  receive_loop B ps rounds w failed s = Returned false s.
Proof.
  intros Hlast Hw He Hp Hrounds. revert w failed Hw. induction Hrounds as [| rd rounds Ht _ IH]; intros w failed Hw; [done |]. cbn [receive_loop]. rewrite Ht.
  assert (∃ w' failed', w <= w' ∧ next_wave B ps rd w failed s = Returned (w', failed') s) as (w' & failed' & Hw' & En).
  { unfold next_wave. destruct (_ || _); [| by exists w, failed]. exists (w + 1), 0. split; [lia |].
    erewrite run_bind; [| apply (start_reads_idle B ps last Hlast); (lia || done)]. erewrite run_bind; [done |]. by rewrite (prefetch_idle ps last Hlast) by lia. }
  rewrite (run_bind _ _ _ _ _ En). cbv beta iota. rewrite run_inspect, He, run_inspect, (run_lift _ _ _ _ Hp), run_sassert by done. apply IH. lia.
Qed.

(** The last block of a full chunk in ec(3,2) without its part 0: parts 3 and 4 and the empty parts 1
    and 2 are there.  Part 3 arrives, the connection to part 4 breaks, and part 2 is added. *)
Definition last_block_plan : plan :=
  match chunk_prepare 1023 1 (part_id (ec_getSliceType 3 2) <$> [3; 4; 1; 2]) new_ChunkReadPlanner with
  | Ok s => match buildPlan (fun n => n) 1 s with Ok (_, p) => p | _ => empty_plan 0 0 [] 0 0 end
  | _ => empty_plan 0 0 [] 0 0
  end.

Definition last_block_params : params :=
  {| locations := fun type => Some {| address := type; chunk_type := type; chunkserver_version := kFirstECVersion |};
     chunk_id_ := 1; chunk_version_ := 1; plan_ := last_block_plan; disable_prefetch := true |}.

Definition last_block_round (hang_up : bool) : round :=
  {| total_expired := false; wave_expired := false; connect := fun type => Connected type false 34 sample_server; prefetch_connect := fun _ => Refused;
     polled := Events (fun fd => if ChunkPartType.getSlicePart fd =? 3 then (Some (Receives 100), false) else (None, hang_up)) |}.

Definition last_block_run (rounds : list round) : outcome execution bool :=
  executeReadOperations 1 last_block_params (last_block_round false) rounds (fresh last_block_params ChunkserverStats.empty).

(** Part 3 arrives in the first five rounds, part 4 is lost in the next one, and part 2 is started. *)
Definition last_block_state : execution :=
  match last_block_run (replicate 5 (last_block_round false) ++ replicate 2 (last_block_round true)) with Returned _ s => s | _ => fresh last_block_params ChunkserverStats.empty end.

Lemma waves_below w (ops : list (Z * ReadOperation)) : forallb (fun e => wave (snd e) <=? w) ops = true → ∀ type op, (type, op) ∈ ops → wave op <= w.
Proof. rewrite forallb_forall. intros H type op Hop%list_elem_of_In. apply Z.leb_le, (H _ Hop). Qed.

Lemma idle_loop_never_finishes_witness :
  (available_parts_ last_block_state, networking_failures_ last_block_state) = (part_id (ec_getSliceType 3 2) <$> [1; 3; 2], part_id (ec_getSliceType 3 2) <$> [4]) ∧
  isReadingFinished last_block_plan (available_parts_ last_block_state) = Ok true ∧
  receive_loop 1 last_block_params (replicate 1000 (last_block_round true)) 1 1 last_block_state = Returned false last_block_state.
Proof.
  split; [vm_compute; reflexivity |]. split; [vm_compute; reflexivity |].
  apply (idle_loop_never_finishes 1 last_block_params 1 1 1 (replicate 1000 (last_block_round true)) last_block_state);
    [apply waves_below; vm_compute; reflexivity | apply Z.le_refl | vm_compute; reflexivity | vm_compute; reflexivity | apply Forall_replicate; reflexivity].
Defined.
