(* ===== verification/ChunkStorage.v ===== *)
(** * Chunks on the disks of a chunk server

    src/chunkserver/chunkserver-common: a chunk part as a pair of files on a conventional disk
    (cmr_disk.cc, cmr_chunk.cc, disk_with_fd.cc, chunk_with_fd.cc, chunk_signature.cc), the
    opening and closing of chunks with the table of checksums that is kept while a chunk is
    open (hdd_utils.cc, open_chunk.h), and the operations of src/chunkserver/hddspacemgr.cc
    that write, truncate and test chunks.

    Files are lists of bytes.  Every system call takes its result from a script: it does all
    that it is asked for, or some of it, or it fails; a script that has ended is one without
    further faults.  The size of a block is the parameter [B], the table of checksums of an
    open chunk is the list of bytes that the code copies to and from the metadata file. *)

From Stdlib Require Import Strings.Byte.
From S2P Require Import Prelude FlatContainers Serialization Packets Crc ErasureCode ReedSolomon SliceTraits ReadPlans ReadPlanFacts ReadExecution ChunkReader.
Import Serialization SliceTraits.
Open Scope Z_scope.

Module Storage.

Definition SAUNAFS_ERROR_NOCHUNK : Z := 13.
Definition SAUNAFS_ERROR_NOTDONE : Z := 16.
Definition SAUNAFS_ERROR_WRONGVERSION : Z := 19.
Definition SAUNAFS_ERROR_BNUMTOOBIG : Z := 23.
Definition SAUNAFS_ERROR_WRONGSIZE : Z := 24.
Definition SAUNAFS_ERROR_WRONGOFFSET : Z := 25.

Definition kCrcSize : Z := 4.
Definition kMaxSignatureBlockSize : Z := 1024.
Definition kDiskBlockSize : Z := 4096.
Definition kMaxCrcBlockSize : Z := SFSBLOCKSINCHUNK * kCrcSize.
Definition kMaxUInt32Number : Z := 2 ^ 32 - 1.
Definition kOpenRetryCount : nat := 4.

(** ** Files and system calls *)

(** What becomes of a system call; [Exhausted] is ENFILE. *)
Inductive io := Full | Short (n : nat) | Failed | Exhausted.

(** A chunk with its files.  [registered_] says whether it is in gChunksMap, [metaName] and [dataName] are the versions in the names of the
    files, [metaFD] and [dataFD] say whether the descriptors are valid, and [crcData] is the
    table of the entry in gOpenChunks. *)
Record chunk := mk_chunk {
  registered_ : bool;
  id_ : Z;
  type_ : Z;
  version_ : Z;
  blocks_ : Z;
  wasChanged_ : bool;
  validAttr_ : bool;
  refCount_ : Z;
  metaFD_ : bool;
  dataFD_ : bool;
  crcData : list byte;
  metaName : Z;
  dataName : Z;
  metaFile : list byte;
  dataFile : list byte;
}.

Definition setVersion v c := mk_chunk (registered_ c) (id_ c) (type_ c) v (blocks_ c) (wasChanged_ c) (validAttr_ c) (refCount_ c) (metaFD_ c) (dataFD_ c) (crcData c) (metaName c) (dataName c) (metaFile c) (dataFile c).
Definition setBlocks n c := mk_chunk (registered_ c) (id_ c) (type_ c) (version_ c) n (wasChanged_ c) (validAttr_ c) (refCount_ c) (metaFD_ c) (dataFD_ c) (crcData c) (metaName c) (dataName c) (metaFile c) (dataFile c).
Definition setWasChanged b c := mk_chunk (registered_ c) (id_ c) (type_ c) (version_ c) (blocks_ c) b (validAttr_ c) (refCount_ c) (metaFD_ c) (dataFD_ c) (crcData c) (metaName c) (dataName c) (metaFile c) (dataFile c).
Definition setValidAttr b c := mk_chunk (registered_ c) (id_ c) (type_ c) (version_ c) (blocks_ c) (wasChanged_ c) b (refCount_ c) (metaFD_ c) (dataFD_ c) (crcData c) (metaName c) (dataName c) (metaFile c) (dataFile c).
Definition setRefCount n c := mk_chunk (registered_ c) (id_ c) (type_ c) (version_ c) (blocks_ c) (wasChanged_ c) (validAttr_ c) n (metaFD_ c) (dataFD_ c) (crcData c) (metaName c) (dataName c) (metaFile c) (dataFile c).
Definition setFDs m d c := mk_chunk (registered_ c) (id_ c) (type_ c) (version_ c) (blocks_ c) (wasChanged_ c) (validAttr_ c) (refCount_ c) m d (crcData c) (metaName c) (dataName c) (metaFile c) (dataFile c).
Definition setCrcData t c := mk_chunk (registered_ c) (id_ c) (type_ c) (version_ c) (blocks_ c) (wasChanged_ c) (validAttr_ c) (refCount_ c) (metaFD_ c) (dataFD_ c) t (metaName c) (dataName c) (metaFile c) (dataFile c).
Definition setNames m d c := mk_chunk (registered_ c) (id_ c) (type_ c) (version_ c) (blocks_ c) (wasChanged_ c) (validAttr_ c) (refCount_ c) (metaFD_ c) (dataFD_ c) (crcData c) m d (metaFile c) (dataFile c).
Definition setMetaFile f c := mk_chunk (registered_ c) (id_ c) (type_ c) (version_ c) (blocks_ c) (wasChanged_ c) (validAttr_ c) (refCount_ c) (metaFD_ c) (dataFD_ c) (crcData c) (metaName c) (dataName c) f (dataFile c).
Definition unregister c := mk_chunk false (id_ c) (type_ c) (version_ c) (blocks_ c) (wasChanged_ c) (validAttr_ c) (refCount_ c) (metaFD_ c) (dataFD_ c) (crcData c) (metaName c) (dataName c) (metaFile c) (dataFile c).
Definition setDataFile f c := mk_chunk (registered_ c) (id_ c) (type_ c) (version_ c) (blocks_ c) (wasChanged_ c) (validAttr_ c) (refCount_ c) (metaFD_ c) (dataFD_ c) (crcData c) (metaName c) (dataName c) (metaFile c) f.

(** The chunk, the script, and the chunks reported as damaged to the master. *)
Record disk := mk_disk {
  chunk_ : chunk;
  script : list io;
  gDamagedChunks : list (Z * Z);
}.

Definition with_chunk (f : chunk → chunk) (s : disk) : disk := mk_disk (f (chunk_ s)) (script s) (gDamagedChunks s).

Definition next_io : exec disk io := fun s =>
  match script s with
  | [] => Returned Full s
  | r :: rest => Returned r (mk_disk (chunk_ s) rest (gDamagedChunks s))
  end.

(** The part of [d] that is transferred; none when the call fails. *)
Definition transferred (r : io) (d : list byte) : option (list byte) :=
  match r with Full => Some d | Short n => Some (take n d) | Failed | Exhausted => None end.

Definition pread (fd : chunk → bool) (file : chunk → list byte) (size offset : Z) : exec disk (option (list byte)) :=
  r ← next_io; c ←{ chunk_ }; mret (if fd c then transferred r (bytes_at offset size (file c)) else None).

(** A file after a write, which may be beyond its end. *)
Definition file_write (offset : Z) (d f : list byte) : list byte :=
  if decide (d = []) then f else write_at offset d (f ++ replicate (Z.to_nat offset - length f) x00).

Definition pwrite (fd : chunk → bool) (file : chunk → list byte) (set : list byte → chunk → chunk) (d : list byte) (offset : Z) : exec disk Z :=
  r ← next_io; c ←{ chunk_ };
  match (if fd c then transferred r d else None) with
  | Some w => _ ← modify (with_chunk (set (file_write offset w (file c)))); mret (Z.of_nat (length w))
  | None => mret (-1)
  end.

Definition pread_data := pread dataFD_ dataFile.
Definition pread_meta := pread metaFD_ metaFile.
Definition pwrite_data := pwrite dataFD_ dataFile setDataFile.
Definition pwrite_meta := pwrite metaFD_ metaFile setMetaFile.

Definition ftruncateData (size : Z) : exec disk Z :=
  r ← next_io; c ←{ chunk_ };
  match (if dataFD_ c then transferred r [] else None) with
  | Some _ => _ ← modify (with_chunk (setDataFile (resize size (dataFile c)))); mret 0
  | None => mret (-1)
  end.

(** [fallocate] with FALLOC_FL_PUNCH_HOLE and FALLOC_FL_KEEP_SIZE; its result is not used. *)
Definition file_punch (offset size : Z) (f : list byte) : list byte :=
  take (Z.to_nat offset) f ++ replicate (min (Z.to_nat size) (length f - Z.to_nat offset)) x00 ++ drop (Z.to_nat offset + Z.to_nat size) f.

Definition punch_hole (offset size : Z) : exec disk () :=
  r ← next_io; c ←{ chunk_ };
  match (if dataFD_ c then transferred r [] else None) with
  | Some _ => modify (with_chunk (setDataFile (file_punch offset size (dataFile c))))
  | None => mret ()
  end.

Definition hddReportDamagedChunk : exec disk () :=
  modify (fun s => mk_disk (chunk_ s) (script s) (gDamagedChunks s ++ [(id_ (chunk_ s), type_ (chunk_ s))])).

(** ** Checksums *)

Definition put_crc (crc : N) : list byte := to_bytes (Datapack.put32bit (Z.of_N crc)).
Definition get_crc (bytes : list byte) : res N := '(z, _) ← Datapack.get32bit (of_bytes bytes); Ok (Z.to_N z).

(** [memcpy(crcData + i * kCrcSize, bytes, ...)] *)
Definition store_crcs (i : Z) (bytes : list byte) : exec disk () :=
  modify (with_chunk (fun c => setCrcData (write_at (i * kCrcSize) bytes (crcData c)) c)).

Section storage.
Context (B : Z) (address : N) (gPunchHolesInFiles gCheckCrcWhenWriting gPerformFsync : bool).

Definition gEmptyBlockCrc : res (list byte) := crc ← mycrc32_zeroblock 0 (Z.to_N B); Ok (put_crc crc).

(** [for (i = first; i < last; i++) memcpy(crcData + i * kCrcSize, &gEmptyBlockCrc, kCrcSize)] *)
Definition fill_empty (first last : Z) : exec disk () :=
  foldr (fun i k => empty ← lift gEmptyBlockCrc; _ ← store_crcs i empty; k) (mret ()) (seqZ first (last - first)).

(** ** chunk_with_fd.cc *)

Definition getBlockOffset (blockNumber : Z) : Z := blockNumber * B.
Definition getFileSizeFromBlockCount (blockCount : Z) : Z := blockCount * B.
Definition maxBlocksInFile (c : chunk) : Z :=
  let data_part_count := getNumberOfDataParts (ChunkPartType.getSliceType (type_ c)) in
  (SFSBLOCKSINCHUNK + data_part_count - 1) / data_part_count.
Definition getCrcBlockSize (c : chunk) : Z := kCrcSize * maxBlocksInFile c.
Definition isDataFileSizeValid (fileSize : Z) (c : chunk) : bool :=
  if negb (fileSize mod B =? 0) then false else if maxBlocksInFile c <? fileSize / B then false else true.
Definition setBlockCountFromDataFileSize (fileSize : Z) : exec disk () :=
  c ←{ chunk_ }; _ ← sassert (isDataFileSizeValid fileSize c); modify (with_chunk (setBlocks (fileSize / B))).
Definition getHeaderSize (c : chunk) : Z :=
  if isStandard (ChunkPartType.getSliceType (type_ c)) then kMaxSignatureBlockSize + kCrcSize * maxBlocksInFile c
  else (kMaxSignatureBlockSize + kCrcSize * maxBlocksInFile c + kDiskBlockSize - 1) / kDiskBlockSize * kDiskBlockSize.

(** [CmrDisk::updateChunkAttributes] outside a scan; the files are found under the names of the version. *)
Definition updateChunkAttributes : exec disk Z :=
  m ← next_io; c ←{ chunk_ };
  if negb (metaName c =? version_ c) || negb (match m with Full => true | _ => false end) then mret SAUNAFS_ERROR_NOCHUNK else
  d ← next_io;
  if negb (dataName c =? version_ c) || negb (match d with Full => true | _ => false end) then mret SAUNAFS_ERROR_NOCHUNK else
  let st_size := Z.of_nat (length (dataFile c)) in
  if negb (isDataFileSizeValid st_size c) then mret SAUNAFS_ERROR_NOCHUNK else
  _ ← setBlockCountFromDataFileSize st_size;
  _ ← modify (with_chunk (setValidAttr true));
  mret SAUNAFS_STATUS_OK.

(** ** cmr_disk.cc *)

(** The stored checksum and the block, or a negative result. *)
Definition readBlockAndCrc (blocknum : Z) : exec disk (option (list byte * list byte)) :=
  c ←{ chunk_ };
  let crc := bytes_at (blocknum * kCrcSize) kCrcSize (crcData c) in
  bytesRead ← pread_data B (getBlockOffset blocknum);
  match bytesRead with
  | Some d => if Z.of_nat (length d) =? B then mret (Some (crc, d)) else _ ← hddReportDamagedChunk; mret None
  | None => _ ← hddReportDamagedChunk; mret None
  end.

Definition blockSize : Z := 4096.

Definition is_zero (d : list byte) : bool := forallb (Byte.eqb x00) d.

Fixpoint punch_loop (steps : nat) (buffer : list byte) (offset step holeStart holeSize : Z) : exec disk (Z * Z) :=
  match steps with
  | O => mret (holeStart, holeSize)
  | S steps =>
      if is_zero (bytes_at step blockSize buffer) then
        let holeStart := if holeSize =? 0 then offset + step else holeStart in
        punch_loop steps buffer offset (step + blockSize) holeStart (holeSize + blockSize)
      else
        _ ← (if 0 <? holeSize then punch_hole holeStart holeSize else mret ());
        punch_loop steps buffer offset (step + blockSize) holeStart 0
  end.

(** The loop runs while a whole block of the file system is left. *)
Definition punchHoles (buffer : list byte) (offset size : Z) : exec disk () :=
  if negb gPunchHolesInFiles then mret () else
  let step := if offset mod blockSize =? 0 then 0 else blockSize - offset mod blockSize in
  '(holeStart, holeSize) ← punch_loop (Z.to_nat ((size - step) / blockSize)) buffer offset step 0 0;
  if 0 <? holeSize then punch_hole holeStart holeSize else mret ().

Definition writePartialBlockAndCrc (buffer : list byte) (offsetInBlock size : Z) (crcBuff : list byte) (blockNum : Z) : exec disk Z :=
  ret ← pwrite_data (take (Z.to_nat size) buffer) (getBlockOffset blockNum + offsetInBlock);
  if negb (ret =? size) then _ ← hddReportDamagedChunk; mret (-1) else
  _ ← punchHoles buffer (getBlockOffset blockNum + offsetInBlock) size;
  _ ← store_crcs blockNum crcBuff;
  mret size.

Definition writeFullBlocksAndCrcs (buffer : list byte) (startBlock numBlocks : Z) (crcBuff : list byte) : exec disk Z :=
  let size := numBlocks * B in
  ret ← pwrite_data (take (Z.to_nat size) buffer) (getBlockOffset startBlock);
  if negb (ret =? size) then _ ← hddReportDamagedChunk; mret (-1) else
  _ ← punchHoles buffer (getBlockOffset startBlock) size;
  _ ← store_crcs startBlock crcBuff;
  mret size.

(** The checksum of a block from those of its three parts. *)
Definition combine_parts (offsetInBlock size : Z) (preCrc crc postCrc : N) : res N :=
  if offsetInBlock =? 0 then mycrc32_combine crc postCrc (Z.to_N (B - (offsetInBlock + size)))
  else
    combinedCrc ← mycrc32_combine preCrc crc (Z.to_N size);
    if offsetInBlock + size <? B then mycrc32_combine combinedCrc postCrc (Z.to_N (B - (offsetInBlock + size))) else Ok combinedCrc.

(** The checksums of what comes before and after the bytes to be written, of a block that is
    there and whose checksum is verified, or of zeros in a block that is added; or an error. *)
Definition surrounding_crcs (blocknum offsetInBlock size : Z) : exec disk (Z + N * N) :=
  c ←{ chunk_ };
  if blocknum <? blocks_ c then
    readBytes ← readBlockAndCrc blocknum;
    match readBytes with
    | None => mret (inl SAUNAFS_ERROR_IO)
    | Some (crcBuff, dataInBuffer) =>
        preCrc ← lift (mycrc32 0 address (bytes_at 0 offsetInBlock dataInBuffer));
        chcrc ← lift (mycrc32 0 address (bytes_at offsetInBlock size dataInBuffer));
        postCrc ← lift (mycrc32 0 address (bytes_at (offsetInBlock + size) (B - (offsetInBlock + size)) dataInBuffer));
        combinedCrc ← lift (combine_parts offsetInBlock size preCrc chcrc postCrc);
        tmpCrc ← lift (get_crc crcBuff);
        if negb (tmpCrc =? combinedCrc)%N then _ ← hddReportDamagedChunk; mret (inl SAUNAFS_ERROR_CRC)
        else mret (inr (preCrc, postCrc))
    end
  else
    ret ← ftruncateData (getFileSizeFromBlockCount (blocknum + 1));
    if ret <? 0 then _ ← hddReportDamagedChunk; mret (inl SAUNAFS_ERROR_IO) else
    c ←{ chunk_ };
    let prevBlocks := blocks_ c in
    _ ← modify (with_chunk (setBlocks (blocknum + 1)));
    _ ← fill_empty prevBlocks blocknum;
    preCrc ← lift (mycrc32_zeroblock 0 (Z.to_N offsetInBlock));
    postCrc ← lift (mycrc32_zeroblock 0 (Z.to_N (B - (offsetInBlock + size))));
    mret (inr (preCrc, postCrc)).

Definition writeChunkBlock (version blocknum offsetInBlock size : Z) (crc : N) (buffer : list byte) (isFromReplication : bool) : exec disk Z :=
  c ←{ chunk_ };
  if negb (version_ c =? version) && (0 <? version) then mret SAUNAFS_ERROR_WRONGVERSION else
  if maxBlocksInFile c <=? blocknum then mret SAUNAFS_ERROR_BNUMTOOBIG else
  if B <? size then mret SAUNAFS_ERROR_WRONGSIZE else
  if (B <=? offsetInBlock) || (B <? u32 (offsetInBlock + size)) then mret SAUNAFS_ERROR_WRONGOFFSET else
  verified ← (if gCheckCrcWhenWriting && negb isFromReplication then lift (mycrc ← mycrc32 0 address (take (Z.to_nat size) buffer); Ok (crc =? mycrc)%N) else mret true);
  if negb verified then mret SAUNAFS_ERROR_CRC else
  _ ← modify (with_chunk (setWasChanged true));
  if (offsetInBlock =? 0) && (size =? B) then
    _ ← (if blocks_ c <=? blocknum then _ ← modify (with_chunk (setBlocks (blocknum + 1))); fill_empty (blocks_ c) blocknum else mret ());
    written ← writePartialBlockAndCrc buffer 0 B (put_crc crc) blocknum;
    mret (if written <? 0 then SAUNAFS_ERROR_IO else SAUNAFS_STATUS_OK)
  else
    crcs ← surrounding_crcs blocknum offsetInBlock size;
    match crcs with
    | inl status => mret status
    | inr (preCrc, postCrc) =>
        combinedCrc ← lift (combine_parts offsetInBlock size preCrc crc postCrc);
        written ← writePartialBlockAndCrc buffer offsetInBlock size (put_crc combinedCrc) blocknum;
        mret (if written <? 0 then SAUNAFS_ERROR_IO else SAUNAFS_STATUS_OK)
    end.

(** The checksums sent with the blocks are verified. *)
Fixpoint verify_crcs (crc : list N) (buffer : list byte) : res bool :=
  match crc with
  | [] => Ok true
  | x :: crc => y ← mycrc32 0 address (take (Z.to_nat B) buffer); if (x =? y)%N then verify_crcs crc (drop (Z.to_nat B) buffer) else Ok false
  end.

Definition writeChunkBlocks (version startBlock numBlocks : Z) (crc : list N) (buffer : list byte) (isFromReplication : bool) : exec disk Z :=
  c ←{ chunk_ };
  if negb (version_ c =? version) && (0 <? version) then mret (- SAUNAFS_ERROR_WRONGVERSION) else
  if maxBlocksInFile c <? startBlock + numBlocks then mret (- SAUNAFS_ERROR_BNUMTOOBIG) else
  if (SFSBLOCKSINCHUNK <? numBlocks) || negb (Z.of_nat (length crc) =? numBlocks) then mret (- SAUNAFS_ERROR_WRONGSIZE) else
  verified ← (if gCheckCrcWhenWriting && negb isFromReplication then lift (verify_crcs crc buffer) else mret true);
  if negb verified then mret (- SAUNAFS_ERROR_CRC) else
  _ ← modify (with_chunk (setWasChanged true));
  let crcBuff := mjoin (put_crc <$> crc) in
  _ ← (if blocks_ c <=? startBlock then fill_empty (blocks_ c) startBlock else mret ());
  _ ← (if blocks_ c <? startBlock + numBlocks then modify (with_chunk (setBlocks (startBlock + numBlocks))) else mret ());
  written ← writeFullBlocksAndCrcs buffer startBlock numBlocks crcBuff;
  mret (if written <? 0 then - SAUNAFS_ERROR_IO else numBlocks * B).

(** ** chunk_signature.cc *)

Definition kSignatureIdSize : Z := 8.
Definition kVersionOffset : Z := kSignatureIdSize + 8.
Definition signatureSize : Z := kVersionOffset + 4 + 2.
Definition kSauSignatureId : list byte := [x53; x41; x55; x43; x20; x31; x2e; x30].

Definition signature (chunkId chunkVersion chunkType : Z) : list byte :=
  kSauSignatureId ++ to_bytes (Datapack.put64bit chunkId ++ Datapack.put32bit chunkVersion ++ Datapack.put16bit chunkType).

(** [readFromDescriptor]: the chunk, the version, the type and whether the signature is valid;
    nothing when false is returned. *)
Definition readFromDescriptor : exec disk (option (Z * Z * Z * bool)) :=
  buffer ← pread_meta signatureSize 0;
  match buffer with
  | None => mret None
  | Some buffer =>
      if negb (Z.of_nat (length buffer) =? signatureSize) then mret None else
      '(chunkId, rest) ← lift (Datapack.get64bit (of_bytes (drop (Z.to_nat kSignatureIdSize) buffer)));
      '(chunkVersion, rest) ← lift (Datapack.get32bit rest);
      if bool_decide (take (Z.to_nat kSignatureIdSize) buffer = kSauSignatureId) then
        '(value, _) ← lift (Datapack.get16bit rest);
        valid ← lift (ChunkPartType.isValid value);
        mret (if (valid : bool) then Some (chunkId, chunkVersion, value, true) else None)
      else mret (Some (chunkId, chunkVersion, 0, false))
  end.

(** ** disk_with_fd.cc *)

(** [readChunkCrc]; the table is read into the entry of the open chunk. *)
Definition readChunkCrc (chunkVersion : Z) : exec disk Z :=
  sig ← readFromDescriptor;
  c ←{ chunk_ };
  match sig with
  | None => mret SAUNAFS_ERROR_IO
  | Some (chunkId, version, type, valid) =>
      if negb valid then mret SAUNAFS_ERROR_IO else
      let chunkVersion := if chunkVersion =? kMaxUInt32Number then version_ c else chunkVersion in
      if negb (id_ c =? chunkId) || negb (chunkVersion =? version) || negb (type_ c =? type) then mret SAUNAFS_ERROR_IO else
      ret ← pread_meta (getCrcBlockSize c) kMaxSignatureBlockSize;
      match ret with
      | None => mret SAUNAFS_ERROR_IO
      | Some d =>
          _ ← modify (with_chunk (setCrcData (write_at 0 d (crcData c))));
          mret (if Z.of_nat (length d) =? getCrcBlockSize c then SAUNAFS_STATUS_OK else SAUNAFS_ERROR_IO)
      end
  end.

(** [fsyncFD]: nothing is done for a descriptor that is not valid. *)
Definition fsyncFD (fd : chunk → bool) : exec disk Z :=
  c ←{ chunk_ };
  if negb (fd c) then mret SAUNAFS_STATUS_OK else
  r ← next_io; mret (match r with Full => SAUNAFS_STATUS_OK | _ => SAUNAFS_ERROR_IO end).

Definition fsyncChunk : exec disk Z :=
  metaResult ← fsyncFD metaFD_; dataResult ← fsyncFD dataFD_;
  mret (if (metaResult =? SAUNAFS_STATUS_OK) && (dataResult =? SAUNAFS_STATUS_OK) then SAUNAFS_STATUS_OK else SAUNAFS_ERROR_IO).

(** ** hdd_utils.cc *)

(** [::open] of a file that is found under the name of the version. *)
Definition opened (r : io) (found : bool) : bool := match r with Full | Short _ => found | _ => false end.

(** [creat] or [open]; whether the error is ENFILE. *)
Definition open_files (newFlag : bool) : exec disk bool :=
  m ← next_io; d ← next_io; c ←{ chunk_ };
  let metaFD := opened m (newFlag || (metaName c =? version_ c)) in
  let dataFD := opened d (newFlag || (dataName c =? version_ c)) in
  _ ← modify (with_chunk (setFDs metaFD dataFD));
  _ ← (if newFlag && metaFD then modify (with_chunk (fun c => setNames (version_ c) (dataName c) (setMetaFile [] c))) else mret ());
  _ ← (if newFlag && dataFD then modify (with_chunk (fun c => setNames (metaName c) (version_ c) (setDataFile [] c))) else mret ());
  mret (match (if dataFD then m else d) with Exhausted => true | _ => false end).

(** The loop over the tries; the entry of the opened chunk has a table of zeros. *)
Fixpoint open_tries (n : nat) (newFlag : bool) : exec disk bool :=
  match n with
  | O => mret false
  | S n =>
      enfile ← open_files newFlag;
      c ←{ chunk_ };
      if negb (metaFD_ c) && negb enfile then mret false
      else if metaFD_ c then _ ← modify (with_chunk (setCrcData (replicate (Z.to_nat kMaxCrcBlockSize) x00))); mret true
      else open_tries n newFlag
  end.

Definition hddIOBegin (newFlag : bool) (chunkVersion : Z) : exec disk Z :=
  c ←{ chunk_ };
  status ← (
    if refCount_ c =? 0 then
      let add := negb (metaFD_ c) in
      _ ← sassert (negb (newFlag && metaFD_ c));
      ok ← (if add then open_tries kOpenRetryCount newFlag else mret true);
      if negb ok then mret SAUNAFS_ERROR_IO else
      if (newFlag : bool) then
        _ ← modify (with_chunk (fun c => setCrcData (memset0 0 (getCrcBlockSize c) (crcData c)) c));
        mret SAUNAFS_STATUS_OK
      else if add then readChunkCrc chunkVersion
      else mret SAUNAFS_STATUS_OK
    else mret SAUNAFS_STATUS_OK);
  if negb (status =? SAUNAFS_STATUS_OK) then mret status else
  _ ← modify (with_chunk (fun c => setRefCount (refCount_ c + 1) c));
  mret SAUNAFS_STATUS_OK.

Definition chunkWriteCrc : exec disk Z :=
  c ←{ chunk_ };
  ret ← pwrite_meta (bytes_at 0 (getCrcBlockSize c) (crcData c)) kMaxSignatureBlockSize;
  mret (if ret =? getCrcBlockSize c then SAUNAFS_STATUS_OK else SAUNAFS_ERROR_IO).

Definition hddIOEnd : exec disk Z :=
  c ←{ chunk_ };
  status ← (
    if wasChanged_ c then
      status ← chunkWriteCrc;
      if negb (status =? SAUNAFS_STATUS_OK) then mret status else
      status ← (if gPerformFsync then fsyncChunk else mret SAUNAFS_STATUS_OK);
      if negb (status =? SAUNAFS_STATUS_OK) then mret status else
      _ ← modify (with_chunk (setWasChanged false)); mret SAUNAFS_STATUS_OK
    else mret SAUNAFS_STATUS_OK);
  if negb (status =? SAUNAFS_STATUS_OK) then mret status else
  if refCount_ c <=? 0 then mret SAUNAFS_STATUS_OK else
  _ ← modify (with_chunk (fun c => setValidAttr false (setRefCount (refCount_ c - 1) c)));
  mret SAUNAFS_STATUS_OK.

(** [gOpenChunks.freeUnused] closes the files of a chunk that is not used. *)
Definition freeUnused : exec disk () :=
  c ←{ chunk_ }; if refCount_ c =? 0 then modify (with_chunk (fun c => setCrcData [] (setFDs false false c))) else mret ().

(** [CmrDisk::unlinkChunk] when the trash is not enabled; a file that has been removed has the name -1. *)
Definition removed (r : io) (found : bool) : bool := match r with Full => found | _ => false end.

Definition unlinkChunk : exec disk Z :=
  m ← next_io; c ←{ chunk_ };
  if negb (removed m (metaName c =? version_ c)) then mret SAUNAFS_ERROR_NOTDONE else
  _ ← modify (with_chunk (setNames (-1) (dataName c)));
  d ← next_io;
  if negb (removed d (dataName c =? version_ c)) then mret SAUNAFS_ERROR_NOTDONE else
  _ ← modify (with_chunk (setNames (-1) (-1)));
  mret SAUNAFS_STATUS_OK.

(** [hddDeleteChunkFromRegistry] of a chunk that no thread waits for: the entry in gOpenChunks is
    purged, and the chunk is removed from gChunksMap. *)
Definition hddDeleteChunkFromRegistry : exec disk () :=
  modify (with_chunk (fun c => unregister (setCrcData [] (setFDs false false c)))).

(** [hddChunkFindAndLock] of a chunk that nobody has locked. *)
Definition hddChunkFindAndLock : exec disk bool :=
  c ←{ chunk_ };
  if negb (registered_ c) then mret false else
  if validAttr_ c then mret true else
  status ← updateChunkAttributes;
  if status =? SAUNAFS_ERROR_NOCHUNK then _ ← hddReportDamagedChunk; _ ← unlinkChunk; _ ← hddDeleteChunkFromRegistry; mret false
  else mret true.

(** ** cmr_chunk.cc and cmr_disk.cc: versions *)

Definition rename_ok (r : io) (found : bool) : bool := match r with Full => found | _ => false end.

Definition renameChunkFile (new_version : Z) : exec disk Z :=
  m ← next_io; c ←{ chunk_ };
  if negb (rename_ok m (metaName c =? version_ c)) then mret (-1) else
  _ ← modify (with_chunk (setNames new_version (dataName c)));
  d ← next_io;
  if negb (rename_ok d (dataName c =? version_ c)) then mret (-1) else
  _ ← modify (with_chunk (setNames new_version new_version));
  _ ← modify (with_chunk (setVersion new_version));
  mret 0.

Definition overwriteChunkVersion (newVersion : Z) : exec disk Z :=
  ret ← pwrite_meta (to_bytes (Datapack.put32bit newVersion)) kVersionOffset;
  if negb (ret =? 4) then mret SAUNAFS_ERROR_IO else
  _ ← modify (with_chunk (setVersion newVersion)); mret SAUNAFS_STATUS_OK.

(** ** hddspacemgr.cc *)

Definition hddOpen : exec disk Z :=
  status ← hddIOBegin false kMaxUInt32Number;
  if negb (status =? SAUNAFS_STATUS_OK) then _ ← hddReportDamagedChunk; mret status else mret status.

Definition hddClose : exec disk Z :=
  status ← hddIOEnd;
  if negb (status =? SAUNAFS_STATUS_OK) then _ ← hddReportDamagedChunk; mret status else mret status.

(** The calls by identifier. *)
Definition found (k : exec disk Z) : exec disk Z := ok ← hddChunkFindAndLock; if (ok : bool) then k else mret SAUNAFS_ERROR_NOCHUNK.

(** [gOpenChunks.getResource] asserts that the descriptor is valid. *)
Definition getResource : exec disk () := c ←{ chunk_ }; sassert (metaFD_ c).

Definition hddChunkWriteBlock (version blocknum offset size : Z) (crc : N) (buffer : list byte) : exec disk Z :=
  found (_ ← getResource; writeChunkBlock version blocknum offset size crc buffer false).

Definition hddChunkWriteFullBlocks (version startBlock numBlocks : Z) (crcList : list N) (buffer : list byte) : exec disk Z :=
  ok ← hddChunkFindAndLock;
  if (ok : bool) then _ ← getResource; writeChunkBlocks version startBlock numBlocks crcList buffer false else mret (- SAUNAFS_ERROR_NOCHUNK).

(** The status and [*blocks]. *)
Definition hddChunkGetNumberOfBlocks (version : Z) : exec disk (Z * Z) :=
  ok ← hddChunkFindAndLock;
  if negb ok then mret (SAUNAFS_ERROR_NOCHUNK, 0) else
  c ←{ chunk_ };
  if negb (version_ c =? version) && (0 <? version) then mret (SAUNAFS_ERROR_WRONGVERSION, 0) else mret (SAUNAFS_STATUS_OK, blocks_ c).

(** [hddInternalCreateChunk] once [hddChunkCreate] has made the chunk on a disk. *)
Definition new_chunk (chunkId version chunkType : Z) : chunk :=
  mk_chunk true chunkId chunkType version 0 false false 0 false false [] (-1) (-1) [] [].

Definition hddInternalCreateChunk : exec disk Z :=
  status ← hddIOBegin true kMaxUInt32Number;
  if negb (status =? SAUNAFS_STATUS_OK) then _ ← hddDeleteChunkFromRegistry; mret SAUNAFS_ERROR_IO else
  c ←{ chunk_ };
  let header := write_at 0 (signature (id_ c) (version_ c) (type_ c)) (replicate (Z.to_nat (getHeaderSize c)) x00) in
  ret ← pwrite_meta header 0;
  if negb (ret =? getHeaderSize c) then _ ← hddIOEnd; _ ← unlinkChunk; _ ← hddDeleteChunkFromRegistry; mret SAUNAFS_ERROR_IO else
  status ← hddIOEnd;
  if negb (status =? SAUNAFS_STATUS_OK) then _ ← unlinkChunk; _ ← hddDeleteChunkFromRegistry; mret status else mret SAUNAFS_STATUS_OK.

(** [hddInternalDelete]; errno after a failed [unlinkChunk] is [err]. *)
Definition deleteChunk (ENOENT err version : Z) : exec disk Z :=
  c ←{ chunk_ };
  if negb (version_ c =? version) && (0 <? version) then mret SAUNAFS_ERROR_WRONGVERSION else
  unlinked ← unlinkChunk;
  if unlinked <? 0 then
    _ ← (if err =? ENOENT then hddDeleteChunkFromRegistry else mret ());
    mret SAUNAFS_ERROR_IO
  else _ ← hddDeleteChunkFromRegistry; mret SAUNAFS_STATUS_OK.

Definition hddInternalDelete (ENOENT err version : Z) : exec disk Z := found (deleteChunk ENOENT err version).

(** The test of all blocks; the number of blocks left. *)
Fixpoint test_blocks (n : nat) (block : Z) : exec disk Z :=
  match n with
  | O => mret SAUNAFS_STATUS_OK
  | S n =>
      readBytes ← readBlockAndCrc block;
      match readBytes with
      | None => mret SAUNAFS_ERROR_IO
      | Some (crcBuff, dataInBuffer) =>
          crc ← lift (get_crc crcBuff);
          mycrc ← lift (mycrc32 0 address dataInBuffer);
          if negb (crc =? mycrc)%N then mret SAUNAFS_ERROR_CRC else test_blocks n (block + 1)
      end
  end.

Definition hddInternalTestChunk (version : Z) : exec disk Z :=
  found (
    c ←{ chunk_ };
    if negb (version_ c =? version) && (0 <? version) then mret SAUNAFS_ERROR_WRONGVERSION else
    status ← hddIOBegin false kMaxUInt32Number;
    if negb (status =? SAUNAFS_STATUS_OK) then mret status else
    c ←{ chunk_ };
    status ← test_blocks (Z.to_nat (blocks_ c)) 0;
    if negb (status =? SAUNAFS_STATUS_OK) then _ ← hddIOEnd; mret status else hddIOEnd).

Definition updateVersion (version newversion : Z) : exec disk Z :=
  c ←{ chunk_ };
  if negb (version_ c =? version) && (0 <? version) then mret SAUNAFS_ERROR_WRONGVERSION else
  renamed ← renameChunkFile newversion;
  if renamed <? 0 then mret SAUNAFS_ERROR_IO else
  status ← hddIOBegin false version;
  if negb (status =? SAUNAFS_STATUS_OK) then mret status else
  status ← overwriteChunkVersion newversion;
  if negb (status =? SAUNAFS_STATUS_OK) then _ ← hddIOEnd; mret SAUNAFS_ERROR_IO else hddIOEnd.

Definition hddInternalUpdateVersion (version newversion : Z) : exec disk Z := found (updateVersion version newversion).

(** The second step of [hddInternalTruncate]: true when it has been done, with the number of
    blocks; false for SAUNAFS_ERROR_IO. *)
Definition expand (blocks : Z) : exec disk bool :=
  c ←{ chunk_ };
  _ ← fill_empty (blocks_ c) blocks;
  ret ← ftruncateData (getFileSizeFromBlockCount blocks);
  mret (0 <=? ret).

(** For a disk that is not a zoned device. *)
Definition shrink (originalBlocks length blocks : Z) : exec disk bool :=
  let fullBlocks := length / B in
  let lastPartialBlockSize := length - fullBlocks * B in
  ret ← (if 0 <? lastPartialBlockSize then ftruncateData (getFileSizeFromBlockCount fullBlocks + lastPartialBlockSize) else mret 0);
  if ret <? 0 then mret false else
  ret ← ftruncateData (getFileSizeFromBlockCount blocks);
  if ret <? 0 then mret false else
  if 0 <? lastPartialBlockSize then
    blockBuffer ← pread_data lastPartialBlockSize (getBlockOffset fullBlocks);
    match blockBuffer with
    | None => mret false
    | Some blockBuffer =>
        if negb (Z.of_nat (List.length blockBuffer) =? lastPartialBlockSize) then mret false else
        crc ← lift (mycrc32_zeroexpanded 0 address blockBuffer (Z.to_N (B - lastPartialBlockSize)));
        _ ← store_crcs fullBlocks (put_crc crc);
        _ ← fill_empty (fullBlocks + 1) originalBlocks;
        mret true
    end
  else mret true.

Definition hddInternalTruncate (oldVersion newVersion length : Z) : exec disk Z :=
  if SFSBLOCKSINCHUNK * B <? length then mret SAUNAFS_ERROR_WRONGSIZE else
  found (
    c ←{ chunk_ };
    if negb (version_ c =? oldVersion) && (0 <? oldVersion) then mret SAUNAFS_ERROR_WRONGVERSION else
    let originalBlocks := blocks_ c in
    renamed ← renameChunkFile newVersion;
    if renamed <? 0 then mret SAUNAFS_ERROR_IO else
    status ← hddIOBegin false oldVersion;
    if negb (status =? SAUNAFS_STATUS_OK) then mret status else
    status ← overwriteChunkVersion newVersion;
    if negb (status =? SAUNAFS_STATUS_OK) then _ ← hddIOEnd; mret SAUNAFS_ERROR_IO else
    _ ← modify (with_chunk (setWasChanged true));
    let blocks := (length + B - 1) / B in
    c ←{ chunk_ };
    done ← (if blocks_ c <? blocks then expand blocks else shrink originalBlocks length blocks);
    if negb done then _ ← hddIOEnd; mret SAUNAFS_ERROR_IO else
    _ ← modify (with_chunk (setBlocks blocks));
    hddIOEnd).

End storage.
End Storage.
