(* ===== verification/StorageFacts.v ===== *)
(** * What the storage of chunks guarantees

    The bytes of a chunk part are a function of their position: blocks that are not in the file
    are zeros. *)

From Stdlib Require Import Strings.Byte.
From S2P Require Import Prelude FlatContainers Serialization Packets Crc ErasureCode ReedSolomon SliceTraits ReadPlans ReadPlanFacts ReadExecution ChunkReader ChunkStorage.
Import Serialization SliceTraits Storage.
Open Scope Z_scope.

(** ** Runs that return *)

Definition ensures {S A} (m : exec S A) (s : S) (Q : A → S → Prop) : Prop :=
  match m s with Returned a s' => Q a s' | _ => False end.

Lemma ensures_bind {S A A'} (m : exec S A) (k : A → exec S A') s Q : ensures m s (fun a s' => ensures (k a) s' Q) → ensures (a ← m; k a) s Q.
Proof. unfold ensures, mbind, exec_bind. by destruct (m s). Qed.

Lemma ensures_mono {S A} (m : exec S A) s (P Q : A → S → Prop) : ensures m s P → (∀ a s', P a s' → Q a s') → ensures m s Q.
Proof. unfold ensures. destruct (m s); try done. auto. Qed.

Lemma ensures_and {S A} (m : exec S A) s (P P' Q : A → S → Prop) : ensures m s P → ensures m s P' → (∀ a s', P a s' → P' a s' → Q a s') → ensures m s Q.
Proof. unfold ensures. destruct (m s); try done. auto. Qed.

Lemma ensures_lift {S R A} m x (k : R → exec S A) s Q : m = Ok x → ensures (k x) s Q → ensures (x ← lift m; k x) s Q.
Proof. unfold ensures. intros E. by rewrite (run_lift m x). Qed.

Lemma ensures_modify {S A} (f : S → S) (k : () → exec S A) s Q : ensures (k ()) (f s) Q → ensures (x ← modify f; k x) s Q.
Proof. done. Qed.

Lemma ensures_inspect {S R A} (f : S → R) (k : R → exec S A) s Q : ensures (k (f s)) s Q → ensures (x ←{ f }; k x) s Q.
Proof. done. Qed.

Lemma ensures_run {S A A'} (m : exec S A) (k : A → exec S A') s P Q : ensures m s P → (∀ a s', P a s' → ensures (k a) s' Q) → ensures (a ← m; k a) s Q.
Proof. intros H1 H2. apply ensures_bind. by eapply ensures_mono. Qed.

Lemma ensures_returned {S A} (m : exec S A) s Q : ensures m s Q → ∃ a s', m s = Returned a s' ∧ Q a s'.
Proof. unfold ensures. destruct (m s) as [a s' | | |]; try done. by exists a, s'. Qed.

(** ** Bytes of files *)

Definition content (f : list byte) (x : Z) : byte := default x00 (f !! Z.to_nat x).

(** [n] bytes of a function from [from] on. *)
Definition span (g : Z → byte) (from n : Z) : list byte := g <$> seqZ from n.

Lemma span_length g from n : length (span g from n) = Z.to_nat n.
Proof. unfold span. by rewrite length_fmap, length_seqZ. Qed.

Lemma span_lookup g from n i : (i < Z.to_nat n)%nat → span g from n !! i = Some (g (from + Z.of_nat i)).
Proof. intros Hi. unfold span. rewrite list_lookup_fmap, lookup_seqZ_lt by lia. done. Qed.

Lemma span_app g from n m : 0 <= n → 0 <= m → span g from (n + m) = span g from n ++ span g (from + n) m.
Proof. intros Hn Hm. unfold span. by rewrite seqZ_app, fmap_app. Qed.

Lemma span_ext g h from n : (∀ x, from <= x < from + n → g x = h x) → span g from n = span h from n.
Proof. intros H. apply list_fmap_ext. intros i x [-> Hx]%lookup_seqZ. apply H. lia. Qed.

Lemma span_const from n (b : byte) : span (fun _ => b) from n = replicate (Z.to_nat n) b.
Proof. apply list_eq_same_length with (n := Z.to_nat n); rewrite ?span_length, ?length_replicate; try done. intros i x y Hi. rewrite span_lookup by lia. rewrite lookup_replicate_2 by lia. congruence. Qed.

Lemma span_list (d : list byte) from g : (∀ i, 0 <= i < Z.of_nat (length d) → g (from + i) = content d i) → span g from (Z.of_nat (length d)) = d.
Proof.
  intros H. apply list_eq_same_length with (n := length d); rewrite ?span_length; try lia. intros i x y Hi. rewrite span_lookup by lia. intros [= <-] Hy.
  rewrite H by lia. unfold content. by rewrite Nat2Z.id, Hy.
Qed.

Lemma bytes_at_span from n f : 0 <= from → 0 <= n → from + n <= Z.of_nat (length f) → bytes_at from n f = span (content f) from n.
Proof.
  intros Hf Hn Hl. apply list_eq_same_length with (n := Z.to_nat n); rewrite ?span_length, ?length_bytes_at; try lia.
  intros i x y Hi. rewrite bytes_at_lookup, span_lookup by lia. intros Hx [= <-]. unfold content.
  replace (Z.to_nat (from + Z.of_nat i)) with (Z.to_nat from + i)%nat by lia. by rewrite Hx.
Qed.

Lemma content_beyond f x : Z.of_nat (length f) <= x → content f x = x00.
Proof. intros H. unfold content. by rewrite lookup_ge_None_2 by lia. Qed.

Lemma content_ext f g : length f = length g → (∀ x, 0 <= x < Z.of_nat (length f) → content f x = content g x) → f = g.
Proof.
  intros L H. apply list_eq_same_length with (n := length f); try done. intros i x y Hi Hx Hy. specialize (H (Z.of_nat i)).
  unfold content in H. rewrite Nat2Z.id, Hx, Hy in H. apply H. lia.
Qed.

Lemma content_app f n x : content (f ++ replicate n x00) x = content f x.
Proof.
  unfold content. destruct (decide (Z.to_nat x < length f)%nat); [by rewrite lookup_app_l | rewrite lookup_app_r by lia].
  rewrite (lookup_ge_None_2 f) by lia. destruct (replicate n x00 !! (Z.to_nat x - length f)%nat) eqn:E; [| done]. by apply lookup_replicate in E as [-> _].
Qed.

Lemma content_write off d f x : 0 <= off → 0 <= x →
  content (file_write off d f) x = if decide (off <= x < off + Z.of_nat (length d)) then content d (x - off) else content f x.
Proof.
  intros Ho Hx. unfold file_write. case_decide as Ed.
  - subst d. cbn. by rewrite decide_False by lia.
  - rewrite <- (content_app f (Z.to_nat off - length f) x). set (f' := f ++ _). assert (Z.to_nat off <= length f')%nat as Hl by (unfold f'; rewrite length_app, length_replicate; lia).
    assert (length (take (Z.to_nat off) f') = Z.to_nat off) as Lt by (rewrite length_take; lia). unfold content, write_at. case_decide.
    + rewrite lookup_app_r, Lt, lookup_app_l by lia. do 2 f_equal. lia.
    + destruct (decide (x < off)); [rewrite lookup_app_l, lookup_take_lt by lia; done |].
      rewrite lookup_app_r, Lt, lookup_app_r, lookup_drop by lia. do 2 f_equal. lia.
Qed.

Lemma length_file_write off d f : d ≠ [] → 0 <= off → Z.of_nat (length (file_write off d f)) = Z.max (Z.of_nat (length f)) (off + Z.of_nat (length d)).
Proof.
  intros Hd Ho. unfold file_write. rewrite decide_False by done. unfold write_at. rewrite !length_app, length_take, length_drop, !length_app, length_replicate. lia.
Qed.

Lemma length_resize n f : 0 <= n → Z.of_nat (length (resize n f)) = n.
Proof. intros Hn. rewrite resize_length by done. lia. Qed.

Lemma content_resize n f x : 0 <= n → 0 <= x → content (resize n f) x = if decide (x < n) then content f x else x00.
Proof.
  intros Hn Hx. case_decide; [| apply content_beyond; rewrite length_resize; lia]. unfold resize. rewrite content_app. unfold content. by rewrite lookup_take_lt by lia.
Qed.

Lemma length_file_punch off n f : length (file_punch off n f) = length f.
Proof. unfold file_punch. rewrite !length_app, length_take, length_replicate, length_drop. lia. Qed.

Lemma content_punch off n f x : 0 <= off → 0 <= n → 0 <= x → content (file_punch off n f) x = if decide (off <= x < off + n) then x00 else content f x.
Proof.
  intros Ho Hn Hx. destruct (decide (Z.of_nat (length f) <= x)) as [Hb | Hb].
  { rewrite !content_beyond by (rewrite ?length_file_punch; lia). by case_decide. }
  assert (length (take (Z.to_nat off) f) = min (Z.to_nat off) (length f)) as Lt by apply length_take. unfold content, file_punch. case_decide.
  - rewrite lookup_app_r, Lt, lookup_app_l by (rewrite ?length_replicate; lia). by rewrite lookup_replicate_2 by lia.
  - destruct (decide (x < off)); [rewrite lookup_app_l, lookup_take_lt by lia; done |].
    rewrite lookup_app_r, Lt, lookup_app_r by (rewrite ?length_replicate; lia). rewrite length_replicate, lookup_drop. do 2 f_equal. lia.
Qed.

(** ** System calls *)

(** Faults come from the script only. *)
Definition faultless (s s' : disk) (P : Prop) : Prop := script s = [] → script s' = [] ∧ P.

Lemma chunk_with f s : chunk_ (with_chunk f s) = f (chunk_ s).
Proof. done. Qed.

Lemma next_io_ensures s : ensures next_io s (fun r s' => chunk_ s' = chunk_ s ∧ gDamagedChunks s' = gDamagedChunks s ∧ faultless s s' (r = Full)).
Proof. unfold ensures, next_io, faultless. destruct (script s) eqn:E; cbn; repeat split; try done; intros _; by rewrite E. Qed.

Lemma pread_ensures fd file size off s :
  ensures (pread fd file size off) s (fun r s' => chunk_ s' = chunk_ s ∧ gDamagedChunks s' = gDamagedChunks s ∧
    (∀ d, r = Some d → ∃ n, d = take n (bytes_at off size (file (chunk_ s)))) ∧ faultless s s' (fd (chunk_ s) = true → r = Some (bytes_at off size (file (chunk_ s))))).
Proof.
  eapply ensures_run; [apply next_io_ensures |]. intros r s' (Hc & Hd & Hf). apply ensures_inspect. rewrite Hc. split; [done |]. split; [done |]. split.
  - intros d E. destruct (fd (chunk_ s)); [| done]. destruct r as [| n | |]; try done; injection E as <-; [| by exists n].
    exists (length (bytes_at off size (file (chunk_ s)))). by rewrite firstn_all.
  - intros H. destruct (Hf H) as [? ->]. split; [done |]. by intros ->.
Qed.

Lemma pwrite_ensures fd file set d off s :
  ensures (pwrite fd file set d off) s (fun ret s' => gDamagedChunks s' = gDamagedChunks s ∧
    (ret = Z.of_nat (length d) ∧ chunk_ s' = set (file_write off d (file (chunk_ s))) (chunk_ s) ∨
     ret ≠ Z.of_nat (length d) ∧ (chunk_ s' = chunk_ s ∨ ∃ n, chunk_ s' = set (file_write off (take n d) (file (chunk_ s))) (chunk_ s))) ∧
    faultless s s' (fd (chunk_ s) = true → ret = Z.of_nat (length d))).
Proof.
  eapply ensures_run; [apply next_io_ensures |]. intros r s' (Hc & Hd & Hf). unfold ensures, inspect, modify. cbn. rewrite Hc.
  destruct (fd (chunk_ s)); [| unfold mret, exec_ret; rewrite Hc; split; [done |]; split; [right; split; [lia | by left] | intros H; by destruct (Hf H)]].
  destruct r as [| n | |]; unfold mbind, exec_bind, mret, exec_ret; cbn; rewrite ?chunk_with, ?Hc; (split; [done |]); split; try (intros H; by destruct (Hf H)).
  - by left.
  - rewrite length_take. destruct (decide (length d <= n)%nat); [left; rewrite take_ge by lia; split; [lia | done] | right; split; [lia | right; by exists n]].
  - right. split; [lia | by left].
  - right. split; [lia | by left].
Qed.

Lemma ftruncate_ensures size s :
  ensures (ftruncateData size) s (fun ret s' => gDamagedChunks s' = gDamagedChunks s ∧
    (ret = 0 ∧ chunk_ s' = setDataFile (resize size (dataFile (chunk_ s))) (chunk_ s) ∨ ret = -1 ∧ chunk_ s' = chunk_ s) ∧ faultless s s' (dataFD_ (chunk_ s) = true → ret = 0)).
Proof.
  eapply ensures_run; [apply next_io_ensures |]. intros r s' (Hc & Hd & Hf). unfold ensures, inspect, modify. cbn. rewrite Hc.
  destruct (dataFD_ (chunk_ s)); [| unfold mret, exec_ret; rewrite Hc; split; [done |]; split; [auto | intros H; by destruct (Hf H)]].
  destruct r as [| n | |]; unfold mbind, exec_bind, mret, exec_ret; cbn; rewrite ?chunk_with, ?Hc; (split; [done |]); (split; [auto |]); intros H; by destruct (Hf H).
Qed.

Lemma punch_hole_ensures off n s :
  ensures (punch_hole off n) s (fun _ s' => gDamagedChunks s' = gDamagedChunks s ∧
    (chunk_ s' = setDataFile (file_punch off n (dataFile (chunk_ s))) (chunk_ s) ∨ chunk_ s' = chunk_ s) ∧ faultless s s' True).
Proof.
  eapply ensures_run; [apply next_io_ensures |]. intros r s' (Hc & Hd & Hf). unfold ensures, inspect, modify. cbn. rewrite Hc.
  destruct (dataFD_ (chunk_ s)); [destruct r as [| k | |] |]; unfold mbind, exec_bind, mret, exec_ret; cbn; rewrite ?chunk_with, ?Hc; (split; [done |]); (split; [auto |]); intros H; by destruct (Hf H).
Qed.

Lemma report_ensures s : ensures hddReportDamagedChunk s (fun _ s' => chunk_ s' = chunk_ s ∧ script s' = script s).
Proof. done. Qed.

Lemma setDataFile_same c f : f = dataFile c → setDataFile f c = c.
Proof. intros ->. by destruct c. Qed.

(** ** Holes *)

(** The calls that leave the chunk as it is. *)
Definition untouched {A} (s : disk) (_ : A) (s' : disk) : Prop := chunk_ s' = chunk_ s ∧ gDamagedChunks s' = gDamagedChunks s ∧ faultless s s' True.

Lemma untouched_trans {A A'} (a : A) (a' : A') s1 s2 s3 : untouched s1 a s2 → untouched s2 a' s3 → untouched s1 a' s3.
Proof. intros (H1 & H2 & H3) (H4 & H5 & H6). split; [congruence |]. split; [congruence |]. intros E. destruct (H3 E) as [E' _]. by apply H6. Qed.

Lemma punch_same off n s : 0 <= off → 0 <= n → (∀ x, off <= x < off + n → content (dataFile (chunk_ s)) x = x00) →
  ensures (punch_hole off n) s (untouched s).
Proof.
  intros Ho Hn Hz. eapply ensures_mono; [apply punch_hole_ensures |]. intros [] s' (Hd & Hc & Hf). split; [| done].
  destruct Hc as [-> | ->]; [| done]. apply setDataFile_same, content_ext; [apply length_file_punch |].
  intros x Hx. rewrite content_punch by lia. case_decide; [by rewrite Hz | done].
Qed.

Lemma is_zero_content d i : is_zero d = true → content d i = x00.
Proof.
  unfold is_zero, content. intros H. apply Is_true_true_2 in H. destruct (d !! Z.to_nat i) as [b |] eqn:E; [| done]. rewrite forallb_True, Forall_forall in H.
  cbn. symmetry. apply byte_dec_bl. by apply Is_true_true_1, H, list_elem_of_lookup_2 with (i := Z.to_nat i).
Qed.

(** The file has the bytes of the buffer. *)
Definition written (buffer : list byte) (offset size : Z) (f : list byte) : Prop :=
  ∀ i, 0 <= i < size → content f (offset + i) = content buffer i.

Lemma punch_loop_same buffer offset size : 0 <= offset → ∀ steps step holeStart holeSize s,
  0 <= step → step + Z.of_nat steps * blockSize <= size → written buffer offset size (dataFile (chunk_ s)) →
  0 <= holeStart → 0 <= holeSize → (0 < holeSize → holeStart + holeSize = offset + step) → (∀ x, holeStart <= x < holeStart + holeSize → content (dataFile (chunk_ s)) x = x00) →
  ensures (punch_loop steps buffer offset step holeStart holeSize) s (fun '(holeStart, holeSize) s' => untouched s () s' ∧
    0 <= holeStart ∧ 0 <= holeSize ∧ ∀ x, holeStart <= x < holeStart + holeSize → content (dataFile (chunk_ s)) x = x00).
Proof.
  intros Ho. induction steps as [| steps IH]; intros step holeStart holeSize s Hst Hsz Hw H1 H2 H3 H4; cbn [punch_loop].
  { repeat split; try done; auto. }
  assert (blockSize = 4096) as Eb by done. destruct (is_zero _) eqn:Ez.
  - apply IH; try done; try lia.
    + destruct (Z.eqb_spec holeSize 0); lia.
    + destruct (Z.eqb_spec holeSize 0); lia.
    + intros x Hx. destruct (decide (offset + step <= x)) as [Hge | Hlt]; [| apply H4; destruct (Z.eqb_spec holeSize 0); lia].
      replace x with (offset + (x - offset)) by lia. rewrite Hw by (destruct (Z.eqb_spec holeSize 0); lia).
      pose proof (is_zero_content _ (x - offset - step) Ez) as Hc. unfold content in Hc. rewrite bytes_at_lookup in Hc by (destruct (Z.eqb_spec holeSize 0); lia).
      unfold content. replace (Z.to_nat (x - offset)) with (Z.to_nat step + Z.to_nat (x - offset - step))%nat by lia. done.
  - eapply ensures_run with (P := untouched s).
    + destruct (Z.ltb_spec 0 holeSize); [by apply punch_same | repeat split; done].
    + intros [] s' Hs. pose proof Hs as (Hc & _). eapply ensures_mono; [apply IH; rewrite ?Hc; try done; lia |]. intros [h z] s'' (Hs' & H). rewrite Hc in H. split; [by eapply untouched_trans | done].
Qed.

(** Punching holes for zeros that have been written changes nothing. *)
Lemma punchHoles_same g buffer offset size s : 0 <= offset → 0 <= size → written buffer offset size (dataFile (chunk_ s)) →
  ensures (punchHoles g buffer offset size) s (untouched s).
Proof.
  intros Ho Hsz Hw. unfold punchHoles. destruct (negb g); [repeat split; done |]. assert (blockSize = 4096) as Eb by done. rewrite Eb.
  set (step := if offset mod 4096 =? 0 then 0 else 4096 - offset mod 4096). pose proof (Z.mod_pos_bound offset 4096 ltac:(lia)).
  assert (0 <= step < 4096) by (unfold step; destruct (Z.eqb_spec (offset mod 4096) 0); lia).
  destruct (decide (size < step)) as [Hlt | Hge].
  - replace (Z.to_nat ((size - step) / 4096)) with 0%nat by (Z.to_euclidean_division_equations; lia). repeat split; done.
  - eapply ensures_run; [apply (punch_loop_same buffer offset size); try done; try lia; rewrite Eb; Z.to_euclidean_division_equations; lia |].
    intros [h z] s' (Hs & H1 & H2 & H3). pose proof Hs as (Hc & _). destruct (0 <? z); [| done].
    eapply ensures_mono; [apply punch_same; rewrite ?Hc; done |]. intros [] s'' Hs''. by eapply untouched_trans.
Qed.

(** ** Tables of checksums *)

Definition bytes_crc (d : list byte) : list byte := put_crc (crc_of 0 d).
Definition crc_slot (i : Z) (t : list byte) : list byte := bytes_at (i * kCrcSize) kCrcSize t.

Lemma length_put_crc c : length (put_crc c) = 4%nat.
Proof. done. Qed.

Lemma get_put_crc c : (c < 2 ^ 32)%N → get_crc (put_crc c) = Ok c.
Proof.
  intros Hc. unfold get_crc, put_crc. rewrite of_to_bytes by (apply (law_bytes (f := uint32_f)); cbn; lia).
  rewrite <- (app_nil_r (Datapack.put32bit _)), get32bit_put, Z.mod_small by lia. cbn. by rewrite N2Z.id.
Qed.

Lemma crc_slot_same i d t : length d = 4%nat → 0 <= i → (i + 1) * kCrcSize <= Z.of_nat (length t) → crc_slot i (write_at (i * kCrcSize) d t) = d.
Proof. unfold crc_slot, kCrcSize. intros Hd Hi Ht. replace 4 with (Z.of_nat (length d)) at 2 by (rewrite Hd; done). apply bytes_at_same; lia. Qed.

Lemma crc_slot_other j i d t : length d = 4%nat → 0 <= i → 0 <= j → i ≠ j → (i + 1) * kCrcSize <= Z.of_nat (length t) → crc_slot j (write_at (i * kCrcSize) d t) = crc_slot j t.
Proof. unfold crc_slot, kCrcSize. intros Hd Hi Hj Hne Ht. apply bytes_at_other; lia. Qed.

Lemma length_crcs (l : list N) : length (mjoin (put_crc <$> l)) = (4 * length l)%nat.
Proof. rewrite (length_mjoin _ 4), length_fmap; [lia |]. intros x (c & -> & _)%list_elem_of_fmap. apply length_put_crc. Qed.

(** A table of as many checksums as there are in [ds]. *)
Lemma crc_slots_same ds : ∀ i t j d, 0 <= i → (i + Z.of_nat (length ds)) * kCrcSize <= Z.of_nat (length t) → ds !! j = Some d →
  crc_slot (i + Z.of_nat j) (write_at (i * kCrcSize) (mjoin (put_crc <$> ds)) t) = put_crc d.
Proof.
  unfold crc_slot, kCrcSize. intros i t j d Hi Ht Hd. assert (j < length ds)%nat as Hj by (by eapply lookup_lt_Some).
  pose proof length_crcs as L.
  rewrite <- (take_drop_middle ds j d Hd), fmap_app, join_app, fmap_cons. cbn [mjoin list_join].
  set (x := mjoin (put_crc <$> take j ds)). set (y := mjoin (put_crc <$> drop (S j) ds)).
  assert (length x = (4 * j)%nat) as Lx by (unfold x; rewrite L, length_take; lia).
  assert (length (x ++ put_crc d ++ y) = (4 * length ds)%nat) as La by (unfold y; rewrite !length_app, Lx, length_put_crc, L, length_drop; lia).
  replace ((i + Z.of_nat j) * 4) with (i * 4 + 4 * Z.of_nat j) by lia. rewrite <- (bytes_at_inner (i * 4) (4 * Z.of_nat (length ds))) by lia.
  replace (4 * Z.of_nat (length ds)) with (Z.of_nat (length (x ++ put_crc d ++ y))) by lia. rewrite bytes_at_same by lia.
  unfold bytes_at. rewrite drop_app_length' by lia. by rewrite take_app_length' by (rewrite length_put_crc; lia).
Qed.

Lemma crc_slots_other ds i t j : 0 <= i → 0 <= j → (i + Z.of_nat (length ds)) * kCrcSize <= Z.of_nat (length t) → j < i ∨ i + Z.of_nat (length ds) <= j →
  crc_slot j (write_at (i * kCrcSize) (mjoin (put_crc <$> ds)) t) = crc_slot j t ∧ length (write_at (i * kCrcSize) (mjoin (put_crc <$> ds)) t) = length t.
Proof.
  unfold crc_slot, kCrcSize. intros Hi Hj Ht Hd.
  pose proof (length_crcs ds) as L.
  split; [apply bytes_at_other; lia | apply length_write_at; lia].
Qed.

Lemma combine_of x y : Z.of_nat (length y) < 2 ^ 32 → mycrc32_combine (crc_of 0 x) (crc_of 0 y) (N.of_nat (length y)) = Ok (crc_of 0 (x ++ y)).
Proof. intros Hy. rewrite mycrc32_combine_shift by (lia || by apply crc_of_lt). by rewrite Nat2N.id, combine_crc. Qed.

Section facts.
Context (B : Z) (HB : 0 < B < 2 ^ 31) (address : N) (gPunchHolesInFiles gCheckCrcWhenWriting gPerformFsync : bool).

Lemma combine_parts_exact pre mid post off size : Z.of_nat (length pre) = off → Z.of_nat (length mid) = size → Z.of_nat (length post) = B - (off + size) →
  combine_parts B off size (crc_of 0 pre) (crc_of 0 mid) (crc_of 0 post) = Ok (crc_of 0 (pre ++ mid ++ post)).
Proof using HB.
  intros L1 L2 L3. unfold combine_parts.
  replace (Z.to_N (B - (off + size))) with (N.of_nat (length post)) by lia. replace (Z.to_N size) with (N.of_nat (length mid)) by lia.
  destruct (Z.eqb_spec off 0) as [E |].
  - destruct pre; [| cbn in L1; lia]. rewrite combine_of by lia. done.
  - rewrite combine_of by lia. cbn [mbind res_bind]. destruct (Z.ltb_spec (off + size) B).
    + by rewrite combine_of, app_assoc by lia.
    + destruct post; [| cbn in L3; lia]. by rewrite app_nil_r.
Qed.

Definition zero_block : list byte := replicate (Z.to_nat B) x00.

Lemma empty_crc_exact : gEmptyBlockCrc B = Ok (bytes_crc zero_block).
Proof using HB. unfold gEmptyBlockCrc. rewrite zeroblock_exact by lia. cbn. unfold bytes_crc, zero_block. by rewrite Z_N_nat. Qed.

(** The table after empty blocks have been added. *)
Definition empties (first last : Z) (t t' : list byte) : Prop :=
  length t' = length t ∧ ∀ i, 0 <= i → crc_slot i t' = if decide (first <= i < last) then bytes_crc zero_block else crc_slot i t.

Lemma fill_empty_ensures first last s : 0 <= first → last * kCrcSize <= Z.of_nat (length (crcData (chunk_ s))) →
  ensures (fill_empty B first last) s (fun _ s' => script s' = script s ∧ gDamagedChunks s' = gDamagedChunks s ∧
    ∃ t, chunk_ s' = setCrcData t (chunk_ s) ∧ empties first last (crcData (chunk_ s)) t).
Proof using HB.
  unfold fill_empty. intros Hf. remember (Z.to_nat (last - first)) as n eqn:En. revert first s Hf En.
  induction n as [| n IH]; intros first s Hf En Ht.
  - replace (seqZ first (last - first)) with (@nil Z) by (symmetry; apply length_zero_iff_nil; rewrite length_seqZ; lia).
    split; [done |]. split; [done |]. exists (crcData (chunk_ s)). split; [by destruct (chunk_ s) |]. split; [done |]. intros i Hi. by rewrite decide_False by lia.
  - rewrite seqZ_cons by lia. cbn [foldr]. apply ensures_lift with (x := bytes_crc zero_block); [apply empty_crc_exact |].
    apply ensures_modify. replace (Z.pred (last - first)) with (last - Z.succ first) by lia.
    assert (length (write_at (first * kCrcSize) (bytes_crc zero_block) (crcData (chunk_ s))) = length (crcData (chunk_ s))) as L.
    { apply length_write_at; unfold kCrcSize in *; [lia |]. unfold bytes_crc. rewrite length_put_crc. lia. }
    eapply ensures_mono; [apply IH; [lia | lia |] |].
    + cbn [chunk_ with_chunk setCrcData crcData]. by rewrite L.
    + intros [] s' (H1 & H2 & t & Hc & Hl & Hslots). split; [done |]. split; [done |]. exists t. split; [by rewrite Hc |]. cbn [chunk_ with_chunk setCrcData crcData] in *.
      split; [congruence |]. intros i Hi. rewrite Hslots by done. destruct (decide (i = first)) as [-> | Hne].
      * rewrite decide_False by lia. rewrite decide_True by lia. apply crc_slot_same; [done | lia |]. unfold kCrcSize in *. lia.
      * rewrite crc_slot_other by (done || unfold kCrcSize in *; lia). repeat case_decide; try done; lia.
Qed.

(** ** Blocks of an open chunk *)

Definition block_at (f : list byte) (i : Z) : list byte := span (content f) (i * B) B.

(** The file has whole blocks and the table has their checksums. *)
Record consistent (c : chunk) : Prop := {
  co_max : 0 < maxBlocksInFile c <= SFSBLOCKSINCHUNK;
  co_blocks : 0 <= blocks_ c <= maxBlocksInFile c;
  co_size : Z.of_nat (length (dataFile c)) = blocks_ c * B;
  co_table : Z.of_nat (length (crcData c)) = kMaxCrcBlockSize;
  co_crcs i : 0 <= i < blocks_ c → crc_slot i (crcData c) = bytes_crc (block_at (dataFile c) i);
}.

(** The chunk with another file, another table and another number of blocks. *)
Definition updated (c : chunk) (f t : list byte) (n : Z) : chunk := setDataFile f (setCrcData t (setBlocks n (setWasChanged true c))).

(** The bytes after a write. *)
Definition patched (g : Z → byte) (from : Z) (d : list byte) (x : Z) : byte :=
  if decide (from <= x < from + Z.of_nat (length d)) then content d (x - from) else g x.

Lemma block_at_ext f f' i : 0 <= i → (∀ x, i * B <= x < (i + 1) * B → content f' x = content f x) → block_at f' i = block_at f i.
Proof using. intros Hi H. apply span_ext. intros x Hx. apply H. lia. Qed.

Lemma block_at_beyond f i : Z.of_nat (length f) <= i * B → block_at f i = zero_block.
Proof using. intros H. unfold block_at, zero_block. rewrite <- (span_const (i * B)). apply span_ext. intros x Hx. apply content_beyond. lia. Qed.

Lemma block_at_length f i : length (block_at f i) = Z.to_nat B.
Proof using. apply span_length. Qed.

Lemma bytes_at_block f i : 0 <= i → (i + 1) * B <= Z.of_nat (length f) → bytes_at (i * B) B f = block_at f i.
Proof using HB. intros Hi Hl. apply bytes_at_span; nia. Qed.

(** Blocks [b] to [b + k] change, perhaps beyond the end. *)
Lemma consistent_updated c f t n b k : consistent c → 0 <= b → 0 <= k → n = Z.max (blocks_ c) (b + k) → n <= maxBlocksInFile c →
  Z.of_nat (length f) = n * B → length t = length (crcData c) →
  (∀ x, 0 <= x → x < b * B ∨ (b + k) * B <= x → content f x = content (dataFile c) x) →
  (∀ i, 0 <= i < n → i < b ∨ b + k <= i → crc_slot i t = if decide (i < blocks_ c) then crc_slot i (crcData c) else bytes_crc zero_block) →
  (∀ i, b <= i < b + k → crc_slot i t = bytes_crc (block_at f i)) →
  consistent (updated c f t n).
Proof using HB.
  intros [H1 H2 H3 H4 H5] Hb Hk Hn Hmax Hf Ht Hx Ho Hi. assert (maxBlocksInFile (updated c f t n) = maxBlocksInFile c) as Em by done.
  split; rewrite ?Em; cbn [updated setDataFile setCrcData setBlocks setWasChanged blocks_ dataFile crcData]; try done; [lia | by rewrite Ht |]. intros i Hin. destruct (decide (b <= i < b + k)); [auto |].
  rewrite Ho by lia. rewrite (block_at_ext (dataFile c)) by (lia || intros; apply Hx; nia). case_decide; [apply H5; lia |].
  rewrite block_at_beyond by nia. done.
Qed.

Lemma readBlock_any b s : 0 <= b → (b + 1) * B <= Z.of_nat (length (dataFile (chunk_ s))) →
  ensures (readBlockAndCrc B b) s (fun r s' => chunk_ s' = chunk_ s ∧ (r = None ∨ r = Some (crc_slot b (crcData (chunk_ s)), block_at (dataFile (chunk_ s)) b)) ∧ faultless s s' (dataFD_ (chunk_ s) = true → r ≠ None)).
Proof using HB.
  intros Hb Hl. unfold readBlockAndCrc. apply ensures_inspect. cbv zeta. fold (crc_slot b (crcData (chunk_ s))).
  eapply ensures_run; [apply pread_ensures |]. unfold getBlockOffset. rewrite bytes_at_block by nia. intros r s' (Hs & Hd & Hr & Hf).
  assert (∀ (d : list byte), r = Some d → Z.of_nat (length d) = B → d = block_at (dataFile (chunk_ s)) b) as Hwhole.
  { intros d E L. destruct (Hr d E) as [n ->]. rewrite length_take, block_at_length in L. apply take_ge. rewrite block_at_length. lia. }
  destruct r as [d |].
  - destruct (Z.eqb_spec (Z.of_nat (length d)) B) as [E | Hne].
    + split; [done |]. split; [right; by rewrite (Hwhole d) |]. intros Hscr. by destruct (Hf Hscr).
    + split; [done |]. split; [by left |]. intros Hscr. destruct (Hf Hscr) as [? Hd']. split; [done |]. intros Hfd. injection (Hd' Hfd) as ->. rewrite block_at_length in Hne. lia.
  - split; [done |]. split; [by left |]. intros Hscr. destruct (Hf Hscr) as [? Hd']. split; [done |]. intros Hfd. by specialize (Hd' Hfd).
Qed.

Lemma readBlock_ensures b s : consistent (chunk_ s) → 0 <= b < blocks_ (chunk_ s) →
  ensures (readBlockAndCrc B b) s (fun r s' => chunk_ s' = chunk_ s ∧ (r = None ∨ r = Some (bytes_crc (block_at (dataFile (chunk_ s)) b), block_at (dataFile (chunk_ s)) b)) ∧ faultless s s' (dataFD_ (chunk_ s) = true → r ≠ None)).
Proof using HB. intros [H1 H2 H3 H4 H5] Hb. rewrite <- H5 by done. apply readBlock_any; nia. Qed.

(** What is written when some bytes of the range are. *)
Lemma content_write_outside pos d n f x : 0 <= pos → 0 <= x → x < pos ∨ pos + Z.of_nat (length d) <= x → content (file_write pos (take n d) f) x = content f x.
Proof using. intros Hp Hx Hd. rewrite content_write by done. rewrite length_take. by rewrite decide_False by lia. Qed.

Lemma write_ensures pos d crcs i s : 0 <= pos →
  ensures (ret ← pwrite_data d pos; if negb (ret =? Z.of_nat (length d)) then _ ← hddReportDamagedChunk; mret (-1) else
           _ ← punchHoles gPunchHolesInFiles d pos (Z.of_nat (length d)); _ ← store_crcs i crcs; mret (Z.of_nat (length d))) s
    (fun ret s' => (ret = Z.of_nat (length d) ∧ chunk_ s' = setCrcData (write_at (i * kCrcSize) crcs (crcData (chunk_ s))) (setDataFile (file_write pos d (dataFile (chunk_ s))) (chunk_ s)) ∨
      ret = -1 ∧ ∃ n, chunk_ s' = setDataFile (file_write pos (take n d) (dataFile (chunk_ s))) (chunk_ s)) ∧ faultless s s' (dataFD_ (chunk_ s) = true → ret = Z.of_nat (length d))).
Proof using.
  intros Hpos. eapply ensures_run; [by apply pwrite_ensures |]. intros ret s1 (_ & [[-> Hc] | [Hne Hc]] & Hf).
  - rewrite Z.eqb_refl. cbn [negb]. eapply ensures_run; [apply punchHoles_same; [done | lia |] |].
    + intros x Hx. rewrite Hc. cbn [setDataFile dataFile]. rewrite content_write by lia. rewrite decide_True by lia. f_equal. lia.
    + intros [] s2 (Hc2 & _ & Hf2). apply ensures_modify. split; [left; split; [done |]; rewrite chunk_with, Hc2, Hc; done |].
      intros E. destruct (Hf E) as [E1 _]. destruct (Hf2 E1) as [E2 _]. done.
  - rewrite (proj2 (Z.eqb_neq _ _)) by done. cbn [negb]. split; [right; split; [done |] | intros E; destruct (Hf E) as [Es' H']; split; [done | intros Hfd; destruct Hne; auto]]. cbn. destruct Hc as [-> | [n ->]]; [| by exists n].
    exists 0%nat. cbn. unfold file_write. rewrite decide_True by done. symmetry. by apply setDataFile_same.
Qed.

Lemma bytes_at_of_span g from m o n : 0 <= o → 0 <= n → o + n <= m → bytes_at o n (span g from m) = span g (from + o) n.
Proof using.
  intros Ho Hn Hm. replace m with (o + (n + (m - o - n))) by lia. rewrite span_app, span_app by lia. unfold bytes_at.
  rewrite drop_app_length' by (rewrite span_length; lia). by rewrite take_app_length' by (rewrite span_length; lia).
Qed.

Lemma block_parts g b off size : 0 <= off → 0 <= size → off + size <= B →
  span g (b * B) B = span g (b * B) off ++ span g (b * B + off) size ++ span g (b * B + (off + size)) (B - (off + size)).
Proof using. intros H1 H2 H3. replace B with (off + (size + (B - (off + size)))) at 2 by lia. rewrite !span_app by lia. by rewrite Z.add_assoc. Qed.

(** What surrounds the bytes to be written is verified, or it is made. *)
Lemma surrounding_ensures b off size s : let c := chunk_ s in consistent c → 0 <= b < maxBlocksInFile c → 0 <= off → 0 <= size → off + size <= B →
  ensures (surrounding_crcs B address b off size) s (fun r s' =>
    (r = inl SAUNAFS_ERROR_IO ∧ chunk_ s' = c ∨
     ∃ t, r = inr (crc_of 0 (span (content (dataFile c)) (b * B) off), crc_of 0 (span (content (dataFile c)) (b * B + (off + size)) (B - (off + size)))) ∧
       chunk_ s' = setCrcData t (setBlocks (Z.max (blocks_ c) (b + 1)) (setDataFile (if b <? blocks_ c then dataFile c else resize ((b + 1) * B) (dataFile c)) c)) ∧
       empties (blocks_ c) b (crcData c) t) ∧
    faultless s s' (dataFD_ c = true → r ≠ inl SAUNAFS_ERROR_IO)).
Proof using HB.
  intros c Hc Hb Ho Hs Hos. unfold surrounding_crcs. apply ensures_inspect. fold c. pose proof Hc as [H1 H2 H3 H4 H5]. destruct (Z.ltb_spec b (blocks_ c)) as [Hin | Hout].
  - eapply ensures_run; [apply readBlock_ensures; [done.. | fold c; lia] |]. fold c. intros r s' (Hs' & [-> | ->] & Hf); [split; [by left | intros E; destruct (Hf E) as [Es' H']; split; [done | intros Hfd; by destruct (H' Hfd)]] |].
    unfold block_at. rewrite !bytes_at_of_span by lia. rewrite Z.add_0_r. apply ensures_lift with (1 := mycrc32_bitserial 0 _ _ ltac:(lia)).
    do 2 (apply ensures_lift with (1 := mycrc32_bitserial 0 _ _ ltac:(lia))).
    eapply ensures_lift; [apply combine_parts_exact; rewrite span_length; lia |]. rewrite <- block_parts by done.
    eapply ensures_lift; [apply get_put_crc, crc_of_lt; lia |]. rewrite N.eqb_refl. cbn [negb].
    split; [right | intros E; by destruct (Hf E)]. exists (crcData c). split; [done |]. split.
    + rewrite Hs', Z.max_l by lia. fold c. by destruct c.
    + split; [done |]. intros i Hi. by rewrite decide_False by lia.
  - eapply ensures_run; [apply ftruncate_ensures |]. fold c. intros ret s' (_ & [[-> Hs'] | [-> Hs']] & Hf); cbn [Z.ltb Z.compare]; [| split; [by left | intros E; destruct (Hf E) as [Es' H']; split; [done | intros Hfd; by specialize (H' Hfd)]]].
    apply ensures_inspect, ensures_modify. eapply ensures_run; [apply fill_empty_ensures |]; rewrite ?chunk_with, ?Hs'; cbn [setDataFile setBlocks blocks_ crcData]; [lia | unfold kMaxCrcBlockSize, kCrcSize in *; lia |].
    intros [] s2 (Es & _ & t & Hs2 & Ht). eapply ensures_lift; [apply zeroblock_exact; lia |]. eapply ensures_lift; [apply zeroblock_exact; lia |].
    split; [right | intros E; destruct (Hf E); split; [rewrite Es; done | done]]. exists t. split; [| split; [rewrite Hs2, Z.max_r by lia; by destruct c | done]].
    assert (∀ from n, b * B <= from → span (content (dataFile c)) from n = replicate (N.to_nat (Z.to_N n)) x00) as Hz.
    { intros from n Hfrom. rewrite Z_N_nat, <- (span_const from). apply span_ext. intros x Hx. apply content_beyond. nia. }
    by rewrite !Hz by lia.
Qed.

Lemma writePartial_ensures buffer b off size crcs s : 0 <= b → 0 <= off → Z.of_nat (length buffer) = size →
  ensures (writePartialBlockAndCrc B gPunchHolesInFiles buffer off size crcs b) s
    (fun ret s' => (ret = size ∧ chunk_ s' = setCrcData (write_at (b * kCrcSize) crcs (crcData (chunk_ s))) (setDataFile (file_write (b * B + off) buffer (dataFile (chunk_ s))) (chunk_ s)) ∨
      ret = -1 ∧ ∃ n, chunk_ s' = setDataFile (file_write (b * B + off) (take n buffer) (dataFile (chunk_ s))) (chunk_ s)) ∧ faultless s s' (dataFD_ (chunk_ s) = true → ret = size)).
Proof using HB. intros Hb Ho <-. unfold writePartialBlockAndCrc, getBlockOffset. rewrite take_ge by lia. apply write_ensures. nia. Qed.

(** ** Writes *)

(** Blocks other than [b] to [b + k] are as they were. *)
Definition kept (c : chunk) (b k : Z) (f t : list byte) : Prop :=
  ∀ i, 0 <= i < blocks_ c → i < b ∨ b + k <= i → block_at f i = block_at (dataFile c) i ∧ crc_slot i t = crc_slot i (crcData c).

(** A write of [d] at [pos], in blocks [b] to [b + k], has been done; or it has failed. *)
Definition write_done (c : chunk) (b k pos : Z) (d : list byte) (c' : chunk) : Prop :=
  ∃ f t, c' = updated c f t (Z.max (blocks_ c) (b + k)) ∧ consistent c' ∧ ∀ x, 0 <= x → content f x = patched (content (dataFile c)) pos d x.
Definition write_failed (c : chunk) (b k : Z) (c' : chunk) : Prop := ∃ f t n, c' = updated c f t n ∧ kept c b k f t.

Lemma patched_block g b off d : 0 <= off → off + Z.of_nat (length d) <= B →
  span (patched g (b * B + off) d) (b * B) B = span g (b * B) off ++ d ++ span g (b * B + (off + Z.of_nat (length d))) (B - (off + Z.of_nat (length d))).
Proof using.
  intros Ho Hl. rewrite (block_parts _ b off (Z.of_nat (length d))) by lia. f_equal; [| f_equal].
  - apply span_ext. intros x Hx. unfold patched. by rewrite decide_False by lia.
  - apply span_list. intros i Hi. unfold patched. rewrite decide_True by lia. f_equal. lia.
  - apply span_ext. intros x Hx. unfold patched. by rewrite decide_False by lia.
Qed.

Lemma failed_kept c b k pos d n f t : consistent c → 0 <= b → b * B <= pos → pos + Z.of_nat (length d) <= (b + k) * B →
  (∀ x, 0 <= x → content f x = content (dataFile c) x) → empties (blocks_ c) b (crcData c) t → kept c b k (file_write pos (take n d) f) t.
Proof using HB.
  intros Hc Hb Hp Hl Hf [_ Ht] i Hi Hd. split.
  - apply block_at_ext; [lia |]. intros x Hx. rewrite content_write_outside by nia. apply Hf. nia.
  - rewrite Ht by lia. by rewrite decide_False by lia.
Qed.

Lemma block_write_done c b off d f t n crc : consistent c → 0 <= b < maxBlocksInFile c → 0 <= off → off + Z.of_nat (length d) <= B →
  n = Z.max (blocks_ c) (b + 1) → (∀ x, 0 <= x → content f x = content (dataFile c) x) → Z.of_nat (length (file_write (b * B + off) d f)) = n * B →
  empties (blocks_ c) b (crcData c) t →
  crc = crc_of 0 (span (content (dataFile c)) (b * B) off ++ d ++ span (content (dataFile c)) (b * B + (off + Z.of_nat (length d))) (B - (off + Z.of_nat (length d)))) →
  write_done c b 1 (b * B + off) d (updated c (file_write (b * B + off) d f) (write_at (b * kCrcSize) (put_crc crc) t) n).
Proof using HB.
  intros Hc Hb Ho Hl -> Hf Lf [Lt Ht] ->. pose proof Hc as [H1 H2 H3 H4 H5].
  assert (∀ x, 0 <= x → content (file_write (b * B + off) d f) x = patched (content (dataFile c)) (b * B + off) d x) as Hp.
  { intros x Hx. rewrite content_write by nia. unfold patched. case_decide; [done | auto]. }
  assert ((b + 1) * kCrcSize <= Z.of_nat (length t)) as Hroom by (rewrite Lt, H4; unfold kMaxCrcBlockSize, kCrcSize in *; lia).
  eexists _, _. split; [done |]. split; [| done]. apply (consistent_updated c _ _ _ b 1); try done; try lia.
  - rewrite length_write_at; [done | unfold kCrcSize; lia | rewrite length_put_crc; unfold kCrcSize in *; lia].
  - intros x Hx Hd. rewrite Hp by done. unfold patched. by rewrite decide_False by nia.
  - intros i Hi Hd. rewrite crc_slot_other by (done || lia). rewrite Ht by lia. repeat case_decide; try done; lia.
  - intros i Hi. replace i with b by lia. rewrite crc_slot_same by (done || lia). unfold bytes_crc. do 2 f_equal. rewrite <- patched_block by done.
    symmetry. apply span_ext. intros x Hx. apply Hp. nia.
Qed.

(** The errors that are found before anything is done. *)
Definition write_error (c : chunk) (version blocknum offset size : Z) : option Z :=
  if negb (version_ c =? version) && (0 <? version) then Some SAUNAFS_ERROR_WRONGVERSION
  else if maxBlocksInFile c <=? blocknum then Some SAUNAFS_ERROR_BNUMTOOBIG
  else if B <? size then Some SAUNAFS_ERROR_WRONGSIZE
  else if (B <=? offset) || (B <? offset + size) then Some SAUNAFS_ERROR_WRONGOFFSET
  else None.

Lemma unchanged_result c : consistent c → ∀ b k, write_failed c b k (setWasChanged true c).
Proof using. intros Hc b k. exists (dataFile c), (crcData c), (blocks_ c). split; [by destruct c | done]. Qed.

(** The bytes of the chunk as they were for all positions. *)
Lemma content_extended c n : consistent c → blocks_ c * B <= n → ∀ x, 0 <= x → content (resize n (dataFile c)) x = content (dataFile c) x.
Proof using HB. intros [H1 H2 H3 H4 H5] Hn x Hx. rewrite content_resize by nia. case_decide; [done |]. symmetry. apply content_beyond. lia. Qed.

Lemma full_block_ensures b buffer s : let c := chunk_ s in consistent c → 0 <= b < maxBlocksInFile c → Z.of_nat (length buffer) = B →
  ensures (_ ← (if blocks_ c <=? b then _ ← modify (with_chunk (setBlocks (b + 1))); fill_empty B (blocks_ c) b else mret ());
           written ← writePartialBlockAndCrc B gPunchHolesInFiles buffer 0 B (put_crc (crc_of 0 buffer)) b;
           mret (if written <? 0 then SAUNAFS_ERROR_IO else SAUNAFS_STATUS_OK)) (with_chunk (setWasChanged true) s)
    (fun status s' => (status = SAUNAFS_STATUS_OK ∧ write_done c b 1 (b * B + 0) buffer (chunk_ s') ∨ status = SAUNAFS_ERROR_IO ∧ write_failed c b 1 (chunk_ s')) ∧ faultless s s' (dataFD_ c = true → status = SAUNAFS_STATUS_OK)).
Proof using HB.
  intros c Hc Hb Hl. pose proof Hc as [H1 H2 H3 H4 H5].
  eapply ensures_run with (P := fun _ s1 => script s1 = script s ∧ ∃ t, chunk_ s1 = updated c (dataFile c) t (Z.max (blocks_ c) (b + 1)) ∧ empties (blocks_ c) b (crcData c) t).
  - destruct (Z.leb_spec (blocks_ c) b).
    + apply ensures_modify. eapply ensures_mono; [apply fill_empty_ensures; [lia |] |]; rewrite !chunk_with; cbn [setBlocks setWasChanged crcData]; fold c.
      * unfold kMaxCrcBlockSize, kCrcSize in *. lia.
      * intros [] s1 (E & _ & t & E1 & Ht). split; [done |]. exists t. split; [| done]. rewrite E1, Z.max_r by lia. by destruct c.
    + split; [done |]. exists (crcData c). rewrite chunk_with, Z.max_l by lia. fold c. split; [by destruct c |]. split; [done |]. intros i Hi. by rewrite decide_False by lia.
  - intros [] s1 (Escr & t & E1 & Ht). eapply ensures_run; [apply writePartial_ensures; rewrite ?E1; try done; lia |]. rewrite E1. cbn [updated setDataFile setCrcData setBlocks setWasChanged dataFile crcData].
    intros ret s2 ([[-> E2] | [-> [n E2]]] & Hf).
    + rewrite (proj2 (Z.ltb_ge _ _)) by lia. split; [left; split; [done |] | intros E; rewrite <- Escr in E; by destruct (Hf E)]. rewrite E2.
      apply (block_write_done c b 0 buffer (dataFile c) t); try done; try lia.
      * rewrite length_file_write by (lia || (intros ->; cbn in Hl; lia)). rewrite H3, Hl. replace (b * B + 0 + B) with ((b + 1) * B) by lia. by rewrite Z.mul_max_distr_nonneg_r by lia.
      * replace (B - (0 + Z.of_nat (length buffer))) with 0 by lia. cbn. by rewrite app_nil_r.
    + split; [right; split; [done |] | intros E; rewrite <- Escr in E; destruct (Hf E) as [Es' H']; split; [done | intros Hfd; specialize (H' Hfd); lia]]. rewrite E2. eexists _, t, _. split; [done |].
      apply (failed_kept c b 1 (b * B + 0) buffer); try done; lia.
Qed.

Lemma partial_block_ensures b off buffer s : let c := chunk_ s in let size := Z.of_nat (length buffer) in
  consistent c → 0 <= b < maxBlocksInFile c → 0 <= off → off + size <= B →
  ensures (crcs ← surrounding_crcs B address b off size;
    match crcs with
    | inl status => mret status
    | inr (preCrc, postCrc) =>
        combinedCrc ← lift (combine_parts B off size preCrc (crc_of 0 buffer) postCrc);
        written ← writePartialBlockAndCrc B gPunchHolesInFiles buffer off size (put_crc combinedCrc) b;
        mret (if written <? 0 then SAUNAFS_ERROR_IO else SAUNAFS_STATUS_OK)
    end) (with_chunk (setWasChanged true) s)
    (fun status s' => (status = SAUNAFS_STATUS_OK ∧ write_done c b 1 (b * B + off) buffer (chunk_ s') ∨ status = SAUNAFS_ERROR_IO ∧ write_failed c b 1 (chunk_ s')) ∧ faultless s s' (dataFD_ c = true → status = SAUNAFS_STATUS_OK)).
Proof using HB.
  intros c size Hc Hb Ho Hos. pose proof Hc as [H1 H2 H3 H4 H5].
  assert (consistent (setWasChanged true c)) as Hc' by (by split). eapply ensures_run; [apply surrounding_ensures; try done; lia |]. rewrite chunk_with. fold c.
  cbn [setWasChanged blocks_ dataFile crcData]. intros r s1 ([[-> E1] | (t & -> & E1 & Ht)] & Hf1).
  { split; [right; split; [done |] | intros E; destruct (Hf1 E) as [Es' H']; split; [done | intros Hfd; by destruct (H' Hfd)]]. rewrite E1. by apply unchanged_result. }
  eapply ensures_lift; [apply combine_parts_exact; rewrite ?span_length; lia |].
  set (f := if b <? blocks_ c then dataFile c else resize ((b + 1) * B) (dataFile c)) in *.
  assert (∀ x, 0 <= x → content f x = content (dataFile c) x) as Hfc by (unfold f; destruct (Z.ltb_spec b (blocks_ c)); [done | apply content_extended; [done | nia]]).
  assert (Z.of_nat (length f) = Z.max (blocks_ c) (b + 1) * B) as Lf.
  { unfold f. destruct (Z.ltb_spec b (blocks_ c)); [rewrite H3, Z.max_l by lia; done | rewrite length_resize, Z.max_r by nia; done]. }
  eapply ensures_run; [apply writePartial_ensures; rewrite ?E1; try done; lia |]. rewrite E1. cbn [setDataFile setCrcData setBlocks setWasChanged dataFile crcData].
  intros ret s2 ([[-> E2] | [-> [n E2]]] & Hf2).
  - rewrite (proj2 (Z.ltb_ge _ _)) by lia. split; [left; split; [done |] | intros E; destruct (Hf1 E) as [E' _]; by destruct (Hf2 E')]. rewrite E2.
    apply (block_write_done c b off buffer f t); try done; try lia.
    unfold file_write at 1. case_decide as Ed; [done |]. pose proof (length_file_write (b * B + off) buffer f Ed ltac:(nia)) as L. unfold file_write in L. rewrite decide_False in L by done. rewrite L, Lf, (Z.max_l (_ * B)); [done |]. pose proof (Z.mul_le_mono_nonneg_r (b + 1) (Z.max (blocks_ c) (b + 1)) B ltac:(lia) ltac:(lia)). fold size. lia.
  - split; [right; split; [done |] | intros E; destruct (Hf1 E) as [E' _]; destruct (Hf2 E') as [Es' H']; split; [done | intros Hfd; specialize (H' Hfd); lia]]. rewrite E2. eexists _, t, _. split; [done |].
    apply (failed_kept c b 1 (b * B + off) buffer); try done; lia.
Qed.

(** Every call of [writeChunkBlock] ends in one of four ways. *)
Lemma writeChunkBlock_ensures version b off crc buffer replicated s : let c := chunk_ s in let size := Z.of_nat (length buffer) in
  consistent c → 0 <= b → 0 <= off < 2 ^ 32 → size < 2 ^ 32 → gCheckCrcWhenWriting && negb replicated = true ∨ crc = crc_of 0 buffer →
  ensures (writeChunkBlock B address gPunchHolesInFiles gCheckCrcWhenWriting version b off size crc buffer replicated) s (fun status s' =>
    match write_error c version b off size with
    | Some e => status = e ∧ s' = s
    | None =>
        if decide (crc = crc_of 0 buffer) then
          (status = SAUNAFS_STATUS_OK ∧ write_done c b 1 (b * B + off) buffer (chunk_ s') ∨ status = SAUNAFS_ERROR_IO ∧ write_failed c b 1 (chunk_ s')) ∧
          faultless s s' (dataFD_ c = true → status = SAUNAFS_STATUS_OK)
        else status = SAUNAFS_ERROR_CRC ∧ s' = s
    end).
Proof using HB.
  intros c size Hc Hb Ho Hs Hcrc. unfold writeChunkBlock, write_error. apply ensures_inspect. fold c.
  destruct (negb _ && _); [done |]. destruct (Z.leb_spec (maxBlocksInFile c) b); [done |]. destruct (Z.ltb_spec B size); [done |].
  destruct (Z.leb_spec B off); [done |]. rewrite wrapu_small by lia. destruct (Z.ltb_spec B (off + size)); [done |]. cbn [orb].
  eapply ensures_run with (P := fun v s1 => s1 = s ∧ (v = true ↔ crc = crc_of 0 buffer)).
  - unfold size. rewrite Nat2Z.id, firstn_all. destruct (gCheckCrcWhenWriting && negb replicated).
    + eapply ensures_mono with (P := fun v s1 => v = (crc =? crc_of 0 buffer)%N ∧ s1 = s); [unfold ensures; rewrite mycrc32_bitserial by lia; done |].
      intros v s1 [-> ->]. split; [done |]. apply N.eqb_eq.
    + destruct Hcrc as [? | ?]; [done |]. done.
  - intros v s1 [-> Hv]. case_decide as Ed; [rewrite (proj2 Hv) by done | destruct v; [by destruct Ed; apply Hv | done]]. cbn [negb]. apply ensures_modify. subst crc.
    destruct (Z.eqb_spec off 0) as [-> |]; [destruct (Z.eqb_spec size B) as [Es |] |]; cbn [andb]; [apply full_block_ensures; try done; lia | apply partial_block_ensures; try done; lia..].
Qed.

(** *** Several blocks *)

Fixpoint block_crcs (n : nat) (buffer : list byte) : list N :=
  match n with O => [] | S n => crc_of 0 (take (Z.to_nat B) buffer) :: block_crcs n (drop (Z.to_nat B) buffer) end.

Lemma length_block_crcs n : ∀ buffer, length (block_crcs n buffer) = n.
Proof using. induction n as [| n IH]; intros buffer; [done |]. cbn. by rewrite IH. Qed.

Lemma block_crcs_lookup n : ∀ buffer j, (j < n)%nat → block_crcs n buffer !! j = Some (crc_of 0 (bytes_at (Z.of_nat j * B) B buffer)).
Proof using HB.
  induction n as [| n IH]; intros buffer j Hj; [lia |]. destruct j as [| j]; cbn [block_crcs lookup list_lookup]; [done |].
  change (list_lookup j (block_crcs n (drop (Z.to_nat B) buffer))) with (block_crcs n (drop (Z.to_nat B) buffer) !! j).
  rewrite IH by lia. unfold bytes_at. rewrite drop_drop. do 5 f_equal. nia.
Qed.

Lemma verify_crcs_exact crc : ∀ buffer, verify_crcs B address crc buffer = Ok (bool_decide (crc = block_crcs (length crc) buffer)).
Proof using.
  induction crc as [| x crc IH]; intros buffer; [done |]. cbn [verify_crcs block_crcs length]. rewrite mycrc32_bitserial by lia. cbn [mbind res_bind].
  rewrite IH. destruct (N.eqb_spec x (crc_of 0 (take (Z.to_nat B) buffer))) as [-> |].
  - f_equal. apply bool_decide_ext. split; [intros E; by f_equal | by intros [= E]].
  - rewrite bool_decide_false; [done |]. by intros [= ? ?].
Qed.

(** Several blocks are written, and their checksums are stored. *)
Lemma blocks_write_done c b k d t n : consistent c → 0 <= b → 0 < k → b + k <= maxBlocksInFile c → Z.of_nat (length d) = k * B → n = Z.max (blocks_ c) (b + k) →
  empties (blocks_ c) b (crcData c) t →
  write_done c b k (b * B) d (updated c (file_write (b * B) d (dataFile c)) (write_at (b * kCrcSize) (mjoin (put_crc <$> block_crcs (Z.to_nat k) d)) t) n).
Proof using HB.
  intros Hc Hb Hk Hm Hl -> [Lt Ht]. pose proof Hc as [H1 H2 H3 H4 H5].
  assert (∀ x, 0 <= x → content (file_write (b * B) d (dataFile c)) x = patched (content (dataFile c)) (b * B) d x) as Hp.
  { intros x Hx. rewrite content_write by nia. unfold patched. done. }
  assert ((b + Z.of_nat (length (block_crcs (Z.to_nat k) d))) * kCrcSize <= Z.of_nat (length t)) as Hroom by (rewrite length_block_crcs, Lt, H4; unfold kMaxCrcBlockSize, kCrcSize in *; lia).
  assert (∀ j, 0 <= j → j < b ∨ b + k <= j → crc_slot j (write_at (b * kCrcSize) (mjoin (put_crc <$> block_crcs (Z.to_nat k) d)) t) = crc_slot j t) as Ho.
  { intros j Hj Hd. apply crc_slots_other; try done. rewrite length_block_crcs. lia. }
  eexists _, _. split; [done |]. split; [| done]. apply (consistent_updated c _ _ _ b k); try done; try lia.
  - rewrite length_file_write by (nia || (intros ->; cbn in Hl; nia)). rewrite H3, Hl, <- Z.mul_add_distr_r. by rewrite Z.mul_max_distr_nonneg_r by lia.
  - rewrite length_write_at; [done | unfold kCrcSize; lia |]. rewrite length_crcs. unfold kCrcSize in *. lia.
  - intros x Hx Hd. rewrite Hp by done. unfold patched. by rewrite decide_False by nia.
  - intros i Hi Hd. rewrite Ho by lia. rewrite Ht by lia. repeat case_decide; try done; lia.
  - intros i Hi. pose proof (crc_slots_same _ b t (Z.to_nat (i - b)) _ Hb Hroom (block_crcs_lookup (Z.to_nat k) d (Z.to_nat (i - b)) ltac:(lia))) as E.
    replace (b + Z.of_nat (Z.to_nat (i - b))) with i in E by lia. rewrite E. unfold bytes_crc. do 2 f_equal. rewrite Z2Nat.id, bytes_at_span by nia.
    unfold block_at, span. apply list_eq_same_length with (n := Z.to_nat B); rewrite ?length_fmap, ?length_seqZ; try done. intros j x y Hj.
    rewrite !list_lookup_fmap, !lookup_seqZ_lt by lia. intros [= <-] [= <-]. rewrite Hp by nia. unfold patched. rewrite decide_True by nia. f_equal. lia.
Qed.

Definition blocks_error (c : chunk) (version startBlock numBlocks : Z) (crcs : nat) : option Z :=
  if negb (version_ c =? version) && (0 <? version) then Some (- SAUNAFS_ERROR_WRONGVERSION)
  else if maxBlocksInFile c <? startBlock + numBlocks then Some (- SAUNAFS_ERROR_BNUMTOOBIG)
  else if (SFSBLOCKSINCHUNK <? numBlocks) || negb (Z.of_nat crcs =? numBlocks) then Some (- SAUNAFS_ERROR_WRONGSIZE)
  else None.

Lemma writeChunkBlocks_ensures version b k crc buffer replicated s : let c := chunk_ s in
  consistent c → 0 <= b → 0 < k → Z.of_nat (length buffer) = k * B → gCheckCrcWhenWriting && negb replicated = true ∨ crc = block_crcs (length crc) buffer →
  ensures (writeChunkBlocks B address gPunchHolesInFiles gCheckCrcWhenWriting version b k crc buffer replicated) s (fun ret s' =>
    match blocks_error c version b k (length crc) with
    | Some e => ret = e ∧ s' = s
    | None =>
        if decide (crc = block_crcs (length crc) buffer) then
          (ret = k * B ∧ write_done c b k (b * B) buffer (chunk_ s') ∨ ret = - SAUNAFS_ERROR_IO ∧ write_failed c b k (chunk_ s')) ∧ faultless s s' (dataFD_ c = true → ret = k * B)
        else ret = - SAUNAFS_ERROR_CRC ∧ s' = s
    end).
Proof using HB.
  intros c Hc Hb Hk Hl Hcrc. unfold writeChunkBlocks, blocks_error. apply ensures_inspect. fold c. pose proof Hc as [H1 H2 H3 H4 H5].
  destruct (negb _ && _); [done |]. destruct (Z.ltb_spec (maxBlocksInFile c) (b + k)); [done |]. destruct (Z.ltb_spec SFSBLOCKSINCHUNK k); [done |].
  destruct (Z.eqb_spec (Z.of_nat (length crc)) k) as [Ek |]; [| done]. cbn [orb negb].
  eapply ensures_run with (P := fun v s1 => s1 = s ∧ (v = true ↔ crc = block_crcs (length crc) buffer)).
  { destruct (gCheckCrcWhenWriting && negb replicated); [| destruct Hcrc as [? | ?]; [done |]; done].
    unfold ensures, lift. rewrite verify_crcs_exact. split; [done |]. apply bool_decide_eq_true. }
  intros v s1 [-> Hv]. case_decide as Ed; [rewrite (proj2 Hv) by done | destruct v; [by destruct Ed; apply Hv | done]]. cbn [negb]. apply ensures_modify.
  eapply ensures_run with (P := fun _ s1 => script s1 = script s ∧ ∃ t, chunk_ s1 = setCrcData t (setWasChanged true c) ∧ empties (blocks_ c) b (crcData c) t).
  { destruct (Z.leb_spec (blocks_ c) b).
    - eapply ensures_mono; [apply fill_empty_ensures; [lia |] |]; rewrite !chunk_with; cbn [setWasChanged crcData]; fold c; [unfold kMaxCrcBlockSize, kCrcSize in *; lia |].
      intros [] s1 (E & _ & t & E1 & Ht). split; [done |]. by exists t.
    - split; [done |]. exists (crcData c). rewrite chunk_with. fold c. split; [by destruct c |]. split; [done |]. intros i Hi. by rewrite decide_False by lia. }
  intros [] s1 (Escr & t & E1 & Ht).
  eapply ensures_run with (P := fun _ s2 => script s2 = script s ∧ chunk_ s2 = updated c (dataFile c) t (Z.max (blocks_ c) (b + k))).
  { destruct (Z.ltb_spec (blocks_ c) (b + k)); (split; [done |]); [rewrite chunk_with, E1, Z.max_r by lia; by destruct c | rewrite E1, Z.max_l by lia; by destruct c]. }
  intros [] s2 [Escr2 E2]. unfold writeFullBlocksAndCrcs, getBlockOffset. rewrite take_ge, <- Hl by lia.
  eapply ensures_run; [apply write_ensures; nia |]. rewrite E2. cbn [updated setDataFile setCrcData setBlocks setWasChanged dataFile crcData].
  intros ret s3 ([[-> E3] | [-> [n E3]]] & Hf).
  - rewrite (proj2 (Z.ltb_ge _ _)) by lia. split; [left; split; [lia |] | intros E; rewrite <- Escr2 in E; destruct (Hf E); split; [done | lia]]. rewrite E3, Ed, <- (Nat2Z.id (length crc)), Ek.
    by apply (blocks_write_done c b k buffer t).
  - split; [right; split; [done |] | intros E; rewrite <- Escr2 in E; destruct (Hf E) as [Es' H']; split; [done | intros Hfd; specialize (H' Hfd); lia]]. rewrite E3. eexists _, t, _. split; [done |].
    apply (failed_kept c b k (b * B) buffer); try done; lia.
Qed.

(** ** The test of a chunk *)

(** Some block does not have the checksum that is stored. *)
Definition damaged_block (c : chunk) (i : Z) : Prop := crc_slot i (crcData c) ≠ bytes_crc (block_at (dataFile c) i).

Lemma get_crc_inj x c : length x = 4%nat → (c < 2 ^ 32)%N → get_crc x = Ok c → x = put_crc c.
Proof using.
  intros Lx Hc. destruct x as [| b0 [| b1 [| b2 [| b3 [|]]]]]; try done. unfold get_crc, put_crc. cbn [of_bytes fmap list_fmap Datapack.get32bit mbind res_bind]. intros [= E].
  assert (∀ b, is_byte (byte_to_Z b)) as Hb by (intros b; unfold is_byte, byte_to_Z; pose proof (to_N_byte b); lia).
  assert (∀ b, byte_of_Z (byte_to_Z b) = b) as Hr by (intros b; unfold byte_of_Z, byte_to_Z; rewrite N2Z.id, Byte.of_to_N; done).
  rewrite (put32bit_be32 _ (byte_to_Z b0) (byte_to_Z b1) (byte_to_Z b2) (byte_to_Z b3)) by (try apply Hb; rewrite <- E, Z2N.id, Z.mod_small; try done; unfold Datapack.be32; apply wrapu_range; lia).
  cbn. by rewrite !Hr.
Qed.

Lemma get_crc_total x : length x = 4%nat → ∃ c, get_crc x = Ok c.
Proof using. intros Lx. destruct x as [| b0 [| b1 [| b2 [| b3 [|]]]]]; try done. eexists. done. Qed.

(** The test finds the first damaged block, unless a block cannot be read. *)
Lemma test_blocks_exact n : ∀ b s, 0 <= b → (b + Z.of_nat n) * B <= Z.of_nat (length (dataFile (chunk_ s))) →
  (b + Z.of_nat n) * kCrcSize <= Z.of_nat (length (crcData (chunk_ s))) →
  ensures (test_blocks B address n b) s (fun st s' => chunk_ s' = chunk_ s ∧ (st = SAUNAFS_STATUS_OK ∧ (∀ i, b <= i < b + Z.of_nat n → ¬ damaged_block (chunk_ s) i) ∨
    st = SAUNAFS_ERROR_CRC ∧ (∃ i, b <= i < b + Z.of_nat n ∧ damaged_block (chunk_ s) i) ∨ st = SAUNAFS_ERROR_IO) ∧ faultless s s' (dataFD_ (chunk_ s) = true → st ≠ SAUNAFS_ERROR_IO)).
Proof using HB.
  induction n as [| n IH]; intros b s Hb Hf Ht; cbn [test_blocks].
  { split; [done |]. split; [| done]. left. split; [done |]. intros i Hi. lia. }
  eapply ensures_run; [apply readBlock_any; nia |]. intros r s1 (E1 & Hr & F1).
  destruct Hr as [-> | ->].
  { split; [done |]. split; [by auto |]. intros F. destruct (F1 F) as [? H]. split; [done |]. intros Hfd. by destruct (H Hfd). }
  assert (length (crc_slot b (crcData (chunk_ s))) = 4%nat) as L4 by (unfold crc_slot; rewrite length_bytes_at; unfold kCrcSize in *; lia).
  destruct (get_crc_total _ L4) as [crc Ec].
  eapply ensures_lift; [exact Ec |]. eapply ensures_lift; [apply mycrc32_bitserial; lia |].
  destruct (N.eqb_spec crc (crc_of 0 (block_at (dataFile (chunk_ s)) b))) as [-> | Hne]; cbn [negb].
  - eapply ensures_mono; [apply IH; rewrite ?E1; lia |]. rewrite E1. intros st s' (E & Hst & F). split; [done |]. split; [| intros Fs; destruct (F1 Fs) as [Fs1 _]; by apply F].
    destruct Hst as [[-> H] | [(-> & i & Hi & H) | ->]]; [left | right; left | by auto]; (split; [done |]).
    + intros i Hi. destruct (decide (i = b)) as [-> |]; [| apply H; lia]. intros []. apply get_crc_inj in Ec; [done | done |]. apply crc_of_lt. lia.
    + exists i. split; [lia | done].
  - split; [done |]. split; [| intros Fs; by destruct (F1 Fs)]. right; left. split; [done |]. exists b. split; [lia |].
    unfold damaged_block. intros E. rewrite E in Ec. unfold bytes_crc in Ec. rewrite get_put_crc in Ec by (apply crc_of_lt; lia). congruence.
Qed.

Lemma test_blocks_ensures n : ∀ b s, consistent (chunk_ s) → 0 <= b → b + Z.of_nat n <= blocks_ (chunk_ s) →
  ensures (test_blocks B address n b) s (fun st s' => chunk_ s' = chunk_ s ∧ (st = SAUNAFS_STATUS_OK ∨ st = SAUNAFS_ERROR_IO) ∧ faultless s s' (dataFD_ (chunk_ s) = true → st = SAUNAFS_STATUS_OK)).
Proof using HB.
  induction n as [| n IH]; intros b s Hc Hb Hn; cbn [test_blocks].
  { split; [done |]. split; [by left | done]. }
  eapply ensures_run; [apply readBlock_ensures; try done; lia |]. intros r s1 (E1 & [-> | ->] & Hf1); [split; [done |]; split; [by right | intros E; destruct (Hf1 E) as [Es' H']; split; [done | intros Hfd; by destruct (H' Hfd)]] |].
  eapply ensures_lift; [apply get_put_crc, crc_of_lt; lia |]. eapply ensures_lift; [apply mycrc32_bitserial; lia |]. rewrite N.eqb_refl. cbn [negb].
  eapply ensures_mono; [apply IH; rewrite ?E1; try done; lia |]. intros st s2 (E2 & Hst & Hf2). split; [congruence |]. split; [done |]. intros E. destruct (Hf1 E) as [E' _]. rewrite <- E1. auto.
Qed.

End facts.
