(* ===== verification/ChunkFiles.v ===== *)
(** * Chunks that are opened, closed and changed

    What the operations of ChunkStorage on the files of a chunk do, whatever the system calls
    return: [sound] is the invariant that the names, the header, the table of checksums in
    memory and in the metadata file, and the blocks of the data file agree. *)

From Stdlib Require Import Strings.Byte.
From S2P Require Import Prelude FlatContainers Serialization Packets Crc ErasureCode ReedSolomon SliceTraits ReadPlans ReadPlanFacts ReadExecution ChunkReader ChunkStorage StorageFacts.
Import Serialization SliceTraits Storage.
Open Scope Z_scope.

Section files.
Context (B : Z) (HB : 0 < B < 2 ^ 31) (address : N) (gPunchHolesInFiles gCheckCrcWhenWriting gPerformFsync : bool).

Abbreviation consistent := (consistent B).

(** The table that is read when the chunk is opened. *)
Definition saved_table (c : chunk) : list byte :=
  write_at 0 (bytes_at kMaxSignatureBlockSize (getCrcBlockSize c) (metaFile c)) (replicate (Z.to_nat kMaxCrcBlockSize) x00).

Definition loaded (c : chunk) : chunk := if metaFD_ c then c else setCrcData (saved_table c) c.

(** The files of a chunk are in order; [hv] is the version in the metadata file. *)
Record sound (hv : Z) (c : chunk) : Prop := {
  so_registered : registered_ c = true;
  so_ids : 0 <= id_ c < 2 ^ 64 ∧ 0 <= hv < 2 ^ 32 ∧ 0 <= version_ c < 2 ^ 32 ∧ 0 <= type_ c < 2 ^ 16;
  so_type : ChunkPartType.isValid (type_ c) = Ok true;
  so_names : metaName c = version_ c ∧ dataName c = version_ c;
  so_header : Z.of_nat (length (metaFile c)) = getHeaderSize c;
  so_signature : bytes_at 0 signatureSize (metaFile c) = signature (id_ c) hv (type_ c);
  so_refs : 0 <= refCount_ c;
  so_used : 0 < refCount_ c → metaFD_ c = true;
  so_unused : refCount_ c = 0 → wasChanged_ c = false;
  so_saved : wasChanged_ c = false → metaFD_ c = true → bytes_at 0 (getCrcBlockSize c) (crcData c) = bytes_at kMaxSignatureBlockSize (getCrcBlockSize c) (metaFile c);
  so_table : consistent (loaded c);
}.

Lemma sound_max hv c : sound hv c → 0 < maxBlocksInFile c <= SFSBLOCKSINCHUNK ∧ 0 <= blocks_ c <= maxBlocksInFile c ∧ Z.of_nat (length (dataFile c)) = blocks_ c * B.
Proof. intros H. destruct (so_table _ _ H) as [H1 H2 H3 _ _]. revert H1 H2 H3. unfold loaded. by destruct (metaFD_ c). Qed.

Lemma header_room c : 0 < maxBlocksInFile c → kMaxSignatureBlockSize + getCrcBlockSize c <= getHeaderSize c.
Proof.
  intros Hm. unfold getHeaderSize, getCrcBlockSize, kMaxSignatureBlockSize, kCrcSize, kDiskBlockSize. destruct (isStandard _); [lia |]. Z.to_euclidean_division_equations. lia.
Qed.

Lemma crc_room hv c : sound hv c → 0 < getCrcBlockSize c <= kMaxCrcBlockSize ∧ kMaxSignatureBlockSize + getCrcBlockSize c <= Z.of_nat (length (metaFile c)).
Proof.
  intros H. destruct (sound_max hv c H) as (H1 & _). rewrite (so_header _ _ H). split; [| apply header_room; lia]. unfold getCrcBlockSize, kMaxCrcBlockSize, kCrcSize. lia.
Qed.

Lemma length_saved_table hv c : sound hv c → Z.of_nat (length (saved_table c)) = kMaxCrcBlockSize.
Proof.
  intros H. pose proof (crc_room hv c H) as [H1 H2]. unfold saved_table. rewrite length_write_at; rewrite ?length_replicate, ?length_bytes_at by (unfold kMaxSignatureBlockSize in *; lia); lia.
Qed.

Lemma saved_slot hv c i : sound hv c → 0 <= i < maxBlocksInFile c → crc_slot i (saved_table c) = bytes_at (i * kCrcSize) kCrcSize (bytes_at kMaxSignatureBlockSize (getCrcBlockSize c) (metaFile c)).
Proof.
  intros H Hi. pose proof (crc_room hv c H) as [H1 H2]. unfold crc_slot, saved_table. set (d := bytes_at kMaxSignatureBlockSize _ _).
  assert (Z.of_nat (length d) = getCrcBlockSize c) as Ld by (unfold d; rewrite length_bytes_at; unfold kMaxSignatureBlockSize in *; lia).
  rewrite <- (bytes_at_same 0 d (replicate (Z.to_nat kMaxCrcBlockSize) x00)) at 2 by (rewrite ?length_replicate; lia).
  rewrite bytes_at_inner; [done | lia | unfold kCrcSize; lia | unfold kCrcSize; lia |]. rewrite Ld. unfold getCrcBlockSize, kCrcSize. lia.
Qed.

(** The table may be exchanged for one with the same checksums. *)
Lemma consistent_table c t : consistent c → Z.of_nat (length t) = kMaxCrcBlockSize → (∀ i, 0 <= i < blocks_ c → crc_slot i t = crc_slot i (crcData c)) → consistent (setCrcData t c).
Proof. intros [H1 H2 H3 H4 H5] Ht Hs. split; try done. intros i Hi. cbn [setCrcData crcData dataFile]. rewrite Hs by done. by apply H5. Qed.

(** A chunk that has been saved can be loaded again. *)
Lemma saved_consistent hv c : sound hv c → wasChanged_ c = false → consistent (setCrcData (saved_table c) c).
Proof.
  intros H Hw. destruct (metaFD_ c) eqn:Em.
  - pose proof (so_table _ _ H) as Hc. unfold loaded in Hc. rewrite Em in Hc. destruct (sound_max hv c H) as (Hm & Hb & _). apply consistent_table; [done | by eapply length_saved_table |].
    intros i Hi. rewrite (saved_slot hv) by (done || lia). rewrite <- (so_saved _ _ H Hw Em). unfold crc_slot. rewrite bytes_at_inner; [done | lia | unfold kCrcSize; lia | unfold kCrcSize; lia | unfold getCrcBlockSize, kCrcSize; lia].
  - pose proof (so_table _ _ H) as Hc. unfold loaded in Hc. by rewrite Em in Hc.
Qed.

(** ** Reading the metadata *)

Lemma is_byte_put n v : Forall is_byte (Datapack.put64bit n ++ Datapack.put32bit v).
Proof. repeat constructor; apply byte_range. Qed.

Lemma signature_length i v t : length (signature i v t) = 22%nat.
Proof. done. Qed.

Lemma signature_parsed i v t : 0 <= i < 2 ^ 64 → 0 <= v < 2 ^ 32 → 0 <= t < 2 ^ 16 →
  ∃ r1 r2 r3, Datapack.get64bit (of_bytes (drop (Z.to_nat kSignatureIdSize) (signature i v t))) = Ok (i, r1) ∧ Datapack.get32bit r1 = Ok (v, r2) ∧ Datapack.get16bit r2 = Ok (t, r3).
Proof.
  intros Hi Hv Ht. exists (Datapack.put32bit v ++ Datapack.put16bit t), (Datapack.put16bit t), [].
  assert (of_bytes (drop (Z.to_nat kSignatureIdSize) (signature i v t)) = Datapack.put64bit i ++ Datapack.put32bit v ++ Datapack.put16bit t) as ->.
  { change (drop (Z.to_nat kSignatureIdSize) (signature i v t)) with (to_bytes (Datapack.put64bit i ++ Datapack.put32bit v ++ Datapack.put16bit t)). apply of_to_bytes. repeat constructor; apply byte_range. }
  pose proof (get16bit_put t []) as E. rewrite app_nil_r in E. rewrite get64bit_put, get32bit_put, E. by rewrite !Z.mod_small by lia.
Qed.

Lemma signature_ensures hv s c : metaFD_ (chunk_ s) = true → metaFile (chunk_ s) = metaFile c → sound hv c →
  ensures readFromDescriptor s (fun r s' => chunk_ s' = chunk_ s ∧ (r = None ∨ r = Some (id_ c, hv, type_ c, true)) ∧ faultless s s' (r ≠ None)).
Proof.
  intros Hfd Hm H. unfold readFromDescriptor. eapply ensures_run; [apply pread_ensures |]. rewrite Hfd, Hm, (so_signature _ _ H). intros r s1 (E1 & _ & Hr & Hf).
  destruct r as [d |]; [| split; [done |]; split; [by left | intros E; destruct (Hf E) as [? F]; by specialize (F eq_refl)]].
  destruct (Z.eqb_spec (Z.of_nat (length d)) signatureSize) as [L | L]; cbn [negb].
  - assert (d = signature (id_ c) hv (type_ c)) as ->.
    { destruct (Hr d eq_refl) as [n ->]. rewrite length_take, signature_length in L. apply take_ge. rewrite signature_length. unfold signatureSize, kVersionOffset, kSignatureIdSize in L. lia. }
    destruct (so_ids _ _ H) as (Hi & Hv & _ & Ht). destruct (signature_parsed _ _ _ Hi Hv Ht) as (r1 & r2 & r3 & P1 & P2 & P3).
    eapply ensures_lift; [exact P1 |]. cbv beta iota. eapply ensures_lift; [exact P2 |]. cbv beta iota. rewrite bool_decide_true by done.
    eapply ensures_lift; [exact P3 |]. cbv beta iota. eapply ensures_lift; [apply (so_type _ _ H) |]. split; [done |]. split; [by right | intros E; by destruct (Hf E)].
  - split; [done |]. split; [by left |]. intros E. destruct (Hf E) as [_ F]. injection (F eq_refl) as ->. by rewrite signature_length in L.
Qed.

(** ** Opening *)

Definition zero_table : list byte := replicate (Z.to_nat kMaxCrcBlockSize) x00.

(** A chunk that differs in its descriptors only. *)
Definition fds_of (c c' : chunk) : Prop := ∃ m d, c' = setFDs m d c.

Lemma open_files_ensures s c : fds_of c (chunk_ s) → metaName c = version_ c → dataName c = version_ c →
  ensures (open_files false) s (fun _ s' => fds_of c (chunk_ s') ∧ faultless s s' (chunk_ s' = setFDs true true c)).
Proof.
  intros (m & d & E) Hm Hd. unfold open_files. eapply ensures_run; [apply next_io_ensures |]. intros r1 s1 (E1 & _ & F1). eapply ensures_run; [apply next_io_ensures |]. intros r2 s2 (E2 & _ & F2).
  apply ensures_inspect, ensures_modify. rewrite E2, E1, E. cbn [orb andb setFDs metaName dataName version_]. rewrite Hm, Hd, Z.eqb_refl. cbv [ensures mbind exec_bind mret exec_ret]. rewrite !chunk_with, E2, E1, E. split; [by eexists _, _ |].
  intros H. destruct (F1 H) as [H1 ->]. destruct (F2 H1) as [H2 ->]. split; [done | by destruct c].
Qed.

Lemma open_tries_ensures n : ∀ s c, fds_of c (chunk_ s) → metaName c = version_ c → dataName c = version_ c →
  ensures (open_tries n false) s (fun ok s' => (ok = true → ∃ d, chunk_ s' = setCrcData zero_table (setFDs true d c)) ∧
    ((0 < n)%nat → faultless s s' (ok = true ∧ chunk_ s' = setCrcData zero_table (setFDs true true c)))).
Proof.
  induction n as [| n IH]; intros s c E Hm Hd; cbn [open_tries]; [split; [done | lia] |].
  eapply ensures_run; [by apply open_files_ensures |]. intros enfile s1 (E1 & F1). apply ensures_inspect. destruct E1 as (m & d & E1). rewrite E1. cbn [setFDs metaFD_].
  destruct m; cbn [negb andb].
  - apply ensures_modify. split; [intros _; exists d; by rewrite chunk_with, E1 |]. intros _ H. destruct (F1 H) as [H1 H2]. split; [done |]. split; [done |]. by rewrite chunk_with, H2.
  - assert (∀ P, faultless s s1 (chunk_ s1 = setFDs true true c) → script s = [] → P) as Hno by (intros P HF H; destruct (HF H) as [_ H2]; rewrite E1 in H2; by inversion H2).
    destruct enfile; cbn [negb].
    + eapply ensures_mono; [apply (IH s1 c); try done; by exists false, d |]. intros ok s2 [H2 _]. split; [done |]. intros _ H. by eapply Hno.
    + split; [done |]. intros _ H. by eapply Hno.
Qed.

Lemma readChunkCrc_ensures hv v d s c : sound hv c → chunk_ s = setCrcData zero_table (setFDs true d c) → (if v =? kMaxUInt32Number then version_ c else v) = hv →
  ensures (readChunkCrc v) s (fun st s' => (st = SAUNAFS_STATUS_OK ∧ chunk_ s' = setCrcData (saved_table c) (setFDs true d c) ∨ st = SAUNAFS_ERROR_IO) ∧ faultless s s' (st = SAUNAFS_STATUS_OK)).
Proof.
  intros H E Hv. pose proof (crc_room hv c H) as [R1 R2]. unfold readChunkCrc. eapply ensures_run; [apply (signature_ensures hv s c); rewrite ?E; done |].
  intros r s1 (E1 & [-> | ->] & F1); apply ensures_inspect; [split; [by right | intros F; by destruct (F1 F)] |]. cbn [negb]. rewrite E1, E. cbn [setCrcData setFDs id_ version_ type_ crcData].
  rewrite Hv, !Z.eqb_refl. cbn [negb orb]. change (getCrcBlockSize (setCrcData zero_table (setFDs true d c))) with (getCrcBlockSize c).
  eapply ensures_run; [apply pread_ensures |]. rewrite E1, E. cbn [setCrcData setFDs metaFile metaFD_]. intros r s2 (E2 & _ & Hr & F2).
  destruct r as [x |]; [| split; [by right | intros F; destruct (F1 F) as [F' _]; destruct (F2 F') as [_ F'']; by specialize (F'' eq_refl)]]. apply ensures_modify.
  assert (Z.of_nat (length (bytes_at kMaxSignatureBlockSize (getCrcBlockSize c) (metaFile c))) = getCrcBlockSize c) as L by (rewrite length_bytes_at; unfold kMaxSignatureBlockSize in *; lia).
  destruct (Z.eqb_spec (Z.of_nat (length x)) (getCrcBlockSize c)) as [Lx | Lx].
  - split; [left; split; [done |] | intros F; destruct (F1 F) as [F' _]; by destruct (F2 F')]. rewrite chunk_with, E2. destruct (Hr x eq_refl) as [n ->].
    rewrite take_ge by (rewrite length_take in Lx; lia). done.
  - split; [by right |]. intros F. destruct (F1 F) as [F' _]. destruct (F2 F') as [_ F'']. injection (F'' eq_refl) as ->. lia.
Qed.

(** The chunk after it has been opened once more; whether the data file could be opened is not
    looked at. *)
Definition reopened (d : bool) (c : chunk) : chunk := setRefCount (refCount_ c + 1) (setFDs true d (loaded c)).

Lemma reopened_fields d c : dataFile (reopened d c) = dataFile c ∧ type_ (reopened d c) = type_ c ∧ metaFile (reopened d c) = metaFile c ∧
  getCrcBlockSize (reopened d c) = getCrcBlockSize c ∧ getHeaderSize (reopened d c) = getHeaderSize c ∧ refCount_ (reopened d c) = refCount_ c + 1 ∧ blocks_ (reopened d c) = blocks_ c ∧ version_ (reopened d c) = version_ c.
Proof. unfold reopened, loaded. by destruct (metaFD_ c). Qed.

Lemma reopened_consistent d hv c : sound hv c → consistent (reopened d c).
Proof. intros H. destruct (so_table _ _ H) as [H1 H2 H3 H4 H5]. by split. Qed.

Lemma reopened_sound d hv c : sound hv c → sound hv (reopened d c).
Proof.
  intros H. pose proof (reopened_consistent d hv c H) as Hc. pose proof H as [H1 H2 H3 H4 H5 H6 H7 H8 H9 H10 H11].
  destruct (reopened_fields d c) as (E1 & E2 & E3 & E4 & E5 & E6 & _ & _).
  split; rewrite ?E1, ?E2, ?E3, ?E4, ?E5, ?E6; try done; try lia; try (unfold reopened, loaded; by destruct (metaFD_ c)).
  unfold reopened, loaded. destruct (metaFD_ c) eqn:Em; cbn [setRefCount setFDs setCrcData wasChanged_ crcData]; [auto |]. intros _ _. pose proof (crc_room hv c H) as [R1 R2].
  unfold saved_table. set (x := bytes_at kMaxSignatureBlockSize (getCrcBlockSize c) (metaFile c)).
  assert (Z.of_nat (length x) = getCrcBlockSize c) as Ld by (unfold x; rewrite length_bytes_at; unfold kMaxSignatureBlockSize in *; lia). rewrite <- Ld. apply bytes_at_same; rewrite ?length_replicate; lia.
Qed.

Lemma closed_unused hv c : sound hv c → metaFD_ c = false → refCount_ c = 0.
Proof. intros H Em. pose proof (so_refs _ _ H). destruct (decide (0 < refCount_ c)) as [Hp |]; [pose proof (so_used _ _ H Hp); congruence | lia]. Qed.

Lemma setFDs_same c : metaFD_ c = true → setFDs true (dataFD_ c) c = c.
Proof. destruct c. cbn. by intros ->. Qed.

Lemma hddIOBegin_ensures hv v s : let c := chunk_ s in sound hv c → (metaFD_ c = false → (if v =? kMaxUInt32Number then version_ c else v) = hv) →
  ensures (hddIOBegin false v) s (fun st s' => (st = SAUNAFS_STATUS_OK ∧ (∃ d, chunk_ s' = reopened d c) ∨ st = SAUNAFS_ERROR_IO) ∧
    faultless s s' (st = SAUNAFS_STATUS_OK ∧ ((metaFD_ c = true → dataFD_ c = true) → chunk_ s' = reopened true c))).
Proof.
  intros c H Hv. unfold hddIOBegin. apply ensures_inspect. fold c.
  eapply ensures_run with (P := fun st s1 => (st = SAUNAFS_STATUS_OK ∧ (∃ d, chunk_ s1 = setFDs true d (loaded c)) ∨ st = SAUNAFS_ERROR_IO) ∧
    faultless s s1 (st = SAUNAFS_STATUS_OK ∧ ((metaFD_ c = true → dataFD_ c = true) → chunk_ s1 = setFDs true true (loaded c)))).
  - destruct (metaFD_ c) eqn:Em.
    + assert (chunk_ s = setFDs true (dataFD_ c) (loaded c)) as Eid by (unfold loaded; rewrite Em; by rewrite setFDs_same).
      destruct (refCount_ c =? 0); cbn [andb negb]; (split; [left; split; [done |]; by exists (dataFD_ c) | intros F; split; [done |]; split; [done |]; intros Hd; rewrite (Hd eq_refl) in Eid; exact Eid]).
    + rewrite (closed_unused hv c H Em). cbn [Z.eqb andb negb]. apply ensures_bind. unfold ensures at 1. cbn [sassert].
      destruct (so_names _ _ H) as [Hm Hd]. eapply ensures_run; [apply (open_tries_ensures _ s c); try done; exists false, (dataFD_ c); fold c; revert Em; clear; destruct c; cbn; by intros -> |].
      intros ok s1 [Hok F1]. specialize (F1 ltac:(unfold kOpenRetryCount; lia)). destruct ok; cbn [negb]; [| split; [by right | intros F; by destruct (F1 F) as [_ [? _]]]].
      destruct (Hok eq_refl) as [d E1]. eapply ensures_mono; [by apply (readChunkCrc_ensures hv v d s1 c); auto |]. intros st s2 [Hst F2]. unfold loaded. rewrite Em. split.
      * destruct Hst as [[-> E2] | ->]; [left | by right]. split; [done |]. exists d. by rewrite E2.
      * intros F. destruct (F1 F) as [F' [_ E1']]. destruct (F2 F') as [F'' ->]. split; [done |]. split; [done |]. intros _. destruct Hst as [[_ ->] | ?]; [| done]. rewrite E1 in E1'. injection E1' as ->. done.
  - intros st s1 [[[-> [d E1]] | ->] F1]; cbn [negb Z.eqb]; [| split; [by right | intros F; by destruct (F1 F) as [_ [? _]]]]. apply ensures_modify. split.
    + left. split; [done |]. exists d. rewrite chunk_with, E1. unfold reopened, loaded. by destruct (metaFD_ c).
    + intros F. destruct (F1 F) as (F' & _ & E). split; [done |]. split; [done |]. intros Hd. rewrite chunk_with, E by done. unfold reopened, loaded. by destruct (metaFD_ c).
Qed.

(** ** Closing *)

Lemma file_write_in off d f : 0 <= off → off + Z.of_nat (length d) <= Z.of_nat (length f) → file_write off d f = write_at off d f.
Proof.
  intros Ho Hl. unfold file_write. case_decide as E.
  - subst d. unfold write_at. cbn [app length]. by rewrite Nat.add_0_r, take_drop.
  - replace (Z.to_nat off - length f)%nat with 0%nat by lia. cbn [replicate]. by rewrite app_nil_r.
Qed.

(** The metadata file after the table has been saved. *)
Definition saved_meta (c : chunk) : list byte :=
  if wasChanged_ c then write_at kMaxSignatureBlockSize (bytes_at 0 (getCrcBlockSize c) (crcData c)) (metaFile c) else metaFile c.

Definition closed (c : chunk) : chunk := setMetaFile (saved_meta c) (setWasChanged false (setValidAttr false (setRefCount (refCount_ c - 1) c))).

Lemma used_loaded hv c : sound hv c → 0 < refCount_ c → metaFD_ c = true ∧ loaded c = c.
Proof. intros H Hr. pose proof (so_used _ _ H Hr) as E. split; [done |]. unfold loaded. by rewrite E. Qed.

(** A part of the table that is written does not touch the signature. *)
Lemma meta_written hv c n : sound hv c → 0 < refCount_ c → let m := write_at kMaxSignatureBlockSize (take n (bytes_at 0 (getCrcBlockSize c) (crcData c))) (metaFile c) in
  length m = length (metaFile c) ∧ bytes_at 0 signatureSize m = signature (id_ c) hv (type_ c).
Proof.
  intros H Hr m. pose proof (crc_room hv c H) as [R1 R2].
  assert (Z.of_nat (length (take n (bytes_at 0 (getCrcBlockSize c) (crcData c)))) <= getCrcBlockSize c) as L by (unfold bytes_at; rewrite !length_take, length_drop; lia).
  unfold m. split; [apply length_write_at; unfold kMaxSignatureBlockSize in *; lia |]. rewrite <- (so_signature _ _ H).
  apply bytes_at_other; unfold kMaxSignatureBlockSize, signatureSize, kVersionOffset, kSignatureIdSize in *; lia.
Qed.

Lemma meta_sound hv c m : sound hv c → 0 < refCount_ c → wasChanged_ c = true → length m = length (metaFile c) → bytes_at 0 signatureSize m = signature (id_ c) hv (type_ c) → sound hv (setMetaFile m c).
Proof.
  intros H Hr Hw Lm Hs. destruct (used_loaded hv c H Hr) as [Em El]. pose proof H as [H1 H2 H3 H4 H5 H6 H7 H8 H9 H10 H11].
  split; try done; cbn [setMetaFile metaFile wasChanged_].
  - by rewrite Lm.
  - congruence.
  - unfold loaded in *. cbn [setMetaFile metaFD_]. rewrite Em in *. by destruct H11.
Qed.

Lemma closed_sound hv c : sound hv c → 0 < refCount_ c → sound hv (closed c) ∧ consistent (loaded (closed c)).
Proof.
  intros H Hr. destruct (used_loaded hv c H Hr) as [Em El]. pose proof H as [H1 H2 H3 H4 H5 H6 H7 H8 H9 H10 H11].
  assert (consistent (loaded (closed c))) as Hc by (unfold loaded in *; cbn [closed setMetaFile setWasChanged setValidAttr setRefCount metaFD_]; rewrite Em in *; by destruct H11).
  split; [| done]. assert (getCrcBlockSize (closed c) = getCrcBlockSize c) as Ec by done. pose proof (crc_room hv c H) as [R1 R2].
  assert (Z.of_nat (length (crcData c)) = kMaxCrcBlockSize) as Lt by (rewrite El in H11; apply H11).
  pose proof (meta_written hv c (Z.to_nat (getCrcBlockSize c)) H Hr) as [M1 M2]. rewrite take_ge in M1, M2 by (rewrite length_bytes_at; lia).
  split; try done; cbn [closed setMetaFile setWasChanged setValidAttr setRefCount metaFile wasChanged_ refCount_ crcData].
  - unfold saved_meta. destruct (wasChanged_ c); [rewrite M1 |]; done.
  - unfold saved_meta. by destruct (wasChanged_ c).
  - lia.
  - intros _ _. rewrite Ec. unfold saved_meta. destruct (wasChanged_ c) eqn:Ew; [| auto].
    replace (getCrcBlockSize c) with (Z.of_nat (length (bytes_at 0 (getCrcBlockSize c) (crcData c)))) at 2 by (rewrite length_bytes_at; lia).
    symmetry. apply bytes_at_same; [done |]. rewrite length_bytes_at; lia.
Qed.

Lemma fsync_ensures s : ensures fsyncChunk s (fun st s' => chunk_ s' = chunk_ s ∧ (st = SAUNAFS_STATUS_OK ∨ st = SAUNAFS_ERROR_IO) ∧ faultless s s' (st = SAUNAFS_STATUS_OK)).
Proof.
  assert (∀ fd s, ensures (fsyncFD fd) s (fun st s' => chunk_ s' = chunk_ s ∧ faultless s s' (st = SAUNAFS_STATUS_OK))) as Hfd.
  { intros fd s1. unfold fsyncFD. apply ensures_inspect. destruct (negb _); [done |]. eapply ensures_run; [apply next_io_ensures |]. intros r s2 (E & _ & F). split; [done |]. intros H. by destruct (F H) as [? ->]. }
  unfold fsyncChunk. eapply ensures_run; [apply Hfd |]. intros a s1 (E1 & F1). eapply ensures_run; [apply Hfd |]. intros b s2 (E2 & F2). split; [congruence |]. split.
  - destruct (_ && _); auto.
  - intros F. destruct (F1 F) as [F' ->]. by destruct (F2 F') as [? ->].
Qed.

Lemma hddIOEnd_ensures hv s : let c := chunk_ s in sound hv c → 0 < refCount_ c →
  ensures (hddIOEnd gPerformFsync) s (fun st s' =>
    (st = SAUNAFS_STATUS_OK ∧ chunk_ s' = closed c ∨ st = SAUNAFS_ERROR_IO ∧ ∃ m, chunk_ s' = setMetaFile m c ∧ sound hv (chunk_ s')) ∧ faultless s s' (st = SAUNAFS_STATUS_OK)).
Proof.
  intros c H Hr. unfold hddIOEnd. apply ensures_inspect. fold c. destruct (used_loaded hv c H Hr) as [Em El]. pose proof (crc_room hv c H) as [R1 R2].
  assert (Z.of_nat (length (crcData c)) = kMaxCrcBlockSize) as Lt by (pose proof (so_table _ _ H) as Ht; rewrite El in Ht; apply Ht).
  eapply ensures_run with (P := fun st s1 => (st = SAUNAFS_STATUS_OK ∧ chunk_ s1 = setMetaFile (saved_meta c) (setWasChanged false c) ∨ st = SAUNAFS_ERROR_IO ∧ ∃ m, chunk_ s1 = setMetaFile m c ∧ sound hv (chunk_ s1)) ∧ faultless s s1 (st = SAUNAFS_STATUS_OK)).
  - unfold saved_meta. destruct (wasChanged_ c) eqn:Ew; [| split; [left; split; [done |]; fold c; revert Ew; clear; destruct c; cbn; by intros -> | done]].
    assert (∀ n, sound hv (setMetaFile (write_at kMaxSignatureBlockSize (take n (bytes_at 0 (getCrcBlockSize c) (crcData c))) (metaFile c)) c)) as Hm.
    { intros n. destruct (meta_written hv c n H Hr) as [M1 M2]. by apply meta_sound. }
    assert (take (Z.to_nat (getCrcBlockSize c)) (bytes_at 0 (getCrcBlockSize c) (crcData c)) = bytes_at 0 (getCrcBlockSize c) (crcData c)) as Etake by (apply take_ge; rewrite length_bytes_at; lia).
    apply ensures_bind. unfold chunkWriteCrc. apply ensures_inspect. eapply ensures_run; [apply pwrite_ensures |]. fold c. intros ret s1 (_ & Hret & F1).
    rewrite length_bytes_at, Z2Nat.id in Hret, F1 by lia. rewrite Em in F1.
    destruct Hret as [[-> E1] | [Hne Hc]].
    + rewrite Z.eqb_refl. unfold ensures at 1. cbn [negb Z.eqb mret exec_ret]. rewrite file_write_in in E1 by (unfold kMaxSignatureBlockSize in *; rewrite ?length_bytes_at; lia).
      eapply ensures_run with (P := fun st s2 => chunk_ s2 = chunk_ s1 ∧ (st = SAUNAFS_STATUS_OK ∨ st = SAUNAFS_ERROR_IO) ∧ faultless s1 s2 (st = SAUNAFS_STATUS_OK)); [destruct gPerformFsync; [apply fsync_ensures | split; [done |]; split; [by left | done]] |].
      intros st s2 (E2 & [-> | ->] & F2); cbn [negb Z.eqb].
      * apply ensures_modify. split; [left; split; [done |]; rewrite chunk_with, E2, E1; by destruct c | intros F; destruct (F1 F) as [F' _]; by destruct (F2 F')].
      * split; [right; split; [done |] | intros F; destruct (F1 F) as [F' _]; by destruct (F2 F')]. eexists. rewrite E2, E1. split; [done |]. rewrite <- Etake. apply Hm.
    + rewrite (proj2 (Z.eqb_neq _ _)) by done. unfold ensures at 1. cbn [negb Z.eqb mret exec_ret]. split; [right; split; [done |] | intros F; destruct (F1 F) as [_ F']; by destruct Hne; apply F'].
      destruct Hc as [-> | [n ->]]; fold c; [exists (metaFile c); split; [by destruct c | done] |]. eexists. split; [done |]. rewrite file_write_in; [apply Hm | done |].
      rewrite length_take, length_bytes_at by lia. unfold kMaxSignatureBlockSize in *. lia.
  - intros st s1 [[[-> E1] | (-> & m & E1 & Hs)] F1]; cbn [negb Z.eqb]; [| split; [right; eauto | intros F; by destruct (F1 F)]].
    rewrite (proj2 (Z.leb_gt _ _)) by lia. apply ensures_modify. split; [left; split; [done |]; rewrite chunk_with, E1; done | intros F; by destruct (F1 F)].
Qed.

(** Closing returns in every state. *)
Lemma hddIOEnd_returns s : ensures (hddIOEnd gPerformFsync) s (fun st s' => faultless s s' (metaFD_ (chunk_ s) = true → Z.of_nat (length (crcData (chunk_ s))) = kMaxCrcBlockSize →
  0 < maxBlocksInFile (chunk_ s) <= SFSBLOCKSINCHUNK → st = SAUNAFS_STATUS_OK)).
Proof.
  unfold hddIOEnd. apply ensures_inspect. set (ok := fun st => metaFD_ (chunk_ s) = true → Z.of_nat (length (crcData (chunk_ s))) = kMaxCrcBlockSize → 0 < maxBlocksInFile (chunk_ s) <= SFSBLOCKSINCHUNK → st = SAUNAFS_STATUS_OK).
  eapply ensures_run with (P := fun st s1 => faultless s s1 (ok st)).
  - destruct (wasChanged_ _); [| done]. eapply ensures_run with (P := fun st s1 => faultless s s1 (ok st)).
    + unfold chunkWriteCrc. apply ensures_inspect. eapply ensures_run; [apply pwrite_ensures |]. intros ret s1 (_ & _ & F) E. destruct (F E) as [E' F']. split; [done |]. intros Hfd Ht Hm. rewrite (F' Hfd).
      rewrite length_bytes_at, Z2Nat.id, Z.eqb_refl; [done | | done | |]; unfold getCrcBlockSize, kMaxCrcBlockSize, kCrcSize in *; lia.
    + intros st s1 F1. destruct (Z.eqb_spec st SAUNAFS_STATUS_OK) as [-> | Hne]; cbn [negb]; [| done]. eapply ensures_run with (P := fun st s2 => faultless s1 s2 (st = SAUNAFS_STATUS_OK)).
      * destruct gPerformFsync; [| done]. eapply ensures_mono; [apply fsync_ensures |]. by intros st' s2 (_ & _ & F).
      * intros st' s2 F2. destruct (Z.eqb_spec st' SAUNAFS_STATUS_OK) as [-> | Hne]; cbn [negb]; [apply ensures_modify |]; intros E; destruct (F1 E) as [E' _]; by destruct (F2 E').
  - intros st s1 F1. destruct (Z.eqb_spec st SAUNAFS_STATUS_OK) as [-> | Hne]; cbn [negb]; [| done]. destruct (_ <=? 0); intros E; by destruct (F1 E).
Qed.

Lemma hddIOEnd_status s : ensures (hddIOEnd gPerformFsync) s (fun st _ => st = SAUNAFS_STATUS_OK ∨ st = SAUNAFS_ERROR_IO).
Proof.
  unfold hddIOEnd. apply ensures_inspect. eapply ensures_run with (P := fun st _ => st = SAUNAFS_STATUS_OK ∨ st = SAUNAFS_ERROR_IO).
  - destruct (wasChanged_ _); [| by left]. eapply ensures_run with (P := fun st _ => st = SAUNAFS_STATUS_OK ∨ st = SAUNAFS_ERROR_IO).
    + unfold chunkWriteCrc. apply ensures_inspect. eapply ensures_run; [apply pwrite_ensures |]. intros ret s1 _. destruct (_ =? _); [by left | by right].
    + intros st s1 [-> | ->]; cbn [negb Z.eqb]; [| by right]. eapply ensures_run with (P := fun st _ => st = SAUNAFS_STATUS_OK ∨ st = SAUNAFS_ERROR_IO).
      * destruct gPerformFsync; [| by left]. eapply ensures_mono; [apply fsync_ensures |]. by intros st' s2 (_ & H & _).
      * intros st' s2 [-> | ->]; cbn [negb Z.eqb]; [by left | by right].
  - intros st s1 [-> | ->]; cbn [negb Z.eqb]; [| by right]. destruct (_ <=? 0); by left.
Qed.

(** ** Finding *)

Lemma setValidAttr_sound hv b c : sound hv c → sound hv (setValidAttr b c).
Proof. intros [H1 H2 H3 H4 H5 H6 H7 H8 H9 H10 H11]. split; try done. revert H11. unfold loaded. cbn [setValidAttr metaFD_]. destruct (metaFD_ c); intros [A1 A2 A3 A4 A5]; by split. Qed.

(** The files are found under the names of the version, and their size is that of the blocks. *)
Record findable (c : chunk) : Prop := {
  fi_registered : registered_ c = true;
  fi_names : metaName c = version_ c ∧ dataName c = version_ c;
  fi_max : 0 <= blocks_ c <= maxBlocksInFile c;
  fi_size : Z.of_nat (length (dataFile c)) = blocks_ c * B;
}.

Lemma sound_findable hv c : sound hv c → findable c.
Proof. intros H. destruct (sound_max hv c H) as (M1 & M2 & M3). by split; [apply (so_registered hv) | apply (so_names hv) | |]. Qed.

(** The result of [unlinkChunk] is never negative; what has not been removed is still there. *)
Lemma unlink_ensures s : let c := chunk_ s in
  ensures unlinkChunk s (fun r s' => (r = SAUNAFS_STATUS_OK ∨ r = SAUNAFS_ERROR_NOTDONE) ∧ (∃ m d, chunk_ s' = setNames m d c) ∧
    (metaName c = version_ c → dataName c = version_ c → script s = [] → chunk_ s' = setNames (-1) (-1) c) ∧
    (∀ rest, script s = Failed :: rest → chunk_ s' = c)).
Proof using.
  intros c. unfold unlinkChunk.
  eapply ensures_run with (P := fun r s1 => chunk_ s1 = c ∧ (∀ rest, script s = Failed :: rest → r = Failed) ∧ faultless s s1 (r = Full)).
  { unfold ensures, next_io, faultless. subst c. destruct (script s) eqn:E; cbn; repeat split; try done; intros ? [=]; by subst. }
  intros r1 s1 (E1 & H1 & F1). apply ensures_inspect. rewrite E1.
  destruct (removed r1 _) eqn:Er; cbn [negb].
  - apply ensures_modify. eapply ensures_run; [apply next_io_ensures |]. intros r2 s2 (E2 & _ & F2). rewrite chunk_with, E1 in E2.
    assert (∀ rest, script s ≠ Failed :: rest) as Hne by (intros rest E; rewrite (H1 _ E) in Er; by destruct (metaName c =? version_ c)).
    destruct (removed r2 _) eqn:Er2; cbn [negb].
    + apply ensures_modify. split; [by left |]. rewrite chunk_with, E2. split; [by exists (-1), (-1) |]. split; [done |]. intros rest E. by destruct (Hne rest).
    + split; [by right |]. rewrite E2. split; [by eexists _, _ |]. split; [| intros rest E; by destruct (Hne rest)].
      intros _ Hd E. destruct (F1 E) as [S1 ->]. destruct (F2 S1) as [_ ->]. cbn [removed] in Er2. by rewrite Hd, Z.eqb_refl in Er2.
  - split; [by right |]. rewrite E1. split; [exists (metaName c), (dataName c); by destruct c |]. split; [| done].
    intros Hm _ E. destruct (F1 E) as [_ ->]. cbn [removed] in Er. by rewrite Hm, Z.eqb_refl in Er.
Qed.

Lemma find_ensures s : let c := chunk_ s in findable c →
  ensures (hddChunkFindAndLock B) s (fun ok s' => (ok = true → chunk_ s' = setValidAttr true c) ∧ faultless s s' (ok = true)).
Proof.
  intros c [Hreg [Hm Hd] M2 M3]. unfold hddChunkFindAndLock. apply ensures_inspect. fold c. rewrite Hreg. cbn [negb].
  destruct (validAttr_ c) eqn:Ev; [split; [intros _; fold c; revert Ev; clear; destruct c; cbn; by intros -> | done] |].
  eapply ensures_run with (P := fun st s1 => (st = SAUNAFS_ERROR_NOCHUNK ∨ st = SAUNAFS_STATUS_OK ∧ chunk_ s1 = setValidAttr true c) ∧ faultless s s1 (st = SAUNAFS_STATUS_OK)).
  - unfold updateChunkAttributes.
    eapply ensures_run; [apply next_io_ensures |]. intros r1 s1 (E1 & _ & F1). apply ensures_inspect. rewrite E1. fold c. rewrite Hm, Z.eqb_refl. cbn [negb orb].
    destruct r1; cbn [negb]; try (split; [by left | intros F; by destruct (F1 F)]).
    eapply ensures_run; [apply next_io_ensures |]. intros r2 s2 (E2 & _ & F2). rewrite Hd, Z.eqb_refl. cbn [negb orb].
    destruct r2; cbn [negb]; try (split; [by left | intros F; destruct (F1 F) as [F' _]; by destruct (F2 F')]).
    assert (isDataFileSizeValid B (Z.of_nat (length (dataFile c))) c = true) as Ev2.
    { unfold isDataFileSizeValid. rewrite M3, Z.mod_mul, Z.div_mul by lia. cbn [Z.eqb negb]. by rewrite (proj2 (Z.ltb_ge _ _)) by lia. }
    rewrite Ev2. cbn [negb]. eapply ensures_run with (P := fun _ s3 => s3 = with_chunk (setBlocks (blocks_ c)) s2).
    + unfold setBlockCountFromDataFileSize. apply ensures_inspect. rewrite E2, E1. fold c. unfold ensures. rewrite run_sassert by done. rewrite M3, Z.div_mul by lia. done.
    + intros [] s3 ->. apply ensures_modify. split; [right; split; [done |]; rewrite !chunk_with, E2, E1; fold c; by destruct c | intros F; destruct (F1 F) as [F' _]; by destruct (F2 F')].
  - intros st s1 [[-> | [-> E]] F]; cbn [Z.eqb].
    + eapply ensures_run; [apply report_ensures |]. intros [] s2 (E2 & S2). eapply ensures_run; [apply unlink_ensures |]. intros r s3 _. apply ensures_modify. split; [done | intros E; by destruct (F E)].
    + split; [done | intros E'; by destruct (F E')].
Qed.

(** ** Versions *)

Definition renamed (v : Z) (c : chunk) : chunk := setVersion v (setNames v v c).

Lemma rename_ensures hv v s : let c := chunk_ s in sound hv c →
  ensures (renameChunkFile v) s (fun r s' => (r = 0 ∧ chunk_ s' = renamed v c ∨ r = -1) ∧ faultless s s' (r = 0)).
Proof.
  intros c H. destruct (so_names _ _ H) as [Hm Hd]. unfold renameChunkFile. eapply ensures_run; [apply next_io_ensures |]. intros r1 s1 (E1 & _ & F1). apply ensures_inspect. rewrite E1. fold c.
  rewrite Hm, Hd, Z.eqb_refl. destruct r1; cbn [rename_ok negb]; try (split; [by right | intros F; by destruct (F1 F)]). apply ensures_modify.
  eapply ensures_run; [apply next_io_ensures |]. intros r2 s2 (E2 & _ & F2). destruct r2; cbn [rename_ok negb]; try (split; [by right | intros F; destruct (F1 F) as [F' _]; by destruct (F2 F')]).
  apply ensures_modify, ensures_modify. split; [left; split; [done |]; rewrite !chunk_with, E2, chunk_with, E1; fold c; by destruct c | intros F; destruct (F1 F) as [F' _]; by destruct (F2 F')].
Qed.

Lemma renamed_sound hv v c : sound hv c → 0 <= v < 2 ^ 32 → sound hv (renamed v c).
Proof.
  intros [H1 H2 H3 H4 H5 H6 H7 H8 H9 H10 H11] Hv. split; try done; [tauto |]. revert H11. unfold loaded. cbn [renamed setVersion setNames metaFD_]. destruct (metaFD_ c); intros [A1 A2 A3 A4 A5]; by split.
Qed.

Lemma bytes_at_prefix off d b n : 0 <= off → off + Z.of_nat (length d) <= n → n <= Z.of_nat (length b) → bytes_at 0 n (write_at off d b) = write_at off d (bytes_at 0 n b).
Proof.
  intros Ho Hn Hb. apply list_eq. intros i. destruct (decide (i < Z.to_nat n)%nat).
  - rewrite bytes_at_lookup, !write_at_lookup by (rewrite ?length_bytes_at; lia). replace (Z.to_nat 0 + i)%nat with i by lia. case_decide; [done |]. by rewrite bytes_at_lookup by lia.
  - assert (length (write_at off d b) = length b) by (apply length_write_at; lia). assert (length (bytes_at 0 n b) = Z.to_nat n) by (apply length_bytes_at; lia).
    rewrite !lookup_ge_None_2; [done | rewrite length_write_at; lia | rewrite length_bytes_at; lia].
Qed.

Lemma signature_version i hv t v : write_at kVersionOffset (to_bytes (Datapack.put32bit v)) (signature i hv t) = signature i v t.
Proof. done. Qed.

(** The chunk whose version has been changed. *)
Definition versioned (v : Z) (c : chunk) : chunk := setVersion v (setMetaFile (write_at kVersionOffset (to_bytes (Datapack.put32bit v)) (metaFile c)) c).

Lemma versioned_sound hv v c : sound hv c → version_ c = v → 0 <= v < 2 ^ 32 → 0 < refCount_ c → sound v (versioned v c).
Proof.
  intros H Ev Hv Hr. destruct (used_loaded hv c H Hr) as [Em El]. pose proof (crc_room hv c H) as [R1 R2]. pose proof H as [H1 H2 H3 H4 H5 H6 H7 H8 H9 H10 H11].
  assert (length (write_at kVersionOffset (to_bytes (Datapack.put32bit v)) (metaFile c)) = length (metaFile c)) as L.
  { apply length_write_at; unfold kVersionOffset, kSignatureIdSize, kMaxSignatureBlockSize in *; [lia |]. cbn [length to_bytes Datapack.put32bit fmap list_fmap]. lia. }
  assert (getCrcBlockSize (versioned v c) = getCrcBlockSize c) as Ec by done.
  split; try done; cbn [versioned setVersion setMetaFile version_ metaName dataName metaFile wasChanged_ metaFD_ crcData].
  - tauto.
  - by rewrite <- Ev.
  - by rewrite L.
  - rewrite bytes_at_prefix; [by rewrite H6, signature_version | done | |]; unfold signatureSize, kVersionOffset, kSignatureIdSize, kMaxSignatureBlockSize in *; [cbn; lia | lia].
  - intros Hw Hm. rewrite Ec, H10 by done. symmetry. apply bytes_at_other; unfold kMaxSignatureBlockSize, kVersionOffset, kSignatureIdSize in *; cbn [length to_bytes Datapack.put32bit fmap list_fmap]; lia.
  - revert H11. unfold loaded. cbn [versioned setVersion setMetaFile metaFD_]. rewrite Em. intros [A1 A2 A3 A4 A5]. by split.
Qed.

Lemma overwrite_ensures hv v s : let c := chunk_ s in sound hv c → 0 < refCount_ c →
  ensures (overwriteChunkVersion v) s (fun st s' => (st = SAUNAFS_STATUS_OK ∧ chunk_ s' = versioned v c ∨ st = SAUNAFS_ERROR_IO) ∧ faultless s s' (st = SAUNAFS_STATUS_OK)).
Proof.
  intros c H Hr. destruct (used_loaded hv c H Hr) as [Em El]. pose proof (crc_room hv c H) as [R1 R2]. unfold overwriteChunkVersion. eapply ensures_run; [apply pwrite_ensures |]. fold c. rewrite Em.
  change (Z.of_nat (length (to_bytes (Datapack.put32bit v)))) with 4. intros ret s1 (_ & [[-> E1] | [Hne _]] & F).
  - cbn [Z.eqb negb]. apply ensures_modify. split; [left; split; [done |] | intros E; by destruct (F E)]. rewrite chunk_with, E1, file_write_in; [done | done |].
    unfold kMaxSignatureBlockSize, kVersionOffset, kSignatureIdSize in *. cbn [length to_bytes Datapack.put32bit fmap list_fmap]. lia.
  - rewrite (proj2 (Z.eqb_neq _ _)) by done. split; [by right |]. intros E. destruct (F E) as [_ F']. by destruct Hne; apply F'.
Qed.

(** An operation that is done on a chunk that it opens and closes. *)
Record after_operation (v : Z) (c c' : chunk) : Prop := {
  ao_sound : sound v c';
  ao_version : version_ c' = v;
  ao_references : refCount_ c' = refCount_ c;
  ao_identity : id_ c' = id_ c ∧ type_ c' = type_ c;
}.

(** The version is changed: the first steps of the operations that do it. *)
Lemma begin_version_ensures v nv s Q (k : exec disk Z) : let c := chunk_ s in sound (version_ c) c → v = version_ c → v < kMaxUInt32Number → 0 <= nv < 2 ^ 32 →
  (∀ d s', chunk_ s' = versioned nv (reopened d (renamed nv c)) → faultless s s' ((metaFD_ c = true → dataFD_ c = true) → d = true) → ensures k s' Q) →
  (∀ st s', st = SAUNAFS_ERROR_IO → script s ≠ [] → Q st s') →
  ensures (renamed ← renameChunkFile nv;
    if renamed <? 0 then mret SAUNAFS_ERROR_IO else
    status ← hddIOBegin false v;
    if negb (status =? SAUNAFS_STATUS_OK) then mret status else
    status ← overwriteChunkVersion nv;
    if negb (status =? SAUNAFS_STATUS_OK) then _ ← hddIOEnd gPerformFsync; mret SAUNAFS_ERROR_IO else k) s Q.
Proof.
  intros c H -> Hmax Hnv Hk Hno. pose proof (renamed_sound (version_ c) nv c H Hnv) as Hr.
  eapply ensures_run; [by apply (rename_ensures (version_ c))|]. fold c. intros r s1 [[[-> E1] | ->] F1]; cbn [Z.ltb Z.compare]; [| apply Hno; [done | intros F; by destruct (F1 F)]].
  eapply ensures_run; [apply (hddIOBegin_ensures (version_ c)); rewrite E1; [done |] |].
  { intros _. by rewrite (proj2 (Z.eqb_neq _ _)) by lia. }
  rewrite E1. intros st s2 [[[-> [d E2]] | ->] F2]; cbn [negb Z.eqb]; [| apply Hno; [done | intros F; destruct (F1 F) as [F' _]; by destruct (F2 F') as [_ [? _]]]].
  destruct (reopened_fields d (renamed nv c)) as (_ & _ & _ & _ & _ & Er & _). pose proof (reopened_sound d _ _ Hr) as Ho. pose proof (so_refs _ _ Hr) as Hrefs. cbn [renamed setVersion setNames refCount_] in Er, Hrefs.
  eapply ensures_run; [apply (overwrite_ensures (version_ c)); rewrite E2; [done | lia] |]. rewrite E2. intros st s3 [[[-> E3] | ->] F3]; cbn [negb Z.eqb].
  - apply (Hk d); [done |]. intros F. destruct (F1 F) as [F' _]. destruct (F2 F') as [F'' [_ G]]. destruct (F3 F'') as [F''' _]. split; [done |]. intros Hd.
    specialize (G Hd). rewrite E2 in G. apply (f_equal dataFD_) in G. unfold reopened in G. cbn [setRefCount setFDs dataFD_] in G. done.
  - eapply ensures_run; [apply hddIOEnd_returns |]. intros _ s4 _. apply Hno; [done |]. intros F. destruct (F1 F) as [F' _]. destruct (F2 F') as [F'' _]. by destruct (F3 F'').
Qed.

(** What the opened chunk with the new version is. *)
Lemma begun_sound d nv c : sound (version_ c) c → 0 <= nv < 2 ^ 32 → let c1 := versioned nv (reopened d (renamed nv c)) in
  sound nv c1 ∧ 0 < refCount_ c1 ∧ refCount_ c1 = refCount_ c + 1 ∧ dataFile c1 = dataFile c ∧ blocks_ c1 = blocks_ c ∧ version_ c1 = nv ∧ id_ c1 = id_ c ∧ type_ c1 = type_ c ∧ dataFD_ c1 = d ∧ loaded c1 = c1.
Proof.
  intros H Hnv c1. pose proof (renamed_sound _ nv c H Hnv) as Hr. destruct (reopened_fields d (renamed nv c)) as (E1 & E2 & E3 & E4 & E5 & E6 & E7 & E8). pose proof (so_refs _ _ H) as Hrefs.
  pose proof (reopened_sound d _ _ Hr) as Ho. assert (refCount_ c1 = refCount_ c + 1) as Er by (unfold c1; cbn [versioned setVersion setMetaFile refCount_]; rewrite E6; done).
  assert (sound nv c1) as Hs by (apply (versioned_sound (version_ c)); try done; rewrite E6; cbn [renamed setVersion setNames refCount_]; lia).
  split; [done |]. split; [lia |]. split; [done |]. split; [exact E1 |]. split; [exact E7 |]. split; [done |].
  split; [unfold c1, reopened, loaded; by destruct (metaFD_ (renamed nv c)) |]. split; [exact E2 |]. split; [done |]. apply (used_loaded nv c1); [done | lia].
Qed.

(** The closing that ends an operation. *)
Lemma end_operation_ensures v s c : sound v (chunk_ s) → refCount_ (chunk_ s) = refCount_ c + 1 → 0 <= refCount_ c → version_ (chunk_ s) = v → id_ (chunk_ s) = id_ c ∧ type_ (chunk_ s) = type_ c →
  ensures (hddIOEnd gPerformFsync) s (fun st s' => (st = SAUNAFS_STATUS_OK → after_operation v c (chunk_ s') ∧ dataFile (chunk_ s') = dataFile (chunk_ s) ∧ blocks_ (chunk_ s') = blocks_ (chunk_ s) ∧ dataFD_ (chunk_ s') = dataFD_ (chunk_ s)) ∧
    st ≠ SAUNAFS_ERROR_CRC ∧ faultless s s' (st = SAUNAFS_STATUS_OK)).
Proof.
  intros H Hr Hc Hv Hid. assert (0 < refCount_ (chunk_ s)) as Hp by lia. eapply ensures_mono; [by apply (hddIOEnd_ensures v) |]. intros st s' [[[-> E] | (-> & _)] F]; (split; [| done]); [| done]. intros _. rewrite E. split; [| done].
  split; [by apply closed_sound | done | cbn; lia | done].
Qed.

Lemma updateVersion_ensures v nv s : let c := chunk_ s in sound (version_ c) c → v = version_ c → v < kMaxUInt32Number → 0 <= nv < 2 ^ 32 →
  ensures (updateVersion gPerformFsync v nv) s (fun st s' => (st = SAUNAFS_STATUS_OK → after_operation nv c (chunk_ s') ∧ dataFile (chunk_ s') = dataFile c ∧ blocks_ (chunk_ s') = blocks_ c) ∧
    faultless s s' (st = SAUNAFS_STATUS_OK ∧ ((metaFD_ c = true → dataFD_ c = true) → dataFD_ (chunk_ s') = true))).
Proof.
  intros c H Hv Hmax Hnv. unfold updateVersion. apply ensures_inspect. fold c. rewrite Hv, Z.eqb_refl. cbn [negb andb]. rewrite <- Hv. apply begin_version_ensures; try done.
  - intros d s1 E1 F1. fold c in E1. destruct (begun_sound d nv c H Hnv) as (B1 & B2 & B3 & B4 & B5 & B6 & B7 & B8 & B9 & _). pose proof (so_refs _ _ H).
    eapply ensures_mono; [apply (end_operation_ensures nv s1 c); rewrite ?E1; done |]. rewrite E1, B4, B5, B9. intros st s2 (G & _ & F2). split; [intros Hst; by destruct (G Hst) as (? & ? & ? & _) |]. intros F. destruct (F1 F) as [F' Hd]. destruct (F2 F') as [F'' Hst]. split; [done |]. split; [done |]. destruct (G Hst) as (_ & _ & _ & ->). done.
  - intros st s' -> F. split; [done |]. intros ?. done.
Qed.

(** ** Truncation *)

Definition blocks_for (len : Z) : Z := (len + B - 1) / B.

(** The bytes from [len] on are zeros. *)
Definition cut (g : Z → byte) (len x : Z) : byte := if decide (x < len) then g x else x00.

Definition truncated_to (len : Z) (c c' : chunk) : Prop :=
  ∃ f t, c' = setCrcData t (setDataFile f c) ∧ consistent (setBlocks (blocks_for len) c') ∧ ∀ x, 0 <= x → content f x = cut (content (dataFile c)) len x.

Lemma blocks_for_range len : 0 <= len → blocks_for len * B - B < len <= blocks_for len * B ∧ 0 <= blocks_for len.
Proof. intros Hl. unfold blocks_for. Z.to_euclidean_division_equations. nia. Qed.

Lemma expand_ensures len s : let c := chunk_ s in consistent c → blocks_ c < blocks_for len → blocks_for len <= maxBlocksInFile c → 0 <= len →
  ensures (expand B (blocks_for len)) s (fun ok s' => (ok = true → truncated_to len c (chunk_ s')) ∧ faultless s s' (dataFD_ c = true → ok = true)).
Proof.
  intros c Hc Hlt Hmax Hl. pose proof Hc as [H1 H2 H3 H4 H5]. pose proof (blocks_for_range len Hl) as Hr. unfold expand. apply ensures_inspect. fold c.
  eapply ensures_run; [apply fill_empty_ensures; fold c; [done | lia | unfold kMaxCrcBlockSize, kCrcSize in *; lia] |]. fold c. intros [] s1 (E1 & _ & t & C1 & Lt & Ht).
  eapply ensures_run; [apply ftruncate_ensures |]. rewrite C1. cbn [setCrcData dataFile dataFD_]. unfold getFileSizeFromBlockCount. intros ret s2 (_ & [[-> C2] | [-> C2]] & F2).
  - split; [| intros F; rewrite <- E1 in F; by destruct (F2 F)]. intros _. exists (resize (blocks_for len * B) (dataFile c)), t. split; [rewrite C2; by destruct c |]. split.
    + rewrite C2. split; cbn [setBlocks setDataFile setCrcData blocks_ dataFile crcData]; [done | change (0 <= blocks_for len <= maxBlocksInFile c); lia | rewrite length_resize by nia; lia | by rewrite Lt |].
      intros i Hi. rewrite Ht by lia. rewrite (block_at_ext B (dataFile c)); [| lia | intros x Hx; apply (content_extended B HB); [done | nia | nia]].
      case_decide; [| apply H5; lia]. rewrite block_at_beyond by nia. done.
    + intros x Hx. rewrite (content_extended B HB) by (done || nia). unfold cut. case_decide; [done |]. apply content_beyond. nia.
  - split; [done |]. intros F. rewrite <- E1 in F. destruct (F2 F) as [Es H']. split; [done |]. intros Hd. by specialize (H' Hd).
Qed.

(** The file that is cut to whole blocks, and its blocks. *)
Lemma shrunk_blocks f len n : 0 <= len → len <= n * B → ∀ i, 0 <= i → (i + 1) * B <= len → block_at B (resize (n * B) (resize len f)) i = block_at B f i.
Proof.
  intros Hl Hn i Hi Hlen. apply block_at_ext; [done |]. intros x Hx. rewrite !content_resize by nia. rewrite !decide_True by nia. done.
Qed.

Lemma shrunk_content f len n x : 0 <= len → len <= n * B → 0 <= x → content (resize (n * B) (resize len f)) x = cut (content f) len x.
Proof. intros Hl Hn Hx. rewrite !content_resize by nia. unfold cut. repeat case_decide; try done; lia. Qed.

(** The last block that is left, with zeros at its end. *)
Lemma shrunk_last f len n : 0 <= len → let full := len / B in let last := len - full * B in 0 < last → n = full + 1 → Z.of_nat (length f) >= n * B →
  bytes_at (full * B) last (resize (n * B) (resize len f)) = span (content f) (full * B) last ∧
  block_at B (resize (n * B) (resize len f)) full = span (content f) (full * B) last ++ replicate (Z.to_nat (B - last)) x00.
Proof.
  intros Hl full last Hlast Hn Hf. assert (0 <= full ∧ 0 < last < B) as [Hfull Hb] by (unfold last, full in *; Z.to_euclidean_division_equations; nia).
  set (f' := resize (n * B) (resize len f)). assert (∀ x, 0 <= x → content f' x = cut (content f) len x) as Hc by (intros x Hx; apply shrunk_content; nia).
  assert (span (content f') (full * B) last = span (content f) (full * B) last) as Es.
  { apply span_ext. intros x Hx. rewrite Hc by nia. unfold cut. rewrite decide_True by lia. done. }
  split; [rewrite bytes_at_span; [done | nia | lia |]; unfold f'; rewrite length_resize; nia |].
  unfold block_at. replace B with (last + (B - last)) at 2 by lia. rewrite span_app, Es by lia. f_equal. rewrite <- (span_const (full * B + last)). apply span_ext. intros x Hx. rewrite Hc by nia. unfold cut. by rewrite decide_False by lia.
Qed.

Lemma resize_twice f m n : 0 <= m <= n → 0 <= n → Z.of_nat (length f) >= n → m = n → resize n f = resize n (resize m f).
Proof. intros Hm Hn Hf ->. apply content_ext; [apply Nat2Z.inj; rewrite !length_resize by lia; done |]. intros x Hx. rewrite !content_resize by lia. by repeat case_decide. Qed.

Lemma shrink_consistent c len t : let n := blocks_for len in consistent c → n <= blocks_ c → 0 <= len → length t = length (crcData c) →
  (∀ i, 0 <= i < len / B → crc_slot i t = crc_slot i (crcData c)) → (len / B < n → crc_slot (len / B) t = bytes_crc (block_at B (resize (n * B) (resize len (dataFile c))) (len / B))) →
  consistent (setBlocks n (setCrcData t (setDataFile (resize (n * B) (resize len (dataFile c))) c))).
Proof.
  intros n Hc Hn Hl Lt Hs Hlast. pose proof Hc as [H1 H2 H3 H4 H5]. pose proof (blocks_for_range len Hl) as Hr. fold n in Hr.
  assert (n - 1 <= len / B <= n ∧ len / B * B <= len < (len / B + 1) * B) as Hd by (Z.to_euclidean_division_equations; nia).
  split; cbn [setBlocks setDataFile setCrcData blocks_ dataFile crcData]; [done | change (0 <= n <= maxBlocksInFile c); lia | rewrite length_resize by nia; lia | by rewrite Lt |].
  intros i Hi. destruct (decide (i = len / B)) as [-> | Hne]; [apply Hlast; lia |]. rewrite Hs by lia. rewrite shrunk_blocks by nia. apply H5. lia.
Qed.

Lemma shrink_ensures len s : let c := chunk_ s in let n := blocks_for len in consistent c → n <= blocks_ c → 0 <= len →
  ensures (shrink B address (blocks_ c) len n) s (fun ok s' => (ok = true → truncated_to len c (chunk_ s')) ∧ faultless s s' (dataFD_ c = true → ok = true)).
Proof.
  intros c n Hc Hn Hl. pose proof Hc as [H1 H2 H3 H4 H5]. pose proof (blocks_for_range len Hl) as Hr. fold n in Hr.
  assert (n - 1 <= len / B <= n ∧ len / B * B <= len < (len / B + 1) * B) as Hd by (Z.to_euclidean_division_equations; nia).
  assert (0 <= len / B) as Hfull by (apply Z.div_pos; lia). unfold shrink, getFileSizeFromBlockCount, getBlockOffset. set (full := len / B) in *. set (last := len - full * B) in *.
  eapply ensures_run with (P := fun ret s1 => (ret = 0 ∧ chunk_ s1 = (if 0 <? last then setDataFile (resize len (dataFile c)) c else c) ∨ ret = -1) ∧ faultless s s1 (dataFD_ c = true → ret = 0)).
  { destruct (Z.ltb_spec 0 last).
    - replace (full * B + last) with len by (unfold last; lia). eapply ensures_mono; [apply ftruncate_ensures |]. fold c. intros ret s1 (_ & [[-> E] | [-> E]] & F); (split; [| done]); [by left | by right].
    - split; [by left | done]. }
  intros ret s1 [[[-> E1] | ->] F1]; cbn [Z.ltb Z.compare]; [| split; [done |]; intros F; destruct (F1 F) as [Es H']; split; [done | intros Hfd; by specialize (H' Hfd)]].
  eapply ensures_run; [apply ftruncate_ensures |]. intros ret s2 (_ & Hret & F2).
  assert (dataFD_ (chunk_ s1) = dataFD_ c ∧ resize (n * B) (dataFile (chunk_ s1)) = resize (n * B) (resize len (dataFile c)) ∧ ∀ f, setDataFile f (chunk_ s1) = setDataFile f c) as (Ed & Ef & Eset).
  { rewrite E1. destruct (Z.ltb_spec 0 last); [done |]. split; [done |]. split; [| done]. apply resize_twice; [unfold last in *; nia | lia | nia | unfold last in *; nia]. }
  rewrite Ed, Ef, Eset in *. destruct Hret as [[-> E2] | [-> E2]]; cbn [Z.ltb Z.compare]; [| split; [done |]; intros F; destruct (F1 F) as [F' _]; destruct (F2 F') as [Es H']; split; [done | intros Hfd; by specialize (H' Hfd)]].
  set (f' := resize (n * B) (resize len (dataFile c))) in *.
  assert (∀ t, length t = length (crcData c) → (∀ i, 0 <= i < full → crc_slot i t = crc_slot i (crcData c)) → (full < n → crc_slot full t = bytes_crc (block_at B f' full)) → truncated_to len c (setCrcData t (setDataFile f' c))) as Hdone.
  { intros t Lt Ht Hlast. exists f', t. split; [done |]. split; [by apply shrink_consistent | intros x Hx; apply shrunk_content; lia]. }
  destruct (Z.ltb_spec 0 last) as [Hp | Hp].
  - assert (n = full + 1) as En by (unfold last in Hp; nia). destruct (shrunk_last (dataFile c) len n Hl Hp En ltac:(nia)) as [L1 L2]. fold full last f' in L1, L2.
    eapply ensures_run; [apply pread_ensures |]. rewrite E2. cbn [setDataFile dataFile dataFD_]. rewrite L1. intros r s3 (E3 & _ & Hr3 & F3).
    destruct r as [x |]; [| split; [done |]; intros F; destruct (F1 F) as [F' _]; destruct (F2 F') as [F'' _]; destruct (F3 F'') as [Es H']; split; [done | intros Hfd; by specialize (H' Hfd)]].
    destruct (Z.eqb_spec (Z.of_nat (length x)) last) as [Lx | Lx]; cbn [negb].
    + assert (x = span (content (dataFile c)) (full * B) last) as -> by (destruct (Hr3 x eq_refl) as [m ->]; apply take_ge; rewrite length_take, span_length in Lx; rewrite span_length; lia).
      eapply ensures_lift; [unfold mycrc32_zeroexpanded; rewrite mycrc32_bitserial by lia; cbn [mbind res_bind]; apply zeroblock_exact; [by apply crc_of_lt | lia] |]. rewrite <- crc_of_app, Z_N_nat, <- L2.
      apply ensures_modify. assert (length (write_at (full * kCrcSize) (put_crc (crc_of 0 (block_at B f' full))) (crcData c)) = length (crcData c)) as Lw.
      { assert (full + 1 <= SFSBLOCKSINCHUNK) by lia. apply length_write_at; rewrite ?length_put_crc, ?H4; unfold kCrcSize, kMaxCrcBlockSize, kCrcSize; lia. }
      eapply ensures_run; [apply fill_empty_ensures; rewrite ?chunk_with, ?E3; cbn [setCrcData setDataFile crcData]; [done | lia | rewrite Lw, H4; unfold kMaxCrcBlockSize, kCrcSize; lia] |].
      rewrite chunk_with, E3. cbn [setCrcData setDataFile crcData]. intros [] s4 (E4 & _ & t & C4 & Lt & Ht). split; [intros _; rewrite C4 |].
      * apply Hdone; [by rewrite Lt | |].
        -- intros i Hi. rewrite Ht by lia. rewrite decide_False by lia. apply crc_slot_other; try done; [lia | lia |]. rewrite H4. unfold kCrcSize, kMaxCrcBlockSize, kCrcSize. lia.
        -- intros _. rewrite Ht by lia. rewrite decide_False by lia. apply crc_slot_same; try done. rewrite H4. unfold kCrcSize, kMaxCrcBlockSize, kCrcSize. lia.
      * intros F. destruct (F1 F) as [F' _]. destruct (F2 F') as [F'' _]. destruct (F3 F'') as [F''' _]. split; [| done]. by rewrite E4.
    + split; [done |]. intros F. destruct (F1 F) as [F' _]. destruct (F2 F') as [F'' _]. destruct (F3 F'') as [Es H']. split; [done |]. intros Hfd. injection (H' Hfd) as ->. rewrite span_length in Lx. lia.
  - split; [intros _; rewrite E2 | intros F; destruct (F1 F) as [F' _]; by destruct (F2 F')]. replace (setDataFile f' c) with (setCrcData (crcData c) (setDataFile f' c)) by (by destruct c). apply Hdone; try done. unfold last in Hp. nia.
Qed.

Lemma changed_sound hv c : sound hv c → 0 < refCount_ c → sound hv (setWasChanged true c).
Proof.
  intros H Hr. destruct (used_loaded hv c H Hr) as [Em El]. pose proof H as [H1 H2 H3 H4 H5 H6 H7 H8 H9 H10 H11]. split; try done; [cbn; lia |].
  revert H11. unfold loaded. cbn [setWasChanged metaFD_]. rewrite Em. intros [A1 A2 A3 A4 A5]. by split.
Qed.

(** A changed chunk remains in order when its blocks do. *)
Lemma data_sound hv c f t n : sound hv c → 0 < refCount_ c → wasChanged_ c = true → consistent (setBlocks n (setCrcData t (setDataFile f c))) → sound hv (setBlocks n (setCrcData t (setDataFile f c))).
Proof.
  intros H Hr Hw Hc. destruct (used_loaded hv c H Hr) as [Em El]. pose proof H as [H1 H2 H3 H4 H5 H6 H7 H8 H9 H10 H11]. split; try done.
  - cbn [setBlocks setCrcData setDataFile wasChanged_]. congruence.
  - unfold loaded. cbn [setBlocks setCrcData setDataFile metaFD_]. by rewrite Em.
Qed.

Lemma truncate_ensures ov nv len s : let c := chunk_ s in sound (version_ c) c → ov = version_ c → ov < kMaxUInt32Number → 0 <= nv < 2 ^ 32 → 0 <= len <= SFSBLOCKSINCHUNK * B → blocks_for len <= maxBlocksInFile c →
  ensures (hddInternalTruncate B address gPerformFsync ov nv len) s (fun st s' =>
    (st = SAUNAFS_STATUS_OK → after_operation nv c (chunk_ s') ∧ blocks_ (chunk_ s') = blocks_for len ∧ ∀ x, 0 <= x → content (dataFile (chunk_ s')) x = cut (content (dataFile c)) len x) ∧
    faultless s s' ((metaFD_ c = true → dataFD_ c = true) → st = SAUNAFS_STATUS_OK ∧ dataFD_ (chunk_ s') = true)).
Proof.
  intros c H Hov Hmax Hnv Hlen Hblocks. unfold hddInternalTruncate, found. rewrite (proj2 (Z.ltb_ge _ _)) by lia.
  eapply ensures_run; [by eapply find_ensures, sound_findable |]. fold c. intros ok s1 [E1 F1]. destruct ok; [| split; [done |]; intros F; by destruct (F1 F)].
  specialize (E1 eq_refl). apply ensures_inspect. rewrite E1. set (c0 := setValidAttr true c) in *. assert (sound (version_ c0) c0) as H0 by (by apply setValidAttr_sound).
  change (version_ c0) with (version_ c). rewrite Hov, Z.eqb_refl. cbn [negb andb]. rewrite <- Hov. rewrite <- E1 in H0.
  apply (begin_version_ensures ov nv s1); try done; [by rewrite E1 | |].
  - intros d s2 E2 F2. rewrite E1 in H0, E2, F2. destruct (begun_sound d nv c0 H0 Hnv) as (B1 & B2 & B3 & B4 & B5 & B6 & B7 & B8 & B9 & B10). rewrite <- E2 in *. set (c2 := chunk_ s2) in *.
    apply ensures_modify, ensures_inspect. rewrite chunk_with. fold c2. change (blocks_ (setWasChanged true c2)) with (blocks_ c2). fold (blocks_for len).
    assert (consistent (setWasChanged true c2)) as Hc2 by (pose proof (so_table _ _ B1) as Ht; rewrite B10 in Ht; destruct Ht as [A1 A2 A3 A4 A5]; by split).
    assert (maxBlocksInFile c2 = maxBlocksInFile c) as Em by (unfold maxBlocksInFile; by rewrite B8).
    eapply ensures_run with (P := fun ok s3 => (ok = true → truncated_to len (setWasChanged true c2) (chunk_ s3)) ∧ faultless s2 s3 (dataFD_ c2 = true → ok = true)).
    + destruct (Z.ltb_spec (blocks_ c2) (blocks_for len)).
      * apply (expand_ensures len (with_chunk (setWasChanged true) s2)); try done; [| lia]. change (blocks_for len <= maxBlocksInFile c2). lia.
      * rewrite <- B5. apply (shrink_ensures len (with_chunk (setWasChanged true) s2)); try done. lia.
    + intros ok s3 [H3 F3]. destruct ok; cbn [negb].
      * destruct (H3 eq_refl) as (f & t & E3 & Hcons & Hcont). rewrite E3 in Hcons. apply ensures_modify. pose proof (so_refs _ _ H) as Hrefs.
        assert (chunk_ (with_chunk (setBlocks (blocks_for len)) s3) = setBlocks (blocks_for len) (setCrcData t (setDataFile f (setWasChanged true c2)))) as E4 by (by rewrite chunk_with, E3).
        eapply ensures_mono; [apply (end_operation_ensures nv _ c); rewrite ?E4; try done; apply data_sound; try done; by apply changed_sound |]. rewrite E4. intros st s4 (G & _ & F4). split.
        -- intros Hst. destruct (G Hst) as (G1 & G2 & G3 & _). split; [done |]. split; [done |]. intros x Hx. rewrite G2. cbn [setBlocks setCrcData setDataFile dataFile]. rewrite Hcont by done. cbn [setWasChanged dataFile]. by rewrite B4.
        -- intros F. destruct (F1 F) as [F' _]. destruct (F2 F') as [F'' Hd]. destruct (F3 F'') as [F3' _]. destruct (F4 F3') as [F4' Hst]. split; [done |]. intros Hfd. split; [done |]. destruct (G Hst) as (_ & _ & _ & ->). cbn [setBlocks setCrcData setDataFile setWasChanged dataFD_]. rewrite B9. by apply Hd.
      * eapply ensures_run; [apply hddIOEnd_returns |]. intros st' s4 F4. split; [done |]. intros F. destruct (F1 F) as [F' _]. destruct (F2 F') as [F'' Hd]. destruct (F3 F'') as [F''' Hok].
        split; [by destruct (F4 F''') | intros Hfd; specialize (Hok ltac:(rewrite B9; auto)); done].
  - intros st s' -> F. split; [done |]. intros E. by destruct (F1 E) as [F' _].
Qed.

(** *** The test of a chunk *)

Lemma test_ensures v s : let c := chunk_ s in sound (version_ c) c → v = version_ c →
  ensures (hddInternalTestChunk B address gPerformFsync v) s (fun st s' =>
    (st = SAUNAFS_STATUS_OK → after_operation (version_ c) c (chunk_ s') ∧ dataFile (chunk_ s') = dataFile c ∧ blocks_ (chunk_ s') = blocks_ c) ∧
    st ≠ SAUNAFS_ERROR_CRC ∧ faultless s s' ((metaFD_ c = true → dataFD_ c = true) → st = SAUNAFS_STATUS_OK ∧ dataFD_ (chunk_ s') = true)).
Proof.
  intros c H Hv. unfold hddInternalTestChunk, found. eapply ensures_run; [by eapply find_ensures, sound_findable |]. fold c. intros ok s1 [E1 F1]. destruct ok; [| split; [done |]; split; [done |]; intros F; by destruct (F1 F)].
  specialize (E1 eq_refl). apply ensures_inspect. rewrite E1. set (c0 := setValidAttr true c) in *. assert (sound (version_ c) c0) as H0 by (by apply setValidAttr_sound).
  change (version_ c0) with (version_ c). rewrite Hv, Z.eqb_refl. cbn [negb andb].
  eapply ensures_run; [apply (hddIOBegin_ensures (version_ c)); rewrite E1; [done | intros _; by rewrite Z.eqb_refl] |]. rewrite E1.
  intros st s2 [[[-> [d E2]] | ->] F2]; cbn [negb Z.eqb]; [| split; [done |]; split; [done |]; intros F; destruct (F1 F) as [F' _]; by destruct (F2 F') as [_ [? _]]].
  destruct (reopened_fields d c0) as (R1 & R2 & R3 & R4 & R5 & R6 & R7 & R8). pose proof (reopened_sound d _ _ H0) as Hs. pose proof (reopened_consistent d _ _ H0) as Hc. pose proof (so_refs _ _ H) as Hrefs.
  apply ensures_inspect. eapply ensures_run; [apply (test_blocks_ensures B HB); rewrite ?E2; [done | lia |] |].
  { rewrite R7. destruct (sound_max _ c H) as (_ & M & _). change (blocks_ c0) with (blocks_ c). lia. }
  rewrite E2. intros st s3 (E3 & [-> | ->] & F3); cbn [negb Z.eqb].
  - assert (id_ (reopened d c0) = id_ c) as Rid by (unfold reopened, loaded; by destruct (metaFD_ c0)).
    eapply ensures_mono; [apply (end_operation_ensures (version_ c) s3 c); rewrite ?E3; try done |]. rewrite E3, R1, R7. intros st s4 (G & Hne & F4). split; [intros Hst; by destruct (G Hst) as (? & ? & ? & _) |]. split; [done |].
    intros F. destruct (F1 F) as [F' _]. destruct (F2 F') as [F'' [_ Hd]]. destruct (F3 F'') as [F3' _]. destruct (F4 F3') as [F4' Hst]. split; [done |]. intros Hfd. split; [done |].
    destruct (G Hst) as (_ & _ & _ & ->). specialize (Hd Hfd). rewrite E2 in Hd. by rewrite Hd.
  - eapply ensures_run; [apply hddIOEnd_returns |]. intros st' s4 F4. split; [done |]. split; [done |]. intros F. destruct (F1 F) as [F' _]. destruct (F2 F') as [F'' [_ Hd]]. destruct (F3 F'') as [F3' Hok].
    split; [by destruct (F4 F3') |]. intros Hfd. specialize (Hd Hfd). rewrite E2 in Hd. specialize (Hok ltac:(by rewrite Hd)). done.
Qed.

End files.
