(* ===== verification/ChunkSessions.v ===== *)
(** * Operations on a chunk as its users see them

    The jobs that write what a client has sent (src/chunkserver/bgjobs.cc and io_buffers.cc),
    and the behaviour of all operations on a chunk in terms of its bytes. *)

From Stdlib Require Import Strings.Byte.
From S2P Require Import Prelude FlatContainers Serialization Packets Crc ErasureCode ReedSolomon SliceTraits ReadPlans ReadPlanFacts ReadExecution ChunkReader ChunkStorage StorageFacts ChunkFiles.
Import Serialization SliceTraits Storage.
Open Scope Z_scope.

(** ** Jobs that write *)
Module WriteJobs.

Definition SAUNAFS_ERROR_EINVAL : Z := 6.

Record WriteInfo := mk_info { blockNum : Z; offset : Z; size : Z; writeId : Z; status_ : Z }.

(** The data of the writes, each at the start of a block of the buffer, and their checksums. *)
Record InputBuffer := mk_input { blockBuffer_ : list byte; writeInfo_ : list WriteInfo; crcData_ : list N }.

(** [buffer] is an offset in the buffer of blocks. *)
Record WriteOperation := mk_operation { startBlock : Z; endBlock : Z; buffer : Z; op_offset : Z; op_size : Z; crcs : list N }.

Section jobs.
Context (B : Z) (address : N) (gPunchHolesInFiles gCheckCrcWhenWriting : bool).

Definition isMergeable (wp : WriteOperation) (info : WriteInfo) : bool :=
  (endBlock wp + 1 =? blockNum info) && (op_offset wp =? 0) && (op_size wp =? B) && (offset info =? 0) && (size info =? B).

(** The loop of [getWriteOperations]; the last operation comes first in [operations]. *)
Fixpoint operations_from (i : Z) (infos : list WriteInfo) (crcData : list N) (operations : list WriteOperation) : res (list WriteOperation) :=
  match infos with
  | [] => Ok (rev operations)
  | info :: infos =>
      match crcData with
      | [] => Stuck
      | crc :: crcData =>
          let op := mk_operation (blockNum info) (blockNum info) (i * B) (offset info) (size info) [crc] in
          operations_from (i + 1) infos crcData
            match operations with
            | wp :: rest =>
                if isMergeable wp info then mk_operation (startBlock wp) (endBlock wp + 1) (buffer wp) (op_offset wp) (op_size wp) (crcs wp ++ [crc]) :: rest
                else op :: operations
            | [] => [op]
            end
      end
  end.

Definition getWriteOperations (b : InputBuffer) : res (list WriteOperation) := operations_from 0 (writeInfo_ b) (crcData_ b) [].

Definition applyStatuses (statuses : list Z) (b : InputBuffer) : InputBuffer :=
  let statuses := take (length (writeInfo_ b)) statuses in
  mk_input (blockBuffer_ b)
    (zip_with (fun info st => mk_info (blockNum info) (offset info) (size info) (writeId info) st) (writeInfo_ b) statuses ++ drop (length statuses) (writeInfo_ b))
    (crcData_ b).

(** The statuses of the operations; an error ends the job. *)
Fixpoint write_operations (chunkVersion : Z) (b : InputBuffer) (ops : list WriteOperation) (statuses : list Z) : exec disk (list Z) :=
  match ops with
  | [] => mret statuses
  | op :: ops =>
      if op_size op =? 0 then write_operations chunkVersion b ops (statuses ++ [SAUNAFS_STATUS_OK]) else
      if (op_offset op =? 0) && (op_size op =? B) then
        if endBlock op <? startBlock op then mret (statuses ++ [SAUNAFS_ERROR_EINVAL]) else
        let numBlocks := endBlock op - startBlock op + 1 in
        bytesWritten ← hddChunkWriteFullBlocks B address gPunchHolesInFiles gCheckCrcWhenWriting chunkVersion (startBlock op) numBlocks (crcs op) (bytes_at (buffer op) (numBlocks * B) (blockBuffer_ b));
        if negb (bytesWritten =? numBlocks * B) then
          if bytesWritten <? 0 then mret (statuses ++ [u8 (- bytesWritten)])
          else mret (statuses ++ replicate (Z.to_nat (bytesWritten / B)) SAUNAFS_STATUS_OK ++ [SAUNAFS_ERROR_IO])
        else write_operations chunkVersion b ops (statuses ++ replicate (Z.to_nat numBlocks) SAUNAFS_STATUS_OK)
      else
        crc ← lift (match crcs op with crc :: _ => Ok crc | [] => Stuck end);
        status ← hddChunkWriteBlock B address gPunchHolesInFiles gCheckCrcWhenWriting chunkVersion (startBlock op) (op_offset op) (op_size op) crc (bytes_at (buffer op) (op_size op) (blockBuffer_ b));
        if negb (status =? SAUNAFS_STATUS_OK) then mret (statuses ++ [status]) else write_operations chunkVersion b ops (statuses ++ [status])
  end.

(** The buffer with the statuses, and the result of the job. *)
Definition job_write (chunkVersion : Z) (b : InputBuffer) : exec disk (InputBuffer * Z) :=
  writeOperations ← lift (getWriteOperations b);
  match writeOperations with
  | [] => mret (b, SAUNAFS_STATUS_OK)
  | _ =>
      statuses ← write_operations chunkVersion b writeOperations [];
      mret (applyStatuses statuses b, default SAUNAFS_STATUS_OK (last (take (length (writeInfo_ b)) statuses)))
  end.

End jobs.
End WriteJobs.
Import WriteJobs.

Section sessions.
Context (B : Z) (HB : 0 < B < 2 ^ 31) (address : N) (gPunchHolesInFiles gCheckCrcWhenWriting gPerformFsync : bool).

Abbreviation consistent := (consistent B).
Abbreviation sound := (sound B).

Lemma hddOpen_ensures s : let c := chunk_ s in sound (version_ c) c →
  ensures hddOpen s (fun st s' => (st = SAUNAFS_STATUS_OK ∧ (∃ d, chunk_ s' = reopened d c) ∨ st = SAUNAFS_ERROR_IO) ∧
    faultless s s' (st = SAUNAFS_STATUS_OK ∧ ((metaFD_ c = true → dataFD_ c = true) → chunk_ s' = reopened true c))).
Proof using.
  intros c H. unfold hddOpen. eapply ensures_run; [apply (hddIOBegin_ensures B (version_ c)); [done | intros _; by rewrite Z.eqb_refl] |]. fold c.
  intros st s1 [[[-> E] | ->] F]; cbn [negb Z.eqb]; [split; [by left | done] |]. split; [by right |]. intros E. by destruct (F E) as [_ [? _]].
Qed.

Lemma hddClose_ensures hv s : let c := chunk_ s in sound hv c → 0 < refCount_ c →
  ensures (hddClose gPerformFsync) s (fun st s' => (st = SAUNAFS_STATUS_OK → chunk_ s' = closed c) ∧ faultless s s' (st = SAUNAFS_STATUS_OK)).
Proof using.
  intros c H Hr. unfold hddClose. eapply ensures_run; [by apply (hddIOEnd_ensures B gPerformFsync hv) |]. fold c.
  intros st s1 [[[-> E] | (-> & _)] F]; cbn [negb Z.eqb]; (split; [done |]); [done |]. intros E. by destruct (F E).
Qed.

(** ** The bytes of a chunk *)

(** What the users of a chunk know of it: its version, its bytes, how often it is open, and how
    many blocks it may have. *)
Record view := mk_view { v_version : Z; v_bytes : Z → byte; v_opens : Z; v_capacity : Z }.

Record represents (c : chunk) (w : view) : Prop := {
  re_sound : sound (version_ c) c;
  re_version : version_ c = v_version w;
  re_bytes x : 0 <= x → content (dataFile c) x = v_bytes w x;
  re_opens : refCount_ c = v_opens w;
  re_capacity : maxBlocksInFile c = v_capacity w;
  re_descriptors : metaFD_ c = true → dataFD_ c = true;
}.

Lemma open_consistent hv c : sound hv c → 0 < refCount_ c → consistent c.
Proof using. intros H Hr. pose proof (so_table _ _ _ H) as Ht. by rewrite (proj2 (used_loaded B hv c H Hr)) in Ht. Qed.

(** A write that has been done. *)
Lemma write_done_represents c w b k pos d c' : represents c w → 0 < v_opens w → write_done B c b k pos d c' →
  represents c' (mk_view (v_version w) (patched (v_bytes w) pos d) (v_opens w) (v_capacity w)).
Proof using.
  intros [R1 R2 R3 R4 R5 R6] Hw (f & t & -> & Hc & Hx). assert (0 < refCount_ c) as Hr by lia.
  assert (updated c f t (Z.max (blocks_ c) (b + k)) = setBlocks (Z.max (blocks_ c) (b + k)) (setCrcData t (setDataFile f (setWasChanged true c)))) as Eu by done.
  split; try done.
  - rewrite Eu. apply (data_sound B (version_ c)); [by apply changed_sound | done | done | done].
  - intros x Hx0. cbn [v_bytes]. rewrite Hx by done. unfold patched. case_decide; [done | auto].
Qed.

(** The chunk as it is found. *)
Lemma found_represents c w : represents c w → represents (setValidAttr true c) w.
Proof using. intros [R1 R2 R3 R4 R5 R6]. split; try done. by apply setValidAttr_sound. Qed.

Lemma resource_ensures {A} hv (k : () → exec disk A) s Q : sound hv (chunk_ s) → 0 < refCount_ (chunk_ s) → ensures (k ()) s Q → ensures (x ← getResource; k x) s Q.
Proof using. intros H Hr. unfold getResource, ensures, mbind, exec_bind, inspect, sassert. by rewrite (so_used _ _ _ H Hr). Qed.

Lemma write_block_represents v b off d s w : represents (chunk_ s) w → script s = [] → 0 < v_opens w → v = v_version w → 0 <= b < v_capacity w → 0 <= off < B → off + Z.of_nat (length d) <= B →
  ensures (hddChunkWriteBlock B address gPunchHolesInFiles gCheckCrcWhenWriting v b off (Z.of_nat (length d)) (crc_of 0 d) d) s
    (fun st s' => st = SAUNAFS_STATUS_OK ∧ script s' = [] ∧ represents (chunk_ s') (mk_view (v_version w) (patched (v_bytes w) (b * B + off) d) (v_opens w) (v_capacity w))).
Proof using HB.
  intros R Hs Hw -> Hb Ho Hd. unfold hddChunkWriteBlock, found. eapply ensures_run; [by apply (find_ensures B HB), (sound_findable B _ _ (re_sound _ _ R)) |].
  intros ok s1 [E1 F1]. destruct (F1 Hs) as [S1 ->]. specialize (E1 eq_refl). pose proof (found_represents _ _ R) as R1. rewrite <- E1 in R1. assert (0 < refCount_ (chunk_ s1)) as Hr by (rewrite (re_opens _ _ R1); lia).
  eapply resource_ensures; [apply (re_sound _ _ R1) | done |]. eapply ensures_mono; [apply (writeChunkBlock_ensures B HB); try lia; by apply (open_consistent _ _ (re_sound _ _ R1)) |]. intros st s2.
  unfold write_error. rewrite (re_version _ _ R1), Z.eqb_refl, (re_capacity _ _ R1). cbn [negb andb]. rewrite (proj2 (Z.leb_gt _ _)), (proj2 (Z.ltb_ge _ _)), (proj2 (Z.leb_gt _ _)), (proj2 (Z.ltb_ge _ _)) by lia. cbn [orb].
  rewrite decide_True by done. intros [[[-> Hdone] | [-> _]] F2]; destruct (F2 S1) as [S2 Hok]; pose proof (Hok (re_descriptors _ _ R1 (so_used _ _ _ (re_sound _ _ R1) Hr))); [| done].
  split; [done |]. split; [done |]. by eapply write_done_represents.
Qed.

Lemma write_blocks_represents v b k d s w : represents (chunk_ s) w → script s = [] → 0 < v_opens w → v = v_version w → 0 <= b → 0 < k → b + k <= v_capacity w → Z.of_nat (length d) = k * B →
  ensures (hddChunkWriteFullBlocks B address gPunchHolesInFiles gCheckCrcWhenWriting v b k (block_crcs B (Z.to_nat k) d) d) s
    (fun ret s' => ret = k * B ∧ script s' = [] ∧ represents (chunk_ s') (mk_view (v_version w) (patched (v_bytes w) (b * B) d) (v_opens w) (v_capacity w))).
Proof using HB.
  intros R Hs Hw -> Hb Hk Hcap Hd. unfold hddChunkWriteFullBlocks. eapply ensures_run; [by apply (find_ensures B HB), (sound_findable B _ _ (re_sound _ _ R)) |].
  intros ok s1 [E1 F1]. destruct (F1 Hs) as [S1 ->]. specialize (E1 eq_refl). pose proof (found_represents _ _ R) as R1. rewrite <- E1 in R1. assert (0 < refCount_ (chunk_ s1)) as Hr by (rewrite (re_opens _ _ R1); lia).
  pose proof (open_consistent _ _ (re_sound _ _ R1) Hr) as Hc. pose proof (co_max _ _ Hc) as Hmax. rewrite (re_capacity _ _ R1) in Hmax.
  eapply resource_ensures; [apply (re_sound _ _ R1) | done |]. eapply ensures_mono; [apply (writeChunkBlocks_ensures B HB); try lia; [done | right; by rewrite length_block_crcs] |]. intros st s2.
  unfold blocks_error. rewrite (re_version _ _ R1), Z.eqb_refl, (re_capacity _ _ R1), length_block_crcs, Z2Nat.id, Z.eqb_refl by lia. cbn [negb andb orb]. rewrite !(proj2 (Z.ltb_ge _ _)) by lia. cbn [orb].
  rewrite decide_True by done. intros [[[-> Hdone] | [-> _]] F2]; destruct (F2 S1) as [S2 Hok]; pose proof (Hok (re_descriptors _ _ R1 (so_used _ _ _ (re_sound _ _ R1) Hr))); [| unfold SAUNAFS_ERROR_IO in *; nia].
  split; [done |]. split; [done |]. by eapply write_done_represents.
Qed.

(** ** Jobs *)

Lemma patched_ext g h pos d x : g x = h x → patched g pos d x = patched h pos d x.
Proof using. intros E. unfold patched. by case_decide. Qed.

Lemma patched_app g pos d d' x : patched (patched g pos d) (pos + Z.of_nat (length d)) d' x = patched g pos (d ++ d') x.
Proof using.
  unfold patched. rewrite length_app. repeat case_decide; try lia; try done.
  - unfold content. rewrite lookup_app_r by lia. do 2 f_equal. lia.
  - unfold content. by rewrite lookup_app_l by lia.
Qed.

Lemma represents_ext c v g h n k : represents c (mk_view v g n k) → (∀ x, 0 <= x → g x = h x) → represents c (mk_view v h n k).
Proof using. intros [R1 R2 R3 R4 R5 R6] E. split; try done. intros x Hx. cbn. rewrite <- E by done. by apply R3. Qed.

Section job.
Context (buf : list byte) (cap : Z) (Hcap : 0 <= cap).

(** The bytes of the chunk after the writes, in the order in which they have been received. *)
Fixpoint written_by (i : Z) (infos : list WriteInfo) (g : Z → byte) : Z → byte :=
  match infos with
  | [] => g
  | info :: infos => written_by (i + 1) infos (patched g (blockNum info * B + offset info) (bytes_at (i * B) (size info) buf))
  end.

Definition info_ok (info : WriteInfo) : Prop := 0 <= blockNum info < cap ∧ 0 <= offset info < B ∧ 0 <= size info ∧ offset info + size info <= B.

Definition is_full (op : WriteOperation) : bool := (op_offset op =? 0) && (op_size op =? B).
Definition op_blocks_ (op : WriteOperation) : Z := if is_full op then endBlock op - startBlock op + 1 else 1.
Definition op_bytes (op : WriteOperation) : list byte := bytes_at (buffer op) (if is_full op then op_blocks_ op * B else op_size op) buf.
Definition op_effect (g : Z → byte) (op : WriteOperation) : Z → byte := patched g (startBlock op * B + op_offset op) (op_bytes op).

Record op_ok (op : WriteOperation) : Prop := {
  oo_blocks : 0 <= startBlock op ∧ 0 < op_blocks_ op ∧ startBlock op + op_blocks_ op <= cap;
  oo_range : 0 <= op_offset op < B ∧ 0 <= op_size op ∧ op_offset op + op_size op <= B;
  oo_buffer : 0 <= buffer op ∧ buffer op + op_blocks_ op * B <= Z.of_nat (length buf);
  oo_crcs : crcs op = if is_full op then block_crcs B (Z.to_nat (op_blocks_ op)) (op_bytes op) else [crc_of 0 (op_bytes op)];
}.

Lemma op_effect_ext g h op : (∀ x, 0 <= x → g x = h x) → ∀ x, 0 <= x → op_effect g op x = op_effect h op x.
Proof using. intros E x Hx. by apply patched_ext, E. Qed.

Lemma effects_ext ops : ∀ g h, (∀ x, 0 <= x → g x = h x) → ∀ x, 0 <= x → foldl op_effect g ops x = foldl op_effect h ops x.
Proof using. induction ops as [| op ops IH]; intros g h E x Hx; [by apply E |]. cbn [foldl]. apply IH; [| done]. by apply op_effect_ext. Qed.

Lemma written_by_ext infos : ∀ i g h, (∀ x, 0 <= x → g x = h x) → ∀ x, 0 <= x → written_by i infos g x = written_by i infos h x.
Proof using. induction infos as [| info infos IH]; intros i g h E x Hx; [by apply E |]. cbn [written_by]. apply IH; [| done]. intros y Hy. by apply patched_ext, E. Qed.

Lemma bytes_at_append p n m : 0 <= p → 0 <= n → 0 <= m → p + n + m <= Z.of_nat (length buf) → bytes_at p (n + m) buf = bytes_at p n buf ++ bytes_at (p + n) m buf.
Proof using. intros. by apply bytes_at_split. Qed.

Lemma block_crcs_app n : ∀ d d', length d = (n * Z.to_nat B)%nat → length d' = Z.to_nat B → block_crcs B (S n) (d ++ d') = block_crcs B n d ++ [crc_of 0 d'].
Proof using HB.
  induction n as [| n IH]; intros d d' Hd Hd'.
  - destruct d; [| cbn in Hd; lia]. cbn. by rewrite take_ge by lia.
  - change (block_crcs B (S (S n)) (d ++ d')) with (crc_of 0 (take (Z.to_nat B) (d ++ d')) :: block_crcs B (S n) (drop (Z.to_nat B) (d ++ d'))).
    rewrite take_app_le, drop_app_le by lia. rewrite IH by (rewrite ?length_drop; lia). done.
Qed.

(** A full block is added to an operation. *)
Lemma merge_ok wp info crc i : op_ok wp → isMergeable B wp info = true → info_ok info → buffer wp + op_blocks_ wp * B = i * B → (i + 1) * B <= Z.of_nat (length buf) → crc = crc_of 0 (bytes_at (i * B) B buf) →
  let wp' := mk_operation (startBlock wp) (endBlock wp + 1) (buffer wp) (op_offset wp) (op_size wp) (crcs wp ++ [crc]) in
  op_ok wp' ∧ op_blocks_ wp' = op_blocks_ wp + 1 ∧ ∀ g x, op_effect g wp' x = patched (op_effect g wp) (blockNum info * B + offset info) (bytes_at (i * B) (size info) buf) x.
Proof using HB.
  intros [K1 K2 K3 K4] Hm Hi Hb Hroom Hcrc wp'. unfold isMergeable in Hm. rewrite !andb_true_iff, !Z.eqb_eq in Hm. destruct Hm as ((((M1 & M2) & M3) & M4) & M5).
  assert (is_full wp = true) as Ef by (unfold is_full; by rewrite M2, M3, !Z.eqb_refl). assert (is_full wp' = true) as Ef' by exact Ef.
  assert (op_blocks_ wp' = op_blocks_ wp + 1) as Eb by (unfold op_blocks_; rewrite Ef, Ef'; cbn; lia). unfold op_blocks_ in K1, K3, Hb, Eb. rewrite Ef in *. rewrite Ef' in Eb.
  assert (op_bytes wp' = op_bytes wp ++ bytes_at (i * B) B buf) as Ed.
  { unfold op_bytes, op_blocks_. rewrite Ef, Ef'. cbn [endBlock startBlock buffer wp']. rewrite <- Hb. replace ((endBlock wp + 1 - startBlock wp + 1) * B) with ((endBlock wp - startBlock wp + 1) * B + B) by lia. apply bytes_at_append; nia. }
  assert (length (op_bytes wp) = Z.to_nat ((endBlock wp - startBlock wp + 1) * B)) as Ld by (unfold op_bytes, op_blocks_; rewrite Ef, length_bytes_at; nia).
  split; [| split].
  - destruct Hi as (I1 & _). split; unfold op_blocks_; rewrite ?Ef'; try done; cbn [endBlock startBlock buffer op_offset op_size wp']; try lia; try nia.
    rewrite Ed. cbn [crcs wp']. rewrite K4. unfold op_blocks_. rewrite Ef. replace (Z.to_nat (endBlock wp + 1 - startBlock wp + 1)) with (S (Z.to_nat (endBlock wp - startBlock wp + 1))) by lia.
    rewrite block_crcs_app; [by rewrite Hcrc | rewrite Ld; nia | rewrite length_bytes_at; nia].
  - unfold op_blocks_. rewrite Ef, Ef'. cbn. lia.
  - intros g x. unfold op_effect. rewrite Ed. rewrite <- patched_app, Ld, M5. f_equal. cbn [startBlock op_offset wp']. rewrite M2, M4, <- M1, Z2Nat.id by nia. lia.
Qed.

Lemma single_ok info crc i : info_ok info → 0 <= i → (i + 1) * B <= Z.of_nat (length buf) → crc = crc_of 0 (bytes_at (i * B) (size info) buf) →
  let op := mk_operation (blockNum info) (blockNum info) (i * B) (offset info) (size info) [crc] in
  op_ok op ∧ op_blocks_ op = 1 ∧ ∀ g x, op_effect g op x = patched g (blockNum info * B + offset info) (bytes_at (i * B) (size info) buf) x.
Proof using HB.
  intros (I1 & I2 & I3 & I4) Hi Hroom Hcrc op. assert (op_blocks_ op = 1) as Eb by (unfold op_blocks_; destruct (is_full op); cbn; lia).
  assert (op_bytes op = bytes_at (i * B) (size info) buf) as Ed.
  { unfold op_bytes. rewrite Eb. destruct (is_full op) eqn:Ef; [| done]. unfold is_full in Ef. rewrite andb_true_iff, !Z.eqb_eq in Ef. destruct Ef as [_ Es]. cbn in Es. cbn. rewrite Es. f_equal. lia. }
  split; [| split; [done |]].
  - split; rewrite ?Eb, ?Ed; cbn [startBlock op_offset op_size buffer crcs op]; try done; try lia; try nia. rewrite Hcrc. destruct (is_full op) eqn:Ef; [| done].
    unfold is_full in Ef. rewrite andb_true_iff, !Z.eqb_eq in Ef. destruct Ef as [_ Es]. cbn in Es. change (Z.to_nat 1) with 1%nat. cbn [block_crcs]. rewrite Es, take_ge; [done | rewrite length_bytes_at; nia].
  - intros g x. unfold op_effect. by rewrite Ed.
Qed.

(** The checksums that come with the writes. *)
Fixpoint crcs_ok (i : Z) (infos : list WriteInfo) (crcData : list N) : Prop :=
  match infos, crcData with
  | [], [] => True
  | info :: infos, crc :: crcData => crc = crc_of 0 (bytes_at (i * B) (size info) buf) ∧ crcs_ok (i + 1) infos crcData
  | _, _ => False
  end.

Definition blocks_count (ops : list WriteOperation) : Z := zsum (op_blocks_ <$> ops).

Lemma blocks_count_cons op ops : blocks_count (op :: ops) = op_blocks_ op + blocks_count ops.
Proof using. done. Qed.

Lemma zsum_rev l : zsum (rev l) = zsum l.
Proof using. induction l as [| x l IH]; [done |]. cbn [rev]. rewrite zsum_app, IH. unfold zsum. cbn [foldr]. lia. Qed.

(** The operations have the effect of the writes. *)
Lemma operations_exact infos : ∀ i crcData ops, Forall info_ok infos → crcs_ok i infos crcData → 0 <= i → (i + Z.of_nat (length infos)) * B <= Z.of_nat (length buf) →
  Forall op_ok ops → (∀ wp, head ops = Some wp → is_full wp = true → buffer wp + op_blocks_ wp * B = i * B) →
  ∃ ops', operations_from B i infos crcData ops = Ok ops' ∧ Forall op_ok ops' ∧ blocks_count ops' = blocks_count ops + Z.of_nat (length infos) ∧
    ∀ g x, 0 <= x → foldl op_effect g ops' x = written_by i infos (foldl op_effect g (rev ops)) x.
Proof using HB.
  induction infos as [| info infos IH]; intros i crcData ops Hinfos Hcrcs Hi Hroom Hops Hhead.
  - destruct crcData; [| done]. exists (rev ops). split; [done |]. split; [by apply Forall_rev |]. split; [| done]. unfold blocks_count. change (op_blocks_ <$> rev ops) with (map op_blocks_ (rev ops)). rewrite map_rev, zsum_rev. cbn [length Z.of_nat]. change (map op_blocks_ ops) with (op_blocks_ <$> ops). lia.
  - destruct crcData as [| crc crcData]; [done |]. destruct Hcrcs as [Hcrc Hcrcs]. apply Forall_cons in Hinfos as [Hinfo Hinfos]. cbn [operations_from length] in *.
    set (op := mk_operation _ _ _ _ _ _). assert ((i + 1) * B <= Z.of_nat (length buf)) as Hone by nia. pose proof (single_ok info crc i Hinfo Hi Hone Hcrc) as (S1 & S2 & S3). fold op in S1, S2, S3.
    assert (∀ l, Forall op_ok l → match l with wp :: rest => isMergeable B wp info = false | [] => True end → ∃ ops', operations_from B (i + 1) infos crcData (op :: l) = Ok ops' ∧ Forall op_ok ops' ∧
      blocks_count ops' = blocks_count l + Z.of_nat (S (length infos)) ∧ ∀ g x, 0 <= x → foldl op_effect g ops' x = written_by i (info :: infos) (foldl op_effect g (rev l)) x) as Hnew.
    { intros l Hl _. destruct (IH (i + 1) crcData (op :: l)) as (ops' & E1 & E2 & E3 & E4); try done; try lia; [by constructor | |].
      - intros wp [= <-] Hf. rewrite S2. cbn. lia.
      - exists ops'. split; [done |]. split; [done |]. split; [rewrite E3, blocks_count_cons, S2; lia |].
        intros g x Hx. rewrite E4 by done. cbn [rev written_by]. rewrite foldl_app. cbn [foldl]. apply written_by_ext; [| done]. intros y _. apply S3. }
    destruct ops as [| wp rest]; [by apply Hnew |]. destruct (isMergeable B wp info) eqn:Em; [| by apply Hnew]. apply Forall_cons in Hops as [Hwp Hrest].
    assert (is_full wp = true ∧ size info = B) as [Ef Esz] by (unfold isMergeable in Em; unfold is_full; rewrite !andb_true_iff in *; rewrite Z.eqb_eq in Em; tauto || (destruct Em as ((((? & ?) & ?) & ?) & E5); split; [auto | by apply Z.eqb_eq in E5])).
    pose proof (merge_ok wp info crc i Hwp Em Hinfo (Hhead wp eq_refl Ef) Hone ltac:(by rewrite Esz in Hcrc)) as (M1 & M2 & M3).
    set (wp' := mk_operation (startBlock wp) _ _ _ _ _). fold wp' in M1, M2, M3.
    destruct (IH (i + 1) crcData (wp' :: rest)) as (ops' & E1 & E2 & E3 & E4); try done; try lia; [by constructor | |].
    + intros w [= <-] _. rewrite M2. pose proof (Hhead wp eq_refl Ef). cbn [buffer wp']. lia.
    + exists ops'. split; [done |]. split; [done |]. split; [rewrite E3, !blocks_count_cons, M2; lia |].
      intros g x Hx. rewrite E4 by done. cbn [rev written_by]. rewrite !foldl_app. cbn [foldl]. apply written_by_ext; [| done]. intros y _. apply M3.
Qed.

Lemma write_operations_exact ops : ∀ v b s w statuses, blockBuffer_ b = buf → Forall op_ok ops → represents (chunk_ s) w → script s = [] → 0 < v_opens w → v = v_version w → cap = v_capacity w →
  ensures (write_operations B address gPunchHolesInFiles gCheckCrcWhenWriting v b ops statuses) s (fun sts s' => sts = statuses ++ replicate (Z.to_nat (blocks_count ops)) SAUNAFS_STATUS_OK ∧ script s' = [] ∧
    represents (chunk_ s') (mk_view (v_version w) (foldl op_effect (v_bytes w) ops) (v_opens w) (v_capacity w))).
Proof using HB.
  induction ops as [| op ops IH]; intros v b s w statuses Hbuf Hops R Hs Hw Hv Hc; cbn [write_operations].
  { split; [by rewrite app_nil_r |]. split; [done |]. by destruct w. }
  apply Forall_cons in Hops as [Hop Hops]. pose proof Hop as [K1 K2 K3 K4].
  assert (0 <= blocks_count ops) as Hnn by (apply zsum_nonneg, Forall_fmap; eapply Forall_impl; [exact Hops |]; intros o [Ho]; cbn; lia).
  assert (replicate (Z.to_nat (blocks_count (op :: ops))) SAUNAFS_STATUS_OK = replicate (Z.to_nat (op_blocks_ op)) SAUNAFS_STATUS_OK ++ replicate (Z.to_nat (blocks_count ops)) SAUNAFS_STATUS_OK) as Hrep.
  { rewrite blocks_count_cons, Z2Nat.inj_add by lia. apply replicate_add. }
  assert (∀ s1 sts1, script s1 = [] → represents (chunk_ s1) (mk_view (v_version w) (op_effect (v_bytes w) op) (v_opens w) (v_capacity w)) → sts1 = statuses ++ replicate (Z.to_nat (op_blocks_ op)) SAUNAFS_STATUS_OK →
    ensures (write_operations B address gPunchHolesInFiles gCheckCrcWhenWriting v b ops sts1) s1 (fun sts s' => sts = statuses ++ replicate (Z.to_nat (blocks_count (op :: ops))) SAUNAFS_STATUS_OK ∧ script s' = [] ∧
    represents (chunk_ s') (mk_view (v_version w) (foldl op_effect (v_bytes w) (op :: ops)) (v_opens w) (v_capacity w)))) as Hnext.
  { intros s1 sts1 Hs1 R1 ->. eapply ensures_mono; [by eapply IH |]. intros sts s' (-> & Hs' & R'). split; [by rewrite <- app_assoc, Hrep | done]. }
  unfold op_blocks_ in *. destruct (is_full op) eqn:Ef.
  - pose proof Ef as Ef'. unfold is_full in Ef. rewrite Ef. rewrite andb_true_iff, !Z.eqb_eq in Ef. destruct Ef as [Eo Es]. rewrite (proj2 (Z.eqb_neq (op_size op) 0)) by lia. rewrite (proj2 (Z.ltb_ge _ _)) by lia.
    assert (bytes_at (buffer op) ((endBlock op - startBlock op + 1) * B) (blockBuffer_ b) = op_bytes op) as Ed by (unfold op_bytes, op_blocks_; by rewrite Ef', Hbuf). rewrite Ed, K4.
    eapply ensures_run; [apply write_blocks_represents; try done; try lia; rewrite <- Ed, length_bytes_at; rewrite ?Hbuf; nia |]. intros ret s1 (-> & Hs1 & R1). rewrite Z.eqb_refl. cbn [negb].
    apply Hnext; [done | | done]. eapply represents_ext; [exact R1 |]. intros x Hx. unfold op_effect. by rewrite Eo, Z.add_0_r.
  - assert (bytes_at (buffer op) (op_size op) (blockBuffer_ b) = op_bytes op) as Ed by (unfold op_bytes; by rewrite Ef, Hbuf).
    assert (Z.of_nat (length (op_bytes op)) = op_size op) as Ld by (rewrite <- Ed, length_bytes_at; rewrite ?Hbuf; nia).
    destruct (Z.eqb_spec (op_size op) 0) as [E0 | _].
    + apply Hnext; [done | | done]. apply (represents_ext _ _ (v_bytes w)); [by destruct w |]. intros x Hx. unfold op_effect, patched. by rewrite decide_False by lia.
    + unfold is_full in Ef. rewrite Ef. eapply ensures_lift; [by rewrite K4 |]. rewrite Ed, <- Ld. eapply ensures_run; [apply write_block_represents; try done; lia |]. intros st s1 (-> & Hs1 & R1). cbn [negb Z.eqb]. by apply Hnext.
Qed.

End job.

(** ** Sessions *)

Inductive command :=
| Open
| Close
| FreeUnused
| TestChunk
| Write (b : InputBuffer)
| Truncate (newVersion len : Z)
| UpdateVersion (newVersion : Z).

Definition perform (version : Z) (cmd : command) : exec disk Z :=
  match cmd with
  | Open => ok ← hddChunkFindAndLock B; if (ok : bool) then hddOpen else mret SAUNAFS_ERROR_NOCHUNK
  | Close => ok ← hddChunkFindAndLock B; if (ok : bool) then hddClose gPerformFsync else mret SAUNAFS_ERROR_NOCHUNK
  | FreeUnused => _ ← freeUnused; mret SAUNAFS_STATUS_OK
  | TestChunk => hddInternalTestChunk B address gPerformFsync version
  | Write b => '(_, status) ← job_write B address gPunchHolesInFiles gCheckCrcWhenWriting version b; mret status
  | Truncate newVersion len => hddInternalTruncate B address gPerformFsync version newVersion len
  | UpdateVersion newVersion => hddInternalUpdateVersion B gPerformFsync version newVersion
  end.

(** The requests that are expected of the users. *)
Definition allowed (w : view) (cmd : command) : Prop :=
  match cmd with
  | Open | FreeUnused | TestChunk => True
  | Close => 0 < v_opens w
  | Write b => 0 < v_opens w ∧ writeInfo_ b ≠ [] ∧ Forall (info_ok (v_capacity w)) (writeInfo_ b) ∧ crcs_ok (blockBuffer_ b) 0 (writeInfo_ b) (crcData_ b) ∧ Z.of_nat (length (writeInfo_ b)) * B <= Z.of_nat (length (blockBuffer_ b))
  | Truncate newVersion len => v_version w < kMaxUInt32Number ∧ 0 <= newVersion < 2 ^ 32 ∧ 0 <= len ∧ blocks_for B len <= v_capacity w
  | UpdateVersion newVersion => v_version w < kMaxUInt32Number ∧ 0 <= newVersion < 2 ^ 32
  end.

Definition effect (w : view) (cmd : command) : view :=
  match cmd with
  | Open => mk_view (v_version w) (v_bytes w) (v_opens w + 1) (v_capacity w)
  | Close => mk_view (v_version w) (v_bytes w) (v_opens w - 1) (v_capacity w)
  | FreeUnused | TestChunk => w
  | Write b => mk_view (v_version w) (written_by (blockBuffer_ b) 0 (writeInfo_ b) (v_bytes w)) (v_opens w) (v_capacity w)
  | Truncate newVersion len => mk_view newVersion (cut (v_bytes w) len) (v_opens w) (v_capacity w)
  | UpdateVersion newVersion => mk_view newVersion (v_bytes w) (v_opens w) (v_capacity w)
  end.

(** An operation that has changed the version. *)
Lemma after_represents c w v g c' : represents c w → after_operation B v c c' → (∀ x, 0 <= x → content (dataFile c') x = g x) → dataFD_ c' = true →
  represents c' (mk_view v g (v_opens w) (v_capacity w)).
Proof using.
  intros [R1 R2 R3 R4 R5 R6] [A1 A2 A3 [A4 A5]] Hg Hd. split; cbn [v_version v_bytes v_opens v_capacity]; try done; [by rewrite A2 | by rewrite A3 |]. unfold maxBlocksInFile in *. by rewrite A5.
Qed.

Lemma find_represents s w : represents (chunk_ s) w → script s = [] → ensures (hddChunkFindAndLock B) s (fun ok s' => ok = true ∧ script s' = [] ∧ represents (chunk_ s') w).
Proof using HB.
  intros R Hs. eapply ensures_mono; [by apply (find_ensures B HB), (sound_findable B _ _ (re_sound _ _ R)) |]. intros ok s1 [E1 F1]. destruct (F1 Hs) as [S1 ->]. rewrite E1 by done. split; [done |]. split; [done |]. by apply found_represents.
Qed.

Lemma open_represents s w : represents (chunk_ s) w → script s = [] → ensures hddOpen s (fun st s' => st = SAUNAFS_STATUS_OK ∧ script s' = [] ∧ represents (chunk_ s') (effect w Open)).
Proof using.
  intros R Hs. eapply ensures_mono; [by apply hddOpen_ensures, (re_sound _ _ R) |]. intros st s1 [_ F]. destruct (F Hs) as (S1 & -> & E). rewrite E by apply R. split; [done |]. split; [done |].
  destruct R as [R1 R2 R3 R4 R5 R6]. destruct (reopened_fields true (chunk_ s)) as (E1 & E2 & _ & _ & _ & E6 & _ & E8).
  split; cbn [effect v_version v_bytes v_opens v_capacity]; rewrite ?E1, ?E6, ?E8; try done; [by apply reopened_sound | lia |]. unfold maxBlocksInFile in *. by rewrite E2.
Qed.

Lemma close_represents s w : represents (chunk_ s) w → script s = [] → 0 < v_opens w → ensures (hddClose gPerformFsync) s (fun st s' => st = SAUNAFS_STATUS_OK ∧ script s' = [] ∧ represents (chunk_ s') (effect w Close)).
Proof using.
  intros R Hs Hw. assert (0 < refCount_ (chunk_ s)) as Hr by (rewrite (re_opens _ _ R); lia). eapply ensures_mono; [by apply (hddClose_ensures _ _ (re_sound _ _ R)) |]. intros st s1 [E F]. destruct (F Hs) as (S1 & ->). rewrite E by done. split; [done |]. split; [done |].
  destruct R as [R1 R2 R3 R4 R5 R6]. split; cbn [effect v_version v_bytes v_opens v_capacity]; try done; [by apply closed_sound | cbn; lia].
Qed.

Lemma free_represents s w : represents (chunk_ s) w → script s = [] → ensures (_ ← freeUnused; mret SAUNAFS_STATUS_OK) s (fun st s' => st = SAUNAFS_STATUS_OK ∧ script s' = [] ∧ represents (chunk_ s') w).
Proof using.
  intros R Hs. unfold freeUnused. unfold ensures, mbind, exec_bind, inspect. destruct (Z.eqb_spec (refCount_ (chunk_ s)) 0) as [E0 |]; [| done]. cbn [modify]. unfold mret, exec_ret. split; [done |]. split; [done |]. rewrite chunk_with.
  destruct R as [R1 R2 R3 R4 R5 R6]. split; try done. pose proof (saved_consistent B _ _ R1 (so_unused _ _ _ R1 E0)) as Hc. pose proof R1 as [H1 H2 H3 H4 H5 H6 H7 H8 H9 H10 H11]. split; try done.
  - cbn. lia.
  - unfold loaded. cbn [setCrcData setFDs metaFD_]. destruct Hc as [A1 A2 A3 A4 A5]. by split.
Qed.

Lemma job_represents s w b : represents (chunk_ s) w → script s = [] → allowed w (Write b) →
  ensures (job_write B address gPunchHolesInFiles gCheckCrcWhenWriting (v_version w) b) s (fun '(b', st) s' => st = SAUNAFS_STATUS_OK ∧ script s' = [] ∧
    Forall (fun info => status_ info = SAUNAFS_STATUS_OK) (writeInfo_ b') ∧ represents (chunk_ s') (effect w (Write b))).
Proof using HB.
  intros R Hs (Hw & Hne & Hinfos & Hcrcs & Hroom). unfold job_write, getWriteOperations.
  destruct (operations_exact (blockBuffer_ b) (v_capacity w) (writeInfo_ b) 0 (crcData_ b) []) as (ops & E1 & E2 & E3 & E4); try done.
  assert (blocks_count ops = Z.of_nat (length (writeInfo_ b))) as En by (rewrite E3; unfold blocks_count; rewrite fmap_nil, zsum_nil; lia).
  eapply ensures_lift; [exact E1 |]. destruct ops as [| op ops]; [cbn in En; by destruct (writeInfo_ b) |].
  eapply ensures_run; [by eapply (write_operations_exact (blockBuffer_ b) (v_capacity w)) |]. intros sts s1 (-> & S1 & R1). rewrite app_nil_l, En, Nat2Z.id. unfold ensures. cbn [mret exec_ret].
  set (n := length (writeInfo_ b)) in *. assert (n ≠ 0%nat) as Hn by (unfold n; by destruct (writeInfo_ b)). split; [| split; [done |]; split].
  - rewrite take_ge by (rewrite length_replicate; unfold n; lia). rewrite last_replicate || (destruct n as [| k]; [done |]; rewrite replicate_S_end, last_snoc). done.
  - unfold applyStatuses. cbn [writeInfo_]. fold n. rewrite take_ge by (rewrite length_replicate; lia). rewrite length_replicate, drop_ge, app_nil_r by lia.
    apply Forall_lookup. intros i info. rewrite lookup_zip_with_Some. intros (x & y & -> & _ & [-> _]%lookup_replicate). done.
  - eapply represents_ext; [exact R1 |]. intros x Hx. rewrite E4 by done. done.
Qed.

(** Without faults every operation does what it promises in terms of bytes. *)
Lemma command_refines cmd s w : represents (chunk_ s) w → script s = [] → allowed w cmd →
  ensures (perform (v_version w) cmd) s (fun st s' => st = SAUNAFS_STATUS_OK ∧ script s' = [] ∧ represents (chunk_ s') (effect w cmd)).
Proof using HB.
  intros R Hs Ha. pose proof (re_sound _ _ R) as Hsound. pose proof (re_version _ _ R) as Hv. destruct cmd as [| | | | b | nv len | nv]; cbn [perform effect allowed] in *.
  - eapply ensures_run; [by apply find_represents |]. intros ok s1 (-> & S1 & R1). by apply open_represents.
  - eapply ensures_run; [by apply find_represents |]. intros ok s1 (-> & S1 & R1). by apply close_represents.
  - by apply free_represents.
  - eapply ensures_mono; [by apply (test_ensures B HB) |]. intros st s1 (G & _ & F). destruct (F Hs) as [S1 Hok]. destruct (Hok (re_descriptors _ _ R)) as [-> Hd]. destruct (G eq_refl) as (A & Ed & _). split; [done |]. split; [done |].
    rewrite Hv in A. pose proof (after_represents _ w (v_version w) (v_bytes w) _ R A) as R'. destruct w. apply R'; [| done]. rewrite Ed. apply R.
  - eapply ensures_run; [by apply job_represents |]. intros [b' st] s1 (-> & S1 & _ & R1). done.
  - destruct Ha as (H1 & H2 & H3 & H4). pose proof (re_capacity _ _ R) as Hcap. destruct (sound_max B _ _ Hsound) as (Hm & _). pose proof (blocks_for_range B HB len H3).
    eapply ensures_mono; [apply (truncate_ensures B HB); try done; nia |]. intros st s1 (G & F). destruct (F Hs) as [S1 Hok]. destruct (Hok (re_descriptors _ _ R)) as [-> Hd]. destruct (G eq_refl) as (A & _ & Hx). split; [done |]. split; [done |].
    apply (after_represents _ w _ _ _ R A); [| done]. intros x Hx0. rewrite Hx by done. unfold cut. case_decide; [| done]. by apply R.
  - destruct Ha as (H1 & H2). unfold hddInternalUpdateVersion, found. eapply ensures_run; [by apply find_represents |]. intros ok s1 (-> & S1 & R1). pose proof (re_version _ _ R1) as Hv1.
    eapply ensures_mono; [apply (updateVersion_ensures B HB); [apply R1 | done..] |]. intros st s2 (G & F). destruct (F S1) as (S2 & -> & Hd). destruct (G eq_refl) as (A & Ed & _). split; [done |]. split; [done |].
    apply (after_represents _ w _ _ _ R1 A); [rewrite Ed; apply R1 | apply Hd, R1].
Qed.

Definition next_version (version : Z) (cmd : command) : Z :=
  match cmd with Truncate v _ | UpdateVersion v => v | _ => version end.

(** Requests one after another, each with the version that is known. *)
Fixpoint session (version : Z) (cmds : list command) : exec disk (list Z) :=
  match cmds with
  | [] => mret []
  | cmd :: cmds => st ← perform version cmd; sts ← session (next_version version cmd) cmds; mret (st :: sts)
  end.

Fixpoint all_allowed (w : view) (cmds : list command) : Prop :=
  match cmds with [] => True | cmd :: cmds => allowed w cmd ∧ all_allowed (effect w cmd) cmds end.

Lemma session_refines cmds : ∀ s w, represents (chunk_ s) w → script s = [] → all_allowed w cmds →
  ensures (session (v_version w) cmds) s (fun sts s' => sts = replicate (length cmds) SAUNAFS_STATUS_OK ∧ script s' = [] ∧ represents (chunk_ s') (foldl effect w cmds)).
Proof using HB.
  induction cmds as [| cmd cmds IH]; intros s w R Hs Ha; cbn [session]; [done |]. destruct Ha as [Ha Hrest].
  eapply ensures_run; [by apply command_refines |]. intros st s1 (-> & S1 & R1). eapply ensures_run.
  - assert (next_version (v_version w) cmd = v_version (effect w cmd)) as -> by (by destruct cmd). by apply IH.
  - intros sts s2 (-> & S2 & R2). done.
Qed.

(** ** Creation *)

Lemma run_next_io {A} (k : io → exec disk A) s Q : script s = [] → ensures (k Full) s Q → ensures (r ← next_io; k r) s Q.
Proof using. intros Hs. unfold ensures, mbind, exec_bind, next_io. by rewrite Hs. Qed.

Definition fresh (c : chunk) : Prop := metaFD_ c = false ∧ refCount_ c = 0 ∧ wasChanged_ c = false ∧ registered_ c = true ∧ blocks_ c = 0.

(** The chunk that has been created. *)
Definition created (header : list byte) (c : chunk) : chunk :=
  setValidAttr false (mk_chunk true (id_ c) (type_ c) (version_ c) 0 false (validAttr_ c) 0 true true zero_table (version_ c) (version_ c) header []).

Definition header_of (c : chunk) : list byte := write_at 0 (signature (id_ c) (version_ c) (type_ c)) (replicate (Z.to_nat (getHeaderSize c)) x00).

Lemma memset_zero n m : 0 <= n <= Z.of_nat m → memset0 0 n (replicate m x00) = replicate m x00.
Proof using.
  intros Hn. unfold memset0, write_at. cbn [Z.to_nat take app]. rewrite length_replicate, drop_replicate, <- replicate_add. by replace (Z.to_nat n + (m - (Z.to_nat 0 + Z.to_nat n)))%nat with m by lia.
Qed.

Lemma creat_ensures s : script s = [] →
  ensures (open_files true) s (fun _ s' => script s' = [] ∧ chunk_ s' = setNames (version_ (chunk_ s)) (version_ (chunk_ s)) (setDataFile [] (setMetaFile [] (setFDs true true (chunk_ s))))).
Proof using.
  intros Hs. unfold open_files. apply run_next_io; [done |]. apply run_next_io; [done |]. apply ensures_inspect, ensures_modify. cbn [opened orb andb]. apply ensures_modify, ensures_modify. split; [done |].
  rewrite !chunk_with. by destruct (chunk_ s).
Qed.

(** A new chunk is opened: its files are made and its table has zeros. *)
Definition begun (c : chunk) : chunk := mk_chunk true (id_ c) (type_ c) (version_ c) 0 false (validAttr_ c) 1 true true zero_table (version_ c) (version_ c) [] [].

Lemma begin_new_ensures s : let c := chunk_ s in script s = [] → fresh c → 0 < maxBlocksInFile c <= SFSBLOCKSINCHUNK →
  ensures (hddIOBegin true kMaxUInt32Number) s (fun st s' => st = SAUNAFS_STATUS_OK ∧ script s' = [] ∧ chunk_ s' = begun c).
Proof using.
  intros c Hs (F1 & F2 & F3 & F4 & F5) Hmax. unfold hddIOBegin. apply ensures_inspect. fold c. rewrite F1, F2. cbn [Z.eqb negb andb].
  eapply ensures_run with (P := fun st s1 => st = SAUNAFS_STATUS_OK ∧ script s1 = [] ∧ chunk_ s1 = setRefCount 0 (begun c)).
  - apply ensures_bind. unfold ensures at 1. cbn [sassert]. eapply ensures_run with (P := fun ok s1 => ok = true ∧ script s1 = [] ∧ chunk_ s1 = setRefCount 0 (begun c)).
    + unfold kOpenRetryCount. cbn [open_tries]. eapply ensures_run; [by apply creat_ensures |]. fold c. intros enfile s1 [S1 E1]. apply ensures_inspect. rewrite E1. cbn [setNames setDataFile setMetaFile setFDs metaFD_ negb andb].
      apply ensures_modify. split; [done |]. split; [done |]. rewrite chunk_with, E1. revert F2 F3 F4 F5. clear. destruct c. cbn. by intros -> -> -> ->.
    + intros ok s1 (-> & S1 & E1). cbn [negb]. apply ensures_modify. split; [done |]. split; [done |]. rewrite chunk_with, E1. change (getCrcBlockSize (setRefCount 0 (begun c))) with (getCrcBlockSize c).
      change (crcData (setRefCount 0 (begun c))) with zero_table.
      assert (memset0 0 (getCrcBlockSize c) zero_table = zero_table) as -> by (apply memset_zero; unfold getCrcBlockSize, kMaxCrcBlockSize, kCrcSize; lia). done.
  - intros st s1 (-> & S1 & E1). cbn [negb Z.eqb]. apply ensures_modify. split; [done |]. split; [done |]. rewrite chunk_with, E1. done.
Qed.

Lemma file_write_new d : file_write 0 d [] = d.
Proof using. unfold file_write. case_decide as E; [by subst |]. unfold write_at. change (Z.to_nat 0) with 0%nat. cbn [length Nat.sub replicate app]. rewrite take_0, drop_nil. cbn [app]. by rewrite app_nil_r. Qed.

Lemma create_ensures s : let c := chunk_ s in script s = [] → fresh c → 0 < maxBlocksInFile c <= SFSBLOCKSINCHUNK →
  ensures (hddInternalCreateChunk gPerformFsync) s (fun st s' => st = SAUNAFS_STATUS_OK ∧ script s' = [] ∧ chunk_ s' = created (header_of c) c).
Proof using.
  intros c Hs Hf Hmax. unfold hddInternalCreateChunk. eapply ensures_run; [by apply begin_new_ensures |]. fold c. intros st s1 (-> & S1 & E1). cbn [negb Z.eqb]. apply ensures_inspect. rewrite E1.
  change (write_at 0 (signature (id_ (begun c)) (version_ (begun c)) (type_ (begun c))) (replicate (Z.to_nat (getHeaderSize (begun c))) x00)) with (header_of c). change (getHeaderSize (begun c)) with (getHeaderSize c).
  pose proof (header_room c ltac:(lia)) as Hroom. assert (0 < getCrcBlockSize c) by (unfold getCrcBlockSize, kCrcSize; lia).
  assert (Z.of_nat (length (header_of c)) = getHeaderSize c) as Lh by (unfold header_of; rewrite length_write_at; rewrite ?length_replicate, ?signature_length; unfold kMaxSignatureBlockSize in *; lia).
  eapply ensures_run; [apply pwrite_ensures |]. rewrite E1. cbn [begun metaFD_ metaFile]. rewrite Lh. intros ret s2 (_ & Hret & F). destruct (F S1) as [S2 Hok]. specialize (Hok eq_refl). subst ret.
  destruct Hret as [[_ E2] | [Hne _]]; [| done]. rewrite Z.eqb_refl. cbn [negb]. apply ensures_bind. unfold hddIOEnd. apply ensures_inspect. rewrite E2. cbn [setMetaFile begun wasChanged_ refCount_]. apply ensures_bind. unfold ensures at 1. cbn [mret exec_ret].
  change (negb (SAUNAFS_STATUS_OK =? SAUNAFS_STATUS_OK)) with false. cbn [Z.leb Z.compare]. apply ensures_modify. unfold ensures at 1. cbn [mret exec_ret negb Z.eqb]. split; [done |]. split; [done |]. rewrite chunk_with, E2. rewrite file_write_new. done.
Qed.

(** The created chunk is one of zeros. *)
Lemma create_represents c : 0 <= id_ c < 2 ^ 64 → 0 <= version_ c < 2 ^ 32 → 0 <= type_ c < 2 ^ 16 → ChunkPartType.isValid (type_ c) = Ok true → 0 < maxBlocksInFile c <= SFSBLOCKSINCHUNK →
  represents (created (header_of c) c) (mk_view (version_ c) (fun _ => x00) 0 (maxBlocksInFile c)).
Proof using.
  intros H1 H2 H3 H4 H5. pose proof (header_room c ltac:(lia)) as Hroom. assert (0 < getCrcBlockSize c <= kMaxCrcBlockSize) as Hcrc by (unfold getCrcBlockSize, kMaxCrcBlockSize, kCrcSize; lia).
  assert (Z.of_nat (length (header_of c)) = getHeaderSize c) as Lh by (unfold header_of; rewrite length_write_at; rewrite ?length_replicate, ?signature_length; unfold kMaxSignatureBlockSize in *; lia).
  split; try done. split; try done; cbn [created setValidAttr id_ version_ type_ metaFile wasChanged_ metaFD_ crcData]; try done.
  - intros _ _. change (getCrcBlockSize (created (header_of c) c)) with (getCrcBlockSize c). unfold header_of, zero_table. rewrite bytes_at_other; rewrite ?length_replicate, ?signature_length; unfold kMaxSignatureBlockSize in *; [| lia..].
    unfold bytes_at. rewrite !drop_replicate, !take_replicate. f_equal. unfold kMaxSignatureBlockSize in *. lia.
  - unfold loaded. cbn [created setValidAttr metaFD_]. split; [exact H5 | change (0 <= 0 <= maxBlocksInFile c); lia | done | cbn [created setValidAttr crcData]; unfold zero_table; rewrite length_replicate; done | intros i Hi; cbn in Hi; lia].
Qed.

(** ** Theorems *)

(** C6: While no system call fails: a chunk is created and then used by any sequence of the requests that are expected
    ([allowed]: writes and closings only while it is open, writes with the checksums of their data and within the
    capacity of the chunk, truncations within the capacity, changes of the version while it is less than 2^32 - 1).
    Every operation succeeds, and the chunk has the bytes that the operations on bytes give, with the checksums of all
    its blocks in memory and in its files. *)
Theorem chunk_is_its_bytes c damaged cmds : let w := mk_view (version_ c) (fun _ => x00) 0 (maxBlocksInFile c) in
  fresh c → 0 <= id_ c < 2 ^ 64 → 0 <= version_ c < 2 ^ 32 → 0 <= type_ c < 2 ^ 16 → ChunkPartType.isValid (type_ c) = Ok true → 0 < maxBlocksInFile c <= SFSBLOCKSINCHUNK → all_allowed w cmds →
  ∃ s', (st ← hddInternalCreateChunk gPerformFsync; sts ← session (version_ c) cmds; mret (st :: sts)) (mk_disk c [] damaged) = Returned (replicate (S (length cmds)) SAUNAFS_STATUS_OK) s' ∧
    represents (chunk_ s') (foldl effect w cmds).
Proof using HB.
  intros w Hf Hid Hv Ht Hvalid Hmax Ha.
  assert (ensures (st ← hddInternalCreateChunk gPerformFsync; sts ← session (version_ c) cmds; mret (st :: sts)) (mk_disk c [] damaged)
    (fun sts s' => sts = replicate (S (length cmds)) SAUNAFS_STATUS_OK ∧ represents (chunk_ s') (foldl effect w cmds))) as He.
  { eapply ensures_run; [by apply create_ensures |]. intros st s1 (-> & S1 & E1). cbn [chunk_] in E1. pose proof (create_represents c Hid Hv Ht Hvalid Hmax) as R. rewrite <- E1 in R.
    eapply ensures_run; [by apply (session_refines cmds s1 w) |]. intros sts s2 (-> & _ & R2). done. }
  destruct (ensures_returned _ _ _ He) as (sts & s' & E & -> & R). by exists s'.
Qed.

(** C7: A write of part of a block to an open chunk that is in order (its files are in place and the stored checksum of
    every block is right), with the version of the chunk and with the checksum of the data.  Whatever becomes of the
    system calls, it returns; when it returns OK the bytes are written and all checksums are right; it fails only if a
    system call fails; and when it fails no other block of the chunk, nor its stored checksum, has changed. *)
Theorem failed_write_isolated version b off d s : let c := chunk_ s in sound (version_ c) c → 0 < refCount_ c → version = version_ c → 0 <= b < maxBlocksInFile c → 0 <= off < B → off + Z.of_nat (length d) <= B →
  ∃ status s', writeChunkBlock B address gPunchHolesInFiles gCheckCrcWhenWriting version b off (Z.of_nat (length d)) (crc_of 0 d) d false s = Returned status s' ∧
    (status = SAUNAFS_STATUS_OK → consistent (chunk_ s') ∧ ∀ x, 0 <= x → content (dataFile (chunk_ s')) x = patched (content (dataFile c)) (b * B + off) d x) ∧
    (status ≠ SAUNAFS_STATUS_OK → script s ≠ [] ∨ dataFD_ c = false) ∧
    ∀ i, 0 <= i < blocks_ c → i ≠ b → block_at B (dataFile (chunk_ s')) i = block_at B (dataFile c) i ∧ crc_slot i (crcData (chunk_ s')) = crc_slot i (crcData c).
Proof using HB.
  intros c Hs Hr Hv Hb Ho Hd. pose proof (open_consistent _ _ Hs Hr) as Hc. pose proof (writeChunkBlock_ensures B HB address gPunchHolesInFiles gCheckCrcWhenWriting version b off (crc_of 0 d) d false s Hc ltac:(lia) ltac:(lia) ltac:(lia) (or_intror eq_refl)) as He.
  destruct (ensures_returned _ _ _ He) as (status & s' & E & He'). clear He. rename He' into He. fold c in He. unfold write_error in He. rewrite Hv, Z.eqb_refl in He. cbn [negb andb] in He.
  rewrite (proj2 (Z.leb_gt _ _)), (proj2 (Z.ltb_ge _ _)), (proj2 (Z.leb_gt _ _)), (proj2 (Z.ltb_ge _ _)) in He by lia. cbn [orb] in He. rewrite decide_True in He by done. destruct He as [Hres F].
  exists status, s'. split; [done |].
  assert (status ≠ SAUNAFS_STATUS_OK → script s ≠ [] ∨ dataFD_ c = false) as Hfault.
  { intros Hne. destruct (dataFD_ c); [left | by right]. intros Es. destruct (F Es) as [_ F']. by destruct Hne; apply F'. }
  destruct Hres as [[-> (f & t & -> & Hc' & Hx)] | [-> (f & t & n & -> & Hk)]].
  - split; [done |]. split; [done |]. intros i Hi Hne. cbn [updated setDataFile setCrcData setBlocks setWasChanged dataFile crcData].
    assert (block_at B f i = block_at B (dataFile c) i) as Eb by (apply block_at_ext; [lia |]; intros x Hx0; rewrite Hx by nia; unfold patched; by rewrite decide_False by nia). split; [done |].
    pose proof (co_crcs _ _ Hc i Hi) as E1. pose proof (co_crcs _ _ Hc' i ltac:(cbn; lia)) as E2. cbn [updated setDataFile setCrcData setBlocks setWasChanged dataFile crcData] in E2. by rewrite E1, E2, Eb.
  - split; [done |]. split; [done |]. intros i Hi Hne. apply Hk; [done | lia].
Qed.

(** What the status of a test says of the blocks. *)
Definition test_verdict (c : chunk) (status : Z) : Prop :=
  (status = SAUNAFS_STATUS_OK → ∀ i, 0 <= i < blocks_ c → ¬ damaged_block B c i) ∧ (status = SAUNAFS_ERROR_CRC → ∃ i, 0 <= i < blocks_ c ∧ damaged_block B c i).

Lemma test_opened_ensures c s : let c1 := setRefCount (refCount_ c + 1) (setValidAttr true c) in chunk_ s = c1 → findable B c → metaFD_ c = true → dataFD_ c = true → Z.of_nat (length (crcData c)) = kMaxCrcBlockSize → 0 < maxBlocksInFile c <= SFSBLOCKSINCHUNK →
  ensures (status ← test_blocks B address (Z.to_nat (blocks_ c)) 0; if negb (status =? SAUNAFS_STATUS_OK) then _ ← hddIOEnd gPerformFsync; mret status else hddIOEnd gPerformFsync) s
    (fun status _ => test_verdict c status ∧ (script s = [] → status = SAUNAFS_STATUS_OK ∨ status = SAUNAFS_ERROR_CRC)).
Proof using HB.
  intros c1 E Hf Hm Hd Ht Hmax. pose proof (fi_max _ _ Hf) as Hb. pose proof (fi_size _ _ Hf) as Hsz.
  eapply ensures_run; [apply (test_blocks_exact B HB); rewrite ?E; cbn [c1 setRefCount setValidAttr dataFile crcData]; unfold kMaxCrcBlockSize, kCrcSize in *; nia |].
  rewrite E, Z2Nat.id, Z.add_0_l by lia. intros st s3 (E3 & Hst & F3). destruct Hst as [[-> H] | [(-> & i & Hi & H) | ->]]; cbn [negb Z.eqb].
  - eapply ensures_and; [apply hddIOEnd_returns | apply hddIOEnd_status |]. intros st s4 F4 Hst. split; [split; [done |]; intros ->; by destruct Hst |].
    intros F. left. destruct (F3 F) as [S3 _]. destruct (F4 S3) as [_ H4]. rewrite E3 in H4. by apply H4.
  - eapply ensures_run; [apply hddIOEnd_returns |]. intros st s4 _. split; [split; [done |]; intros _; by exists i | by right].
  - eapply ensures_run; [apply hddIOEnd_returns |]. intros st s4 _. split; [by split |]. intros F. destruct (F3 F) as [_ H]. by destruct (H Hd).
Qed.

Lemma test_verdict_ensures v s : let c := chunk_ s in v = version_ c ∨ v = 0 → findable B c → 0 < refCount_ c → metaFD_ c = true → dataFD_ c = true → Z.of_nat (length (crcData c)) = kMaxCrcBlockSize → 0 < maxBlocksInFile c <= SFSBLOCKSINCHUNK →
  ensures (hddInternalTestChunk B address gPerformFsync v) s (fun status _ => test_verdict c status ∧ (script s = [] → status = SAUNAFS_STATUS_OK ∨ status = SAUNAFS_ERROR_CRC)).
Proof using HB.
  intros c Hv Hf Hr Hm Hd Ht Hmax. unfold hddInternalTestChunk, found. eapply ensures_run; [by apply (find_ensures B HB) |]. fold c. intros ok s1 [E1 F1].
  destruct ok; cbn [negb]; [specialize (E1 eq_refl) | by split; [split | intros F; by destruct (F1 F)]]. apply ensures_inspect. rewrite E1. cbn [setValidAttr version_].
  assert (negb (version_ c =? v) && (0 <? v) = false) as -> by (by destruct Hv as [-> | ->]; rewrite ?Z.eqb_refl, ?andb_false_r).
  eapply ensures_run with (P := fun st s2 => st = SAUNAFS_STATUS_OK ∧ script s2 = script s1 ∧ chunk_ s2 = setRefCount (refCount_ c + 1) (setValidAttr true c)).
  - unfold hddIOBegin. apply ensures_inspect. rewrite E1. cbn [setValidAttr refCount_]. rewrite (proj2 (Z.eqb_neq _ _)) by lia. apply ensures_bind. unfold ensures at 1. cbn [mret exec_ret negb Z.eqb]. apply ensures_modify. split; [done |]. split; [done |]. by rewrite chunk_with, E1.
  - intros st s2 (-> & S2 & E2). cbn [negb Z.eqb]. apply ensures_inspect. rewrite E2. cbn [setRefCount setValidAttr blocks_].
    eapply ensures_mono; [by apply (test_opened_ensures c) |]. intros st s3 [H1 H2]. split; [done |]. intros F. destruct (F1 F) as [S1 _]. apply H2. by rewrite S2.
Qed.

(** C8: The test of a chunk that is open, with its files in place and of the size of its blocks, asked for with its version
    or with 0: whatever its blocks and its table of checksums contain and whatever becomes of the system calls, it
    returns OK only if no block is damaged, and the error of checksums only if one is; any other status is returned only
    when a system call has failed. *)
Theorem test_finds_damage v s : let c := chunk_ s in v = version_ c ∨ v = 0 → findable B c → 0 < refCount_ c → metaFD_ c = true → dataFD_ c = true → Z.of_nat (length (crcData c)) = kMaxCrcBlockSize → 0 < maxBlocksInFile c <= SFSBLOCKSINCHUNK →
  ∃ status s', hddInternalTestChunk B address gPerformFsync v s = Returned status s' ∧
    (status = SAUNAFS_STATUS_OK → ∀ i, 0 <= i < blocks_ c → ¬ damaged_block B c i) ∧ (status = SAUNAFS_ERROR_CRC → ∃ i, 0 <= i < blocks_ c ∧ damaged_block B c i) ∧
    (script s = [] → status = SAUNAFS_STATUS_OK ∨ status = SAUNAFS_ERROR_CRC).
Proof using HB.
  intros c Hv Hf Hr Hm Hd Ht Hmax. destruct (ensures_returned _ _ _ (test_verdict_ensures v s Hv Hf Hr Hm Hd Ht Hmax)) as (status & s' & E & [H1 H2] & H3). by exists status, s'.
Qed.

(** *** A chunk whose opening has failed *)

(** The state that a failed read of the table leaves. *)
Definition half_open (c : chunk) : chunk := setCrcData zero_table (setFDs true true c).

Lemma run_script {A} (k : io → exec disk A) c r rest damaged Q : ensures (k r) (mk_disk c rest damaged) Q → ensures (x ← next_io; k x) (mk_disk c (r :: rest) damaged) Q.
Proof using. done. Qed.

Lemma signature_read hv c rest damaged Q k : sound hv c → ensures (k (Some (id_ c, hv, type_ c, true))) (mk_disk (half_open c) rest damaged) Q →
  ensures (sig ← readFromDescriptor; k sig : exec disk Z) (mk_disk (half_open c) (Full :: rest) damaged) Q.
Proof using.
  intros H Hk. apply ensures_bind. unfold readFromDescriptor. apply ensures_bind. unfold pread_meta, pread. apply run_script, ensures_inspect. cbn [chunk_ half_open setCrcData setFDs metaFD_ metaFile transferred]. rewrite (so_signature _ _ _ H).
  unfold ensures at 1. cbn [mret exec_ret]. rewrite signature_length. change (Z.of_nat 22 =? signatureSize) with true. cbn [negb].
  destruct (so_ids _ _ _ H) as (Hi & Hv & _ & Ht). destruct (signature_parsed _ _ _ Hi Hv Ht) as (r1 & r2 & r3 & P1 & P2 & P3).
  eapply ensures_lift; [exact P1 |]. cbv beta iota. eapply ensures_lift; [exact P2 |]. cbv beta iota. rewrite bool_decide_true by done. eapply ensures_lift; [exact P3 |]. cbv beta iota. by eapply ensures_lift; [apply (so_type _ _ _ H) |].
Qed.

Lemma failed_open s : let c := chunk_ s in sound (version_ c) c → metaFD_ c = false → script s = [Full; Full; Full; Failed] →
  ensures hddOpen s (fun st s' => st = SAUNAFS_ERROR_IO ∧ script s' = [] ∧ chunk_ s' = half_open c).
Proof using.
  intros c H Em Hs. destruct s as [c' sc dm]. cbn [chunk_ script] in *. subst sc. fold c. destruct (so_names _ _ _ H) as [Hm Hd]. unfold hddOpen.
  eapply ensures_run with (P := fun st s' => st = SAUNAFS_ERROR_IO ∧ script s' = [] ∧ chunk_ s' = half_open c).
  - unfold hddIOBegin. apply ensures_inspect. cbn [chunk_]. rewrite Em, (closed_unused B _ _ H Em). cbn [Z.eqb negb andb]. apply ensures_bind, ensures_bind. unfold ensures at 1. cbn [sassert]. unfold kOpenRetryCount. apply ensures_bind. cbn [open_tries].
    unfold open_files. apply ensures_bind, run_script, run_script, ensures_inspect. cbn [chunk_ opened orb andb]. rewrite Hm, Hd, Z.eqb_refl. apply ensures_modify, ensures_bind. unfold ensures at 1. cbn [mret exec_ret]. apply ensures_bind. unfold ensures at 1. cbn [mret exec_ret].
    unfold ensures at 1. cbn [mret exec_ret]. apply ensures_inspect. cbn [with_chunk chunk_ setFDs metaFD_ negb andb]. apply ensures_modify. unfold ensures at 1. cbn [mret exec_ret negb].
    change (with_chunk (setCrcData (replicate (Z.to_nat kMaxCrcBlockSize) x00)) (with_chunk (setFDs true true) (mk_disk c [Full; Failed] dm))) with (mk_disk (half_open c) [Full; Failed] dm).
    unfold readChunkCrc. apply (signature_read (version_ c)); [done |]. apply ensures_inspect. cbn [chunk_ negb half_open setCrcData setFDs id_ version_ type_]. rewrite !Z.eqb_refl. cbn [negb orb].
    apply ensures_bind. unfold pread_meta, pread. apply run_script, ensures_inspect. cbn [transferred half_open setCrcData setFDs chunk_ metaFD_]. done.
  - intros st s1 (-> & S1 & E1). cbn [negb Z.eqb]. done.
Qed.

(** C37: When the table of checksums cannot be read once, the next opening takes the descriptors that have been kept
    for good and goes on with a table of zeros: a chunk that is in order is found to be damaged. *)
Theorem failed_open_loses_checksums s : let c := chunk_ s in sound (version_ c) c → metaFD_ c = false → script s = [Full; Full; Full; Failed] → 0 < blocks_ c → crc_of 0 (block_at B (dataFile c) 0) ≠ 0%N →
  ∃ s1 s2 s3, hddOpen s = Returned SAUNAFS_ERROR_IO s1 ∧ hddOpen s1 = Returned SAUNAFS_STATUS_OK s2 ∧ crcData (chunk_ s2) = zero_table ∧
    hddInternalTestChunk B address gPerformFsync (version_ c) s2 = Returned SAUNAFS_ERROR_CRC s3.
Proof using HB.
  intros c H Em Hs Hb Hne. destruct (ensures_returned _ _ _ (failed_open s H Em Hs)) as (st & s1 & E1 & -> & S1 & C1). fold c in C1.
  set (c2 := setRefCount 1 (half_open c)).
  assert (hddOpen s1 = Returned SAUNAFS_STATUS_OK (with_chunk (fun _ => c2) s1)) as E2.
  { unfold hddOpen, hddIOBegin. unfold mbind at 1, exec_bind at 1. unfold inspect at 1. rewrite C1. change (refCount_ (half_open c)) with (refCount_ c). rewrite (closed_unused B _ _ H Em). cbn [Z.eqb]. unfold mbind, exec_bind, sassert, mret, exec_ret, modify. cbn [half_open setCrcData setFDs metaFD_ negb andb].
    cbn. unfold with_chunk. rewrite C1. cbn. unfold c2, half_open. by rewrite (closed_unused B _ _ H Em). }
  assert (chunk_ (with_chunk (fun _ => c2) s1) = c2) as C2 by done. set (s2 := with_chunk (fun _ => c2) s1) in *. pose proof (sound_max B _ _ H) as (M1 & M2 & M3). pose proof (sound_findable B _ _ H) as [G1 G2 G3 G4].
  destruct (ensures_returned _ _ _ (test_verdict_ensures (version_ c) s2 ltac:(rewrite C2; by left) ltac:(rewrite C2; by split) ltac:(rewrite C2; done) ltac:(by rewrite C2) ltac:(by rewrite C2) ltac:(rewrite C2; cbn [c2 setRefCount half_open setCrcData crcData]; unfold zero_table; by rewrite length_replicate) ltac:(by rewrite C2))) as (status & s3 & E3 & [V _] & V').
  rewrite C2 in *. exists s1, s2, s3. split; [done |]. split; [done |]. split; [by rewrite C2 |]. destruct (V' S1) as [-> | ->]; [exfalso; specialize (V eq_refl) | done].
  apply (V 0); [done |]. unfold damaged_block. cbn [c2 setRefCount half_open setCrcData setFDs crcData dataFile]. intros E. change (crc_slot 0 zero_table) with (put_crc 0) in E. apply Hne.
  assert (Ok 0%N = Ok (crc_of 0 (block_at B (dataFile c) 0))) as [=]; [| done]. rewrite <- (get_put_crc 0), E by done. apply get_put_crc, crc_of_lt. done.
Qed.

(** *** The version that means any version *)

(** The version in the metadata file is not the one that is expected. *)
Lemma version_mismatch hv v s c : sound hv c → chunk_ s = half_open c → (if v =? kMaxUInt32Number then version_ c else v) ≠ hv → script s = [] →
  ensures (readChunkCrc v) s (fun st s' => st = SAUNAFS_ERROR_IO ∧ script s' = [] ∧ chunk_ s' = half_open c).
Proof using.
  intros H E Hv Hs. unfold readChunkCrc. eapply ensures_run; [apply (signature_ensures B hv s c); rewrite ?E; done |]. intros r s1 (E1 & Hr & F). destruct (F Hs) as [S1 Hne]. destruct Hr as [-> | ->]; [done |]. apply ensures_inspect.
  rewrite E1, E. cbn [negb half_open setCrcData setFDs id_ version_ type_]. rewrite (proj2 (Z.eqb_neq _ hv)) by done. cbn [negb orb]. rewrite orb_true_r. split; [done |]. split; [done |]. by rewrite E1, E.
Qed.

Lemma mismatch_begin hv v s : let c := chunk_ s in sound hv c → metaFD_ c = false → (if v =? kMaxUInt32Number then version_ c else v) ≠ hv → script s = [] →
  ensures (hddIOBegin false v) s (fun st s' => st = SAUNAFS_ERROR_IO ∧ script s' = [] ∧ chunk_ s' = half_open c).
Proof using.
  intros c H Em Hv Hs. destruct (so_names _ _ _ H) as [Hm Hd]. unfold hddIOBegin. apply ensures_inspect. fold c. rewrite Em, (closed_unused B _ _ H Em). cbn [Z.eqb negb andb]. apply ensures_bind, ensures_bind. unfold ensures at 1. cbn [sassert].
  eapply ensures_run; [apply (open_tries_ensures _ s c); try done; exists false, (dataFD_ c); fold c; revert Em; clear; destruct c; cbn; by intros -> |].
  intros ok s1 [_ F]. destruct (F ltac:(unfold kOpenRetryCount; lia) Hs) as (S1 & -> & E1). cbn [negb]. eapply ensures_mono; [by apply (version_mismatch hv v s1 c) |]. intros st s2 (-> & S2 & E2). done.
Qed.

(** Version 0 is accepted as any version, but a chunk that is not open is then renamed and not opened: its name and
    its metadata do not agree any more, and it cannot be opened again. *)
Theorem version_zero_breaks_chunk nv s : let c := chunk_ s in sound (version_ c) c → metaFD_ c = false → script s = [] → version_ c ≠ 0 → 0 <= nv < 2 ^ 32 → nv ≠ version_ c →
  ∃ s1 s2, hddInternalUpdateVersion B gPerformFsync 0 nv s = Returned SAUNAFS_ERROR_IO s1 ∧ (_ ← freeUnused; hddOpen) s1 = Returned SAUNAFS_ERROR_IO s2.
Proof using HB.
  intros c H Em Hs Hv0 Hnv Hne.
  assert (ensures (hddInternalUpdateVersion B gPerformFsync 0 nv) s (fun st s1 => st = SAUNAFS_ERROR_IO ∧ ensures (_ ← freeUnused; hddOpen) s1 (fun st s2 => st = SAUNAFS_ERROR_IO))) as He.
  { unfold hddInternalUpdateVersion, found. eapply ensures_run; [by apply (find_ensures B HB), (sound_findable B _ _ H) |]. fold c. intros ok s1 [E1 F1]. destruct (F1 Hs) as [S1 ->]. specialize (E1 eq_refl).
    pose proof (setValidAttr_sound B _ true c H) as H0. rewrite <- E1 in H0. unfold updateVersion. apply ensures_inspect. cbn [Z.ltb Z.compare]. rewrite andb_false_r.
    eapply ensures_run; [by apply (rename_ensures B (version_ c)) |]. intros r s2 [[[-> E2] | ->] F2]; destruct (F2 S1) as [S2 ?]; [| done]. cbn [Z.ltb Z.compare].
    pose proof (renamed_sound B HB _ nv _ H0 Hnv) as H2. rewrite <- E2 in H2. eapply ensures_run; [apply (mismatch_begin (version_ c)); try done; by rewrite E2, E1 |]. intros st s3 (-> & S3 & E3). cbn [negb Z.eqb]. split; [done |].
    unfold freeUnused. apply ensures_bind, ensures_inspect. rewrite E3, E2, E1. cbn [half_open setCrcData setFDs renamed setVersion setNames setValidAttr refCount_]. rewrite (closed_unused B _ _ H Em). cbn [Z.eqb]. unfold ensures at 1. cbn [modify].
    unfold hddOpen. eapply ensures_run; [apply (mismatch_begin (version_ c)) |].
    - rewrite chunk_with, E3, E2, E1. pose proof H as [X1 Xi X3 X4 X5 X6 X7 X8 X9 X10 X11]. pose proof (closed_unused B _ _ H Em) as Hz. split; try done; [tauto | cbn; lia |].
      unfold loaded in *. rewrite Em in X11. cbn [setCrcData setFDs metaFD_]. destruct X11 as [A1 A2 A3 A4 A5]. by split.
    - done.
    - rewrite chunk_with, E3, E2, E1. cbn. done.
    - done.
    - intros st s4 (-> & _ & _). cbn [negb Z.eqb]. done. }
  destruct (ensures_returned _ _ _ He) as (st & s1 & E1 & -> & He2). destruct (ensures_returned _ _ _ He2) as (st & s2 & E2 & ->). by exists s1, s2.
Qed.

(** *** Deleting a chunk *)

(** What deleting the chunk [c] leaves, with system calls that end as [io_script] says. *)
Definition deletion (io_script : list io) (c c' : chunk) : Prop :=
  registered_ c' = false ∧ (io_script = [] → metaName c' = -1 ∧ dataName c' = -1) ∧
  (∀ rest, io_script = Failed :: rest → metaName c' = version_ c ∧ dataName c' = version_ c ∧ metaFile c' = metaFile c ∧ dataFile c' = dataFile c).

(** C38: A request to delete a registered chunk whose files are in place and whose attributes have been read is refused when
    it names another version than that of the chunk and than 0, and nothing changes then.  Otherwise the chunk is always
    reported as deleted and forgotten, even when its files could not be removed: [unlinkChunk] returns a positive status
    then, and only a negative one is taken for an error. *)
Theorem delete_reports_success ENOENT err v s : let c := chunk_ s in findable B c → validAttr_ c = true → 0 <= v →
  if (v =? 0) || (v =? version_ c) then ∃ s', hddInternalDelete B ENOENT err v s = Returned SAUNAFS_STATUS_OK s' ∧ deletion (script s) c (chunk_ s')
  else hddInternalDelete B ENOENT err v s = Returned SAUNAFS_ERROR_WRONGVERSION s.
Proof using.
  intros c [Hreg [Hm Hd] _ _] Hv Hv0.
  assert (negb (version_ c =? v) && (0 <? v) = negb ((v =? 0) || (v =? version_ c))) as Eg.
  { rewrite (Z.eqb_sym v (version_ c)). destruct (Z.eqb_spec (version_ c) v), (Z.eqb_spec v 0), (Z.ltb_spec 0 v); try done; lia. }
  destruct ((v =? 0) || (v =? version_ c)).
  - assert (ensures (hddInternalDelete B ENOENT err v) s (fun st s' => st = SAUNAFS_STATUS_OK ∧ deletion (script s) c (chunk_ s'))) as He.
    { unfold hddInternalDelete, found, hddChunkFindAndLock. apply ensures_bind, ensures_inspect. fold c. rewrite Hreg, Hv. unfold ensures at 1. cbn [mret exec_ret negb].
      unfold deleteChunk. apply ensures_inspect. fold c. rewrite Eg. cbn [negb]. eapply ensures_run; [apply unlink_ensures |]. fold c. intros r s1 (Hr & _ & Hok & Hf).
      assert (r <? 0 = false) as -> by (by destruct Hr as [-> | ->]). apply ensures_modify. split; [done |]. split; [done |]. rewrite chunk_with.
      split; [intros E; by rewrite (Hok Hm Hd E) | intros rest E; by rewrite (Hf rest E)]. }
    destruct (ensures_returned _ _ _ He) as (st & s' & E & -> & H). by exists s'.
  - assert (ensures (hddInternalDelete B ENOENT err v) s (fun st s' => st = SAUNAFS_ERROR_WRONGVERSION ∧ s' = s)) as He.
    { unfold hddInternalDelete, found, hddChunkFindAndLock. apply ensures_bind, ensures_inspect. fold c. rewrite Hreg, Hv. unfold ensures at 1. cbn [mret exec_ret negb].
      unfold deleteChunk. apply ensures_inspect. fold c. by rewrite Eg. }
    destruct (ensures_returned _ _ _ He) as (st & s' & E & -> & ->). done.
Qed.

End sessions.

(** ** Examples *)

(** A chunk of one block of one byte, which is not open. *)
Definition sample_chunk : chunk :=
  mk_chunk true 9 0 5 1 false false 0 false false [] 5 5 (write_at kMaxSignatureBlockSize (bytes_crc [x07]) (write_at 0 (signature 9 5 0) (replicate 5120 x00))) [x07].

Lemma sample_sound : sound 1 5 sample_chunk.
Proof.
  split; try done. split; try done.
  intros i Hi. assert (i = 0) as -> by (cbn in Hi; lia). vm_compute. reflexivity.
Qed.

Definition sample_write : InputBuffer := mk_input [x01; x02; x03] [mk_info 2 0 1 1 0; mk_info 3 0 1 2 0; mk_info 2 0 1 3 0] [crc_of 0 [x01]; crc_of 0 [x02]; crc_of 0 [x03]].

Lemma chunk_is_its_bytes_witness :
  ∃ s', (st ← hddInternalCreateChunk true; sts ← session 1 0 true true true 5 [Open; Write sample_write; Close; FreeUnused; Truncate 6 4; TestChunk]; mret (st :: sts)) (mk_disk (new_chunk 9 5 0) [] []) = Returned (replicate 7 SAUNAFS_STATUS_OK) s' ∧
    (content (dataFile (chunk_ s')) <$> [0; 1; 2; 3; 4]) = [x00; x00; x03; x02; x00] ∧ version_ (chunk_ s') = 6.
Proof.
  destruct (chunk_is_its_bytes 1 ltac:(lia) 0 true true true (new_chunk 9 5 0) [] [Open; Write sample_write; Close; FreeUnused; Truncate 6 4; TestChunk]) as (s' & E & R).
  - done.
  - done.
  - done.
  - done.
  - vm_compute. reflexivity.
  - done.
  - change (maxBlocksInFile (new_chunk 9 5 0)) with 1024. cbn [all_allowed allowed effect v_opens v_capacity v_version]. repeat split; try done; cbn; try lia; repeat constructor; cbn; try lia; try (vm_compute; reflexivity).
  - exists s'. split; [exact E |]. split; [| exact (re_version _ _ _ R)].
    cbn [fmap list_fmap]. rewrite !(re_bytes _ _ _ R) by done. vm_compute. reflexivity.
Defined.

Lemma failed_write_isolated_witness : ∃ status s',
  writeChunkBlock 1 0 true true 5 3 0 1 (crc_of 0 [x05]) [x05] false (mk_disk (reopened true sample_chunk) [Short 0] []) = Returned status s' ∧ status ≠ SAUNAFS_STATUS_OK ∧ block_at 1 (dataFile (chunk_ s')) 0 = [x07].
Proof.
  destruct (failed_write_isolated 1 ltac:(lia) 0 true true 5 3 0 [x05] (mk_disk (reopened true sample_chunk) [Short 0] [])) as (status & s' & E & H1 & H2 & H3); try done.
  - apply reopened_sound, sample_sound.
  - exists status, s'. split; [exact E |]. split.
    + assert (match writeChunkBlock 1 0 true true 5 3 0 1 (crc_of 0 [x05]) [x05] false (mk_disk (reopened true sample_chunk) [Short 0] []) with Returned st _ => st =? 22 | _ => false end = true) as E22 by (vm_compute; reflexivity).
      change (Z.of_nat (length [x05])) with 1 in E. rewrite E in E22. apply Z.eqb_eq in E22. rewrite E22. done.
    + destruct (H3 0) as [-> _]; [cbn; lia | done |]. vm_compute. reflexivity.
Defined.

Lemma test_finds_damage_witness : ∃ s', hddInternalTestChunk 1 0 true 5 (mk_disk (setDataFile [x08] (reopened true sample_chunk)) [] []) = Returned SAUNAFS_ERROR_CRC s'.
Proof.
  destruct (test_finds_damage 1 ltac:(lia) 0 true 5 (mk_disk (setDataFile [x08] (reopened true sample_chunk)) [] [])) as (status & s' & E & H & _ & F); try done; [by left |].
  destruct (F eq_refl) as [-> | ->]; [exfalso | by exists s']. apply (H eq_refl 0); [cbn; lia |]. vm_compute. discriminate.
Defined.

Lemma failed_open_loses_checksums_witness :
  ∃ s1 s2 s3, hddOpen (mk_disk sample_chunk [Full; Full; Full; Failed] []) = Returned SAUNAFS_ERROR_IO s1 ∧ hddOpen s1 = Returned SAUNAFS_STATUS_OK s2 ∧ crcData (chunk_ s2) = zero_table ∧ hddInternalTestChunk 1 0 true 5 s2 = Returned SAUNAFS_ERROR_CRC s3.
Proof. apply (failed_open_loses_checksums 1 ltac:(lia) 0 true (mk_disk sample_chunk [Full; Full; Full; Failed] [])); [apply sample_sound | done | done | done | vm_compute; discriminate]. Defined.

Lemma version_zero_breaks_chunk_witness :
  ∃ s1 s2, hddInternalUpdateVersion 1 true 0 6 (mk_disk sample_chunk [] []) = Returned SAUNAFS_ERROR_IO s1 ∧ (_ ← freeUnused; hddOpen) s1 = Returned SAUNAFS_ERROR_IO s2.
Proof. apply (version_zero_breaks_chunk 1 ltac:(lia) true 6 (mk_disk sample_chunk [] [])); [apply sample_sound | done..]. Defined.

Lemma delete_reports_success_witness :
  ∃ s', hddInternalDelete 1 2 13 5 (mk_disk (reopened true (setValidAttr true sample_chunk)) [Failed] []) = Returned SAUNAFS_STATUS_OK s' ∧ registered_ (chunk_ s') = false ∧ dataName (chunk_ s') = 5 ∧ dataFile (chunk_ s') = [x07].
Proof.
  destruct (delete_reports_success 1 2 13 5 (mk_disk (reopened true (setValidAttr true sample_chunk)) [Failed] [])) as (s' & E & H1 & _ & H2); [by split | done | lia |].
  destruct (H2 [] eq_refl) as (_ & H3 & _ & H4). exists s'. split; [exact E |]. split; [exact H1 |]. split; [exact H3 | exact H4].
Defined.
