(* ===== verification/MediaLabel.v ===== *)
(** * Media labels

    Models [MediaLabelManager] (src/common/media_label.h, media_label.cc): strings
    are interned as 16-bit handles.  A [MediaLabel] is its handle; labels are
    compared as handles, so the wildcard label, whose handle is the largest 16-bit
    number, is greater than every other label.  The rest of the development only
    uses handles. *)

From Stdlib Require Import Ascii.
From S2P Require Import Prelude.

Module MediaLabelManager.

Definition kWildcardHandleValue : Z := 65535.
Definition kWildcard : string := "_".

Record t := mk {
  label_data_ : gmap string Z;
  handle_data_ : gmap Z string;
  next_handle_ : Z;
}.

(** The constructor. *)
Definition init : t :=
  mk {[kWildcard := kWildcardHandleValue]} {[kWildcardHandleValue := kWildcard]} 1.

(** [unordered_map::insert]: an existing key is kept. *)
Definition map_insert {K V} `{Countable K} (k : K) (v : V) (m : gmap K V) : gmap K V :=
  match m !! k with Some _ => m | None => <[k := v]> m end.

Definition iGetHandle (label : string) (s : t) : res (t * Z) :=
  match label_data_ s !! label with
  | Some h => Ok (s, h)
  | None =>
      if next_handle_ s =? kWildcardHandleValue then Throw
      else Ok (mk (map_insert label (next_handle_ s) (label_data_ s))
                  (map_insert (next_handle_ s) label (handle_data_ s))
                  (u16 (next_handle_ s + 1)),
               next_handle_ s)
  end.

Definition iGetLabel (handle : Z) (s : t) : res string :=
  match handle_data_ s !! handle with
  | Some l => Ok l
  | None => Throw
  end.

(** [std::isalnum] on the characters of the C locale. *)
Definition isalnum (c : ascii) : bool :=
  let n := Z.of_N (N_of_ascii c) in
  ((48 <=? n) && (n <=? 57)) || ((65 <=? n) && (n <=? 90)) || ((97 <=? n) && (n <=? 122)).

Definition isLabelValid (label : string) : bool :=
  let n := Z.of_nat (String.length label) in
  negb (n =? 0) && (n <=? 32) &&
  forallb (fun c => Ascii.eqb c "_"%char || isalnum c) (String.list_ascii_of_string label).

(** ** The invariant: the two maps are inverse to each other, and handles were
    given out in order. *)
Record inv (s : t) : Prop := {
  inv_next : 1 <= next_handle_ s <= kWildcardHandleValue;
  inv_inverse : ∀ l h, label_data_ s !! l = Some h ↔ handle_data_ s !! h = Some l;
  inv_range : ∀ l h, label_data_ s !! l = Some h →
    1 <= h < next_handle_ s ∨ (h = kWildcardHandleValue ∧ l = kWildcard);
  inv_wildcard : label_data_ s !! kWildcard = Some kWildcardHandleValue;
}.

Lemma init_inv : inv init.
Proof.
  split; simpl; try done.
  - intros l h. rewrite !lookup_singleton_Some. naive_solver.
  - intros l h [<- <-]%lookup_singleton_Some. by right.
Qed.

Lemma inv_fresh s : inv s → next_handle_ s ≠ kWildcardHandleValue → handle_data_ s !! next_handle_ s = None.
Proof.
  intros Hs Hne. destruct (handle_data_ s !! next_handle_ s) as [l|] eqn:E; [|done].
  apply inv_inverse in E; [|done]. apply inv_range in E; [|done]. lia.
Qed.

(** One call of [iGetHandle] keeps the invariant, remembers every label that was
    known, and binds the label to the handle it returns. *)
Lemma iGetHandle_spec s l s' h :
  inv s → iGetHandle l s = Ok (s', h) →
  inv s' ∧ label_data_ s' !! l = Some h ∧ label_data_ s ⊆ label_data_ s'.
Proof.
  intros Hs. unfold iGetHandle. destruct (label_data_ s !! l) as [h0|] eqn:E.
  { intros [= <- <-]. done. }
  destruct (Z.eqb_spec (next_handle_ s) kWildcardHandleValue) as [|Hne]; [done|].
  intros [= <- <-]. pose proof (inv_fresh s Hs Hne) as Hf. unfold map_insert. rewrite E, Hf.
  destruct Hs as [Hn Hi Hr Hw]. unfold kWildcardHandleValue in *.
  rewrite (wrapu_small 16) by lia. simpl.
  split; [|split; [apply lookup_insert_eq|by apply insert_subseteq]].
  split; simpl.
  - unfold kWildcardHandleValue. lia.
  - intros l' h'. rewrite !lookup_insert_Some, Hi. split.
    + intros [[<- <-]|[Hl Hh]]; [by left|]. right. split; [|done].
      intros <-. rewrite Hf in Hh. done.
    + intros [[<- <-]|[Hl Hh]]; [by left|]. right. split; [|done].
      intros <-. apply Hi in Hh. rewrite E in Hh. done.
  - intros l' h' [[<- <-]|[_ Hl]]%lookup_insert_Some; [left; lia|].
    destruct (Hr _ _ Hl) as [?|?]; [left; lia|by right].
  - rewrite lookup_insert_ne by congruence. done.
Qed.

(** A run of the program interns any sequence of labels. *)
Inductive reachable : t → Prop :=
| reachable_init : reachable init
| reachable_get s s' l h : reachable s → iGetHandle l s = Ok (s', h) → reachable s'.

Lemma reachable_inv s : reachable s → inv s.
Proof. induction 1; [apply init_inv|]. by eapply iGetHandle_spec. Qed.

(** interning of labels is a bijection.  In every reachable state of the label
    manager, the handle obtained for a label converts back to that label, two
    labels share a handle only if they are the same label, the handle is the
    wildcard handle only for the wildcard, and a handle given out earlier still
    converts to its label. *)
Theorem handles_are_faithful s s1 s2 l1 l2 h1 h2 :
  reachable s → iGetHandle l1 s = Ok (s1, h1) → iGetHandle l2 s1 = Ok (s2, h2) →
  iGetLabel h1 s2 = Ok l1 ∧ iGetLabel h2 s2 = Ok l2 ∧ (h1 = h2 → l1 = l2) ∧
  (h1 = kWildcardHandleValue ↔ l1 = kWildcard).
Proof.
  intros Hr H1 H2. pose proof (reachable_inv s Hr) as Hi.
  destruct (iGetHandle_spec _ _ _ _ Hi H1) as (Hi1 & L1 & Hsub1).
  destruct (iGetHandle_spec _ _ _ _ Hi1 H2) as (Hi2 & L2 & Hsub2).
  pose proof (lookup_weaken _ _ _ _ L1 Hsub2) as L1'.
  pose proof (proj1 (inv_inverse s2 Hi2 _ _) L1') as B1.
  pose proof (proj1 (inv_inverse s2 Hi2 _ _) L2) as B2.
  unfold iGetLabel. rewrite B1, B2. repeat split; try done.
  - intros ->. congruence.
  - intros ->. destruct (inv_range _ Hi1 _ _ L1) as [Hlt|[_ ?]]; [|done].
    pose proof (inv_next _ Hi1). lia.
  - intros ->. pose proof (inv_wildcard _ Hi1). congruence.
Qed.

Lemma handles_are_faithful_witness :
  ∃ s1 s2 h1 h2, iGetHandle "ssd" init = Ok (s1, h1) ∧ iGetHandle "_" s1 = Ok (s2, h2) ∧
    iGetLabel h1 s2 = Ok "ssd"%string ∧ iGetLabel h2 s2 = Ok "_"%string.
Proof.
  destruct (iGetHandle "ssd" init) as [[s1 h1]| | |] eqn:E1; try discriminate E1.
  destruct (iGetHandle "_" s1) as [[s2 h2]| | |] eqn:E2;
    [|vm_compute in E1; injection E1 as <- <-; discriminate E2..].
  exists s1, s2, h1, h2. split; [done|]. split; [done|].
  destruct (handles_are_faithful init s1 s2 "ssd" "_" h1 h2 reachable_init E1 E2) as (? & ? & _).
  done.
Defined.

(** The manager refuses a new label only when all 65534 handles are in use. *)
Lemma iGetHandle_throws s l :
  reachable s → iGetHandle l s = Throw ↔ label_data_ s !! l = None ∧ next_handle_ s = kWildcardHandleValue.
Proof.
  intros _. unfold iGetHandle. destruct (label_data_ s !! l); [naive_solver|].
  destruct (Z.eqb_spec (next_handle_ s) kWildcardHandleValue); naive_solver.
Qed.

End MediaLabelManager.

(** The wildcard label as the other components use it. *)
Definition kWildcard : Z := MediaLabelManager.kWildcardHandleValue.
