(* ===== verification/Assignment.v ===== *)
(** * The linear assignment optimiser

    Models src/common/linear_assignment_optimizer.h: Bertsekas' auction algorithm
    with epsilon scaling.  The arrays are the used prefixes (of [size] elements) of
    the C++ arrays; [-1] marks an unassigned person or object.  The program's [int]
    arithmetic is exact here, and the theorems bound the prices below [2 ^ 31]. *)

From S2P Require Import Prelude.

Module LinearAssignment.

Definition mget (m : list (list Z)) (i j : nat) : Z := (m !!! i) !!! j.

(** The loop state of [auctionStep]. *)
Record auction := mkAuction {
  assignment : list Z;
  object_assignment : list Z;
  prices : list Z;
  unassigned_idx : nat;
  assigned_count : Z;
}.

(** [while (assignment[unassigned_idx] >= 0) { ++unassigned_idx; wrap around }] *)
Definition next_unassigned (size : nat) (assignment : list Z) (idx : nat) : res nat :=
  while_loop (fun idx =>
    if 0 <=? assignment !!! idx
    then Ok (inl (if Nat.leb size (S idx) then O else S idx))
    else Ok (inr idx)) idx.

(** The scan for the best and the second best value; [(w, v, v_idx)]. *)
Fixpoint scan (row prices : list Z) (objs : list nat) (w v v_idx : Z) : res (Z * Z * Z) :=
  match objs with
  | [] => Ok (w, v, v_idx)
  | i :: objs' =>
      let c := row !!! i - prices !!! i in
      assertion (INT_MIN <? c)
        (if v <? c then scan row prices objs' v c (Z.of_nat i)
         else scan row prices objs' (Z.max c w) v v_idx)
  end.

(** One iteration of the main loop: the next unassigned person bids. *)
Definition bid (value_matrix : list (list Z)) (eps : Z) (size : nat) (s : auction) :
    res (auction + auction) :=
  if assigned_count s <? Z.of_nat size then
    idx ← next_unassigned size (assignment s) (unassigned_idx s);
    '(w, v, v_idx) ← scan (value_matrix !!! idx) (prices s) (seq 0 size) INT_MIN INT_MIN (-1);
    assertion (0 <? v - w + eps)
      (let j := Z.to_nat v_idx in
       let prices' := <[j := prices s !!! j + (v - w + eps)]> (prices s) in
       let old := object_assignment s !!! j in
       let '(assignment1, count1) :=
         if 0 <=? old then (<[Z.to_nat old := -1]> (assignment s), assigned_count s - 1)
         else (assignment s, assigned_count s) in
       Ok (inl (mkAuction (<[idx := v_idx]> assignment1)
                          (<[j := Z.of_nat idx]> (object_assignment s))
                          prices' idx (count1 + 1))))
  else Ok (inr s).

Definition auctionStep (value_matrix : list (list Z)) (prices0 : list Z) (eps : Z) (size : nat) :
    res auction :=
  assertion (Nat.ltb 1 size)
    (while_loop (bid value_matrix eps size)
       (mkAuction (replicate size (-1)) (replicate size (-1)) prices0 0 0)).

Definition scale (size : nat) (m : list (list Z)) : list (list Z) :=
  (fun row : list Z => (fun x => x * (Z.of_nat size + 1)) <$> row) <$> m.

Definition max_entry (m : list (list Z)) : Z := foldl Z.max INT_MIN (concat m).

(** The epsilon-scaling loop, then the final phase with [eps = 1]. *)
Definition scaling_body (m : list (list Z)) (size : nat) (s : Z * list Z) :
    res ((Z * list Z) + list Z) :=
  let '(eps, prices0) := s in
  if 1 <? eps then
    a ← auctionStep m prices0 eps size;
    Ok (inl (Z.quot (eps + 2) 5, prices a))
  else Ok (inr prices0).

(** [auctionOptimization(value_matrix, assignment, object_assignment, size)]; the
    result is the pair of arrays. *)
Definition auctionOptimization (value_matrix : list (list Z)) (size : nat) : res (list Z * list Z) :=
  if Nat.eqb size 0 then Ok ([], [])
  else if Nat.eqb size 1 then Ok ([0], [0])
  else
    let m := scale size value_matrix in
    let eps := Z.quot (max_entry m + 12) 25 in
    prices0 ← while_loop (scaling_body m size) (eps, replicate size 0);
    a ← auctionStep m prices0 1 size;
    Ok (assignment a, object_assignment a).

Example auction_example :
  auctionOptimization [[10; 5; 5]; [9; 8; 1]; [8; 7; 2]] 3 = Ok ([2; 1; 0], [2; 1; 0]).
Proof. vm_compute. reflexivity. Qed.

(** ** The scan *)
Section scan_facts.
Context (row prices : list Z).
Let c (i : nat) : Z := row !!! i - prices !!! i.

(** What the scan knows after the objects of [done]. *)
Definition scan_inv (done : list nat) (w v v_idx : Z) : Prop :=
  (done = [] ∧ w = INT_MIN ∧ v = INT_MIN) ∨
  (∃ j, j ∈ done ∧ v_idx = Z.of_nat j ∧ v = row !!! j - prices !!! j ∧ w <= v ∧
        (∀ i, i ∈ done → row !!! i - prices !!! i <= v) ∧
        (∀ i, i ∈ done → i ≠ j → row !!! i - prices !!! i <= w)).

Lemma scan_step_inv done i w v v_idx :
  i ∉ done → INT_MIN < c i → scan_inv done w v v_idx →
  if v <? c i then scan_inv (done ++ [i]) v (c i) (Z.of_nat i)
  else scan_inv (done ++ [i]) (Z.max (c i) w) v v_idx.
Proof.
  intros Hi Hc Hinv. unfold c in *. destruct (Z.ltb_spec v (row !!! i - prices !!! i)) as [Hlt|Hge].
  - right. exists i. destruct Hinv as [(-> & -> & ->)|(j & Hj & -> & -> & Hw & Hall & Hoth)].
    + repeat split; set_solver by lia.
    + repeat split; [set_solver|lia| |].
      * intros k [Hk| ->%list_elem_of_singleton]%elem_of_app; [specialize (Hall _ Hk)|]; lia.
      * intros k [Hk| ->%list_elem_of_singleton]%elem_of_app Hne; [specialize (Hall _ Hk)|done]; lia.
  - right. destruct Hinv as [(-> & -> & ->)|(j & Hj & -> & -> & Hw & Hall & Hoth)]; [lia|].
    exists j. repeat split; [set_solver|lia| |].
    + intros k [Hk| ->%list_elem_of_singleton]%elem_of_app; [by apply Hall|lia].
    + intros k [Hk| ->%list_elem_of_singleton]%elem_of_app Hne; [specialize (Hoth _ Hk Hne)|]; lia.
Qed.

Lemma scan_go_spec objs done w v v_idx :
  NoDup (done ++ objs) → (∀ i, i ∈ objs → INT_MIN < c i) → scan_inv done w v v_idx →
  ∃ w' v' v_idx', scan row prices objs w v v_idx = Ok (w', v', v_idx') ∧
                  scan_inv (done ++ objs) w' v' v_idx'.
Proof.
  revert done w v v_idx. induction objs as [|i objs IH]; intros done w v v_idx Hnd Hc Hinv; simpl.
  - rewrite app_nil_r. eauto 10.
  - assert (i ∉ done) as Hi.
    { apply NoDup_app in Hnd as (_ & Hnd & _). intros Hin. apply (Hnd i Hin). by left. }
    pose proof (Hc i ltac:(by left)) as Hci. fold (c i).
    replace (INT_MIN <? c i) with true by lia. simpl.
    pose proof (scan_step_inv done i w v v_idx Hi Hci Hinv) as Hstep.
    rewrite (cons_middle i done objs), (assoc_L (++)) in Hnd |- *.
    destruct (v <? c i); apply IH; try done; intros k Hk; apply Hc; by right.
Qed.

Lemma scan_spec n :
  (2 <= n)%nat → (∀ i, (i < n)%nat → INT_MIN < c i) →
  ∃ w v j, scan row prices (seq 0 n) INT_MIN INT_MIN (-1) = Ok (w, v, Z.of_nat j) ∧
    (j < n)%nat ∧ v = c j ∧ w <= v ∧ (∀ i, (i < n)%nat → i ≠ j → c i <= w).
Proof.
  intros Hn Hc.
  destruct (scan_go_spec (seq 0 n) [] INT_MIN INT_MIN (-1)) as (w & v & vi & E & Hinv).
  - apply NoDup_seq.
  - intros i Hi%elem_of_seq. apply Hc. lia.
  - by left.
  - simpl in Hinv. destruct Hinv as [(Hnil & _)|(j & Hj & -> & Hv & Hw & _ & Hoth)].
    + apply (f_equal length) in Hnil. rewrite length_seq in Hnil. simpl in Hnil. lia.
    + apply elem_of_seq in Hj. exists w, v, j. repeat split; try done; [lia|].
      intros i Hi Hne. apply Hoth; [apply elem_of_seq; lia|done].
Qed.
End scan_facts.

(** ** Counting assigned entries *)
Definition is_assigned (x : Z) : Z := if 0 <=? x then 1 else 0.
Definition nassigned (l : list Z) : Z := zsum (is_assigned <$> l).

Lemma nassigned_bounds l : 0 <= nassigned l <= Z.of_nat (length l).
Proof.
  unfold nassigned. induction l as [|x l IH]; zsum_simpl; [lia|]. unfold is_assigned at 1 3. zcases.
Qed.

Lemma nassigned_full l i : nassigned l = Z.of_nat (length l) → (i < length l)%nat → 0 <= l !!! i.
Proof.
  revert i. induction l as [|x l IH]; intros i Hn Hi; simpl in Hi; [lia|].
  pose proof (nassigned_bounds l). unfold nassigned in *. zsum_simpl. unfold is_assigned at 1 in Hn.
  destruct (Z.leb_spec 0 x); [|lia]. destruct i as [|i]; simpl; [done|]. apply IH; lia.
Qed.

Lemma nassigned_lt l :
  nassigned l < Z.of_nat (length l) → ∃ i, (i < length l)%nat ∧ l !!! i < 0.
Proof.
  induction l as [|x l IH]; intros Hn; unfold nassigned in *; zsum_simpl; [lia|].
  unfold is_assigned at 1 in Hn. destruct (Z.leb_spec 0 x).
  - destruct IH as (i & Hi & Hx); [lia|]. exists (S i). simpl. split; [lia|done].
  - exists O. simpl. split; [lia|done].
Qed.

Lemma nassigned_replicate n : nassigned (replicate n (-1)) = 0.
Proof. unfold nassigned. induction n as [|n IH]; [done|]. cbn [replicate]. zsum_simpl. rewrite IH. done. Qed.

Lemma nassigned_insert l i x :
  (i < length l)%nat → nassigned (<[i := x]> l) = nassigned l - is_assigned (l !!! i) + is_assigned x.
Proof. apply zsum_insert. Qed.

Lemma next_unassigned_spec size asg idx :
  Z.of_nat size < 2 ^ 62 → (idx < size)%nat → (∃ k, (k < size)%nat ∧ asg !!! k < 0) →
  ∃ r, next_unassigned size asg idx = Ok r ∧ (r < size)%nat ∧ asg !!! r < 0.
Proof.
  intros Hs Hi (k & Hk & Hak). unfold next_unassigned.
  apply (while_loop_spec _ (fun i => (i < size)%nat)
    (fun i => if Nat.leb i k then Z.of_nat (k - i) else Z.of_nat (size - i + k))); [|done|].
  - intros i Hlt. destruct (Z.leb_spec 0 (asg !!! i)) as [Ha|Ha]; [right|left; eauto].
    eexists; split; [done|].
    assert (i ≠ k) by (intros ->; lia).
    destruct (Nat.leb_spec size (S i));
      [destruct (Nat.leb_spec 0 k)|destruct (Nat.leb_spec (S i) k)];
      destruct (Nat.leb_spec i k); lia.
  - destruct (Nat.leb_spec idx k); lia.
Qed.

(** ** Partial matchings *)

(** [asg] and [obj] are inverse partial injections on [0, size). *)
Record matching (size : nat) (asg obj : list Z) : Prop := {
  ma_len : length asg = size;
  ma_len' : length obj = size;
  ma_rng : ∀ i, (i < size)%nat → -1 <= asg !!! i < Z.of_nat size;
  ma_rng' : ∀ j, (j < size)%nat → -1 <= obj !!! j < Z.of_nat size;
  ma_inv : ∀ i j, (i < size)%nat → (j < size)%nat →
    asg !!! i = Z.of_nat j ↔ obj !!! j = Z.of_nat i;
}.

(** The displacement of the previous owner of object [j]. *)
Definition displace (asg obj : list Z) (j : nat) : list Z :=
  if 0 <=? obj !!! j then <[Z.to_nat (obj !!! j) := -1]> asg else asg.

Section matching_facts.
Context (size : nat) (asg obj : list Z) (idx j : nat).
Hypothesis M : matching size asg obj.
Hypothesis Hidx : (idx < size)%nat.
Hypothesis Hj : (j < size)%nat.
Hypothesis Hfree : asg !!! idx < 0.

Lemma displace_lookup i :
  (i < size)%nat → displace asg obj j !!! i = if decide (obj !!! j = Z.of_nat i) then -1 else asg !!! i.
Proof using M Hj.
  clear Hfree Hidx.
  intros Hi. pose proof (ma_rng' _ _ _ M j Hj) as Hr. pose proof (ma_len _ _ _ M) as Hl.
  unfold displace. destruct (Z.leb_spec 0 (obj !!! j)) as [H0|H0].
  - rewrite list_lookup_total_insert_case by lia. do 2 case_decide; lia.
  - case_decide; lia.
Qed.

Lemma displace_length : length (displace asg obj j) = size.
Proof using M. unfold displace. destruct (0 <=? obj !!! j); rewrite ?length_insert; apply M. Qed.

Lemma matching_update :
  matching size (<[idx := Z.of_nat j]> (displace asg obj j)) (<[j := Z.of_nat idx]> obj).
Proof.
  pose proof displace_length as Hld. destruct M as [Hl Hl' Hr Hr' Hinv].
  split; rewrite ?length_insert; try done.
  - intros i Hi. rewrite list_lookup_total_insert_case, displace_lookup by lia.
    specialize (Hr i Hi). repeat case_decide; lia.
  - intros k Hk. rewrite list_lookup_total_insert_case by lia.
    specialize (Hr' k Hk). case_decide; lia.
  - intros i k Hi Hk. rewrite !list_lookup_total_insert_case, displace_lookup by lia.
    pose proof (Hinv i k Hi Hk). pose proof (Hinv i j Hi Hj). pose proof (Hinv idx k Hidx Hk).
    repeat case_decide; lia.
Qed.

Lemma displace_count :
  nassigned (displace asg obj j) = nassigned asg - is_assigned (obj !!! j).
Proof using M Hj.
  clear Hfree Hidx.
  pose proof (ma_rng' _ _ _ M j Hj) as Hr. unfold displace.
  destruct (Z.leb_spec 0 (obj !!! j)) as [H0|H0].
  - rewrite nassigned_insert by (rewrite (ma_len _ _ _ M); lia).
    assert (asg !!! Z.to_nat (obj !!! j) = Z.of_nat j) as ->
      by (apply (ma_inv _ _ _ M); lia).
    unfold is_assigned. zcases.
  - unfold is_assigned. zcases.
Qed.

Lemma matching_update_count :
  nassigned (<[idx := Z.of_nat j]> (displace asg obj j)) =
    nassigned asg - is_assigned (obj !!! j) + 1 ∧
  nassigned (<[j := Z.of_nat idx]> obj) = nassigned obj - is_assigned (obj !!! j) + 1.
Proof.
  rewrite !nassigned_insert by (rewrite ?displace_length, ?(ma_len' _ _ _ M); done).
  rewrite displace_count, displace_lookup by done.
  unfold is_assigned. split; [case_decide|]; zcases.
Qed.
End matching_facts.

(** ** One phase of the auction *)
Section phase.
Context (m : list (list Z)) (size : nat) (eps : Z) (p0 : list Z) (L C P0 : Z).
Hypothesis Hsize : (2 <= size <= 64)%nat.
Hypothesis Heps : 1 <= eps.
Hypothesis HL : 0 <= L.
Hypothesis Hval : ∀ i j, (i < size)%nat → (j < size)%nat → L <= mget m i j <= L + C.
Hypothesis Hp0len : length p0 = size.
Hypothesis Hp0 : ∀ j, (j < size)%nat → 0 <= p0 !!! j <= P0.
Hypothesis Hbound : 2 * C + P0 + 2 * eps < 2 ^ 31.

(** epsilon-complementary slackness of a person [i] *)
Definition satisfied (prices : list Z) (i : nat) (x : Z) : Prop :=
  ∀ k, (k < size)%nat →
    mget m i k - prices !!! k - eps <= mget m i (Z.to_nat x) - prices !!! Z.to_nat x.

Record phase_inv (s : auction) : Prop := {
  ph_match : matching size (assignment s) (object_assignment s);
  ph_len : length (prices s) = size;
  ph_idx : (unassigned_idx s < size)%nat;
  ph_count : nassigned (assignment s) = assigned_count s;
  ph_count' : nassigned (object_assignment s) = assigned_count s;
  ph_low : ∀ j, (j < size)%nat → p0 !!! j <= prices s !!! j;
  ph_free : ∀ j, (j < size)%nat → object_assignment s !!! j < 0 → prices s !!! j = p0 !!! j;
  ph_cs : ∀ i, (i < size)%nat → 0 <= assignment s !!! i → satisfied (prices s) i (assignment s !!! i);
  ph_up : ∀ k, (k < size)%nat → object_assignment s !!! k < 0 →
    ∀ j, (j < size)%nat → prices s !!! j <= C + P0 + eps;
  ph_up' : ∀ j, (j < size)%nat → prices s !!! j <= 2 * C + P0 + 2 * eps;
}.

Definition bound : Z := 2 * C + P0 + 2 * eps.
Definition potential (s : auction) : Z := zsum ((fun p => bound - p) <$> prices s).

Lemma phase_inv_init :
  phase_inv (mkAuction (replicate size (-1)) (replicate size (-1)) p0 0 0).
Proof.
  assert (∀ i, (i < size)%nat → replicate size (-1) !!! i = -1) as Hrep
    by (intros; by apply lookup_total_replicate_2).
  assert (nassigned (replicate size (-1)) = 0) as Hn.
  { apply nassigned_replicate. }
  assert (0 <= C) by (pose proof (Hval 0 0 ltac:(lia) ltac:(lia)); lia).
  split; simpl.
  - split; rewrite ?length_replicate; try done; intros; rewrite ?Hrep by done; lia.
  - done.
  - lia.
  - done.
  - done.
  - intros. done.
  - intros. done.
  - intros i Hi. rewrite Hrep by done. lia.
  - intros k Hk _ j Hj. specialize (Hp0 j Hj). lia.
  - intros j Hj. specialize (Hp0 j Hj). lia.
Qed.

Lemma potential_bounds s : phase_inv s → 0 <= potential s <= bound * Z.of_nat size.
Proof.
  intros Hs. unfold potential. split.
  - apply zsum_fmap_nonneg, Forall_forall. intros p [j Hj]%list_elem_of_lookup.
    pose proof (lookup_lt_Some _ _ _ Hj) as Hlt. rewrite (ph_len _ Hs) in Hlt.
    pose proof (ph_up' _ Hs j Hlt) as Hu. rewrite (list_lookup_total_correct _ _ _ Hj) in Hu.
    unfold bound. lia.
  - rewrite <- (ph_len _ Hs), <- (zsum_fmap_const bound (prices s)). apply zsum_le, Forall_forall.
    intros p [j Hj]%list_elem_of_lookup.
    pose proof (lookup_lt_Some _ _ _ Hj) as Hlt. rewrite (ph_len _ Hs) in Hlt.
    pose proof (ph_low _ Hs j Hlt) as Hu. pose proof (Hp0 j Hlt).
    rewrite (list_lookup_total_correct _ _ _ Hj) in Hu. lia.
Qed.

(** The price the bidder offers. *)
Section bidding.
Context (s : auction) (idx j : nat) (w : Z).
Hypothesis Hs : phase_inv s.
Hypothesis Hidx : (idx < size)%nat.
Hypothesis Hfree : assignment s !!! idx < 0.
Hypothesis Hj : (j < size)%nat.
Hypothesis Hw : w <= mget m idx j - prices s !!! j.
Hypothesis Hsecond : ∀ k, (k < size)%nat → k ≠ j → mget m idx k - prices s !!! k <= w.

Let newp : Z := prices s !!! j + (mget m idx j - prices s !!! j - w + eps).
Let prices' : list Z := <[j := newp]> (prices s).
Let asg' : list Z := <[idx := Z.of_nat j]> (displace (assignment s) (object_assignment s) j).
Let obj' : list Z := <[j := Z.of_nat idx]> (object_assignment s).

Lemma bid_prices k : (k < size)%nat → prices' !!! k = if decide (j = k) then newp else prices s !!! k.
Proof. intros Hk. apply list_lookup_total_insert_case. rewrite (ph_len _ Hs). done. Qed.

Lemma bid_price_up : prices s !!! j + eps <= newp.
Proof. unfold newp. lia. Qed.

(** The new price exceeds the price of any other object by at most [C + eps]. *)
Lemma bid_price_bound k : (k < size)%nat → k ≠ j → newp <= C + prices s !!! k + eps.
Proof.
  intros Hk Hne. pose proof (Hsecond k Hk Hne). pose proof (Hval idx j Hidx Hj).
  pose proof (Hval idx k Hidx Hk). unfold newp. lia.
Qed.

Lemma bid_slack i : (i < size)%nat → 0 <= asg' !!! i → satisfied prices' i (asg' !!! i).
Proof.
  intros Hi. pose proof (ph_match _ Hs) as M. unfold asg'.
  rewrite list_lookup_total_insert_case by (rewrite (displace_length size) by done; done).
  rewrite (displace_lookup size) by done. pose proof bid_price_up as Hup.
  case_decide as Ei; [|case_decide as Eo].
  - subst i. intros _ k Hk. rewrite Nat2Z.id, !bid_prices by done.
    rewrite (decide_True (P := j = j)) by done. case_decide as Ek; [subst k; lia|].
    pose proof (Hsecond k Hk ltac:(congruence)). unfold newp. lia.
  - lia.
  - intros Ha k Hk. pose proof (ma_rng _ _ _ M i Hi) as Hr.
    assert (Z.to_nat (assignment s !!! i) ≠ j) as Hne.
    { intros E. apply Eo. apply (ma_inv _ _ _ M i j Hi Hj). lia. }
    rewrite !bid_prices by lia. rewrite (decide_False (P := j = Z.to_nat _)) by congruence.
    pose proof (ph_cs _ Hs i Hi Ha k Hk). case_decide; [subst k; lia|done].
Qed.

Lemma bid_inv :
  phase_inv (mkAuction asg' obj' prices' idx
    (assigned_count s - is_assigned (object_assignment s !!! j) + 1)).
Proof.
  pose proof (ph_match _ Hs) as M. pose proof bid_price_up as Hup.
  pose proof (matching_update_count size _ _ idx j M Hidx Hj Hfree) as [Hc Hc'].
  assert (∀ k, (k < size)%nat → obj' !!! k < 0 → k ≠ j ∧ object_assignment s !!! k < 0) as Hob.
  { intros k Hk. unfold obj'. rewrite list_lookup_total_insert_case by (rewrite (ma_len' _ _ _ M); done).
    case_decide; [lia|done]. }
  split; simpl.
  - by apply matching_update.
  - unfold prices'. rewrite length_insert. apply Hs.
  - done.
  - unfold asg'. rewrite Hc, (ph_count _ Hs). done.
  - unfold obj'. rewrite Hc', (ph_count' _ Hs). done.
  - intros k Hk. rewrite bid_prices by done. pose proof (ph_low _ Hs k Hk).
    case_decide; [subst k; lia|done].
  - intros k Hk Hn. destruct (Hob k Hk Hn) as [Hne Hn']. rewrite bid_prices by done.
    rewrite decide_False by done. by apply (ph_free _ Hs).
  - intros i Hi Ha. by apply bid_slack.
  - intros k Hk Hn i Hi. destruct (Hob k Hk Hn) as [Hne Hn']. rewrite bid_prices by done.
    case_decide; [|by apply (ph_up _ Hs k)].
    pose proof (bid_price_bound k Hk Hne). pose proof (ph_free _ Hs k Hk Hn').
    pose proof (Hp0 k Hk). lia.
  - intros i Hi. rewrite bid_prices by done. case_decide; [|by apply (ph_up' _ Hs)].
    assert (∃ k, (k < size)%nat ∧ k ≠ j) as (k & Hk & Hne)
      by (destruct (decide (j = O)); [exists 1%nat|exists O]; lia).
    pose proof (bid_price_bound k Hk Hne).
    assert (∃ u, (u < size)%nat ∧ object_assignment s !!! u < 0) as (u & Hu & Hnu).
    { destruct (nassigned_lt (object_assignment s)) as (u & Hu & Hnu);
        [|rewrite (ma_len' _ _ _ M) in Hu; eauto].
      rewrite (ma_len' _ _ _ M), (ph_count' _ Hs), <- (ph_count _ Hs).
      pose proof (nassigned_bounds (assignment s)). rewrite (ma_len _ _ _ M) in *.
      destruct (Z.eq_dec (nassigned (assignment s)) (Z.of_nat size)) as [E|]; [|lia].
      pose proof (nassigned_full (assignment s) idx). rewrite (ma_len _ _ _ M) in *. lia. }
    pose proof (ph_up _ Hs u Hu Hnu k Hk). lia.
Qed.

Lemma bid_potential n :
  potential (mkAuction asg' obj' prices' idx n) < potential s.
Proof.
  unfold potential, prices'. simpl. rewrite zsum_insert by (rewrite (ph_len _ Hs); done).
  pose proof bid_price_up. lia.
Qed.
End bidding.
Lemma price_gt_INT_MIN s i k :
  phase_inv s → (i < size)%nat → (k < size)%nat → INT_MIN < mget m i k - prices s !!! k.
Proof.
  intros Hs Hi Hk. pose proof (ph_up' _ Hs k Hk). pose proof (Hval i k Hi Hk). unfold INT_MIN. lia.
Qed.

Lemma bid_spec s :
  phase_inv s →
  (∃ r, bid m eps size s = Ok (inr r) ∧ phase_inv r ∧ nassigned (assignment r) = Z.of_nat size) ∨
  (∃ s', bid m eps size s = Ok (inl s') ∧ phase_inv s' ∧ 0 <= potential s' < potential s).
Proof.
  intros Hs. unfold bid. pose proof (ph_match _ Hs) as M.
  pose proof (nassigned_bounds (assignment s)) as Hb. rewrite (ma_len _ _ _ M) in Hb.
  pose proof (ph_count _ Hs) as Hc.
  destruct (Z.ltb_spec (assigned_count s) (Z.of_nat size)) as [Hlt|Hge].
  - right. destruct (nassigned_lt (assignment s)) as (k0 & Hk0 & Hn0);
      [rewrite (ma_len _ _ _ M); lia|]. rewrite (ma_len _ _ _ M) in Hk0.
    destruct (next_unassigned_spec size (assignment s) (unassigned_idx s))
      as (idx & -> & Hidx & Hfree); [lia|apply Hs|eauto|]. simpl.
    destruct (scan_spec (m !!! idx) (prices s) size) as (w & v & j & -> & Hj & -> & Hw & Hsec);
      [lia|intros; by apply price_gt_INT_MIN|]. simpl.
    change (m !!! idx !!! j) with (mget m idx j) in *.
    replace (0 <? mget m idx j - prices s !!! j - w + eps) with true by lia. simpl. rewrite Nat2Z.id.
    pose proof (bid_inv s idx j w Hs Hidx Hfree Hj Hw Hsec) as Hinv.
    eexists. split; [|split; [exact Hinv|]].
    + unfold displace, is_assigned. destruct (0 <=? object_assignment s !!! j); repeat f_equal; lia.
    + split; [by apply (potential_bounds _ Hinv)|]. by apply bid_potential.
  - left. exists s. split; [done|]. split; [done|lia].
Qed.

Lemma auctionStep_spec :
  ∃ a, auctionStep m p0 eps size = Ok a ∧ phase_inv a ∧ nassigned (assignment a) = Z.of_nat size.
Proof.
  unfold auctionStep. replace (Nat.ltb 1 size) with true by (symmetry; apply Nat.ltb_lt; lia). simpl.
  apply (while_loop_spec _ phase_inv potential
    (fun r => phase_inv r ∧ nassigned (assignment r) = Z.of_nat size)).
  - apply bid_spec.
  - apply phase_inv_init.
  - pose proof (potential_bounds _ phase_inv_init) as [_ Hp]. unfold bound in Hp.
    pose proof (Hp0 0 ltac:(lia)). pose proof (Hval 0 0 ltac:(lia) ltac:(lia)). nia.
Qed.
End phase.

(** ** Complete matchings are permutations, and slackness bounds their value *)

(** The value of an assignment of objects to persons. *)
Definition value (m : list (list Z)) (size : nat) (sigma : list nat) : Z :=
  zsum ((fun i => mget m i (sigma !!! i)) <$> seq 0 size).

Lemma seq_lookup_total (l : list nat) n : length l = n → (fun i => l !!! i) <$> seq 0 n = l.
Proof.
  intros <-. apply list_eq. intros i. rewrite list_lookup_fmap.
  destruct (decide (i < length l)%nat) as [Hi|Hi].
  - rewrite lookup_seq_lt by done. simpl. symmetry. by apply list_lookup_lookup_total_lt.
  - rewrite lookup_seq_ge, lookup_ge_None_2 by lia. done.
Qed.

Lemma matching_permutation size asg obj :
  matching size asg obj → nassigned asg = Z.of_nat size →
  nassigned obj = Z.of_nat size → Z.to_nat <$> asg ≡ₚ seq 0 size.
Proof.
  intros [Hl Hl' Hr Hr' Hi] Hn Hn'.
  assert (∀ i, (i < size)%nat → 0 <= asg !!! i) as Hf
    by (intros; apply nassigned_full; rewrite Hl; done).
  assert (∀ i, (i < size)%nat → 0 <= obj !!! i) as Hf'
    by (intros; apply nassigned_full; rewrite Hl'; done).
  apply NoDup_Permutation.
  - apply NoDup_alt. intros i k x Hx Hy. rewrite !list_lookup_fmap in Hx, Hy.
    apply fmap_Some in Hx as (xi & Hxi & ->). apply fmap_Some in Hy as (yk & Hyk & Heq).
    pose proof (lookup_lt_Some _ _ _ Hxi) as Hli. pose proof (lookup_lt_Some _ _ _ Hyk) as Hlk.
    rewrite Hl in Hli, Hlk.
    apply list_lookup_total_correct in Hxi, Hyk. subst xi yk.
    pose proof (Hf i Hli). pose proof (Hf k Hlk). pose proof (Hr i Hli).
    pose proof (proj1 (Hi i (Z.to_nat (asg !!! i)) Hli ltac:(lia)) ltac:(lia)).
    pose proof (proj1 (Hi k (Z.to_nat (asg !!! i)) Hlk ltac:(lia)) ltac:(lia)). lia.
  - apply NoDup_seq.
  - intros x. rewrite elem_of_seq. split.
    + intros (y & -> & [i Hy]%list_elem_of_lookup)%list_elem_of_fmap.
      pose proof (lookup_lt_Some _ _ _ Hy) as Hli. rewrite Hl in Hli.
      apply list_lookup_total_correct in Hy. subst y. pose proof (Hr i Hli). pose proof (Hf i Hli). lia.
    + intros [_ Hx]. simpl in Hx. pose proof (Hr' x Hx). pose proof (Hf' x Hx).
      apply list_elem_of_fmap. exists (Z.of_nat x). split; [lia|].
      pose proof (proj2 (Hi (Z.to_nat (obj !!! x)) x ltac:(lia) Hx) ltac:(lia)) as E.
      rewrite <- E. apply list_elem_of_lookup_total. exists (Z.to_nat (obj !!! x)).
      split; [rewrite Hl; lia|done].
Qed.

Lemma slackness_value m size eps prices asg sigma :
  length asg = size → (∀ i, (i < size)%nat → satisfied m size eps prices i (asg !!! i)) →
  Z.to_nat <$> asg ≡ₚ seq 0 size → sigma ≡ₚ seq 0 size →
  value m size sigma - Z.of_nat size * eps <= value m size (Z.to_nat <$> asg).
Proof.
  intros Hlen Hcs Ha Hsg.
  assert (∀ l, l ≡ₚ seq 0 size → zsum ((fun i => prices !!! (l !!! i)) <$> seq 0 size) =
                                   zsum ((fun k => prices !!! k) <$> seq 0 size)) as Hperm.
  { intros l Hl. trans (zsum ((fun k => prices !!! k) <$> l)).
    - f_equal. trans ((fun k => prices !!! k) <$> ((fun i => l !!! i) <$> seq 0 size)).
      + by rewrite <- list_fmap_compose.
      + rewrite seq_lookup_total; [done|]. apply Permutation_length in Hl. by rewrite length_seq in Hl.
    - by apply zsum_Permutation, fmap_Permutation. }
  assert (zsum ((fun i => (mget m i (sigma !!! i) - eps) + prices !!! ((Z.to_nat <$> asg) !!! i)) <$> seq 0 size) <=
          zsum ((fun i => mget m i ((Z.to_nat <$> asg) !!! i) + prices !!! (sigma !!! i)) <$> seq 0 size)) as Hsum.
  { apply zsum_le, Forall_forall. intros i Hi%elem_of_seq.
    assert (sigma !!! i < size)%nat as Hs.
    { assert (sigma !!! i ∈ seq 0 size) as Hin%elem_of_seq; [|lia]. rewrite <- Hsg.
      apply list_elem_of_lookup_total. exists i. apply Permutation_length in Hsg.
      rewrite length_seq in Hsg. split; [lia|done]. }
    assert ((Z.to_nat <$> asg) !!! i = Z.to_nat (asg !!! i)) as -> by (apply list_lookup_total_fmap; lia).
    pose proof (Hcs i ltac:(lia) (sigma !!! i) Hs). lia. }
  rewrite !zsum_fmap_add, !Hperm in Hsum by done.
  assert (zsum ((fun i => mget m i (sigma !!! i) - eps) <$> seq 0 size) =
          value m size sigma - Z.of_nat size * eps) as E.
  { pose proof (zsum_fmap_add (fun i => mget m i (sigma !!! i)) (fun _ => - eps) (seq 0 size)) as H.
    rewrite zsum_fmap_const, length_seq in H. unfold value, Z.sub in *. lia. }
  unfold value in *. lia.
Qed.

(** ** The epsilon-scaling loop *)

Definition square (size : nat) (m : list (list Z)) : Prop :=
  length m = size ∧ Forall (fun r => length r = size) m.

Lemma square_row size m i : square size m → (i < size)%nat → length (m !!! i) = size.
Proof.
  intros [Hl Hr] Hi. rewrite Forall_forall in Hr. apply Hr, list_elem_of_lookup_total_2. lia.
Qed.

Lemma mget_scale size m i j :
  square size m → (i < size)%nat → (j < size)%nat →
  mget (scale size m) i j = mget m i j * (Z.of_nat size + 1).
Proof.
  intros Hm Hi Hj. unfold mget, scale.
  erewrite list_lookup_total_fmap by (destruct Hm as [-> _]; done).
  erewrite list_lookup_total_fmap; [done|]. by rewrite (square_row size m i Hm Hi).
Qed.

Lemma square_scale size m : square size m → square size (scale size m).
Proof.
  intros [Hl Hr]. split; unfold scale; [by rewrite length_fmap|].
  apply Forall_fmap. eapply Forall_impl; [done|]. intros r Hlr. simpl. by rewrite length_fmap.
Qed.

Lemma value_scale size m l :
  square size m → l ≡ₚ seq 0 size → value (scale size m) size l = (Z.of_nat size + 1) * value m size l.
Proof.
  intros Hm Hl. unfold value.
  assert (∀ i, i ∈ seq 0 size → mget (scale size m) i (l !!! i) = mget m i (l !!! i) * (Z.of_nat size + 1)) as Hi.
  { intros i Hi%elem_of_seq. apply mget_scale; [done|lia|].
    assert (l !!! i ∈ seq 0 size) as Hin%elem_of_seq; [|lia]. rewrite <- Hl.
    apply list_elem_of_lookup_total_2. apply Permutation_length in Hl. rewrite length_seq in Hl. lia. }
  revert Hi. generalize (seq 0 size). intros objs. induction objs as [|i r IH]; intros Hi; zsum_simpl; [lia|].
  rewrite IH by (intros; apply Hi; by right). rewrite (Hi i) by (by left). lia.
Qed.

Lemma foldl_max_le l acc B : acc <= B → Forall (fun x => x <= B) l → foldl Z.max acc l <= B.
Proof. intros Ha Hl. revert acc Ha. induction Hl; intros; simpl; [done|]. apply IHHl. lia. Qed.

Lemma max_entry_le size m B :
  square size m → INT_MIN <= B → (∀ i j, (i < size)%nat → (j < size)%nat → mget m i j <= B) →
  max_entry m <= B.
Proof.
  intros Hm HB Hv. apply foldl_max_le; [done|]. apply Forall_forall. intros x Hx.
  apply list_elem_of_In, in_concat in Hx as (row & Hrow & Hx).
  apply list_elem_of_In, list_elem_of_lookup_total in Hrow as (i & Hi & <-).
  apply list_elem_of_In, list_elem_of_lookup_total in Hx as (j & Hj & <-).
  destruct Hm as [Hl Hr] eqn:E. rewrite Hl in Hi.
  rewrite (square_row size m i Hm Hi) in Hj. by apply Hv.
Qed.

(** With [eps <= threshold k] at most [k] scaling phases remain. *)
Definition threshold (k : nat) : Z := (3 * 5 ^ Z.of_nat k - 1) / 2.

Lemma threshold_step k eps :
  1 < eps → eps <= threshold (S k) → Z.quot (eps + 2) 5 <= threshold k.
Proof.
  intros H1 H2. unfold threshold in *. rewrite Nat2Z.inj_succ, Z.pow_succ_r in H2 by lia.
  rewrite Z.quot_div_nonneg by lia.
  assert (Z.odd (5 ^ Z.of_nat k) = true) as Ho.
  { clear. induction k as [|k IH]; [done|]. rewrite Nat2Z.inj_succ, Z.pow_succ_r, Z.odd_mul, IH by lia. done. }
  apply Z.odd_spec in Ho as [q Hq]. rewrite Hq in *.
  replace (3 * (5 * (2 * q + 1)) - 1) with ((15 * q + 7) * 2) in H2 by lia.
  replace (3 * (2 * q + 1) - 1) with ((3 * q + 1) * 2) by lia.
  rewrite Z.div_mul in * by lia. Z.to_euclidean_division_equations; lia.
Qed.

Section scaling.
Context (m : list (list Z)) (size : nat) (L C : Z).
Hypothesis Hsize : (2 <= size <= 64)%nat.
Hypothesis HL : 0 <= L.
Hypothesis Hval : ∀ i j, (i < size)%nat → (j < size)%nat → L <= mget m i j <= L + C.
Hypothesis HC : C <= 2 ^ 26.

(** The prices a run of [k] phases can add. *)
Definition headroom (k : nat) : Z := Z.of_nat k * (2 * C + 2 * 14648437).

Definition scaling_inv (s : Z * list Z) : Prop :=
  length (snd s) = size ∧ ∃ k, (k ≤ 10)%nat ∧ fst s <= threshold k ∧
  ∀ j, (j < size)%nat → 0 <= snd s !!! j <= headroom (10 - k).

Lemma threshold_le k : (k ≤ 10)%nat → threshold k <= 14648437.
Proof.
  intros Hk. unfold threshold.
  assert (5 ^ Z.of_nat k <= 5 ^ 10) by (apply Z.pow_le_mono_r; lia).
  apply Z.div_le_upper_bound; lia.
Qed.

Lemma scaling_spec eps :
  eps <= 10737418 → ∃ p, while_loop (scaling_body m size) (eps, replicate size 0) = Ok p ∧
    length p = size ∧ ∀ j, (j < size)%nat → 0 <= p !!! j <= headroom 10.
Proof.
  intros Heps. assert (0 <= C) as HC0 by (pose proof (Hval 0 0 ltac:(lia) ltac:(lia)); lia).
  apply (while_loop_spec _ scaling_inv (fun s => Z.max 0 (fst s))
    (fun p => length p = size ∧ ∀ j, (j < size)%nat → 0 <= p !!! j <= headroom 10)).
  - intros [e p] (Hl & k & Hk & He & Hp). simpl in *. unfold scaling_body.
    destruct (Z.ltb_spec 1 e) as [H1|H1].
    + right. destruct k as [|k]; [change (threshold 0) with 1 in He; lia|].
      pose proof (threshold_le (S k) Hk).
      assert (headroom (10 - S k) + (2 * C + 2 * 14648437) = headroom (10 - k)) as Hh
        by (unfold headroom; replace (10 - k)%nat with (S (10 - S k)) by lia; rewrite Nat2Z.inj_succ; ring).
      assert (headroom (10 - S k) <= 9 * (2 * C + 2 * 14648437))
        by (apply Z.mul_le_mono_nonneg_r; lia).
      destruct (auctionStep_spec m size e p L C (headroom (10 - S k))) as (a & -> & Ha & _);
        [done|lia|done|done|done|done|lia|].
      simpl. eexists. split; [done|]. split.
      * split; [apply Ha|]. exists k. split; [lia|]. split; [by apply threshold_step|].
        intros j Hj. simpl. pose proof (ph_up' _ _ _ _ _ _ _ Ha j Hj).
        pose proof (ph_low _ _ _ _ _ _ _ Ha j Hj). specialize (Hp j Hj). lia.
      * simpl. rewrite Z.quot_div_nonneg by lia. Z.to_euclidean_division_equations; lia.
    + left. exists p. split; [done|]. split; [done|]. intros j Hj. specialize (Hp j Hj).
      assert (headroom (10 - k) <= headroom 10) by (apply Z.mul_le_mono_nonneg_r; lia). lia.
  - split; [apply length_replicate|]. exists 10%nat. split; [done|]. split; [change (threshold 10) with 14648437; simpl; lia|].
    intros j Hj. simpl. rewrite lookup_total_replicate_2 by done. unfold headroom. lia.
  - simpl. lia.
Qed.
End scaling.

(** The whole algorithm: scaled phases with a shrinking [eps], then the last one. *)
Lemma auction_solves value_matrix size L C :
  (size ≤ 64)%nat → square size value_matrix →
  0 <= L → (∀ i j, (i < size)%nat → (j < size)%nat → L <= mget value_matrix i j <= L + C) →
  (Z.of_nat size + 1) * C <= 2 ^ 26 → (Z.of_nat size + 1) * (L + C) <= 2 ^ 28 →
  ∃ asg obj, auctionOptimization value_matrix size = Ok (asg, obj) ∧
    Z.to_nat <$> asg ≡ₚ seq 0 size ∧ matching size asg obj ∧
    Forall (fun a => 0 <= a < Z.of_nat size) asg ∧
    ∀ sigma, sigma ≡ₚ seq 0 size →
      value value_matrix size sigma <= value value_matrix size (Z.to_nat <$> asg).
Proof.
  intros Hsz Hm HL Hv HC HLC. unfold auctionOptimization.
  destruct (Nat.eqb_spec size 0) as [->|H0]; [|destruct (Nat.eqb_spec size 1) as [->|H1]].
  - exists [], []. split; [done|]. split; [done|]. split; [split; try done; intros; lia|]. split; [constructor|].
    intros sigma Hs. by apply Permutation_nil_r in Hs as ->.
  - exists [0], [0]. split; [done|]. split; [done|]. split.
    + split; try done; intros; destruct i || destruct j; simpl; try destruct j; simpl; lia.
    + split; [repeat constructor; lia|]. intros sigma Hs. unfold value. simpl. apply Permutation_singleton_r in Hs as ->. done.
  - assert (∀ i j, (i < size)%nat → (j < size)%nat →
      (Z.of_nat size + 1) * L <= mget (scale size value_matrix) i j <= (Z.of_nat size + 1) * L + (Z.of_nat size + 1) * C) as Hv'.
    { intros i j Hi Hj. rewrite mget_scale by done. specialize (Hv i j Hi Hj). nia. }
    assert (0 <= C) as HC0 by (pose proof (Hv 0 0 ltac:(lia) ltac:(lia))%nat; lia).
    set (C' := (Z.of_nat size + 1) * C) in *. set (L' := (Z.of_nat size + 1) * L) in *.
    assert (0 <= L') by (unfold L'; nia). assert (L' + C' <= 2 ^ 28) as HLC' by (unfold L', C'; lia). set (m := scale size value_matrix) in *.
    assert (square size m) as Hsq by by apply square_scale.
    pose proof (max_entry_le size m (L' + C') Hsq) as Hmax.
    assert (max_entry m <= L' + C') as HmaxC.
    { apply Hmax; [unfold INT_MIN; lia|]. intros; by apply Hv'. }
    destruct (scaling_spec m size L' C' ltac:(lia) ltac:(lia) Hv' HC (Z.quot (max_entry m + 12) 25))
      as (p & -> & Hpl & Hp).
    { pose proof (Z.quot_le_mono (max_entry m + 12) (2 ^ 28 + 12) 25 ltac:(lia) ltac:(lia)) as Hq.
      change (Z.quot (2 ^ 28 + 12) 25) with 10737418 in Hq. done. }
    simpl. destruct (auctionStep_spec m size 1 p L' C' (headroom C' 10)) as (a & -> & Ha & Hn);
      [lia|lia|done|done|done|done|unfold headroom; lia|].
    simpl. exists (assignment a), (object_assignment a). split; [done|].
    pose proof (ph_match _ _ _ _ _ _ _ Ha) as M.
    assert (Z.to_nat <$> assignment a ≡ₚ seq 0 size) as Hperm.
    { apply (matching_permutation _ _ _ M Hn).
      by rewrite (ph_count' _ _ _ _ _ _ _ Ha), <- (ph_count _ _ _ _ _ _ _ Ha). }
    assert (∀ i, (i < size)%nat → 0 <= assignment a !!! i) as Hfull
      by (intros; apply nassigned_full; rewrite (ma_len _ _ _ M); done).
    split; [done|]. split; [done|]. split.
    { apply Forall_forall. intros x (i & Hi & <-)%list_elem_of_lookup_total. rewrite (ma_len _ _ _ M) in Hi.
      specialize (Hfull i Hi). pose proof (ma_rng _ _ _ M i Hi). lia. }
    intros sigma Hs.
    pose proof (slackness_value m size 1 (prices a) (assignment a) sigma (ma_len _ _ _ M)) as Hsl.
    unfold m in Hsl. rewrite (value_scale size value_matrix sigma Hm Hs), (value_scale _ _ _ Hm Hperm) in Hsl.
    fold m in Hsl.
    specialize (Hsl ltac:(intros; apply (ph_cs _ _ _ _ _ _ _ Ha); auto) Hperm Hs). nia.
Qed.

(** C17: the auction algorithm solves the assignment problem.  For a square matrix of
    at most 64 rows with entries in [L, L + C], where [(size + 1) * C <= 2 ^ 26] and
    [(size + 1) * (L + C) <= 2 ^ 28], [auctionOptimization] terminates without failing any of its assertions, the two
    arrays it returns are inverse permutations, and the total value of the
    assignment is at least that of every other permutation. *)
Theorem auction_is_optimal value_matrix size L C :
  (size ≤ 64)%nat → square size value_matrix →
  0 <= L → (∀ i j, (i < size)%nat → (j < size)%nat → L <= mget value_matrix i j <= L + C) →
  (Z.of_nat size + 1) * C <= 2 ^ 26 → (Z.of_nat size + 1) * (L + C) <= 2 ^ 28 →
  ∃ asg obj, auctionOptimization value_matrix size = Ok (asg, obj) ∧
    Z.to_nat <$> asg ≡ₚ seq 0 size ∧ matching size asg obj ∧
    Forall (fun a => 0 <= a < Z.of_nat size) asg ∧
    ∀ sigma, sigma ≡ₚ seq 0 size →
      value value_matrix size sigma <= value value_matrix size (Z.to_nat <$> asg).
Proof. apply auction_solves. Qed.

Lemma auction_is_optimal_witness :
  ∃ asg obj, auctionOptimization [[10; 5; 5]; [9; 8; 1]; [8; 7; 2]] 3 = Ok (asg, obj) ∧
    Z.to_nat <$> asg ≡ₚ seq 0 3 ∧ matching 3 asg obj ∧
    Forall (fun a => 0 <= a < Z.of_nat 3) asg ∧
    ∀ sigma, sigma ≡ₚ seq 0 3 →
      value [[10; 5; 5]; [9; 8; 1]; [8; 7; 2]] 3 sigma <=
      value [[10; 5; 5]; [9; 8; 1]; [8; 7; 2]] 3 (Z.to_nat <$> asg).
Proof.
  apply (auction_is_optimal [[10; 5; 5]; [9; 8; 1]; [8; 7; 2]] 3 0 10).
  - lia.
  - split; [done|]. repeat constructor.
  - lia.
  - intros i j Hi Hj.
    do 3 (destruct i as [|i]; [do 3 (destruct j as [|j]; [vm_compute; split; discriminate|]); lia|]). lia.
  - lia.
  - lia.
Defined.

End LinearAssignment.
