(* ===== verification/GoalSlices.v ===== *)
(** * Goals and slices

    Models [detail::Slice] and [Goal] (src/common/goal.h, src/common/goal.cc).  A
    slice keeps the labels of all its parts in one vector [data_] and the length of
    every part in [part_size_]; a part is accessed through a [vector_range] window
    wrapped in a [flat_map] from label handles to copy counts. *)

From S2P Require Import Prelude FlatContainers MediaLabel SliceTraits Assignment.

(** ** Labels: [flat_map<MediaLabel, uint16_t>] *)
Module Labels.

Abbreviation t := (list (Z * Z)).

Definition less : Z * Z → Z * Z → bool := FlatMap.value_less Z.ltb.

(** [labels.insert(labels.end(), value)] *)
Definition insert_end (value : Z * Z) (l : t) : t := fst (FlatSet.insert_hint less (length l) value l).

(** [labels[key] = value]; the mapped type is [uint16_t]. *)
Definition assign (key value : Z) (l : t) : t := FlatMap.assign Z.ltb 0 key (u16 value) l.

(** [Slice::countLabels] *)
Definition countLabels (l : t) : Z := zsum (snd <$> l).

(** The inner [while] of [makeLabelsUnion]: copy the labels of [second] that come
    before [first_label]. *)
Fixpoint union_second (first_label : Z) (second result : t) (second_sum merged_sum : Z) :
    res (t * t * Z * Z) :=
  match second with
  | [] => Ok ([], result, second_sum, merged_sum)
  | (l, c) :: second' =>
      if first_label >? l then
        assertion (negb (l =? kWildcard))
          (union_second first_label second' (insert_end (l, c) result) (second_sum + c) (merged_sum + c))
      else Ok (second, result, second_sum, merged_sum)
  end.

(** The [for] loop over [first]; the result is the rest of [second], the labels
    collected so far and the three sums. *)
Fixpoint union_first (first second result : t) (first_sum second_sum merged_sum : Z) :
    res (t * t * Z * Z * Z) :=
  match first with
  | [] => Ok (second, result, first_sum, second_sum, merged_sum)
  | (l, c) :: first' =>
      if l =? kWildcard then Ok (second, result, first_sum + c, second_sum, merged_sum)
      else
        '(second, result, second_sum, merged_sum) ← union_second l second result second_sum merged_sum;
        match second with
        | [] => union_first first' second (insert_end (l, c) result) (first_sum + c) second_sum (merged_sum + c)
        | (l2, c2) :: second' =>
            if l <? l2 then
              union_first first' second (insert_end (l, c) result) (first_sum + c) second_sum (merged_sum + c)
            else
              union_first first' second' (insert_end (l, Z.max c c2) result)
                (first_sum + c) (second_sum + c2) (merged_sum + Z.max c c2)
        end
  end.

(** The last [while] of [makeLabelsUnion]. *)
Fixpoint union_rest (second result : t) (second_sum merged_sum : Z) : t * Z * Z :=
  match second with
  | [] => (result, second_sum, merged_sum)
  | (l, c) :: second' =>
      if negb (l =? kWildcard)
      then union_rest second' (insert_end (l, c) result) (second_sum + c) (merged_sum + c)
      else union_rest second' result (second_sum + c) merged_sum
  end.

Definition makeLabelsUnion (first second : t) : res t :=
  '(second, result, first_sum, second_sum, merged_sum) ← union_first first second [] 0 0 0;
  let '(result, second_sum, merged_sum) := union_rest second result second_sum merged_sum in
  let wildcards := Z.max first_sum second_sum - merged_sum in
  Ok (if 0 <? wildcards then assign kWildcard wildcards result else result).

(** [labelsDistance]: the inner [while], the [for] loop, the last [while]. *)
Fixpoint distance_second (first_label : Z) (second : t) (ret : Z) : t * Z :=
  match second with
  | [] => ([], ret)
  | (l, c) :: second' =>
      if first_label >? l then distance_second first_label second' (ret + c) else (second, ret)
  end.

Fixpoint distance_first (first second : t) (ret : Z) : t * Z :=
  match first with
  | [] => (second, ret)
  | (l, c) :: first' =>
      let '(second, ret) := distance_second l second ret in
      match second with
      | [] => distance_first first' second (ret + c)
      | (l2, c2) :: second' =>
          if l <? l2 then distance_first first' second (ret + c)
          else distance_first first' second' (ret + Z.abs (c - c2))
      end
  end.

Definition labelsDistance (first second : t) : Z :=
  let '(second, ret) := distance_first first second 0 in
  fold_left (fun ret x => ret + snd x) second ret.

End Labels.

(** ** detail::Slice *)
Module Slice.

Definition kMaxPartsCount : Z := 64.

Record t := mk {
  type_ : Z;
  part_size_ : list nat;
  data_ : Labels.t;
}.

#[global] Instance t_inhabited : Inhabited t := populate (mk 0 [] []).

(** [type_.expectedParts()]; every slice has a valid type because the constructor
    asserts it. *)
Definition type_size (type : Z) : nat :=
  match SliceType.expectedParts type with Ok n => Z.to_nat n | _ => O end.
Definition size (s : t) : nat := type_size (type_ s).

(** [explicit Slice(Type type)] *)
Definition make (type : Z) : res t :=
  n ← SliceType.expectedParts type;
  Ok (mk type (replicate (Z.to_nat n) O) []).

Definition getPartOffset (part : nat) (s : t) : nat := sum_list (take part (part_size_ s)).

(** [operator[](part)] *)
Definition part (i : nat) (s : t) : Labels.t :=
  VectorRange.view (data_ s) (getPartOffset i s) (part_size_ s !!! i).

(** A mutation of the [PartProxy] of part [i]: the window of the part in [data_] and
    its length in [part_size_] are replaced (see [vector_range_locality]). *)
Definition write_part (i : nat) (labels : Labels.t) (s : t) : t :=
  mk (type_ s)
     (<[i := VectorRange.store_size 16 (length labels)]> (part_size_ s))
     (splice (data_ s) (getPartOffset i s) (part_size_ s !!! i) labels).

(** Iteration with [SliceIterator]: part numbers and offsets advance together. *)
Fixpoint iterate_parts (sizes : list nat) (offset : nat) (data : Labels.t) : list Labels.t :=
  match sizes with
  | [] => []
  | n :: sizes' => VectorRange.view data offset n :: iterate_parts sizes' (offset + n) data
  end.
Definition parts (s : t) : list Labels.t := iterate_parts (take (size s) (part_size_ s)) 0 (data_ s).

Definition getExpectedCopies (s : t) : Z := zsum (snd <$> data_ s).

Definition isValid (s : t) : bool :=
  SliceType.isValid (type_ s) &&
  forallb (fun entry => 0 <? snd entry) (data_ s) &&
  forallb (fun part => Nat.ltb 0 (length part)) (parts s).

(** [operator==] *)
Definition eqb (a b : t) : bool := (type_ a =? type_ b) && bool_decide (data_ a = data_ b).

(** The cost matrix of [mergeIn]; the subtraction is unsigned and its result is
    stored in an [int]. *)
Definition kMaxExpectedCopies : Z := 128.

Fixpoint cost_row (local_part : Labels.t) (others : list Labels.t) : res (list Z) :=
  match others with
  | [] => Ok []
  | other_part :: others' =>
      tmp_union ← Labels.makeLabelsUnion local_part other_part;
      row ← cost_row local_part others';
      Ok (i32 (10 * kMaxExpectedCopies - Labels.labelsDistance local_part tmp_union) :: row)
  end.

Fixpoint cost_matrix (locals others : list Labels.t) : res (list (list Z)) :=
  match locals with
  | [] => Ok []
  | local_part :: locals' =>
      row ← cost_row local_part others;
      rows ← cost_matrix locals' others;
      Ok (row :: rows)
  end.

(** The second loop of [mergeIn]: the union of every part with the part of the other
    slice it was assigned. *)
Fixpoint merge_parts (locals : list Labels.t) (other : t) (assignment : list Z) : res (list Labels.t) :=
  match locals, assignment with
  | local_part :: locals', a :: assignment' =>
      assertion ((0 <=? a) && (a <? Z.of_nat (size other)))
        (tmp_union ← Labels.makeLabelsUnion local_part (part (Z.to_nat a) other);
         rest ← merge_parts locals' other assignment';
         Ok (tmp_union :: rest))
  | _, _ => Ok []
  end.

Definition mergeIn (s other : t) : res t :=
  assertion (type_ s =? type_ other)
    (assertion (Nat.eqb (size s) (size other))
      (cost ← cost_matrix (parts s) (parts other);
       '(assignment, _) ← LinearAssignment.auctionOptimization cost (size s);
       result ← merge_parts (parts s) other assignment;
       Ok (mk (type_ s)
              ((fun l => VectorRange.store_size 16 (length l)) <$> result)
              (mjoin result)))).

End Slice.

(** ** Goal *)
Module GoalModel.

Record t := mk {
  name_ : string;
  goal_slices_ : list Slice.t;
}.

(** [SliceCompare] *)
Definition slice_less (a b : Slice.t) : bool := Slice.type_ a <? Slice.type_ b.

Definition find (slice_type : Z) (g : t) : option nat :=
  FlatSet.find_by (fun s => Slice.type_ s <? slice_type) (fun s => slice_type <? Slice.type_ s)
    (goal_slices_ g).

(** The slice [find] points at. *)
Definition find_slice (slice_type : Z) (g : t) : option Slice.t :=
  i ← find slice_type g; goal_slices_ g !! i.

Definition insert_slice (s : Slice.t) (g : t) : t :=
  mk (name_ g) (fst (fst (FlatSet.insert slice_less s (goal_slices_ g)))).

Definition setSlice (s : Slice.t) (g : t) : t :=
  match find (Slice.type_ s) g with
  | Some i => mk (name_ g) (<[i := s]> (goal_slices_ g))
  | None => insert_slice s g
  end.

(** [operator[](type)] on a mutable goal: the goal (with an empty slice inserted when
    there was none) and the index of the slice. *)
Definition subscript (slice_type : Z) (g : t) : res (t * nat) :=
  match find slice_type g with
  | Some i => Ok (g, i)
  | None =>
      s ← Slice.make slice_type;
      let '(slices, i, _) := FlatSet.insert slice_less s (goal_slices_ g) in
      Ok (mk (name_ g) slices, i)
  end.

(** [operator[](type) const] *)
Definition subscript_const (slice_type : Z) (g : t) : res Slice.t :=
  match find_slice slice_type g with Some s => Ok s | None => Throw end.

Definition size (g : t) : nat := length (goal_slices_ g).

Definition getExpectedCopies (g : t) : Z := zsum (Slice.getExpectedCopies <$> goal_slices_ g).

Definition isXor (g : t) : bool :=
  existsb (fun s => (SliceType.kXor2 <=? Slice.type_ s) && (Slice.type_ s <=? SliceType.kXor9))
    (goal_slices_ g).

(** [Goal::mergeIn]: one slice of the other goal at a time. *)
Fixpoint merge_slices (others : list Slice.t) (g : t) : res t :=
  match others with
  | [] => Ok g
  | other_slice :: others' =>
      assertion (Slice.isValid other_slice)
        (match find (Slice.type_ other_slice) g with
         | None => merge_slices others' (insert_slice other_slice g)
         | Some i =>
             let current_element := goal_slices_ g !!! i in
             assertion (Nat.eqb (Slice.size current_element) (Slice.size other_slice))
               (merged ← Slice.mergeIn current_element other_slice;
                merge_slices others' (mk (name_ g) (<[i := merged]> (goal_slices_ g))))
         end)
  end.

Definition mergeIn (g other_goal : t) : res t := merge_slices (goal_slices_ other_goal) g.

End GoalModel.

(** ** Facts on labels *)

(** The number of copies required on a label. *)
Fixpoint cnt (k : Z) (l : Labels.t) : Z :=
  match l with
  | [] => 0
  | (k', c) :: l' => if k =? k' then c else cnt k l'
  end.

(** Strictly increasing labels, label handles and counts in their 16-bit range. *)
Definition labels_wf (l : Labels.t) : Prop :=
  fmap_wf Z.ltb l ∧ Forall (fun x => 0 <= fst x <= kWildcard ∧ 0 <= snd x < 2 ^ 16) l.

Definition below (l1 l2 : Labels.t) : Prop := ∀ x y, x ∈ l1 → y ∈ l2 → fst x < fst y.

#[global] Instance less_swo : StrictWeakOrder Labels.less := value_less_swo Z.ltb.

Lemma labels_wf_nil : labels_wf [].
Proof. split; constructor. Qed.

Lemma labels_wf_app l1 l2 : labels_wf (l1 ++ l2) ↔ labels_wf l1 ∧ labels_wf l2 ∧ below l1 l2.
Proof.
  unfold labels_wf, fmap_wf, below. rewrite (ssorted_app Labels.less), Forall_app.
  unfold Labels.less, FlatMap.value_less. setoid_rewrite Z.ltb_lt. tauto.
Qed.

Lemma labels_wf_cons k c l :
  labels_wf ((k, c) :: l) ↔
  0 <= k <= kWildcard ∧ 0 <= c < 2 ^ 16 ∧ labels_wf l ∧ (∀ y, y ∈ l → k < fst y).
Proof.
  change ((k, c) :: l) with ([(k, c)] ++ l). rewrite labels_wf_app. unfold labels_wf at 1, below.
  rewrite Forall_singleton. simpl. split.
  - intros ((_ & Hk & Hc) & Hl & Hb). refine (conj Hk (conj Hc (conj Hl _))).
    intros y Hy. apply (Hb (k, c)); [by left|done].
  - intros (Hk & Hc & Hl & Hb). split; [|split; [done|]].
    + split; [repeat constructor|done].
    + intros x y ->%list_elem_of_singleton Hy. by apply Hb.
Qed.

Lemma cnt_nonneg k l : labels_wf l → 0 <= cnt k l.
Proof.
  induction l as [|[k' c] l IH]; simpl; [lia|].
  intros (_ & ? & ? & _)%labels_wf_cons. zcases. auto.
Qed.

Lemma cnt_absent k l : (∀ y, y ∈ l → fst y ≠ k) → cnt k l = 0.
Proof.
  induction l as [|[k' c] l IH]; intros H; simpl; [done|].
  destruct (Z.eqb_spec k k') as [->|_]; [by destruct (H (k', c)); [left|]|].
  apply IH. intros y Hy. apply H. by right.
Qed.

Lemma cnt_app k l1 l2 : below l1 l2 → cnt k (l1 ++ l2) = cnt k l1 + cnt k l2.
Proof.
  induction l1 as [|[k' c] l1 IH]; intros Hb; simpl; [done|].
  destruct (Z.eqb_spec k k') as [->|_].
  - rewrite (cnt_absent k' l2); [lia|]. intros y Hy E.
    specialize (Hb (k', c) y ltac:(by left) Hy). simpl in Hb. lia.
  - apply IH. intros x y Hx Hy. apply Hb; [by right|done].
Qed.

Lemma countLabels_nil : Labels.countLabels [] = 0.
Proof. done. Qed.
Lemma countLabels_cons k c l : Labels.countLabels ((k, c) :: l) = c + Labels.countLabels l.
Proof. done. Qed.
Lemma countLabels_app l1 l2 :
  Labels.countLabels (l1 ++ l2) = Labels.countLabels l1 + Labels.countLabels l2.
Proof. unfold Labels.countLabels. by rewrite fmap_app, zsum_app. Qed.

Lemma countLabels_nonneg l : labels_wf l → 0 <= Labels.countLabels l.
Proof.
  induction l as [|[k c] l IH]; [done|]. rewrite countLabels_cons.
  intros (_ & ? & ? & _)%labels_wf_cons. specialize (IH ltac:(done)). lia.
Qed.

Lemma insert_end_spec k c l :
  labels_wf l → (∀ y, y ∈ l → fst y < k) → Labels.insert_end (k, c) l = l ++ [(k, c)].
Proof.
  intros [Hs _] Hk. unfold Labels.insert_end.
  rewrite (fs_insert_hint Labels.less), (fs_insert_at Labels.less _ _ (length l)); try done.
  - simpl. unfold vinsert. by rewrite firstn_all, drop_all.
  - intros x _ Hx%list_elem_of_lookup_2. apply Z.ltb_lt. by apply Hk.
  - intros x Hx. by rewrite lookup_ge_None_2 in Hx.
Qed.

(** The vector of counts over all label handles. *)
Definition handles : list Z := seqZ 0 (kWildcard + 1).
Arguments handles : simpl never.

Lemma zsum_indicator k0 c n : 0 <= k0 < n → zsum ((fun k => if k =? k0 then c else 0) <$> seqZ 0 n) = c.
Proof.
  intros Hk. rewrite (zsum_seqZ_telescope _ (fun i => if k0 <? i then c else 0)); try lia; [..|intros i Hi].
  - zcases.
  - zcases.
  - zcases.
Qed.

Lemma zsum_fmap_ext {A} (f g : A → Z) l : (∀ x, x ∈ l → f x = g x) → zsum (f <$> l) = zsum (g <$> l).
Proof. intros H. f_equal. apply list_fmap_ext. intros i x Hx. apply H. by eapply list_elem_of_lookup_2. Qed.

Lemma countLabels_cnt_upto n l :
  labels_wf l → kWildcard < n → Labels.countLabels l = zsum ((fun k => cnt k l) <$> seqZ 0 n).
Proof.
  intros Hl Hn. induction l as [|[k c] l IH].
  - rewrite countLabels_nil, (zsum_fmap_const 0). lia.
  - apply labels_wf_cons in Hl as (Hk & Hc & Hl & Hb). rewrite countLabels_cons, IH by done.
    rewrite <- (zsum_indicator k c n) at 1 by lia.
    rewrite <- zsum_fmap_add. apply zsum_fmap_ext. intros x _. cbn [cnt].
    destruct (Z.eqb_spec x k) as [->|]; [|lia]. rewrite (cnt_absent k l); [lia|].
    intros y Hy E. specialize (Hb y Hy). lia.
Qed.

Lemma countLabels_cnt l : labels_wf l → Labels.countLabels l = zsum ((fun k => cnt k l) <$> handles).
Proof. intros Hl. apply countLabels_cnt_upto; [done|lia]. Qed.

Lemma countLabels_le l1 l2 :
  labels_wf l1 → labels_wf l2 → (∀ k, cnt k l1 <= cnt k l2) →
  Labels.countLabels l1 <= Labels.countLabels l2.
Proof.
  intros H1 H2 H. rewrite !countLabels_cnt by done. apply zsum_le, Forall_forall. auto.
Qed.

(** ** makeLabelsUnion *)

(** The labels other than the wildcard. *)
Definition proper (l : list (Z * Z)) : list (Z * Z) := filter (fun x => fst x ≠ kWildcard) l.

Lemma union_second_spec fl second result ss ms :
  labels_wf second → labels_wf result → below result second →
  (∀ x, x ∈ result → fst x < fl) → fl <= kWildcard →
  ∃ pre post, second = pre ++ post ∧
    Labels.union_second fl second result ss ms =
      Ok (post, result ++ pre, ss + Labels.countLabels pre, ms + Labels.countLabels pre) ∧
    (∀ x, x ∈ pre → fst x < fl) ∧ (∀ x, x ∈ post → fl <= fst x).
Proof.
  intros Hs Hr Hb Hfl Hw. revert result ss ms Hr Hb Hfl.
  induction second as [|[l c] second IH]; intros result ss ms Hr Hb Hfl; simpl.
  - exists [], []. rewrite (app_nil_r result), countLabels_nil, !Z.add_0_r.
    split_and!; [done|done|by intros ? ?%elem_of_nil..].
  - pose proof Hs as (Hl & Hc & Hs' & Hgt)%labels_wf_cons. rewrite Z.gtb_ltb.
    destruct (Z.ltb_spec l fl) as [Hlt|Hge].
    + replace (l =? kWildcard) with false by (symmetry; apply Z.eqb_neq; lia). simpl.
      assert (∀ y, y ∈ result → fst y < l) as Hrl
        by (intros y Hy; apply (Hb y (l, c)); [done|by left]).
      rewrite insert_end_spec by done.
      destruct (IH Hs' (result ++ [(l, c)]) (ss + c) (ms + c)) as (pre & post & -> & E & Hpre & Hpost).
      * apply labels_wf_app. split; [done|]. split.
        { apply labels_wf_cons. split_and!; [lia..|apply labels_wf_nil|by intros ? ?%elem_of_nil]. }
        intros x y Hx ->%list_elem_of_singleton. by apply Hrl.
      * intros x y [Hx| ->%list_elem_of_singleton]%elem_of_app Hy; [|by apply Hgt].
        apply Hb; [done|by right].
      * intros x [Hx| ->%list_elem_of_singleton]%elem_of_app; [by apply Hfl|done].
      * exists ((l, c) :: pre), post. split; [done|]. rewrite E, countLabels_cons, !Z.add_assoc.
        rewrite <- (assoc_L (++)). split; [done|]. split; [|done].
        intros x [->|Hx]%elem_of_cons; [done|by apply Hpre].
    + exists [], ((l, c) :: second). rewrite (app_nil_r result), countLabels_nil, !Z.add_0_r.
      split; [done|]. split; [done|]. split; [by intros ? ?%elem_of_nil|].
      intros x [->|Hx]%elem_of_cons; [done|]. specialize (Hgt x Hx). lia.
Qed.

Lemma cnt_app_lt k l1 l2 : (∀ x, x ∈ l1 → fst x < k) → cnt k (l1 ++ l2) = cnt k l2.
Proof.
  intros H. induction l1 as [|[k' c] l1 IH]; simpl; [done|].
  pose proof (H (k', c) ltac:(by left)) as Hk. simpl in Hk.
  replace (k =? k') with false by (symmetry; apply Z.eqb_neq; lia).
  apply IH. intros x Hx. apply H. by right.
Qed.

Lemma cnt_app_gt k l1 l2 : (∀ x, x ∈ l2 → k < fst x) → cnt k (l1 ++ l2) = cnt k l1.
Proof.
  intros H. induction l1 as [|[k' c] l1 IH]; simpl; [|by destruct (k =? k')].
  apply cnt_absent. intros y Hy E. specialize (H y Hy). lia.
Qed.

Lemma cnt_gt k l : (∀ x, x ∈ l → k < fst x) → cnt k l = 0.
Proof. intros H. by rewrite <- (app_nil_l l), cnt_app_gt. Qed.

(** One iteration of the loop over [first]: [extra] is the label of [second] equal to
    the current one, if there is one. *)
Lemma union_step_cnt k l c pre extra mid' first' pre' :
  labels_wf pre → 0 <= c → (∀ x, x ∈ pre → fst x < l) →
  (extra = [] ∨ ∃ c2, extra = [(l, c2)]) →
  (∀ x, x ∈ mid' → l < fst x) → (∀ x, x ∈ first' → l < fst x) → (∀ x, x ∈ pre' → l < fst x) →
  cnt k mid' = Z.max (cnt k first') (cnt k pre') →
  cnt k (pre ++ (l, Z.max c (Labels.countLabels extra)) :: mid') =
  Z.max (cnt k ((l, c) :: first')) (cnt k (pre ++ extra ++ pre')).
Proof.
  intros Hwf Hc Hpre Hex Hmid Hfirst Hpre' IH.
  assert (∀ x, x ∈ extra → fst x = l) as Hel.
  { destruct Hex as [->|[c2 ->]]; [by intros ? ?%elem_of_nil|by intros ? ->%list_elem_of_singleton]. }
  destruct (Z.lt_trichotomy k l) as [Hk|[->|Hk]].
  - rewrite !cnt_app_gt.
    + rewrite (cnt_gt k (_ :: first')); [pose proof (cnt_nonneg k pre Hwf); lia|].
      intros x [->|Hx]%elem_of_cons; [done|]. specialize (Hfirst x Hx). lia.
    + intros x [Hx|Hx]%elem_of_app; [rewrite (Hel x Hx); done|]. specialize (Hpre' x Hx). lia.
    + intros x [->|Hx]%elem_of_cons; [done|]. specialize (Hmid x Hx). lia.
  - rewrite !cnt_app_lt by done. simpl. rewrite Z.eqb_refl.
    destruct Hex as [->|[c2 ->]]; simpl.
    + rewrite (cnt_gt l pre') by done. rewrite countLabels_nil. done.
    + rewrite Z.eqb_refl, countLabels_cons, countLabels_nil. lia.
  - rewrite (cnt_app_lt k pre), (assoc_L (++)), (cnt_app_lt k (pre ++ extra)).
    + simpl. replace (k =? l) with false by (symmetry; apply Z.eqb_neq; lia). done.
    + intros x [Hx|Hx]%elem_of_app; [specialize (Hpre x Hx)|rewrite (Hel x Hx)]; lia.
    + intros x Hx. specialize (Hpre x Hx). lia.
Qed.

(** What the loop over [first] has established when it is left. *)
Definition union_first_post (first second result mid pre post : Labels.t) : Prop :=
  second = pre ++ post ∧ labels_wf (result ++ mid) ∧ below (result ++ mid) post ∧
  (∀ x, x ∈ mid → fst x ≠ kWildcard) ∧
  (∀ k, k ≠ kWildcard → cnt k mid = Z.max (cnt k first) (cnt k pre)) ∧
  (∀ x y, x ∈ first → fst x ≠ kWildcard → y ∈ post → fst x < fst y).

Lemma union_first_step l c first' second result pre extra second' mid' pre' post' :
  labels_wf ((l, c) :: first') → l ≠ kWildcard →
  labels_wf second → second = pre ++ extra ++ second' →
  (∀ x, x ∈ pre → fst x < l) → (extra = [] ∨ ∃ c2, extra = [(l, c2)]) →
  let c' := Z.max c (Labels.countLabels extra) in
  union_first_post first' second' (result ++ pre ++ [(l, c')]) mid' pre' post' →
  (∀ x, x ∈ second' → l < fst x) →
  union_first_post ((l, c) :: first') second result (pre ++ (l, c') :: mid') (pre ++ extra ++ pre') post'.
Proof.
  intros Hf Hl Hs E Hpre Hex c' (E' & Hwf & Hb & Hm & Hcnt & Hpost) Hs'.
  pose proof Hf as (Hl' & Hc & Hf' & Hgt)%labels_wf_cons.
  assert ((result ++ pre ++ [(l, c')]) ++ mid' = result ++ pre ++ (l, c') :: mid') as Eq
    by (by rewrite <- !(assoc_L (++))).
  rewrite Eq in Hwf, Hb. subst second second'.
  assert (∀ x, x ∈ mid' → l < fst x) as Hmid.
  { intros x Hx. rewrite !labels_wf_app in Hwf. destruct Hwf as (_ & (_ & Hw & _) & _).
    apply labels_wf_cons in Hw as (_ & _ & _ & Hw). by apply Hw. }
  split_and!; [by rewrite <- !(assoc_L (++))|done|done| | |].
  - intros x [Hx|[->|Hx]%elem_of_cons]%elem_of_app; [|done|by apply Hm].
    specialize (Hpre x Hx). lia.
  - intros k Hk. apply union_step_cnt; try done; try lia.
    + by apply labels_wf_app in Hs as [? _].
    + intros x Hx. apply Hs'. apply elem_of_app. by left.
    + by apply Hcnt.
  - intros x y [->|Hx]%elem_of_cons Hx' Hy; [|by apply Hpost].
    simpl. apply Hs', elem_of_app. by right.
Qed.

Lemma labels_wf_snoc l k c :
  labels_wf l → (∀ x, x ∈ l → fst x < k) → 0 <= k <= kWildcard → 0 <= c < 2 ^ 16 →
  labels_wf (l ++ [(k, c)]).
Proof.
  intros Hl Hk Hr Hc. apply labels_wf_app. split; [done|]. split.
  - apply labels_wf_cons. split_and!; [lia..|apply labels_wf_nil|by intros ? ?%elem_of_nil].
  - intros x y Hx ->%list_elem_of_singleton. by apply Hk.
Qed.

(** The loop over [first], unrolled once at a label that is not the wildcard. *)
Lemma union_first_unroll l c first second result fs ss ms :
  labels_wf second → labels_wf result → below result second → (∀ x, x ∈ result → fst x < l) →
  l < kWildcard → 0 <= c →
  ∃ pre extra second', second = pre ++ extra ++ second' ∧ (∀ x, x ∈ pre → fst x < l) ∧
    (extra = [] ∨ ∃ c2, extra = [(l, c2)]) ∧ (∀ x, x ∈ second' → l < fst x) ∧
    let c' := Z.max c (Labels.countLabels extra) in
    Labels.union_first ((l, c) :: first) second result fs ss ms =
    Labels.union_first first second' (result ++ pre ++ [(l, c')]) (fs + c)
      (ss + Labels.countLabels (pre ++ extra)) (ms + Labels.countLabels pre + c').
Proof.
  intros Hs Hr Hbs Hrl Hlw Hc. simpl. rewrite (proj2 (Z.eqb_neq l kWildcard)) by lia.
  destruct (union_second_spec l second result ss ms) as (pre & post & -> & -> & Hpre & Hpost); try done; [lia|].
  simpl. pose proof Hs as (Hwp & Hwq & _)%labels_wf_app.
  assert (labels_wf (result ++ pre)) as Hrp.
  { apply labels_wf_app. split_and!; [done..|]. intros x y Hx Hy. apply Hbs; [done|apply elem_of_app; by left]. }
  assert (∀ x, x ∈ result ++ pre → fst x < l) as Hrpl by (intros x [?|?]%elem_of_app; auto).
  exists pre. rewrite insert_end_spec by done.
  destruct post as [|[l2 c2] second'']; [|pose proof Hwq as (? & ? & ? & Hgt2)%labels_wf_cons;
    destruct (Z.ltb_spec l l2)].
  - exists [], []. rewrite !(app_nil_r pre). split_and!; [by rewrite app_nil_r|done|by left|by intros ? ?%elem_of_nil|].
    rewrite countLabels_nil, Z.max_l by lia. by rewrite <- (assoc_L (++)).
  - exists [], ((l2, c2) :: second''). rewrite (app_nil_r pre). split_and!; [done|done|by left| |].
    + intros x [->|Hx]%elem_of_cons; [done|]. specialize (Hgt2 x Hx). lia.
    + rewrite countLabels_nil, Z.max_l by lia. by rewrite <- (assoc_L (++)).
  - pose proof (Hpost (l2, c2) ltac:(by left)) as Hle. simpl in Hle. replace l2 with l in * by lia.
    exists [(l, c2)], second''. split_and!; [done|done|right; eauto|done|].
    rewrite countLabels_app, !countLabels_cons, countLabels_nil, !Z.add_0_r, Z.add_assoc.
    rewrite insert_end_spec by done. by rewrite <- (assoc_L (++)).
Qed.

(** The loop is left at once: [first] is exhausted or starts with the wildcard. *)
Lemma union_first_stop first second result :
  labels_wf second → labels_wf result → below result second →
  (∀ x, x ∈ first → fst x = kWildcard) → union_first_post first second result [] [] second.
Proof.
  intros Hs Hr Hb Hf. unfold union_first_post. rewrite (app_nil_r result).
  split_and!; [done..|by intros ? ?%elem_of_nil| |].
  - intros k Hk. rewrite (cnt_absent k first); [done|]. intros y Hy. by rewrite (Hf y Hy).
  - intros x y Hx Hx'. by rewrite (Hf x Hx) in Hx'.
Qed.

Lemma labels_wf_wildcard_last c l : labels_wf ((kWildcard, c) :: l) → l = [].
Proof.
  intros (_ & _ & Hl & Hgt)%labels_wf_cons. destruct l as [|[l' c'] l]; [done|].
  apply labels_wf_cons in Hl as (? & _).
  specialize (Hgt (l', c') ltac:(by left)). simpl in *. lia.
Qed.

Lemma union_first_spec first second result fs ss ms :
  labels_wf first → labels_wf second → labels_wf result → below result first → below result second →
  ∃ mid pre post, union_first_post first second result mid pre post ∧
    Labels.union_first first second result fs ss ms =
      Ok (post, result ++ mid, fs + Labels.countLabels first,
          ss + Labels.countLabels pre, ms + Labels.countLabels mid).
Proof.
  revert second result fs ss ms. induction first as [|[l c] first IH];
    intros second result fs ss ms Hf Hs Hr Hbf Hbs.
  { exists [], [], second. simpl. rewrite (app_nil_r result), countLabels_nil, !Z.add_0_r.
    split; [|done]. apply union_first_stop; try done. by intros ? ?%elem_of_nil. }
  pose proof Hf as (Hl & Hc & Hf' & Hgt)%labels_wf_cons.
  destruct (Z.eq_dec l kWildcard) as [->|Hlw].
  { rewrite (labels_wf_wildcard_last c first) by done. exists [], [], second. simpl.
    rewrite (app_nil_r result), countLabels_cons, countLabels_nil, !Z.add_0_r.
    split; [|done]. apply union_first_stop; try done. by intros ? ->%list_elem_of_singleton. }
  assert (∀ x, x ∈ result → fst x < l) as Hrl
    by (intros x Hx; apply (Hbf x (l, c)); [done|by left]).
  destruct (union_first_unroll l c first second result fs ss ms)
    as (pre & extra & second' & E & Hpre & Hex & Hs' & ->); try done; try lia.
  set (c' := Z.max c (Labels.countLabels extra)).
  pose proof Hs as Hs2. rewrite E in Hs2. apply labels_wf_app in Hs2 as (Hwp & (Hwe & Hws' & _)%labels_wf_app & _).
  assert (0 <= c' < 2 ^ 16) as Hc'.
  { unfold c'. destruct Hex as [->|[c2 ->]]; rewrite ?countLabels_cons, countLabels_nil; [lia|].
    apply labels_wf_cons in Hwe as (_ & ? & _). lia. }
  assert (labels_wf (result ++ pre)) as Hrp.
  { apply labels_wf_app. split_and!; [done..|]. intros x y Hx Hy. apply Hbs; [done|].
    rewrite E. apply elem_of_app. by left. }
  assert (∀ x, x ∈ result ++ pre → fst x < l) as Hrpl by (intros x [?|?]%elem_of_app; auto).
  assert (∀ x, x ∈ result ++ pre ++ [(l, c')] → fst x <= l) as Hle.
  { intros x. rewrite (assoc_L (++)). intros [Hx| ->%list_elem_of_singleton]%elem_of_app; [|done].
    specialize (Hrpl x Hx). lia. }
  destruct (IH second' (result ++ pre ++ [(l, c')]) (fs + c) (ss + Labels.countLabels (pre ++ extra))
    (ms + Labels.countLabels pre + c')) as (mid & pre' & post' & HP & ->); try done.
  { rewrite (assoc_L (++)). by apply labels_wf_snoc. }
  { intros x y Hx Hy. specialize (Hle x Hx). specialize (Hgt y Hy). lia. }
  { intros x y Hx Hy. specialize (Hle x Hx). specialize (Hs' y Hy). lia. }
  exists (pre ++ (l, c') :: mid), (pre ++ extra ++ pre'), post'. split; [by eapply union_first_step|].
  rewrite !countLabels_app, !countLabels_cons, <- !(assoc_L (++)). repeat (f_equal; try lia).
Qed.

Lemma proper_cons k c l :
  proper ((k, c) :: l) = if k =? kWildcard then proper l else (k, c) :: proper l.
Proof.
  unfold proper. destruct (Z.eqb_spec k kWildcard) as [E|E].
  - rewrite filter_cons_False; [done|]. simpl. tauto.
  - by rewrite filter_cons_True.
Qed.

Lemma proper_elem_of x l : x ∈ proper l ↔ fst x ≠ kWildcard ∧ x ∈ l.
Proof. unfold proper. by rewrite list_elem_of_filter. Qed.

Lemma proper_wf l : labels_wf l → labels_wf (proper l).
Proof.
  induction l as [|[k c] l IH]; [done|]. intros (? & ? & ? & Hgt)%labels_wf_cons. rewrite proper_cons.
  destruct (k =? kWildcard); [auto|]. apply labels_wf_cons. split_and!; try lia; [auto|].
  intros y [_ Hy]%proper_elem_of. auto.
Qed.

Lemma proper_cnt k l : k ≠ kWildcard → cnt k (proper l) = cnt k l.
Proof.
  intros Hk. induction l as [|[k' c] l IH]; [done|]. rewrite proper_cons.
  destruct (Z.eqb_spec k' kWildcard) as [->|E]; simpl; [|by rewrite IH].
  by rewrite (proj2 (Z.eqb_neq _ _) Hk).
Qed.

Lemma cnt_proper_wildcard l : cnt kWildcard (proper l) = 0.
Proof. apply cnt_absent. by intros y [? _]%proper_elem_of. Qed.

Lemma union_rest_spec second result ss ms :
  labels_wf second → labels_wf result → below result second →
  Labels.union_rest second result ss ms =
  (result ++ proper second, ss + Labels.countLabels second, ms + Labels.countLabels (proper second)).
Proof.
  revert result ss ms. induction second as [|[l c] second IH]; intros result ss ms Hs Hr Hb.
  { simpl. by rewrite app_nil_r, !countLabels_nil, !Z.add_0_r. }
  pose proof Hs as (Hl & Hc & Hs' & Hgt)%labels_wf_cons. simpl. rewrite proper_cons.
  assert (∀ x, x ∈ result → fst x < l) as Hrl by (intros x Hx; apply (Hb x (l, c)); [done|by left]).
  assert (below result second) as Hb' by (intros x y Hx Hy; apply Hb; [done|by right]).
  destruct (Z.eqb_spec l kWildcard) as [E|E]; simpl.
  - rewrite IH by done. rewrite countLabels_cons. repeat (f_equal; try lia).
  - rewrite insert_end_spec, IH; try done.
    + rewrite <- (assoc_L (++)), !countLabels_cons. repeat (f_equal; try lia).
    + by apply labels_wf_snoc.
    + intros x y [Hx| ->%list_elem_of_singleton]%elem_of_app Hy; [by apply Hb'|by apply Hgt].
Qed.

Lemma plen_all {A} (p : A → bool) l : (∀ x, x ∈ l → p x = true) → plen p l = length l.
Proof.
  induction l as [|x l IH]; intros H; simpl; [done|]. rewrite (H x) by (by left).
  f_equal. apply IH. intros y Hy. apply H. by right.
Qed.

Lemma assign_last k v l :
  labels_wf l → (∀ x, x ∈ l → fst x < k) → Labels.assign k v l = l ++ [(k, u16 v)].
Proof.
  intros Hl Hk. unfold Labels.assign, FlatMap.assign, FlatMap.subscript.
  rewrite (fm_lower_bound_plen Z.ltb) by apply Hl.
  rewrite plen_all by (intros x Hx; apply Z.ltb_lt; auto).
  rewrite lookup_ge_None_2 by done.
  change (FlatMap.value_less Z.ltb) with Labels.less.
  assert (FlatSet.insert_hint Labels.less (length l) (k, 0) l = (l ++ [(k, 0)], length l)) as ->.
  { rewrite (fs_insert_hint Labels.less) by apply Hl || done.
    rewrite (fs_insert_at Labels.less _ _ (length l)); try apply Hl; try done.
    - unfold vinsert. by rewrite firstn_all, drop_all.
    - intros x _ Hx%list_elem_of_lookup_2. apply Z.ltb_lt. by apply Hk.
    - intros x Hx. by rewrite lookup_ge_None_2 in Hx. }
  rewrite insert_app_r_alt by done. by rewrite Nat.sub_diag.
Qed.

(** ** Positive counts are kept by the union *)

Definition positive (l : Labels.t) : Prop := Forall (fun x => 0 < snd x) l.

Lemma Forall_vinsert {A} (P : A → Prop) i x l : P x → Forall P l → Forall P (vinsert i x l).
Proof. intros Hx Hl. apply Forall_app. split; [by apply Forall_take|]. constructor; [done|by apply Forall_drop]. Qed.

Lemma Forall_insert_hint {A} (lt : A → A → bool) (P : A → Prop) h v l :
  P v → Forall P l → Forall P (fst (FlatSet.insert_hint lt h v l)).
Proof.
  intros Hv Hl. unfold FlatSet.insert_hint, FlatSet.insert_between.
  repeat (case_match; simpl; try done); by apply Forall_vinsert.
Qed.

Lemma union_second_positive fl second result ss ms post result' ss' ms' :
  positive second → positive result →
  Labels.union_second fl second result ss ms = Ok (post, result', ss', ms') →
  positive post ∧ positive result'.
Proof.
  revert result ss ms. induction second as [|[l c] second IH]; intros result ss ms Hs Hr; simpl.
  { by intros [= <- <- _ _]. }
  inversion Hs; subst. destruct (fl >? l); [|by intros [= <- <- _ _]].
  intros [_ H]%assertion_Ok. apply IH in H; [done..|]. by apply Forall_insert_hint.
Qed.

Lemma union_first_positive first second result fs ss ms post result' fs' ss' ms' :
  positive first → positive second → positive result →
  Labels.union_first first second result fs ss ms = Ok (post, result', fs', ss', ms') →
  positive post ∧ positive result'.
Proof.
  revert second result fs ss ms. induction first as [|[l c] first IH];
    intros second result fs ss ms Hf Hs Hr; simpl.
  { by intros [= <- <- _ _ _]. }
  inversion Hf; subst. destruct (l =? kWildcard); [by intros [= <- <- _ _ _]|].
  intros ([[[second1 r1] ss1] ms1] & E & H)%res_bind_Ok.
  apply union_second_positive in E as [Hs1 Hr1]; [|done..].
  destruct second1 as [|[l2 c2] second'];
    [apply IH in H; [done..|by apply Forall_insert_hint]|].
  pose proof Hs1 as [Hc2 Hs2]%Forall_cons. simpl in *.
  destruct (l <? l2); (apply IH in H; [done..|]; apply Forall_insert_hint; [simpl; lia|done]).
Qed.

Lemma union_rest_positive second result ss ms :
  positive second → positive result → positive (Labels.union_rest second result ss ms).1.1.
Proof.
  revert result ss ms. induction second as [|[l c] second IH]; intros result ss ms Hs Hr; simpl; [done|].
  inversion Hs; subst. destruct (negb _); apply IH; try done. by apply Forall_insert_hint.
Qed.

(** The three loops of [makeLabelsUnion] collect the proper labels [r0]; the wildcard
    entry is added at the end. *)
Lemma makeLabelsUnion_split first second :
  labels_wf first → labels_wf second →
  ∃ r0, labels_wf r0 ∧ (∀ x, x ∈ r0 → fst x ≠ kWildcard) ∧
    (positive first → positive second → positive r0) ∧
    (∀ k, k ≠ kWildcard → cnt k r0 = Z.max (cnt k first) (cnt k second)) ∧
    let w := Z.max (Labels.countLabels first) (Labels.countLabels second) - Labels.countLabels r0 in
    Labels.makeLabelsUnion first second =
      Ok (if 0 <? w then Labels.assign kWildcard w r0 else r0).
Proof.
  intros Hf Hs. unfold Labels.makeLabelsUnion.
  destruct (union_first_spec first second [] 0 0 0) as (mid & pre & post & HP & E); try done.
  { apply labels_wf_nil. } { by intros ? ? ?%elem_of_nil. } { by intros ? ? ?%elem_of_nil. }
  destruct HP as (-> & Hwf & Hb & Hm & Hcnt & Hpost). rewrite app_nil_l in *. rewrite E. simpl.
  pose proof Hs as (Hwp & Hwq & Hbq)%labels_wf_app.
  rewrite union_rest_spec by done.
  assert (below mid (proper post)) as Hb' by (intros x y Hx [_ Hy]%proper_elem_of; auto).
  exists (mid ++ proper post). split_and!.
  - apply labels_wf_app; split_and!; [done|by apply proper_wf|done].
  - intros x [Hx|[? _]%proper_elem_of]%elem_of_app; auto.
  - intros Pf Ps. apply union_first_positive in E as [Pp Pm]; [|done..|by constructor].
    apply Forall_app. split; [done|]. unfold positive in Pp.
    rewrite Forall_forall in Pp |- *. intros x [_ Hx]%proper_elem_of. auto.
  - intros k Hk. rewrite !cnt_app, proper_cnt, Hcnt by done.
    pose proof (cnt_nonneg k pre Hwp). pose proof (cnt_nonneg k post Hwq). pose proof (cnt_nonneg k first Hf).
    destruct (decide (cnt k post = 0)) as [->|Hz]; [lia|].
    rewrite (cnt_absent k first); [lia|]. intros x Hx E1. apply Hz, cnt_absent. intros y Hy E'.
    specialize (Hpost x y Hx ltac:(congruence) Hy). lia.
  - by rewrite !Z.add_0_l, !countLabels_app.
Qed.

(** The result of [makeLabelsUnion], explicitly. *)
Lemma makeLabelsUnion_spec first second :
  labels_wf first → labels_wf second →
  Labels.countLabels first < 2 ^ 16 → Labels.countLabels second < 2 ^ 16 →
  ∃ r, Labels.makeLabelsUnion first second = Ok r ∧ labels_wf r ∧
    (∀ k, k ≠ kWildcard → cnt k r = Z.max (cnt k first) (cnt k second)) ∧
    Labels.countLabels r =
      Z.max (Z.max (Labels.countLabels first) (Labels.countLabels second)) (Labels.countLabels (proper r)) ∧
    (positive first → positive second → positive r).
Proof.
  intros Hf Hs Hcf Hcs.
  destruct (makeLabelsUnion_split first second Hf Hs) as (r0 & Hr0 & Hne & Hpos & Hc0 & ->).
  assert (proper r0 = r0) as Hpr by (apply filter_all, Forall_forall; done).
  pose proof (countLabels_nonneg r0 Hr0).
  set (w := Z.max (Labels.countLabels first) (Labels.countLabels second) - Labels.countLabels r0).
  destruct (Z.ltb_spec 0 w) as [Hw|Hw]; [|exists r0; split_and!; try done; rewrite Hpr; lia].
  assert (∀ x, x ∈ r0 → fst x < kWildcard) as Hlt.
  { intros x Hx. destruct Hr0 as [_ Hr0]. rewrite Forall_forall in Hr0.
    specialize (Hr0 x Hx). specialize (Hne x Hx). lia. }
  rewrite assign_last by done. rewrite wrapu_small by lia.
  exists (r0 ++ [(kWildcard, w)]). split_and!; [done| | | |].
  - apply labels_wf_snoc; try done; lia.
  - intros k Hk. rewrite <- Hc0 by done. rewrite cnt_app.
    + simpl. rewrite (proj2 (Z.eqb_neq _ _) Hk). lia.
    + intros x y Hx ->%list_elem_of_singleton. by apply Hlt.
  - unfold proper. rewrite filter_app. fold (proper r0). rewrite Hpr.
    rewrite filter_none by (repeat constructor; simpl; tauto).
    rewrite app_nil_r, countLabels_app, countLabels_cons, countLabels_nil. lia.
  - intros Pf Ps. apply Forall_app. split; [exact (Hpos Pf Ps)|]. constructor; [done|constructor].
Qed.

(** A placement of copies [r] meets the requirement [a] when every proper label has
    its copies and there are enough copies in total (a wildcard stands for a copy on
    any label). *)
Definition meets (r a : Labels.t) : Prop :=
  (∀ k, k ≠ kWildcard → cnt k a <= cnt k r) ∧ Labels.countLabels a <= Labels.countLabels r.

(** [makeLabelsUnion] computes the least requirement that implies both of its
    arguments: it never fails its assertion, its result is sorted, asks for the
    maximum of the two counts on every proper label, meets both requirements, and no
    placement that meets both has fewer copies. *)
Theorem labels_union_is_least first second :
  labels_wf first → labels_wf second →
  Labels.countLabels first < 2 ^ 16 → Labels.countLabels second < 2 ^ 16 →
  ∃ r, Labels.makeLabelsUnion first second = Ok r ∧ labels_wf r ∧
    (∀ k, k ≠ kWildcard → cnt k r = Z.max (cnt k first) (cnt k second)) ∧
    meets r first ∧ meets r second ∧
    ∀ r', labels_wf r' → meets r' first → meets r' second →
      Labels.countLabels r <= Labels.countLabels r'.
Proof.
  intros Hf Hs Hcf Hcs. destruct (makeLabelsUnion_spec first second) as (r & E & Hr & Hc & Ht & _); try done.
  exists r. split; [done|]. split; [done|]. split; [done|].
  split; [split; [intros k Hk; rewrite Hc by done|]; lia|].
  split; [split; [intros k Hk; rewrite Hc by done|]; lia|].
  intros r' Hr' [H1 H1'] [H2 H2'].
  assert (Labels.countLabels (proper r) <= Labels.countLabels r'); [|lia].
  apply countLabels_le; [by apply proper_wf|done|]. intros k.
  destruct (decide (k = kWildcard)) as [->|Hk].
  - rewrite cnt_proper_wildcard. by apply cnt_nonneg.
  - rewrite proper_cnt, Hc by done. specialize (H1 k Hk). specialize (H2 k Hk). lia.
Qed.

Ltac solve_labels_wf :=
  repeat (apply labels_wf_cons; split_and!; [done..| |]);
  try apply labels_wf_nil; set_solver by lia.

(** Two copies anywhere, and one copy on each of the labels 3 and 7. *)
Lemma labels_union_is_least_witness :
  ∃ r, Labels.makeLabelsUnion [(kWildcard, 3)] [(3, 1); (7, 1)] = Ok r ∧ labels_wf r ∧
    (∀ k, k ≠ kWildcard → cnt k r = Z.max (cnt k [(kWildcard, 3)]) (cnt k [(3, 1); (7, 1)])) ∧
    meets r [(kWildcard, 3)] ∧ meets r [(3, 1); (7, 1)] ∧
    ∀ r', labels_wf r' → meets r' [(kWildcard, 3)] → meets r' [(3, 1); (7, 1)] →
      Labels.countLabels r <= Labels.countLabels r'.
Proof.
  apply (labels_union_is_least [(kWildcard, 3)] [(3, 1); (7, 1)]); [| |done..].
  - solve_labels_wf.
  - solve_labels_wf.
Defined.

(** ** labelsDistance *)

Definition l1 (n : Z) (a b : Labels.t) : Z := zsum ((fun k => Z.abs (cnt k a - cnt k b)) <$> seqZ 0 n).

Lemma l1_step n a b a' b' l d :
  0 <= l < n →
  (∀ k, Z.abs (cnt k a - cnt k b) = (if k =? l then d else 0) + Z.abs (cnt k a' - cnt k b')) →
  l1 n a b = d + l1 n a' b'.
Proof.
  intros Hl H. unfold l1. rewrite <- (zsum_indicator l d n) at 1 by done.
  rewrite <- zsum_fmap_add. apply zsum_fmap_ext. intros k _. apply H.
Qed.

Lemma cnt_cons_split k l c r :
  (∀ y, y ∈ r → l < fst y) → cnt k ((l, c) :: r) = (if k =? l then c else 0) + cnt k r.
Proof.
  intros H. simpl. destruct (Z.eqb_spec k l) as [->|]; [|done]. rewrite (cnt_gt l r); [lia|done].
Qed.

Lemma l1_nil n b : labels_wf b → kWildcard < n → l1 n [] b = Labels.countLabels b.
Proof.
  intros Hb Hn. rewrite (countLabels_cnt_upto n) by done. apply zsum_fmap_ext. intros k _. simpl.
  pose proof (cnt_nonneg k b Hb). lia.
Qed.

(** The four ways in which the two-pointer walk consumes an entry. *)
Lemma l1_second n l c a b :
  0 <= l < n → 0 <= c → (∀ y, y ∈ a → l < fst y) → (∀ y, y ∈ b → l < fst y) →
  l1 n a ((l, c) :: b) = c + l1 n a b.
Proof.
  intros Hl Hc Ha Hb. apply (l1_step n _ _ _ _ l); [done|]. intros k. rewrite cnt_cons_split by done.
  destruct (Z.eqb_spec k l) as [->|]; [|lia]. rewrite !cnt_gt by done. lia.
Qed.

Lemma l1_first n l c a b :
  0 <= l < n → 0 <= c → (∀ y, y ∈ a → l < fst y) → (∀ y, y ∈ b → l < fst y) →
  l1 n ((l, c) :: a) b = c + l1 n a b.
Proof.
  intros Hl Hc Ha Hb. apply (l1_step n _ _ _ _ l); [done|]. intros k. rewrite cnt_cons_split by done.
  destruct (Z.eqb_spec k l) as [->|]; [|lia]. rewrite !cnt_gt by done. lia.
Qed.

Lemma l1_both n l c c2 a b :
  0 <= l < n → (∀ y, y ∈ a → l < fst y) → (∀ y, y ∈ b → l < fst y) →
  l1 n ((l, c) :: a) ((l, c2) :: b) = Z.abs (c - c2) + l1 n a b.
Proof.
  intros Hl Ha Hb. apply (l1_step n _ _ _ _ l); [done|]. intros k. rewrite !cnt_cons_split by done.
  destruct (Z.eqb_spec k l) as [->|]; [|lia]. rewrite !cnt_gt by done. lia.
Qed.

Lemma distance_second_spec n fl a second ret :
  labels_wf second → kWildcard < n → (∀ y, y ∈ a → fl <= fst y) →
  ∃ post, Labels.distance_second fl second ret = (post, ret + l1 n a second - l1 n a post) ∧
    labels_wf post ∧ (∀ y, y ∈ post → fl <= fst y).
Proof.
  intros Hs Hn Ha. revert ret. induction second as [|[l c] second IH]; intros ret; simpl.
  - exists []. split_and!; [f_equal; lia|done|by intros ? ?%elem_of_nil].
  - pose proof Hs as (Hl & Hc & Hs' & Hgt)%labels_wf_cons. rewrite Z.gtb_ltb.
    destruct (Z.ltb_spec l fl) as [Hlt|Hge].
    + destruct (IH Hs' (ret + c)) as (post & -> & Hp & Hp'). exists post. split; [|done]. f_equal.
      rewrite l1_second; [lia|lia|lia| |done]. intros y Hy. specialize (Ha y Hy). lia.
    + exists ((l, c) :: second). split_and!; [f_equal; lia|done|].
      intros y [->|Hy]%elem_of_cons; [done|]. specialize (Hgt y Hy). lia.
Qed.

Lemma distance_first_spec n first second ret :
  labels_wf first → labels_wf second → kWildcard < n →
  let '(rest, ret') := Labels.distance_first first second ret in
  ret' + Labels.countLabels rest = ret + l1 n first second.
Proof.
  intros Hf Hs Hn. revert second ret Hs. induction first as [|[l c] first IH]; intros second ret Hs.
  - simpl. by rewrite l1_nil.
  - pose proof Hf as (Hl & Hc & Hf' & Hgt)%labels_wf_cons. simpl.
    destruct (distance_second_spec n l ((l, c) :: first) second ret) as (post & -> & Hp & Hge); try done.
    { intros y [->|Hy]%elem_of_cons; [done|]. specialize (Hgt y Hy). lia. }
    set (d := l1 n ((l, c) :: first) second).
    destruct post as [|[l2 c2] post'].
    { specialize (IH Hf' [] (ret + d - l1 n ((l, c) :: first) [] + c) labels_wf_nil).
      destruct (Labels.distance_first _ _ _). rewrite l1_first in IH; [lia|lia|lia|done|].
      by intros ? ?%elem_of_nil. }
    pose proof Hp as (Hl2 & Hc2 & Hp' & Hgt2)%labels_wf_cons.
    pose proof (Hge (l2, c2) ltac:(by left)) as Hle. simpl in Hle.
    destruct (Z.ltb_spec l l2) as [Hlt|Hle2].
    + specialize (IH Hf' ((l2, c2) :: post') (ret + d - l1 n ((l, c) :: first) ((l2, c2) :: post') + c) Hp).
      destruct (Labels.distance_first _ _ _). rewrite (l1_first n l c) in IH; [lia|lia|lia|done|].
      intros y [->|Hy]%elem_of_cons; [done|]. specialize (Hgt2 y Hy). lia.
    + replace l2 with l in * by lia.
      specialize (IH Hf' post' (ret + d - l1 n ((l, c) :: first) ((l, c2) :: post') + Z.abs (c - c2)) Hp').
      destruct (Labels.distance_first _ _ _). rewrite l1_both in IH; [lia|lia|done|done].
Qed.

Lemma fold_left_countLabels (rest : list (Z * Z)) ret :
  fold_left (fun ret x => ret + snd x) rest ret = ret + Labels.countLabels rest.
Proof.
  revert ret. induction rest as [|[l c] rest IH]; intros ret; simpl; [rewrite countLabels_nil; lia|].
  rewrite IH, countLabels_cons. lia.
Qed.

Lemma labelsDistance_l1 n first second :
  labels_wf first → labels_wf second → kWildcard < n → Labels.labelsDistance first second = l1 n first second.
Proof.
  intros Hf Hs Hn. unfold Labels.labelsDistance.
  pose proof (distance_first_spec n first second 0 Hf Hs Hn) as H.
  destruct (Labels.distance_first first second 0). rewrite fold_left_countLabels. lia.
Qed.

Lemma labelsDistance_bound first second :
  labels_wf first → labels_wf second →
  0 <= Labels.labelsDistance first second <= Labels.countLabels first + Labels.countLabels second.
Proof.
  intros Hf Hs. assert (∃ n, kWildcard < n) as [n Hn] by (exists (kWildcard + 1); lia).
  rewrite (labelsDistance_l1 n), !(countLabels_cnt_upto n) by done. unfold l1. split.
  - apply zsum_fmap_nonneg, Forall_forall. lia.
  - rewrite <- zsum_fmap_add. apply zsum_le, Forall_forall. intros k _.
    pose proof (cnt_nonneg k first Hf). pose proof (cnt_nonneg k second Hs). lia.
Qed.

(** [labelsDistance] is the first norm of the difference of the two requirements
    seen as vectors of counts indexed by the label handles. *)
Theorem labels_distance_is_l1 first second :
  labels_wf first → labels_wf second →
  Labels.labelsDistance first second =
  zsum ((fun k => Z.abs (cnt k first - cnt k second)) <$> handles).
Proof. intros Hf Hs. unfold handles. rewrite (labelsDistance_l1 (kWildcard + 1)); [unfold l1; reflexivity|assumption..|lia]. Qed.

Lemma labels_distance_is_l1_witness :
  Labels.labelsDistance [(3, 1); (5, 4)] [(5, 1); (9, 2)] =
  zsum ((fun k => Z.abs (cnt k [(3, 1); (5, 4)] - cnt k [(5, 1); (9, 2)])) <$> handles).
Proof. apply (labels_distance_is_l1 [(3, 1); (5, 4)] [(5, 1); (9, 2)]); solve_labels_wf. Defined.

(** ** Slices *)

Lemma iterate_parts_lookup sizes off data i :
  (i < length sizes)%nat →
  Slice.iterate_parts sizes off data !! i =
  Some (VectorRange.view data (off + sum_list (take i sizes)) (sizes !!! i)).
Proof.
  revert off i. induction sizes as [|n sizes IH]; intros off i Hi; simpl in *; [lia|].
  destruct i as [|i]; simpl; [by rewrite Nat.add_0_r|].
  rewrite IH by lia. do 2 f_equal. lia.
Qed.

Lemma length_iterate_parts sizes off data : length (Slice.iterate_parts sizes off data) = length sizes.
Proof. revert off. induction sizes as [|n sizes IH]; intros off; simpl; auto. Qed.

Lemma iterate_parts_join ps pre :
  Slice.iterate_parts (length <$> ps) (length pre) (pre ++ mjoin ps) = ps.
Proof.
  revert pre. induction ps as [|p ps IH]; intros pre; simpl; [done|]. f_equal.
  - unfold VectorRange.view. rewrite drop_app_length, take_app_length. done.
  - rewrite <- length_app, (assoc_L (++)). apply IH.
Qed.

Lemma iterate_parts_concat sizes off data :
  (off + sum_list sizes = length data)%nat →
  mjoin (Slice.iterate_parts sizes off data) = drop off data ∧
  length <$> Slice.iterate_parts sizes off data = sizes.
Proof.
  revert off. induction sizes as [|n sizes IH]; intros off H; csimpl in *.
  - rewrite drop_ge by lia. done.
  - destruct (IH (off + n)%nat ltac:(lia)) as [E1 E2]. unfold VectorRange.view. rewrite E2. split.
    + rewrite E1, <- drop_drop. apply take_drop.
    + f_equal. rewrite length_take, length_drop. lia.
Qed.

(** Well-formed slices: as many parts as the type says, which cover [data_] exactly
    and are sorted. *)
Record slice_wf (s : Slice.t) : Prop := {
  sw_type : SliceType.isValid (Slice.type_ s) = true;
  sw_len : length (Slice.part_size_ s) = Slice.size s;
  sw_sum : sum_list (Slice.part_size_ s) = length (Slice.data_ s);
  sw_parts : Forall labels_wf (Slice.parts s);
}.

(** The slice with given parts. *)
Definition of_parts (type : Z) (ps : list Labels.t) : Slice.t :=
  Slice.mk type (length <$> ps) (mjoin ps).

Lemma parts_of_parts type ps : length ps = Slice.type_size type → Slice.parts (of_parts type ps) = ps.
Proof.
  intros H. unfold Slice.parts, Slice.size. simpl.
  rewrite take_ge by (rewrite length_fmap, H; done). apply (iterate_parts_join ps []).
Qed.

Lemma of_parts_wf type ps :
  SliceType.isValid type = true → length ps = Slice.type_size type → Forall labels_wf ps →
  slice_wf (of_parts type ps).
Proof.
  intros Ht Hl Hp. split; simpl; [done|by rewrite length_fmap| |by rewrite parts_of_parts].
  clear. induction ps as [|p ps IH]; csimpl; [done|].
  rewrite length_app. f_equal. apply IH.
Qed.

Section slice_facts.
Context (s : Slice.t) (Hs : slice_wf s).

Lemma parts_eq : Slice.parts s = Slice.iterate_parts (Slice.part_size_ s) 0 (Slice.data_ s).
Proof using Hs. unfold Slice.parts. by rewrite take_ge by (rewrite (sw_len s Hs); done). Qed.

Lemma length_parts : length (Slice.parts s) = Slice.size s.
Proof using Hs. rewrite parts_eq, length_iterate_parts. apply Hs. Qed.

Lemma parts_lookup i : (i < Slice.size s)%nat → Slice.parts s !! i = Some (Slice.part i s).
Proof using Hs. intros Hi. rewrite parts_eq. apply iterate_parts_lookup. by rewrite (sw_len s Hs). Qed.

Lemma slice_of_parts : s = of_parts (Slice.type_ s) (Slice.parts s).
Proof using Hs.
  rewrite parts_eq. destruct (iterate_parts_concat (Slice.part_size_ s) 0 (Slice.data_ s)) as [E1 E2].
  - by rewrite <- (sw_sum s Hs).
  - unfold of_parts. rewrite E1, E2. by destruct s.
Qed.

Lemma part_labels_wf i : (i < Slice.size s)%nat → labels_wf (Slice.part i s).
Proof using Hs.
  intros Hi. pose proof (sw_parts s Hs) as Hp. rewrite Forall_forall in Hp.
  apply Hp, list_elem_of_lookup. exists i. by apply parts_lookup.
Qed.

Lemma getExpectedCopies_parts :
  Slice.getExpectedCopies s = zsum (Labels.countLabels <$> Slice.parts s).
Proof using Hs.
  rewrite slice_of_parts at 1. unfold Slice.getExpectedCopies. simpl.
  induction (Slice.parts s) as [|p ps IH]; [done|]. simpl. rewrite fmap_app, zsum_app, zsum_cons.
  f_equal. apply IH.
Qed.
End slice_facts.

(** ** Mutation of one part *)

Lemma sum_list_length_join (ps : list Labels.t) : sum_list (length <$> ps) = length (mjoin ps).
Proof. induction ps as [|p ps IH]; csimpl; [done|]. rewrite length_app. f_equal. apply IH. Qed.

Lemma join_insert (ps : list Labels.t) i xs :
  (i < length ps)%nat →
  mjoin (<[i := xs]> ps) =
  splice (mjoin ps) (sum_list (take i (length <$> ps))) ((length <$> ps) !!! i) xs.
Proof.
  intros Hi. destruct (lookup_lt_is_Some_2 ps i Hi) as [p Hp].
  erewrite list_lookup_total_fmap by done. rewrite (list_lookup_total_correct _ _ _ Hp).
  rewrite <- fmap_take, sum_list_length_join, insert_take_drop by done.
  assert (mjoin ps = mjoin (take i ps) ++ p ++ mjoin (drop (S i) ps)) as ->.
  { rewrite <- (take_drop_middle ps i p Hp) at 1. by rewrite join_app. }
  rewrite join_app. unfold splice. rewrite take_app_length, (assoc_L (++) (mjoin _) p).
  rewrite drop_app_length' by (rewrite length_app; done). done.
Qed.

Lemma write_part_parts s i xs :
  slice_wf s → (i < Slice.size s)%nat → Z.of_nat (length xs) < 2 ^ 16 →
  Slice.write_part i xs s = of_parts (Slice.type_ s) (<[i := xs]> (Slice.parts s)).
Proof.
  intros Hs Hi Hx. rewrite <- (length_parts s Hs) in Hi.
  rewrite (slice_of_parts s Hs) at 1. unfold Slice.write_part, of_parts. simpl. f_equal.
  - rewrite list_fmap_insert. f_equal. unfold VectorRange.store_size. rewrite wrapu_small by lia. lia.
  - symmetry. by apply join_insert.
Qed.

Lemma type_size_bound t : SliceType.isValid t = true → (1 ≤ Slice.type_size t ≤ 64)%nat.
Proof.
  intros H. unfold Slice.type_size. rewrite expectedParts_valid by done.
  pose proof (number_of_parts_bounds t H). lia.
Qed.

Lemma write_part_locality s i xs :
  slice_wf s → (i < Slice.size s)%nat → labels_wf xs → Z.of_nat (length xs) < 2 ^ 16 →
  slice_wf (Slice.write_part i xs s) ∧ Slice.parts (Slice.write_part i xs s) = <[i := xs]> (Slice.parts s) ∧
  ∀ j, (j < Slice.size s)%nat →
    Slice.part j (Slice.write_part i xs s) = if decide (i = j) then xs else Slice.part j s.
Proof.
  intros Hs Hi Hx Hl. pose proof (length_parts s Hs) as Hlp.
  assert (slice_wf (Slice.write_part i xs s)) as Hs'.
  { rewrite write_part_parts by done. apply of_parts_wf; [apply Hs|by rewrite length_insert|].
    apply Forall_insert; [apply Hs|done]. }
  assert (Slice.parts (Slice.write_part i xs s) = <[i := xs]> (Slice.parts s)) as Hp.
  { rewrite write_part_parts by done. apply parts_of_parts. by rewrite length_insert. }
  split; [done|]. split; [done|].
  intros j Hj. apply (inj Some). rewrite <- parts_lookup by done. rewrite Hp. case_decide as E.
  - subst j. apply list_lookup_insert_eq. lia.
  - rewrite list_lookup_insert_ne by done. by apply parts_lookup.
Qed.

(** the compact representation of a slice behaves as an array of label maps.
    Changing one part through its proxy changes that part to the new labels, leaves
    every other part as it was, keeps the slice well formed, and changes the number
    of expected copies by the difference. *)
Theorem slice_part_locality s i xs :
  slice_wf s → (i < Slice.size s)%nat → labels_wf xs → Z.of_nat (length xs) < 2 ^ 16 →
  let s' := Slice.write_part i xs s in
  slice_wf s' ∧ Slice.type_ s' = Slice.type_ s ∧
  (∀ j, (j < Slice.size s)%nat → Slice.part j s' = if decide (i = j) then xs else Slice.part j s) ∧
  Slice.getExpectedCopies s' =
    Slice.getExpectedCopies s - Labels.countLabels (Slice.part i s) + Labels.countLabels xs.
Proof.
  intros Hs Hi Hx Hl s'. destruct (write_part_locality s i xs Hs Hi Hx Hl) as (Hs' & Hp & Hj).
  split; [done|]. split; [done|]. split; [done|].
  unfold s'. rewrite !getExpectedCopies_parts, Hp by done.
  rewrite zsum_insert by (by rewrite length_parts). do 2 f_equal.
  f_equal. apply list_lookup_total_correct. by apply parts_lookup.
Qed.

Lemma slice_part_locality_witness :
  let s := of_parts 2 [[(1, 1)]; [(2, 1)]; [(3, 1); (kWildcard, 2)]] in
  Slice.part 2 (Slice.write_part 1 [(4, 1); (5, 1)] s) = [(3, 1); (kWildcard, 2)].
Proof.
  intros s.
  refine (proj1 (proj2 (proj2 (slice_part_locality s 1 [(4, 1); (5, 1)] _ _ _ _))) 2%nat _);
    [|simpl; vm_compute; lia|solve_labels_wf|done|vm_compute; lia].
  apply of_parts_wf; [done|done|].
  repeat (apply Forall_cons; split; [solve_labels_wf|]). constructor.
Defined.

(** ** Slice::mergeIn *)

(** The union as a total function; [good_union] shows that it is the one computed. *)
Definition union_of (a b : Labels.t) : Labels.t :=
  match Labels.makeLabelsUnion a b with Ok r => r | _ => [] end.

(** A part of a valid slice of an admissible goal. *)
Record good_part (a : Labels.t) : Prop := {
  gp_wf : labels_wf a;
  gp_pos : positive a;
  gp_copies : Labels.countLabels a <= Slice.kMaxExpectedCopies;
}.

Lemma countLabels_union_le a b r :
  labels_wf a → labels_wf b → labels_wf r →
  (∀ k, k ≠ kWildcard → cnt k r = Z.max (cnt k a) (cnt k b)) →
  Labels.countLabels (proper r) <= Labels.countLabels a + Labels.countLabels b.
Proof.
  intros Ha Hb Hr Hc. assert (∃ n, kWildcard < n) as [n Hn] by (exists (kWildcard + 1); lia).
  rewrite !(countLabels_cnt_upto n) by (done || by apply proper_wf).
  rewrite <- zsum_fmap_add. apply zsum_le, Forall_forall. intros k _.
  pose proof (cnt_nonneg k a Ha). pose proof (cnt_nonneg k b Hb).
  destruct (decide (k = kWildcard)) as [->|Hk]; [rewrite cnt_proper_wildcard; lia|].
  rewrite proper_cnt, Hc by done. lia.
Qed.

Lemma good_union a b :
  good_part a → good_part b →
  Labels.makeLabelsUnion a b = Ok (union_of a b) ∧ labels_wf (union_of a b) ∧ positive (union_of a b) ∧
  Labels.countLabels (union_of a b) <= 2 * Slice.kMaxExpectedCopies ∧
  meets (union_of a b) a ∧ meets (union_of a b) b.
Proof.
  intros [Ha Pa Ca] [Hb Pb Cb]. unfold Slice.kMaxExpectedCopies in *.
  destruct (makeLabelsUnion_spec a b) as (r & E & Hr & Hc & Ht & Hp); try done; try lia.
  unfold union_of. rewrite E. pose proof (countLabels_union_le a b r Ha Hb Hr Hc).
  split_and!; [done|done|auto|lia| |]; (split; [intros k Hk; rewrite Hc by done|]; lia).
Qed.

Lemma positive_length l : positive l → Z.of_nat (length l) <= Labels.countLabels l.
Proof. induction 1 as [|[k c] l Hc Hl IH]; [done|]. rewrite countLabels_cons. simpl in *. lia. Qed.

Definition merge_entry (a b : Labels.t) : Z :=
  10 * Slice.kMaxExpectedCopies - Labels.labelsDistance a (union_of a b).

Lemma merge_entry_range a b :
  good_part a → good_part b → 0 <= merge_entry a b <= 10 * Slice.kMaxExpectedCopies.
Proof.
  intros Ha Hb. destruct (good_union a b Ha Hb) as (_ & Hu & _ & Hc & _).
  pose proof (labelsDistance_bound a (union_of a b) (gp_wf a Ha) Hu). pose proof (gp_copies a Ha).
  unfold merge_entry, Slice.kMaxExpectedCopies in *. lia.
Qed.

Lemma cost_row_spec a bs :
  good_part a → Forall good_part bs → Slice.cost_row a bs = Ok (merge_entry a <$> bs).
Proof.
  intros Ha. induction 1 as [|b bs Hb _ IH]; csimpl; [done|].
  destruct (good_union a b Ha Hb) as [-> _]. simpl. rewrite IH. simpl. do 2 f_equal.
  apply wraps_small; [done|]. pose proof (merge_entry_range a b Ha Hb).
  unfold merge_entry, Slice.kMaxExpectedCopies in *. lia.
Qed.

Lemma cost_matrix_spec la bs :
  Forall good_part la → Forall good_part bs →
  Slice.cost_matrix la bs = Ok ((fun a => merge_entry a <$> bs) <$> la).
Proof.
  intros Hla Hbs. induction Hla as [|a la Ha _ IH]; csimpl; [done|].
  rewrite cost_row_spec by done. simpl. by rewrite IH.
Qed.

Lemma merge_parts_spec la o asg :
  Forall good_part la →
  Forall (fun a => 0 <= a < Z.of_nat (Slice.size o)) asg →
  (∀ i, (i < Slice.size o)%nat → good_part (Slice.part i o)) →
  Slice.merge_parts la o asg =
  Ok (zip_with (fun a j => union_of a (Slice.part (Z.to_nat j) o)) la asg).
Proof.
  intros Hla Hasg Ho. revert asg Hasg. induction Hla as [|a la Ha _ IH]; intros asg Hasg; [done|].
  destruct Hasg as [|j asg Hj Hasg]; simpl; [done|].
  rewrite (proj2 (Z.leb_le 0 j)), (proj2 (Z.ltb_lt j _)) by lia. simpl.
  destruct (good_union a (Slice.part (Z.to_nat j) o)) as [-> _]; [done|apply Ho; lia|].
  simpl. by rewrite IH.
Qed.

(** Valid slices within the limit on the number of copies. *)
Record good_slice (s : Slice.t) : Prop := {
  gs_wf : slice_wf s;
  gs_valid : Slice.isValid s = true;
  gs_copies : Slice.getExpectedCopies s <= Slice.kMaxExpectedCopies;
}.

Lemma valid_parts s :
  slice_wf s → Slice.isValid s = true ↔ Forall (fun p => positive p ∧ p ≠ []) (Slice.parts s).
Proof.
  intros Hs. unfold Slice.isValid. rewrite (sw_type s Hs). simpl. rewrite <- Is_true_true, andb_True, !forallb_True.
  assert (Slice.data_ s = mjoin (Slice.parts s)) as -> by (by rewrite (slice_of_parts s Hs) at 1).
  induction (Slice.parts s) as [|p ps IH]; [split; [constructor|intros _; split; constructor]|].
  change (mjoin (p :: ps)) with (p ++ mjoin ps). rewrite Forall_app, !Forall_cons, <- IH.
  assert (Forall (fun entry => 0 <? snd entry) p ↔ positive p) as ->.
  { apply Forall_iff. intros x. rewrite Is_true_true. apply Z.ltb_lt. }
  assert (Is_true (Nat.ltb 0 (length p)) ↔ p ≠ []) as ->.
  { rewrite Is_true_true, Nat.ltb_lt. destruct p; simpl; split; [lia|done|done|lia]. }
  tauto.
Qed.

Lemma countLabels_part_le s i :
  slice_wf s → (i < Slice.size s)%nat → Labels.countLabels (Slice.part i s) <= Slice.getExpectedCopies s.
Proof.
  intros Hs Hi. rewrite getExpectedCopies_parts by done.
  pose proof (parts_lookup s Hs i Hi) as Hl. pose proof (sw_parts s Hs) as Hp.
  rewrite <- (take_drop_middle _ _ _ Hl) in Hp |- *. apply Forall_app in Hp as [H1 [_ H2]%Forall_cons].
  rewrite fmap_app, fmap_cons, zsum_app, zsum_cons.
  assert (∀ l, Forall labels_wf l → 0 <= zsum (Labels.countLabels <$> l)) as Hn.
  { intros l Hl'. apply zsum_fmap_nonneg. eapply Forall_impl; [done|]. apply countLabels_nonneg. }
  pose proof (Hn _ H1). pose proof (Hn _ H2). lia.
Qed.

Lemma good_slice_part s i : good_slice s → (i < Slice.size s)%nat → good_part (Slice.part i s).
Proof.
  intros [Hs Hv Hc] Hi. apply valid_parts in Hv; [|done]. rewrite Forall_forall in Hv.
  destruct (Hv (Slice.part i s)) as [Hp _].
  { apply list_elem_of_lookup. exists i. by apply parts_lookup. }
  split; [by apply part_labels_wf|done|]. pose proof (countLabels_part_le s i Hs Hi). lia.
Qed.

Lemma good_slice_parts s : good_slice s → Forall good_part (Slice.parts s).
Proof.
  intros Hs. apply Forall_forall. intros p [i Hi]%list_elem_of_lookup.
  assert (i < Slice.size s)%nat as Hlt
    by (rewrite <- (length_parts s) by apply Hs; by eapply lookup_lt_Some).
  rewrite parts_lookup in Hi by (apply Hs || done). injection Hi as <-. by apply good_slice_part.
Qed.

(** What [mergeIn] minimises: the sum of the label distances between the parts of [s] and
    their unions, when part [i] is merged with part [sigma !!! i] of [o].  It is not the number
    of copies to add: a wildcard that the union gives a label counts twice. *)
Definition merge_cost (s o : Slice.t) (sigma : list nat) : Z :=
  zsum ((fun i => Labels.labelsDistance (Slice.part i s)
                    (union_of (Slice.part i s) (Slice.part (sigma !!! i) o))) <$> seq 0 (Slice.size s)).

Section merge.
Context (s o : Slice.t) (Hs : good_slice s) (Ho : good_slice o) (Ht : Slice.type_ s = Slice.type_ o).
Let size := Slice.size s.
Let costs := (fun a => merge_entry a <$> Slice.parts o) <$> Slice.parts s.

Lemma merge_size : Slice.size o = size.
Proof using Ht. unfold size, Slice.size. by rewrite Ht. Qed.

Lemma costs_square : LinearAssignment.square size costs.
Proof using Hs Ho Ht.
  split.
  - unfold costs. rewrite length_fmap. apply length_parts, Hs.
  - unfold costs. apply Forall_forall. intros row (a & -> & _)%list_elem_of_fmap.
    rewrite length_fmap, (length_parts o) by apply Ho. apply merge_size.
Qed.

Lemma costs_entry i j :
  (i < size)%nat → (j < size)%nat →
  LinearAssignment.mget costs i j = merge_entry (Slice.part i s) (Slice.part j o).
Proof using Hs Ho Ht.
  intros Hi Hj. unfold LinearAssignment.mget, costs.
  rewrite (list_lookup_total_correct _ i (merge_entry (Slice.part i s) <$> Slice.parts o)).
  - apply list_lookup_total_correct. rewrite list_lookup_fmap, parts_lookup; [done|apply Ho|].
    by rewrite merge_size.
  - rewrite list_lookup_fmap, parts_lookup; [done|apply Hs|done].
Qed.

Lemma permutation_entry sigma i : sigma ≡ₚ seq 0 size → (i < size)%nat → (sigma !!! i < size)%nat.
Proof using.
  intros Hp Hi. pose proof (Permutation_length Hp) as Hl. rewrite length_seq in Hl.
  assert (sigma !!! i ∈ seq 0 size) as Hin%elem_of_seq; [|lia].
  rewrite <- Hp. apply list_elem_of_lookup_total_2. lia.
Qed.

Lemma costs_value sigma :
  sigma ≡ₚ seq 0 size →
  LinearAssignment.value costs size sigma =
  10 * Slice.kMaxExpectedCopies * Z.of_nat size - merge_cost s o sigma.
Proof using Hs Ho Ht.
  intros Hp. rewrite <- (length_seq size 0) at 2.
  rewrite <- (zsum_fmap_const (10 * Slice.kMaxExpectedCopies) (seq 0 size)).
  unfold LinearAssignment.value, merge_cost. fold size.
  apply Z.add_cancel_r with (p := zsum ((fun i => Labels.labelsDistance (Slice.part i s)
    (union_of (Slice.part i s) (Slice.part (sigma !!! i) o))) <$> seq 0 size)).
  rewrite <- zsum_fmap_add, Z.sub_add. apply zsum_fmap_ext. intros i Hi%elem_of_seq.
  rewrite costs_entry; [unfold merge_entry; lia|lia|]. apply permutation_entry; [done|lia].
Qed.

Lemma costs_solved :
  ∃ asg obj, LinearAssignment.auctionOptimization costs size = Ok (asg, obj) ∧
    Z.to_nat <$> asg ≡ₚ seq 0 size ∧ length asg = size ∧
    Forall (fun a => 0 <= a < Z.of_nat size) asg ∧
    ∀ sigma, sigma ≡ₚ seq 0 size → merge_cost s o (Z.to_nat <$> asg) <= merge_cost s o sigma.
Proof using Hs Ho Ht.
  assert (size ≤ 64)%nat as H64.
  { apply (type_size_bound (Slice.type_ s)). apply Hs. }
  destruct (LinearAssignment.auction_solves costs size 0 (10 * Slice.kMaxExpectedCopies))
    as (asg & obj & E & Hp & Hm & Hr & Hopt); [done|apply costs_square|done| |unfold Slice.kMaxExpectedCopies; lia..|].
  { intros i j Hi Hj. rewrite costs_entry by done. apply merge_entry_range; apply good_slice_part; try done.
    by rewrite merge_size. }
  exists asg, obj. split; [done|]. split; [done|]. split; [apply Hm|]. split; [done|].
  intros sigma Hsig. specialize (Hopt sigma Hsig). rewrite !costs_value in Hopt by done. lia.
Qed.

(** The parts after the merge. *)
Lemma mergeIn_parts :
  ∃ result sigma, Slice.mergeIn s o = Ok (of_parts (Slice.type_ s) result) ∧
    sigma ≡ₚ seq 0 size ∧ length result = size ∧
    (∀ i, (i < size)%nat →
       result !! i = Some (union_of (Slice.part i s) (Slice.part (sigma !!! i) o))) ∧
    ∀ sigma', sigma' ≡ₚ seq 0 size → merge_cost s o sigma <= merge_cost s o sigma'.
Proof using Hs Ho Ht.
  destruct costs_solved as (asg & obj & E & Hp & Hl & Hr & Hopt).
  pose proof (length_parts s (gs_wf s Hs)) as Hls. fold size in Hls.
  set (result := zip_with (fun a j => union_of a (Slice.part (Z.to_nat j) o)) (Slice.parts s) asg).
  assert (length result = size) as Hlr by (unfold result; rewrite length_zip_with; lia).
  assert (∀ i, (i < size)%nat →
    result !! i = Some (union_of (Slice.part i s) (Slice.part ((Z.to_nat <$> asg) !!! i) o))) as Hres.
  { intros i Hi. unfold result. rewrite lookup_zip_with, parts_lookup by (done || apply Hs). simpl.
    destruct (lookup_lt_is_Some_2 asg i) as [j Hj]; [lia|]. rewrite Hj. simpl.
    by rewrite (list_lookup_total_correct _ i (Z.to_nat j)) by (by rewrite list_lookup_fmap, Hj). }
  exists result, (Z.to_nat <$> asg). split_and!; try done.
  unfold Slice.mergeIn. rewrite Ht, Z.eqb_refl, merge_size, Nat.eqb_refl. simpl.
  rewrite cost_matrix_spec by (by apply good_slice_parts). simpl. fold costs size. rewrite E. simpl.
  rewrite merge_parts_spec;
    [|by apply good_slice_parts|by rewrite merge_size|intros; by apply good_slice_part].
  simpl. f_equal. unfold of_parts. fold result. f_equal. apply list_fmap_ext. intros i r Hi.
  assert (i < size)%nat as Hlt by (rewrite <- Hlr; by eapply lookup_lt_Some).
  rewrite Hres in Hi by done. injection Hi as <-.
  destruct (good_union (Slice.part i s) (Slice.part ((Z.to_nat <$> asg) !!! i) o))
    as (_ & _ & Hpos & Hc & _); [by apply good_slice_part| |].
  { apply good_slice_part; [done|]. rewrite merge_size. by apply permutation_entry. }
  pose proof (positive_length _ Hpos). unfold VectorRange.store_size, Slice.kMaxExpectedCopies in *.
  rewrite wrapu_small by lia. lia.
Qed.
End merge.

(** A part after the merge is well formed, positive and meets both requirements. *)
Lemma merged_part s o sigma i :
  good_slice s → good_slice o → Slice.type_ s = Slice.type_ o →
  sigma ≡ₚ seq 0 (Slice.size s) → (i < Slice.size s)%nat →
  let u := union_of (Slice.part i s) (Slice.part (sigma !!! i) o) in
  labels_wf u ∧ positive u ∧ u ≠ [] ∧ meets u (Slice.part i s) ∧ meets u (Slice.part (sigma !!! i) o).
Proof.
  intros Hs Ho Ht Hp Hi u.
  destruct (good_union (Slice.part i s) (Slice.part (sigma !!! i) o)) as (_ & Hw & Hpos & _ & Hm1 & Hm2).
  { by apply good_slice_part. }
  { apply good_slice_part; [done|]. rewrite (merge_size s o Ht). by apply permutation_entry. }
  split_and!; try done. intros Hu. fold u in Hm1. rewrite Hu in Hm1. destruct Hm1 as [_ Hm1].
  rewrite countLabels_nil in Hm1. pose proof (gs_valid s Hs) as Hv.
  apply valid_parts in Hv; [|apply Hs]. rewrite Forall_forall in Hv.
  destruct (Hv (Slice.part i s)) as [Hp' Hne].
  { apply list_elem_of_lookup. exists i. apply parts_lookup; [apply Hs|done]. }
  pose proof (positive_length _ Hp'). destruct (Slice.part i s); [done|]. simpl in *. lia.
Qed.

(** C16: [Slice::mergeIn] on two valid slices of the same type, each within the limit
    on copies, always succeeds: no assertion fails and the optimizer terminates.  The
    result is a valid slice of the same type; every part of it meets the requirement
    of the same part of the first slice and of a part of the second slice, where the
    parts of the second slice are matched by a permutation; and the sum of the label
    distances between the parts of the first slice and their unions, which is the cost
    that the code computes, is the least over all permutations. *)
Theorem slice_merge_is_optimal s o :
  good_slice s → good_slice o → Slice.type_ s = Slice.type_ o →
  ∃ s' sigma, Slice.mergeIn s o = Ok s' ∧
    slice_wf s' ∧ Slice.isValid s' = true ∧ Slice.type_ s' = Slice.type_ s ∧
    sigma ≡ₚ seq 0 (Slice.size s) ∧
    (∀ i, (i < Slice.size s)%nat →
       meets (Slice.part i s') (Slice.part i s) ∧ meets (Slice.part i s') (Slice.part (sigma !!! i) o)) ∧
    ∀ sigma', sigma' ≡ₚ seq 0 (Slice.size s) → merge_cost s o sigma <= merge_cost s o sigma'.
Proof.
  intros Hs Ho Ht. destruct (mergeIn_parts s o Hs Ho Ht) as (result & sigma & E & Hp & Hl & Hr & Hopt).
  exists (of_parts (Slice.type_ s) result), sigma.
  pose proof (fun i Hi => merged_part s o sigma i Hs Ho Ht Hp Hi) as Hm. cbv zeta in Hm.
  assert (Forall (fun r => labels_wf r ∧ positive r ∧ r ≠ []) result) as Hall.
  { apply Forall_forall. intros r [i Hi]%list_elem_of_lookup.
    assert (i < Slice.size s)%nat as Hlt by (rewrite <- Hl; by eapply lookup_lt_Some).
    rewrite Hr in Hi by done. injection Hi as <-. destruct (Hm i Hlt) as (? & ? & ? & _). done. }
  assert (slice_wf (of_parts (Slice.type_ s) result)) as Hw.
  { apply of_parts_wf; [apply Hs|done|]. eapply Forall_impl; [exact Hall|]. by intros r (? & _). }
  split; [done|]. split; [done|]. split; [|split; [done|split; [done|split; [|done]]]].
  - apply valid_parts; [done|]. rewrite parts_of_parts by done.
    eapply Forall_impl; [exact Hall|]. by intros r (_ & ? & ?).
  - intros i Hi. assert (Slice.part i (of_parts (Slice.type_ s) result) =
      union_of (Slice.part i s) (Slice.part (sigma !!! i) o)) as ->;
      [|by destruct (Hm i Hi) as (_ & _ & _ & ?)].
    apply (inj Some). rewrite <- parts_lookup by done. rewrite parts_of_parts by done. by apply Hr.
Qed.

Ltac solve_good_slice :=
  match goal with |- good_slice ?x => try unfold x; split; [|done|done] end;
  apply of_parts_wf; [done|done|];
  repeat (apply Forall_cons; split; [solve_labels_wf|]); constructor.

(** An xor2 slice on the labels 1, 2, 3 merged with the same labels in another order:
    the optimizer finds the matching that costs nothing. *)
Lemma slice_merge_is_optimal_witness :
  let s := of_parts 2 [[(1, 1)]; [(2, 1)]; [(3, 1)]] in
  let o := of_parts 2 [[(2, 1)]; [(3, 1)]; [(1, 1)]] in
  Slice.mergeIn s o = Ok s ∧
  ∃ s' sigma, Slice.mergeIn s o = Ok s' ∧ 
    slice_wf s' ∧ Slice.isValid s' = true ∧ Slice.type_ s' = Slice.type_ s ∧
    sigma ≡ₚ seq 0 (Slice.size s) ∧
    (∀ i, (i < Slice.size s)%nat →
       meets (Slice.part i s') (Slice.part i s) ∧ meets (Slice.part i s') (Slice.part (sigma !!! i) o)) ∧
    ∀ sigma', sigma' ≡ₚ seq 0 (Slice.size s) → merge_cost s o sigma <= merge_cost s o sigma'.
Proof.
  intros s o. split; [vm_compute; reflexivity|].
  apply (slice_merge_is_optimal s o); [solve_good_slice|solve_good_slice|done].
Defined.

(** The merged slice does not have the fewest copies, as the comment on [mergeIn] says: the
    label distance also counts the wildcards that are replaced.  Three wildcards merged with
    three labels cost 6 in place, where no copy is added; crossing them with another part
    costs less and adds three copies. *)
Theorem merge_not_fewest_copies :
  ∃ s o s' r, good_slice s ∧ good_slice o ∧ Slice.type_ s = Slice.type_ o ∧ Slice.mergeIn s o = Ok s' ∧
    slice_wf r ∧ Slice.isValid r = true ∧ Slice.type_ r = Slice.type_ s ∧
    (∀ i, (i < Slice.size s)%nat → meets (Slice.part i r) (Slice.part i s) ∧ meets (Slice.part i r) (Slice.part i o)) ∧
    Slice.getExpectedCopies r = Slice.getExpectedCopies s ∧ Slice.getExpectedCopies s' = Slice.getExpectedCopies s + 3.
Proof.
  set (a := of_parts 2 [[(kWildcard, 3)]; [(4, 1)]; [(6, 1)]]). set (b := of_parts 2 [[(1, 1); (2, 1); (3, 1)]; [(4, 1)]; [(6, 1)]]).
  assert (good_slice a) as Ha by solve_good_slice. assert (good_slice b) as Hb by solve_good_slice.
  assert (∃ s', Slice.mergeIn a b = Ok s' ∧ Slice.getExpectedCopies s' = 8) as (s' & E & Hs') by (eexists; split; vm_compute; reflexivity).
  exists a, b, s', b. split; [exact Ha|]. split; [exact Hb|]. split; [vm_compute; reflexivity|]. split; [exact E|].
  split; [by apply gs_wf|]. split; [vm_compute; reflexivity|]. split; [vm_compute; reflexivity|]. split; [|split; [|rewrite Hs']; vm_compute; reflexivity].
  intros i Hi. assert (i = 0 ∨ i = 1 ∨ i = 2)%nat as Hc by (vm_compute in Hi; lia).
  assert (∀ x, meets x x) as Hrefl by (intros x; split; [intros k _|]; lia).
  assert (Slice.part i b = Slice.part i a ∨ i = 0%nat) as [-> | ->] by (destruct Hc as [-> | [-> | ->]]; [by right| left; vm_compute; reflexivity..]); [split; apply Hrefl|].
  split; [|apply Hrefl]. split; [|vm_compute; discriminate]. intros k Hk. change (Slice.part 0 a) with [(kWildcard, 3)]. change (Slice.part 0 b) with [(1, 1); (2, 1); (3, 1)].
  cbn [cnt]. rewrite (proj2 (Z.eqb_neq _ _) Hk). repeat (destruct (_ =? _); try lia).
Qed.

(** [Slice::operator==] compares the type and the flat list of labels but not the
    part sizes.  Two valid slices that place the same sequence of labels into
    different parts are therefore reported equal although a part of one does not meet
    the requirement of the same part of the other. *)
Theorem slice_equality_ignores_part_sizes :
  ∃ a b, slice_wf a ∧ slice_wf b ∧ Slice.isValid a = true ∧ Slice.isValid b = true ∧
    Slice.eqb a b = true ∧ ∃ i, (i < Slice.size a)%nat ∧ ¬ meets (Slice.part i a) (Slice.part i b).
Proof.
  exists (of_parts 2 [[(1, 1); (2, 1)]; [(3, 1)]; [(4, 1)]]),
         (of_parts 2 [[(1, 1)]; [(2, 1); (3, 1)]; [(4, 1)]]).
  split; [apply gs_wf; solve_good_slice|]. split; [apply gs_wf; solve_good_slice|].
  split; [done|]. split; [done|]. split; [vm_compute; reflexivity|].
  exists 1%nat. split; [vm_compute; lia|]. intros [H _]. specialize (H 2 ltac:(done)). vm_compute in H. done.
Qed.

(** ** Goals *)

#[global] Instance slice_less_swo : StrictWeakOrder GoalModel.slice_less.
Proof.
  unfold GoalModel.slice_less. split.
  - intros x. apply Z.ltb_irrefl.
  - intros x y z. rewrite !Z.ltb_lt. lia.
  - intros x y z. rewrite !Z.ltb_lt. lia.
Qed.

(** At most one slice of each type, in the order of the types. *)
Definition goal_wf (g : GoalModel.t) : Prop := ssorted GoalModel.slice_less (GoalModel.goal_slices_ g).

Lemma goal_find_cases g t :
  goal_wf g →
  (∃ i s, GoalModel.find t g = Some i ∧ GoalModel.goal_slices_ g !! i = Some s ∧ Slice.type_ s = t) ∨
  (GoalModel.find t g = None ∧ ∀ s, s ∈ GoalModel.goal_slices_ g → Slice.type_ s ≠ t).
Proof.
  intros Hs. unfold GoalModel.find, FlatSet.find_by, lower_bound.
  set (p := fun s => Slice.type_ s <? t). set (l := GoalModel.goal_slices_ g) in *.
  assert (partitioned p l) as Hp.
  { apply (partitioned_sorted _ _ _ Hs). unfold GoalModel.slice_less, p. intros x y. rewrite !Z.ltb_lt. lia. }
  rewrite bsearch_plen by done.
  assert (∀ i s, l !! i = Some s → Slice.type_ s = t → l !! plen p l = Some s) as Hat.
  { intros i s Hi Et. destruct (decide (i < plen p l)%nat) as [Hlt|Hge].
    { pose proof (plen_lookup_lt p l i s Hlt Hi) as E. unfold p in E. rewrite Z.ltb_lt in E. lia. }
    destruct (decide (i = plen p l)) as [->|Hne]; [done|].
    destruct (lookup_lt_is_Some_2 l (plen p l)) as [s' Hs']; [apply lookup_lt_Some in Hi; lia|].
    assert (plen p l < i)%nat as Hlt by lia.
    pose proof (ssorted_lookup GoalModel.slice_less l _ _ _ _ Hs Hlt Hs' Hi) as E1.
    pose proof (plen_lookup_eq p l s' Hs') as E2. unfold p, GoalModel.slice_less in *.
    apply Z.ltb_lt in E1. apply Z.ltb_ge in E2. lia. }
  destruct (l !! plen p l) as [s|] eqn:E.
  - pose proof (plen_lookup_eq p l s E) as E2. unfold p in E2. apply Z.ltb_ge in E2.
    destruct (Z.ltb_spec t (Slice.type_ s)).
    + right. split; [done|]. intros s' [i Hi]%list_elem_of_lookup Et.
      specialize (Hat i s' Hi Et). injection Hat as ->. lia.
    + left. exists (plen p l), s. split_and!; [done|done|lia].
  - right. split; [done|]. intros s' [i Hi]%list_elem_of_lookup Et. by specialize (Hat i s' Hi Et).
Qed.

Lemma goal_unique g s1 s2 :
  goal_wf g → s1 ∈ GoalModel.goal_slices_ g → s2 ∈ GoalModel.goal_slices_ g →
  Slice.type_ s1 = Slice.type_ s2 → s1 = s2.
Proof.
  intros Hs [i Hi]%list_elem_of_lookup [j Hj]%list_elem_of_lookup E.
  destruct (Nat.lt_trichotomy i j) as [Hlt|[->|Hlt]]; [|congruence|].
  - pose proof (ssorted_lookup GoalModel.slice_less _ _ _ _ _ Hs Hlt Hi Hj) as E1%Z.ltb_lt. lia.
  - pose proof (ssorted_lookup GoalModel.slice_less _ _ _ _ _ Hs Hlt Hj Hi) as E1%Z.ltb_lt. lia.
Qed.

(** [find] as a search by type. *)
Lemma find_slice_Some g t s :
  goal_wf g → GoalModel.find_slice t g = Some s ↔ s ∈ GoalModel.goal_slices_ g ∧ Slice.type_ s = t.
Proof.
  intros Hg. unfold GoalModel.find_slice.
  destruct (goal_find_cases g t Hg) as [(i & s' & -> & Hi & Et)|[-> Hn]]; simpl.
  - rewrite Hi. assert (s' ∈ GoalModel.goal_slices_ g) as Hin by (by eapply list_elem_of_lookup_2).
    split; [by intros [= ->]|]. intros [Hs Et']. f_equal. apply (goal_unique g); congruence.
  - split; [done|]. intros [Hs Et]. by destruct (Hn s Hs).
Qed.

Lemma find_slice_ext g t o :
  goal_wf g → (∀ s, s ∈ GoalModel.goal_slices_ g ∧ Slice.type_ s = t ↔ o = Some s) →
  GoalModel.find_slice t g = o.
Proof.
  intros Hg H. destruct o as [s|]; [by apply find_slice_Some, H|].
  destruct (GoalModel.find_slice t g) as [s|] eqn:E; [|done].
  apply find_slice_Some, H in E; done.
Qed.

Lemma goal_wf_replace g i s s' :
  goal_wf g → GoalModel.goal_slices_ g !! i = Some s → Slice.type_ s' = Slice.type_ s →
  goal_wf (GoalModel.mk (GoalModel.name_ g) (<[i := s']> (GoalModel.goal_slices_ g))) ∧
  ∀ t, GoalModel.find_slice t (GoalModel.mk (GoalModel.name_ g) (<[i := s']> (GoalModel.goal_slices_ g))) =
       if decide (t = Slice.type_ s) then Some s' else GoalModel.find_slice t g.
Proof.
  intros Hg Hi Et. set (l := GoalModel.goal_slices_ g) in *.
  assert (ssorted GoalModel.slice_less (<[i := s']> l)) as Hs.
  { unfold goal_wf in Hg. fold l in Hg. rewrite <- (take_drop_middle l i s Hi) in Hg.
    rewrite insert_take_drop by (by eapply lookup_lt_Some). revert Hg.
    rewrite !(ssorted_app GoalModel.slice_less). intros (H1 & [H2 H2']%StronglySorted_inv & H3).
    split_and!; [done| |].
    - constructor; [done|]. eapply Forall_impl; [done|]. unfold GoalModel.slice_less. by rewrite Et.
    - intros x y Hx [->|Hy]%elem_of_cons; [|apply H3; [done|by right]].
      specialize (H3 x s Hx ltac:(by left)). unfold GoalModel.slice_less in *. by rewrite Et. }
  split; [done|]. intros t. apply find_slice_ext; [done|]. simpl. intros x.
  rewrite list_elem_of_lookup. case_decide as Ed.
  - split.
    + intros [[j Hj] Ex]. destruct (decide (i = j)) as [<-|Hne].
      { rewrite list_lookup_insert_eq in Hj by (by eapply lookup_lt_Some). done. }
      rewrite list_lookup_insert_ne in Hj by done. exfalso.
      assert (x = s) as -> by (apply (goal_unique g); [done|by eapply list_elem_of_lookup_2..|congruence]).
      destruct (Nat.lt_trichotomy i j) as [Hlt|[?|Hlt]]; [|done|];
        [pose proof (ssorted_lookup GoalModel.slice_less _ _ _ _ _ Hg Hlt Hi Hj) as E1%Z.ltb_lt
        |pose proof (ssorted_lookup GoalModel.slice_less _ _ _ _ _ Hg Hlt Hj Hi) as E1%Z.ltb_lt]; lia.
    + intros [= <-]. split; [exists i|congruence].
      apply list_lookup_insert_eq. by eapply lookup_lt_Some.
  - rewrite find_slice_Some by done. rewrite list_elem_of_lookup.
    assert (∀ j, <[i := s']> l !! j = Some x ∧ Slice.type_ x = t ↔ l !! j = Some x ∧ Slice.type_ x = t) as Hj.
    { intros j. destruct (decide (i = j)) as [<-|Hne]; [|by rewrite list_lookup_insert_ne].
      rewrite list_lookup_insert_eq by (by eapply lookup_lt_Some). rewrite Hi.
      split; intros [[= <-] E]; congruence. }
    split; intros [[j Hx] E]; (split; [exists j; by apply Hj|done]).
Qed.

Lemma goal_wf_insert g s :
  goal_wf g → (∀ x, x ∈ GoalModel.goal_slices_ g → Slice.type_ x ≠ Slice.type_ s) →
  goal_wf (GoalModel.insert_slice s g) ∧
  ∀ t, GoalModel.find_slice t (GoalModel.insert_slice s g) =
       if decide (t = Slice.type_ s) then Some s else GoalModel.find_slice t g.
Proof.
  intros Hg Hn.
  assert (goal_wf (GoalModel.insert_slice s g)) as Hg' by (by apply (fs_insert_ssorted GoalModel.slice_less)).
  split; [done|]. intros t. apply find_slice_ext; [done|]. intros x. unfold GoalModel.insert_slice. simpl.
  destruct (fs_insert_cases GoalModel.slice_less (GoalModel.goal_slices_ g) s Hg)
    as [(y & Hy & H1 & H2 & _)|[_ ->]]; simpl.
  { unfold GoalModel.slice_less in *. apply Z.ltb_ge in H1, H2.
    destruct (Hn y); [by eapply list_elem_of_lookup_2|lia]. }
  rewrite elem_of_vinsert. case_decide as Ed.
  - split; [intros [[->|Hx] E]; [done|]|intros [= ->]; auto]. destruct (Hn x Hx). congruence.
  - rewrite find_slice_Some by done. naive_solver.
Qed.

(** What the merge of two slices of the same type gives. *)
Definition merged (a b : option Slice.t) : res (option Slice.t) :=
  match a, b with
  | Some s, Some o => s' ← Slice.mergeIn s o; Ok (Some s')
  | Some s, None => Ok (Some s)
  | None, b => Ok b
  end.

Lemma mergeIn_type s o : good_slice s → good_slice o → Slice.type_ s = Slice.type_ o →
  ∃ s', Slice.mergeIn s o = Ok s' ∧ Slice.type_ s' = Slice.type_ s.
Proof. intros Hs Ho Ht. destruct (mergeIn_parts s o Hs Ho Ht) as (r & _ & E & _). eauto. Qed.

(** The loop of [Goal::mergeIn]; the slices already merged are those whose type is not
    among [others]. *)
Lemma merge_slices_spec others g :
  goal_wf g → ssorted GoalModel.slice_less others → Forall good_slice others →
  (∀ s, s ∈ GoalModel.goal_slices_ g → (∃ o, o ∈ others ∧ Slice.type_ o = Slice.type_ s) → good_slice s) →
  ∃ g', GoalModel.merge_slices others g = Ok g' ∧ goal_wf g' ∧
    ∀ t, merged (GoalModel.find_slice t g) (GoalModel.find_slice t (GoalModel.mk "" others)) =
         Ok (GoalModel.find_slice t g').
Proof.
  revert g. induction others as [|o others IH]; intros g Hg Ho Hgood Hgs.
  { exists g. split_and!; [done..|]. intros t. simpl. by destruct (GoalModel.find_slice t g). }
  pose proof Ho as [Ho' Hgt]%StronglySorted_inv. pose proof Hgood as [Hgo Hgood']%Forall_cons.
  rewrite Forall_forall in Hgt.
  assert (∀ x, x ∈ others → Slice.type_ x ≠ Slice.type_ o) as Hne.
  { intros x Hx E. specialize (Hgt x Hx). apply Z.ltb_lt in Hgt. lia. }
  assert (∀ t, GoalModel.find_slice t (GoalModel.mk "" (o :: others)) =
    if decide (t = Slice.type_ o) then Some o else GoalModel.find_slice t (GoalModel.mk "" others)) as Hfo.
  { intros t. apply find_slice_ext; [done|]. simpl. intros x. rewrite elem_of_cons. case_decide as E.
    - split; [intros [[->|Hx] Et]; [done|by destruct (Hne x Hx); congruence]|intros [= ->]; auto].
    - rewrite (find_slice_Some (GoalModel.mk "" others)) by done. simpl. naive_solver. }
  simpl. rewrite (gs_valid o Hgo). simpl.
  assert (GoalModel.find_slice (Slice.type_ o) (GoalModel.mk "" others) = None) as Hnone.
  { apply find_slice_ext; [done|]. simpl. intros s. split; [intros [Hs E]; by destruct (Hne s Hs)|done]. }
  destruct (goal_find_cases g (Slice.type_ o) Hg) as [(i & s & Ef & Hi & Et)|[Ef Hn]]; rewrite Ef.
  - rewrite (list_lookup_total_correct _ _ _ Hi).
    assert (s ∈ GoalModel.goal_slices_ g) as Hin by (by eapply list_elem_of_lookup_2).
    unfold Slice.size. rewrite Et, Nat.eqb_refl. simpl.
    destruct (mergeIn_type s o) as (s' & Em & Et'); [|done..|].
    { apply Hgs; [done|]. exists o. split; [by left|done]. }
    rewrite Em. simpl. destruct (goal_wf_replace g i s s' Hg Hi Et') as [Hg1 Hf1].
    destruct (IH _ Hg1 Ho' Hgood') as (g' & -> & Hg' & Hf').
    { intros x Hx (y & Hy & E). simpl in Hx. apply Hgs; [|exists y; split; [by right|done]].
      assert (x ≠ s') as Hxs by (intros ->; destruct (Hne y Hy); congruence).
      apply list_elem_of_lookup in Hx as [j Hj]. destruct (decide (i = j)) as [<-|Hij].
      + rewrite list_lookup_insert_eq in Hj by (by eapply lookup_lt_Some). congruence.
      + rewrite list_lookup_insert_ne in Hj by done. by eapply list_elem_of_lookup_2. }
    exists g'. split_and!; [done..|]. intros t. rewrite <- Hf', Hf1, Hfo, Et. case_decide as E; [|done].
    subst t. assert (GoalModel.find_slice (Slice.type_ o) g = Some s) as -> by (by apply find_slice_Some).
    rewrite Hnone. simpl. by rewrite Em.
  - destruct (goal_wf_insert g o Hg Hn) as [Hg1 Hf1].
    destruct (IH _ Hg1 Ho' Hgood') as (g' & -> & Hg' & Hf').
    { intros x Hx (y & Hy & E). apply Hgs; [|exists y; split; [by right|done]].
      assert (GoalModel.find_slice (Slice.type_ x) (GoalModel.insert_slice o g) = Some x) as Hfx
        by (by apply find_slice_Some).
      rewrite Hf1 in Hfx. case_decide as Ed; [by destruct (Hne y Hy); congruence|].
      by apply find_slice_Some in Hfx as [? _]. }
    exists g'. split_and!; [done..|]. intros t. rewrite <- Hf', Hf1, Hfo. case_decide as E; [|done].
    subst t. assert (GoalModel.find_slice (Slice.type_ o) g = None) as ->.
    { apply find_slice_ext; [done|]. intros s. split; [intros [Hs E]; by destruct (Hn s Hs)|done]. }
    by rewrite Hnone.
Qed.

(** [Goal::mergeIn] on goals whose slices are valid and within the limit on copies
    succeeds, keeps one slice per type, and acts slice by slice: for every slice type
    the result has the slice of the goal that has one, or the merge of both. *)
Theorem goal_merge_pointwise g o :
  goal_wf g → goal_wf o →
  Forall good_slice (GoalModel.goal_slices_ g) → Forall good_slice (GoalModel.goal_slices_ o) →
  ∃ g', GoalModel.mergeIn g o = Ok g' ∧ goal_wf g' ∧
    ∀ t, merged (GoalModel.find_slice t g) (GoalModel.find_slice t o) = Ok (GoalModel.find_slice t g').
Proof.
  intros Hg Ho Hgg Hgo. rewrite Forall_forall in Hgg.
  destruct (merge_slices_spec (GoalModel.goal_slices_ o) g) as (g' & E & Hg' & Hf); try done; [auto|].
  exists g'. split_and!; done.
Qed.

(** Merging a goal of two copies with a goal of an xor2 slice and one labelled copy. *)
Lemma goal_merge_pointwise_witness :
  let g := GoalModel.mk "two" [of_parts 0 [[(kWildcard, 2)]]] in
  let o := GoalModel.mk "x" [of_parts 0 [[(4, 1)]]; of_parts 2 [[(1, 1)]; [(2, 1)]; [(3, 1)]]] in
  ∃ g', GoalModel.mergeIn g o = Ok g' ∧ goal_wf g' ∧
    ∀ t, merged (GoalModel.find_slice t g) (GoalModel.find_slice t o) = Ok (GoalModel.find_slice t g').
Proof.
  intros g o. apply (goal_merge_pointwise g o).
  - repeat constructor.
  - repeat constructor.
  - apply Forall_singleton. solve_good_slice.
  - apply Forall_cons. split; [solve_good_slice|]. apply Forall_singleton. solve_good_slice.
Defined.

(** [Goal::setSlice] followed by [Goal::find]: the slice set is found under its
    type, every other slice is found as before, and the order is kept. *)
Theorem goal_set_find g s :
  goal_wf g →
  goal_wf (GoalModel.setSlice s g) ∧
  ∀ t, GoalModel.find_slice t (GoalModel.setSlice s g) =
       if decide (t = Slice.type_ s) then Some s else GoalModel.find_slice t g.
Proof.
  intros Hg. unfold GoalModel.setSlice.
  destruct (goal_find_cases g (Slice.type_ s) Hg) as [(i & s' & -> & Hi & Et)|[-> Hn]].
  - rewrite <- Et. by apply goal_wf_replace.
  - by apply goal_wf_insert.
Qed.

Lemma goal_set_find_witness :
  let g := GoalModel.mk "two" [of_parts 0 [[(kWildcard, 2)]]] in
  GoalModel.find_slice 0 (GoalModel.setSlice (of_parts 2 [[(1, 1)]; [(2, 1)]; [(3, 1)]]) g) =
  GoalModel.find_slice 0 g.
Proof.
  intros g. refine (proj2 (goal_set_find g (of_parts 2 [[(1, 1)]; [(2, 1)]; [(3, 1)]]) _) 0).
  repeat constructor.
Defined.
