(* ===== verification/CopiesCalculator.v ===== *)
(** * ChunkCopiesCalculator

    Models src/common/chunk_copies_calculator.h, src/common/chunk_copies_calculator.cc
    and src/common/linear_assignment_cache.h: given the parts of a chunk that are
    available and the parts its goal asks for, the calculator answers how safe the
    chunk is, which parts have to be recovered and which may be removed.  The master
    server's chunk loop decides every replication and every deletion with it. *)

From S2P Require Import Prelude FlatContainers MediaLabel SliceTraits Assignment GoalSlices.

(** ** LinearAssignmentCache *)
Module LinearAssignmentCache.

(** [OptimizerInputOutput] *)
Record entry := mkEntry {
  target_slice_ : Slice.t;
  source_slice_ : Slice.t;
  assignment_ : list Z;
}.

Definition default_entry : entry :=
  mkEntry (Slice.mk 1 [O] []) (Slice.mk 1 [O] []) [].

Definition kBasePart_ : Z := 50000017.
Definition kModPart_ : Z := 100000007.
Definition kBaseSlice_ : Z := 500000009.
Definition kModSlice_ : Z := 1000000007.
Definition kInitialStartingHash_ : Z := 1.

Definition t : Type := gmap Z entry.

Definition partsMatch (part1 part2 : Labels.t) : bool :=
  Nat.eqb (length part1) (length part2) &&
  forallb (fun x => bool_decide (fst x = snd x)) (zip part1 part2).

Definition hashPart (part : Labels.t) : Z :=
  fold_left (fun hash x =>
    let label_hash := Z.rem (fst x * Slice.kMaxExpectedCopies + snd x) kBasePart_ in
    Z.rem (hash * kBasePart_ + label_hash) kModPart_) part 1.

Definition hashSlice (startingHash : Z) (slice : Slice.t) : Z :=
  fold_left (fun hash part => Z.rem (hash * kBaseSlice_ + hashPart part) kModSlice_)
    (Slice.parts slice) startingHash.

Definition hashSlicePair (target_slice source_slice : Slice.t) : Z :=
  hashSlice (hashSlice kInitialStartingHash_ target_slice) source_slice.

(** [OptimizerInputOutput::checkMatchAndGetResult] *)
Definition entry_match (target_slice source_slice : Slice.t) (e : entry) : option (list Z) :=
  if negb (Slice.type_ target_slice =? Slice.type_ (target_slice_ e)) ||
     negb (Slice.type_ source_slice =? Slice.type_ (source_slice_ e)) then None
  else if forallb (fun i => partsMatch (Slice.part i target_slice) (Slice.part i (target_slice_ e)))
            (seq 0 (Slice.size target_slice)) &&
          forallb (fun i => partsMatch (Slice.part i source_slice) (Slice.part i (source_slice_ e)))
            (seq 0 (Slice.size source_slice))
  then Some (assignment_ e) else None.

(** [cachedData_[hash]] inserts a default entry when there is none. *)
Definition checkMatchAndGetResult (target_slice source_slice : Slice.t) (cache : t) :
    t * option (list Z) :=
  let hash := hashSlicePair target_slice source_slice in
  let e := default default_entry (cache !! hash) in
  (<[hash := e]> cache, entry_match target_slice source_slice e).

Definition store (target_slice source_slice : Slice.t) (assignment : list Z) (cache : t) : t :=
  <[hashSlicePair target_slice source_slice := mkEntry target_slice source_slice assignment]> cache.

End LinearAssignmentCache.

(** ** ChunksAvailabilityState::State *)
Inductive ChunkState := kSafe | kEndangered | kLost.

(** ** ChunkCopiesCalculator *)
Module Calculator.

Record t := mk {
  available_ : GoalModel.t;
  target_ : GoalModel.t;
  target_redundancy_level_ : Z;
  redundancy_level_ : Z;
  slice_redundancy_level_ : list (Z * Z);
  slice_operation_count_ : list (Z * list (Z * Z));
  operation_count_ : Z * Z;
}.

Definition empty_goal : GoalModel.t := GoalModel.mk "" [].

(** [ChunkCopiesCalculator(Goal target)]; the default constructor has an empty goal. *)
Definition make (target : GoalModel.t) : t :=
  mk empty_goal target INT_MIN INT_MIN [] [] (0, 0).

Definition setTarget (target : GoalModel.t) (c : t) : t :=
  mk (available_ c) target INT_MIN (redundancy_level_ c) (slice_redundancy_level_ c)
     (slice_operation_count_ c) (operation_count_ c).

Definition set_available (g : GoalModel.t) (c : t) : t :=
  mk g (target_ c) (target_redundancy_level_ c) (redundancy_level_ c) (slice_redundancy_level_ c)
     (slice_operation_count_ c) (operation_count_ c).

(** The assertion of [Slice::operator[]]. *)
Definition part_ok (part : Z) (s : Slice.t) : bool := (0 <=? part) && (part <? Z.of_nat (Slice.size s)).

(** [available_[slice_type][part][label]++] *)
Definition addPart (slice_type part label : Z) (c : t) : res t :=
  '(g, i) ← GoalModel.subscript slice_type (available_ c);
  let s := GoalModel.goal_slices_ g !!! i in
  assertion (part_ok part s)
    (let '(labels, j) := FlatMap.subscript Z.ltb 0 label (Slice.part (Z.to_nat part) s) in
     let labels' := <[j := (label, u16 (snd (labels !!! j) + 1))]> labels in
     let s' := Slice.write_part (Z.to_nat part) labels' s in
     Ok (set_available (GoalModel.mk (GoalModel.name_ g) (<[i := s']> (GoalModel.goal_slices_ g))) c)).

Definition removePart (slice_type part label : Z) (c : t) : res t :=
  match GoalModel.find slice_type (available_ c) with
  | None => Ok c
  | Some i =>
      let g := available_ c in
      let s := GoalModel.goal_slices_ g !!! i in
      assertion (part_ok part s)
        (let labels := Slice.part (Z.to_nat part) s in
         match FlatMap.find Z.ltb label labels with
         | None => Ok c
         | Some j =>
             let n := u16 (snd (labels !!! j) - 1) in
             let labels' := if n <=? 0 then verase j labels else <[j := (label, n)]> labels in
             let s' := Slice.write_part (Z.to_nat part) labels' s in
             Ok (set_available (GoalModel.mk (GoalModel.name_ g) (<[i := s']> (GoalModel.goal_slices_ g))) c)
         end)
  end.

(** *** operationCount: parts to recover and to remove *)

(** [for (; isrc != src.end() && isrc->first < label.first; ++isrc)] *)
Fixpoint op_skip (label : Z) (src : Labels.t) (wcount removed : Z) : Labels.t * Z * Z :=
  match src with
  | [] => ([], wcount, removed)
  | (l, n) :: src' =>
      if l <? label then op_skip label src' (wcount - Z.min wcount n) (removed + (n - Z.min wcount n))
      else (src, wcount, removed)
  end.

(** The loop over [dst]: the rest of [src], [wcount] and the two counts. *)
Fixpoint op_dst (dst src : Labels.t) (wcount recovered removed : Z) : Labels.t * Z * Z * Z :=
  match dst with
  | [] => (src, wcount, recovered, removed)
  | (label, count) :: dst' =>
      if label =? kWildcard then (src, wcount, recovered, removed)
      else
        let '(src, wcount, removed) := op_skip label src wcount removed in
        match src with
        | (l, n) :: src' =>
            if l =? label then
              if count <? n then
                let remove := n - count in
                op_dst dst' src' (wcount - Z.min wcount remove) recovered
                  (removed + (remove - Z.min wcount remove))
              else if n <? count then op_dst dst' src' wcount (recovered + (count - n)) removed
              else op_dst dst' src' wcount recovered removed
            else op_dst dst' src wcount (recovered + count) removed
        | [] => op_dst dst' src wcount (recovered + count) removed
        end
  end.

Definition op_tail (src : Labels.t) (wcount removed : Z) : Z * Z :=
  fold_left (fun '(wcount, removed) '(l, n) =>
    (wcount - Z.min wcount n, removed + (n - Z.min wcount n))) src (wcount, removed).

Definition operationCount (src dst : Labels.t) : Z * Z :=
  let wcount := default 0 (FlatMap.get Z.ltb kWildcard dst) in
  let '(src, wcount, recovered, removed) := op_dst dst src wcount 0 0 in
  let '(wcount, removed) := op_tail src wcount removed in
  (recovered + wcount, removed).

(** *** evalOperationCount *)

Definition add_ops (a b : Z * Z) : Z * Z := (fst a + fst b, snd a + snd b).
Definition sum_ops (l : list (Z * Z)) : Z * Z := fold_left add_ops l (0, 0).

(** The counts of one slice of the target. *)
Definition target_slice_ops (available : GoalModel.t) (slice : Slice.t) : list (Z * Z) :=
  match GoalModel.find_slice (Slice.type_ slice) available with
  | None => (fun part => (Labels.countLabels part, 0)) <$> Slice.parts slice
  | Some src_slice => zip_with operationCount (Slice.parts src_slice) (Slice.parts slice)
  end.

(** The counts of one available slice that the target does not have. *)
Definition extra_slice_ops (slice : Slice.t) : list (Z * Z) :=
  (fun part => (0, Labels.countLabels part)) <$> Slice.parts slice.

Definition set_ops (type : Z) (ops : list (Z * Z)) (m : list (Z * list (Z * Z))) : list (Z * list (Z * Z)) :=
  FlatMap.assign Z.ltb [] type ops m.

(** The body of both loops of [evalOperationCount]: store the counts of a slice and
    add them to the totals; [None] when the loop skips the slice. *)
Definition count_step (ops_of : Slice.t → option (list (Z * Z)))
    (acc : list (Z * list (Z * Z)) * (Z * Z)) (slice : Slice.t) : list (Z * list (Z * Z)) * (Z * Z) :=
  match ops_of slice with
  | Some ops => (set_ops (Slice.type_ slice) ops (fst acc), add_ops (snd acc) (sum_ops ops))
  | None => acc
  end.

Definition evalOperationCount (c : t) : t :=
  let acc := fold_left (count_step (fun slice => Some (target_slice_ops (available_ c) slice)))
               (GoalModel.goal_slices_ (target_ c)) ([], (0, 0)) in
  let acc := fold_left (count_step (fun slice =>
                 match GoalModel.find (Slice.type_ slice) (target_ c) with
                 | None => Some (extra_slice_ops slice)
                 | Some _ => None
                 end))
               (GoalModel.goal_slices_ (available_ c)) acc in
  mk (available_ c) (target_ c) (target_redundancy_level_ c) (redundancy_level_ c)
     (slice_redundancy_level_ c) (fst acc) (snd acc).

Definition countPartsToMove (slice_type part : Z) (c : t) : res (Z * Z) :=
  n ← SliceType.expectedParts slice_type;
  assertion ((0 <=? part) && (part <? n))
    (Ok (match FlatMap.get Z.ltb slice_type (slice_operation_count_ c) with
         | None => (0, 0)
         | Some ops => ops !!! Z.to_nat part
         end)).

Definition countPartsToRecover (c : t) : Z := fst (operation_count_ c).
Definition countPartsToRemove (c : t) : Z := snd (operation_count_ c).

(** *** Redundancy *)

Definition evalSliceRedundancyLevel (slice : Slice.t) : Z :=
  let counts := Labels.countLabels <$> Slice.parts slice in
  let copies := zsum counts in
  let type_count := zsum ((fun count => if 0 <? count then 1 else 0) <$> counts) in
  if SliceTraits.isStandard (Slice.type_ slice) then copies - 1
  else if SliceTraits.isXor (Slice.type_ slice) || SliceTraits.isEC (Slice.type_ slice)
  then type_count - SliceTraits.getNumberOfDataParts (Slice.type_ slice)
  else -1.

(** [evalRedundancyLevel(const Goal &)] *)
Definition goal_redundancy (g : GoalModel.t) : Z :=
  zsum ((fun slice => Z.max (evalSliceRedundancyLevel slice + 1) 0) <$> GoalModel.goal_slices_ g) - 1.

Definition set_redundancy (target_level level : Z) (levels : list (Z * Z)) (c : t) : t :=
  mk (available_ c) (target_ c) target_level level levels (slice_operation_count_ c) (operation_count_ c).

(** One iteration of the loop of [evalRedundancyLevel()]. *)
Definition eval_step (acc : Z * list (Z * Z)) (slice : Slice.t) : Z * list (Z * Z) :=
  let extra_parts := evalSliceRedundancyLevel slice in
  (fst acc + Z.max (extra_parts + 1) 0,
   FlatMap.assign Z.ltb 0 (Slice.type_ slice) extra_parts (snd acc)).

Definition evalRedundancyLevel (c : t) : t :=
  let '(level, levels) :=
    fold_left eval_step (GoalModel.goal_slices_ (available_ c)) (0, slice_redundancy_level_ c) in
  set_redundancy (target_redundancy_level_ c) (level - 1) levels c.

Definition isSafeEnoughToWrite (min_redundant_parts : Z) (c : t) : t * bool :=
  let c := if target_redundancy_level_ c =? INT_MIN
           then set_redundancy (goal_redundancy (target_ c)) (redundancy_level_ c) (slice_redundancy_level_ c) c
           else c in
  let c := if redundancy_level_ c =? INT_MIN then evalRedundancyLevel c else c in
  (c, Z.min (target_redundancy_level_ c) min_redundant_parts <=? redundancy_level_ c).

Definition updateRedundancyLevel (slice_type : Z) (c : t) : t :=
  match GoalModel.find_slice slice_type (available_ c) with
  | None => c
  | Some slice =>
      let old_redundancy_level_ := default 0 (FlatMap.get Z.ltb slice_type (slice_redundancy_level_ c)) in
      let new := evalSliceRedundancyLevel slice in
      set_redundancy (target_redundancy_level_ c)
        (redundancy_level_ c + (Z.max new (-1) - Z.max old_redundancy_level_ (-1)))
        (FlatMap.assign Z.ltb 0 slice_type new (slice_redundancy_level_ c)) c
  end.

Definition getState (c : t) : ChunkState :=
  if Nat.eqb (GoalModel.size (target_ c)) 0 || (0 <? redundancy_level_ c) then kSafe
  else if redundancy_level_ c =? 0 then kEndangered
  else kLost.

Definition isRecoveryPossible (c : t) : bool :=
  match getState c with kLost => false | _ => true end.
Definition isWritingPossible (c : t) : bool :=
  match getState c with kLost => false | _ => true end.

(** *** Removal *)

(** The state of a slice by its redundancy level. *)
Definition slice_state (level : Z) : ChunkState :=
  if 0 <? level then kSafe else if level =? 0 then kEndangered else kLost.

Definition count_state (st : ChunkState) (levels : list (Z * Z)) : Z :=
  zsum ((fun x => match slice_state (snd x), st with
                  | kSafe, kSafe | kEndangered, kEndangered | kLost, kLost => 1
                  | _, _ => 0
                  end) <$> levels).

(** [None]: more tests are needed; [Some result] otherwise. *)
Definition removePartBasicTest (slice_type : Z) (c : t) : res (option bool) :=
  if Nat.eqb (GoalModel.size (target_ c)) 0 then Ok (Some true)
  else if (redundancy_level_ c <? 1) ||
          match GoalModel.find slice_type (available_ c) with None => true | Some _ => false end
  then Ok (Some false)
  else
    let safe := count_state kSafe (slice_redundancy_level_ c) in
    let endangered := count_state kEndangered (slice_redundancy_level_ c) in
    let can_remove_count := 2 * safe + endangered in
    if 2 <? can_remove_count then Ok (Some true)
    else match FlatMap.get Z.ltb slice_type (slice_redundancy_level_ c) with
         | None => Abort
         | Some level =>
             if level <? 0 then Ok (Some true)
             else if negb (safe =? 1) then Ok (Some false)
             else Ok None
         end.

(** The available slice without one copy of a part; the entry stays even at zero. *)
Definition slice_without (part : nat) (label : Z) (slice : Slice.t) : Slice.t :=
  let labels := Slice.part part slice in
  match FlatMap.find Z.ltb label labels with
  | None => slice
  | Some j => Slice.write_part part (<[j := (label, u16 (snd (labels !!! j) - 1))]> labels) slice
  end.

Definition canRemovePart (slice_type part label : Z) (c : t) : res bool :=
  r ← removePartBasicTest slice_type c;
  match r with
  | Some result => Ok result
  | None =>
      slice0 ← GoalModel.subscript_const slice_type (available_ c);
      assertion (part_ok part slice0)
        (let slice := slice_without (Z.to_nat part) label slice0 in
         match GoalModel.find_slice slice_type (target_ c) with
         | Some target_slice =>
             if (Slice.getExpectedCopies target_slice =? 1) && (1 <=? Slice.getExpectedCopies slice)
             then Ok true
             else Ok (0 <? evalSliceRedundancyLevel slice)
         | None => Ok (0 <? evalSliceRedundancyLevel slice)
         end)
  end.

Definition canMovePartToDifferentLabel (slice_type part label : Z) (c : t) : res bool :=
  match GoalModel.find_slice slice_type (available_ c), GoalModel.find_slice slice_type (target_ c) with
  | Some avail, Some target =>
      assertion (part_ok part target)
        (match FlatMap.get Z.ltb label (Slice.part (Z.to_nat part) target) with
         | None => Ok true
         | Some t =>
             assertion (part_ok part avail)
               (match FlatMap.get Z.ltb label (Slice.part (Z.to_nat part) avail) with
                | None => Ok false
                | Some a => Ok (0 <? a - t)
                end)
         end)
  | _, _ => Ok false
  end.

(** *** getLabelsToRecover *)

Fixpoint rec_skip (label : Z) (avail : Labels.t) (wcount : Z) : Labels.t * Z :=
  match avail with
  | [] => ([], wcount)
  | (l, n) :: avail' =>
      if l <? label then rec_skip label avail' (wcount - Z.min wcount n) else (avail, wcount)
  end.

Fixpoint rec_target (target avail result : Labels.t) (wcount : Z) : res (Labels.t * Labels.t * Z) :=
  match target with
  | [] => Ok (avail, result, wcount)
  | (label, count) :: target' =>
      if label =? kWildcard then Ok (avail, result, wcount)
      else
        let '(avail, wcount) := rec_skip label avail wcount in
        match avail with
        | (l, n) :: avail' =>
            if l =? label then
              let result := if n <? count then Labels.assign label (count - n) result else result in
              let wcount := if count <? n then wcount - Z.min wcount (n - count) else wcount in
              rec_target target' avail' result wcount
            else
              assertion (0 <? count) (rec_target target' avail (Labels.assign label count result) wcount)
        | [] => assertion (0 <? count) (rec_target target' avail (Labels.assign label count result) wcount)
        end
  end.

Definition labels_to_recover (target_labels available_labels : Labels.t) : res Labels.t :=
  let wcount := default 0 (FlatMap.get Z.ltb kWildcard target_labels) in
  '(avail, result, wcount) ← rec_target target_labels available_labels [] wcount;
  let wcount := fold_left (fun w x => w - Z.min w (snd x)) avail wcount in
  Ok (if 0 <? wcount then Labels.assign kWildcard wcount result else result).

Definition getLabelsToRecover (slice_type part : Z) (c : t) : res Labels.t :=
  n ← SliceType.expectedParts slice_type;
  assertion ((0 <=? part) && (part <? n))
    (match GoalModel.find_slice slice_type (target_ c), GoalModel.find_slice slice_type (available_ c) with
     | None, _ => Ok []
     | Some target, None => Ok (FlatSet.insert_range Labels.less (Slice.part (Z.to_nat part) target) [])
     | Some target, Some avail =>
         labels_to_recover (Slice.part (Z.to_nat part) target) (Slice.part (Z.to_nat part) avail)
     end).

(** *** getRemovePool *)

Fixpoint pool_skip (label : Z) (avail result : Labels.t) (wcount : Z) : res (Labels.t * Labels.t * Z) :=
  match avail with
  | [] => Ok ([], result, wcount)
  | (l, n) :: avail' =>
      if l <? label
      then assertion (0 <? n) (pool_skip label avail' (Labels.assign l 1 result) (wcount + n))
      else Ok (avail, result, wcount)
  end.

(** The loop over the target labels; the last component is [wilcard_target_count]. *)
Fixpoint pool_target (target avail result : Labels.t) (wcount : Z) : res (Labels.t * Labels.t * Z * Z) :=
  match target with
  | [] => Ok (avail, result, wcount, 0)
  | (label, count) :: target' =>
      if label =? kWildcard then Ok (avail, result, wcount, count)
      else
        '(avail, result, wcount) ← pool_skip label avail result wcount;
        match avail with
        | (l, n) :: avail' =>
            if l =? label then
              if count <? n
              then pool_target target' avail' (Labels.assign label 1 result) (wcount + (n - count))
              else pool_target target' avail' result wcount
            else pool_target target' avail result wcount
        | [] => pool_target target' avail result wcount
        end
  end.

Fixpoint pool_tail (avail result : Labels.t) (wcount : Z) : res (Labels.t * Z) :=
  match avail with
  | [] => Ok (result, wcount)
  | (l, n) :: avail' => assertion (0 <? n) (pool_tail avail' (Labels.assign l 1 result) (wcount + n))
  end.

Definition remove_pool (target_labels available_labels : Labels.t) : res Labels.t :=
  '(avail, result, wcount, wilcard_target_count) ← pool_target target_labels available_labels [] 0;
  '(result, wcount) ← pool_tail avail result wcount;
  Ok (if wcount <=? wilcard_target_count then [] else result).

Definition getRemovePool (slice_type part : Z) (c : t) : res Labels.t :=
  n ← SliceType.expectedParts slice_type;
  assertion ((0 <=? part) && (part <? n))
    (match GoalModel.find_slice slice_type (available_ c), GoalModel.find_slice slice_type (target_ c) with
     | None, _ => Ok []
     | Some avail, None => Ok (FlatSet.insert_range Labels.less (Slice.part (Z.to_nat part) avail) [])
     | Some avail, Some target =>
         remove_pool (Slice.part (Z.to_nat part) target) (Slice.part (Z.to_nat part) avail)
     end).

(** *** getFullCopiesCount *)

(** The two lowest values, as the loop over the parts of an xor slice finds them. *)
Definition lowest_two (counts : list Z) : Z * Z :=
  fold_left (fun '(l1, l2) part_copies =>
    if part_copies <? l1 then (part_copies, l1) else (l1, Z.min l2 part_copies))
    counts (INT_MAX, INT_MAX).

(** [std::nth_element] with a descending comparison: the value that ends up at
    position [n]. *)
Definition nth_largest (n : nat) (counts : list Z) : Z := merge_sort Z.ge counts !!! n.

Definition full_copies (slice : Slice.t) : Z :=
  let type := Slice.type_ slice in
  if SliceTraits.isStandard type then Slice.getExpectedCopies slice
  else if SliceTraits.isXor type then snd (lowest_two (Labels.countLabels <$> Slice.parts slice))
  else if SliceTraits.isEC type
  then nth_largest (Z.to_nat (SliceTraits.getNumberOfDataParts type - 1))
         (Labels.countLabels <$> Slice.parts slice)
  else 0.

Definition getFullCopiesCount (goal : GoalModel.t) : Z :=
  zsum (full_copies <$> GoalModel.goal_slices_ goal).

(** *** optimize *)

Definition isSkippable (slice : Slice.t) : bool :=
  forallb (fun i => LinearAssignmentCache.partsMatch (Slice.part 0 slice) (Slice.part i slice))
    (seq 1 (Slice.size slice - 1)).

Definition max_slice_op : Z := 10 * Slice.kMaxExpectedCopies.

Definition move_cost (src_part target_part : Labels.t) : Z :=
  let '(first, second) := operationCount src_part target_part in
  max_slice_op * max_slice_op -
  (max_slice_op * Z.min first (max_slice_op - 1) + Z.min second (max_slice_op - 1)).

Definition move_costs (src_slice target_slice : Slice.t) : list (list Z) :=
  (fun src_part => move_cost src_part <$> Slice.parts target_slice) <$> Slice.parts src_slice.

(** The assignment of target parts to source parts, from the cache or computed. *)
Definition find_assignment (target_slice src_slice : Slice.t) (cache : option LinearAssignmentCache.t) :
    res (list Z * option LinearAssignmentCache.t) :=
  match cache with
  | None =>
      '(assignment, _) ←
        LinearAssignment.auctionOptimization (move_costs src_slice target_slice) (Slice.size target_slice);
      Ok (assignment, None)
  | Some cc =>
      let '(cc, hit) := LinearAssignmentCache.checkMatchAndGetResult target_slice src_slice cc in
      match hit with
      | Some assignment => Ok (assignment, Some cc)
      | None =>
          '(assignment, _) ←
            LinearAssignment.auctionOptimization (move_costs src_slice target_slice) (Slice.size target_slice);
          Ok (assignment, Some (LinearAssignmentCache.store target_slice src_slice assignment cc))
      end
  end.

(** [result[k] = target_slice[assignment[k]]] for every part [k]. *)
Fixpoint permute_parts (ks : list nat) (assignment : list Z) (target_slice result : Slice.t) : res Slice.t :=
  match ks with
  | [] => Ok result
  | k :: ks' =>
      let a := assignment !!! k in
      assertion (part_ok a target_slice)
        (let '(data, size) :=
           VectorRange.assign 16 (0, 0) (Slice.part (Z.to_nat a) target_slice) (Slice.data_ result)
             (Slice.getPartOffset k result) (Slice.part_size_ result !!! k) in
         permute_parts ks' assignment target_slice
           (Slice.mk (Slice.type_ result) (<[k := size]> (Slice.part_size_ result)) data))
  end.

Definition optimize_slice (available : GoalModel.t) (target_slice : Slice.t)
    (cache : option LinearAssignmentCache.t) : res (Slice.t * option LinearAssignmentCache.t) :=
  match GoalModel.find_slice (Slice.type_ target_slice) available with
  | None => Ok (target_slice, cache)
  | Some src_slice =>
      if Nat.leb (Slice.size target_slice) 1 || isSkippable target_slice then Ok (target_slice, cache)
      else
        '(assignment, cache) ← find_assignment target_slice src_slice cache;
        result0 ← Slice.make (Slice.type_ target_slice);
        result ← permute_parts (seq 0 (Slice.size target_slice)) assignment target_slice result0;
        Ok (result, cache)
  end.

Fixpoint optimize_slices (available : GoalModel.t) (slices : list Slice.t)
    (cache : option LinearAssignmentCache.t) : res (list Slice.t * option LinearAssignmentCache.t) :=
  match slices with
  | [] => Ok ([], cache)
  | s :: slices' =>
      '(s', cache) ← optimize_slice available s cache;
      '(rest, cache) ← optimize_slices available slices' cache;
      Ok (s' :: rest, cache)
  end.

Definition set_target_slices (slices : list Slice.t) (c : t) : t :=
  mk (available_ c) (GoalModel.mk (GoalModel.name_ (target_ c)) slices) (target_redundancy_level_ c)
     (redundancy_level_ c) (slice_redundancy_level_ c) (slice_operation_count_ c) (operation_count_ c).

Definition optimize (useLinearAssignmentOptimizer : bool) (cache : option LinearAssignmentCache.t) (c : t) :
    res (t * option LinearAssignmentCache.t) :=
  '(slices, cache) ←
    (if useLinearAssignmentOptimizer
     then optimize_slices (available_ c) (GoalModel.goal_slices_ (target_ c)) cache
     else Ok (GoalModel.goal_slices_ (target_ c), cache));
  Ok (evalRedundancyLevel (evalOperationCount (set_target_slices slices c)), cache).

End Calculator.

Import Calculator.

(** ** The two-pointer walks, seen as folds over aligned entries

    [operationCount], [getLabelsToRecover] and [getRemovePool] walk over a target part
    and an available part at the same time.  [align] lists what the walk meets: for
    each label the copies required (zero for the wildcard, which is handled apart) and
    the copies available. *)

Abbreviation event := (Z * Z * Z)%type.
Definition key (e : event) : Z := fst (fst e).

Fixpoint split_lt (label : Z) (src : Labels.t) : Labels.t * Labels.t :=
  match src with
  | [] => ([], [])
  | (l, n) :: src' =>
      if l <? label then let '(pre, post) := split_lt label src' in ((l, n) :: pre, post) else ([], src)
  end.

Definition only_src (src : Labels.t) : list event := (fun x => (fst x, 0, snd x)) <$> src.

Fixpoint align (dst src : Labels.t) : list event :=
  match dst with
  | [] => only_src src
  | (label, count) :: dst' =>
      if label =? kWildcard then only_src src
      else
        let '(pre, post) := split_lt label src in
        only_src pre ++
        match post with
        | (l, n) :: src' =>
            if l =? label then (label, count, n) :: align dst' src' else (label, count, 0) :: align dst' post
        | [] => (label, count, 0) :: align dst' []
        end
  end.

(** The copies required on a proper label. *)
Definition pcnt (k : Z) (dst : Labels.t) : Z := cnt k (proper dst).

Record align_ok (dst src : Labels.t) (evs : list event) : Prop := {
  al_sorted : StronglySorted (fun a b => key a < key b) evs;
  al_events : ∀ k d s, (k, d, s) ∈ evs → 0 <= k <= kWildcard ∧ d = pcnt k dst ∧ s = cnt k src;
  al_complete : ∀ k, (∀ e, e ∈ evs → key e ≠ k) → pcnt k dst = 0 ∧ cnt k src = 0;
}.

Lemma split_lt_spec label src :
  labels_wf src → ∃ pre post, split_lt label src = (pre, post) ∧ src = pre ++ post ∧
    (∀ x, x ∈ pre → fst x < label) ∧ (∀ x, x ∈ post → label <= fst x).
Proof.
  induction src as [|[l n] src IH]; intros Hs; simpl.
  { exists [], []. split_and!; [done|done|by intros ? ?%elem_of_nil..]. }
  pose proof Hs as (Hl & _ & Hs' & Hgt)%labels_wf_cons.
  destruct (Z.ltb_spec l label).
  - destruct (IH Hs') as (pre & post & -> & -> & Hpre & Hpost).
    exists ((l, n) :: pre), post. split_and!; [done|done| |done].
    intros x [->|Hx]%elem_of_cons; [done|by apply Hpre].
  - exists [], ((l, n) :: src). split_and!; [done|done|by intros ? ?%elem_of_nil|].
    intros x [->|Hx]%elem_of_cons; [done|]. specialize (Hgt x Hx). lia.
Qed.

Lemma align_ok_cons l d n dst src dst1 src1 evs :
  0 <= l <= kWildcard →
  (∀ k, pcnt k dst1 = if k =? l then d else pcnt k dst) →
  (∀ k, cnt k src1 = if k =? l then n else cnt k src) →
  (∀ e, e ∈ evs → l < key e) → align_ok dst src evs → align_ok dst1 src1 ((l, d, n) :: evs).
Proof.
  intros Hl Hd Hn Hgt [H1 H2 H3]. split.
  - constructor; [done|]. by apply Forall_forall.
  - intros k d' s' [[= -> -> ->]|Hin]%elem_of_cons; [by rewrite Hd, Hn, Z.eqb_refl|].
    specialize (Hgt _ Hin). simpl in Hgt. unfold key in Hgt. simpl in Hgt.
    rewrite Hd, Hn, (proj2 (Z.eqb_neq k l)) by lia. by apply H2.
  - intros k Hk. rewrite Hd, Hn. specialize (Hk (l, d, n) ltac:(by left)) as Hkl. unfold key in Hkl. simpl in Hkl.
    rewrite (proj2 (Z.eqb_neq k l)) by congruence. apply H3. intros e He. apply Hk. by right.
Qed.

Lemma pcnt_cons k l c dst : l ≠ kWildcard → (∀ y, y ∈ dst → l < fst y) →
  pcnt k ((l, c) :: dst) = if k =? l then c else pcnt k dst.
Proof. intros Hl Hgt. unfold pcnt. by rewrite proper_cons, (proj2 (Z.eqb_neq _ _) Hl). Qed.

Lemma pcnt_gt l dst : (∀ y, y ∈ dst → l < fst y) → pcnt l dst = 0.
Proof. intros H. apply cnt_gt. intros x [_ Hx]%proper_elem_of. auto. Qed.

Lemma align_ok_src dst src pre evs :
  labels_wf (pre ++ src) → (∀ x y, x ∈ pre → y ∈ dst → fst x < fst y) →
  (∀ x e, x ∈ pre → e ∈ evs → fst x < key e) →
  align_ok dst src evs → align_ok dst (pre ++ src) (only_src pre ++ evs).
Proof.
  intros Hwf Hdst Hevs Hok. induction pre as [|[l n] pre IH]; simpl; [done|].
  pose proof Hwf as (Hl & _ & Hwf' & Hgt)%labels_wf_cons.
  apply (align_ok_cons l 0 n dst (pre ++ src)); [done| |done| |].
  - intros k. destruct (Z.eqb_spec k l) as [->|]; [|done]. apply pcnt_gt. intros y Hy.
    apply (Hdst (l, n)); [by left|done].
  - intros e [(x & -> & Hx)%list_elem_of_fmap|He]%elem_of_app.
    + apply (Hgt x), elem_of_app. by left.
    + apply (Hevs (l, n)); [by left|done].
  - apply IH; [done|intros x y Hx Hy; apply Hdst|intros x e Hx He; apply Hevs]; try done; by right.
Qed.

Lemma only_src_ok dst src : labels_wf src → (∀ x, x ∈ dst → fst x = kWildcard) → align_ok dst src (only_src src).
Proof.
  intros Hs Hd. rewrite <- (app_nil_r src) at 1. rewrite <- (app_nil_r (only_src src)).
  assert (∀ k, pcnt k dst = 0) as Hp.
  { intros k. apply cnt_absent. intros y [Hy Hy']%proper_elem_of. by destruct Hy; apply Hd. }
  assert (∀ k, pcnt k [] = 0) as Hp0 by done.
  assert (align_ok [] (src ++ []) (only_src src ++ [])) as [H1 H2 H3].
  { apply align_ok_src; [by rewrite app_nil_r|by intros ? ? ? ?%elem_of_nil..|].
    split; [constructor|by intros ? ? ? ?%elem_of_nil|done]. }
  split; [done| |].
  - intros k d s Hin. rewrite Hp. by apply H2.
  - intros k Hk. rewrite Hp. split; [done|]. by apply H3.
Qed.

Lemma align_key_from dst src e :
  labels_wf src → e ∈ align dst src → (∃ x, x ∈ dst ∧ fst x = key e) ∨ (∃ x, x ∈ src ∧ fst x = key e).
Proof.
  revert src. induction dst as [|[label count] dst IH]; intros src Hs; simpl.
  { intros (x & -> & Hx)%list_elem_of_fmap. right. by exists x. }
  destruct (label =? kWildcard).
  { intros (x & -> & Hx)%list_elem_of_fmap. right. by exists x. }
  destruct (split_lt_spec label src Hs) as (pre & post & -> & -> & _ & _).
  pose proof Hs as (_ & Hpost & _)%labels_wf_app.
  intros [(x & -> & Hx)%list_elem_of_fmap|He]%elem_of_app.
  { right. exists x. split; [apply elem_of_app; by left|done]. }
  assert (∀ p, labels_wf p → (∀ x, x ∈ p → x ∈ post) → e ∈ align dst p →
    (∃ x, x ∈ (label, count) :: dst ∧ fst x = key e) ∨ (∃ x, x ∈ pre ++ post ∧ fst x = key e)) as Hrec.
  { intros p Hp Hsub [(x & Hx & E)|(x & Hx & E)]%IH; [| |done].
    - left. exists x. split; [by right|done].
    - right. exists x. split; [apply elem_of_app; right; by apply Hsub|done]. }
  assert (∀ n, e = (label, count, n) → ∃ x, x ∈ (label, count) :: dst ∧ fst x = key e) as Hhd.
  { intros n ->. exists (label, count). split; [by left|done]. }
  destruct post as [|[l n] post'].
  - apply elem_of_cons in He as [E|He]; [left; by apply (Hhd 0)|by apply (Hrec [])].
  - pose proof Hpost as (_ & _ & Hpost' & _)%labels_wf_cons.
    destruct (l =? label); apply elem_of_cons in He as [E|He];
      [left; by apply (Hhd n)| |left; by apply (Hhd 0)|].
    + apply (Hrec post'); [done| |done]. intros x Hx. by right.
    + by apply (Hrec ((l, n) :: post')).
Qed.

Lemma align_gt l dst src e :
  labels_wf src → (∀ y, y ∈ dst → l < fst y) → (∀ y, y ∈ src → l < fst y) →
  e ∈ align dst src → l < key e.
Proof. intros Hs Hd Hsrc [(x & Hx & <-)|(x & Hx & <-)]%align_key_from; auto. Qed.

Lemma align_correct dst src : labels_wf dst → labels_wf src → align_ok dst src (align dst src).
Proof.
  revert src. induction dst as [|[label count] dst IH]; intros src Hd Hs; simpl.
  { apply only_src_ok; [done|]. by intros ? ?%elem_of_nil. }
  pose proof Hd as (Hl & Hc & Hd' & Hgt)%labels_wf_cons.
  destruct (Z.eqb_spec label kWildcard) as [->|Hw].
  { rewrite (labels_wf_wildcard_last count dst) by done. apply only_src_ok; [done|].
    by intros ? ->%list_elem_of_singleton. }
  destruct (split_lt_spec label src Hs) as (pre & post & -> & -> & Hpre & Hpost).
  pose proof Hs as (_ & Hwpost & _)%labels_wf_app.
  (* the events at and after the label *)
  assert (∀ n post', labels_wf post' → (∀ y, y ∈ post' → label < fst y) →
    (∀ k, cnt k post = if k =? label then n else cnt k post') →
    align_ok ((label, count) :: dst) (pre ++ post) (only_src pre ++ (label, count, n) :: align dst post')) as Hstep.
  { intros n post' Hp' Hgt' Hcnt. apply align_ok_src; [done| | |].
    - intros x y Hx [->|Hy]%elem_of_cons; [by apply Hpre|]. specialize (Hpre x Hx). specialize (Hgt y Hy). lia.
    - intros x e Hx [->|He]%elem_of_cons; [by apply Hpre|].
      specialize (Hpre x Hx). pose proof (align_gt label dst post' e Hp' Hgt Hgt' He). lia.
    - apply (align_ok_cons label count n dst post'); [done|intros; by apply pcnt_cons|done| |by apply IH].
      intros e He. by apply (align_gt label dst post'). }
  destruct post as [|[l n] post'].
  - apply Hstep; [done|by intros ? ?%elem_of_nil|]. intros k. by destruct (k =? label).
  - pose proof Hwpost as (_ & _ & Hwpost' & Hgt2)%labels_wf_cons.
    destruct (Z.eqb_spec l label) as [->|Hne]; [by apply Hstep|].
    specialize (Hpost (l, n) ltac:(by left)) as Hle. simpl in Hle.
    assert (∀ y, y ∈ (l, n) :: post' → label < fst y) as Hgt3.
    { intros y [->|Hy]%elem_of_cons; [simpl; lia|]. specialize (Hgt2 y Hy). lia. }
    apply Hstep; [done|done|].
    intros k. destruct (Z.eqb_spec k label) as [->|]; [by apply cnt_gt|done].
Qed.

(** Sums over the events are sums over all labels. *)
Lemma zsum_keys n (g : Z → Z) (evs : list event) :
  StronglySorted (fun a b => key a < key b) evs → (∀ e, e ∈ evs → 0 <= key e < n) →
  (∀ k, (∀ e, e ∈ evs → key e ≠ k) → g k = 0) →
  zsum ((fun e => g (key e)) <$> evs) = zsum (g <$> seqZ 0 n).
Proof.
  revert g. induction evs as [|e evs IH]; intros g Hs Hr Hg.
  { simpl. rewrite zsum_nil. symmetry. rewrite (zsum_fmap_ext g (fun _ => 0)); [by rewrite zsum_fmap_const|].
    intros k _. apply Hg. by intros ? ?%elem_of_nil. }
  apply StronglySorted_inv in Hs as [Hs Hlt]. rewrite Forall_forall in Hlt. zsum_simpl.
  set (g' := fun k => if k =? key e then 0 else g k).
  rewrite (zsum_fmap_ext (fun e => g (key e)) (fun e => g' (key e)) evs).
  - rewrite (IH g' Hs).
    + rewrite <- (zsum_indicator (key e) (g (key e)) n) at 1 by (apply Hr; by left).
      rewrite <- zsum_fmap_add. apply zsum_fmap_ext. intros k _. unfold g'.
      destruct (Z.eqb_spec k (key e)) as [->|]; lia.
    + intros e' He'. apply Hr. by right.
    + intros k Hk. unfold g'. destruct (Z.eqb_spec k (key e)); [done|]. apply Hg.
      intros e' [->|He']%elem_of_cons; [done|by apply Hk].
  - intros e' He'. specialize (Hlt e' He'). unfold g'. destruct (Z.eqb_spec (key e') (key e)); [lia|done].
Qed.

Lemma align_sum n (f : Z → Z → Z → Z) dst src :
  labels_wf dst → labels_wf src → kWildcard < n → (∀ k, f k 0 0 = 0) →
  zsum ((fun e : event => f (key e) (snd (fst e)) (snd e)) <$> align dst src) =
  zsum ((fun k => f k (pcnt k dst) (cnt k src)) <$> seqZ 0 n).
Proof.
  intros Hd Hs Hn Hf. pose proof (align_correct dst src Hd Hs) as [H1 H2 H3].
  rewrite <- (zsum_keys n (fun k => f k (pcnt k dst) (cnt k src)) (align dst src)); [|done|..].
  - apply zsum_fmap_ext. intros [[k d] s] (_ & -> & ->)%H2. done.
  - intros [[k d] s] (? & _)%H2. unfold key. simpl. lia.
  - intros k [-> ->]%H3. apply Hf.
Qed.

(** ** operationCount *)

Definition over (e : event) : Z := Z.max 0 (snd e - snd (fst e)).
Definition under (e : event) : Z := Z.max 0 (snd (fst e) - snd e).

Definition op_step (acc : Z * Z * Z) (e : event) : Z * Z * Z :=
  let '(w, recovered, removed) := acc in
  (w - Z.min w (over e), recovered + under e, removed + (over e - Z.min w (over e))).

Arguments op_step : simpl never.

(** The wildcard budget [w] is consumed by the surplus, in whatever pieces it comes. *)
Lemma op_fold_closed evs w recovered removed :
  0 <= w →
  let surplus := zsum (over <$> evs) in
  fold_left op_step evs (w, recovered, removed) =
  (w - Z.min w surplus, recovered + zsum (under <$> evs), removed + (surplus - Z.min w surplus)).
Proof.
  revert w recovered removed. induction evs as [|e evs IH]; intros w recovered removed Hw; csimpl.
  { rewrite zsum_nil. tuple_lia. }
  assert (0 <= over e) as Ho by (unfold over; lia).
  assert (0 <= zsum (over <$> evs)) by (apply zsum_fmap_nonneg, Forall_forall; unfold over; lia).
  unfold op_step at 2. rewrite IH by lia. rewrite !zsum_cons. tuple_lia.
Qed.

Lemma op_step_src w recovered removed l n :
  0 <= n → op_step (w, recovered, removed) (l, 0, n) = (w - Z.min w n, recovered, removed + (n - Z.min w n)).
Proof. intros Hn. unfold op_step, over, under. simpl. rewrite Z.sub_0_r, Z.max_r by lia. tuple_lia. Qed.

Lemma op_tail_fold src w recovered removed :
  labels_wf src →
  (let '(w', removed') := op_tail src w removed in (w', recovered, removed')) =
  fold_left op_step (only_src src) (w, recovered, removed).
Proof.
  unfold op_tail. revert w removed. induction src as [|[l n] src IH]; intros w removed Hs; [done|].
  apply labels_wf_cons in Hs as (_ & Hn & Hs & _). csimpl. rewrite op_step_src by lia. by apply IH.
Qed.

Lemma op_skip_fold label src w recovered removed :
  labels_wf src →
  let '(pre, post) := split_lt label src in
  let '(w', recovered', removed') := fold_left op_step (only_src pre) (w, recovered, removed) in
  op_skip label src w removed = (post, w', removed') ∧ recovered' = recovered.
Proof.
  revert w removed. induction src as [|[l n] src IH]; intros w removed Hs; [done|].
  apply labels_wf_cons in Hs as (_ & Hn & Hs & _). simpl. destruct (l <? label); [|done].
  specialize (IH (w - Z.min w n) (removed + (n - Z.min w n)) Hs).
  destruct (split_lt label src) as [pre post]. csimpl. by rewrite op_step_src by lia.
Qed.

Lemma op_dst_fold dst src w recovered removed :
  labels_wf dst → labels_wf src → 0 <= w →
  (let '(src', w', recovered', removed') := op_dst dst src w recovered removed in
   let '(w'', removed'') := op_tail src' w' removed' in (w'', recovered', removed'')) =
  fold_left op_step (align dst src) (w, recovered, removed).
Proof.
  revert src w recovered removed. induction dst as [|[label count] dst IH];
    intros src w recovered removed Hd Hs Hw; simpl; [by apply op_tail_fold|].
  pose proof Hd as (Hl & Hc & Hd' & Hgt)%labels_wf_cons.
  destruct (label =? kWildcard); [by apply op_tail_fold|].
  pose proof (op_skip_fold label src w recovered removed Hs) as Hskip.
  destruct (split_lt_spec label src Hs) as (pre & post & E & -> & _ & _). rewrite E in Hskip |- *.
  rewrite fold_left_app. pose proof (op_fold_closed (only_src pre) w recovered removed Hw) as Hcl.
  destruct (fold_left op_step (only_src pre) (w, recovered, removed)) as [[w1 rec1] rem1].
  destruct Hskip as [-> ->]. pose proof Hs as (_ & Hp & _)%labels_wf_app.
  assert (0 <= w1) as Hw1 by (injection Hcl; lia). clear Hcl.
  assert (op_step (w1, recovered, rem1) (label, count, 0) = (w1, recovered + count, rem1)) as Enone.
  { unfold op_step, over, under. simpl. tuple_lia. }
  destruct post as [|[l n] post']; [simpl; rewrite Enone; by apply IH|].
  pose proof Hp as (_ & Hn & Hp' & _)%labels_wf_cons.
  destruct (l =? label); [|simpl; rewrite Enone; by apply IH]. simpl.
  unfold op_step at 2, over, under. simpl.
  destruct (Z.ltb_spec count n); [|destruct (Z.ltb_spec n count)]; rewrite IH by (done || lia);
    f_equal; tuple_lia.
Qed.

Lemma cnt_to_gmap k l : labels_wf l → cnt k l = default 0 (to_gmap l !! k).
Proof.
  unfold to_gmap. induction l as [|[k' c] l IH]; intros Hl; simpl; [by rewrite lookup_empty|].
  apply labels_wf_cons in Hl as (_ & _ & Hl & _).
  destruct (Z.eqb_spec k k') as [->|Hne]; [by rewrite lookup_insert_eq|].
  rewrite lookup_insert_ne by done. by apply IH.
Qed.

Lemma get_cnt k l : labels_wf l → default 0 (FlatMap.get Z.ltb k l) = cnt k l.
Proof. intros Hl. rewrite (fm_get_spec Z.ltb 0) by apply Hl. symmetry. by apply cnt_to_gmap. Qed.

(** The copies missing on proper labels, and the copies above the requirement. *)
Definition need (n : Z) (dst src : Labels.t) : Z :=
  zsum ((fun k => Z.max 0 (pcnt k dst - cnt k src)) <$> seqZ 0 n).
Definition surplus (n : Z) (dst src : Labels.t) : Z :=
  zsum ((fun k => Z.max 0 (cnt k src - pcnt k dst)) <$> seqZ 0 n).

Lemma align_need n dst src :
  labels_wf dst → labels_wf src → kWildcard < n → zsum (under <$> align dst src) = need n dst src.
Proof. intros Hd Hs Hn. by apply (align_sum n (fun _ d s => Z.max 0 (d - s))). Qed.

Lemma align_surplus n dst src :
  labels_wf dst → labels_wf src → kWildcard < n → zsum (over <$> align dst src) = surplus n dst src.
Proof. intros Hd Hs Hn. by apply (align_sum n (fun _ d s => Z.max 0 (s - d))). Qed.

Lemma surplus_nonneg n dst src : 0 <= surplus n dst src.
Proof. apply zsum_fmap_nonneg, Forall_forall. lia. Qed.
Lemma need_nonneg n dst src : 0 <= need n dst src.
Proof. apply zsum_fmap_nonneg, Forall_forall. lia. Qed.

Lemma operationCount_spec n src dst :
  labels_wf src → labels_wf dst → kWildcard < n →
  let w := cnt kWildcard dst in
  operationCount src dst =
  (need n dst src + Z.max 0 (w - surplus n dst src), Z.max 0 (surplus n dst src - w)).
Proof.
  intros Hs Hd Hn w. unfold operationCount. rewrite get_cnt by done. fold w.
  assert (0 <= w) as Hw by (by apply cnt_nonneg).
  pose proof (op_dst_fold dst src w 0 0 Hd Hs Hw) as H.
  destruct (op_dst dst src w 0 0) as [[[src' w'] recovered] removed].
  destruct (op_tail src' w' removed) as [w'' removed'']. rewrite op_fold_closed in H by done.
  rewrite (align_need n), (align_surplus n) in H by done. injection H as -> -> ->. tuple_lia.
Qed.

Lemma cnt_split k dst : cnt k dst = pcnt k dst + (if k =? kWildcard then cnt kWildcard dst else 0).
Proof.
  unfold pcnt. destruct (Z.eqb_spec k kWildcard) as [->|Hk]; [by rewrite cnt_proper_wildcard|].
  rewrite proper_cnt by done. lia.
Qed.

Lemma countLabels_split n dst :
  labels_wf dst → kWildcard < n →
  Labels.countLabels dst = zsum ((fun k => pcnt k dst) <$> seqZ 0 n) + cnt kWildcard dst.
Proof.
  intros Hd Hn. rewrite (countLabels_cnt_upto n) by done.
  rewrite (zsum_fmap_ext (fun k => cnt k dst)
    (fun k => pcnt k dst + (if k =? kWildcard then cnt kWildcard dst else 0))) by (intros; apply cnt_split).
  rewrite zsum_fmap_add, zsum_indicator; [done|]. unfold kWildcard, MediaLabelManager.kWildcardHandleValue in *. lia.
Qed.

(** Surplus and need balance the two totals. *)
Lemma balance n src dst :
  labels_wf src → labels_wf dst → kWildcard < n →
  Labels.countLabels src + need n dst src + cnt kWildcard dst =
  Labels.countLabels dst + surplus n dst src.
Proof.
  intros Hs Hd Hn. rewrite (countLabels_split n dst), (countLabels_cnt_upto n src) by done.
  unfold need, surplus.
  assert (zsum ((fun k => cnt k src + Z.max 0 (pcnt k dst - cnt k src)) <$> seqZ 0 n) =
          zsum ((fun k => pcnt k dst + Z.max 0 (cnt k src - pcnt k dst)) <$> seqZ 0 n)) as E.
  { apply zsum_fmap_ext. intros. lia. }
  rewrite !zsum_fmap_add in E. lia.
Qed.

Lemma zsum_zero {A} (f : A → Z) l : (∀ x, x ∈ l → 0 <= f x) → zsum (f <$> l) = 0 → ∀ x, x ∈ l → f x = 0.
Proof.
  induction l as [|y l IH]; intros Hf Hz x; [by intros ?%elem_of_nil|]. zsum_simpl.
  assert (∀ x, x ∈ l → 0 <= f x) as Hf' by (intros z Hz'; apply Hf; by right).
  assert (0 <= zsum (f <$> l)) by (apply zsum_fmap_nonneg, Forall_forall; auto).
  pose proof (Hf y ltac:(by left)). intros [->|Hx]%elem_of_cons; [lia|]. apply IH; [done|lia|done].
Qed.

Lemma cnt_out_of_range k l : labels_wf l → ¬ 0 <= k <= kWildcard → cnt k l = 0.
Proof.
  intros [_ Hl] Hk. apply cnt_absent. rewrite Forall_forall in Hl. intros y Hy <-.
  destruct (Hl y Hy). tauto.
Qed.

Lemma meets_iff n src dst :
  labels_wf src → labels_wf dst → kWildcard < n →
  meets src dst ↔ need n dst src = 0 ∧ cnt kWildcard dst <= surplus n dst src.
Proof.
  intros Hs Hd Hn. pose proof (balance n src dst Hs Hd Hn) as Hb. split.
  - intros [Hm Ht]. assert (need n dst src = 0) as E; [|lia]. unfold need.
    rewrite (zsum_fmap_ext _ (fun _ => 0)); [by rewrite zsum_fmap_const|].
    intros k _. destruct (decide (k = kWildcard)) as [->|Hk].
    + unfold pcnt. rewrite cnt_proper_wildcard. pose proof (cnt_nonneg kWildcard src Hs). lia.
    + unfold pcnt. rewrite proper_cnt by done. specialize (Hm k Hk). lia.
  - intros [Hz Hw]. split; [|lia]. intros k Hk.
    destruct (decide (0 <= k <= kWildcard)) as [Hr|Hr];
      [|rewrite (cnt_out_of_range k dst) by done; by apply cnt_nonneg].
    assert (Z.max 0 (pcnt k dst - cnt k src) = 0) as H.
    { apply (zsum_zero (fun k => Z.max 0 (pcnt k dst - cnt k src)) (seqZ 0 n)); [intros; lia|done|].
      apply elem_of_seqZ. lia. }
    unfold pcnt in H. rewrite proper_cnt in H by done. lia.
Qed.

(** [operationCount] computes exact numbers of operations.  Recovering and
    removing the computed numbers of copies leads from the available copies to the
    number required; the number to recover is a lower bound for every set of copies
    that contains the available ones and meets the requirement; it is zero exactly
    when the available copies already meet the requirement; and when they do, the
    number to remove is the number of copies above the requirement. *)
Theorem operation_count_exact src dst :
  labels_wf src → labels_wf dst →
  let '(recover, remove) := operationCount src dst in
  0 <= recover ∧ 0 <= remove ∧
  Labels.countLabels src + recover - remove = Labels.countLabels dst ∧
  (∀ r, labels_wf r → (∀ k, cnt k src <= cnt k r) → meets r dst →
     Labels.countLabels src + recover <= Labels.countLabels r) ∧
  (recover = 0 ↔ meets src dst) ∧
  (meets src dst → remove = Labels.countLabels src - Labels.countLabels dst).
Proof.
  intros Hs Hd. assert (∃ n, kWildcard < n) as [n Hn] by (exists (kWildcard + 1); lia).
  rewrite (operationCount_spec n) by done.
  pose proof (balance n src dst Hs Hd Hn). pose proof (need_nonneg n dst src).
  pose proof (surplus_nonneg n dst src). pose proof (meets_iff n src dst Hs Hd Hn) as Hm.
  split; [lia|]. split; [lia|]. split; [lia|]. split; [|split; [rewrite Hm; lia|rewrite Hm; lia]].
  intros r Hr Hsub [Hr1 Hr2].
  assert (Labels.countLabels src + need n dst src <= Labels.countLabels r); [|lia].
  rewrite !(countLabels_cnt_upto n) by done. unfold need. rewrite <- zsum_fmap_add.
  apply zsum_le, Forall_forall. intros k _. specialize (Hsub k).
  destruct (decide (k = kWildcard)) as [->|Hk].
  - unfold pcnt. rewrite cnt_proper_wildcard. pose proof (cnt_nonneg kWildcard src Hs). lia.
  - unfold pcnt. rewrite proper_cnt by done. specialize (Hr1 k Hk). lia.
Qed.

(** One copy on label 3 and three on label 5, when one is needed on 3, one on 4 and
    one anywhere: one copy has to be recovered and two can be removed. *)
Lemma operation_count_exact_witness :
  operationCount [(3, 1); (5, 3)] [(3, 1); (4, 1); (kWildcard, 1)] = (1, 2) ∧
  4 + 1 - 2 = Labels.countLabels [(3, 1); (4, 1); (kWildcard, 1)].
Proof.
  split; [vm_compute; reflexivity|].
  refine (proj1 (proj2 (proj2 (operation_count_exact [(3, 1); (5, 3)] [(3, 1); (4, 1); (kWildcard, 1)] _ _))));
    solve_labels_wf.
Defined.

(** ** Label lists collected during a walk *)

(** The entries produced by the events, in their order. *)
Definition collect (f : event → option Z) (evs : list event) : Labels.t :=
  omap (fun e => (fun n => (key e, n)) <$> f e) evs.

Lemma collect_cons f e evs :
  collect f (e :: evs) = match f e with Some n => (key e, n) :: collect f evs | None => collect f evs end.
Proof. unfold collect. simpl. by destruct (f e). Qed.

Lemma collect_elem f evs x :
  x ∈ collect f evs → ∃ e, e ∈ evs ∧ key e = fst x ∧ f e = Some (snd x).
Proof.
  unfold collect. rewrite list_elem_of_omap. intros (e & He & (n & Hn & ->)%fmap_Some). eauto.
Qed.

Lemma collect_wf f evs :
  StronglySorted (fun a b => key a < key b) evs →
  (∀ e n, e ∈ evs → f e = Some n → 0 <= key e <= kWildcard ∧ 0 <= n < 2 ^ 16) → labels_wf (collect f evs).
Proof.
  induction 1 as [|e evs Hs IH Hlt]; intros Hf; [apply labels_wf_nil|]. rewrite Forall_forall in Hlt.
  rewrite collect_cons. assert (labels_wf (collect f evs)) as Hwf.
  { apply IH. intros e' n He'. apply Hf. by right. }
  destruct (f e) as [n|] eqn:E; [|done]. destruct (Hf e n ltac:(by left) E).
  apply labels_wf_cons. split_and!; try lia; [done|].
  intros y (e' & He' & <- & _)%collect_elem. by apply Hlt.
Qed.

Lemma collect_cnt f evs e :
  StronglySorted (fun a b => key a < key b) evs → e ∈ evs → cnt (key e) (collect f evs) = default 0 (f e).
Proof.
  induction 1 as [|e' evs Hs IH Hlt]; intros He; [by apply elem_of_nil in He|].
  rewrite Forall_forall in Hlt. rewrite collect_cons. apply elem_of_cons in He as [<-|He].
  - destruct (f e); simpl; [by rewrite Z.eqb_refl|]. apply cnt_gt.
    intros x (e' & He' & <- & _)%collect_elem. by apply Hlt.
  - specialize (Hlt e He). destruct (f e'); simpl; [|by apply IH].
    rewrite (proj2 (Z.eqb_neq _ _)) by lia. by apply IH.
Qed.

Lemma collect_cnt_absent f evs k : (∀ e, e ∈ evs → key e ≠ k) → cnt k (collect f evs) = 0.
Proof. intros H. apply cnt_absent. intros y (e & He & <- & _)%collect_elem. by apply H. Qed.

(** A value per label, from a function of the two counts that vanishes at zero. *)
Lemma collect_align f g dst src k :
  labels_wf dst → labels_wf src → (∀ e, default 0 (f e) = g (snd (fst e)) (snd e)) → g 0 0 = 0 →
  cnt k (collect f (align dst src)) = g (pcnt k dst) (cnt k src).
Proof.
  intros Hd Hs Hf Hg. pose proof (align_correct dst src Hd Hs) as [H1 H2 H3].
  destruct (decide (Exists (fun e => key e = k) (align dst src))) as [Hex|Hne].
  - apply Exists_exists in Hex as ([[k' d] s] & He & Ek). unfold key in Ek. simpl in Ek. subst k'.
    pose proof (collect_cnt f _ (k, d, s) H1 He) as Hc. unfold key in Hc. simpl in Hc.
    rewrite Hc, Hf. simpl. by destruct (H2 k d s He) as (_ & -> & ->).
  - assert (∀ e, e ∈ align dst src → key e ≠ k) as Hk.
    { intros e He E. apply Hne, Exists_exists. eauto. }
    rewrite collect_cnt_absent by done. by destruct (H3 k Hk) as [-> ->].
Qed.

(** A walk that assigns the collected entries one after another. *)
Definition assign_step {S} (f : event → option Z) (g : S → event → S) (acc : Labels.t * S) (e : event) :
    Labels.t * S :=
  (match f e with Some n => Labels.assign (key e) n (fst acc) | None => fst acc end, g (snd acc) e).

Lemma assign_fold {S} f (g : S → event → S) evs base st :
  StronglySorted (fun a b => key a < key b) evs →
  (∀ e n, e ∈ evs → f e = Some n → 0 <= key e <= kWildcard ∧ 0 <= n < 2 ^ 16) →
  labels_wf base → (∀ x e, x ∈ base → e ∈ evs → fst x < key e) →
  fold_left (assign_step f g) evs (base, st) = (base ++ collect f evs, fold_left g evs st).
Proof.
  intros Hs. revert base st. induction Hs as [|e evs Hs IH Hlt]; intros base st Hf Hb Hbe.
  { simpl. by rewrite app_nil_r. }
  rewrite Forall_forall in Hlt. cbn [fold_left]. unfold assign_step at 2. cbn [fst snd]. rewrite collect_cons.
  assert (∀ e' n, e' ∈ evs → f e' = Some n → 0 <= key e' <= kWildcard ∧ 0 <= n < 2 ^ 16) as Hf'
    by (intros e' n He'; apply Hf; by right).
  destruct (f e) as [n|] eqn:E.
  - destruct (Hf e n ltac:(by left) E) as [Hk Hn].
    assert (∀ x, x ∈ base → fst x < key e) as Hlt' by (intros x Hx; apply Hbe; [done|by left]).
    rewrite assign_last by done. rewrite wrapu_small by lia. rewrite IH; [|done| |].
    + by rewrite <- (assoc_L (++)).
    + by apply labels_wf_snoc.
    + intros x e' [Hx| ->%list_elem_of_singleton]%elem_of_app He'; [apply Hbe; [done|by right]|by apply Hlt].
  - apply IH; [done..|]. intros x e' Hx He'. apply Hbe; [done|by right].
Qed.

(** ** getLabelsToRecover *)

Definition deficit (e : event) : option Z :=
  if snd e <? snd (fst e) then Some (snd (fst e) - snd e) else None.
Definition spend (w : Z) (e : event) : Z := w - Z.min w (over e).
Abbreviation rec_step := (assign_step deficit spend).

Lemma spend_closed evs w : 0 <= w → fold_left spend evs w = w - Z.min w (zsum (over <$> evs)).
Proof.
  intros Hw. pose proof (op_fold_closed evs w 0 0 Hw) as H.
  assert (∀ r m, (fold_left op_step evs (w, r, m)).1.1 = fold_left spend evs w) as E.
  { clear. revert w. induction evs as [|e evs IH]; intros w r m; [done|]. simpl. apply IH. }
  rewrite <- (E 0 0), H. done.
Qed.

Lemma rec_step_src w result l n : 0 <= n → rec_step (result, w) (l, 0, n) = (result, w - Z.min w n).
Proof.
  intros Hn. unfold assign_step, deficit, spend, over. simpl. rewrite (proj2 (Z.ltb_ge n 0)) by lia.
  f_equal. lia.
Qed.

Lemma rec_tail_fold src result w :
  labels_wf src →
  (result, fold_left (fun w x => w - Z.min w (snd x)) src w) = fold_left rec_step (only_src src) (result, w).
Proof.
  revert w. induction src as [|[l n] src IH]; intros w Hs; [done|].
  apply labels_wf_cons in Hs as (_ & Hn & Hs & _).
  change (only_src ((l, n) :: src)) with ((l, 0, n) :: only_src src). cbn [fold_left].
  rewrite rec_step_src by lia. by apply IH.
Qed.

Lemma rec_skip_fold label src result w :
  labels_wf src → 0 <= w →
  let '(pre, post) := split_lt label src in
  ∃ w', rec_skip label src w = (post, w') ∧ 0 <= w' ∧
    fold_left rec_step (only_src pre) (result, w) = (result, w').
Proof.
  revert w. induction src as [|[l n] src IH]; intros w Hs Hw; [by exists w|].
  apply labels_wf_cons in Hs as (_ & Hn & Hs & _). simpl. destruct (l <? label); [|by exists w].
  specialize (IH (w - Z.min w n) Hs ltac:(lia)). destruct (split_lt label src) as [pre post].
  change (only_src ((l, n) :: pre)) with ((l, 0, n) :: only_src pre). cbn [fold_left].
  by rewrite rec_step_src by lia.
Qed.

Lemma rec_target_fold target avail result w :
  labels_wf target → positive target → labels_wf avail → 0 <= w →
  ∃ avail' result' w', rec_target target avail result w = Ok (avail', result', w') ∧
    (result', fold_left (fun w x => w - Z.min w (snd x)) avail' w') =
    fold_left rec_step (align target avail) (result, w).
Proof.
  revert avail result w. induction target as [|[label count] target IH];
    intros avail result w Ht Hpos Ha Hw; cbn [rec_target align].
  { exists avail, result, w. split; [done|]. by apply rec_tail_fold. }
  pose proof Ht as (Hl & Hc & Ht' & Hgt)%labels_wf_cons. pose proof Hpos as [Hc0 Hpos']%Forall_cons. simpl in Hc0.
  destruct (label =? kWildcard).
  { exists avail, result, w. split; [done|]. by apply rec_tail_fold. }
  pose proof (rec_skip_fold label avail result w Ha Hw) as Hskip.
  destruct (split_lt_spec label avail Ha) as (pre & post & E & -> & _ & _). rewrite E in Hskip |- *.
  destruct Hskip as (w1 & -> & Hw1 & Hf). pose proof Ha as (_ & Hp & _)%labels_wf_app.
  rewrite fold_left_app, Hf.
  assert (rec_step (result, w1) (label, count, 0) = (Labels.assign label count result, w1)) as Enone.
  { unfold assign_step, deficit, spend, over, key. simpl. rewrite (proj2 (Z.ltb_lt 0 count)) by done.
    rewrite Z.sub_0_r. f_equal. lia. }
  rewrite (proj2 (Z.ltb_lt 0 count)) by done. cbn [assertion].
  destruct post as [|[l n] post']; [cbn [fold_left]; rewrite Enone; by apply IH|].
  pose proof Hp as (_ & Hn & Hp' & _)%labels_wf_cons.
  destruct (l =? label); [|cbn [fold_left]; rewrite Enone; by apply IH]. cbn [fold_left].
  unfold assign_step at 2, deficit, spend, over, key. cbn [fst snd].
  destruct (Z.ltb_spec n count), (Z.ltb_spec count n); try lia.
  - rewrite Z.max_l, Z.min_r, Z.sub_0_r by lia. by apply IH.
  - rewrite Z.max_r by lia. apply IH; try done; lia.
  - rewrite Z.max_l, Z.min_r, Z.sub_0_r by lia. by apply IH.
Qed.

Lemma deficit_range target avail e n :
  labels_wf target → labels_wf avail → e ∈ align target avail → deficit e = Some n →
  0 <= key e < kWildcard ∧ 0 < n < 2 ^ 16.
Proof.
  intros Ht Ha. pose proof (align_correct target avail Ht Ha) as [_ H2 _]. destruct e as [[k d] s].
  intros (Hk & -> & ->)%H2. unfold deficit, key. simpl. destruct (Z.ltb_spec (cnt k avail) (pcnt k target)); [|done].
  intros [= <-]. pose proof (cnt_nonneg k avail Ha).
  assert (0 <= pcnt k target < 2 ^ 16).
  { pose proof (proper_wf target Ht) as Hw. revert Hw. unfold pcnt. generalize (proper target). intros l.
    induction l as [|[k' c] l IH]; simpl; [lia|]. intros (_ & ? & ? & _)%labels_wf_cons.
    destruct (k =? k'); [lia|auto]. }
  split; [|lia]. destruct (Z.eq_dec k kWildcard) as [->|]; [|lia].
  unfold pcnt in *. rewrite cnt_proper_wildcard in *. lia.
Qed.

Lemma cnt_u16 k l : labels_wf l → cnt k l < 2 ^ 16.
Proof.
  induction l as [|[k' c] l IH]; simpl; [lia|]. intros (_ & ? & ? & _)%labels_wf_cons.
  destruct (k =? k'); [lia|auto].
Qed.

Lemma labels_to_recover_spec n target avail :
  labels_wf target → positive target → labels_wf avail → kWildcard < n →
  ∃ r, labels_to_recover target avail = Ok r ∧ labels_wf r ∧ positive r ∧
    (∀ k, k ≠ kWildcard → cnt k r = Z.max 0 (cnt k target - cnt k avail)) ∧
    cnt kWildcard r = Z.max 0 (cnt kWildcard target - surplus n target avail).
Proof.
  intros Ht Hpos Ha Hn. unfold labels_to_recover. rewrite get_cnt by done.
  set (w := cnt kWildcard target). assert (0 <= w < 2 ^ 16) as Hw by (split; [by apply cnt_nonneg|by apply cnt_u16]).
  destruct (rec_target_fold target avail [] w) as (avail' & result' & w' & -> & E); [done..|lia|].
  pose proof (align_correct target avail Ht Ha) as [H1 H2 H3].
  rewrite (assign_fold deficit spend) in E;
    [|done| |apply labels_wf_nil|by intros ? ? ?%elem_of_nil].
  2:{ intros e m He Hm. destruct (deficit_range target avail e m Ht Ha He Hm). lia. }
  rewrite spend_closed, (align_surplus n), app_nil_l in E by (done || lia). injection E as -> Ew. simpl. rewrite Ew.
  set (r := collect deficit (align target avail)). set (w2 := w - Z.min w (surplus n target avail)).
  assert (labels_wf r) as Hr.
  { apply collect_wf; [done|]. intros e m He Hm. destruct (deficit_range target avail e m Ht Ha He Hm). lia. }
  assert (positive r) as Hrp.
  { apply Forall_forall. intros x (e & He & _ & Hm)%collect_elem.
    destruct (deficit_range target avail e _ Ht Ha He Hm). lia. }
  assert (∀ x, x ∈ r → fst x < kWildcard) as Hlt.
  { intros x (e & He & <- & Hm)%collect_elem. destruct (deficit_range target avail e _ Ht Ha He Hm). lia. }
  assert (∀ k, k ≠ kWildcard → cnt k r = Z.max 0 (cnt k target - cnt k avail)) as Hcnt.
  { intros k Hk. unfold r. rewrite (collect_align deficit (fun d s => Z.max 0 (d - s))) by
      (done || intros e; unfold deficit; zcases). unfold pcnt. by rewrite proper_cnt. }
  pose proof (surplus_nonneg n target avail).
  destruct (Z.ltb_spec 0 w2) as [Hw2|Hw2].
  - rewrite assign_last, wrapu_small by (done || lia). exists (r ++ [(kWildcard, w2)]).
    assert (below r [(kWildcard, w2)]) as Hb by (intros x y Hx ->%list_elem_of_singleton; by apply Hlt).
    split; [done|]. split; [apply labels_wf_snoc; try done; lia|]. split.
    { apply Forall_app. split; [done|]. by apply Forall_singleton. }
    split; [intros k Hk|]; rewrite cnt_app by done; simpl.
    + rewrite (proj2 (Z.eqb_neq _ _) Hk), Hcnt by done. lia.
    + rewrite (cnt_absent kWildcard r); [lia|]. intros y Hy. specialize (Hlt y Hy). lia.
  - exists r. split_and!; try done. rewrite (cnt_absent kWildcard r); [lia|].
    intros y Hy. specialize (Hlt y Hy). lia.
Qed.

(** the labels returned by [getLabelsToRecover] for a part are exactly what has to
    be recovered: their number is the number of parts to recover that
    [operationCount] reports, no assertion fails, every count is positive, and adding
    a copy for each of them to the available copies meets the target. *)
Theorem labels_to_recover_exact target avail :
  labels_wf target → positive target → labels_wf avail →
  ∃ r, labels_to_recover target avail = Ok r ∧ labels_wf r ∧ positive r ∧
    Labels.countLabels r = fst (operationCount avail target) ∧
    ∀ r', labels_wf r' → (∀ k, cnt k r' = cnt k avail + cnt k r) → meets r' target.
Proof.
  intros Ht Hpos Ha. assert (∃ n, kWildcard < n) as [n Hn] by (exists (kWildcard + 1); lia).
  destruct (labels_to_recover_spec n target avail) as (r & E & Hr & Hrp & Hc & Hw); [done..|].
  assert (Labels.countLabels r = fst (operationCount avail target)) as Hcount.
  { rewrite (operationCount_spec n), (countLabels_split n) by done. simpl. rewrite Hw. f_equal. unfold need.
    apply zsum_fmap_ext. intros k _. unfold pcnt. destruct (decide (k = kWildcard)) as [->|Hk].
    - rewrite !cnt_proper_wildcard. pose proof (cnt_nonneg kWildcard avail Ha). lia.
    - rewrite !proper_cnt by done. by apply Hc. }
  exists r. split; [done|]. split; [done|]. split; [done|]. split; [done|].
  intros r' Hr' Hsum. split.
  - intros k Hk. rewrite Hsum, Hc by done. lia.
  - assert (Labels.countLabels r' = Labels.countLabels avail + Labels.countLabels r) as ->.
    { rewrite !(countLabels_cnt_upto n) by done. rewrite <- zsum_fmap_add.
      apply zsum_fmap_ext. intros k _. apply Hsum. }
    rewrite Hcount, (operationCount_spec n) by done. simpl.
    pose proof (balance n avail target Ha Ht Hn). pose proof (surplus_nonneg n target avail). lia.
Qed.

Ltac solve_positive := repeat (apply Forall_cons; split; [done|]); constructor.

Lemma labels_to_recover_exact_witness :
  ∃ r, labels_to_recover [(3, 2); (4, 1); (kWildcard, 3)] [(3, 1); (5, 2)] = Ok r ∧
    labels_wf r ∧ positive r ∧
    Labels.countLabels r = fst (operationCount [(3, 1); (5, 2)] [(3, 2); (4, 1); (kWildcard, 3)]) ∧
    ∀ r', labels_wf r' → (∀ k, cnt k r' = cnt k [(3, 1); (5, 2)] + cnt k r) →
      meets r' [(3, 2); (4, 1); (kWildcard, 3)].
Proof.
  apply (labels_to_recover_exact [(3, 2); (4, 1); (kWildcard, 3)] [(3, 1); (5, 2)]);
    [solve_labels_wf|solve_positive|solve_labels_wf].
Defined.

(** ** getRemovePool *)

Definition excess (e : event) : option Z := if snd (fst e) <? snd e then Some 1 else None.
Definition gain (w : Z) (e : event) : Z := w + over e.
Abbreviation pool_step := (assign_step excess gain).

Lemma gain_closed evs w : fold_left gain evs w = w + zsum (over <$> evs).
Proof.
  revert w. induction evs as [|e evs IH]; intros w; csimpl; [rewrite zsum_nil; lia|].
  rewrite IH, zsum_cons. unfold gain. lia.
Qed.

Lemma pool_step_src w result l n :
  0 < n → pool_step (result, w) (l, 0, n) = (Labels.assign l 1 result, w + n).
Proof.
  intros Hn. unfold assign_step, excess, gain, over, key. simpl. rewrite (proj2 (Z.ltb_lt 0 n)) by lia.
  f_equal. lia.
Qed.

Lemma pool_tail_fold src result w :
  positive src → pool_tail src result w = Ok (fold_left pool_step (only_src src) (result, w)).
Proof.
  revert result w. induction src as [|[l n] src IH]; intros result w Hp; [done|].
  apply Forall_cons in Hp as [Hn Hp]. simpl in Hn. cbn [pool_tail].
  rewrite (proj2 (Z.ltb_lt 0 n)) by done. cbn [assertion].
  change (only_src ((l, n) :: src)) with ((l, 0, n) :: only_src src). cbn [fold_left].
  rewrite pool_step_src by done. by apply IH.
Qed.

Lemma pool_skip_fold label src result w :
  positive src →
  let '(pre, post) := split_lt label src in
  let '(result', w') := fold_left pool_step (only_src pre) (result, w) in
  pool_skip label src result w = Ok (post, result', w').
Proof.
  revert result w. induction src as [|[l n] src IH]; intros result w Hp; [done|].
  apply Forall_cons in Hp as [Hn Hp]. simpl in Hn. cbn [pool_skip split_lt].
  destruct (l <? label); [|done]. rewrite (proj2 (Z.ltb_lt 0 n)) by done. cbn [assertion].
  specialize (IH (Labels.assign l 1 result) (w + n) Hp). destruct (split_lt label src) as [pre post].
  change (only_src ((l, n) :: pre)) with ((l, 0, n) :: only_src pre). cbn [fold_left].
  by rewrite pool_step_src by done.
Qed.

Lemma pool_target_fold target avail result w :
  labels_wf target → labels_wf avail → positive avail →
  ∃ avail' result' w', pool_target target avail result w = Ok (avail', result', w', cnt kWildcard target) ∧
    pool_tail avail' result' w' = Ok (fold_left pool_step (align target avail) (result, w)).
Proof.
  revert avail result w. induction target as [|[label count] target IH];
    intros avail result w Ht Ha Hpos; cbn [pool_target align].
  { exists avail, result, w. split; [done|]. by apply pool_tail_fold. }
  pose proof Ht as (Hl & Hc & Ht' & Hgt)%labels_wf_cons. cbn [cnt]. rewrite (Z.eqb_sym kWildcard).
  destruct (label =? kWildcard).
  { exists avail, result, w. split; [done|]. by apply pool_tail_fold. }
  pose proof (pool_skip_fold label avail result w Hpos) as Hskip.
  destruct (split_lt_spec label avail Ha) as (pre & post & E & -> & _ & _). rewrite E in Hskip |- *.
  rewrite fold_left_app. destruct (fold_left pool_step (only_src pre) (result, w)) as [result1 w1].
  rewrite Hskip. pose proof Ha as (_ & Hp & _)%labels_wf_app. apply Forall_app in Hpos as [_ Hpos].
  assert (pool_step (result1, w1) (label, count, 0) = (result1, w1)) as Enone.
  { unfold assign_step, excess, gain, over. simpl. rewrite (proj2 (Z.ltb_ge count 0)) by lia. f_equal. lia. }
  cbn [mbind res_bind].
  destruct post as [|[l n] post']; [cbn [fold_left]; rewrite Enone; by apply IH|].
  pose proof Hp as (_ & Hn & Hp' & _)%labels_wf_cons. pose proof Hpos as [Hn0 Hpos']%Forall_cons.
  destruct (l =? label); [|cbn [fold_left]; rewrite Enone; by apply IH]. cbn [fold_left].
  unfold assign_step at 2, excess, gain, over, key. cbn [fst snd].
  destruct (Z.ltb_spec count n).
  - rewrite Z.max_r by lia. by apply IH.
  - rewrite Z.max_l, Z.add_0_r by lia. by apply IH.
Qed.

Lemma remove_pool_spec n target avail :
  labels_wf target → labels_wf avail → positive avail → kWildcard < n →
  remove_pool target avail =
  Ok (if surplus n target avail <=? cnt kWildcard target then []
      else collect excess (align target avail)).
Proof.
  intros Ht Ha Hpos Hn. unfold remove_pool.
  destruct (pool_target_fold target avail [] 0) as (avail' & result' & w' & -> & E); [done..|].
  cbn [mbind res_bind]. rewrite E. cbn [mbind res_bind].
  pose proof (align_correct target avail Ht Ha) as [H1 H2 H3].
  rewrite (assign_fold excess gain);
    [|done| |apply labels_wf_nil|by intros ? ? ?%elem_of_nil].
  2:{ intros [[k d] s] m (Hk & _)%H2. unfold excess. destruct (_ <? _); [intros [= <-]; done|done]. }
  by rewrite gain_closed, (align_surplus n), Z.add_0_l, app_nil_l by done.
Qed.

Lemma excess_cnt target avail k :
  labels_wf target → labels_wf avail →
  cnt k (collect excess (align target avail)) = if pcnt k target <? cnt k avail then 1 else 0.
Proof.
  intros Ht Ha. apply (collect_align excess (fun d s => if d <? s then 1 else 0)); try done.
  intros e. unfold excess. by destruct (_ <? _).
Qed.

(** The effect of removing one copy on a label. *)
Lemma one_less n target avail a' k0 :
  0 <= k0 < n → cnt k0 a' = cnt k0 avail - 1 → (∀ j, j ≠ k0 → cnt j a' = cnt j avail) →
  need n target a' = need n target avail + (if pcnt k0 target <? cnt k0 avail then 0 else 1) ∧
  surplus n target a' = surplus n target avail - (if pcnt k0 target <? cnt k0 avail then 1 else 0).
Proof.
  intros Hk Hk0 Hj. unfold need, surplus. split.
  - set (d := if _ <? _ then 0 else 1). rewrite <- (zsum_indicator k0 d n) by done.
    rewrite <- zsum_fmap_add. apply zsum_fmap_ext. intros k _.
    destruct (Z.eqb_spec k k0) as [->|Hne]; [rewrite Hk0; unfold d; zcases|rewrite Hj by done; lia].
  - set (d := if _ <? _ then 1 else 0). apply Z.add_move_r.
    rewrite <- (zsum_indicator k0 d n) at 1 by done.
    rewrite <- zsum_fmap_add. apply zsum_fmap_ext. intros k _.
    destruct (Z.eqb_spec k k0) as [->|Hne]; [rewrite Hk0; unfold d; zcases|rewrite Hj by done; lia].
Qed.

(** the pool returned by [getRemovePool] is sound and complete.  It is non-empty
    exactly when [operationCount] reports copies to remove; and a label that has
    copies is in the pool exactly when removing one of them leaves the number of
    copies to recover unchanged and lowers the number of copies to remove by one. *)
Theorem remove_pool_exact target avail :
  labels_wf target → labels_wf avail → positive avail →
  ∃ pool, remove_pool target avail = Ok pool ∧
    (pool ≠ [] ↔ 0 < snd (operationCount avail target)) ∧
    ∀ k a', labels_wf a' → 0 < cnt k avail → cnt k a' = cnt k avail - 1 →
      (∀ j, j ≠ k → cnt j a' = cnt j avail) →
      (0 < cnt k pool ↔
       operationCount a' target =
         (fst (operationCount avail target), snd (operationCount avail target) - 1)).
Proof.
  intros Ht Ha Hpos. assert (∃ n, kWildcard < n) as [n Hn] by (exists (kWildcard + 1); lia).
  rewrite (remove_pool_spec n), (operationCount_spec n) by done.
  eexists. split; [reflexivity|]. cbn [fst snd].
  pose proof (surplus_nonneg n target avail). pose proof (cnt_nonneg kWildcard target Ht).
  destruct (Z.leb_spec (surplus n target avail) (cnt kWildcard target)) as [Hle|Hgt]; (split; [|intros k a' Ha' Hk Hk' Hj]).
  - split; [done|lia].
  - rewrite (operationCount_spec n) by done. cbn [cnt]. split; [lia|].
    intros [= _ H1]. lia.
  - split; [lia|]. intros _ Hnil.
    assert (surplus n target avail = 0); [|lia]. unfold surplus.
    rewrite (zsum_fmap_ext _ (fun _ => 0)); [by rewrite zsum_fmap_const|]. intros k _.
    pose proof (excess_cnt target avail k Ht Ha) as E. rewrite Hnil in E. cbn [cnt] in E. zcases.
  - assert (0 <= k < n) as Hr.
    { destruct (decide (0 <= k <= kWildcard)); [lia|]. rewrite cnt_out_of_range in Hk by done. lia. }
    destruct (one_less n target avail a' k Hr Hk' Hj) as [E1 E2].
    rewrite (operationCount_spec n a'), E1, E2, excess_cnt by done.
    destruct (pcnt k target <? cnt k avail).
    + split; [intros _; tuple_lia|lia].
    + split; [lia|]. intros [= H1 H2]. lia.
Qed.

(** Two copies on label 3 where one is needed, and one on label 5 where none is. *)
Lemma remove_pool_exact_witness :
  remove_pool [(3, 1); (kWildcard, 1)] [(3, 2); (5, 1)] = Ok [(3, 1); (5, 1)] ∧
  ∃ pool, remove_pool [(3, 1); (kWildcard, 1)] [(3, 2); (5, 1)] = Ok pool ∧
    (pool ≠ [] ↔ 0 < snd (operationCount [(3, 2); (5, 1)] [(3, 1); (kWildcard, 1)])) ∧
    ∀ k a', labels_wf a' → 0 < cnt k [(3, 2); (5, 1)] → cnt k a' = cnt k [(3, 2); (5, 1)] - 1 →
      (∀ j, j ≠ k → cnt j a' = cnt j [(3, 2); (5, 1)]) →
      (0 < cnt k pool ↔
       operationCount a' [(3, 1); (kWildcard, 1)] =
         (fst (operationCount [(3, 2); (5, 1)] [(3, 1); (kWildcard, 1)]),
          snd (operationCount [(3, 2); (5, 1)] [(3, 1); (kWildcard, 1)]) - 1)).
Proof.
  split; [vm_compute; reflexivity|].
  apply (remove_pool_exact [(3, 1); (kWildcard, 1)] [(3, 2); (5, 1)]);
    [solve_labels_wf|solve_labels_wf|solve_positive].
Defined.

(** ** Redundancy *)

(** The number of distinct parts of a slice that have at least [c] copies. *)
Definition parts_with (c : Z) (s : Slice.t) : Z :=
  zsum ((fun count => if c <=? count then 1 else 0) <$> (Labels.countLabels <$> Slice.parts s)).

(** The data of a slice can be read: it is not a tape slice, and enough distinct parts
    are there. *)
Definition slice_recoverable (s : Slice.t) : Prop :=
  SliceTraits.isTape (Slice.type_ s) = false ∧
  SliceTraits.requiredPartsToRecover (Slice.type_ s) <= parts_with 1 s.

#[global] Instance slice_recoverable_dec s : Decision (slice_recoverable s).
Proof. unfold slice_recoverable. apply _. Defined.

Definition recoverable (g : GoalModel.t) : Prop := Exists slice_recoverable (GoalModel.goal_slices_ g).

(** Well-formed available parts: every listed label has at least one copy. *)
Record avail_slice (s : Slice.t) : Prop := {
  as_wf : slice_wf s;
  as_pos : Forall positive (Slice.parts s);
  as_len : Forall (fun p => Z.of_nat (length p) < 2 ^ 16) (Slice.parts s);
}.

Record avail_wf (g : GoalModel.t) : Prop := {
  aw_goal : goal_wf g;
  aw_slices : Forall avail_slice (GoalModel.goal_slices_ g);
}.

Lemma slice_kinds t :
  SliceType.isValid t = true →
  (SliceTraits.isTape t = true ∧ SliceTraits.isStandard t = false ∧ SliceTraits.isXor t = false ∧ SliceTraits.isEC t = false) ∨
  (SliceTraits.isTape t = false ∧ SliceTraits.isStandard t = true ∧ SliceTraits.getNumberOfDataParts t = 1 ∧
   Slice.type_size t = 1%nat) ∨
  (SliceTraits.isTape t = false ∧ SliceTraits.isStandard t = false ∧
   SliceTraits.isXor t || SliceTraits.isEC t = true).
Proof.
  unfold SliceType.isValid, SliceTraits.isTape, SliceTraits.isStandard, SliceTraits.isXor, SliceTraits.isEC.
  unfold SliceType.kStandard, SliceType.kTape, SliceType.kXor2, SliceType.kXor9, SliceType.kECFirst, SliceType.kTypeCount,
    SliceType.kECLast, SliceType.kECFirst.
  intros [H1%Z.leb_le H2%Z.ltb_lt]%andb_true_iff.
  destruct (Z.eq_dec t 0) as [->|]; [right; left; done|].
  destruct (Z.eq_dec t 1) as [->|]; [left; done|]. right. right. split_and!; [lia|lia|].
  destruct (Z.leb_spec t 9); lia.
Qed.

Lemma zsum_counts_nonneg s : slice_wf s → Forall (fun c => 0 <= c) (Labels.countLabels <$> Slice.parts s).
Proof.
  intros Hs. apply Forall_fmap. eapply Forall_impl; [apply (sw_parts s Hs)|]. intros. by apply countLabels_nonneg.
Qed.

Lemma parts_with_pos s :
  parts_with 1 s = zsum ((fun count => if 0 <? count then 1 else 0) <$> (Labels.countLabels <$> Slice.parts s)).
Proof. unfold parts_with. apply zsum_fmap_ext. intros c _. zcases. Qed.

Lemma standard_parts s :
  slice_wf s → Slice.type_size (Slice.type_ s) = 1%nat → ∃ p, Slice.parts s = [p] ∧ labels_wf p.
Proof.
  intros Hs Hsz. pose proof (length_parts s Hs) as Hl. unfold Slice.size in Hl. rewrite Hsz in Hl.
  pose proof (sw_parts s Hs) as Hp. destruct (Slice.parts s) as [|p [|? ?]]; simplify_eq/=.
  exists p. by inversion Hp.
Qed.

(** The redundancy level of a slice is negative exactly when its data is lost. *)
Lemma slice_level_recoverable s :
  slice_wf s → 0 <= evalSliceRedundancyLevel s ↔ slice_recoverable s.
Proof.
  intros Hs. unfold evalSliceRedundancyLevel, slice_recoverable, SliceTraits.requiredPartsToRecover.
  rewrite <- parts_with_pos. destruct (slice_kinds _ (sw_type s Hs)) as [(-> & -> & -> & ->)|[(-> & -> & -> & Hsz)|(-> & -> & ->)]].
  - simpl. split; [lia|by intros [? _]].
  - destruct (standard_parts s Hs Hsz) as (p & E & Hp). unfold parts_with. rewrite E.
    rewrite !list_fmap_singleton. rewrite !zsum_cons, !zsum_nil.
    pose proof (countLabels_nonneg p Hp). destruct (Z.leb_spec 1 (Labels.countLabels p)); intuition lia.
  - split; [intros; split; [done|lia]|intros [_ ?]; lia].
Qed.

Lemma goal_redundancy_contrib g : 
  0 <= zsum ((fun slice => Z.max (evalSliceRedundancyLevel slice + 1) 0) <$> GoalModel.goal_slices_ g).
Proof. apply zsum_fmap_nonneg, Forall_forall. lia. Qed.

Lemma zsum_elem_le {A} (f : A → Z) l x : (∀ y, 0 <= f y) → x ∈ l → f x <= zsum (f <$> l).
Proof.
  intros Hf. induction l as [|y l IH]; [by intros ?%elem_of_nil|]. zsum_simpl.
  assert (0 <= zsum (f <$> l)) by (apply zsum_fmap_nonneg, Forall_forall; auto).
  pose proof (Hf y). intros [->|Hx]%elem_of_cons; [lia|]. specialize (IH Hx). lia.
Qed.

Lemma goal_redundancy_recoverable g : avail_wf g → 0 <= goal_redundancy g ↔ recoverable g.
Proof.
  intros [Hg Hs]. unfold goal_redundancy, recoverable. rewrite Forall_forall in Hs. split.
  - intros H. apply dec_stable. rewrite Exists_exists. intros Hno.
    rewrite (zsum_fmap_ext _ (fun _ => 0)) in H; [rewrite zsum_fmap_const in H; lia|].
    intros s Hin. destruct (decide (0 <= evalSliceRedundancyLevel s)) as [Hl|Hl]; [|lia].
    exfalso. apply Hno. exists s. split; [done|]. by apply slice_level_recoverable; [apply Hs|].
  - rewrite Exists_exists. intros (s & Hin & Hr). apply slice_level_recoverable in Hr; [|by apply Hs].
    pose proof (zsum_elem_le (fun slice => Z.max (evalSliceRedundancyLevel slice + 1) 0)
      (GoalModel.goal_slices_ g) s ltac:(simpl; lia) Hin). simpl in *. lia.
Qed.

(** ** addPart and removePart *)

Lemma cnt_middle i l1 k n l2 :
  labels_wf (l1 ++ (k, n) :: l2) →
  cnt i (l1 ++ (k, n) :: l2) = (if i =? k then n else cnt i l1 + cnt i l2) ∧ cnt k l1 = 0 ∧ cnt k l2 = 0.
Proof.
  intros (H1 & H2 & Hb)%labels_wf_app. pose proof H2 as (_ & _ & _ & Hgt)%labels_wf_cons.
  assert (cnt k l1 = 0) as E1.
  { apply cnt_absent. intros y Hy E. specialize (Hb y (k, n) Hy ltac:(by left)). simpl in Hb. lia. }
  split; [|split; [done|by apply cnt_gt]].
  rewrite cnt_app by done. simpl. destruct (Z.eqb_spec i k) as [->|]; lia.
Qed.

Lemma lookup_middle {A} (l : list A) j x :
  l !! j = Some x → ∃ l1 l2, l = l1 ++ x :: l2 ∧ length l1 = j ∧
    (∀ y, <[j := y]> l = l1 ++ y :: l2) ∧ verase j l = l1 ++ l2.
Proof.
  intros Hj. exists (take j l), (drop (S j) l). pose proof (lookup_lt_Some _ _ _ Hj).
  split_and!; [by rewrite take_drop_middle|rewrite length_take; lia| |done].
  intros y. by apply insert_take_drop.
Qed.

(** Setting the count of a label that is present. *)
Lemma labels_update l j k n m :
  labels_wf l → l !! j = Some (k, n) → 0 <= m < 2 ^ 16 →
  labels_wf (<[j := (k, m)]> l) ∧
  Labels.countLabels (<[j := (k, m)]> l) = Labels.countLabels l - n + m ∧
  (∀ i, cnt i (<[j := (k, m)]> l) = if i =? k then m else cnt i l).
Proof.
  intros Hl Hj Hm. destruct (lookup_middle l j (k, n) Hj) as (l1 & l2 & -> & _ & Hins & _). rewrite Hins.
  assert (labels_wf (l1 ++ (k, m) :: l2)) as Hw.
  { apply labels_wf_app in Hl as (H1 & H2 & Hb). apply labels_wf_cons in H2 as (Hk & _ & H2 & Hgt).
    apply labels_wf_app. split_and!; [done|by apply labels_wf_cons|].
    intros x y Hx [->|Hy]%elem_of_cons; [|apply Hb; [done|by right]].
    apply (Hb x (k, n)); [done|by left]. }
  split; [done|]. split; [rewrite !countLabels_app, !countLabels_cons; lia|].
  intros i. destruct (cnt_middle i l1 k m l2 Hw) as [-> _]. destruct (cnt_middle i l1 k n l2 Hl) as [-> _].
  by destruct (i =? k).
Qed.

(** Erasing a label. *)
Lemma labels_erase l j k n :
  labels_wf l → l !! j = Some (k, n) →
  labels_wf (verase j l) ∧ Labels.countLabels (verase j l) = Labels.countLabels l - n ∧
  (∀ i, cnt i (verase j l) = if i =? k then 0 else cnt i l).
Proof.
  intros Hl Hj. destruct (lookup_middle l j (k, n) Hj) as (l1 & l2 & -> & _ & _ & ->).
  pose proof Hl as (H1 & H2 & Hb)%labels_wf_app. apply labels_wf_cons in H2 as (Hk & _ & H2 & Hgt).
  assert (below l1 l2) as Hb' by (intros x y Hx Hy; apply Hb; [done|by right]).
  split; [by apply labels_wf_app|]. split; [rewrite !countLabels_app, countLabels_cons; lia|].
  intros i. rewrite cnt_app by done. destruct (cnt_middle i l1 k n l2 Hl) as (-> & E1 & E2).
  destruct (Z.eqb_spec i k) as [->|]; lia.
Qed.

Lemma labels_find k l :
  labels_wf l →
  (∃ j n, FlatMap.find Z.ltb k l = Some j ∧ l !! j = Some (k, n) ∧ cnt k l = n) ∨
  (FlatMap.find Z.ltb k l = None ∧ cnt k l = 0 ∧ FlatMap.get Z.ltb k l = None).
Proof.
  intros Hl. rewrite cnt_to_gmap by done. unfold FlatMap.get, FlatMap.find, FlatSet.find_by.
  fold (FlatMap.lower_bound Z.ltb k l). rewrite (fm_lower_bound_plen Z.ltb) by apply Hl.
  destruct (fm_lookup_cases Z.ltb 0 l k ltac:(apply Hl)) as [(v & E & ->)|[Hn ->]].
  - left. exists (plen (fun x => fst x <? k) l), v. rewrite E. simpl. by rewrite Z.ltb_irrefl.
  - right. destruct (l !! _) as [x|] eqn:E; [|done]. by rewrite (Hn _ eq_refl).
Qed.

Lemma labels_remove l j k n :
  labels_wf l → positive l → l !! j = Some (k, n) →
  let l' := if u16 (n - 1) <=? 0 then verase j l else <[j := (k, u16 (n - 1))]> l in
  labels_wf l' ∧ positive l' ∧ (length l' ≤ length l)%nat ∧
  Labels.countLabels l' = Labels.countLabels l - 1 ∧
  (∀ i, cnt i l' = cnt i l - (if i =? k then 1 else 0)).
Proof.
  intros Hl Hp Hj l'.
  assert (0 < n < 2 ^ 16) as Hn.
  { destruct Hl as [_ Hl]. unfold positive in Hp. rewrite Forall_forall in Hl, Hp.
    specialize (Hl _ (list_elem_of_lookup_2 _ _ _ Hj)). specialize (Hp _ (list_elem_of_lookup_2 _ _ _ Hj)).
    simpl in *. lia. }
  assert (cnt k l = n) as Hk.
  { destruct (lookup_middle l j (k, n) Hj) as (l1 & l2 & E & _). rewrite E in Hl |- *.
    destruct (cnt_middle k l1 k n l2 Hl) as [-> _]. by rewrite Z.eqb_refl. }
  assert (length (verase j l) ≤ length l)%nat as Hlen.
  { unfold verase. rewrite length_app, length_take, length_drop. lia. }
  unfold l'. rewrite wrapu_small by lia. destruct (Z.leb_spec (n - 1) 0).
  - destruct (labels_erase l j k n Hl Hj) as (H1 & H2 & H3). split_and!; [done| |done|lia|].
    + unfold verase. apply Forall_app. split; [by apply Forall_take|by apply Forall_drop].
    + intros i. rewrite H3. destruct (Z.eqb_spec i k) as [->|]; lia.
  - destruct (labels_update l j k n (n - 1) Hl Hj ltac:(lia)) as (H1 & H2 & H3).
    split_and!; [done| |by rewrite length_insert|lia|].
    + apply Forall_insert; [done|simpl; lia].
    + intros i. rewrite H3. destruct (Z.eqb_spec i k) as [->|]; lia.
Qed.

(** Replacing one part of an available slice. *)
Lemma write_part_avail s p l' :
  avail_slice s → (p < Slice.size s)%nat → labels_wf l' → positive l' → Z.of_nat (length l') < 2 ^ 16 →
  let s' := Slice.write_part p l' s in
  avail_slice s' ∧ Slice.type_ s' = Slice.type_ s ∧ Slice.parts s' = <[p := l']> (Slice.parts s).
Proof.
  intros [Hs Hp Hn] Hlt Hw Hpos Hlen s'.
  assert (Slice.parts s' = <[p := l']> (Slice.parts s)) as E.
  { unfold s'. rewrite write_part_parts by done. apply parts_of_parts. rewrite length_insert. by apply length_parts. }
  split; [|done]. split; [|rewrite E; by apply Forall_insert|rewrite E; by apply Forall_insert].
  unfold s'. rewrite write_part_parts by done. apply of_parts_wf; [apply Hs| |].
  - rewrite length_insert. by apply length_parts.
  - apply Forall_insert; [apply Hs|done].
Qed.

(** Losing one copy lowers the redundancy of a slice by at most one and never raises
    it. *)
Lemma slice_level_remove s s' p l' :
  slice_wf s → (p < Slice.size s)%nat → Slice.type_ s' = Slice.type_ s →
  Slice.parts s' = <[p := l']> (Slice.parts s) →
  Labels.countLabels l' = Labels.countLabels (Slice.part p s) - 1 →
  evalSliceRedundancyLevel s - 1 <= evalSliceRedundancyLevel s' <= evalSliceRedundancyLevel s.
Proof.
  intros Hs Hp Ht Hparts Hc. unfold evalSliceRedundancyLevel. rewrite Ht, Hparts.
  rewrite <- !list_fmap_compose. rewrite !zsum_insert by (by rewrite length_parts).
  rewrite (list_lookup_total_correct _ _ _ (parts_lookup s Hs p Hp)). unfold compose. rewrite Hc.
  destruct (SliceTraits.isStandard _); [lia|].
  destruct (_ || _); [|lia]. zcases.
Qed.

Lemma elem_of_goal g i s : GoalModel.goal_slices_ g !! i = Some s → s ∈ GoalModel.goal_slices_ g.
Proof. apply list_elem_of_lookup_2. Qed.

Definition replace_slice (i : nat) (s' : Slice.t) (g : GoalModel.t) : GoalModel.t :=
  GoalModel.mk (GoalModel.name_ g) (<[i := s']> (GoalModel.goal_slices_ g)).

Lemma replace_slice_wf g i s s' :
  avail_wf g → GoalModel.goal_slices_ g !! i = Some s → Slice.type_ s' = Slice.type_ s → avail_slice s' →
  avail_wf (replace_slice i s' g).
Proof.
  intros [Hg Hs] Hi Ht Hs'. split; [by eapply goal_wf_replace|]. simpl. by apply Forall_insert.
Qed.

Lemma replace_slice_level g i s s' :
  GoalModel.goal_slices_ g !! i = Some s →
  goal_redundancy (replace_slice i s' g) =
  goal_redundancy g - Z.max (evalSliceRedundancyLevel s + 1) 0 + Z.max (evalSliceRedundancyLevel s' + 1) 0.
Proof.
  intros Hi. unfold goal_redundancy. simpl. rewrite zsum_insert by (by eapply lookup_lt_Some).
  rewrite (list_lookup_total_correct _ _ _ Hi). lia.
Qed.

(** [removePart]: nothing happens when the copy is not there; otherwise the count of
    the label in the part goes down by one. *)
Lemma removePart_spec t p l c :
  avail_wf (available_ c) →
  (∀ s, GoalModel.find_slice t (available_ c) = Some s → part_ok p s = true) →
  ∃ c', removePart t p l c = Ok c' ∧
    ((c' = c ∧ ∀ s, GoalModel.find_slice t (available_ c) = Some s → cnt l (Slice.part (Z.to_nat p) s) = 0) ∨
     ∃ i s s' l',
       GoalModel.goal_slices_ (available_ c) !! i = Some s ∧
       GoalModel.find_slice t (available_ c) = Some s ∧ Slice.type_ s = t ∧
       c' = set_available (replace_slice i s' (available_ c)) c ∧
       avail_slice s' ∧ Slice.type_ s' = Slice.type_ s ∧ (Z.to_nat p < Slice.size s)%nat ∧
       Slice.parts s' = <[Z.to_nat p := l']> (Slice.parts s) ∧
       Labels.countLabels l' = Labels.countLabels (Slice.part (Z.to_nat p) s) - 1 ∧
       (∀ k, cnt k l' = cnt k (Slice.part (Z.to_nat p) s) - (if k =? l then 1 else 0))).
Proof.
  intros Hw Hok. unfold removePart. pose proof (aw_goal _ Hw) as Hg.
  destruct (goal_find_cases (available_ c) t Hg) as [(i & s & -> & Hi & Et)|[-> Hn]].
  2:{ exists c. split; [done|]. left. split; [done|]. intros s [Hs Et]%find_slice_Some; [|done]. by destruct (Hn s Hs). }
  assert (GoalModel.find_slice t (available_ c) = Some s) as Hf
    by (apply find_slice_Some; [done|]; split; [by eapply list_elem_of_lookup_2|done]).
  rewrite (list_lookup_total_correct _ _ _ Hi), (Hok s Hf). cbn [assertion].
  assert (avail_slice s) as Hs.
  { pose proof (aw_slices _ Hw) as Ha. rewrite Forall_forall in Ha. apply Ha. by eapply list_elem_of_lookup_2. }
  specialize (Hok s Hf). unfold part_ok in Hok. apply andb_true_iff in Hok as [Hp0%Z.leb_le Hp1%Z.ltb_lt].
  assert (Z.to_nat p < Slice.size s)%nat as Hp by lia.
  pose proof (parts_lookup s (as_wf s Hs) _ Hp) as Hpl. set (pt := Slice.part (Z.to_nat p) s) in *.
  assert (labels_wf pt ∧ positive pt ∧ Z.of_nat (length pt) < 2 ^ 16) as (Hpw & Hpp & Hpn).
  { pose proof (sw_parts s (as_wf s Hs)) as H1. pose proof (as_pos s Hs) as H2. pose proof (as_len s Hs) as H3.
    rewrite Forall_forall in H1, H2, H3. apply list_elem_of_lookup_2 in Hpl. auto. }
  destruct (labels_find l pt Hpw) as [(j & n & -> & Hj & Hc)|(-> & Hc & _)].
  - rewrite (list_lookup_total_correct _ _ _ Hj). cbn [snd].
    destruct (labels_remove pt j l n Hpw Hpp Hj) as (H1 & H2 & H3 & H4 & H5).
    set (l' := if u16 (n - 1) <=? 0 then verase j pt else <[j := (l, u16 (n - 1))]> pt) in *.
    destruct (write_part_avail s (Z.to_nat p) l' Hs Hp H1 H2 ltac:(lia)) as (Hs' & Ht' & Hparts).
    eexists. split; [reflexivity|]. right. exists i, s, (Slice.write_part (Z.to_nat p) l' s), l'.
    split_and!; done.
  - exists c. split; [done|]. left. split; [done|]. intros s0 Hs0. rewrite Hf in Hs0. injection Hs0 as <-. done.
Qed.

(** A sequence of losses [(slice type, part, label)]. *)
Fixpoint lose (rs : list (Z * Z * Z)) (c : t) : res t :=
  match rs with
  | [] => Ok c
  | (t, p, l) :: rs' => c' ← removePart t p l c; lose rs' c'
  end.

Definition valid_part (t p : Z) : Prop := SliceType.isValid t = true ∧ 0 <= p < Z.of_nat (Slice.type_size t).

Lemma valid_part_ok t p g s :
  goal_wf g → valid_part t p → GoalModel.find_slice t g = Some s → part_ok p s = true.
Proof.
  intros Hg [_ Hp] [_ <-]%find_slice_Some; [|done]. unfold part_ok, Slice.size.
  apply andb_true_iff. rewrite Z.leb_le, Z.ltb_lt. lia.
Qed.

Lemma removePart_level t p l c :
  avail_wf (available_ c) → valid_part t p →
  ∃ c', removePart t p l c = Ok c' ∧ avail_wf (available_ c') ∧
    goal_redundancy (available_ c) - 1 <= goal_redundancy (available_ c').
Proof.
  intros Hw Hp. destruct (removePart_spec t p l c Hw) as (c' & E & H).
  { intros s Hs. by eapply valid_part_ok; [apply Hw|..]. }
  exists c'. split; [done|].
  destruct H as [[-> _]|(i & s & s' & l' & Hi & Hf & Et & -> & Hs' & Ht' & Hlt & Hparts & Hc & _)].
  { split; [done|lia]. }
  split; [by eapply replace_slice_wf|]. cbn [available_ set_available].
  rewrite (replace_slice_level _ i s) by done.
  assert (slice_wf s) as Hs.
  { pose proof (aw_slices _ Hw) as Ha. rewrite Forall_forall in Ha. apply Ha. by eapply list_elem_of_lookup_2. }
  pose proof (slice_level_remove s s' _ l' Hs Hlt Ht' Hparts Hc). lia.
Qed.

(** C21: the redundancy level tells how many losses a chunk survives.  The level is
    non-negative exactly when the data can be read from some slice, every loss of a
    copy lowers it by at most one, and therefore a chunk of level X can still be read
    after any X losses. *)
Theorem redundancy_level_tolerates_losses rs c :
  avail_wf (available_ c) → Forall (fun '(t, p, _) => valid_part t p) rs →
  (0 <= goal_redundancy (available_ c) ↔ recoverable (available_ c)) ∧
  ∃ c', lose rs c = Ok c' ∧
    goal_redundancy (available_ c) - Z.of_nat (length rs) <= goal_redundancy (available_ c') ∧
    (Z.of_nat (length rs) <= goal_redundancy (available_ c) → recoverable (available_ c')).
Proof.
  intros Hw Hrs. split; [by apply goal_redundancy_recoverable|].
  assert (∃ c', lose rs c = Ok c' ∧ avail_wf (available_ c') ∧
    goal_redundancy (available_ c) - Z.of_nat (length rs) <= goal_redundancy (available_ c')) as (c' & E & Hw' & Hl).
  { revert c Hw. induction Hrs as [|[[t p] l] rs Hp Hrs IH]; intros c Hw; [exists c; split_and!; [done..|simpl; lia]|].
    destruct (removePart_level t p l c Hw Hp) as (c1 & E1 & Hw1 & Hl1).
    destruct (IH c1 Hw1) as (c' & E & Hw' & Hl). exists c'. simpl. rewrite E1. simpl. split_and!; [done..|lia]. }
  exists c'. split; [done|]. split; [done|]. intros Hle. apply goal_redundancy_recoverable; [done|]. lia.
Qed.

(** Three copies of a standard chunk: any two may be lost. *)
Lemma redundancy_level_tolerates_losses_witness :
  let c := set_available (GoalModel.mk "" [of_parts 0 [[(1, 2); (2, 1)]]]) (make empty_goal) in
  ∃ c', lose [(0, 0, 1); (0, 0, 2)] c = Ok c' ∧ recoverable (available_ c').
Proof.
  intros c. destruct (redundancy_level_tolerates_losses [(0, 0, 1); (0, 0, 2)] c) as [_ (c' & E & _ & H)].
  - split; [repeat constructor|]. apply Forall_singleton. split.
    + apply of_parts_wf; [done|done|]. apply Forall_singleton. solve_labels_wf.
    + apply Forall_singleton. solve_positive.
    + apply Forall_singleton. done.
  - repeat constructor; done.
  - exists c'. split; [done|]. apply H. vm_compute. discriminate.
Defined.

(** ** evalRedundancyLevel and the tests for removal *)

Lemma fmap_wf_ext {V} (l1 l2 : list (Z * V)) :
  fmap_wf Z.ltb l1 → fmap_wf Z.ltb l2 → to_gmap l1 = to_gmap l2 → l1 = l2.
Proof.
  intros H1 H2 E. apply (StronglySorted_unique_strong (fun a b => FlatMap.value_less Z.ltb a b = true)); try done.
  - intros x y _ _. unfold FlatMap.value_less. rewrite !Z.ltb_lt. lia.
  - trans (map_to_list (to_gmap l1)).
    + symmetry. apply map_to_list_to_map. by apply (fmap_wf_NoDup Z.ltb).
    + rewrite E. apply map_to_list_to_map. by apply (fmap_wf_NoDup Z.ltb).
Qed.

Definition levels_of (g : GoalModel.t) : list (Z * Z) :=
  (fun s => (Slice.type_ s, evalSliceRedundancyLevel s)) <$> GoalModel.goal_slices_ g.

(** The stored levels are those of the available parts. *)
Record evaluated (c : t) : Prop := {
  ev_level : redundancy_level_ c = goal_redundancy (available_ c);
  ev_levels : slice_redundancy_level_ c = levels_of (available_ c);
}.

(** The stored levels are about slices that are available; they may be out of date. *)
Record levels_ok (c : t) : Prop := {
  lo_wf : fmap_wf Z.ltb (slice_redundancy_level_ c);
  lo_dom : ∀ x, x ∈ slice_redundancy_level_ c →
    ∃ s, s ∈ GoalModel.goal_slices_ (available_ c) ∧ Slice.type_ s = fst x;
}.

Lemma levels_of_wf g : goal_wf g → fmap_wf Z.ltb (levels_of g).
Proof.
  unfold goal_wf, fmap_wf, levels_of, ssorted. induction 1 as [|s l Hs IH Hf]; csimpl; [constructor|].
  constructor; [done|]. apply Forall_fmap. eapply Forall_impl; [done|]. done.
Qed.

Lemma levels_of_lookup g t :
  goal_wf g → to_gmap (levels_of g) !! t = evalSliceRedundancyLevel <$> GoalModel.find_slice t g.
Proof.
  intros Hg. assert (NoDup (levels_of g).*1) as Hnd by (by apply (fmap_wf_NoDup Z.ltb), levels_of_wf).
  destruct (GoalModel.find_slice t g) as [s|] eqn:E; simpl.
  - apply find_slice_Some in E as [Hs <-]; [|done]. apply elem_of_list_to_map_1; [done|].
    apply list_elem_of_fmap. by exists s.
  - apply to_gmap_lookup_None. intros x (s & -> & Hs)%list_elem_of_fmap Et. simpl in Et.
    assert (GoalModel.find_slice t g = Some s) by (by apply find_slice_Some). congruence.
Qed.

Lemma eval_fold slices level levels :
  fmap_wf Z.ltb levels →
  ∃ levels', fold_left eval_step slices (level, levels) =
    (level + zsum ((fun s => Z.max (evalSliceRedundancyLevel s + 1) 0) <$> slices), levels') ∧
    fmap_wf Z.ltb levels' ∧
    to_gmap levels' = fold_left (fun m s => <[Slice.type_ s := evalSliceRedundancyLevel s]> m) slices (to_gmap levels).
Proof.
  revert level levels. induction slices as [|s slices IH]; intros level levels Hw.
  { exists levels. split_and!; [csimpl; rewrite zsum_nil; tuple_lia|done..]. }
  cbn [fold_left]. unfold eval_step at 2. cbn [fst snd].
  destruct (fm_assign_spec Z.ltb 0 levels (Slice.type_ s) (evalSliceRedundancyLevel s) Hw) as [Hw' <-].
  destruct (IH (level + Z.max (evalSliceRedundancyLevel s + 1) 0) _ Hw') as (levels' & -> & H1 & H2).
  exists levels'. rewrite fmap_cons, zsum_cons. split_and!; [tuple_lia|done..].
Qed.

Lemma insert_fold_lookup slices (m : gmap Z Z) t :
  ssorted GoalModel.slice_less slices →
  fold_left (fun m s => <[Slice.type_ s := evalSliceRedundancyLevel s]> m) slices m !! t =
  match GoalModel.find_slice t (GoalModel.mk "" slices) with
  | Some s => Some (evalSliceRedundancyLevel s)
  | None => m !! t
  end.
Proof.
  revert m. induction slices as [|s slices IH]; intros m Hs; [done|].
  pose proof Hs as [Hs' Hgt]%StronglySorted_inv. rewrite Forall_forall in Hgt. cbn [fold_left]. rewrite IH by done.
  destruct (GoalModel.find_slice t (GoalModel.mk "" slices)) as [s1|] eqn:E1.
  - apply find_slice_Some in E1 as [Hin Et]; [|done].
    assert (GoalModel.find_slice t (GoalModel.mk "" (s :: slices)) = Some s1) as ->; [|done].
    apply find_slice_Some; [done|]. split; [by right|done].
  - destruct (decide (t = Slice.type_ s)) as [->|Hne].
    + assert (GoalModel.find_slice (Slice.type_ s) (GoalModel.mk "" (s :: slices)) = Some s) as ->.
      { apply find_slice_Some; [done|]. split; [by left|done]. }
      by rewrite lookup_insert_eq.
    + rewrite lookup_insert_ne by done.
      assert (GoalModel.find_slice t (GoalModel.mk "" (s :: slices)) = None) as ->; [|done].
      apply find_slice_ext; [done|]. intros x. split; [|done]. intros [[->|Hx]%elem_of_cons Et]; [done|].
      assert (GoalModel.find_slice t (GoalModel.mk "" slices) = Some x) by (by apply find_slice_Some).
      congruence.
Qed.

Lemma evalRedundancyLevel_evaluated c :
  goal_wf (available_ c) → levels_ok c →
  evaluated (evalRedundancyLevel c) ∧ available_ (evalRedundancyLevel c) = available_ c ∧
  target_ (evalRedundancyLevel c) = target_ c.
Proof.
  intros Hg [Hw Hd]. unfold evalRedundancyLevel.
  destruct (eval_fold (GoalModel.goal_slices_ (available_ c)) 0 _ Hw) as (levels' & -> & Hw' & Hm).
  split; [|done]. split; simpl; [unfold goal_redundancy; lia|].
  apply fmap_wf_ext; [done|by apply levels_of_wf|]. apply map_eq. intros t.
  rewrite Hm, insert_fold_lookup, levels_of_lookup by done.
  change (GoalModel.find_slice t (GoalModel.mk "" (GoalModel.goal_slices_ (available_ c))))
    with (GoalModel.find_slice t (available_ c)).
  destruct (GoalModel.find_slice t (available_ c)) as [s|] eqn:E; [done|]. simpl.
  apply to_gmap_lookup_None. intros x Hx Et. destruct (Hd x Hx) as (s & Hs & Ets).
  assert (GoalModel.find_slice t (available_ c) = Some s) by (apply find_slice_Some; [done|]; split; congruence).
  congruence.
Qed.

Lemma eval_counts s s' :
  Slice.type_ s' = Slice.type_ s →
  Labels.countLabels <$> Slice.parts s' = Labels.countLabels <$> Slice.parts s →
  evalSliceRedundancyLevel s' = evalSliceRedundancyLevel s.
Proof. intros E1 E2. unfold evalSliceRedundancyLevel. by rewrite E1, E2. Qed.

(** The copy of the slice that [canRemovePart] examines has the counts that
    [removePart] leaves behind. *)
Lemma slice_without_level s s' p l l' :
  avail_slice s → (p < Slice.size s)%nat → 0 < cnt l (Slice.part p s) →
  Slice.type_ s' = Slice.type_ s → Slice.parts s' = <[p := l']> (Slice.parts s) →
  Labels.countLabels l' = Labels.countLabels (Slice.part p s) - 1 →
  evalSliceRedundancyLevel (slice_without p l s) = evalSliceRedundancyLevel s'.
Proof.
  intros Hs Hp Hc Ht Hparts Hl'. pose proof (parts_lookup s (as_wf s Hs) p Hp) as Hpl.
  pose proof (part_labels_wf s (as_wf s Hs) p Hp) as Hpw.
  assert (Z.of_nat (length (Slice.part p s)) < 2 ^ 16) as Hlen.
  { pose proof (as_len s Hs) as H. rewrite Forall_forall in H. apply H. by eapply list_elem_of_lookup_2. }
  unfold slice_without. destruct (labels_find l _ Hpw) as [(j & n & -> & Hj & Hn)|(_ & Hn & _)]; [|lia].
  rewrite (list_lookup_total_correct _ _ _ Hj). cbn [snd].
  assert (n < 2 ^ 16) by (rewrite <- Hn; by apply cnt_u16).
  rewrite wrapu_small by lia.
  destruct (labels_update _ j l n (n - 1) Hpw Hj ltac:(lia)) as (_ & Hcount & _).
  apply eval_counts; rewrite write_part_parts by (apply Hs || done || by rewrite length_insert); [by rewrite Ht|].
  rewrite parts_of_parts by (rewrite length_insert; by apply length_parts, Hs).
  rewrite Hparts, !list_fmap_insert. f_equal. lia.
Qed.

Lemma state_weight levels :
  2 * count_state kSafe levels + count_state kEndangered levels <=
  zsum ((fun x => Z.max (snd x + 1) 0) <$> levels).
Proof.
  unfold count_state. induction levels as [|[t lv] levels IH]; [done|]. rewrite !fmap_cons, !zsum_cons.
  unfold slice_state in *. simpl. destruct (Z.ltb_spec 0 lv); [lia|]. destruct (Z.eqb_spec lv 0); lia.
Qed.

Lemma levels_of_sum g : zsum ((fun x => Z.max (snd x + 1) 0) <$> levels_of g) = goal_redundancy g + 1.
Proof.
  unfold levels_of, goal_redundancy. rewrite <- list_fmap_compose. unfold compose. simpl. lia.
Qed.

(** When [canRemovePart] answers true. *)
Lemma canRemovePart_cases t p l c s :
  avail_wf (available_ c) → evaluated c → valid_part t p →
  GoalModel.find_slice t (available_ c) = Some s → GoalModel.size (target_ c) ≠ O →
  ∃ b, canRemovePart t p l c = Ok b ∧
    (b = true → 1 <= goal_redundancy (available_ c) ∧
     (2 <= goal_redundancy (available_ c) ∨ evalSliceRedundancyLevel s < 0 ∨
      0 < evalSliceRedundancyLevel (slice_without (Z.to_nat p) l s) ∨
      ∃ ts, GoalModel.find_slice t (target_ c) = Some ts ∧ Slice.getExpectedCopies ts = 1)).
Proof.
  intros Hw [Elv Elvs] Hvp Hf Htgt. pose proof (aw_goal _ Hw) as Hg.
  pose proof (state_weight (levels_of (available_ c))) as Hst. rewrite levels_of_sum in Hst.
  assert (FlatMap.get Z.ltb t (slice_redundancy_level_ c) = Some (evalSliceRedundancyLevel s)) as Hget.
  { rewrite Elvs, (fm_get_spec Z.ltb 0) by (by apply levels_of_wf). rewrite levels_of_lookup by done. by rewrite Hf. }
  assert (∃ k, GoalModel.find t (available_ c) = Some k) as [k Hk].
  { unfold GoalModel.find_slice in Hf. destruct (GoalModel.find t (available_ c)); [eauto|done]. }
  assert (GoalModel.subscript_const t (available_ c) = Ok s) as Hsub
    by (unfold GoalModel.subscript_const; by rewrite Hf).
  unfold canRemovePart, removePartBasicTest. rewrite Hget, Hk, Elv, Elvs, Hsub.
  rewrite (proj2 (Nat.eqb_neq _ _) Htgt), orb_false_r.
  set (W := 2 * count_state kSafe _ + count_state kEndangered _) in *.
  destruct (Z.ltb_spec (goal_redundancy (available_ c)) 1); [by eexists|].
  destruct (Z.ltb_spec 2 W); [eexists; split; [done|]; intros _; split; [done|lia]|].
  destruct (Z.ltb_spec (evalSliceRedundancyLevel s) 0); [eexists; split; [done|]; intros _; split; [done|lia]|].
  destruct (negb _); [by eexists|]. cbn [mbind res_bind].
  rewrite (valid_part_ok t p (available_ c) s Hg Hvp Hf). cbn [assertion].
  destruct (GoalModel.find_slice t (target_ c)) as [ts|] eqn:Ets.
  - destruct (Z.eqb_spec (Slice.getExpectedCopies ts) 1) as [Eone|_]; cbn [andb].
    + destruct (1 <=? _); (eexists; split; [done|]); intros Hb; (split; [done|]); right; right; right; eauto.
    + eexists. split; [done|]. intros Hb%Z.ltb_lt. split; [done|]. auto.
  - eexists. split; [done|]. intros Hb%Z.ltb_lt. split; [done|]. auto.
Qed.

(** C40: [canRemovePart] protects the chunk.  For a copy that is there, with the levels
    evaluated and a non-empty target, the test never fails an assertion, and when it
    answers true, removing the copy leaves the chunk safe (level at least 1), except
    that a copy above a target of a single copy may be removed down to level 0. *)
Theorem can_remove_part_is_safe t p l c s :
  avail_wf (available_ c) → evaluated c → valid_part t p →
  GoalModel.find_slice t (available_ c) = Some s → 0 < cnt l (Slice.part (Z.to_nat p) s) →
  GoalModel.size (target_ c) ≠ O →
  ∃ b c', canRemovePart t p l c = Ok b ∧ removePart t p l c = Ok c' ∧
    (b = true →
       1 <= goal_redundancy (available_ c') ∨
       0 <= goal_redundancy (available_ c') ∧
       ∃ ts, GoalModel.find_slice t (target_ c) = Some ts ∧ Slice.getExpectedCopies ts = 1).
Proof.
  intros Hw Hev Hvp Hf Hcnt Htgt. pose proof (aw_goal _ Hw) as Hg.
  destruct (canRemovePart_cases t p l c s Hw Hev Hvp Hf Htgt) as (b & Eb & Hb).
  destruct (removePart_spec t p l c Hw) as (c' & E & H).
  { intros s0 Hs0. by eapply valid_part_ok. }
  destruct H as [[_ H]|(i & s0 & s' & l' & Hi & Hf' & Et & -> & Hs' & Ht' & Hlt & Hparts & Hl' & _)].
  { specialize (H s Hf). lia. }
  rewrite Hf in Hf'. injection Hf' as <-.
  assert (avail_slice s) as Hs.
  { pose proof (aw_slices _ Hw) as Ha. rewrite Forall_forall in Ha. apply Ha. by eapply list_elem_of_lookup_2. }
  pose proof (slice_level_remove s s' _ l' (as_wf s Hs) Hlt Ht' Hparts Hl') as Hlv.
  pose proof (replace_slice_level (available_ c) i s s' Hi) as Hred.
  rewrite (slice_without_level s s' _ l l' Hs Hlt Hcnt Ht' Hparts Hl') in Hb.
  assert (Z.max (evalSliceRedundancyLevel s + 1) 0 <= goal_redundancy (available_ c) + 1) as Hrest.
  { unfold goal_redundancy. rewrite Z.sub_add.
    apply (zsum_elem_le (fun s0 => Z.max (evalSliceRedundancyLevel s0 + 1) 0)); [lia|]. by eapply list_elem_of_lookup_2. }
  eexists b, _. split; [done|]. split; [done|]. cbn [available_ set_available].
  intros [Hr [H2|[H2|[H2|H2]]]]%Hb; [left; lia|left; lia|left; lia|right; split; [lia|done]].
Qed.

(** Three copies of a standard chunk with goal 2. *)
Lemma can_remove_part_is_safe_witness :
  let avail := of_parts 0 [[(1, 2); (2, 1)]] in
  let c := evalRedundancyLevel (set_available (GoalModel.mk "" [avail])
             (make (GoalModel.mk "2" [of_parts 0 [[(kWildcard, 2)]]]))) in
  canRemovePart 0 0 1 c = Ok true ∧
  ∃ b c', canRemovePart 0 0 1 c = Ok b ∧ removePart 0 0 1 c = Ok c' ∧
    (b = true →
       1 <= goal_redundancy (available_ c') ∨
       0 <= goal_redundancy (available_ c') ∧
       ∃ ts, GoalModel.find_slice 0 (target_ c) = Some ts ∧ Slice.getExpectedCopies ts = 1).
Proof.
  intros avail c. split; [vm_compute; reflexivity|].
  apply (can_remove_part_is_safe 0 0 1 c avail); [|by split|by split|done|by vm_compute|done].
  split; [repeat constructor|]. apply Forall_singleton. split.
  - apply of_parts_wf; [done|done|]. apply Forall_singleton. solve_labels_wf.
  - apply Forall_singleton. solve_positive.
  - by apply Forall_singleton.
Defined.

(** the answer "true" of [canRemovePart] does not always leave a safe chunk: with a
    target of one copy and two copies available, it allows a removal after which the
    chunk is endangered. *)
Theorem can_remove_part_may_endanger :
  ∃ c c', evaluated c ∧ avail_wf (available_ c) ∧ getState c = kSafe ∧
    canRemovePart 0 0 1 c = Ok true ∧ removePart 0 0 1 c = Ok c' ∧
    getState (evalRedundancyLevel c') = kEndangered.
Proof.
  set (avail := of_parts 0 [[(1, 1); (2, 1)]]).
  set (c := evalRedundancyLevel (set_available (GoalModel.mk "" [avail])
              (make (GoalModel.mk "1" [of_parts 0 [[(kWildcard, 1)]]])))).
  destruct (removePart 0 0 1 c) as [c'| | |] eqn:E; [|by vm_compute in E..].
  exists c, c'. split; [by split|]. split.
  - split; [repeat constructor|]. apply Forall_singleton. split.
    + apply of_parts_wf; [done|done|]. apply Forall_singleton. solve_labels_wf.
    + apply Forall_singleton. solve_positive.
    + by apply Forall_singleton.
  - split; [done|]. split; [by vm_compute|]. split; [done|]. vm_compute in E. injection E as <-. by vm_compute.
Qed.

Lemma levels_of_replace g i s s' :
  goal_wf g → GoalModel.goal_slices_ g !! i = Some s → Slice.type_ s' = Slice.type_ s →
  FlatMap.assign Z.ltb 0 (Slice.type_ s) (evalSliceRedundancyLevel s') (levels_of g) =
  levels_of (replace_slice i s' g).
Proof.
  intros Hg Hi Et. destruct (goal_wf_replace g i s s' Hg Hi Et) as [Hg' Hf].
  destruct (fm_assign_spec Z.ltb 0 (levels_of g) (Slice.type_ s) (evalSliceRedundancyLevel s')) as [Hw Hm];
    [by apply levels_of_wf|].
  apply fmap_wf_ext; [done|by apply levels_of_wf|]. rewrite Hm. apply map_eq. intros t.
  rewrite (levels_of_lookup (replace_slice i s' g)) by done. unfold replace_slice. rewrite Hf.
  case_decide as E; [subst t; by rewrite lookup_insert_eq|].
  rewrite lookup_insert_ne by done. by apply levels_of_lookup.
Qed.

(** [updateRedundancyLevel] after a change of one slice that was there when the
    levels were evaluated gives the levels a new evaluation would give. *)
Theorem update_redundancy_level_correct c i s s' :
  goal_wf (available_ c) → evaluated c →
  GoalModel.goal_slices_ (available_ c) !! i = Some s → Slice.type_ s' = Slice.type_ s →
  evaluated (updateRedundancyLevel (Slice.type_ s) (set_available (replace_slice i s' (available_ c)) c)).
Proof.
  intros Hg [Elv Elvs] Hi Et. destruct (goal_wf_replace _ i s s' Hg Hi Et) as [Hg' Hf].
  unfold updateRedundancyLevel. cbn [available_ set_available]. unfold replace_slice at 1. rewrite Hf, decide_True by done.
  assert (FlatMap.get Z.ltb (Slice.type_ s) (slice_redundancy_level_ c) = Some (evalSliceRedundancyLevel s)) as Hget.
  { rewrite Elvs, (fm_get_spec Z.ltb 0) by (by apply levels_of_wf). rewrite levels_of_lookup by done.
    assert (GoalModel.find_slice (Slice.type_ s) (available_ c) = Some s) as ->; [|done].
    apply find_slice_Some; [done|]. split; [by eapply list_elem_of_lookup_2|done]. }
  split; cbn [redundancy_level_ slice_redundancy_level_ available_ set_redundancy set_available].
  - rewrite Hget, Elv, (replace_slice_level _ i s s' Hi). simpl. lia.
  - rewrite Elvs. by apply levels_of_replace.
Qed.

Lemma update_redundancy_level_correct_witness :
  let c := evalRedundancyLevel (set_available (GoalModel.mk "" [of_parts 0 [[(1, 2)]]]) (make empty_goal)) in
  evaluated (updateRedundancyLevel 0 (set_available (replace_slice 0 (of_parts 0 [[(1, 1)]]) (available_ c)) c)).
Proof.
  intros c. apply (update_redundancy_level_correct c 0 (of_parts 0 [[(1, 2)]]) (of_parts 0 [[(1, 1)]]));
    [repeat constructor|by split|done|done].
Defined.

(** when the modified slice did not exist at the last evaluation, its stored level
    is taken to be 0 instead of "lost", and [updateRedundancyLevel] computes a level
    that is one too low. *)
Theorem update_redundancy_level_new_slice :
  ∃ c c', evaluated c ∧ addPart 0 0 1 c = Ok c' ∧
    redundancy_level_ (updateRedundancyLevel 0 c') = -1 ∧ goal_redundancy (available_ c') = 0.
Proof.
  set (c := evalRedundancyLevel (make empty_goal)).
  destruct (addPart 0 0 1 c) as [c'| | |] eqn:E; [|by vm_compute in E..].
  exists c, c'. split; [by split|]. split; [done|]. vm_compute in E. injection E as <-. by vm_compute.
Qed.

(** ** addPart *)

Lemma labels_subscript k l :
  labels_wf l → positive l → 0 <= k <= kWildcard → Labels.countLabels l + 1 < 2 ^ 16 →
  let '(l1, j) := FlatMap.subscript Z.ltb 0 k l in
  let l2 := <[j := (k, u16 (snd (l1 !!! j) + 1))]> l1 in
  labels_wf l2 ∧ positive l2 ∧ Labels.countLabels l2 = Labels.countLabels l + 1 ∧
  (∀ i, cnt i l2 = cnt i l + (if i =? k then 1 else 0)).
Proof.
  intros Hl Hp Hk Hc. pose proof (fm_subscript_spec Z.ltb 0 l k ltac:(apply Hl)) as Hsub.
  destruct (FlatMap.subscript Z.ltb 0 k l) as [l1 j]. destruct Hsub as (Hs1 & Hj & Hm).
  rewrite <- cnt_to_gmap in Hj, Hm by done. rewrite (list_lookup_total_correct _ _ _ Hj). cbn [snd].
  assert (∀ x, x ∈ l1 → x = (k, cnt k l) ∨ x ∈ l) as Hel.
  { intros [k' v] Hx. apply elem_of_list_to_map_1 in Hx; [|by apply (fmap_wf_NoDup Z.ltb)].
    fold (to_gmap l1) in Hx. rewrite Hm, lookup_insert_Some in Hx.
    destruct Hx as [[<- <-]|[_ Hx]]; [by left|right; by apply elem_of_list_to_map_2]. }
  pose proof (cnt_nonneg k l Hl). pose proof (cnt_u16 k l Hl).
  assert (labels_wf l1) as Hl1.
  { split; [done|]. apply Forall_forall. destruct Hl as [_ Hl]. rewrite Forall_forall in Hl.
    intros x [->|Hx]%Hel; [simpl; lia|auto]. }
  assert (∀ i, cnt i l1 = cnt i l) as Hcnt.
  { intros i. rewrite (cnt_to_gmap i l1), Hm by done. destruct (decide (i = k)) as [->|Hne].
    - by rewrite lookup_insert_eq.
    - rewrite lookup_insert_ne by done. symmetry. by apply cnt_to_gmap. }
  assert (∃ n, kWildcard < n) as [n Hn] by (exists (kWildcard + 1); lia).
  assert (Labels.countLabels l1 = Labels.countLabels l) as HT.
  { rewrite !(countLabels_cnt_upto n) by done. by apply zsum_fmap_ext. }
  assert (cnt k l <= Labels.countLabels l) as Hle.
  { rewrite (countLabels_cnt_upto n) by done. apply (zsum_elem_le (fun k => cnt k l) (seqZ 0 n) k); [|apply elem_of_seqZ; lia].
    intros. by apply cnt_nonneg. }
  rewrite wrapu_small by lia.
  destruct (labels_update l1 j k _ (cnt k l + 1) Hl1 Hj ltac:(lia)) as (H1 & H2 & H3). split_and!; [done| |lia|].
  - apply Forall_forall. intros x [i Hi]%list_elem_of_lookup. apply list_lookup_insert_Some in Hi.
    destruct Hi as [(_ & <- & _)|[Hne Hi]]; [simpl; lia|].
    destruct (Hel x ltac:(by eapply list_elem_of_lookup_2)) as [->|Hx]; [|by unfold positive in Hp; rewrite Forall_forall in Hp; auto].
    destruct Hne. assert (NoDup l1.*1) as Hnd by (by apply (fmap_wf_NoDup Z.ltb)).
    eapply (NoDup_lookup _ _ _ k Hnd); rewrite list_lookup_fmap; [rewrite Hj|rewrite Hi]; done.
  - intros i. rewrite H3, Hcnt. destruct (Z.eqb_spec i k) as [->|]; lia.
Qed.

Lemma make_slice t :
  SliceType.isValid t = true →
  ∃ s, Slice.make t = Ok s ∧ avail_slice s ∧ Slice.type_ s = t ∧
    Slice.parts s = replicate (Slice.type_size t) [].
Proof.
  intros Ht. unfold Slice.make.
  destruct (SliceType.expectedParts t) as [n| | |] eqn:E;
    [|rewrite expectedParts_valid in E by done; discriminate..].
  assert (Slice.type_size t = Z.to_nat n) as Hsz by (unfold Slice.type_size; by rewrite E).
  assert (Slice.mk t (replicate (Z.to_nat n) O) [] = of_parts t (replicate (Z.to_nat n) [])) as Hof.
  { unfold of_parts. rewrite fmap_replicate. f_equal.
    clear. induction (Z.to_nat n) as [|k IH]; [done|]. simpl. exact IH. }
  exists (of_parts t (replicate (Z.to_nat n) [])). simpl. rewrite Hof, Hsz.
  assert (Slice.parts (of_parts t (replicate (Z.to_nat n) [])) = replicate (Z.to_nat n) []) as Hp.
  { apply parts_of_parts. by rewrite length_replicate, Hsz. }
  split; [done|]. split; [|done].
  split; [apply of_parts_wf; [done|by rewrite length_replicate, Hsz|]|rewrite Hp..]; apply Forall_replicate.
  - apply labels_wf_nil.
  - constructor.
  - simpl. lia.
Qed.

(** [operator[]] on the available goal: the slice is there afterwards, empty if it was
    not there before. *)
Lemma goal_subscript_spec t g :
  avail_wf g → SliceType.isValid t = true →
  ∃ g' i s, GoalModel.subscript t g = Ok (g', i) ∧ avail_wf g' ∧
    GoalModel.goal_slices_ g' !! i = Some s ∧ Slice.type_ s = t ∧
    s = default s (GoalModel.find_slice t g) ∧
    (GoalModel.find_slice t g = None → Slice.parts s = replicate (Slice.type_size t) []) ∧
    ∀ t', t' ≠ t → GoalModel.find_slice t' g' = GoalModel.find_slice t' g.
Proof.
  intros [Hg Hs] Ht. unfold GoalModel.subscript.
  destruct (goal_find_cases g t Hg) as [(i & s & E & Hi & Et)|[E Hn]]; rewrite E.
  - exists g, i, s. assert (GoalModel.find_slice t g = Some s) as ->
      by (apply find_slice_Some; [done|]; split; [by eapply list_elem_of_lookup_2|done]).
    split_and!; done.
  - destruct (make_slice t Ht) as (s & -> & Hsl & Et & Hparts). cbn [mbind res_bind].
    assert (GoalModel.find_slice t g = None) as Hnone.
    { apply find_slice_ext; [done|]. intros x. split; [intros [Hx Ex]; by destruct (Hn x Hx)|done]. }
    assert (∀ x, x ∈ GoalModel.goal_slices_ g → Slice.type_ x ≠ Slice.type_ s) as Hn' by (by rewrite Et).
    destruct (goal_wf_insert g s Hg Hn') as [Hg' Hf].
    unfold GoalModel.insert_slice in Hg', Hf.
    destruct (fs_insert_cases GoalModel.slice_less (GoalModel.goal_slices_ g) s Hg)
      as [(y & Hy & H1 & H2 & _)|[_ Eins]].
    { unfold GoalModel.slice_less in H1, H2. apply Z.ltb_ge in H1, H2.
      destruct (Hn' y); [by eapply list_elem_of_lookup_2|lia]. }
    rewrite Eins in Hg', Hf |- *. cbn [fst] in *. set (k := plen _ _) in *.
    assert (k ≤ length (GoalModel.goal_slices_ g))%nat as Hk by apply plen_le.
    eexists _, k, s. split; [reflexivity|]. rewrite Hnone. split; [split; [done|]|].
    { apply Forall_forall. simpl. rewrite Forall_forall in Hs. intros x [->|Hx]%elem_of_vinsert; auto. }
    split. { simpl. unfold vinsert. rewrite lookup_app_r, length_take, Nat.min_l, Nat.sub_diag; [done|lia|rewrite length_take; lia]. }
    split_and!; try done. intros t' Hne. rewrite Hf, decide_False; [done|congruence].
Qed.

(** The number of available copies of a part on a label. *)
Definition copies (g : GoalModel.t) (t p l : Z) : Z :=
  match GoalModel.find_slice t g with Some s => cnt l (Slice.part (Z.to_nat p) s) | None => 0 end.

Lemma copies_replace g i s s' p l' t0 p0 l0 :
  avail_wf g → GoalModel.goal_slices_ g !! i = Some s → Slice.type_ s' = Slice.type_ s → slice_wf s' →
  (Z.to_nat p < Slice.size s)%nat → 0 <= p → valid_part t0 p0 →
  Slice.parts s' = <[Z.to_nat p := l']> (Slice.parts s) →
  copies (replace_slice i s' g) t0 p0 l0 =
  if decide (t0 = Slice.type_ s ∧ p0 = p) then cnt l0 l' else copies g t0 p0 l0.
Proof.
  intros Hw Hi Et Hs' Hp Hp0 [_ Hvp] Hparts. pose proof (aw_goal _ Hw) as Hg.
  destruct (goal_wf_replace g i s s' Hg Hi Et) as [_ Hf]. unfold copies, replace_slice. rewrite Hf.
  destruct (decide (t0 = Slice.type_ s)) as [->|Hne]; [|rewrite decide_False by tauto; done].
  assert (GoalModel.find_slice (Slice.type_ s) g = Some s) as ->
    by (apply find_slice_Some; [done|]; split; [by eapply list_elem_of_lookup_2|done]).
  assert (slice_wf s) as Hs.
  { pose proof (aw_slices _ Hw) as Ha. rewrite Forall_forall in Ha. apply Ha. by eapply list_elem_of_lookup_2. }
  assert (Z.to_nat p0 < Slice.size s)%nat as Hlt by (unfold Slice.size; lia).
  assert (Slice.parts s' !! Z.to_nat p0 = Some (Slice.part (Z.to_nat p0) s')) as H1.
  { apply parts_lookup; [done|]. unfold Slice.size in *. by rewrite Et. }
  rewrite Hparts in H1. case_decide as E.
  - destruct E as [_ ->]. rewrite list_lookup_insert_eq in H1 by (by rewrite length_parts). by injection H1 as ->.
  - rewrite list_lookup_insert_ne, parts_lookup in H1 by (done || (intros ?; apply E; split; [done|lia])).
    by injection H1 as ->.
Qed.

Lemma addPart_counts t p l c :
  avail_wf (available_ c) → valid_part t p → 0 <= l <= kWildcard →
  (∀ s, GoalModel.find_slice t (available_ c) = Some s →
        Labels.countLabels (Slice.part (Z.to_nat p) s) + 1 < 2 ^ 16) →
  ∃ c', addPart t p l c = Ok c' ∧ avail_wf (available_ c') ∧
    ∀ t0 p0 l0, valid_part t0 p0 →
      copies (available_ c') t0 p0 l0 =
      copies (available_ c) t0 p0 l0 + (if decide ((t0, p0, l0) = (t, p, l)) then 1 else 0).
Proof.
  intros Hw Hvp Hl Hcap. pose proof Hvp as [Hv Hp]. unfold addPart.
  destruct (goal_subscript_spec t (available_ c) Hw Hv) as (g & i & s & -> & Hwg & Hi & Et & Hold & Hnew & Hother).
  cbn [mbind res_bind]. rewrite (list_lookup_total_correct _ _ _ Hi).
  pose proof (aw_goal _ Hwg) as Hgg.
  assert (GoalModel.find_slice t g = Some s) as Hfg
    by (apply find_slice_Some; [done|]; split; [by eapply list_elem_of_lookup_2|done]).
  rewrite (valid_part_ok t p g s Hgg Hvp Hfg). cbn [assertion].
  assert (avail_slice s) as Hs.
  { pose proof (aw_slices _ Hwg) as Ha. rewrite Forall_forall in Ha. apply Ha. by eapply list_elem_of_lookup_2. }
  assert (Z.to_nat p < Slice.size s)%nat as Hlt by (unfold Slice.size; rewrite Et; lia).
  pose proof (parts_lookup s (as_wf s Hs) _ Hlt) as Hpl.
  pose proof (part_labels_wf s (as_wf s Hs) _ Hlt) as Hpw.
  assert (GoalModel.find_slice t (available_ c) = None → Slice.part (Z.to_nat p) s = []) as Hempty.
  { intros E. rewrite (Hnew E) in Hpl. by apply lookup_replicate in Hpl as [-> _]. }
  assert (positive (Slice.part (Z.to_nat p) s)) as Hpp.
  { pose proof (as_pos s Hs) as H. rewrite Forall_forall in H. apply H. by eapply list_elem_of_lookup_2. }
  assert (Labels.countLabels (Slice.part (Z.to_nat p) s) + 1 < 2 ^ 16) as Hc.
  { destruct (GoalModel.find_slice t (available_ c)) as [s0|] eqn:E; [simpl in Hold; subst s0; by apply Hcap|].
    rewrite Hempty by done. done. }
  pose proof (labels_subscript l _ Hpw Hpp Hl Hc) as Hsub.
  destruct (FlatMap.subscript Z.ltb 0 l (Slice.part (Z.to_nat p) s)) as [l1 j].
  set (l2 := <[j := (l, u16 (snd (l1 !!! j) + 1))]> l1) in *. destruct Hsub as (H1 & H2 & H3 & H4).
  pose proof (positive_length l2 H2).
  destruct (write_part_avail s (Z.to_nat p) l2 Hs Hlt H1 H2 ltac:(lia)) as (Hs' & Ht' & Hparts).
  eexists. split; [reflexivity|]. cbn [available_ set_available].
  split; [by eapply replace_slice_wf|]. intros t0 p0 l0 Hv0.
  fold (replace_slice i (Slice.write_part (Z.to_nat p) l2 s) g).
  rewrite (copies_replace g i s _ p l2) by (done || apply Hs' || lia). rewrite Et.
  assert (∀ t1 p1 l1, t1 ≠ t → copies g t1 p1 l1 = copies (available_ c) t1 p1 l1) as Hc1.
  { intros t1 p1 l3 Hne. unfold copies. by rewrite Hother. }
  assert (∀ p1 l1, valid_part t p1 → copies g t p1 l1 = copies (available_ c) t p1 l1) as Hc2.
  { intros p1 l3 [_ Hp1]. unfold copies. rewrite Hfg.
    destruct (GoalModel.find_slice t (available_ c)) as [s0|] eqn:E; [simpl in Hold; by subst s0|].
    assert (Z.to_nat p1 < Slice.size s)%nat as Hlt1 by (unfold Slice.size; rewrite Et; lia).
    pose proof (parts_lookup s (as_wf s Hs) _ Hlt1) as Hpl1. rewrite (Hnew eq_refl) in Hpl1.
    by apply lookup_replicate in Hpl1 as [-> _]. }
  destruct (decide (t0 = t ∧ p0 = p)) as [[-> ->]|Hne].
  - rewrite H4, <- Hc2 by done. unfold copies. rewrite Hfg. f_equal.
    destruct (Z.eqb_spec l0 l) as [->|Hl0]; case_decide; congruence.
  - rewrite (decide_False (P := (t0, p0, l0) = _)) by naive_solver. rewrite Z.add_0_r.
    destruct (decide (t0 = t)) as [->|Ht0]; [by apply Hc2|by apply Hc1].
Qed.

Lemma removePart_counts t p l c :
  avail_wf (available_ c) → valid_part t p →
  ∃ c', removePart t p l c = Ok c' ∧ avail_wf (available_ c') ∧
    ∀ t0 p0 l0, valid_part t0 p0 →
      copies (available_ c') t0 p0 l0 =
      copies (available_ c) t0 p0 l0 -
        (if decide ((t0, p0, l0) = (t, p, l)) then Z.min 1 (copies (available_ c) t p l) else 0).
Proof.
  intros Hw Hvp. pose proof (aw_goal _ Hw) as Hg.
  destruct (removePart_spec t p l c Hw) as (c' & E & H).
  { intros s Hs. by eapply valid_part_ok. }
  exists c'. split; [done|].
  destruct H as [[-> H]|(i & s & s' & l' & Hi & Hf & Et & -> & Hs' & Ht' & Hlt & Hparts & Hc & Hcnt)].
  - split; [done|]. intros t0 p0 l0 _. case_decide as Ed; [|lia].
    assert (copies (available_ c) t p l = 0) as ->; [|lia]. unfold copies.
    destruct (GoalModel.find_slice t (available_ c)) as [s|]; [by apply H|done].
  - split; [by eapply replace_slice_wf|]. intros t0 p0 l0 Hv0. cbn [available_ set_available].
    rewrite (copies_replace _ i s s' p l') by (done || apply Hs' || destruct Hvp; lia).
    rewrite Et. destruct (decide (t0 = t ∧ p0 = p)) as [[-> ->]|Hne].
    + rewrite Hcnt. unfold copies. rewrite Hf.
      destruct (Z.eqb_spec l0 l) as [->|Hl0]; [rewrite decide_True by done|rewrite decide_False by congruence; lia].
      assert (0 <= cnt l l') as Hnn.
      { apply cnt_nonneg. pose proof (sw_parts s' (as_wf s' Hs')) as Hp. rewrite Hparts in Hp.
        rewrite Forall_forall in Hp. apply Hp. apply (list_elem_of_lookup_2 _ (Z.to_nat p)).
        apply list_lookup_insert_eq. rewrite length_parts; [done|].
        pose proof (aw_slices _ Hw) as Ha. rewrite Forall_forall in Ha. apply Ha. by eapply list_elem_of_lookup_2. }
      rewrite Hcnt, Z.eqb_refl in Hnn. lia.
    + rewrite (decide_False (P := (t0, p0, l0) = _)) by naive_solver. lia.
Qed.

(** the available parts are counted correctly.  [addPart] and [removePart] on a
    valid part succeed, change the number of copies of exactly that part on exactly
    that label by one ([removePart] only when there is a copy), and keep the slices
    sorted and free of empty entries; a part added and removed again leaves all
    counts as they were. *)
Theorem parts_bookkeeping t p l c :
  avail_wf (available_ c) → valid_part t p → 0 <= l <= kWildcard →
  (∀ s, GoalModel.find_slice t (available_ c) = Some s →
        Labels.countLabels (Slice.part (Z.to_nat p) s) + 1 < 2 ^ 16) →
  ∃ c1 c2, addPart t p l c = Ok c1 ∧ removePart t p l c1 = Ok c2 ∧
    avail_wf (available_ c1) ∧ avail_wf (available_ c2) ∧
    ∀ t0 p0 l0, valid_part t0 p0 →
      copies (available_ c1) t0 p0 l0 =
        copies (available_ c) t0 p0 l0 + (if decide ((t0, p0, l0) = (t, p, l)) then 1 else 0) ∧
      copies (available_ c2) t0 p0 l0 = copies (available_ c) t0 p0 l0.
Proof.
  intros Hw Hvp Hl Hcap.
  destruct (addPart_counts t p l c Hw Hvp Hl Hcap) as (c1 & E1 & Hw1 & H1).
  destruct (removePart_counts t p l c1 Hw1 Hvp) as (c2 & E2 & Hw2 & H2).
  exists c1, c2. split; [done|]. split; [done|]. split; [done|]. split; [done|].
  intros t0 p0 l0 Hv0. split; [by apply H1|]. rewrite H2, H1 by done.
  assert (0 <= copies (available_ c) t p l) as Hn.
  { unfold copies. destruct (GoalModel.find_slice t (available_ c)) as [s|] eqn:Ef; [|done].
    apply find_slice_Some in Ef as [Hin Et]; [|apply Hw]. apply cnt_nonneg, part_labels_wf.
    - pose proof (aw_slices _ Hw) as Ha. rewrite Forall_forall in Ha. by apply Ha.
    - destruct Hvp as [_ Hp]. unfold Slice.size. rewrite Et. lia. }
  case_decide as Ed; [|lia]. rewrite H1, decide_True by done. lia.
Qed.

Lemma parts_bookkeeping_witness :
  ∃ c1 c2, addPart 2 1 7 (make empty_goal) = Ok c1 ∧ removePart 2 1 7 c1 = Ok c2 ∧
    avail_wf (available_ c1) ∧ avail_wf (available_ c2) ∧
    ∀ t0 p0 l0, valid_part t0 p0 →
      copies (available_ c1) t0 p0 l0 =
        copies (available_ (make empty_goal)) t0 p0 l0 + (if decide ((t0, p0, l0) = (2, 1, 7)) then 1 else 0) ∧
      copies (available_ c2) t0 p0 l0 = copies (available_ (make empty_goal)) t0 p0 l0.
Proof.
  apply (parts_bookkeeping 2 1 7 (make empty_goal)); [split; constructor|by split|done|done].
Defined.

(** ** getFullCopiesCount *)

Definition count_lt (c : Z) (l : list Z) : Z := zsum ((fun x => if x <? c then 1 else 0) <$> l).
Definition count_ge (c : Z) (l : list Z) : Z := zsum ((fun x => if c <=? x then 1 else 0) <$> l).

Lemma count_lt_ge c l : count_lt c l + count_ge c l = Z.of_nat (length l).
Proof.
  unfold count_lt, count_ge. rewrite <- zsum_fmap_add, <- (Z.mul_1_l (Z.of_nat (length l))), <- zsum_fmap_const.
  apply zsum_fmap_ext. intros x _. zcases.
Qed.

Lemma count_lt_nonneg c l : 0 <= count_lt c l.
Proof. apply zsum_fmap_nonneg, Forall_forall. intros x _. zcases. Qed.

Lemma lowest_two_spec l :
  Forall (fun x => x <= INT_MAX) l →
  let '(l1, l2) := lowest_two l in
  l1 <= l2 <= INT_MAX ∧
  ∀ c, c <= INT_MAX → (c <= l1 ↔ count_lt c l = 0) ∧ (c <= l2 ↔ count_lt c l <= 1).
Proof.
  unfold lowest_two. intros Hl. induction l as [|x l IH] using rev_ind.
  { simpl. split; [unfold INT_MAX; lia|]. intros c Hc. unfold count_lt. simpl. rewrite zsum_nil. lia. }
  apply Forall_app in Hl as [Hl Hx%Forall_singleton]. specialize (IH Hl). rewrite fold_left_app. cbn [fold_left].
  destruct (fold_left _ l (INT_MAX, INT_MAX)) as [l1 l2]. destruct IH as [H12 IH].
  assert (∀ c, count_lt c (l ++ [x]) = count_lt c l + (if x <? c then 1 else 0)) as Happ.
  { intros c. unfold count_lt. rewrite fmap_app, zsum_app, list_fmap_singleton, zsum_cons, zsum_nil. lia. }
  destruct (Z.ltb_spec x l1); (split; [lia|]); intros c Hc; rewrite Happ; specialize (IH c Hc);
    pose proof (count_lt_nonneg c l); zcases.
Qed.

Lemma sorted_nth_ge l n c :
  StronglySorted Z.ge l → (n < length l)%nat → c <= l !!! n ↔ Z.of_nat n < count_ge c l.
Proof.
  intros Hs. revert n. induction Hs as [|x l Hs IH Hx]; intros n Hn; [simpl in Hn; lia|].
  unfold count_ge. rewrite fmap_cons, zsum_cons. fold (count_ge c l). rewrite Forall_forall in Hx.
  pose proof (count_lt_ge c l). pose proof (count_lt_nonneg c l).
  assert (0 <= count_ge c l) by (apply zsum_fmap_nonneg, Forall_forall; intros; zcases).
  destruct n as [|n]; simpl.
  - destruct (Z.leb_spec c x); [lia|]. split; [lia|]. intros Hlt.
    assert (count_ge c l = 0); [|lia]. unfold count_ge. rewrite (zsum_fmap_ext _ (fun _ => 0)); [by rewrite zsum_fmap_const|].
    intros y Hy. specialize (Hx y Hy). zcases.
  - simpl in Hn. assert (n < length l)%nat as Hn' by lia. specialize (IH n Hn').
    assert (l !!! n ∈ l) as Hin by (by apply list_elem_of_lookup_total_2). specialize (Hx _ Hin). zcases.
Qed.

#[global] Instance Zge_total : Total Z.ge.
Proof. intros x y. lia. Qed.
#[global] Instance Zge_trans : Transitive Z.ge.
Proof. intros x y z. lia. Qed.

Lemma nth_largest_spec l n c : (n < length l)%nat → c <= nth_largest n l ↔ Z.of_nat n < count_ge c l.
Proof.
  intros Hn. unfold nth_largest. pose proof (merge_sort_Permutation Z.ge l) as Hp.
  rewrite (sorted_nth_ge (merge_sort Z.ge l)).
  - unfold count_ge. by rewrite (zsum_Permutation _ _ (fmap_Permutation _ _ _ Hp)).
  - apply (StronglySorted_merge_sort Z.ge).
  - by rewrite Hp.
Qed.

Lemma parts_with_count_ge c s : parts_with c s = count_ge c (Labels.countLabels <$> Slice.parts s).
Proof. done. Qed.

Lemma slice_size_parts s :
  slice_wf s → Z.of_nat (length (Slice.parts s)) =
    SliceTraits.getNumberOfDataParts (Slice.type_ s) + SliceTraits.getNumberOfParityParts (Slice.type_ s).
Proof.
  intros Hs. rewrite length_parts by done. unfold Slice.size, Slice.type_size.
  rewrite expectedParts_valid by apply Hs. pose proof (number_of_parts_bounds _ (sw_type s Hs)). lia.
Qed.

Definition small_counts (s : Slice.t) : Prop := Forall (fun p => Labels.countLabels p <= INT_MAX) (Slice.parts s).

Lemma full_copies_spec s c :
  slice_wf s → small_counts s → SliceTraits.isTape (Slice.type_ s) = false → c <= INT_MAX →
  c <= full_copies s ↔ SliceTraits.requiredPartsToRecover (Slice.type_ s) <= parts_with c s.
Proof.
  intros Hs Hsm Htape Hc. unfold full_copies, SliceTraits.requiredPartsToRecover.
  pose proof (slice_size_parts s Hs) as Hlen. pose proof (number_of_parts_bounds _ (sw_type s Hs)) as Hnb.
  rewrite parts_with_count_ge. set (counts := Labels.countLabels <$> Slice.parts s).
  assert (length counts = length (Slice.parts s)) as Hlc by (unfold counts; by rewrite length_fmap).
  assert (Forall (fun x => x <= INT_MAX) counts) as Hcm by (unfold counts; by apply Forall_fmap).
  destruct (slice_kinds _ (sw_type s Hs)) as [(E & _)|[(_ & -> & -> & Hsz)|(_ & -> & E)]]; [congruence| |].
  - destruct (standard_parts s Hs Hsz) as (p & Ep & _). unfold counts. rewrite getExpectedCopies_parts, Ep by done.
    unfold count_ge. rewrite !list_fmap_singleton, !zsum_cons, !zsum_nil. zcases.
  - destruct (SliceTraits.isXor (Slice.type_ s)) eqn:Ex.
    + pose proof (lowest_two_spec counts Hcm) as Hlow. destruct (lowest_two counts) as [l1 l2]. cbn [snd].
      destruct Hlow as [_ Hlow]. rewrite (proj2 (Hlow c Hc)).
      pose proof (count_lt_ge c counts) as Hge. rewrite Hlc, Hlen in Hge.
      unfold SliceTraits.getNumberOfParityParts in Hge. rewrite Ex in Hge. lia.
    + simpl in E. rewrite E. rewrite nth_largest_spec by lia. lia.
Qed.

(** [getFullCopiesCount] counts the full copies of the data.  For a slice that is
    not on tape the count is at least [c] exactly when as many distinct parts as are
    needed to read the data have at least [c] copies each; and the count of a whole
    goal is positive exactly when its data can be read. *)
Theorem full_copies_count_exact g :
  Forall (fun s => slice_wf s ∧ small_counts s) (GoalModel.goal_slices_ g) →
  (∀ s c, s ∈ GoalModel.goal_slices_ g → SliceTraits.isTape (Slice.type_ s) = false → c <= INT_MAX →
     (c <= full_copies s ↔ SliceTraits.requiredPartsToRecover (Slice.type_ s) <= parts_with c s)) ∧
  (0 < getFullCopiesCount g ↔ recoverable g).
Proof.
  intros Hg. rewrite Forall_forall in Hg. split.
  { intros s c [Hs Hsm]%Hg. by apply full_copies_spec. }
  assert (∀ s, s ∈ GoalModel.goal_slices_ g → 0 <= full_copies s ∧ (0 < full_copies s ↔ slice_recoverable s)) as Hfc.
  { intros s [Hs Hsm]%Hg. unfold slice_recoverable.
    destruct (SliceTraits.isTape (Slice.type_ s)) eqn:Et.
    - destruct (slice_kinds _ (sw_type s Hs)) as [(_ & E1 & E2 & E3)|[(E & _)|(E & _)]]; [|congruence..].
      unfold full_copies. rewrite E1, E2, E3. split; [done|]. split; [lia|by intros [? _]].
    - pose proof (full_copies_spec s 0 Hs Hsm Et ltac:(done)) as H0.
      pose proof (full_copies_spec s 1 Hs Hsm Et ltac:(done)) as H1.
      split; [|rewrite <- H1; intuition lia]. apply H0. rewrite parts_with_count_ge. unfold count_ge.
      rewrite (zsum_fmap_ext _ (fun _ => 1)).
      + rewrite zsum_fmap_const, length_fmap, slice_size_parts by done.
        pose proof (number_of_parts_bounds _ (sw_type s Hs)). unfold SliceTraits.requiredPartsToRecover. lia.
      + intros x Hx. pose proof (zsum_counts_nonneg s Hs) as Hn. rewrite Forall_forall in Hn.
        specialize (Hn x Hx). zcases. }
  unfold getFullCopiesCount, recoverable. rewrite Exists_exists.
  induction (GoalModel.goal_slices_ g) as [|s l IH].
  - rewrite fmap_nil, zsum_nil. split; [lia|]. by intros (x & ?%elem_of_nil & _).
  - rewrite fmap_cons, zsum_cons. destruct (Hfc s ltac:(by left)) as [Hs0 Hs1].
    assert (0 <= zsum (full_copies <$> l)).
    { apply zsum_fmap_nonneg, Forall_forall. intros x Hx. apply Hfc. by right. }
    destruct IH as [IH1 IH2]; [intros; apply Hg; by right|intros; apply Hfc; by right|]. split.
    + intros Hpos. destruct (Z.eq_dec (full_copies s) 0) as [E|E].
      * destruct IH1 as (x & Hx & Hr); [lia|]. exists x. split; [by right|done].
      * exists s. split; [by left|]. apply Hs1. lia.
    + intros (x & [->|Hx]%elem_of_cons & Hr); [apply Hs1 in Hr; lia|].
      assert (0 < zsum (full_copies <$> l)) by (apply IH2; eauto). lia.
Qed.

(** An erasure-code slice ec(2,1) with parts of 2, 1 and 3 copies has two full copies. *)
Lemma full_copies_count_exact_witness :
  let s := of_parts 10 [[(1, 2)]; [(2, 1)]; [(3, 3)]] in
  getFullCopiesCount (GoalModel.mk "" [s]) = 2 ∧ recoverable (GoalModel.mk "" [s]).
Proof.
  intros s. split; [vm_compute; reflexivity|].
  apply (full_copies_count_exact (GoalModel.mk "" [s])); [|by vm_compute].
  apply Forall_singleton. split.
  - apply of_parts_wf; [done|done|]. repeat (apply Forall_cons; split; [solve_labels_wf|]). constructor.
  - unfold small_counts, s. rewrite parts_of_parts by done.
    repeat (apply Forall_cons; split; [vm_compute; discriminate|]). constructor.
Defined.

(** ** evalOperationCount *)

Lemma sum_ops_spec l acc :
  fold_left add_ops l acc = (fst acc + zsum (fst <$> l), snd acc + zsum (snd <$> l)).
Proof.
  revert acc. induction l as [|x l IH]; intros [a b]; csimpl; [rewrite !zsum_nil; tuple_lia|].
  rewrite IH, !zsum_cons. simpl. tuple_lia.
Qed.

Lemma find_slice_cons t s slices :
  ssorted GoalModel.slice_less (s :: slices) →
  GoalModel.find_slice t (GoalModel.mk "" (s :: slices)) =
  if decide (t = Slice.type_ s) then Some s else GoalModel.find_slice t (GoalModel.mk "" slices).
Proof.
  intros Hs. pose proof Hs as [Hs' Hgt]%StronglySorted_inv. rewrite Forall_forall in Hgt.
  apply find_slice_ext; [done|]. intros x. simpl. rewrite elem_of_cons. case_decide as E.
  - split; [intros [[->|Hx] Et]; [done|]|intros [= ->]; auto].
    specialize (Hgt x Hx). apply Z.ltb_lt in Hgt. lia.
  - rewrite (find_slice_Some (GoalModel.mk "" slices)) by done. simpl. naive_solver.
Qed.

Lemma find_slice_cons_other s slices x :
  ssorted GoalModel.slice_less (s :: slices) → x ∈ slices → Slice.type_ x ≠ Slice.type_ s.
Proof.
  intros [_ Hgt]%StronglySorted_inv Hx E. rewrite Forall_forall in Hgt. specialize (Hgt x Hx).
  apply Z.ltb_lt in Hgt. lia.
Qed.

(** A loop of [evalOperationCount]: the counts stored and the totals. *)
Lemma count_fold ops_of slices m total :
  fmap_wf Z.ltb m → ssorted GoalModel.slice_less slices →
  let acc := fold_left (count_step ops_of) slices (m, total) in
  let ops s := default [] (ops_of s) in
  fmap_wf Z.ltb (fst acc) ∧
  (∀ t, to_gmap (fst acc) !! t =
     match GoalModel.find_slice t (GoalModel.mk "" slices) ≫= ops_of with
     | Some o => Some o
     | None => to_gmap m !! t
     end) ∧
  snd acc = (fst total + zsum ((fun s => zsum (fst <$> ops s)) <$> slices),
             snd total + zsum ((fun s => zsum (snd <$> ops s)) <$> slices)).
Proof.
  revert m total. induction slices as [|s slices IH]; intros m total Hm Hs.
  { simpl. split_and!; [done|done|]. rewrite !zsum_nil. destruct total; simpl; tuple_lia. }
  pose proof Hs as [Hs' _]%StronglySorted_inv. cbn [fold_left]. rewrite !fmap_cons, !zsum_cons.
  unfold count_step at 2 4 6. destruct (ops_of s) as [o|] eqn:E.
  - cbn [fst snd default].
    destruct (fm_assign_spec Z.ltb [] m (Slice.type_ s) o Hm) as [Hw Hg].
    destruct (IH (set_ops (Slice.type_ s) o m) (add_ops total (sum_ops o)) Hw Hs') as (H1 & H2 & H3).
    split; [done|]. split.
    + intros t. rewrite H2, (find_slice_cons t s) by done. case_decide as Et.
      * subst t. simpl. rewrite E. unfold set_ops. rewrite Hg, lookup_insert_eq.
        destruct (GoalModel.find_slice (Slice.type_ s) (GoalModel.mk "" slices)) as [x|] eqn:Ex; [|done].
        apply find_slice_Some in Ex as [Hx Etx]; [|done]. by destruct (find_slice_cons_other s slices x Hs Hx).
      * unfold set_ops. rewrite Hg, lookup_insert_ne by done. done.
    + rewrite H3. unfold sum_ops. rewrite sum_ops_spec. unfold add_ops. simpl. tuple_lia.
  - destruct (IH m total Hm Hs') as (H1 & H2 & H3). split; [done|]. split.
    + intros t. rewrite H2, (find_slice_cons t s) by done. case_decide as Et; [|done].
      subst t. simpl. rewrite E.
      destruct (GoalModel.find_slice (Slice.type_ s) (GoalModel.mk "" slices)) as [x|] eqn:Ex; [|done].
      apply find_slice_Some in Ex as [Hx Etx]; [|done]. by destruct (find_slice_cons_other s slices x Hs Hx).
    + rewrite H3. simpl. rewrite !zsum_nil. tuple_lia.
Qed.

Lemma operationCount_nil_dst src : labels_wf src → operationCount src [] = (0, Labels.countLabels src).
Proof.
  intros Hs. assert (∃ n, kWildcard < n) as [n Hn] by (exists (kWildcard + 1); lia).
  rewrite (operationCount_spec n) by (done || apply labels_wf_nil). cbn [cnt].
  pose proof (balance n src [] Hs labels_wf_nil Hn) as Hb. rewrite countLabels_nil in Hb. cbn [cnt] in Hb.
  assert (need n [] src = 0) as E; [|rewrite E in *; pose proof (surplus_nonneg n [] src); tuple_lia].
  unfold need. rewrite (zsum_fmap_ext _ (fun _ => 0)); [by rewrite zsum_fmap_const|]. intros k _.
  pose proof (cnt_nonneg k src Hs). unfold pcnt. simpl. lia.
Qed.

Lemma operationCount_nil_src dst : labels_wf dst → operationCount [] dst = (Labels.countLabels dst, 0).
Proof.
  intros Hd. assert (∃ n, kWildcard < n) as [n Hn] by (exists (kWildcard + 1); lia).
  rewrite (operationCount_spec n) by (done || apply labels_wf_nil). pose proof (cnt_nonneg kWildcard dst Hd).
  pose proof (balance n [] dst labels_wf_nil Hd Hn) as Hb. rewrite countLabels_nil in Hb.
  assert (surplus n dst [] = 0) as E; [|rewrite E in *; tuple_lia].
  unfold surplus. rewrite (zsum_fmap_ext _ (fun _ => 0)); [by rewrite zsum_fmap_const|]. intros k _.
  pose proof (cnt_nonneg k (proper dst) (proper_wf dst Hd)). unfold pcnt. simpl. lia.
Qed.

(** The labels of a part, none when the goal has no slice of the type. *)
Definition part_of (g : GoalModel.t) (t p : Z) : Labels.t :=
  match GoalModel.find_slice t g with Some s => Slice.part (Z.to_nat p) s | None => [] end.

Lemma part_of_slice g s p : goal_wf g → s ∈ GoalModel.goal_slices_ g → part_of g (Slice.type_ s) p = Slice.part (Z.to_nat p) s.
Proof. intros Hg Hs. unfold part_of. assert (GoalModel.find_slice (Slice.type_ s) g = Some s) as ->; [by apply find_slice_Some|done]. Qed.

Lemma part_of_wf g t p :
  goal_wf g → Forall slice_wf (GoalModel.goal_slices_ g) → valid_part t p → labels_wf (part_of g t p).
Proof.
  intros Hg Hs [_ Hp]. unfold part_of. destruct (GoalModel.find_slice t g) as [s|] eqn:E; [|apply labels_wf_nil].
  apply find_slice_Some in E as [Hin <-]; [|done]. rewrite Forall_forall in Hs.
  apply part_labels_wf; [by apply Hs|]. unfold Slice.size. lia.
Qed.

Section ops.
Context (avail target : GoalModel.t).
Hypothesis Hga : goal_wf avail.
Hypothesis Hgt : goal_wf target.
Hypothesis Hsa : Forall slice_wf (GoalModel.goal_slices_ avail).
Hypothesis Hst : Forall slice_wf (GoalModel.goal_slices_ target).

Let ops (t p : Z) : Z * Z := operationCount (part_of avail t p) (part_of target t p).

Lemma target_ops_parts s :
  s ∈ GoalModel.goal_slices_ target →
  target_slice_ops avail s = (fun p => ops (Slice.type_ s) (Z.of_nat p)) <$> seq 0 (Slice.size s).
Proof using Hga Hgt Hsa Hst.
  intros Hin. assert (slice_wf s) as Hs by (rewrite Forall_forall in Hst; auto).
  apply list_eq. intros p. rewrite list_lookup_fmap. unfold target_slice_ops.
  assert (∀ p, (p < Slice.size s)%nat → ops (Slice.type_ s) (Z.of_nat p) =
    operationCount (part_of avail (Slice.type_ s) (Z.of_nat p)) (Slice.part p s)) as Hops.
  { intros q _. unfold ops. by rewrite (part_of_slice target), Nat2Z.id. }
  destruct (decide (p < Slice.size s)%nat) as [Hp|Hp].
  - rewrite lookup_seq_lt by done. simpl. rewrite Hops by done. unfold part_of. rewrite Nat2Z.id.
    destruct (GoalModel.find_slice (Slice.type_ s) avail) as [a|] eqn:E.
    + apply find_slice_Some in E as [Ha Et]; [|done]. rewrite Forall_forall in Hsa.
      assert (p < Slice.size a)%nat by (unfold Slice.size; by rewrite Et).
      rewrite lookup_zip_with, !parts_lookup by (done || by apply Hsa). done.
    + rewrite list_lookup_fmap, parts_lookup by done. simpl.
      by rewrite operationCount_nil_src by (by apply part_labels_wf).
  - rewrite lookup_seq_ge by lia. simpl. apply lookup_ge_None_2.
    destruct (GoalModel.find_slice (Slice.type_ s) avail) as [a|];
      [rewrite length_zip_with|rewrite length_fmap]; rewrite (length_parts s Hs); lia.
Qed.

Lemma extra_ops_parts s :
  s ∈ GoalModel.goal_slices_ avail → GoalModel.find_slice (Slice.type_ s) target = None →
  extra_slice_ops s = (fun p => ops (Slice.type_ s) (Z.of_nat p)) <$> seq 0 (Slice.size s).
Proof using Hga Hgt Hsa Hst.
  intros Hin Hn. assert (slice_wf s) as Hs by (rewrite Forall_forall in Hsa; auto).
  apply list_eq. intros p. rewrite list_lookup_fmap. unfold extra_slice_ops. rewrite list_lookup_fmap.
  destruct (decide (p < Slice.size s)%nat) as [Hp|Hp].
  - rewrite lookup_seq_lt, parts_lookup by done. simpl. unfold ops.
    rewrite (part_of_slice avail), Nat2Z.id by done. unfold part_of. rewrite Hn.
    by rewrite operationCount_nil_dst by (by apply part_labels_wf).
  - rewrite lookup_seq_ge by lia. rewrite lookup_ge_None_2; [done|]. rewrite length_parts by done. lia.
Qed.

Lemma ops_absent t p :
  valid_part t p → GoalModel.find_slice t avail = None → GoalModel.find_slice t target = None → ops t p = (0, 0).
Proof using. intros _ Ha Ht. unfold ops, part_of. by rewrite Ha, Ht. Qed.
End ops.

Lemma ops_fst_nonneg src dst : labels_wf src → labels_wf dst → 0 <= fst (operationCount src dst).
Proof.
  intros Hs Hd. assert (∃ n, kWildcard < n) as [n Hn] by (exists (kWildcard + 1); lia).
  rewrite (operationCount_spec n) by done. simpl. pose proof (need_nonneg n dst src). lia.
Qed.

Lemma ops_fst_meets src dst : labels_wf src → labels_wf dst → fst (operationCount src dst) = 0 ↔ meets src dst.
Proof.
  intros Hs Hd. assert (∃ n, kWildcard < n) as [n Hn] by (exists (kWildcard + 1); lia).
  rewrite (operationCount_spec n), (meets_iff n) by done. simpl.
  pose proof (need_nonneg n dst src). lia.
Qed.

Lemma seq_ops_lookup (f : nat → Z * Z) n p :
  0 <= p < Z.of_nat n → (f <$> seq 0 n) !!! Z.to_nat p = f (Z.to_nat p).
Proof.
  intros Hp. apply list_lookup_total_correct. rewrite list_lookup_fmap, lookup_seq_lt by lia. done.
Qed.

(** The counts stored by [evalOperationCount] and the number of parts to recover. *)
Lemma evalOperationCount_spec c :
  avail_wf (available_ c) → goal_wf (target_ c) → Forall slice_wf (GoalModel.goal_slices_ (target_ c)) →
  let ops t p := operationCount (part_of (available_ c) t p) (part_of (target_ c) t p) in
  let m := slice_operation_count_ (evalOperationCount c) in
  fmap_wf Z.ltb m ∧
  (∀ t, to_gmap m !! t =
     match GoalModel.find_slice t (target_ c), GoalModel.find_slice t (available_ c) with
     | None, None => None
     | _, _ => Some ((fun p => ops t (Z.of_nat p)) <$> seq 0 (Slice.type_size t))
     end) ∧
  countPartsToRecover (evalOperationCount c) =
    zsum ((fun s => zsum ((fun p => fst (ops (Slice.type_ s) (Z.of_nat p))) <$> seq 0 (Slice.size s)))
            <$> GoalModel.goal_slices_ (target_ c)).
Proof.
  intros Hw Hgt Hst ops m. pose proof (aw_goal _ Hw) as Hga.
  assert (Forall slice_wf (GoalModel.goal_slices_ (available_ c))) as Hsa.
  { eapply Forall_impl; [apply Hw|]. by intros s []. }
  destruct (count_fold (fun slice => Some (target_slice_ops (available_ c) slice))
    (GoalModel.goal_slices_ (target_ c)) [] (0, 0) ltac:(constructor) Hgt) as (H1 & H2 & H3).
  unfold m, countPartsToRecover, evalOperationCount. cbn [slice_operation_count_ operation_count_].
  destruct (fold_left (count_step _) (GoalModel.goal_slices_ (target_ c)) ([], (0, 0))) as [m1 tot1].
  cbn [fst snd] in H1, H2, H3.
  set (extra := fun slice => match GoalModel.find (Slice.type_ slice) (target_ c) with
                             | None => Some (extra_slice_ops slice) | Some _ => None end).
  destruct (count_fold extra (GoalModel.goal_slices_ (available_ c)) m1 tot1 H1 Hga) as (H4 & H5 & H6).
  split; [done|]. split.
  - intros t. rewrite H5, H2.
    change (GoalModel.find_slice t (GoalModel.mk "" (GoalModel.goal_slices_ (available_ c))))
      with (GoalModel.find_slice t (available_ c)).
    change (GoalModel.find_slice t (GoalModel.mk "" (GoalModel.goal_slices_ (target_ c))))
      with (GoalModel.find_slice t (target_ c)).
    assert (∀ s, GoalModel.find_slice t (target_ c) = Some s → ∃ i, GoalModel.find t (target_ c) = Some i) as Hfi.
    { unfold GoalModel.find_slice. destruct (GoalModel.find t (target_ c)); [eauto|done]. }
    assert (GoalModel.find_slice t (target_ c) = None → GoalModel.find t (target_ c) = None) as Hfn.
    { intros E. destruct (goal_find_cases (target_ c) t Hgt) as [(i & s & Ei & Hi & Et)|[-> _]]; [|done].
      assert (GoalModel.find_slice t (target_ c) = Some s) by
        (apply find_slice_Some; [done|]; split; [by eapply list_elem_of_lookup_2|done]). congruence. }
    destruct (GoalModel.find_slice t (target_ c)) as [ts|] eqn:Et.
    + destruct (Hfi ts eq_refl) as [i Ei]. apply find_slice_Some in Et as [Hin <-]; [|done]. simpl.
      destruct (GoalModel.find_slice (Slice.type_ ts) (available_ c)) as [a|] eqn:Ea; simpl.
      * apply find_slice_Some in Ea as [_ Eat]; [|done]. unfold extra. rewrite Eat, Ei.
        f_equal. by apply target_ops_parts.
      * f_equal. by apply target_ops_parts.
    + specialize (Hfn eq_refl). simpl.
      destruct (GoalModel.find_slice t (available_ c)) as [a|] eqn:Ea; simpl; [|done].
      apply find_slice_Some in Ea as [Hin <-]; [|done]. unfold extra. rewrite Hfn.
      f_equal. by apply extra_ops_parts.
  - rewrite H6. cbn [fst]. rewrite H3. cbn [fst snd].
    rewrite (zsum_fmap_ext (fun s => zsum (fst <$> default [] (extra s))) (fun _ => 0)), zsum_fmap_const.
    + rewrite Z.mul_0_l, Z.add_0_r, Z.add_0_l. apply zsum_fmap_ext. intros s Hin. simpl.
      rewrite (target_ops_parts (available_ c) (target_ c)) by done. by rewrite <- list_fmap_compose.
    + intros s _. unfold extra, extra_slice_ops.
      destruct (GoalModel.find _ _); simpl; [done|]. rewrite <- list_fmap_compose. by rewrite (zsum_fmap_const 0).
Qed.

(** Nothing is left to recover exactly when every part meets its target. *)
Lemma recover_zero_iff avail target :
  goal_wf target → Forall slice_wf (GoalModel.goal_slices_ target) →
  (∀ t p, valid_part t p → labels_wf (part_of avail t p) ∧ labels_wf (part_of target t p)) →
  zsum ((fun s => zsum ((fun p => fst (operationCount (part_of avail (Slice.type_ s) (Z.of_nat p))
                                          (part_of target (Slice.type_ s) (Z.of_nat p)))) <$> seq 0 (Slice.size s)))
          <$> GoalModel.goal_slices_ target) = 0 ↔
  ∀ t p, valid_part t p → meets (part_of avail t p) (part_of target t p).
Proof.
  intros Hgt Hst Hpw. rewrite Forall_forall in Hst.
  assert (∀ s q, s ∈ GoalModel.goal_slices_ target → q ∈ seq 0 (Slice.size s) →
    valid_part (Slice.type_ s) (Z.of_nat q)) as Hv.
  { intros s q Hs Hq%elem_of_seq. split; [apply Hst, Hs|unfold Slice.size in *; lia]. }
  assert (∀ s q, s ∈ GoalModel.goal_slices_ target → q ∈ seq 0 (Slice.size s) →
    0 <= fst (operationCount (part_of avail (Slice.type_ s) (Z.of_nat q)) (part_of target (Slice.type_ s) (Z.of_nat q)))) as Hnn.
  { intros s q Hs Hq. destruct (Hpw _ _ (Hv s q Hs Hq)). by apply ops_fst_nonneg. }
  split.
  - intros Hz t p Hvp. destruct (Hpw t p Hvp) as [H1 H2]. apply ops_fst_meets; [done..|].
    destruct (GoalModel.find_slice t target) as [ts|] eqn:E1.
    2:{ unfold part_of at 2. rewrite E1. by rewrite operationCount_nil_dst. }
    pose proof E1 as [Hin Et]%find_slice_Some; [|done]. destruct Hvp as [_ Hp].
    apply zsum_zero with (x := ts) in Hz; [|intros s Hs; apply zsum_fmap_nonneg, Forall_forall; auto|done].
    apply zsum_zero with (x := Z.to_nat p) in Hz; [|auto|apply elem_of_seq; unfold Slice.size; rewrite Et; lia].
    by rewrite Et, Z2Nat.id in Hz by lia.
  - intros Hall. rewrite (zsum_fmap_ext _ (fun _ => 0)); [by rewrite zsum_fmap_const|].
    intros s Hs. rewrite (zsum_fmap_ext _ (fun _ => 0)); [by rewrite zsum_fmap_const|].
    intros q Hq. destruct (Hpw _ _ (Hv s q Hs Hq)). apply ops_fst_meets; [done..|]. by apply Hall, Hv.
Qed.

(** the operation counts decide whether a chunk has reached its goal.  For every
    part of every slice type, [countPartsToMove] returns the counts of
    [operationCount] for the available and the required labels (none where a goal has
    no such slice); and [countPartsToRecover] is zero exactly when the available copies
    of every part meet what the target asks for. *)
Theorem operation_counts_decide_goal c :
  avail_wf (available_ c) → goal_wf (target_ c) → Forall slice_wf (GoalModel.goal_slices_ (target_ c)) →
  let c' := evalOperationCount c in
  (∀ t p, valid_part t p →
     countPartsToMove t p c' = Ok (operationCount (part_of (available_ c) t p) (part_of (target_ c) t p))) ∧
  (countPartsToRecover c' = 0 ↔
   ∀ t p, valid_part t p → meets (part_of (available_ c) t p) (part_of (target_ c) t p)).
Proof.
  intros Hw Hgt Hst c'. destruct (evalOperationCount_spec c Hw Hgt Hst) as (Hm & Hl & Hr).
  pose proof (aw_goal _ Hw) as Hga.
  assert (Forall slice_wf (GoalModel.goal_slices_ (available_ c))) as Hsa.
  { eapply Forall_impl; [apply Hw|]. by intros s []. }
  assert (∀ t p, valid_part t p → labels_wf (part_of (available_ c) t p) ∧ labels_wf (part_of (target_ c) t p)) as Hpw.
  { intros t p Hv. split; by apply part_of_wf. }
  split.
  - intros t p Hv. pose proof Hv as [Hvt Hp]. unfold countPartsToMove, c'.
    rewrite (fm_get_spec Z.ltb []), Hl by done.
    destruct (SliceType.expectedParts t) as [n| | |] eqn:En;
      [|rewrite expectedParts_valid in En by done; discriminate..].
    unfold Slice.type_size in Hp |- *. rewrite En in Hp |- *. cbn [mbind res_bind].
    rewrite (proj2 (Z.leb_le 0 p)), (proj2 (Z.ltb_lt p n)) by lia. cbn [andb assertion]. f_equal.
    destruct (GoalModel.find_slice t (target_ c)) eqn:E1, (GoalModel.find_slice t (available_ c)) eqn:E2;
      try (rewrite seq_ops_lookup, Z2Nat.id by lia; done).
    unfold part_of. rewrite E1, E2. done.
  - unfold c'. rewrite Hr. by apply recover_zero_iff.
Qed.

Ltac solve_avail :=
  split; [repeat constructor|];
  apply Forall_singleton; split;
    [apply of_parts_wf; [done|done|]; repeat (apply Forall_cons; split; [solve_labels_wf|]); constructor
    |rewrite parts_of_parts by done; repeat (apply Forall_cons; split; [solve_positive|]); constructor
    |rewrite parts_of_parts by done; repeat (apply Forall_cons; split; [done|]); constructor].

(** One copy on label 1 and one on label 2, with a goal of two copies on label 1. *)
Lemma operation_counts_decide_goal_witness :
  let c := set_available (GoalModel.mk "" [of_parts 0 [[(1, 1); (2, 1)]]])
             (make (GoalModel.mk "g" [of_parts 0 [[(1, 2)]]])) in
  countPartsToMove 0 0 (evalOperationCount c) = Ok (1, 1) ∧ countPartsToRecover (evalOperationCount c) = 1 ∧
  (countPartsToRecover (evalOperationCount c) = 0 ↔
   ∀ t p, valid_part t p → meets (part_of (available_ c) t p) (part_of (target_ c) t p)).
Proof.
  intros c. split; [vm_compute; reflexivity|]. split; [vm_compute; reflexivity|].
  refine (proj2 (operation_counts_decide_goal c _ _ _)).
  - solve_avail.
  - repeat constructor.
  - apply Forall_singleton, of_parts_wf; [done|done|]. apply Forall_singleton. solve_labels_wf.
Defined.
