(* ===== verification/Optimize.v ===== *)
(** * ChunkCopiesCalculator::optimize

    Correctness of the permutation of target parts chosen by [optimize]
    (src/common/chunk_copies_calculator.cc) with and without the cache of
    src/common/linear_assignment_cache.h. *)

From S2P Require Import Prelude FlatContainers MediaLabel SliceTraits Assignment GoalSlices CopiesCalculator.
Import Calculator.

(** ** The costs *)

Lemma zsum_fmap_sub {A} (f g : A → Z) l :
  zsum ((fun x => f x - g x) <$> l) = zsum (f <$> l) - zsum (g <$> l).
Proof. induction l; zsum_simpl; lia. Qed.

(** The weight of moving from one part to another: recoveries first, then removals. *)
Definition weight (src dst : Labels.t) : Z :=
  max_slice_op * fst (operationCount src dst) + snd (operationCount src dst).

(** Parts within four times the limit on copies. *)
Record bounded_part (l : Labels.t) : Prop := {
  bp_wf : labels_wf l;
  bp_count : Labels.countLabels l <= 4 * Slice.kMaxExpectedCopies;
}.

Lemma ops_bound src dst :
  labels_wf src → labels_wf dst →
  0 <= fst (operationCount src dst) <= Labels.countLabels dst ∧
  0 <= snd (operationCount src dst) <= Labels.countLabels src.
Proof.
  intros Hs Hd. assert (∃ n, kWildcard < n) as [n Hn] by (exists (kWildcard + 1); lia).
  rewrite (operationCount_spec n) by done. simpl.
  pose proof (need_nonneg n dst src). pose proof (surplus_nonneg n dst src).
  pose proof (cnt_nonneg kWildcard dst Hd).
  assert (need n dst src + cnt kWildcard dst <= Labels.countLabels dst).
  { rewrite (countLabels_split n) by done. apply Z.add_le_mono_r. unfold need. apply zsum_le, Forall_forall.
    intros k _. pose proof (cnt_nonneg k src Hs). pose proof (cnt_nonneg k (proper dst) (proper_wf dst Hd)).
    unfold pcnt. lia. }
  assert (surplus n dst src <= Labels.countLabels src).
  { rewrite (countLabels_cnt_upto n) by done. unfold surplus. apply zsum_le, Forall_forall.
    intros k _. pose proof (cnt_nonneg k src Hs). pose proof (cnt_nonneg k (proper dst) (proper_wf dst Hd)).
    unfold pcnt. lia. }
  lia.
Qed.

Lemma move_cost_weight src dst :
  bounded_part src → bounded_part dst →
  move_cost src dst = max_slice_op * max_slice_op - weight src dst ∧ 0 <= weight src dst <= 655872.
Proof.
  intros [Hs Bs] [Hd Bd]. pose proof (ops_bound src dst Hs Hd). unfold move_cost, weight.
  destruct (operationCount src dst) as [f g]. simpl in *.
  unfold max_slice_op, Slice.kMaxExpectedCopies in *. rewrite !Z.min_l by lia. lia.
Qed.

(** ** The optimal assignment of target parts to available parts *)

Section assignment.
Context (src target : Slice.t).
Hypothesis Hs : slice_wf src.
Hypothesis Ht : slice_wf target.
Hypothesis Het : Slice.type_ src = Slice.type_ target.
Hypothesis Hbs : Forall bounded_part (Slice.parts src).
Hypothesis Hbt : Forall bounded_part (Slice.parts target).
Let n := Slice.size target.

Lemma src_size : Slice.size src = n.
Proof using Het. unfold n, Slice.size. by rewrite Het. Qed.

Lemma src_part_bounded i : (i < n)%nat → bounded_part (Slice.part i src).
Proof using Hs Het Hbs.
  intros Hi. rewrite Forall_forall in Hbs. apply Hbs, list_elem_of_lookup. exists i.
  apply parts_lookup; [done|]. by rewrite src_size.
Qed.

Lemma target_part_bounded i : (i < n)%nat → bounded_part (Slice.part i target).
Proof using Ht Hbt.
  intros Hi. rewrite Forall_forall in Hbt. apply Hbt, list_elem_of_lookup. exists i. by apply parts_lookup.
Qed.

(** The total weight when available part [k] serves target part [sigma !!! k]. *)
Definition total_weight (sigma : list nat) : Z :=
  zsum ((fun k => weight (Slice.part k src) (Slice.part (sigma !!! k) target)) <$> seq 0 n).

Lemma move_costs_square : LinearAssignment.square n (move_costs src target).
Proof using Hs Ht Het.
  split; unfold move_costs.
  - rewrite length_fmap, length_parts by done. apply src_size.
  - apply Forall_forall. intros row (a & -> & _)%list_elem_of_fmap. rewrite length_fmap. by apply length_parts.
Qed.

Lemma move_costs_entry i j :
  (i < n)%nat → (j < n)%nat →
  LinearAssignment.mget (move_costs src target) i j =
    max_slice_op * max_slice_op - weight (Slice.part i src) (Slice.part j target).
Proof using Hs Ht Het Hbs Hbt.
  intros Hi Hj.
  destruct (move_cost_weight (Slice.part i src) (Slice.part j target)) as [<- _];
    [by apply src_part_bounded|by apply target_part_bounded|].
  unfold LinearAssignment.mget, move_costs.
  rewrite (list_lookup_total_correct _ i (move_cost (Slice.part i src) <$> Slice.parts target)).
  - apply list_lookup_total_correct. by rewrite list_lookup_fmap, parts_lookup.
  - rewrite list_lookup_fmap, parts_lookup; [done|done|]. by rewrite src_size.
Qed.

Lemma move_costs_value sigma :
  sigma ≡ₚ seq 0 n →
  LinearAssignment.value (move_costs src target) n sigma =
    max_slice_op * max_slice_op * Z.of_nat n - total_weight sigma.
Proof using Hs Ht Het Hbs Hbt.
  intros Hp. unfold LinearAssignment.value, total_weight.
  rewrite <- (length_seq n 0) at 2. rewrite <- zsum_fmap_const, <- zsum_fmap_sub.
  apply zsum_fmap_ext. intros i Hi%elem_of_seq. apply move_costs_entry; [lia|].
  apply permutation_entry with (s := target); [done|lia].
Qed.

Lemma assignment_solved :
  ∃ asg obj, LinearAssignment.auctionOptimization (move_costs src target) n = Ok (asg, obj) ∧
    Z.to_nat <$> asg ≡ₚ seq 0 n ∧ length asg = n ∧ Forall (fun a => 0 <= a < Z.of_nat n) asg ∧
    ∀ sigma, sigma ≡ₚ seq 0 n → total_weight (Z.to_nat <$> asg) <= total_weight sigma.
Proof using Hs Ht Het Hbs Hbt.
  assert (n ≤ 64)%nat as H64 by (apply (type_size_bound (Slice.type_ target)), Ht).
  destruct (LinearAssignment.auction_solves (move_costs src target) n
    (max_slice_op * max_slice_op - 655872) 655872) as (asg & obj & E & Hp & Hm & Hr & Hopt);
    [done|apply move_costs_square|done| | |unfold max_slice_op, Slice.kMaxExpectedCopies; lia|].
  { intros i j Hi Hj. rewrite move_costs_entry by done.
    destruct (move_cost_weight (Slice.part i src) (Slice.part j target)) as [_ Hw];
      [by apply src_part_bounded|by apply target_part_bounded|]. lia. }
  { lia. }
  exists asg, obj. split; [done|]. split; [done|]. split; [apply Hm|]. split; [done|].
  intros sigma Hsig. specialize (Hopt sigma Hsig). rewrite !move_costs_value in Hopt by done. lia.
Qed.
End assignment.

(** ** Building the permuted slice *)

Lemma part_window s k :
  slice_wf s → (k < Slice.size s)%nat →
  (Slice.getPartOffset k s + Slice.part_size_ s !!! k ≤ length (Slice.data_ s))%nat.
Proof.
  intros Hs Hk. unfold Slice.getPartOffset. rewrite <- (sw_sum s Hs). rewrite <- (sw_len s Hs) in Hk.
  generalize dependent k. induction (Slice.part_size_ s) as [|m l IH]; intros [|k] Hk; simpl in *; try lia.
  specialize (IH k ltac:(lia)). unfold lookup_total in *. simpl. lia.
Qed.

(** [result[k] = xs] through [vector_range::operator=] is a write of part [k]. *)
Lemma assign_part_write s k xs :
  slice_wf s → (k < Slice.size s)%nat → Z.of_nat (length xs) < 2 ^ 16 →
  (let '(data, size) := VectorRange.assign 16 (0, 0) xs (Slice.data_ s) (Slice.getPartOffset k s)
                          (Slice.part_size_ s !!! k) in
   Slice.mk (Slice.type_ s) (<[k := size]> (Slice.part_size_ s)) data) = Slice.write_part k xs s.
Proof.
  intros Hs Hk Hx. rewrite (vr_assign_splice 16 (0, 0)); [|by apply part_window|done|done].
  unfold Slice.write_part. f_equal. f_equal. unfold VectorRange.store_size. rewrite wrapu_small by lia. lia.
Qed.

Lemma permute_parts_spec ks asg target result :
  slice_wf target → Forall (fun p => Z.of_nat (length p) < 2 ^ 16) (Slice.parts target) →
  slice_wf result → Slice.type_ result = Slice.type_ target →
  NoDup ks → Forall (fun k => (k < Slice.size target)%nat ∧ 0 <= asg !!! k < Z.of_nat (Slice.size target)) ks →
  ∃ r, permute_parts ks asg target result = Ok r ∧ slice_wf r ∧ Slice.type_ r = Slice.type_ target ∧
    ∀ k, (k < Slice.size target)%nat →
      Slice.part k r = if decide (k ∈ ks) then Slice.part (Z.to_nat (asg !!! k)) target else Slice.part k result.
Proof.
  intros Ht Hlen Hr Het Hnd Hks. revert result Hr Het. induction ks as [|k ks IH]; intros result Hr Het.
  { exists result. split_and!; try done. }
  apply NoDup_cons in Hnd as [Hk Hnd]. apply Forall_cons in Hks as [[Hk1 Hk2] Hks]. cbn [permute_parts].
  unfold part_ok. rewrite (proj2 (Z.leb_le 0 _)), (proj2 (Z.ltb_lt _ _)) by lia. cbn [andb assertion].
  set (a := Z.to_nat (asg !!! k)). assert (a < Slice.size target)%nat as Ha by lia.
  assert (Slice.size result = Slice.size target) as Hsz by (unfold Slice.size; by rewrite Het).
  assert (Z.of_nat (length (Slice.part a target)) < 2 ^ 16) as Hla.
  { rewrite Forall_forall in Hlen. apply Hlen, list_elem_of_lookup. exists a. by apply parts_lookup. }
  pose proof (part_labels_wf target Ht a Ha) as Hwa.
  pose proof (assign_part_write result k (Slice.part a target) Hr ltac:(lia) Hla) as Hwr.
  destruct (VectorRange.assign 16 (0, 0) _ _ _ _) as [data size]. rewrite Hwr.
  destruct (write_part_locality result k (Slice.part a target) Hr ltac:(lia) Hwa Hla) as (Hwf & _ & E).
  destruct (IH Hnd Hks (Slice.write_part k (Slice.part a target) result) Hwf Het) as (r & -> & Hwr' & Hter & Hpr).
  exists r. split_and!; try done. intros k' Hk'. rewrite Hpr by done.
  rewrite E by lia. destruct (decide (k = k')) as [<-|Hne].
  - rewrite (decide_False (P := k ∈ ks)), (decide_True (P := k ∈ k :: ks)) by (done || by left). done.
  - destruct (decide (k' ∈ ks)) as [Hin|Hin].
    + rewrite decide_True by (by right). done.
    + rewrite decide_False; [done|]. intros [->|?]%elem_of_cons; done.
Qed.

(** ** The cache *)

Lemma partsMatch_eq p1 p2 : LinearAssignmentCache.partsMatch p1 p2 = true ↔ p1 = p2.
Proof.
  unfold LinearAssignmentCache.partsMatch. rewrite andb_true_iff, Nat.eqb_eq. split.
  - intros [Hl Hz]. revert p2 Hl Hz. induction p1 as [|x p1 IH]; intros [|y p2] Hl Hz; simplify_eq/=; [done|].
    apply andb_true_iff in Hz as [Hxy%bool_decide_eq_true Hz]. f_equal; [done|by apply IH].
  - intros <-. split; [done|]. induction p1 as [|x p1 IH]; [done|]. simpl. apply andb_true_iff.
    split; [by apply bool_decide_eq_true|done].
Qed.

(** Two slices of the same type with the same parts lead to the same costs. *)
Lemma parts_match_all s s' :
  slice_wf s → slice_wf s' → Slice.type_ s = Slice.type_ s' →
  forallb (fun i => LinearAssignmentCache.partsMatch (Slice.part i s) (Slice.part i s')) (seq 0 (Slice.size s)) = true →
  Slice.parts s = Slice.parts s'.
Proof.
  intros Hs Hs' Ht Hall. apply list_eq. intros i.
  assert (Slice.size s' = Slice.size s) as Hsz by (unfold Slice.size; by rewrite Ht).
  destruct (decide (i < Slice.size s)%nat) as [Hi|Hi].
  - rewrite !parts_lookup by (done || by rewrite Hsz). f_equal.
    apply partsMatch_eq. rewrite forallb_forall in Hall. apply Hall, list_elem_of_In, elem_of_seq. lia.
  - rewrite !lookup_ge_None_2; [done|rewrite length_parts by done; lia..].
Qed.

(** Every entry is the default one or holds the optimizer's answer for its slices. *)
Definition entry_ok (e : LinearAssignmentCache.entry) : Prop :=
  e = LinearAssignmentCache.default_entry ∨
  let src := LinearAssignmentCache.source_slice_ e in
  let target := LinearAssignmentCache.target_slice_ e in
  slice_wf src ∧ slice_wf target ∧
  ∃ obj, LinearAssignment.auctionOptimization (move_costs src target) (Slice.size target) =
         Ok (LinearAssignmentCache.assignment_ e, obj).

Definition cache_ok (cache : LinearAssignmentCache.t) : Prop := map_Forall (fun _ e => entry_ok e) cache.

Definition cache_opt_ok (cache : option LinearAssignmentCache.t) : Prop :=
  match cache with Some cc => cache_ok cc | None => True end.

Lemma entry_match_correct target src e asg :
  slice_wf target → slice_wf src → (1 < Slice.size target)%nat → entry_ok e →
  LinearAssignmentCache.entry_match target src e = Some asg →
  ∃ obj, LinearAssignment.auctionOptimization (move_costs src target) (Slice.size target) = Ok (asg, obj).
Proof.
  intros Ht Hs Hsz He. unfold LinearAssignmentCache.entry_match.
  destruct (Z.eqb_spec (Slice.type_ target) (Slice.type_ (LinearAssignmentCache.target_slice_ e))) as [E1|]; [|done].
  destruct (Z.eqb_spec (Slice.type_ src) (Slice.type_ (LinearAssignmentCache.source_slice_ e))) as [E2|]; [|done].
  cbn [negb orb]. destruct He as [->|(Hes & Het & obj & Eo)].
  { unfold Slice.size in Hsz. rewrite E1 in Hsz. vm_compute in Hsz. lia. }
  destruct (forallb _ (seq 0 (Slice.size target))) eqn:F1; [|done].
  destruct (forallb _ (seq 0 (Slice.size src))) eqn:F2; [|done]. cbn [andb]. intros [= <-].
  apply parts_match_all in F1; [|done..]. apply parts_match_all in F2; [|done..].
  exists obj. rewrite <- Eo. unfold move_costs, Slice.size. by rewrite F1, F2, E1.
Qed.

Lemma find_assignment_spec target src cache :
  slice_wf target → slice_wf src → (1 < Slice.size target)%nat → cache_opt_ok cache →
  ∃ cache', cache_opt_ok cache' ∧ (is_Some cache' ↔ is_Some cache) ∧
    find_assignment target src cache =
      '(asg, _) ← LinearAssignment.auctionOptimization (move_costs src target) (Slice.size target);
      Ok (asg, cache').
Proof.
  intros Ht Hs Hsz Hcc. destruct cache as [cc|]; [|by exists None].
  unfold find_assignment, LinearAssignmentCache.checkMatchAndGetResult.
  set (h := LinearAssignmentCache.hashSlicePair target src).
  set (e := default LinearAssignmentCache.default_entry (cc !! h)).
  assert (entry_ok e) as He.
  { unfold e. destruct (cc !! h) as [e0|] eqn:E; simpl; [by apply (Hcc h)|by left]. }
  assert (cache_ok (<[h := e]> cc)) as Hcc1 by (by apply map_Forall_insert_2).
  destruct (LinearAssignmentCache.entry_match target src e) as [asg|] eqn:Em.
  - destruct (entry_match_correct target src e asg Ht Hs Hsz He Em) as [obj ->]. by exists (Some (<[h := e]> cc)).
  - destruct (LinearAssignment.auctionOptimization (move_costs src target) (Slice.size target))
      as [[asg obj]| | |] eqn:Ea; try (by exists (Some cc)). cbn [mbind res_bind].
    exists (Some (LinearAssignmentCache.store target src asg (<[h := e]> cc))). split; [|done].
    apply map_Forall_insert_2; [|done]. right. split_and!; [done..|]. by exists obj.
Qed.

(** the cache of linear assignments is transparent.  With any cache whose entries
    are default entries or answers of the optimizer, whatever the collisions of the
    64-bit hash, [find_assignment] returns what it returns without a cache, and the
    cache keeps this property. *)
Theorem assignment_cache_transparent target src cc :
  slice_wf target → slice_wf src → (1 < Slice.size target)%nat → cache_ok cc →
  match find_assignment target src None, find_assignment target src (Some cc) with
  | Ok (asg, _), Ok (asg', Some cc') => asg' = asg ∧ cache_ok cc'
  | Abort, Abort | Throw, Throw | Stuck, Stuck => True
  | _, _ => False
  end.
Proof.
  intros Ht Hs Hsz Hcc.
  destruct (find_assignment_spec target src (Some cc) Ht Hs Hsz Hcc) as ([cc'|] & Hcc' & Hsome & ->);
    [|by destruct (proj2 Hsome) as [??]; [eexists|]].
  unfold find_assignment.
  by destruct (LinearAssignment.auctionOptimization (move_costs src target) (Slice.size target)) as [[asg obj]| | |].
Qed.

(** ** Optimality *)

(** [s'] has the parts of [s] in some order. *)
Record permuted (s s' : Slice.t) : Prop := {
  pm_type : Slice.type_ s' = Slice.type_ s;
  pm_wf : slice_wf s';
  pm_order : ∃ sigma, sigma ≡ₚ seq 0 (Slice.size s) ∧
    ∀ k, (k < Slice.size s)%nat → Slice.part k s' = Slice.part (sigma !!! k) s;
}.

Lemma permuted_refl s : slice_wf s → permuted s s.
Proof.
  intros Hs. split; [done|done|]. exists (seq 0 (Slice.size s)). split; [done|]. intros k Hk. f_equal.
  symmetry. apply list_lookup_total_correct. rewrite lookup_seq_lt by done. done.
Qed.

Lemma zsum_perm (f : nat → Z) n sigma :
  sigma ≡ₚ seq 0 n → zsum ((fun k => f (sigma !!! k)) <$> seq 0 n) = zsum (f <$> seq 0 n).
Proof.
  intros Hp. transitivity (zsum (f <$> sigma)).
  - pose proof (Permutation_length Hp) as Hl. rewrite length_seq in Hl. f_equal. apply list_eq. intros i.
    rewrite !list_lookup_fmap. destruct (decide (i < n)%nat) as [Hi|Hi].
    + rewrite lookup_seq_lt by done. rewrite <- Hl in Hi. destruct (lookup_lt_is_Some_2 _ _ Hi) as [x Hx].
      rewrite Hx. simpl. by rewrite (list_lookup_total_correct _ _ _ Hx).
    + rewrite lookup_seq_ge, lookup_ge_None_2 by lia. done.
  - apply zsum_Permutation. by rewrite Hp.
Qed.

Lemma permuted_sum (f : Labels.t → Z) s s' :
  permuted s s' →
  zsum ((fun k => f (Slice.part k s')) <$> seq 0 (Slice.size s)) =
  zsum ((fun k => f (Slice.part k s)) <$> seq 0 (Slice.size s)).
Proof.
  intros [_ _ (sigma & Hp & Hk)]. rewrite <- (zsum_perm (fun k => f (Slice.part k s)) _ _ Hp).
  apply zsum_fmap_ext. intros k Hin%elem_of_seq. rewrite Hk by lia. done.
Qed.

(** The number of part copies to recover for the slice [s] of the target. *)
Definition slice_recover (av : GoalModel.t) (s : Slice.t) : Z :=
  zsum ((fun k => fst (operationCount (part_of av (Slice.type_ s) (Z.of_nat k)) (Slice.part k s)))
          <$> seq 0 (Slice.size s)).

(** Recoveries and removals differ by a constant, so the least weight gives the least
    number of recoveries. *)
Lemma weight_recover src dst :
  labels_wf src → labels_wf dst →
  weight src dst = (max_slice_op + 1) * fst (operationCount src dst) +
    (Labels.countLabels src - Labels.countLabels dst).
Proof.
  intros Hs Hd. assert (∃ n, kWildcard < n) as [n Hn] by (exists (kWildcard + 1); lia).
  unfold weight. rewrite (operationCount_spec n) by done. simpl. pose proof (balance n src dst Hs Hd Hn). lia.
Qed.

Lemma zsum_fmap_mul {A} (c : Z) (f : A → Z) l : zsum ((fun x => c * f x) <$> l) = c * zsum (f <$> l).
Proof. induction l; zsum_simpl; lia. Qed.

Lemma total_weight_recover av s src s' sigma :
  slice_wf s → goal_wf av → GoalModel.find_slice (Slice.type_ s) av = Some src → slice_wf src →
  Slice.type_ s' = Slice.type_ s → sigma ≡ₚ seq 0 (Slice.size s) →
  (∀ k, (k < Slice.size s)%nat → Slice.part k s' = Slice.part (sigma !!! k) s) →
  total_weight src s sigma = (max_slice_op + 1) * slice_recover av s' +
    (zsum ((fun k => Labels.countLabels (Slice.part k src)) <$> seq 0 (Slice.size s)) -
     zsum ((fun k => Labels.countLabels (Slice.part k s)) <$> seq 0 (Slice.size s))).
Proof.
  intros Hs Hav Hf Hsrc Het Hp Hk. unfold total_weight, slice_recover, part_of. rewrite Het, Hf.
  assert (Slice.size s' = Slice.size s) as -> by (unfold Slice.size; by rewrite Het).
  apply find_slice_Some in Hf as [_ Ets]; [|done].
  rewrite <- (zsum_perm (fun k => Labels.countLabels (Slice.part k s)) _ _ Hp).
  rewrite <- zsum_fmap_mul, <- zsum_fmap_sub, <- zsum_fmap_add. apply zsum_fmap_ext. intros k Hin%elem_of_seq.
  rewrite Nat2Z.id, (Hk k) by lia. apply weight_recover; apply part_labels_wf; try done.
  - unfold Slice.size. rewrite Ets. unfold Slice.size in Hin. lia.
  - apply permutation_entry with (s := s); [done|lia].
Qed.

Lemma recover_absent av s s' :
  slice_wf s → permuted s s' → GoalModel.find_slice (Slice.type_ s) av = None →
  slice_recover av s' = zsum ((fun k => Labels.countLabels (Slice.part k s)) <$> seq 0 (Slice.size s)).
Proof.
  intros Hs Hp Hn. rewrite <- (permuted_sum _ _ _ Hp). destruct Hp as [Het Hs' _].
  unfold slice_recover, part_of. rewrite Het, Hn.
  assert (Slice.size s' = Slice.size s) as Hsz by (unfold Slice.size; by rewrite Het). rewrite Hsz.
  apply zsum_fmap_ext. intros k Hin%elem_of_seq.
  rewrite operationCount_nil_src; [done|]. apply part_labels_wf; [done|lia].
Qed.

(** All the parts of a slice that is skipped are equal. *)
Lemma skipped_parts s k :
  Nat.leb (Slice.size s) 1 || isSkippable s = true → (k < Slice.size s)%nat → Slice.part k s = Slice.part 0 s.
Proof.
  intros [H%Nat.leb_le|H]%orb_true_iff Hk.
  - by replace k with 0%nat by lia.
  - destruct (decide (k = 0%nat)) as [->|]; [done|]. unfold isSkippable in H. rewrite forallb_forall in H.
    symmetry. apply partsMatch_eq, H, list_elem_of_In, elem_of_seq. lia.
Qed.

Lemma recover_skipped av s s' :
  Nat.leb (Slice.size s) 1 || isSkippable s = true → permuted s s' → slice_recover av s' = slice_recover av s.
Proof.
  intros Hsk [Het _ (sigma & Hp & Hk)]. unfold slice_recover. rewrite Het.
  assert (Slice.size s' = Slice.size s) as -> by (unfold Slice.size; by rewrite Het).
  apply zsum_fmap_ext. intros k Hin%elem_of_seq.
  rewrite (Hk k), (skipped_parts s _ Hsk), (skipped_parts s k Hsk); [done|lia| |lia].
  apply permutation_entry with (s := s); [done|lia].
Qed.

(** Slices with well-formed parts of a bounded number of copies. *)
Record input_slice (s : Slice.t) : Prop := {
  in_avail : avail_slice s;
  in_bound : Forall bounded_part (Slice.parts s);
}.

Lemma optimize_slice_spec av s cache :
  goal_wf av → Forall input_slice (GoalModel.goal_slices_ av) → input_slice s → cache_opt_ok cache →
  ∃ s' cache', optimize_slice av s cache = Ok (s', cache') ∧ cache_opt_ok cache' ∧ permuted s s' ∧
    ∀ s2, permuted s s2 → slice_recover av s' <= slice_recover av s2.
Proof.
  intros Hg Hav [Hs Hb] Hcc. pose proof (as_wf _ Hs) as Hw. unfold optimize_slice.
  destruct (GoalModel.find_slice (Slice.type_ s) av) as [src|] eqn:Hf.
  2: { exists s, cache. split_and!; [done|done|by apply permuted_refl|].
       intros s2 Hp. rewrite !(recover_absent av s); [lia|done..|by apply permuted_refl|done]. }
  destruct (Nat.leb (Slice.size s) 1 || isSkippable s) eqn:Hsk.
  { exists s, cache. split_and!; [done|done|by apply permuted_refl|].
    intros s2 Hp. rewrite (recover_skipped av s s2) by done. lia. }
  apply orb_false_iff in Hsk as [Hsz%Nat.leb_gt _].
  pose proof (proj1 (find_slice_Some av _ src Hg) Hf) as [Hin Ets].
  rewrite Forall_forall in Hav. destruct (Hav src Hin) as [Hsrc Hbs]. pose proof (as_wf _ Hsrc) as Hws.
  destruct (find_assignment_spec s src cache Hw Hws Hsz Hcc) as (cache' & Hcc' & _ & ->).
  destruct (assignment_solved src s Hws Hw Ets Hbs Hb) as (asg & obj & -> & Hp & Hl & Hr & Hopt).
  destruct (make_slice (Slice.type_ s) (sw_type s Hw)) as (r0 & Em & Hr0 & Et0 & _).
  cbn [mbind res_bind]. rewrite Em. cbn [mbind res_bind].
  destruct (permute_parts_spec (seq 0 (Slice.size s)) asg s r0 Hw (as_len _ Hs) (as_wf _ Hr0) Et0)
    as (r & -> & Hwr & Etr & Hpr); [apply NoDup_seq| |].
  { apply Forall_forall. intros k Hk%elem_of_seq. split; [lia|]. rewrite Forall_forall in Hr.
    apply Hr, list_elem_of_lookup_total_2. lia. }
  assert (∀ k, (k < Slice.size s)%nat → Slice.part k r = Slice.part ((Z.to_nat <$> asg) !!! k) s) as Hk.
  { intros k Hk. rewrite Hpr by done. rewrite decide_True by (apply elem_of_seq; lia). f_equal.
    symmetry. apply list_lookup_total_correct. rewrite list_lookup_fmap, list_lookup_lookup_total_lt by lia. done. }
  exists r, cache'. split_and!; [done|done|by split; eauto|].
  intros s2 [Et2 _ (sigma & Hp2 & Hk2)]. specialize (Hopt sigma Hp2).
  rewrite (total_weight_recover av s src r) in Hopt by done.
  rewrite (total_weight_recover av s src s2 sigma) in Hopt by done.
  unfold max_slice_op, Slice.kMaxExpectedCopies in Hopt. lia.
Qed.

Lemma optimize_slices_spec av ts cache :
  goal_wf av → Forall input_slice (GoalModel.goal_slices_ av) → Forall input_slice ts → cache_opt_ok cache →
  ∃ ts' cache', optimize_slices av ts cache = Ok (ts', cache') ∧ cache_opt_ok cache' ∧ Forall2 permuted ts ts' ∧
    ∀ ts2, Forall2 permuted ts ts2 → zsum (slice_recover av <$> ts') <= zsum (slice_recover av <$> ts2).
Proof.
  intros Hg Hav Hts. revert cache. induction Hts as [|s ts Hs Hts IH]; intros cache Hcc.
  { exists [], cache. split_and!; [done|done|constructor|]. intros ts2 ->%Forall2_nil_inv_l. done. }
  cbn [optimize_slices]. destruct (optimize_slice_spec av s cache Hg Hav Hs Hcc) as (s' & c1 & -> & Hc1 & Hp & Ho).
  cbn [mbind res_bind]. destruct (IH c1 Hc1) as (ts' & c2 & -> & Hc2 & Hps & Hos). cbn [mbind res_bind].
  exists (s' :: ts'), c2. split_and!; [done|done|by constructor|].
  intros ts2 (s2 & ts2' & H1 & H2 & ->)%Forall2_cons_inv_l. specialize (Ho _ H1). specialize (Hos _ H2).
  zsum_simpl. lia.
Qed.

Lemma permuted_goal_wf name name' ts ts' :
  Forall2 permuted ts ts' → goal_wf (GoalModel.mk name ts) → goal_wf (GoalModel.mk name' ts').
Proof.
  unfold goal_wf, ssorted. cbn [GoalModel.goal_slices_]. induction 1 as [|s s' ts ts' Hp Hps IH]; [constructor|].
  intros [Hss Hf]%StronglySorted_inv. constructor; [auto|].
  clear IH Hss. induction Hps as [|x x' ts ts' Hpx _ IH]; [constructor|].
  apply Forall_cons in Hf as [Hx Hf]. constructor; [|auto].
  unfold GoalModel.slice_less in *. by rewrite (pm_type _ _ Hp), (pm_type _ _ Hpx).
Qed.

Lemma countPartsToRecover_slices c :
  avail_wf (available_ c) → goal_wf (target_ c) → Forall slice_wf (GoalModel.goal_slices_ (target_ c)) →
  countPartsToRecover (evalOperationCount c) =
    zsum (slice_recover (available_ c) <$> GoalModel.goal_slices_ (target_ c)).
Proof.
  intros Ha Ht Hts. destruct (evalOperationCount_spec c Ha Ht Hts) as (_ & _ & ->).
  apply zsum_fmap_ext. intros s Hs. apply zsum_fmap_ext. intros k _.
  by rewrite (part_of_slice (target_ c)), Nat2Z.id.
Qed.

Lemma input_avail g : goal_wf g → Forall input_slice (GoalModel.goal_slices_ g) → avail_wf g.
Proof. intros Hg Hi. split; [done|]. eapply Forall_impl; [done|]. intros s Hs. apply Hs. Qed.

Lemma permuted_slices_wf ts ts' : Forall2 permuted ts ts' → Forall slice_wf ts'.
Proof. induction 1 as [|s s' ts ts' Hp Hps IH]; constructor; [apply Hp|done]. Qed.

Ltac solve_input :=
  split; [split; [apply of_parts_wf; [done|done|]|..]; rewrite ?parts_of_parts by done|rewrite parts_of_parts by done];
  repeat (apply Forall_cons; split; [first [solve_labels_wf|done|split; [solve_labels_wf|vm_compute; congruence]
    |repeat (apply Forall_cons; split; [vm_compute; congruence|]); constructor]|]); constructor.

(** C14: [optimize] finds the cheapest way to reach the goal.  With and without a cache
    it terminates without a failed assertion; it reorders the parts of every target
    slice and changes nothing else of the goal; and no other reordering of the parts of
    the target slices needs fewer part copies to be recovered.  The stored redundancy
    levels are the current ones afterwards. *)
Theorem optimize_is_optimal cache c :
  goal_wf (available_ c) → Forall input_slice (GoalModel.goal_slices_ (available_ c)) →
  goal_wf (target_ c) → Forall input_slice (GoalModel.goal_slices_ (target_ c)) →
  levels_ok c → cache_opt_ok cache →
  ∃ c' cache', optimize true cache c = Ok (c', cache') ∧ cache_opt_ok cache' ∧
    available_ c' = available_ c ∧ evaluated c' ∧
    Forall2 permuted (GoalModel.goal_slices_ (target_ c)) (GoalModel.goal_slices_ (target_ c')) ∧
    ∀ slices, Forall2 permuted (GoalModel.goal_slices_ (target_ c)) slices →
      countPartsToRecover c' <= countPartsToRecover (evalOperationCount (set_target_slices slices c)).
Proof.
  intros Hga Hia Hgt Hit Hlev Hcc. unfold optimize.
  destruct (optimize_slices_spec (available_ c) _ cache Hga Hia Hit Hcc) as (ts' & cache' & -> & Hcc' & Hp & Hopt).
  cbn [mbind res_bind].
  assert (∀ slices, Forall2 permuted (GoalModel.goal_slices_ (target_ c)) slices →
    countPartsToRecover (evalOperationCount (set_target_slices slices c)) =
      zsum (slice_recover (available_ c) <$> slices)) as Hcount.
  { intros slices Hps. apply countPartsToRecover_slices.
    - by apply input_avail.
    - by apply (permuted_goal_wf (GoalModel.name_ (target_ c)) _ (GoalModel.goal_slices_ (target_ c))).
    - by eapply permuted_slices_wf. }
  set (c1 := evalOperationCount (set_target_slices ts' c)).
  assert (available_ c1 = available_ c ∧ target_ c1 = GoalModel.mk (GoalModel.name_ (target_ c)) ts' ∧
    slice_redundancy_level_ c1 = slice_redundancy_level_ c) as (Ea & Et & El).
  { unfold c1, evalOperationCount. by repeat case_match. }
  destruct (evalRedundancyLevel_evaluated c1) as (Hev & Ea' & Et').
  { by rewrite Ea. }
  { destruct Hlev as [Hl1 Hl2]. split; rewrite El, ?Ea; done. }
  exists (evalRedundancyLevel c1), cache'. split_and!; [done|done|by rewrite Ea'|done|by rewrite Et', Et|].
  intros slices Hps. rewrite Hcount by done.
  assert (countPartsToRecover (evalRedundancyLevel c1) = countPartsToRecover c1) as ->.
  { unfold countPartsToRecover, evalRedundancyLevel. by repeat case_match. }
  unfold c1. rewrite Hcount by done. by apply Hopt.
Qed.

Lemma optimize_is_optimal_witness :
  let c := set_available (GoalModel.mk "" [of_parts 2 [[(2, 1)]; [(1, 1)]; []]])
             (make (GoalModel.mk "g" [of_parts 2 [[(1, 1)]; [(2, 1)]; [(3, 1)]]])) in
  countPartsToRecover (evalOperationCount c) = 3 ∧
  ∃ c' cache', optimize true (Some ∅) c = Ok (c', cache') ∧ cache_opt_ok cache' ∧ evaluated c' ∧
    countPartsToRecover c' = 1.
Proof.
  intros c. split; [vm_compute; reflexivity|].
  destruct (optimize_is_optimal (Some ∅) c) as (c' & cache' & E & Hc & _ & Hev & _).
  - repeat constructor.
  - apply Forall_singleton. solve_input.
  - repeat constructor.
  - apply Forall_singleton. solve_input.
  - split; [constructor|]. intros x Hx. by apply elem_of_nil in Hx.
  - apply map_Forall_empty.
  - exists c', cache'. split_and!; [done..|].
    assert ((fun r => match r with Ok (c', _) => countPartsToRecover c' | _ => 0 end) (optimize true (Some ∅) c) = 1) as H
      by (vm_compute; reflexivity).
    rewrite E in H. exact H.
Defined.

Lemma assignment_cache_transparent_witness :
  let target := of_parts 2 [[(1, 1)]; [(2, 1)]; [(3, 1)]] in
  let src := of_parts 2 [[(2, 1)]; [(1, 1)]; []] in
  match find_assignment target src None, find_assignment target src (Some ∅) with
  | Ok (asg, _), Ok (asg', Some cc') => asg' = asg ∧ cache_ok cc'
  | Abort, Abort | Throw, Throw | Stuck, Stuck => True
  | _, _ => False
  end.
Proof.
  intros target src. apply assignment_cache_transparent.
  - apply (as_wf _ (in_avail target ltac:(unfold target; solve_input))).
  - apply (as_wf _ (in_avail src ltac:(unfold src; solve_input))).
  - vm_compute. lia.
  - apply map_Forall_empty.
Defined.
