(* ===== verification/LockRanges.v ===== *)
(** * Byte-range locks: LockRange and LockRanges

    The model of [LockRange] and [LockRanges] of src/master/locks.h and
    src/master/locks.cc: the sorted set of disjoint ranges kept for one inode, the
    collision check and the insertion that splits, merges and relabels ranges.

    The theorems relate the set of ranges to a plain function from byte offsets to
    the lock held there: [findCollision] reports a conflict exactly when some byte
    conflicts, and [insert] changes exactly the bytes of the requested range. *)

From S2P Require Import Prelude FlatContainers.

(** ** LockRange *)
Module LockRange.

Record Owner : Type := mk_owner { owner : Z; sessionid : Z; reqid : Z; msgid : Z }.

(** [Owner::operator==] and [Owner::operator<] ignore [reqid] and [msgid]. *)
Definition owner_eqb (a b : Owner) : bool := (owner a =? owner b) && (sessionid a =? sessionid b).
Definition owner_ltb (a b : Owner) : bool :=
  (owner a <? owner b) || ((owner a =? owner b) && (sessionid a <? sessionid b)).

Inductive Type_ : Type := kInvalid | kUnlock | kShared | kExclusive.
#[global] Instance Type_eq_dec : EqDecision Type_.
Proof. solve_decision. Defined.

Record t : Type := mk { type : Type_; start : Z; end_ : Z; owners : list Owner }.

Definition make (type : Type_) (start end_ : Z) (first : Owner) : t := mk type start end_ [first].

Definition set_start (s : Z) (r : t) : t := mk (type r) s (end_ r) (owners r).
Definition set_end (e : Z) (r : t) : t := mk (type r) (start r) e (owners r).
Definition set_type (ty : Type_) (r : t) : t := mk ty (start r) (end_ r) (owners r).
Definition set_owners (os : list Owner) (r : t) : t := mk (type r) (start r) (end_ r) os.

Definition valid (r : t) : bool := negb (bool_decide (type r = kInvalid)).
Definition overlaps (r other : t) : bool := (start r <? end_ other) && (start other <? end_ r).
Definition sticks (r other : t) : bool := (start r =? end_ other) || (start other =? end_ r).
Definition shared (r : t) : bool := bool_decide (type r = kShared).
Definition exclusive (r : t) : bool := bool_decide (type r = kExclusive).
Definition unlocking (r : t) : bool := bool_decide (type r = kUnlock) || Nat.eqb (length (owners r)) 0.
Definition markUnlocking (r : t) : t := set_type kUnlock r.

(** [owner()] asserts that there is exactly one owner. *)
Definition the_owner (r : t) : res Owner := match owners r with [o] => Ok o | _ => Abort end.

Definition hasOwner (candidate : Owner) (r : t) : bool :=
  match owners r !! lower_bound (fun o => owner_ltb o candidate) (owners r) with
  | Some o => negb (owner_ltb candidate o)
  | None => false
  end.

Definition eraseOwner (candidate : Owner) (r : t) : t :=
  let it := lower_bound (fun o => owner_ltb o candidate) (owners r) in
  match owners r !! it with
  | Some o => if owner_eqb o candidate then set_owners (verase it (owners r)) r else r
  | None => r
  end.

(** [std::merge] takes from the second sequence only what is smaller, and
    [std::unique] keeps the first of equal neighbours. *)
Definition not_after (a b : Owner) : Prop := owner_ltb b a = false.
#[global] Instance not_after_dec : RelDecision not_after.
Proof. intros a b. unfold not_after. apply _. Defined.

Definition merge_owners : list Owner → list Owner → list Owner := list_merge not_after.

Fixpoint unique_from (x : Owner) (l : list Owner) : list Owner :=
  match l with
  | [] => [x]
  | y :: l' => if owner_eqb x y then unique_from x l' else x :: unique_from y l'
  end.
Definition unique (l : list Owner) : list Owner :=
  match l with [] => [] | x :: l' => unique_from x l' end.

Definition addOwners (other : list Owner) (r : t) : t :=
  set_owners (unique (merge_owners (owners r) other)) r.

(** [compact_vector::operator==] on owners. *)
Fixpoint owners_eqb (a b : list Owner) : bool :=
  match a, b with
  | [], [] => true
  | x :: a', y :: b' => owner_eqb x y && owners_eqb a' b'
  | _, _ => false
  end.

(** [operator<] on ranges. *)
Definition ltb (r other : t) : bool :=
  (start r <? start other) || ((start r =? start other) && (end_ r <? end_ other)).
End LockRange.

(** ** LockRanges *)
Module LockRanges.
Import LockRange.

Abbreviation t := (list LockRange.t).

(** The first and past-the-last index of the ranges that may meet [range]. *)
Definition window (range : LockRange.t) (data : t) : nat * nat :=
  let first := lower_bound (fun other => start other <? start range) data in
  let last := upper_bound (fun other => end_ range <? start other) data in
  (if Nat.eqb first 0 then first else (first - 1)%nat, last).

(** Ranges that overlap, are not both shared and belong to different owners. *)
Definition collides (range other : LockRange.t) : bool :=
  overlaps range other &&
  ((negb (shared range) || negb (shared other)) && negb (owners_eqb (owners other) (owners range))).

Definition findCollision (range : LockRange.t) (data : t) : res (option LockRange.t) :=
  if unlocking range then Ok None
  else
    let '(first, last) := window range data in
    if Nat.ltb last first then Stuck
    else Ok (List.find (collides range) (take (last - first) (drop first data))).

Definition fits (range : LockRange.t) (data : t) : res bool :=
  c ← findCollision range data; Ok (match c with None => true | Some _ => false end).

(** What becomes of the part of a range covered by the request. *)
Definition relabel (same_owners : bool) (range other : LockRange.t) : res LockRange.t :=
  if same_owners then Ok (set_type (type range) other)
  else if unlocking range then o ← the_owner range; Ok (eraseOwner o other)
  else Ok (addOwners (owners range) other).

(** The loop of [insert] over the window: [done] holds the ranges before the iterator
    and [todo] those from the iterator on; [range] is modified by the loop.  An
    insertion at the iterator followed by [++it] adds to [done]. *)
Fixpoint insert_loop (fuel : nat) (done todo : t) (range : LockRange.t) : res (t * t * LockRange.t) :=
  match todo with
  | [] => Ok (done, todo, range)
  | other :: todo' =>
      if end_ range <=? start range then Ok (done, todo, range)
      else
        match fuel with
        | O => Stuck
        | S fuel' =>
            let same_owners := owners_eqb (owners range) (owners other) in
            if sticks range other && same_owners && bool_decide (type range = type other) then
              insert_loop fuel' (done ++ [markUnlocking other]) todo'
                (set_end (Z.max (end_ range) (end_ other)) (set_start (Z.min (start range) (start other)) range))
            else if end_ range <=? start other then Ok (done, todo, range)
            else if negb (overlaps range other) then insert_loop fuel' (done ++ [other]) todo' range
            else
              assertion (same_owners || (shared range && shared other) || unlocking range)
                (if start range <? start other then
                   insert_loop fuel' (done ++ [set_end (start other) range]) todo (set_start (start other) range)
                 else if start range =? start other then
                   if end_ range <? end_ other then
                     tmp ← relabel same_owners range (set_end (end_ range) other);
                     insert_loop fuel' (done ++ [tmp]) (set_start (end_ range) other :: todo')
                       (set_start (end_ other) range)
                   else
                     other' ← relabel same_owners range other;
                     insert_loop fuel' (done ++ [other']) todo' (set_start (end_ other) range)
                 else
                   insert_loop fuel' (done ++ [set_end (start range) other])
                     (set_start (start range) other :: todo') range)
        end
  end.

Definition live (l : t) : t := filter (fun r => unlocking r = false) l.

Definition insert (range : LockRange.t) (data : t) : res t :=
  let '(first, last) := window range data in
  if Nat.ltb last first then Stuck
  else
    let w := take (last - first) (drop first data) in
    '(done, todo, range) ← insert_loop (2 * length w + 1) [] w range;
    let w := done ++ (if start range <? end_ range then range :: todo else todo) in
    Ok (take first data ++ live w ++ drop last data).
End LockRanges.

Import LockRange LockRanges.

(** ** Owners as sets *)

Abbreviation okey := (Z * Z)%type.
Definition key_of (o : Owner) : okey := (owner o, sessionid o).
Definition key_ltb (a b : okey) : bool := (fst a <? fst b) || ((fst a =? fst b) && (snd a <? snd b)).
Definition keys (os : list Owner) : list okey := key_of <$> os.
Definition keyset (os : list Owner) : gset okey := list_to_set (keys os).

Lemma owner_eqb_key a b : owner_eqb a b = true ↔ key_of a = key_of b.
Proof.
  unfold owner_eqb, key_of. rewrite andb_true_iff, !Z.eqb_eq. split; [by intros [-> ->]|by intros [= -> ->]].
Qed.

Lemma owner_ltb_key a b : owner_ltb a b = key_ltb (key_of a) (key_of b).
Proof. done. Qed.

Ltac key_cases := unfold owner_ltb, owner_eqb, key_of, key_ltb in *; simpl in *; zcases.

Lemma key_ltb_eq a b : key_ltb a b = true ↔ fst a < fst b ∨ (fst a = fst b ∧ snd a < snd b).
Proof. unfold key_ltb. rewrite orb_true_iff, andb_true_iff, !Z.ltb_lt, Z.eqb_eq. done. Qed.

Lemma key_ltb_neq a b : key_ltb a b = false ↔ fst b < fst a ∨ (fst a = fst b ∧ snd b <= snd a).
Proof.
  unfold key_ltb. rewrite orb_false_iff, andb_false_iff, !Z.ltb_ge, Z.eqb_neq.
  split; [intros [? [?|?]]; [|destruct (decide (fst a = fst b))]; lia|]. lia.
Qed.

Ltac key_solve :=
  repeat match goal with
    | H : owner_ltb _ _ = _ |- _ => rewrite owner_ltb_key in H
    | H : key_ltb _ _ = true |- _ => apply key_ltb_eq in H
    | H : key_ltb _ _ = false |- _ => apply key_ltb_neq in H
    end; rewrite ?owner_ltb_key, ?key_ltb_eq, ?key_ltb_neq; lia.

#[global] Instance owner_swo : StrictWeakOrder owner_ltb.
Proof. split; intros; key_solve. Qed.

Lemma owners_eqb_keys a b : owners_eqb a b = true ↔ keys a = keys b.
Proof.
  revert b. induction a as [|x a IH]; intros [|y b]; cbn [owners_eqb keys fmap list_fmap]; try (by split).
  unfold keys in *. csimpl. rewrite andb_true_iff, owner_eqb_key, IH.
  split; [by intros [-> ->]|]. intros E. split; congruence.
Qed.

(** Owners are kept strictly sorted. *)
Definition owners_wf (os : list Owner) : Prop := ssorted owner_ltb os.

Lemma owners_wf_keys os : owners_wf os ↔ ssorted key_ltb (keys os).
Proof.
  unfold owners_wf, ssorted, keys. induction os as [|o os IH]; csimpl; [split; constructor|].
  split; intros [Hs Hf]%StronglySorted_inv; constructor.
  - by apply IH.
  - apply Forall_fmap. done.
  - by apply IH.
  - apply Forall_fmap in Hf. done.
Qed.

Lemma keys_NoDup os : owners_wf os → NoDup (keys os).
Proof.
  rewrite owners_wf_keys. unfold ssorted. induction 1 as [|k ks Hs IH Hf]; constructor; [|done].
  rewrite Forall_forall in Hf. intros Hin. specialize (Hf k Hin). key_solve.
Qed.

(** Strictly sorted owners with the same set of keys have the same keys. *)
Lemma owners_wf_ext a b : owners_wf a → owners_wf b → keyset a = keyset b → keys a = keys b.
Proof.
  intros Ha Hb E. eapply (StronglySorted_unique_strong (fun a b => key_ltb a b = true)).
  - intros x y _ _ H1 H2. key_solve.
  - by apply owners_wf_keys.
  - by apply owners_wf_keys.
  - apply NoDup_Permutation; [by apply keys_NoDup..|]. intros k.
    rewrite <- !(elem_of_list_to_set (C := gset okey)). unfold keyset in E. by rewrite E.
Qed.

Lemma keyset_singleton o : keyset [o] = {[key_of o]}.
Proof. unfold keyset. simpl. set_solver. Qed.

Lemma keyset_cons o os : keyset (o :: os) = {[key_of o]} ∪ keyset os.
Proof. done. Qed.

(** The two lists of owners compare equal exactly when the set is the singleton. *)
Lemma owners_eqb_single o os :
  owners_wf os → owners_eqb [o] os = true ↔ keyset os = {[key_of o]}.
Proof.
  intros Hs. rewrite owners_eqb_keys, <- keyset_singleton. split.
  - intros E. unfold keyset. by rewrite E.
  - intros E. symmetry. apply owners_wf_ext; [done| |done]. repeat constructor.
Qed.

(** *** eraseOwner *)

Lemma difference_cons (x o : okey) (S : gset okey) :
  x ≠ o → ({[x]} ∪ S) ∖ {[o]} = {[x]} ∪ S ∖ {[o]}.
Proof. set_solver. Qed.

Lemma difference_head (x : okey) (S : gset okey) : x ∉ S → ({[x]} ∪ S) ∖ {[x]} = S.
Proof. set_solver. Qed.

Lemma difference_absent (o : okey) (S : gset okey) : o ∉ S → S ∖ {[o]} = S.
Proof. set_solver. Qed.

Lemma verase_keys o os :
  owners_wf os →
  let it := lower_bound (fun x => owner_ltb x o) os in
  let os' := match os !! it with Some x => if owner_eqb x o then verase it os else os | None => os end in
  owners_wf os' ∧ keyset os' = keyset os ∖ {[key_of o]}.
Proof.
  intros Hs. cbv zeta. unfold lower_bound. rewrite bsearch_plen by (by apply (ssorted_partitioned_lt owner_ltb)).
  unfold owners_wf, ssorted in *. induction Hs as [|x os Hs IH Hf]; [split; [constructor|set_solver]|].
  cbn [plen]. rewrite Forall_forall in Hf.
  assert (∀ y, y ∈ os → key_of y ≠ key_of x) as Hne.
  { intros y Hy E. specialize (Hf y Hy). rewrite owner_ltb_key, E in Hf. key_solve. }
  assert (∀ k, k ∈ keyset os → ∃ y, y ∈ os ∧ k = key_of y) as Hin.
  { intros k Hk. unfold keyset, keys in Hk. apply elem_of_list_to_set, list_elem_of_fmap in Hk as (y & -> & Hy).
    eauto. }
  destruct (owner_ltb x o) eqn:E; simpl.
  - destruct IH as [IH1 IH2]. assert (key_of x ≠ key_of o) as Hxo.
    { intros Ek. rewrite owner_ltb_key, Ek in E. key_solve. }
    destruct (os !! plen _ os) as [y|] eqn:Ey; [destruct (owner_eqb y o) eqn:Eo|]; rewrite !keyset_cons.
    + unfold verase in *. simpl. rewrite keyset_cons, IH2, difference_cons by done. split; [|done].
      constructor; [done|]. apply Forall_forall. intros z Hz. apply Hf.
      apply elem_of_app in Hz as [Hz|Hz]; eapply elem_of_subseteq; [by apply subseteq_take|done|by apply subseteq_drop|done].
    + split; [by constructor; [|apply Forall_forall]|]. rewrite difference_cons, <- IH2 by done. done.
    + split; [by constructor; [|apply Forall_forall]|]. rewrite difference_cons, <- IH2 by done. done.
  - destruct (owner_eqb x o) eqn:Eo.
    + unfold verase. simpl. split; [done|]. apply owner_eqb_key in Eo. rewrite keyset_cons, <- Eo.
      rewrite difference_head; [done|]. intros (y & Hy & Hk)%Hin. by apply (Hne y Hy).
    + split; [by constructor; [|apply Forall_forall]|]. rewrite keyset_cons.
      assert (key_of o ∉ keyset os) as Hno.
      { intros (y & Hy & Hk)%Hin. specialize (Hf y Hy). rewrite owner_ltb_key, <- Hk in Hf. key_solve. }
      assert (key_of x ≠ key_of o) as Hxo by (intros Ek%owner_eqb_key; congruence).
      by rewrite difference_cons, difference_absent.
Qed.

Lemma eraseOwner_spec o r :
  owners_wf (owners r) →
  ∃ os, eraseOwner o r = set_owners os r ∧ owners_wf os ∧ keyset os = keyset (owners r) ∖ {[key_of o]}.
Proof.
  intros Hs. destruct (verase_keys o (owners r) Hs) as [H1 H2]. unfold eraseOwner.
  destruct (owners r !! _) as [x|]; [destruct (owner_eqb x o)|]; eexists; (split; [|by split]);
    destruct r; done.
Qed.

(** [hasOwner] decides membership. *)
Lemma hasOwner_spec o r : owners_wf (owners r) → hasOwner o r = true ↔ key_of o ∈ keyset (owners r).
Proof.
  intros Hs. unfold hasOwner, lower_bound. rewrite bsearch_plen by (by apply (ssorted_partitioned_lt owner_ltb)).
  unfold owners_wf, ssorted in Hs. induction Hs as [|x os Hs IH Hf]; [done|].
  cbn [plen]. rewrite keyset_cons, elem_of_union, elem_of_singleton.
  destruct (owner_ltb x o) eqn:E; simpl.
  - rewrite IH. split; [by right|]. intros [Ek|]; [|done]. rewrite owner_ltb_key, Ek in E. key_solve.
  - destruct (owner_ltb o x) eqn:E2; simpl.
    + split; [done|]. intros [Ek|Hk]; [rewrite owner_ltb_key, Ek in E2; key_solve|].
      unfold keyset, keys in Hk. apply elem_of_list_to_set, list_elem_of_fmap in Hk as (y & Ek & Hy).
      rewrite Forall_forall in Hf. specialize (Hf y Hy). rewrite owner_ltb_key, Ek in E2. key_solve.
    + split; [|done]. intros _. left. destruct (key_of o) as [a b] eqn:Eo, (key_of x) as [c d] eqn:Ex.
      rewrite owner_ltb_key, Eo, Ex in E, E2. apply key_ltb_neq in E, E2. simpl in *. f_equal; lia.
Qed.

(** *** addOwners *)

#[global] Instance not_after_total : Total not_after.
Proof. intros a b. unfold not_after. destruct (owner_ltb b a) eqn:E; [right; key_solve|by left]. Qed.
#[global] Instance not_after_trans : Transitive not_after.
Proof. intros a b c. unfold not_after. intros. key_solve. Qed.

Lemma owners_wf_sorted os : owners_wf os → Sorted not_after os.
Proof.
  intros Hs. apply StronglySorted_Sorted. unfold owners_wf, ssorted in Hs.
  induction Hs as [|x os Hs IH Hf]; constructor; [done|].
  eapply Forall_impl; [done|]. simpl. intros y Hy. unfold not_after. key_solve.
Qed.

Lemma unique_from_spec x l :
  StronglySorted not_after (x :: l) →
  owners_wf (unique_from x l) ∧ keyset (unique_from x l) = keyset (x :: l).
Proof.
  revert x. induction l as [|y l IH]; intros x Hs; [split; [repeat constructor|done]|].
  apply StronglySorted_inv in Hs as [Hs Hf]. cbn [unique_from].
  apply StronglySorted_inv in Hs as Hs2. destruct Hs2 as [Hs2 Hf2].
  apply Forall_cons in Hf as [Hxy Hf]. destruct (owner_eqb x y) eqn:E.
  - destruct (IH x) as [H1 H2]; [by constructor|]. split; [done|]. apply owner_eqb_key in E.
    rewrite H2, !keyset_cons, E. set_solver.
  - destruct (IH y Hs) as [H1 H2]. rewrite !keyset_cons, H2, keyset_cons. split; [|done].
    constructor; [done|]. apply Forall_forall. intros z Hz.
    assert (key_of z ∈ keyset (y :: l)) as Hk.
    { rewrite <- H2. unfold keyset, keys. apply elem_of_list_to_set, list_elem_of_fmap. eauto. }
    unfold keyset, keys in Hk. apply elem_of_list_to_set, list_elem_of_fmap in Hk as (w & Ek & Hw).
    assert (owner_ltb x y = true) as Hlt.
    { unfold not_after in Hxy. destruct (owner_ltb x y) eqn:E2; [done|]. exfalso.
      assert (key_of x = key_of y) as Exy%owner_eqb_key; [|congruence].
      destruct (key_of x) as [a b] eqn:Ex, (key_of y) as [c d] eqn:Ey.
      rewrite owner_ltb_key, Ex, Ey in Hxy, E2. apply key_ltb_neq in Hxy, E2. simpl in *. f_equal; lia. }
    rewrite owner_ltb_key, Ek, <- owner_ltb_key.
    apply elem_of_cons in Hw as [->|Hw]; [done|]. rewrite Forall_forall in Hf2. specialize (Hf2 w Hw).
    unfold not_after in Hf2. key_solve.
Qed.

Lemma addOwners_spec os r :
  owners_wf (owners r) → owners_wf os →
  ∃ os', addOwners os r = set_owners os' r ∧ owners_wf os' ∧ keyset os' = keyset (owners r) ∪ keyset os.
Proof.
  intros Hr Hos. unfold addOwners. eexists. split; [done|].
  assert (StronglySorted not_after (merge_owners (owners r) os)) as Hs.
  { apply Sorted_StronglySorted; [apply _|]. apply Sorted_list_merge; [apply _|by apply owners_wf_sorted..]. }
  assert (keyset (merge_owners (owners r) os) = keyset (owners r) ∪ keyset os) as <-.
  { unfold keyset, keys, merge_owners. rewrite <- list_to_set_app_L, <- fmap_app.
    apply set_eq. intros k. rewrite !elem_of_list_to_set, !list_elem_of_fmap.
    by setoid_rewrite merge_Permutation. }
  unfold unique. destruct (merge_owners (owners r) os) as [|x l]; [split; [constructor|done]|].
  by apply unique_from_spec.
Qed.

(** ** The lock held at a byte *)

(** What is held at one byte: the type of the lock and the set of its owners. *)
Abbreviation cell := (option (Type_ * gset okey)).

Definition covers (r : LockRange.t) (x : Z) : bool := (start r <=? x) && (x <? end_ r).

Fixpoint at_ (l : LockRanges.t) (x : Z) : cell :=
  match l with
  | [] => None
  | r :: l' => if covers r x then Some (type r, keyset (owners r)) else at_ l' x
  end.

(** What a granted request by owner [o] makes of a byte. *)
Definition effect (t : Type_) (o : okey) (c : cell) : cell :=
  match t, c with
  | kUnlock, Some (t', ks) => if decide (ks ∖ {[o]} = ∅) then None else Some (t', ks ∖ {[o]})
  | kUnlock, None => None
  | kShared, Some (_, ks) => Some (kShared, ks ∪ {[o]})
  | kShared, None => Some (kShared, {[o]})
  | _, _ => Some (t, {[o]})
  end.

(** When a request may be granted at a byte. *)
Definition compat (t : Type_) (o : okey) (c : cell) : Prop :=
  match c with
  | None => True
  | Some (t', ks) => t = kUnlock ∨ (t = kShared ∧ t' = kShared) ∨ ks = {[o]}
  end.

(** A range in the set. *)
Record range_wf (r : LockRange.t) : Prop := {
  rw_nonempty : start r < end_ r;
  rw_type : type r = kShared ∨ type r = kExclusive;
  rw_owners : owners r ≠ [];
  rw_sorted : owners_wf (owners r);
  rw_exclusive : type r = kExclusive → length (owners r) = 1%nat;
}.

Definition before (a b : LockRange.t) : Prop := end_ a <= start b.

(** The set of ranges: sorted and disjoint. *)
Record ranges_wf (l : LockRanges.t) : Prop := {
  rs_all : Forall range_wf l;
  rs_sorted : StronglySorted before l;
}.

(** A request: one owner, a nonempty range. *)
Record request (t : Type_) (o : okey) (r : LockRange.t) : Prop := {
  rq_type : type r = t;
  rq_valid : t = kUnlock ∨ t = kShared ∨ t = kExclusive;
  rq_owner : ∃ o', owners r = [o'] ∧ key_of o' = o;
}.

Lemma ranges_wf_app l1 l2 :
  ranges_wf (l1 ++ l2) ↔ ranges_wf l1 ∧ ranges_wf l2 ∧ ∀ a b, a ∈ l1 → b ∈ l2 → end_ a <= start b.
Proof.
  split.
  - intros [[H1 H2]%Forall_app Hs]. apply StronglySorted_app in Hs as (Hs1 & Hs2 & Hs3).
    split_and!; [done..|]. intros a b Ha Hb. by apply Hs1.
  - intros ([H1 H2] & [H3 H4] & H5). split; [by apply Forall_app|]. apply StronglySorted_app. done.
Qed.

Lemma ranges_wf_cons r l :
  ranges_wf (r :: l) ↔ range_wf r ∧ ranges_wf l ∧ ∀ b, b ∈ l → end_ r <= start b.
Proof.
  split.
  - intros [[H1 H2]%Forall_cons [Hs1 Hs2]%StronglySorted_inv]. rewrite Forall_forall in Hs2. done.
  - intros (H1 & [H3 H4] & H5). split; [by constructor|]. constructor; [done|by apply Forall_forall].
Qed.

Lemma ranges_wf_nil : ranges_wf [].
Proof. split; constructor. Qed.

Lemma ranges_wf_single r : ranges_wf [r] ↔ range_wf r.
Proof. rewrite ranges_wf_cons. split; [tauto|]. intros H. split_and!; [done|apply ranges_wf_nil|set_solver]. Qed.

Lemma at_app l1 l2 x : at_ (l1 ++ l2) x = match at_ l1 x with Some c => Some c | None => at_ l2 x end.
Proof. induction l1 as [|r l1 IH]; [done|]. cbn [app at_]. by destruct (covers r x). Qed.

Lemma at_None l x : (∀ r, r ∈ l → x < start r ∨ end_ r <= x) → at_ l x = None.
Proof.
  induction l as [|r l IH]; intros H; [done|]. cbn [at_]. unfold covers.
  pose proof (H r ltac:(by left)).
  destruct (Z.leb_spec (start r) x), (Z.ltb_spec x (end_ r)); simpl; try lia; apply IH; intros ? ?; apply H; by right.
Qed.

Lemma at_elem l x r : ranges_wf l → r ∈ l → covers r x = true → at_ l x = Some (type r, keyset (owners r)).
Proof.
  induction l as [|r0 l IH]; intros Hw Hin Hc; [by apply elem_of_nil in Hin|].
  apply ranges_wf_cons in Hw as (Hr & Hw & Hb). cbn [at_].
  apply elem_of_cons in Hin as [->|Hin]; [by rewrite Hc|].
  specialize (Hb r Hin). unfold covers in *. rewrite andb_true_iff, Z.leb_le, Z.ltb_lt in Hc.
  destruct (Z.leb_spec (start r0) x), (Z.ltb_spec x (end_ r0)); simpl; try lia; apply IH; try done;
    unfold covers; rewrite andb_true_iff, Z.leb_le, Z.ltb_lt; lia.
Qed.

Lemma at_Some l x c : at_ l x = Some c → ∃ r, r ∈ l ∧ covers r x = true ∧ c = (type r, keyset (owners r)).
Proof.
  induction l as [|r0 l IH]; cbn [at_]; [done|]. destruct (covers r0 x) eqn:E.
  - intros [= <-]. exists r0. split; [by left|done].
  - intros (r & Hr & ?)%IH. exists r. split; [by right|done].
Qed.

(** ** Relabelling *)

Lemma keyset_nonempty os : os ≠ [] → keyset os ≠ ∅.
Proof. destruct os as [|o os]; [done|]. intros _. rewrite keyset_cons. set_solver. Qed.

Lemma keyset_empty os : keyset os = ∅ → os = [].
Proof. destruct os as [|o os]; [done|]. rewrite keyset_cons. set_solver. Qed.

Lemma owners_wf_single o : owners_wf [o].
Proof. repeat constructor. Qed.

Lemma singleton_difference (o : okey) : ({[o]} : gset okey) ∖ {[o]} = ∅.
Proof. set_solver. Qed.

Lemma difference_not_singleton (ks : gset okey) o : ks ≠ ∅ → ks ≠ {[o]} → ks ∖ {[o]} ≠ ∅.
Proof.
  intros H1 H2 H. apply set_choose_L in H1 as [k Hk].
  assert (∀ k', k' ∈ ks → k' = o) as Ho.
  { intros k' Hk'. destruct (decide (k' = o)) as [|Hne]; [done|]. exfalso.
    assert (k' ∈ ks ∖ {[o]}) as Hd by (apply elem_of_difference; rewrite elem_of_singleton; done).
    rewrite H in Hd. by apply elem_of_empty in Hd. }
  apply H2, set_eq. intros k'. rewrite elem_of_singleton. split; [apply Ho|]. intros ->. by rewrite <- (Ho k Hk).
Qed.

Lemma exclusive_single r : range_wf r → type r = kExclusive → ∃ o, owners r = [o].
Proof.
  intros Hr Ht. pose proof (rw_exclusive r Hr Ht) as Hl. destruct (owners r) as [|o [|]]; [done| |done]. by exists o.
Qed.

(** The outcome for a range wholly covered by the request. *)
Definition relabelled (t : Type_) (o : okey) (x x' : LockRange.t) : Prop :=
  start x' = start x ∧ end_ x' = end_ x ∧
  if unlocking x' then effect t o (Some (type x, keyset (owners x))) = None
  else range_wf x' ∧ effect t o (Some (type x, keyset (owners x))) = Some (type x', keyset (owners x')).

Lemma relabel_spec t o range x :
  request t o range → range_wf x → compat t o (Some (type x, keyset (owners x))) →
  let same_owners := owners_eqb (owners range) (owners x) in
  same_owners || (shared range && shared x) || unlocking range = true ∧
  ∃ x', relabel same_owners range x = Ok x' ∧ relabelled t o x x'.
Proof.
  intros [Ht Hv (o' & Ho & <-)] Hx Hc. cbv zeta. rewrite Ho. unfold relabel, shared, unlocking, the_owner.
  rewrite Ht, Ho. cbn [length Nat.eqb]. rewrite orb_false_r.
  pose proof (owners_eqb_single o' (owners x) (rw_sorted x Hx)) as Hsame.
  pose proof (keyset_nonempty _ (rw_owners x Hx)) as Hne.
  destruct (owners_eqb [o'] (owners x)).
  - assert (keyset (owners x) = {[key_of o']}) as Ek by (by apply Hsame).
    assert (length (owners x) = 1%nat) as Hl1.
    { rewrite <- keyset_singleton in Ek. apply owners_wf_ext in Ek; [|apply Hx|apply owners_wf_single].
      apply (f_equal length) in Ek. unfold keys in Ek. by rewrite !length_fmap in Ek. }
    split; [done|]. eexists. split; [done|]. split; [done|]. split; [done|].
    unfold unlocking, set_type. cbn [type owners]. rewrite Hl1, Ek. cbn [Nat.eqb]. rewrite orb_false_r.
    unfold effect. destruct Hv as [-> | [-> | -> ]]; rewrite ?bool_decide_eq_true_2, ?bool_decide_eq_false_2 by done.
    + by rewrite decide_True by apply singleton_difference.
    + split; [|by rewrite union_idemp_L]. split; try (apply Hx); simpl; auto.
    + split; [|done]. split; try (apply Hx); simpl; auto.
  - assert (keyset (owners x) ≠ {[key_of o']}) as Ek by (intros E%Hsame; done).
    destruct Hc as [->|[[-> Htx]|?]]; [| |done].
    + rewrite (bool_decide_eq_true_2 (kUnlock = kUnlock)), orb_true_r by done. split; [done|]. cbn [mbind res_bind].
      destruct (eraseOwner_spec o' x (rw_sorted x Hx)) as (os & -> & Hos & Eos). eexists. split; [done|].
      split; [done|]. split; [done|]. pose proof (difference_not_singleton _ _ Hne Ek) as Hd.
      unfold effect. rewrite decide_False by done. rewrite <- Eos in *.
      assert (os ≠ []) as Hos0 by (by intros ->). unfold unlocking, set_owners. cbn [type owners].
      rewrite bool_decide_eq_false_2 by (destruct (rw_type x Hx); congruence).
      destruct os as [|o1 os]; [done|]. split; [|done]. split; try (apply Hx); cbn [type owners]; [done|done|].
      intros Hex. destruct (exclusive_single x Hx Hex) as [o2 Ho2].
      rewrite Ho2, keyset_singleton in Eos, Ek. rewrite difference_absent in Eos
        by (rewrite elem_of_singleton; intros E; apply Ek; by rewrite E).
      assert (keys (o1 :: os) = keys [o2]) as El.
      { apply owners_wf_ext; [done|apply owners_wf_single|]. by rewrite Eos, keyset_singleton. }
      apply (f_equal length) in El. unfold keys in El. by rewrite !length_fmap in El.
    + rewrite (bool_decide_eq_false_2 (kShared = kUnlock)) by done. rewrite Htx, bool_decide_eq_true_2 by done.
      split; [done|].
      destruct (addOwners_spec [o'] x (rw_sorted x Hx) (owners_wf_single o')) as (os & -> & Hos & Eos).
      eexists. split; [done|]. split; [done|]. split; [done|]. unfold unlocking, set_owners. cbn [type owners].
      rewrite keyset_singleton in Eos. assert (os ≠ []) as Hos0.
      { intros ->. apply Hne. unfold keyset in Eos at 1. simpl in Eos. set_solver. }
      rewrite Htx, bool_decide_eq_false_2 by done. destruct os as [|o1 os]; [done|].
      split; [|by rewrite Eos]. split; try (apply Hx); cbn [type owners]; [by left|done|done|congruence].
Qed.

(** ** The loop of insert *)

Record loop_inv (t : Type_) (o : okey) (target : Z → cell) (A todo post : LockRanges.t) (range : LockRange.t) : Prop := {
  li_wf : ranges_wf (A ++ todo ++ post);
  li_req : request t o range;
  li_left : start range < end_ range → ∀ a, a ∈ A → end_ a <= start range;
  li_post : start range < end_ range → ∀ p, p ∈ post → end_ range <= start p;
  li_compat : start range < end_ range →
    ∀ e, e ∈ todo → overlaps range e = true → compat t o (Some (type e, keyset (owners e)));
  li_at : ∀ x, target x =
    if covers range x then effect t o (at_ (todo ++ post) x) else at_ (A ++ todo ++ post) x;
}.

Lemma request_set_start t o s r : request t o r → request t o (set_start s r).
Proof. by intros [? ? ?]. Qed.
Lemma request_set_end t o e r : request t o r → request t o (set_end e r).
Proof. by intros [? ? ?]. Qed.

Lemma range_wf_set_start s r : range_wf r → s < end_ r → range_wf (set_start s r).
Proof. intros [? ? ? ? ?] Hs. by split. Qed.
Lemma range_wf_set_end e r : range_wf r → start r < e → range_wf (set_end e r).
Proof. intros [? ? ? ? ?] Hs. by split. Qed.

(** A lock request is itself a range that can be stored; an unlocking one is not. *)
Lemma request_live t o r :
  request t o r → start r < end_ r →
  (unlocking r = true ∧ effect t o None = None) ∨
  (unlocking r = false ∧ range_wf r ∧ effect t o None = Some (type r, keyset (owners r))).
Proof.
  intros [Ht Hv (o' & Ho & <-)] Hn. unfold unlocking. rewrite Ho, keyset_singleton, Ht. cbn [length Nat.eqb].
  destruct Hv as [-> | [-> | -> ]]; [left|right..]; rewrite ?bool_decide_eq_true_2, ?bool_decide_eq_false_2 by done;
    split; try done; (split; [|done]); split; rewrite ?Ho; auto; apply owners_wf_single.
Qed.

Lemma live_app l1 l2 : live (l1 ++ l2) = live l1 ++ live l2.
Proof. apply filter_app. Qed.

Lemma live_single r : live [r] = if unlocking r then [] else [r].
Proof. unfold live. rewrite filter_cons, filter_nil. by destruct (unlocking r). Qed.

(** The facts available when the iterator points at [other]. *)
Section step.
Context (t : Type_) (o : okey) (target : Z → cell) (A todo post : LockRanges.t) (range other : LockRange.t).
Hypothesis Hinv : loop_inv t o target A (other :: todo) post range.
Hypothesis Hne : start range < end_ range.

Lemma step_facts :
  range_wf other ∧ ranges_wf A ∧ ranges_wf (todo ++ post) ∧
  (∀ a, a ∈ A → end_ a <= start range) ∧ (∀ a, a ∈ A → end_ a <= start other) ∧
  (∀ b, b ∈ todo ++ post → end_ other <= start b) ∧
  (∀ a b, a ∈ A → b ∈ todo ++ post → end_ a <= start b) ∧
  (∀ x, start range <= x ∨ start other <= x → at_ A x = None) ∧
  (∀ x, x < end_ other → at_ (todo ++ post) x = None).
Proof using Hinv Hne.
  destruct Hinv as [Hw _ Hl _ _ _]. simpl in Hw. apply ranges_wf_app in Hw as (HA & Hw & HAo).
  apply ranges_wf_cons in Hw as (Ho & Hr & Hor). specialize (Hl Hne).
  assert (∀ a, a ∈ A → end_ a <= start other) as H1 by (intros a Ha; apply HAo; [done|by left]).
  split_and!; try done.
  - intros a b Ha Hb. apply HAo; [done|by right].
  - intros x Hx. apply at_None. intros a Ha. specialize (Hl a Ha). specialize (H1 a Ha). lia.
  - intros x Hx. apply at_None. intros b Hb. specialize (Hor b Hb). lia.
Qed.
End step.

Ltac step_facts :=
  match goal with
  | Hinv : loop_inv ?t ?o ?target ?A (?other :: ?todo) ?post ?range, Hne : start ?range < end_ ?range |- _ =>
      destruct (step_facts t o target A todo post range other Hinv Hne)
        as (Hother & HA & Hrest & HAr & HAo & Hor & HAb & EA & ER)
  end.

(** Solve a pointwise equation by splitting on the position of the byte. *)
Ltac at_cases :=
  unfold covers; cbn [start end_ type owners set_start set_end set_type set_owners];
  repeat match goal with
    | |- context [?a <=? ?b] => destruct (Z.leb_spec a b); try lia
    | |- context [?a <? ?b] => destruct (Z.ltb_spec a b); try lia
    end; cbn [andb].

Ltac at_point x :=
  intros x;
  match goal with Hat : ∀ x, _ = _ |- _ => rewrite (Hat x) end;
  cbn [app];
  match goal with
  | ER : ∀ x, _ → at_ ?r x = None |- _ => generalize dependent r; intros rest; intros
  end;
  rewrite ?at_app; cbn [at_]; at_cases;
  repeat match goal with
    | EA : ∀ x, _ ∨ _ → at_ ?A x = None |- context [at_ ?A ?y] => rewrite (EA y) by lia
    | ER : ∀ x, _ < _ → at_ ?r x = None |- context [at_ ?r ?y] => rewrite (ER y) by lia
    end; try done; try lia.

Lemma overlaps_true a b : overlaps a b = true ↔ start a < end_ b ∧ start b < end_ a.
Proof. unfold overlaps. by rewrite andb_true_iff, !Z.ltb_lt. Qed.
Lemma sticks_true a b : sticks a b = true ↔ start a = end_ b ∨ start b = end_ a.
Proof. unfold sticks. by rewrite orb_true_iff, !Z.eqb_eq. Qed.

Section steps.
Context (t : Type_) (o : okey) (target : Z → cell) (A todo post : LockRanges.t) (range other : LockRange.t).
Hypothesis Hinv : loop_inv t o target A (other :: todo) post range.
Hypothesis Hne : start range < end_ range.

(** Adjacent ranges of the same owner and type become one. *)
Lemma step_merge :
  sticks range other = true → owners_eqb (owners range) (owners other) = true → type range = type other →
  loop_inv t o target A todo post
    (set_end (Z.max (end_ range) (end_ other)) (set_start (Z.min (start range) (start other)) range)).
Proof using Hinv Hne.
  intros Hst%sticks_true Hsame Hty. step_facts. pose proof (rw_nonempty _ Hother) as Hno.
  destruct Hinv as [_ Hreq _ Hpost Hcomp Hat].
  assert (effect t o None = Some (type other, keyset (owners other))) as Hcell.
  { destruct (request_live t o range Hreq Hne) as [[Hu _]|(_ & _ & ->)].
    - exfalso. unfold unlocking in Hu. destruct (rq_owner _ _ _ Hreq) as (o' & Ho & _). rewrite Ho, Hty in Hu.
      rewrite bool_decide_eq_false_2 in Hu by (destruct (rw_type _ Hother); congruence). done.
    - rewrite Hty. unfold keyset. apply owners_eqb_keys in Hsame. by rewrite Hsame. }
  split; [|by apply request_set_end, request_set_start|..].
  - apply ranges_wf_app. done.
  - intros _ a Ha. specialize (HAr a Ha). specialize (HAo a Ha). simpl. lia.
  - intros _ p Hp. specialize (Hpost Hne p Hp). pose proof (Hor p ltac:(apply elem_of_app; by right)). simpl. lia.
  - intros _ e He Hov%overlaps_true. apply Hcomp; [done|by right|]. apply overlaps_true.
    assert (e ∈ todo ++ post) as Hin by (apply elem_of_app; by left). specialize (Hor e Hin).
    pose proof (rw_nonempty _ (proj1 (Forall_forall _ _) (rs_all _ Hrest) e Hin)). simpl in Hov. lia.
  - at_point x.
Qed.

(** A range that ends before the request is passed over. *)
Lemma step_skip :
  end_ other <= start range → loop_inv t o target (A ++ live [other]) todo post range.
Proof using Hinv Hne.
  intros Hle. step_facts. destruct Hinv as [Hw Hreq _ Hpost Hcomp Hat].
  assert (unlocking other = false) as Hun.
  { unfold unlocking. rewrite bool_decide_eq_false_2 by (destruct (rw_type _ Hother); congruence).
    pose proof (rw_owners _ Hother). by destruct (owners other). }
  rewrite live_single, Hun. split; try done.
  - by rewrite <- app_assoc.
  - intros _ a [Ha| ->%list_elem_of_singleton]%elem_of_app; [by apply HAr|done].
  - intros _ e He. apply Hcomp; [done|by right].
  - rewrite <- app_assoc. cbn [app]. at_point x.
Qed.

(** The part of the request before the next range. *)
Lemma step_before :
  start range < start other → start other < end_ range →
  loop_inv t o target (A ++ live [set_end (start other) range]) (other :: todo) post
    (set_start (start other) range).
Proof using Hinv Hne.
  intros Hlt Hlt2. step_facts. destruct Hinv as [Hw Hreq _ Hpost Hcomp Hat].
  pose proof (request_live t o (set_end (start other) range) (request_set_end _ _ _ _ Hreq) Hlt) as Hlive.
  rewrite live_single. set (tmp := set_end (start other) range) in *.
  assert (ranges_wf (other :: todo ++ post)) as Hw' by (by apply ranges_wf_cons).
  split; [|by apply request_set_start|..].
  - destruct Hlive as [[-> _]|(-> & Hwt & _)]; [by rewrite app_nil_r|].
    rewrite <- app_assoc. apply ranges_wf_app. split; [done|]. split.
    + apply ranges_wf_cons. split; [done|]. split; [done|]. intros b [->|Hb]%elem_of_cons; [done|].
      specialize (Hor b Hb). pose proof (rw_nonempty _ Hother). simpl. lia.
    + intros a b Ha [->|[->|Hb]%elem_of_cons]%elem_of_cons; [by apply HAr|by apply HAo|by apply HAb].
  - intros _ a Ha. simpl. apply elem_of_app in Ha as [Ha|Ha]; [by apply HAo|].
    destruct (unlocking tmp); [by apply elem_of_nil in Ha|]. by apply list_elem_of_singleton in Ha as ->.
  - intros _ p Hp. by apply Hpost.
  - intros _ e He Hov%overlaps_true. apply Hcomp; [done|done|]. apply overlaps_true. simpl in Hov. lia.
  - pose proof (rw_nonempty _ Hother). destruct Hlive as [[-> E]|(-> & _ & E)]; rewrite ?app_nil_r, <- ?app_assoc; cbn [app];
      unfold tmp in *; at_point x.
Qed.

Lemma live_other : unlocking other = false.
Proof using Hinv Hne.
  step_facts. unfold unlocking. rewrite bool_decide_eq_false_2 by (destruct (rw_type _ Hother); congruence).
  pose proof (rw_owners _ Hother). by destruct (owners other).
Qed.

(** A range that begins before the request is cut in two. *)
Lemma step_split :
  start other < start range → start range < end_ other →
  loop_inv t o target (A ++ live [set_end (start range) other]) (set_start (start range) other :: todo) post range.
Proof using Hinv Hne.
  intros Hlt Hlt2. step_facts. pose proof live_other as Hun. destruct Hinv as [Hw Hreq _ Hpost Hcomp Hat].
  rewrite live_single. change (unlocking (set_end (start range) other)) with (unlocking other). rewrite Hun.
  pose proof (range_wf_set_end (start range) other Hother Hlt) as Hw1.
  pose proof (range_wf_set_start (start range) other Hother Hlt2) as Hw2.
  split; try done.
  - rewrite <- app_assoc. cbn [app]. apply ranges_wf_app. split; [done|]. split.
    + apply ranges_wf_cons. split; [done|]. split; [by apply ranges_wf_cons|].
      intros b [->|Hb]%elem_of_cons; [done|]. specialize (Hor b Hb). simpl. lia.
    + intros a b Ha [->|[->|Hb]%elem_of_cons]%elem_of_cons; [by apply HAo|by apply HAr|by apply HAb].
  - intros _ a [Ha| ->%list_elem_of_singleton]%elem_of_app; [by apply HAr|done].
  - intros _ e [->|He]%elem_of_cons Hov; [|apply Hcomp; [done|by right|done]].
    apply (Hcomp Hne other); [by left|]. apply overlaps_true in Hov. apply overlaps_true. simpl in Hov. lia.
  - rewrite <- app_assoc. cbn [app]. at_point x.
Qed.

(** The request ends inside the range. *)
Lemma step_inside tmp :
  start range = start other → end_ range < end_ other → relabelled t o (set_end (end_ range) other) tmp →
  loop_inv t o target (A ++ live [tmp]) (set_start (end_ range) other :: todo) post (set_start (end_ other) range).
Proof using Hinv Hne.
  intros Heq Hlt (Es & Ee & Hr). step_facts. destruct Hinv as [Hw Hreq _ Hpost Hcomp Hat]. simpl in Es, Ee, Hr.
  pose proof (range_wf_set_start (end_ range) other Hother Hlt) as Hw2.
  assert (ranges_wf (set_start (end_ range) other :: todo ++ post)) as Hw' by (by apply ranges_wf_cons).
  rewrite live_single. split; [|by apply request_set_start|simpl; lia..|].
  - destruct (unlocking tmp); [rewrite app_nil_r|rewrite <- app_assoc]; cbn [app]; apply ranges_wf_app.
    + split; [done|]. split; [done|]. intros a b Ha [->|Hb]%elem_of_cons; [|by apply HAb].
      specialize (HAo a Ha). simpl. lia.
    + split; [done|]. split.
      * apply ranges_wf_cons. split; [apply Hr|]. split; [done|].
        intros b [->|Hb]%elem_of_cons; [simpl; lia|]. specialize (Hor b Hb). lia.
      * intros a b Ha [->|[->|Hb]%elem_of_cons]%elem_of_cons; [specialize (HAo a Ha); lia| |by apply HAb].
        specialize (HAo a Ha). simpl. lia.
  - destruct (unlocking tmp); rewrite ?app_nil_r, <- ?app_assoc; cbn [app]; at_point x.
    all: rewrite ?Es, ?Ee in *; try lia; try by destruct Hr.
Qed.

(** The request covers the rest of the range. *)
Lemma step_whole other' :
  start range = start other → end_ other <= end_ range → relabelled t o other other' →
  loop_inv t o target (A ++ live [other']) todo post (set_start (end_ other) range).
Proof using Hinv Hne.
  intros Heq Hle (Es & Ee & Hr). step_facts. destruct Hinv as [Hw Hreq _ Hpost Hcomp Hat].
  pose proof (rw_nonempty _ Hother) as Hno.
  rewrite live_single. split; [|by apply request_set_start|..].
  - destruct (unlocking other'); [rewrite app_nil_r|rewrite <- app_assoc]; cbn [app]; apply ranges_wf_app; [done|].
    split; [done|]. split.
    + apply ranges_wf_cons. split; [apply Hr|]. split; [done|]. intros b Hb. specialize (Hor b Hb). lia.
    + intros a b Ha [->|Hb]%elem_of_cons; [specialize (HAo a Ha); lia|by apply HAb].
  - intros _ a [Ha|Ha]%elem_of_app; simpl; [specialize (HAo a Ha); lia|].
    destruct (unlocking other'); [by apply elem_of_nil in Ha|]. apply list_elem_of_singleton in Ha as ->. lia.
  - intros _ p Hp. by apply Hpost.
  - intros _ e He Hov%overlaps_true. apply Hcomp; [done|by right|]. apply overlaps_true. simpl in Hov. lia.
  - destruct (unlocking other'); rewrite ?app_nil_r, <- ?app_assoc; cbn [app]; at_point x.
    all: rewrite ?Es, ?Ee in *; try lia; try by destruct Hr.
Qed.
End steps.

(** The number of iterations left: two for a range that has to be cut first. *)
Definition steps_left (todo : LockRanges.t) (range : LockRange.t) : nat :=
  match todo with
  | [] => 0
  | other :: _ => (2 * length todo + if Z.eqb (start range) (start other) then 0 else 1)%nat
  end.

Lemma steps_left_le todo range : (steps_left todo range ≤ 2 * length todo + 1)%nat.
Proof. destruct todo as [|e l]; [simpl; lia|]. unfold steps_left. destruct (_ =? _); lia. Qed.

Lemma insert_loop_spec t o target pre post fuel : ∀ dn todo range,
  loop_inv t o target (pre ++ live dn) todo post range →
  end_ range <= start range ∨ (steps_left todo range ≤ fuel)%nat →
  ∃ dn' todo' range', insert_loop fuel dn todo range = Ok (dn', todo', range') ∧
    loop_inv t o target (pre ++ live dn') todo' post range' ∧
    (start range' < end_ range' → ∀ e, e ∈ todo' → end_ range' <= start e).
Proof.
  assert (∀ dn x, pre ++ live (dn ++ [x]) = (pre ++ live dn) ++ live [x]) as Hsnoc.
  { intros dn x. by rewrite live_app, app_assoc. }
  induction fuel as [|fuel IH]; intros dn todo range Hinv Hfuel; (destruct todo as [|other todo];
    [exists dn, [], range; split_and!; [done..|]; intros _ e He; by apply elem_of_nil in He|]);
    cbn [insert_loop]; destruct (Z.leb_spec (end_ range) (start range)) as [Hle|Hne];
    try (exists dn, (other :: todo), range; split_and!; [done..|lia]).
  { exfalso. unfold steps_left in Hfuel. simpl in Hfuel. lia. }
  destruct Hfuel as [?|Hfuel]; [lia|]. pose proof (step_facts _ _ _ _ _ _ _ _ Hinv Hne) as (Hother & _).
  assert (steps_left (other :: todo) range =
    (2 * length todo + 2 + if Z.eqb (start range) (start other) then 0 else 1)%nat) as Hsl by (unfold steps_left; simpl; lia).
  pose proof (rw_nonempty _ Hother) as Hno.
  destruct (sticks range other && owners_eqb (owners range) (owners other) && bool_decide (type range = type other)) eqn:E1.
  { apply andb_true_iff in E1 as [[H1 H2]%andb_true_iff H3%bool_decide_eq_true]. apply IH.
    - rewrite Hsnoc, live_single. unfold unlocking, markUnlocking, set_type. simpl. rewrite app_nil_r. by apply step_merge.
    - right. etransitivity; [apply steps_left_le|]. lia. }
  destruct (Z.leb_spec (end_ range) (start other)) as [Hbr|Hnb].
  { exists dn, (other :: todo), range. split_and!; [done..|]. intros _ e [->|He]%elem_of_cons; [done|].
    pose proof (step_facts _ _ _ _ _ _ _ _ Hinv Hne) as (_ & _ & _ & _ & _ & Hor & _).
    specialize (Hor e ltac:(apply elem_of_app; by left)). lia. }
  destruct (overlaps range other) eqn:Eov; cbn [negb].
  2: { apply IH; [rewrite Hsnoc; apply step_skip; [done..|]|right; etransitivity; [apply steps_left_le|]; lia].
       destruct (Z.le_gt_cases (end_ other) (start range)); [done|]. exfalso.
       assert (overlaps range other = true) by (apply overlaps_true; lia). congruence. }
  pose proof (li_compat _ _ _ _ _ _ _ Hinv Hne other ltac:(by left) Eov) as Hc.
  apply overlaps_true in Eov as [Eov1 Eov2]. pose proof (li_req _ _ _ _ _ _ _ Hinv) as Hreq.
  destruct (relabel_spec t o range other Hreq Hother Hc) as (-> & other' & Erel & Hrel). cbn [assertion].
  destruct (Z.ltb_spec (start range) (start other)) as [Hlt|Hge].
  { apply IH; [rewrite Hsnoc; by apply step_before|]. right.
    unfold steps_left. cbn [length start set_start]. rewrite Z.eqb_refl.
    rewrite (proj2 (Z.eqb_neq (start range) (start other))) in Hsl by lia. lia. }
  destruct (Z.eqb_spec (start range) (start other)) as [Heq|Hneq].
  - destruct (Z.ltb_spec (end_ range) (end_ other)) as [Hin|Hout].
    + destruct (relabel_spec t o range (set_end (end_ range) other) Hreq) as (_ & tmp & Etmp & Htmp);
        [apply range_wf_set_end; [done|lia]|done|].
      cbn [owners set_end] in Etmp. rewrite Etmp. cbn [mbind res_bind].
      apply IH; [rewrite Hsnoc; by apply step_inside|]. left. simpl. lia.
    + rewrite Erel. cbn [mbind res_bind]. apply IH; [rewrite Hsnoc; by apply step_whole|].
      right. etransitivity; [apply steps_left_le|]. lia.
  - apply IH; [rewrite Hsnoc; apply step_split; [done..|lia|lia]|]. right.
    unfold steps_left. cbn [length start set_start]. rewrite Z.eqb_refl. lia.
Qed.

(** ** The window *)

Lemma plen_mono {A} (p q : A → bool) l : (∀ x, x ∈ l → p x = true → q x = true) → (plen p l ≤ plen q l)%nat.
Proof.
  induction l as [|x l IH]; intros H; simpl; [done|]. destruct (p x) eqn:E; [|lia].
  rewrite (H x) by (done || by left). apply le_n_S, IH. intros y Hy. apply H. by right.
Qed.

Lemma sorted_lookup {A} (R : relation A) l i j x y :
  StronglySorted R l → l !! i = Some x → l !! j = Some y → (i < j)%nat → R x y.
Proof.
  intros Hs. revert i j. induction Hs as [|z l Hs IH Hf]; intros i j Hx Hy Hij; [done|].
  destruct j as [|j]; [lia|]. destruct i as [|i]; simplify_eq/=; [|apply (IH i j); [done..|lia]].
  rewrite Forall_forall in Hf. apply Hf. by eapply list_elem_of_lookup_2.
Qed.

Lemma ranges_wf_starts l : ranges_wf l → StronglySorted (fun a b => start a < start b) l.
Proof.
  induction l as [|r l IH]; [constructor|]. intros (Hr & Hl & Hb)%ranges_wf_cons. constructor; [by apply IH|].
  apply Forall_forall. intros b Hin. specialize (Hb b Hin). pose proof (rw_nonempty _ Hr). lia.
Qed.

Section window.
Context (data : LockRanges.t) (range : LockRange.t).
Hypothesis Hw : ranges_wf data.
Hypothesis Hne : start range < end_ range.

Lemma window_spec :
  ∃ first last, window range data = (first, last) ∧ (first ≤ last)%nat ∧
    data = take first data ++ take (last - first) (drop first data) ++ drop last data ∧
    (∀ a, a ∈ take first data → end_ a <= start range) ∧
    (∀ p, p ∈ drop last data → end_ range < start p).
Proof using Hw Hne.
  pose proof (ranges_wf_starts data Hw) as Hs. unfold window, lower_bound, upper_bound.
  rewrite !bsearch_plen.
  2,3: apply (partitioned_sorted _ _ _ Hs); intros x y; rewrite ?negb_true_iff, ?Z.ltb_lt, ?Z.ltb_ge; lia.
  set (p1 := fun other => start other <? start range). set (p2 := fun x => negb (end_ range <? start x)).
  assert (plen p1 data ≤ plen p2 data)%nat as Hle.
  { apply plen_mono. intros x _. unfold p1, p2. rewrite Z.ltb_lt, negb_true_iff, Z.ltb_ge. lia. }
  eexists _, _. split; [done|].
  assert ((if Nat.eqb (plen p1 data) 0 then plen p1 data else plen p1 data - 1) ≤ plen p2 data)%nat as Hle2
    by (destruct (Nat.eqb _ _); lia).
  set (first := if Nat.eqb (plen p1 data) 0 then plen p1 data else (plen p1 data - 1)%nat) in *.
  split; [done|]. split; [|split].
  - rewrite <- (take_drop first data) at 1. f_equal.
    rewrite <- (take_drop (plen p2 data - first) (drop first data)) at 1. f_equal.
    rewrite drop_drop. f_equal. lia.
  - intros a [i Hi]%list_elem_of_lookup. apply lookup_take_Some in Hi as [Hi Hif].
    unfold first in Hif. destruct (Nat.eqb_spec (plen p1 data) 0) as [E|E]; [lia|].
    pose proof (plen_le p1 data) as Hlen.
    destruct (lookup_lt_is_Some_2 data (plen p1 data - 1)%nat ltac:(lia)) as [b Hb].
    assert (p1 b = true) as Hpb by (apply (plen_lookup_lt p1 data (plen p1 data - 1)%nat); [lia|done]).
    unfold p1 in Hpb. apply Z.ltb_lt in Hpb.
    assert (before a b) as Hab; [|unfold before in Hab; lia].
    apply (sorted_lookup _ _ i (plen p1 data - 1)%nat _ _ (rs_sorted _ Hw)); [done|done|lia].
  - intros p [i Hi]%list_elem_of_lookup. rewrite lookup_drop in Hi.
    assert (p2 p = false) as Hp.
    { eapply (plen_lookup_ge p2 data); [|by apply Nat.le_add_r|done].
      apply (partitioned_sorted _ _ _ Hs). intros x y. unfold p2. rewrite !negb_true_iff, !Z.ltb_ge. lia. }
    unfold p2 in Hp. apply negb_false_iff, Z.ltb_lt in Hp. done.
Qed.
End window.

(** ** Theorems *)

Definition entry_compat (t : Type_) (o : okey) (e : LockRange.t) : Prop :=
  compat t o (Some (type e, keyset (owners e))).

(** A request fits at every byte when it is compatible with every range it overlaps. *)
Lemma compat_entries t o range data :
  ranges_wf data →
  (∀ x, covers range x = true → compat t o (at_ data x)) ↔
  (∀ e, e ∈ data → overlaps range e = true → start range < end_ range → entry_compat t o e).
Proof.
  intros Hw. split.
  - intros H e He Hov%overlaps_true Hne. pose proof (rw_nonempty _ (proj1 (Forall_forall _ _) (rs_all _ Hw) e He)).
    assert (∃ x, covers range x = true ∧ covers e x = true) as (x & Hx & Hex).
    { exists (Z.max (start range) (start e)). unfold covers. rewrite !andb_true_iff, !Z.leb_le, !Z.ltb_lt. lia. }
    specialize (H x Hx). by rewrite (at_elem data x e Hw He Hex) in H.
  - intros H x Hx. destruct (at_ data x) as [c|] eqn:E; [|done]. apply at_Some in E as (e & He & Hex & ->).
    unfold covers in Hx, Hex. rewrite andb_true_iff, Z.leb_le, Z.ltb_lt in Hx, Hex.
    apply H; [done| |lia]. apply overlaps_true. lia.
Qed.

Lemma collides_compat t o range e :
  request t o range → t ≠ kUnlock → range_wf e →
  collides range e = false ↔ (overlaps range e = true → entry_compat t o e).
Proof.
  intros [Ht Hv (o' & Ho & <-)] Hnu He. unfold collides, entry_compat, compat, shared. rewrite Ht, Ho.
  pose proof (owners_eqb_single o' (owners e) (rw_sorted _ He)) as Hs.
  assert (owners_eqb (owners e) [o'] = owners_eqb [o'] (owners e)) as ->.
  { apply eq_bool_prop_intro. rewrite !Is_true_true, !owners_eqb_keys. done. }
  destruct (overlaps range e); [|done]. cbn [andb].
  destruct (owners_eqb [o'] (owners e)); cbn [negb].
  - rewrite andb_false_r. split; [|done]. intros _ _. right. right. by apply Hs.
  - rewrite andb_true_r. destruct (decide (t = kShared)) as [->|Ets]; [rewrite bool_decide_eq_true_2 by done|].
    + destruct (decide (type e = kShared)) as [Ee|Ee]; [rewrite Ee; simpl; naive_solver|].
      rewrite bool_decide_eq_false_2 by done. simpl. split; [done|]. intros Hc.
      destruct (Hc eq_refl) as [?|[[_ ?]|?%Hs]]; done.
    + rewrite bool_decide_eq_false_2 by done. simpl. split; [done|]. intros Hc.
      destruct (Hc eq_refl) as [?|[[? _]|?%Hs]]; done.
Qed.

Lemma request_unlocking t o range : request t o range → unlocking range = bool_decide (t = kUnlock).
Proof. intros [Ht _ (o' & Ho & _)]. unfold unlocking. rewrite Ht, Ho. by rewrite orb_false_r. Qed.

Lemma find_none_iff {A} (f : A → bool) l : List.find f l = None ↔ ∀ x, x ∈ l → f x = false.
Proof.
  split; [intros H x Hx; by apply (List.find_none f l H), list_elem_of_In|].
  induction l as [|x l IH]; intros H; [done|]. simpl. rewrite (H x) by (by left). apply IH. intros y Hy. apply H. by right.
Qed.

Lemma findCollision_spec t o range data :
  ranges_wf data → request t o range → start range < end_ range →
  ∃ c, findCollision range data = Ok c ∧
    (c = None ↔ ∀ x, covers range x = true → compat t o (at_ data x)) ∧
    (∀ e, c = Some e → e ∈ data ∧ overlaps range e = true ∧ ¬ entry_compat t o e).
Proof.
  intros Hw Hreq Hne. unfold findCollision. rewrite (request_unlocking t o range Hreq).
  destruct (decide (t = kUnlock)) as [->|Hnu].
  { rewrite bool_decide_eq_true_2 by done. exists None. split; [done|]. split; [|done]. split; [|done].
    intros _ x _. destruct (at_ data x) as [[t' ks]|]; [by left|done]. }
  rewrite bool_decide_eq_false_2 by done.
  destruct (window_spec data range Hw Hne) as (first & last & -> & Hle & Hd & Hpre & Hpost).
  rewrite (proj2 (Nat.ltb_ge last first)) by done. eexists. split; [done|].
  set (w := take (last - first) (drop first data)) in *.
  assert (∀ e, e ∈ w → e ∈ data) as Hwd by (intros e He; rewrite Hd, !elem_of_app; auto).
  assert (∀ e, e ∈ data → range_wf e) as Hrw by (intros e He; by apply (proj1 (Forall_forall _ _) (rs_all _ Hw))).
  split.
  - rewrite compat_entries, find_none_iff by done. split.
    + intros H e He Hov _. rewrite Hd, !elem_of_app in He. destruct He as [He|[He|He]].
      * apply overlaps_true in Hov. specialize (Hpre e He). lia.
      * by apply (collides_compat t o range e Hreq Hnu (Hrw e (Hwd e He))); [apply H|].
      * apply overlaps_true in Hov. specialize (Hpost e He). lia.
    + intros H e He. apply (collides_compat t o range e Hreq Hnu (Hrw e (Hwd e He))). intros Hov.
      by apply H; [apply Hwd| |].
  - intros e [He Hc]%List.find_some. apply list_elem_of_In in He. split; [by apply Hwd|].
    pose proof (collides_compat t o range e Hreq Hnu (Hrw e (Hwd e He))) as Hiff.
    split; [unfold collides in Hc; by apply andb_true_iff in Hc as [? _]|].
    intros Hec. assert (collides range e = false); [by apply Hiff|congruence].
Qed.

Lemma live_wf l : ranges_wf l → live l = l.
Proof.
  intros Hw. apply filter_all. eapply Forall_impl; [apply Hw|]. simpl.
  intros e He. unfold unlocking. rewrite bool_decide_eq_false_2 by (destruct (rw_type _ He); congruence).
  pose proof (rw_owners _ He). by destruct (owners e).
Qed.

(** After the loop: what is left of the request goes in front of the rest. *)
Lemma loop_finish t o target A todo post range :
  loop_inv t o target A todo post range →
  (start range < end_ range → ∀ e, e ∈ todo → end_ range <= start e) →
  let l := A ++ live (if start range <? end_ range then range :: todo else todo) ++ post in
  ranges_wf l ∧ ∀ x, at_ l x = target x.
Proof.
  intros [Hw Hreq Hl Hp _ Hat] Htodo. cbv zeta. apply ranges_wf_app in Hw as (HwA & Hwr & HAr).
  assert (live todo = todo) as Hlive by (apply live_wf; by apply ranges_wf_app in Hwr as (? & _)).
  assert (covers range = fun x => (start range <=? x) && (x <? end_ range)) as Hcov by done.
  destruct (Z.ltb_spec (start range) (end_ range)) as [Hlt|Hge].
  2: { rewrite Hlive. split; [by apply ranges_wf_app|]. intros x. rewrite Hat.
       destruct (covers range x) eqn:Ec; [|done]. rewrite Hcov in Ec.
       apply andb_true_iff in Ec as [E1%Z.leb_le E2%Z.ltb_lt]. lia. }
  specialize (Hl Hlt). specialize (Hp Hlt). specialize (Htodo Hlt).
  assert (∀ b, b ∈ todo ++ post → end_ range <= start b) as Hb by (intros b [?|?]%elem_of_app; auto).
  assert (live (range :: todo) ++ post = live [range] ++ todo ++ post) as ->.
  { change (range :: todo) with ([range] ++ todo). by rewrite live_app, Hlive, app_assoc. }
  assert (∀ x, covers range x = true → at_ A x = None ∧ at_ (todo ++ post) x = None) as Hnone.
  { intros x Ec. rewrite Hcov in Ec. apply andb_true_iff in Ec as [E1%Z.leb_le E2%Z.ltb_lt].
    split; apply at_None; [intros a Hin; specialize (Hl a Hin)|intros b Hin; specialize (Hb b Hin)]; lia. }
  rewrite live_single. destruct (request_live t o range Hreq Hlt) as [[-> E]|(-> & Hrw & E)]; cbn [app].
  - split; [by apply ranges_wf_app|]. intros x. rewrite Hat, !(at_app A).
    destruct (covers range x) eqn:Ec; [|done]. destruct (Hnone x Ec) as [-> ->]. by rewrite E.
  - split.
    + apply ranges_wf_app. split; [done|]. split; [by apply ranges_wf_cons|].
      intros a b Ha [->|Hin]%elem_of_cons; [by apply Hl|by apply HAr].
    + intros x. rewrite Hat, !(at_app A). cbn [at_]. destruct (covers range x) eqn:Ec; [|done].
      destruct (Hnone x Ec) as [-> ->]. by rewrite E.
Qed.

Lemma insert_spec t o range data :
  ranges_wf data → request t o range → start range < end_ range →
  (∀ x, covers range x = true → compat t o (at_ data x)) →
  ∃ data', insert range data = Ok data' ∧ ranges_wf data' ∧
    ∀ x, at_ data' x = if covers range x then effect t o (at_ data x) else at_ data x.
Proof.
  intros Hw Hreq Hne Hfit. pose proof (proj1 (compat_entries t o range data Hw) Hfit) as Hce. unfold insert.
  destruct (window_spec data range Hw Hne) as (first & last & -> & Hle & Hd & Hpre & Hpost).
  rewrite (proj2 (Nat.ltb_ge last first)) by done. set (w := take (last - first) (drop first data)) in *.
  set (target := fun x => if covers range x then effect t o (at_ data x) else at_ data x).
  assert (loop_inv t o target (take first data ++ live []) w (drop last data) range) as Hinv.
  { change (live []) with ([] : LockRanges.t). rewrite app_nil_r. split; try done.
    - by rewrite <- Hd.
    - intros _ p Hp. specialize (Hpost p Hp). lia.
    - intros _ e He Hov. apply Hce; [|done|done]. rewrite Hd, !elem_of_app. auto.
    - intros x. unfold target. rewrite <- Hd. destruct (covers range x) eqn:Ec; [|done]. f_equal.
      rewrite Hd at 1. rewrite at_app, (at_None (take first data)); [done|].
      intros r Hr. specialize (Hpre r Hr). unfold covers in Ec. apply andb_true_iff in Ec as [Ec%Z.leb_le _]. lia. }
  destruct (insert_loop_spec t o target (take first data) (drop last data) (2 * length w + 1) [] w range Hinv)
    as (dn & todo & range' & -> & Hinv' & Htodo); [right; apply steps_left_le|].
  cbn [mbind res_bind]. eexists. split; [done|].
  rewrite live_app, <- app_assoc, app_assoc. by apply (loop_finish t o target).
Qed.

(** C15: inserting a lock range is a pointwise update.  Whenever the request is
    compatible with what is held at each of its bytes, [LockRanges::insert] terminates
    without a failed assertion, keeps the ranges sorted, disjoint and well formed, gives
    every byte of the requested range the new lock (or removes the owner there) and
    leaves every other byte as it was, whatever splits and merges this takes. *)
Theorem lock_insert_pointwise t o range data :
  ranges_wf data → request t o range → start range < end_ range →
  (∀ x, covers range x = true → compat t o (at_ data x)) →
  ∃ data', insert range data = Ok data' ∧ ranges_wf data' ∧
    ∀ x, at_ data' x = if covers range x then effect t o (at_ data x) else at_ data x.
Proof. apply insert_spec. Qed.

Ltac solve_range_wf :=
  split; cbn [type start end_ owners make]; [lia|auto|done|repeat constructor|done].
Ltac solve_ranges_wf :=
  repeat (apply ranges_wf_cons; split_and!; [solve_range_wf| |
    intros ?; rewrite ?elem_of_cons, ?elem_of_nil; intros; naive_solver lia]); apply ranges_wf_nil.

(** Owner 1 takes [5, 25) where owners 1 and 2 share [0, 10) and owner 1 has [20, 30). *)
Lemma lock_insert_pointwise_witness :
  let a := mk_owner 1 1 0 0 in
  let b := mk_owner 2 1 0 0 in
  let data := [mk kShared 0 10 [a; b]; make kExclusive 20 30 a] in
  ∃ data', insert (make kShared 5 25 a) data = Ok data' ∧ ranges_wf data' ∧ length data' = 5%nat ∧
    at_ data' 7 = Some (kShared, {[(1, 1); (2, 1)]}) ∧ at_ data' 15 = Some (kShared, {[(1, 1)]}) ∧
    at_ data' 25 = Some (kExclusive, {[(1, 1)]}).
Proof.
  intros a b data.
  destruct (lock_insert_pointwise kShared (1, 1) (make kShared 5 25 a) data) as (data' & E & Hw & Hat).
  - unfold data. solve_ranges_wf.
  - split; [done|auto|]. exists a. done.
  - done.
  - intros x Hx. unfold covers in Hx. simpl in Hx. apply andb_true_iff in Hx as [H1%Z.leb_le H2%Z.ltb_lt].
    unfold data, make. cbn [at_]. at_cases; unfold compat; rewrite ?(keyset_singleton a); auto.
  - exists data'. split_and!; [done|done| |rewrite Hat; vm_compute; reflexivity..].
    assert (match insert (make kShared 5 25 a) data with Ok l => length l = 5%nat | _ => False end) as H
      by (vm_compute; reflexivity).
    by rewrite E in H.
Defined.

(** the collision check is exact.  For a nonempty request [findCollision] returns
    null exactly when the request is compatible with what is held at each of its bytes,
    and otherwise returns a stored range that overlaps the request and conflicts with it. *)
Theorem lock_collision_exact t o range data :
  ranges_wf data → request t o range → start range < end_ range →
  ∃ c, findCollision range data = Ok c ∧
    (c = None ↔ ∀ x, covers range x = true → compat t o (at_ data x)) ∧
    (∀ e, c = Some e → e ∈ data ∧ overlaps range e = true ∧ ¬ entry_compat t o e).
Proof. apply findCollision_spec. Qed.

Lemma lock_collision_exact_witness :
  let a := mk_owner 1 1 0 0 in
  let b := mk_owner 2 1 0 0 in
  let data := [make kShared 0 10 a; make kExclusive 20 30 b] in
  ∃ e, findCollision (make kShared 5 25 a) data = Ok (Some e) ∧ ¬ entry_compat kShared (1, 1) e.
Proof.
  intros a b data.
  destruct (lock_collision_exact kShared (1, 1) (make kShared 5 25 a) data) as (c & E & _ & Hc).
  - unfold data. solve_ranges_wf.
  - split; [done|auto|]. exists a. done.
  - done.
  - exists (make kExclusive 20 30 b). split; [vm_compute; reflexivity|]. apply Hc.
    assert (findCollision (make kShared 5 25 a) data = Ok (Some (make kExclusive 20 30 b))) as E' by (vm_compute; reflexivity).
    congruence.
Defined.
