(* ===== verification/FileLocks.v ===== *)
(** * File locks of the metadata server

    [FileLocks] of src/master/locks.h and src/master/locks.cc (active and pending
    locks of every inode, their listing, storing and loading), the lock operations of
    [FilesystemOperationsBase] in src/master/filesystem_operations.cc and the packet
    handlers of src/master/matoclserv.cc that call them. *)

From S2P Require Import Prelude FlatContainers LockRanges.
Import LockRange.

(** ** FileLocks *)
Module FileLocks.

(** The maps are indexed by [uint32_t]. *)
Definition key (inode : Z) : Z := u32 inode.

Record t : Type := mk {
  active_locks_ : gmap Z LockRanges.t;
  pending_locks_ : gmap Z (list LockRange.t);
}.

Definition empty : t := mk ∅ ∅.
Definition set_active (m : gmap Z LockRanges.t) (s : t) : t := mk m (pending_locks_ s).
Definition set_pending (m : gmap Z (list LockRange.t)) (s : t) : t := mk (active_locks_ s) m.

Definition queue_insert (lock : LockRange.t) (queue : list LockRange.t) : list LockRange.t :=
  vinsert (lower_bound (fun other => LockRange.ltb other lock) queue) lock queue.

Definition enqueue (inode : Z) (lock : LockRange.t) (s : t) : t :=
  let queue := default [] (pending_locks_ s !! key inode) in
  set_pending (<[key inode := queue_insert lock queue]> (pending_locks_ s)) s.

Definition apply (inode : Z) (lock : LockRange.t) (nonblocking : bool) (s : t) : res (t * bool) :=
  let locks := default [] (active_locks_ s !! key inode) in
  let s := set_active (<[key inode := locks]> (active_locks_ s)) s in
  fits ← LockRanges.fits lock locks;
  if (fits : bool) then
    locks' ← LockRanges.insert lock locks;
    let s := set_active (<[key inode := locks']> (active_locks_ s)) s in
    Ok (if Nat.eqb (length locks') 0 then set_active (delete (key inode) (active_locks_ s)) s else s, true)
  else Ok (if negb nonblocking && negb (unlocking lock) then enqueue inode lock s else s, false).

Definition sharedLock (inode start end_ : Z) (owner : Owner) (nonblocking : bool) (s : t) : res (t * bool) :=
  apply inode (make kShared start end_ owner) nonblocking s.
Definition exclusiveLock (inode start end_ : Z) (owner : Owner) (nonblocking : bool) (s : t) : res (t * bool) :=
  apply inode (make kExclusive start end_ owner) nonblocking s.
Definition unlock (inode start end_ : Z) (owner : Owner) (s : t) : res (t * bool) :=
  apply inode (make kUnlock start end_ owner) false s.
Definition unlock_inode (inode : Z) (s : t) : t := set_active (delete (key inode) (active_locks_ s)) s.

Definition findCollision (inode : Z) (type : Type_) (start end_ : Z) (owner : Owner) (s : t) :
    res (option LockRange.t) :=
  match active_locks_ s !! key inode with
  | None => Ok None
  | Some locks => LockRanges.findCollision (make type start end_ owner) locks
  end.

(** The candidates and the state without them. *)
Definition gatherCandidates (inode start_ end__ : Z) (s : t) : res (t * list LockRange.t) :=
  match pending_locks_ s !! key inode with
  | None => Ok (s, [])
  | Some queue =>
      let first := lower_bound (fun lock => start lock <? start_) queue in
      let last := upper_bound (fun lock => end__ <? start lock) queue in
      let first := if Nat.eqb first 0 then first else (first - 1)%nat in
      if Nat.ltb last first then Stuck
      else Ok (set_pending (<[key inode := take first queue ++ drop last queue]> (pending_locks_ s)) s,
               take (last - first) (drop first queue))
  end.

(** [std::remove_if] with a predicate that may fail an assertion. *)
Fixpoint remove_if (pred : LockRange.t → res bool) (queue : list LockRange.t) : res (list LockRange.t) :=
  match queue with
  | [] => Ok []
  | lock :: queue' =>
      b ← pred lock;
      rest ← remove_if pred queue';
      Ok (if (b : bool) then rest else lock :: rest)
  end.

Definition removePending (inode : Z) (pred : LockRange.t → res bool) (s : t) : res t :=
  match pending_locks_ s !! key inode with
  | None => Ok s
  | Some queue =>
      queue' ← remove_if pred queue;
      Ok (set_pending (if Nat.eqb (length queue') 0 then delete (key inode) (pending_locks_ s)
                       else <[key inode := queue']> (pending_locks_ s)) s)
  end.

(** [unlock(inode, pred)]: the owners that satisfy [pred] go, and the answer is the
    span of the ranges that lost an owner. *)
Fixpoint unlock_ranges (pred : Owner → bool) (locks : LockRanges.t) (start_ end__ : Z) : LockRanges.t * Z * Z :=
  match locks with
  | [] => ([], start_, end__)
  | lock :: locks' =>
      let kept := List.filter (fun o => negb (pred o)) (owners lock) in
      let changed := negb (Nat.eqb (length kept) (length (owners lock))) in
      let start_ := if changed then Z.min start_ (start lock) else start_ in
      let end__ := if changed then Z.max end__ (end_ lock) else end__ in
      let '(rest, a, b) := unlock_ranges pred locks' start_ end__ in
      (if Nat.eqb (length kept) 0 then rest else set_owners kept lock :: rest, a, b)
  end.

Definition unlock_pred (inode : Z) (pred : Owner → bool) (s : t) : t * (Z * Z) :=
  match active_locks_ s !! key inode with
  | None => (s, (2 ^ 64 - 1, 0))
  | Some locks =>
      let '(locks', a, b) := unlock_ranges pred locks (2 ^ 64 - 1) 0 in
      (set_active (<[key inode := locks']> (active_locks_ s)) s, (a, b))
  end.

Definition clear (s : t) : t := set_active ∅ s.

Definition insertActive (inode : Z) (lock : LockRange.t) (s : t) : res t :=
  locks ← LockRanges.insert lock (default [] (active_locks_ s !! key inode));
  Ok (set_active (<[key inode := locks]> (active_locks_ s)) s).

Definition insertPending (inode : Z) (lock : LockRange.t) (s : t) : t :=
  let queue := default [] (pending_locks_ s !! key inode) in
  set_pending (<[key inode := queue_insert lock queue]> (pending_locks_ s)) s.

Definition getActiveLocks (inode : Z) (s : t) : option LockRanges.t := active_locks_ s !! key inode.
Definition getPendingLocks (inode : Z) (s : t) : option (list LockRange.t) := pending_locks_ s !! key inode.

(** *** Listing *)

Record Info : Type := mk_info {
  version : Z; i_inode : Z; i_owner : Z; i_sessionid : Z; i_type : Z; i_start : Z; i_end : Z }.

Definition type_code (ty : Type_) : Z :=
  match ty with kInvalid => 0 | kUnlock => 1 | kShared => 2 | kExclusive => 4 end.

Definition info_of (inode : Z) (lock : LockRange.t) (o : Owner) : Info :=
  mk_info 0 inode (owner o) (sessionid o) (type_code (type lock)) (start lock) (end_ lock).

(** The loop over owners: [inr] is the early return. *)
Fixpoint copy_owners (inode : Z) (lock : LockRange.t) (os : list Owner) (count : Z) (data : list Info) :
    (Z * list Info) + list Info :=
  match os with
  | [] => inl (count, data)
  | o :: os' =>
      let data := data ++ [info_of inode lock o] in
      let count := count - 1 in
      if count <=? 0 then inr data else copy_owners inode lock os' count data
  end.

(** The loop over the locks of one inode; the state is [(pos, count, data)].  The position and the index are
    compared as unsigned numbers, since [owners.size()] is unsigned. *)
Fixpoint copy_locks (inode : Z) (locks : list LockRange.t) (index : Z) (st : Z * Z * list Info) :
    res ((Z * Z * list Info) + list Info) :=
  match locks with
  | [] => Ok (inl st)
  | lock :: locks' =>
      let '(pos, count, data) := st in
      let n := Z.of_nat (length (owners lock)) in
      if u64 (pos + n) <=? u64 index then copy_locks inode locks' index (pos + n, count, data)
      else
        assertion (0 <? n)
          (let skip := Z.max (index - pos) 0 in
           match copy_owners inode lock (drop (Z.to_nat skip) (owners lock)) count data with
           | inr data => Ok (inr data)
           | inl (count, data) => copy_locks inode locks' index (pos + skip, count, data)
           end)
  end.

Fixpoint copy_entries (full_data : list (Z * list LockRange.t)) (index : Z) (st : Z * Z * list Info) :
    res ((Z * Z * list Info) + list Info) :=
  match full_data with
  | [] => Ok (inl st)
  | (inode, locks) :: rest =>
      r ← copy_locks inode locks index st;
      match r with inl st => copy_entries rest index st | inr data => Ok (inr data) end
  end.

Definition copied (r : (Z * Z * list Info) + list Info) : list Info :=
  match r with inl (_, _, data) => data | inr data => data end.

(** [full_data] lists the entries of the map in the order of its iteration. *)
Definition copyToVector (full_data : list (Z * list LockRange.t)) (index count : Z) : res (list Info) :=
  if count <=? 0 then Ok []
  else r ← copy_entries full_data index (0, count, []); Ok (copied r).

Definition copyInodeToVector (lock_data : list LockRange.t) (inode index count : Z) : res (list Info) :=
  if count <=? 0 then Ok []
  else r ← copy_locks inode lock_data index (0, count, []); Ok (copied r).

(** *** Storing and loading: the number of records and the records *)

Definition store_section (data : list (Z * list LockRange.t)) : Z * list Info :=
  (zsum ((fun e => zsum ((fun lock => Z.of_nat (length (owners lock))) <$> snd e)) <$> data),
   mjoin ((fun e => mjoin ((fun lock => info_of (fst e) lock <$> owners lock) <$> snd e)) <$> data)).

Definition type_of_code (c : Z) : Type_ :=
  if c =? 1 then kUnlock else if c =? 2 then kShared else if c =? 4 then kExclusive else kInvalid.

Definition lock_of_info (i : Info) : LockRange.t :=
  make (type_of_code (i_type i)) (i_start i) (i_end i) (mk_owner (i_owner i) (i_sessionid i) 0 0).

(** [count] records are read; reading past the end of the file throws. *)
Fixpoint load_records {S} (insert : Z → LockRange.t → S → res S) (count : nat) (records : list Info) (s : S) : res S :=
  match count with
  | O => Ok s
  | Datatypes.S count' =>
      match records with
      | [] => Throw
      | info :: records' => s ← insert (i_inode info) (lock_of_info info) s; load_records insert count' records' s
      end
  end.

Definition push_pending (inode : Z) (lock : LockRange.t) (s : t) : t :=
  let queue := default [] (pending_locks_ s !! key inode) in
  set_pending (<[key inode := queue ++ [lock]]> (pending_locks_ s)) s.

Definition load (active pending : Z * list Info) (s : t) : res t :=
  s ← load_records insertActive (Z.to_nat (fst active)) (snd active) s;
  load_records (fun inode lock s => Ok (push_pending inode lock s)) (Z.to_nat (fst pending)) (snd pending) s.

(** The maps are iterated in some order. *)
Definition store (active_order : list (Z * LockRanges.t)) (pending_order : list (Z * list LockRange.t)) :
    (Z * list Info) * (Z * list Info) :=
  (store_section active_order, store_section pending_order).
End FileLocks.

(** ** Lock operations of the file system *)
Module LockOperations.
Import FileLocks.

(** Status codes (src/errors/saunafs_error_codes.h) and operation codes
    (src/protocol/lock_info.h). *)
Definition STATUS_OK : Z := 0.
Definition ERROR_EINVAL : Z := 6.
Definition ERROR_IO : Z := 22.
Definition ERROR_WAITING : Z := 50.
Definition opUnlock : Z := 1.
Definition opShared : Z := 2.
Definition opExclusive : Z := 4.
Definition opNonblock : Z := 16.
Definition opRelease : Z := 32.

(** Entries of the change log that concern locks. *)
Inductive log_entry : Type :=
| FLCK (type inode start end_ owner sessionid oper : Z)
| CLRLCK (type inode sessionid : Z)
| FLCKINODE (type inode : Z)
| RMPLOCK (type owner sessionid inode reqid : Z).

Definition kFlock : Z := 0.
Definition kPosix : Z := 1.
Definition kAll : Z := 2.

(** The part of the metadata that the lock operations use. *)
Record Metadata : Type := mk_metadata {
  flockLocks : FileLocks.t;
  posixLocks : FileLocks.t;
  metadataVersion : Z;
  changelog : list (Z * log_entry);
}.

Definition set_flock (l : FileLocks.t) (m : Metadata) : Metadata :=
  mk_metadata l (posixLocks m) (metadataVersion m) (changelog m).
Definition set_posix (l : FileLocks.t) (m : Metadata) : Metadata :=
  mk_metadata (flockLocks m) l (metadataVersion m) (changelog m).

(** [changeLog] on the master, [metadataVersion++] elsewhere. *)
Definition log (master : bool) (e : log_entry) (m : Metadata) : Metadata :=
  mk_metadata (flockLocks m) (posixLocks m) (u64 (metadataVersion m + 1))
    (if master then changelog m ++ [(metadataVersion m, e)] else changelog m).

(** Candidates that can be applied now; the others go back to the queue. *)
Fixpoint apply_candidates (inode : Z) (queue : list LockRange.t) (s : FileLocks.t) (applied : list Owner) :
    res (FileLocks.t * list Owner) :=
  match queue with
  | [] => Ok (s, applied)
  | candidate :: queue' =>
      '(s, b) ← apply inode candidate false s;
      apply_candidates inode queue' s (if (b : bool) then applied ++ owners candidate else applied)
  end.

Definition manageLockTryLockPending (inode start_ end__ : Z) (s : FileLocks.t) (applied : list Owner) :
    res (FileLocks.t * list Owner) :=
  '(s, queue) ← gatherCandidates inode start_ end__ s;
  apply_candidates inode queue s applied.

(** The [switch] on the operation: the new locks, the range to look at afterwards and
    whether the operation succeeded; nothing for an unknown operation. *)
Definition lock_switch (inode start_ end__ : Z) (o : Owner) (oper : Z) (nonblocking : bool) (s : FileLocks.t) :
    res (option (FileLocks.t * Z * Z * bool)) :=
  if oper =? opShared then
    '(s, success) ← sharedLock inode start_ end__ o nonblocking s; Ok (Some (s, start_, end__, success))
  else if oper =? opExclusive then
    '(s, success) ← exclusiveLock inode start_ end__ o nonblocking s; Ok (Some (s, start_, end__, success))
  else if oper =? opRelease then
    s ← removePending inode
          (fun lock => lo ← the_owner lock; Ok ((sessionid lo =? sessionid o) && (owner lo =? owner o))) s;
    '(s, success) ← unlock inode 0 (2 ^ 64 - 1) o s; Ok (Some (s, 0, 2 ^ 64 - 1, success))
  else if oper =? opUnlock then
    '(s, success) ← unlock inode start_ end__ o s; Ok (Some (s, start_, end__, success))
  else Ok None.

(** [permission] is the answer of [checkLockPermissions]. *)
Definition lockOperation (permission : Z) (inode start_ end__ owner_ sessionid_ reqid_ msgid_ oper : Z)
    (nonblocking : bool) (s : FileLocks.t) : res (FileLocks.t * Z * list Owner) :=
  if negb (permission =? STATUS_OK) then Ok (s, permission, [])
  else
    r ← lock_switch inode start_ end__ (mk_owner owner_ sessionid_ reqid_ msgid_) oper nonblocking s;
    match r with
    | None => Ok (s, ERROR_EINVAL, [])
    | Some (s, start_, end__, success) =>
        let status := if (success : bool) then STATUS_OK else ERROR_WAITING in
        if oper =? opExclusive then Ok (s, status, [])
        else
          '(s, queue) ← gatherCandidates inode start_ end__ s;
          '(s, applied) ← apply_candidates inode queue s [];
          Ok (s, status, applied)
    end.

Definition flockOperation (master : bool) (permission inode owner_ sessionid_ reqid_ msgid_ oper : Z)
    (nonblocking : bool) (m : Metadata) : res (Metadata * Z * list Owner) :=
  '(s, status, applied) ←
    lockOperation permission inode 0 1 owner_ sessionid_ reqid_ msgid_ oper nonblocking (flockLocks m);
  Ok (log master (FLCK kFlock inode 0 1 owner_ sessionid_ oper) (set_flock s m), status, applied).

Definition posixLockOperation (master : bool) (permission inode start_ end__ owner_ sessionid_ reqid_ msgid_ oper : Z)
    (nonblocking : bool) (m : Metadata) : res (Metadata * Z * list Owner) :=
  '(s, status, applied) ←
    lockOperation permission inode start_ end__ owner_ sessionid_ reqid_ msgid_ oper nonblocking (posixLocks m);
  Ok (log master (FLCK kPosix inode start_ end__ owner_ sessionid_ oper) (set_posix s m), status, applied).

Definition locks_of (type : Z) (m : Metadata) : FileLocks.t := if type =? kFlock then flockLocks m else posixLocks m.
Definition set_locks (type : Z) (s : FileLocks.t) (m : Metadata) : Metadata :=
  if type =? kFlock then set_flock s m else set_posix s m.

Definition locksClearSession (master : bool) (type inode sessionid_ : Z) (m : Metadata) :
    res (Metadata * Z * list Owner) :=
  if negb (type =? kFlock) && negb (type =? kPosix) then Ok (m, ERROR_EINVAL, [])
  else
    s ← removePending inode (fun lock => lo ← the_owner lock; Ok (sessionid lo =? sessionid_)) (locks_of type m);
    let '(s, (first, second)) := unlock_pred inode (fun o => sessionid o =? sessionid_) s in
    '(s, applied) ←
      (if first <? second then
         '(s, queue) ← gatherCandidates inode first second s; Ok (s, mjoin (owners <$> queue))
       else Ok (s, []));
    Ok (log master (CLRLCK type inode sessionid_) (set_locks type s m), STATUS_OK, applied).

Definition locksUnlockInode (master : bool) (type inode : Z) (m : Metadata) : res (Metadata * Z * list Owner) :=
  if type =? kFlock then
    '(s, applied) ← manageLockTryLockPending inode 0 1 (unlock_inode inode (flockLocks m)) [];
    Ok (log master (FLCKINODE type inode) (set_flock s m), STATUS_OK, applied)
  else if type =? kPosix then
    '(s, applied) ← manageLockTryLockPending inode 0 (2 ^ 64 - 1) (unlock_inode inode (posixLocks m)) [];
    Ok (log master (FLCKINODE type inode) (set_posix s m), STATUS_OK, applied)
  else Ok (m, ERROR_EINVAL, []).

Definition locksRemovePending (master : bool) (type ownerid sessionid_ inode reqid_ : Z) (m : Metadata) :
    res (Metadata * Z) :=
  if negb (type =? kFlock) && negb (type =? kPosix) then Ok (m, ERROR_EINVAL)
  else
    s ← removePending inode
          (fun range => o ← the_owner range;
             Ok ((owner o =? ownerid) && (sessionid o =? sessionid_) && (reqid o =? reqid_))) (locks_of type m);
    Ok (log master (RMPLOCK type ownerid sessionid_ inode reqid_) (set_locks type s m), STATUS_OK).

(** The listing operations; [order] lists the entries of a map in the order of its
    iteration. *)
Definition locksListAll (order : ∀ A, gmap Z A → list (Z * A)) (type : Z) (pending : bool) (start_ max : Z)
    (m : Metadata) : res (Z * list Info) :=
  if negb (type =? kFlock) && negb (type =? kPosix) then Ok (ERROR_EINVAL, [])
  else
    out ← copyToVector (if pending then order _ (pending_locks_ (locks_of type m))
                        else order _ (active_locks_ (locks_of type m))) (wraps 64 start_) (wraps 64 max);
    Ok (STATUS_OK, out).

Definition locksListInode (type : Z) (pending : bool) (inode start_ max : Z) (m : Metadata) : res (Z * list Info) :=
  if negb (type =? kFlock) && negb (type =? kPosix) then Ok (ERROR_EINVAL, [])
  else
    out ← match (if pending then getPendingLocks else getActiveLocks) inode (locks_of type m) with
          | None => Ok []
          | Some locks => copyInodeToVector locks inode (wraps 64 start_) (wraps 64 max)
          end;
    Ok (STATUS_OK, out).

(** [l_type], [l_start] and [l_len] of the answer. *)
Record FlockWrapper : Type := mk_flock { l_type : Z; l_start : Z; l_len : Z; l_pid : Z }.

Definition posixLockProbe (permission inode start_ end__ owner_ sessionid_ reqid_ msgid_ oper : Z)
    (info : FlockWrapper) (m : Metadata) : res (Z * FlockWrapper) :=
  if negb (oper =? opShared) && negb (oper =? opExclusive) && negb (oper =? opUnlock)
  then Ok (ERROR_EINVAL, info)
  else if negb (permission =? STATUS_OK) then Ok (permission, info)
  else
    collision ← findCollision inode (type_of_code oper) start_ end__
                  (mk_owner owner_ sessionid_ reqid_ msgid_) (posixLocks m);
    match collision with
    | None => Ok (STATUS_OK, mk_flock opUnlock (l_start info) (l_len info) (l_pid info))
    | Some c =>
        Ok (ERROR_WAITING,
            mk_flock (type_code (type c)) (wraps 64 (start c))
              (Z.min (u64 (end_ c - start c)) (2 ^ 63 - 1)) (l_pid info))
    end.

(** The transaction of a key-value back end: [None] without one, otherwise whether the
    commit succeeds. *)
Definition commit_failed (commit : option bool) : bool :=
  match commit with Some b => negb b | None => false end.

(** *** Replay of the change log (src/master/restore.cc)

    [permission] is the answer of [checkLockPermissions] on the replaying server. *)
Definition do_lock_op (commit : option bool) (permission type inode start_ end__ owner_ sessionid_ oper : Z)
    (m : Metadata) : res (Metadata * Z) :=
  if negb (type =? kFlock) && negb (type =? kPosix) then Ok (m, ERROR_EINVAL)
  else
    '(m, status, _) ←
      (if type =? kFlock then flockOperation false permission inode owner_ sessionid_ 0 0 oper false m
       else posixLockOperation false permission inode start_ end__ owner_ sessionid_ 0 0 oper false m);
    let status :=
      if ((status =? STATUS_OK) || (status =? ERROR_WAITING)) && commit_failed commit then ERROR_IO else status in
    Ok (m, if status =? ERROR_WAITING then STATUS_OK else status).

Definition committed (commit : option bool) (status : Z) : Z :=
  if (status =? STATUS_OK) && commit_failed commit then ERROR_IO else status.

Definition do_remove_pending_op (commit : option bool) (type ownerid sessionid_ inode reqid_ : Z) (m : Metadata) :
    res (Metadata * Z) :=
  '(m, status) ← locksRemovePending false type ownerid sessionid_ inode reqid_ m;
  Ok (m, committed commit status).

Definition do_lock_clear_session (commit : option bool) (type inode sessionid_ : Z) (m : Metadata) : res (Metadata * Z) :=
  '(m, status, _) ← locksClearSession false type inode sessionid_ m;
  Ok (m, committed commit status).

Definition do_lock_unlock_inode (commit : option bool) (type inode : Z) (m : Metadata) : res (Metadata * Z) :=
  '(m, status, _) ← locksUnlockInode false type inode m;
  Ok (m, committed commit status).

Definition replay (commit : option bool) (permission : Z) (e : log_entry) (m : Metadata) : res (Metadata * Z) :=
  match e with
  | FLCK type inode start_ end__ owner_ sessionid_ oper =>
      do_lock_op commit permission type inode start_ end__ owner_ sessionid_ oper m
  | CLRLCK type inode sessionid_ => do_lock_clear_session commit type inode sessionid_ m
  | FLCKINODE type inode => do_lock_unlock_inode commit type inode m
  | RMPLOCK type owner_ sessionid_ inode reqid_ => do_remove_pending_op commit type owner_ sessionid_ inode reqid_ m
  end.
End LockOperations.

(** ** Packet handlers (src/master/matoclserv.cc) *)
Module LockHandlers.
Import FileLocks LockOperations.

(** Packets to a session. *)
Inductive packet : Type :=
| fuseFlock (messageId status : Z)
| fuseSetlk (messageId status : Z)
| fuseGetlk_info (messageId : Z) (info : FlockWrapper)
| fuseGetlk_status (messageId status : Z).

(** [connected] tells whether [matoclserv_find_connection] finds the session. *)
Definition lock_wake_up (connected : Z → bool) (type : Z) (o : Owner) : list (Z * packet) :=
  if negb (connected (sessionid o)) then []
  else if type =? kFlock then [(sessionid o, fuseFlock (msgid o) STATUS_OK)]
  else if type =? kPosix then [(sessionid o, fuseSetlk (msgid o) STATUS_OK)]
  else [].

Definition lock_wake_up_all (connected : Z → bool) (os : list Owner) (type : Z) : list (Z * packet) :=
  mjoin (lock_wake_up connected type <$> os).

(** What follows the operation in the two lock handlers. *)
Definition finish (connected : Z → bool) (commit : option bool) (session type op status : Z) (nonblocking : bool)
    (reply : Z → packet) (applied : list Owner) : list (Z * packet) :=
  let failed := ((status =? STATUS_OK) || (status =? ERROR_WAITING)) && commit_failed commit in
  let status := if failed then ERROR_IO else status in
  let applied := if failed then [] else applied in
  lock_wake_up_all connected applied type ++
  (if op =? opRelease then []
   else if nonblocking || negb (status =? ERROR_WAITING) then [(session, reply status)] else []).

Definition fuse_flock (connected : Z → bool) (commit : option bool) (permission session version : Z)
    (messageId inode owner_ requestId op : Z) (m : Metadata) : res (Metadata * list (Z * packet)) :=
  if negb (version =? 0) then Ok (m, [])
  else
    let nonblocking := negb (Z.land op opNonblock =? 0) in
    let op := if nonblocking then Z.ldiff op opNonblock else op in
    '(m, status, applied) ←
      flockOperation true permission inode owner_ session requestId messageId op nonblocking m;
    Ok (m, finish connected commit session kFlock op status nonblocking (fuseFlock messageId) applied).

(** The end of the range: a length of zero means up to the end of the file. *)
Definition lock_end (info : FlockWrapper) : Z :=
  if l_len info =? 0 then 2 ^ 64 - 1 else u64 (l_start info + l_len info).

Definition fuse_setlk (connected : Z → bool) (commit : option bool) (permission session : Z)
    (message_id inode owner_ request_id : Z) (lock_info : FlockWrapper) (m : Metadata) :
    res (Metadata * list (Z * packet)) :=
  if (l_start lock_info <? 0) || (l_len lock_info <? 0)
  then Ok (m, [(session, fuseSetlk message_id ERROR_EINVAL)])
  else
    let op := u16 (l_type lock_info) in
    let nonblocking := negb (Z.land op opNonblock =? 0) in
    let op := if nonblocking then Z.ldiff op opNonblock else op in
    '(m, status, applied) ←
      posixLockOperation true permission inode (l_start lock_info) (lock_end lock_info) owner_ session
        request_id message_id op nonblocking m;
    Ok (m, finish connected commit session kPosix op status nonblocking (fuseSetlk message_id) applied).

Definition fuse_getlk (permission session message_id inode owner_ : Z) (lock_info : FlockWrapper) (m : Metadata) :
    res (list (Z * packet)) :=
  if (l_start lock_info <? 0) || (l_len lock_info <? 0)
  then Ok [(session, fuseGetlk_status message_id ERROR_EINVAL)]
  else
    '(status, info) ←
      posixLockProbe permission inode (l_start lock_info) (lock_end lock_info) owner_ session 0 message_id
        (u16 (l_type lock_info)) lock_info m;
    let info := if l_len info =? 2 ^ 63 - 1 then mk_flock (l_type info) (l_start info) 0 (l_pid info) else info in
    Ok [(session, if (status =? ERROR_WAITING) || (status =? STATUS_OK)
                  then fuseGetlk_info message_id info else fuseGetlk_status message_id status)].

(** [matocl_locks_release]: the session of a client is closed. *)
Definition locks_release (master : bool) (connected : Z → bool) (inode sessionId : Z) (m : Metadata) :
    res (Metadata * list (Z * packet)) :=
  '(m, _, applied) ← locksClearSession master kFlock inode sessionId m;
  let out := lock_wake_up_all connected applied kFlock in
  '(m, _, applied) ← locksClearSession master kPosix inode sessionId m;
  Ok (m, out ++ lock_wake_up_all connected applied kPosix).

Definition fuse_locks_interrupt (version type session : Z) (owner_ ino reqid_ : Z) (m : Metadata) : res Metadata :=
  if negb (version =? 0) then Ok m
  else '(m, _) ← locksRemovePending true type owner_ session ino reqid_ m; Ok m.
End LockHandlers.
