(* ===== verification/FileLockFacts.v ===== *)
(** * Correctness of the file locks

    Theorems on [FileLocks], on the lock operations and on their replay from the
    change log: the invariant of the two maps and its preservation by every operation,
    what is granted and reported, listing and storing, and the cases where the code
    falls short of its documentation. *)

From S2P Require Import Prelude FlatContainers LockRanges FileLocks.
Import LockRange FileLocks LockOperations LockHandlers.

(** ** The invariant *)

(** The lock at byte [x] of [inode]. *)
Definition ranges_of (s : FileLocks.t) (inode : Z) : LockRanges.t := default [] (active_locks_ s !! key inode).
Definition queue_of (s : FileLocks.t) (inode : Z) : list LockRange.t := default [] (pending_locks_ s !! key inode).
Definition held (s : FileLocks.t) (inode x : Z) : cell := at_ (ranges_of s inode) x.

(** A lock that waits: a request for a lock. *)
Definition waiting (lock : LockRange.t) : Prop :=
  ∃ t o, request t o lock ∧ t ≠ kUnlock ∧ start lock < end_ lock.

Definition not_later (a b : LockRange.t) : Prop := LockRange.ltb b a = false.

Record queue_wf (q : list LockRange.t) : Prop := {
  qw_all : Forall waiting q;
  qw_sorted : StronglySorted not_later q;
}.

Record locks_wf (s : FileLocks.t) : Prop := {
  lw_active : ∀ k l, active_locks_ s !! k = Some l → ranges_wf l;
  lw_pending : ∀ k q, pending_locks_ s !! k = Some q → queue_wf q;
}.

Lemma ltb_true a b : LockRange.ltb a b = true ↔ start a < start b ∨ (start a = start b ∧ end_ a < end_ b).
Proof. unfold LockRange.ltb. by rewrite orb_true_iff, andb_true_iff, !Z.ltb_lt, Z.eqb_eq. Qed.

Lemma not_later_iff a b : not_later a b ↔ start a < start b ∨ (start a = start b ∧ end_ a <= end_ b).
Proof.
  unfold not_later. rewrite <- not_true_iff_false, ltb_true. lia.
Qed.

Lemma ranges_of_wf s inode : locks_wf s → ranges_wf (ranges_of s inode).
Proof.
  intros [Ha _]. unfold ranges_of. destruct (_ !! _) as [l|] eqn:E; simpl; [by eapply Ha|apply ranges_wf_nil].
Qed.

Lemma queue_wf_nil : queue_wf [].
Proof. split; constructor. Qed.

Lemma queue_of_wf s inode : locks_wf s → queue_wf (queue_of s inode).
Proof.
  intros [_ Hp]. unfold queue_of. destruct (_ !! _) as [q|] eqn:E; simpl; [by eapply Hp|apply queue_wf_nil].
Qed.

Lemma locks_wf_active s k l :
  locks_wf s → ranges_wf l → locks_wf (set_active (<[k := l]> (active_locks_ s)) s).
Proof.
  intros [Ha Hp] Hl. split; [|done]. simpl. intros k' l'. destruct (decide (k = k')) as [->|].
  - rewrite lookup_insert_eq. by intros [= <-].
  - rewrite lookup_insert_ne by done. apply Ha.
Qed.

Lemma locks_wf_pending s k q :
  locks_wf s → queue_wf q → locks_wf (set_pending (<[k := q]> (pending_locks_ s)) s).
Proof.
  intros [Ha Hp] Hq. split; [done|]. simpl. intros k' q'. destruct (decide (k = k')) as [->|].
  - rewrite lookup_insert_eq. by intros [= <-].
  - rewrite lookup_insert_ne by done. apply Hp.
Qed.

Lemma locks_wf_delete s k : locks_wf s → locks_wf (set_active (delete k (active_locks_ s)) s).
Proof. intros [Ha Hp]. split; [|done]. simpl. intros k' l' [_ H]%lookup_delete_Some. by eapply Ha. Qed.

Lemma ranges_of_insert s k l inode :
  ranges_of (set_active (<[k := l]> (active_locks_ s)) s) inode = if decide (k = key inode) then l else ranges_of s inode.
Proof.
  unfold ranges_of. simpl. case_decide as E; [subst; by rewrite lookup_insert_eq|by rewrite lookup_insert_ne].
Qed.

Lemma ranges_of_delete s k inode :
  ranges_of (set_active (delete k (active_locks_ s)) s) inode = if decide (k = key inode) then [] else ranges_of s inode.
Proof.
  unfold ranges_of. simpl. case_decide as E; [subst; by rewrite lookup_delete_eq|by rewrite lookup_delete_ne].
Qed.

(** ** The queue *)

Lemma StronglySorted_mid {A} (R : relation A) l1 x l2 :
  StronglySorted R (l1 ++ l2) → (∀ a, a ∈ l1 → R a x) → (∀ b, b ∈ l2 → R x b) → StronglySorted R (l1 ++ x :: l2).
Proof.
  intros (H1 & H2 & H3)%StronglySorted_app Ha Hb. apply StronglySorted_app. split_and!; [|done|].
  - intros a b Hin [->|Hb']%elem_of_cons; auto.
  - constructor; [done|by apply Forall_forall].
Qed.

Lemma queue_insert_wf lock q : queue_wf q → waiting lock → queue_wf (queue_insert lock q).
Proof.
  intros [Hall Hs] Hlock. unfold queue_insert, lower_bound.
  assert (partitioned (fun other => LockRange.ltb other lock) q) as Hpart.
  { apply (partitioned_sorted _ _ _ Hs). intros x y. rewrite not_later_iff, !ltb_true. lia. }
  rewrite bsearch_plen by done. set (p := fun other => LockRange.ltb other lock) in *.
  unfold vinsert. split.
  - rewrite <- (take_drop (plen p q) q) in Hall. apply Forall_app in Hall as [H1 H2].
    apply Forall_app. split; [done|by constructor].
  - apply StronglySorted_mid; [by rewrite take_drop|..].
    + intros a Ha. pose proof (proj1 (Forall_forall _ _) (plen_split p q) a Ha) as Hlt. unfold p in Hlt.
      rewrite ltb_true in Hlt. apply not_later_iff. lia.
    + intros b [i Hb]%list_elem_of_lookup. rewrite lookup_drop in Hb.
      assert (p b = false) as Hge by (eapply (plen_lookup_ge p q); [done|by apply Nat.le_add_r|done]).
      unfold p in Hge. apply not_true_iff_false in Hge. rewrite ltb_true in Hge. apply not_later_iff. lia.
Qed.

Lemma queue_insert_perm lock q : queue_insert lock q ≡ₚ lock :: q.
Proof.
  unfold queue_insert, vinsert. rewrite <- Permutation_middle. by rewrite take_drop.
Qed.

(** ** apply *)

(** Nothing changed for the other inodes. *)
Definition same_elsewhere (inode : Z) (s s' : FileLocks.t) : Prop :=
  ∀ inode', key inode' ≠ key inode → ranges_of s' inode' = ranges_of s inode' ∧ queue_of s' inode' = queue_of s inode'.

Lemma fits_spec t o lock l :
  ranges_wf l → request t o lock → start lock < end_ lock →
  ∃ b : bool, LockRanges.fits lock l = Ok b ∧ (b = true ↔ ∀ x, covers lock x = true → compat t o (at_ l x)).
Proof.
  intros Hl Hr Hne. destruct (findCollision_spec t o lock l Hl Hr Hne) as (c & Ec & Hiff & _).
  unfold LockRanges.fits. rewrite Ec. cbn [mbind res_bind]. eexists. split; [done|]. rewrite <- Hiff.
  by destruct c.
Qed.

Lemma apply_spec t o inode lock nonblocking s :
  locks_wf s → request t o lock → start lock < end_ lock →
  ∃ s' b, apply inode lock nonblocking s = Ok (s', b) ∧ locks_wf s' ∧ same_elsewhere inode s s' ∧
    (b = true ↔ ∀ x, covers lock x = true → compat t o (held s inode x)) ∧
    (if (b : bool) then
       (∀ x, held s' inode x = if covers lock x then effect t o (held s inode x) else held s inode x) ∧
       queue_of s' inode = queue_of s inode
     else
       (∀ x, held s' inode x = held s inode x) ∧
       queue_of s' inode = (if nonblocking then queue_of s inode else queue_insert lock (queue_of s inode))).
Proof.
  intros Hw Hr Hne. pose proof (ranges_of_wf s inode Hw) as Hrw. unfold apply. fold (ranges_of s inode).
  set (s1 := set_active (<[key inode := ranges_of s inode]> (active_locks_ s)) s).
  assert (locks_wf s1) as Hw1 by (by apply locks_wf_active).
  assert (∀ inode', ranges_of s1 inode' = ranges_of s inode') as Hs1.
  { intros inode'. unfold s1. rewrite ranges_of_insert. case_decide as E; [|done]. unfold ranges_of. by rewrite E. }
  destruct (fits_spec t o lock (ranges_of s inode) Hrw Hr Hne) as (b & -> & Hb). cbn [mbind res_bind].
  destruct b.
  - destruct (insert_spec t o lock (ranges_of s inode) Hrw Hr Hne (proj1 Hb eq_refl)) as (l' & -> & Hl' & Hat).
    cbn [mbind res_bind].
    set (s2 := set_active (<[key inode := l']> (active_locks_ s1)) s1).
    assert (locks_wf s2) as Hw2 by (by apply locks_wf_active).
    set (s3 := if Nat.eqb (length l') 0 then set_active (delete (key inode) (active_locks_ s2)) s2 else s2).
    assert (locks_wf s3) as Hw3 by (unfold s3; destruct (Nat.eqb _ _); [by apply locks_wf_delete|done]).
    assert (∀ inode', ranges_of s3 inode' = if decide (key inode = key inode') then l' else ranges_of s inode') as Hs3.
    { intros inode'. unfold s3. destruct (Nat.eqb_spec (length l') 0) as [E|E]; rewrite ?ranges_of_delete;
        unfold s2; rewrite ranges_of_insert, Hs1; case_decide; try done. by apply nil_length_inv in E as ->. }
    assert (∀ inode', queue_of s3 inode' = queue_of s inode') as Hq by (intros; unfold s3; by destruct (Nat.eqb _ _)).
    exists s3, true. split; [done|]. split; [done|]. split; [|split; [done|]].
    + intros inode' Hk. rewrite Hs3, Hq. by rewrite decide_False.
    + split; [|apply Hq]. intros x. unfold held. rewrite Hs3. rewrite decide_True by done. apply Hat.
  - set (s2 := if negb nonblocking && negb (unlocking lock) then enqueue inode lock s1 else s1).
    assert (b_false : ¬ (∀ x, covers lock x = true → compat t o (held s inode x))) by (intros H; by apply Hb in H).
    assert (unlocking lock = false ∧ waiting lock) as [Hu Hwait].
    { rewrite (request_unlocking t o lock Hr). destruct (decide (t = kUnlock)) as [->|Ht].
      - exfalso. apply b_false. intros x _. destruct (held s inode x) as [[? ?]|]; [by left|done].
      - split; [by apply bool_decide_eq_false_2|]. by exists t, o. }
    assert (s2 = if nonblocking then s1 else enqueue inode lock s1) as Es2 by (unfold s2; rewrite Hu; by destruct nonblocking).
    exists s2, false. split; [done|]. rewrite Es2. split; [|split; [|split; [done|split]]].
    + destruct nonblocking; [done|]. apply locks_wf_pending; [done|]. apply queue_insert_wf; [|done].
      by apply (queue_of_wf s1 inode).
    + intros inode' Hk. destruct nonblocking; [by rewrite Hs1|]. split; [apply Hs1|].
      unfold queue_of, enqueue. simpl. by rewrite lookup_insert_ne by done.
    + intros x. unfold held. destruct nonblocking; [by rewrite Hs1|]. f_equal. apply Hs1.
    + destruct nonblocking; [done|]. unfold queue_of, enqueue. simpl. by rewrite lookup_insert_eq.
Qed.

(** ** Owners that hold a lock *)

(** Owner [k] is one of the owners of byte [x], or its only owner, under an exclusive lock. *)
Definition owns (s : FileLocks.t) (inode : Z) (k : okey) (x : Z) : Prop := ∃ t ks, held s inode x = Some (t, ks) ∧ k ∈ ks.
Definition owns_alone (s : FileLocks.t) (inode : Z) (k : okey) (x : Z) : Prop := held s inode x = Some (kExclusive, {[k]}).

(** Owner [k] has got a lock of type [t] at byte [x]. *)
Definition has (t : Type_) (s : FileLocks.t) (inode : Z) (k : okey) (x : Z) : Prop :=
  owns s inode k x ∧ (t = kExclusive → owns_alone s inode k x).

Lemma effect_gives t o c : t ≠ kUnlock → (∃ t' ks, effect t o c = Some (t', ks) ∧ o ∈ ks) ∧ (t = kExclusive → effect t o c = Some (kExclusive, {[o]})).
Proof.
  intros Ht. unfold effect. destruct t, c as [[t' ks]|]; try done; (split; [do 2 eexists; (split; [done|]); set_solver|done]).
Qed.

(** Granting a lock takes nothing from the owners that hold one. *)
Lemma effect_keeps t o c k t' ks :
  t ≠ kUnlock → compat t o c → c = Some (t', ks) → k ∈ ks →
  ∃ t'' ks', effect t o c = Some (t'', ks') ∧ k ∈ ks'.
Proof.
  intros Ht Hc -> Hk. destruct t; try done.
  - destruct Hc as [?|[[? _]|Hks]]; try done. rewrite Hks in Hk. by exists kInvalid, {[o]}.
  - exists kShared, (ks ∪ {[o]}). split; [done|]. set_solver.
  - destruct Hc as [?|[[? _]|Hks]]; try done. rewrite Hks in Hk. by exists kExclusive, {[o]}.
Qed.

(** Only the owner of an exclusive lock itself can turn it into a shared one. *)
Lemma effect_keeps_alone t o c k :
  t = kUnlock ∨ t = kShared ∨ t = kExclusive → t ≠ kUnlock → compat t o c → c = Some (kExclusive, {[k]}) →
  effect t o c = Some (kExclusive, {[k]}) ∨ (t = kShared ∧ o = k).
Proof.
  intros Hty Ht Hc ->. destruct Hc as [?|[[_ ?]|Hks%singleton_inj]]; [done|done|]. subst o.
  destruct Hty as [?|[->| ->]]; [done|by right|by left].
Qed.

(** Owner [k] waits for a shared lock of byte [x]. *)
Definition shares (queue : list LockRange.t) (k : okey) (x : Z) : Prop :=
  ∃ lock o, lock ∈ queue ∧ owners lock = [o] ∧ key_of o = k ∧ type lock = kShared ∧ covers lock x = true.

(** What an owner that is woken for [lock] has at byte [x]: the lock, except that its own
    requests for a shared lock may have replaced an exclusive one. *)
Definition woken (queue : list LockRange.t) (s : FileLocks.t) (inode : Z) (k : okey) (t : Type_) (x : Z) : Prop :=
  owns s inode k x ∧ (t = kExclusive → owns_alone s inode k x ∨ shares queue k x).

(** ** Candidates *)

Definition owner_of (lock : LockRange.t) (o : Owner) : Prop := owners lock = [o].

Lemma waiting_owner lock : waiting lock → ∃ o, owner_of lock o ∧ request (type lock) (key_of o) lock ∧ type lock ≠ kUnlock.
Proof.
  intros (t & o & Hr & Ht & _). pose proof (rq_type _ _ _ Hr) as <-.
  destruct (rq_owner _ _ _ Hr) as (o' & Ho & <-). by exists o'.
Qed.

Lemma apply_candidates_spec inode queue : ∀ s applied,
  locks_wf s → Forall waiting queue →
  ∃ s' granted, apply_candidates inode queue s applied = Ok (s', applied ++ granted) ∧ locks_wf s' ∧
    same_elsewhere inode s s' ∧
    (∀ k x, owns s inode k x → owns s' inode k x) ∧
    (∀ k x, owns_alone s inode k x → owns_alone s' inode k x ∨ shares queue k x) ∧
    (∀ o, o ∈ granted → ∃ lock, lock ∈ queue ∧ owner_of lock o ∧ ∀ x, covers lock x = true → woken queue s' inode (key_of o) (type lock) x).
Proof.
  induction queue as [|c queue IH]; intros s applied Hw Hq.
  { exists s, []. rewrite app_nil_r. split_and!; try done; [by left|]. intros o Ho. by apply elem_of_nil in Ho. }
  apply Forall_cons in Hq as [Hc Hq]. pose proof Hc as (t & o & Hr & Ht & Hne).
  destruct (apply_spec t o inode c false s Hw Hr Hne) as (s1 & b & E & Hw1 & Hel & Hb & Heff). cbn [apply_candidates].
  rewrite E. cbn [mbind res_bind]. destruct (rq_owner _ _ _ Hr) as (o' & Ho & Hok).
  assert (∀ k x, owns s inode k x → owns s1 inode k x) as Hkeep.
  { intros k x (t' & ks & Eh & Hk). unfold owns. destruct b; destruct Heff as [Heff _]; rewrite Heff.
    - destruct (covers c x) eqn:Ec; [|by eauto]. eapply effect_keeps; [done|by apply Hb|done|done].
    - eauto. }
  assert (∀ k x, owns_alone s inode k x → owns_alone s1 inode k x ∨ shares (c :: queue) k x) as Halone.
  { intros k x Ha. unfold owns_alone in *. destruct b; destruct Heff as [Heff _]; rewrite Heff; [|by left].
    destruct (covers c x) eqn:Ec; [|by left].
    destruct (effect_keeps_alone t o (held s inode x) k (rq_valid _ _ _ Hr) Ht (proj1 Hb eq_refl x Ec) Ha) as [?|[Hsh Hk]]; [by left|right].
    exists c, o'. split; [by left|]. split; [done|]. split; [congruence|]. split; [by rewrite (rq_type _ _ _ Hr)|done]. }
  destruct (IH s1 (if b then applied ++ owners c else applied) Hw1 Hq) as (s' & granted & E' & Hw' & Hel' & Hk' & Ha' & Hg).
  assert (∀ k x, shares queue k x → shares (c :: queue) k x) as Hmore
    by (intros k x (lock & g & ? & ?); exists lock, g; split; [by right|done]).
  rewrite E'. exists s', (if b then o' :: granted else granted). split.
  { destruct b; [|done]. rewrite Ho, <- app_assoc. done. }
  split; [done|]. split.
  { intros inode' Hne'. destruct (Hel inode' Hne') as [H1 H2], (Hel' inode' Hne') as [H3 H4]. split; congruence. }
  split; [auto|]. split.
  { intros k x Ha. destruct (Halone k x Ha) as [Ha1|?]; [|by right]. destruct (Ha' k x Ha1); auto. }
  intros g Hin. assert (g ∈ granted ∨ (b = true ∧ g = o')) as [Hin'|[-> ->]].
  { destruct b; [apply elem_of_cons in Hin as [->|?]; auto|by left]. }
  - destruct (Hg g Hin') as (lock & ? & ? & Hwk). exists lock. split; [by right|]. split; [done|]. intros x Hx.
    destruct (Hwk x Hx) as [? Hex]. split; [done|]. intros Hty. destruct (Hex Hty); auto.
  - exists c. split; [by left|]. split; [done|]. intros x Hx. destruct Heff as [Heff _]. specialize (Heff x). rewrite Hx in Heff.
    destruct (effect_gives t o (held s inode x) Ht) as [Hgm Hga]. rewrite Hok. split.
    + apply Hk'. unfold owns. by rewrite Heff.
    + rewrite (rq_type _ _ _ Hr). intros Hty. assert (owns_alone s1 inode o x) as Hal by (unfold owns_alone; by rewrite Heff, Hga). destruct (Ha' o x Hal); auto.
Qed.

Lemma gather_spec inode a b s :
  locks_wf s → a < b →
  ∃ s' queue, gatherCandidates inode a b s = Ok (s', queue) ∧ locks_wf s' ∧ same_elsewhere inode s s' ∧
    ranges_of s' inode = ranges_of s inode ∧ Forall waiting queue ∧ queue_of s inode ≡ₚ queue ++ queue_of s' inode ∧
    (∀ lock, lock ∈ queue_of s' inode → start lock < a ∨ b < start lock).
Proof.
  intros Hw Hab. pose proof (queue_of_wf s inode Hw) as Hq. unfold gatherCandidates, queue_of in *.
  destruct (pending_locks_ s !! key inode) as [q|] eqn:E; simpl in Hq.
  2: { exists s, []. rewrite E. split_and!; try done. intros lock Hl. by apply elem_of_nil in Hl. }
  destruct Hq as [Hall Hs].
  set (p1 := fun lock => start lock <? a). set (p2 := fun lock => b <? start lock). unfold lower_bound, upper_bound.
  assert (partitioned p1 q) as Hp1.
  { apply (partitioned_sorted _ _ _ Hs). intros x y. unfold p1. rewrite not_later_iff, !Z.ltb_lt. lia. }
  assert (partitioned (fun x => negb (p2 x)) q) as Hp2.
  { apply (partitioned_sorted _ _ _ Hs). intros x y. unfold p2. rewrite not_later_iff, !negb_true_iff, !Z.ltb_ge. lia. }
  rewrite !bsearch_plen by done.
  assert (plen p1 q ≤ plen (fun x => negb (p2 x)) q)%nat as Hle.
  { apply plen_mono. intros x _. unfold p1, p2. rewrite Z.ltb_lt, negb_true_iff, Z.ltb_ge. lia. }
  set (last := plen (fun x => negb (p2 x)) q) in *.
  set (first := if Nat.eqb (plen p1 q) 0 then plen p1 q else (plen p1 q - 1)%nat).
  assert (first ≤ last)%nat as Hfl by (unfold first; destruct (Nat.eqb _ _); lia).
  rewrite (proj2 (Nat.ltb_ge last first)) by done. eexists _, _. split; [done|].
  assert (q = take first q ++ take (last - first) (drop first q) ++ drop last q) as Hd.
  { rewrite <- (take_drop first q) at 1. f_equal. rewrite <- (take_drop (last - first) (drop first q)) at 1. f_equal.
    rewrite drop_drop. f_equal. lia. }
  rewrite Hd in Hall. rewrite !Forall_app in Hall. destruct Hall as (H1 & H2 & H3).
  split; [|split; [|split; [done|split; [done|split]]]].
  - apply locks_wf_pending; [done|]. split; [by apply Forall_app|].
    rewrite Hd in Hs. apply StronglySorted_app in Hs as (Ha1 & Ha2 & Ha3).
    apply StronglySorted_app in Ha3 as (_ & _ & Hb3). apply StronglySorted_app. split_and!; [|done|done].
    intros x y Hx Hy. apply Ha1; [done|]. apply elem_of_app. by right.
  - intros inode' Hne. split; [done|]. unfold queue_of. simpl. by rewrite lookup_insert_ne.
  - simpl. rewrite lookup_insert_eq. simpl. rewrite Hd at 1. rewrite app_assoc, (Permutation_app_comm (take first q)).
    by rewrite <- app_assoc.
  - simpl. rewrite lookup_insert_eq. simpl. intros lock [[i Hi]%list_elem_of_lookup|[i Hi]%list_elem_of_lookup]%elem_of_app.
    + left. apply lookup_take_Some in Hi as [Hi Hlt]. assert (p1 lock = true) as Hp; [|unfold p1 in Hp; lia].
      assert (lock ∈ take (plen p1 q) q) as Hin; [|exact (proj1 (Forall_forall _ _) (plen_split p1 q) lock Hin)].
      apply (list_elem_of_lookup_2 _ i), lookup_take_Some. split; [done|]. unfold first in Hlt. destruct (Nat.eqb _ _); lia.
    + right. rewrite lookup_drop in Hi. assert (negb (p2 lock) = false) as Hp; [|unfold p2 in Hp; lia].
      eapply (plen_lookup_ge (fun x => negb (p2 x)) q); [done| |exact Hi]. unfold last. lia.
Qed.

Lemma remove_if_spec (pred : LockRange.t → res bool) q :
  queue_wf q → (∀ lock, lock ∈ q → ∃ b, pred lock = Ok b) →
  ∃ q', remove_if pred q = Ok q' ∧ queue_wf q' ∧ (∀ lock, lock ∈ q' ↔ lock ∈ q ∧ pred lock = Ok false).
Proof.
  induction q as [|c q IH]; intros [Hall Hs] Hp.
  { exists []. split; [done|]. split; [apply queue_wf_nil|]. set_solver. }
  apply Forall_cons in Hall as [Hc Hall]. apply StronglySorted_inv in Hs as [Hs Hf].
  destruct (IH ltac:(by split) ltac:(intros l Hl; apply Hp; by right)) as (q' & E & [Hall' Hs'] & Hin).
  destruct (Hp c ltac:(by left)) as [b Eb]. cbn [remove_if]. rewrite Eb. cbn [mbind res_bind]. rewrite E. cbn [mbind res_bind].
  eexists. split; [done|]. destruct b.
  - split; [done|]. intros lock. rewrite Hin, elem_of_cons. split; [tauto|].
    intros [[->|Hl] Hpl]; [congruence|done].
  - split.
    + split; [by constructor|]. constructor; [done|]. rewrite Forall_forall in Hf |- *. intros l Hl. apply Hf. by apply Hin.
    + intros lock. rewrite !elem_of_cons, Hin. split; [|tauto]. intros [->|[? ?]]; auto.
Qed.

Lemma removePending_spec inode pred s :
  locks_wf s → (∀ lock, waiting lock → ∃ b, pred lock = Ok b) →
  ∃ s', removePending inode pred s = Ok s' ∧ locks_wf s' ∧ same_elsewhere inode s s' ∧
    ranges_of s' inode = ranges_of s inode ∧
    (∀ lock, lock ∈ queue_of s' inode ↔ lock ∈ queue_of s inode ∧ pred lock = Ok false).
Proof.
  intros Hw Hp. pose proof (queue_of_wf s inode Hw) as Hq. unfold removePending, queue_of in *.
  destruct (pending_locks_ s !! key inode) as [q|] eqn:E; simpl in Hq.
  2: { exists s. rewrite E. split_and!; try done. simpl. set_solver. }
  destruct (remove_if_spec pred q Hq) as (q' & Eq & Hq' & Hin).
  { intros lock Hl. apply Hp. destruct Hq as [Hall _]. by apply (proj1 (Forall_forall _ _) Hall). }
  rewrite Eq. cbn [mbind res_bind]. eexists. split; [done|].
  assert (∀ k', (if Nat.eqb (length q') 0 then delete (key inode) (pending_locks_ s) else <[key inode:=q']> (pending_locks_ s)) !! k' =
    if decide (key inode = k') then (if Nat.eqb (length q') 0 then None else Some q') else pending_locks_ s !! k') as Hl.
  { intros k'. case_decide as Ek; destruct (Nat.eqb _ _);
      subst; rewrite ?lookup_delete_eq, ?lookup_delete_ne, ?lookup_insert_eq, ?lookup_insert_ne by done; done. }
  split; [|split; [|split; [done|]]].
  - destruct Hw as [Ha Hpd]. split; [done|]. simpl. intros k' q0. rewrite Hl. case_decide; [|apply Hpd].
    destruct (Nat.eqb _ _); [done|]. by intros [= <-].
  - intros inode' Hne. split; [done|]. unfold queue_of. simpl. rewrite Hl. by rewrite decide_False.
  - intros lock. simpl. rewrite Hl, decide_True by done. rewrite <- Hin.
    destruct (Nat.eqb_spec (length q') 0) as [E0|E0]; simpl; [by apply nil_length_inv in E0 as ->|done].
Qed.

(** ** Unlocking by a predicate on owners *)

(** What is left of a byte when the owners whose key satisfies [pk] are gone. *)
Definition without (pk : okey → bool) (c : cell) : cell :=
  match c with
  | None => None
  | Some (t, ks) =>
      let ks' := filter (fun k => pk k = false) ks in
      if decide (ks' = ∅) then None else Some (t, ks')
  end.

Section unlock_pred.
Context (pred : Owner → bool) (pk : okey → bool).
Hypothesis Hpk : ∀ o, pred o = pk (key_of o).

Definition kept (os : list Owner) : list Owner := List.filter (fun o => negb (pred o)) os.

Lemma kept_keyset os : keyset (kept os) = filter (fun k => pk k = false) (keyset os).
Proof using Hpk.
  apply set_eq. intros k. rewrite elem_of_filter. unfold keyset, keys, kept.
  rewrite !elem_of_list_to_set, !list_elem_of_fmap. split.
  - intros (o & -> & Ho). apply list_elem_of_In, List.filter_In in Ho as [Hin Hp].
    rewrite Hpk in Hp. apply negb_true_iff in Hp. split; [done|]. exists o. split; [done|]. by apply list_elem_of_In.
  - intros (Hk & o & -> & Ho). exists o. split; [done|]. apply list_elem_of_In, List.filter_In.
    split; [by apply list_elem_of_In|]. by rewrite Hpk, Hk.
Qed.

Lemma kept_wf os : owners_wf os → owners_wf (kept os).
Proof using.
  unfold owners_wf, ssorted, kept. induction 1 as [|o os Hs IH Hf]; simpl; [constructor|].
  destruct (negb (pred o)); [|done]. constructor; [done|]. rewrite Forall_forall in Hf |- *. intros x Hx.
  apply Hf. apply list_elem_of_In, List.filter_In in Hx as [Hx _]. by apply list_elem_of_In.
Qed.

Lemma kept_length os : (length (kept os) ≤ length os)%nat.
Proof using. apply List.filter_length_le. Qed.

Lemma kept_all os : length (kept os) = length os → kept os = os.
Proof using.
  unfold kept. induction os as [|o os IH]; simpl; [done|]. destruct (negb (pred o)); simpl.
  - intros [= E]. f_equal. by apply IH.
  - intros E. pose proof (List.filter_length_le (fun o => negb (pred o)) os). lia.
Qed.

(** The range without the owners that go. *)
Lemma kept_range r : range_wf r → kept (owners r) ≠ [] → range_wf (set_owners (kept (owners r)) r).
Proof using.
  intros Hr Hk. split; simpl; try apply Hr; [done|by apply kept_wf, Hr|].
  intros Ht%(rw_exclusive _ Hr). pose proof (kept_length (owners r)). destruct (kept (owners r)); [done|]. simpl in *. lia.
Qed.

Lemma unlock_ranges_spec l : ranges_wf l → ∀ a b,
  let '(l', a', b') := unlock_ranges pred l a b in
  ranges_wf l' ∧ (∀ r, r ∈ l' → ∃ r0, r0 ∈ l ∧ start r = start r0 ∧ end_ r = end_ r0) ∧
  (∀ x, at_ l' x = without pk (at_ l x)) ∧ a' <= a ∧ b <= b' ∧
  (∀ x, at_ l' x ≠ at_ l x → a' <= x < b').
Proof using Hpk.
  induction l as [|r l IH]; intros Hw a b.
  { simpl. split_and!; [done|set_solver|done|lia|lia|done]. }
  apply ranges_wf_cons in Hw as (Hr & Hw & Hbf). cbn [unlock_ranges]. fold (kept (owners r)).
  set (changed := negb (Nat.eqb (length (kept (owners r))) (length (owners r)))).
  set (a1 := if changed then Z.min a (start r) else a). set (b1 := if changed then Z.max b (end_ r) else b).
  specialize (IH Hw a1 b1). destruct (unlock_ranges pred l a1 b1) as [[l' a'] b'].
  destruct IH as (Hw' & Hsub & Hat & Ha & Hb & Hspan).
  assert (∀ x, covers r x = true → at_ l' x = None ∧ at_ l x = None) as Hnone.
  { intros x Hx. unfold covers in Hx. rewrite andb_true_iff, Z.leb_le, Z.ltb_lt in Hx.
    assert (at_ l x = None) as El by (apply at_None; intros r0 Hr0; specialize (Hbf r0 Hr0); lia).
    by rewrite Hat, El. }
  set (out := if Nat.eqb (length (kept (owners r))) 0 then l' else set_owners (kept (owners r)) r :: l').
  assert (∀ x, at_ out x = if covers r x
    then (if Nat.eqb (length (kept (owners r))) 0 then None else Some (type r, keyset (kept (owners r))))
    else at_ l' x) as Hout.
  { intros x. unfold out. destruct (Nat.eqb (length (kept (owners r))) 0).
    - destruct (covers r x) eqn:Ec; [|done]. by apply Hnone.
    - cbn [at_]. done. }
  split_and!.
  - unfold out. destruct (Nat.eqb_spec (length (kept (owners r))) 0) as [|Hk]; [done|].
    apply ranges_wf_cons. split; [apply kept_range; [done|by intros E; rewrite E in Hk]|]. split; [done|].
    intros c Hc. destruct (Hsub c Hc) as (c0 & Hc0 & -> & _). by apply Hbf.
  - intros c Hc. assert (c ∈ l' ∨ c = set_owners (kept (owners r)) r) as [Hc'| ->].
    { unfold out in Hc. destruct (Nat.eqb (length (kept (owners r))) 0); [by left|]. apply elem_of_cons in Hc as [->|?]; auto. }
    + destruct (Hsub c Hc') as (c0 & Hc0 & ?). exists c0. split; [by right|done].
    + exists r. split; [by left|done].
  - intros x. rewrite Hout. cbn [at_]. destruct (covers r x); [|apply Hat]. unfold without. rewrite <- kept_keyset.
    destruct (Nat.eqb_spec (length (kept (owners r))) 0) as [E|E].
    + apply nil_length_inv in E. rewrite E. by rewrite decide_True.
    + rewrite decide_False; [done|]. intros E0%keyset_empty. by rewrite E0 in E.
  - unfold a1 in Ha. destruct changed; lia.
  - unfold b1 in Hb. destruct changed; lia.
  - intros x Hx. rewrite Hout in Hx. cbn [at_] in Hx. destruct (covers r x) eqn:Ec.
    + unfold covers in Ec. rewrite andb_true_iff, Z.leb_le, Z.ltb_lt in Ec.
      assert (changed = true) as Ech; [|unfold a1, b1 in *; rewrite Ech in *; lia].
      unfold changed. destruct (Nat.eqb_spec (length (kept (owners r))) (length (owners r))) as [E|E]; [|done].
      exfalso. apply Hx. rewrite (kept_all _ E). pose proof (rw_owners _ Hr).
      by destruct (owners r).
    + apply Hspan in Hx. lia.
Qed.
End unlock_pred.

Lemma unlock_pred_spec inode pred pk s :
  locks_wf s → (∀ o, pred o = pk (key_of o)) →
  ∃ s' a b, unlock_pred inode pred s = (s', (a, b)) ∧ locks_wf s' ∧ same_elsewhere inode s s' ∧
    queue_of s' inode = queue_of s inode ∧
    (∀ x, held s' inode x = without pk (held s inode x)) ∧
    (∀ x, held s' inode x ≠ held s inode x → a <= x < b).
Proof.
  intros Hw Hpk. unfold unlock_pred, held, ranges_of.
  destruct (active_locks_ s !! key inode) as [l|] eqn:E.
  2: { eexists s, _, _. rewrite E. split_and!; done. }
  pose proof (lw_active _ Hw _ _ E) as Hl.
  pose proof (unlock_ranges_spec pred pk Hpk l Hl (2 ^ 64 - 1) 0) as Hspec.
  destruct (unlock_ranges pred l (2 ^ 64 - 1) 0) as [[l' a'] b']. destruct Hspec as (Hw' & _ & Hat & _ & _ & Hspan).
  eexists _, a', b'. split; [done|]. split; [by apply locks_wf_active|].
  split; [|split; [done|]].
  - intros inode' Hne. rewrite ranges_of_insert. by rewrite decide_False.
  - simpl. rewrite lookup_insert_eq. simpl. done.
Qed.

(** ** Lock operations *)

Lemma same_elsewhere_refl inode s : same_elsewhere inode s s.
Proof. by intros inode' _. Qed.

Lemma same_elsewhere_trans inode s1 s2 s3 :
  same_elsewhere inode s1 s2 → same_elsewhere inode s2 s3 → same_elsewhere inode s1 s3.
Proof. intros H1 H2 inode' Hne. destruct (H1 inode' Hne), (H2 inode' Hne). split; congruence. Qed.

Lemma request_make t a b o : t = kUnlock ∨ t = kShared ∨ t = kExclusive → request t (key_of o) (make t a b o).
Proof. intros Ht. split; [done|done|]. by exists o. Qed.

(** Each woken owner waited for a lock, in the queue of [s] or with the request [extra]. *)
Definition granted_from (s s' : FileLocks.t) (inode : Z) (extra : LockRange.t) (applied : list Owner) : Prop :=
  ∀ o, o ∈ applied → ∃ lock, (lock ∈ queue_of s inode ∨ lock = extra) ∧ owner_of lock o ∧
    ∀ x, covers lock x = true → woken (extra :: queue_of s inode) s' inode (key_of o) (type lock) x.

(** Gathering the candidates and applying those that fit. *)
Lemma try_pending_spec inode a b s :
  locks_wf s → a < b →
  ∃ s' applied, manageLockTryLockPending inode a b s [] = Ok (s', applied) ∧ locks_wf s' ∧ same_elsewhere inode s s' ∧
    (∀ k x, owns s inode k x → owns s' inode k x) ∧
    (∀ o, o ∈ applied → ∃ lock, lock ∈ queue_of s inode ∧ owner_of lock o ∧ ∀ x, covers lock x = true → woken (queue_of s inode) s' inode (key_of o) (type lock) x).
Proof.
  intros Hw Hab. unfold manageLockTryLockPending.
  destruct (gather_spec inode a b s Hw Hab) as (s1 & queue & -> & Hw1 & Hel1 & Hr1 & Hq & Hperm & _). cbn [mbind res_bind].
  destruct (apply_candidates_spec inode queue s1 [] Hw1 Hq) as (s2 & granted & -> & Hw2 & Hel2 & Hk & _ & Hg).
  assert (∀ lock, lock ∈ queue → lock ∈ queue_of s inode) as Hsub by (intros lock Hl; rewrite Hperm; apply elem_of_app; by left).
  exists s2, granted. split; [done|]. split; [done|]. split; [by eapply same_elsewhere_trans|]. split.
  - intros k x Hh. apply Hk. unfold owns, held. rewrite Hr1. by apply Hh.
  - intros o Ho. destruct (Hg o Ho) as (lock & Hin & Hown & Hwk). exists lock. split; [auto|]. split; [done|]. intros x Hx.
    destruct (Hwk x Hx) as [? Hex]. split; [done|]. intros Ht. destruct (Hex Ht) as [?|(l & g & ? & ?)]; [by left|right; exists l, g; auto].
Qed.

Lemma apply_outcome t o a b inode nonblocking s :
  locks_wf s → t = kUnlock ∨ t = kShared ∨ t = kExclusive → a < b →
  ∃ s' success, apply inode (make t a b o) nonblocking s = Ok (s', success) ∧ locks_wf s' ∧ same_elsewhere inode s s' ∧
    (success = true → t ≠ kUnlock → ∀ x, a <= x < b → has t s' inode (key_of o) x) ∧
    (∀ lock, lock ∈ queue_of s' inode → lock ∈ queue_of s inode ∨ (lock = make t a b o ∧ t ≠ kUnlock)).
Proof.
  intros Hw Ht Hab.
  destruct (apply_spec t (key_of o) inode (make t a b o) nonblocking s Hw (request_make t a b o Ht) Hab)
    as (s' & success & E & Hw' & Hel & Hb & Heff).
  exists s', success. split; [done|]. split; [done|]. split; [done|]. destruct success; destruct Heff as [Heff Hq]; split.
  - intros _ Hnu x Hx. assert (covers (make t a b o) x = true) as Hc by (unfold covers; cbn; lia). specialize (Heff x). rewrite Hc in Heff.
    destruct (effect_gives t (key_of o) (held s inode x) Hnu) as [Hm Ha]. split; [unfold owns; by rewrite Heff|]. intros Hex. unfold owns_alone. by rewrite Heff, Ha.
  - rewrite Hq. by left.
  - done.
  - rewrite Hq. intros lock. destruct nonblocking; [by left|]. rewrite queue_insert_perm.
    intros [->|?]%elem_of_cons; [right|by left]. split; [done|]. intros ->.
    assert (false = true) as ?; [|done]. apply Hb. intros x _. destruct (held s inode x) as [[? ?]|]; [by left|done].
Qed.

Lemma owner_pred_ok (f : Owner → bool) lock : waiting lock → ∃ b, (lo ← the_owner lock; Ok (f lo)) = Ok b.
Proof.
  intros (o & Ho & _)%waiting_owner. unfold the_owner. rewrite Ho. by exists (f o).
Qed.

(** The type of lock that an operation asks for. *)
Definition asks (oper : Z) : option Type_ := if oper =? opShared then Some kShared else if oper =? opExclusive then Some kExclusive else None.

Lemma lock_switch_spec inode a b o oper nonblocking s :
  locks_wf s → a < b →
  ∃ r, lock_switch inode a b o oper nonblocking s = Ok r ∧
    match r with
    | None => True
    | Some (s', a', b', success) =>
        a' < b' ∧ locks_wf s' ∧ same_elsewhere inode s s' ∧
        (success = true → ∀ t x, asks oper = Some t → a <= x < b → has t s' inode (key_of o) x) ∧
        (∀ lock, lock ∈ queue_of s' inode →
           lock ∈ queue_of s inode ∨ lock = make kShared a b o ∨ (lock = make kExclusive a b o ∧ oper = opExclusive))
    end.
Proof.
  intros Hw Hab. unfold lock_switch, sharedLock, exclusiveLock, unlock, asks.
  assert (∀ s, locks_wf s → ∀ a b, a < b → ∃ s' success,
    apply inode (make kUnlock a b o) false s = Ok (s', success) ∧ locks_wf s' ∧ same_elsewhere inode s s' ∧
    (∀ lock, lock ∈ queue_of s' inode → lock ∈ queue_of s inode)) as Hun.
  { intros s0 Hw0 a0 b0 Hab0. destruct (apply_outcome kUnlock o a0 b0 inode false s0 Hw0 ltac:(auto) Hab0)
      as (s' & success & E & Hw' & Hel & _ & Hq). exists s', success. split_and!; try done.
    intros lock [?|[_ ?]]%Hq; done. }
  destruct (Z.eqb_spec oper opShared) as [Es|Es].
  { destruct (apply_outcome kShared o a b inode nonblocking s Hw ltac:(auto) Hab) as (s' & success & -> & Hw' & Hel & Hh & Hq).
    eexists. split; [done|]. split_and!; try done; [by intros Hs t x [= <-]; apply Hh|]. intros lock [?|[? _]]%Hq; auto. }
  destruct (Z.eqb_spec oper opExclusive) as [Ee|Ee].
  { destruct (apply_outcome kExclusive o a b inode nonblocking s Hw ltac:(auto) Hab) as (s' & success & -> & Hw' & Hel & Hh & Hq).
    eexists. split; [done|]. split_and!; try done; [by intros Hs t x [= <-]; apply Hh|]. intros lock [?|[? _]]%Hq; auto. }
  destruct (Z.eqb_spec oper opRelease) as [Er|Er].
  { destruct (removePending_spec inode (fun lock => lo ← the_owner lock; Ok ((sessionid lo =? sessionid o) && (owner lo =? owner o))) s Hw)
      as (s1 & -> & Hw1 & Hel1 & _ & Hq1); [intros lock; apply owner_pred_ok|]. cbn [mbind res_bind].
    destruct (Hun s1 Hw1 0 (2 ^ 64 - 1) ltac:(lia)) as (s' & success & -> & Hw' & Hel & Hq).
    eexists. split; [done|]. split_and!; try done; [by eapply same_elsewhere_trans|].
    intros lock Hl%Hq. apply Hq1 in Hl as [? _]. by left. }
  destruct (Z.eqb_spec oper opUnlock) as [Eu|Eu]; [|by exists None].
  destruct (Hun s Hw a b Hab) as (s' & success & -> & Hw' & Hel & Hq).
  eexists. split; [done|]. split_and!; try done. intros lock Hl%Hq. by left.
Qed.

Lemma lockOperation_spec permission inode a b owner_ sessionid_ reqid_ msgid_ oper nonblocking s :
  locks_wf s → a < b →
  let o := mk_owner owner_ sessionid_ reqid_ msgid_ in
  ∃ s' status applied,
    lockOperation permission inode a b owner_ sessionid_ reqid_ msgid_ oper nonblocking s = Ok (s', status, applied) ∧
    locks_wf s' ∧ same_elsewhere inode s s' ∧
    (status = STATUS_OK → ∀ t x, asks oper = Some t → a <= x < b → has t s' inode (key_of o) x) ∧
    granted_from s s' inode (make kShared a b o) applied.
Proof.
  intros Hw Hab o. unfold lockOperation. fold o.
  assert (∀ s', granted_from s s' inode (make kShared a b o) []) as Hnil
    by (intros s' ? Ho; by apply elem_of_nil in Ho).
  destruct (Z.eqb_spec permission STATUS_OK) as [Hp|Hp]; cbn [negb]; [|by exists s, permission, []].
  destruct (lock_switch_spec inode a b o oper nonblocking s Hw Hab) as (r & E & Hr). rewrite E. cbn [mbind res_bind].
  destruct r as [[[[s1 a1] b1] success]|]; [|by exists s, ERROR_EINVAL, []].
  destruct Hr as (Hab1 & Hw1 & Hel1 & Hh1 & Hq1).
  destruct (Z.eqb_spec oper opExclusive) as [Ee|Ee].
  { exists s1, (if success then STATUS_OK else ERROR_WAITING), []. split_and!; try done. by destruct success; auto. }
  destruct (try_pending_spec inode a1 b1 s1 Hw1 Hab1) as (s2 & applied & E2 & Hw2 & Hel2 & Hk2 & Hg2).
  unfold manageLockTryLockPending in E2. destruct (gatherCandidates inode a1 b1 s1) as [[s1' queue]| | |]; try done.
  cbn [mbind res_bind] in E2 |- *. rewrite E2. cbn [mbind res_bind].
  assert (∀ lock, lock ∈ queue_of s1 inode → lock ∈ queue_of s inode ∨ lock = make kShared a b o) as Hsub
    by (intros lock Hl; destruct (Hq1 lock Hl) as [?|[?|[_ ?]]]; auto; done).
  exists s2, (if success then STATUS_OK else ERROR_WAITING), applied. split; [done|]. split; [done|].
  split; [by eapply same_elsewhere_trans|]. split.
  - destruct success; [|done]. intros _ t x Ht Hx. destruct (Hh1 eq_refl t x Ht Hx) as [Hown _]. split; [auto|].
    intros ->. unfold asks in Ht. rewrite (proj2 (Z.eqb_neq oper opExclusive) Ee) in Ht. by destruct (_ =? _).
  - intros g Hg. destruct (Hg2 g Hg) as (lock & Hin & Ho & Hh). exists lock. split; [auto|]. split; [done|]. intros x Hx.
    destruct (Hh x Hx) as [? Hex]. split; [done|]. intros Ht. destruct (Hex Ht) as [?|(l & g' & Hl & ?)]; [by left|right].
    exists l, g'. split; [|done]. apply elem_of_cons. destruct (Hsub l Hl); auto.
Qed.

(** ** Sequences of operations *)

Inductive lock_call : Type :=
| CallFlock (permission inode owner_ sessionid_ reqid_ msgid_ oper : Z) (nonblocking : bool)
| CallPosix (permission inode start_ end__ owner_ sessionid_ reqid_ msgid_ oper : Z) (nonblocking : bool)
| CallClear (type inode sessionid_ : Z)
| CallUnlockInode (type inode : Z)
| CallRemovePending (type owner_ sessionid_ inode reqid_ : Z).

Definition call (master : bool) (c : lock_call) (m : Metadata) : res (Metadata * Z) :=
  match c with
  | CallFlock p inode ow se re ms oper nb =>
      '(m, status, _) ← flockOperation master p inode ow se re ms oper nb m; Ok (m, status)
  | CallPosix p inode a b ow se re ms oper nb =>
      '(m, status, _) ← posixLockOperation master p inode a b ow se re ms oper nb m; Ok (m, status)
  | CallClear ty inode se => '(m, status, _) ← locksClearSession master ty inode se m; Ok (m, status)
  | CallUnlockInode ty inode => '(m, status, _) ← locksUnlockInode master ty inode m; Ok (m, status)
  | CallRemovePending ty ow se inode re => locksRemovePending master ty ow se inode re m
  end.

Fixpoint run (master : bool) (calls : list lock_call) (m : Metadata) : res Metadata :=
  match calls with
  | [] => Ok m
  | c :: calls' => '(m, _) ← call master c m; run master calls' m
  end.

(** The range of a POSIX lock is not empty; [setlk_range] shows that the handler of
    lock packets passes no other. *)
Definition admissible (c : lock_call) : Prop :=
  match c with CallPosix _ _ a b _ _ _ _ _ _ => a < b | _ => True end.

Definition empty_metadata : Metadata := mk_metadata FileLocks.empty FileLocks.empty 0 [].

Record metadata_wf (m : Metadata) : Prop := {
  mw_flock : locks_wf (flockLocks m);
  mw_posix : locks_wf (posixLocks m);
}.

Lemma setlk_range info :
  0 <= l_start info < 2 ^ 63 → 0 <= l_len info < 2 ^ 63 → l_start info < lock_end info.
Proof.
  intros Hs Hl. unfold lock_end. destruct (Z.eqb_spec (l_len info) 0); [lia|]. rewrite wrapu_small; lia.
Qed.

Lemma locks_of_wf m ty : metadata_wf m → locks_wf (locks_of ty m).
Proof. intros [? ?]. unfold locks_of. by destruct (_ =? _). Qed.

Lemma set_locks_wf m ty s : metadata_wf m → locks_wf s → metadata_wf (set_locks ty s m).
Proof. intros [? ?] ?. unfold set_locks. by destruct (_ =? _). Qed.

Lemma log_wf master e m : metadata_wf m → metadata_wf (log master e m).
Proof. by intros [? ?]. Qed.

Lemma locks_of_log master e ty s m : locks_of ty (log master e (set_locks ty s m)) = s.
Proof. unfold locks_of, set_locks. by destruct (ty =? kFlock) eqn:E. Qed.

Lemma locks_of_other master e ty ty' s m : (ty =? kFlock) ≠ (ty' =? kFlock) → locks_of ty' (log master e (set_locks ty s m)) = locks_of ty' m.
Proof. intros Hne. unfold locks_of, set_locks. by destruct (ty =? kFlock), (ty' =? kFlock). Qed.

(** What closing a session does: its locks go, nobody gets one, and the waiters of the other sessions
    whose range starts at a byte that was freed leave the queue and are reported. *)
Record cleared (ty inode sess : Z) (m m' : Metadata) (applied : list Owner) : Prop := {
  cl_held x : held (locks_of ty m') inode x = without (fun k => snd k =? sess) (held (locks_of ty m) inode x);
  cl_woken lock o : lock ∈ queue_of (locks_of ty m) inode → owner_of lock o → sessionid o ≠ sess →
    held (locks_of ty m') inode (start lock) ≠ held (locks_of ty m) inode (start lock) →
    o ∈ applied ∧ lock ∉ queue_of (locks_of ty m') inode;
  cl_other ty' : (ty =? kFlock) ≠ (ty' =? kFlock) → locks_of ty' m' = locks_of ty' m;
}.

Lemma clear_session_spec master ty inode sess m :
  metadata_wf m → ∃ m' status applied, locksClearSession master ty inode sess m = Ok (m', status, applied) ∧ metadata_wf m' ∧
    (ty = kFlock ∨ ty = kPosix → cleared ty inode sess m m' applied).
Proof.
  intros Hm. unfold locksClearSession. destruct (negb _ && negb _) eqn:Ety.
  { eexists _, _, _. split; [done|]. split; [done|]. intros [->| ->]; done. }
  destruct (removePending_spec inode (fun lock => lo ← the_owner lock; Ok (sessionid lo =? sess)) (locks_of ty m)
    (locks_of_wf m ty Hm)) as (s1 & -> & Hw1 & _ & Hr1 & Hq1); [intros lock; apply (owner_pred_ok (fun lo => sessionid lo =? sess))|].
  cbn [mbind res_bind].
  destruct (unlock_pred_spec inode (fun o => sessionid o =? sess) (fun k => snd k =? sess) s1 Hw1 ltac:(done))
    as (s2 & a & b & -> & Hw2 & _ & Hq2 & Hh2 & Hspan).
  assert (∀ x, held s1 inode x = held (locks_of ty m) inode x) as Hh1 by (intros x; unfold held; by rewrite Hr1).
  assert (∀ lock o, lock ∈ queue_of (locks_of ty m) inode → owner_of lock o → sessionid o ≠ sess → lock ∈ queue_of s2 inode) as Hstay.
  { intros lock o Hl Ho Hse. rewrite Hq2. apply Hq1. split; [done|]. unfold the_owner. rewrite Ho. cbn. by rewrite (proj2 (Z.eqb_neq _ _) Hse). }
  destruct (Z.ltb_spec a b) as [Hab|Hab].
  - destruct (gather_spec inode a b s2 Hw2 Hab) as (s3 & queue & -> & Hw3 & _ & Hr3 & _ & Hperm & Hout). cbn [mbind res_bind].
    assert (∀ x, held s3 inode x = held s2 inode x) as Hh3 by (intros x; unfold held; by rewrite Hr3).
    eexists _, _, _. split; [done|]. split; [by apply log_wf, set_locks_wf|]. intros _. split; [| |intros; by apply locks_of_other].
    + intros x. by rewrite locks_of_log, Hh3, Hh2, Hh1.
    + intros lock o Hl Ho Hse Hx. rewrite locks_of_log in Hx |- *. rewrite Hh3, <- Hh1 in Hx. specialize (Hspan _ Hx). pose proof (Hstay lock o Hl Ho Hse) as Hl2.
      assert (lock ∉ queue_of s3 inode) as Hno by (intros Hl3; specialize (Hout lock Hl3); lia). split; [|done].
      rewrite Hperm in Hl2. apply elem_of_app in Hl2 as [Hl2|?]; [|done]. apply list_elem_of_join. exists (owners lock). rewrite Ho. split; [by left|]. rewrite <- Ho. by apply list_elem_of_fmap_2.
  - cbn [mbind res_bind]. eexists _, _, _. split; [done|]. split; [by apply log_wf, set_locks_wf|]. intros _. split; [| |intros; by apply locks_of_other].
    + intros x. by rewrite locks_of_log, Hh2, Hh1.
    + intros lock o Hl Ho Hse Hx. rewrite locks_of_log, <- Hh1 in Hx. specialize (Hspan _ Hx). lia.
Qed.

Lemma unlock_inode_spec master ty inode m :
  metadata_wf m → ∃ m' status applied, locksUnlockInode master ty inode m = Ok (m', status, applied) ∧ metadata_wf m'.
Proof.
  intros Hm. pose proof Hm as [Hf Hp]. unfold locksUnlockInode, unlock_inode. destruct (ty =? kFlock); [|destruct (ty =? kPosix)].
  - destruct (try_pending_spec inode 0 1 _ (locks_wf_delete _ (key inode) Hf) ltac:(lia)) as (s' & applied & -> & Hw' & _).
    cbn [mbind res_bind]. eexists _, _, _. split; [done|]. by apply log_wf.
  - destruct (try_pending_spec inode 0 (2 ^ 64 - 1) _ (locks_wf_delete _ (key inode) Hp) ltac:(lia)) as (s' & applied & -> & Hw' & _).
    cbn [mbind res_bind]. eexists _, _, _. split; [done|]. by apply log_wf.
  - by eexists _, _, _.
Qed.

Lemma call_spec master c m :
  metadata_wf m → admissible c → ∃ m' status, call master c m = Ok (m', status) ∧ metadata_wf m'.
Proof.
  intros Hm Hadm. pose proof Hm as [Hf Hp].
  destruct c as [p inode ow se re ms oper nb|p inode a b ow se re ms oper nb|ty inode se|ty inode|ty ow se inode re];
    cbn [call]; unfold flockOperation, posixLockOperation.
  - destruct (lockOperation_spec p inode 0 1 ow se re ms oper nb (flockLocks m) Hf ltac:(lia))
      as (s' & status & applied & -> & Hw' & _). cbn [mbind res_bind]. eexists _, _. split; [done|]. by apply log_wf.
  - destruct (lockOperation_spec p inode a b ow se re ms oper nb (posixLocks m) Hp Hadm)
      as (s' & status & applied & -> & Hw' & _). cbn [mbind res_bind]. eexists _, _. split; [done|]. by apply log_wf.
  - destruct (clear_session_spec master ty inode se m Hm) as (m' & status & applied & -> & Hw' & _). by eexists _, _.
  - destruct (unlock_inode_spec master ty inode m Hm) as (m' & status & applied & -> & Hw'). by eexists _, _.
  - unfold locksRemovePending. destruct (negb _ && negb _); [by eexists _, _|].
    destruct (removePending_spec inode (fun range => o ← the_owner range;
      Ok ((owner o =? ow) && (sessionid o =? se) && (reqid o =? re))) (locks_of ty m) (locks_of_wf m ty Hm))
      as (s1 & -> & Hw1 & _);
      [intros lock; apply (owner_pred_ok (fun o => (owner o =? ow) && (sessionid o =? se) && (reqid o =? re)))|].
    cbn [mbind res_bind]. eexists _, _. split; [done|]. by apply log_wf, set_locks_wf.
Qed.

Lemma run_spec master calls : ∀ m,
  metadata_wf m → Forall admissible calls → ∃ m', run master calls m = Ok m' ∧ metadata_wf m'.
Proof.
  induction calls as [|c calls IH]; intros m Hm Hadm; [by exists m|]. apply Forall_cons in Hadm as [Hc Hadm].
  destruct (call_spec master c m Hm Hc) as (m1 & status & E & Hm1). cbn [run]. rewrite E. cbn [mbind res_bind]. by apply IH.
Qed.

Lemma held_exclusive s inode x t ks :
  locks_wf s → held s inode x = Some (t, ks) →
  ks ≠ ∅ ∧ (t = kShared ∨ t = kExclusive) ∧ (t = kExclusive → ∃ k, ks = {[k]}).
Proof.
  intros Hw Hh. apply at_Some in Hh as (r & Hr & _ & [= -> ->]).
  pose proof (proj1 (Forall_forall _ _) (rs_all _ (ranges_of_wf s inode Hw)) r Hr) as Hrw.
  split; [by apply keyset_nonempty, Hrw|]. split; [apply Hrw|].
  intros Ht. destruct (exclusive_single r Hrw Ht) as [o ->]. exists (key_of o). apply keyset_singleton.
Qed.

Lemma empty_metadata_wf : metadata_wf empty_metadata.
Proof. split; split; intros k l H; simpl in H; by rewrite lookup_empty in H. Qed.

(** C1: mutual exclusion.  From the empty state, every sequence of lock operations with
    nonempty ranges runs without a failed assertion or undefined behaviour, and at every
    moment a byte under an exclusive lock has exactly one owner and a byte under a
    shared lock at least one, for both kinds of locks and every inode. *)
Theorem locks_mutual_exclusion master calls :
  Forall admissible calls →
  ∃ m, run master calls empty_metadata = Ok m ∧ metadata_wf m ∧
    ∀ s inode x t ks, s = flockLocks m ∨ s = posixLocks m → held s inode x = Some (t, ks) →
      ks ≠ ∅ ∧ (t = kShared ∨ t = kExclusive) ∧ (t = kExclusive → ∃ k, ks = {[k]}).
Proof.
  intros Hadm. destruct (run_spec master calls empty_metadata empty_metadata_wf Hadm) as (m & E & Hm).
  exists m. split; [done|]. split; [done|]. intros s inode x t ks Hs Hh. pose proof Hm as [Hf Hp].
  apply (held_exclusive s inode x); [by destruct Hs as [->| ->]|done].
Qed.

(** Two owners share a range, a third waits for it and gets it. *)
Lemma locks_mutual_exclusion_witness :
  let calls := [CallPosix 0 7 0 100 1 1 0 0 opShared false; CallPosix 0 7 50 150 2 1 0 0 opShared false;
                CallPosix 0 7 60 70 3 1 0 0 opExclusive false; CallPosix 0 7 0 200 1 1 0 0 opUnlock false;
                CallPosix 0 7 50 80 2 1 0 0 opUnlock false] in
  ∃ m, run true calls empty_metadata = Ok m ∧ metadata_wf m ∧
    held (posixLocks m) 7 65 = Some (kExclusive, {[(3, 1)]}) ∧ held (posixLocks m) 7 90 = Some (kShared, {[(2, 1)]}).
Proof.
  intros calls. destruct (locks_mutual_exclusion true calls) as (m & E & Hm & _).
  { repeat (apply Forall_cons; split; [simpl; lia|]). constructor. }
  exists m. split; [exact E|]. split; [exact Hm|].
  assert (match run true calls empty_metadata with
    Ok m => held (posixLocks m) 7 65 = Some (kExclusive, {[(3, 1)]}) ∧ held (posixLocks m) 7 90 = Some (kShared, {[(2, 1)]})
    | _ => False end) as H by (vm_compute; split; reflexivity).
  rewrite E in H. exact H.
Defined.

(** a lock is granted exactly when it can be.  [FileLocks::apply] never fails an
    assertion; it answers true exactly when the request is compatible with the lock at
    each of its bytes, and then the active locks change at these bytes only; otherwise
    no active lock changes, and the request joins the queue in order unless it is
    nonblocking.  No other inode is touched and the invariant is kept. *)
Theorem apply_grants_exactly t o inode lock nonblocking s :
  locks_wf s → request t o lock → start lock < end_ lock →
  ∃ s' b, apply inode lock nonblocking s = Ok (s', b) ∧ locks_wf s' ∧ same_elsewhere inode s s' ∧
    (b = true ↔ ∀ x, covers lock x = true → compat t o (held s inode x)) ∧
    (if (b : bool) then
       (∀ x, held s' inode x = if covers lock x then effect t o (held s inode x) else held s inode x) ∧
       queue_of s' inode = queue_of s inode
     else
       (∀ x, held s' inode x = held s inode x) ∧
       queue_of s' inode = (if nonblocking then queue_of s inode else queue_insert lock (queue_of s inode))).
Proof. apply apply_spec. Qed.

Lemma locks_wf_empty : locks_wf FileLocks.empty.
Proof. apply (mw_flock _ empty_metadata_wf). Qed.

Lemma apply_grants_exactly_witness :
  let o := mk_owner 5 2 0 0 in
  ∃ s, apply 3 (make kExclusive 10 20 o) false FileLocks.empty = Ok (s, true) ∧ locks_wf s ∧
    held s 3 15 = Some (kExclusive, {[(5, 2)]}) ∧ held s 3 20 = None.
Proof.
  intros o.
  destruct (apply_grants_exactly kExclusive (5, 2) 3 (make kExclusive 10 20 o) false FileLocks.empty)
    as (s & b & E & Hw & _ & Hb & Heff).
  - apply locks_wf_empty.
  - apply (request_make kExclusive 10 20 o). auto.
  - done.
  - assert (b = true) as ->; [by apply Hb|]. exists s. split; [exact E|]. split; [exact Hw|].
    destruct Heff as [Heff _]. rewrite !Heff. split; vm_compute; reflexivity.
Defined.



(** ** Where the code falls short *)

(** Evaluate computations that are claimed to succeed. *)
Ltac res_compute :=
  cbv zeta;
  match goal with
  | |- ∃ m, _ = Ok m ∧ _ => apply res_computes; vm_compute; res_compute
  | |- _ => repeat split; try (vm_compute; reflexivity)
  end.

Definition grant_packet (ty : Z) (o : Owner) : Z * packet :=
  (sessionid o, if ty =? kFlock then fuseFlock (msgid o) STATUS_OK else fuseSetlk (msgid o) STATUS_OK).

Lemma wake_up_all_in connected ty o applied : ty = kFlock ∨ ty = kPosix → connected (sessionid o) = true → o ∈ applied → grant_packet ty o ∈ lock_wake_up_all connected applied ty.
Proof.
  intros Hty Hc Ho. unfold lock_wake_up_all. apply list_elem_of_join. exists (lock_wake_up connected ty o). split; [|by apply list_elem_of_fmap_2].
  unfold lock_wake_up, grant_packet. rewrite Hc. destruct Hty as [->| ->]; by left.
Qed.

Lemma without_session ow sess : without (fun k => snd k =? sess) (Some (kExclusive, {[(ow, sess)]})) = None.
Proof. unfold without. rewrite decide_True; [done|]. apply set_eq. intros k. rewrite elem_of_filter, elem_of_singleton. split; [|set_solver]. intros [Hk ->]. cbn in Hk. by rewrite Z.eqb_refl in Hk. Qed.

(** C39: closing a session wakes waiters that get nothing.  In any state that the operations reach, let a session hold an
    exclusive flock or POSIX lock at a byte, and let an owner of another, connected session wait for a lock whose
    range starts at this byte.  When the first session is closed, the waiter is sent the packet that says that it has the lock
    and its request leaves the queue, but nobody has a lock at this byte: [locksClearSession] takes the candidates
    from the queue and applies none.  So two waiters are both told that they have the exclusive lock. *)
Theorem clear_session_wakes_without_lock master connected inode sess m ty ow lock o :
  metadata_wf m → ty = kFlock ∨ ty = kPosix →
  held (locks_of ty m) inode (start lock) = Some (kExclusive, {[(ow, sess)]}) →
  lock ∈ queue_of (locks_of ty m) inode → owner_of lock o → sessionid o ≠ sess → connected (sessionid o) = true →
  ∃ m' out, locks_release master connected inode sess m = Ok (m', out) ∧ grant_packet ty o ∈ out ∧
    held (locks_of ty m') inode (start lock) = None ∧ lock ∉ queue_of (locks_of ty m') inode.
Proof.
  intros Hm Hty Hh Hl Ho Hse Hc. unfold locks_release.
  destruct (clear_session_spec master kFlock inode sess m Hm) as (m1 & st1 & ap1 & -> & Hm1 & C1). cbn [mbind res_bind]. specialize (C1 ltac:(auto)).
  destruct (clear_session_spec master kPosix inode sess m1 Hm1) as (m2 & st2 & ap2 & -> & Hm2 & C2). cbn [mbind res_bind]. specialize (C2 ltac:(auto)).
  eexists _, _. split; [done|]. destruct Hty as [->| ->].
  - assert (held (locks_of kFlock m1) inode (start lock) = None) as Hn by (rewrite (cl_held _ _ _ _ _ _ C1), Hh; apply without_session).
    destruct (cl_woken _ _ _ _ _ _ C1 lock o Hl Ho Hse) as [Hap Hq]; [by rewrite Hn, Hh|]. rewrite (cl_other _ _ _ _ _ _ C2 kFlock) by done.
    split; [|done]. apply elem_of_app. left. apply wake_up_all_in; auto.
  - pose proof (cl_other _ _ _ _ _ _ C1 kPosix ltac:(done)) as Eo. rewrite <- Eo in Hh, Hl.
    assert (held (locks_of kPosix m2) inode (start lock) = None) as Hn by (rewrite (cl_held _ _ _ _ _ _ C2), Hh; apply without_session).
    destruct (cl_woken _ _ _ _ _ _ C2 lock o Hl Ho Hse) as [Hap Hq]; [by rewrite Hn, Hh|]. split; [|done]. apply elem_of_app. right. apply wake_up_all_in; auto.
Qed.

(** Session 1 holds the lock of inode 7 and session 2 waits. *)
Lemma clear_session_wakes_without_lock_witness :
  ∃ m m' out, run true [CallFlock 0 7 1 1 0 11 opExclusive false; CallFlock 0 7 1 2 0 12 opExclusive false] empty_metadata = Ok m ∧
    locks_release true (fun _ => true) 7 1 m = Ok (m', out) ∧ (2, fuseFlock 12 STATUS_OK) ∈ out ∧ held (flockLocks m') 7 0 = None.
Proof.
  destruct (run_spec true [CallFlock 0 7 1 1 0 11 opExclusive false; CallFlock 0 7 1 2 0 12 opExclusive false] empty_metadata empty_metadata_wf) as (m & E & Hm).
  { repeat (apply Forall_cons; split; [done|]). constructor. }
  set (o := mk_owner 1 2 0 12).
  assert (held (locks_of kFlock m) 7 0 = Some (kExclusive, {[(1, 1)]}) ∧ queue_of (locks_of kFlock m) 7 = [make kExclusive 0 1 o]) as [Hh Hq].
  { assert (match run true [CallFlock 0 7 1 1 0 11 opExclusive false; CallFlock 0 7 1 2 0 12 opExclusive false] empty_metadata with
      Ok m => held (locks_of kFlock m) 7 0 = Some (kExclusive, {[(1, 1)]}) ∧ queue_of (locks_of kFlock m) 7 = [make kExclusive 0 1 o] | _ => False end) as H by (vm_compute; split; reflexivity).
    rewrite E in H. exact H. }
  destruct (clear_session_wakes_without_lock true (fun _ => true) 7 1 m kFlock 1 (make kExclusive 0 1 o) o Hm) as (m' & out & Er & Hp & Hn & _);
    [by left|exact Hh|rewrite Hq; by left|done|done|done|].
  exists m, m', out. split; [exact E|]. split; [exact Er|]. split; [exact Hp|exact Hn].
Defined.

(** [gatherCandidates] looks back by one pending lock only: owner 4 leaves [50, 60); the
    shared request of owner 1 for [0, 100) now fits, but it is neither granted nor
    reported, because a later pending lock also starts before 50. *)
Theorem candidates_missed :
  let lock := make kShared 0 100 (mk_owner 1 1 0 0) in
  ∃ m, run true [CallPosix 0 7 5 10 3 1 0 0 opShared false; CallPosix 0 7 50 60 4 1 0 0 opExclusive false;
                 CallPosix 0 7 0 100 1 1 0 0 opShared false; CallPosix 0 7 5 10 2 1 0 0 opExclusive false]
              empty_metadata = Ok m ∧
  ∃ r, lockOperation 0 7 50 60 4 1 0 0 opUnlock false (posixLocks m) = Ok r ∧
    snd r = [] ∧ overlaps (make kUnlock 50 60 (mk_owner 4 1 0 0)) lock = true ∧
    List.hd_error (queue_of (fst (fst r)) 7) = Some lock ∧
    LockRanges.fits lock (ranges_of (fst (fst r)) 7) = Ok true.
Proof. res_compute. Qed.

(** Replay of the whole change log. *)
Fixpoint replay_all (entries : list (Z * log_entry)) (m : Metadata) : res (Metadata * list Z) :=
  match entries with
  | [] => Ok (m, [])
  | (_, e) :: rest =>
      '(m, status) ← replay None STATUS_OK e m;
      '(m, statuses) ← replay_all rest m;
      Ok (m, status :: statuses)
  end.

(** The change log does not say that a request was nonblocking, and replay always
    queues: after a refused nonblocking request and the unlock, the master has no lock,
    but the replayed state has given it to the owner that was refused. *)
Theorem replay_grants_refused_lock :
  ∃ m, run true [CallFlock 0 7 1 1 0 0 opExclusive false; CallFlock 0 7 2 2 0 0 opExclusive true;
                 CallFlock 0 7 1 1 0 0 opUnlock false] empty_metadata = Ok m ∧
  ∃ r, replay_all (changelog m) empty_metadata = Ok r ∧
    metadataVersion (fst r) = metadataVersion m ∧
    held (flockLocks m) 7 0 = None ∧ held (flockLocks (fst r)) 7 0 = Some (kExclusive, {[(2, 2)]}).
Proof. res_compute. Qed.

(** Replay gives every owner the request id 0, so the replay of an interrupt finds no
    waiting lock to remove when the request id was another one. *)
Theorem replay_misses_interrupt :
  ∃ m, run true [CallFlock 0 7 1 1 5 0 opExclusive false; CallFlock 0 7 2 2 6 0 opExclusive false;
                 CallRemovePending kFlock 2 2 7 6] empty_metadata = Ok m ∧
  ∃ r, replay_all (changelog m) empty_metadata = Ok r ∧
    queue_of (flockLocks m) 7 = [] ∧ length (queue_of (flockLocks (fst r)) 7) = 1%nat.
Proof. res_compute. Qed.

(** A request that the master refuses with an error is logged as well, and its replay
    answers with an error. *)
Theorem replay_reports_logged_error :
  ∃ r, call true (CallFlock 0 7 1 1 0 0 3 false) empty_metadata = Ok r ∧
  ∃ r', replay_all (changelog (fst r)) empty_metadata = Ok r' ∧ snd r = ERROR_EINVAL ∧ snd r' = [ERROR_EINVAL].
Proof. res_compute. Qed.

(** [FileLocks::clear] leaves the pending locks. *)
Theorem clear_keeps_pending :
  ∃ m, run true [CallFlock 0 7 1 1 0 0 opExclusive false; CallFlock 0 7 2 2 0 0 opExclusive false] empty_metadata = Ok m ∧
    length (queue_of (clear (flockLocks m)) 7) = 1%nat.
Proof. res_compute. Qed.

(** With 64-bit inodes, two inodes that agree in the low 32 bits share their locks. *)
Theorem inodes_share_locks :
  ∃ r, exclusiveLock 7 0 1 (mk_owner 1 1 0 0) true FileLocks.empty = Ok r ∧
  ∃ r', exclusiveLock (7 + 2 ^ 32) 0 1 (mk_owner 2 2 0 0) true (fst r) = Ok r' ∧ snd r = true ∧ snd r' = false.
Proof. res_compute. Qed.

(** ** Listing *)

(** The records of the locks of an inode and of a whole map, one per owner. *)
Definition inode_infos (inode : Z) (locks : list LockRange.t) : list Info :=
  mjoin ((fun lock => info_of inode lock <$> owners lock) <$> locks).
Definition all_infos (entries : list (Z * list LockRange.t)) : list Info :=
  mjoin ((fun e => inode_infos (fst e) (snd e)) <$> entries).

Lemma copy_owners_spec inode lock os : ∀ count data,
  0 < count →
  copy_owners inode lock os count data =
    let l := info_of inode lock <$> os in
    if Z.of_nat (length l) <? count then inl (count - Z.of_nat (length l), data ++ l)
    else inr (data ++ take (Z.to_nat count) l).
Proof.
  induction os as [|o os IH]; intros count data Hc; cbv zeta; csimpl.
  { change (Z.of_nat 0) with 0. destruct (Z.ltb_spec 0 count); [|lia]. by rewrite Z.sub_0_r, app_nil_r. }
  destruct (Z.leb_spec (count - 1) 0) as [H1|H1].
  - rewrite (proj2 (Z.ltb_ge (Z.of_nat (S (length (info_of inode lock <$> os)))) count)) by lia.
    assert (count = 1) as -> by lia. done.
  - rewrite IH by lia. cbv zeta.
    destruct (Z.ltb_spec (Z.of_nat (length (info_of inode lock <$> os))) (count - 1)),
      (Z.ltb_spec (Z.of_nat (S (length (info_of inode lock <$> os)))) count); try lia; rewrite <- app_assoc.
    + do 2 f_equal. lia.
    + do 2 f_equal. replace (Z.to_nat count) with (S (Z.to_nat (count - 1))) by lia. done.
Qed.

(** The outcome of a copying loop over the records [l], of which [skip] are still to be
    passed over. *)
Definition copy_result (l : list Info) (index : Z) (st : Z * Z * list Info) (r : res ((Z * Z * list Info) + list Info)) : Prop :=
  let '(pos, count, data) := st in
  let skip := Z.to_nat (index - pos) in
  let out := drop skip l in
  if Z.of_nat (length out) <? count
  then ∃ pos', r = Ok (inl (pos', count - Z.of_nat (length out), data ++ out)) ∧
         Z.to_nat (index - pos') = (skip - length l)%nat ∧ 0 <= pos' <= index
  else r = Ok (inr (data ++ take (Z.to_nat count) out)).

Lemma copy_result_nil index st : 0 < snd (fst st) → 0 <= fst (fst st) <= index → copy_result [] index st (Ok (inl st)).
Proof.
  destruct st as [[pos count] data]. simpl. intros Hc Hpos. unfold copy_result. rewrite drop_nil.
  change (Z.of_nat (length ([] : list Info))) with 0. destruct (Z.ltb_spec 0 count); [|lia]. exists pos. rewrite Z.sub_0_r, app_nil_r. split; [done|]. split; lia.
Qed.

(** Two loops one after the other. *)
Lemma copy_result_app l1 l2 index st r f :
  0 < snd (fst st) → copy_result l1 index st r →
  (∀ st', 0 < snd (fst st') → 0 <= fst (fst st') <= index → copy_result l2 index st' (f st')) →
  copy_result (l1 ++ l2) index st (x ← r; match x with inl st' => f st' | inr data => Ok (inr data) end).
Proof.
  destruct st as [[pos count] data]. simpl. intros Hc H1 H2. unfold copy_result in *.
  rewrite drop_app, length_app. destruct (Z.ltb_spec (Z.of_nat (length (drop (Z.to_nat (index - pos)) l1))) count) as [Hlt|Hge].
  - destruct H1 as (pos' & -> & Hp & Hpos). cbn [mbind res_bind]. specialize (H2 (pos', count - Z.of_nat (length (drop (Z.to_nat (index - pos)) l1)),
      data ++ drop (Z.to_nat (index - pos)) l1) ltac:(simpl; lia) Hpos). simpl in H2. rewrite Hp in H2.
    set (o1 := drop (Z.to_nat (index - pos)) l1) in *. set (o2 := drop (Z.to_nat (index - pos) - length l1) l2) in *.
    destruct (Z.ltb_spec (Z.of_nat (length o2)) (count - Z.of_nat (length o1))) as [Hlt2|Hge2].
    + rewrite (proj2 (Z.ltb_lt _ _)) by lia. destruct H2 as (pos2 & -> & Hp2 & Hpos2). exists pos2.
      rewrite length_app, <- app_assoc. split; [do 3 f_equal; f_equal; lia|]. split; [lia|done].
    + rewrite (proj2 (Z.ltb_ge _ _)) by lia. rewrite H2, <- app_assoc. do 3 f_equal.
      rewrite take_app, (take_ge o1) by lia. f_equal. f_equal. lia.
  - rewrite H1. cbn [mbind res_bind]. rewrite (proj2 (Z.ltb_ge _ _)) by lia. do 3 f_equal.
    rewrite take_app. rewrite (proj2 (Nat.sub_0_le _ _)) by lia. by rewrite take_0, app_nil_r.
Qed.

(** A lock has an owner, and not more than a vector can hold. *)
Definition owned (lock : LockRange.t) : Prop := owners lock ≠ [] ∧ Z.of_nat (length (owners lock)) < 2 ^ 63.

Lemma copy_locks_spec inode locks index : 0 <= index < 2 ^ 63 → ∀ st,
  Forall owned locks → 0 < snd (fst st) → 0 <= fst (fst st) <= index →
  copy_result (inode_infos inode locks) index st (copy_locks inode locks index st).
Proof.
  intros Hi. induction locks as [|lock locks IH]; intros [[pos count] data] Hall Hc Hpos; [by apply copy_result_nil|].
  apply Forall_cons in Hall as [[Ho Hlen] Hall]. simpl in Hc, Hpos. cbn [copy_locks]. rewrite !wrapu_small by lia.
  change (inode_infos inode (lock :: locks)) with ((info_of inode lock <$> owners lock) ++ inode_infos inode locks).
  set (l1 := info_of inode lock <$> owners lock).
  assert (length l1 = length (owners lock)) as Hl1 by apply length_fmap.
  assert (0 < length (owners lock))%nat by (destruct (owners lock); [done|simpl; lia]).
  destruct (Z.leb_spec (pos + Z.of_nat (length (owners lock))) index) as [Hs|Hs].
  - specialize (IH (pos + Z.of_nat (length (owners lock)), count, data) Hall Hc ltac:(simpl; lia)). unfold copy_result in *.
    rewrite drop_app_ge, Hl1, length_app by lia.
    replace (Z.to_nat (index - (pos + Z.of_nat (length (owners lock))))) with
      (Z.to_nat (index - pos) - length (owners lock))%nat in IH by lia.
    destruct (_ <? count); [|done]. destruct IH as (pos' & -> & Hp & Hpos'). exists pos'. split; [done|]. split; [lia|done].
  - rewrite (proj2 (Z.ltb_lt 0 (Z.of_nat (length (owners lock))))) by lia. cbn [assertion].
    rewrite copy_owners_spec by done. cbv zeta. replace (Z.to_nat (Z.max (index - pos) 0)) with (Z.to_nat (index - pos)) by lia.
    rewrite fmap_drop. fold l1.
    assert (copy_result l1 index (pos, count, data)
      (if Z.of_nat (length (drop (Z.to_nat (index - pos)) l1)) <? count
       then Ok (inl (pos + Z.max (index - pos) 0, count - Z.of_nat (length (drop (Z.to_nat (index - pos)) l1)),
              data ++ drop (Z.to_nat (index - pos)) l1))
       else Ok (inr (data ++ take (Z.to_nat count) (drop (Z.to_nat (index - pos)) l1))))) as Hone.
    { unfold copy_result. destruct (_ <? count); [|done]. eexists. split; [done|]. split; lia. }
    pose proof (copy_result_app l1 (inode_infos inode locks) index (pos, count, data) _ (copy_locks inode locks index) Hc Hone) as Happ.
    cbv beta in Happ. specialize (Happ (fun st' Hst' Hpos' => IH st' Hall Hst' Hpos')).
    destruct (Z.of_nat (length (drop (Z.to_nat (index - pos)) l1)) <? count); apply Happ.
Qed.

Lemma copy_entries_spec entries index : 0 <= index < 2 ^ 63 → ∀ st,
  Forall (fun e => Forall owned (snd e)) entries → 0 < snd (fst st) → 0 <= fst (fst st) <= index →
  copy_result (all_infos entries) index st (copy_entries entries index st).
Proof.
  intros Hi. induction entries as [|[inode locks] entries IH]; intros st Hall Hc Hpos; [by apply copy_result_nil|].
  apply Forall_cons in Hall as [Ho Hall]. cbn [copy_entries].
  change (all_infos ((inode, locks) :: entries)) with (inode_infos inode locks ++ all_infos entries).
  apply (copy_result_app (inode_infos inode locks) (all_infos entries) index st (copy_locks inode locks index st)
    (copy_entries entries index)); [done|by apply copy_locks_spec|]. intros st' Hst' Hpos'. by apply IH.
Qed.

Lemma copied_page l index count r :
  0 < count → copy_result l index (0, count, []) r →
  (x ← r; Ok (copied x)) = Ok (take (Z.to_nat count) (drop (Z.to_nat index) l)).
Proof.
  intros Hc H. unfold copy_result in H. rewrite Z.sub_0_r in H. destruct (Z.ltb_spec (Z.of_nat (length (drop (Z.to_nat index) l))) count).
  - destruct H as (pos' & -> & _). cbn [mbind res_bind copied app]. rewrite take_ge by lia. done.
  - rewrite H. done.
Qed.

(** A negative index is larger than every position. *)
Lemma copy_locks_negative inode locks index : - 2 ^ 63 <= index < 0 → ∀ pos count data, 0 <= pos →
  pos + zsum ((fun lock => Z.of_nat (length (owners lock))) <$> locks) < 2 ^ 63 →
  copy_locks inode locks index (pos, count, data) = Ok (inl (pos + zsum ((fun lock => Z.of_nat (length (owners lock))) <$> locks), count, data)).
Proof.
  intros Hi. induction locks as [|lock locks IH]; intros pos count data Hpos Hsum; zsum_simpl; [by rewrite Z.add_0_r|]. cbn [copy_locks].
  assert (0 <= zsum ((fun lock => Z.of_nat (length (owners lock))) <$> locks)) as Hz by (apply zsum_nonneg, Forall_fmap, Forall_forall; intros x _; simpl; lia).
  rewrite (wrapu_small 64 (pos + _)) by lia. assert (u64 index = index + 2 ^ 64) as -> by (unfold wrapu; rewrite <- (Z.mod_add index 1 (2 ^ 64)) by lia; rewrite Z.mod_small; lia).
  rewrite (proj2 (Z.leb_le _ _)) by lia. rewrite IH by lia. do 4 f_equal. lia.
Qed.

(** listing by pages.  [copyToVector] and [copyInodeToVector] return the page of
    [count] records from record [index] of the list with one record per owner of every
    lock, in the order of iteration, and fail no assertion when every lock has an owner;
    with a negative index the records of an inode are all skipped. *)
Theorem copy_to_vector_pages entries inode index count :
  0 <= index < 2 ^ 63 → Forall (fun e => Forall owned (snd e)) entries →
  copyToVector entries index count = Ok (take (Z.to_nat count) (drop (Z.to_nat index) (all_infos entries))) ∧
  ∀ locks, (inode, locks) ∈ entries →
    copyInodeToVector locks inode index count =
      Ok (take (Z.to_nat count) (drop (Z.to_nat index) (inode_infos inode locks))).
Proof.
  intros Hi Hall. unfold copyToVector, copyInodeToVector. destruct (Z.leb_spec count 0) as [Hc|Hc].
  { split; [|intros locks _]; by replace (Z.to_nat count) with 0%nat by lia. }
  split.
  - apply copied_page; [done|]. apply copy_entries_spec; [done|done|done|simpl; lia].
  - intros locks Hin. apply copied_page; [done|]. apply copy_locks_spec; [done| |done|simpl; lia].
    rewrite Forall_forall in Hall. apply (Hall _ Hin).
Qed.

(** Requests for the records from a negative position get nothing. *)
Theorem negative_index_lists_nothing locks inode index count :
  - 2 ^ 63 <= index < 0 → zsum ((fun lock => Z.of_nat (length (owners lock))) <$> locks) < 2 ^ 63 → copyInodeToVector locks inode index count = Ok [].
Proof.
  intros Hi Hs. unfold copyInodeToVector. destruct (count <=? 0); [done|]. rewrite copy_locks_negative by (done || lia). done.
Qed.

Lemma copy_to_vector_pages_witness :
  let a := mk_owner 1 1 0 0 in
  let b := mk_owner 2 1 0 0 in
  let entries := [(5, [LockRange.mk kShared 0 10 [a; b]; make kExclusive 20 30 a]); (9, [make kShared 0 1 b])] in
  copyToVector entries 1 2 = Ok (take 2 (drop 1 (all_infos entries))) ∧ length (all_infos entries) = 4%nat.
Proof.
  intros a b entries. split; [|done]. apply (proj1 (copy_to_vector_pages entries 5 1 2 ltac:(lia) ltac:(repeat constructor; done))).
Defined.
