(* ===== verification/LockStore.v ===== *)
(** * Storing and loading file locks

    [FileLocks::store] followed by [FileLocks::load] (src/master/locks.cc) restores the
    lock at every byte of every inode, although the ranges may be cut differently. *)

From S2P Require Import Prelude FlatContainers LockRanges FileLocks FileLockFacts.
Import LockRange FileLocks LockOperations.

(** ** Storing and loading *)

(** What a stored lock keeps of its owners. *)
Definition strip_owner (o : Owner) : Owner := mk_owner (owner o) (sessionid o) 0 0.
Definition strip (lock : LockRange.t) : LockRange.t := set_owners (strip_owner <$> owners lock) lock.

(** Loading as many records as there are. *)
Fixpoint load_all {S} (insert : Z → LockRange.t → S → res S) (records : list Info) (s : S) : res S :=
  match records with
  | [] => Ok s
  | info :: records' => s ← insert (i_inode info) (lock_of_info info) s; load_all insert records' s
  end.

Lemma load_records_all {S} (insert : Z → LockRange.t → S → res S) records : ∀ s,
  load_records insert (length records) records s = load_all insert records s.
Proof. induction records as [|i l IH]; intros s; [done|]. simpl. destruct (insert _ _ s); [apply IH|done..]. Qed.

Lemma load_all_app {S} (insert : Z → LockRange.t → S → res S) l1 l2 : ∀ s,
  load_all insert (l1 ++ l2) s = s ← load_all insert l1 s; load_all insert l2 s.
Proof. induction l1 as [|i l1 IH]; intros s; [done|]. simpl. destruct (insert _ _ s); [apply IH|done..]. Qed.

Lemma store_section_spec entries : store_section entries = (Z.of_nat (length (all_infos entries)), all_infos entries).
Proof.
  unfold store_section. f_equal. unfold all_infos. induction entries as [|[inode locks] entries IH]; [done|].
  zsum_simpl. rewrite IH, length_app, Nat2Z.inj_add. f_equal. unfold inode_infos. clear.
  induction locks as [|lock locks IH]; [done|]. zsum_simpl. rewrite IH, length_app, length_fmap. lia.
Qed.

Lemma insertActive_spec t o inode lock s :
  locks_wf s → request t o lock → start lock < end_ lock →
  (∀ x, covers lock x = true → compat t o (held s inode x)) →
  ∃ s', insertActive inode lock s = Ok s' ∧ locks_wf s' ∧ pending_locks_ s' = pending_locks_ s ∧
    ∀ inode' x, held s' inode' x =
      if decide (key inode = key inode') then (if covers lock x then effect t o (held s inode x) else held s inode x)
      else held s inode' x.
Proof.
  intros Hw Hr Hne Hc. unfold insertActive. fold (ranges_of s inode).
  destruct (insert_spec t o lock (ranges_of s inode) (ranges_of_wf s inode Hw) Hr Hne Hc) as (l' & -> & Hl' & Hat).
  cbn [mbind res_bind]. eexists. split; [done|]. split; [by apply locks_wf_active|]. split; [done|].
  intros inode' x. unfold held. rewrite ranges_of_insert. case_decide; [apply Hat|done].
Qed.

(** The state of a byte when some of the owners of its range have been loaded. *)
Definition loaded (t : Type_) (ks : gset okey) : cell := if decide (ks = ∅) then None else Some (t, ks).

Lemma type_code_inv t : t ≠ kInvalid → type_of_code (type_code t) = t.
Proof. by destruct t. Qed.

Lemma load_owners inode r os : ∀ ks s,
  range_wf r → key inode = inode → locks_wf s → (type r = kExclusive → os = [] ∨ (ks = ∅ ∧ ∃ o, os = [o])) →
  (∀ x, covers r x = true → held s inode x = loaded (type r) ks) →
  ∃ s', load_all insertActive (info_of inode r <$> os) s = Ok s' ∧ locks_wf s' ∧ pending_locks_ s' = pending_locks_ s ∧
    ∀ inode' x, held s' inode' x =
      if decide (inode = key inode') then (if covers r x then loaded (type r) (ks ∪ keyset os) else held s inode x)
      else held s inode' x.
Proof.
  induction os as [|o os IH]; intros ks s Hr Hk Hw Hex Hh.
  { exists s. split_and!; try done. intros inode' x. change (keyset []) with (∅ : gset okey). rewrite union_empty_r_L.
    case_decide as E; [|done]. rewrite <- Hk in E. assert (held s inode' x = held s inode x) as ->.
    { unfold held, ranges_of. by rewrite E. }
    destruct (covers r x) eqn:Ec; [by apply Hh|done]. }
  csimpl. assert (lock_of_info (info_of inode r o) = make (type r) (start r) (end_ r) (strip_owner o)) as ->.
  { unfold lock_of_info, info_of. simpl. rewrite type_code_inv; [done|]. destruct (rw_type _ Hr); congruence. }
  destruct (insertActive_spec (type r) (key_of o) inode (make (type r) (start r) (end_ r) (strip_owner o)) s Hw)
    as (s1 & -> & Hw1 & Hp1 & Hh1).
  { apply (request_make (type r) (start r) (end_ r) (strip_owner o)). destruct (rw_type _ Hr); auto. }
  { apply Hr. }
  { intros x Hx. rewrite (Hh x Hx). unfold loaded. case_decide as E; [done|].
    right. left. destruct (rw_type _ Hr) as [?|He]; [done|]. destruct (Hex He) as [?|[? _]]; done. }
  cbn [mbind res_bind].
  destruct (IH (ks ∪ {[key_of o]}) s1 Hr Hk Hw1) as (s2 & -> & Hw2 & Hp2 & Hh2).
  { intros He. destruct (Hex He) as [?|[_ [o' [= -> ->]]]]; [done|by left]. }
  { intros x Hx. rewrite Hh1, decide_True by done. change (covers (make _ _ _ _) x) with (covers r x). rewrite Hx, (Hh x Hx).
    unfold loaded. rewrite (decide_False (P := ks ∪ _ = ∅)) by set_solver. case_decide as E.
    - rewrite E, union_empty_l_L. by destruct (rw_type _ Hr) as [-> | ->].
    - destruct (rw_type _ Hr) as [->|He]; [done|]. destruct (Hex He) as [?|[? _]]; done. }
  exists s2. split; [done|]. split; [done|]. split; [congruence|]. intros inode' x. rewrite Hh2, !Hh1, keyset_cons.
  rewrite (union_assoc_L ks). rewrite (decide_True (P := key inode = key inode)) by done.
  change (covers (make _ _ _ _) x) with (covers r x). rewrite Hk. case_decide; [|done]. by destruct (covers r x).
Qed.

Lemma loaded_full r : range_wf r → loaded (type r) (∅ ∪ keyset (owners r)) = Some (type r, keyset (owners r)).
Proof.
  intros Hr. unfold loaded. rewrite union_empty_l_L, decide_False; [done|]. apply keyset_nonempty, Hr.
Qed.

Lemma load_ranges inode l : ∀ s,
  ranges_wf l → key inode = inode → locks_wf s → (∀ x, at_ l x ≠ None → held s inode x = None) →
  ∃ s', load_all insertActive (inode_infos inode l) s = Ok s' ∧ locks_wf s' ∧ pending_locks_ s' = pending_locks_ s ∧
    ∀ inode' x, held s' inode' x =
      if decide (inode = key inode') then match at_ l x with Some c => Some c | None => held s inode x end
      else held s inode' x.
Proof.
  induction l as [|r l IH]; intros s Hl Hk Hw Hh.
  { exists s. split_and!; try done. intros inode' x. case_decide as E; [|done]. simpl. unfold held, ranges_of. by rewrite <- E, Hk. }
  apply ranges_wf_cons in Hl as (Hr & Hl & Hb).
  change (inode_infos inode (r :: l)) with ((info_of inode r <$> owners r) ++ inode_infos inode l). rewrite load_all_app.
  destruct (load_owners inode r (owners r) ∅ s Hr Hk Hw) as (s1 & -> & Hw1 & Hp1 & Hh1).
  { intros He. right. split; [done|]. by apply exclusive_single. }
  { intros x Hx. rewrite Hh; [done|]. cbn [at_]. by rewrite Hx. }
  cbn [mbind res_bind]. destruct (IH s1 Hl Hk Hw1) as (s2 & -> & Hw2 & Hp2 & Hh2).
  { intros x Hx. rewrite Hh1, decide_True by done. destruct (covers r x) eqn:Ec.
    - exfalso. apply Hx, at_None. intros b Hin. specialize (Hb b Hin). unfold covers in Ec.
      rewrite andb_true_iff, Z.leb_le, Z.ltb_lt in Ec. lia.
    - apply Hh. cbn [at_]. by rewrite Ec. }
  exists s2. split; [done|]. split; [done|]. split; [congruence|]. intros inode' x. rewrite Hh2, !Hh1.
  rewrite (decide_True (P := inode = key inode)) by done. case_decide as E; [|done]. cbn [at_].
  destruct (covers r x) eqn:Ec; [|done]. rewrite at_None; [by apply loaded_full|].
  intros b Hin. specialize (Hb b Hin). unfold covers in Ec. rewrite andb_true_iff, Z.leb_le, Z.ltb_lt in Ec. lia.
Qed.

Lemma load_active entries : ∀ s,
  locks_wf s → NoDup (entries.*1) → Forall (fun e => key (fst e) = fst e ∧ ranges_wf (snd e)) entries →
  (∀ inode, key inode ∈ entries.*1 → ∀ x, held s inode x = None) →
  ∃ s', load_all insertActive (all_infos entries) s = Ok s' ∧ locks_wf s' ∧ pending_locks_ s' = pending_locks_ s ∧
    ∀ inode x, held s' inode x =
      match (list_to_map entries : gmap Z LockRanges.t) !! key inode with Some l => at_ l x | None => held s inode x end.
Proof.
  induction entries as [|[inode l] entries IH]; intros s Hw Hnd Hall Hh.
  { exists s. split_and!; try done. }
  csimpl in *. apply NoDup_cons in Hnd as [Hni Hnd]. apply Forall_cons in Hall as [[Hk Hl] Hall]. simpl in Hk, Hl.
  change (all_infos ((inode, l) :: entries)) with (inode_infos inode l ++ all_infos entries). rewrite load_all_app.
  destruct (load_ranges inode l s Hl Hk Hw) as (s1 & -> & Hw1 & Hp1 & Hh1).
  { intros x _. apply Hh. rewrite Hk. by left. }
  cbn [mbind res_bind]. destruct (IH s1 Hw1 Hnd Hall) as (s2 & -> & Hw2 & Hp2 & Hh2).
  { intros inode' Hin x. rewrite Hh1, decide_False by (intros ->; done). apply Hh. by right. }
  exists s2. split; [done|]. split; [done|]. split; [congruence|]. intros inode' x. rewrite Hh2, Hh1.
  destruct (decide (inode = key inode')) as [->|Hne].
  - rewrite lookup_insert_eq, not_elem_of_list_to_map_1 by done.
    destruct (at_ l x) eqn:E; [done|]. apply Hh. rewrite Hk. by left.
  - by rewrite lookup_insert_ne.
Qed.

(** *** The queues *)

Lemma strip_waiting lock : waiting lock → ∃ o, owners lock = [o] ∧
  ∀ inode, lock_of_info (info_of inode lock o) = strip lock.
Proof.
  intros Hw. pose proof (waiting_owner lock Hw) as (o & Ho & Hr & _). exists o. split; [done|].
  intros inode. unfold lock_of_info, info_of, strip, make, set_owners. simpl. rewrite Ho, type_code_inv; [done|].
  destruct (rq_valid _ _ _ Hr) as [-> | [-> | -> ]]; done.
Qed.

Definition push (inode : Z) (lock : LockRange.t) (s : FileLocks.t) : res FileLocks.t := Ok (push_pending inode lock s).

Lemma queue_of_push inode lock s inode' :
  queue_of (push_pending inode lock s) inode' =
    if decide (key inode = key inode') then queue_of s inode ++ [lock] else queue_of s inode'.
Proof.
  unfold queue_of, push_pending. simpl. case_decide as E; [rewrite E, lookup_insert_eq|rewrite lookup_insert_ne]; done.
Qed.

Lemma load_queue inode q : ∀ s,
  Forall waiting q → key inode = inode →
  ∃ s', load_all push (inode_infos inode q) s = Ok s' ∧ active_locks_ s' = active_locks_ s ∧
    ∀ inode', queue_of s' inode' =
      if decide (inode = key inode') then queue_of s inode ++ (strip <$> q) else queue_of s inode'.
Proof.
  induction q as [|lock q IH]; intros s Hq Hk.
  { exists s. split_and!; try done. intros inode'. case_decide as E; [|done].
    csimpl. rewrite app_nil_r. unfold queue_of. by rewrite <- E, Hk. }
  apply Forall_cons in Hq as [Hlock Hq]. destruct (strip_waiting lock Hlock) as (o & Ho & Hs).
  change (inode_infos inode (lock :: q)) with ((info_of inode lock <$> owners lock) ++ inode_infos inode q).
  rewrite load_all_app, Ho. csimpl. rewrite Hs.
  destruct (IH (push_pending inode (strip lock) s) Hq Hk) as (s' & E & Ha & Hqs). cbn [mbind res_bind push]. exists s'.
  split; [done|]. split; [done|]. intros inode'. rewrite Hqs, !queue_of_push, Hk.
  rewrite (decide_True (P := inode = inode)) by done. case_decide; [|done]. by rewrite <- app_assoc.
Qed.

Lemma load_pending entries : ∀ s,
  NoDup (entries.*1) → Forall (fun e => key (fst e) = fst e ∧ Forall waiting (snd e)) entries →
  (∀ inode, key inode ∈ entries.*1 → queue_of s inode = []) →
  ∃ s', load_all push (all_infos entries) s = Ok s' ∧ active_locks_ s' = active_locks_ s ∧
    ∀ inode, queue_of s' inode =
      match (list_to_map entries : gmap Z (list LockRange.t)) !! key inode with
      | Some q => strip <$> q
      | None => queue_of s inode
      end.
Proof.
  induction entries as [|[inode q] entries IH]; intros s Hnd Hall Hh; [by exists s|].
  csimpl in *. apply NoDup_cons in Hnd as [Hni Hnd]. apply Forall_cons in Hall as [[Hk Hq] Hall]. simpl in Hk, Hq.
  change (all_infos ((inode, q) :: entries)) with (inode_infos inode q ++ all_infos entries). rewrite load_all_app.
  destruct (load_queue inode q s Hq Hk) as (s1 & -> & Ha1 & Hq1). cbn [mbind res_bind].
  destruct (IH s1 Hnd Hall) as (s2 & -> & Ha2 & Hq2).
  { intros inode' Hin. rewrite Hq1, decide_False by (intros ->; done). apply Hh. by right. }
  exists s2. split; [done|]. split; [congruence|]. intros inode'. rewrite Hq2, Hq1.
  destruct (decide (inode = key inode')) as [->|Hne].
  - rewrite lookup_insert_eq, not_elem_of_list_to_map_1 by done. rewrite Hh; [done|]. rewrite Hk. by left.
  - by rewrite lookup_insert_ne.
Qed.

Lemma order_facts {A} (m : gmap Z A) (order : list (Z * A)) :
  order ≡ₚ map_to_list m → NoDup (order.*1) ∧ (list_to_map order : gmap Z A) = m ∧
    ∀ k x, (k, x) ∈ order → m !! k = Some x.
Proof.
  intros Hp. assert (NoDup (order.*1)) as Hnd by (rewrite Hp; apply NoDup_fst_map_to_list).
  split; [done|]. split.
  - rewrite (list_to_map_proper order (map_to_list m)) by done. apply list_to_map_to_list.
  - intros k x Hin. apply elem_of_map_to_list. by rewrite <- Hp.
Qed.

(** Storing and loading.  Whatever the order in which the maps are iterated, loading
    what was stored into empty maps succeeds and restores the lock at every byte of every
    inode, and every queue in its order; only the ids of the requests, which matter for
    interrupts, are lost. *)
Lemma load_stored_records s active_order pending_order :
  locks_wf s →
  active_order ≡ₚ map_to_list (active_locks_ s) → pending_order ≡ₚ map_to_list (pending_locks_ s) →
  (∀ k, k ∈ active_order.*1 ++ pending_order.*1 → key k = k) →
  let '(active, pending) := store active_order pending_order in
  ∃ s', load active pending FileLocks.empty = Ok s' ∧
    (∀ inode x, held s' inode x = held s inode x) ∧
    (∀ inode, queue_of s' inode = strip <$> queue_of s inode).
Proof.
  intros Hw Ha Hp Hkeys. unfold store. rewrite !store_section_spec. unfold load. cbn [fst snd].
  rewrite !Nat2Z.id, load_records_all.
  destruct (order_facts _ _ Ha) as (Hnda & Ema & Hina). destruct (order_facts _ _ Hp) as (Hndp & Emp & Hinp).
  destruct (load_active active_order FileLocks.empty locks_wf_empty Hnda) as (s1 & -> & Hw1 & Hp1 & Hh1).
  { apply Forall_forall. intros [k l] Hin. split; [apply Hkeys, elem_of_app; left; by apply (list_elem_of_fmap_2 fst) in Hin|].
    apply (lw_active _ Hw k). by apply Hina. }
  { intros inode _ x. unfold held, ranges_of. simpl. by rewrite lookup_empty. }
  cbn [mbind res_bind].
  destruct (load_pending pending_order s1 Hndp) as (s2 & E2 & Ha2 & Hq2).
  { apply Forall_forall. intros [k q] Hin. split; [apply Hkeys, elem_of_app; right; by apply (list_elem_of_fmap_2 fst) in Hin|].
    apply (qw_all q). apply (lw_pending _ Hw k). by apply Hinp. }
  { intros inode _. unfold queue_of. rewrite Hp1. simpl. by rewrite lookup_empty. }
  exists s2. split; [rewrite load_records_all; exact E2|]. split.
  - intros inode x. assert (held s2 inode x = held s1 inode x) as -> by (unfold held, ranges_of; by rewrite Ha2).
    rewrite Hh1, Ema. unfold held, ranges_of. destruct (active_locks_ s !! key inode); [done|]. simpl. by rewrite lookup_empty.
  - intros inode. rewrite Hq2, Emp. unfold queue_of. destruct (pending_locks_ s !! key inode); [done|].
    rewrite Hp1. simpl. by rewrite lookup_empty.
Qed.
