(* ===== verification/LockFile.v ===== *)
(** * File locks in the metadata file

    [::store] and [::load] of src/master/locks.cc as they write and read bytes: a section is
    the number of records and the records, in the format of [safs_locks::Info]
    (src/protocol/lock_info.h).  The file is mapped into memory ([MemoryMappedFile],
    src/common/memory_mapped_file.cc); reading past its end is [Stuck].

    [lock_file_roundtrip] composes the format of the records with the theorem on loading
    records (LockStore): what was held before the master stopped is held after it starts. *)

From S2P Require Import Prelude FlatContainers LockRanges FileLocks FileLockFacts LockStore Serialization Packets.
Import LockRange FileLocks LockOperations Serialization.

Module LockFile.

(** [safs_locks::Info]. *)
Definition info_f : format Info :=
  class_f
    (fun i => (version i, (i_inode i, (i_owner i, (i_sessionid i, (i_type i, (i_start i, i_end i)))))))
    (fun t => let '(v, (inode, (o, (sid, (ty, (s, e)))))) := t in mk_info v inode o sid ty s e)
    (pair_f uint32_f (pair_f uint32_f (pair_f uint64_f (pair_f uint32_f (pair_f uint16_f (pair_f uint64_f uint64_f)))))).

(** [::store]: every [fwrite] succeeds. *)
Fixpoint store_infos (records : list Info) : res (list Z) :=
  match records with
  | [] => Ok []
  | info :: records => bs ← serialize_buffer info_f info; rest ← store_infos records; Ok (bs ++ rest)
  end.

Definition store_bytes (data : list (Z * list LockRange.t)) : res (list Z) :=
  let '(count, records) := store_section data in
  bs ← serialize_buffer uint64_f count; rest ← store_infos records; Ok (bs ++ rest).

(** [MemoryMappedFile::seek] *)
Definition seek (file : list Z) (offset : nat) : res (list Z) :=
  if (length file <=? offset)%nat then Throw else Ok (drop offset file).

(** [deserialize(ptr, n, value)] of a value of [n] bytes in the mapping. *)
Definition deserialize_at {A} (f : format A) (n : nat) (ptr : list Z) : res A :=
  if (length ptr <? n)%nat then Stuck else '(a, _) ← deserialize_buffer f (take n ptr); Ok a.

Definition kInfoSize : nat := 38.

(** The loop of [::load]: [count] records. *)
Fixpoint load_infos {S} (insert : Z → LockRange.t → S → res S) (count : nat) (file : list Z) (offset : nat) (s : S) : res (S * nat) :=
  match count with
  | O => Ok (s, offset)
  | Datatypes.S count =>
      ptr ← seek file offset;
      info ← deserialize_at info_f kInfoSize ptr;
      s ← insert (i_inode info) (lock_of_info info) s;
      load_infos insert count file (offset + kInfoSize) s
  end.

Definition load_bytes {S} (insert : Z → LockRange.t → S → res S) (file : list Z) (offset : nat) (s : S) : res (S * nat) :=
  ptr ← seek file offset;
  count ← deserialize_at uint64_f 8 ptr;
  load_infos insert (Z.to_nat count) file (offset + 8) s.

(** [FileLocks::store] and [FileLocks::load] *)
Definition store_file (active_order : list (Z * LockRanges.t)) (pending_order : list (Z * list LockRange.t)) : res (list Z) :=
  a ← store_bytes active_order; p ← store_bytes pending_order; Ok (a ++ p).

Definition load_file (file : list Z) (offset : nat) (s : FileLocks.t) : res (FileLocks.t * nat) :=
  '(s, offset) ← load_bytes insertActive file offset s;
  load_bytes (fun inode lock s => Ok (push_pending inode lock s)) file offset s.

(** ** The format *)

#[global] Instance info_lawful : Lawful info_f.
Proof. apply class_lawful; [apply _ | by intros [] | by intros [? [? [? [? [? []]]]]]]. Qed.

Lemma info_size info : length (serialize info_f info) = kInfoSize.
Proof. done. Qed.

(** ** Storing *)

Lemma store_infos_ok records : Forall (valid info_f) records → store_infos records = Ok (serialize_many info_f records).
Proof.
  induction 1 as [| info records Hi Hr IH]; [done |]. cbn [store_infos serialize_many].
  rewrite (Packet.serialize_buffer_ok info_f info Hi) by (by rewrite info_size). cbn [mbind res_bind]. by rewrite IH.
Qed.

Definition section_bytes (records : list Info) : list Z :=
  serialize uint64_f (Z.of_nat (length records)) ++ serialize_many info_f records.

(** The records fit the widths of their members and their number is a [uint64_t]. *)
Definition storable (entries : list (Z * list LockRange.t)) : Prop :=
  Forall (valid info_f) (all_infos entries) ∧ Z.of_nat (length (all_infos entries)) < 2 ^ 64.

Lemma store_bytes_ok entries : storable entries → store_bytes entries = Ok (section_bytes (all_infos entries)).
Proof.
  intros [Hv Hn]. unfold store_bytes. rewrite store_section_spec.
  rewrite (Packet.serialize_buffer_ok uint64_f); [| cbn; lia | done]. cbn [mbind res_bind]. by rewrite store_infos_ok.
Qed.

(** ** Loading *)

Lemma deserialize_at_ok {A} (f : format A) `{!Lawful f} a rest :
  valid f a → Z.of_nat (length (serialize f a)) <= kMaxDeserializedBytesCount →
  deserialize_at f (length (serialize f a)) (serialize f a ++ rest) = Ok a.
Proof.
  intros Ha Hn. unfold deserialize_at. rewrite (proj2 (Nat.ltb_ge _ _)) by (rewrite length_app; lia).
  rewrite take_app_length, <- (app_nil_r (serialize f a)). rewrite Packet.deserialize_buffer_ok; [done | done | done | by rewrite app_nil_r].
Qed.

Lemma seek_ok pre bs rest : bs ≠ [] → seek (pre ++ bs ++ rest) (length pre) = Ok (bs ++ rest).
Proof.
  intros Hb. unfold seek. rewrite (proj2 (Nat.leb_gt _ _)); [by rewrite drop_app_length |].
  rewrite !length_app. destruct bs; [done | cbn; lia].
Qed.

Lemma load_infos_ok {S} (insert : Z → LockRange.t → S → res S) records : ∀ pre rest s,
  Forall (valid info_f) records →
  load_infos insert (length records) (pre ++ serialize_many info_f records ++ rest) (length pre) s =
    s ← load_all insert records s; Ok (s, length (pre ++ serialize_many info_f records)).
Proof.
  induction records as [| info records IH]; intros pre rest s Hv; cbn [serialize_many load_infos load_all length].
  { cbn [mbind res_bind]. by rewrite app_nil_r. }
  apply Forall_cons in Hv as [Hi Hv]. rewrite <- app_assoc, seek_ok by done. cbn [mbind res_bind].
  rewrite <- (info_size info). rewrite (deserialize_at_ok info_f info _ Hi) by (by rewrite info_size). cbn [mbind res_bind].
  destruct (insert (i_inode info) (lock_of_info info) s) as [s1 | | |]; [| done..]. cbn [mbind res_bind].
  replace (length pre + length (serialize info_f info))%nat with (length (pre ++ serialize info_f info)) by (by rewrite length_app).
  rewrite (app_assoc pre), IH by done. by rewrite (app_assoc pre).
Qed.

Lemma load_bytes_ok {S} (insert : Z → LockRange.t → S → res S) records pre rest s :
  Forall (valid info_f) records → Z.of_nat (length records) < 2 ^ 64 →
  load_bytes insert (pre ++ section_bytes records ++ rest) (length pre) s =
    s ← load_records insert (length records) records s; Ok (s, length (pre ++ section_bytes records)).
Proof.
  intros Hv Hn. unfold load_bytes, section_bytes. rewrite <- app_assoc, seek_ok by done. cbn [mbind res_bind].
  change 8%nat with (length (serialize uint64_f (Z.of_nat (length records)))).
  rewrite (deserialize_at_ok uint64_f); [| cbn; lia | done]. cbn [mbind res_bind]. rewrite Nat2Z.id.
  replace (length pre + length (serialize uint64_f (Z.of_nat (length records))))%nat
    with (length (pre ++ serialize uint64_f (Z.of_nat (length records)))) by (by rewrite length_app).
  rewrite (app_assoc pre), load_infos_ok by done. by rewrite load_records_all, (app_assoc pre).
Qed.

(** C27: Storing well-formed locks into the metadata file and loading them into empty maps, at any place of
    the file and in whatever order the maps are iterated, when the inodes and the other fields fit into
    the widths of the file: the lock at every byte of every inode is restored; every queue has its
    requests in their order, with the owners, ranges and types they had, but with the request and message
    ids 0; and the offset is behind the sections. *)
Theorem lock_file_roundtrip s active_order pending_order pre rest
    (Hw : locks_wf s)
    (Ha : active_order ≡ₚ map_to_list (active_locks_ s)) (Hp : pending_order ≡ₚ map_to_list (pending_locks_ s))
    (Hkeys : ∀ k, k ∈ active_order.*1 ++ pending_order.*1 → key k = k)
    (Hva : storable active_order) (Hvp : storable pending_order) :
  ∃ bs s', store_file active_order pending_order = Ok bs ∧
    load_file (pre ++ bs ++ rest) (length pre) FileLocks.empty = Ok (s', length (pre ++ bs)) ∧
    (∀ inode x, held s' inode x = held s inode x) ∧
    (∀ inode, queue_of s' inode = strip <$> queue_of s inode).
Proof.
  pose proof (load_stored_records s active_order pending_order Hw Ha Hp Hkeys) as H.
  unfold store in H. rewrite !store_section_spec in H. destruct H as (s' & E & Hh & Hq).
  exists (section_bytes (all_infos active_order) ++ section_bytes (all_infos pending_order)), s'.
  split; [unfold store_file; by rewrite !store_bytes_ok |]. split; [| done].
  destruct Hva as [Hva Hna]. destruct Hvp as [Hvp Hnp]. unfold load_file, load in *. cbn [fst snd] in E. rewrite !Nat2Z.id in E.
  rewrite <- app_assoc, load_bytes_ok by done.
  destruct (load_records insertActive _ _ FileLocks.empty) as [s1 | | |]; [| done..]. cbn [mbind res_bind] in *.
  rewrite (app_assoc pre), load_bytes_ok by done. rewrite E. cbn [mbind res_bind]. by rewrite <- app_assoc.
Qed.

(** A file that ends before its section does is not loaded: an exception is thrown where a
    record should start, and a record that is cut is read past the end of the file. *)
Lemma load_infos_short {S} (insert : Z → LockRange.t → S → res S) records : ∀ pre n s,
  Forall (valid info_f) records → (n < length (serialize_many info_f records))%nat →
  ∀ r, load_infos insert (length records) (pre ++ take n (serialize_many info_f records)) (length pre) s ≠ Ok r.
Proof.
  induction records as [| info records IH]; intros pre n s Hv Hn r; [cbn in Hn; lia |].
  apply Forall_cons in Hv as [Hi Hv]. cbn [serialize_many length load_infos] in *. rewrite length_app in Hn.
  set (bs := serialize info_f info ++ serialize_many info_f records) in *.
  unfold seek. destruct (Nat.leb_spec (length (pre ++ take n bs)) (length pre)); [done |]. cbn [mbind res_bind].
  rewrite drop_app_length. unfold deserialize_at at 1. destruct (Nat.ltb_spec (length (take n bs)) kInfoSize) as [Hs | Hs]; [done |].
  assert (take n bs = serialize info_f info ++ take (n - kInfoSize) (serialize_many info_f records)) as Et.
  { unfold bs. rewrite take_app, (take_ge (serialize info_f info)); [by rewrite info_size |].
    rewrite length_take, info_size in *. lia. }
  pose proof (deserialize_at_ok info_f info (take (n - kInfoSize) (serialize_many info_f records)) Hi ltac:(by rewrite info_size)) as Ed.
  unfold deserialize_at in Ed. rewrite <- Et, info_size, (proj2 (Nat.ltb_ge _ _)) in Ed by done. rewrite Ed. cbn [mbind res_bind].
  destruct (insert (i_inode info) (lock_of_info info) s) as [s1 | | |]; [| done..]. cbn [mbind res_bind].
  rewrite Et, app_assoc. replace (length pre + kInfoSize)%nat with (length (pre ++ serialize info_f info)) by (rewrite length_app, info_size; lia).
  apply IH; [done |]. rewrite length_take in Hs. rewrite info_size in Hn. lia.
Qed.

(** A witness of [lock_file_roundtrip]: two adjacent ranges of one owner come back as one. *)
Lemma lock_file_roundtrip_witness :
  let o := mk_owner 1 1 4 5 in
  let s := FileLocks.mk {[7 := [make kShared 0 10 o; make kShared 10 20 o]]} {[7 := [make kExclusive 5 6 (mk_owner 2 1 8 9)]]} in
  ∃ bs s', store_file (map_to_list (active_locks_ s)) (map_to_list (pending_locks_ s)) = Ok bs ∧
    load_file (bs ++ []) 0 FileLocks.empty = Ok (s', length bs) ∧ held s' 7 15 = held s 7 15 ∧ ranges_of s' 7 ≠ ranges_of s 7.
Proof.
  intros o s.
  destruct (lock_file_roundtrip s (map_to_list (active_locks_ s)) (map_to_list (pending_locks_ s)) [] []) as (bs & s' & Es & El & Hh & _).
  - split; simpl; intros k l; rewrite lookup_singleton_Some; intros [_ <-]; [solve_ranges_wf|].
    split; [|repeat constructor]. apply Forall_singleton. exists kExclusive, (2, 1).
    split; [apply (request_make kExclusive 5 6 (mk_owner 2 1 8 9)); auto|done].
  - done.
  - done.
  - unfold s. simpl. rewrite !map_to_list_singleton. simpl. intros k [->|[->|?%elem_of_nil]%elem_of_cons]%elem_of_cons; done.
  - split; [| vm_compute; reflexivity]. repeat constructor; vm_compute; congruence.
  - split; [| vm_compute; reflexivity]. repeat constructor; vm_compute; congruence.
  - exists bs, s'. split; [exact Es|]. split; [exact El|]. split; [apply Hh|].
    assert (match (bs ← store_file (map_to_list (active_locks_ s)) (map_to_list (pending_locks_ s)); load_file (bs ++ []) 0 FileLocks.empty) with
      Ok (s', _) => Nat.eqb (length (ranges_of s' 7)) 1 = true | _ => False end) as Hl by (vm_compute; reflexivity).
    rewrite Es in Hl. cbn [mbind res_bind] in Hl. cbn [app length] in El. rewrite El in Hl. intros Er. rewrite Er in Hl. vm_compute in Hl. discriminate Hl.
Defined.
End LockFile.
