(* ===== verification/URaft.v ===== *)
(** * uRaft: the handlers of a node

    The state and the handlers of [uRaft] of src/uraft/uraft.h and src/uraft/uraft.cc:
    elections, heartbeats, loyalty agreements and the packets between the nodes.  A
    handler returns the new state of the node and its effects in order: packets sent,
    timers started or cancelled, and calls of the virtual functions that promote or
    demote the local metadata server.  The address of a node is its index. *)

From S2P Require Import Prelude.

Module URaft.

Inductive State : Type := kFollower | kCandidate | kLeader.
#[global] Instance State_eq_dec : EqDecision State.
Proof. solve_decision. Defined.

Inductive StepDownPolicy : Type := kRaftOnly | kDemoteIfPresident.

(** The options that the protocol uses; [servers] is the number of servers. *)
Record Options : Type := mk_options {
  servers : nat;
  election_timeout_min : Z;
  election_timeout_max : Z;
  heartbeat_period : Z;
  quorum : Z;
  quorum_loss_grace_heartbeats : Z;
}.

Record NodeInfo : Type := mk_info {
  n_data_version : Z;
  n_heartbeat : Z;
  n_vote_granted : bool;
  n_recv : bool;
}.
#[global] Instance NodeInfo_inhabited : Inhabited NodeInfo := populate (mk_info 0 0 false false).

(** [RaftState] together with the other members of [uRaft]. *)
Record t : Type := mk {
  id : nat;
  type : State;
  current_term : Z;
  voted_for : Z;
  leader_id : Z;
  local_time : Z;
  president : bool;
  loyalty_agreement : bool;
  data_version : Z;
  node_ : list NodeInfo;
  block_leader_promotion_ : bool;
  quorum_loss_streak_ : Z;
}.

(** Packets. *)
Inductive packet : Type :=
| AppendEntries (term time data_version : Z)
| RequestVote (term time data_version : Z)
| AEResponse (term : Z) (result : bool) (req_time data_version : Z)
| RVResponse (term : Z) (result : bool) (req_time data_version : Z).
#[global] Instance packet_eq_dec : EqDecision packet.
Proof. solve_decision. Defined.

Definition packet_term (p : packet) : Z :=
  match p with
  | AppendEntries term _ _ | RequestVote term _ _ => term
  | AEResponse term _ _ _ | RVResponse term _ _ _ => term
  end.

Inductive effect : Type :=
| Send (dst : nat) (p : packet)
| StartElectionTimer
| CancelElectionTimer
| StartHeartbeatTimer
| StartLoyaltyTimer
| NodePromote
| NodeDemote
| NodeLeader (id : nat).

Definition set_data_version (v : Z) (s : t) : t :=
  mk (id s) (type s) (current_term s) (voted_for s) (leader_id s) (local_time s) (president s)
     (loyalty_agreement s) v (node_ s) (block_leader_promotion_ s) (quorum_loss_streak_ s).
Definition set_type (ty : State) (s : t) : t :=
  mk (id s) ty (current_term s) (voted_for s) (leader_id s) (local_time s) (president s)
     (loyalty_agreement s) (data_version s) (node_ s) (block_leader_promotion_ s) (quorum_loss_streak_ s).
Definition set_voted_for (v : Z) (s : t) : t :=
  mk (id s) (type s) (current_term s) v (leader_id s) (local_time s) (president s)
     (loyalty_agreement s) (data_version s) (node_ s) (block_leader_promotion_ s) (quorum_loss_streak_ s).
Definition set_leader_id (l : Z) (s : t) : t :=
  mk (id s) (type s) (current_term s) (voted_for s) l (local_time s) (president s)
     (loyalty_agreement s) (data_version s) (node_ s) (block_leader_promotion_ s) (quorum_loss_streak_ s).
Definition set_loyalty (b : bool) (s : t) : t :=
  mk (id s) (type s) (current_term s) (voted_for s) (leader_id s) (local_time s) (president s)
     b (data_version s) (node_ s) (block_leader_promotion_ s) (quorum_loss_streak_ s).
Definition set_president (b : bool) (s : t) : t :=
  mk (id s) (type s) (current_term s) (voted_for s) (leader_id s) (local_time s) b
     (loyalty_agreement s) (data_version s) (node_ s) (block_leader_promotion_ s) (quorum_loss_streak_ s).
Definition set_nodes (ns : list NodeInfo) (s : t) : t :=
  mk (id s) (type s) (current_term s) (voted_for s) (leader_id s) (local_time s) (president s)
     (loyalty_agreement s) (data_version s) ns (block_leader_promotion_ s) (quorum_loss_streak_ s).
Definition set_streak (k : Z) (s : t) : t :=
  mk (id s) (type s) (current_term s) (voted_for s) (leader_id s) (local_time s) (president s)
     (loyalty_agreement s) (data_version s) (node_ s) (block_leader_promotion_ s) k.
Definition set_block_promotion (block : bool) (s : t) : t :=
  mk (id s) (type s) (current_term s) (voted_for s) (leader_id s) (local_time s) (president s)
     (loyalty_agreement s) (data_version s) (node_ s) block (quorum_loss_streak_ s).

Section handlers.
Context (opt : Options).
(** [isElectorNode()]. *)
Context (elector : bool).

(** [int time_from_loyalty_vote = heartbeat_period * ((local_time - heartbeat) + 1)]:
    unsigned 64-bit arithmetic, converted to [int]. *)
Definition time_from_loyalty_vote (s : t) (n : NodeInfo) : Z :=
  i32 (u64 (heartbeat_period opt * u64 (u64 (local_time s - n_heartbeat n) + 1))).

Definition votes_for (count_loyal : bool) (s : t) (n : NodeInfo) : bool :=
  (negb count_loyal && n_vote_granted n) ||
  (count_loyal && (time_from_loyalty_vote s n <=? election_timeout_min opt)).

Definition voteCount (count_loyal : bool) (s : t) : Z :=
  zsum ((fun n => if votes_for count_loyal s n then 1 else 0) <$> node_ s).

Definition stepDownToFollower (policy : StepDownPolicy) (newTerm : Z) (s : t) : t * list effect :=
  (mk (id s) kFollower (if 0 <? newTerm then newTerm else current_term s) (-1) (-1) (local_time s) false
      (loyalty_agreement s) (data_version s) (node_ s) (block_leader_promotion_ s) 0,
   (if president s then match policy with kDemoteIfPresident => [NodeDemote] | kRaftOnly => [] end else [])
     ++ [StartElectionTimer]).

Definition checkTerm (term : Z) (s : t) : res (t * list effect) :=
  if current_term s <? term then
    assertion (negb (president s) || negb (bool_decide (type s = kFollower)))
      (Ok (stepDownToFollower kDemoteIfPresident term s))
  else Ok (s, []).

(** [state_.loyalty_agreement] is set and its timer started. *)
Definition signLoyaltyAgreement (s : t) : t * list effect := (set_loyalty true s, [StartLoyaltyTimer]).
(** The handler of that timer. *)
Definition loyaltyExpired (s : t) : t := set_loyalty false s.

(** To every other node. *)
Definition sendHeartbeat (s : t) : list effect :=
  (fun i => Send i (AppendEntries (current_term s) (local_time s) (data_version s)))
    <$> filter (fun i => i ≠ id s) (seq 0 (length (node_ s))).

(** To every node whose answer is missing. *)
Definition sendRequestForVotes (s : t) : list effect :=
  (fun i => Send i (RequestVote (current_term s) (local_time s) (data_version s)))
    <$> filter (fun i => n_recv (node_ s !!! i) = false) (seq 0 (length (node_ s))).

(** [version] is the answer of [nodeGetVersion()]. *)
Definition electionTimeout (version : Z) (s : t) : t * list effect :=
  if block_leader_promotion_ s then (s, [StartElectionTimer])
  else
    let ns := (fun n => mk_info (n_data_version n) (n_heartbeat n) false false) <$> node_ s in
    let ns := <[id s := mk_info (data_version s) (local_time s) true true]> ns in
    let s := mk (id s) kCandidate (u64 (current_term s + 1)) (Z.of_nat (id s)) (leader_id s) (local_time s)
               (president s) (loyalty_agreement s) (data_version s) ns (block_leader_promotion_ s)
               (quorum_loss_streak_ s) in
    if 1 <? quorum opt then
      let s := set_data_version version s in
      (s, sendRequestForVotes s ++ [StartElectionTimer])
    else (set_type kLeader s, [NodePromote]).

(** [heartbeat]: the local time advances, ... *)
Definition tick (s : t) : t :=
  let lt := u64 (local_time s + 1) in
  let self := node_ s !!! id s in
  mk (id s) (type s) (current_term s) (voted_for s) (leader_id s) lt (president s) (loyalty_agreement s)
     (data_version s)
     (<[id s := mk_info (n_data_version self) lt (n_vote_granted self) (n_recv self)]> (node_ s))
     (block_leader_promotion_ s) (quorum_loss_streak_ s).

Definition has_quorum (s : t) : bool :=
  bool_decide (type s = kLeader) && (quorum opt <=? voteCount true s).

(** ... and, unless a president has lost its quorum, packets are sent and a leader with a
    quorum becomes the president. *)
Definition heartbeat_rest (quorate : bool) (s : t) : t * list effect :=
  let requests := if bool_decide (type s = kCandidate) then sendRequestForVotes s else [] in
  if bool_decide (type s = kLeader) then
    let promote := negb (president s) && quorate in
    (if promote then set_president true s else s,
     StartHeartbeatTimer :: requests ++ sendHeartbeat s ++ (if promote then [NodePromote] else []))
  else (s, StartHeartbeatTimer :: requests).

Definition heartbeat (s : t) : res (t * list effect) :=
  let s := tick s in
  if president s then
    assertion (negb (bool_decide (type s = kFollower)))
      (if has_quorum s then Ok (heartbeat_rest true (set_streak 0 s))
       else
         let s := set_streak (quorum_loss_streak_ s + 1) s in
         if quorum_loss_streak_ s <? quorum_loss_grace_heartbeats opt
         then Ok (s, StartHeartbeatTimer :: sendHeartbeat s)
         else let '(s, out) := stepDownToFollower kDemoteIfPresident 0 s in Ok (s, StartHeartbeatTimer :: out))
  else Ok (heartbeat_rest (has_quorum s) s).

Definition rpcAppend (version : Z) (sender : nat) (term time dv : Z) (s : t) : res (t * list effect) :=
  assertion (negb (bool_decide (type s = kLeader)))
    (if term <? current_term s
     then Ok (s, [Send sender (AEResponse (current_term s) false time (data_version s))])
     else
       let changed := negb (leader_id s =? Z.of_nat sender) in
       let s := if elector then set_data_version (Z.max (data_version s) dv) s else s in
       let s := if changed && negb elector then set_data_version version s else s in
       let '(s, sign) := signLoyaltyAgreement (set_leader_id (Z.of_nat sender) s) in
       Ok (set_type kFollower s,
           (if changed then [NodeLeader sender] else []) ++ sign ++
           [Send sender (AEResponse (current_term s) true time (data_version s)); StartElectionTimer])).

Definition rpcAppendResponse (sender : nat) (term req_time dv : Z) (s : t) : t * list effect :=
  if (term <? current_term s) || negb (bool_decide (type s = kLeader)) then (s, [])
  else
    (set_nodes (<[sender := mk_info dv (Z.max (n_heartbeat (node_ s !!! sender)) req_time) true true]> (node_ s)) s, []).

Definition grants (sender : nat) (term dv : Z) (s : t) : bool :=
  bool_decide (type s = kFollower) && (current_term s <=? term) && (data_version s <=? dv) &&
  ((loyalty_agreement s && (leader_id s =? Z.of_nat sender)) ||
   (negb (loyalty_agreement s) && ((voted_for s <? 0) || (voted_for s =? Z.of_nat sender)))).

Definition rpcReqVote (version : Z) (sender : nat) (term time dv : Z) (s : t) : t * list effect :=
  let s := if (voted_for s <? 0) && negb elector then set_data_version version s else s in
  let result := grants sender term dv s in
  (if result then set_voted_for (Z.of_nat sender) s else s,
   Send sender (RVResponse (current_term s) result time (data_version s)) ::
   (if result then [StartElectionTimer] else [])).

Definition rpcReqVoteResponse (sender : nat) (term : Z) (result : bool) (s : t) : t * list effect :=
  if (term <? current_term s) || negb (bool_decide (type s = kCandidate)) then (s, [])
  else
    let n := node_ s !!! sender in
    let s := set_nodes (<[sender := mk_info (n_data_version n) (n_heartbeat n) result true]> (node_ s)) s in
    if quorum opt <=? voteCount false s then
      let s := set_leader_id (Z.of_nat (id s)) (set_type kLeader s) in
      (s, sendHeartbeat s ++ [CancelElectionTimer])
    else (s, []).

Definition receivePacket (version : Z) (sender : nat) (p : packet) (s : t) : res (t * list effect) :=
  '(s, out1) ← checkTerm (packet_term p) s;
  '(s, out2) ←
    match p with
    | AppendEntries term time dv => rpcAppend version sender term time dv s
    | RequestVote term time dv => Ok (rpcReqVote version sender term time dv s)
    | AEResponse term _ req_time dv => Ok (rpcAppendResponse sender term req_time dv s)
    | RVResponse term result _ _ => Ok (rpcReqVoteResponse sender term result s)
    end;
  Ok (s, out1 ++ out2).

Definition demoteLeader (s : t) : t * list effect :=
  if bool_decide (type s = kFollower) then (s, []) else stepDownToFollower kRaftOnly 0 s.

(** The constructor and [init()]: the timers started at the end are the initial ones. *)
Definition init (self : nat) : t :=
  mk self kFollower 0 (-1) (-1) (election_timeout_min opt / heartbeat_period opt + 1) false true 0
     (replicate (servers opt) (mk_info 0 0 false false)) false 0.
End handlers.
End URaft.
