(* ===== verification/URaftNet.v ===== *)
(** * uRaft: the cluster and election safety

    A cluster of [uRaft] nodes (src/uraft/uraft.cc) and the packets that were ever sent.
    A step runs one handler on one node; a packet may be received any number of times, in
    any order, or never, and a timer that is running may fire at any moment.  Nodes do not
    restart: neither the term nor the vote is stored.  [MetadataDead] is the call of
    [stepDownToFollower] in src/uraft/uraftcontroller.cc; the theorems assume that it does not
    happen to a follower.  The theorems: no two nodes lead in one term
    at the same moment, and a leader was chosen by a quorum none of whose members knew a
    newer version of the metadata. *)

From S2P Require Import Prelude URaft.
Import URaft.

Module URaftNet.

(** What happens to a node. *)
Inductive event : Type :=
| Receive (sender : nat) (p : packet) (version : Z)
| ElectionTimeout (version : Z)
| Heartbeat
| LoyaltyExpired
| DemoteLeader
| MetadataDead
| SetBlockPromotion (block : bool).

(** A vote of a node that had not voted in the term yet, and the versions that were compared. *)
Record vote : Type := mk_vote {
  voter : nat;
  candidate : nat;
  vote_term : Z;
  voter_version : Z;
  candidate_version : Z;
}.

(** Nodes, whether their election timers are running, the packets sent so far with sender
    and receiver, and the first votes cast so far. *)
Record net : Type := mk_net {
  nodes : list t;
  running : list bool;
  soup : list (nat * nat * packet);
  votes : list vote;
}.

Definition sent (i : nat) (out : list effect) : list (nat * nat * packet) :=
  omap (fun e => match e with Send dst p => Some (i, dst, p) | _ => None end) out.

(** The election timer after the effects of a handler. *)
Definition timer_after (b : bool) (out : list effect) : bool :=
  foldl (fun b e => match e with StartElectionTimer => true | CancelElectionTimer => false | _ => b end) b out.

Section cluster.
Context (opt : Options) (elector : nat → bool).
(** Whether the metadata server of a follower stays alive: [uRaftController::checkNodeStatus]
    calls [stepDownToFollower] when its metadata server dies, also on a follower. *)
Context (followers_live : bool).

Definition handle (i : nat) (e : event) (s : t) : res (t * list effect) :=
  match e with
  | Receive sender p version => receivePacket opt (elector i) version sender p s
  | ElectionTimeout version => Ok (electionTimeout opt version s)
  | Heartbeat => heartbeat opt s
  | LoyaltyExpired => Ok (loyaltyExpired s, [])
  | DemoteLeader => Ok (demoteLeader s)
  | MetadataDead => Ok (stepDownToFollower kRaftOnly 0 s)
  | SetBlockPromotion block => Ok (set_block_promotion block s, [])
  end.

(** The votes that [rpcReqVote] adds to the record. *)
Definition cast (i : nat) (version : Z) (sender : nat) (term dv : Z) (s : t) : list vote :=
  let s := if (voted_for s <? 0) && negb (elector i) then set_data_version version s else s in
  if grants sender term dv s && negb (loyalty_agreement s) && (voted_for s <? 0)
  then [mk_vote i sender term (data_version s) dv] else [].

Definition recorded (i : nat) (e : event) (s : t) : list vote :=
  match e with
  | Receive sender (RequestVote term _ dv as p) version =>
      match checkTerm term s with Ok (s, _) => cast i version sender term dv s | _ => [] end
  | _ => []
  end.

(** The timer that called the handler is not running any more. *)
Definition timer_before (N : net) (i : nat) (e : event) : bool :=
  match e with ElectionTimeout _ => false | _ => running N !!! i end.

Definition update (i : nat) (s : t) (b : bool) (out : list effect) (vs : list vote) (N : net) : net :=
  mk_net (<[i := s]> (nodes N)) (<[i := b]> (running N)) (sent i out ++ soup N) (vs ++ votes N).

(** Packets come from the network; only a running timer fires, and the 64-bit term has not
    reached its end.  A timer that was cancelled does not fire, although asio may have queued its handler
    before the cancellation.  With [followers_live] the metadata server of a follower does not die. *)
Definition enabled (N : net) (i : nat) (e : event) (s : t) : Prop :=
  match e with
  | Receive sender p _ => (sender, i, p) ∈ soup N
  | ElectionTimeout _ => running N !!! i = true ∧ current_term s + 1 < 2 ^ 64
  | MetadataDead => followers_live = true → type s ≠ kFollower
  | _ => True
  end.
#[global] Instance enabled_dec N i e s : Decision (enabled N i e s).
Proof. destruct e; simpl; apply _. Defined.

Inductive step (N : net) : net → Prop :=
| step_node i e s s' out :
    nodes N !! i = Some s →
    enabled N i e s →
    handle i e s = Ok (s', out) →
    step N (update i s' (timer_after (timer_before N i e) out) out (recorded i e s) N).

Definition initial : net := mk_net (init opt <$> seq 0 (servers opt)) (replicate (servers opt) true) [] [].

Definition reachable : net → Prop := rtc step initial.

(** One step as a function, and a schedule of steps. *)
Definition exec (N : net) (i : nat) (e : event) : option net :=
  s ← nodes N !! i;
  guard (enabled N i e s);;
  match handle i e s with
  | Ok (s', out) => Some (update i s' (timer_after (timer_before N i e) out) out (recorded i e s) N)
  | _ => None
  end.

Definition schedule (es : list (nat * event)) (N : net) : option net :=
  foldl (fun N '(i, e) => N ← N; exec N i e) (Some N) es.
End cluster.

(** The quorum that [init] computes. *)
Definition options_wf (opt : Options) : Prop :=
  (0 < servers opt)%nat ∧ quorum opt = Z.of_nat (servers opt) / 2 + 1.

(** ** What a node promises about its past *)

(** How a node may change: the term never decreases, within a term a node becomes a
    candidate only by being one, a follower stays one and keeps having voted, and a node
    that is not a follower keeps its version. *)
Definition mono (s s' : t) : Prop :=
  current_term s < current_term s' ∨
  (current_term s = current_term s' ∧
   (type s' = kCandidate → type s = kCandidate) ∧
   (type s = kFollower → type s' = kFollower ∧ (0 ≤ voted_for s → 0 ≤ voted_for s')) ∧
   (type s' ≠ kFollower → data_version s' = data_version s)).

(** [x] sent a heartbeat as the leader of the term. *)
Definition led (N : net) (x : nat) (term : Z) : Prop :=
  ∃ dst time dv, (x, dst, AppendEntries term time dv) ∈ soup N.

Definition voted (N : net) (p x : nat) (term : Z) : Prop :=
  ∃ v, v ∈ votes N ∧ voter v = p ∧ candidate v = x ∧ vote_term v = term.

(** A quorum elected [x] in the term. *)
Definition elected (opt : Options) (N : net) (x : nat) (term : Z) : Prop :=
  ∃ Q, NoDup Q ∧ (∀ p, p ∈ Q → (p < servers opt)%nat) ∧ quorum opt ≤ Z.of_nat (length Q) ∧
    ∀ p, p ∈ Q → p = x ∨ voted N p x term.

Definition node_inv (opt : Options) (N : net) (i : nat) (s : t) : Prop :=
  id s = i ∧ length (node_ s) = servers opt ∧ 0 ≤ current_term s ∧
  (type s = kFollower → ∀ x, x ≠ i → leader_id s = Z.of_nat x → led N x (current_term s)) ∧
  (type s = kFollower → ∀ x, x ≠ i → voted_for s = Z.of_nat x →
     voted N i x (current_term s) ∨ led N x (current_term s)) ∧
  (type s = kCandidate → ∀ p ni, node_ s !! p = Some ni → n_vote_granted ni = true →
     p = i ∨ voted N p i (current_term s)) ∧
  (type s = kLeader → elected opt N i (current_term s)) ∧
  (type s = kCandidate → ∃ ni, node_ s !! i = Some ni ∧ n_recv ni = true) ∧
  (type s ≠ kFollower → voted_for s = Z.of_nat i) ∧
  (president s = true → type s = kLeader).

Definition msg_inv (opt : Options) (N : net) (m : nat * nat * packet) : Prop :=
  let '(x, dst, p) := m in
  x ≠ dst ∧ (dst < servers opt)%nat ∧ ∃ s, nodes N !! x = Some s ∧
  match p with
  | AppendEntries term _ _ =>
      term < current_term s ∨ (term = current_term s ∧ type s ≠ kCandidate)
  | RequestVote term _ dv =>
      term < current_term s ∨ (term = current_term s ∧ (type s ≠ kFollower → data_version s = dv))
  | AEResponse _ _ _ _ => True
  | RVResponse term result _ _ => result = true → voted N x dst term ∨ led N dst term
  end.

Definition vote_inv (N : net) (v : vote) : Prop :=
  (∃ s, nodes N !! voter v = Some s ∧
     (vote_term v < current_term s ∨
      (vote_term v = current_term s ∧ type s = kFollower ∧ 0 ≤ voted_for s))) ∧
  (∃ s, nodes N !! candidate v = Some s ∧
     (vote_term v < current_term s ∨
      (vote_term v = current_term s ∧ (type s ≠ kFollower → data_version s = candidate_version v)))) ∧
  voter_version v ≤ candidate_version v.

Definition inv (opt : Options) (N : net) : Prop :=
  length (nodes N) = servers opt ∧ length (running N) = servers opt ∧
  (∀ i s, nodes N !! i = Some s → node_inv opt N i s) ∧
  (∀ i s, nodes N !! i = Some s → type s = kLeader → running N !!! i = false) ∧
  (∀ m, m ∈ soup N → msg_inv opt N m) ∧
  (∀ v, v ∈ votes N → vote_inv N v) ∧
  (∀ v w, v ∈ votes N → w ∈ votes N → voter v = voter w → vote_term v = vote_term w → v = w).

End URaftNet.
