(* ===== verification/URaftElection.v ===== *)
(** * uRaft: election safety

    The proofs about the cluster of URaftNet: the invariant of src/uraft/uraft.cc is
    preserved by every handler, no two nodes lead in one term at the same moment, and a
    leader was chosen by a quorum none of whose members knew a newer version. *)

From S2P Require Import Prelude URaft URaftNet.
Import URaft URaftNet.

Module URaftElection.

(** ** Lists of effects *)

Lemma sent_app i a b : sent i (a ++ b) = sent i a ++ sent i b.
Proof. unfold sent. apply omap_app. Qed.

Lemma elem_of_sent i out x dst p : (x, dst, p) ∈ sent i out ↔ x = i ∧ Send dst p ∈ out.
Proof.
  unfold sent. rewrite list_elem_of_omap. split.
  - intros (e & He & E). destruct e; simplify_eq. done.
  - intros [-> He]. exists (Send dst p). done.
Qed.

Lemma elem_of_sendHeartbeat s dst p :
  Send dst p ∈ sendHeartbeat s ↔
  p = AppendEntries (current_term s) (local_time s) (data_version s) ∧ dst ≠ id s ∧ (dst < length (node_ s))%nat.
Proof.
  unfold sendHeartbeat. rewrite list_elem_of_fmap. setoid_rewrite list_elem_of_filter.
  setoid_rewrite elem_of_seq. split.
  - intros (i & E & ? & ?). simplify_eq. repeat split; [done | lia].
  - intros (-> & ? & ?). exists dst. repeat split; [done | lia | lia].
Qed.

Lemma elem_of_sendRequestForVotes s dst p :
  Send dst p ∈ sendRequestForVotes s ↔
  p = RequestVote (current_term s) (local_time s) (data_version s) ∧
  n_recv (node_ s !!! dst) = false ∧ (dst < length (node_ s))%nat.
Proof.
  unfold sendRequestForVotes. rewrite list_elem_of_fmap. setoid_rewrite list_elem_of_filter.
  setoid_rewrite elem_of_seq. split.
  - intros (i & E & ? & ?). simplify_eq. repeat split; [done | lia].
  - intros (-> & ? & ?). exists dst. repeat split; [done | lia | lia].
Qed.

(** ** Growth *)

Definition grows (N N' : net) : Prop := soup N ⊆ soup N' ∧ votes N ⊆ votes N'.

Lemma led_grows N N' x T : grows N N' → led N x T → led N' x T.
Proof. intros [Hs _] (dst & time & dv & H). exists dst, time, dv. by apply Hs. Qed.

Lemma voted_grows N N' p x T : grows N N' → voted N p x T → voted N' p x T.
Proof. intros [_ Hv] (v & H & ?). exists v. split; [by apply Hv | done]. Qed.

Lemma elected_grows opt N N' x T : grows N N' → elected opt N x T → elected opt N' x T.
Proof.
  intros Hg (Q & ? & ? & ? & HQ). exists Q. repeat split; try done.
  intros p Hp. destruct (HQ p Hp) as [-> | Hv]; [by left | right; by eapply voted_grows].
Qed.

Lemma grows_update N i s b out vs : grows N (update i s b out vs N).
Proof. split; cbn; set_solver. Qed.

Create HintDb uraft discriminated.
#[export] Hint Resolve led_grows voted_grows elected_grows grows_update : uraft.

Lemma node_inv_grows opt N N' i s : grows N N' → node_inv opt N i s → node_inv opt N' i s.
Proof.
  intros Hg (Hid & Hlen & Ht & Hl & Hv & Hc & Hle & Hr & Hn & Hp).
  split_and!; try done; eauto with uraft.
  - intros ? x ? E. destruct (Hv ltac:(done) x ltac:(done) E); eauto with uraft.
  - intros ? p ni E G. destruct (Hc ltac:(done) p ni E G); eauto with uraft.
Qed.

Lemma mono_refl s : mono s s.
Proof. right. tauto. Qed.

Lemma mono_lookup N i s s' b out vs x sx (P : t → Prop) :
  nodes N !! i = Some s → mono s s' → nodes N !! x = Some sx →
  (∀ a a', mono a a' → P a → P a') → P sx → ∃ sx', nodes (update i s' b out vs N) !! x = Some sx' ∧ P sx'.
Proof.
  intros Hi Hm Hx HP Hsx. cbn. destruct (decide (x = i)) as [-> | Hne].
  - rewrite list_lookup_insert_eq by (by eapply lookup_lt_Some). simplify_eq. eauto.
  - rewrite list_lookup_insert_ne by done. eauto.
Qed.

Lemma msg_inv_update opt N i s s' b out vs m :
  nodes N !! i = Some s → mono s s' → msg_inv opt N m → msg_inv opt (update i s' b out vs N) m.
Proof.
  intros Hi Hm. destruct m as [[x dst] p]. intros (Hne & Hd & sx & Hx & H).
  split; [done|]. split; [done|]. pose proof (grows_update N i s' b out vs) as Hg.
  eapply (mono_lookup N i s s' b out vs x sx); [done | done | done | | ].
  2: { destruct p; [exact H | exact H | exact H |]. intros E. destruct (H E); eauto with uraft. }
  intros a a' Hab. destruct p; [| | done | done].
  - destruct Hab as [? | (? & ? & ? & ?)]; intros [? | [? ?]]; [left; lia | left; lia | left; lia |].
    right. split; [lia | naive_solver].
  - destruct Hab as [? | (? & Hc & Hf & Hdv)]; intros [? | [? Hd']]; [left; lia | left; lia | left; lia |].
    right. split; [lia|]. intros Ha'. rewrite Hdv by done. apply Hd'. intros Ha. by destruct (Hf Ha).
Qed.

Lemma vote_inv_update N i s s' b out vs v :
  nodes N !! i = Some s → mono s s' → vote_inv N v → vote_inv (update i s' b out vs N) v.
Proof.
  intros Hi Hm ((sp & Hp & Hvp) & (sc & Hc & Hvc) & Hle). split_and!; [| | done].
  - eapply (mono_lookup N i s s' b out vs _ sp); [done | done | done | | exact Hvp].
    intros a a' [? | (? & ? & Hf & ?)] [? | (? & ? & ?)]; [left; lia | left; lia | left; lia |].
    right. destruct (Hf ltac:(done)). repeat split; [lia | done | tauto].
  - eapply (mono_lookup N i s s' b out vs _ sc); [done | done | done | | exact Hvc].
    intros a a' [? | (? & ? & Hf & Hdv)] [? | [? Hd']]; [left; lia | left; lia | left; lia |].
    right. split; [lia|]. intros Ha'. rewrite Hdv by done. apply Hd'. intros Ha. by destruct (Hf Ha).
Qed.

(** A step of one node preserves the invariant when the node changes as it may, keeps its
    own invariant, and its new packets and votes are as they should be. *)
Lemma update_inv opt N i s s' b out vs :
  inv opt N → nodes N !! i = Some s → mono s s' → (type s' = kLeader → b = false) →
  let N' := update i s' b out vs N in
  node_inv opt N' i s' →
  (∀ dst p, Send dst p ∈ out → msg_inv opt N' (i, dst, p)) →
  (∀ v, v ∈ vs → vote_inv N' v) →
  (∀ v w, v ∈ vs → w ∈ vs → v = w) →
  (∀ v w, v ∈ vs → w ∈ votes N → voter v = voter w → vote_term v = vote_term w → False) →
  inv opt N'.
Proof.
  intros (Hlen & Hlen2 & Hn & Hr & Hs & Hv & Hu) Hi Hm Hb N' Hn' Hs' Hv' Hu1 Hu2. split_and!.
  - cbn. by rewrite length_insert.
  - cbn. by rewrite length_insert.
  - intros j sj. cbn. destruct (decide (j = i)) as [-> | Hne].
    + rewrite list_lookup_insert_eq by (by eapply lookup_lt_Some). by intros [= <-].
    + rewrite list_lookup_insert_ne by done. intros Hj. eapply node_inv_grows; [apply grows_update | by apply Hn].
  - intros j sj. cbn. assert (i < servers opt)%nat by (rewrite <- Hlen; by eapply lookup_lt_Some).
    destruct (decide (j = i)) as [-> | Hne].
    + rewrite list_lookup_insert_eq, list_lookup_total_insert_eq by lia. by intros [= <-].
    + rewrite list_lookup_insert_ne, list_lookup_total_insert_ne by done. apply Hr.
  - intros [[x dst] p]. change (soup N') with (sent i out ++ soup N). rewrite elem_of_app. intros [Hx | Hx].
    + apply elem_of_sent in Hx as [-> Hx]. by apply Hs'.
    + eapply msg_inv_update; [done.. | by apply Hs].
  - intros v. change (votes N') with (vs ++ votes N). rewrite elem_of_app. intros [H | H]; [by apply Hv' |].
    eapply vote_inv_update; [done.. | by apply Hv].
  - intros v w. cbn. rewrite !elem_of_app. intros [H1 | H1] [H2 | H2] E1 E2; eauto.
    + destruct (Hu2 v w); done.
    + destruct (Hu2 w v); done.
Qed.

(** When nothing is sent and nothing voted. *)
Lemma update_quiet opt N i s s' b out :
  inv opt N → nodes N !! i = Some s → mono s s' → sent i out = [] → (type s' = kLeader → b = false) →
  node_inv opt N i s' → inv opt (update i s' b out [] N).
Proof.
  intros HI Hi Hm Ho Hb Hn. eapply update_inv; [done | done | done | done | | | set_solver..].
  - eapply node_inv_grows; [apply grows_update | done].
  - intros dst p Hin. exfalso. assert ((i, dst, p) ∈ sent i out) as H by (by apply elem_of_sent).
    rewrite Ho in H. by apply elem_of_nil in H.
Qed.

(** ** The handlers *)

(** What the invariant reads of a node. *)
Definition same_core (s s' : t) : Prop :=
  id s' = id s ∧ type s' = type s ∧ current_term s' = current_term s ∧ voted_for s' = voted_for s ∧
  leader_id s' = leader_id s ∧
  (fun n => (n_vote_granted n, n_recv n)) <$> node_ s' = (fun n => (n_vote_granted n, n_recv n)) <$> node_ s.

Lemma same_core_lookup s s' p ni' :
  same_core s s' → node_ s' !! p = Some ni' →
  ∃ ni, node_ s !! p = Some ni ∧ n_vote_granted ni = n_vote_granted ni' ∧ n_recv ni = n_recv ni'.
Proof.
  intros (_ & _ & _ & _ & _ & E) H. pose proof (f_equal (.!! p) E) as Ep. cbn in Ep.
  rewrite !list_lookup_fmap, H in Ep. cbn in Ep. symmetry in Ep. apply fmap_Some in Ep as (ni & ? & ?).
  exists ni. by simplify_eq.
Qed.

Lemma same_core_sym s s' : same_core s s' → same_core s' s.
Proof. intros (?&?&?&?&?&?). by split_and!. Qed.

Lemma node_inv_core opt N i s s' :
  same_core s s' → (president s' = true → type s' = kLeader) → node_inv opt N i s → node_inv opt N i s'.
Proof.
  intros Hc Hp' (Hid & Hlen & Ht & Hl & Hv & Hca & Hle & Hr & Hn & Hp).
  pose proof Hc as (E1 & E2 & E3 & E4 & E5 & E6). unfold node_inv. rewrite E2 in *. rewrite E1, E3, E4, E5.
  split_and!; try done.
  - apply (f_equal length) in E6. rewrite !length_fmap in E6. congruence.
  - intros Et p ni Hpn G. destruct (same_core_lookup s s' p ni Hc Hpn) as (ni0 & H0 & G0 & _).
    apply (Hca Et p ni0 H0). congruence.
  - intros Et. destruct (Hr Et) as (ni & Hni & Hnr).
    destruct (same_core_lookup s' s i ni (same_core_sym _ _ Hc) Hni) as (ni0 & H0 & _ & G0).
    exists ni0. split; [done | congruence].
Qed.

Lemma same_core_mono s s' :
  same_core s s' → (type s ≠ kFollower → data_version s' = data_version s) → mono s s'.
Proof. intros (_ & E2 & E3 & E4 & _) H. right. rewrite E2, E3, E4. tauto. Qed.

Lemma nodes_update N i s s' b out vs : nodes N !! i = Some s → nodes (update i s' b out vs N) !! i = Some s'.
Proof. intros H. cbn. apply list_lookup_insert_eq. by eapply lookup_lt_Some. Qed.

Lemma inv_node opt N i s : inv opt N → nodes N !! i = Some s → node_inv opt N i s.
Proof. intros (_ & _ & H & _). apply H. Qed.

Lemma inv_running opt N i s : inv opt N → nodes N !! i = Some s → type s = kLeader → running N !!! i = false.
Proof. intros (_ & _ & _ & H & _). apply H. Qed.

Lemma inv_msg opt N m : inv opt N → m ∈ soup N → msg_inv opt N m.
Proof. intros (_ & _ & _ & _ & H & _). apply H. Qed.

Lemma inv_lt opt N i s : inv opt N → nodes N !! i = Some s → (i < servers opt)%nat.
Proof. intros [<- _]. apply lookup_lt_Some. Qed.

Lemma update_update i s b s' b' out vs N :
  update i s' b' out vs (update i s b [] [] N) = update i s' b' out vs N.
Proof. unfold update. cbn. by rewrite !list_insert_insert_eq. Qed.

(** [stepDownToFollower]. *)
Lemma stepDown_spec opt N i s pol T :
  inv opt N → nodes N !! i = Some s →
  (T = 0 ∧ type s ≠ kFollower ∨ current_term s < T) →
  let '(s', out) := stepDownToFollower pol T s in
  sent i out = [] ∧ current_term s' = (if 0 <? T then T else current_term s) ∧ mono s s' ∧ node_inv opt N i s'.
Proof.
  intros HI Hi HT. pose proof (inv_node _ _ _ _ HI Hi) as (Hid & Hlen & Ht & _).
  cbn [stepDownToFollower]. split_and!.
  - rewrite sent_app. by destruct (president s), pol.
  - done.
  - unfold mono. cbn. destruct HT as [[-> HT] | HT].
    + right. cbn. split_and!; [done | done | by intros | done].
    + left. destruct (Z.ltb_spec 0 T); lia.
  - unfold node_inv. cbn. split_and!; try done; try (intros; lia).
    destruct (Z.ltb_spec 0 T); lia.
Qed.

Lemma stepDown_inv opt N i s pol T s' b out :
  inv opt N → nodes N !! i = Some s →
  (T = 0 ∧ type s ≠ kFollower ∨ current_term s < T) →
  stepDownToFollower pol T s = (s', out) → inv opt (update i s' b out [] N).
Proof.
  intros HI Hi HT E. pose proof (stepDown_spec opt N i s pol T HI Hi HT) as H. rewrite E in H.
  destruct H as (? & _ & ? & ?). eapply update_quiet; try done. unfold stepDownToFollower in E. by simplify_eq.
Qed.

Lemma unchanged_inv opt N i s : inv opt N → nodes N !! i = Some s → inv opt (update i s (running N !!! i) [] [] N).
Proof.
  intros HI Hi. eapply update_quiet; [done | done | apply mono_refl | done | | by apply inv_node].
  by eapply inv_running.
Qed.

Lemma checkTerm_inv opt N i s term s' out :
  inv opt N → nodes N !! i = Some s → checkTerm term s = Ok (s', out) →
  sent i out = [] ∧ term ≤ current_term s' ∧
  inv opt (update i s' (timer_after (running N !!! i) out) [] [] N).
Proof.
  intros HI Hi. unfold checkTerm. destruct (Z.ltb_spec (current_term s) term) as [Hlt | Hge].
  - pose proof (stepDown_spec opt N i s kDemoteIfPresident term HI Hi (or_intror Hlt)) as H.
    destruct (stepDownToFollower kDemoteIfPresident term s) as [s1 o1] eqn:Es.
    destruct H as (Ho & Ht & Hm & Hn). unfold assertion.
    destruct (negb (president s) || _); [| done]. intros [= -> ->]. split; [done|]. split.
    { pose proof (inv_node _ _ _ _ HI Hi) as (_ & _ & H0 & _). destruct (Z.ltb_spec 0 term); lia. }
    eapply update_quiet; [done | done | done | done | | done]. unfold stepDownToFollower in Es. by simplify_eq.
  - intros [= <- <-]. split; [done|]. split; [lia|]. by apply unchanged_inv.
Qed.

Lemma heartbeat_packets opt N i s s0 dst p :
  nodes N !! i = Some s → id s0 = i → length (node_ s0) = servers opt →
  current_term s0 = current_term s → type s ≠ kCandidate →
  Send dst p ∈ sendHeartbeat s0 → msg_inv opt N (i, dst, p).
Proof.
  intros Hi Hid Hlen Ht Hty (-> & Hd & Hlt)%elem_of_sendHeartbeat.
  split_and!; [by subst | lia |]. exists s. split; [done|]. right. done.
Qed.

Lemma request_packets opt N i s s0 dst p :
  nodes N !! i = Some s → id s0 = i → length (node_ s0) = servers opt →
  current_term s0 = current_term s → data_version s0 = data_version s →
  (∃ ni, node_ s0 !! i = Some ni ∧ n_recv ni = true) →
  Send dst p ∈ sendRequestForVotes s0 → msg_inv opt N (i, dst, p).
Proof.
  intros Hi Hid Hlen Ht Hdv (ni & Hni & Hr) (-> & Hd & Hlt)%elem_of_sendRequestForVotes.
  split_and!.
  - intros <-. rewrite (list_lookup_total_correct _ _ _ Hni) in Hd. congruence.
  - lia.
  - exists s. split; [done|]. right. done.
Qed.

(** [electionTimeout]. *)
Lemma electionTimeout_inv opt version N i s s' out :
  inv opt N → nodes N !! i = Some s → current_term s + 1 < 2 ^ 64 → type s ≠ kLeader →
  electionTimeout opt version s = (s', out) → inv opt (update i s' (timer_after false out) out [] N).
Proof.
  intros HI Hi Hmax Hty E. pose proof (inv_node _ _ _ _ HI Hi) as (Hid & Hlen & Ht & _ & _ & _ & _ & _ & _ & Hp).
  pose proof (inv_lt _ _ _ _ HI Hi) as Hlt.
  unfold electionTimeout in E. rewrite (wrapu_small 64 (current_term s + 1)) in E by lia.
  assert (president s = false) as Hnp by (destruct (president s); [by destruct Hty; apply Hp | done]).
  destruct (block_leader_promotion_ s).
  { simplify_eq. eapply update_quiet; [done | done | apply mono_refl | done | done | by apply inv_node]. }
  destruct (Z.ltb_spec 1 (quorum opt)) as [Hq | Hq]; simplify_eq.
  - eapply update_inv; [done | done | left; cbn; lia | done | | | set_solver..].
    + unfold node_inv. cbn. rewrite length_insert, length_fmap, Hnp. split_and!; try done; [lia | |].
      * intros _ p ni. destruct (decide (p = id s)) as [-> | Hne]; [by left |].
        rewrite list_lookup_insert_ne by done. rewrite list_lookup_fmap.
        intros (? & ? & ->)%fmap_Some. done.
      * intros _. rewrite list_lookup_insert_eq by (rewrite length_fmap; lia). eauto.
    + intros dst p [Hp' | Hp']%elem_of_app; [| set_solver].
      eapply request_packets in Hp'; [exact Hp' | by eapply nodes_update | ..]; cbn.
      * done.
      * by rewrite length_insert, length_fmap.
      * done.
      * done.
      * rewrite list_lookup_insert_eq by (rewrite length_fmap; lia). eauto.
  - eapply update_quiet; [done | done | left; cbn; lia | done | done |].
    unfold node_inv. cbn. rewrite length_insert, length_fmap, Hnp. split_and!; try done; [lia |].
    intros _. exists [id s]. split_and!.
    + apply NoDup_singleton.
    + intros p ->%list_elem_of_singleton. done.
    + cbn. lia.
    + intros p ->%list_elem_of_singleton. by left.
Qed.

Lemma sent_nil_elem i out : sent i out = [] → ∀ dst p, Send dst p ∉ out.
Proof.
  intros E dst p H. assert ((i, dst, p) ∈ sent i out) as H' by (by apply elem_of_sent).
  rewrite E in H'. by apply elem_of_nil in H'.
Qed.

Lemma timer_sends b out :
  (∀ e, e ∈ out → e ≠ StartElectionTimer ∧ e ≠ CancelElectionTimer) → timer_after b out = b.
Proof.
  revert b. induction out as [| e out IH]; intros b H; [done|]. cbn.
  destruct (H e ltac:(left)) as [H1 H2].
  assert (∀ e', e' ∈ out → e' ≠ StartElectionTimer ∧ e' ≠ CancelElectionTimer) as H' by (intros; apply H; by right).
  transitivity (timer_after b out); [unfold timer_after; by destruct e | by apply IH].
Qed.

Lemma sendHeartbeat_no_timer s e : e ∈ sendHeartbeat s → ∃ dst p, e = Send dst p.
Proof. intros (i & -> & _)%list_elem_of_fmap. eauto. Qed.

Lemma sendRequestForVotes_no_timer s e : e ∈ sendRequestForVotes s → ∃ dst p, e = Send dst p.
Proof. intros (i & -> & _)%list_elem_of_fmap. eauto. Qed.

Lemma tick_core s : same_core s (tick s).
Proof.
  unfold same_core, tick. cbn. split_and!; try done. rewrite list_fmap_insert. cbn.
  apply list_insert_id'. intros H. rewrite list_lookup_fmap. rewrite length_fmap in H.
  by rewrite (list_lookup_lookup_total_lt _ _ H).
Qed.

Lemma streak_core k s s' : same_core s s' → same_core s (set_streak k s').
Proof. done. Qed.

Lemma president_core b s s' : same_core s s' → same_core s (set_president b s').
Proof. done. Qed.

(** A handler that keeps the core and the election timer, and sends what its state allows. *)
Definition keeps (s s' : t) (out : list effect) : Prop :=
  same_core s s' ∧ data_version s' = data_version s ∧ (president s' = true → type s' = kLeader) ∧
  (∀ b, timer_after b out = b) ∧
  ∀ dst p, Send dst p ∈ out →
    (type s = kLeader ∧ Send dst p ∈ sendHeartbeat s') ∨
    (type s = kCandidate ∧ Send dst p ∈ sendRequestForVotes s').

Lemma keeps_inv opt N i s s' out :
  inv opt N → nodes N !! i = Some s → keeps s s' out →
  inv opt (update i s' (timer_after (running N !!! i) out) out [] N).
Proof.
  intros HI Hi (Hc & Hdv & Hp & Hb & Ho). pose proof (inv_node _ _ _ _ HI Hi) as Hn.
  assert (node_inv opt N i s') as Hn' by (by eapply node_inv_core).
  pose proof Hn' as (Hid & Hlen & _ & _ & _ & _ & _ & Hr & _). pose proof Hc as (_ & Hty & _).
  rewrite Hb. eapply update_inv; [done | done | by apply same_core_mono | | | | set_solver..].
  - rewrite Hty. by eapply inv_running.
  - eapply node_inv_grows; [apply grows_update | done].
  - intros dst p Hs. destruct (Ho dst p Hs) as [[Ht Hin] | [Ht Hin]].
    + eapply heartbeat_packets; [by eapply nodes_update | done | done | done | congruence | done].
    + eapply request_packets; [by eapply nodes_update | done | done | done | done | apply Hr; congruence | done].
Qed.

Lemma heartbeat_rest_keeps s q s1 s' out :
  same_core s s1 → data_version s1 = data_version s → (president s1 = true → type s1 = kLeader) →
  heartbeat_rest q s1 = (s', out) → keeps s s' out.
Proof.
  intros Hc Hd Hp1 E. pose proof Hc as (_ & Hty & _). unfold heartbeat_rest in E.
  case_bool_decide as Hca; case_bool_decide as Hl; [congruence | | |]; simplify_eq.
  - set (promote := negb (president s1) && q). unfold keeps; cbn [app]; split_and!; try (by destruct promote).
    + intros b. apply timer_sends. intros e [-> | [He | He]%elem_of_app]%elem_of_cons; [done | |].
      * by apply sendHeartbeat_no_timer in He as (? & ? & ->).
      * destruct promote; set_solver.
    + intros dst p [? | [He | He]%elem_of_app]%elem_of_cons; [done | left | destruct promote; set_solver].
      split; [congruence | by destruct promote].
  - unfold keeps; split_and!; try done.
    + intros b. apply timer_sends. intros e [-> | He]%elem_of_cons; [done |].
      by apply sendRequestForVotes_no_timer in He as (? & ? & ->).
    + intros dst p [? | ?]%elem_of_cons; [done | right]. split; [congruence | done].
  - unfold keeps; split_and!; try done. intros dst p [? | He]%elem_of_cons; [done | set_solver].
Qed.

(** [heartbeat]: either the core is kept, or a president steps down. *)
Lemma heartbeat_cases opt s s' out :
  heartbeat opt s = Ok (s', out) → (president s = true → type s = kLeader) →
  keeps s s' out ∨
  ∃ k out', type s = kLeader ∧ stepDownToFollower kDemoteIfPresident 0 (set_streak k (tick s)) = (s', out') ∧
    out = StartHeartbeatTimer :: out'.
Proof.
  intros E Hp. pose proof (tick_core s) as Htc. unfold heartbeat in E.
  change (president (tick s)) with (president s) in E. destruct (president s) eqn:Hpr.
  2: { left. eapply heartbeat_rest_keeps; [done | done | | by injection E]. cbn. congruence. }
  specialize (Hp eq_refl). unfold assertion in E. destruct (negb _); [|done]. destruct (has_quorum opt (tick s)).
  { left. eapply heartbeat_rest_keeps; [by apply streak_core | done | done | by injection E]. }
  destruct (_ <? _).
  - left. simplify_eq. unfold keeps; split_and!; try done.
    + intros b. apply timer_sends. intros e [-> | He]%elem_of_cons; [done |].
      by apply sendHeartbeat_no_timer in He as (? & ? & ->).
    + intros dst p [? | He]%elem_of_cons; [done | by left].
  - right. destruct (stepDownToFollower _ _ _) as [s2 o2] eqn:Es. simplify_eq. eauto.
Qed.

Lemma heartbeat_inv opt N i s s' out :
  inv opt N → nodes N !! i = Some s → heartbeat opt s = Ok (s', out) →
  inv opt (update i s' (timer_after (running N !!! i) out) out [] N).
Proof.
  intros HI Hi E. pose proof (inv_node _ _ _ _ HI Hi) as (_ & _ & _ & _ & _ & _ & _ & _ & _ & Hp).
  destruct (heartbeat_cases opt s s' out E Hp) as [H | (k & out' & Hty & Es & ->)]; [by eapply keeps_inv |].
  assert (inv opt (update i (set_streak k (tick s)) (running N !!! i) [] [] N)) as HI1.
  { eapply (keeps_inv opt N i s _ []); [done | done |].
    unfold keeps; split_and!; [apply streak_core, tick_core | done | done | done | set_solver]. }
  assert (type (set_streak k (tick s)) ≠ kFollower) as Hnf by (change (type s ≠ kFollower); congruence).
  pose proof (stepDown_inv opt _ i (set_streak k (tick s)) kDemoteIfPresident 0 s'
    (timer_after (running N !!! i) out') out' HI1 ltac:(by eapply nodes_update)
    (or_introl (conj eq_refl Hnf)) Es) as H.
  by rewrite update_update in H.
Qed.

(** [rpcAppend]. *)
Lemma rpcAppend_inv opt el version N i s sender term time dv s' b out :
  inv opt N → nodes N !! i = Some s → (sender, i, AppendEntries term time dv) ∈ soup N → term ≤ current_term s →
  rpcAppend el version sender term time dv s = Ok (s', out) → inv opt (update i s' b out [] N).
Proof.
  intros HI Hi Hin Hterm E. pose proof (inv_node _ _ _ _ HI Hi) as Hn.
  pose proof (inv_msg _ _ _ HI Hin) as (Hne & _ & (sx & Hx & _)).
  pose proof (inv_lt _ _ _ _ HI Hx) as Hlt.
  unfold rpcAppend, assertion in E. case_bool_decide as Hty; [done|]. cbn [negb] in E.
  assert (∀ N' s0 r v, nodes N' !! i = Some s0 → msg_inv opt N' (i, sender, AEResponse r v time (data_version s0)))
    as Hresp by (intros N' s0 r v H0; repeat split; [done | done | by exists s0]).
  destruct (Z.ltb_spec term (current_term s)) as [Hst | Hst].
  - simplify_eq. eapply update_inv; [done | done | apply mono_refl | done | | | set_solver..].
    + eapply node_inv_grows; [apply grows_update | done].
    + intros dst p ?%list_elem_of_singleton. simplify_eq. eapply Hresp, nodes_update; done.
  - assert (term = current_term s) as -> by lia.
    destruct Hn as (Hid & Hlen & Ht & Hl & Hv & Hca & Hle & Hr & Hnf & Hp).
    set (s1 := if el then _ else s) in E. set (s2 := if _ && negb el then _ else s1) in E.
    assert (∃ d, s2 = set_data_version d s) as [d Es2].
    { unfold s2, s1. destruct (_ && _), el; first [by eexists | exists (data_version s); by destruct s]. }
    rewrite Es2 in E. cbn in E. simplify_eq. eapply update_inv; [done | done | | done | | | set_solver..].
    + right. cbn. split_and!; try done.
    + unfold node_inv. cbn. split_and!; try done.
      * intros _ x Hx' ?%Nat2Z.inj. subst x. exists (id s), time, dv. cbn. set_solver.
      * intros _ x Hx' Ev. destruct (decide (type s = kFollower)) as [Hf | Hf].
        { destruct (Hv Hf x Hx' Ev); eauto with uraft. }
        rewrite (Hnf Hf) in Ev. apply Nat2Z.inj in Ev. congruence.
      * intros Hpr. destruct Hty. by apply Hp.
    + intros dst p H. assert (∃ r v d', p = AEResponse r v time d' ∧ dst = sender) as (r & v & d' & -> & ->).
      { destruct (negb _); set_solver. }
      repeat split; [done | done |]. eexists. split; [by eapply nodes_update | done].
Qed.

(** [rpcAppendResponse]. *)
Lemma rpcAppendResponse_inv opt N i s sender term time dv s' out :
  inv opt N → nodes N !! i = Some s →
  rpcAppendResponse sender term time dv s = (s', out) →
  inv opt (update i s' (timer_after (running N !!! i) out) out [] N).
Proof.
  intros HI Hi E. pose proof (inv_node _ _ _ _ HI Hi) as (Hid & Hlen & Ht & Hl & Hv & Hca & Hle & Hr & Hnf & Hp).
  unfold rpcAppendResponse in E. case_bool_decide as Hty; cbn [negb] in E.
  2: { rewrite orb_true_r in E. simplify_eq. by apply unchanged_inv. }
  destruct (_ || _); simplify_eq; [by apply unchanged_inv |].
  eapply update_quiet; [done | done | | done | by intros; eapply inv_running |].
  - right. cbn. rewrite Hty. split_and!; done.
  - unfold node_inv. cbn. rewrite length_insert. rewrite Hty in *. split_and!; try done; eauto.
Qed.

(** [rpcReqVote]. *)
Definition refreshed (el : bool) (version : Z) (s : t) : t :=
  if (voted_for s <? 0) && negb el then set_data_version version s else s.

Lemma refreshed_core el version s : same_core s (refreshed el version s).
Proof. unfold refreshed. by destruct (_ && _). Qed.

Lemma refreshed_version opt N i el version s :
  node_inv opt N i s → type s ≠ kFollower → data_version (refreshed el version s) = data_version s.
Proof.
  intros (_ & _ & _ & _ & _ & _ & _ & _ & Hnf & _) Hty. unfold refreshed.
  by rewrite (proj2 (Z.ltb_ge (voted_for s) 0)) by (rewrite Hnf by done; lia).
Qed.

Lemma refreshed_president el version s :
  president (refreshed el version s) = president s ∧ loyalty_agreement (refreshed el version s) = loyalty_agreement s.
Proof. unfold refreshed. by destruct (_ && _). Qed.

(** What a granted vote rests on. *)
Lemma granted_spec opt elector N i s version sender term dv :
  let s0 := refreshed (elector i) version s in
  node_inv opt N i s → sender ≠ i → term ≤ current_term s → grants sender term dv s0 = true →
  type s = kFollower ∧ term = current_term s ∧ data_version s0 ≤ dv ∧
  (led N sender term ∨ voted N i sender term ∨
   (voted_for s < 0 ∧ cast elector i version sender term dv s = [mk_vote i sender term (data_version s0) dv])).
Proof.
  intros s0 (_ & _ & _ & Hl & Hv & _) Hne Hterm G. pose proof G as G'.
  pose proof (refreshed_core (elector i) version s) as (_ & Ety & Et & Ev & El & _).
  pose proof (refreshed_president (elector i) version s) as [_ Ely]. fold s0 in Ety, Et, Ev, El, Ely.
  unfold grants in G'. rewrite Ety, Et, Ev, El, Ely in G'.
  apply andb_prop in G' as [[[G1 G2]%andb_prop G3]%andb_prop G4].
  apply bool_decide_eq_true_1 in G1. assert (term = current_term s) as -> by lia.
  split_and!; [done | done | lia |].
  apply orb_prop in G4 as [[H1 H2]%andb_prop | [H1 H2]%andb_prop].
  - left. apply Hl; [done | done | lia].
  - apply orb_prop in H2 as [H2 | H2].
    + right; right. split; [lia|]. unfold cast. fold (refreshed (elector i) version s). fold s0.
      rewrite G, Ely, Ev, H1, H2. done.
    + destruct (Hv G1 sender Hne ltac:(lia)); eauto.
Qed.

Lemma cast_spec elector i version sender term dv s v :
  let s0 := refreshed (elector i) version s in
  v ∈ cast elector i version sender term dv s →
  v = mk_vote i sender term (data_version s0) dv ∧ grants sender term dv s0 = true ∧ voted_for s < 0.
Proof.
  intros s0. unfold cast. fold (refreshed (elector i) version s). fold s0.
  pose proof (refreshed_core (elector i) version s) as (_ & _ & _ & Ev & _). fold s0 in Ev. rewrite Ev.
  destruct (grants _ _ _ _); [| set_solver]. destruct (loyalty_agreement s0); [set_solver |].
  destruct (Z.ltb_spec (voted_for s) 0); [| set_solver]. intros ->%list_elem_of_singleton. done.
Qed.

Lemma rpcReqVote_inv opt elector version N i s sender term time dv s' out :
  inv opt N → nodes N !! i = Some s → (sender, i, RequestVote term time dv) ∈ soup N → term ≤ current_term s →
  rpcReqVote (elector i) version sender term time dv s = (s', out) →
  inv opt (update i s' (timer_after (running N !!! i) out) out (cast elector i version sender term dv s) N).
Proof.
  intros HI Hi Hin Hterm E. pose proof (inv_node _ _ _ _ HI Hi) as Hn.
  pose proof (inv_msg _ _ _ HI Hin) as (Hne & _ & (sx & Hx & Hmx)).
  pose proof (inv_lt _ _ _ _ HI Hx) as Hlt.
  pose proof (refreshed_core (elector i) version s) as Hc.
  pose proof (refreshed_president (elector i) version s) as [Epr _].
  unfold rpcReqVote in E. fold (refreshed (elector i) version s) in E.
  pose proof (granted_spec opt elector N i s version sender term dv Hn Hne Hterm) as Hgr.
  pose proof (cast_spec elector i version sender term dv s) as Hcast.
  set (s0 := refreshed (elector i) version s) in *. cbn zeta in *.
  pose proof Hc as (Eid & Ety & Et & Ev & El & En).
  assert (node_inv opt N i s0) as Hn0.
  { eapply node_inv_core; [done | | done]. rewrite Epr, Ety. apply Hn. }
  destruct (grants sender term dv s0) eqn:G; simplify_eq.
  2: { assert (cast elector i version sender term dv s = []) as ->.
       { destruct (cast _ _ _ _ _ _ _) as [| v l]; [done|]. by destruct (Hcast v ltac:(left)) as (_ & ? & _). }
       eapply update_inv; [done | done | | | | | set_solver..].
       - apply same_core_mono; [done | by eapply refreshed_version].
       - rewrite Ety. cbn. by eapply inv_running.
       - eapply node_inv_grows; [apply grows_update | done].
       - intros dst p ?%list_elem_of_singleton. simplify_eq. repeat split; [done | done |].
         eexists. split; [by eapply nodes_update | done]. }
  destruct (Hgr eq_refl) as (Hf & -> & Hver & Hwhy).
  set (N' := update i _ _ _ _ N).
  assert (nodes N' !! i = Some (set_voted_for (Z.of_nat sender) s0)) as HiN by (by eapply nodes_update).
  assert (voted N' i sender (current_term s) ∨ led N' sender (current_term s)) as Hvl.
  { assert (grows N N') as Hg by apply grows_update.
    destruct Hwhy as [? | [? | [? Ec]]]; [right; by eapply led_grows | left; by eapply voted_grows | left].
    exists (mk_vote i sender (current_term s) (data_version s0) dv). split; [| done]. cbn. rewrite Ec. set_solver. }
  rewrite <- Et in Hvl.
  eapply update_inv; [done | done | | cbn; congruence | | | | |].
  - right. cbn. rewrite Ety, Et, Hf. split_and!; try done. intros _. split; [done | lia].
  - destruct Hn0 as (Hid & Hlen & Ht0 & Hl & Hv & Hca & Hle & Hr & Hnf & Hp).
    unfold node_inv. cbn. rewrite Ety, Hf in *. split_and!; try done.
    + intros _ x Hx' E'. specialize (Hl eq_refl x Hx' E'). eapply led_grows; [apply grows_update | done].
    + intros _ x Hx' Ex. apply Nat2Z.inj in Ex. subst x. exact Hvl.
  - intros dst p [? | ?%list_elem_of_singleton]%elem_of_cons; [simplify_eq | done].
    repeat split; [done | done |]. eexists. split; [exact HiN |]. intros _. exact Hvl.
  - intros v Hvin. destruct (Hcast v Hvin) as (-> & _ & _). split_and!; cbn [voter candidate vote_term].
    + eexists. split; [exact HiN |]. right. cbn. rewrite Et, Ety. split_and!; [done | done | lia].
    + exists sx. split; [| exact Hmx]. cbn. by rewrite list_lookup_insert_ne.
    + done.
  - intros v w Hv Hw. destruct (Hcast v Hv) as (-> & _ & _), (Hcast w Hw) as (-> & _ & _). done.
  - intros v w Hv Hw E1 E2. destruct (Hcast v Hv) as (-> & _ & Hneg). cbn in E1, E2.
    destruct HI as (_ & _ & _ & _ & _ & HV & _). destruct (HV w Hw) as ((sp & Hsp & Hsw) & _).
    rewrite <- E1, Hi in Hsp. simplify_eq. lia.
Qed.

(** [voteCount] counts nodes. *)
Definition voters (opt : Options) (count_loyal : bool) (s : t) : list nat :=
  filter (fun p => votes_for opt count_loyal s (node_ s !!! p) = true) (seq 0 (length (node_ s))).

Lemma voteCount_voters opt count_loyal s : voteCount opt count_loyal s = Z.of_nat (length (voters opt count_loyal s)).
Proof.
  unfold voteCount, voters.
  assert (node_ s = (fun p => node_ s !!! p) <$> seq 0 (length (node_ s))) as E.
  { apply list_eq. intros p. rewrite list_lookup_fmap. destruct (node_ s !! p) as [n |] eqn:Hp.
    - rewrite lookup_seq_lt by (by eapply lookup_lt_Some). cbn. by rewrite (list_lookup_total_correct _ _ _ Hp).
    - rewrite lookup_seq_ge by (by apply lookup_ge_None). done. }
  rewrite E at 1. rewrite <- list_fmap_compose. unfold compose. clear E.
  induction (seq 0 (length (node_ s))) as [| p l IH]; [done|].
  rewrite fmap_cons, filter_cons. unfold zsum in *. cbn [foldr]. rewrite IH.
  destruct (votes_for _ _ _ (node_ s !!! p)); case_decide; cbn [length]; done || lia.
Qed.

Lemma voters_NoDup opt cl s : NoDup (voters opt cl s).
Proof. apply NoDup_filter, NoDup_seq. Qed.

Lemma elem_of_voters opt cl s p :
  p ∈ voters opt cl s ↔ ∃ ni, node_ s !! p = Some ni ∧ votes_for opt cl s ni = true.
Proof.
  unfold voters. rewrite list_elem_of_filter, elem_of_seq. split.
  - intros [H1 [_ H2]]. exists (node_ s !!! p). split; [by apply list_lookup_lookup_total_lt | done].
  - intros (ni & Hp & H). rewrite (list_lookup_total_correct _ _ _ Hp). split; [done|].
    apply lookup_lt_Some in Hp. lia.
Qed.

Lemma not_led_candidate opt N i s :
  inv opt N → nodes N !! i = Some s → type s = kCandidate → ¬ led N i (current_term s).
Proof.
  intros HI Hi Hty (dst & time & dv & Hin). destruct (inv_msg _ _ _ HI Hin) as (_ & _ & sx & Hx & H).
  simplify_eq. destruct H as [? | [_ ?]]; [lia | done].
Qed.

(** [rpcReqVoteResponse]. *)
Lemma rpcReqVoteResponse_inv opt N i s sender term result time dv s' out :
  inv opt N → nodes N !! i = Some s → (sender, i, RVResponse term result time dv) ∈ soup N → term ≤ current_term s →
  rpcReqVoteResponse opt sender term result s = (s', out) →
  inv opt (update i s' (timer_after (running N !!! i) out) out [] N).
Proof.
  intros HI Hi Hin Hterm E.
  pose proof (inv_node _ _ _ _ HI Hi) as (Hid & Hlen & Ht & Hl & Hv & Hca & Hle & Hr & Hnf & Hp).
  pose proof (inv_msg _ _ _ HI Hin) as (Hne & _ & (sx & Hx & Hmx)). pose proof (inv_lt _ _ _ _ HI Hx) as Hlt.
  unfold rpcReqVoteResponse in E. case_bool_decide as Hty; cbn [negb] in E.
  2: { rewrite orb_true_r in E. simplify_eq. by apply unchanged_inv. }
  rewrite orb_false_r in E. destruct (Z.ltb_spec term (current_term s)); [simplify_eq; by apply unchanged_inv |].
  assert (term = current_term s) as -> by lia.
  set (s1 := set_nodes _ s) in E.
  assert (∀ p ni, node_ s1 !! p = Some ni → n_vote_granted ni = true → p = i ∨ voted N p i (current_term s)) as Hg.
  { intros p ni. cbn. destruct (decide (p = sender)) as [-> | Hps].
    - rewrite list_lookup_insert_eq by lia. intros [= <-]. cbn. intros ->. right.
      destruct (Hmx eq_refl) as [H1 | H1]; [done | by eapply not_led_candidate in H1].
    - rewrite list_lookup_insert_ne by done. by apply Hca. }
  assert (length (node_ s1) = servers opt) as Hlen1 by (cbn; by rewrite length_insert).
  assert (president s = false) as Hnp by (destruct (president s); [rewrite Hp in Hty by done |]; done).
  destruct (Z.leb_spec (quorum opt) (voteCount opt false s1)) as [Hq | Hq]; injection E as <- <-.
  - eapply update_inv; [done | done | | | | | set_solver..].
    + right. cbn. rewrite Hty. split_and!; done.
    + intros _. unfold timer_after. by rewrite foldl_app.
    + unfold node_inv. cbn [id type current_term voted_for leader_id node_ president set_leader_id set_type].
      split_and!; try done.
      * intros _. exists (voters opt false s1). split_and!.
        -- apply voters_NoDup.
        -- intros p (ni & Hp1 & _)%elem_of_voters. apply lookup_lt_Some in Hp1. by rewrite Hlen1 in Hp1.
        -- by rewrite <- voteCount_voters.
        -- intros p (ni & Hp1 & Hvg)%elem_of_voters. unfold votes_for in Hvg. cbn in Hvg.
           rewrite orb_false_r in Hvg. destruct (Hg p ni Hp1 Hvg); [by left | right].
           by eapply voted_grows; [apply grows_update |].
      * intros _. apply Hnf. by rewrite Hty.
    + intros dst p [Hp1 | Hp1]%elem_of_app; [| set_solver].
      eapply heartbeat_packets in Hp1; [exact Hp1 | by eapply nodes_update | done | done | done | done].
  - eapply update_quiet; [done | done | | done | cbn; congruence |].
    + right. cbn. rewrite Hty. split_and!; done.
    + unfold node_inv. cbn [id type current_term voted_for leader_id president set_nodes].
      change (type s1) with (type s). rewrite Hty in *. split_and!; try done.
      * intros _. destruct (Hr eq_refl) as (ni & Hni & Hrn). exists ni. split; [| done]. cbn.
        by rewrite list_lookup_insert_ne.
Qed.

(** ** Every step *)

Lemma timer_after_app b o1 o2 : timer_after b (o1 ++ o2) = timer_after (timer_after b o1) o2.
Proof. apply foldl_app. Qed.

Lemma receivePacket_inv opt elector N i s sender p version s' out :
  inv opt N → nodes N !! i = Some s → (sender, i, p) ∈ soup N →
  receivePacket opt (elector i) version sender p s = Ok (s', out) →
  inv opt (update i s' (timer_after (running N !!! i) out) out (recorded elector i (Receive sender p version) s) N).
Proof.
  intros HI Hi Hin E. unfold receivePacket in E.
  destruct (checkTerm (packet_term p) s) as [[s1 o1] | | |] eqn:Ec; [cbn [mbind res_bind] in E | done..].
  destruct (checkTerm_inv opt N i s _ s1 o1 HI Hi Ec) as (Ho1 & Ht1 & HI1).
  set (N1 := update i s1 _ [] [] N) in HI1.
  assert (nodes N1 !! i = Some s1) as Hi1 by (by eapply nodes_update).
  assert (running N1 !!! i = timer_after (running N !!! i) o1) as Hr1.
  { cbn. apply list_lookup_total_insert_eq. destruct HI as (_ & -> & _ ). by eapply inv_lt. }
  assert (∀ s2 o2 vs,
    inv opt (update i s2 (timer_after (running N1 !!! i) o2) o2 vs N1) →
    inv opt (update i s2 (timer_after (running N !!! i) (o1 ++ o2)) (o1 ++ o2) vs N)) as Hfin.
  { intros s2 o2 vs H. unfold N1 at 2 in H. rewrite update_update in H. rewrite Hr1 in H.
    rewrite timer_after_app. unfold update in *. by rewrite sent_app, Ho1. }
  destruct p as [term time dv | term time dv | term r time dv | term r time dv]; cbn [mbind res_bind packet_term] in E, Ht1, Ec.
  - destruct (rpcAppend _ _ _ _ _ _ _) as [[s2 o2] | | |] eqn:E2; cbn [mbind res_bind] in E; simplify_eq.
    eapply Hfin, rpcAppend_inv; [done | done | exact Hin | done | done].
  - destruct (rpcReqVote _ _ _ _ _ _ _) as [s2 o2] eqn:E2; cbn [mbind res_bind] in E; simplify_eq.
    unfold recorded. rewrite Ec. eapply Hfin, rpcReqVote_inv; [done | done | exact Hin | done | done].
  - destruct (rpcAppendResponse _ _ _ _ _) as [s2 o2] eqn:E2; cbn [mbind res_bind] in E; simplify_eq.
    eapply Hfin, rpcAppendResponse_inv; done.
  - destruct (rpcReqVoteResponse _ _ _ _ _) as [s2 o2] eqn:E2; cbn [mbind res_bind] in E; simplify_eq.
    eapply Hfin, rpcReqVoteResponse_inv; [done | done | exact Hin | done | done].
Qed.

Lemma step_inv opt elector N N' : inv opt N → step opt elector true N N' → inv opt N'.
Proof.
  intros HI [i e s s' out Hi He E].
  assert (∀ s1, same_core s s1 → president s1 = president s → data_version s1 = data_version s →
    inv opt (update i s1 (running N !!! i) [] [] N)) as Hcore.
  { intros s1 Hc Ep Ed. eapply (keeps_inv opt N i s s1 []); [done | done |]. unfold keeps.
    split_and!; [done | done | | done | set_solver]. destruct Hc as (_ & -> & _). rewrite Ep. by eapply inv_node. }
  destruct e; cbn [handle enabled] in E, He; simplify_eq; cbn [timer_before recorded].
  - by eapply receivePacket_inv.
  - destruct He as [Hr Hmax]. eapply electionTimeout_inv; [done | done | done | | done].
    intros Hty. rewrite (inv_running opt N i s) in Hr; done.
  - by eapply heartbeat_inv.
  - by apply Hcore.
  - unfold demoteLeader in E. case_bool_decide as Hty; [simplify_eq; by apply unchanged_inv |].
    eapply stepDown_inv; [done | done | by left | done].
  - eapply (stepDown_inv opt N i s kRaftOnly 0); [done | done | left; split; [done | by apply He] | done].
  - by apply Hcore.
Qed.

Lemma initial_inv opt : inv opt (initial opt).
Proof.
  split_and!; cbn.
  - by rewrite length_fmap, length_seq.
  - by rewrite length_replicate.
  - intros i s. rewrite list_lookup_fmap. intros (j & Hj & ->)%fmap_Some. apply lookup_seq in Hj as [-> Hj].
    unfold node_inv. cbn. rewrite length_replicate. split_and!; try done; intros; lia.
  - intros i s. rewrite list_lookup_fmap. intros (j & Hj & ->)%fmap_Some. done.
  - intros m Hm. by apply elem_of_nil in Hm.
  - intros v Hv. by apply elem_of_nil in Hv.
  - intros v w Hv. by apply elem_of_nil in Hv.
Qed.

Lemma cluster_inv opt elector N : reachable opt elector true N → inv opt N.
Proof.
  unfold reachable. intros H.
  apply (rtc_ind_r (R := step opt elector true) (inv opt) (initial opt)); [apply initial_inv | | exact H].
  intros y z _ Hs HI. by eapply step_inv.
Qed.

Lemma exec_step opt elector fl N i e N' : exec opt elector fl N i e = Some N' → step opt elector fl N N'.
Proof.
  unfold exec. intros (s & Hs & H)%bind_Some. case_guard as He; [| done]. cbn in H.
  destruct (handle opt elector i e s) as [[s' out] | | |] eqn:E; simplify_eq. by econstructor.
Qed.

Lemma schedule_rtc opt elector fl es N N' :
  schedule opt elector fl es N = Some N' → rtc (step opt elector fl) N N'.
Proof.
  unfold schedule. revert N. induction es as [| [i e] es IH]; intros N H; cbn in H.
  - simplify_eq. apply rtc_refl.
  - destruct (exec opt elector fl N i e) as [N1 |] eqn:E.
    + eapply rtc_l; [by eapply exec_step | by apply IH].
    + exfalso. clear IH E. induction es as [| [] es IH]; cbn in H; [done | by apply IH].
Qed.

(** ** The theorems *)

Lemma quorums_intersect opt Q1 Q2 :
  options_wf opt → NoDup Q1 → NoDup Q2 →
  (∀ p, p ∈ Q1 → (p < servers opt)%nat) → (∀ p, p ∈ Q2 → (p < servers opt)%nat) →
  quorum opt ≤ Z.of_nat (length Q1) → quorum opt ≤ Z.of_nat (length Q2) → ∃ p, p ∈ Q1 ∧ p ∈ Q2.
Proof.
  intros (H0 & Hq) N1 N2 B1 B2 L1 L2.
  destruct (decide (Exists (.∈ Q2) Q1)) as [He | Hn]; [by apply Exists_exists in He |].
  exfalso. assert (NoDup (Q1 ++ Q2)) as Hnd.
  { apply NoDup_app. split_and!; [done | | done]. intros p Hp1 Hp2. apply Hn, Exists_exists. eauto. }
  assert (Q1 ++ Q2 ⊆ seq 0 (servers opt)) as Hs.
  { intros p [Hp | Hp]%elem_of_app; apply elem_of_seq; [specialize (B1 p Hp) | specialize (B2 p Hp)]; lia. }
  pose proof (submseteq_length _ _ (NoDup_submseteq _ _ Hnd Hs)) as Hlen.
  rewrite length_app, length_seq in Hlen. rewrite Hq in *.
  pose proof (Z.div_mod (Z.of_nat (servers opt)) 2 ltac:(lia)).
  pose proof (Z.mod_pos_bound (Z.of_nat (servers opt)) 2 ltac:(lia)). lia.
Qed.

Lemma leaders_agree opt N i j s s' :
  options_wf opt → inv opt N → nodes N !! i = Some s → nodes N !! j = Some s' →
  type s = kLeader → type s' = kLeader → current_term s = current_term s' → i = j.
Proof.
  intros Hw HI Hi Hj Ti Tj Et.
  pose proof (inv_node _ _ _ _ HI Hi) as (_ & _ & _ & _ & _ & _ & Hei & _).
  pose proof (inv_node _ _ _ _ HI Hj) as (_ & _ & _ & _ & _ & _ & Hej & _).
  destruct (Hei Ti) as (Q1 & N1 & B1 & L1 & V1), (Hej Tj) as (Q2 & N2 & B2 & L2 & V2).
  destruct (quorums_intersect opt Q1 Q2 Hw N1 N2 B1 B2 L1 L2) as (p & P1 & P2).
  pose proof HI as (_ & _ & _ & _ & _ & HV & HU).
  assert (∀ x y sx, nodes N !! x = Some sx → type sx = kLeader → voted N x y (current_term sx) → False) as Hno.
  { intros x y sx Hx Tx (v & Hv & <- & _ & Ev). destruct (HV v Hv) as ((sv & Hsv & H) & _). simplify_eq.
    destruct H as [H | (_ & H & _)]; [lia | congruence]. }
  destruct (V1 p P1) as [-> | (v & Hv & <- & <- & Ev)], (V2 _ P2) as [E2 | (w & Hw2 & E2 & <- & Ew)].
  - done.
  - exfalso. eapply (Hno i); [done | done |]. exists w. split_and!; [done | done | done | congruence].
  - exfalso. rewrite E2 in *. eapply (Hno j); [done | done |]. exists v. split_and!; [done | done | done | congruence].
  - by rewrite (HU v w Hv Hw2 ltac:(done) ltac:(congruence)).
Qed.

(** The node is the leader of the term. *)
Definition leads (N : net) (i : nat) (T : Z) : Prop :=
  ∃ s, nodes N !! i = Some s ∧ type s = kLeader ∧ current_term s = T.

(** The node voted first of all for [i] in its term, and knew no newer version then. *)
Definition endorsed (N : net) (i : nat) (s : t) (p : nat) : Prop :=
  ∃ v, v ∈ votes N ∧ voter v = p ∧ candidate v = i ∧ vote_term v = current_term s ∧
    voter_version v ≤ data_version s.

(** C3: Election safety: whatever packets are lost, repeated or delayed, and whenever the
    running timers fire, no two nodes are leaders in the same term at the same moment, in runs in which
    the metadata server of no follower dies (the argument [true] of [reachable]).  Without this
    condition two nodes can be leaders in one term: [metadata_death_breaks_election_safety] of URaftRuns. *)
Theorem one_leader_per_term opt elector N i j T :
  options_wf opt → reachable opt elector true N → leads N i T → leads N j T → i = j.
Proof.
  intros Hw Hr (s & Hi & Ti & <-) (s' & Hj & Tj & Et).
  by eapply leaders_agree; [| eapply cluster_inv | ..].
Qed.

(** C29: The second guarantee of uraft.h, in runs in which the metadata server of no follower dies: a leader was
    chosen by a quorum, and no member of it had, when it voted, a newer version of the metadata than
    the leader has. *)
Theorem leader_has_newest_version opt elector N i s :
  options_wf opt → reachable opt elector true N → nodes N !! i = Some s → type s = kLeader →
  ∃ Q, NoDup Q ∧ (∀ p, p ∈ Q → (p < servers opt)%nat) ∧ quorum opt ≤ Z.of_nat (length Q) ∧
    ∀ p, p ∈ Q → p = i ∨ endorsed N i s p.
Proof.
  intros Hw Hr Hi Ti. pose proof (cluster_inv _ _ _ Hr) as HI.
  pose proof (inv_node _ _ _ _ HI Hi) as (_ & _ & _ & _ & _ & _ & He & _).
  destruct (He Ti) as (Q & HN & HB & HL & HV). exists Q. split_and!; try done.
  intros p Hp. destruct (HV p Hp) as [-> | (v & Hv & Ep & Ec & Et)]; [by left | right].
  destruct HI as (_ & _ & _ & _ & _ & Hvi & _). destruct (Hvi v Hv) as (_ & (sc & Hsc & H) & Hle).
  exists v. rewrite Ec, Hi in Hsc. simplify_eq. split_and!; try done.
  destruct H as [H | [_ H]]; [lia |]. rewrite H by congruence. done.
Qed.
End URaftElection.
