(* ===== verification/URaftTimed.v ===== *)
(** * uRaft: timers and presidents

    The cluster of URaftNet with a clock in milliseconds.  The timers of src/uraft/uraft.cc
    carry their deadlines: the heartbeat timer fires exactly when it is due, the election
    and the loyalty timer fire at their deadline or later, and a packet is never received in
    the millisecond in which it is sent.  The clocks of the nodes run at the same speed. *)

From S2P Require Import Prelude URaft URaftNet.
Import URaft URaftNet.

Module URaftTimed.

(** The cluster, the time, the deadlines of the timers of every node, and the packets with
    the time at which they were sent. *)
Record timed : Type := mk_timed {
  cluster : net;
  now : Z;
  election_at : list Z;
  heartbeat_at : list Z;
  loyalty_at : list Z;
  flight : list (Z * (nat * nat * packet));
}.

(** The options of a usable configuration. *)
Definition timing_wf (opt : Options) : Prop :=
  0 < heartbeat_period opt ∧ 0 <= election_timeout_min opt ∧ election_timeout_min opt < election_timeout_max opt.

Definition same_timer (e e' : effect) : bool :=
  match e, e' with
  | StartElectionTimer, StartElectionTimer => true
  | StartHeartbeatTimer, StartHeartbeatTimer => true
  | StartLoyaltyTimer, StartLoyaltyTimer => true
  | _, _ => false
  end.

Definition starts (e : effect) (out : list effect) : bool := existsb (same_timer e) out.

Definition restart (e : effect) (out : list effect) (i : nat) (deadline : Z) (l : list Z) : list Z :=
  if starts e out then <[i := deadline]> l else l.

Section timed.
Context (opt : Options) (elector : nat → bool) (followers_live : bool).

(** The timer that calls the handler is due; a packet takes time. *)
Definition due (M : timed) (i : nat) (e : event) : Prop :=
  match e with
  | Receive sender p _ => Exists (fun m => m.1 < now M ∧ m.2 = (sender, i, p)) (flight M)
  | ElectionTimeout _ => election_at M !!! i <= now M
  | Heartbeat => heartbeat_at M !!! i = now M
  | LoyaltyExpired => loyalty_at M !!! i <= now M
  | _ => True
  end.
#[global] Instance due_dec M i e : Decision (due M i e).
Proof. destruct e; simpl; apply _. Defined.

(** [timeout] is the election timeout drawn by [startElectionTimer]. *)
Definition timeout_ok (timeout : Z) : Prop :=
  election_timeout_min opt <= timeout < election_timeout_max opt.

Definition after (M : timed) (i : nat) (e : event) (timeout : Z) (s s' : t) (out : list effect) : timed :=
  mk_timed
    (update i s' (timer_after (timer_before (cluster M) i e) out) out (recorded elector i e s) (cluster M))
    (now M)
    (restart StartElectionTimer out i (now M + timeout) (election_at M))
    (restart StartHeartbeatTimer out i (now M + heartbeat_period opt) (heartbeat_at M))
    (restart StartLoyaltyTimer out i (now M + election_timeout_min opt) (loyalty_at M))
    (((fun m => (now M, m)) <$> sent i out) ++ flight M).

Definition pass (now' : Z) (M : timed) : timed :=
  mk_timed (cluster M) now' (election_at M) (heartbeat_at M) (loyalty_at M) (flight M).

Inductive tstep (M : timed) : timed → Prop :=
| tstep_node i e s s' out timeout :
    nodes (cluster M) !! i = Some s →
    enabled followers_live (cluster M) i e s →
    due M i e →
    timeout_ok timeout →
    handle opt elector i e s = Ok (s', out) →
    tstep M (after M i e timeout s s' out)
| tstep_time now' :
    now M < now' →
    (∀ h, h ∈ heartbeat_at M → now' <= h) →
    tstep M (pass now' M).

(** The nodes start within the first heartbeat period. *)
Definition tinitial (phases timeouts : list Z) : timed :=
  mk_timed (initial opt) 0 timeouts phases (replicate (servers opt) (election_timeout_min opt)) [].

Definition start_ok (phases timeouts : list Z) : Prop :=
  length phases = servers opt ∧ length timeouts = servers opt ∧
  ∀ h, h ∈ phases → 0 <= h <= heartbeat_period opt.

Definition treachable (M : timed) : Prop :=
  ∃ phases timeouts, start_ok phases timeouts ∧ rtc tstep (tinitial phases timeouts) M.

(** A schedule with explicit times. *)
Inductive action : Type :=
| Pass (now' : Z)
| Do (i : nat) (e : event) (timeout : Z).

Definition texec (M : timed) (a : action) : option timed :=
  match a with
  | Pass now' =>
      if bool_decide (now M < now') && forallb (fun h => now' <=? h) (heartbeat_at M) then Some (pass now' M) else None
  | Do i e timeout =>
      s ← nodes (cluster M) !! i;
      guard (enabled followers_live (cluster M) i e s);;
      guard (due M i e);;
      guard (timeout_ok timeout);;
      match handle opt elector i e s with
      | Ok (s', out) => Some (after M i e timeout s s' out)
      | _ => None
      end
  end.

Definition tschedule (l : list action) (M : timed) : option timed :=
  foldl (fun M a => M ← M; texec M a) (Some M) l.
End timed.
End URaftTimed.
