(* ===== verification/URaftPresident.v ===== *)
(** * uRaft: one president

    The proofs about the timed cluster of URaftTimed: when presidents do not tolerate lost
    heartbeats there is at most one president at a time. *)

From S2P Require Import Prelude URaft URaftNet URaftElection URaftTimed.
Import URaft URaftNet URaftElection URaftTimed.

Module URaftPresident.

(** ** What a handler does to a node *)

#[local] Arguments starts : simpl never.
#[local] Arguments sendHeartbeat : simpl never.
#[local] Arguments sendRequestForVotes : simpl never.
#[local] Arguments wrapu : simpl never.
#[local] Arguments voteCount : simpl never.

(** The branches of a handler. *)
Ltac branches H :=
  repeat (match type of H with
          | context [match (_, _) with _ => _ end] => progress cbv beta iota in H
          | context [match ?x with _ => _ end] =>
              lazymatch x with
              | context [match _ with _ => _ end] => fail
              | _ => destruct x eqn:?; try discriminate H
              end
          end; cbn [mbind res_bind negb andb orb] in H).

Ltac handler H :=
  match type of H with
  | handle _ _ _ ?e _ = _ => let p := fresh "p" in destruct e as [? p ? | | | | | |]; [destruct p | ..]
  end;
  cbn [handle] in H;
  unfold receivePacket, checkTerm, rpcAppend, rpcReqVote, rpcAppendResponse,
    rpcReqVoteResponse, signLoyaltyAgreement, electionTimeout, heartbeat, heartbeat_rest, demoteLeader,
    loyaltyExpired, stepDownToFollower, assertion in H;
  cbn [mbind res_bind packet_term] in H;
  branches H; simplify_eq; cbn in *;
  repeat match goal with |- context [if ?b then _ else _] => destruct b eqn:? end.

(** The conditions of the branch. *)
Ltac conditions :=
  repeat match goal with
         | H : _ || _ = false |- _ => apply orb_false_iff in H as [? ?]
         | H : _ && _ = true |- _ => apply andb_true_iff in H as [? ?]
         | H : negb _ = true |- _ => apply negb_true_iff in H
         | H : negb _ = false |- _ => apply negb_false_iff in H
         | H : bool_decide _ = true |- _ => apply bool_decide_eq_true_1 in H
         | H : bool_decide _ = false |- _ => apply bool_decide_eq_false_1 in H
         end; try congruence.

Lemma starts_app e a b : starts e (a ++ b) = starts e a || starts e b.
Proof. apply existsb_app. Qed.

Lemma starts_cons e x out : starts e (x :: out) = same_timer e x || starts e out.
Proof. done. Qed.

Lemma starts_nil e : starts e [] = false.
Proof. done. Qed.

Lemma starts_sends e out : (∀ x, x ∈ out → ∃ dst p, x = Send dst p) → starts e out = false.
Proof.
  intros H. induction out as [| x out IH]; [done|]. rewrite starts_cons.
  destruct (H x ltac:(left)) as (dst & p & ->). rewrite IH by (intros; apply H; by right). by destruct e.
Qed.

Lemma starts_sendHeartbeat e s : starts e (sendHeartbeat s) = false.
Proof. apply starts_sends. apply sendHeartbeat_no_timer. Qed.

Lemma starts_sendRequestForVotes e s : starts e (sendRequestForVotes s) = false.
Proof. apply starts_sends. apply sendRequestForVotes_no_timer. Qed.

Create HintDb starts discriminated.
#[export] Hint Rewrite starts_app starts_cons starts_nil starts_sendHeartbeat starts_sendRequestForVotes : starts.

Lemma timer_after_starts b out : timer_after b out = true → starts StartElectionTimer out = true ∨ b = true.
Proof.
  revert b. induction out as [| e out IH]; intros b H; cbn in *; [by right |]. rewrite starts_cons.
  destruct e; cbn; try (by left); destruct (IH _ H); auto; done.
Qed.

Ltac starts_simpl := repeat first [progress autorewrite with starts | progress cbn [same_timer orb app]].

Lemma handle_time opt elector i e s s' out :
  handle opt elector i e s = Ok (s', out) →
  (e = Heartbeat ∧ local_time s' = u64 (local_time s + 1) ∧ starts StartHeartbeatTimer out = true) ∨
  (e ≠ Heartbeat ∧ local_time s' = local_time s ∧ starts StartHeartbeatTimer out = false).
Proof. intros H. handler H; first [left; by split_and! | right; split_and!; [done | done | by starts_simpl]]. Qed.

Lemma handle_type opt elector i e s s' out :
  handle opt elector i e s = Ok (s', out) →
  type s' = kFollower ∨ (∃ v, e = ElectionTimeout v) ∨ (type s ≠ kFollower ∧ current_term s' = current_term s).
Proof.
  intros H. destruct (decide (type s = kFollower)) as [Hf | Hf]; handler H; eauto.
  all: by conditions; eauto.
Qed.

Lemma handle_loyalty opt elector i e s s' out :
  handle opt elector i e s = Ok (s', out) →
  (loyalty_agreement s' = true ∧ starts StartLoyaltyTimer out = true) ∨
  (starts StartLoyaltyTimer out = false ∧ (loyalty_agreement s' = loyalty_agreement s ∨ e = LoyaltyExpired)).
Proof. intros H. handler H; ((left; by split_and!) || (right; split; [by starts_simpl | auto])). Qed.

Lemma handle_streak opt elector i e s s' out :
  handle opt elector i e s = Ok (s', out) → 0 <= quorum_loss_streak_ s → 0 <= quorum_loss_streak_ s'.
Proof. intros H ?. handler H; done || lia. Qed.

Lemma handle_term opt elector N i e s s' out :
  handle opt elector i e s = Ok (s', out) → 0 <= current_term s → enabled true N i e s → current_term s <= current_term s'.
Proof.
  intros H ? He. handler H; try lia.
  all: try (destruct (Z.ltb_spec 0 term); lia).
  all: rewrite wrapu_small; lia.
Qed.

Ltac sends H :=
  repeat match type of H with
         | _ ∈ _ ++ _ => apply elem_of_app in H as [H | H]
         | _ ∈ _ :: _ => apply elem_of_cons in H as [H | H]
         | _ ∈ [] => by apply elem_of_nil in H
         | Send _ _ ∈ sendHeartbeat _ => apply elem_of_sendHeartbeat in H as (H & ? & ?)
         | Send _ _ ∈ sendRequestForVotes _ => apply elem_of_sendRequestForVotes in H as (H & ? & ?)
         end; try discriminate H.

Lemma handle_append opt elector i e s s' out dst T l dv :
  handle opt elector i e s = Ok (s', out) → (president s = true → type s = kLeader) →
  Send dst (AppendEntries T l dv) ∈ out → T = current_term s' ∧ l = local_time s' ∧ type s' = kLeader.
Proof.
  intros H Hp Hin. handler H; repeat match type of Hin with context [if ?b then _ else _] => destruct b end;
    sends Hin; simplify_eq; conditions; by split_and!; auto.
Qed.

Lemma handle_append_response opt elector i e s s' out dst T r l dv :
  handle opt elector i e s = Ok (s', out) → 0 <= current_term s →
  Send dst (AEResponse T r l dv) ∈ out →
  ∃ T0 dv0 v, e = Receive dst (AppendEntries T0 l dv0) v ∧ T = current_term s' ∧ T0 <= T ∧ (r = false → T0 < T) ∧
    (r = true → T0 = T ∧ type s' = kFollower ∧ loyalty_agreement s' = true ∧
       starts StartLoyaltyTimer out = true ∧ starts StartElectionTimer out = true).
Proof.
  intros H Ht Hin. handler H; repeat match type of Hin with context [if ?b then _ else _] => destruct b end;
    sends Hin; simplify_eq; conditions.
  all: do 3 eexists; split_and!; [done | done | lia | intros; done || lia | intros ?; try done].
  all: split_and!; [lia | done | done | by starts_simpl | by starts_simpl].
Qed.

Lemma handle_infos opt elector i e s s' out p ni' :
  handle opt elector i e s = Ok (s', out) → 0 <= current_term s → p ≠ id s →
  node_ s' !! p = Some ni' →
  ∃ ni, node_ s !! p = Some ni ∧
    (n_heartbeat ni' = n_heartbeat ni ∨
     ∃ T r l dv v, e = Receive p (AEResponse T r l dv) v ∧ T <= current_term s' ∧ n_heartbeat ni' = l).
Proof.
  intros H Ht Hne Hp. handler H; eauto.
  all: apply list_lookup_insert_Some in Hp as [(<- & <- & Hlt) | [? Hp]]; try done; eauto.
  all: try (rewrite list_lookup_fmap in Hp; apply fmap_Some in Hp as (ni & Hni & ->); by eauto).
  all: exists (node_ s !!! sender); split; [by apply list_lookup_lookup_total_lt |]; cbn; try (by left).
  all: destruct (Z.max_spec (n_heartbeat (node_ s !!! sender)) req_time) as [[_ ->] | [_ ->]]; [right | by left].
  all: do 5 eexists; split_and!; [done | conditions; lia | done].
Qed.

Lemma handle_president opt elector i e s s' out :
  handle opt elector i e s = Ok (s', out) → quorum_loss_grace_heartbeats opt <= 1 → 0 <= quorum_loss_streak_ s →
  president s' = true →
  (∃ v, e = ElectionTimeout v) ∨ current_term s' = current_term s ∧
  ((e ≠ Heartbeat ∧ president s = true) ∨ (e = Heartbeat ∧ has_quorum opt (tick s) = true ∧ type s = kLeader)).
Proof.
  intros H Hg Hs Hp. handler H; try done; eauto 6; conditions; try lia.
  all: unfold has_quorum in *; cbn in *; conditions.
  all: right; split; [done |]; right; split_and!; auto.
Qed.

Lemma cast_loyalty elector i version sender term dv s v :
  v ∈ cast elector i version sender term dv s → voter v = i ∧ loyalty_agreement s = false.
Proof.
  unfold cast. destruct (_ && _ && _) eqn:E; [| by intros ?%elem_of_nil].
  intros ->%list_elem_of_singleton. split; [done|]. conditions. by destruct ((voted_for s <? 0) && _).
Qed.

Lemma recorded_loyalty elector i e s v : v ∈ recorded elector i e s → voter v = i ∧ loyalty_agreement s = false.
Proof.
  destruct e as [sender [| term time dv | |] version | | | | | |]; cbn [recorded]; try (by intros ?%elem_of_nil).
  unfold checkTerm, assertion. destruct (current_term s <? term); [| apply cast_loyalty].
  destruct (negb (president s) || _); [| by intros ?%elem_of_nil]. intros H. by apply cast_loyalty in H.
Qed.

(** ** The invariant *)

Section invariant.
Context (opt : Options) (elector : nat → bool).
Context (Hw : options_wf opt) (Ht : timing_wf opt).

Definition first_time : Z := election_timeout_min opt / heartbeat_period opt + 1.

Lemma first_time_pos : 0 < first_time.
Proof.
  destruct Ht as (Hp & He0 & _). unfold first_time.
  pose proof (Z.div_pos (election_timeout_min opt) (heartbeat_period opt) He0 Hp). lia.
Qed.

Lemma first_time_bounds :
  election_timeout_min opt < heartbeat_period opt * first_time <= election_timeout_min opt + heartbeat_period opt.
Proof.
  destruct Ht as (Hp & He0 & _). unfold first_time.
  pose proof (Z.mul_div_le (election_timeout_min opt) (heartbeat_period opt) Hp).
  pose proof (Z.mul_succ_div_gt (election_timeout_min opt) (heartbeat_period opt) Hp). lia.
Qed.

(** The moment at which the local time of a node became [l]. *)
Definition tick_at (M : timed) (x : nat) (l : Z) : Z :=
  match nodes (cluster M) !! x with
  | Some s => heartbeat_at M !!! x - heartbeat_period opt * (local_time s + 1) + heartbeat_period opt * l
  | None => 0
  end.

(** Until the moment [D] a node that led in the term does not stand in a later one. *)
Definition leads_until (M : timed) (x : nat) (T D : Z) : Prop :=
  D <= now M ∨
  ∃ s, nodes (cluster M) !! x = Some s ∧ (type s = kFollower ∨ current_term s = T) ∧
    (running (cluster M) !!! x = true → D <= election_at M !!! x).

(** Until the moment [D], included, a follower is loyal: it neither stands nor votes in a
    later term. *)
Definition loyal_until (M : timed) (p : nat) (T D : Z) : Prop :=
  D < now M ∨
  ∃ s, nodes (cluster M) !! p = Some s ∧ type s = kFollower ∧
    (running (cluster M) !!! p = true → D < election_at M !!! p) ∧
    loyalty_agreement s = true ∧ D < loyalty_at M !!! p ∧
    ∀ v, v ∈ votes (cluster M) → voter v = p → vote_term v <= T.

Definition clock_inv (M : timed) (i : nat) (s : t) : Prop :=
  first_time <= local_time s ∧
  heartbeat_at M !!! i - heartbeat_period opt <= now M <= heartbeat_at M !!! i ∧
  heartbeat_period opt * (local_time s + 1) <= heartbeat_at M !!! i + heartbeat_period opt * (first_time + 1) ∧
  0 <= quorum_loss_streak_ s.

Definition info_inv (M : timed) (x : nat) (s : t) : Prop :=
  ∀ p ni, p ≠ x → node_ s !! p = Some ni →
    n_heartbeat ni = 0 ∨
    ∃ T r dv, (p, x, AEResponse T r (n_heartbeat ni) dv) ∈ soup (cluster M) ∧ T <= current_term s.

Definition packet_inv (M : timed) (m : nat * nat * packet) : Prop :=
  let '(x, y, p) := m in
  match p with
  | AppendEntries T l _ =>
      (∃ s, nodes (cluster M) !! x = Some s ∧ 0 <= l <= local_time s) ∧
      tick_at M x l <= now M ∧ leads_until M x T (tick_at M x l + election_timeout_min opt)
  | AEResponse T r l _ =>
      ∃ T0 dv0, (y, x, AppendEntries T0 l dv0) ∈ soup (cluster M) ∧ T0 <= T ∧ (r = false → T0 < T) ∧
        (r = true → T0 = T ∧ tick_at M y l < now M ∧ loyal_until M x T (tick_at M y l + election_timeout_min opt))
  | _ => True
  end.

Definition flight_inv (M : timed) (f : Z * (nat * nat * packet)) : Prop :=
  f.1 <= now M ∧ f.2 ∈ soup (cluster M) ∧
  match f.2 with
  | (x, _, AppendEntries _ l _) => tick_at M x l <= f.1
  | _ => True
  end.

(** A president has a quorum that stays loyal at least until its next heartbeat. *)
Definition president_inv (M : timed) (x : nat) (s : t) : Prop :=
  president s = true →
  ∃ Q, NoDup Q ∧ (∀ p, p ∈ Q → (p < servers opt)%nat) ∧ quorum opt <= Z.of_nat (length Q) ∧
    ∀ p, p ∈ Q → p = x ∨
      ∃ l dv, (p, x, AEResponse (current_term s) true l dv) ∈ soup (cluster M) ∧
        heartbeat_at M !!! x <= tick_at M x l + election_timeout_min opt.

Definition tinv (M : timed) : Prop :=
  inv opt (cluster M) ∧
  length (election_at M) = servers opt ∧ length (heartbeat_at M) = servers opt ∧
  length (loyalty_at M) = servers opt ∧
  (∀ i s, nodes (cluster M) !! i = Some s → clock_inv M i s ∧ info_inv M i s ∧ president_inv M i s) ∧
  (∀ m, m ∈ soup (cluster M) → packet_inv M m) ∧
  (∀ f, f ∈ flight M → flight_inv M f).

(** ** Time passes *)

Lemma leads_until_pass M now' x T D : now M < now' → leads_until M x T D → leads_until (pass now' M) x T D.
Proof. intros Hlt [H | (s & ? & ?)]; [left; cbn; lia | right; by exists s]. Qed.

Lemma loyal_until_pass M now' p T D : now M < now' → loyal_until M p T D → loyal_until (pass now' M) p T D.
Proof. intros Hlt [H | (s & ? & ?)]; [left; cbn; lia | right; by exists s]. Qed.

Lemma pass_tinv M now' :
  now M < now' → (∀ h, h ∈ heartbeat_at M → now' <= h) → tinv M → tinv (pass now' M).
Proof.
  intros Hlt Hh (HI & L1 & L2 & L3 & Hn & Hm & Hf). split_and!; try done.
  - intros i s Hi. destruct (Hn i s Hi) as ((? & ? & ? & ?) & ? & ?). split_and!; try done.
    split_and!; try done; cbn; [lia |]. apply Hh. apply list_elem_of_lookup_2 with i.
    apply list_lookup_lookup_total_lt. rewrite L2. by eapply inv_lt.
  - intros [[x y] p] Hin. specialize (Hm _ Hin). destruct p; try done.
    + destruct Hm as (? & ? & ?). split_and!; [done | change (tick_at M x time <= now'); lia |].
      by apply (leads_until_pass M).
    + destruct Hm as (T0 & dv0 & H1 & H2 & H3 & H4). exists T0, dv0. split_and!; try done.
      intros Hr. destruct (H4 Hr) as (? & ? & ?). split_and!; [done | change (tick_at M y req_time < now'); lia |].
      by apply (loyal_until_pass M).
  - intros f Hin. destruct (Hf f Hin) as (? & ? & ?). split_and!; [cbn; lia | done | done].
Qed.

(** ** A node acts *)

Section node.
Context (M : timed) (i : nat) (e : event) (s s' : t) (out : list effect) (timeout : Z).
Context (HM : tinv M).
Context (Hi : nodes (cluster M) !! i = Some s) (He : enabled true (cluster M) i e s) (Hdue : due M i e).
Context (Hto : timeout_ok opt timeout) (E : handle opt elector i e s = Ok (s', out)).
(** The signed 32-bit product of [voteCount] does not overflow. *)
Context (Hbound : now M + election_timeout_min opt + 3 * heartbeat_period opt < 2 ^ 31).

Let M' : timed := after opt elector M i e timeout s s' out.

Lemma after_inv : inv opt (cluster M').
Proof. destruct HM as [HI _]. eapply step_inv; [exact HI |]. by eapply step_node. Qed.

Lemma node_lt : (i < servers opt)%nat.
Proof. destruct HM as [HI _]. by eapply inv_lt. Qed.

Lemma after_self : nodes (cluster M') !! i = Some s'.
Proof. by eapply nodes_update. Qed.

Lemma after_other x : x ≠ i → nodes (cluster M') !! x = nodes (cluster M) !! x.
Proof. intros Hx. cbn. by rewrite list_lookup_insert_ne. Qed.

Lemma restart_other kind d l x : x ≠ i → restart kind out i d l !!! x = l !!! x.
Proof. intros Hx. unfold restart. destruct (starts kind out); [by apply list_lookup_total_insert_ne | done]. Qed.

Lemma restart_self kind d l :
  length l = servers opt → restart kind out i d l !!! i = if starts kind out then d else l !!! i.
Proof.
  intros Hl. unfold restart. destruct (starts kind out); [| done]. apply list_lookup_total_insert_eq.
  rewrite Hl. apply node_lt.
Qed.

Lemma running_other x : x ≠ i → running (cluster M') !!! x = running (cluster M) !!! x.
Proof. intros Hx. cbn. by apply list_lookup_total_insert_ne. Qed.

(** A running election timer is the old one, or was started just now. *)
Lemma running_self :
  running (cluster M') !!! i = true →
  (starts StartElectionTimer out = true ∧ election_at M' !!! i = now M + timeout) ∨
  (running (cluster M) !!! i = true ∧ (∀ v, e ≠ ElectionTimeout v) ∧ election_at M' !!! i = election_at M !!! i).
Proof.
  destruct HM as ((_ & Lr & _) & L1 & _). cbn. rewrite list_lookup_total_insert_eq by (rewrite Lr; apply node_lt).
  rewrite restart_self by done. intros H. destruct (starts StartElectionTimer out) eqn:Es; [by left | right].
  destruct (timer_after_starts _ _ H) as [? | Hb]; [congruence |]. unfold timer_before in Hb.
  split_and!; [by destruct e | by intros v -> | done].
Qed.

Lemma local_time_next : 0 <= local_time s + 1 < 2 ^ 64.
Proof.
  destruct HM as (_ & _ & _ & _ & Hn & _). destruct (Hn i s Hi) as ((H1 & H2 & H3 & _) & _).
  destruct Ht as (Hp & He0 & _). unfold first_time in *.
  pose proof (Z.div_pos (election_timeout_min opt) (heartbeat_period opt) He0 Hp).
  pose proof (Z.mul_div_le (election_timeout_min opt) (heartbeat_period opt) Hp). nia.
Qed.

(** The moments of the ticks do not move. *)
Lemma tick_after x l : tick_at M' x l = tick_at M x l.
Proof.
  unfold tick_at. destruct (decide (x = i)) as [-> | Hx].
  2: { rewrite after_other by done. cbn [heartbeat_at M' after]. by rewrite restart_other. }
  rewrite after_self, Hi. pose proof local_time_next as Hlt. destruct HM as (_ & _ & L2 & _).
  cbn [heartbeat_at M' after]. rewrite restart_self by done.
  destruct (handle_time _ _ _ _ _ _ _ E) as [(-> & -> & ->) | (_ & -> & ->)]; [| done].
  rewrite wrapu_small by lia. cbn in Hdue. rewrite Hdue. lia.
Qed.

Lemma leads_until_after x T D :
  D <= now M + election_timeout_min opt → leads_until M x T D → leads_until M' x T D.
Proof.
  intros HD [H | (sx & Hx & Hty & Hr)]; [by left |]. destruct (decide (x = i)) as [-> | Hne].
  2: { right. exists sx. rewrite after_other, running_other by done. cbn [election_at M' after].
       by rewrite restart_other. }
  simplify_eq. destruct (handle_type _ _ _ _ _ _ _ E) as [Hf | [[v ->] | [Hnf Hterm]]].
  2: { left. cbn in He, Hdue. change (D <= now M). destruct He as [Hrun _]. specialize (Hr Hrun). lia. }
  all: right; exists s'; split; [apply after_self |]; split; [naive_solver congruence |]; intros Hrun.
  all: destruct (running_self Hrun) as [[_ ->] | (Hr0 & _ & ->)]; [unfold timeout_ok in Hto; lia | by apply Hr].
Qed.

Lemma loyal_until_after p T D :
  D < now M + election_timeout_min opt → loyal_until M p T D → loyal_until M' p T D.
Proof.
  intros HD [H | (sp & Hp & Hty & Hr & Hl & Hla & Hv)]; [by left |].
  assert (∀ v, v ∈ recorded elector i e s → p ≠ i ∨ loyalty_agreement s = false) as Hrec.
  { intros v Hin. destruct (recorded_loyalty elector i e s v Hin). auto. }
  assert (p ≠ i ∨ loyalty_agreement s = true) as Hpl
    by (destruct (decide (p = i)) as [-> |]; [right; congruence | by left]).
  assert (∀ v, v ∈ votes (cluster M') → voter v = p → vote_term v <= T) as Hv'.
  { intros v [Hin | Hin]%elem_of_app Evp; [| by apply Hv]. destruct (recorded_loyalty elector i e s v Hin).
    destruct Hpl; congruence. }
  destruct (decide (p = i)) as [-> | Hne].
  2: { right. exists sp. rewrite after_other, running_other by done.
       cbn [election_at loyalty_at M' after]. by rewrite !restart_other. }
  simplify_eq. destruct (handle_type _ _ _ _ _ _ _ E) as [Hf | [[v ->] | [Hnf _]]]; [| | done].
  2: { left. cbn in He, Hdue. change (D < now M). destruct He as [Hrun _]. specialize (Hr Hrun). lia. }
  destruct HM as (_ & _ & _ & L3 & _).
  assert (election_timeout_min opt <= timeout) as Hmin by apply Hto.
  assert (running (cluster M') !!! i = true → D < election_at M' !!! i) as Hr'.
  { intros Hrun. destruct (running_self Hrun) as [[_ ->] | (Hr0 & _ & ->)]; [lia | by apply Hr]. }
  assert (loyalty_at M' !!! i =
    if starts StartLoyaltyTimer out then now M + election_timeout_min opt else loyalty_at M !!! i) as Ela
    by (by apply restart_self).
  destruct (handle_loyalty _ _ _ _ _ _ _ E) as [[Hl' Hs] | [Hs [Hl' | ->]]]; rewrite Hs in Ela.
  - right. exists s'. split_and!; [apply after_self | done | done | done | lia | done].
  - right. exists s'. split_and!; [apply after_self | done | done | congruence | lia | done].
  - left. cbn in Hdue. change (D < now M). lia.
Qed.

Lemma heartbeat_at_self :
  heartbeat_at M' !!! i = if starts StartHeartbeatTimer out then now M + heartbeat_period opt else heartbeat_at M !!! i.
Proof. destruct HM as (_ & _ & L2 & _). by apply restart_self. Qed.

Lemma clock_after x sx : nodes (cluster M') !! x = Some sx → clock_inv M' x sx.
Proof.
  destruct HM as (_ & _ & _ & _ & Hn & _). destruct (decide (x = i)) as [-> | Hne].
  2: { rewrite after_other by done. intros Hx. destruct (Hn x sx Hx) as (H & _).
       unfold clock_inv in *. cbn [heartbeat_at M' after now]. by rewrite restart_other. }
  rewrite after_self. intros [= <-]. destruct (Hn i s Hi) as ((H1 & H2 & H3 & H4) & _).
  pose proof local_time_next as Hlt. pose proof (handle_streak _ _ _ _ _ _ _ E H4) as Hs.
  unfold clock_inv. rewrite heartbeat_at_self. change (now M') with (now M). destruct Ht as (Hp & _).
  destruct (handle_time _ _ _ _ _ _ _ E) as [(-> & -> & ->) | (_ & -> & ->)]; [| split_and!; lia].
  cbn in Hdue. rewrite wrapu_small by lia. split_and!; lia.
Qed.

Lemma info_after x sx : nodes (cluster M') !! x = Some sx → info_inv M' x sx.
Proof.
  destruct HM as (HI & _ & _ & _ & Hn & _).
  assert (soup (cluster M) ⊆ soup (cluster M')) as Hsub by (cbn; set_solver).
  destruct (decide (x = i)) as [-> | Hne].
  2: { rewrite after_other by done. intros Hx p ni Hp Hni.
       destruct (Hn x sx Hx) as (_ & H & _). destruct (H p ni Hp Hni) as [? | (T & r & dv & ? & ?)]; [by left | right].
       exists T, r, dv. split; [by apply Hsub | done]. }
  rewrite after_self. intros [= <-] p ni' Hp Hni'. destruct (Hn i s Hi) as (_ & H & _).
  pose proof (inv_node _ _ _ _ HI Hi) as (Hid & _ & Hterm & _).
  pose proof (handle_term _ _ _ _ _ _ _ _ E Hterm He) as Hmono.
  destruct (handle_infos _ _ _ _ _ _ _ p ni' E Hterm ltac:(congruence) Hni')
    as (ni & Hni & [-> | (T & r & l & dv & v & -> & HT & ->)]).
  - destruct (H p ni Hp Hni) as [? | (T & r & dv & ? & ?)]; [by left | right].
    exists T, r, dv. split; [by apply Hsub | lia].
  - right. exists T, r, dv. split; [apply Hsub; exact He | done].
Qed.

Lemma packet_after m : m ∈ soup (cluster M') → packet_inv M' m.
Proof.
  destruct HM as (HI & _ & _ & _ & Hn & Hm & Hf). destruct m as [[x y] p]. intros [Hin | Hin]%elem_of_app.
  - apply elem_of_sent in Hin as [-> Hin]. pose proof (inv_node _ _ _ _ HI Hi) as (_ & _ & Hterm & _ & _ & _ & _ & _ & _ & Hp).
    destruct p as [T l dv | | T r l dv |]; try done.
    + destruct (handle_append _ _ _ _ _ _ _ y T l dv E Hp Hin) as (-> & -> & Hty).
      destruct (clock_after i s' after_self) as (Hft & Hc & _). pose proof first_time_pos.
      assert (tick_at M' i (local_time s') <= now M') as Htick by (unfold tick_at; rewrite after_self; lia).
      split_and!; [exists s'; split; [apply after_self | lia] | done |].
      right. exists s'. split_and!; [apply after_self | by right |].
      intros Hr. rewrite (inv_running opt _ i s' after_inv after_self Hty) in Hr. done.
    + destruct (handle_append_response _ _ _ _ _ _ _ y T r l dv E Hterm Hin)
        as (T0 & dv0 & v & Ee & -> & HT & Hr0 & Hr1).
      pose proof He as He'. pose proof Hdue as Hdue'. rewrite Ee in He', Hdue'. cbn in He', Hdue'.
      exists T0, dv0. split_and!; [apply elem_of_app; right; exact He' | done | done |].
      intros Hr. destruct (Hr1 Hr) as (-> & Hfo & Hlo & Sl & Se). split; [done|].
      apply Exists_exists in Hdue' as ((τ & m) & Hfl & Hτ & Em). cbn in Hτ, Em. subst m.
      destruct (Hf _ Hfl) as (_ & _ & Htick). cbn in Htick.
      rewrite tick_after. change (now M') with (now M). split; [lia |]. right. exists s'.
      assert (election_timeout_min opt <= timeout) as Hmin by apply Hto.
      destruct HM as (_ & L1 & _ & L3 & _). split_and!; [apply after_self | done | | done | |].
      * intros Hrun. cbn [election_at M' after]. rewrite restart_self, Se by done. lia.
      * cbn [loyalty_at M' after]. rewrite restart_self, Sl by done. lia.
      * intros w Hw' Evw. pose proof after_inv as (_ & _ & _ & _ & _ & HV & _).
        destruct (HV w Hw') as ((sw & Hsw & H) & _). rewrite Evw, after_self in Hsw. simplify_eq. lia.
  - specialize (Hm _ Hin). destruct p as [T l dv | | T r l dv |]; try done.
    + destruct Hm as ((sx & Hx & Hl) & Htick & Hlead). unfold packet_inv. rewrite tick_after.
      split_and!; [| done | by apply leads_until_after; [lia | done]].
      destruct (decide (x = i)) as [-> | Hne]; [| exists sx; by rewrite after_other].
      exists s'. split; [apply after_self |]. simplify_eq. pose proof local_time_next.
      destruct (handle_time _ _ _ _ _ _ _ E) as [(_ & -> & _) | (_ & -> & _)]; [rewrite wrapu_small by lia; lia | lia].
    + destruct Hm as (T0 & dv0 & H1 & H2 & H3 & H4). exists T0, dv0.
      split_and!; [apply elem_of_app; by right | done | done |]. intros Hr. destruct (H4 Hr) as (? & ? & ?).
      rewrite tick_after. split_and!; [done | done |]. by apply loyal_until_after; [lia | done].
Qed.

Lemma flight_after f : f ∈ flight M' → flight_inv M' f.
Proof.
  destruct HM as (_ & _ & _ & _ & _ & _ & Hf). intros [Hin | Hin]%elem_of_app.
  - apply list_elem_of_fmap in Hin as (m & -> & Hin).
    assert (m ∈ soup (cluster M')) as Hm by (apply elem_of_app; by left).
    split_and!; [cbn; lia | exact Hm |]. pose proof (packet_after m Hm) as Hp. destruct m as [[x y] p].
    destruct p; try done. apply Hp.
  - destruct (Hf f Hin) as (? & ? & H). split_and!; [done | apply elem_of_app; by right |].
    destruct (f.2) as [[x y] p]. destruct p; try done. by rewrite tick_after.
Qed.

(** The time since the last answer, without overflow. *)
Lemma time_from_loyalty_vote_exact ni :
  heartbeat_at M !!! i = now M → 0 <= n_heartbeat ni <= local_time s + 1 →
  time_from_loyalty_vote opt (tick s) ni = heartbeat_period opt * (local_time s + 1 - n_heartbeat ni + 1).
Proof.
  intros Hh Hb. pose proof local_time_next as Hlt. pose proof first_time_bounds.
  destruct HM as (_ & _ & _ & _ & Hn & _). destruct (Hn i s Hi) as ((H1 & H2 & H3 & _) & _).
  destruct Ht as (Hp & _). unfold time_from_loyalty_vote, tick. cbn [local_time].
  rewrite (wrapu_small 64 (local_time s + 1)) by lia.
  rewrite (wrapu_small 64 (local_time s + 1 - n_heartbeat ni)) by lia.
  assert (0 <= heartbeat_period opt * (local_time s + 1 - n_heartbeat ni + 1) < 2 ^ 31) as Hsmall by nia.
  rewrite (wrapu_small 64 (local_time s + 1 - n_heartbeat ni + 1)) by nia.
  rewrite wrapu_small by lia. rewrite wraps_small by lia. done.
Qed.

(** A node that [voteCount(true)] counts has promised loyalty beyond the next heartbeat. *)
Lemma counted_is_loyal p :
  heartbeat_at M !!! i = now M → type s = kLeader → p ≠ i → p ∈ voters opt true (tick s) →
  ∃ l dv, (p, i, AEResponse (current_term s) true l dv) ∈ soup (cluster M) ∧
    now M + heartbeat_period opt <= tick_at M i l + election_timeout_min opt.
Proof.
  intros Hh Hty Hne (ni & Hni & Hv)%elem_of_voters.
  destruct HM as (HI & _ & _ & _ & Hn & Hm & _). destruct (Hn i s Hi) as ((H1 & _) & Hinfo & _).
  pose proof (inv_node _ _ _ _ HI Hi) as (Hid & _).
  pose proof first_time_bounds as Hfb. destruct Ht as (Hp & _).
  cbn in Hni. rewrite list_lookup_insert_ne in Hni by congruence.
  cbn in Hv. apply Z.leb_le in Hv.
  assert (∀ l, tick_at M i l = now M - heartbeat_period opt * (local_time s + 1 - l)) as Htick
    by (intros l; unfold tick_at; rewrite Hi, Hh; lia).
  destruct (Hinfo p ni Hne Hni) as [H0 | (T & r & dv & Hin & HT)].
  { rewrite time_from_loyalty_vote_exact in Hv by (done || (pose proof first_time_pos; lia)). nia. }
  destruct (Hm _ Hin) as (T0 & dv0 & Hae & HT0 & Hr0 & Hr1).
  destruct (Hm _ Hae) as ((sx & Hsx & Hl) & _ & Hlead). rewrite Hi in Hsx. injection Hsx as <-.
  rewrite time_from_loyalty_vote_exact in Hv by (done || lia).
  destruct (decide (r = true ∧ T = current_term s)) as [[-> ->] | Hold].
  - exists (n_heartbeat ni), dv. split; [done |]. rewrite Htick. lia.
  - exfalso. assert (T0 < current_term s) as Hlt.
    { destruct r; [| specialize (Hr0 eq_refl); lia]. destruct (decide (T = current_term s)); [tauto | lia]. }
    destruct Hlead as [Hd | (sy & Hsy & [? | ?] & _)]; [rewrite Htick in Hd; lia | simplify_eq; congruence | simplify_eq; lia].
Qed.

Lemma president_after x sx :
  quorum_loss_grace_heartbeats opt <= 1 → nodes (cluster M') !! x = Some sx → president_inv M' x sx.
Proof.
  intros Hg Hx Hpr. destruct HM as (HI & _ & _ & _ & Hn & _).
  assert (soup (cluster M) ⊆ soup (cluster M')) as Hsub by (cbn; set_solver).
  destruct (decide (x = i)) as [-> | Hne].
  2: { rewrite after_other in Hx by done. destruct (Hn x sx Hx) as (_ & _ & H).
       destruct (H Hpr) as (Q & ? & ? & ? & HQ). exists Q. split_and!; try done.
       intros p Hp. destruct (HQ p Hp) as [? | (l & dv & ? & ?)]; [by left | right]. exists l, dv.
       rewrite tick_after. cbn [heartbeat_at M' after]. rewrite restart_other by done. split; [by apply Hsub | done]. }
  rewrite after_self in Hx. injection Hx as <-. destruct (Hn i s Hi) as ((_ & _ & _ & Hs) & _ & H).
  pose proof (inv_node _ _ _ _ HI Hi) as (Hid & Hlen & _ & _ & _ & _ & _ & _ & _ & Hpl).
  destruct (handle_president _ _ _ _ _ _ _ E Hg Hs Hpr) as [[v Ev] | [Eterm [[Hnh Hp0] | (Eh & Hq & Hty)]]].
  - exfalso. pose proof E as E0. pose proof He as He0. rewrite Ev in E0, He0. cbn in He0.
    assert (president s = true) as Hp0.
    { rewrite <- Hpr. cbn [handle] in E0. unfold electionTimeout in E0.
      destruct (block_leader_promotion_ s), (1 <? quorum opt); by simplify_eq. }
    rewrite (inv_running opt _ i s HI Hi (Hpl Hp0)) in He0. by destruct He0.
  - destruct (H Hp0) as (Q & ? & ? & ? & HQ). exists Q. split_and!; try done.
    intros p Hp. destruct (HQ p Hp) as [? | (l & dv & ? & ?)]; [by left | right]. exists l, dv.
    rewrite tick_after, Eterm, heartbeat_at_self.
    destruct (handle_time _ _ _ _ _ _ _ E) as [(? & _) | (_ & _ & ->)]; [done |]. split; [by apply Hsub | done].
  - exists (voters opt true (tick s)). unfold has_quorum in Hq. apply andb_prop in Hq as [_ Hq].
    rewrite voteCount_voters in Hq. split_and!; [apply voters_NoDup | | lia |].
    + intros p (ni & Hni & _)%elem_of_voters. apply lookup_lt_Some in Hni. cbn in Hni.
      rewrite length_insert in Hni. lia.
    + intros p Hp. destruct (decide (p = i)) as [-> | Hne]; [by left | right].
      assert (heartbeat_at M !!! i = now M) as Hh by (pose proof Hdue as Hdue'; by rewrite Eh in Hdue').
      destruct (counted_is_loyal p Hh Hty Hne Hp) as (l & dv & Hin & Hd). exists l, dv.
      rewrite tick_after, Eterm, heartbeat_at_self.
      destruct (handle_time _ _ _ _ _ _ _ E) as [(_ & _ & ->) | (? & _)]; [| done]. split; [by apply Hsub | lia].
Qed.

Lemma after_tinv : quorum_loss_grace_heartbeats opt <= 1 → tinv M'.
Proof.
  intros Hg. pose proof HM as (_ & L1 & L2 & L3 & _). split_and!.
  - apply after_inv.
  - cbn. unfold restart. destruct (starts _ _); by rewrite ?length_insert.
  - cbn. unfold restart. destruct (starts _ _); by rewrite ?length_insert.
  - cbn. unfold restart. destruct (starts _ _); by rewrite ?length_insert.
  - intros x sx Hx. split_and!; [by apply clock_after | by apply info_after | by apply president_after].
  - apply packet_after.
  - apply flight_after.
Qed.
End node.

Lemma tinitial_tinv phases timeouts : start_ok opt phases timeouts → tinv (tinitial opt phases timeouts).
Proof.
  intros (L1 & L2 & Hph). split_and!; cbn.
  - apply initial_inv.
  - done.
  - done.
  - by rewrite length_replicate.
  - intros i s. rewrite list_lookup_fmap. intros (j & Hj & ->)%fmap_Some. apply lookup_seq in Hj as [-> Hj].
    cbn in *. split_and!.
    + assert (0 <= phases !!! i <= heartbeat_period opt) as Hb.
      { apply Hph, list_elem_of_lookup_2 with i, list_lookup_lookup_total_lt. lia. }
      unfold clock_inv. cbn. fold first_time. split_and!; lia.
    + intros p ni _. cbn. intros [-> _]%lookup_replicate. by left.
    + by intros.
  - intros m Hm. by apply elem_of_nil in Hm.
  - intros f Hf. by apply elem_of_nil in Hf.
Qed.

Lemma tstep_now M M' : tstep opt elector true M M' → now M <= now M'.
Proof. intros []; cbn; lia. Qed.

Lemma treachable_tinv M :
  quorum_loss_grace_heartbeats opt <= 1 → treachable opt elector true M →
  now M + election_timeout_min opt + 3 * heartbeat_period opt < 2 ^ 31 → tinv M.
Proof.
  intros Hg (ph & tos & Hok & H).
  apply (rtc_ind_r (R := tstep opt elector true)
    (fun M => now M + election_timeout_min opt + 3 * heartbeat_period opt < 2 ^ 31 → tinv M)
    (tinitial opt ph tos)); [| | exact H].
  - intros _. by apply tinitial_tinv.
  - intros y z _ Hs IH Hb. pose proof (tstep_now _ _ Hs) as Hmono. specialize (IH ltac:(lia)).
    destruct Hs; [by apply after_tinv | by apply pass_tinv].
Qed.

(** A president excludes leaders of later terms. *)
Lemma president_excludes M i j s s' :
  tinv M → nodes (cluster M) !! i = Some s → nodes (cluster M) !! j = Some s' →
  president s = true → type s' = kLeader → current_term s < current_term s' → False.
Proof.
  intros (HI & _ & _ & _ & Hn & Hm & _) Hi Hj Hp Hl Hlt.
  destruct (Hn i s Hi) as ((_ & Hc & _) & _ & Hpr). destruct (Hpr Hp) as (Q1 & N1 & B1 & L1 & V1).
  pose proof (inv_node _ _ _ _ HI Hj) as (_ & _ & _ & _ & _ & _ & He & _).
  destruct (He Hl) as (Q2 & N2 & B2 & L2 & V2).
  destruct (quorums_intersect opt Q1 Q2 Hw N1 N2 B1 B2 L1 L2) as (p & P1 & P2).
  destruct (V1 p P1) as [-> | (l & dv & Hin & Hd)].
  - destruct (V2 i P2) as [-> | (v & Hv & Ev & _ & Et)]; [simplify_eq; lia |].
    destruct HI as (_ & _ & _ & _ & _ & HV & _). destruct (HV v Hv) as ((sv & Hsv & H) & _).
    rewrite Ev, Hi in Hsv. simplify_eq. lia.
  - destruct (Hm _ Hin) as (T0 & dv0 & _ & _ & _ & Hr). destruct (Hr eq_refl) as (_ & _ & Hloyal).
    destruct Hloyal as [? | (sp & Hsp & Hty & _ & _ & _ & Hv)]; [lia |].
    destruct (V2 p P2) as [-> | (v & Hvin & Ev & _ & Et)]; [simplify_eq; congruence |].
    specialize (Hv v Hvin Ev). lia.
Qed.
End invariant.

(** The node is the president. *)
Definition presides (M : timed) (i : nat) : Prop :=
  ∃ s, nodes (cluster M) !! i = Some s ∧ president s = true.

End URaftPresident.
