(* ===== verification/URaftRuns.v ===== *)
(** * uRaft: runs

    Executions of the clusters of URaftNet and URaftTimed (src/uraft/uraft.cc): instances of
    the safety theorems, and runs in which the code does what it should not: two presidents
    with the default options, a leader aborted by an old packet, and a silent node counted
    as loyal. *)

From S2P Require Import Prelude URaft URaftNet URaftElection URaftTimed URaftPresident.
Import URaft URaftNet URaftElection URaftTimed URaftPresident.

Module URaftRuns.

(** Three servers with the default options of the constructor of [uRaft]. *)
Definition default_options (grace : Z) : Options := mk_options 3 300 500 20 2 grace.
Definition no_elector (i : nat) : bool := false.

(** Node 0 is elected by node 1. *)
Definition election : list (nat * event) :=
  [(1%nat, LoyaltyExpired); (0%nat, ElectionTimeout 5);
   (1%nat, Receive 0 (RequestVote 1 16 5) 5); (0%nat, Receive 1 (RVResponse 1 true 16 5) 0)].

Definition after_election : net := default (initial (default_options 5)) (schedule (default_options 5) no_elector true election (initial (default_options 5))).

Lemma after_election_run : schedule (default_options 5) no_elector true election (initial (default_options 5)) = Some after_election.
Proof. vm_compute. reflexivity. Qed.

Lemma after_election_reachable : reachable (default_options 5) no_elector true after_election.
Proof. eapply schedule_rtc. exact after_election_run. Qed.

(** Then node 1 is elected in the next term by node 2; node 0 has not heard of it. *)
Definition second_election : list (nat * event) :=
  [(2%nat, LoyaltyExpired); (1%nat, ElectionTimeout 6);
   (2%nat, Receive 1 (RequestVote 2 16 6) 5); (1%nat, Receive 2 (RVResponse 2 true 16 5) 0)].

Definition after_second : net := default (initial (default_options 5)) (schedule (default_options 5) no_elector true second_election after_election).

Lemma after_second_run : schedule (default_options 5) no_elector true second_election after_election = Some after_second.
Proof. vm_compute. reflexivity. Qed.

Lemma after_second_reachable : reachable (default_options 5) no_elector true after_second.
Proof. unfold reachable; etrans; [exact after_election_reachable | eapply schedule_rtc; exact after_second_run]. Qed.

(** Heartbeats of all nodes every 20 milliseconds, from tick [k] on. *)
Definition ticks (k n : nat) : list action :=
  concat ((fun j => [Pass (20 * Z.of_nat j); Do 0 Heartbeat 300; Do 1 Heartbeat 300; Do 2 Heartbeat 300]) <$> seq k n).

(** Node 0 becomes the president 320 milliseconds after the start. *)
Definition first_president : list action :=
  ticks 1 15 ++
  [Do 1 LoyaltyExpired 300; Do 2 LoyaltyExpired 300;
   Pass 310; Do 0 (ElectionTimeout 5) 300; Pass 311; Do 1 (Receive 0 (RequestVote 1 31 5) 5) 300;
   Pass 312; Do 0 (Receive 1 (RVResponse 1 true 31 5) 5) 300;
   Pass 313; Do 1 (Receive 0 (AppendEntries 1 31 5) 5) 400; Do 2 (Receive 0 (AppendEntries 1 31 5) 5) 400;
   Pass 314; Do 0 (Receive 1 (AEResponse 1 true 31 5) 5) 300;
   Pass 320; Do 0 Heartbeat 300; Do 1 Heartbeat 300; Do 2 Heartbeat 300].

(** The others hear of it once more, then node 0 is cut off; when their loyalty ends they
    elect node 1, which becomes the president 640 milliseconds after the start. *)
Definition second_president : list action :=
  first_president ++
  [Pass 321; Do 1 (Receive 0 (AppendEntries 1 32 5) 5) 300; Do 2 (Receive 0 (AppendEntries 1 32 5) 5) 400;
   Pass 322; Do 0 (Receive 1 (AEResponse 1 true 32 5) 5) 300] ++
  ticks 17 15 ++
  [Pass 621; Do 2 LoyaltyExpired 300; Do 1 (ElectionTimeout 5) 300;
   Pass 622; Do 2 (Receive 1 (RequestVote 2 47 5) 5) 300;
   Pass 623; Do 1 (Receive 2 (RVResponse 2 true 47 5) 5) 300;
   Pass 624; Do 2 (Receive 1 (AppendEntries 2 47 5) 5) 300;
   Pass 625; Do 1 (Receive 2 (AEResponse 2 true 47 5) 5) 300;
   Pass 640; Do 0 Heartbeat 300; Do 1 Heartbeat 300; Do 2 Heartbeat 300].

Definition start (grace : Z) : timed := tinitial (default_options grace) [20; 20; 20] [310; 310; 400].

Definition end_of (grace : Z) (l : list action) : timed :=
  default (start grace) (tschedule (default_options grace) no_elector true l (start grace)).

Lemma texec_tstep opt elector fl M a M' : texec opt elector fl M a = Some M' → tstep opt elector fl M M'.
Proof.
  destruct a as [now' | i e timeout]; cbn [texec].
  - intros H. destruct (bool_decide (now M < now') && _) eqn:E; [injection H as <- | discriminate H].
    apply andb_prop in E as [E1%bool_decide_eq_true_1 E2]. constructor; [done |].
    intros h Hh. rewrite forallb_forall in E2. apply Z.leb_le, E2. by apply list_elem_of_In.
  - intros (s & Hs & H)%bind_Some. 
    do 3 (apply bind_Some in H as (? & _ & H)).
    destruct (handle opt elector i e s) as [[s' out] | | |] eqn:E; simplify_eq. by constructor.
Qed.

Lemma tschedule_rtc opt elector fl l M M' : tschedule opt elector fl l M = Some M' → rtc (tstep opt elector fl) M M'.
Proof.
  unfold tschedule. revert M. induction l as [| a l IH]; intros M H; cbn in H.
  - simplify_eq. apply rtc_refl.
  - destruct (texec opt elector fl M a) as [M1 |] eqn:E.
    + eapply rtc_l; [by eapply texec_tstep | by apply IH].
    + exfalso. clear IH E. induction l as [| b l IH]; cbn in H; [done | by apply IH].
Qed.

Lemma start_is_ok grace : start_ok (default_options grace) [20; 20; 20] [310; 310; 400].
Proof. split_and!; [done | done |]. intros h. cbn. set_solver by lia. Qed.

Lemma end_reachable grace fl l M :
  tschedule (default_options grace) no_elector fl l (start grace) = Some M →
  treachable (default_options grace) no_elector fl M.
Proof. intros H. exists [20; 20; 20], [310; 310; 400]. split; [apply start_is_ok | by eapply tschedule_rtc]. Qed.

Lemma first_president_run :
  tschedule (default_options 1) no_elector true first_president (start 1) = Some (end_of 1 first_president).
Proof. vm_compute. reflexivity. Qed.

Lemma second_president_run :
  tschedule (default_options 5) no_elector true second_president (start 5) = Some (end_of 5 second_president).
Proof. vm_compute. reflexivity. Qed.

Lemma default_options_wf grace : options_wf (default_options grace) ∧ timing_wf (default_options grace).
Proof. split; [split; [cbn; lia | done] | split_and!; cbn; lia]. Qed.

(** C32: With the default options (a grace of five heartbeats) two nodes are presidents at the
    same moment: node 0, cut off from the others, tolerates the loss of its quorum while
    the others, whose loyalty has ended, elect node 1 and make it the president. *)
Theorem two_presidents :
  ∃ M, treachable (default_options 5) no_elector true M ∧ now M = 640 ∧ presides M 0 ∧ presides M 1.
Proof.
  assert (presides (end_of 5 second_president) 0 ∧ presides (end_of 5 second_president) 1) as [H0 H1].
  { split; vm_compute; eexists; split; reflexivity. }
  exists (end_of 5 second_president). split; [eapply end_reachable, second_president_run |].
  split; [vm_compute; reflexivity | done].
Qed.

(** Nodes 0 and 1 stand in the same term and do not hear of each other.  Node 2 votes for node
    0; its metadata server dies, [checkNodeStatus] calls [stepDownToFollower], and node 2 votes
    for node 1 as well.  It answers the heartbeats of both, which become presidents. *)
Definition double_vote : list action :=
  ticks 1 15 ++
  [Do 2 LoyaltyExpired 300;
   Pass 310; Do 0 (ElectionTimeout 5) 300; Do 1 (ElectionTimeout 5) 300;
   Pass 311; Do 2 (Receive 0 (RequestVote 1 31 5) 5) 300; Do 2 MetadataDead 300;
   Do 2 (Receive 1 (RequestVote 1 31 5) 5) 300;
   Pass 312; Do 0 (Receive 2 (RVResponse 1 true 31 5) 5) 300; Do 1 (Receive 2 (RVResponse 1 true 31 5) 5) 300;
   Pass 313; Do 2 (Receive 0 (AppendEntries 1 31 5) 5) 300; Do 2 (Receive 1 (AppendEntries 1 31 5) 5) 300;
   Pass 314; Do 0 (Receive 2 (AEResponse 1 true 31 5) 5) 300; Do 1 (Receive 2 (AEResponse 1 true 31 5) 5) 300;
   Pass 320; Do 0 Heartbeat 300; Do 1 Heartbeat 300; Do 2 Heartbeat 300].

Definition after_double_vote : timed :=
  default (start 1) (tschedule (default_options 1) no_elector false double_vote (start 1)).

Lemma double_vote_run :
  tschedule (default_options 1) no_elector false double_vote (start 1) = Some after_double_vote.
Proof. vm_compute. reflexivity. Qed.

(** C31: When the metadata server of a follower dies, the follower may vote twice in a term: two
    nodes are leaders, and presidents, of the same term at the same moment. *)
Theorem metadata_death_breaks_election_safety :
  ∃ M, treachable (default_options 1) no_elector false M ∧
    leads (cluster M) 0 1 ∧ leads (cluster M) 1 1 ∧ presides M 0 ∧ presides M 1.
Proof.
  exists after_double_vote. split; [eapply end_reachable, double_vote_run |].
  split_and!; vm_compute; eexists; split_and!; reflexivity.
Qed.

(** [stepDownToFollower] forgets the vote of the term: after [demoteLeader] node 0 votes for
    node 2 in the term in which it led itself, so different nodes may lead in one term, one
    after the other. *)
Definition demotion : list (nat * event) :=
  [(0%nat, DemoteLeader); (0%nat, LoyaltyExpired); (2%nat, ElectionTimeout 5);
   (0%nat, Receive 2 (RequestVote 1 16 5) 5); (2%nat, Receive 0 (RVResponse 1 true 16 5) 5)].

Theorem leaders_in_turn :
  ∃ N s0 s2, rtc (step (default_options 5) no_elector true) after_election N ∧
    nodes after_election !! 0%nat = Some s0 ∧ type s0 = kLeader ∧
    nodes N !! 2%nat = Some s2 ∧ type s2 = kLeader ∧ current_term s0 = current_term s2.
Proof.
  destruct (schedule (default_options 5) no_elector true demotion after_election) as [N |] eqn:E;
    [| vm_compute in E; discriminate E].
  exists N. pose proof (schedule_rtc _ _ _ _ _ _ E) as Hr. vm_compute in E. injection E as <-.
  do 2 eexists. split; [exact Hr |]. split_and!; vm_compute; reflexivity.
Qed.

(** [rpcAppend] asserts that the node is not a leader before it looks at the term: a delayed
    heartbeat of a deposed leader aborts the leader of a later term. *)
Theorem old_heartbeat_aborts_leader :
  ∃ N s, reachable (default_options 5) no_elector true N ∧ nodes N !! 1%nat = Some s ∧
    type s = kLeader ∧ current_term s = 2 ∧ (0%nat, 1%nat, AppendEntries 1 16 5) ∈ soup N ∧
    handle (default_options 5) no_elector 1 (Receive 0 (AppendEntries 1 16 5) 5) s = Abort.
Proof.
  assert (∃ s, nodes after_second !! 1%nat = Some s ∧ type s = kLeader ∧ current_term s = 2 ∧
    handle (default_options 5) no_elector 1 (Receive 0 (AppendEntries 1 16 5) 5) s = Abort) as (s & H1 & H2 & H3 & H4).
  { vm_compute. eexists. split_and!; reflexivity. }
  exists after_second, s. split; [exact after_second_reachable |]. split_and!; try done.
  assert (bool_decide ((0%nat, 1%nat, AppendEntries 1 16 5) ∈ soup after_second) = true) as H by (vm_compute; reflexivity).
  by apply bool_decide_eq_true_1 in H.
Qed.

(** The milliseconds since the last answer, as a whole number. *)
Definition silence (opt : Options) (s : t) (ni : NodeInfo) : Z :=
  heartbeat_period opt * (local_time s - n_heartbeat ni + 1).

(** [voteCount(true)] multiplies into an [int]: a node that has been silent for 2^31
    milliseconds (25 days) counts as loyal again, for 25 days. *)
Theorem silent_node_counts_as_loyal opt s ni :
  0 <= election_timeout_min opt → 0 < heartbeat_period opt →
  0 <= n_heartbeat ni <= local_time s → local_time s + 1 < 2 ^ 64 →
  2 ^ 31 <= silence opt s ni < 2 ^ 32 → votes_for opt true s ni = true.
Proof.
  intros He Hp Hn Hl Hr. unfold silence in Hr. unfold votes_for, time_from_loyalty_vote. cbn [negb andb orb].
  rewrite (wrapu_small 64 (local_time s - n_heartbeat ni)) by lia.
  rewrite (wrapu_small 64 (local_time s - n_heartbeat ni + 1)) by lia.
  rewrite wrapu_small by lia. apply Z.leb_le. unfold wraps.
  replace (heartbeat_period opt * (local_time s - n_heartbeat ni + 1) + 2 ^ (32 - 1))
    with (heartbeat_period opt * (local_time s - n_heartbeat ni + 1) - 2 ^ 31 + 1 * 2 ^ 32) by lia.
  rewrite Z.mod_add by lia. rewrite Z.mod_small by lia. lia.
Qed.

(** In a cluster of one server the node is promoted when the election timer fires and
    again at the next heartbeat. *)
Theorem single_server_promoted_twice v :
  let opt := mk_options 1 300 500 20 1 5 in
  let '(s1, out1) := electionTimeout opt v (init opt 0) in
  ∃ s2 out2, heartbeat opt s1 = Ok (s2, out2) ∧ NodePromote ∈ out1 ∧ NodePromote ∈ out2.
Proof.
  cbn zeta. unfold electionTimeout. cbn -[heartbeat]. do 2 eexists. split; [vm_compute; reflexivity |].
  split; set_solver.
Qed.

Lemma one_leader_per_term_witness :
  leads after_second 0 1 ∧ leads after_second 1 2 ∧ ∀ j, leads after_second j 2 → 1%nat = j.
Proof.
  assert (leads after_second 1 2) as H1 by (vm_compute; eexists; split_and!; reflexivity).
  split; [vm_compute; eexists; split_and!; reflexivity |]. split; [exact H1 |]. intros j Hj.
  exact (one_leader_per_term (default_options 5) no_elector after_second 1 j 2
    (proj1 (default_options_wf 5)) after_second_reachable H1 Hj).
Defined.

Lemma leader_has_newest_version_witness :
  ∃ s, nodes after_second !! 1%nat = Some s ∧
    ∃ Q, NoDup Q ∧ (∀ p, p ∈ Q → (p < 3)%nat) ∧ 2 <= Z.of_nat (length Q) ∧
      ∀ p, p ∈ Q → p = 1%nat ∨ endorsed after_second 1 s p.
Proof.
  destruct (nodes after_second !! 1%nat) as [s |] eqn:Es; [| vm_compute in Es; discriminate Es].
  exists s. split; [reflexivity |].
  assert (type s = kLeader) as Hl by (vm_compute in Es; injection Es as <-; reflexivity).
  exact (leader_has_newest_version (default_options 5) no_elector after_second 1 s
    (proj1 (default_options_wf 5)) after_second_reachable Es Hl).
Defined.


Lemma silent_node_counts_as_loyal_witness :
  votes_for (default_options 5) true
    (mk 0 kLeader 1 0 0 107374183 true true 5 (replicate 3 (mk_info 0 0 false false)) false 0)
    (mk_info 0 0 false false) = true.
Proof. apply silent_node_counts_as_loyal; unfold silence; cbn; lia. Defined.
End URaftRuns.
