(* ===== verification/URaftLiveness.v ===== *)
(** * uRaft: elections succeed

    Progress of the elections of src/uraft/uraft.cc in the cluster of URaftNet: when the
    election timer of a node fires and a majority of the servers answers, among them no
    server with a newer version, a newer term or a loyalty agreement, the node is elected. *)

From S2P Require Import Prelude URaft URaftNet URaftElection URaftRuns.
Import URaft URaftNet URaftElection.

Module URaftLiveness.

Section liveness.
Context (opt : Options) (elector : nat → bool).

(** The server [p] would vote in the term [T] for a candidate with the version [v], if its
    own version is [vp p]. *)
Definition willing (vp : nat → Z) (T v : Z) (p : nat) (s : t) : Prop :=
  type s = kFollower ∧ loyalty_agreement s = false ∧ current_term s < T ∧
  (if elector p then data_version s else vp p) <= v.

Lemma willing_grants vp T v l i p s :
  willing vp T v p s → 0 <= current_term s → president s = false →
  ∃ s' out dv, receivePacket opt (elector p) (vp p) i (RequestVote T l v) s = Ok (s', out) ∧
    Send i (RVResponse T true l dv) ∈ out.
Proof.
  intros (Hty & Hlo & Hterm & Hv) H0 Hp. unfold receivePacket, checkTerm. cbn [packet_term].
  rewrite (proj2 (Z.ltb_lt _ _) Hterm). rewrite Hp. cbn [assertion negb orb mbind res_bind].
  unfold stepDownToFollower, rpcReqVote. rewrite (proj2 (Z.ltb_lt 0 T)) by lia. cbn [voted_for].
  change (-1 <? 0) with true. cbn [andb].
  set (s0 := mk _ _ _ _ _ _ _ _ _ _ _ _).
  set (s1 := if negb (elector p) then set_data_version (vp p) s0 else s0).
  assert (type s1 = kFollower ∧ current_term s1 = T ∧ loyalty_agreement s1 = false ∧ voted_for s1 = -1)
    as (E1 & E2 & E3 & E4) by (unfold s1; by destruct (elector p)).
  assert (data_version s1 <= v) as E5 by (unfold s1; by destruct (elector p)).
  assert (grants i T v s1 = true) as G.
  { unfold grants. rewrite E1, E2, E3, E4. cbn. rewrite Z.leb_refl.
    by rewrite (proj2 (Z.leb_le _ _) E5). }
  rewrite G, E2. do 3 eexists. split; [reflexivity |].
  apply elem_of_app. right. left.
Qed.

Lemma answer_counted version T l dv i p s :
  type s = kCandidate → current_term s = T → id s = i →
  let ni := node_ s !!! p in
  let ns := <[p := mk_info (n_data_version ni) (n_heartbeat ni) true true]> (node_ s) in
  ∃ s' out, receivePacket opt (elector i) version p (RVResponse T true l dv) s = Ok (s', out) ∧
    current_term s' = T ∧ node_ s' = ns ∧ id s' = i ∧
    (type s' = kLeader ∨ (type s' = kCandidate ∧ voteCount opt false s' < quorum opt)).
Proof.
  intros Hty Hterm Hid ni ns. unfold receivePacket, checkTerm. cbn [packet_term]. rewrite Hterm.
  rewrite Z.ltb_irrefl. cbn [mbind res_bind]. unfold rpcReqVoteResponse. rewrite Hterm, Hty, Z.ltb_irrefl.
  cbn [orb negb]. rewrite bool_decide_true by done. cbn [negb]. fold ni. fold ns.
  destruct (Z.leb_spec (quorum opt) (voteCount opt false (set_nodes ns s))) as [Hq | Hq].
  - do 2 eexists. split; [reflexivity |]. cbn. auto.
  - do 2 eexists. split; [reflexivity |]. cbn. split_and!; auto.
Qed.

(** The candidate, and the votes it has counted. *)
Definition standing (N : net) (i : nat) (T : Z) (Q : list nat) : Prop :=
  ∃ s, nodes N !! i = Some s ∧ current_term s = T ∧
    (type s = kLeader ∨
     (type s = kCandidate ∧ voteCount opt false s < quorum opt ∧
      ∀ p, p ∈ Q → ∃ ni, node_ s !! p = Some ni ∧ n_vote_granted ni = true)).

(** One more server votes. *)
Lemma one_vote vp v l i T p N Q :
  inv opt N → standing N i T Q → p ≠ i →
  (∃ s, nodes N !! p = Some s ∧ willing vp T v p s) → (i, p, RequestVote T l v) ∈ soup N →
  ∃ N', rtc (step opt elector true) N N' ∧ inv opt N' ∧ standing N' i T (p :: Q) ∧
    (∀ q, q ≠ p → q ≠ i → nodes N' !! q = nodes N !! q) ∧ soup N ⊆ soup N'.
Proof.
  intros HI (si & Hi & Hterm & [Hl | (Hc & _ & Hg)]) Hpi (sp & Hsp & Hwill) Hreq.
  { exists N. split_and!; [apply rtc_refl | done | exists si; auto | done | done]. }
  pose proof (inv_node _ _ _ _ HI Hsp) as (_ & _ & H0 & _ & _ & _ & _ & _ & _ & Hpr).
  assert (president sp = false) as Hpf.
  { destruct (president sp); [| done]. destruct Hwill as (E & _). rewrite (Hpr eq_refl) in E. done. }
  destruct (willing_grants vp T v l i p sp Hwill H0 Hpf) as (sp' & outp & dv & Ep & Hresp).
  assert (step opt elector true N (update p sp' (timer_after (running N !!! p) outp) outp
    (recorded elector p (Receive i (RequestVote T l v) (vp p)) sp) N)) as S1
    by (by apply (step_node opt elector true N p (Receive i (RequestVote T l v) (vp p)))).
  set (N1 := update p sp' _ outp _ N) in S1. pose proof (step_inv _ _ _ _ HI S1) as HI1.
  assert (nodes N1 !! i = Some si) as Hi1 by (cbn; by rewrite list_lookup_insert_ne).
  pose proof (inv_node _ _ _ _ HI Hi) as (Hid & Hlen & _).
  destruct (answer_counted 0 T l dv i p si Hc Hterm Hid) as (si' & outi & Ei & Ht' & Hn' & _ & Hres).
  assert ((p, i, RVResponse T true l dv) ∈ soup N1) as Hin by (apply elem_of_app; left; by apply elem_of_sent).
  assert (step opt elector true N1 (update i si' (timer_after (running N1 !!! i) outi) outi [] N1)) as S2
    by (by apply (step_node opt elector true N1 i (Receive p (RVResponse T true l dv) 0) si)).
  exists (update i si' (timer_after (running N1 !!! i) outi) outi [] N1). split_and!.
  - eapply rtc_l; [exact S1 | by apply rtc_once].
  - by eapply step_inv.
  - exists si'. split; [by eapply nodes_update |]. split; [done |].
    destruct Hres as [? | [Hca ?]]; [by left | right]. split_and!; [done | done |]. pose proof (inv_lt _ _ _ _ HI Hsp).
    intros q Hq. rewrite Hn'. destruct (decide (q = p)) as [-> | Hqp].
    + eexists. rewrite list_lookup_insert_eq by lia. done.
    + rewrite list_lookup_insert_ne by done. apply Hg. set_solver.
  - intros q Hqp Hqi. cbn. by rewrite !list_lookup_insert_ne.
  - intros m Hm. apply elem_of_app. right. apply elem_of_app. by right.
Qed.

Lemma collect_votes vp v l i T Q : ∀ N Q0,
  inv opt N → standing N i T Q0 → NoDup Q → i ∉ Q →
  (∀ p, p ∈ Q → (∃ s, nodes N !! p = Some s ∧ willing vp T v p s) ∧ (i, p, RequestVote T l v) ∈ soup N) →
  ∃ N', rtc (step opt elector true) N N' ∧ inv opt N' ∧ standing N' i T (Q ++ Q0).
Proof.
  induction Q as [| p Q IH]; intros N Q0 HI Hst Hnd Hni HQ.
  { exists N. split_and!; [apply rtc_refl | done | done]. }
  apply NoDup_cons in Hnd as [Hp Hnd]. apply not_elem_of_cons in Hni as [Hip Hni].
  destruct (HQ p ltac:(left)) as [Hwill Hreq].
  destruct (one_vote vp v l i T p N Q0 HI Hst ltac:(done) Hwill Hreq) as (N1 & S1 & HI1 & Hst1 & Hsame & Hsub).
  destruct (IH N1 (p :: Q0) HI1 Hst1 Hnd Hni) as (N' & S' & HI' & (s & ? & ? & Hs)).
  { intros q Hq. destruct (HQ q ltac:(by right)) as [? ?]. rewrite Hsame by (by intros ->).
    split; [done | by apply Hsub]. }
  exists N'. split_and!; [by etrans | done |]. exists s. split_and!; [done | done |].
  destruct Hs as [? | (? & ? & Hgr)]; [by left | right]. split_and!; [done | done |]. intros q Hq. apply Hgr. set_solver.
Qed.
End liveness.

(** C28: Elections succeed: from every reachable state in which the election timer of a node that
    may be promoted is running, if enough servers are willing to vote for its version in the
    next term then there is a run in which the node becomes the leader of that term. *)
Theorem election_succeeds opt elector N i s v vp Q :
  options_wf opt → reachable opt elector true N →
  nodes N !! i = Some s → type s ≠ kLeader → block_leader_promotion_ s = false → running N !!! i = true →
  current_term s + 1 < 2 ^ 64 →
  NoDup Q → i ∉ Q → quorum opt <= Z.of_nat (S (length Q)) →
  (∀ p, p ∈ Q → ∃ sp, nodes N !! p = Some sp ∧ willing elector vp (current_term s + 1) v p sp) →
  ∃ N' s', rtc (step opt elector true) N N' ∧ nodes N' !! i = Some s' ∧
    type s' = kLeader ∧ current_term s' = current_term s + 1.
Proof.
  intros Hw Hr Hi Hty Hb Hrun Hmax Hnd Hni Hq Hwill. pose proof (cluster_inv _ _ _ Hr) as HI.
  pose proof (inv_node _ _ _ _ HI Hi) as (Hid & Hlen & H0 & _). pose proof (inv_lt _ _ _ _ HI Hi) as Hlt.
  destruct (electionTimeout opt v s) as [s1 out1] eqn:E1.
  assert (step opt elector true N (update i s1 (timer_after false out1) out1 [] N)) as S1.
  { apply (step_node opt elector true N i (ElectionTimeout v) s); [done | done |]. cbn [handle]. by rewrite E1. }
  set (N1 := update i s1 _ out1 [] N) in S1. pose proof (step_inv _ _ _ _ HI S1) as HI1.
  assert (nodes N1 !! i = Some s1) as Hi1 by (by eapply nodes_update).
  unfold electionTimeout in E1. rewrite Hb, wrapu_small in E1 by lia.
  destruct (Z.ltb_spec 1 (quorum opt)) as [Hq1 | Hq1].
  2: { simplify_eq. exists N1. eexists. split; [by apply rtc_once |]. split; [exact Hi1 |]. done. }
  destruct (collect_votes opt elector vp v (local_time s) i (current_term s + 1) Q N1 [i]) as (N' & S' & HI' & Hst).
  - done.
  - exists s1. split; [done |]. simplify_eq. split; [done |]. right. split; [done |]. split.
    + rewrite voteCount_voters. set (s1 := set_data_version _ _).
      assert (length (voters opt false s1) <= length [id s])%nat as Hl1; [| cbn [length] in Hl1; lia].
      apply submseteq_length, NoDup_submseteq; [apply voters_NoDup |]. intros p (ni & Hp & Hv)%elem_of_voters.
      apply list_elem_of_singleton. cbn in Hp. apply list_lookup_insert_Some in Hp as [(? & _) | [_ Hp]]; [done |].
      rewrite list_lookup_fmap in Hp. apply fmap_Some in Hp as (? & _ & ->). done.
    + intros p ->%list_elem_of_singleton. cbn. eexists.
      rewrite list_lookup_insert_eq by (rewrite length_fmap; lia). done.
  - done.
  - done.
  - intros p Hp. destruct (Hwill p Hp) as (sp & Hsp & Hwp). assert (p ≠ i) as Hpi by (by intros ->).
    split; [exists sp; split; [cbn; by rewrite list_lookup_insert_ne | done] |].
    apply elem_of_app. left. apply elem_of_sent. split; [done |]. simplify_eq. apply elem_of_app. left.
    apply elem_of_sendRequestForVotes. pose proof (inv_lt _ _ _ _ HI Hsp). cbn. split; [done |].
    rewrite list_lookup_total_insert_ne, length_insert, length_fmap by done. split; [| lia].
    rewrite list_lookup_total_alt, list_lookup_fmap. by destruct (node_ s !! p).
  - destruct Hst as (s' & Hs' & Hterm & [Hl | (Hc & Hcount & Hg)]).
    { exists N', s'. split_and!; [by eapply rtc_l | done | done | done]. }
    exfalso. rewrite voteCount_voters in Hcount.
    assert (length (Q ++ [i]) <= length (voters opt false s'))%nat as Hl2; [| rewrite length_app in Hl2; cbn in Hl2; lia].
    apply submseteq_length, NoDup_submseteq.
    + apply NoDup_app. split_and!; [done | | apply NoDup_singleton]. intros p Hp ->%list_elem_of_singleton. done.
    + intros p Hp. destruct (Hg p Hp) as (ni & Hnip & Hv). apply elem_of_voters. exists ni. split; [done |].
      unfold votes_for. by rewrite Hv.
Qed.

(** The first election of a cluster of three. *)
Lemma election_succeeds_witness :
  ∃ N N' s', reachable (URaftRuns.default_options 5) URaftRuns.no_elector true N ∧
    rtc (step (URaftRuns.default_options 5) URaftRuns.no_elector true) N N' ∧
    nodes N' !! 0%nat = Some s' ∧ type s' = kLeader ∧ current_term s' = 1.
Proof.
  set (opt := URaftRuns.default_options 5). set (el := URaftRuns.no_elector).
  destruct (schedule opt el true [(1%nat, LoyaltyExpired)] (initial opt)) as [N |] eqn:E; [| vm_compute in E; discriminate E].
  assert (reachable opt el true N) as Hr by (by eapply schedule_rtc).
  destruct (election_succeeds opt el N 0 (init opt 0) 5 (fun _ => 5) [1%nat]) as (N' & s' & H1 & H2 & H3 & H4);
    try (vm_compute in E; injection E as <-; reflexivity); try done.
  - apply URaftRuns.default_options_wf.
  - apply NoDup_singleton.
  - set_solver.
  - intros p ->%list_elem_of_singleton. vm_compute in E. injection E as <-. eexists. split; [reflexivity |].
    split_and!; [done | done | cbn; lia | cbn; lia].
  - exists N, N', s'. done.
Defined.
End URaftLiveness.
