(* ===== verification/URaftController.v ===== *)
(** * uRaft: the controller of the metadata server

    [uRaftController] of src/uraft/uraftcontroller.h and src/uraft/uraftcontroller.cc: the
    commands of the helper script that promote or demote the local metadata server, the
    watch on its health, the back-off after failed promotions and the floating IP manager,
    on top of the node of URaft.  Answers of the helper script and of [fork] are arguments.
    The theorems: the commands that change the metadata server never overlap, a node stands for election only with a
    healthy metadata server, and what every outcome of a promotion leads to. *)

From S2P Require Import Prelude URaft URaftNet URaftElection URaftTimed URaftPresident.
Import URaft URaftNet URaftPresident.

Module URaftController.

Inductive CommandType : Type := kCmdNone | kCmdPromote | kCmdDemote | kCmdStatusDead.
#[global] Instance CommandType_eq_dec : EqDecision CommandType.
Proof. solve_decision. Defined.

(** The members of [uRaftController]; [command_pid_] tells whether the pid is valid and
    [floating_ip] whether the floating IP manager exists. *)
Record ctl : Type := mk_ctl {
  raft : t;
  command_pid_ : bool;
  command_type_ : CommandType;
  is_demote_pending_ : bool;
  is_promote_pending_ : bool;
  node_alive_ : bool;
  promotion_failure_streak_ : Z;
  promotion_backoff_active_ : bool;
  dead_recovery_pending_ : bool;
  floating_ip : bool;
}.

Inductive ceffect : Type :=
| Raft (e : effect)
| RunSlow (c : CommandType)
| Finished
| Killed
| Cleanup
| StartFloatingIp
| StopFloatingIp
| StartBackoffTimer (ms : Z)
| StartDeadTimer.

Definition set_raft (s : t) (c : ctl) : ctl :=
  mk_ctl s (command_pid_ c) (command_type_ c) (is_demote_pending_ c) (is_promote_pending_ c) (node_alive_ c)
    (promotion_failure_streak_ c) (promotion_backoff_active_ c) (dead_recovery_pending_ c) (floating_ip c).
Definition set_command (pid : bool) (ty : CommandType) (c : ctl) : ctl :=
  mk_ctl (raft c) pid ty (is_demote_pending_ c) (is_promote_pending_ c) (node_alive_ c)
    (promotion_failure_streak_ c) (promotion_backoff_active_ c) (dead_recovery_pending_ c) (floating_ip c).
Definition set_demote_pending (b : bool) (c : ctl) : ctl :=
  mk_ctl (raft c) (command_pid_ c) (command_type_ c) b (is_promote_pending_ c) (node_alive_ c)
    (promotion_failure_streak_ c) (promotion_backoff_active_ c) (dead_recovery_pending_ c) (floating_ip c).
Definition set_promote_pending (b : bool) (c : ctl) : ctl :=
  mk_ctl (raft c) (command_pid_ c) (command_type_ c) (is_demote_pending_ c) b (node_alive_ c)
    (promotion_failure_streak_ c) (promotion_backoff_active_ c) (dead_recovery_pending_ c) (floating_ip c).
Definition set_node_alive (b : bool) (c : ctl) : ctl :=
  mk_ctl (raft c) (command_pid_ c) (command_type_ c) (is_demote_pending_ c) (is_promote_pending_ c) b
    (promotion_failure_streak_ c) (promotion_backoff_active_ c) (dead_recovery_pending_ c) (floating_ip c).
Definition set_backoff (streak : Z) (b : bool) (c : ctl) : ctl :=
  mk_ctl (raft c) (command_pid_ c) (command_type_ c) (is_demote_pending_ c) (is_promote_pending_ c) (node_alive_ c)
    streak b (dead_recovery_pending_ c) (floating_ip c).
Definition set_dead_recovery (b : bool) (c : ctl) : ctl :=
  mk_ctl (raft c) (command_pid_ c) (command_type_ c) (is_demote_pending_ c) (is_promote_pending_ c) (node_alive_ c)
    (promotion_failure_streak_ c) (promotion_backoff_active_ c) b (floating_ip c).
Definition set_floating_ip (b : bool) (c : ctl) : ctl :=
  mk_ctl (raft c) (command_pid_ c) (command_type_ c) (is_demote_pending_ c) (is_promote_pending_ c) (node_alive_ c)
    (promotion_failure_streak_ c) (promotion_backoff_active_ c) (dead_recovery_pending_ c) b.

(** [startFloatingIpManager] and [stopFloatingIpManager]. *)
Definition startFloatingIpManager (c : ctl) : ctl * list ceffect := (set_floating_ip true c, [StartFloatingIp]).
Definition stopFloatingIpManager (c : ctl) : ctl * list ceffect :=
  if floating_ip c then (set_floating_ip false c, [StopFloatingIp]) else (c, []).

(** [runSlowCommand], and the type of the command when [fork] succeeds. *)
Definition runSlowCommand (forks : bool) (ty : CommandType) (c : ctl) : ctl * list ceffect :=
  if forks then (set_command true ty c, [RunSlow ty]) else (set_command false (command_type_ c) c, []).

Definition nodePromote (forks : bool) (c : ctl) : ctl * list ceffect :=
  if promotion_backoff_active_ c then (c, [])
  else if command_pid_ c then
    (if bool_decide (command_type_ c = kCmdDemote) && negb (is_promote_pending_ c)
     then set_promote_pending true c else c, [])
  else runSlowCommand forks kCmdPromote c.

Definition nodeDemote (forks : bool) (c : ctl) : ctl * list ceffect :=
  let '(c, out) := stopFloatingIpManager c in
  if command_pid_ c then
    (if bool_decide (command_type_ c = kCmdPromote) && negb (is_demote_pending_ c)
     then set_demote_pending true c else c, out)
  else let '(c, out') := runSlowCommand forks kCmdDemote c in (c, out ++ out').

Definition computePromotionBackoffMs (streak : Z) : Z :=
  if streak <=? 0 then 0 else Z.min (1000 * 2 ^ Z.min (streak - 1) 6) 60000.

Definition startPromotionBackoff (reset : bool) (c : ctl) : ctl * list ceffect :=
  if reset then (set_backoff 0 false c, [])
  else
    let streak := promotion_failure_streak_ c + 1 in
    let backoff_ms := computePromotionBackoffMs streak in
    if backoff_ms <=? 0 then (set_backoff streak (promotion_backoff_active_ c) c, [])
    else (set_backoff streak true (set_raft (set_block_promotion true (raft c)) c), [StartBackoffTimer backoff_ms]).

Definition handlePromotionFailure (c : ctl) : ctl * list ceffect :=
  let '(s, out) := demoteLeader (raft c) in
  let c := set_demote_pending true (set_raft s c) in
  let '(c, out') := startPromotionBackoff false c in
  (c, Cleanup :: (Raft <$> out) ++ out').

(** [checkCommandStatus]: a demotion, ... *)
Definition demotion_finished (forks : bool) (c : ctl) : ctl * list ceffect :=
  let c := set_command false kCmdNone c in
  if is_promote_pending_ c then
    let '(c, out) := if bool_decide (type (raft c) = kLeader) then nodePromote forks c else (c, []) in
    (set_promote_pending false c, out)
  else (c, []).

(** ... a promotion ... *)
Definition promotion_result (forks ok : bool) (c : ctl) : ctl * list ceffect :=
  if ok then
    let '(c, out) := startPromotionBackoff true c in
    let '(c, out') := if bool_decide (type (raft c) = kLeader) then startFloatingIpManager c else nodeDemote forks c in
    (c, out ++ out')
  else handlePromotionFailure c.

Definition promotion_finished (forks ok : bool) (c : ctl) : ctl * list ceffect :=
  let '(c, out1) := promotion_result forks ok c in
  let c := set_command false kCmdNone c in
  if is_demote_pending_ c then
    let '(c, out2) := if bool_decide (type (raft c) = kLeader) then (c, []) else nodeDemote forks c in
    (set_demote_pending false c, out1 ++ out2)
  else (c, out1).

(** ... or the handler of a dead metadata server has finished; [status] is the answer of
    [waitpid]: [None] when the command still runs, otherwise whether it succeeded. *)
Definition checkCommandStatus (forks : bool) (status : option bool) (c : ctl) : ctl * list ceffect :=
  match (if command_pid_ c then status else None) with
  | None => (c, [])
  | Some ok =>
      let '(c, out) :=
        match command_type_ c with
        | kCmdDemote => demotion_finished forks c
        | kCmdPromote => promotion_finished forks ok c
        | kCmdStatusDead => (set_command false kCmdNone c, [])
        | kCmdNone => (c, [])
        end in
      (c, Finished :: out)
  end.

Definition startDeadMetadataHandler (forks : bool) (c : ctl) : ctl * list ceffect :=
  let '(c, out) := stopFloatingIpManager c in
  if command_pid_ c then (c, out)
  else let '(c, out') := runSlowCommand forks kCmdStatusDead c in (c, out ++ out').

Definition cancelDeadRecovery (c : ctl) : ctl := set_dead_recovery false c.

Definition scheduleDeadRecovery (c : ctl) : ctl * list ceffect :=
  if dead_recovery_pending_ c then (c, []) else (set_dead_recovery true c, [StartDeadTimer]).

(** The handler of that timer. *)
Definition deadRecovery (forks : bool) (c : ctl) : ctl * list ceffect :=
  if node_alive_ c then (cancelDeadRecovery c, [])
  else if command_pid_ c || negb (bool_decide (command_type_ c = kCmdNone))
  then scheduleDeadRecovery (cancelDeadRecovery c)
  else nodeDemote forks (set_dead_recovery false c).

(** [checkNodeStatus]: [result] is the answer of the helper, [None] when it timed out or was
    invalid. *)
Definition checkNodeStatus (forks : bool) (result : option bool) (c : ctl) : ctl * list ceffect :=
  if bool_decide (command_type_ c = kCmdNone) then
    let is_alive := default (node_alive_ c) result in
    let c := set_raft (set_block_promotion (negb is_alive || promotion_backoff_active_ c) (raft c)) c in
    if eqb is_alive (node_alive_ c) then (c, [])
    else if is_alive then (set_node_alive true (cancelDeadRecovery c), [])
    else
      let '(s, out) := stepDownToFollower kRaftOnly 0 (raft c) in
      let '(c, out1) := startDeadMetadataHandler forks (set_raft s c) in
      let '(c, out2) := scheduleDeadRecovery c in
      (set_node_alive false c, (Raft <$> out) ++ out1 ++ out2)
  else (c, []).

Definition stopSlowCommand (c : ctl) : ctl * list ceffect :=
  if command_pid_ c then (set_command false kCmdNone c, [Killed]) else (c, []).

(** The handler of the timer of [setSlowCommandTimeout]. *)
Definition commandTimeout (c : ctl) : ctl * list ceffect :=
  let '(c, out) := match command_type_ c with kCmdPromote => handlePromotionFailure c | _ => (c, []) end in
  let '(c, out') := stopSlowCommand c in
  (c, out ++ out').

(** The handler of the timer of [startPromotionBackoff]. *)
Definition backoffExpired (c : ctl) : ctl := set_backoff (promotion_failure_streak_ c) false c.

(** The calls of the virtual functions that a handler of [uRaft] makes. *)
Fixpoint callbacks (forks : bool) (out : list effect) (c : ctl) : ctl * list ceffect :=
  match out with
  | [] => (c, [])
  | e :: out =>
      let '(c, out1) := match e with
                        | NodePromote => nodePromote forks c
                        | NodeDemote => nodeDemote forks c
                        | _ => (c, [])
                        end in
      let '(c, out2) := callbacks forks out c in
      (c, Raft e :: out1 ++ out2)
  end.

Section controller.
Context (opt : Options) (elector_mode : bool) (self : nat).

(** What happens to a controller; of the events of a node, those that uRaft itself causes. *)
Inductive cevent : Type :=
| Packet (sender : nat) (p : packet) (version : Z)
| ElectionTimer (version : Z)
| HeartbeatTimer
| LoyaltyTimer
| CommandStatus (status : option bool)
| NodeStatus (result : option bool)
| DeadTimer
| CommandTimer
| BackoffTimer.

Definition raft_event (e : cevent) : option event :=
  match e with
  | Packet sender p version => Some (Receive sender p version)
  | ElectionTimer version => Some (ElectionTimeout version)
  | HeartbeatTimer => Some Heartbeat
  | LoyaltyTimer => Some LoyaltyExpired
  | _ => None
  end.

Definition chandle (forks : bool) (e : cevent) (c : ctl) : res (ctl * list ceffect) :=
  match raft_event e with
  | Some re =>
      '(s, out) ← handle opt (fun _ => elector_mode) self re (raft c);
      Ok (callbacks forks out (set_raft s c))
  | None =>
      (** In elector mode [init] starts none of the controller's timers. *)
      if elector_mode then Ok (c, [])
      else Ok (match e with
               | CommandStatus status => checkCommandStatus forks status c
               | NodeStatus result => checkNodeStatus forks result c
               | DeadTimer => deadRecovery forks c
               | CommandTimer => commandTimeout c
               | BackoffTimer => (backoffExpired c, [])
               | _ => (c, [])
               end)
  end.

(** The constructor and [init()]. *)
Definition cinit : ctl :=
  mk_ctl (set_block_promotion true (init opt self)) false kCmdNone false false false 0 false false false.

Inductive cstep (c : ctl) : list ceffect → ctl → Prop :=
| cstep_event forks e c' out : chandle forks e c = Ok (c', out) → cstep c out c'.

(** Runs with the effects of all steps. *)
Inductive run : ctl → list ceffect → Prop :=
| run_init : run cinit []
| run_step c out c' out' : run c out → cstep c out' c' → run c' (out ++ out').
End controller.

(** A run as a function. *)
Fixpoint crun (opt : Options) (el : bool) (self : nat) (es : list (bool * cevent)) (c : ctl) : option (ctl * list ceffect) :=
  match es with
  | [] => Some (c, [])
  | (forks, e) :: es =>
      match chandle opt el self forks e c with
      | Ok (c, out) => '(c, out') ← crun opt el self es c; Some (c, out ++ out')
      | _ => None
      end
  end.

(** The helper processes that change the metadata server, from the effects: none, one command, or the promotion
    that has timed out beside its clean-up. *)
Inductive helpers : Type := Idle | Busy (c : CommandType) | CleanedUp.

(** [None] when a command is started while another one runs or before a promotion that has timed out is killed, when
    one ends that does not run, or when the clean-up runs beside anything but a promotion. *)
Definition monitor1 (r : option helpers) (e : ceffect) : option helpers :=
  match r, e with
  | Some Idle, RunSlow c => Some (Busy c)
  | Some _, RunSlow _ => None
  | Some (Busy _), Finished | Some (Busy _), Killed | Some CleanedUp, Killed => Some Idle
  | Some _, Finished | Some _, Killed => None
  | Some Idle, Cleanup => Some Idle
  | Some (Busy kCmdPromote), Cleanup => Some CleanedUp
  | Some _, Cleanup => None
  | r, _ => r
  end.

Definition monitor (r : helpers) (out : list ceffect) : option helpers := foldl monitor1 (Some r) out.

(** What the controller believes. *)
Definition believed (c : ctl) : helpers := if command_pid_ c then Busy (command_type_ c) else Idle.

(** ** The invariant *)

(** A command is running exactly when its type is set; while the node may stand for
    election the metadata server was alive and there is no back-off; the floating IP manager
    does not run during a demotion; an elector never leaves the state of a follower. *)
Definition cinv (elector_mode : bool) (c : ctl) : Prop :=
  (command_pid_ c = true ↔ command_type_ c ≠ kCmdNone) ∧
  (block_leader_promotion_ (raft c) = false → node_alive_ c = true ∧ promotion_backoff_active_ c = false) ∧
  (floating_ip c = true → command_type_ c = kCmdNone ∨ command_type_ c = kCmdPromote) ∧
  0 <= promotion_failure_streak_ c ∧
  (elector_mode = true → block_leader_promotion_ (raft c) = true ∧ type (raft c) = kFollower ∧ president (raft c) = false ∧
     command_pid_ c = false).

Lemma monitor_app b out1 out2 b1 : monitor b out1 = Some b1 → monitor b (out1 ++ out2) = monitor b1 out2.
Proof. unfold monitor. rewrite foldl_app. by intros ->. Qed.

Lemma monitor_raft b out : monitor b (Raft <$> out) = Some b.
Proof. induction out as [| e out IH]; [done |]. unfold monitor in *. cbn. by destruct b as [| [] |]. Qed.

(** An operation of the controller keeps the invariant and accounts for its commands. *)
Definition accounted (c c' : ctl) (out : list ceffect) : Prop :=
  monitor (believed c) out = Some (believed c').

Lemma accounted_trans c1 c2 c3 o1 o2 : accounted c1 c2 o1 → accounted c2 c3 o2 → accounted c1 c3 (o1 ++ o2).
Proof. unfold accounted. intros H1 H2. by rewrite (monitor_app _ _ _ _ H1). Qed.

Lemma backoff_range streak : 0 < streak → 1000 <= computePromotionBackoffMs streak <= 60000.
Proof.
  intros H. unfold computePromotionBackoffMs. rewrite (proj2 (Z.leb_gt _ _) H).
  assert (1 <= 2 ^ Z.min (streak - 1) 6) by (change 1 with (2 ^ 0); apply Z.pow_le_mono_r; lia). lia.
Qed.

(** The branches of an operation. *)
Ltac controller E :=
  repeat (match type of E with
          | context [match (_, _) with _ => _ end] => progress cbv beta iota in E
          | context [match ?x with _ => _ end] =>
              lazymatch x with context [match _ with _ => _ end] => fail | _ => destruct x eqn:? end
          end; cbn [andb orb negb] in E);
  simplify_eq; cbn in *.

Ltac flags :=
  repeat match goal with
         | H : _ || _ = false |- _ => apply orb_false_iff in H as [? ?]
         | H : _ || _ = true |- _ => apply orb_true_iff in H
         | H : _ && _ = true |- _ => apply andb_true_iff in H as [? ?]
         | H : negb _ = true |- _ => apply negb_true_iff in H
         | H : negb _ = false |- _ => apply negb_false_iff in H
         | H : bool_decide _ = true |- _ => apply bool_decide_eq_true_1 in H
         | H : bool_decide _ = false |- _ => apply bool_decide_eq_false_1 in H
         end.

(** No helper command starts or ends. *)
Definition quiet (out : list ceffect) : Prop := ∀ b, monitor b out = Some b.

Lemma quiet_app a b : quiet a → quiet b → quiet (a ++ b).
Proof. intros Ha Hb r. by rewrite (monitor_app _ _ _ _ (Ha r)). Qed.

Lemma quiet_nil : quiet [].
Proof. done. Qed.

Lemma quiet_stop : quiet [StopFloatingIp].
Proof. by intros [| [] |]. Qed.

Lemma quiet_dead : quiet [StartDeadTimer].
Proof. by intros [| [] |]. Qed.

Lemma quiet_backoff ms : quiet [StartBackoffTimer ms].
Proof. by intros [| [] |]. Qed.

Ltac ctl_solve :=
  try (match goal with |- context [if ?b then Busy ?ty else Idle] => destruct b, ty; done end);
  try done; try tauto; auto using quiet_nil, quiet_stop, quiet_backoff;
  repeat match goal with H : command_pid_ _ = _ |- _ => rewrite H in * end;
  try done; try apply quiet_stop; try (intros; by rewrite ?foldl_app);
  try (intros; split_and!; auto using quiet_nil, quiet_stop; congruence); try naive_solver.

Lemma cinv_no_command c : cinv false c → command_pid_ c = false → command_type_ c = kCmdNone.
Proof. intros [H _] E. destruct (decide (command_type_ c = kCmdNone)); [done |]. rewrite (proj2 H) in E; done. Qed.

Lemma nodePromote_spec forks c c' out :
  cinv false c → nodePromote forks c = (c', out) →
  cinv false c' ∧ accounted c c' out ∧ raft c' = raft c ∧ floating_ip c' = floating_ip c ∧
  (command_pid_ c = true → quiet out ∧ command_pid_ c' = true ∧ command_type_ c' = command_type_ c).
Proof.
  intros HI E. pose proof (cinv_no_command c HI) as Hnone. destruct HI as (H1 & H2 & H3 & H4 & H5).
  unfold nodePromote, runSlowCommand in E.
  controller E; flags; unfold cinv, accounted, believed; cbn; split_and!; ctl_solve.
Qed.

Lemma nodeDemote_spec forks c c' out :
  cinv false c → nodeDemote forks c = (c', out) →
  cinv false c' ∧ accounted c c' out ∧ raft c' = raft c ∧ floating_ip c' = false ∧
  (command_pid_ c = true → quiet out ∧ command_pid_ c' = true ∧ command_type_ c' = command_type_ c).
Proof.
  intros HI E. pose proof (cinv_no_command c HI) as Hnone. destruct HI as (H1 & H2 & H3 & H4 & H5).
  unfold nodeDemote, runSlowCommand, stopFloatingIpManager in E.
  controller E; flags; unfold cinv, accounted, believed; cbn; split_and!; ctl_solve.
Qed.

Lemma nodeDemote_flags forks c c' out :
  cinv false c → nodeDemote forks c = (c', out) →
  promotion_backoff_active_ c' = promotion_backoff_active_ c ∧
  (command_pid_ c = true → command_type_ c = kCmdPromote → is_demote_pending_ c' = true) ∧
  (command_pid_ c = false → command_type_ c' = if forks then kCmdDemote else kCmdNone).
Proof.
  intros HI E. pose proof (cinv_no_command c HI) as Hnone. clear HI.
  unfold nodeDemote, runSlowCommand, stopFloatingIpManager in E.
  controller E; flags; split_and!; intros; try done; try congruence; try (by apply Hnone).
  all: match goal with H : bool_decide _ && _ = false |- _ => rewrite bool_decide_true in H by done end.
  all: cbn [andb] in *; flags; congruence.
Qed.

Lemma startPromotionBackoff_spec reset c c' out :
  cinv false c → startPromotionBackoff reset c = (c', out) →
  cinv false c' ∧ quiet out ∧ command_pid_ c' = command_pid_ c ∧ command_type_ c' = command_type_ c ∧
  type (raft c') = type (raft c) ∧ floating_ip c' = floating_ip c ∧
  is_demote_pending_ c' = is_demote_pending_ c ∧
  (reset = false → promotion_backoff_active_ c' = true ∧ block_leader_promotion_ (raft c') = true).
Proof.
  intros (H1 & H2 & H3 & H4 & H5) E. unfold startPromotionBackoff in E.
  pose proof (backoff_range (promotion_failure_streak_ c + 1) ltac:(lia)) as Hb.
  controller E; flags; unfold cinv; cbn; split_and!; try lia; ctl_solve.
Qed.

Lemma demoteLeader_block s s' out :
  demoteLeader s = (s', out) →
  block_leader_promotion_ s' = block_leader_promotion_ s ∧ type s' = kFollower.
Proof. unfold demoteLeader, stepDownToFollower. case_bool_decide; intros; by simplify_eq. Qed.

Lemma handlePromotionFailure_spec c c' out :
  cinv false c → handlePromotionFailure c = (c', out) →
  cinv false c' ∧ monitor Idle out = Some Idle ∧ monitor (Busy kCmdPromote) out = Some CleanedUp ∧
  command_pid_ c' = command_pid_ c ∧ command_type_ c' = command_type_ c ∧
  type (raft c') = kFollower ∧ is_demote_pending_ c' = true ∧
  promotion_backoff_active_ c' = true ∧ block_leader_promotion_ (raft c') = true.
Proof.
  intros HI E. unfold handlePromotionFailure in E.
  destruct (demoteLeader (raft c)) as [s o] eqn:Ed. destruct (demoteLeader_block _ _ _ Ed) as [Hb Hty].
  destruct (startPromotionBackoff false _) as [c1 o1] eqn:Eb. simplify_eq.
  apply startPromotionBackoff_spec in Eb as (? & Hq & ? & ? & ? & ? & Hd & Hr).
  - destruct (Hr eq_refl). split_and!; try done; cbn in *; try congruence.
    all: apply (quiet_app (Raft <$> o)); [intros b'; apply monitor_raft | done].
  - destruct HI as (H1 & H2 & H3 & H4 & H5). unfold cinv. cbn. rewrite Hb. split_and!; try done; apply H1.
Qed.

Lemma clear_command_cinv c : cinv false c → cinv false (set_command false kCmdNone c).
Proof. intros (H1 & H2 & H3 & H4 & H5). unfold cinv. cbn. split_and!; try done. by left. Qed.

Lemma set_pending_cinv b c : cinv false c → cinv false (set_demote_pending b c) ∧ cinv false (set_promote_pending b c).
Proof. done. Qed.

Lemma demotion_finished_spec forks c c' out :
  cinv false c → demotion_finished forks c = (c', out) →
  cinv false c' ∧ monitor Idle out = Some (believed c').
Proof.
  intros HI%clear_command_cinv E. unfold demotion_finished in E.
  set (c0 := set_command false kCmdNone c) in *.
  destruct (is_promote_pending_ c0); [| by simplify_eq].
  case_bool_decide; [| by simplify_eq].
  destruct (nodePromote forks c0) as [c1 o] eqn:Ep. simplify_eq.
  destruct (nodePromote_spec _ _ _ _ HI Ep) as (? & ? & _). done.
Qed.

Lemma promotion_result_spec forks ok c c' out :
  cinv false c → command_pid_ c = true → command_type_ c = kCmdPromote → promotion_result forks ok c = (c', out) →
  cinv false c' ∧ monitor Idle out = Some Idle ∧
  (if ok then raft c' = raft c ∧
     (if bool_decide (type (raft c) = kLeader) then floating_ip c' = true else is_demote_pending_ c' = true)
   else type (raft c') = kFollower ∧ is_demote_pending_ c' = true ∧ promotion_backoff_active_ c' = true ∧
     block_leader_promotion_ (raft c') = true).
Proof.
  intros HI Hpid Hty E. unfold promotion_result in E. destruct ok.
  2: { destruct (handlePromotionFailure_spec _ _ _ HI E) as (? & ? & _ & _ & _ & ? & ? & ? & ?). by split_and!. }
  cbn [startPromotionBackoff app] in E. set (c0 := set_backoff 0 false c) in *.
  assert (cinv false c0) as HI0.
  { destruct HI as (? & H2 & ? & ? & ?). unfold cinv. cbn. split_and!; try done; try tauto. }
  change (raft c0) with (raft c) in E. case_bool_decide as Hl.
  - unfold startFloatingIpManager in E. simplify_eq. destruct HI0 as (? & ? & ? & ? & ?).
    unfold cinv; cbn. split_and!; try done; try tauto.
  - destruct (nodeDemote forks c0) as [c2 o2] eqn:Ed. simplify_eq.
    destruct (nodeDemote_spec _ _ _ _ HI0 Ed) as (? & _ & ? & _ & Hrun).
    destruct (nodeDemote_flags _ _ _ _ HI0 Ed) as (_ & Hpend & _).
    destruct (Hrun Hpid) as (? & _ & _). split_and!; try done. by apply Hpend.
Qed.

(** The outcomes of a promotion. *)
Definition promotion_outcome (forks ok : bool) (c c' : ctl) : Prop :=
  if ok then
    if bool_decide (type (raft c) = kLeader) then floating_ip c' = true ∧ command_pid_ c' = false
    else floating_ip c' = false ∧ command_type_ c' = (if forks then kCmdDemote else kCmdNone)
  else
    type (raft c') = kFollower ∧ promotion_backoff_active_ c' = true ∧ floating_ip c' = false ∧
    block_leader_promotion_ (raft c') = true ∧ command_type_ c' = (if forks then kCmdDemote else kCmdNone).

Lemma promotion_finished_spec forks ok c c' out :
  cinv false c → command_pid_ c = true → command_type_ c = kCmdPromote → promotion_finished forks ok c = (c', out) →
  cinv false c' ∧ monitor Idle out = Some (believed c') ∧ promotion_outcome forks ok c c'.
Proof.
  intros HI Hpid Hty E. unfold promotion_finished in E.
  destruct (promotion_result forks ok c) as [c1 o1] eqn:E1.
  destruct (promotion_result_spec _ _ _ _ _ HI Hpid Hty E1) as (HI1 & Hq & Hcase).
  apply clear_command_cinv in HI1. set (c2 := set_command false kCmdNone c1) in *.
  change (is_demote_pending_ c2) with (is_demote_pending_ c1) in E. change (raft c2) with (raft c1) in E.
  assert (∀ c3 o3, nodeDemote forks c2 = (c3, o3) →
    cinv false c3 ∧ monitor Idle (o1 ++ o3) = Some (believed c3) ∧ raft c3 = raft c1 ∧ floating_ip c3 = false ∧
    promotion_backoff_active_ c3 = promotion_backoff_active_ c1 ∧
    command_type_ c3 = if forks then kCmdDemote else kCmdNone) as Hdem.
  { intros c3 o3 E3. destruct (nodeDemote_spec _ _ _ _ HI1 E3) as (? & Hacc & ? & ? & _).
    destruct (nodeDemote_flags _ _ _ _ HI1 E3) as (? & _ & Hnew).
    split_and!; try done; [by rewrite (monitor_app _ _ _ _ Hq) | by apply Hnew]. }
  unfold promotion_outcome. destruct ok.
  - destruct Hcase as [Hraft Hcase]. rewrite Hraft in E. case_bool_decide as Hl.
    + assert (floating_ip c' = true ∧ command_pid_ c' = false ∧ out = o1 ++ [] ∧ cinv false c') as (? & Hp & -> & ?).
      { destruct (is_demote_pending_ c1); simplify_eq; rewrite ?app_nil_r; by split_and!. }
      split_and!; try done. rewrite app_nil_r. unfold believed. by rewrite Hp.
    + rewrite Hcase in E. destruct (nodeDemote forks c2) as [c3 o3]. simplify_eq.
      destruct (Hdem c3 o3 eq_refl) as (? & ? & ? & ? & ? & ?). by split_and!.
  - destruct Hcase as (Hf & Hpend & Hb & Hbl). rewrite Hpend, Hf in E. rewrite bool_decide_false in E by done.
    destruct (nodeDemote forks c2) as [c3 o3]. simplify_eq.
    destruct (Hdem c3 o3 eq_refl) as (? & ? & Hr & ? & ? & ?). split_and!; try done; cbn; congruence.
Qed.

Lemma checkCommandStatus_spec forks status c c' out :
  cinv false c → checkCommandStatus forks status c = (c', out) → cinv false c' ∧ accounted c c' out.
Proof.
  intros HI E. unfold checkCommandStatus in E. unfold accounted.
  destruct (command_pid_ c) eqn:Hpid; [| by simplify_eq].
  destruct status as [ok |]; [| by simplify_eq]. unfold believed at 1. rewrite Hpid.
  destruct (command_type_ c) eqn:Hty.
  - destruct HI as [H _]. exfalso. apply (proj1 H); done.
  - destruct (promotion_finished forks ok c) as [c1 o] eqn:E1. simplify_eq.
    destruct (promotion_finished_spec _ _ _ _ _ HI Hpid Hty E1) as (? & ? & _). done.
  - destruct (demotion_finished forks c) as [c1 o] eqn:E1. simplify_eq.
    by destruct (demotion_finished_spec _ _ _ _ HI E1).
  - simplify_eq. split; [by apply clear_command_cinv | done].
Qed.

Lemma startDeadMetadataHandler_spec forks c c' out :
  cinv false c → command_type_ c = kCmdNone → startDeadMetadataHandler forks c = (c', out) →
  cinv false c' ∧ accounted c c' out ∧ raft c' = raft c ∧ node_alive_ c' = node_alive_ c ∧ floating_ip c' = false ∧
  promotion_backoff_active_ c' = promotion_backoff_active_ c.
Proof.
  intros HI Hty E. assert (command_pid_ c = false) as Hpid.
  { destruct HI as [H _]. destruct (command_pid_ c); [by apply H in Hty | done]. }
  destruct HI as (H1 & H2 & H3 & H4 & H5). unfold startDeadMetadataHandler, runSlowCommand, stopFloatingIpManager in E.
  controller E; unfold cinv, accounted, believed; cbn; split_and!; ctl_solve.
Qed.

Lemma checkNodeStatus_spec forks result c c' out :
  cinv false c → checkNodeStatus forks result c = (c', out) → cinv false c' ∧ accounted c c' out.
Proof.
  intros HI E. unfold checkNodeStatus in E. case_bool_decide as Hty; [| by simplify_eq].
  pose proof HI as (H1 & H2 & H3 & H4 & H5). set (alive := default (node_alive_ c) result) in *.
  set (c1 := set_raft _ c) in E. change (node_alive_ c1) with (node_alive_ c) in E.
  destruct (eqb alive (node_alive_ c)) eqn:Ea; [| destruct alive eqn:Eal].
  - apply eqb_prop in Ea. simplify_eq. split; [| done]. unfold cinv. cbn. split_and!; try done; try tauto.
    intros [? ?]%orb_false_iff. split; [| done]. rewrite <- Ea. by apply negb_false_iff.
  - simplify_eq. split; [| done]. unfold cinv. cbn. split_and!; try done; try tauto.
  - destruct (stepDownToFollower kRaftOnly 0 (raft c1)) as [s o] eqn:Es.
    assert (block_leader_promotion_ s = true) as Hb by (unfold stepDownToFollower in Es; by simplify_eq).
    destruct (startDeadMetadataHandler forks (set_raft s c1)) as [c2 o2] eqn:Ed.
    apply startDeadMetadataHandler_spec in Ed as (HI2 & Hacc & Hr & Hal & Hf & Hbo); [| | exact Hty].
    2: { unfold cinv. cbn. rewrite Hb. split_and!; done || tauto. }
    destruct (scheduleDeadRecovery c2) as [c3 o3] eqn:Esch. simplify_eq.
    destruct HI2 as (G1 & G2 & G3 & G4 & G5). unfold scheduleDeadRecovery in Esch.
    split; [destruct (dead_recovery_pending_ c2); simplify_eq; unfold cinv; cbn; rewrite Hr in *; cbn in *;
      split_and!; try done; try tauto; intros; congruence |].
    eapply (accounted_trans c (set_raft s c1)); [apply monitor_raft |].
    eapply accounted_trans; [exact Hacc |]. destruct (dead_recovery_pending_ c2); simplify_eq; [apply quiet_nil | apply quiet_dead].
Qed.

Lemma deadRecovery_spec forks c c' out :
  cinv false c → deadRecovery forks c = (c', out) → cinv false c' ∧ accounted c c' out.
Proof.
  intros HI E. unfold deadRecovery in E. destruct (node_alive_ c) eqn:Ha; [by simplify_eq |].
  destruct (command_pid_ c || _).
  - unfold scheduleDeadRecovery, cancelDeadRecovery in E. cbn in E. simplify_eq. split; [done | apply quiet_dead].
  - assert (cinv false (set_dead_recovery false c)) as HI1 by done.
    destruct (nodeDemote_spec _ _ _ _ HI1 E) as (? & ? & _). done.
Qed.

Lemma commandTimeout_spec c c' out :
  cinv false c → commandTimeout c = (c', out) → cinv false c' ∧ accounted c c' out.
Proof.
  intros HI E. unfold commandTimeout in E. pose proof (cinv_no_command c HI) as Hnone.
  destruct (match command_type_ c with kCmdPromote => _ | _ => _ end) as [c1 o1] eqn:E1.
  assert (cinv false c1 ∧ command_pid_ c1 = command_pid_ c ∧
    if command_pid_ c then ∃ r, monitor (believed c) o1 = Some r ∧ monitor r [Killed] = Some Idle else o1 = []) as (HI1 & Hp & Hm).
  { unfold believed. destruct (command_pid_ c) eqn:Hpid.
    - destruct (command_type_ c) eqn:Ety; [simplify_eq; split_and!; [done.. | by eexists; split; reflexivity] | | simplify_eq; split_and!; [done.. | by eexists; split; reflexivity]..].
      destruct (handlePromotionFailure_spec _ _ _ HI E1) as (? & _ & ? & Hp & _). split_and!; [done | congruence |]. by eexists.
    - rewrite (Hnone eq_refl) in E1. simplify_eq. by split_and!. }
  unfold accounted, stopSlowCommand in *. rewrite Hp in E.
  destruct (command_pid_ c) eqn:Hpid; simplify_eq.
  - destruct Hm as (r & Hm & Hk). split; [by apply clear_command_cinv |]. by rewrite (monitor_app _ _ _ _ Hm).
  - split; [done |]. unfold believed. by rewrite Hp, Hpid.
Qed.

Lemma backoffExpired_spec c : cinv false c → cinv false (backoffExpired c).
Proof. intros (H1 & H2 & H3 & H4 & H5). unfold cinv. cbn. split_and!; try done; tauto. Qed.

Lemma callbacks_spec forks out : ∀ c c' out',
  cinv false c → callbacks forks out c = (c', out') → cinv false c' ∧ accounted c c' out' ∧ raft c' = raft c.
Proof.
  induction out as [| e out IH]; intros c c' out' HI E; cbn [callbacks] in E; [by simplify_eq |].
  destruct (match e with NodePromote => _ | NodeDemote => _ | _ => _ end) as [c1 o1] eqn:E1.
  destruct (callbacks forks out c1) as [c2 o2] eqn:E2. simplify_eq.
  assert (cinv false c1 ∧ accounted c c1 o1 ∧ raft c1 = raft c) as (HI1 & A1 & R1).
  { destruct e; simplify_eq; try done.
    - destruct (nodePromote_spec _ _ _ _ HI E1) as (? & ? & ? & _). done.
    - destruct (nodeDemote_spec _ _ _ _ HI E1) as (? & ? & ? & _). done. }
  destruct (IH c1 c' o2 HI1 E2) as (HI2 & A2 & R2). split_and!; [done | | congruence].
  change (accounted c c' ([Raft e] ++ o1 ++ o2)). eapply accounted_trans; [apply (monitor_raft _ [e]) | by eapply accounted_trans].
Qed.

(** ** Every step *)

Lemma raft_event_block opt el self ce e s s' out :
  raft_event ce = Some e → handle opt el self e s = Ok (s', out) →
  block_leader_promotion_ s' = block_leader_promotion_ s.
Proof. intros Hce H. handler H; try done; by destruct ce. Qed.

(** A node that may not stand for election and follows keeps following. *)
Lemma blocked_follower opt el self ce e s s' out :
  raft_event ce = Some e → handle opt el self e s = Ok (s', out) →
  block_leader_promotion_ s = true → type s = kFollower → president s = false →
  type s' = kFollower ∧ president s' = false ∧ NodePromote ∉ out ∧ NodeDemote ∉ out.
Proof.
  intros Hce H Hb Ht Hp. handler H; conditions; try (by destruct ce); split_and!; try done; try set_solver.
Qed.

Lemma callbacks_quiet forks out c :
  NodePromote ∉ out → NodeDemote ∉ out → callbacks forks out c = (c, Raft <$> out).
Proof.
  induction out as [| e out IH]; intros H1 H2; [done |]. cbn [callbacks].
  apply not_elem_of_cons in H1 as [? ?], H2 as [? ?]. destruct e; try done; by rewrite IH.
Qed.

Lemma set_raft_cinv s c :
  block_leader_promotion_ s = block_leader_promotion_ (raft c) → cinv false c → cinv false (set_raft s c).
Proof. intros E (H1 & H2 & H3 & H4 & H5). unfold cinv. cbn. rewrite E. by split_and!. Qed.

Lemma chandle_inv opt el self forks e c c' out :
  cinv el c → chandle opt el self forks e c = Ok (c', out) → cinv el c' ∧ accounted c c' out.
Proof.
  intros HI E. unfold chandle in E. destruct (raft_event e) as [re |] eqn:Ere.
  - destruct (handle opt (fun _ => el) self re (raft c)) as [[s o] | | |] eqn:Eh; cbn [mbind res_bind] in E; simplify_eq.
    pose proof (raft_event_block _ _ _ _ _ _ _ _ Ere Eh) as Hb. destruct el.
    + destruct HI as (H1 & H2 & H3 & H4 & H5). destruct (H5 eq_refl) as (B & T & P & C).
      destruct (blocked_follower _ _ _ _ _ _ _ _ Ere Eh B T P) as (? & ? & ? & ?).
      rewrite callbacks_quiet in E by done. simplify_eq. split; [| apply monitor_raft].
      unfold cinv. cbn. rewrite Hb. split_and!; done.
    + destruct (callbacks forks o (set_raft s c)) as [c1 o1] eqn:Ec. simplify_eq.
      destruct (callbacks_spec forks o (set_raft s c) c' out) as (? & ? & _); [by apply set_raft_cinv | done | done].
  - destruct el; [by simplify_eq |]. destruct e; cbn in Ere; simplify_eq.
    + destruct (checkCommandStatus forks status c) eqn:E1. simplify_eq. by eapply checkCommandStatus_spec.
    + destruct (checkNodeStatus forks result c) eqn:E1. simplify_eq. by eapply checkNodeStatus_spec.
    + destruct (deadRecovery forks c) eqn:E1. simplify_eq. by eapply deadRecovery_spec.
    + destruct (commandTimeout c) eqn:E1. simplify_eq. by eapply commandTimeout_spec.
    + split; [by apply backoffExpired_spec | done].
Qed.

Lemma run_inv opt el self c out :
  run opt el self c out → cinv el c ∧ monitor Idle out = Some (believed c).
Proof.
  induction 1 as [| c out c1 o1 Hr [HI HM] Hs].
  - split; [| done]. unfold cinv. cbn. by split_and!.
  - destruct Hs as [forks e c' out' Hs]. destruct (chandle_inv _ _ _ _ _ _ _ _ HI Hs) as [? Ha]. split; [done |].
    by rewrite (monitor_app _ _ _ _ HM).
Qed.

Lemma controller_type opt self forks e c c' out :
  raft_event e = None → chandle opt false self forks e c = Ok (c', out) →
  type (raft c') = kFollower ∨ type (raft c') = type (raft c).
Proof.
  intros Hre E. unfold chandle in E. rewrite Hre in E. destruct e; cbn in Hre; simplify_eq.
  all: unfold checkCommandStatus, demotion_finished, promotion_finished, promotion_result, checkNodeStatus,
    startDeadMetadataHandler, deadRecovery, scheduleDeadRecovery, cancelDeadRecovery, commandTimeout, stopSlowCommand,
    handlePromotionFailure, startPromotionBackoff, startFloatingIpManager, nodePromote, nodeDemote, runSlowCommand,
    stopFloatingIpManager, demoteLeader, stepDownToFollower, backoffExpired in *.
  all: controller E; auto.
Qed.

(** ** The theorems *)

(** C30: Whatever packets arrive, timers fire, commands end, hang or cannot be started, the commands that
    change the metadata server (promote, demote, dead) never overlap: one starts only when none is running, and
    the controller knows which one is running.  The clean-up after a promotion runs when no command
    is running, or beside the promotion if this has timed out; then the promotion is killed before
    anything else is started. *)
Theorem commands_never_overlap opt el self c out :
  run opt el self c out → monitor Idle out = Some (believed c).
Proof. intros H. apply (run_inv _ _ _ _ _ H). Qed.

(** A follower becomes a candidate or a leader only when its election timer fires while its
    metadata server is alive and there is no back-off after a failed promotion; an elector
    never does. *)
Theorem only_healthy_nodes_stand opt el self c out forks e c' out' :
  run opt el self c out → chandle opt el self forks e c = Ok (c', out') →
  type (raft c) = kFollower → type (raft c') ≠ kFollower →
  el = false ∧ node_alive_ c = true ∧ promotion_backoff_active_ c = false ∧ ∃ v, e = ElectionTimer v.
Proof.
  intros Hr E Ht Ht'. destruct (run_inv _ _ _ _ _ Hr) as [HI _].
  destruct (chandle_inv _ _ _ _ _ _ _ _ HI E) as [HI' _].
  destruct el; [destruct HI' as (_ & _ & _ & _ & H); by destruct (H eq_refl) as (_ & ? & _) |].
  destruct (raft_event e) as [re |] eqn:Ere.
  2: { destruct (controller_type _ _ _ _ _ _ _ Ere E) as [? | ?]; congruence. }
  unfold chandle in E. rewrite Ere in E.
  destruct (handle opt _ self re (raft c)) as [[s o] | | |] eqn:Eh; cbn [mbind res_bind] in E; simplify_eq.
  destruct (callbacks forks o (set_raft s c)) as [c1 o1] eqn:Ec. simplify_eq.
  pose proof (raft_event_block _ _ _ _ _ _ _ _ Ere Eh) as Hb.
  destruct (callbacks_spec forks o (set_raft s c) c' out') as (_ & _ & Er); [by apply set_raft_cinv | done |].
  rewrite Er in Ht'. cbn in Ht'.
  destruct (handle_type _ _ _ _ _ _ _ Eh) as [? | [[v ->] | [? _]]]; [done | | done].
  destruct (block_leader_promotion_ (raft c)) eqn:Eb.
  - cbn [handle] in Eh. unfold electionTimeout in Eh. rewrite Eb in Eh. simplify_eq.
  - destruct HI as (_ & H2 & _). destruct (H2 Eb). split_and!; try done. destruct e; simplify_eq. eauto.
Qed.

(** When a promotion ends: a leader gets the floating IP; a node that is no longer the leader
    is demoted; after a failure the node steps down, may not stand for election for a
    while, and is demoted. *)
Theorem promotion_outcomes opt self c out forks ok c' out' :
  run opt false self c out → command_type_ c = kCmdPromote →
  checkCommandStatus forks (Some ok) c = (c', out') → promotion_outcome forks ok c c'.
Proof.
  intros Hr Hty E. destruct (run_inv _ _ _ _ _ Hr) as [HI _].
  assert (command_pid_ c = true) as Hpid by (destruct HI as [H _]; apply H; by rewrite Hty).
  unfold checkCommandStatus in E. rewrite Hpid, Hty in E.
  destruct (promotion_finished forks ok c) as [c1 o1] eqn:E1. simplify_eq.
  by destruct (promotion_finished_spec _ _ _ _ _ HI Hpid Hty E1) as (_ & _ & ?).
Qed.

(** The back-off doubles with every failure up to a minute. *)
Lemma backoff_doubles streak : 0 < streak → computePromotionBackoffMs streak = Z.min (1000 * 2 ^ (streak - 1)) 60000.
Proof.
  intros H. unfold computePromotionBackoffMs. rewrite (proj2 (Z.leb_gt _ _) H).
  destruct (Z.le_gt_cases (streak - 1) 6) as [Hs | Hs]; [by rewrite (Z.min_l (streak - 1) 6) |].
  rewrite (Z.min_r (streak - 1) 6) by lia. change (1000 * 2 ^ 6) with 64000.
  assert (2 ^ 6 <= 2 ^ (streak - 1)) by (apply Z.pow_le_mono_r; lia). lia.
Qed.

(** The clean-up of a promotion that has timed out is started while the promotion still runs, although
    [handlePromotionFailure] is documented to be called when the promotion has ended. *)
Theorem cleanup_overlaps_promotion opt self c out :
  run opt false self c out → command_type_ c = kCmdPromote →
  ∃ rest, snd (commandTimeout c) = Cleanup :: rest ∧ monitor Idle (out ++ [Cleanup]) = Some CleanedUp.
Proof.
  intros Hr Hty. destruct (run_inv _ _ _ _ _ Hr) as [HI HM]. unfold commandTimeout. rewrite Hty. unfold handlePromotionFailure.
  destruct (demoteLeader (raft c)) as [s o]. destruct (startPromotionBackoff _ _) as [c1 o1]. destruct (stopSlowCommand c1) as [c2 o2]. eexists. split; [done |].
  rewrite (monitor_app _ _ _ _ HM). unfold believed. rewrite Hty. destruct HI as [H _]. by rewrite (proj2 H) by (by rewrite Hty).
Qed.

(** [handlePromotionFailure] promises a demotion of the metadata server, but after a time-out
    the command is killed and none is running, so [checkCommandStatus] never starts it. *)
Theorem promotion_timeout_loses_demotion opt self c out :
  run opt false self c out → command_type_ c = kCmdPromote →
  let c' := fst (commandTimeout c) in
  is_demote_pending_ c' = true ∧ command_pid_ c' = false ∧
  ∀ forks status, checkCommandStatus forks status c' = (c', []).
Proof.
  intros Hr Hty. destruct (run_inv _ _ _ _ _ Hr) as [HI _].
  unfold commandTimeout. rewrite Hty. destruct (handlePromotionFailure c) as [c1 o1] eqn:E1.
  destruct (handlePromotionFailure_spec _ _ _ HI E1) as (_ & _ & _ & Hp & _ & _ & Hd & _).
  assert (command_pid_ c1 = true) as Hp1 by (rewrite Hp; destruct HI as [H _]; apply H; by rewrite Hty).
  unfold stopSlowCommand. rewrite Hp1. cbn. split_and!; done.
Qed.

(** A promotion that waits for a demotion is forgotten when the demotion is killed. *)
Theorem demotion_timeout_loses_promotion c :
  command_type_ c = kCmdDemote → command_pid_ c = true → is_promote_pending_ c = true →
  let c' := fst (commandTimeout c) in
  is_promote_pending_ c' = true ∧ ∀ forks status, checkCommandStatus forks status c' = (c', []).
Proof. intros Hty Hp Hpend. unfold commandTimeout, stopSlowCommand. rewrite Hty, Hp. done. Qed.

(** After the timer of [scheduleDeadRecovery] has restarted the metadata server once, nothing
    schedules it again while the server stays dead. *)
Theorem dead_recovery_is_not_repeated forks forks' result c c1 out1 c2 out2 :
  node_alive_ c = false → command_pid_ c = false → command_type_ c = kCmdNone →
  deadRecovery forks c = (c1, out1) → result ≠ Some true → checkNodeStatus forks' result c1 = (c2, out2) →
  dead_recovery_pending_ c2 = false ∧ node_alive_ c2 = false ∧ out2 = [].
Proof.
  intros Ha Hp Hty E1 Hres E2. unfold deadRecovery in E1. rewrite Ha, Hp, Hty in E1. cbn in E1.
  assert (dead_recovery_pending_ c1 = false ∧ node_alive_ c1 = false) as [Hd Ha1].
  { unfold nodeDemote, stopFloatingIpManager, runSlowCommand in E1. controller E1; done. }
  unfold checkNodeStatus in E2. rewrite Ha1 in E2. case_bool_decide; [| by simplify_eq].
  assert (default false result = false) as Hf by (destruct result as [[] |]; done).
  rewrite Hf in E2. cbn in E2. rewrite Ha1 in E2. cbn in E2. by simplify_eq.
Qed.

(** ** Instances *)

Lemma crun_run opt el self es : ∀ c out c' out',
  run opt el self c out → crun opt el self es c = Some (c', out') → run opt el self c' (out ++ out').
Proof.
  induction es as [| [forks e] es IH]; intros c out c' out' Hr E; cbn [crun] in E.
  - simplify_eq. by rewrite app_nil_r.
  - destruct (chandle opt el self forks e c) as [[c1 o1] | | |] eqn:E1; try done.
    destruct (crun opt el self es c1) as [[c2 o2] |] eqn:E2; [| done]. cbn in E. simplify_eq.
    rewrite app_assoc. eapply IH; [| exact E2]. eapply run_step; [exact Hr | by econstructor].
Qed.

(** A single server whose metadata server comes alive, is elected and starts its promotion. *)
Definition one_server : Options := mk_options 1 300 500 20 1 5.

Lemma promoting_run :
  ∃ c out, run one_server false 0 c out ∧ command_type_ c = kCmdPromote ∧ type (raft c) = kLeader.
Proof.
  destruct (crun one_server false 0 [(true, NodeStatus (Some true)); (true, ElectionTimer 5)] (cinit one_server 0))
    as [[c out] |] eqn:E; [| vm_compute in E; discriminate E].
  exists c, ([] ++ out). split; [eapply crun_run; [apply run_init | exact E] |].
  vm_compute in E. injection E as <- <-. split; reflexivity.
Qed.

Lemma commands_never_overlap_witness :
  ∃ c out, monitor Idle out = Some (Busy kCmdPromote) ∧ run one_server false 0 c out.
Proof.
  destruct promoting_run as (c & out & Hr & Hty & _). exists c, out. split; [| exact Hr].
  rewrite (commands_never_overlap one_server false 0 c out Hr). unfold believed. rewrite Hty.
  destruct (run_inv _ _ _ _ _ Hr) as [[H _] _]. rewrite (proj2 H) by (by rewrite Hty). reflexivity.
Defined.

Lemma only_healthy_nodes_stand_witness :
  ∃ c out c' out', run one_server false 0 c out ∧
    chandle one_server false 0 true (ElectionTimer 5) c = Ok (c', out') ∧ node_alive_ c = true.
Proof.
  destruct (crun one_server false 0 [(true, NodeStatus (Some true))] (cinit one_server 0)) as [[c out] |] eqn:E;
    [| vm_compute in E; discriminate E].
  assert (run one_server false 0 c ([] ++ out)) as Hr by (eapply crun_run; [apply run_init | exact E]).
  destruct (chandle one_server false 0 true (ElectionTimer 5) c) as [[c' out'] | | |] eqn:E';
    vm_compute in E; injection E as <- <-; [| vm_compute in E'; discriminate E'..].
  eexists _, _, c', out'. split; [exact Hr |]. split; [exact E' |].
  refine (proj1 (proj2 (only_healthy_nodes_stand one_server false 0 _ _ true (ElectionTimer 5) c' out' Hr E' _ _))).
  - reflexivity.
  - vm_compute in E'. injection E' as <- <-. discriminate.
Defined.

Lemma promotion_outcomes_witness :
  ∃ c out c' out', run one_server false 0 c out ∧ checkCommandStatus true (Some true) c = (c', out') ∧
    floating_ip c' = true.
Proof.
  destruct promoting_run as (c & out & Hr & Hty & Hl).
  destruct (checkCommandStatus true (Some true) c) as [c' out'] eqn:E. exists c, out, c', out'.
  split; [exact Hr |]. split; [exact E |].
  pose proof (promotion_outcomes one_server 0 c out true true c' out' Hr Hty E) as H.
  unfold promotion_outcome in H. rewrite bool_decide_true in H by exact Hl. exact (proj1 H).
Defined.

Lemma promotion_timeout_loses_demotion_witness :
  ∃ c out, run one_server false 0 c out ∧ is_demote_pending_ (fst (commandTimeout c)) = true ∧
    ∀ forks status, checkCommandStatus forks status (fst (commandTimeout c)) = (fst (commandTimeout c), []).
Proof.
  destruct promoting_run as (c & out & Hr & Hty & _). exists c, out. split; [exact Hr |].
  destruct (promotion_timeout_loses_demotion one_server 0 c out Hr Hty) as (H1 & _ & H2). split; [exact H1 | exact H2].
Defined.

Lemma dead_recovery_is_not_repeated_witness :
  let c := set_node_alive false (cinit one_server 0) in
  let '(c1, out1) := deadRecovery false c in
  let '(c2, out2) := checkNodeStatus true (Some false) c1 in
  dead_recovery_pending_ c2 = false ∧ node_alive_ c2 = false ∧ out2 = [].
Proof.
  cbn zeta. destruct (deadRecovery false _) as [c1 out1] eqn:E1. destruct (checkNodeStatus true _ c1) as [c2 out2] eqn:E2.
  refine (dead_recovery_is_not_repeated false true (Some false) _ c1 out1 c2 out2 _ _ _ E1 _ E2); done.
Defined.
End URaftController.
